(* ===== verification/_CoqProject ===== *)
-Q . S2P
Prelude.v
Leb128.v
Obj.v
Tab.v
TabChain.v
TabWf.v
TabPut.v
TabResize.v
TabRehash.v
TabSpec.v
TabTheorems.v
TabIter.v
TabIterSpec.v
TabIterTheorems.v
StrHash.v
Str.v
StrTheorems.v
Bc.v
Cstr.v
Sbuf.v
Proto.v
ProtoOps.v
BcWrite.v
BcRead.v
BcSpec.v
BcWriteSpec.v
BcReadSpec.v
BcLoad.v
BcRun.v
BcTheorems.v
DebugInfo.v
ProtoTheorems.v
Ir.v
IrWf.v
IntOps.v
IntFacts.v
Fold.v
IrSem.v
FoldSpec.v
FoldEngine.v
FoldLemmas.v
FoldKfold.v
FoldAlg.v
FoldBits.v
FoldReassoc.v
FoldConv.v
FoldRules.v
FoldSound.v
IrTrace.v
FoldTheorems.v
IrTheorems.v
Dce.v
DceTheorems.v
GcObj.v
Gc.v
GcSweep.v
GcApi.v
GcInv.v
GcMark.v
GcTraverse.v
GcPropagate.v
GcSweepSpec.v
GcAtomic.v
GcSafe.v
GcMutator.v
GcTheorems.v
GcSeal.v
GcSealPass.v
GcSealTheorems.v
StrPat.v
StrPatSpec.v
StrPatRefine.v
StrPatFind.v
StrPatTheorems.v
Sort.v
TabLib.v
TabLibTheorems.v
Lex.v
LexSpec.v
LexTheorems.v
