(* ===== verification/Prelude.v ===== *)
(** * Verification of LuaVela

    LuaVela is an implementation of Lua 5.1 in C, derived from LuaJIT 2: a
    parser that produces bytecode, an interpreter, a tracing just-in-time
    compiler, a garbage collector and the libraries.  This development models
    the parts of it that carry data structures and algorithms of their own, as
    executable definitions over the integers of the machine, and proves what
    these parts promise.  Paths below are under src/src/.

    ** Parts of the program and their models

    - Values ([Obj.v]; lj_obj.h, lj_def.h, uj_obj.c, utils/fp.h).  A tagged value is a
      constructor of [TValue]; a number is the pattern of its double.  Pointers are
      addresses.
    - Integers in LEB128 ([Leb128.v]; utils/leb128.c).
    - Tables ([Tab.v], [TabIter.v]; lj_tab.c).  A table is a record of its array part and of
      its hash part: nodes with collision chains, hash mask and free pointer.  Getters, setters,
      the insertion of keys with the moving of colliding nodes, the choice of sizes, resizing,
      copying, traversal, length and the table built-ins are one definition each.  The operations
      run in a state and error monad whose third outcome is undefined behaviour.
      [TabChain.v] to [TabSpec.v] and [TabIterSpec.v] hold the invariant [twf] and the proofs,
      [TabTheorems.v] and [TabIterTheorems.v] the theorems.
    - Strings ([StrHash.v], [Str.v], [StrTheorems.v]; utils/strhash, uj_strhash.c, uj_str.c).
      The three hash functions, the two string tables of a state (own and sealed strings) with
      growing, shrinking and relinking, interning, comparison, trimming and case conversion.
      The class [HashF] is what interning needs of a hash function.
    - Bytecode ([Bc.v]; lj_bc.h): operand modes, packing and patching of instructions.
    - Buffers and C strings ([Sbuf.v], [Cstr.v]; uj_sbuf.c, uj_cstr.c).
    - Prototypes ([Proto.v], [ProtoOps.v], [DebugInfo.v]; lj_obj.h, uj_proto.c, and from
      frontend/lj_parse.c the functions that store debug information): a function with its
      arrays, constants and the functions defined inside.  The class [StrTable] is what
      prototypes need of strings; [gstate_strtable] shows that [Str.v] provides it.
    - Dumping and loading functions ([BcWrite.v], [BcRead.v]; frontend/lj_bcwrite.c,
      frontend/lj_bcread.c): the writer for any callback, the reader for any sequence of
      blocks.  [BcSpec.v] is the reference encoding, [BcWriteSpec.v] to [BcRun.v] the proofs,
      [BcTheorems.v] and [ProtoTheorems.v] the theorems.
    - The IR of the trace compiler ([Ir.v], [IrTrace.v]; jit/lj_ir.c, lj_ir.h, lj_iropt.h, the
      start of a trace in jit/lj_trace.c and jit/lj_record.c): the buffer that grows at both
      ends, opcode chains, interned constants, emission and rollback.  [IrWf.v] is the invariant.
    - Folding ([Fold.v], [IntOps.v]; jit/opt/fold.c, and ffi/lj_carith.c, utils/uj_math.c for its
      arithmetic): the fold functions on integers with the keys that select them, the engine with
      its retries and nested calls, and CSE.  [IrSem.v] gives the integer IR a meaning, [FoldSpec.v]
      says what a fold function must do, [FoldEngine.v] to [FoldSound.v] are the proofs, by kind of
      rule, [FoldTheorems.v] and [IrTheorems.v] the theorems.
    - Dead code elimination ([Dce.v], [DceTheorems.v]; jit/opt/dce.c): marking from the snapshots,
      backward propagation, rerouting of the opcode chains and replacement by NOPs.
    - The garbage collector ([GcObj.v], [Gc.v], [GcSweep.v], [GcApi.v]; lj_gc.c, lj_gc.h, uj_upval.c,
      uj_udata.c, the stack operations of uj_state.c that it calls, the free functions of all types,
      and from uj_capi.c the setters with barriers).  The heap maps addresses to objects of all nine
      types, whose tables are those of [Tab.v] and whose trace constants are cells of [Ir.v]; the lists
      that the code threads through the objects are lists of addresses.  Marking, the traversal of each
      type (stacks by frames, weak tables, traces), the barriers, the sweep, userdata and cdata
      finalizers, the atomic phase, the state machine with its step sizes, and full collection are one
      definition each.  [GcInv.v] has the references of an object and the order of marking,
      [GcMark.v] to [GcPropagate.v] the proofs on marking, [GcSweepSpec.v] on sweeping, [GcAtomic.v] on the
      parts of the atomic phase, [GcSafe.v] on a cycle, [GcMutator.v] on the program's stores,
      [GcTheorems.v] the theorems.
    - Immutable and sealed object graphs ([GcSeal.v]; uj_obj_immutable.c, uj_obj_seal.c, uj_obj.c, the
      traversals of tables, functions, prototypes and userdata for them, lua_gc, luaE_seal and
      lj_gc_freeall) on the heap of the collector: a depth-first pass that marks and checks, a pass that
      commits or undoes, the fixing of the lists and of the string tables.  [GcSealPass.v] has the search
      for any traversal and relates the passes to it, [GcSealTheorems.v] has the theorems.
    - Pattern matching ([StrPat.v]; lib/string.c, utils/lj_char.c and the test for special characters of
      uj_str.c): the matcher with its mutable captures and its errors, string.find, string.match,
      string.gmatch and string.gsub, whose replacement functions are arguments.  [StrPatSpec.v] parses a
      pattern into items and enumerates all matches, [StrPatRefine.v] and [StrPatFind.v] relate the code
      to it, [StrPatTheorems.v] has the theorems.
    - The table library ([Sort.v], [TabLib.v]; lib/table.c, raw access of uj_capi.c): sorting over the class
      [World], which says how positions are read and written and values compared, insertion and removal on
      the tables of [Tab.v], with pointers that may be stale.  [TabLibTheorems.v] has the theorems.
    - The lexer ([Lex.v]; frontend/lj_lex.c, lj_lex.h, the functions of frontend/lj_parse.c that anchor
      constants, and addquoted of lib/string.c): the buffer of input with its counter, numbers, strings,
      escapes, long brackets, comments, all tokens, the start of a text, looking ahead and reserved words.
      The class [LexEnv] is what the lexer calls, [LexLaws] what it relies on; [parser_laws] shows that the
      string table of [Str.v] and a table of constants provide it.  [LexSpec.v] is a reference on the text
      with the proof that the code follows it, [LexTheorems.v] has the theorems.

    ** How the parts interact

    The dump format uses the LEB128 codec and the buffers; loading a dump interns its strings in
    the string table and fills its template tables with the operations of tables, so the theorem on
    the round trip rests on the refinement theorems of both.  The debug information that the parser
    stores is read by uj_proto.c and kept by a dump.  The trace compiler patches bytecode, which
    the writer undoes.  The collector looks metamethods up in tables, rehashes the table of finalizers
    and shrinks the string table with the operations of those parts.  The fold engine emits and interns
    through the operations of the IR.  The fixed string search of patterns is that of C strings.  The lexer
    interns its strings, knows reserved words by their string objects, anchors strings in a table, and reads
    back what string.format quotes.

    ** What the theorems show

    - Tables: every history of assignments refines a map in which the last assignment wins, for any
      collisions, rehashing and resizing; lookup equals a scan; errors leave the map alone; a
      traversal meets each pair once; the length is a border.
    - Strings: each content is interned once, so equality of addresses is equality of contents,
      through growing, shrinking and sealing; comparison by words is the lexicographic order.
    - Dumps: writing and loading is the identity on functions without cdata constants, for every
      cutting of the stream; what the callback is given; which streams are refused; what a compiled
      function is dumped as; lines and names are found again.
    - Folding: the result has the value of the instruction in every run of the trace, no run is lost,
      types are kept, a trace is given up only if its guard always fails, and the engine ends.
    - Dead code elimination: exactly the live instructions are kept, and the trace that is left has the
      same runs, with the same values wherever a snapshot refers.
    - Collection: for every interleaving of the program's stores with the marking steps, what the
      program can reach after the atomic phase survives all sweeps with its contents, and what it could
      not reach from the start of the cycle on is freed; the gray lists hold exactly the gray objects;
      propagation ends with all references of marked objects marked; a sweep frees exactly the dead.
      The steps of the program are those of [mstep]; the one setter that is missing there,
      [lua_setupvalue] on a Lua function, does not keep this ([lua_setupvalue_frees_reachable]).
    - Immutability and sealing: making a graph immutable marks exactly what is reachable, or changes
      nothing and reports an error; after sealing, everything reachable is sealed and no sealed object
      refers to one that is not; a sweep keeps sealed objects whatever their colour.  A failed sealing
      leaves the collector stopped ([failed_seal_stops_collector]), a sealed function may have an
      environment that is collected ([sealed_function_loses_environment]), and the main thread becomes
      immutable with a graph that refers to it ([immutable_main_thread]).
    - Patterns: the matcher with its backtracking over mutable captures gives the first match of the
      enumeration, or its first error; it finds a match exactly if there is one; the leftmost match is
      found; the fast path for fixed strings agrees with the matcher; substitution rebuilds the source from
      its matches; iteration ends ([gmatch_ends]).
    - Table library: sorting gives a sorted permutation if the comparison is an order, and ends within the
      array for any comparison; removal moves the values down.  With a value that a rehash moves, removal
      loses it ([table_remove_stale_pointer]).
    - Lexer: the tokens are those of the reference whatever the blocks are, no octet outside of a block is
      read although the counter wraps around, every call ends; lines are counted right; printed tokens and
      quoted strings are read back; looking ahead changes nothing ([lj_lex_lookahead_next]); dumps behind a
      header are refused ([lj_lex_setup_correct]).
    - IR: constants are interned once, CSE finds what it emitted, rollback undoes emission.
    - Codecs and arithmetic: round trips, bounds, floored modulo, powers modulo 2^64.
    - Where the code does not do what it means to, a theorem says so (for example
      [leb128_sign_extension_undefined], [bool_key_stale_payload], [cse_ignores_type],
      [div_negneg_wrong], [city_permute_is_lost], [knum_255_not_doubled],
      [cdata_constants_undefined], [bcread_without_end_mark], [dump_downrec_wrong],
      [dce_chain_drops_kept], [find_accepts_malformed], [gsub_trailing_escape],
      [bracket_range_escape]).

    ** Bounds and fuel

    - Loops over lists are structural.  The LEB128 loops have fuel 10 ([LEB128_U64_MAXSIZE]), the
      most octets of a 64-bit value.  Chains of nodes are followed for at most as many steps as there are
      nodes, and [REHASH_DEPTH] 2 bounds the recursion of insertion through rehashing: the theorems
      show that well-formed tables never need more.  [SEARCH_BITS] 33 bounds the binary searches over
      32-bit indices.  Buffers double at most 64 times.  The reader has fuel for each block and each
      octet of its stream.
    - [gc_mark] recurses through upvalues and userdata only, [MARK_DEPTH] 3 levels.  [gc_propagate_gray]
      has fuel for each object of the heap and of the gray list, [gc_fullsweep] for each object twice;
      the theorems show that this is enough.  [lj_gc_step] and [lj_gc_fullgc] have a fuel argument.
    - The passes of sealing recurse at most once into each object, [mark_fuel] is the size of the heap
      plus one, and the theorems show that it is enough.
    - The matcher has the length of the pattern as fuel, the loop of gsub the length of the
      source plus two, the other loops what is left of the source; sorting recurses at most to the logarithm of the length plus two; the theorems show
      that this is enough.
    - Each loop of the lexer has a turn for each octet that is left and for the end of the stream; the
      theorems show that this is enough.  They assume that a text, with its lines, stays below the limits
      of strings and lines by a few octets ([room]).
    - The fold engine has a fuel argument: the theorems hold for every fuel, and
      [lj_opt_fold_terminates] shows that enough fuel exists.  They assume that the references of
      constants, which count downwards, stay above [KLIM], 4096: below it an operand that is a reference
      reads like a literal, and nothing in the code prevents this.

    ** Not modelled

    - The interpreter (assembly), the recorder, register allocation and code generation, the FFI, profilers
      and allocators.  Of the C API there are four setters and raw integer access; of the standard library
      pattern matching, quoting, and insertion, removal and sorting of tables.
    - The parser, but for its debug information and the anchoring of constants.  The conversion of number
      literals (utils/strscan.c) is an argument of the lexer: its theorems hold for any conversion.
    - Floating-point folding: doubles are patterns here, their arithmetic is not defined.
    - Memory exhaustion: allocation succeeds.  Hooks and profiler states around finalizers.
    - Text of messages that printf formats.

    ** What could come next

    Number scanning (utils/strscan.c) with correct rounding, the parser's expressions and jump lists, the
    forwarding of loads and stores (jit/opt/mem.c), the formats of string.format.

    This file holds what all parts share: machine integers, lists and the tactics. *)

From stdpp Require Import base list numbers.
From Stdlib Require Import ZArith Lia.

Declare Scope vela_scope.
Delimit Scope vela_scope with vela.
#[global] Open Scope Z_scope.

(** ** Machine integers

    An unsigned [w]-bit C value is a [Z] in [0, 2^w); a signed one is a [Z] in
    [-2^(w-1), 2^(w-1)).  Every arithmetic step of the C code that can leave
    its range is wrapped explicitly by one of these functions. *)

Definition wrapu (w x : Z) : Z := x `mod` 2 ^ w.
Definition wraps (w x : Z) : Z :=
  let u := x `mod` 2 ^ w in if u <? 2 ^ (w - 1) then u else u - 2 ^ w.

Definition u8 : Z → Z := wrapu 8.
Definition u32 : Z → Z := wrapu 32.
Definition u64 : Z → Z := wrapu 64.
Definition i32 : Z → Z := wraps 32.
Definition i64 : Z → Z := wraps 64.

Definition in_u (w x : Z) : Prop := 0 ≤ x < 2 ^ w.
Definition in_s (w x : Z) : Prop := - 2 ^ (w - 1) ≤ x < 2 ^ (w - 1).

#[global] Instance in_u_dec w x : Decision (in_u w x).
Proof. unfold in_u. apply _. Defined.
#[global] Instance in_s_dec w x : Decision (in_s w x).
Proof. unfold in_s. apply _. Defined.

Create HintDb vela.

(** ** Tactics *)

(** Turn the boolean tests of the code into the propositions they decide. *)
Ltac bprop :=
  repeat match goal with
  | H : context [Z.eqb ?a ?b = true] |- _ => rewrite Z.eqb_eq in H
  | H : context [Z.eqb ?a ?b = false] |- _ => rewrite Z.eqb_neq in H
  | H : context [Z.ltb ?a ?b = true] |- _ => rewrite Z.ltb_lt in H
  | H : context [Z.ltb ?a ?b = false] |- _ => rewrite Z.ltb_ge in H
  | H : context [Z.leb ?a ?b = true] |- _ => rewrite Z.leb_le in H
  | H : context [Z.leb ?a ?b = false] |- _ => rewrite Z.leb_gt in H
  | H : (?a && ?b)%bool = true |- _ => apply andb_prop in H as [? ?]
  | H : (?a && ?b)%bool = false |- _ => apply andb_false_iff in H
  | H : (?a || ?b)%bool = true |- _ => apply orb_true_iff in H
  | H : (?a || ?b)%bool = false |- _ => apply orb_false_iff in H as [? ?]
  | H : negb ?a = true |- _ => apply negb_true_iff in H
  | H : negb ?a = false |- _ => apply negb_false_iff in H
  end.

(** Case split on the next [if]/[match] of the goal, or of a hypothesis. *)
Ltac case_test :=
  match goal with
  | |- context [if ?b then _ else _] => destruct b eqn:?
  | |- context [match ?x with _ => _ end] => destruct x eqn:?
  end.
Ltac case_test_in H :=
  match type of H with
  | context [if ?b then _ else _] => destruct b eqn:?
  | context [match ?x with _ => _ end] => destruct x eqn:?
  end.

(** Linear arithmetic with division and modulo by constants. *)
Ltac dlia := Z.to_euclidean_division_equations; lia.

(** ** Facts on wrapping *)

Lemma wrapu_range w x : 0 ≤ w → in_u w (wrapu w x).
Proof. intros ?. apply Z.mod_pos_bound. by apply Z.pow_pos_nonneg. Qed.

Lemma wrapu_id w x : in_u w x → wrapu w x = x.
Proof. intros [? ?]. by apply Z.mod_small. Qed.

Lemma pow2_half w : 0 < w → 2 ^ w = 2 * 2 ^ (w - 1).
Proof. intros ?. rewrite <-Z.pow_succ_r by lia. f_equal. lia. Qed.

Lemma wraps_range w x : 0 < w → in_s w (wraps w x).
Proof.
  intros ?. pose proof (pow2_half w ltac:(done)).
  pose proof (Z.mod_pos_bound x (2 ^ w)) as Hm.
  pose proof (Z.pow_pos_nonneg 2 (w - 1)).
  unfold wraps, in_s. case_test; bprop; lia.
Qed.

Lemma wraps_id w x : 0 < w → in_s w x → wraps w x = x.
Proof.
  intros ? [? ?]. pose proof (pow2_half w ltac:(done)).
  pose proof (Z.pow_pos_nonneg 2 (w - 1)).
  unfold wraps. destruct (decide (0 ≤ x)).
  - rewrite Z.mod_small by lia. case_test; bprop; lia.
  - rewrite <-(Z.mod_unique x (2 ^ w) (-1) (x + 2 ^ w)) by lia.
    case_test; bprop; lia.
Qed.

#[global] Hint Resolve wrapu_range wraps_range : vela.

(** Setting disjoint bits is addition. *)
Lemma lor_disjoint_add a b k :
  0 ≤ k → 0 ≤ a < 2 ^ k → Z.lor a (b * 2 ^ k) = a + b * 2 ^ k.
Proof.
  intros Hk Ha. rewrite <-Z.shiftl_mul_pow2 by done.
  symmetry. apply Z.add_nocarry_lor, Z.bits_inj'. intros i Hi.
  rewrite Z.land_spec, Z.bits_0, Z.shiftl_spec by done.
  destruct (decide (i < k)).
  - by rewrite (Z.testbit_neg_r _ (i - k)), andb_false_r by lia.
  - rewrite <-(Z.mod_small a (2 ^ k)), Z.mod_pow2_bits_high by lia. done.
Qed.

(** Testing a bit with a mask. *)
Lemma land_pow2_zero o k : 0 ≤ k → Z.land o (2 ^ k) = 0 ↔ (o / 2 ^ k) `mod` 2 = 0.
Proof.
  intros Hk. rewrite <-Z.testbit_false by done. split.
  - intros E. apply (f_equal (λ z, Z.testbit z k)) in E.
    by rewrite Z.land_spec, Z.pow2_bits_true, andb_true_r, Z.bits_0 in E.
  - intros E. apply Z.bits_inj'. intros i Hi.
    rewrite Z.land_spec, Z.bits_0. destruct (decide (i = k)) as [->|Hne].
    + by rewrite E.
    + by rewrite Z.pow2_bits_false, andb_false_r.
Qed.

(** A masked value is an index below the size of the mask. *)
Lemma land_mask_range h m : 0 ≤ m → 0 ≤ Z.land h m ≤ m.
Proof.
  intros Hm. split; [apply Z.land_nonneg; by right|].
  apply Z.ldiff_le; [done|]. apply Z.bits_inj'. intros i Hi.
  rewrite Z.ldiff_spec, Z.land_spec, Z.bits_0.
  destruct (Z.testbit h i), (Z.testbit m i); done.
Qed.
