(* ===== verification/Leb128.v ===== *)
(** * LEB128/ULEB128 codec (src/src/utils/leb128.c, leb128.h)

    The writers emit octets one after the other into a caller's buffer and
    return how many: they are modelled as the list of octets written.  The
    readers walk a buffer (a list of octets; running off its end is undefined
    behaviour of the C code, as is a shift by the width of the operand or
    more), keep the accumulated [value] and [shift], and return either
    [ReadShort] (the C code returns 0 and leaves [*out] alone) or
    [ReadOk out i] ([*out] and the number of octets consumed). *)

From S2P Require Import Prelude.
From stdpp Require Import base list numbers option.
From Stdlib Require Import ZArith Lia.

Local Open Scope Z_scope.

Module Leb128.

Definition LINK_BIT : Z := 0x80.
Definition MIN_TWOBYTE_VALUE : Z := 0x80.
Definition PAYLOAD_MASK : Z := 0x7f.
Definition SHIFT_STEP : Z := 7.
Definition LEB_SIGN_BIT : Z := 0x40.
(** leb128.h: the most octets any 64-bit value needs; it is the loop fuel. *)
Definition LEB128_U64_MAXSIZE : nat := 10.

(** ** Writers *)

Fixpoint write_uleb128_loop (fuel : nat) (value : Z) : option (list Z) :=
  if MIN_TWOBYTE_VALUE <=? value then
    match fuel with
    | O => None
    | S f =>
        rest ← write_uleb128_loop f (Z.shiftr value SHIFT_STEP);
        Some (u8 (Z.lor (Z.land value PAYLOAD_MASK) LINK_BIT) :: rest)
    end
  else Some [u8 value].

Definition write_uleb128 (value : Z) : option (list Z) :=
  write_uleb128_loop LEB128_U64_MAXSIZE value.

(** [value] is an [int64_t]: [>>=] is an arithmetic shift, and the comparison
    converts [value + 0x40] to [uint64_t]. *)
Fixpoint write_leb128_loop (fuel : nat) (value : Z) : option (list Z) :=
  if MIN_TWOBYTE_VALUE <=? u64 (value + 0x40) then
    match fuel with
    | O => None
    | S f =>
        rest ← write_leb128_loop f (Z.shiftr value SHIFT_STEP);
        Some (u8 (Z.lor (Z.land value PAYLOAD_MASK) LINK_BIT) :: rest)
    end
  else Some [u8 (Z.land value PAYLOAD_MASK)].

Definition write_leb128 (value : Z) : option (list Z) :=
  write_leb128_loop LEB128_U64_MAXSIZE value.

(** ** Readers *)

Inductive read_result :=
  | ReadUndef                 (** the C code has no defined behaviour *)
  | ReadShort                 (** returns 0, [*out] untouched *)
  | ReadOk (out i : Z).       (** [*out = out], returns [i] *)

Fixpoint read_uleb128_loop (buffer : list Z) (guarded : bool)
    (n i value shift : Z) : read_result :=
  if guarded && (n <? i + 1) then ReadShort
  else match buffer with
  | [] => ReadUndef
  | octet :: buffer' =>
      if 64 <=? shift then ReadUndef
      else
        let value' :=
          Z.lor value (u64 (Z.shiftl (Z.land octet PAYLOAD_MASK) shift)) in
        if Z.land octet LINK_BIT =? 0 then ReadOk value' (i + 1)
        else read_uleb128_loop buffer' guarded n (i + 1) value' (shift + SHIFT_STEP)
  end.

Definition read_uleb128_gen (buffer : list Z) (guarded : bool) (n : Z) : read_result :=
  read_uleb128_loop buffer guarded n 0 0 0.

Definition read_uleb128 (buffer : list Z) : read_result :=
  read_uleb128_gen buffer false 0.

Definition read_uleb128_n (buffer : list Z) (n : Z) : read_result :=
  read_uleb128_gen buffer true n.

(** [1 << shift] in [int]: defined only while the result fits an [int]. *)
Definition int_one_shl (shift : Z) : option Z :=
  if shift <? 31 then Some (2 ^ shift) else None.

Definition leb128_sign_extend (octet value shift i : Z) : read_result :=
  if negb (Z.land octet LEB_SIGN_BIT =? 0) && (shift <? 64) then
    match int_one_shl shift with
    | Some b => ReadOk (Z.lor value (- b)) i
    | None => ReadUndef
    end
  else ReadOk value i.

Fixpoint read_leb128_loop (buffer : list Z) (guarded : bool)
    (n i value shift : Z) : read_result :=
  if guarded && (n <? i + 1) then ReadShort
  else match buffer with
  | [] => ReadUndef
  | octet :: buffer' =>
      if 64 <=? shift then ReadUndef
      else
        let value' :=
          Z.lor value (i64 (Z.shiftl (Z.land octet PAYLOAD_MASK) shift)) in
        if Z.land octet LINK_BIT =? 0
        then leb128_sign_extend octet value' (shift + SHIFT_STEP) (i + 1)
        else read_leb128_loop buffer' guarded n (i + 1) value' (shift + SHIFT_STEP)
  end.

Definition read_leb128_gen (buffer : list Z) (guarded : bool) (n : Z) : read_result :=
  read_leb128_loop buffer guarded n 0 0 0.

Definition read_leb128 (buffer : list Z) : read_result :=
  read_leb128_gen buffer false 0.

Definition read_leb128_n (buffer : list Z) (n : Z) : read_result :=
  read_leb128_gen buffer true n.

(** ** Reference view: framed sequences of 7-bit digits *)

(** Every octet but the last carries the link bit. *)
Fixpoint framed (os : list Z) : Prop :=
  match os with
  | [] => False
  | [o] => Z.land o LINK_BIT = 0
  | o :: os' => Z.land o LINK_BIT ≠ 0 ∧ framed os'
  end.

(** The number the payloads spell, least significant digit first. *)
Fixpoint digits_val (os : list Z) : Z :=
  match os with
  | [] => 0
  | o :: os' => Z.land o PAYLOAD_MASK + 2 ^ 7 * digits_val os'
  end.

Definition len (os : list Z) : Z := Z.of_nat (length os).

(** ** Octets *)

Lemma payload_mod o : Z.land o PAYLOAD_MASK = o `mod` 2 ^ 7.
Proof. apply (Z.land_ones o 7). lia. Qed.

Lemma link_octet_eq v :
  u8 (Z.lor (Z.land v PAYLOAD_MASK) LINK_BIT) = v `mod` 2 ^ 7 + 2 ^ 7.
Proof.
  rewrite payload_mod. change LINK_BIT with (1 * 2 ^ 7).
  pose proof (Z.mod_pos_bound v (2 ^ 7)).
  rewrite lor_disjoint_add by lia. apply wrapu_id. unfold in_u. lia.
Qed.

Lemma link_bit_zero o : Z.land o LINK_BIT = 0 ↔ (o / 2 ^ 7) `mod` 2 = 0.
Proof. apply (land_pow2_zero o 7). lia. Qed.

Lemma sign_bit_zero o : Z.land o LEB_SIGN_BIT = 0 ↔ (o / 2 ^ 6) `mod` 2 = 0.
Proof. apply (land_pow2_zero o 6). lia. Qed.

Lemma link_octet v :
  let o := u8 (Z.lor (Z.land v PAYLOAD_MASK) LINK_BIT) in
  Z.land o LINK_BIT ≠ 0 ∧ Z.land o PAYLOAD_MASK = v `mod` 2 ^ 7.
Proof.
  cbv zeta. rewrite link_octet_eq, link_bit_zero, payload_mod. split; dlia.
Qed.

Lemma last_octet v :
  0 ≤ v < 2 ^ 7 → u8 v = v ∧ Z.land v LINK_BIT = 0 ∧ Z.land v PAYLOAD_MASK = v.
Proof.
  intros Hv. rewrite link_bit_zero, payload_mod. split_and!.
  - apply wrapu_id. unfold in_u. lia.
  - dlia.
  - dlia.
Qed.

Lemma len_cons o os : len (o :: os) = len os + 1.
Proof. unfold len. simpl. lia. Qed.

Lemma framed_cons o os :
  Z.land o LINK_BIT ≠ 0 → framed os → framed (o :: os).
Proof. destruct os; simpl; tauto. Qed.

Lemma framed_len os : framed os → 1 ≤ len os.
Proof. destruct os; [done|]. unfold len. simpl. lia. Qed.

Lemma pow_7_succ k : 0 ≤ k → 2 ^ (7 * (k + 1)) = 2 ^ 7 * 2 ^ (7 * k).
Proof. intros ?. rewrite <-Z.pow_add_r by lia. f_equal. lia. Qed.

(** ** What the writers emit *)

Lemma write_uleb128_loop_spec fuel v os :
  0 ≤ v → write_uleb128_loop fuel v = Some os →
  framed os ∧ digits_val os = v ∧ v < 2 ^ (7 * len os) ∧
  (1 < len os → 2 ^ (7 * (len os - 1)) ≤ v).
Proof.
  revert v os. induction fuel as [|fuel IH]; intros v os Hv; simpl;
    (destruct (MIN_TWOBYTE_VALUE <=? v) eqn:E; unfold MIN_TWOBYTE_VALUE in E; bprop;
     [|intros [= <-]; destruct (last_octet v ltac:(lia)) as (-> & ? & Hp);
       simpl; rewrite Hp; unfold len; simpl; split_and!; lia || done]).
  - done.
  - destruct (write_uleb128_loop fuel (Z.shiftr v SHIFT_STEP)) as [rest|] eqn:Er; simpl;
      [|done]. intros [= <-].
    destruct (link_octet v) as [Hl Hp].
    unfold SHIFT_STEP in Er. rewrite Z.shiftr_div_pow2 in Er by lia.
    destruct (IH (v / 2 ^ 7) rest ltac:(dlia) Er) as (Hf & Hd & Hlt & Hge).
    pose proof (framed_len _ Hf).
    rewrite len_cons, Z.add_simpl_r. cbn [digits_val]. rewrite Hp, Hd.
    rewrite pow_7_succ by lia. split_and!.
    + by apply framed_cons.
    + dlia.
    + dlia.
    + intros _. destruct (decide (1 < len rest)).
      * replace (len rest) with (len rest - 1 + 1) by lia.
        rewrite pow_7_succ by lia. specialize (Hge ltac:(done)). dlia.
      * replace (len rest) with 1 by lia. dlia.
Qed.

Lemma write_uleb128_loop_total fuel v :
  0 ≤ v < 2 ^ (7 * (Z.of_nat fuel + 1)) → is_Some (write_uleb128_loop fuel v).
Proof.
  revert v. induction fuel as [|fuel IH]; intros v Hv; simpl;
    (destruct (MIN_TWOBYTE_VALUE <=? v) eqn:E; unfold MIN_TWOBYTE_VALUE in E; bprop;
     [|by eexists]).
  - simpl in Hv. lia.
  - destruct (IH (Z.shiftr v SHIFT_STEP)) as [rest ->]; [|by eexists].
    unfold SHIFT_STEP. rewrite Z.shiftr_div_pow2 by lia.
    rewrite Nat2Z.inj_succ, <-Z.add_1_r, pow_7_succ in Hv by lia. dlia.
Qed.

(** The signed writer's loop test, as a range test. *)
Lemma leb128_more v :
  in_s 64 v → (MIN_TWOBYTE_VALUE <=? u64 (v + 0x40)) = negb ((-64 <=? v) && (v <? 64)).
Proof.
  unfold in_s, MIN_TWOBYTE_VALUE, u64, wrapu. intros Hv.
  destruct (decide (-64 ≤ v)).
  - rewrite Z.mod_small by lia.
    destruct (v <? 64) eqn:E; bprop; [|destruct (-64 <=? v) eqn:E2; bprop]; simpl; lia.
  - rewrite <-(Z.mod_unique (v + 0x40) (2 ^ 64) (-1) (v + 0x40 + 2 ^ 64)) by lia.
    destruct (-64 <=? v) eqn:E; bprop; simpl; lia.
Qed.

Lemma pow_7_split k : 1 ≤ k → 2 ^ (7 * k) = 2 * 2 ^ (7 * k - 1).
Proof. intros ?. rewrite <-Z.pow_succ_r by lia. f_equal. lia. Qed.

Definition fits (k v : Z) : Prop := - 2 ^ (7 * k - 1) ≤ v < 2 ^ (7 * k - 1).

Lemma fits_step k v : 1 ≤ k → fits k (v / 2 ^ 7) ↔ fits (k + 1) v.
Proof.
  intros ?. unfold fits.
  replace (7 * (k + 1) - 1) with (7 + (7 * k - 1)) by lia.
  rewrite Z.pow_add_r by lia. generalize (2 ^ (7 * k - 1)). intros. dlia.
Qed.

Definition last_octet_of (os : list Z) : Z := List.last os 0.

Lemma last_octet_of_cons o os : os ≠ [] → last_octet_of (o :: os) = last_octet_of os.
Proof. destruct os; done. Qed.

Lemma write_leb128_loop_spec fuel v os :
  in_s 64 v → write_leb128_loop fuel v = Some os →
  framed os ∧ digits_val os = v `mod` 2 ^ (7 * len os) ∧ fits (len os) v ∧
  (1 < len os → ¬ fits (len os - 1) v) ∧
  (Z.land (last_octet_of os) LEB_SIGN_BIT = 0 ↔ 0 ≤ v).
Proof.
  revert v os. induction fuel as [|fuel IH]; intros v os Hv; simpl;
    rewrite leb128_more by done;
    (destruct ((-64 <=? v) && (v <? 64)) eqn:E; simpl;
     [bprop; rewrite payload_mod;
      destruct (last_octet (v `mod` 2 ^ 7) ltac:(dlia)) as (-> & ? & Hp);
      intros [= <-]; cbn [digits_val]; rewrite Hp; unfold len, fits, last_octet_of;
      simpl; rewrite sign_bit_zero; split_and!; done || dlia|]).
  - done.
  - destruct (write_leb128_loop fuel (Z.shiftr v SHIFT_STEP)) as [rest|] eqn:Er; simpl;
      [|done]. intros [= <-].
    destruct (link_octet v) as [Hl Hp].
    unfold SHIFT_STEP in Er. rewrite Z.shiftr_div_pow2 in Er by lia.
    destruct (IH (v / 2 ^ 7) _ ltac:(unfold in_s in *; dlia) Er) as (Hf & Hd & Hfi & Hmin & Hs).
    pose proof (framed_len _ Hf) as Hlen.
    assert (rest ≠ []) by (by intros ->).
    rewrite last_octet_of_cons, Hs by done.
    rewrite len_cons, Z.add_simpl_r. cbn [digits_val]. rewrite Hp, Hd.
    split_and!.
    + by apply framed_cons.
    + rewrite pow_7_succ, Z.rem_mul_r by lia. lia.
    + by apply fits_step.
    + intros _ Hfit. destruct (decide (1 < len rest)).
      * apply (Hmin ltac:(done)), fits_step; [lia|]. by rewrite Z.sub_add.
      * replace (len rest) with 1 in Hfit by lia. unfold fits in Hfit. simpl in Hfit.
        apply andb_false_iff in E as [E|E]; bprop; lia.
    + dlia.
Qed.

(** ** What the readers compute on a framed sequence *)

Lemma lor_wrapu acc d sh :
  0 ≤ sh < 64 → 0 ≤ acc < 2 ^ sh → Z.lor acc (u64 (d * 2 ^ sh)) = u64 (acc + d * 2 ^ sh).
Proof.
  intros Hsh Hacc. unfold u64, wrapu.
  replace (2 ^ 64) with (2 ^ (64 - sh) * 2 ^ sh) by (rewrite <-Z.pow_add_r by lia; f_equal; lia).
  pose proof (Z.pow_pos_nonneg 2 (64 - sh)). pose proof (Z.pow_pos_nonneg 2 sh).
  rewrite Z.mul_mod_distr_r by lia. rewrite lor_disjoint_add by lia.
  rewrite (Z.mul_comm (2 ^ (64 - sh)) (2 ^ sh)), Z.rem_mul_r by lia.
  rewrite Z.mod_add, Z.div_add by lia.
  rewrite (Z.mod_small acc), (Z.div_small acc) by lia. rewrite Z.add_0_l. lia.
Qed.

(** Bits set above position [sh] commute with the signed wrap-around. *)
Lemma lor_wraps acc d sh :
  0 ≤ sh < 64 → 0 ≤ acc < 2 ^ sh → Z.lor acc (i64 (d * 2 ^ sh)) = i64 (acc + d * 2 ^ sh).
Proof.
  intros Hsh Hacc.
  pose proof (lor_wrapu acc d sh Hsh Hacc) as Hu. unfold u64, wrapu in Hu.
  unfold i64, wraps.
  replace (2 ^ 64) with (2 ^ (64 - sh) * 2 ^ sh) in * by (rewrite <-Z.pow_add_r by lia; f_equal; lia).
  replace (2 ^ (64 - 1)) with (2 ^ (63 - sh) * 2 ^ sh) by (rewrite <-Z.pow_add_r by lia; f_equal; lia).
  pose proof (Z.pow_pos_nonneg 2 (64 - sh)). pose proof (Z.pow_pos_nonneg 2 sh).
  rewrite Z.mul_mod_distr_r in * by lia. rewrite lor_disjoint_add in Hu by lia.
  rewrite <-Hu. set (q := d `mod` 2 ^ (64 - sh)) in *.
  destruct (decide (q < 2 ^ (63 - sh))).
  - rewrite 2!(proj2 (Z.ltb_lt _ _)) by nia. apply lor_disjoint_add; lia.
  - rewrite 2!(proj2 (Z.ltb_ge _ _)) by nia.
    rewrite <-Z.mul_sub_distr_r, lor_disjoint_add by lia. lia.
Qed.

Lemma read_uleb128_loop_framed os rest g n i acc sh :
  framed os → 0 ≤ sh → 0 ≤ acc < 2 ^ sh → sh + 7 * (len os - 1) < 64 →
  read_uleb128_loop (os ++ rest) g n i acc sh =
    if g && (n <? i + len os) then ReadShort
    else ReadOk (u64 (acc + digits_val os * 2 ^ sh)) (i + len os).
Proof.
  revert i acc sh. induction os as [|o os IH]; intros i acc sh Hf Hsh Hacc Hlt; [done|].
  rewrite len_cons in *. cbn [app read_uleb128_loop digits_val].
  assert (0 ≤ len os) by (unfold len; lia).
  rewrite (proj2 (Z.leb_gt 64 sh)) by lia.
  rewrite payload_mod, Z.shiftl_mul_pow2 by lia.
  pose proof (Z.mod_pos_bound o (2 ^ 7)).
  destruct os as [|o' os'].
  - change (len []) with 0 in *. cbn in Hf. rewrite Hf, Z.eqb_refl, lor_wrapu by lia.
    cbn [digits_val]. replace (0 + 1) with 1 by lia.
    case_test; [done|]. do 2 f_equal. lia.
  - destruct Hf as [Hl Hf]. pose proof (framed_len _ Hf).
    rewrite (proj2 (Z.eqb_neq _ 0)) by done. unfold SHIFT_STEP.
    pose proof (Z.pow_add_r 2 sh 7 ltac:(lia) ltac:(lia)) as Hp.
    pose proof (Z.pow_le_mono_r 2 (sh + 7) 64 ltac:(lia) ltac:(lia)).
    rewrite lor_wrapu by lia.
    replace (u64 (acc + _)) with (acc + o `mod` 2 ^ 7 * 2 ^ sh)
      by (symmetry; apply wrapu_id; unfold in_u; nia).
    rewrite IH by (done || nia).
    rewrite Hp. destruct g; simpl andb; cycle 1.
    { f_equal; [f_equal|]; lia. }
    destruct (n <? i + 1) eqn:E1; bprop.
    + by rewrite (proj2 (Z.ltb_lt _ _)) by lia.
    + replace (i + 1 + len (o' :: os')) with (i + (len (o' :: os') + 1)) by lia.
      case_test; [done|]. do 2 f_equal. lia.
Qed.

Lemma read_leb128_loop_framed os rest g n i acc sh :
  framed os → 0 ≤ sh → 0 ≤ acc < 2 ^ sh → sh + 7 * (len os - 1) < 64 →
  read_leb128_loop (os ++ rest) g n i acc sh =
    if g && (n <? i + len os) then ReadShort
    else leb128_sign_extend (last_octet_of os) (i64 (acc + digits_val os * 2 ^ sh))
           (sh + 7 * len os) (i + len os).
Proof.
  revert i acc sh. induction os as [|o os IH]; intros i acc sh Hf Hsh Hacc Hlt; [done|].
  rewrite len_cons in *. cbn [app read_leb128_loop digits_val].
  assert (0 ≤ len os) by (unfold len; lia).
  rewrite (proj2 (Z.leb_gt 64 sh)) by lia.
  rewrite payload_mod, Z.shiftl_mul_pow2 by lia.
  pose proof (Z.mod_pos_bound o (2 ^ 7)).
  destruct os as [|o' os'].
  - change (len []) with 0 in *. cbn in Hf. rewrite Hf, Z.eqb_refl, lor_wraps by lia.
    cbn [digits_val]. unfold last_octet_of. simpl List.last. unfold SHIFT_STEP.
    replace (0 + 1) with 1 by lia. case_test; [done|]. f_equal; first [lia | f_equal; lia].
  - destruct Hf as [Hl Hf]. pose proof (framed_len _ Hf).
    rewrite (proj2 (Z.eqb_neq _ 0)) by done. unfold SHIFT_STEP.
    pose proof (Z.pow_add_r 2 sh 7 ltac:(lia) ltac:(lia)) as Hp.
    pose proof (Z.pow_le_mono_r 2 (sh + 7) 63 ltac:(lia) ltac:(lia)).
    rewrite lor_wraps by lia.
    replace (i64 (acc + _)) with (acc + o `mod` 2 ^ 7 * 2 ^ sh)
      by (symmetry; apply wraps_id; unfold in_s; nia).
    rewrite IH, (last_octet_of_cons o) by (done || nia).
    rewrite Hp. destruct g; simpl andb; cycle 1.
    { f_equal; first [lia | f_equal; lia]. }
    destruct (n <? i + 1) eqn:E1; bprop.
    + by rewrite (proj2 (Z.ltb_lt _ _)) by lia.
    + replace (i + 1 + len (o' :: os')) with (i + (len (o' :: os') + 1)) by lia.
      case_test; [done|]. f_equal; first [lia | f_equal; lia].
Qed.

Lemma write_uleb128_total v : in_u 64 v → is_Some (write_uleb128 v).
Proof.
  intros [? ?]. apply write_uleb128_loop_total.
  change (2 ^ (7 * (Z.of_nat LEB128_U64_MAXSIZE + 1))) with (2 ^ 77). lia.
Qed.

Lemma write_leb128_loop_total fuel v :
  in_s 64 v → fits (Z.of_nat fuel + 1) v → is_Some (write_leb128_loop fuel v).
Proof.
  revert v. induction fuel as [|fuel IH]; intros v Hv Hf; simpl;
    rewrite leb128_more by done;
    (destruct ((-64 <=? v) && (v <? 64)) eqn:E; simpl; [by eexists|]).
  - unfold fits in Hf. simpl in Hf. apply andb_false_iff in E as [E|E]; bprop; lia.
  - destruct (IH (Z.shiftr v SHIFT_STEP)) as [rest ->]; [| |by eexists];
      unfold SHIFT_STEP; rewrite Z.shiftr_div_pow2 by lia.
    + unfold in_s in *. dlia.
    + apply fits_step; [lia|]. by replace (Z.of_nat fuel + 1) with (Z.of_nat (S fuel)) by lia.
Qed.

Lemma write_leb128_total v : in_s 64 v → is_Some (write_leb128 v).
Proof.
  intros Hv. apply write_leb128_loop_total; [done|].
  change (Z.of_nat LEB128_U64_MAXSIZE + 1) with 11. unfold fits, in_s in *. lia.
Qed.

(** No 64-bit value needs more than ten octets. *)
Lemma write_uleb128_len v os : in_u 64 v → write_uleb128 v = Some os → 1 ≤ len os ≤ 10.
Proof.
  intros [Hv0 Hv] Hw. destruct (write_uleb128_loop_spec _ _ _ Hv0 Hw) as (Hf & _ & _ & Hge).
  split; [by apply framed_len|]. apply Z.nlt_ge. intros Hl. specialize (Hge ltac:(lia)).
  pose proof (Z.pow_le_mono_r 2 64 (7 * (len os - 1)) ltac:(lia) ltac:(lia)). lia.
Qed.

Lemma fits_mono j k v : 1 ≤ j ≤ k → fits j v → fits k v.
Proof.
  intros ? [? ?]. pose proof (Z.pow_le_mono_r 2 (7 * j - 1) (7 * k - 1) ltac:(lia) ltac:(lia)).
  unfold fits. lia.
Qed.

Lemma write_leb128_len v os : in_s 64 v → write_leb128 v = Some os → 1 ≤ len os ≤ 10.
Proof.
  intros Hv Hw. destruct (write_leb128_loop_spec _ _ _ Hv Hw) as (Hf & _ & _ & Hmin & _).
  split; [by apply framed_len|]. apply Z.nlt_ge. intros Hl. apply Hmin; [lia|].
  apply (fits_mono 10); [lia|]. unfold fits, in_s in *. simpl in *. lia.
Qed.

(** Sign extension of a negative value from its low [7*k] bits. *)
Lemma lor_sign_extend v m : 0 ≤ m → - 2 ^ m ≤ v < 0 → Z.lor (v `mod` 2 ^ m) (- 2 ^ m) = v.
Proof.
  intros Hm Hv. replace (- 2 ^ m) with (-1 * 2 ^ m) by lia.
  rewrite lor_disjoint_add by (done || apply Z.mod_pos_bound; lia).
  rewrite <-(Z.mod_unique v (2 ^ m) (-1) (v + 2 ^ m)) by lia. lia.
Qed.

(** The decoded value of a signed encoding of at most four octets, of a
    non-negative number, or of a number that needs all ten octets. *)
Lemma leb128_sign_extend_ok v k o i :
  in_s 64 v → 1 ≤ k ≤ 10 → fits k v → (1 < k → ¬ fits (k - 1) v) →
  (Z.land o LEB_SIGN_BIT = 0 ↔ 0 ≤ v) →
  leb128_sign_extend o (i64 (v `mod` 2 ^ (7 * k))) (7 * k) i =
    if decide (v < 0 ∧ 5 ≤ k ≤ 9) then ReadUndef else ReadOk v i.
Proof.
  intros Hv Hk Hfit Hmin Hs. unfold leb128_sign_extend.
  destruct (decide (k = 10)) as [->|Hk10].
  - rewrite andb_false_r, decide_False by lia. f_equal. change (7 * 10) with 70.
    unfold i64, wraps. rewrite (Z.mod_mod_divide v (2 ^ 70) (2 ^ 64)) by (by exists (2 ^ 6)).
    by apply (wraps_id 64).
  - assert (Hp : 2 ^ (7 * k) ≤ 2 ^ 63) by (apply Z.pow_le_mono_r; lia).
    pose proof (Z.mod_pos_bound v (2 ^ (7 * k)) ltac:(lia)).
    unfold i64. rewrite wraps_id by (unfold in_s; lia).
    pose proof (pow_7_split k ltac:(lia)). unfold fits in Hfit.
    rewrite (proj2 (Z.ltb_lt (7 * k) 64)), andb_true_r by lia.
    destruct (decide (0 ≤ v)) as [Hpos|Hneg].
    + rewrite (proj2 Hs Hpos), Z.eqb_refl, decide_False by lia. simpl.
      by rewrite Z.mod_small by lia.
    + rewrite (proj2 (Z.eqb_neq _ _)) by tauto. simpl. unfold int_one_shl.
      destruct (decide (k ≤ 4)).
      * rewrite (proj2 (Z.ltb_lt _ _)), decide_False by lia.
        by rewrite lor_sign_extend by lia.
      * by rewrite (proj2 (Z.ltb_ge _ _)), decide_True by lia.
Qed.

Lemma read_leb128_written v os rest g n :
  in_s 64 v → write_leb128 v = Some os → (g = true → len os ≤ n) →
  read_leb128_gen (os ++ rest) g n =
    if decide (v < 0 ∧ 5 ≤ len os ≤ 9) then ReadUndef else ReadOk v (len os).
Proof.
  intros Hv Hw Hg. pose proof (write_leb128_len _ _ Hv Hw).
  destruct (write_leb128_loop_spec _ _ _ Hv Hw) as (Hf & Hd & Hfit & Hmin & Hs).
  unfold read_leb128_gen. rewrite read_leb128_loop_framed by (done || lia).
  rewrite !Z.add_0_l, Z.mul_1_r, Hd.
  replace (g && (n <? len os)) with false
    by (destruct g; [symmetry; apply Z.ltb_ge; by apply Hg|done]).
  by apply leb128_sign_extend_ok.
Qed.

(** ** Properties *)

(** Every 64-bit value written by [write_uleb128] takes at most ten octets
    (LEB128_U64_MAXSIZE) and is read back, with the exact number of octets
    consumed, from any buffer that starts with them; the guarded reader gives
    the same result when its limit covers the octets and fails without
    reading past the limit otherwise. *)
Theorem uleb128_roundtrip v (Hv : in_u 64 v) :
  ∃ os, write_uleb128 v = Some os ∧ len os ≤ 10 ∧
    ∀ rest, read_uleb128 (os ++ rest) = ReadOk v (len os) ∧
      ∀ n, read_uleb128_n (os ++ rest) n =
             if len os <=? n then ReadOk v (len os) else ReadShort.
Proof.
  destruct (write_uleb128_total v Hv) as [os Hw]. exists os.
  pose proof (write_uleb128_len _ _ Hv Hw).
  destruct (write_uleb128_loop_spec _ _ _ (proj1 Hv) Hw) as (Hf & Hd & _).
  split_and!; [done|lia|]. intros rest.
  assert (Hr : ∀ g n, read_uleb128_gen (os ++ rest) g n =
    if g && (n <? len os) then ReadShort else ReadOk v (len os)).
  { intros g n. unfold read_uleb128_gen. rewrite read_uleb128_loop_framed by (done || lia).
    rewrite !Z.add_0_l, Z.mul_1_r, Hd. unfold u64. by rewrite wrapu_id. }
  split; [apply Hr|]. intros n. unfold read_uleb128_n. rewrite Hr. simpl.
  rewrite Z.ltb_antisym. by destruct (len os <=? n).
Qed.

Lemma uleb128_roundtrip_witness :
  ∃ os, write_uleb128 624485 = Some os ∧ len os ≤ 10 ∧
    ∀ rest, read_uleb128 (os ++ rest) = ReadOk 624485 (len os) ∧
      ∀ n, read_uleb128_n (os ++ rest) n =
             if len os <=? n then ReadOk 624485 (len os) else ReadShort.
Proof. apply uleb128_roundtrip. split; vm_compute; congruence. Defined.

(** The signed codec round-trips every [int64_t] whose encoding does not
    need [read_leb128] to sign-extend past bit 30: the numbers from [-2^27]
    up, and the numbers below [-2^62], whose ten octets carry the sign. *)
Theorem leb128_roundtrip v (Hv : in_s 64 v) (Hr : - 2 ^ 27 ≤ v ∨ v < - 2 ^ 62) :
  ∃ os, write_leb128 v = Some os ∧ len os ≤ 10 ∧
    ∀ rest, read_leb128 (os ++ rest) = ReadOk v (len os) ∧
      ∀ n, len os ≤ n → read_leb128_n (os ++ rest) n = ReadOk v (len os).
Proof.
  destruct (write_leb128_total v Hv) as [os Hw]. exists os.
  pose proof (write_leb128_len _ _ Hv Hw) as Hl.
  destruct (write_leb128_loop_spec _ _ _ Hv Hw) as (_ & _ & Hfit & Hmin & _).
  assert (¬ (v < 0 ∧ 5 ≤ len os ≤ 9)) as Hn.
  { intros [Hneg Hk]. destruct Hr as [Hr|Hr].
    - apply Hmin; [lia|]. apply (fits_mono 4); [lia|]. unfold fits. simpl. lia.
    - apply (fits_mono _ 9) in Hfit; [|lia]. unfold fits in Hfit. simpl in Hfit. lia. }
  split_and!; [done|lia|]. intros rest. split; [|intros n Hn'];
    unfold read_leb128, read_leb128_n;
    rewrite (read_leb128_written v os) by done; by rewrite decide_False.
Qed.

Lemma leb128_roundtrip_witness :
  ∃ os, write_leb128 (-123456) = Some os ∧ len os ≤ 10 ∧
    ∀ rest, read_leb128 (os ++ rest) = ReadOk (-123456) (len os) ∧
      ∀ n, len os ≤ n → read_leb128_n (os ++ rest) n = ReadOk (-123456) (len os).
Proof.
  apply leb128_roundtrip; [split; vm_compute; congruence|left; vm_compute; congruence].
Defined.

(** The other negative numbers do not round-trip: their encodings have five
    to nine octets, and [read_leb128] then evaluates [1 << shift] in [int]
    with [shift >= 35], which C leaves undefined, before it can store a
    result. *)
Theorem leb128_sign_extension_undefined v (Hv : - 2 ^ 62 ≤ v < - 2 ^ 27) :
  ∃ os, write_leb128 v = Some os ∧ 5 ≤ len os ≤ 9 ∧
    ∀ rest, read_leb128 (os ++ rest) = ReadUndef.
Proof.
  assert (Hs : in_s 64 v) by (unfold in_s; simpl; lia).
  destruct (write_leb128_total v Hs) as [os Hw]. exists os.
  pose proof (write_leb128_len _ _ Hs Hw) as Hl.
  destruct (write_leb128_loop_spec _ _ _ Hs Hw) as (_ & _ & Hfit & Hmin & _).
  assert (5 ≤ len os ≤ 9) as Hk.
  { split; apply Z.nlt_ge; intros Hlt.
    - apply (fits_mono _ 4) in Hfit; [|lia]. unfold fits in Hfit. simpl in Hfit. lia.
    - apply Hmin; [lia|]. apply (fits_mono 9); [lia|]. unfold fits. simpl. lia. }
  split_and!; [done|lia|lia|]. intros rest. unfold read_leb128.
  rewrite (read_leb128_written v os) by done. by rewrite decide_True by lia.
Qed.

Lemma leb128_sign_extension_undefined_witness :
  ∃ os, write_leb128 (-200000000) = Some os ∧ 5 ≤ len os ≤ 9 ∧
    ∀ rest, read_leb128 (os ++ rest) = ReadUndef.
Proof. apply leb128_sign_extension_undefined. split; vm_compute; congruence. Defined.

End Leb128.
