(* ===== verification/Obj.v ===== *)
(** * Tagged values and the bit-level helpers of the object model

    - lj_def.h: rotates, [lj_bsr], [lj_ffs], [lj_pow2] and the VM limits;
    - utils/fp.h and the number macros of lj_obj.h: a [lua_Number] is the
      64-bit pattern of an IEEE double ([Z] in [0, 2^64));
    - lj_obj.h: [TValue], its tag tests and [uj_obj_equal] (uj_obj.c).

    Strings are interned, so the code compares them by address and reads the
    precomputed hash of the object; [str_hash] stands for that field. *)

From stdpp Require Import base decidable list numbers option.
From Stdlib Require Import ZArith Lia.
From S2P Require Import Prelude.

Local Open Scope Z_scope.

Module Obj.

(** ** lj_def.h *)

Definition LJ_MAX_HBITS : Z := 26.
Definition LJ_MAX_ABITS : Z := 28.
Definition LJ_MAX_ASIZE : Z := 2 ^ (LJ_MAX_ABITS - 1) + 1.
Definition LJ_MAX_COLOSIZE : Z := 16.

(** [lj_rol(x, n)] on a [uint32_t]. *)
Definition lj_rol (x n : Z) : Z :=
  Z.lor (u32 (Z.shiftl x n)) (Z.shiftr x (Z.land (- n) 31)).

Definition lj_bsr (x : Z) : Z := Z.log2 x.
Definition lj_pow2 (x : Z) : Z := 2 ^ x.

(** [__builtin_ffs]: one plus the index of the least significant 1-bit, 0 for 0. *)
Fixpoint ffs_pos (p : positive) : Z :=
  match p with
  | xO p' => 1 + ffs_pos p'
  | _ => 1
  end.
Definition lj_ffs (x : Z) : Z :=
  match x with Zpos p => ffs_pos p | Z0 => 0 | Zneg p => ffs_pos p end.

(** ** Numbers *)

Definition num_exp (n : Z) : Z := (n / 2 ^ 52) `mod` 2 ^ 11.
Definition num_mant (n : Z) : Z := n `mod` 2 ^ 52.
Definition num_neg (n : Z) : bool := 2 ^ 63 <=? n.

Definition tvisnan (n : Z) : bool := (num_exp n =? 2047) && negb (num_mant n =? 0).
Definition tviszero (n : Z) : bool := u64 (Z.shiftl n 1) =? 0.
Definition tvismzero (n : Z) : bool := n =? 2 ^ 63.

(** [==] on doubles: false on NaNs, and the two zeroes are equal. *)
Definition num_eq (a b : Z) : bool :=
  negb (tvisnan a) && negb (tvisnan b) && ((a =? b) || (tviszero a && tviszero b)).

(** [(lua_Number)k], exact for the 32-bit integers the code converts. *)
Definition int2num (k : Z) : Z :=
  if k =? 0 then 0
  else
    let a := Z.abs k in
    let e := Z.log2 a in
    (if k <? 0 then 2 ^ 63 else 0) + (e + 1023) * 2 ^ 52 + (a * 2 ^ (52 - e) - 2 ^ 52).

(** [lj_num2int]: truncation to [int32_t]; x86's conversion gives [INT_MIN]
    for NaNs and for values out of range. *)
Definition lj_num2int (n : Z) : Z :=
  let e := num_exp n - 1023 in
  if e <? 0 then 0
  else
    let m := num_mant n + 2 ^ 52 in
    let a := if e <=? 52 then m / 2 ^ (52 - e) else m * 2 ^ (e - 52) in
    let v := if num_neg n then - a else a in
    if bool_decide (in_s 32 v) then v else - 2 ^ 31.

(** [nk == (lua_Number)lj_num2int(nk)]: the number is an [int32_t]. *)
Definition num_isint (n : Z) : bool := num_eq n (int2num (lj_num2int n)).

(** ** Tagged values *)

Inductive gctype :=
  | GT_STR | GT_UPVAL | GT_THREAD | GT_PROTO | GT_FUNC | GT_TRACE | GT_CDATA
  | GT_TAB | GT_UDATA.

Inductive TValue :=
  | TNil
  | TBool (b : bool)
  | TLightud (p : Z)
  | TGCV (g : gctype) (p : Z)
  | TNum (n : Z).

#[export] Instance gctype_eq_dec : EqDecision gctype.
Proof. solve_decision. Defined.
#[export] Instance TValue_eq_dec : EqDecision TValue.
Proof. solve_decision. Defined.

Definition tvisnil (o : TValue) : bool := match o with TNil => true | _ => false end.
Definition tvisstr (o : TValue) : bool :=
  match o with TGCV GT_STR _ => true | _ => false end.
Definition tvisgcv (o : TValue) : bool :=
  match o with TGCV _ _ => true | _ => false end.
Definition tvistab (o : TValue) : bool :=
  match o with TGCV GT_TAB _ => true | _ => false end.
Definition tvisint (o : TValue) : bool :=
  match o with TNum n => num_isint n | _ => false end.

(** Compare two objects without calling metamethods. *)
Definition uj_obj_equal (o1 o2 : TValue) : bool :=
  match o1, o2 with
  | TNil, TNil => true
  | TBool b1, TBool b2 => Bool.eqb b1 b2
  | TLightud p1, TLightud p2 => p1 =? p2
  | TGCV g1 p1, TGCV g2 p2 => bool_decide (g1 = g2) && (p1 =? p2)
  | TNum n1, TNum n2 => num_eq n1 n2
  | _, _ => false
  end.

(** What table code reads from memory that is not part of a tagged value: the
    [hash] field of the [GCstr] at an address, and the payload word of a boolean,
    whose setters ([setboolV], BC_KPRI) only write the tag and leave there what
    the slot held before. *)
Class ObjHeap := MkHeap { str_hash : Z → Z; pri_raw : bool → Z }.

(** [rawV(o)], for the values used as keys. *)
Definition key_raw `{ObjHeap} (o : TValue) : Z :=
  match o with
  | TNil => 0
  | TBool b => pri_raw b
  | TLightud p | TGCV _ p => p
  | TNum n => n
  end.

(** ** Facts on numbers *)

Definition is_num (n : Z) : Prop := in_u 64 n.

Lemma num_eq_refl n : tvisnan n = false → num_eq n n = true.
Proof. intros H. unfold num_eq. by rewrite H, Z.eqb_refl. Qed.

Lemma num_eq_sym a b : num_eq a b = num_eq b a.
Proof.
  unfold num_eq. rewrite (Z.eqb_sym a b).
  destruct (tvisnan a), (tvisnan b), (tviszero a), (tviszero b), (b =? a); done.
Qed.

Lemma tviszero_spec n : is_num n → tviszero n = true ↔ n = 0 ∨ n = 2 ^ 63.
Proof.
  unfold is_num, in_u, tviszero, u64, wrapu. intros Hn.
  rewrite Z.shiftl_mul_pow2, Z.eqb_eq by lia.
  change (2 ^ 64) with 18446744073709551616 in *. split; intros; dlia.
Qed.

(** The canonical representative of a number as a key: -0 becomes +0. *)
Definition num_norm (n : Z) : Z := if tvismzero n then 0 else n.

Lemma num_eq_norm a b :
  is_num a → is_num b → tvisnan a = false → tvisnan b = false →
  num_eq a b = true ↔ num_norm a = num_norm b.
Proof.
  intros Ha Hb Na Nb. unfold num_eq, num_norm, tvismzero. rewrite Na, Nb. simpl.
  rewrite orb_true_iff, andb_true_iff, Z.eqb_eq, !tviszero_spec by done.
  destruct (a =? 2 ^ 63) eqn:E1, (b =? 2 ^ 63) eqn:E2; bprop; lia.
Qed.

(** Decomposition of the converted integer into its IEEE fields. *)
Lemma int2num_fields k :
  k ≠ 0 → in_s 32 k →
  let e := Z.log2 (Z.abs k) in
  0 ≤ e ≤ 31 ∧ is_num (int2num k) ∧
  num_exp (int2num k) = e + 1023 ∧
  num_mant (int2num k) = Z.abs k * 2 ^ (52 - e) - 2 ^ 52 ∧
  num_neg (int2num k) = (k <? 0).
Proof.
  intros Hk Hs e. unfold in_s in Hs. simpl in Hs.
  assert (0 ≤ e) by apply Z.log2_nonneg.
  assert (e ≤ 31).
  { unfold e. transitivity (Z.log2 (2 ^ 31)); [apply Z.log2_le_mono; lia|].
    by rewrite Z.log2_pow2. }
  destruct (Z.log2_spec (Z.abs k) ltac:(lia)) as [Hlo Hhi]. fold e in Hlo, Hhi.
  rewrite Z.pow_succ_r in Hhi by done.
  assert (2 ^ e * 2 ^ (52 - e) = 2 ^ 52) by (rewrite <-Z.pow_add_r by lia; f_equal; lia).
  assert (0 < 2 ^ (52 - e)) by (apply Z.pow_pos_nonneg; lia).
  unfold int2num. rewrite (proj2 (Z.eqb_neq k 0)) by done. fold e.
  remember (Z.abs k * 2 ^ (52 - e) - 2 ^ 52) as r.
  assert (0 ≤ r < 2 ^ 52) by nia. clear Heqr.
  split; [lia|]. unfold is_num, in_u, num_exp, num_mant, num_neg.
  change (2 ^ 63) with (2048 * 2 ^ 52). change (2 ^ 11) with 2048.
  change (2 ^ 64) with (4096 * 2 ^ 52). change (2 ^ 52) with 4503599627370496 in *.
  destruct (k <? 0) eqn:E; bprop; split_and!; try dlia.
Qed.

Lemma int2num_num k : in_s 32 k → is_num (int2num k).
Proof.
  intros Hs. destruct (decide (k = 0)) as [->|Hk].
  - unfold is_num, in_u, int2num. simpl. lia.
  - by destruct (int2num_fields k Hk Hs) as (_ & ? & _).
Qed.

Lemma int2num_notnan k : in_s 32 k → tvisnan (int2num k) = false.
Proof.
  intros Hs. unfold tvisnan. destruct (decide (k = 0)) as [->|Hk]; [done|].
  destruct (int2num_fields k Hk Hs) as (He & _ & -> & _).
  rewrite (proj2 (Z.eqb_neq _ 2047)) by lia. done.
Qed.

Lemma int2num_norm k : in_s 32 k → num_norm (int2num k) = int2num k.
Proof.
  intros Hs. unfold num_norm, tvismzero.
  destruct (decide (k = 0)) as [->|Hk]; [done|].
  destruct (int2num_fields k Hk Hs) as (He & _ & Hx & _).
  destruct (int2num k =? 2 ^ 63) eqn:E; [|done].
  bprop. rewrite E in Hx. vm_compute (num_exp _) in Hx. lia.
Qed.

(** Converting an [int32_t] to a double and back is the identity. *)
Lemma num2int_int2num k : in_s 32 k → lj_num2int (int2num k) = k.
Proof.
  intros Hs. destruct (decide (k = 0)) as [->|Hk]; [done|].
  unfold lj_num2int.
  destruct (int2num_fields k Hk Hs) as (He & _ & -> & -> & ->).
  rewrite Z.add_simpl_r, Z.sub_add.
  rewrite (proj2 (Z.ltb_ge _ 0)), (proj2 (Z.leb_le _ 52)) by lia.
  rewrite Z.div_mul by (apply Z.pow_nonzero; lia).
  assert ((if k <? 0 then - Z.abs k else Z.abs k) = k) as ->
    by (destruct (k <? 0) eqn:E; bprop; lia).
  by rewrite bool_decide_eq_true_2.
Qed.

Lemma num2int_range n : in_s 32 (lj_num2int n).
Proof.
  unfold lj_num2int. destruct (_ <? 0); [by vm_compute|].
  case_bool_decide; [done|by vm_compute].
Qed.

Lemma int2num_inj j k : in_s 32 j → in_s 32 k → int2num j = int2num k → j = k.
Proof. intros Hj Hk E. by rewrite <-(num2int_int2num j), E, num2int_int2num. Qed.

Lemma num_isint_int2num k : in_s 32 k → num_isint (int2num k) = true.
Proof.
  intros Hs. unfold num_isint. rewrite num2int_int2num by done.
  by apply num_eq_refl, int2num_notnan.
Qed.

(** An integral number is, as a key, the conversion of its integer. *)
Lemma num_isint_norm n :
  is_num n → num_isint n = true → num_norm n = int2num (lj_num2int n).
Proof.
  intros Hn Hi. unfold num_isint in Hi.
  pose proof (num2int_range n) as Hr.
  assert (tvisnan n = false) as Hnan.
  { unfold num_eq in Hi. by destruct (tvisnan n). }
  apply num_eq_norm in Hi; auto using int2num_num, int2num_notnan.
  by rewrite Hi, int2num_norm.
Qed.

Lemma num_isint_norm_int n k :
  is_num n → in_s 32 k → num_norm n = int2num k →
  num_isint n = true ∧ lj_num2int n = k.
Proof.
  intros Hn Hk E. unfold num_norm, tvismzero in E.
  destruct (n =? 2 ^ 63) eqn:En; bprop.
  - subst n. assert (k = 0) as ->.
    { apply int2num_inj; [done|by vm_compute|done]. }
    done.
  - subst n. auto using num_isint_int2num, num2int_int2num.
Qed.

End Obj.
