(* ===== verification/Tab.v ===== *)
(** * Lua tables: the operations of lj_tab.c

    A table is a record of its array part (the slots [0 .. asize-1]) and its
    hash part: [hmask + 1] nodes, each with a key, a value and a link to the
    next node of its collision chain.  A [Node *] is an index into [node]; a
    table without a hash part points at the shared nil node, here the
    one-element list [[nilnode]] with [hmask = 0] and [freetop] at its base.
    A [TValue *] returned by a getter or setter is a [slot].

    Operations run in a state-and-error monad over the table: [Throw] keeps
    the table as it was when [uj_err] was called, and [Undef] stands for
    executions that leave the defined ones (a dangling [next] link, an endless
    chain, an index past [bins]) or exceed the recursion depth; the theorems of
    TabSpec.v show that none of them occurs on well-formed tables.

    [newkey], [rehash], [resize] and [set] are mutually recursive in the code:
    here the setters take the key inserter they call as their first argument
    [nk], and [lj_tab_newkey] ties the knot with a recursion depth.  Memory
    allocation is assumed to succeed; the registration of the table with the
    collector (the list of objects, [gc.tabnum], the gray list) is not part of
    the table's state, its colour bit in [marked] is. *)

From stdpp Require Import base decidable list numbers option.
From Stdlib Require Import ZArith Lia.
From S2P Require Import Prelude Obj.

Local Open Scope Z_scope.

Module Tab.
Import Obj.

(** ** Data *)

Record Node := MkNode { key : TValue; val : TValue; next : option nat }.

Record GCtab := MkTab {
  marked : Z;             (** GC and object marks, 8 bits *)
  nomm : Z;               (** negative metamethod cache *)
  colo : Z;               (** array colocation: >0 colocated, <0 separated *)
  metatable : option Z;
  array : list TValue;
  node : list Node;
  hmask : Z;
  freetop : nat
}.

Definition asize (t : GCtab) : Z := Z.of_nat (length (array t)).

Definition set_marked (m : Z) (t : GCtab) : GCtab :=
  MkTab m (nomm t) (colo t) (metatable t) (array t) (node t) (hmask t) (freetop t).
Definition set_nomm (x : Z) (t : GCtab) : GCtab :=
  MkTab (marked t) x (colo t) (metatable t) (array t) (node t) (hmask t) (freetop t).
Definition set_array (c : Z) (a : list TValue) (t : GCtab) : GCtab :=
  MkTab (marked t) (nomm t) c (metatable t) a (node t) (hmask t) (freetop t).
Definition set_node (nd : list Node) (t : GCtab) : GCtab :=
  MkTab (marked t) (nomm t) (colo t) (metatable t) (array t) nd (hmask t) (freetop t).
Definition set_hpart (nd : list Node) (hm : Z) (ft : nat) (t : GCtab) : GCtab :=
  MkTab (marked t) (nomm t) (colo t) (metatable t) (array t) nd hm ft.
Definition set_freetop (ft : nat) (t : GCtab) : GCtab :=
  MkTab (marked t) (nomm t) (colo t) (metatable t) (array t) (node t) (hmask t) ft.

Definition set_key (k : TValue) (n : Node) : Node := MkNode k (val n) (next n).
Definition set_val (v : TValue) (n : Node) : Node := MkNode (key n) v (next n).
Definition set_next (x : option nat) (n : Node) : Node := MkNode (key n) (val n) x.

Definition empty_node : Node := MkNode TNil TNil None.

(** Slots of a table: what a [TValue *] into it points at. *)
Inductive slot := ASlot (i : nat) | HSlot (i : nat).

Definition slot_read (t : GCtab) (s : slot) : TValue :=
  match s with
  | ASlot i => default TNil (array t !! i)
  | HSlot i => match node t !! i with Some n => val n | None => TNil end
  end.

Definition slot_write (v : TValue) (s : slot) (t : GCtab) : GCtab :=
  match s with
  | ASlot i => set_array (colo t) (<[i := v]> (array t)) t
  | HSlot i => set_node (alter (set_val v) i (node t)) t
  end.

(** Marks (uj_obj_marks.h, lj_gc.h). *)
Definition LJ_GC_BLACK : Z := 0x04.
Definition UJ_GCO_IMMUTABLE : Z := 0x40.
Definition isblack (t : GCtab) : bool := negb (Z.land (marked t) LJ_GC_BLACK =? 0).
Definition uj_obj_is_immutable (t : GCtab) : bool :=
  negb (Z.land (marked t) UJ_GCO_IMMUTABLE =? 0).
Definition black2gray (t : GCtab) : GCtab :=
  set_marked (Z.land (marked t) (u8 (Z.lnot LJ_GC_BLACK))) t.
(** A black table goes back to gray; [lj_gc_barrierback] also links it into
    the collector's [grayagain] list. *)
Definition lj_gc_anybarriert (t : GCtab) : GCtab :=
  if isblack t then black2gray t else t.

Inductive err :=
  | UJ_ERR_TABOV | UJ_ERR_IMMUT_MODIF | UJ_ERR_NANIDX | UJ_ERR_NILIDX | UJ_ERR_NEXTIDX.

(** ** The state and error monad *)

Inductive outcome (A : Type) :=
  | Ret (a : A) (t : GCtab)
  | Throw (e : err) (t : GCtab)
  | Undef.
Arguments Ret {A}.
Arguments Throw {A}.
Arguments Undef {A}.

Definition M (A : Type) : Type := GCtab → outcome A.

Definition M_ret {A} (a : A) : M A := Ret a.
Definition M_bind {A B} (m : M A) (f : A → M B) : M B := λ t,
  match m t with
  | Ret a t' => f a t'
  | Throw e t' => Throw e t'
  | Undef => Undef
  end.
Definition uj_err {A} (e : err) : M A := Throw e.
Definition get : M GCtab := λ t, Ret t t.
Definition modify (f : GCtab → GCtab) : M () := λ t, Ret () (f t).
Definition undef {A} : M A := λ _, Undef.

Notation "'let!' x := m 'in' k" := (M_bind m (λ x, k))
  (at level 10, x binder, k at level 200) : vela_scope.
Notation "m >>> k" := (M_bind m (λ _, k))
  (at level 60, right associativity) : vela_scope.
#[local] Open Scope vela_scope.

Section Ops.
Context `{ObjHeap}.

(** ** Object hashing *)

Definition HASH_BIAS : Z := - 0x04c11db7.
Definition HASH_ROT1 : Z := 14.
Definition HASH_ROT2 : Z := 5.
Definition HASH_ROT3 : Z := 13.

Definition hashrot (lo hi : Z) : Z :=
  let lo := Z.lxor lo hi in
  let hi := lj_rol hi HASH_ROT1 in
  let lo := u32 (lo - hi) in
  let hi := lj_rol hi HASH_ROT2 in
  let hi := Z.lxor hi lo in
  u32 (hi - lj_rol lo HASH_ROT3).

(** The node a hash selects; [hm] is the table's [hmask]. *)
Definition hashmask (hm hash : Z) : nat := Z.to_nat (Z.land hash hm).
Definition hashstr (hm s : Z) : nat := hashmask hm (str_hash s).
Definition hashlohi (hm lo hi : Z) : nat := hashmask hm (hashrot lo hi).
Definition hashnum (hm n : Z) : nat :=
  hashlohi hm (u32 n) (u32 (Z.shiftl (Z.shiftr n 32) 1)).

(** The anchor position of a key.  A nil key is never hashed. *)
Definition hashkey (hm : Z) (k : TValue) : nat :=
  match k with
  | TGCV GT_STR s => hashstr hm s
  | TNum n => hashnum hm n
  | TBool b => hashmask hm (if b then 1 else 0)
  | TLightud p | TGCV _ p => hashlohi hm (u32 p) (u32 (u32 p + HASH_BIAS))
  | TNil => hashlohi hm 0 (u32 HASH_BIAS)
  end.

(** ** Creation *)

Definition lj_max_hbits_exceeded (hbits : Z) : bool := LJ_MAX_HBITS <? hbits.

Definition newhpart (hbits : Z) : M () :=
  if negb (hbits =? 0) then
    if lj_max_hbits_exceeded hbits then uj_err UJ_ERR_TABOV
    else
      let hsize := lj_pow2 hbits in
      modify (set_hpart (replicate (Z.to_nat hsize) empty_node) (hsize - 1) (Z.to_nat hsize))
  else modify (set_hpart [empty_node] 0 0).

(** A fresh table: [colo] records a colocated array of at most
    [LJ_MAX_COLOSIZE] slots, a longer one is allocated separately. *)
Definition newtab (asize hbits : Z) : outcome () :=
  let t0 := MkTab 0 0xff 0 None [] [empty_node] 0 0 in
  let mk c := set_array c (replicate (Z.to_nat asize) TNil) t0 in
  if (0 <? asize) && (asize <=? LJ_MAX_COLOSIZE) then newhpart hbits (mk asize)
  else if LJ_MAX_ASIZE <? asize then Throw UJ_ERR_TABOV t0
  else newhpart hbits (mk 0).

Definition lj_tab_new (asize hbits : Z) : outcome () := newtab asize hbits.

(** [asize] in the lower 24 bits of [ahsize], [hbits] in the upper 8. *)
Definition lj_tab_new_jit (ahsize : Z) : outcome () :=
  newtab (Z.land ahsize 0xffffff) (Z.shiftr ahsize 24).

(** Duplicate a table: array and nodes are copied; links and [freetop] are
    rebased onto the copy, i.e. keep their index. *)
Definition lj_tab_dup (kt : GCtab) : outcome () :=
  ((λ _, newtab (asize kt) (if 0 <? hmask kt then lj_bsr (hmask kt) + 1 else 0)) >>>
   modify (set_nomm 0) >>>
   let! t := get in
   modify (set_array (colo t) (array kt)) >>>
   (if 0 <? hmask kt
    then modify (λ t, set_hpart (node kt) (hmask t) (freetop kt) t)
    else M_ret ())) kt.

(** ** Getters *)

Inductive lookup := LSlot (s : slot) | LNull | LUndef.

(** [do { if (P(n)) return &n->val; } while ((n = n->next)); return NULL;] *)
Fixpoint chain_find (nd : list Node) (P : Node → bool) (fuel i : nat) : lookup :=
  match fuel with
  | O => LUndef
  | S f =>
      match nd !! i with
      | None => LUndef
      | Some n =>
          if P n then LSlot (HSlot i)
          else match next n with
               | Some j => chain_find nd P f j
               | None => LNull
               end
      end
  end.

Definition find_from (t : GCtab) (P : Node → bool) (i : nat) : lookup :=
  chain_find (node t) P (length (node t)) i.

Definition key_is_num (x : Z) (n : Node) : bool :=
  match key n with TNum y => num_eq y x | _ => false end.
Definition key_is_str (s : Z) (n : Node) : bool :=
  match key n with TGCV GT_STR p => p =? s | _ => false end.
Definition key_equal (k : TValue) (n : Node) : bool := uj_obj_equal (key n) k.

Definition lj_tab_getinth (t : GCtab) (k : Z) : lookup :=
  find_from t (key_is_num (int2num k)) (hashnum (hmask t) (int2num k)).

Definition lj_tab_getstr (t : GCtab) (s : Z) : lookup :=
  find_from t (key_is_str s) (hashstr (hmask t) s).

(** [(size_t)key < (size_t)t->asize]: negative keys convert to huge ones. *)
Definition inarray (t : GCtab) (k : Z) : bool := u64 k <? asize t.

Definition lj_tab_getint (t : GCtab) (k : Z) : lookup :=
  if inarray t k then LSlot (ASlot (Z.to_nat k)) else lj_tab_getinth t k.

Definition lj_tab_getgen (t : GCtab) (k : TValue) : lookup :=
  find_from t (key_equal k) (hashkey (hmask t) k).

(** What the returned pointer reads; [None] if the search is undefined. *)
Definition deref (t : GCtab) (r : lookup) : option TValue :=
  match r with
  | LSlot s => Some (slot_read t s)
  | LNull => Some TNil
  | LUndef => None
  end.

Definition lj_tab_get (t : GCtab) (k : TValue) : option TValue :=
  match k with
  | TGCV GT_STR s => deref t (lj_tab_getstr t s)
  | TNum nk =>
      if num_isint nk then deref t (lj_tab_getint t (lj_num2int nk))
      else deref t (lj_tab_getgen t k)
  | TNil => Some TNil
  | _ => deref t (lj_tab_getgen t k)
  end.

(** ** Setters *)

Definition check_mutable {A} (m : M A) : M A := λ t,
  if uj_obj_is_immutable t then Throw UJ_ERR_IMMUT_MODIF t else m t.

(** Return the slot a search found, or insert the key with [nk]. *)
Definition found_or (nk : TValue → M slot) (k : TValue) (r : lookup) : M slot :=
  match r with
  | LSlot s => M_ret s
  | LNull => nk k
  | LUndef => undef
  end.

Definition lj_tab_setinth (nk : TValue → M slot) (k : Z) : M slot :=
  check_mutable (λ t, found_or nk (TNum (int2num k)) (lj_tab_getinth t k) t).

Definition lj_tab_setint (nk : TValue → M slot) (k : Z) : M slot :=
  check_mutable (λ t,
    if inarray t k then Ret (ASlot (Z.to_nat k)) t else lj_tab_setinth nk k t).

Definition lj_tab_setstr (nk : TValue → M slot) (s : Z) : M slot :=
  check_mutable (λ t, found_or nk (TGCV GT_STR s) (lj_tab_getstr t s) t).

Definition lj_tab_set (nk : TValue → M slot) (k : TValue) : M slot :=
  check_mutable (
    modify (set_nomm 0) >>>
    let! t := get in
    match k with
    | TGCV GT_STR s => lj_tab_setstr nk s
    | TNum n =>
        if num_isint n then lj_tab_setint nk (lj_num2int n)
        else if tvisnan n then uj_err UJ_ERR_NANIDX
        else found_or nk k (lj_tab_getgen t k)
    | TNil => uj_err UJ_ERR_NILIDX
    | _ => found_or nk k (lj_tab_getgen t k)
    end).

(** [copyTV(L, slot, v)] *)
Definition store (s : slot) (v : TValue) : M () := modify (slot_write v s).

(** ** Resizing *)

(** [for (i = asize; i < oldasize; i++)] reinsert the old array values. *)
Fixpoint reinsert_array (nk : TValue → M slot) (i : Z) (vs : list TValue) : M () :=
  match vs with
  | [] => M_ret ()
  | v :: vs' =>
      (if negb (tvisnil v) then let! s := lj_tab_setinth nk i in store s v else M_ret ()) >>>
      reinsert_array nk (i + 1) vs'
  end.

(** Reinsert the pairs of the old hash part. *)
Fixpoint reinsert_nodes (nk : TValue → M slot) (ns : list Node) : M () :=
  match ns with
  | [] => M_ret ()
  | n :: ns' =>
      (if negb (tvisnil (val n)) then let! s := lj_tab_set nk (key n) in store s (val n)
       else M_ret ()) >>>
      reinsert_nodes nk ns'
  end.

(** [(int8_t)(t->colo | 0x80)] *)
Definition colo_separated (c : Z) : Z := wraps 8 (Z.lor c 0x80).

Definition grow_array (na : Z) : M () := λ t,
  if LJ_MAX_ASIZE <? na then Throw UJ_ERR_TABOV t
  else
    let c := if 0 <? colo t then colo_separated (colo t) else colo t in
    Ret () (set_array c (array t ++ replicate (Z.to_nat (na - asize t)) TNil) t).

Definition resizetab (nk : TValue → M slot) (na hbits : Z) : M () :=
  let! t0 := get in
  (if asize t0 <? na then grow_array na else M_ret ()) >>>
  newhpart hbits >>>
  (if na <? asize t0 then
     modify (λ t, set_array (colo t) (take (Z.to_nat na) (array t)) t) >>>
     reinsert_array nk na (drop (Z.to_nat na) (array t0))
   else M_ret ()) >>>
  (if 0 <? hmask t0 then reinsert_nodes nk (node t0) else M_ret ()).

(** ** Sizing *)

Definition hsize2hbits (s : Z) : Z :=
  if s =? 0 then 0 else if s =? 1 then 1 else 1 + lj_bsr (s - 1).

(** [bins[i] += n] *)
Definition bin_add (i n : Z) (bins : list Z) : list Z :=
  alter (Z.add n) (Z.to_nat i) bins.

Definition no_bins : list Z := replicate (Z.to_nat LJ_MAX_ABITS) 0.

Definition bin_of (k : Z) : Z := if 2 <? k then lj_bsr (k - 1) else 0.

(** The integer key that may live in the array part, if the key is one. *)
Definition array_key (k : TValue) : option Z :=
  match k with
  | TNum nk =>
      let i := lj_num2int nk in
      if (u32 i <? LJ_MAX_ASIZE) && num_eq nk (int2num i) then Some i else None
  | _ => None
  end.

Definition countint (k : TValue) (bins : list Z) : Z * list Z :=
  match array_key k with
  | Some i => (1, bin_add (bin_of i) 1 bins)
  | None => (0, bins)
  end.

Definition count_live (vs : list TValue) : Z :=
  Z.of_nat (length (filter (λ v, tvisnil v = false) vs)).

(** The body of the loop over the bins, from bin [b] and array index [i]. *)
Fixpoint countarray_loop (steps : nat) (arr : list TValue) (b i na : Z)
    (bins : list Z) : Z * list Z :=
  match steps with
  | O => (na, bins)
  | S steps' =>
      let sz := Z.of_nat (length arr) in
      let clip := sz <=? 2 * 2 ^ b in
      let top := if clip then sz - 1 else 2 * 2 ^ b in
      if clip && (top <? i) then (na, bins)
      else
        let n := count_live (take (Z.to_nat (top + 1 - i)) (drop (Z.to_nat i) arr)) in
        countarray_loop steps' arr (b + 1) (Z.max i (top + 1)) (na + n) (bin_add b n bins)
  end.

Definition countarray (t : GCtab) (bins : list Z) : Z * list Z :=
  if asize t =? 0 then (0, bins)
  else countarray_loop (Z.to_nat LJ_MAX_ABITS) (array t) 0 0 0 bins.

(** Live pairs of the hash part, those with an array key among them, [bins]. *)
Fixpoint counthash_loop (ns : list Node) (total na : Z) (bins : list Z) : Z * Z * list Z :=
  match ns with
  | [] => (total, na, bins)
  | n :: ns' =>
      if negb (tvisnil (val n)) then
        let '(c, bins') := countint (key n) bins in
        counthash_loop ns' (total + 1) (na + c) bins'
      else counthash_loop ns' total na bins
  end.

Definition counthash (t : GCtab) (bins : list Z) (narray : Z) : Z * Z * list Z :=
  let '(total, na, bins') := counthash_loop (node t) 0 0 bins in
  (total, narray + na, bins').

(** The loop reads [bins[b]]: it has as many steps as there are bins. *)
Fixpoint bestasize_loop (bins : list Z) (nn b sum na sz : Z) : option (Z * Z) :=
  if (lj_pow2 b <? 2 * nn) && negb (sum =? nn) then
    match bins with
    | [] => None
    | c :: bins' =>
        if 0 <? c then
          if lj_pow2 b <? 2 * (sum + c)
          then bestasize_loop bins' nn (b + 1) (sum + c) (sum + c) (2 * 2 ^ b + 1)
          else bestasize_loop bins' nn (b + 1) (sum + c) na sz
        else bestasize_loop bins' nn (b + 1) sum na sz
    end
  else Some (na, sz).

(** Number of elements that go to the array part, and its new size. *)
Definition bestasize (bins : list Z) (narray : Z) : option (Z * Z) :=
  bestasize_loop bins narray 0 0 0 0.

(** New [asize] and [hbits] for a table about to receive [k]. *)
Definition rehash_sizes (t : GCtab) (k : TValue) : option (Z * Z) :=
  if tvisint k then
    let '(na0, bins) := countarray t no_bins in
    let '(nhash, na1, bins) := counthash t bins na0 in
    let '(nk, bins) := countint k bins in
    let total := 1 + na0 + nhash in
    '(na, sz) ← bestasize bins (na1 + nk);
    Some (sz, hsize2hbits (total - na))
  else Some (asize t, lj_ffs (hmask t + 1)).

Definition rehashtab (nk : TValue → M slot) (k : TValue) : M () := λ t,
  match rehash_sizes t k with
  | Some (na, hbits) => resizetab nk na hbits t
  | None => Undef
  end.

(** ** Insertion of a new key *)

(** Search downwards from [freetop] for a node with a nil key. *)
Fixpoint find_free (nd : list Node) (ft : nat) : option nat :=
  match ft with
  | O => None
  | S f =>
      match nd !! f with
      | Some n => if tvisnil (key n) then Some f else find_free nd f
      | None => None
      end
  end.

(** [while (collide->next != n) collide = collide->next;] *)
Fixpoint find_pred (nd : list Node) (n : nat) (fuel c : nat) : option nat :=
  match fuel with
  | O => None
  | S f =>
      nc ← nd !! c;
      if decide (next nc = Some n) then Some c
      else j ← next nc; find_pred nd n f j
  end.

(** Rechain pseudo-resurrected string keys with colliding hashes. *)
Fixpoint rechain (hm : Z) (n : nat) (fuel : nat) (nd : list Node) (fr : nat) :
    option (list Node) :=
  nf ← nd !! fr;
  match next nf with
  | None => Some nd
  | Some i =>
      match fuel with
      | O => None
      | S f =>
          ni ← nd !! i;
          nn ← nd !! n;
          if tvisstr (key ni) && negb (tvisnil (val ni)) &&
             bool_decide (hashkey hm (key ni) = n)
          then
            let nd := alter (set_next (next ni)) fr nd in
            let nd := alter (set_next (next nn)) i nd in
            let nd := alter (set_next (Some i)) n nd in
            rechain hm n f nd fr
          else rechain hm n f nd i
      end
  end.

(** The main node [n] is taken by a key whose anchor is elsewhere: move that
    key to the free node [fr], leaving [n] unlinked. *)
Definition move_colliding (hm : Z) (n fr collide : nat) (nd : list Node) :
    option (list Node) :=
  p ← find_pred nd n (length nd) collide;
  let nd := alter (set_next (Some fr)) p nd in
  nn ← nd !! n;
  let nd := <[fr := nn]> nd in
  let nd := alter (set_val TNil) n (alter (set_next None) n nd) in
  rechain hm n (length nd) nd fr.

(** Link the free node [fr] after its main node [n]. *)
Definition insert_free (n fr : nat) (nd : list Node) : option (list Node) :=
  nn ← nd !! n;
  let nd := alter (set_next (next nn)) fr nd in
  Some (alter (set_next (Some fr)) n nd).

(** [n->key = *key; if (tvismzero(&n->key)) setrawV(&n->key, 0);]: the test only
    looks at the payload, [setrawV] also sets the tag of numbers. *)
Definition store_key (k : TValue) : TValue :=
  if tvismzero (key_raw k) then TNum 0 else k.

Definition finish_key (k : TValue) (n : nat) (t : GCtab) : outcome slot :=
  Ret (HSlot n)
    (lj_gc_anybarriert (set_node (alter (set_key (store_key k)) n (node t)) t)).

Fixpoint lj_tab_newkey (depth : nat) (k : TValue) {struct depth} : M slot := λ t,
  let n := hashkey (hmask t) k in
  if uj_obj_is_immutable t then Throw UJ_ERR_IMMUT_MODIF t
  else match node t !! n with
  | None => Undef
  | Some nn =>
      if negb (tvisnil (val nn)) || (hmask t =? 0) then
        match find_free (node t) (freetop t) with
        | None =>                     (* No free node found: rehash and retry. *)
            match depth with
            | O => Undef
            | S d =>
                (rehashtab (lj_tab_newkey d) k >>> lj_tab_set (lj_tab_newkey d) k) t
            end
        | Some fr =>
            let t := set_freetop fr t in
            let collide := hashkey (hmask t) (key nn) in
            if decide (collide ≠ n) then
              match move_colliding (hmask t) n fr collide (node t) with
              | Some nd => finish_key k n (set_node nd t)
              | None => Undef
              end
            else
              match insert_free n fr (node t) with
              | Some nd => finish_key k fr (set_node nd t)
              | None => Undef
              end
        end
      else finish_key k n t
  end.

(** Rehashing never nests (TabSpec.v), so one level is enough; two are given. *)
Definition REHASH_DEPTH : nat := 2.
Definition newkey : TValue → M slot := lj_tab_newkey REHASH_DEPTH.

(** The entry points of the code, with the knot tied. *)
Definition tab_set (k : TValue) : M slot := lj_tab_set newkey k.
Definition tab_setint (k : Z) : M slot := lj_tab_setint newkey k.
Definition tab_setstr (s : Z) : M slot := lj_tab_setstr newkey s.
Definition lj_tab_rehash : M () := rehashtab newkey TNil.
Definition lj_tab_reasize (nasize : Z) : M () := λ t,
  resizetab newkey (nasize + 1) (if 0 <? hmask t then lj_bsr (hmask t) + 1 else 0) t.

(** [copyTV(L, lj_tab_set(L, t, k), v)], the idiom of the table's clients. *)
Definition tab_put (k v : TValue) : M () := let! s := tab_set k in store s v.

End Ops.
End Tab.
