(* ===== verification/TabChain.v ===== *)
(** * The hash part of a table: collision chains and their invariant

    [chain nd o l]: following [next] from [o] visits the nodes [l] and stops.
    [hwf hm nd] is the invariant of a hash part with mask [hm]: every chain
    ends, no two nodes link to the same node, and every key (of a live or of a
    dead pair) is reached from its anchor [hashkey hm key], whose own key is
    anchored there as well.  The lemmas show that lookup by chain agrees with
    membership, and that the three ways [lj_tab_newkey] places a key without
    rehashing preserve the invariant and the live pairs. *)

From stdpp Require Import base decidable list numbers option sets.
From Stdlib Require Import ZArith Lia.
From S2P Require Import Prelude Obj Tab.

Local Open Scope nat_scope.

Module TabChain.
Import Obj Tab.

(** ** Chains *)

Inductive chain (nd : list Node) : option nat → list nat → Prop :=
  | chain_nil : chain nd None []
  | chain_cons i n l :
      nd !! i = Some n → chain nd (next n) l → chain nd (Some i) (i :: l).

#[export] Hint Constructors chain : vela.

Lemma chain_det nd o l1 l2 : chain nd o l1 → chain nd o l2 → l1 = l2.
Proof.
  intros H1. revert l2. induction H1 as [|i n l Hi Hc IH]; intros l2 H2;
    inversion H2; subst; [done|]. simplify_eq. f_equal. auto.
Qed.

Lemma chain_inv nd i l :
  chain nd (Some i) l → ∃ n l', nd !! i = Some n ∧ l = i :: l' ∧ chain nd (next n) l'.
Proof. inversion 1. eauto. Qed.

Lemma chain_head nd i l : chain nd (Some i) l → ∃ l', l = i :: l'.
Proof. inversion 1. eauto. Qed.

Lemma chain_lookup nd o l i : chain nd o l → i ∈ l → is_Some (nd !! i).
Proof.
  induction 1 as [|j n l Hj Hc IH]; [by intros ?%elem_of_nil|].
  intros [->|Hi]%elem_of_cons; eauto.
Qed.

(** From a node of a chain, the rest of the chain. *)
Lemma chain_suffix nd o l i :
  chain nd o l → i ∈ l → ∃ l1 l2, l = l1 ++ i :: l2 ∧ chain nd (Some i) (i :: l2).
Proof.
  induction 1 as [|j n l Hj Hc IH]; [by intros ?%elem_of_nil|].
  intros [->|Hi]%elem_of_cons.
  - exists [], l. split; [done|]. by econstructor.
  - destruct (IH Hi) as (l1 & l2 & -> & Hc'). by exists (j :: l1), l2.
Qed.

Lemma chain_NoDup nd o l : chain nd o l → NoDup l.
Proof.
  induction 1 as [|i n l Hi Hc IH]; constructor; [|done].
  intros Hin. destruct (chain_suffix _ _ _ _ Hc Hin) as (l1 & l2 & -> & Hc').
  assert (chain nd (Some i) (i :: l1 ++ i :: l2)) as Hc2 by (by econstructor).
  pose proof (chain_det _ _ _ _ Hc' Hc2) as E%(f_equal length).
  simpl in E. rewrite length_app in E. simpl in E. lia.
Qed.

Lemma chain_length nd o l : chain nd o l → length l ≤ length nd.
Proof.
  intros Hc. pose proof (chain_NoDup _ _ _ Hc) as Hnd.
  rewrite <-(length_seq (length nd) 0). apply submseteq_length, NoDup_submseteq; [done|].
  intros i Hi. apply elem_of_seq.
  destruct (chain_lookup _ _ _ _ Hc Hi) as [n Hn%lookup_lt_Some]. lia.
Qed.

(** A chain only depends on the links of its nodes. *)
Lemma chain_frame nd nd' o l :
  chain nd o l → (∀ i, i ∈ l → next <$> nd' !! i = next <$> nd !! i) → chain nd' o l.
Proof.
  induction 1 as [|i n l Hi Hc IH]; intros Hf; [constructor|].
  assert (next <$> nd' !! i = Some (next n)) as Hn.
  { rewrite Hf by set_solver. by rewrite Hi. }
  destruct (nd' !! i) as [n'|] eqn:E; simplify_eq/=.
  econstructor; [done|]. rewrite Hn. apply IH. set_solver.
Qed.

Lemma chain_find_spec nd P fuel i l :
  chain nd (Some i) l → length l ≤ fuel →
  (∃ j n, j ∈ l ∧ nd !! j = Some n ∧ P n = true ∧
          chain_find nd P fuel i = LSlot (HSlot j)) ∨
  (chain_find nd P fuel i = LNull ∧ ∀ j n, j ∈ l → nd !! j = Some n → P n = false).
Proof.
  revert i l. induction fuel as [|fuel IH]; intros i l Hc Hl.
  - destruct (chain_head _ _ _ Hc) as [l' ->]. simpl in Hl. lia.
  - inversion Hc as [|i' n l' Hi Hc' E1 E2]; subst. simpl. rewrite Hi.
    destruct (P n) eqn:HP; [left; exists i, n; set_solver|].
    destruct (next n) as [j|] eqn:Hn.
    + destruct (IH j l' Hc' ltac:(simpl in Hl; lia)) as [(j' & n' & ? & ? & ? & ->)|[-> Hall]].
      * left. exists j', n'. set_solver.
      * right. split; [done|]. intros j' n' [->|?]%elem_of_cons ?; [congruence|eauto].
    + inversion Hc'; subst. right. split; [done|].
      intros j' n' [->|?%elem_of_nil]%elem_of_cons ?; [congruence|done].
Qed.

(** ** The invariant *)

Section Inv.
Context `{ObjHeap}.

(** Keys that may be stored: not nil, not NaN. *)
(** Keys that can be stored: no nil, no NaN, and nothing but numbers with the
    payload of -0 ([lj_tab_newkey] stores such a key as the number 0). *)
Definition key_ok (k : TValue) : Prop :=
  k ≠ TNil ∧
  match k with TNum n => is_num n ∧ tvisnan n = false | _ => key_raw k ≠ (2 ^ 63)%Z end.

(** The canonical form of a key: +0 for -0. *)
Definition norm_key (k : TValue) : TValue :=
  match k with TNum n => TNum (num_norm n) | _ => k end.

Definition canon (k : TValue) : Prop := norm_key k = k.

Definition anchor (hm : Z) (nd : list Node) (i : nat) : Prop :=
  ∃ n, nd !! i = Some n ∧ key n ≠ TNil ∧ hashkey hm (key n) = i.

Definition reached (hm : Z) (nd : list Node) (i : nat) (n : Node) : Prop :=
  ∃ l, chain nd (Some (hashkey hm (key n))) l ∧ i ∈ l.

Record hwf (hm : Z) (nd : list Node) : Prop := {
  hw_len : Z.of_nat (length nd) = (hm + 1)%Z;
  hw_pow : ∃ b, (0 ≤ b ∧ hm + 1 = 2 ^ b)%Z;
  hw_chain i : i < length nd → ∃ l, chain nd (Some i) l;
  hw_inj a b na nb x :
    nd !! a = Some na → nd !! b = Some nb → next na = Some x → next nb = Some x → a = b;
  hw_link a n x :
    nd !! a = Some n → next n = Some x →
    key n ≠ TNil ∧ ∃ nx, nd !! x = Some nx ∧ key nx ≠ TNil;
  hw_val i n : nd !! i = Some n → key n = TNil → val n = TNil;
  hw_key i n :
    nd !! i = Some n → key n ≠ TNil →
    key_ok (key n) ∧ canon (key n) ∧ reached hm nd i n ∧ anchor hm nd (hashkey hm (key n));
  hw_nodup i j ni nj :
    nd !! i = Some ni → nd !! j = Some nj → key ni = key nj → key ni ≠ TNil → i = j
}.

Definition fresh (k : TValue) (nd : list Node) : Prop :=
  ∀ i n, nd !! i = Some n → key n ≠ k.

(** The pairs of the map a hash part represents. *)
Definition livepair (nd : list Node) (k v : TValue) : Prop :=
  ∃ i n, nd !! i = Some n ∧ key n = k ∧ val n = v ∧ v ≠ TNil.

Lemma hashmask_lt hm h : (0 ≤ hm)%Z → hashmask hm h < Z.to_nat (hm + 1).
Proof.
  intros Hm. unfold hashmask. pose proof (land_mask_range h hm Hm). lia.
Qed.

Lemma hashkey_lt hm nd k : hwf hm nd → hashkey hm k < length nd.
Proof.
  intros W. pose proof (hw_len _ _ W). destruct (hw_pow _ _ W) as (b & ? & ?).
  pose proof (Z.pow_pos_nonneg 2 b).
  replace (length nd) with (Z.to_nat (hm + 1)) by lia.
  destruct k; simpl; unfold hashstr, hashlohi, hashnum, hashlohi; try case_match;
    apply hashmask_lt; lia.
Qed.

(** ** Lookup *)

(** What the three tests of the getters decide on the keys of a hash part. *)
Definition stored (k : TValue) : Prop := k = TNil ∨ key_ok k ∧ canon k.

Lemma canon_num n : canon (TNum n) → num_norm n = n.
Proof. unfold canon. simpl. congruence. Qed.

Lemma uj_obj_equal_spec k' k :
  stored k' → key_ok k → uj_obj_equal k' k = true ↔ k' = norm_key k.
Proof.
  intros Hs [Hnil Hk].
  destruct k as [|b|p|g p|n], k' as [|b'|p'|g' p'|n']; simpl; try (split; congruence).
  - rewrite Bool.eqb_true_iff. split; congruence.
  - rewrite Z.eqb_eq. split; congruence.
  - rewrite andb_true_iff, bool_decide_eq_true, Z.eqb_eq. split; [intros [-> ->]|]; naive_solver.
  - destruct Hs as [?|[[_ [Hn' Hnan']] Hc%canon_num]]; [done|]. destruct Hk as [Hn Hnan].
    rewrite num_eq_norm, Hc by done. split; congruence.
Qed.

Lemma key_is_num_spec x n :
  stored (key n) → is_num x → tvisnan x = false → num_norm x = x →
  key_is_num x n = true ↔ key n = TNum x.
Proof.
  intros Hs Hx Hnan Hc. unfold key_is_num.
  pose proof (uj_obj_equal_spec (key n) (TNum x) Hs) as He. simpl in He. rewrite Hc in He.
  destruct (key n) eqn:E; try (split; congruence). apply He. done.
Qed.

Lemma key_is_str_spec s n : key_is_str s n = true ↔ key n = TGCV GT_STR s.
Proof.
  unfold key_is_str. destruct (key n) as [|b|p|[] p|x]; try (split; congruence).
  rewrite Z.eqb_eq. split; congruence.
Qed.

Lemma hwf_stored hm nd i n : hwf hm nd → nd !! i = Some n → stored (key n).
Proof.
  intros W Hn. destruct (decide (key n = TNil)) as [?|Hk]; [by left|right].
  destruct (hw_key _ _ W _ _ Hn Hk) as (? & ? & _). done.
Qed.

Definition found_at (nd : list Node) (k : TValue) (r : lookup) : Prop :=
  (∃ j n, nd !! j = Some n ∧ key n = k ∧ r = LSlot (HSlot j)) ∨ (fresh k nd ∧ r = LNull).

(** A search along the chain of a key's anchor finds the key iff it is there. *)
Lemma chain_find_key hm nd P k :
  hwf hm nd → k ≠ TNil →
  (∀ i n, nd !! i = Some n → P n = true ↔ key n = k) →
  found_at nd k (chain_find nd P (length nd) (hashkey hm k)).
Proof.
  intros W Hk HP.
  destruct (hw_chain _ _ W _ (hashkey_lt hm nd k W)) as [l Hc].
  destruct (chain_find_spec nd P (length nd) _ _ Hc (chain_length _ _ _ Hc))
    as [(j & n & Hj & Hn & HPn & ->)|[-> Hall]].
  - left. exists j, n. apply (HP _ _ Hn) in HPn. done.
  - right. split; [|done]. intros i n Hn <-.
    destruct (hw_key _ _ W _ _ Hn Hk) as (_ & _ & (l' & Hc' & Hi) & _).
    rewrite (chain_det _ _ _ _ Hc' Hc) in Hi.
    pose proof (Hall _ _ Hi Hn). pose proof (proj2 (HP _ _ Hn) eq_refl). congruence.
Qed.

Lemma hashkey_norm hm k : key_ok k → hashkey hm (norm_key k) = hashkey hm k.
Proof.
  intros [_ Hk]. destruct k as [| | | |n]; try done. simpl.
  unfold num_norm, tvismzero. destruct (n =? 2 ^ 63)%Z eqn:E; bprop; [|done]. by subst n.
Qed.

Lemma norm_key_ok k : key_ok k → key_ok (norm_key k) ∧ canon (norm_key k).
Proof.
  intros [Hnil Hk]. destruct k as [| | | |n]; try (split; done).
  unfold canon, key_ok. simpl. unfold num_norm, tvismzero.
  destruct (n =? 2 ^ 63)%Z eqn:E; [|rewrite E; done].
  split; [|done]. split; [done|]. split; [|done]. unfold is_num, in_u. simpl. lia.
Qed.

(** ** Placing a key: the main node is free *)

Lemma chain_set_key nd k i o l : chain nd o l → chain (alter (set_key k) i nd) o l.
Proof.
  intros Hc. apply (chain_frame nd); [done|]. intros j _.
  rewrite list_lookup_alter. case_decide; [subst; by destruct (nd !! j)|done].
Qed.

Lemma lookup_alter_inv {A} (f : A → A) i (l : list A) j y :
  alter f i l !! j = Some y →
  (i = j ∧ ∃ x, l !! i = Some x ∧ y = f x) ∨ (i ≠ j ∧ l !! j = Some y).
Proof.
  rewrite list_lookup_alter. case_decide; [|by right].
  destruct (l !! i) as [x|]; intros [= <-]. left. eauto.
Qed.

Lemma hwf_set_main hm nd k nn :
  hwf hm nd → key_ok k → canon k → fresh k nd →
  nd !! hashkey hm k = Some nn → val nn = TNil →
  hwf hm (alter (set_key k) (hashkey hm k) nd).
Proof.
  intros W Hk Hc Hf Hn Hv. set (n := hashkey hm k) in *.
  assert (k ≠ TNil) as Hnil by apply Hk.
  assert (∀ i, anchor hm nd i → anchor hm (alter (set_key k) n nd) i) as Hanc.
  { intros i (m & Hm & Hkm & Hh). destruct (decide (n = i)) as [<-|Hne].
    - exists (set_key k nn). by rewrite list_lookup_alter_eq, Hn.
    - exists m. by rewrite list_lookup_alter_ne. }
  split.
  - rewrite length_alter. apply W.
  - apply W.
  - rewrite length_alter. intros i Hi. destruct (hw_chain _ _ W i Hi) as [l Hl].
    exists l. by apply chain_set_key.
  - intros a b na nb x [[<- (xa & Ha & ->)]|[? Ha]]%lookup_alter_inv
      [[<- (xb & Hb & ->)]|[? Hb]]%lookup_alter_inv; simpl; intros; eauto using hw_inj.
  - intros a m x Hm Hx.
    assert (∃ m', nd !! a = Some m' ∧ next m' = Some x ∧ (key m' ≠ TNil → key m ≠ TNil))
      as (m' & Hm' & Hx' & Hkm).
    { apply lookup_alter_inv in Hm as [[<- (xa & Ha & ->)]|[? Ha]]; eauto. }
    destruct (hw_link _ _ W _ _ _ Hm' Hx') as [Hk1 (nx & Hnx & Hk2)]. split; [auto|].
    rewrite list_lookup_alter. case_decide; [subst; rewrite Hnx; simpl|]; eauto.
  - intros i m [[<- (xa & Ha & ->)]|[? Ha]]%lookup_alter_inv; [done|]. apply (hw_val _ _ W _ _ Ha).
  - intros i m [[<- (xa & Ha & ->)]|[Hne Ha]]%lookup_alter_inv Hkm; simpl.
    + split_and!; [done|done| |].
      * destruct (hw_chain _ _ W n (hashkey_lt _ _ _ W)) as [l Hl].
        exists l. split; [by apply chain_set_key|].
        destruct (chain_head _ _ _ Hl) as [l' ->]. set_solver.
      * exists (set_key k xa). by rewrite list_lookup_alter_eq, Ha.
    + destruct (hw_key _ _ W _ _ Ha Hkm) as (? & ? & (l & Hl & ?) & ?).
      split_and!; auto. exists l. split; [by apply chain_set_key|done].
  - intros i j ni nj [[<- (xa & Ha & ->)]|[? Ha]]%lookup_alter_inv
      [[<- (xb & Hb & ->)]|[? Hb]]%lookup_alter_inv; simpl; intros E Hkm; auto.
    + by destruct (Hf _ _ Hb).
    + by destruct (Hf _ _ Ha).
    + eauto using hw_nodup.
Qed.

(** A key written into a node without a live value adds no live pair. *)
Lemma livepair_set_key nd k i n :
  nd !! i = Some n → val n = TNil →
  ∀ k' v, livepair (alter (set_key k) i nd) k' v ↔ livepair nd k' v.
Proof.
  intros Hn Hv k' v. split.
  - intros (j & m & [[<- (x & Hx & ->)]|[? Hm]]%lookup_alter_inv & <- & <- & Hnn).
    + simpl in Hnn. congruence.
    + by exists j, m.
  - intros (j & m & Hm & <- & <- & Hnn). exists j, m. split_and!; try done.
    rewrite list_lookup_alter_ne; [done|]. intros ->. congruence.
Qed.

(** ** Placing a key: a free node is linked after the main node *)

Lemma free_unlinked hm nd fr nf a n :
  hwf hm nd → nd !! fr = Some nf → key nf = TNil → nd !! a = Some n → next n ≠ Some fr.
Proof.
  intros W Hfr Hk Hn Hx. destruct (hw_link _ _ W _ _ _ Hn Hx) as [_ (nx & ? & ?)]. congruence.
Qed.

Lemma free_next hm nd fr nf :
  hwf hm nd → nd !! fr = Some nf → key nf = TNil → next nf = None.
Proof.
  intros W Hfr Hk. destruct (next nf) eqn:E; [|done].
  by destruct (hw_link _ _ W _ _ _ Hfr E) as [? _].
Qed.

(** A free node is on no chain but its own. *)
Lemma free_not_in_chain hm nd fr nf o l :
  hwf hm nd → nd !! fr = Some nf → key nf = TNil → chain nd o l → o ≠ Some fr → fr ∉ l.
Proof.
  intros W Hfr Hk. induction 1 as [|i n l Hi Hc IH]; intros Ho; [set_solver|].
  apply not_elem_of_cons. split; [congruence|]. apply IH.
  eauto using free_unlinked.
Qed.

Definition linked (n fr : nat) (nd : list Node) : list Node :=
  alter (set_next (Some fr)) n (alter (set_next ((nd !! n) ≫= next)) fr nd).

Lemma insert_free_linked nd n fr nn :
  nd !! n = Some nn → insert_free n fr nd = Some (linked n fr nd).
Proof. intros Hn. unfold insert_free, linked. by rewrite Hn. Qed.

Section InsertFree.
Context (hm : Z) (nd : list Node) (n fr : nat) (nn nf : Node) (k : TValue).
Context (W : hwf hm nd) (Hn : nd !! n = Some nn) (Hkn : key nn ≠ TNil).
Context (Hmain : hashkey hm (key nn) = n).
Context (Hfr : nd !! fr = Some nf) (Hnil : key nf = TNil).
Context (Hk : key_ok k) (Hcan : canon k) (Hfresh : fresh k nd) (Hhk : hashkey hm k = n).

Let nd' := alter (set_key k) fr (linked n fr nd).

Lemma n_ne_fr : n ≠ fr.
Proof. congruence. Qed.

Lemma lookup_ins x :
  nd' !! x = if decide (x = n) then Some (set_next (Some fr) nn)
             else if decide (x = fr) then Some (MkNode k TNil (next nn))
             else nd !! x.
Proof.
  pose proof n_ne_fr. unfold nd', linked. rewrite Hn. simpl.
  destruct (decide (x = n)) as [->|]; [|destruct (decide (x = fr)) as [->|]].
  - rewrite list_lookup_alter_ne, list_lookup_alter_eq, list_lookup_alter_ne, Hn; done.
  - rewrite list_lookup_alter_eq, list_lookup_alter_ne, list_lookup_alter_eq, Hfr by done.
    simpl. unfold set_key, set_next. simpl. by rewrite (hw_val _ _ W _ _ Hfr Hnil).
  - by rewrite !list_lookup_alter_ne by done.
Qed.

Lemma lookup_ins_other x m :
  nd' !! x = Some m → x ≠ fr →
  ∃ m0, nd !! x = Some m0 ∧ key m = key m0 ∧ val m = val m0 ∧
    (x ≠ n → next m = next m0).
Proof.
  rewrite lookup_ins. intros Hm Hne.
  destruct (decide (x = n)) as [->|]; [|destruct (decide (x = fr)) as [->|]]; simplify_eq.
  - exists nn. done.
  - exists m. done.
Qed.

Fixpoint ins_after (l : list nat) : list nat :=
  match l with
  | [] => []
  | x :: l' => if decide (x = n) then x :: fr :: l' else x :: ins_after l'
  end.

Lemma elem_of_ins x l : x ∈ l → x ∈ ins_after l.
Proof.
  induction l as [|y l IH]; simpl; [done|]. intros Hx. case_decide; rewrite ?elem_of_cons in *; tauto.
Qed.

Lemma elem_of_ins_fr l : n ∈ l → fr ∈ ins_after l.
Proof.
  induction l as [|y l IH]; simpl; [by intros ?%elem_of_nil|].
  intros Hx. case_decide; rewrite ?elem_of_cons in *; [tauto|].
  destruct Hx as [<-|Hx]; tauto.
Qed.

Lemma chain_outside o l : chain nd o l → n ∉ l → fr ∉ l → chain nd' o l.
Proof.
  intros Hc ? ?. apply (chain_frame nd); [done|]. intros i Hi. rewrite lookup_ins.
  repeat case_decide; subst; done.
Qed.

Lemma chain_ins o l : chain nd o l → o ≠ Some fr → chain nd' o (ins_after l).
Proof.
  induction 1 as [|i m l Hi Hc IH]; intros Ho; [constructor|]. simpl.
  pose proof (chain_NoDup nd (Some i) (i :: l) ltac:(by econstructor)) as [? _]%NoDup_cons.
  assert (fr ∉ l) as Hfl by (eapply free_not_in_chain; eauto using free_unlinked).
  case_decide; subst.
  - simplify_eq. econstructor; [by rewrite lookup_ins, decide_True|]. simpl.
    econstructor; [by rewrite lookup_ins, decide_False, decide_True by auto using n_ne_fr|].
    by apply chain_outside.
  - econstructor; [rewrite lookup_ins, !decide_False by congruence; done|].
    apply IH. eauto using free_unlinked.
Qed.

Lemma chain_ins_fr : ∃ l, chain nd' (Some fr) l.
Proof.
  destruct (hw_chain _ _ W n) as [l Hl]; [by apply lookup_lt_Some in Hn|].
  apply (chain_ins _ _) in Hl as Hl'; [|pose proof n_ne_fr; congruence].
  apply chain_inv in Hl' as (m & l' & Hm & _ & Hc').
  rewrite lookup_ins, decide_True in Hm by done. simplify_eq. simpl in Hc'. eauto.
Qed.

Lemma anchor_ins i : anchor hm nd i → anchor hm nd' i.
Proof.
  intros (m & Hm & Hkm & Hh). unfold anchor. rewrite lookup_ins.
  destruct (decide (i = n)) as [E|]; [|destruct (decide (i = fr)) as [E|]].
  - exists (set_next (Some fr) nn). by rewrite E.
  - rewrite E in Hm. congruence.
  - by exists m.
Qed.

Lemma main_not_free k0 : anchor hm nd (hashkey hm k0) → hashkey hm k0 ≠ fr.
Proof. intros (m & Hm & ? & ?) E. rewrite E in Hm. congruence. Qed.

(** Where the links of the new hash part come from. *)
Lemma next_ins x m y :
  nd' !! x = Some m → next m = Some y →
  (x = n ∧ y = fr) ∨
  (y ≠ fr ∧ ∃ x0 m0, nd !! x0 = Some m0 ∧ next m0 = Some y ∧ key m0 ≠ TNil ∧
     (x = fr ∧ x0 = n ∨ x ≠ fr ∧ x ≠ n ∧ x0 = x)).
Proof.
  intros Hm Hy. rewrite lookup_ins in Hm.
  destruct (decide (x = n)) as [E|]; [|destruct (decide (x = fr)) as [E|]].
  - left. injection Hm as <-. simpl in Hy. split; congruence.
  - right. injection Hm as <-. simpl in Hy. split; [|exists n, nn; split_and!; auto].
    intros Ey. rewrite Ey in Hy. apply (free_unlinked hm nd fr nf n nn W Hfr Hnil Hn Hy).
  - right. split.
    + intros Ey. rewrite Ey in Hy. apply (free_unlinked hm nd fr nf x m W Hfr Hnil Hm Hy).
    + exists x, m. split_and!; auto. eapply hw_link; eauto.
Qed.

Lemma hw_inj_ins a b na nb x :
  nd' !! a = Some na → nd' !! b = Some nb → next na = Some x → next nb = Some x → a = b.
Proof.
  intros Ha Hb Hxa Hxb.
  destruct (next_ins _ _ _ Ha Hxa) as [[? ?]|(? & a0 & ma & Ha0 & Ea & _ & Hca)],
    (next_ins _ _ _ Hb Hxb) as [[? ?]|(? & b0 & mb & Hb0 & Eb & _ & Hcb)]; try congruence.
  assert (a0 = b0) by eauto using hw_inj. intuition congruence.
Qed.

Lemma hw_link_ins a m x :
  nd' !! a = Some m → next m = Some x →
  key m ≠ TNil ∧ ∃ nx, nd' !! x = Some nx ∧ key nx ≠ TNil.
Proof.
  intros Ha Hx. assert (k ≠ TNil) by apply Hk.
  assert (∀ y, (∃ ny, nd !! y = Some ny ∧ key ny ≠ TNil) →
            ∃ nx, nd' !! y = Some nx ∧ key nx ≠ TNil) as Hpres.
  { intros y (ny & Hny & Hkny). rewrite lookup_ins.
    destruct (decide (y = n)); [|destruct (decide (y = fr))]; eauto; eexists; done. }
  assert (key m ≠ TNil) as Hkm.
  { pose proof Ha as Hm. rewrite lookup_ins in Hm.
    destruct (decide (a = n)); [|destruct (decide (a = fr))];
      [injection Hm as <-; done|injection Hm as <-; done|]. eapply hw_link; eauto. }
  split; [done|].
  destruct (next_ins _ _ _ Ha Hx) as [[_ ->]|(_ & x0 & m0 & Hx0 & E & _)].
  - rewrite lookup_ins, decide_False, decide_True by auto using n_ne_fr. by eexists.
  - apply Hpres. eapply hw_link; eauto.
Qed.

Lemma hwf_insert_free : hwf hm nd'.
Proof.
  split; [..|eauto using hw_inj_ins|eauto using hw_link_ins| | |].
  - unfold nd', linked. rewrite !length_alter. apply W.
  - apply W.
  - intros i Hi. destruct (decide (i = fr)) as [->|]; [apply chain_ins_fr|].
    unfold nd', linked in Hi. rewrite !length_alter in Hi.
    destruct (hw_chain _ _ W i Hi) as [l Hl]. exists (ins_after l).
    apply chain_ins; congruence.
  - intros i m Hm Hkm. rewrite lookup_ins in Hm. assert (k ≠ TNil) by apply Hk.
    destruct (decide (i = n)); [|destruct (decide (i = fr))];
      [injection Hm as <-; done|injection Hm as <-; done|eauto using hw_val].
  - intros i m Hm Hkm. destruct (decide (i = fr)) as [->|Hne].
    + rewrite lookup_ins, decide_False, decide_True in Hm by auto using n_ne_fr.
      injection Hm as <-. simpl. unfold reached. simpl. rewrite Hhk.
      destruct (hw_key _ _ W _ _ Hn Hkn) as (_ & _ & (l & Hl & Hin) & Ha).
      rewrite Hmain in *. split_and!; [done|done| |by apply anchor_ins].
      exists (ins_after l). split; [|by apply elem_of_ins_fr].
      apply chain_ins; [done|]. pose proof n_ne_fr. congruence.
    + destruct (lookup_ins_other _ _ Hm Hne) as (m0 & Hm0 & Ek & _ & _).
      rewrite Ek in *. unfold reached. rewrite Ek.
      destruct (hw_key _ _ W _ _ Hm0 Hkm) as (? & ? & (l & Hl & Hin) & Ha).
      split_and!; [done|done| |by apply anchor_ins].
      exists (ins_after l). split; [|by apply elem_of_ins].
      apply chain_ins; [done|]. intros [= E]. by apply (main_not_free _ Ha).
  - intros i j ni nj Hi Hj E Hkm.
    destruct (decide (i = fr)) as [->|Hi'], (decide (j = fr)) as [->|Hj']; [done|..].
    + destruct (lookup_ins_other _ _ Hj Hj') as (m0 & Hm0 & Ek & _).
      rewrite lookup_ins, decide_False, decide_True in Hi by auto using n_ne_fr.
      injection Hi as <-. simpl in E. by destruct (Hfresh _ _ Hm0); congruence.
    + destruct (lookup_ins_other _ _ Hi Hi') as (m0 & Hm0 & Ek & _).
      rewrite lookup_ins, decide_False, decide_True in Hj by auto using n_ne_fr.
      injection Hj as <-. simpl in E. destruct (Hfresh _ _ Hm0). congruence.
    + destruct (lookup_ins_other _ _ Hi Hi') as (mi & Hmi & Eki & _).
      destruct (lookup_ins_other _ _ Hj Hj') as (mj & Hmj & Ekj & _).
      eapply hw_nodup; eauto; congruence.
Qed.

Lemma livepair_insert_free k0 v : livepair nd' k0 v ↔ livepair nd k0 v.
Proof.
  split; intros (i & m & Hm & <- & <- & Hv).
  - destruct (decide (i = fr)) as [->|Hne].
    + rewrite lookup_ins, decide_False, decide_True in Hm by auto using n_ne_fr.
      by simplify_eq.
    + destruct (lookup_ins_other _ _ Hm Hne) as (m0 & ? & -> & Ev & _).
      exists i, m0. by rewrite <-Ev.
  - unfold livepair. setoid_rewrite lookup_ins. exists i.
    destruct (decide (i = n)) as [E|]; [|destruct (decide (i = fr)) as [E|]].
    + exists (set_next (Some fr) nn). rewrite E, Hn in Hm. by injection Hm as <-.
    + rewrite E, Hfr in Hm. injection Hm as <-. by rewrite (hw_val _ _ W _ _ Hfr Hnil) in Hv.
    + by exists m.
Qed.

Lemma lookup_insert_free : nd' !! fr = Some (MkNode k TNil (next nn)).
Proof.
  by rewrite lookup_ins, decide_False, decide_True by auto using n_ne_fr.
Qed.

End InsertFree.

(** ** Placing a key: the colliding key is moved to the free node *)

Lemma find_pred_spec nd n fuel c l :
  chain nd (Some c) l → length l ≤ fuel → n ∈ l → c ≠ n →
  ∃ p np, find_pred nd n fuel c = Some p ∧ nd !! p = Some np ∧ next np = Some n ∧ p ∈ l.
Proof.
  revert c l. induction fuel as [|fuel IH]; intros c l Hc Hl Hin Hne;
    apply chain_inv in Hc as (nc & l' & Hnc & -> & Hc'); simpl in Hl; [lia|].
  apply elem_of_cons in Hin as [?|Hin]; [congruence|]. simpl. rewrite Hnc. simpl.
  case_decide as Hd; [exists c, nc; set_solver|].
  destruct (next nc) as [j|] eqn:Ej; simpl; [|inversion Hc'; subst; set_solver].
  destruct (IH j l' Hc' ltac:(lia) Hin) as (p & np & ? & ? & ? & ?); [congruence|].
  exists p, np. set_solver.
Qed.

Definition moved (n fr p : nat) (nn : Node) (nd : list Node) : list Node :=
  alter (set_val TNil) n (alter (set_next None) n
    (<[fr := nn]> (alter (set_next (Some fr)) p nd))).

Section Move.
Context (hm : Z) (nd : list Node) (n fr p : nat) (nn nf np : Node) (k : TValue).
Context (W : hwf hm nd) (Hn : nd !! n = Some nn) (Hkn : key nn ≠ TNil).
Context (Hp : nd !! p = Some np) (Hpn : next np = Some n).
Context (Hfr : nd !! fr = Some nf) (Hnil : key nf = TNil).

Lemma move_ne : n ≠ fr ∧ p ≠ fr ∧ p ≠ n.
Proof.
  split_and!; [congruence| |].
  - intros E. rewrite E in Hp. pose proof (free_next _ _ _ _ W Hfr Hnil). congruence.
  - intros E. rewrite E in Hp.
    destruct (hw_chain _ _ W n) as [l Hl]; [by apply lookup_lt_Some in Hn|].
    pose proof Hl as (m & l' & Hm & El & Hl')%chain_inv.
    rewrite Hp in Hm. injection Hm as <-. rewrite Hpn in Hl'.
    pose proof (chain_det _ _ _ _ Hl Hl') as Ed. subst l.
    apply (f_equal length) in Ed. simpl in Ed. lia.
Qed.

Let nd1 := moved n fr p nn nd.

Lemma lookup_moved x :
  nd1 !! x = if decide (x = n) then Some (MkNode (key nn) TNil None)
             else if decide (x = fr) then Some nn
             else if decide (x = p) then Some (set_next (Some fr) np)
             else nd !! x.
Proof.
  destruct move_ne as (? & ? & ?). unfold nd1, moved.
  destruct (decide (x = n)) as [->|];
    [|destruct (decide (x = fr)) as [->|]; [|destruct (decide (x = p)) as [->|]]].
  - rewrite 2!list_lookup_alter_eq, list_lookup_insert_ne, list_lookup_alter_ne, Hn; done.
  - rewrite 2!list_lookup_alter_ne, list_lookup_insert_eq; try done.
    rewrite length_alter. by apply lookup_lt_Some in Hfr.
  - rewrite 2!list_lookup_alter_ne, list_lookup_insert_ne, list_lookup_alter_eq, Hp; done.
  - by rewrite 2!list_lookup_alter_ne, list_lookup_insert_ne, list_lookup_alter_ne.
Qed.

(** Links of the moved hash part, in terms of the old one. *)
Lemma next_moved x m y :
  nd1 !! x = Some m → next m = Some y →
  (x = p ∧ y = fr) ∨
  (y ≠ fr ∧ y ≠ n ∧ x ≠ n ∧ ∃ x0 m0, nd !! x0 = Some m0 ∧ next m0 = Some y ∧ key m0 = key m ∧
     (x = fr ∧ x0 = n ∨ x ≠ fr ∧ x ≠ p ∧ x0 = x)).
Proof.
  destruct move_ne as (? & ? & ?). intros Hm Hy. rewrite lookup_moved in Hm.
  assert (∀ x0 m0, nd !! x0 = Some m0 → next m0 = Some y → y ≠ fr) as Hyf.
  { intros x0 m0 Hx0m E Ey. rewrite Ey in E. by apply (free_unlinked hm nd fr nf x0 m0). }
  assert (∀ x0 m0, nd !! x0 = Some m0 → next m0 = Some y → x0 ≠ p → y ≠ n) as Hyn.
  { intros x0 m0 Hx0m E Hx0 Ey. rewrite Ey in E. eauto using hw_inj. }
  destruct (decide (x = n)) as [E|];
    [|destruct (decide (x = fr)) as [E|]; [|destruct (decide (x = p)) as [E|]]].
  - by injection Hm as <-.
  - right. injection Hm as <-. split_and!; eauto.
    exists n, nn. split_and!; auto.
  - left. injection Hm as <-. simpl in Hy. split; congruence.
  - right. split_and!; eauto. exists x, m. split_and!; auto 10.
Qed.

Definition repl (l : list nat) : list nat := (λ x, if decide (x = n) then fr else x) <$> l.

Lemma chain_moved_tail o l :
  chain nd o l → n ∉ l → o ≠ Some fr → chain nd1 o l.
Proof.
  intros Hc Hnl Ho. apply (chain_frame nd); [done|]. intros i Hi. rewrite lookup_moved.
  assert (fr ∉ l) by (eapply free_not_in_chain; eauto).
  destruct (decide (i = n)); [congruence|].
  destruct (decide (i = fr)); [congruence|].
  destruct (decide (i = p)) as [->|]; [|done].
  destruct (chain_suffix _ _ _ _ Hc Hi) as (l1 & l2 & -> & Hs).
  apply chain_inv in Hs as (m & l' & Hm & El & Hs).
  rewrite Hp in Hm. injection Hm as <-. injection El as ->.
  rewrite Hpn in Hs. apply chain_head in Hs as [l'' ->].
  destruct Hnl. rewrite elem_of_app, !elem_of_cons. auto.
Qed.

Lemma chain_moved_from l2 : chain nd (Some n) (n :: l2) → chain nd1 (Some fr) (fr :: l2).
Proof.
  intros Hc. pose proof (chain_NoDup _ _ _ Hc) as [Hnl _]%NoDup_cons.
  apply chain_inv in Hc as (m & l' & Hm & El & Hc).
  rewrite Hn in Hm. injection Hm as <-. injection El as ->.
  destruct move_ne as (? & ? & ?).
  econstructor; [rewrite lookup_moved, decide_False, decide_True by done; done|].
  apply chain_moved_tail; [done|done|]. intros E. by apply (free_unlinked hm nd fr nf n nn).
Qed.

Lemma chain_moved o l :
  chain nd o l → o ≠ Some n → o ≠ Some fr → chain nd1 o (repl l).
Proof.
  destruct move_ne as (? & ? & ?).
  induction 1 as [|i m l Hi Hc IH]; intros Hon Hof; [constructor|]. cbn [repl fmap list_fmap].
  rewrite decide_False by congruence.
  destruct (decide (i = p)) as [->|Hip].
  - simplify_eq. econstructor.
    { rewrite lookup_moved, !decide_False, decide_True by congruence. done. }
    simpl. rewrite Hpn in Hc. pose proof Hc as [l2 ->]%chain_head.
    cbn [fmap list_fmap]. rewrite decide_True by done.
    pose proof (chain_NoDup _ _ _ Hc) as [Hnl _]%NoDup_cons.
    replace ((λ x, if decide (x = n) then fr else x) <$> l2) with l2.
    { by apply chain_moved_from. }
    rewrite <-(list_fmap_id l2) at 1. apply list_fmap_ext. intros ? x Hx%list_elem_of_lookup_2.
    rewrite decide_False; [done|]. congruence.
  - econstructor.
    { rewrite lookup_moved, !decide_False by congruence. done. }
    apply IH; [|eauto using free_unlinked]. intros E. apply Hip. eauto using hw_inj.
Qed.

Lemma repl_elem x l : x ∈ l → x ≠ n → x ∈ repl l.
Proof. intros. apply list_elem_of_fmap. exists x. by rewrite decide_False. Qed.

Lemma repl_elem_fr l : n ∈ l → fr ∈ repl l.
Proof. intros. apply list_elem_of_fmap. exists n. by rewrite decide_True. Qed.

Context (Hmain : hashkey hm (key nn) ≠ n).

(** No key is anchored at a node taken by a key anchored elsewhere... *)
Lemma not_anchor : ¬ anchor hm nd n.
Proof. intros (m & Hm & _ & Hh). rewrite Hn in Hm. injection Hm as <-. done. Qed.

Lemma moved_main i m : nd1 !! i = Some m → key m ≠ TNil → hashkey hm (key m) ≠ n.
Proof.
  assert (∀ j m0, nd !! j = Some m0 → key m0 ≠ TNil → hashkey hm (key m0) ≠ n) as Hall.
  { intros j m0 Hm0 Hk0 E. destruct (hw_key _ _ W _ _ Hm0 Hk0) as (_ & _ & _ & Ha).
    rewrite E in Ha. by apply not_anchor. }
  rewrite lookup_moved. intros Hm Hkm.
  destruct (decide (i = n)); [|destruct (decide (i = fr)); [|destruct (decide (i = p))]];
    try (injection Hm as <-; simpl in *); eauto.
Qed.

(** ... so the rechaining loop only walks the chain. *)
Lemma rechain_noop fuel x l :
  chain nd1 (Some x) l → length l ≤ S fuel → rechain hm n fuel nd1 x = Some nd1.
Proof.
  revert x l. induction fuel as [|fuel IH]; intros x l Hc Hl;
    apply chain_inv in Hc as (m & l' & Hm & -> & Hc); simpl; rewrite Hm; simpl;
    (destruct (next m) as [j|] eqn:Ej; [|done]);
    pose proof Hc as (mj & l'' & Hmj & -> & _)%chain_inv; simpl in Hl; [lia|].
  rewrite Hmj. simpl. rewrite lookup_moved, decide_True by done. simpl.
  rewrite (bool_decide_eq_false_2 (hashkey hm (key mj) = n)), andb_false_r.
  { apply (IH _ _ Hc). simpl. lia. }
  destruct (next_moved _ _ _ Hm Ej) as [[-> ->]|(_ & _ & _ & x0 & m0 & Hm0 & E0 & _)].
  - apply (moved_main fr mj Hmj). rewrite lookup_moved, decide_False, decide_True in Hmj
      by (destruct move_ne; auto). by injection Hmj as <-.
  - apply (moved_main j mj Hmj).
    destruct (hw_link _ _ W _ _ _ Hm0 E0) as [_ (nx & Hnx & Hkx)].
    rewrite lookup_moved in Hmj.
    destruct (decide (j = n)); [|destruct (decide (j = fr)); [|destruct (decide (j = p))]];
      try (injection Hmj as <-; simpl); congruence || (simpl; congruence).
Qed.

Context (Hk : key_ok k) (Hcan : canon k) (Hfresh : fresh k nd) (Hhk : hashkey hm k = n).

Let nd' := alter (set_key k) n nd1.

Lemma lookup_mv x m :
  nd' !! x = Some m →
  (x = n ∧ m = MkNode k TNil None) ∨
  (x ≠ n ∧ nd1 !! x = Some m ∧
     ∃ x0 m0, nd !! x0 = Some m0 ∧ key m = key m0 ∧ val m = val m0 ∧
       (x = fr ∧ x0 = n ∨ x ≠ fr ∧ x0 = x)).
Proof.
  destruct move_ne as (? & ? & ?).
  intros [[E (y & Hy & ->)]|[Hne Hm]]%lookup_alter_inv.
  - left. rewrite lookup_moved, decide_True in Hy by done. by injection Hy as <-.
  - right. split_and!; [done|done|]. rewrite lookup_moved, decide_False in Hm by done.
    destruct (decide (x = fr)); [|destruct (decide (x = p)) as [->|]];
      [injection Hm as <-; exists n, nn; auto 10|injection Hm as <-; exists p, np; auto 10|].
    exists x, m. auto 10.
Qed.

Lemma chain_mv o l : chain nd1 o l → chain nd' o l.
Proof. apply chain_set_key. Qed.

Lemma chain_mv_n : chain nd' (Some n) [n].
Proof.
  eapply chain_mv, chain_cons; [by rewrite lookup_moved, decide_True|constructor].
Qed.

Lemma anchor_mv i : anchor hm nd i → anchor hm nd' i.
Proof.
  intros Ha. destruct (decide (i = n)) as [->|Hne]; [by destruct not_anchor|].
  destruct Ha as (m & Hm & Hkm & Hh). unfold anchor, nd'.
  rewrite list_lookup_alter_ne, lookup_moved, decide_False by done.
  destruct (decide (i = fr)) as [E|]; [congruence|].
  destruct (decide (i = p)) as [E|]; [|by exists m].
  exists (set_next (Some fr) np). rewrite E, Hp in Hm. injection Hm as <-. by rewrite E in *.
Qed.

Lemma hw_key_mv i m :
  nd' !! i = Some m → key m ≠ TNil →
  key_ok (key m) ∧ canon (key m) ∧ reached hm nd' i m ∧ anchor hm nd' (hashkey hm (key m)).
Proof.
  intros Hm Hkm.
  destruct (lookup_mv _ _ Hm) as [[-> ->]|(Hne & _ & x0 & m0 & Hm0 & Ek & _ & Hx)].
  - simpl. unfold reached. simpl. rewrite Hhk. split_and!; [done|done| |].
    + exists [n]. split; [apply chain_mv_n|set_solver].
    + eexists. split; [exact Hm|]. by simpl.
  - unfold reached. rewrite Ek in *.
    destruct (hw_key _ _ W _ _ Hm0 Hkm) as (? & ? & (l & Hl & Hin) & Ha).
    split_and!; [done|done| |by apply anchor_mv].
    exists (repl l). split.
    + apply chain_mv, chain_moved; [done| |].
      * intros [= E]. rewrite E in Ha. by apply not_anchor.
      * destruct Ha as (ma & Hma & Hka & _). congruence.
    + destruct Hx as [[-> ->]|[? ->]]; [by apply repl_elem_fr|by apply repl_elem].
Qed.

Lemma hwf_move : hwf hm nd'.
Proof.
  destruct move_ne as (? & ? & ?). split; [..|eauto using hw_key_mv|].
  - unfold nd', nd1, moved. rewrite !length_alter, length_insert, length_alter. apply W.
  - apply W.
  - intros i Hi. unfold nd', nd1, moved in Hi.
    rewrite !length_alter, length_insert, length_alter in Hi.
    destruct (decide (i = n)) as [->|]; [eauto using chain_mv_n|].
    destruct (decide (i = fr)) as [->|].
    + destruct (hw_chain _ _ W n) as [l Hl]; [by apply lookup_lt_Some in Hn|].
      pose proof Hl as [l' ->]%chain_head. eexists. by apply chain_mv, chain_moved_from.
    + destruct (hw_chain _ _ W i Hi) as [l Hl]. eexists.
      apply chain_mv, chain_moved; [exact Hl|congruence|congruence].
  - intros a b na nb x Ha Hb Hxa Hxb.
    destruct (lookup_mv _ _ Ha) as [[-> ->]|(? & Ha1 & _)]; [done|].
    destruct (lookup_mv _ _ Hb) as [[-> ->]|(? & Hb1 & _)]; [done|].
    destruct (next_moved _ _ _ Ha1 Hxa) as [[? ?]|(? & ? & ? & a0 & ma & Ha0 & Ea & _ & Hca)],
      (next_moved _ _ _ Hb1 Hxb) as [[? ?]|(? & ? & ? & b0 & mb & Hb0 & Eb & _ & Hcb)];
      try congruence.
    assert (a0 = b0) by eauto using hw_inj. intuition congruence.
  - intros a m x Ha Hx.
    destruct (lookup_mv _ _ Ha) as [[-> ->]|(? & Ha1 & _)]; [done|].
    destruct (next_moved _ _ _ Ha1 Hx) as [[-> ->]|(? & ? & ? & a0 & ma & Ha0 & Ea & Eka & Hca)].
    + rewrite lookup_moved, !decide_False, decide_True in Ha1 by done.
      injection Ha1 as <-. simpl. split; [eapply hw_link; eauto|].
      exists nn. split; [|done]. unfold nd'.
      by rewrite list_lookup_alter_ne, lookup_moved, decide_False, decide_True by done.
    + destruct (hw_link _ _ W _ _ _ Ha0 Ea) as [Hk1 (nx & Hnx & Hk2)].
      split; [congruence|]. unfold nd'.
      rewrite list_lookup_alter_ne, lookup_moved, !decide_False by done.
      destruct (decide (x = p)) as [E|]; [|eauto].
      exists (set_next (Some fr) np). rewrite E in Hnx. split; [done|]. simpl. congruence.
  - intros i m Hm Hkm.
    destruct (lookup_mv _ _ Hm) as [[-> ->]|(_ & _ & x0 & m0 & Hm0 & Ek & Ev & _)].
    + by destruct Hk.
    + rewrite Ev. apply (hw_val _ _ W _ _ Hm0). congruence.
  - intros i j ni nj Hi Hj E Hki.
    destruct (lookup_mv _ _ Hi) as [[-> ->]|(? & _ & i0 & mi & Hmi & Eki & _ & Hci)],
      (lookup_mv _ _ Hj) as [[-> ->]|(? & _ & j0 & mj & Hmj & Ekj & _ & Hcj)]; try done.
    + simpl in E. destruct (Hfresh _ _ Hmj). congruence.
    + simpl in E. destruct (Hfresh _ _ Hmi). congruence.
    + assert (i0 = j0) by (eapply hw_nodup; eauto; congruence). intuition congruence.
Qed.

Lemma livepair_move k0 v : livepair nd' k0 v ↔ livepair nd k0 v.
Proof.
  destruct move_ne as (? & ? & ?).
  split; intros (i & m & Hm & <- & <- & Hv).
  - destruct (lookup_mv _ _ Hm) as [[-> ->]|(_ & _ & x0 & m0 & Hm0 & Ek & Ev & _)]; [done|].
    exists x0, m0. by rewrite Ek, Ev in *.
  - destruct (decide (i = n)) as [E|Hne].
    + exists fr, nn. unfold nd'.
      rewrite list_lookup_alter_ne, lookup_moved, decide_False, decide_True by done.
      rewrite E, Hn in Hm. by injection Hm as <-.
    + exists i. unfold nd'. rewrite list_lookup_alter_ne, lookup_moved, decide_False by done.
      destruct (decide (i = fr)) as [E|].
      { rewrite E, Hfr in Hm. injection Hm as <-. by rewrite (hw_val _ _ W _ _ Hfr Hnil) in Hv. }
      destruct (decide (i = p)) as [E|]; [|by exists m].
      rewrite E, Hp in Hm. injection Hm as <-. by exists (set_next (Some fr) np).
Qed.

Lemma lookup_move : nd' !! n = Some (MkNode k TNil None).
Proof.
  unfold nd'. by rewrite list_lookup_alter_eq, lookup_moved, decide_True by done.
Qed.

End Move.

Lemma move_colliding_moved hm nd n fr nn nf :
  hwf hm nd → nd !! n = Some nn → key nn ≠ TNil → hashkey hm (key nn) ≠ n →
  nd !! fr = Some nf → key nf = TNil →
  ∃ p np, nd !! p = Some np ∧ next np = Some n ∧
    move_colliding hm n fr (hashkey hm (key nn)) nd = Some (moved n fr p nn nd).
Proof.
  intros W Hn Hkn Hmain Hfr Hnil.
  destruct (hw_key _ _ W _ _ Hn Hkn) as (_ & _ & (l & Hl & Hin) & _).
  destruct (find_pred_spec _ n (length nd) _ _ Hl (chain_length _ _ _ Hl) Hin Hmain)
    as (p & np & Hfp & Hp & Hpn & _).
  exists p, np. split_and!; [done|done|]. unfold move_colliding. rewrite Hfp. simpl.
  destruct (move_ne hm nd n fr p nn nf np W Hn Hkn Hp Hpn Hfr Hnil) as (? & ? & ?).
  rewrite list_lookup_alter_ne, Hn by done. simpl. fold (moved n fr p nn nd).
  destruct (hw_chain _ _ W n) as [l' Hl']; [by apply lookup_lt_Some in Hn|].
  pose proof Hl' as [l2 ->]%chain_head.
  assert (chain (moved n fr p nn nd) (Some fr) (fr :: l2)) as Hc
    by (eapply chain_moved_from; eauto).
  eapply rechain_noop; eauto.
  pose proof (chain_length _ _ _ Hc). lia.
Qed.

End Inv.
End TabChain.
