(* ===== verification/TabWf.v ===== *)
(** * Well-formed tables, the map they represent, and lookup

    [twf] is the invariant of a table; [ref_get] is the reference lookup (the
    array slot of an in-range integer key, else a scan of all nodes for the
    canonical key); [lj_tab_get] is proved equal to it.  [tlive] is the same
    map as a relation, which is what the lemmas on updates talk about. *)

From stdpp Require Import base decidable list numbers option sets.
From Stdlib Require Import ZArith Lia.
From S2P Require Import Prelude Obj Tab TabChain.

Local Open Scope Z_scope.

Module TabWf.
Import Obj Tab TabChain.

Section Wf.
Context `{ObjHeap}.

(** Values whose number payload is a 64-bit pattern. *)
Definition tv_ok (k : TValue) : Prop := match k with TNum n => is_num n | _ => True end.

(** The integer an integral number key denotes. *)
Definition int_key (k : TValue) : option Z :=
  match k with
  | TNum n => if num_isint n then Some (lj_num2int n) else None
  | _ => None
  end.

(** The array slot a key selects. *)
Definition arr_index (t : GCtab) (k : TValue) : option nat :=
  match int_key k with
  | Some i => if inarray t i then Some (Z.to_nat i) else None
  | None => None
  end.

Definition freetop_ok (t : GCtab) : Prop :=
  if hmask t =? 0 then node t = [empty_node] ∧ freetop t = 0%nat
  else (freetop t ≤ length (node t))%nat ∧
       ∀ i n, (freetop t ≤ i)%nat → node t !! i = Some n → key n ≠ TNil.

Record twf (t : GCtab) : Prop := {
  tw_hash : hwf (hmask t) (node t);
  tw_free : freetop_ok t;
  tw_disj i n : node t !! i = Some n → arr_index t (key n) = None;
  tw_asize : asize t ≤ LJ_MAX_ASIZE;
  tw_hmask : hmask t + 1 ≤ 2 ^ LJ_MAX_HBITS
}.

Definition mutable (t : GCtab) : Prop := uj_obj_is_immutable t = false.

(** ** The represented map *)

Definition hval (nd : list Node) (k : TValue) : TValue :=
  match list_find (λ n, key n = k) nd with
  | Some (_, n) => val n
  | None => TNil
  end.

Definition ref_get (t : GCtab) (k : TValue) : TValue :=
  match k with
  | TNil => TNil
  | _ => match arr_index t k with
         | Some i => default TNil (array t !! i)
         | None => hval (node t) (norm_key k)
         end
  end.

Definition tlive (t : GCtab) (k v : TValue) : Prop :=
  (∃ i, arr_index t k = Some i ∧ array t !! i = Some v ∧ v ≠ TNil) ∨ livepair (node t) k v.

(** ** Lookup agrees with the reference *)

Lemma hval_found nd j n k :
  (∀ i m, nd !! i = Some m → key m = k → i = j) →
  nd !! j = Some n → key n = k → hval nd k = val n.
Proof.
  intros Hu Hn Hk. unfold hval.
  destruct (list_find _ nd) as [[i m]|] eqn:E.
  - apply list_find_Some in E as (Hm & Hkm & _).
    pose proof (Hu _ _ Hm Hkm). subst. congruence.
  - apply list_find_None in E. rewrite Forall_lookup in E. by destruct (E _ _ Hn).
Qed.

Lemma hval_fresh nd k : fresh k nd → hval nd k = TNil.
Proof.
  intros Hf. unfold hval. destruct (list_find _ nd) as [[i m]|] eqn:E; [|done].
  apply list_find_Some in E as (Hm & Hkm & _). by destruct (Hf _ _ Hm).
Qed.

Lemma hwf_unique hm nd j n k :
  hwf hm nd → nd !! j = Some n → key n = k → k ≠ TNil →
  ∀ i m, nd !! i = Some m → key m = k → i = j.
Proof. intros W Hn <- Hk i m Hm E. symmetry. eapply hw_nodup; eauto. Qed.

Lemma deref_found t k r :
  twf t → k ≠ TNil → found_at (node t) k r → deref t r = Some (hval (node t) k).
Proof.
  intros W Hk [(j & n & Hn & Hkn & ->)|[Hf ->]]; simpl.
  - rewrite Hn. by erewrite hval_found by (eauto using hwf_unique, tw_hash).
  - by rewrite hval_fresh.
Qed.

(** The searches of the code find the canonical key. *)
Lemma getstr_found t s :
  twf t → found_at (node t) (TGCV GT_STR s) (lj_tab_getstr t s).
Proof.
  intros W. apply (chain_find_key (hmask t) _ (key_is_str s) (TGCV GT_STR s)); [apply W|done|].
  intros i n _. apply key_is_str_spec.
Qed.

Lemma getinth_found t k :
  twf t → in_s 32 k → found_at (node t) (TNum (int2num k)) (lj_tab_getinth t k).
Proof.
  intros W Hk.
  apply (chain_find_key (hmask t) _ (key_is_num (int2num k)) (TNum (int2num k))); [apply W|done|].
  intros i n Hn. apply key_is_num_spec;
    eauto using hwf_stored, tw_hash, int2num_num, int2num_notnan, int2num_norm.
Qed.

Lemma getgen_found t k :
  twf t → key_ok k → found_at (node t) (norm_key k) (lj_tab_getgen t k).
Proof.
  intros W Hk. unfold lj_tab_getgen, find_from.
  rewrite <-(hashkey_norm (hmask t) k) by done.
  apply chain_find_key; [apply W|apply norm_key_ok; done|].
  intros i n Hn. apply uj_obj_equal_spec; [eapply hwf_stored; eauto using tw_hash|done].
Qed.

(** Keys that cannot be stored are found nowhere. *)
Lemma bad_key_shape k :
  tv_ok k → ¬ key_ok k → k ≠ TNil →
  norm_key k = k ∧ int_key k = None ∧ ∀ k', stored k' → uj_obj_equal k' k = false.
Proof.
  intros Ht Hbad Hk. destruct k as [|b|p|g p|n]; [done|..].
  - split_and!; [done..|]. intros k' Hs. apply not_true_iff_false. intros E.
    destruct k'; try done. apply Bool.eqb_true_iff in E as ->. by destruct Hs as [|[? _]].
  - split_and!; [done..|]. intros k' Hs. apply not_true_iff_false. intros E.
    destruct k'; try done. apply Z.eqb_eq in E as ->. by destruct Hs as [|[? _]].
  - split_and!; [done..|]. intros k' Hs. apply not_true_iff_false. intros E.
    destruct k' as [| | |g' p'|]; try done. simpl in E.
    apply andb_prop in E as [E1%bool_decide_eq_true E2%Z.eqb_eq]. rewrite E1, E2 in Hs.
    by destruct Hs as [|[? _]].
  - assert (tvisnan n = true) as Hnan.
    { destruct (tvisnan n) eqn:E; [done|]. by destruct Hbad. }
    split_and!.
    + simpl. unfold num_norm, tvismzero. destruct (n =? 2 ^ 63) eqn:E; [|done]. bprop. by subst n.
    + simpl. unfold num_isint, num_eq. by rewrite Hnan.
    + intros k' _. destruct k'; try done. simpl. unfold num_eq. by rewrite Hnan, andb_false_r.
Qed.

Lemma getgen_bad t k :
  twf t → tv_ok k → ¬ key_ok k → k ≠ TNil → lj_tab_getgen t k = LNull.
Proof.
  intros W Ht Hbad Hk. destruct (bad_key_shape k Ht Hbad Hk) as (_ & _ & He).
  unfold lj_tab_getgen, find_from.
  destruct (hw_chain _ _ (tw_hash _ W) (hashkey (hmask t) k)) as [l Hl]; [apply hashkey_lt, W|].
  destruct (chain_find_spec _ (key_equal k) _ _ _ Hl (chain_length _ _ _ Hl))
    as [(j & m & _ & Hm & HP & _)|[-> _]]; [|done].
  unfold key_equal in HP. rewrite He in HP; [done|]. eapply hwf_stored; eauto using tw_hash.
Qed.

Lemma hval_bad t k :
  twf t → tv_ok k → ¬ key_ok k → k ≠ TNil → hval (node t) (norm_key k) = TNil.
Proof.
  intros W Ht Hbad Hk. destruct (bad_key_shape k Ht Hbad Hk) as (-> & _ & _).
  apply hval_fresh. intros i m Hm E.
  destruct (hwf_stored _ _ _ _ (tw_hash _ W) Hm) as [?|[? _]]; congruence.
Qed.

Lemma key_ok_dec k : Decision (key_ok k).
Proof. destruct k as [| | | |n]; unfold key_ok, is_num, in_u; apply _. Defined.

Lemma inarray_spec t i : in_s 32 i → inarray t i = (0 <=? i) && (i <? asize t) ∨ asize t > 2 ^ 63.
Proof.
  unfold in_s, inarray, u64, wrapu. intros Hi. simpl in Hi.
  destruct (decide (asize t > 2 ^ 63)); [by right|left].
  destruct (decide (0 ≤ i)).
  - rewrite Z.mod_small, (proj2 (Z.leb_le 0 i)) by lia. done.
  - rewrite <-(Z.mod_unique i (2 ^ 64) (-1) (i + 2 ^ 64)) by lia.
    rewrite (proj2 (Z.leb_gt 0 i)) by lia. simpl. apply Z.ltb_ge. lia.
Qed.

Lemma inarray_iff t i :
  asize t ≤ LJ_MAX_ASIZE → in_s 32 i → inarray t i = true ↔ 0 ≤ i < asize t.
Proof.
  intros Ha Hi. unfold LJ_MAX_ASIZE, LJ_MAX_ABITS in Ha. simpl in Ha.
  destruct (inarray_spec t i Hi) as [->|?]; [|lia].
  rewrite andb_true_iff, Z.leb_le, Z.ltb_lt. done.
Qed.

Lemma getgen_ref t k :
  twf t → tv_ok k → k ≠ TNil → deref t (lj_tab_getgen t k) = Some (hval (node t) (norm_key k)).
Proof.
  intros W Ht Hk. destruct (key_ok_dec k) as [Hok|Hbad].
  - apply deref_found; auto using getgen_found. by apply norm_key_ok.
  - by rewrite getgen_bad, hval_bad.
Qed.

Lemma get_is_ref t k : twf t → tv_ok k → lj_tab_get t k = Some (ref_get t k).
Proof.
  intros W Hk. destruct k as [|b|p|g p|n]; simpl; try done.
  - by rewrite getgen_ref by done.
  - by rewrite getgen_ref by done.
  - destruct g; try by rewrite getgen_ref by done.
    by apply deref_found; auto using getstr_found.
  - unfold arr_index. simpl. destruct (num_isint n) eqn:Ei; simpl.
    + unfold lj_tab_getint. destruct (inarray t (lj_num2int n)); [done|].
      rewrite (num_isint_norm n) by done.
      apply deref_found; auto using getinth_found, num2int_range.
    + by rewrite getgen_ref by done.
Qed.

End Wf.
End TabWf.
