(* ===== verification/TabPut.v ===== *)
(** * Setters on a table with room: finding or creating the slot of a key

    [slot_for t k s]: [s] is the slot of key [k] in [t].  When the key selects
    an array slot, is present, or the hash part still has an unused node, every
    setter of the code returns the slot of its key in a well-formed table that
    represents the same map ([set_result]); storing a value there updates that
    map at the key only. *)

From stdpp Require Import base decidable list numbers option sets.
From Stdlib Require Import ZArith Lia.
From S2P Require Import Prelude Obj Tab TabChain TabWf.

Local Open Scope Z_scope.

Module TabPut.
Import Obj Tab TabChain TabWf.

(** ** Counting non-nil elements *)

Lemma count_live_cons v l : count_live (v :: l) = (if tvisnil v then 0 else 1) + count_live l.
Proof.
  unfold count_live. rewrite filter_cons. destruct (tvisnil v); simpl; [done|].
  rewrite Nat2Z.inj_succ. lia.
Qed.

Lemma count_live_nonneg l : 0 ≤ count_live l.
Proof. unfold count_live. lia. Qed.

Lemma count_live_length l : count_live l ≤ Z.of_nat (length l).
Proof.
  induction l as [|v l IH]; [done|]. rewrite count_live_cons. simpl. destruct (tvisnil v); lia.
Qed.

Lemma count_live_app l1 l2 : count_live (l1 ++ l2) = count_live l1 + count_live l2.
Proof. unfold count_live. rewrite filter_app, length_app. lia. Qed.

Lemma count_live_insert i v l : count_live (<[i := v]> l) ≤ count_live l + 1.
Proof.
  revert i. induction l as [|x l IH]; intros [|i]; simpl; try (unfold count_live; simpl; lia).
  - rewrite !count_live_cons. destruct (tvisnil v), (tvisnil x); lia.
  - rewrite !count_live_cons. specialize (IH i). lia.
Qed.

Lemma count_live_overwrite i v x l :
  l !! i = Some x → tvisnil x = false → count_live (<[i := v]> l) ≤ count_live l.
Proof.
  revert i. induction l as [|y l IH]; intros [|i]; simpl; intros Hx Hn; simplify_eq.
  - rewrite !count_live_cons, Hn. destruct (tvisnil v); lia.
  - rewrite !count_live_cons. specialize (IH i Hx Hn). lia.
Qed.

Lemma count_live_room l :
  count_live l < Z.of_nat (length l) → ∃ i, l !! i = Some TNil.
Proof.
  induction l as [|v l IH]; simpl; [unfold count_live; simpl; lia|].
  rewrite count_live_cons. destruct (tvisnil v) eqn:E; intros Hl.
  - exists 0%nat. by destruct v.
  - destruct IH as [i Hi]; [lia|]. by exists (S i).
Qed.

(** Nodes whose key is set, live or dead. *)
Definition nkeys (nd : list Node) : Z := count_live (key <$> nd).

(** Pairs the hash part can hold: none when it is the shared nil node. *)
Definition cap (hm : Z) : Z := if hm =? 0 then 0 else hm + 1.

Lemma keys_alter f i (nd : list Node) :
  (∀ n, key (f n) = key n) → key <$> alter f i nd = key <$> nd.
Proof.
  intros Hf. apply list_eq. intros j. rewrite !list_lookup_fmap, list_lookup_alter.
  case_decide; [subst; destruct (nd !! j); simpl; by rewrite ?Hf|done].
Qed.

Lemma keys_set_key k i (nd : list Node) : key <$> alter (set_key k) i nd = <[i := k]> (key <$> nd).
Proof.
  apply list_eq. intros j. rewrite list_lookup_fmap, list_lookup_alter.
  destruct (decide (i = j)) as [->|Hne].
  - destruct (nd !! j) as [n|] eqn:E; simpl.
    + rewrite list_lookup_insert_eq; [done|]. rewrite length_fmap. by apply lookup_lt_Some in E.
    + symmetry. apply lookup_ge_None. rewrite length_insert, length_fmap.
      by apply lookup_ge_None in E.
  - by rewrite list_lookup_insert_ne, list_lookup_fmap.
Qed.

Lemma nkeys_set_key k i nd : nkeys (alter (set_key k) i nd) ≤ nkeys nd + 1.
Proof. unfold nkeys. rewrite keys_set_key. apply count_live_insert. Qed.

Lemma nkeys_linked k n fr nd : nkeys (alter (set_key k) fr (linked n fr nd)) ≤ nkeys nd + 1.
Proof.
  unfold linked. etransitivity; [apply nkeys_set_key|].
  unfold nkeys. by rewrite !keys_alter.
Qed.

Lemma nkeys_moved k n fr p nn nd :
  n ≠ fr → nd !! n = Some nn → key nn ≠ TNil →
  nkeys (alter (set_key k) n (moved n fr p nn nd)) ≤ nkeys nd + 1.
Proof.
  intros Hne Hn Hk. unfold nkeys, moved.
  rewrite keys_set_key, 2!keys_alter, list_fmap_insert, keys_alter by done.
  etransitivity; [|apply (count_live_insert fr (key nn))].
  apply (count_live_overwrite _ _ (key nn)).
  - by rewrite list_lookup_insert_ne, list_lookup_fmap, Hn.
  - by destruct (key nn).
Qed.

(** ** The free-node search *)

Lemma find_free_Some nd ft fr :
  find_free nd ft = Some fr →
  (fr < ft)%nat ∧ (∃ n, nd !! fr = Some n ∧ key n = TNil) ∧
  ∀ i n, (fr < i < ft)%nat → nd !! i = Some n → key n ≠ TNil.
Proof.
  induction ft as [|ft IH]; simpl; [done|].
  destruct (nd !! ft) as [n|] eqn:E; [|done].
  destruct (tvisnil (key n)) eqn:Ek.
  - intros [= <-]. split_and!; [lia| |intros; lia]. exists n. by destruct (key n).
  - intros Hf. destruct (IH Hf) as (? & ? & Hi). split_and!; [lia|done|].
    intros i m ? Hm. destruct (decide (i = ft)) as [->|]; [|apply (Hi i m); [lia|done]].
    intros Hk. simplify_eq. by rewrite Hk in Ek.
Qed.

Lemma find_free_None nd ft i n :
  (ft ≤ length nd)%nat → find_free nd ft = None → (i < ft)%nat → nd !! i = Some n → key n ≠ TNil.
Proof.
  induction ft as [|ft IH]; simpl; intros Hl Hf Hi Hn; [lia|].
  destruct (lookup_lt_is_Some_2 nd ft ltac:(lia)) as [m Hm]. rewrite Hm in Hf.
  destruct (tvisnil (key m)) eqn:Ek; [done|].
  destruct (decide (i = ft)) as [->|]; [|apply IH; auto with lia].
  intros Hk. simplify_eq. by rewrite Hk in Ek.
Qed.

Section Put.
Context `{ObjHeap}.

Definition slot_for (t : GCtab) (k : TValue) (s : slot) : Prop :=
  match s with
  | ASlot i => arr_index t k = Some i
  | HSlot j => arr_index t k = None ∧ ∃ n, node t !! j = Some n ∧ key n = norm_key k
  end.

(** What a setter returns for key [k] on table [t]. *)
Record set_result (t : GCtab) (k : TValue) (s : slot) (t' : GCtab) : Prop := {
  sr_wf : twf t';
  sr_mut : mutable t';
  sr_array : array t' = array t;
  sr_hmask : hmask t' = hmask t;
  sr_slot : slot_for t' k s;
  sr_live k0 v0 : livepair (node t') k0 v0 ↔ livepair (node t) k0 v0;
  sr_nkeys : nkeys (node t') ≤ nkeys (node t) + (if arr_index t k is Some _ then 0 else 1)
}.

Lemma find_free_room t :
  twf t → nkeys (node t) < cap (hmask t) → is_Some (find_free (node t) (freetop t)).
Proof.
  intros W Hr. pose proof (tw_free _ W) as Hft. unfold freetop_ok, cap in *.
  destruct (hmask t =? 0) eqn:E; [unfold nkeys in Hr; pose proof (count_live_nonneg (key <$> node t)); lia|].
  destruct Hft as [Hle Hft].
  destruct (find_free _ _) eqn:Ef; [by eexists|exfalso].
  destruct (count_live_room (key <$> node t)) as [i Hi].
  { unfold nkeys in Hr. rewrite length_fmap. pose proof (hw_len _ _ (tw_hash _ W)). lia. }
  rewrite list_lookup_fmap in Hi. destruct (node t !! i) as [n|] eqn:En; simplify_eq/=.
  destruct (decide (freetop t ≤ i)%nat).
  - by apply (Hft i n).
  - by apply (find_free_None (node t) (freetop t) i n); auto with lia.
Qed.

(** ** Marks *)

Lemma barrier_fields t :
  array (lj_gc_anybarriert t) = array t ∧ node (lj_gc_anybarriert t) = node t ∧
  hmask (lj_gc_anybarriert t) = hmask t ∧ freetop (lj_gc_anybarriert t) = freetop t.
Proof. unfold lj_gc_anybarriert. by destruct (isblack t). Qed.

Lemma barrier_mutable t : mutable (lj_gc_anybarriert t) ↔ mutable t.
Proof.
  unfold lj_gc_anybarriert, mutable, uj_obj_is_immutable. destruct (isblack t); [|done].
  simpl. rewrite <-Z.land_assoc. done.
Qed.

(** [twf] only looks at the array, the hash part and [freetop]. *)
Lemma twf_ext t t' :
  length (array t') = length (array t) → node t' = node t → hmask t' = hmask t →
  freetop t' = freetop t → twf t → twf t'.
Proof.
  intros Ea En Eh Ef [? ? Hd ? ?].
  assert (asize t' = asize t) as Es by (unfold asize; by rewrite Ea).
  split; unfold freetop_ok; rewrite ?En, ?Eh, ?Ef, ?Es; auto.
  intros i n Hn. rewrite <-(Hd i n) by congruence.
  unfold arr_index, inarray. by rewrite Es.
Qed.

Lemma int_key_norm k : key_ok k → int_key (norm_key k) = int_key k.
Proof.
  intros Hk. destruct k as [| | | |n]; try done. simpl.
  unfold num_norm, tvismzero. destruct (n =? 2 ^ 63) eqn:E; bprop; [by subst n|done].
Qed.

Lemma arr_index_norm t k : key_ok k → arr_index t (norm_key k) = arr_index t k.
Proof. intros Hk. unfold arr_index. by rewrite int_key_norm. Qed.

Lemma arr_index_ext t t' k :
  length (array t') = length (array t) → arr_index t' k = arr_index t k.
Proof. intros E. unfold arr_index, inarray, asize. by rewrite E. Qed.

(** ** Insertion without rehashing *)

(** The common end of the three placements: keys are only added. *)
Lemma placed_result t k j nd' ft n :
  twf t → mutable t → key_ok k → arr_index t k = None → hmask t ≠ 0 →
  hwf (hmask t) nd' →
  nd' !! j = Some n → key n = norm_key k →
  (∀ i n', nd' !! i = Some n' →
     key n' = norm_key k ∨ ∃ i0 n0, node t !! i0 = Some n0 ∧ key n' = key n0) →
  (ft ≤ length nd')%nat → (∀ i n', (ft ≤ i)%nat → nd' !! i = Some n' → key n' ≠ TNil) →
  (∀ k0 v0, livepair nd' k0 v0 ↔ livepair (node t) k0 v0) →
  nkeys nd' ≤ nkeys (node t) + 1 →
  set_result t k (HSlot j) (lj_gc_anybarriert (set_node nd' (set_freetop ft t))).
Proof.
  intros W Hmut Hk Ha Hh Wn Hj Hkj Hold Hle Hft Hlive Hnk.
  set (t' := set_node nd' (set_freetop ft t)).
  destruct (barrier_fields t') as (Ea & En & Eh & Ef).
  assert (twf t') as Wt.
  { split.
    - done.
    - unfold freetop_ok. simpl. by rewrite (proj2 (Z.eqb_neq _ 0)) by done.
    - simpl. intros i n' Hn'. rewrite (arr_index_ext t) by done.
      destruct (Hold _ _ Hn') as [->|(i0 & n0 & Hn0 & ->)].
      + by rewrite arr_index_norm.
      + by apply (tw_disj _ W i0).
    - apply (tw_asize _ W).
    - apply (tw_hmask _ W). }
  split.
  - eapply twf_ext; [..|exact Wt]; by rewrite ?Ea, ?En, ?Eh, ?Ef.
  - by apply barrier_mutable.
  - by rewrite Ea.
  - by rewrite Eh.
  - simpl. rewrite En. split; [by rewrite (arr_index_ext t) by (by rewrite Ea)|]. by exists n.
  - intros. by rewrite En.
  - by rewrite En, Ha.
Qed.

Lemma store_key_norm k : key_ok k → store_key k = norm_key k.
Proof.
  intros [_ Hk]. unfold store_key, tvismzero. destruct k as [|b|p|g p|n]; [done|..];
    try (by rewrite (proj2 (Z.eqb_neq _ _))).
  simpl. unfold num_norm, tvismzero. by destruct (n =? 2 ^ 63).
Qed.

Lemma finish_key_set k j t :
  key_ok k → finish_key k j t =
    Ret (HSlot j) (lj_gc_anybarriert (set_node (alter (set_key (norm_key k)) j (node t)) t)).
Proof. intros Hk. unfold finish_key. by rewrite store_key_norm. Qed.

Lemma set_freetop_id t : set_freetop (freetop t) t = t.
Proof. by destruct t. Qed.

Lemma placed_old_key k j (nd : list Node) i n' :
  alter (set_key k) j nd !! i = Some n' →
  key n' = k ∨ ∃ i0 n0, nd !! i0 = Some n0 ∧ key n' = key n0.
Proof. intros [[<- (x & Hx & ->)]|[? Hx]]%lookup_alter_inv; eauto. Qed.

(** Case 1: the main node holds no live value. *)
Lemma newkey_main d k t nn :
  twf t → mutable t → key_ok k → arr_index t k = None → fresh (norm_key k) (node t) →
  hmask t ≠ 0 → node t !! hashkey (hmask t) k = Some nn → val nn = TNil →
  ∃ s t', lj_tab_newkey d k t = Ret s t' ∧ set_result t k s t'.
Proof.
  intros W Hmut Hk Ha Hf Hh Hn Hv.
  pose proof (tw_free _ W) as Hft. unfold freetop_ok in Hft.
  rewrite (proj2 (Z.eqb_neq _ 0)) in Hft by done. destruct Hft as [Hle Hft].
  destruct (norm_key_ok k Hk) as [Hk' Hc'].
  eexists _, _. split.
  { destruct d; simpl; rewrite Hmut, Hn, Hv, (proj2 (Z.eqb_neq _ 0)) by done; simpl;
      rewrite finish_key_set, <-(set_freetop_id t) at 1 by done; reflexivity. }
  simpl. eapply placed_result; try done.
  - rewrite <-(hashkey_norm _ k) in * by done. eapply hwf_set_main; eauto using tw_hash.
  - rewrite list_lookup_alter_eq, Hn. done.
  - done.
  - intros i n' Hn'%placed_old_key. done.
  - by rewrite length_alter.
  - intros i n' Hi [[<- (x & Hx & ->)]|[? Hx]]%lookup_alter_inv; [apply Hk'|eauto].
  - intros k0 v0. by eapply livepair_set_key.
  - apply nkeys_set_key.
Qed.

(** Nodes at or above the free node found are all in use afterwards. *)
Lemma freetop_moves t fr i n :
  twf t → hmask t ≠ 0 → find_free (node t) (freetop t) = Some fr →
  (fr < i)%nat → node t !! i = Some n → key n ≠ TNil.
Proof.
  intros W Hh Hff Hi Hn. pose proof (tw_free _ W) as Hft. unfold freetop_ok in Hft.
  rewrite (proj2 (Z.eqb_neq _ 0)) in Hft by done. destruct Hft as [Hle Hft].
  destruct (find_free_Some _ _ _ Hff) as (? & _ & Hbetween).
  destruct (decide (freetop t ≤ i)%nat); [eauto|]. apply (Hbetween i n); [lia|done].
Qed.

(** Cases 2 and 3: the main node is taken and a free node is available. *)
Lemma newkey_collide d k t nn :
  twf t → mutable t → key_ok k → arr_index t k = None → fresh (norm_key k) (node t) →
  hmask t ≠ 0 → node t !! hashkey (hmask t) k = Some nn → val nn ≠ TNil →
  is_Some (find_free (node t) (freetop t)) →
  ∃ s t', lj_tab_newkey d k t = Ret s t' ∧ set_result t k s t'.
Proof.
  intros W Hmut Hk Ha Hf Hh Hn Hv [fr Hff].
  destruct (norm_key_ok k Hk) as [Hk' Hc'].
  destruct (find_free_Some _ _ _ Hff) as (Hlt & (nf & Hfr & Hnil) & _).
  pose proof (tw_hash _ W) as Wh. rewrite <-(hashkey_norm _ k) in Hn by done.
  assert (key nn ≠ TNil) as Hkn by (intros E; by apply Hv, (hw_val _ _ Wh _ _ Hn)).
  assert (tvisnil (val nn) = false) as Hv' by (by destruct (val nn)).
  set (n := hashkey (hmask t) (norm_key k)) in *.
  assert (n ≠ fr) as Hne by congruence.
  assert (fr < length (node t))%nat by (by apply lookup_lt_Some in Hfr).
  destruct (decide (hashkey (hmask t) (key nn) = n)) as [Hmain|Hmain].
  - eexists _, _. split.
    { destruct d; simpl; rewrite Hmut, <-(hashkey_norm _ k) by done; fold n;
        rewrite Hn, Hv'; simpl; rewrite Hff, decide_False by tauto;
        rewrite (insert_free_linked _ _ _ nn Hn), finish_key_set by done; reflexivity. }
    simpl. change (set_node ?a (set_node ?b ?c)) with (set_node a c).
    eapply placed_result; try done.
    + by eapply hwf_insert_free.
    + by eapply lookup_insert_free.
    + done.
    + intros i n' [->|(i0 & n0 & Hn0 & ->)]%placed_old_key; [by left|right].
      unfold linked in Hn0.
      apply lookup_alter_inv in Hn0 as [[_ (x & Hx & ->)]|[_ Hx]];
        apply lookup_alter_inv in Hx as [[_ (y & Hy & ->)]|[_ Hy]]; eauto.
    + unfold linked. rewrite !length_alter. lia.
    + intros i n' Hi Hn'. destruct (decide (i = fr)) as [->|].
      * erewrite lookup_insert_free in Hn' by eauto. simplify_eq. apply Hk'.
      * destruct (lookup_ins_other _ _ n fr nn nf (norm_key k) Wh Hn Hkn Hmain Hfr Hnil
          eq_refl i n' Hn') as (m0 & Hm0 & -> & _); [done|].
        apply (freetop_moves t fr i m0); auto with lia.
    + intros. by eapply livepair_insert_free.
    + apply nkeys_linked.
  - destruct (move_colliding_moved _ _ n fr nn nf Wh Hn Hkn Hmain Hfr Hnil)
      as (p & np & Hp & Hpn & Hmv).
    eexists _, _. split.
    { destruct d; simpl; rewrite Hmut, <-(hashkey_norm _ k) by done; fold n;
        rewrite Hn, Hv'; simpl; rewrite Hff, decide_True by tauto;
        rewrite Hmv, finish_key_set by done; reflexivity. }
    simpl. change (set_node ?a (set_node ?b ?c)) with (set_node a c).
    eapply placed_result; try done.
    + by eapply hwf_move.
    + by eapply lookup_move.
    + done.
    + intros i n' Hn'.
      destruct (lookup_mv _ _ n fr p nn nf np (norm_key k) Wh Hn Hkn Hp Hpn Hfr Hnil i n' Hn')
        as [[-> ->]|(_ & _ & x0 & m0 & Hm0 & Ek & _)]; eauto.
    + unfold moved. rewrite !length_alter, length_insert, length_alter. lia.
    + intros i n' Hi Hn'.
      destruct (lookup_mv _ _ n fr p nn nf np (norm_key k) Wh Hn Hkn Hp Hpn Hfr Hnil i n' Hn')
        as [[-> ->]|(_ & _ & x0 & m0 & Hm0 & Ek & _ & Hx)]; [apply Hk'|].
      rewrite Ek. destruct Hx as [[? ->]|[? ->]]; [congruence|].
      apply (freetop_moves t fr i m0); auto with lia.
    + intros. by eapply livepair_move.
    + by apply nkeys_moved.
Qed.

(** The slot of a key that selects no array slot: found, or created. *)
Lemma found_or_result d k t r :
  twf t → mutable t → key_ok k → arr_index t k = None → nkeys (node t) < cap (hmask t) →
  found_at (node t) (norm_key k) r →
  ∃ s t', found_or (lj_tab_newkey d) k r t = Ret s t' ∧ set_result t k s t'.
Proof.
  intros W Hmut Hk Ha Hr [(j & n & Hn & Hkn & ->)|[Hf ->]]; simpl.
  - exists (HSlot j), t. split; [done|]. split; auto.
    + simpl. eauto.
    + rewrite Ha. lia.
  - assert (hmask t ≠ 0) as Hh.
    { intros E. unfold cap in Hr. rewrite E in Hr. simpl in Hr.
      unfold nkeys in Hr. pose proof (count_live_nonneg (key <$> node t)). lia. }
    destruct (lookup_lt_is_Some_2 (node t) (hashkey (hmask t) k)) as [nn Hnn];
      [apply hashkey_lt, W|].
    destruct (decide (val nn = TNil)).
    + by eapply newkey_main.
    + by eapply newkey_collide; eauto using find_free_room.
Qed.

(** ** Storing a value *)

Lemma int_key_canon k i :
  key_ok k → canon k → int_key k = Some i → k = TNum (int2num i) ∧ in_s 32 i.
Proof.
  intros [_ Hk] Hc Hi. destruct k as [| | | |n]; try done. simpl in Hi.
  destruct (num_isint n) eqn:E; simplify_eq. split; [|apply num2int_range].
  f_equal. rewrite <-(canon_num n Hc) at 1. apply num_isint_norm; [apply Hk|done].
Qed.

Lemma arr_index_inj t k1 k2 i :
  asize t ≤ LJ_MAX_ASIZE → key_ok k1 → canon k1 → key_ok k2 → canon k2 →
  arr_index t k1 = Some i → arr_index t k2 = Some i → k1 = k2.
Proof.
  unfold arr_index. intros Has Hk1 Hc1 Hk2 Hc2 H1 H2.
  destruct (int_key k1) as [i1|] eqn:E1; [|done].
  destruct (int_key k2) as [i2|] eqn:E2; [|done].
  destruct (int_key_canon _ _ Hk1 Hc1 E1) as [-> Hr1].
  destruct (int_key_canon _ _ Hk2 Hc2 E2) as [-> Hr2].
  destruct (inarray t i1) eqn:I1; [|done]. destruct (inarray t i2) eqn:I2; [|done].
  apply inarray_iff in I1; [|done..]. apply inarray_iff in I2; [|done..].
  simplify_eq. repeat f_equal. lia.
Qed.

Lemma arr_index_lt t k i :
  asize t ≤ LJ_MAX_ASIZE → tv_ok k → arr_index t k = Some i → (i < length (array t))%nat.
Proof.
  unfold arr_index. intros Has Hk E. destruct k as [| | | |n]; try done. simpl in E.
  destruct (num_isint n); [|done]. destruct (inarray t _) eqn:I; [|done].
  apply inarray_iff in I; [|done|apply num2int_range]. simplify_eq. unfold asize in I. lia.
Qed.

(** The hash part after a value is stored into a node with a key. *)
Lemma hwf_set_val hm nd v j n :
  hwf hm nd → nd !! j = Some n → key n ≠ TNil → hwf hm (alter (set_val v) j nd).
Proof.
  intros W Hn Hk.
  assert (∀ i m, alter (set_val v) j nd !! i = Some m →
    ∃ m0, nd !! i = Some m0 ∧ key m = key m0 ∧ next m = next m0 ∧ (i ≠ j → val m = val m0)) as Hinv.
  { intros i m [[<- (x & Hx & ->)]|[? Hx]]%lookup_alter_inv; [by exists x|by exists m]. }
  assert (∀ i m0, nd !! i = Some m0 →
    ∃ m, alter (set_val v) j nd !! i = Some m ∧ key m = key m0) as Hfwd.
  { intros i m0 Hm0. rewrite list_lookup_alter.
    case_decide; [subst; rewrite Hm0; simpl|]; eauto. }
  assert (∀ o l, chain nd o l → chain (alter (set_val v) j nd) o l) as Hch.
  { intros o l Hc. apply (chain_frame nd); [done|]. intros i _.
    rewrite list_lookup_alter. case_decide; [subst; by destruct (nd !! i)|done]. }
  split.
  - rewrite length_alter. apply W.
  - apply W.
  - rewrite length_alter. intros i Hi. destruct (hw_chain _ _ W i Hi); eauto.
  - intros a b na nb x Ha Hb Ea Eb.
    destruct (Hinv _ _ Ha) as (? & ? & _ & Ea' & _), (Hinv _ _ Hb) as (? & ? & _ & Eb' & _).
    rewrite Ea in Ea'. rewrite Eb in Eb'. eauto using hw_inj.
  - intros a m x Ha Ea. destruct (Hinv _ _ Ha) as (m0 & Hm0 & -> & Ea' & _).
    rewrite Ea in Ea'. destruct (hw_link _ _ W _ _ _ Hm0 (eq_sym Ea')) as [? (nx & Hnx & ?)].
    split; [done|]. destruct (Hfwd _ _ Hnx) as (m1 & ? & E1). exists m1. by rewrite E1.
  - intros i m Hm Hkm. destruct (Hinv _ _ Hm) as (m0 & Hm0 & Ek & _ & Ev).
    rewrite Ev by congruence. apply (hw_val _ _ W _ _ Hm0). congruence.
  - intros i m Hm Hkm. destruct (Hinv _ _ Hm) as (m0 & Hm0 & Ek & _ & _).
    unfold reached. rewrite Ek in *.
    destruct (hw_key _ _ W _ _ Hm0 Hkm) as (? & ? & (l & Hl & ?) & (ma & Hma & Hka & Hh)).
    split_and!; [done|done|eauto|].
    destruct (Hfwd _ _ Hma) as (m1 & ? & E1). exists m1. by rewrite E1.
  - intros i i' ni nj Hi Hj E Hki.
    destruct (Hinv _ _ Hi) as (? & ? & E1 & _), (Hinv _ _ Hj) as (? & ? & E2 & _).
    eapply hw_nodup; eauto; congruence.
Qed.

Lemma livepair_set_val hm nd v j n k0 v0 :
  hwf hm nd → nd !! j = Some n → key n ≠ TNil →
  livepair (alter (set_val v) j nd) k0 v0 ↔
    (k0 = key n ∧ v0 = v ∧ v ≠ TNil) ∨ (k0 ≠ key n ∧ livepair nd k0 v0).
Proof.
  intros W Hn Hk. split.
  - intros (i & m & [[<- (x & Hx & ->)]|[Hne Hm]]%lookup_alter_inv & <- & <- & Hv).
    + left. simplify_eq. done.
    + right. split; [|by exists i, m]. intros E. apply Hne. eapply hw_nodup; eauto; congruence.
  - intros [(-> & -> & Hv)|[Hne (i & m & Hm & <- & <- & Hv)]].
    + exists j, (set_val v n). by rewrite list_lookup_alter_eq, Hn.
    + exists i, m. rewrite list_lookup_alter_ne; [done|]. intros ->. congruence.
Qed.

Record put_result (t : GCtab) (k v : TValue) (t' : GCtab) : Prop := {
  pr_wf : twf t';
  pr_mut : mutable t';
  pr_asize : length (array t') = length (array t);
  pr_hmask : hmask t' = hmask t;
  pr_live k0 v0 : key_ok k0 → canon k0 →
    tlive t' k0 v0 ↔ (k0 = norm_key k ∧ v0 = v ∧ v ≠ TNil) ∨ (k0 ≠ norm_key k ∧ tlive t k0 v0);
  pr_nkeys : nkeys (node t') ≤ nkeys (node t) + (if arr_index t k is Some _ then 0 else 1)
}.

Lemma set_result_tlive t k s t' k0 v0 :
  set_result t k s t' → tlive t' k0 v0 ↔ tlive t k0 v0.
Proof.
  intros R. unfold tlive. rewrite (sr_live _ _ _ _ R), (sr_array _ _ _ _ R).
  by rewrite (arr_index_ext t) by (by rewrite (sr_array _ _ _ _ R)).
Qed.

Lemma store_array t k v i :
  twf t → mutable t → key_ok k → arr_index t k = Some i →
  put_result t k v (slot_write v (ASlot i) t).
Proof.
  intros W Hmut Hk Hi. destruct (norm_key_ok k Hk) as [Hk' Hc'].
  pose proof (tw_asize _ W) as Has.
  assert (length (array (slot_write v (ASlot i) t)) = length (array t)) as El
    by apply length_insert.
  assert (i < length (array t))%nat as Hlt.
  { eapply arr_index_lt; [done| |done]. destruct k; try done. by destruct Hk as [_ []]. }
  split; [..|simpl; rewrite Hi; lia]; try done.
  - by eapply twf_ext; [..|exact W].
  - intros k0 v0 Hk0 Hc0. unfold tlive. rewrite (arr_index_ext t) by done. simpl.
    assert (∀ j, arr_index t k0 = Some j → k0 = norm_key k ↔ j = i) as Hinj.
    { intros j Hj. split.
      - intros ->. rewrite arr_index_norm in Hj by done. congruence.
      - intros ->. eapply arr_index_inj; eauto. by rewrite arr_index_norm. }
    assert (∀ w, ¬ livepair (node t) (norm_key k) w) as Hnl.
    { intros w (j & n & Hn & Hkn & _). pose proof (tw_disj _ W _ _ Hn) as Hd.
      rewrite Hkn, arr_index_norm in Hd by done. congruence. }
    split.
    + intros [(j & Hj & Hv & Hv0)|Hl].
      * destruct (decide (j = i)) as [->|Hne].
        -- rewrite list_lookup_insert_eq in Hv by done. simplify_eq. left. by rewrite Hinj.
        -- rewrite list_lookup_insert_ne in Hv by done. right.
           split; [by rewrite (Hinj j)|]. left. eauto.
      * right. split; [|by right]. intros ->. by destruct (Hnl v0).
    + intros [(-> & -> & Hv)|[Hne [(j & Hj & Hv & Hv0)|Hl]]].
      * left. exists i. rewrite arr_index_norm by done. by rewrite list_lookup_insert_eq.
      * left. exists j. rewrite list_lookup_insert_ne; [done|]. intros ->.
        by apply Hne, (Hinj j).
      * by right.
Qed.

Lemma store_hash t k v j n :
  twf t → mutable t → key_ok k → arr_index t k = None →
  node t !! j = Some n → key n = norm_key k →
  put_result t k v (slot_write v (HSlot j) t).
Proof.
  intros W Hmut Hk Ha Hn Hkn. destruct (norm_key_ok k Hk) as [Hk' Hc'].
  assert (key n ≠ TNil) by (rewrite Hkn; apply Hk').
  split; try done.
  - split; simpl.
    + eapply hwf_set_val; eauto using tw_hash.
    + pose proof (tw_free _ W) as Hft. unfold freetop_ok in *. simpl.
      destruct (hmask t =? 0).
      * destruct Hft as [Hnd ?]. rewrite Hnd in Hn.
        destruct j as [|[|]]; simplify_eq/=; done.
      * rewrite length_alter. destruct Hft as [? Hft]. split; [done|].
        intros i m Hi [[<- (x & Hx & ->)]|[? Hx]]%lookup_alter_inv; simpl; eauto.
    + intros i m Hm. rewrite (arr_index_ext t) by done.
      apply lookup_alter_inv in Hm as [[<- (x & Hx & ->)]|[? Hx]]; simpl; eauto using tw_disj.
    + apply (tw_asize _ W).
    + apply (tw_hmask _ W).
  - intros k0 v0 Hk0 Hc0. unfold tlive. rewrite (arr_index_ext t) by done. simpl.
    rewrite (livepair_set_val (hmask t) _ v j n), Hkn by eauto using tw_hash.
    assert (∀ i, arr_index t k0 = Some i → k0 ≠ norm_key k).
    { intros i Hi ->. rewrite arr_index_norm in Hi; congruence. }
    split.
    + intros [(i & Hi & Hv)|[?|[? ?]]]; [|by left|right; split; [done|by right]].
      right. split; [eauto|left; eauto].
    + intros [?|[? [?|?]]]; auto.
  - simpl. rewrite Ha. unfold nkeys. rewrite keys_alter by done. lia.
Qed.

Lemma store_result t k s t' v :
  key_ok k → set_result t k s t' → put_result t k v (slot_write v s t').
Proof.
  intros Hk R.
  assert (arr_index t' k = arr_index t k) as Ea
    by (apply arr_index_ext; by rewrite (sr_array _ _ _ _ R)).
  assert (put_result t' k v (slot_write v s t')) as P.
  { pose proof (sr_slot _ _ _ _ R) as Hs. destruct s as [i|j]; simpl in Hs.
    - apply store_array; auto; apply R.
    - destruct Hs as (? & n & ? & ?). eapply store_hash; eauto; apply R. }
  destruct P as [? ? P3 P4 P5 P6]. split; try done.
  - by rewrite P3, (sr_array _ _ _ _ R).
  - by rewrite P4, (sr_hmask _ _ _ _ R).
  - intros k0 v0 Hk0 Hc0. by rewrite P5, (set_result_tlive t k s t') by done.
  - destruct s as [i|j]; simpl.
    + pose proof (sr_nkeys _ _ _ _ R). done.
    + unfold nkeys. rewrite keys_alter by done. apply (sr_nkeys _ _ _ _ R).
Qed.

(** ** The setters of the code *)

Lemma twf_set_nomm x t : twf t → twf (set_nomm x t).
Proof. by apply twf_ext. Qed.

Lemma array_slot_result t k i :
  twf t → mutable t → arr_index t k = Some i → set_result t k (ASlot i) t.
Proof. intros W Hm Hi. split; auto. rewrite Hi. lia. Qed.

Lemma key_ok_tv_ok k : key_ok k → tv_ok k.
Proof. intros [_ Hk]. destruct k; try done. apply Hk. Qed.

Lemma int2num_key_ok i : in_s 32 i → key_ok (TNum (int2num i)).
Proof. intros. split; [done|]. auto using int2num_num, int2num_notnan. Qed.

Lemma norm_int i : in_s 32 i → norm_key (TNum (int2num i)) = TNum (int2num i).
Proof. intros. simpl. by rewrite int2num_norm. Qed.

(** The slot of a key only depends on its canonical form. *)
Lemma set_result_norm t k k' s t' :
  norm_key k = norm_key k' → key_ok k → key_ok k' → set_result t k s t' → set_result t k' s t'.
Proof.
  intros E Hk Hk' R.
  assert (∀ t0, arr_index t0 k' = arr_index t0 k) as Ea.
  { intros t0. by rewrite <-(arr_index_norm _ k), E, arr_index_norm. }
  destruct R as [? ? ? ? Hs ? Hn]. split; auto; rewrite ?Ea; auto.
  destruct s; simpl in *; rewrite Ea, <-?E; done.
Qed.

Section Setters.
Context (d : nat) (t : GCtab) (W : twf t) (Hmut : mutable t).

Lemma lj_tab_setinth_result i :
  in_s 32 i → arr_index t (TNum (int2num i)) = None → nkeys (node t) < cap (hmask t) →
  ∃ s t', lj_tab_setinth (lj_tab_newkey d) i t = Ret s t' ∧ set_result t (TNum (int2num i)) s t'.
Proof.
  intros Hi Ha Hr. unfold lj_tab_setinth, check_mutable. rewrite Hmut.
  apply found_or_result; auto using int2num_key_ok.
  rewrite norm_int by done. by apply getinth_found.
Qed.

Lemma lj_tab_setint_result i :
  in_s 32 i →
  (arr_index t (TNum (int2num i)) = None → nkeys (node t) < cap (hmask t)) →
  ∃ s t', lj_tab_setint (lj_tab_newkey d) i t = Ret s t' ∧ set_result t (TNum (int2num i)) s t'.
Proof.
  intros Hi Hr. unfold lj_tab_setint, check_mutable. rewrite Hmut.
  assert (int_key (TNum (int2num i)) = Some i) as Ei.
  { simpl. by rewrite num_isint_int2num, num2int_int2num. }
  destruct (inarray t i) eqn:E.
  - eexists _, _. split; [done|]. apply array_slot_result; auto.
    unfold arr_index. by rewrite Ei, E.
  - assert (arr_index t (TNum (int2num i)) = None) by (unfold arr_index; by rewrite Ei, E).
    apply lj_tab_setinth_result; auto.
Qed.

Lemma lj_tab_setstr_result s0 :
  key_ok (TGCV GT_STR s0) → nkeys (node t) < cap (hmask t) →
  ∃ s t', lj_tab_setstr (lj_tab_newkey d) s0 t = Ret s t' ∧ set_result t (TGCV GT_STR s0) s t'.
Proof.
  intros Hk Hr. unfold lj_tab_setstr, check_mutable. rewrite Hmut.
  apply found_or_result; auto. by apply getstr_found.
Qed.

Lemma setgen_result k :
  key_ok k → arr_index t k = None → nkeys (node t) < cap (hmask t) →
  ∃ s t', found_or (lj_tab_newkey d) k (lj_tab_getgen t k) t = Ret s t' ∧ set_result t k s t'.
Proof. intros. apply found_or_result; auto using getgen_found. Qed.

End Setters.

Lemma lj_tab_set_result d t k :
  twf t → mutable t → key_ok k →
  (arr_index t k = None → nkeys (node t) < cap (hmask t)) →
  ∃ s t', lj_tab_set (lj_tab_newkey d) k t = Ret s t' ∧ set_result t k s t'.
Proof.
  intros W Hmut Hk Hr. unfold lj_tab_set, check_mutable. rewrite Hmut.
  pose proof (twf_set_nomm 0 t W) as W1. unfold M_bind. simpl.
  change (mutable (set_nomm 0 t)) in Hmut.
  change (arr_index (set_nomm 0 t) k = None →
          nkeys (node (set_nomm 0 t)) < cap (hmask (set_nomm 0 t))) in Hr.
  cut (∃ s t', match k with
    | TNil => uj_err UJ_ERR_NILIDX
    | TGCV GT_STR s => lj_tab_setstr (lj_tab_newkey d) s
    | TNum n => if num_isint n then lj_tab_setint (lj_tab_newkey d) (lj_num2int n)
                else if tvisnan n then uj_err UJ_ERR_NANIDX
                else found_or (lj_tab_newkey d) k (lj_tab_getgen (set_nomm 0 t) k)
    | _ => found_or (lj_tab_newkey d) k (lj_tab_getgen (set_nomm 0 t) k)
    end (set_nomm 0 t) = Ret s t' ∧ set_result (set_nomm 0 t) k s t').
  { intros (s & t' & E & R). exists s, t'. split; [done|]. by destruct R. }
  revert W1 Hmut Hr. generalize (set_nomm 0 t). clear t W. intros t W Hmut Hr.
  destruct k as [|b|p|g p|n]; [by destruct Hk|..].
  - apply setgen_result; auto.
  - apply setgen_result; auto.
  - destruct g; try (apply setgen_result; auto). apply lj_tab_setstr_result; auto.
  - destruct (num_isint n) eqn:Ei.
    + pose proof (num2int_range n) as Hi. destruct Hk as [_ [Hn Hnan]].
      assert (norm_key (TNum (int2num (lj_num2int n))) = norm_key (TNum n)) as E
        by (rewrite norm_int by done; simpl; by rewrite (num_isint_norm n)).
      destruct (lj_tab_setint_result d t W Hmut (lj_num2int n)) as (s & t' & -> & R); [done| |].
      { intros Ha. apply Hr. rewrite <-(arr_index_norm _ (TNum n)), <-E by done.
        by rewrite arr_index_norm by auto using int2num_key_ok. }
      exists s, t'. split; [done|]. eapply set_result_norm; [exact E|..]; auto using int2num_key_ok.
      done.
    + assert (arr_index t (TNum n) = None) by (unfold arr_index; simpl; by rewrite Ei).
      destruct Hk as [? [? Hnan]]. rewrite Hnan. apply setgen_result; auto. done.
Qed.

End Put.
End TabPut.
