(* ===== verification/TabResize.v ===== *)
(** * Resizing a table

    [resizetab] rebuilds the hash part and moves pairs between the array part
    and the hash part.  Given enough nodes for the pairs that do not fit the
    new array part ([outside]), it succeeds without rehashing again, and the
    new table represents the same map. *)

From stdpp Require Import base decidable list numbers option sets.
From Stdlib Require Import ZArith Lia.
From S2P Require Import Prelude Obj Tab TabChain TabWf TabPut.

Local Open Scope Z_scope.

Module TabResize.
Import Obj Tab TabChain TabWf TabPut.

(** ** A fresh hash part *)

Section Resize.
Context `{ObjHeap}.

Lemma hwf_fresh b : 0 ≤ b → hwf (2 ^ b - 1) (replicate (Z.to_nat (2 ^ b)) empty_node).
Proof.
  intros Hb. pose proof (Z.pow_pos_nonneg 2 b).
  assert (∀ i n, replicate (Z.to_nat (2 ^ b)) empty_node !! i = Some n → n = empty_node) as Hall
    by (intros i n Hn; by apply lookup_replicate in Hn as [-> _]).
  split.
  - rewrite length_replicate. lia.
  - exists b. lia.
  - intros i Hi. rewrite length_replicate in Hi. exists [i].
    econstructor; [by apply lookup_replicate|constructor].
  - intros a b' na nb x Ha _ Hx _. by apply Hall in Ha as ->.
  - intros a n x Ha Hx. by apply Hall in Ha as ->.
  - intros i n Hn _. by apply Hall in Hn as ->.
  - intros i n Hn Hk. by apply Hall in Hn as ->.
  - intros i j ni nj Hi _ _ Hk. by apply Hall in Hi as ->.
Qed.

Lemma nkeys_fresh m : nkeys (replicate m empty_node) = 0.
Proof.
  unfold nkeys. rewrite fmap_replicate. change (key empty_node) with TNil.
  induction m as [|m IH]; [done|]. cbn [replicate]. by rewrite count_live_cons, IH.
Qed.

Lemma fresh_not_live m k v : ¬ livepair (replicate m empty_node) k v.
Proof. intros (i & n & [-> _]%lookup_replicate & _ & <- & Hv). done. Qed.

(** The table after [newhpart]: the same array, an empty hash part. *)
Definition rehashed (hb : Z) (t : GCtab) : GCtab :=
  set_hpart (replicate (Z.to_nat (2 ^ hb)) empty_node) (2 ^ hb - 1)
    (if hb =? 0 then 0%nat else Z.to_nat (2 ^ hb)) t.

Lemma newhpart_rehashed hb t :
  0 ≤ hb ≤ LJ_MAX_HBITS → newhpart hb t = Ret () (rehashed hb t).
Proof.
  intros Hb. unfold newhpart, rehashed, lj_max_hbits_exceeded, lj_pow2.
  destruct (hb =? 0) eqn:E; bprop; simpl.
  - by subst hb.
  - by rewrite (proj2 (Z.ltb_ge _ _)) by lia.
Qed.

Lemma newhpart_overflow hb t :
  LJ_MAX_HBITS < hb → newhpart hb t = Throw UJ_ERR_TABOV t.
Proof.
  intros Hb. unfold newhpart, lj_max_hbits_exceeded, LJ_MAX_HBITS in *.
  rewrite (proj2 (Z.eqb_neq _ _)), (proj2 (Z.ltb_lt _ _)) by lia. done.
Qed.

Lemma twf_rehashed hb t :
  0 ≤ hb ≤ LJ_MAX_HBITS → asize t ≤ LJ_MAX_ASIZE → twf (rehashed hb t).
Proof.
  intros Hb Ha. pose proof (Z.pow_pos_nonneg 2 hb).
  assert (2 ^ hb ≤ 2 ^ LJ_MAX_HBITS) by (apply Z.pow_le_mono_r; lia).
  split; simpl.
  - apply hwf_fresh; lia.
  - unfold freetop_ok. simpl. destruct (hb =? 0) eqn:E; bprop; [by subst hb|].
    assert (2 ≤ 2 ^ hb) by (change 2 with (2 ^ 1) at 1; apply Z.pow_le_mono_r; lia).
    rewrite (proj2 (Z.eqb_neq _ _)), length_replicate by lia. split; [lia|].
    intros i n Hi [_ Hlt]%lookup_replicate. lia.
  - intros i n [-> _]%lookup_replicate. done.
  - done.
  - lia.
Qed.

Lemma cap_rehashed hb t : 0 ≤ hb → cap (hmask (rehashed hb t)) = if hb =? 0 then 0 else 2 ^ hb.
Proof.
  intros Hb. unfold cap. simpl. destruct (hb =? 0) eqn:E; bprop; [by subst hb|].
  assert (2 ≤ 2 ^ hb) by (change 2 with (2 ^ 1) at 1; apply Z.pow_le_mono_r; lia).
  rewrite (proj2 (Z.eqb_neq _ _)) by lia. lia.
Qed.

(** ** What has to go to the hash part *)

Definition in_range (na : Z) (k : TValue) : bool :=
  match int_key k with Some i => (0 <=? i) && (i <? na) | None => false end.

Fixpoint count_out (na : Z) (ns : list Node) : Z :=
  match ns with
  | [] => 0
  | n :: ns' =>
      (if negb (tvisnil (val n)) && negb (in_range na (key n)) then 1 else 0) + count_out na ns'
  end.

Definition outside (t : GCtab) (na : Z) : Z :=
  count_live (drop (Z.to_nat na) (array t)) + count_out na (node t).

Lemma arr_index_range t k :
  asize t ≤ LJ_MAX_ASIZE → arr_index t k = None ↔ in_range (asize t) k = false.
Proof.
  intros Ha. unfold arr_index, in_range. destruct k as [| | | |n]; simpl; try done.
  destruct (num_isint n); simpl; [|done].
  pose proof (inarray_iff t (lj_num2int n) Ha (num2int_range n)) as Hi.
  destruct (inarray t _), ((0 <=? lj_num2int n) && (lj_num2int n <? asize t)) eqn:E;
    bprop; try done.
  - destruct (proj1 Hi eq_refl). destruct E as [E|E]; bprop; lia.
  - destruct (proj2 Hi); [lia|done].
Qed.

(** ** Reinsertion loops *)

(** [t'] holds the pairs of [t] and those in [P], none of which [t] had. *)
Record moved_in (t : GCtab) (P : TValue → TValue → Prop) (c : Z) (t' : GCtab) : Prop := {
  mi_wf : twf t';
  mi_mut : mutable t';
  mi_asize : length (array t') = length (array t);
  mi_hmask : hmask t' = hmask t;
  mi_nkeys : nkeys (node t') ≤ nkeys (node t) + c;
  mi_live k v : key_ok k → canon k → tlive t' k v ↔ P k v ∨ tlive t k v
}.

Lemma moved_in_put t k v t' :
  key_ok k → canon k → v ≠ TNil → (∀ w, ¬ tlive t k w) → put_result t k v t' →
  moved_in t (λ k0 v0, k0 = k ∧ v0 = v) (if arr_index t k is Some _ then 0 else 1) t'.
Proof.
  intros Hk Hc Hv Hn R. split; try apply R.
  intros k0 v0 Hk0 Hc0. rewrite (pr_live _ _ _ _ R) by done. rewrite Hc.
  destruct (decide (k0 = k)) as [->|]; [|tauto].
  specialize (Hn v0). tauto.
Qed.

Lemma moved_in_trans t1 P1 c1 t2 P2 c2 t3 :
  moved_in t1 P1 c1 t2 → moved_in t2 P2 c2 t3 →
  moved_in t1 (λ k v, P1 k v ∨ P2 k v) (c1 + c2) t3.
Proof.
  intros A B. split; try apply B.
  - by rewrite (mi_asize _ _ _ _ B), (mi_asize _ _ _ _ A).
  - by rewrite (mi_hmask _ _ _ _ B), (mi_hmask _ _ _ _ A).
  - pose proof (mi_nkeys _ _ _ _ A). pose proof (mi_nkeys _ _ _ _ B). lia.
  - intros k v Hk Hc. rewrite (mi_live _ _ _ _ B), (mi_live _ _ _ _ A) by done. tauto.
Qed.

Lemma moved_in_refl t : twf t → mutable t → moved_in t (λ _ _, False) 0 t.
Proof. intros. split; auto with lia. intros. tauto. Qed.

Lemma moved_in_ext t P Q c t' :
  (∀ k v, P k v ↔ Q k v) → moved_in t P c t' → moved_in t Q c t'.
Proof. intros E M. split; try apply M. intros k v Hk Hc. by rewrite (mi_live _ _ _ _ M), E. Qed.

Definition array_pairs (i : Z) (vs : list TValue) (k v : TValue) : Prop :=
  ∃ j, k = TNum (int2num (i + Z.of_nat j)) ∧ vs !! j = Some v ∧ v ≠ TNil.

Lemma array_pairs_cons i x vs k v :
  array_pairs i (x :: vs) k v ↔
    (k = TNum (int2num i) ∧ v = x ∧ x ≠ TNil) ∨ array_pairs (i + 1) vs k v.
Proof.
  split.
  - intros ([|j] & -> & Hv & Hn); simpl in Hv.
    + left. rewrite Z.add_0_r. by simplify_eq.
    + right. exists j. split_and!; [|done|done]. do 2 f_equal. lia.
  - intros [(-> & -> & Hn)|(j & -> & Hv & Hn)].
    + exists 0%nat. rewrite Z.add_0_r. done.
    + exists (S j). split_and!; [|done|done]. do 2 f_equal. lia.
Qed.

Lemma small_int_range i : 0 ≤ i ≤ LJ_MAX_ASIZE → in_s 32 i.
Proof. unfold in_s, LJ_MAX_ASIZE, LJ_MAX_ABITS. simpl. lia. Qed.

Lemma arr_index_beyond t i :
  asize t ≤ LJ_MAX_ASIZE → 0 ≤ i ≤ LJ_MAX_ASIZE → asize t ≤ i →
  arr_index t (TNum (int2num i)) = None.
Proof.
  intros Ha Hi Hle. apply arr_index_range; [done|]. unfold in_range. simpl.
  rewrite num_isint_int2num, num2int_int2num by auto using small_int_range.
  rewrite (proj2 (Z.ltb_ge _ _)) by lia. apply andb_false_r.
Qed.

Lemma reinsert_array_spec d vs i t :
  twf t → mutable t → asize t ≤ i → i + Z.of_nat (length vs) ≤ LJ_MAX_ASIZE →
  nkeys (node t) + count_live vs ≤ cap (hmask t) →
  (∀ k v w, array_pairs i vs k v → ¬ tlive t k w) →
  ∃ t', reinsert_array (lj_tab_newkey d) i vs t = Ret () t' ∧
    moved_in t (array_pairs i vs) (count_live vs) t'.
Proof.
  revert i t. induction vs as [|x vs IH]; intros i t W Hmut Hle Hmax Hcap Hnew.
  { exists t. split; [done|]. eapply moved_in_ext, moved_in_refl; auto.
    intros k v. split; [done|]. by intros (j & _ & ? & _). }
  assert (0 ≤ asize t) by (unfold asize; lia). pose proof (tw_asize _ W).
  rewrite count_live_cons in *. pose proof (count_live_nonneg vs). simpl in Hmax.
  assert (in_s 32 i) as Hi by (apply small_int_range; lia).
  assert (∃ t1 P, (if negb (tvisnil x)
    then let! s := lj_tab_setinth (lj_tab_newkey d) i in store s x else M_ret ())%vela t = Ret () t1 ∧
    moved_in t P (if tvisnil x then 0 else 1) t1 ∧
    ∀ k v, P k v ↔ k = TNum (int2num i) ∧ v = x ∧ x ≠ TNil) as (t1 & P & Hrun & M1 & HP).
  { destruct (tvisnil x) eqn:Ex; simpl.
    - exists t, (λ _ _, False). split_and!; [done|by apply moved_in_refl|].
      intros k v. split; [done|]. intros (_ & _ & Hx). by destruct x.
    - assert (x ≠ TNil) by (by intros ->).
      assert (arr_index t (TNum (int2num i)) = None) as Ha by (apply arr_index_beyond; lia).
      destruct (lj_tab_setinth_result d t W Hmut i) as (s & t1 & Hs & R); auto with lia.
      exists (slot_write x s t1), (λ k v, k = TNum (int2num i) ∧ v = x).
      unfold M_bind. rewrite Hs. split_and!; [done| |tauto].
      replace 1 with (if arr_index t (TNum (int2num i)) is Some _ then 0 else 1) by (by rewrite Ha).
      apply moved_in_put;
        [by apply int2num_key_ok|by apply norm_int|done| |by auto using store_result, int2num_key_ok].
      intros w. apply (Hnew _ x). rewrite array_pairs_cons. auto. }
  unfold reinsert_array; fold reinsert_array. unfold M_bind at 1. rewrite Hrun.
  destruct (IH (i + 1) t1) as (t2 & -> & M2).
  - apply M1.
  - apply M1.
  - unfold asize in *. rewrite (mi_asize _ _ _ _ M1). lia.
  - lia.
  - rewrite (mi_hmask _ _ _ _ M1). pose proof (mi_nkeys _ _ _ _ M1). lia.
  - intros k v w Hp Hl.
    assert (key_ok k ∧ canon k) as [Hk Hc].
    { destruct Hp as (j & -> & Hv%lookup_lt_Some & _). 
      split; [apply int2num_key_ok|apply norm_int]; apply small_int_range; lia. }
    rewrite (mi_live _ _ _ _ M1), HP in Hl by done.
    destruct Hl as [(Ek & _ & _)|Hl].
    + destruct Hp as (j & -> & Hv%lookup_lt_Some & _). injection Ek as Ek.
      apply int2num_inj in Ek; [lia|..]; apply small_int_range; lia.
    + apply (Hnew k v w); [|done]. rewrite array_pairs_cons. auto.
  - exists t2. split; [done|]. eapply moved_in_ext; [|eapply moved_in_trans; eauto].
    intros k v. rewrite array_pairs_cons, HP. done.
Qed.

(** Live nodes have valid keys and no key occurs twice. *)
Definition nodes_ok (ns : list Node) : Prop :=
  (∀ i n, ns !! i = Some n → val n ≠ TNil → key_ok (key n) ∧ canon (key n)) ∧
  (∀ i j ni nj, ns !! i = Some ni → ns !! j = Some nj → key ni = key nj → key ni ≠ TNil → i = j).

Lemma hwf_nodes_ok hm nd : hwf hm nd → nodes_ok nd.
Proof.
  intros W. split; [|apply W]. intros i n Hn Hv.
  destruct (hwf_stored _ _ _ _ W Hn) as [Hk|[? ?]]; [|done].
  by destruct Hv; apply (hw_val _ _ W _ _ Hn).
Qed.

Lemma nodes_ok_tail n ns : nodes_ok (n :: ns) → nodes_ok ns.
Proof.
  intros [A B]. split.
  - intros i m Hm. by apply (A (S i)).
  - intros i j ni nj Hi Hj E Hk. pose proof (B (S i) (S j) ni nj Hi Hj E Hk). lia.
Qed.

Lemma livepair_cons n ns k v :
  livepair (n :: ns) k v ↔ (k = key n ∧ v = val n ∧ val n ≠ TNil) ∨ livepair ns k v.
Proof.
  split.
  - intros ([|i] & m & Hm & <- & <- & Hv); simpl in Hm.
    + injection Hm as ->. by left.
    + right. by exists i, m.
  - intros [(-> & -> & Hv)|(i & m & Hm & <- & <- & Hv)].
    + by exists 0%nat, n.
    + by exists (S i), m.
Qed.

Lemma nodes_ok_head n ns v : nodes_ok (n :: ns) → key n ≠ TNil → ¬ livepair ns (key n) v.
Proof.
  intros [_ B] Hk (i & m & Hm & E & _).
  by discriminate (B 0%nat (S i) n m eq_refl Hm (eq_sym E) Hk).
Qed.

Lemma livepair_key_ok ns k v : nodes_ok ns → livepair ns k v → key_ok k ∧ canon k.
Proof. intros [A _] (i & m & Hm & <- & <- & Hv). eauto. Qed.

Lemma count_out_nonneg na ns : 0 ≤ count_out na ns.
Proof. induction ns; simpl; [done|]. case_test; lia. Qed.

(** One iteration: a live pair that the table does not have is stored. *)
Lemma reinsert_one d t k v :
  twf t → mutable t → key_ok k → canon k → v ≠ TNil → (∀ w, ¬ tlive t k w) →
  (in_range (asize t) k = false → nkeys (node t) < cap (hmask t)) →
  ∃ t', (let! s := lj_tab_set (lj_tab_newkey d) k in store s v)%vela t = Ret () t' ∧
    moved_in t (λ k0 v0, k0 = k ∧ v0 = v) (if in_range (asize t) k then 0 else 1) t'.
Proof.
  intros W Hmut Hk Hc Hv Hnew Hroom.
  pose proof (arr_index_range t k (tw_asize _ W)) as Ha.
  destruct (lj_tab_set_result d t k W Hmut Hk) as (s & t' & Hs & R).
  { intros E. apply Hroom. by apply Ha. }
  exists (slot_write v s t'). unfold M_bind. rewrite Hs. split; [done|].
  replace (if in_range (asize t) k then 0 else 1)
    with (if arr_index t k is Some _ then 0 else 1).
  - apply moved_in_put; auto using store_result.
  - destruct (arr_index t k), (in_range (asize t) k); try done.
    + by discriminate (proj2 Ha).
    + by discriminate (proj1 Ha).
Qed.

Lemma reinsert_nodes_spec d ns t :
  twf t → mutable t → nodes_ok ns →
  nkeys (node t) + count_out (asize t) ns ≤ cap (hmask t) →
  (∀ k v w, livepair ns k v → ¬ tlive t k w) →
  ∃ t', reinsert_nodes (lj_tab_newkey d) ns t = Ret () t' ∧
    moved_in t (livepair ns) (count_out (asize t) ns) t'.
Proof.
  revert t. induction ns as [|n ns IH]; intros t W Hmut Hok Hcap Hnew.
  { exists t. split; [done|]. eapply moved_in_ext, moved_in_refl; auto.
    intros k v. split; [done|]. by intros (j & ? & ? & _). }
  simpl in Hcap. pose proof (count_out_nonneg (asize t) ns).
  set (c := if negb (tvisnil (val n)) && negb (in_range (asize t) (key n)) then 1 else 0) in *.
  assert (∃ t1 P, (if negb (tvisnil (val n))
    then let! s := lj_tab_set (lj_tab_newkey d) (key n) in store s (val n)
    else M_ret ())%vela t = Ret () t1 ∧ moved_in t P c t1 ∧
    ∀ k v, P k v ↔ k = key n ∧ v = val n ∧ val n ≠ TNil) as (t1 & P & Hrun & M1 & HP).
  { destruct (tvisnil (val n)) eqn:Ex; simpl in *.
    - exists t, (λ _ _, False). split_and!; [done|by apply moved_in_refl|].
      intros k v. split; [done|]. intros (_ & _ & Hx). by destruct (val n).
    - assert (val n ≠ TNil) by (by intros E; rewrite E in Ex).
      destruct (proj1 Hok 0%nat n eq_refl) as [Hk Hc]; [done|].
      destruct (reinsert_one d t (key n) (val n)) as (t1 & Hr & M1); auto.
      { intros w. apply (Hnew _ (val n)). rewrite livepair_cons. auto. }
      { intros E. subst c. rewrite E in Hcap. simpl in Hcap. lia. }
      exists t1, (λ k v, k = key n ∧ v = val n). split_and!; [done| |tauto].
      subst c. by destruct (in_range (asize t) (key n)). }
  unfold reinsert_nodes; fold reinsert_nodes. unfold M_bind at 1. rewrite Hrun.
  assert (asize t1 = asize t) as Ea by (unfold asize; by rewrite (mi_asize _ _ _ _ M1)).
  destruct (IH t1) as (t2 & -> & M2).
  - apply M1.
  - apply M1.
  - by eapply nodes_ok_tail.
  - rewrite (mi_hmask _ _ _ _ M1), Ea. pose proof (mi_nkeys _ _ _ _ M1). lia.
  - intros k v w Hp Hl.
    destruct (livepair_key_ok ns k v (nodes_ok_tail _ _ Hok) Hp) as [Hk Hc].
    rewrite (mi_live _ _ _ _ M1), HP in Hl by done.
    destruct Hl as [(-> & _ & _)|Hl].
    + eapply nodes_ok_head; [done| |done]. apply Hk.
    + apply (Hnew k v w); [|done]. rewrite livepair_cons. auto.
  - exists t2. split; [done|]. rewrite Ea in M2.
    eapply moved_in_ext; [|eapply moved_in_trans; eauto].
    intros k v. rewrite livepair_cons, HP. done.
Qed.

(** ** The whole resize *)

Lemma arr_index_iff t k i :
  asize t ≤ LJ_MAX_ASIZE → key_ok k → canon k →
  arr_index t k = Some i ↔ (i < length (array t))%nat ∧ k = TNum (int2num (Z.of_nat i)).
Proof.
  intros Ha Hk Hc. split.
  - intros E. unfold arr_index in E. destruct (int_key k) as [j|] eqn:Ek; [|done].
    destruct (int_key_canon _ _ Hk Hc Ek) as [-> Hr].
    destruct (inarray t j) eqn:I; [|done]. apply inarray_iff in I; [|done..].
    injection E as <-. unfold asize in I. split; [lia|]. by rewrite Z2Nat.id by lia.
  - intros [Hi ->]. assert (in_s 32 (Z.of_nat i)) as Hr
      by (apply small_int_range; unfold asize in Ha; lia).
    unfold arr_index. simpl. rewrite num_isint_int2num, num2int_int2num by done.
    rewrite (proj2 (inarray_iff t _ Ha Hr)), Nat2Z.id; [done|]. unfold asize. lia.
Qed.

(** The map of a table is the disjoint union of its two parts. *)
Lemma tlive_parts t k v :
  asize t ≤ LJ_MAX_ASIZE → key_ok k → canon k →
  tlive t k v ↔ array_pairs 0 (array t) k v ∨ livepair (node t) k v.
Proof.
  intros Ha Hk Hc. unfold tlive, array_pairs.
  assert (∀ i, arr_index t k = Some i ∧ array t !! i = Some v ∧ v ≠ TNil ↔
    k = TNum (int2num (0 + Z.of_nat i)) ∧ array t !! i = Some v ∧ v ≠ TNil) as E.
  { intros i. rewrite arr_index_iff by done. simpl.
    split; [tauto|]. intros (-> & Hv & Hn). apply lookup_lt_Some in Hv as Hi. tauto. }
  by setoid_rewrite E.
Qed.

Lemma array_pairs_app i l1 l2 k v :
  array_pairs i (l1 ++ l2) k v ↔
    array_pairs i l1 k v ∨ array_pairs (i + Z.of_nat (length l1)) l2 k v.
Proof.
  revert i. induction l1 as [|x l1 IH]; intros i; simpl.
  - rewrite Z.add_0_r. split; [auto|]. intros [(j & _ & ? & _)|?]; done.
  - rewrite !array_pairs_cons, IH. replace (i + 1 + Z.of_nat (length l1))
      with (i + Z.of_nat (S (length l1))) by lia. tauto.
Qed.

Lemma array_pairs_nils i m k v : ¬ array_pairs i (replicate m TNil) k v.
Proof. intros (j & _ & [-> _]%lookup_replicate & Hn). done. Qed.

(** The array part at its new size, before anything is reinserted. *)
Definition resized_array (na : Z) (arr : list TValue) : list TValue :=
  take (Z.to_nat na) arr ++ replicate (Z.to_nat na - length arr) TNil.

Lemma resized_array_length na arr : 0 ≤ na → Z.of_nat (length (resized_array na arr)) = na.
Proof. intros. unfold resized_array. rewrite length_app, length_take, length_replicate. lia. Qed.

Lemma resized_array_pairs na arr k v :
  0 ≤ na →
  array_pairs 0 arr k v ↔
    array_pairs na (drop (Z.to_nat na) arr) k v ∨ array_pairs 0 (resized_array na arr) k v.
Proof.
  intros Hna. unfold resized_array. rewrite array_pairs_app.
  rewrite <-(take_drop (Z.to_nat na) arr) at 1. rewrite array_pairs_app, length_take.
  pose proof (array_pairs_nils (0 + Z.of_nat (Z.to_nat na `min` length arr))
    (Z.to_nat na - length arr) k v).
  destruct (decide (length arr ≤ Z.to_nat na)%nat) as [Hle|Hgt].
  - rewrite drop_ge by done.
    assert (∀ i, ¬ array_pairs i [] k v) as Hnil by (by intros i (j & _ & ? & _)).
    pose proof (Hnil na). pose proof (Hnil (0 + Z.of_nat (Z.to_nat na `min` length arr))). tauto.
  - replace (0 + Z.of_nat (Z.to_nat na `min` length arr)) with na in * by lia. tauto.
Qed.

Definition resize_base (na hb c : Z) (t : GCtab) : GCtab :=
  rehashed hb (set_array c (resized_array na (array t)) t).

Lemma resizetab_runs nk na hb t :
  twf t → 0 ≤ na ≤ LJ_MAX_ASIZE → 0 ≤ hb ≤ LJ_MAX_HBITS →
  ∃ c, resizetab nk na hb t =
    (reinsert_array nk na (drop (Z.to_nat na) (array t)) >>>
     reinsert_nodes nk (node t))%vela (resize_base na hb c t).
Proof.
  intros W Hna Hhb. unfold resizetab, resize_base, resized_array.
  assert ((if 0 <? hmask t then reinsert_nodes nk (node t) else M_ret ()) =
    reinsert_nodes nk (node t) ∨ node t = [empty_node]) as Hnodes.
  { pose proof (tw_free _ W) as Hf. unfold freetop_ok in Hf.
    destruct (hw_pow _ _ (tw_hash _ W)) as (b & ? & ?). pose proof (Z.pow_pos_nonneg 2 b).
    destruct (hmask t =? 0) eqn:E; bprop; [by right; destruct Hf|left].
    by rewrite (proj2 (Z.ltb_lt _ _)) by lia. }
  assert (∀ t1 m1, ((m1 : M ()) >>>
    (if 0 <? hmask t then reinsert_nodes nk (node t) else M_ret ()))%vela t1 =
    (m1 >>> reinsert_nodes nk (node t))%vela t1) as Hend.
  { intros t1 m1. unfold M_bind. destruct (m1 t1); try done.
    destruct Hnodes as [->|E]; [done|]. rewrite E. by case_test. }
  unfold M_bind at 1, get. unfold M_bind at 1. destruct (asize t <? na) eqn:Eg; bprop.
  - unfold grow_array. rewrite (proj2 (Z.ltb_ge _ _)) by lia.
    exists (if 0 <? colo t then colo_separated (colo t) else colo t).
    unfold M_bind at 1. rewrite newhpart_rehashed by done. rewrite Hend.
    rewrite (proj2 (Z.ltb_ge na _)) by lia. unfold asize in *.
    rewrite take_ge, drop_ge by lia. unfold rehashed. simpl.
    replace (Z.to_nat (na - Z.of_nat (length (array t)))) with (Z.to_nat na - length (array t))%nat by lia.
    done.
  - exists (colo t). unfold M_ret at 1. unfold M_bind at 1.
    rewrite newhpart_rehashed by done. rewrite Hend. unfold asize in *.
    replace (Z.to_nat na - length (array t))%nat with 0%nat by lia. simpl. rewrite app_nil_r.
    destruct (na <? Z.of_nat (length (array t))) eqn:Es; bprop.
    + done.
    + rewrite take_ge, drop_ge by lia. simpl. by destruct t.
Qed.

Lemma twf_resize_base na hb c t :
  0 ≤ na ≤ LJ_MAX_ASIZE → 0 ≤ hb ≤ LJ_MAX_HBITS → twf (resize_base na hb c t).
Proof.
  intros Hna Hhb. apply twf_rehashed; [done|]. unfold asize. simpl.
  rewrite resized_array_length; lia.
Qed.

Record resized (t : GCtab) (na hb : Z) (t' : GCtab) : Prop := {
  rs_wf : twf t';
  rs_mut : mutable t';
  rs_asize : asize t' = na;
  rs_hmask : hmask t' = 2 ^ hb - 1;
  rs_nkeys : nkeys (node t') ≤ outside t na;
  rs_live k v : key_ok k → canon k → tlive t' k v ↔ tlive t k v
}.

Lemma resizetab_resized d na hb t :
  twf t → mutable t → 0 ≤ na ≤ LJ_MAX_ASIZE → 0 ≤ hb ≤ LJ_MAX_HBITS →
  outside t na ≤ (if hb =? 0 then 0 else 2 ^ hb) →
  ∃ t', resizetab (lj_tab_newkey d) na hb t = Ret () t' ∧ resized t na hb t'.
Proof.
  intros W Hmut Hna Hhb Hroom. unfold outside in Hroom.
  destruct (resizetab_runs (lj_tab_newkey d) na hb t W Hna Hhb) as [c ->].
  set (t1 := resize_base na hb c t).
  assert (twf t1) as W1 by (by apply twf_resize_base).
  assert (asize t1 = na) as Ea by (apply resized_array_length; lia).
  assert (nkeys (node t1) = 0) as Enk by apply nkeys_fresh.
  assert (cap (hmask t1) = if hb =? 0 then 0 else 2 ^ hb) as Ecap by (apply cap_rehashed; lia).
  assert (∀ k v, key_ok k → canon k →
    tlive t1 k v ↔ array_pairs 0 (resized_array na (array t)) k v) as Hl1.
  { intros k v Hk Hc. rewrite tlive_parts by (done || lia).
    pose proof (fresh_not_live (Z.to_nat (2 ^ hb)) k v). simpl. tauto. }
  pose proof (count_out_nonneg na (node t)).
  pose proof (count_live_nonneg (drop (Z.to_nat na) (array t))).
  pose proof (tw_asize _ W) as Has. unfold asize in Has.
  destruct (reinsert_array_spec d (drop (Z.to_nat na) (array t)) na t1) as (t2 & Hr & M2); auto.
  - by rewrite Ea.
  - rewrite length_drop. lia.
  - lia.
  - intros k v w (j & -> & Hv%lookup_lt_Some & _) Hl. rewrite length_drop in Hv.
    assert (in_s 32 (na + Z.of_nat j)) by (apply small_int_range; lia).
    rewrite tlive_parts in Hl; [|lia|by apply int2num_key_ok|by apply norm_int].
    destruct Hl as [(i & E & Hi & _)|Hl]; [|by apply fresh_not_live in Hl].
    apply lookup_lt_Some in Hi. unfold asize in Ea. injection E as E.
    apply int2num_inj in E; [lia|done|apply small_int_range; lia].
  - unfold M_bind at 1. rewrite Hr.
    destruct (reinsert_nodes_spec d (node t) t2) as (t3 & Hr3 & M3).
    + apply M2.
    + apply M2.
    + eapply hwf_nodes_ok, W.
    + unfold asize at 1. rewrite (mi_asize _ _ _ _ M2), (mi_hmask _ _ _ _ M2).
      fold (asize t1). pose proof (mi_nkeys _ _ _ _ M2). rewrite Ea. lia.
    + intros k v w Hp Hl.
      destruct (livepair_key_ok (node t) k v) as [Hk Hc]; [eapply hwf_nodes_ok, W|done|].
      rewrite (mi_live _ _ _ _ M2), Hl1, <-resized_array_pairs in Hl by (done || lia).
      destruct Hl as (i & E & Hi & _), Hp as (j & n & Hn & <- & _).
      assert (arr_index t (key n) = Some i) as Hin.
      { apply lookup_lt_Some in Hi. rewrite arr_index_iff; [|apply W|done|done].
        split; [exact Hi|exact E]. }
      by rewrite (tw_disj _ W _ _ Hn) in Hin.
    + assert (asize t2 = na) as Ea2 by (unfold asize; by rewrite (mi_asize _ _ _ _ M2)).
      rewrite Ea2 in M3. exists t3. split; [done|]. split; try apply M3.
      * unfold asize. rewrite (mi_asize _ _ _ _ M3). done.
      * by rewrite (mi_hmask _ _ _ _ M3), (mi_hmask _ _ _ _ M2).
      * pose proof (mi_nkeys _ _ _ _ M2). pose proof (mi_nkeys _ _ _ _ M3). unfold outside. lia.
      * intros k v Hk Hc.
        rewrite (mi_live _ _ _ _ M3), (mi_live _ _ _ _ M2), Hl1, <-resized_array_pairs by (done || lia).
        rewrite tlive_parts; [tauto|apply W|done|done].
Qed.

End Resize.
End TabResize.
