(* ===== verification/TabRehash.v ===== *)
(** * Choosing the new sizes

    [rehashtab] histograms the integer keys of a table into [bins] and picks the
    array size from it.  [hist bins L] says that [bins] is the histogram of the
    list [L] of integer keys; the lemmas of this file show that [countarray],
    [counthash] and [countint] compute the histogram of all live keys and the key
    to insert, and that the sizes found leave room for every pair: the pairs
    outside the new array part and the new key fit the new hash part. *)

From stdpp Require Import base decidable list numbers option sets.
From Stdlib Require Import ZArith Lia.
From S2P Require Import Prelude Obj Tab TabChain TabWf TabPut TabResize.

Local Open Scope Z_scope.

Module TabRehash.
Import Obj Tab TabChain TabWf TabPut TabResize.

(** ** Counting *)

Fixpoint countb {A} (P : A → bool) (l : list A) : Z :=
  match l with
  | [] => 0
  | x :: l' => (if P x then 1 else 0) + countb P l'
  end.

Lemma countb_nonneg {A} (P : A → bool) l : 0 ≤ countb P l.
Proof. induction l; simpl; [done|]. case_test; lia. Qed.

Lemma countb_app {A} (P : A → bool) l1 l2 : countb P (l1 ++ l2) = countb P l1 + countb P l2.
Proof. induction l1; simpl; lia. Qed.

Lemma countb_ext {A} (P Q : A → bool) l :
  (∀ x, x ∈ l → P x = Q x) → countb P l = countb Q l.
Proof.
  induction l as [|x l IH]; intros E; simpl; [done|].
  rewrite (E x), IH; [done| |by left]. intros y Hy. apply E. by right.
Qed.

Lemma countb_const {A} (b : bool) (l : list A) :
  countb (λ _, b) l = if b then Z.of_nat (length l) else 0.
Proof. induction l; simpl; destruct b; lia. Qed.

Lemma countb_true {A} (P : A → bool) l :
  (∀ x, x ∈ l → P x = true) → countb P l = Z.of_nat (length l).
Proof. intros E. by rewrite (countb_ext P (λ _, true)), countb_const by done. Qed.

Lemma countb_false {A} (P : A → bool) l : (∀ x, x ∈ l → P x = false) → countb P l = 0.
Proof. intros E. by rewrite (countb_ext P (λ _, false)), countb_const by done. Qed.

Lemma countb_pos {A} (P : A → bool) l : 0 < countb P l → ∃ x, x ∈ l ∧ P x = true.
Proof.
  induction l as [|x l IH]; simpl; [lia|]. destruct (P x) eqn:E; intros Hp.
  - exists x. split; [by left|done].
  - destruct IH as (y & ? & ?); [lia|]. exists y. split; [by right|done].
Qed.

(** ** Histograms *)

Definition below (s : Z) (i : Z) : bool := i <? s.
Definition in_bin (b : Z) (i : Z) : bool := bin_of i =? b.

(** The array indices of the bins below [b] are those below [bin_start b]. *)
Definition bin_start (b : Z) : Z := if b =? 0 then 0 else 2 ^ b + 1.

Definition array_keys (L : list Z) : Prop := ∀ i, i ∈ L → 0 ≤ i < LJ_MAX_ASIZE.

Definition hist (bins : list Z) (L : list Z) : Prop :=
  length bins = Z.to_nat LJ_MAX_ABITS ∧
  ∀ b, 0 ≤ b < LJ_MAX_ABITS → bins !! Z.to_nat b = Some (countb (in_bin b) L).

Lemma bin_of_range i : 0 ≤ i < LJ_MAX_ASIZE → 0 ≤ bin_of i < LJ_MAX_ABITS - 1.
Proof.
  unfold bin_of, lj_bsr, LJ_MAX_ASIZE. intros Hi. case_test; bprop; [|done].
  split; [apply Z.log2_nonneg|]. apply Z.log2_lt_pow2; lia.
Qed.

Lemma bin_of_start b i :
  0 ≤ b → 0 ≤ i → bin_of i = b ↔ bin_start b ≤ i < bin_start (b + 1).
Proof.
  intros Hb Hi. unfold bin_of, bin_start, lj_bsr.
  rewrite (proj2 (Z.eqb_neq (b + 1) 0)), Z.pow_add_r by lia. change (2 ^ 1) with 2.
  destruct (2 <? i) eqn:E; bprop.
  - destruct (b =? 0) eqn:E0; bprop.
    + subst b. assert (0 < Z.log2 (i - 1)) by (apply Z.log2_pos; lia). lia.
    + pose proof (Z.log2_spec (i - 1) ltac:(lia)) as [H1 H2].
      rewrite Z.pow_succ_r in H2 by apply Z.log2_nonneg. split.
      * intros <-. lia.
      * intros [? ?]. apply Z.log2_unique; [lia|]. rewrite Z.pow_succ_r; lia.
  - destruct (b =? 0) eqn:E0; bprop; [subst b; lia|].
    assert (2 ≤ 2 ^ b) by (change 2 with (2 ^ 1) at 1; apply Z.pow_le_mono_r; lia). lia.
Qed.

Lemma below_start_succ b L :
  0 ≤ b → array_keys L →
  countb (below (bin_start (b + 1))) L = countb (below (bin_start b)) L + countb (in_bin b) L.
Proof.
  intros Hb. induction L as [|i L IH]; intros HL; simpl; [done|].
  rewrite IH by (intros j Hj; apply HL; by right).
  assert (0 ≤ i) as Hi by (apply HL; by left).
  pose proof (bin_of_start b i Hb Hi). unfold below, in_bin in *.
  assert (bin_start b ≤ bin_start (b + 1)).
  { unfold bin_start. pose proof (Z.pow_pos_nonneg 2 b). pose proof (Z.pow_pos_nonneg 2 (b + 1)).
    assert (2 ^ b ≤ 2 ^ (b + 1)) by (apply Z.pow_le_mono_r; lia). repeat case_test; bprop; lia. }
  destruct (i <? bin_start b) eqn:E1, (i <? bin_start (b + 1)) eqn:E2, (bin_of i =? b) eqn:E3;
    bprop; lia.
Qed.

Lemma below_all L :
  array_keys L → countb (below (bin_start LJ_MAX_ABITS)) L = Z.of_nat (length L).
Proof.
  intros HL. apply countb_true. intros i Hi%HL. apply Z.ltb_lt.
  unfold LJ_MAX_ASIZE, bin_start, LJ_MAX_ABITS in *. simpl in *. lia.
Qed.

Lemma hist_nil : hist no_bins [].
Proof.
  split; [done|]. intros b Hb. unfold no_bins. rewrite lookup_replicate. split; [done|lia].
Qed.

(** Adding keys of one bin. *)
Lemma hist_add b L' bins L :
  hist bins L → 0 ≤ b < LJ_MAX_ABITS → (∀ i, i ∈ L' → bin_of i = b) →
  hist (bin_add b (Z.of_nat (length L')) bins) (L ++ L').
Proof.
  intros [Hlen Hh] Hb HL'. unfold bin_add. split; [by rewrite length_alter|].
  intros b' Hb'. rewrite countb_app. destruct (decide (b' = b)) as [->|Hne].
  - rewrite list_lookup_alter_eq, Hh by done. simpl. f_equal.
    rewrite (countb_true _ L'); [lia|]. intros i Hi. apply Z.eqb_eq. auto.
  - rewrite list_lookup_alter_ne, Hh by lia. f_equal.
    rewrite (countb_false _ L'); [lia|]. intros i Hi. apply Z.eqb_neq. rewrite (HL' i Hi). lia.
Qed.

(** ** The array part *)

Fixpoint live_idx (i : Z) (vs : list TValue) : list Z :=
  match vs with
  | [] => []
  | v :: vs' => (if tvisnil v then [] else [i]) ++ live_idx (i + 1) vs'
  end.

Lemma live_idx_length i vs : Z.of_nat (length (live_idx i vs)) = count_live vs.
Proof.
  revert i. induction vs as [|v vs IH]; intros i; [done|].
  rewrite count_live_cons, <-(IH (i + 1)). simpl. rewrite length_app.
  destruct (tvisnil v); simpl; lia.
Qed.

Lemma live_idx_app i l1 l2 :
  live_idx i (l1 ++ l2) = live_idx i l1 ++ live_idx (i + Z.of_nat (length l1)) l2.
Proof.
  revert i. induction l1 as [|v l1 IH]; intros i; simpl; [by rewrite Z.add_0_r|].
  rewrite IH, app_assoc. do 2 f_equal. lia.
Qed.

Lemma live_idx_range i vs j : j ∈ live_idx i vs → i ≤ j < i + Z.of_nat (length vs).
Proof.
  revert i. induction vs as [|v vs IH]; intros i; simpl; [by intros ?%elem_of_nil|].
  intros [Hj|Hj%IH]%elem_of_app; [|lia].
  destruct (tvisnil v); [by apply elem_of_nil in Hj|]. apply list_elem_of_singleton in Hj. lia.
Qed.

Lemma live_idx_below na vs :
  0 ≤ na →
  countb (below na) (live_idx 0 vs) + count_live (drop (Z.to_nat na) vs) = count_live vs.
Proof.
  intros Hna.
  assert (count_live vs = count_live (take (Z.to_nat na) vs) + count_live (drop (Z.to_nat na) vs))
    as -> by (by rewrite <-count_live_app, take_drop).
  rewrite <-(take_drop (Z.to_nat na) vs) at 1. rewrite live_idx_app, countb_app.
  rewrite (countb_true _ (live_idx 0 _)), live_idx_length.
  - rewrite countb_false; [lia|]. intros j Hj%live_idx_range. apply Z.ltb_ge.
    rewrite length_take, length_drop in Hj. lia.
  - intros j Hj%live_idx_range. apply Z.ltb_lt. rewrite length_take in Hj. lia.
Qed.

Lemma bin_start_mono b : 0 ≤ b → bin_start b ≤ bin_start (b + 1).
Proof.
  intros Hb. unfold bin_start.
  assert (2 ^ b ≤ 2 ^ (b + 1)) by (apply Z.pow_le_mono_r; lia).
  pose proof (Z.pow_pos_nonneg 2 b). repeat case_test; bprop; lia.
Qed.

Lemma bin_start_double b : 0 ≤ b → bin_start (b + 1) = 2 * 2 ^ b + 1.
Proof.
  intros Hb. unfold bin_start. rewrite (proj2 (Z.eqb_neq _ _)), Z.pow_add_r; lia.
Qed.

(** Counting the next bin extends the histogram of the prefix seen so far. *)
Lemma hist_extend b i j arr bins :
  0 ≤ b < LJ_MAX_ABITS → 0 ≤ i ≤ j → j ≤ Z.of_nat (length arr) →
  (∀ x, i ≤ x < j → bin_of x = b) →
  hist bins (live_idx 0 (take (Z.to_nat i) arr)) →
  let n := count_live (take (Z.to_nat (j - i)) (drop (Z.to_nat i) arr)) in
  hist (bin_add b n bins) (live_idx 0 (take (Z.to_nat j) arr)) ∧
  count_live (take (Z.to_nat j) arr) = count_live (take (Z.to_nat i) arr) + n.
Proof.
  intros Hb Hij Hj Hbin Hh n. subst n.
  replace (Z.to_nat j) with (Z.to_nat i + Z.to_nat (j - i))%nat by lia.
  rewrite <-take_take_drop, live_idx_app, count_live_app. split; [|done].
  rewrite <-(live_idx_length (0 + Z.of_nat (length (take (Z.to_nat i) arr)))).
  apply hist_add; [done..|]. intros x Hx%live_idx_range. apply Hbin.
  rewrite !length_take, length_drop in Hx. lia.
Qed.

Lemma countarray_loop_hist steps arr b i na bins :
  0 ≤ b → b + Z.of_nat steps = LJ_MAX_ABITS → Z.of_nat (length arr) ≤ LJ_MAX_ASIZE →
  i = Z.min (Z.of_nat (length arr)) (bin_start b) →
  hist bins (live_idx 0 (take (Z.to_nat i) arr)) → na = count_live (take (Z.to_nat i) arr) →
  ∃ bins', countarray_loop steps arr b i na bins = (count_live arr, bins') ∧
    hist bins' (live_idx 0 arr).
Proof.
  revert b i na bins. induction steps as [|steps IH]; intros b i na bins Hb Hsteps Hlen Hi Hh ->.
  { exists bins. assert (b = LJ_MAX_ABITS) by lia.
    assert (Z.of_nat (length arr) ≤ bin_start b)
      by (subst b; unfold bin_start, LJ_MAX_ASIZE, LJ_MAX_ABITS in *; simpl in *; lia).
    rewrite take_ge in Hh |- * by lia. done. }
  pose proof (bin_start_mono b Hb). pose proof (bin_start_double b Hb) as Hd.
  assert (0 ≤ bin_start b) by (unfold bin_start; pose proof (Z.pow_pos_nonneg 2 b); case_test; lia).
  assert (∀ j, j = Z.min (Z.of_nat (length arr)) (bin_start (b + 1)) →
    ∃ bins', countarray_loop steps arr (b + 1) j
      (count_live (take (Z.to_nat i) arr) + count_live (take (Z.to_nat (j - i)) (drop (Z.to_nat i) arr)))
      (bin_add b (count_live (take (Z.to_nat (j - i)) (drop (Z.to_nat i) arr))) bins) =
      (count_live arr, bins') ∧ hist bins' (live_idx 0 arr)) as Hnext.
  { intros j Hj. destruct (hist_extend b i j arr bins) as [Hh' Hc]; try done; try lia.
    - intros x Hx. apply bin_of_start; lia.
    - apply IH; auto with lia. }
  simpl. destruct (Z.of_nat (length arr) <=? 2 * 2 ^ b) eqn:Eclip; bprop; simpl.
  - destruct (Z.of_nat (length arr) - 1 <? i) eqn:Estop; bprop; simpl.
    + exists bins. rewrite take_ge in Hh |- * by lia. done.
    + destruct (Hnext (Z.of_nat (length arr))) as (bins' & E & ?); [lia|]. exists bins'.
      rewrite Z.max_r, Z.sub_add by lia. done.
  - destruct (Hnext (2 * 2 ^ b + 1)) as (bins' & E & ?); [lia|]. exists bins'.
    rewrite Z.max_r by lia. done.
Qed.

Lemma countarray_hist t :
  asize t ≤ LJ_MAX_ASIZE →
  ∃ bins, countarray t no_bins = (count_live (array t), bins) ∧ hist bins (live_idx 0 (array t)).
Proof.
  intros Ha. unfold countarray. unfold asize in *. destruct (_ =? 0) eqn:E; bprop.
  - destruct (array t); [|simpl in E; lia]. exists no_bins. split; [done|apply hist_nil].
  - apply countarray_loop_hist; try done; try lia; [|apply hist_nil].
    unfold bin_start. simpl. lia.
Qed.

(** ** Keys of the hash part and the key to insert *)

Lemma array_key_spec k i :
  array_key k = Some i ↔ int_key k = Some i ∧ 0 ≤ i < LJ_MAX_ASIZE.
Proof.
  destruct k as [| | | |n]; simpl; try (split; [done|by intros [? _]]).
  unfold num_isint. pose proof (num2int_range n) as Hr. set (j := lj_num2int n) in *.
  assert ((u32 j <? LJ_MAX_ASIZE) = true ↔ 0 ≤ j < LJ_MAX_ASIZE) as Hu.
  { unfold in_s, u32, wrapu, LJ_MAX_ASIZE, LJ_MAX_ABITS in *. simpl in *. rewrite Z.ltb_lt.
    destruct (decide (0 ≤ j)); [rewrite Z.mod_small by lia; lia|].
    rewrite <-(Z.mod_unique j (2 ^ 32) (-1) (j + 2 ^ 32)); lia. }
  destruct (num_eq n (int2num j)); [|by rewrite andb_false_r; split; [|intros [? _]]].
  rewrite andb_true_r. destruct (u32 j <? LJ_MAX_ASIZE).
  - destruct Hu as [Hu _]. specialize (Hu eq_refl). split; [|by intros [? _]].
    intros E. split; [done|]. by injection E as <-.
  - split; [done|]. intros [E ?]. injection E as E. rewrite <-E in *. by discriminate (proj2 Hu).
Qed.

Lemma in_range_array_key na k :
  na ≤ LJ_MAX_ASIZE →
  in_range na k = match array_key k with Some i => below na i | None => false end.
Proof.
  intros Hna. unfold in_range, below. destruct (array_key k) as [i|] eqn:E.
  - apply array_key_spec in E as [-> ?]. by rewrite (proj2 (Z.leb_le 0 i)) by lia.
  - destruct (int_key k) as [i|] eqn:Ei; [|done]. apply not_true_iff_false.
    intros Hi. bprop. assert (array_key k = Some i) by (apply array_key_spec; auto with lia).
    congruence.
Qed.

Lemma countint_hist k bins L :
  hist bins L →
  ∃ bins', countint k bins = (Z.of_nat (length (option_list (array_key k))), bins') ∧
    hist bins' (L ++ option_list (array_key k)).
Proof.
  intros Hh. unfold countint. destruct (array_key k) as [i|] eqn:E; simpl.
  - eexists. split; [done|]. apply array_key_spec in E as [_ Hi]. apply bin_of_range in Hi.
    apply (hist_add _ [i]); [done|lia|]. by intros j ->%list_elem_of_singleton.
  - exists bins. by rewrite app_nil_r.
Qed.

Fixpoint hash_idx (ns : list Node) : list Z :=
  match ns with
  | [] => []
  | n :: ns' => (if tvisnil (val n) then [] else option_list (array_key (key n))) ++ hash_idx ns'
  end.

Lemma counthash_loop_hist ns total na bins L :
  hist bins L →
  ∃ bins', counthash_loop ns total na bins =
      (total + count_live (val <$> ns), na + Z.of_nat (length (hash_idx ns)), bins') ∧
    hist bins' (L ++ hash_idx ns).
Proof.
  revert total na bins L. induction ns as [|n ns IH]; intros total na bins L Hh; simpl.
  - exists bins. rewrite app_nil_r, !Z.add_0_r. done.
  - rewrite count_live_cons. destruct (tvisnil (val n)); simpl.
    + destruct (IH total na bins L Hh) as (bins' & -> & ?). by exists bins'.
    + destruct (countint_hist (key n) bins L Hh) as (bins1 & -> & H1).
      destruct (IH (total + 1) (na + Z.of_nat (length (option_list (array_key (key n)))))
        bins1 _ H1) as (bins' & -> & ?).
      exists bins'. rewrite length_app, app_assoc. split; [|done]. rewrite <-!Z.add_assoc, Nat2Z.inj_add. done.
Qed.

Lemma hash_idx_below na ns :
  na ≤ LJ_MAX_ASIZE →
  countb (below na) (hash_idx ns) + count_out na ns = count_live (val <$> ns).
Proof.
  intros Hna. induction ns as [|n ns IH]; [done|]. rewrite fmap_cons. cbn [hash_idx count_out]. rewrite countb_app, count_live_cons.
  rewrite in_range_array_key by done.
  destruct (tvisnil (val n)); simpl; [lia|].
  destruct (array_key (key n)) as [i|]; simpl; [destruct (below na i)|]; simpl; lia.
Qed.

Lemma hash_idx_keys ns : array_keys (hash_idx ns).
Proof.
  induction ns as [|n ns IH]; intros i; simpl; [by intros ?%elem_of_nil|].
  intros [Hi|Hi]%elem_of_app; [|by apply IH].
  destruct (tvisnil (val n)); [by apply elem_of_nil in Hi|].
  destruct (array_key (key n)) as [j|] eqn:E; simpl in Hi; [|by apply elem_of_nil in Hi].
  apply list_elem_of_singleton in Hi as ->. apply array_key_spec in E. tauto.
Qed.

(** ** The optimal size *)

(** Sizes the loop may return: the keys below the size are counted right. *)
Definition size_ok (L : list Z) (na sz : Z) : Prop :=
  na = countb (below sz) L ∧ 0 ≤ sz ≤ LJ_MAX_ASIZE.

Lemma bestasize_loop_ok L bins rest b sum na sz :
  hist bins L → array_keys L → 0 ≤ b ≤ LJ_MAX_ABITS → rest = drop (Z.to_nat b) bins →
  sum = countb (below (bin_start b)) L → size_ok L na sz →
  ∃ na' sz', bestasize_loop rest (Z.of_nat (length L)) b sum na sz = Some (na', sz') ∧
    size_ok L na' sz'.
Proof.
  intros [Hlen Hh] HL. revert b sum na sz.
  induction rest as [|c rest IH]; intros b sum na sz Hb Hrest -> Hok; simpl.
  - case_test; [|by exists na, sz]. bprop.
    assert (length bins ≤ Z.to_nat b)%nat by (by apply drop_nil_inv).
    assert (b = LJ_MAX_ABITS) by lia. subst b. by rewrite below_all in *.
  - case_test; [|by exists na, sz]. bprop.
    assert (bins !! Z.to_nat b = Some c) as Hc.
    { rewrite <-(Nat.add_0_r (Z.to_nat b)), <-lookup_drop, <-Hrest. done. }
    assert (Z.to_nat b < length bins)%nat as Hlt by (by apply lookup_lt_Some in Hc).
    assert (b < LJ_MAX_ABITS) by lia.
    assert (c = countb (in_bin b) L) as Ec by (rewrite Hh in Hc by lia; congruence).
    assert (rest = drop (Z.to_nat (b + 1)) bins) as Hrest'.
    { replace (Z.to_nat (b + 1)) with (S (Z.to_nat b)) by lia.
      apply (drop_S _ _ _ ) in Hc. congruence. }
    pose proof (below_start_succ b L ltac:(lia) HL) as Hs. rewrite <-Ec in Hs.
    pose proof (countb_nonneg (in_bin b) L).
    destruct (0 <? c) eqn:Ecp; bprop.
    + rewrite <-Hs. destruct (lj_pow2 b <? _); apply IH; try done; try lia.
      rewrite <-bin_start_double by lia. split; [done|].
      destruct (countb_pos (in_bin b) L) as (i & Hi & Hib); [lia|].
      unfold in_bin in Hib. apply Z.eqb_eq in Hib.
      pose proof (bin_of_range i (HL i Hi)). rewrite bin_start_double by lia.
      assert (2 ^ b ≤ 2 ^ (LJ_MAX_ABITS - 2)) by (apply Z.pow_le_mono_r; lia).
      unfold LJ_MAX_ASIZE, LJ_MAX_ABITS in *. pose proof (Z.pow_pos_nonneg 2 b).
      simpl in *. lia.
    + apply IH; try done; lia.
Qed.

Lemma bestasize_ok L bins :
  hist bins L → array_keys L →
  ∃ na sz, bestasize bins (Z.of_nat (length L)) = Some (na, sz) ∧ size_ok L na sz.
Proof.
  intros Hh HL. apply (bestasize_loop_ok L bins); try done.
  - symmetry. apply countb_false. intros i Hi%HL. apply Z.ltb_ge.
    unfold bin_start. simpl. lia.
  - split; [|done]. symmetry. apply countb_false. intros i Hi%HL. apply Z.ltb_ge. lia.
Qed.

Lemma hsize2hbits_ok s :
  0 ≤ s → 0 ≤ hsize2hbits s ∧ s ≤ (if hsize2hbits s =? 0 then 0 else 2 ^ hsize2hbits s) ∧
  (s ≤ 2 ^ LJ_MAX_HBITS → hsize2hbits s ≤ LJ_MAX_HBITS).
Proof.
  intros Hs. unfold hsize2hbits, lj_bsr, LJ_MAX_HBITS.
  destruct (s =? 0) eqn:E0; bprop; [subst s; simpl; lia|].
  destruct (s =? 1) eqn:E1; bprop; [subst s; simpl; lia|].
  pose proof (Z.log2_nonneg (s - 1)). destruct (Z.log2_spec (s - 1)) as [Hl Hu]; [lia|].
  rewrite (proj2 (Z.eqb_neq _ 0)), (Z.add_comm 1) by lia. unfold Z.succ in Hu.
  split_and!; [lia|lia|]. intros Hm.
  assert (Z.log2 (s - 1) < 26); [|lia]. apply Z.log2_lt_pow2; lia.
Qed.

(** ** Room after a rehash *)

Section Rehash.
Context `{ObjHeap}.

Definition extra (na : Z) (k : TValue) : Z := if in_range na k then 0 else 1.

(** The size of the hash part that a rehash for [k] asks for fits every pair. *)
Record sizes_ok (t : GCtab) (k : TValue) (na hb : Z) : Prop := {
  sz_na : 0 ≤ na ≤ LJ_MAX_ASIZE;
  sz_hb : 0 ≤ hb;
  sz_room : outside t na + extra na k ≤ if hb =? 0 then 0 else 2 ^ hb;
  sz_over : LJ_MAX_HBITS < hb →
    2 ^ LJ_MAX_HBITS ≤ asize t + hmask t + 1 ∧
    (na = asize t ∨ 2 ^ LJ_MAX_HBITS < outside t na + extra na k)
}.

Lemma count_out_length na ns : count_out na ns ≤ Z.of_nat (length ns).
Proof. induction ns; simpl; [done|]. case_test; lia. Qed.

Lemma count_out_full na ns :
  count_out na ns = Z.of_nat (length ns) → ∀ i n, ns !! i = Some n → in_range na (key n) = false.
Proof.
  induction ns as [|m ns IH]; [done|]. cbn [count_out length]. intros E [|i] n Hn; simpl in Hn.
  - injection Hn as ->. pose proof (count_out_length na ns).
    destruct (in_range na (key n)); [|done]. rewrite andb_false_r in E. lia.
  - apply (IH) with i; [|done]. pose proof (count_out_length na ns). revert E. case_test; lia.
Qed.

Lemma outside_bound t na : twf t → outside t na ≤ asize t + hmask t + 1.
Proof.
  intros W. unfold outside, asize. pose proof (count_out_length na (node t)).
  pose proof (hw_len _ _ (tw_hash _ W)).
  pose proof (count_live_length (drop (Z.to_nat na) (array t))). rewrite length_drop in *. lia.
Qed.

Lemma outside_nonneg t na : 0 ≤ outside t na.
Proof.
  unfold outside. pose proof (count_live_nonneg (drop (Z.to_nat na) (array t))).
  pose proof (count_out_nonneg na (node t)). lia.
Qed.

Lemma rehash_sizes_int t k :
  twf t → tvisint k = true → ∃ na hb, rehash_sizes t k = Some (na, hb) ∧ sizes_ok t k na hb.
Proof.
  intros W Hk. unfold rehash_sizes. rewrite Hk. pose proof (tw_asize _ W) as Ha.
  destruct (countarray_hist t Ha) as (bins0 & -> & H0). unfold counthash.
  destruct (counthash_loop_hist (node t) 0 0 bins0 _ H0) as (bins1 & -> & H1). rewrite !Z.add_0_l.
  destruct (countint_hist k bins1 _ H1) as (bins2 & -> & H2).
  set (L := (live_idx 0 (array t) ++ hash_idx (node t)) ++ option_list (array_key k)) in *.
  assert (array_keys L) as HL.
  { intros i [[Hi|Hi]%elem_of_app|Hi]%elem_of_app.
    - apply live_idx_range in Hi. unfold asize in Ha. lia.
    - by apply hash_idx_keys in Hi.
    - destruct (array_key k) as [j|] eqn:Ej; simpl in Hi; [|by apply elem_of_nil in Hi].
      apply list_elem_of_singleton in Hi as ->. apply array_key_spec in Ej. tauto. }
  replace (count_live (array t) + Z.of_nat (length (hash_idx (node t))) +
    Z.of_nat (length (option_list (array_key k)))) with (Z.of_nat (length L)).
  2:{ unfold L. rewrite !length_app, <-(live_idx_length 0). lia. }
  destruct (bestasize_ok L bins2 H2 HL) as (na & sz & -> & -> & Hsz). simpl.
  eexists _, _. split; [done|].
  assert (1 + count_live (array t) + count_live (val <$> node t) - countb (below sz) L =
    outside t sz + extra sz k) as ->.
  { unfold L, outside, extra. rewrite !countb_app, in_range_array_key by lia.
    pose proof (live_idx_below sz (array t)). pose proof (hash_idx_below sz (node t)).
    destruct (array_key k) as [i|]; simpl; [destruct (below sz i)|]; lia. }
  assert (0 ≤ extra sz k ≤ 1) by (unfold extra; case_test; lia).
  pose proof (outside_nonneg t sz). pose proof (outside_bound t sz W).
  destruct (hsize2hbits_ok (outside t sz + extra sz k)) as (? & ? & Hov); [lia|].
  split; [done..|]. intros Hlt.
  assert (2 ^ LJ_MAX_HBITS < outside t sz + extra sz k); [|split; [lia|by right]].
  apply Z.nle_gt. intros Hle. specialize (Hov Hle). lia.
Qed.

Lemma ffs_pos_pow2 b : 0 ≤ b → lj_ffs (2 ^ b) = b + 1.
Proof.
  revert b. apply natlike_ind; [done|]. intros b Hb IH.
  rewrite Z.pow_succ_r by done. pose proof (Z.pow_pos_nonneg 2 b ltac:(lia) Hb).
  destruct (2 ^ b) as [|p|p]; [lia| |lia].
  change (1 + lj_ffs (Z.pos p) = Z.succ b + 1). lia.
Qed.

Lemma rehash_sizes_gen t k :
  twf t → tvisint k = false →
  ∃ hb, rehash_sizes t k = Some (asize t, hb) ∧ sizes_ok t k (asize t) hb.
Proof.
  intros W Hk. unfold rehash_sizes. rewrite Hk. eexists. split; [done|].
  destruct (hw_pow _ _ (tw_hash _ W)) as (b & Hb & Eb). rewrite Eb, ffs_pos_pow2 by done.
  pose proof (tw_asize _ W). assert (0 ≤ asize t) by (unfold asize; lia).
  assert (0 ≤ extra (asize t) k ≤ 1) by (unfold extra; case_test; lia).
  pose proof (Z.pow_pos_nonneg 2 b ltac:(lia) Hb).
  split; [done|lia| |].
  - rewrite (proj2 (Z.eqb_neq _ 0)), Z.pow_add_r by lia. change (2 ^ 1) with 2. unfold outside.
    rewrite drop_ge by (unfold asize; lia). pose proof (count_out_length (asize t) (node t)).
    pose proof (hw_len _ _ (tw_hash _ W)). change (count_live []) with 0. lia.
  - intros Hlt. pose proof (tw_hmask _ W).
    assert (2 ^ LJ_MAX_HBITS ≤ 2 ^ b) by (apply Z.pow_le_mono_r; lia). split; [lia|by left].
Qed.

Lemma rehash_sizes_ok t k :
  twf t → ∃ na hb, rehash_sizes t k = Some (na, hb) ∧ sizes_ok t k na hb.
Proof.
  intros W. destruct (tvisint k) eqn:Ek; [by apply rehash_sizes_int|].
  destruct (rehash_sizes_gen t k W Ek) as (hb & ? & ?). eauto.
Qed.

End Rehash.
End TabRehash.
