(* ===== verification/TabSpec.v ===== *)
(** * What a table promises

    The abstract view of a table is the map [ref_get t] from keys to values.
    Setters return the slot of their key in a table with the same map, whether
    or not they had to rehash ([located]); the only error left for a valid key
    on a mutable table is the overflow of the hash part. *)

From stdpp Require Import base decidable list numbers option sets.
From Stdlib Require Import ZArith Lia.
From S2P Require Import Prelude Obj Tab TabChain TabWf TabPut TabResize TabRehash.

Local Open Scope Z_scope.

Module TabSpec.
Import Obj Tab TabChain TabWf TabPut TabResize TabRehash.

Section Spec.
Context `{ObjHeap}.

(** ** Setters that may rehash *)

Definition same_map (t t' : GCtab) : Prop :=
  ∀ k v, key_ok k → canon k → tlive t' k v ↔ tlive t k v.

Record located (t : GCtab) (k : TValue) (s : slot) (t' : GCtab) : Prop := {
  lo_wf : twf t';
  lo_mut : mutable t';
  lo_slot : slot_for t' k s;
  lo_live : same_map t t'
}.

(** Tables whose two parts are so large that a rehash may overflow. *)
Definition huge (t : GCtab) : Prop := 2 ^ LJ_MAX_HBITS ≤ asize t + hmask t + 1.

(** The overflow error: only on a huge table, which keeps its map. *)
Definition overflows {A} (t : GCtab) (r : outcome A) : Prop :=
  ∃ t', r = Throw UJ_ERR_TABOV t' ∧ huge t ∧ twf t' ∧ mutable t' ∧ same_map t t'.

(** A setter run: the slot of the key, or the overflow of a huge table. *)
Definition sets (t : GCtab) (k : TValue) (r : outcome slot) : Prop :=
  (∃ s t', r = Ret s t' ∧ located t k s t') ∨ overflows t r.

Lemma set_result_located t k s t' : set_result t k s t' → located t k s t'.
Proof. intros R. split; try apply R. intros k0 v0 _ _. by eapply set_result_tlive. Qed.

(** An array part that grew over no key of the hash part. *)
Lemma grown_same t na c :
  twf t → mutable t → asize t ≤ na ≤ LJ_MAX_ASIZE →
  (∀ i n, node t !! i = Some n → in_range na (key n) = false) →
  let t' := set_array c (array t ++ replicate (Z.to_nat (na - asize t)) TNil) t in
  twf t' ∧ mutable t' ∧ same_map t t'.
Proof.
  intros W Hmut Hna Hout t'.
  assert (asize t' = na) as Ea.
  { unfold asize in *. simpl. rewrite length_app, length_replicate. lia. }
  split_and!; [|done|].
  - split; try apply W; [|lia]. intros i n Hn. apply arr_index_range; [lia|].
    rewrite Ea. eauto.
  - intros k v Hk Hc. rewrite !tlive_parts by (done || lia). simpl. rewrite array_pairs_app.
    pose proof (array_pairs_nils (0 + Z.of_nat (length (array t)))
      (Z.to_nat (na - asize t)) k v). tauto.
Qed.

Lemma full_outside t na k :
  twf t → asize t ≤ na → 2 ^ LJ_MAX_HBITS < outside t na + extra na k →
  ∀ i n, node t !! i = Some n → in_range na (key n) = false.
Proof.
  intros W Hna Hlt. apply count_out_full.
  pose proof (count_out_length na (node t)). pose proof (hw_len _ _ (tw_hash _ W)).
  pose proof (tw_hmask _ W). unfold outside in Hlt.
  rewrite drop_ge in Hlt by (unfold asize in Hna; lia). change (count_live []) with 0 in Hlt.
  assert (extra na k ≤ 1) by (unfold extra; case_test; lia). lia.
Qed.

Lemma rehashtab_spec d k t :
  twf t → mutable t →
  (∃ t', rehashtab (lj_tab_newkey d) k t = Ret () t' ∧ twf t' ∧ mutable t' ∧ same_map t t' ∧
     (arr_index t' k = None → nkeys (node t') < cap (hmask t'))) ∨
  overflows t (rehashtab (lj_tab_newkey d) k t).
Proof.
  intros W Hmut. unfold rehashtab.
  destruct (rehash_sizes_ok t k W) as (na & hb & -> & [Hna Hhb Hroom Hover]).
  assert (0 ≤ extra na k) by (unfold extra; case_test; lia).
  destruct (decide (hb ≤ LJ_MAX_HBITS)) as [Hle|Hgt].
  - left. destruct (resizetab_resized d na hb t) as (t' & -> & [W' ? Ea Eh Hk ?]); auto; [lia|].
    exists t'. split_and!; auto. intros Hi.
    rewrite (arr_index_range t' k (tw_asize _ W')), Ea in Hi.
    unfold extra in Hroom. rewrite Hi in Hroom.
    assert (cap (hmask t') = if hb =? 0 then 0 else 2 ^ hb); [|lia].
    rewrite Eh. by apply (cap_rehashed hb t).
  - right. destruct Hover as [Hh Hwhy]; [lia|].
    unfold resizetab, M_bind at 1, get, M_bind at 1.
    destruct (asize t <? na) eqn:Eg; bprop; [unfold grow_array|unfold M_ret at 1].
    + rewrite (proj2 (Z.ltb_ge LJ_MAX_ASIZE na)) by lia. unfold M_bind at 1.
      rewrite newhpart_overflow by lia. eexists. split; [done|]. split; [done|].
      apply grown_same; auto; [lia|]. destruct Hwhy as [->|Hwhy]; [lia|].
      apply (full_outside _ _ k); auto; lia.
    + unfold M_bind at 1. rewrite newhpart_overflow by lia.
      eexists. split_and!; [done..|]. intros k0 v0 _ _. done.
Qed.

Lemma located_trans t1 t2 k s t3 :
  same_map t1 t2 → located t2 k s t3 → located t1 k s t3.
Proof.
  intros E [? ? ? L]. split; auto. intros k0 v0 Hk Hc. rewrite (L k0 v0 Hk Hc). by apply E.
Qed.

(** Inserting a key the table does not have, rehashing when it is full. *)
Lemma newkey_sets d k t :
  twf t → mutable t → key_ok k → arr_index t k = None → fresh (norm_key k) (node t) →
  sets t k (lj_tab_newkey (S d) k t).
Proof.
  intros W Hmut Hk Ha Hf.
  destruct (lookup_lt_is_Some_2 (node t) (hashkey (hmask t) k)) as [nn Hnn];
    [apply hashkey_lt, W|].
  destruct (decide (hmask t ≠ 0 ∧ (val nn = TNil ∨ is_Some (find_free (node t) (freetop t)))))
    as [[Hh Hroom]|Hfull].
  - left. destruct (decide (val nn = TNil)) as [Hv|Hv].
    + destruct (newkey_main (S d) k t nn) as (s & t' & -> & R); eauto using set_result_located.
    + destruct (newkey_collide (S d) k t nn) as (s & t' & -> & R); eauto using set_result_located.
      tauto.
  - assert (lj_tab_newkey (S d) k t =
      (rehashtab (lj_tab_newkey d) k >>> lj_tab_set (lj_tab_newkey d) k)%vela t) as ->.
    { cbn [lj_tab_newkey]. rewrite Hmut, Hnn.
      assert (find_free (node t) (freetop t) = None) as ->.
      { destruct (find_free (node t) (freetop t)) eqn:Ef; [|done]. destruct Hfull. split; [|eauto].
        intros E. pose proof (tw_free _ W) as Hft. unfold freetop_ok in Hft. rewrite E in Hft.
        simpl in Hft. destruct Hft as [_ Hft]. by rewrite Hft in Ef. }
      destruct (negb (tvisnil (val nn)) || (hmask t =? 0)) eqn:E; [done|]. bprop.
      destruct Hfull. split; [done|]. left. by destruct (val nn). }
    destruct (rehashtab_spec d k t W Hmut) as [(t1 & E & W1 & Hm1 & Hs1 & Hr1)|(t1 & E & Hov)];
      unfold M_bind; rewrite E.
    + left. destruct (lj_tab_set_result d t1 k) as (s & t2 & -> & R); auto.
      exists s, t2. split; [done|]. by eapply located_trans, set_result_located.
    + right. by exists t1.
Qed.

Lemma found_or_sets d k t r :
  twf t → mutable t → key_ok k → arr_index t k = None → found_at (node t) (norm_key k) r →
  sets t k (found_or (lj_tab_newkey (S d)) k r t).
Proof.
  intros W Hmut Hk Ha [(j & n & Hn & Hkn & ->)|[Hf ->]]; simpl.
  - left. exists (HSlot j), t. split; [done|]. split; auto; [simpl; eauto|].
    intros k0 v0 _ _. done.
  - by apply newkey_sets.
Qed.

Lemma located_refl_array t k i :
  twf t → mutable t → arr_index t k = Some i → located t k (ASlot i) t.
Proof. intros. split; auto. intros k0 v0 _ _. done. Qed.

Lemma sets_norm t k k' r :
  norm_key k = norm_key k' → key_ok k → key_ok k' → sets t k r → sets t k' r.
Proof.
  intros E Hk Hk' [(s & t' & -> & [? ? Hs ?])|?]; [left|by right].
  exists s, t'. split; [done|]. split; auto.
  assert (arr_index t' k' = arr_index t' k) as Ea.
  { by rewrite <-(arr_index_norm _ k), E, arr_index_norm. }
  destruct s; simpl in *; rewrite Ea, <-?E; done.
Qed.

Section Setters.
Context (d : nat) (t : GCtab) (W : twf t) (Hmut : mutable t).

Lemma lj_tab_setint_sets i :
  in_s 32 i → sets t (TNum (int2num i)) (lj_tab_setint (lj_tab_newkey (S d)) i t).
Proof.
  intros Hi. unfold lj_tab_setint, check_mutable. rewrite Hmut.
  assert (int_key (TNum (int2num i)) = Some i) as Ei
    by (simpl; by rewrite num_isint_int2num, num2int_int2num).
  destruct (inarray t i) eqn:E.
  - left. eexists _, _. split; [done|]. apply located_refl_array; auto.
    unfold arr_index. by rewrite Ei, E.
  - unfold lj_tab_setinth, check_mutable. rewrite Hmut. apply found_or_sets; auto.
    + by apply int2num_key_ok.
    + unfold arr_index. by rewrite Ei, E.
    + rewrite norm_int by done. by apply getinth_found.
Qed.

Lemma lj_tab_setstr_sets s :
  key_ok (TGCV GT_STR s) → sets t (TGCV GT_STR s) (lj_tab_setstr (lj_tab_newkey (S d)) s t).
Proof.
  intros Hk. unfold lj_tab_setstr, check_mutable. rewrite Hmut.
  apply found_or_sets; auto. by apply getstr_found.
Qed.

Lemma setgen_sets k :
  key_ok k → arr_index t k = None →
  sets t k (found_or (lj_tab_newkey (S d)) k (lj_tab_getgen t k) t).
Proof. intros. apply found_or_sets; auto using getgen_found. Qed.

(** [lj_tab_set] after its dispatch on the kind of key. *)
Lemma set_dispatch_sets k :
  key_ok k →
  sets t k (match k with
    | TGCV GT_STR s => lj_tab_setstr (lj_tab_newkey (S d)) s
    | TNum n =>
        if num_isint n then lj_tab_setint (lj_tab_newkey (S d)) (lj_num2int n)
        else if tvisnan n then uj_err UJ_ERR_NANIDX
        else found_or (lj_tab_newkey (S d)) k (lj_tab_getgen t k)
    | TNil => uj_err UJ_ERR_NILIDX
    | _ => found_or (lj_tab_newkey (S d)) k (lj_tab_getgen t k)
    end t).
Proof.
  intros Hk. destruct k as [|b|p|g p|n]; [by destruct Hk|..].
  - by apply setgen_sets.
  - by apply setgen_sets.
  - destruct g; try by apply setgen_sets. by apply lj_tab_setstr_sets.
  - destruct Hk as [Hnil [Hn Hnan]]. destruct (num_isint n) eqn:Ei.
    + pose proof (num2int_range n) as Hi.
      eapply sets_norm; [| | |by apply lj_tab_setint_sets].
      * rewrite norm_int by done. simpl. by rewrite (num_isint_norm n).
      * by apply int2num_key_ok.
      * done.
    + rewrite Hnan. apply setgen_sets; [done|]. unfold arr_index. simpl. by rewrite Ei.
Qed.

End Setters.

Lemma lj_tab_set_sets d t k :
  twf t → mutable t → key_ok k → sets t k (lj_tab_set (lj_tab_newkey (S d)) k t).
Proof.
  intros W Hmut Hk. unfold lj_tab_set, check_mutable. rewrite Hmut.
  pose proof (set_dispatch_sets d (set_nomm 0 t) (twf_set_nomm 0 t W) Hmut k Hk) as D.
  destruct D as [(s & t' & E & [? ? ? L])|(t' & E & Hh)].
  - left. exists s, t'. split; [exact E|]. split; auto.
  - right. exists t'. split; [exact E|exact Hh].
Qed.

(** ** From the live pairs to lookups *)

Lemma hval_livepair nd k v :
  nodes_ok nd → k ≠ TNil → (hval nd k = v ∧ v ≠ TNil) ↔ livepair nd k v.
Proof.
  intros [_ B] Hk. split.
  - intros [Hv Hn]. unfold hval in Hv. destruct (list_find _ nd) as [[i m]|] eqn:E; [|congruence].
    apply list_find_Some in E as (Hm & Hkm & _). by exists i, m.
  - intros (i & n & Hn & Hkn & <- & Hv). split; [|done]. eapply hval_found; eauto.
    intros j m Hm E. symmetry. eapply B; eauto; congruence.
Qed.

Lemma ref_get_norm t k : key_ok k → ref_get t (norm_key k) = ref_get t k.
Proof.
  intros Hk. destruct (norm_key_ok k Hk) as [_ Hc]. unfold ref_get.
  rewrite arr_index_norm, Hc by done. by destruct k.
Qed.

Lemma ref_get_tlive t k v :
  twf t → key_ok k → canon k → (ref_get t k = v ∧ v ≠ TNil) ↔ tlive t k v.
Proof.
  intros W Hk Hc. pose proof (hwf_nodes_ok _ _ (tw_hash _ W)) as Hok.
  assert (ref_get t k = match arr_index t k with
    | Some i => default TNil (array t !! i) | None => hval (node t) k end) as ->.
  { unfold ref_get. rewrite Hc. by destruct k; [destruct Hk|..]. }
  unfold tlive. destruct (arr_index t k) as [i|] eqn:Ei.
  - split.
    + intros [Hv Hn]. left. exists i. split_and!; [done| |done].
      destruct (array t !! i); simpl in Hv; congruence.
    + intros [(j & Hj & Hv & Hn)|(j & n & Hn & Hkn & _)].
      * injection Hj as <-. by rewrite Hv.
      * pose proof (tw_disj _ W _ _ Hn). congruence.
  - rewrite hval_livepair by (done || apply Hk). split; [by right|].
    intros [(j & Hj & _)|?]; done.
Qed.

(** Two tables with the same live pairs at a key agree on it. *)
Lemma ref_get_agree t t' k :
  twf t → twf t' → key_ok k → canon k → (∀ v, tlive t' k v ↔ tlive t k v) →
  ref_get t' k = ref_get t k.
Proof.
  intros W W' Hk Hc E. destruct (decide (ref_get t k = TNil)) as [Hn|Hn].
  - rewrite Hn. destruct (decide (ref_get t' k = TNil)) as [|Hn']; [done|].
    assert (tlive t k (ref_get t' k)) as Hl by (apply E, ref_get_tlive; done).
    apply ref_get_tlive in Hl as [? _]; congruence.
  - assert (tlive t' k (ref_get t k)) as Hl by (apply E, ref_get_tlive; done).
    by apply ref_get_tlive in Hl as [? _].
Qed.

Lemma obj_equal_norm k0 k :
  key_ok k0 → key_ok k → uj_obj_equal k0 k = true ↔ norm_key k0 = norm_key k.
Proof.
  intros Hk0 Hk. destruct k0 as [|b|p|g p|n0]; try (apply uj_obj_equal_spec; [by right|done]).
  destruct k as [|b|p|g p|n]; simpl; try (split; congruence).
  destruct Hk0 as [_ [? ?]], Hk as [_ [? ?]]. rewrite num_eq_norm by done. split; congruence.
Qed.

(** Keys that cannot be stored read nil and equal no valid key. *)
Lemma bad_key_get t k :
  twf t → tv_ok k → ¬ key_ok k → ref_get t k = TNil ∧ ∀ k', key_ok k' → uj_obj_equal k k' = false.
Proof.
  intros W Ht Hbad. destruct (decide (k = TNil)) as [->|Hk].
  { split; [done|]. intros k' [Hk' _]. by destruct k'. }
  destruct (bad_key_shape k Ht Hbad Hk) as (_ & Hi & _). split.
  - pose proof (hval_bad t k W Ht Hbad Hk) as Hv. unfold ref_get, arr_index. rewrite Hi.
    by destruct k.
  - intros k' Hok. apply not_true_iff_false. intros E. destruct Hbad.
    destruct k as [|b|p|g p|n], k' as [|b'|p'|g' p'|n']; try done; simpl in E.
    + by apply Bool.eqb_true_iff in E as ->.
    + by apply Z.eqb_eq in E as ->.
    + apply andb_prop in E as [E1%bool_decide_eq_true E2%Z.eqb_eq]. by rewrite E1, E2.
    + split; [done|]. split; [done|]. unfold num_eq in E. by destruct (tvisnan n).
Qed.

(** ** Storing a value under a key *)

(** The map [f] updated at [k]: the key is compared as the code compares keys. *)
Definition map_put (f : TValue → TValue) (k v : TValue) : TValue → TValue :=
  λ k0, if uj_obj_equal k0 k then v else f k0.

(** A run that stores [v] under [k]. *)
Definition stores (t : GCtab) (k v : TValue) (r : outcome ()) : Prop :=
  (∃ t', r = Ret () t' ∧ twf t' ∧ mutable t' ∧
     ∀ k0, tv_ok k0 → lj_tab_get t' k0 = Some (map_put (ref_get t) k v k0)) ∨
  (∃ t', r = Throw UJ_ERR_TABOV t' ∧ huge t ∧ twf t' ∧ mutable t' ∧
     ∀ k0, tv_ok k0 → lj_tab_get t' k0 = lj_tab_get t k0).

(** Tables with the same live pairs have the same lookups. *)
Lemma same_map_get t t' :
  twf t → twf t' → same_map t t' → ∀ k, tv_ok k → ref_get t' k = ref_get t k.
Proof.
  intros W W' E k Ht. destruct (key_ok_dec k) as [Hk|Hbad].
  - rewrite <-(ref_get_norm t'), <-(ref_get_norm t) by done.
    destruct (norm_key_ok k Hk) as [Hk1 Hc1]. apply ref_get_agree; auto.
  - destruct (bad_key_get t k W Ht Hbad) as [-> _].
    by destruct (bad_key_get t' k W' Ht Hbad).
Qed.

Lemma put_result_get t k v t' :
  twf t → key_ok k → put_result t k v t' →
  ∀ k0, tv_ok k0 → ref_get t' k0 = map_put (ref_get t) k v k0.
Proof.
  intros W Hk R k0 Ht. pose proof (pr_wf _ _ _ _ R) as W'. unfold map_put.
  destruct (key_ok_dec k0) as [Hk0|Hbad].
  2:{ destruct (bad_key_get t k0 W Ht Hbad) as [-> Hne]. rewrite Hne by done.
      by destruct (bad_key_get t' k0 W' Ht Hbad). }
  rewrite <-(ref_get_norm t'), <-(ref_get_norm t) by done.
  pose proof (obj_equal_norm k0 k Hk0 Hk) as He.
  destruct (norm_key_ok k0 Hk0) as [Hk1 Hc1].
  destruct (uj_obj_equal k0 k) eqn:E.
  - destruct He as [He _]. specialize (He eq_refl).
    destruct (decide (v = TNil)) as [->|Hv].
    + destruct (decide (ref_get t' (norm_key k0) = TNil)) as [|Hn]; [done|].
      assert (tlive t' (norm_key k0) (ref_get t' (norm_key k0))) as Hl by (by apply ref_get_tlive).
      rewrite (pr_live _ _ _ _ R) in Hl by done. tauto.
    + assert (tlive t' (norm_key k0) v) as Hl by (rewrite (pr_live _ _ _ _ R) by done; auto).
      by apply ref_get_tlive in Hl as [? _].
  - assert (norm_key k0 ≠ norm_key k) by (intros En; by apply He in En).
    apply ref_get_agree; auto. intros v0. rewrite (pr_live _ _ _ _ R) by done. tauto.
Qed.

(** [located] with a store, as [put_result] gives it for the located table. *)
Lemma sets_stores t k v m :
  twf t → key_ok k → sets t k (m t) → stores t k v ((let! s := m in store s v)%vela t).
Proof.
  intros W Hk [(s & t1 & E & [W1 Hm1 Hs L])|(t1 & E & Hh)]; unfold M_bind; rewrite E.
  - left. assert (put_result t1 k v (slot_write v s t1)) as R.
    { apply store_result; [done|]. split; auto; try done. case_test; lia. }
    exists (slot_write v s t1). split; [done|]. split; [apply R|]. split; [apply R|].
    intros k0 Ht. rewrite get_is_ref by (done || apply R). f_equal.
    rewrite (put_result_get t1 k v) by done. unfold map_put.
    by rewrite (same_map_get t t1).
  - right. destruct Hh as (Hh & W1 & Hm1 & L). exists t1. split_and!; auto.
    intros k0 Ht. rewrite !get_is_ref by done. f_equal. by apply same_map_get.
Qed.

Lemma tab_put_stores t k v : twf t → mutable t → key_ok k → stores t k v (tab_put k v t).
Proof. intros. apply sets_stores; auto. by apply lj_tab_set_sets. Qed.

(** ** Histories *)

(** The code of a client that performs the assignments of a list in order. *)
Fixpoint run_puts (l : list (TValue * TValue)) : M () :=
  match l with
  | [] => M_ret ()
  | (k, v) :: l' => (tab_put k v >>> run_puts l')%vela
  end.

(** The map after these assignments: the last one to a key wins. *)
Definition map_puts (f : TValue → TValue) (l : list (TValue * TValue)) : TValue → TValue :=
  foldl (λ f kv, map_put f kv.1 kv.2) f l.

Lemma map_puts_ext l f g k :
  f k = g k → map_puts f l k = map_puts g l k.
Proof.
  unfold map_puts. revert f g. induction l as [|[k' v'] l IH]; intros f g E; simpl; [done|].
  apply IH. unfold map_put. by rewrite E.
Qed.

Lemma run_puts_spec l t :
  twf t → mutable t → (∀ k v, (k, v) ∈ l → key_ok k) →
  (∃ t', run_puts l t = Ret () t' ∧ twf t' ∧ mutable t' ∧
     ∀ k0, tv_ok k0 → lj_tab_get t' k0 = Some (map_puts (ref_get t) l k0)) ∨
  (∃ t', run_puts l t = Throw UJ_ERR_TABOV t').
Proof.
  revert t. induction l as [|[k v] l IH]; intros t W Hmut Hl; simpl.
  { left. exists t. split_and!; auto. intros. by apply get_is_ref. }
  unfold M_bind.
  destruct (tab_put_stores t k v) as [(t1 & -> & W1 & Hm1 & G1)|(t1 & -> & _)]; auto.
  - apply (Hl k v). by left.
  - destruct (IH t1 W1 Hm1) as [(t2 & -> & W2 & Hm2 & G2)|(t2 & ->)]; [|left|right; by eexists].
    + intros k' v' Hin. apply (Hl k' v'). by right.
    + exists t2. split_and!; auto. intros k0 Hk0. rewrite G2 by done. f_equal.
      apply map_puts_ext. specialize (G1 k0 Hk0). rewrite get_is_ref in G1 by done. congruence.
  - right. eauto.
Qed.

(** ** Creation *)

(** A fresh table: [a] array slots and [2 ^ h] nodes, all unset. *)
Definition fresh_tab (a h : Z) (t : GCtab) : Prop :=
  twf t ∧ mutable t ∧ asize t = a ∧ hmask t = 2 ^ h - 1 ∧ metatable t = None ∧
  ∀ k, ref_get t k = TNil.

Lemma rehashed_fresh a h c :
  0 ≤ a ≤ LJ_MAX_ASIZE → 0 ≤ h ≤ LJ_MAX_HBITS →
  fresh_tab a h (rehashed h (set_array c (replicate (Z.to_nat a) TNil)
    (MkTab 0 0xff 0 None [] [empty_node] 0 0))).
Proof.
  intros Ha Hh. set (t := rehashed _ _).
  assert (asize t = a) as Ea by (unfold asize; simpl; rewrite length_replicate; lia).
  split_and!; [apply twf_rehashed; [done|]; unfold asize; simpl; rewrite length_replicate; lia|
    done|done|done|done|].
  intros k.
  assert (∀ k', hval (node t) k' = TNil) as Hn.
  { intros k'. unfold hval. destruct (list_find _ _) as [[i n]|] eqn:E; [|done].
    apply list_find_Some in E as ([-> _]%lookup_replicate & _). done. }
  unfold ref_get. destruct k; [done|..]; (destruct (arr_index t _) as [i|]; [|apply Hn]);
    simpl; (destruct (replicate _ TNil !! i) eqn:E; [|done]); apply lookup_replicate in E as [-> _]; done.
Qed.

Lemma newtab_fresh a h :
  0 ≤ a ≤ LJ_MAX_ASIZE → 0 ≤ h ≤ LJ_MAX_HBITS →
  ∃ t, newtab a h = Ret () t ∧ fresh_tab a h t.
Proof.
  intros Ha Hh. unfold newtab. destruct ((0 <? a) && (a <=? LJ_MAX_COLOSIZE)).
  - rewrite newhpart_rehashed by done. eexists. split; [done|]. by apply rehashed_fresh.
  - rewrite (proj2 (Z.ltb_ge _ _)) by lia. rewrite newhpart_rehashed by done.
    eexists. split; [done|]. by apply rehashed_fresh.
Qed.

(** An array of nils and no hash part. *)
Lemma newtab_array a :
  0 ≤ a ≤ LJ_MAX_ASIZE →
  ∃ t, newtab a 0 = Ret () t ∧ twf t ∧ array t = replicate (Z.to_nat a) TNil.
Proof.
  intros Ha. unfold newtab. destruct ((0 <? a) && (a <=? LJ_MAX_COLOSIZE)).
  - rewrite newhpart_rehashed by done. eexists. split; [done|].
    split; [by apply rehashed_fresh|done].
  - rewrite (proj2 (Z.ltb_ge _ _)) by lia. rewrite newhpart_rehashed by done.
    eexists. split; [done|]. split; [by apply rehashed_fresh|done].
Qed.

End Spec.
End TabSpec.
