(* ===== verification/TabTheorems.v ===== *)
(** * The theorems on tables

    Correctness of lookup, assignment, creation, duplication and resizing of
    tables, each with an application to a concrete table. *)

From stdpp Require Import base decidable list numbers option sets.
From Stdlib Require Import ZArith Lia.
From S2P Require Import Prelude Obj Tab TabChain TabWf TabPut TabResize TabRehash TabSpec.

Local Open Scope Z_scope.

Module TabTheorems.
Import Obj Tab TabChain TabWf TabPut TabResize TabRehash TabSpec.

Section Lemmas.
Context `{ObjHeap}.

(** [lj_bsr(hmask) + 1], or 0 without a hash part, is the size of the hash part. *)
Lemma hmask_hbits t :
  twf t → ∃ b, 0 ≤ b ≤ LJ_MAX_HBITS ∧ hmask t = 2 ^ b - 1 ∧
    (if 0 <? hmask t then lj_bsr (hmask t) + 1 else 0) = b.
Proof.
  intros W. destruct (hw_pow _ _ (tw_hash _ W)) as (b & Hb & Eb). pose proof (tw_hmask _ W) as Hm.
  exists b. assert (b ≤ LJ_MAX_HBITS).
  { apply Z.nlt_ge. intros Hlt. assert (2 ^ LJ_MAX_HBITS < 2 ^ b) by (apply Z.pow_lt_mono_r; lia).
    lia. }
  split_and!; [done..|lia|]. destruct (decide (b = 0)) as [->|Hne].
  - change (2 ^ 0) with 1 in Eb. replace (hmask t) with 0 by lia. done.
  - assert (2 ≤ 2 ^ b) by (change 2 with (2 ^ 1) at 1; apply Z.pow_le_mono_r; lia).
    rewrite (proj2 (Z.ltb_lt _ _)) by lia. unfold lj_bsr. replace (hmask t) with (Z.pred (2 ^ b)) by lia.
    rewrite Z.log2_pred_pow2; lia.
Qed.

Lemma count_out_cap t na : twf t → count_out na (node t) ≤ cap (hmask t).
Proof.
  intros W. unfold cap. destruct (hmask t =? 0) eqn:E.
  - pose proof (tw_free _ W) as Hf. unfold freetop_ok in Hf. rewrite E in Hf.
    destruct Hf as [-> _]. done.
  - pose proof (count_out_length na (node t)). pose proof (hw_len _ _ (tw_hash _ W)). lia.
Qed.

Lemma cap_pow2 b : 0 ≤ b → cap (2 ^ b - 1) = if b =? 0 then 0 else 2 ^ b.
Proof. intros. by apply (cap_rehashed b (MkTab 0 0 0 None [] [] 0 0)). Qed.

(** Growing the array part while the hash part does not shrink. *)
Lemma resizetab_grow d na hb b t :
  twf t → mutable t → asize t ≤ na ≤ LJ_MAX_ASIZE → hmask t = 2 ^ b - 1 → 0 ≤ b →
  b ≤ hb ≤ LJ_MAX_HBITS →
  ∃ t', resizetab (lj_tab_newkey d) na hb t = Ret () t' ∧ resized t na hb t'.
Proof.
  intros W Hmut Hna Eh Hb Hhb. assert (0 ≤ asize t) by (unfold asize; lia).
  apply resizetab_resized; auto; [lia|lia|].
  unfold outside. rewrite drop_ge by (unfold asize in Hna; lia).
  change (count_live []) with 0. pose proof (count_out_cap t na W) as Hc.
  rewrite Eh, cap_pow2 in Hc by done.
  assert (2 ^ b ≤ 2 ^ hb) by (apply Z.pow_le_mono_r; lia). pose proof (Z.pow_pos_nonneg 2 hb).
  destruct (b =? 0) eqn:E0, (hb =? 0) eqn:E1; bprop; lia.
Qed.

Lemma resized_get t na hb t' k :
  twf t → tv_ok k → resized t na hb t' → lj_tab_get t' k = lj_tab_get t k.
Proof.
  intros W Hk R. pose proof (rs_wf _ _ _ _ R). rewrite !get_is_ref by done. f_equal.
  apply same_map_get; auto. intros k0 v0. apply R.
Qed.

Lemma run_puts_wf l t t' :
  twf t → mutable t → (∀ k v, (k, v) ∈ l → key_ok k) → run_puts l t = Ret () t' →
  twf t' ∧ mutable t'.
Proof.
  intros W Hm Hl E. destruct (run_puts_spec l t W Hm Hl) as [(t1 & E1 & ? & ? & _)|(t1 & E1)];
    rewrite E in E1; [|done]. by injection E1 as ->.
Qed.

End Lemmas.

(** ** A concrete table *)

(** String hashes for the examples: a string at address [s] hashes to [s]. *)
Definition demo_heap : ObjHeap := MkHeap (λ s, s) (λ _, 0).
#[local] Existing Instance demo_heap.

Definition num (i : Z) : TValue := TNum (int2num i).
Definition str (s : Z) : TValue := TGCV GT_STR s.

(** Integers, colliding strings, a boolean, -0, an overwrite and a removal. *)
Definition demo_puts : list (TValue * TValue) :=
  [(num 1, num 10); (str 16, num 20); (str 32, num 30); (num 2, num 40); (num 3, TBool true);
   (TBool true, num 50); (str 48, num 60); (TNum (2 ^ 63), num 70); (num 1, num 80);
   (str 16, TNil); (num (-7), num 90)].

Definition ret_tab (r : outcome ()) : GCtab :=
  match r with Ret _ t | Throw _ t => t | Undef => MkTab 0 0 0 None [] [] 0 0 end.

Definition demo_new : GCtab := ret_tab (lj_tab_new 0 0).
Definition demo_tab : GCtab := ret_tab (run_puts demo_puts demo_new).

Lemma demo_puts_ok k v : (k, v) ∈ demo_puts → key_ok k.
Proof.
  assert (Forall (λ kv : TValue * TValue, key_ok kv.1) demo_puts) as Hall.
  { repeat constructor; vm_compute; intuition congruence. }
  rewrite Forall_forall in Hall. intros Hin. apply (Hall (k, v) Hin).
Qed.

Lemma demo_new_wf : twf demo_new ∧ mutable demo_new.
Proof.
  destruct (newtab_fresh 0 0) as (t & E & Hf); [by vm_compute..|].
  unfold demo_new, lj_tab_new. rewrite E. destruct Hf as (? & ? & _). done.
Qed.

Lemma demo_tab_wf : twf demo_tab ∧ mutable demo_tab.
Proof.
  destruct demo_new_wf as [W Hm].
  apply (run_puts_wf demo_puts demo_new demo_tab W Hm demo_puts_ok).
  vm_compute. reflexivity.
Qed.

(** ** Lookup *)

(** C3: on a well-formed table, [lj_tab_get] — hashing the key, following the
    collision chain of its anchor, taking the array part for integers — ends
    and returns exactly what a scan of the whole table for that key returns. *)
Theorem lj_tab_get_ref `{ObjHeap} t k (W : twf t) (Hk : tv_ok k) :
  lj_tab_get t k = Some (ref_get t k).
Proof. by apply get_is_ref. Qed.

Lemma lj_tab_get_ref_witness : lj_tab_get demo_tab (str 48) = Some (num 60).
Proof.
  destruct demo_tab_wf as [W _]. rewrite (lj_tab_get_ref demo_tab (str 48) W I).
  vm_compute. reflexivity.
Defined.

(** ** Assignment *)

(** C1: assigning [v] (nil removes) to a valid key of a well-formed mutable
    table, through [lj_tab_set] with all that it calls (search, insertion into
    a free node, moving a colliding key, rehashing, resizing), either ends in a
    well-formed table where exactly the keys equal to [k] read [v] and all
    others read what they did, or throws the overflow error, which happens only
    when the two parts together have 2^26 slots and loses nothing. *)
Theorem tab_put_correct `{ObjHeap} t k v (W : twf t) (Hm : mutable t) (Hk : key_ok k) :
  (∃ t', tab_put k v t = Ret () t' ∧ twf t' ∧ mutable t' ∧
     ∀ k0, tv_ok k0 →
       lj_tab_get t' k0 = if uj_obj_equal k0 k then Some v else lj_tab_get t k0) ∨
  (∃ t', tab_put k v t = Throw UJ_ERR_TABOV t' ∧ 2 ^ LJ_MAX_HBITS ≤ asize t + hmask t + 1 ∧
     twf t' ∧ mutable t' ∧ ∀ k0, tv_ok k0 → lj_tab_get t' k0 = lj_tab_get t k0).
Proof.
  destruct (tab_put_stores t k v W Hm Hk) as [(t' & E & W' & Hm' & G)|Hov]; [left|by right].
  exists t'. split_and!; auto. intros k0 Hk0. rewrite (G k0 Hk0), get_is_ref by done.
  unfold map_put. by destruct (uj_obj_equal k0 k).
Qed.

Lemma tab_put_correct_witness :
  ∃ t', tab_put (str 64) (num 1) demo_tab = Ret () t' ∧ lj_tab_get t' (str 64) = Some (num 1) ∧
    lj_tab_get t' (str 48) = Some (num 60).
Proof.
  destruct demo_tab_wf as [W Hm].
  destruct (tab_put_correct demo_tab (str 64) (num 1) W Hm) as [(t' & E & _ & _ & G)|(t' & _ & Hh & _)].
  - vm_compute. split; congruence.
  - exists t'. split; [exact E|]. split.
    + rewrite (G (str 64) I). vm_compute. reflexivity.
    + rewrite (G (str 48) I). vm_compute. reflexivity.
  - exfalso. revert Hh. vm_compute. intros Hh. by apply Hh.
Defined.

(** The specialised setters for integer and string keys store under the
    same key as the generic one: the slot they return, once written, makes
    exactly that key read the value (or the table overflowed, as in C5). *)
Theorem tab_setint_setstr_correct `{ObjHeap} t i s v
    (W : twf t) (Hm : mutable t) (Hi : in_s 32 i) (Hs : key_ok (TGCV GT_STR s)) :
  stores t (TNum (int2num i)) v ((let! sl := tab_setint i in store sl v)%vela t) ∧
  stores t (TGCV GT_STR s) v ((let! sl := tab_setstr s in store sl v)%vela t).
Proof.
  split; apply sets_stores; auto using int2num_key_ok.
  - by apply lj_tab_setint_sets.
  - by apply lj_tab_setstr_sets.
Qed.

Lemma tab_setint_setstr_correct_witness :
  stores demo_tab (num 5) (num 1) ((let! sl := tab_setint 5 in store sl (num 1))%vela demo_tab) ∧
  stores demo_tab (str 80) (num 1) ((let! sl := tab_setstr 80 in store sl (num 1))%vela demo_tab).
Proof.
  destruct demo_tab_wf as [W Hm].
  apply (tab_setint_setstr_correct demo_tab 5 80 (num 1) W Hm).
  - vm_compute. split; congruence.
  - vm_compute. split; congruence.
Defined.

(** C4: the errors of an assignment: an immutable table, a nil key and a NaN
    key are rejected in this order, and lookups are not affected. *)
Theorem tab_put_errors `{ObjHeap} t k v
    (Hbad : uj_obj_is_immutable t = true ∨ k = TNil ∨ ∃ n, k = TNum n ∧ tvisnan n = true) :
  tab_put k v t =
    (if uj_obj_is_immutable t then Throw UJ_ERR_IMMUT_MODIF t
     else Throw (if tvisnil k then UJ_ERR_NILIDX else UJ_ERR_NANIDX) (set_nomm 0 t)) ∧
  ∀ k0, lj_tab_get (set_nomm 0 t) k0 = lj_tab_get t k0.
Proof.
  split; [|by intros [|b|p|[] p|n]].
  unfold tab_put, tab_set, lj_tab_set, check_mutable, M_bind.
  destruct (uj_obj_is_immutable t); [done|].
  destruct Hbad as [?|[->|(n & -> & Hnan)]]; [done|done|]. simpl.
  assert (num_isint n = false) as -> by (unfold num_isint, num_eq; by rewrite Hnan).
  by rewrite Hnan.
Qed.

Lemma tab_put_errors_witness :
  tab_put (TNum (2 ^ 63 - 1)) TNil demo_tab = Throw UJ_ERR_NANIDX (set_nomm 0 demo_tab).
Proof.
  destruct (tab_put_errors demo_tab (TNum (2 ^ 63 - 1)) TNil) as [E _].
  - right. right. exists (2 ^ 63 - 1). split; reflexivity.
  - exact E.
Defined.

(** ** Histories *)

(** C2: a table created by [lj_tab_new] and filled by any sequence of
    assignments to valid keys reads back, for every key, the last value assigned
    to it (nil if none was), whatever rehashes happened on the way; the only
    other end is the overflow error. *)
Theorem tab_history_correct `{ObjHeap} a h l
    (Ha : 0 ≤ a ≤ LJ_MAX_ASIZE) (Hh : 0 ≤ h ≤ LJ_MAX_HBITS)
    (Hl : ∀ k v, (k, v) ∈ l → key_ok k) :
  ∃ t0, lj_tab_new a h = Ret () t0 ∧
    ((∃ t', run_puts l t0 = Ret () t' ∧ twf t' ∧
        ∀ k, tv_ok k → lj_tab_get t' k = Some (map_puts (λ _, TNil) l k)) ∨
     (∃ t', run_puts l t0 = Throw UJ_ERR_TABOV t')).
Proof.
  destruct (newtab_fresh a h Ha Hh) as (t0 & E & W & Hm & _ & _ & _ & Hf). exists t0. split; [done|].
  destruct (run_puts_spec l t0 W Hm Hl) as [(t' & Er & W' & _ & G)|?]; [left|by right].
  exists t'. split_and!; auto. intros k Hk. rewrite (G k Hk). f_equal. by apply map_puts_ext.
Qed.

Lemma tab_history_correct_witness :
  ∃ t', run_puts demo_puts demo_new = Ret () t' ∧ lj_tab_get t' (num 0) = Some (num 70) ∧
    lj_tab_get t' (num 1) = Some (num 80) ∧ lj_tab_get t' (str 16) = Some TNil.
Proof.
  destruct (tab_history_correct 0 0 demo_puts) as (t0 & E0 & [(t' & E & _ & G)|(t' & E)]).
  - vm_compute. split; congruence.
  - vm_compute. split; congruence.
  - exact demo_puts_ok.
  - assert (t0 = demo_new) as -> by (unfold demo_new; by rewrite E0).
    exists t'. split; [exact E|].
    rewrite !G by (vm_compute; split; congruence || exact I).
    vm_compute. split; [reflexivity|]. split; reflexivity.
  - assert (t0 = demo_new) as -> by (unfold demo_new; by rewrite E0).
    exfalso. revert E. vm_compute. congruence.
Defined.

(** ** Creation and duplication *)

(** [lj_tab_new] gives an empty well-formed table of the requested sizes,
    or the overflow error exactly when one of them exceeds its limit; the
    recorder's [lj_tab_new_jit] unpacks both sizes from one word. *)
Theorem lj_tab_new_correct `{ObjHeap} a h (Ha : 0 ≤ a < 2 ^ 24) (Hh : 0 ≤ h < 2 ^ 8) :
  lj_tab_new_jit (Z.lor a (Z.shiftl h 24)) = lj_tab_new a h ∧
  if bool_decide (h ≤ LJ_MAX_HBITS)
  then ∃ t, lj_tab_new a h = Ret () t ∧ twf t ∧ asize t = a ∧ hmask t + 1 = 2 ^ h ∧
         mutable t ∧ ∀ k, tv_ok k → lj_tab_get t k = Some TNil
  else ∃ t, lj_tab_new a h = Throw UJ_ERR_TABOV t.
Proof.
  assert (a ≤ LJ_MAX_ASIZE) by (unfold LJ_MAX_ASIZE, LJ_MAX_ABITS; simpl; lia). split.
  - unfold lj_tab_new_jit, lj_tab_new. rewrite Z.shiftl_mul_pow2 by lia.
    rewrite lor_disjoint_add by lia. f_equal.
    + change 0xffffff with (Z.ones 24). rewrite Z.land_ones, Z.mod_add, Z.mod_small; lia.
    + rewrite Z.shiftr_div_pow2, Z.div_add, Z.div_small; lia.
  - case_bool_decide as Hb.
    + destruct (newtab_fresh a h) as (t & E & W & Hm & Ea & Eh & _ & Hf); [lia|lia|].
      exists t. split_and!; auto; [lia|]. intros k Hk. by rewrite get_is_ref, Hf.
    + unfold lj_tab_new, newtab. rewrite (proj2 (Z.ltb_ge LJ_MAX_ASIZE a)) by done.
      destruct (_ && _); rewrite newhpart_overflow by lia; by eexists.
Qed.

Lemma lj_tab_new_correct_witness :
  lj_tab_new_jit 0x03000010 = lj_tab_new 16 3 ∧ ∃ t, lj_tab_new 16 3 = Ret () t ∧ asize t = 16.
Proof.
  destruct (lj_tab_new_correct 16 3) as [E (t & En & _ & Ea & _)].
  - lia.
  - lia.
  - split; [exact E|]. exists t. split; [exact En|exact Ea].
Defined.

(** The copy made by [lj_tab_dup] is a well-formed, mutable table without
    metatable that has the sizes of the original and the same map. *)
Theorem lj_tab_dup_correct `{ObjHeap} kt (W : twf kt) :
  ∃ t, lj_tab_dup kt = Ret () t ∧ twf t ∧ mutable t ∧ metatable t = None ∧
    asize t = asize kt ∧ hmask t = hmask kt ∧
    ∀ k, tv_ok k → lj_tab_get t k = lj_tab_get kt k.
Proof.
  destruct (hmask_hbits kt W) as (b & Hb & Eh & Ebits).
  assert (0 ≤ asize kt ≤ LJ_MAX_ASIZE) as Ha by (split; [unfold asize; lia|apply W]).
  destruct (newtab_fresh (asize kt) b) as (t0 & E & W0 & Hm & Ea & Eh0 & Hmt & _); [done..|].
  assert (∃ c, lj_tab_dup kt =
    Ret () (MkTab (marked t0) 0 c (metatable t0) (array kt) (node kt) (hmask kt) (freetop kt)))
    as (c & ->).
  { exists (colo t0). unfold lj_tab_dup, M_bind at 1. rewrite Ebits, E.
    unfold M_bind, modify, get, M_ret. destruct (0 <? hmask kt) eqn:E0; simpl.
    - rewrite Eh0, <-Eh. done.
    - pose proof (tw_free _ W) as F. pose proof (tw_free _ W0) as F0. unfold freetop_ok in *.
      destruct (hw_pow _ _ (tw_hash _ W)) as (b' & ? & ?). pose proof (Z.pow_pos_nonneg 2 b').
      bprop. assert (hmask kt = 0) as E1 by lia.
      assert (hmask t0 = 0) as E2 by lia.
      rewrite E1 in F. rewrite E2 in F0. simpl in F, F0. destruct F as [-> ->], F0 as [En0 Ef0].
      unfold set_array, set_nomm. simpl. by rewrite En0, Ef0, E1, E2. }
  eexists. split; [done|]. set (t := MkTab _ _ _ _ _ _ _ _).
  assert (twf t) as Wt by (by eapply twf_ext; [..|exact W]).
  split_and!; auto.
Qed.

Lemma lj_tab_dup_correct_witness :
  ∃ t, lj_tab_dup demo_tab = Ret () t ∧ lj_tab_get t (str 48) = Some (num 60).
Proof.
  destruct demo_tab_wf as [W _].
  destruct (lj_tab_dup_correct demo_tab W) as (t & E & _ & _ & _ & _ & _ & G).
  exists t. split; [exact E|]. rewrite (G (str 48) I). vm_compute. reflexivity.
Defined.

(** ** Resizing *)

(** [lj_tab_reasize], used by the parser and the VM to grow the array part
    for a block of values, succeeds up to the array limit, gives exactly the
    requested size, keeps the size of the hash part and the whole map. *)
Theorem lj_tab_reasize_correct `{ObjHeap} t nasize
    (W : twf t) (Hm : mutable t) (Hn : asize t ≤ nasize + 1 ≤ LJ_MAX_ASIZE) :
  ∃ t', lj_tab_reasize nasize t = Ret () t' ∧ twf t' ∧ asize t' = nasize + 1 ∧
    hmask t' = hmask t ∧ ∀ k, tv_ok k → lj_tab_get t' k = lj_tab_get t k.
Proof.
  destruct (hmask_hbits t W) as (b & Hb & Eh & Ebits). unfold lj_tab_reasize, newkey.
  rewrite Ebits.
  destruct (resizetab_grow REHASH_DEPTH (nasize + 1) b b t) as (t' & -> & R); auto; [lia|lia|].
  exists t'. split_and!; [done|apply R|apply R| |].
  - by rewrite (rs_hmask _ _ _ _ R), Eh.
  - intros k Hk. by eapply resized_get.
Qed.

Lemma lj_tab_reasize_correct_witness :
  ∃ t', lj_tab_reasize 40 demo_tab = Ret () t' ∧ asize t' = 41 ∧ lj_tab_get t' (num 1) = Some (num 80).
Proof.
  destruct demo_tab_wf as [W Hm].
  destruct (lj_tab_reasize_correct demo_tab 40 W Hm) as (t' & E & _ & Ea & _ & G).
  - vm_compute. split; congruence.
  - exists t'. split; [exact E|]. split; [exact Ea|].
    rewrite (G (num 1)) by (vm_compute; split; congruence). vm_compute. reflexivity.
Defined.

(** [lj_tab_rehash], which the collector calls at the end of a cycle to
    shrink the table of cdata finalizers, never shrinks it: it doubles the hash
    part whatever the number of live pairs, and throws the overflow error once
    the hash part has its maximal size. *)
Theorem lj_tab_rehash_doubles `{ObjHeap} t (W : twf t) (Hm : mutable t) :
  if bool_decide (hmask t + 1 < 2 ^ LJ_MAX_HBITS)
  then ∃ t', lj_tab_rehash t = Ret () t' ∧ hmask t' + 1 = 2 * (hmask t + 1) ∧
         twf t' ∧ ∀ k, tv_ok k → lj_tab_get t' k = lj_tab_get t k
  else lj_tab_rehash t = Throw UJ_ERR_TABOV t.
Proof.
  destruct (hmask_hbits t W) as (b & Hb & Eh & _). assert (0 ≤ asize t) by (unfold asize; lia).
  assert (rehash_sizes t TNil = Some (asize t, b + 1)) as Es.
  { unfold rehash_sizes. simpl. rewrite Eh, Z.sub_add, ffs_pos_pow2 by lia. done. }
  unfold lj_tab_rehash, newkey, rehashtab. rewrite Es. case_bool_decide as Hlt.
  - assert (b < LJ_MAX_HBITS) by (apply (Z.pow_lt_mono_r_iff 2); lia).
    pose proof (tw_asize _ W).
    destruct (resizetab_grow REHASH_DEPTH (asize t) (b + 1) b t) as (t' & -> & R); auto; [lia|lia|lia|].
    exists t'. split_and!; [done| |apply R|].
    + rewrite (rs_hmask _ _ _ _ R), Eh, Z.pow_add_r by lia. lia.
    + intros k Hk. by eapply resized_get.
  - assert (b = LJ_MAX_HBITS) as ->.
    { apply Z.le_antisymm; [lia|]. apply Z.nlt_ge. intros Hb'.
      assert (2 ^ b < 2 ^ LJ_MAX_HBITS) by (apply Z.pow_lt_mono_r; lia). lia. }
    unfold resizetab, M_bind at 1, get, M_bind at 1. rewrite Z.ltb_irrefl.
    unfold M_ret at 1, M_bind at 1. by rewrite newhpart_overflow by lia.
Qed.

Lemma lj_tab_rehash_doubles_witness :
  ∃ t', lj_tab_rehash demo_new = Ret () t' ∧ hmask t' + 1 = 2.
Proof.
  destruct demo_new_wf as [W Hm]. pose proof (lj_tab_rehash_doubles demo_new W Hm) as R.
  rewrite bool_decide_eq_true_2 in R by (vm_compute; reflexivity).
  destruct R as (t' & E & Eh & _). exists t'. split; [exact E|exact Eh].
Defined.

End TabTheorems.
