(* ===== verification/TabIter.v ===== *)
(** * Traversal, length, size and the table built-ins of lj_tab.c

    Traversal addresses the pairs of a table by a storage index: the array
    slots first, then the nodes.  Counters are [uint32_t] or [size_t] as in the
    code.  Loops whose bound is not an explicit list carry fuel: the number of
    doublings and halvings of a [size_t] below [2^32] for the searches of
    [lj_tab_len], the number of slots of the table for linear scans. *)

From stdpp Require Import base decidable list numbers option.
From Stdlib Require Import ZArith Lia.
From S2P Require Import Prelude Obj Tab.

Local Open Scope Z_scope.

Module TabIter.
Import Obj Tab.

Definition TAB_ARR_EL_START_IDX : Z := 1.
Definition LJ_ITERN_MARK : Z := 0xfffe7fff.

(** [arrayslot(t, i)], for an index in range. *)
Definition arrayslot (t : GCtab) (i : Z) : TValue := default TNil (array t !! Z.to_nat i).

Section Ops.
Context `{ObjHeap}.

(** ** Traversal *)

(** [do key++ while (key < asize && tvisnil(slot)); return key;] *)
Fixpoint nexta_loop (t : GCtab) (fuel : nat) (k : Z) : Z :=
  match fuel with
  | O => k
  | S f => if (k <? asize t) && tvisnil (arrayslot t k) then nexta_loop t f (k + 1) else k
  end.
Definition lj_tab_nexta (t : GCtab) (k : Z) : Z := nexta_loop t (length (array t)) (u32 (k + 1)).

(** The first live node of a list of nodes, [i] being the index of its head. *)
Fixpoint first_live (ns : list Node) (i : Z) : option (Z * Node) :=
  match ns with
  | [] => None
  | n :: ns' => if tvisnil (val n) then first_live ns' (i + 1) else Some (i, n)
  end.

(** The live node after node [n]; [None] stands for the shared nil node. *)
Definition lj_tab_nexth (t : GCtab) (n : nat) : option nat :=
  (λ p, Z.to_nat p.1) <$> first_live (drop (S n) (node t)) (Z.of_nat (S n)).

(** The first non-nil value of a list of array slots. *)
Fixpoint first_elem (vs : list TValue) (i : Z) : option (Z * TValue) :=
  match vs with
  | [] => None
  | v :: vs' => if tvisnil v then first_elem vs' (i + 1) else Some (i, v)
  end.

(** The next storage index and the pair written to [out]; [None] is 0. *)
Definition tab_next (t : GCtab) (k : Z) : option (Z * (TValue * TValue)) :=
  match first_elem (drop (Z.to_nat k) (array t)) k with
  | Some (i, v) => Some (u32 (i + 1), (TNum (int2num i), v))
  | None =>
      let i := Z.max k (asize t) - asize t in
      match first_live (drop (Z.to_nat i) (node t)) i with
      | Some (j, n) => Some (u32 (j + 1 + asize t), (key n, val n))
      | None => None
      end
  end.

Definition lj_tab_iterate_jit (t : GCtab) (k : Z) : Z :=
  match first_elem (drop (Z.to_nat k) (array t)) k with
  | Some (i, _) => u32 (i + 1)
  | None =>
      let i := Z.max k (asize t) - asize t in
      match first_live (drop (Z.to_nat i) (node t)) i with
      | Some (j, _) => u32 (j + 1 + asize t)
      | None => 0
      end
  end.

(** The control variable of a specialised iterator: a number whose upper word
    is the mark and whose lower word is the next storage index. *)
Definition itern_index (k : TValue) : option Z :=
  match k with
  | TNum n => if Z.shiftr n 32 =? LJ_ITERN_MARK then Some (u32 n) else None
  | _ => None
  end.

Inductive index := Idx (i : Z) | BadIdx | UndefIdx.

Definition keyindex (t : GCtab) (k : TValue) : index :=
  let hash :=
    match find_from t (key_equal k) (hashkey (hmask t) k) with
    | LSlot (HSlot n) => Idx (u32 (asize t + Z.of_nat n))
    | LSlot (ASlot _) | LUndef => UndefIdx
    | LNull =>
        match itern_index k with
        | Some lo => Idx (u32 (lo - 1))
        | None => BadIdx
        end
    end in
  match k with
  | TNil => Idx (u32 (-1))
  | TNum nk =>
      let i := lj_num2int nk in
      if (u32 i <? asize t) && num_eq nk (int2num i) then Idx (u32 i) else hash
  | _ => hash
  end.

(** The pair after a key: [Ret None] at the end of the table. *)
Definition lj_tab_next (t : GCtab) (k : TValue) : outcome (option (TValue * TValue)) :=
  match keyindex t k with
  | Idx i =>
      match tab_next t (u32 (i + 1)) with
      | Some (_, kv) => Ret (Some kv) t
      | None => Ret None t
      end
  | BadIdx => Throw UJ_ERR_NEXTIDX t
  | UndefIdx => Undef
  end.

(** [lj_tab_iterate]: the next index (0 at the end) and the pair pushed. *)
Definition lj_tab_iterate (t : GCtab) (k : Z) : Z * option (TValue * TValue) :=
  match tab_next t k with
  | Some (i, kv) => (i, Some kv)
  | None => (0, None)
  end.

(** ** Length *)

(** [(tv = lj_tab_getint(t, (int32_t)j)) && !tvisnil(tv)] *)
Definition present (t : GCtab) (j : Z) : bool :=
  match deref t (lj_tab_getint t (i32 j)) with
  | Some v => negb (tvisnil v)
  | None => false
  end.

(** [while (j - i > 1) { m = (i+j)/2; if (P(m)) i = m; else j = m; } return i;] *)
Fixpoint bisect (P : Z → bool) (fuel : nat) (i j : Z) : Z :=
  match fuel with
  | O => i
  | S f =>
      if 1 <? j - i then
        let m := (i + j) / 2 in
        if P m then bisect P f m j else bisect P f i m
      else i
  end.

Definition SEARCH_BITS : nat := 33.
Definition INT_MAX : Z := 2 ^ 31 - 1.

(** [i = 1; while (present(i)) i++; return i - 1;] *)
Fixpoint linear_search (t : GCtab) (fuel : nat) (i : Z) : Z :=
  match fuel with
  | O => i - 1
  | S f => if present t i then linear_search t f (i + 1) else i - 1
  end.

Definition slot_count (t : GCtab) : nat := length (array t) + length (node t).

Fixpoint unbound_loop (t : GCtab) (fuel : nat) (i j : Z) : Z :=
  match fuel with
  | O => i
  | S f =>
      if present t j then
        if INT_MAX - 2 <? 2 * j then linear_search t (S (slot_count t)) 1
        else unbound_loop t f j (2 * j)
      else bisect (present t) SEARCH_BITS i j
  end.

Definition unbound_search (t : GCtab) (j : Z) : Z := unbound_loop t SEARCH_BITS j (j + 1).

Definition lj_tab_len (t : GCtab) : Z :=
  let j := asize t in
  if (1 <? j) && tvisnil (arrayslot t (j - 1)) then
    bisect (λ m, negb (tvisnil (arrayslot t (m - 1)))) SEARCH_BITS 1 j - 1
  else
    let j := if negb (j =? 0) then j - 1 else j in
    if hmask t <=? 0 then j else unbound_search t j.

(** ** Size *)

Definition tab_asize (t : GCtab) : Z := count_live (array t).
Definition tab_hsize (t : GCtab) : Z :=
  if hmask t =? 0 then 0 else count_live (val <$> node t).
Definition lj_tab_size (t : GCtab) : Z := tab_asize t + tab_hsize t.

(** ** Marking *)

(** The objects a marker is applied to, in order. *)
Definition gcobjs (vs : list TValue) : list TValue := filter (λ v, tvisgcv v = true) vs.
Definition tab_mark_array (t : GCtab) : list TValue := gcobjs (array t).
Definition tab_mark_hash (t : GCtab) : list TValue :=
  if hmask t =? 0 then []
  else flat_map (λ n, if tvisnil (val n) then [] else gcobjs [key n; val n]) (node t).
Definition tab_mark_metatable (t : GCtab) : list TValue :=
  match metatable t with None => [] | Some mt => [TGCV GT_TAB mt] end.
Definition lj_tab_traverse (t : GCtab) : list TValue :=
  tab_mark_metatable t ++ tab_mark_array t ++ tab_mark_hash t.

(** ** Built-ins *)

(** Every live pair is counted, whatever its key. *)
Definition tab_aux_total_intkey_count (t : GCtab) (bins : list Z) : Z :=
  let '(na, bins) := countarray t bins in
  let '(nh, _, _) := counthash t bins na in na + nh.

Definition tab_aux_new_apart (t : GCtab) : outcome () :=
  let intkey_count := tab_aux_total_intkey_count t no_bins in
  lj_tab_new (if negb (intkey_count =? 0) then intkey_count + TAB_ARR_EL_START_IDX else 0) 0.

(** [for (...) if (!nil) *arrayslot(dst, dst_idx++) = f(...)]: writes past the
    end of the array are undefined. *)
Fixpoint fill (vs : list TValue) (idx : nat) : M nat :=
  match vs with
  | [] => M_ret idx
  | v :: vs' => λ t,
      if decide (idx < length (array t))%nat
      then fill vs' (S idx) (slot_write v (ASlot idx) t)
      else Undef
  end.

Fixpoint array_keys_from (i : Z) (vs : list TValue) : list TValue :=
  match vs with
  | [] => []
  | v :: vs' => (if tvisnil v then [] else [TNum (int2num i)]) ++ array_keys_from (i + 1) vs'
  end.
Definition live_values (vs : list TValue) : list TValue := filter (λ v, tvisnil v = false) vs.

Definition tab_aux_copy_hpart (src : GCtab) (copy_node_part : Node → TValue) (idx : nat) : M nat :=
  let hsize := if negb (hmask src =? 0) then hmask src + 1 else 0 in
  fill (flat_map (λ n, if tvisnil (val n) then [] else [copy_node_part n])
          (take (Z.to_nat hsize) (node src))) idx.

Definition copy_parts (src : GCtab) (arr : list TValue) (part : Node → TValue) : M () := λ t,
  if asize t =? 0 then Ret () t
  else (let! idx := fill arr (Z.to_nat TAB_ARR_EL_START_IDX) in
        tab_aux_copy_hpart src part idx >>> M_ret ())%vela t.

Definition lj_tab_keys (src : GCtab) : outcome () :=
  ((λ _, tab_aux_new_apart src) >>>
   copy_parts src (array_keys_from 0 (array src)) key)%vela src.

Definition lj_tab_values (src : GCtab) : outcome () :=
  ((λ _, tab_aux_new_apart src) >>>
   copy_parts src (live_values (array src)) val)%vela src.

Fixpoint toset_loop (src : GCtab) (fuel : nat) (i : Z) : M () :=
  match fuel with
  | O => undef
  | S f =>
      match deref src (lj_tab_getint src i) with
      | None => undef
      | Some TNil => M_ret ()
      | Some v => (tab_put v (TBool true) >>> toset_loop src f (i + 1))%vela
      end
  end.

Definition lj_tab_toset (src : GCtab) : outcome () :=
  let a := asize src in
  let hbits := hsize2hbits (if negb (a =? 0) then a - TAB_ARR_EL_START_IDX else 0) in
  ((λ _, newtab 0 hbits) >>> toset_loop src (S (slot_count src)) TAB_ARR_EL_START_IDX)%vela src.

End Ops.
End TabIter.
