(* ===== verification/TabIterSpec.v ===== *)
(** * Traversal, length and size: proofs

    [slots t] lists the storage of a table in traversal order; [entries t] are
    its live pairs.  [lj_tab_next] enumerates exactly the entries, also when
    the current pair was removed during the traversal; [lj_tab_len] returns a
    border; [lj_tab_size], [lj_tab_keys] and [lj_tab_values] agree with the
    traversal. *)

From stdpp Require Import base decidable list numbers option sets.
From Stdlib Require Import ZArith Lia.
From S2P Require Import Prelude Obj Tab TabChain TabWf TabPut TabResize TabRehash TabSpec.
From S2P Require Import TabTheorems TabIter.

Local Open Scope Z_scope.

Module TabIterSpec.
Import Obj Tab TabChain TabWf TabPut TabResize TabRehash TabSpec TabTheorems TabIter.

(** ** Storage order *)

Fixpoint arr_slots (i : Z) (vs : list TValue) : list (TValue * TValue) :=
  match vs with
  | [] => []
  | v :: vs' => (TNum (int2num i), v) :: arr_slots (i + 1) vs'
  end.
Definition node_slot (n : Node) : TValue * TValue := (key n, val n).
Definition slots (t : GCtab) : list (TValue * TValue) :=
  arr_slots 0 (array t) ++ (node_slot <$> node t).

Definition live (kv : TValue * TValue) : Prop := tvisnil kv.2 = false.
#[export] Instance live_dec kv : Decision (live kv) := decide (tvisnil kv.2 = false).

Definition entries (t : GCtab) : list (TValue * TValue) := filter live (slots t).

Lemma arr_slots_length i vs : length (arr_slots i vs) = length vs.
Proof. revert i. induction vs; intros i; simpl; auto. Qed.

Lemma arr_slots_lookup i vs p :
  arr_slots i vs !! p = (λ v, (TNum (int2num (i + Z.of_nat p)), v)) <$> vs !! p.
Proof.
  revert i p. induction vs as [|v vs IH]; intros i [|p]; simpl; [done..| |].
  - by rewrite Z.add_0_r.
  - rewrite IH. destruct (vs !! p); [|done]. simpl. do 4 f_equal. lia.
Qed.

Lemma arr_slots_drop i vs n :
  drop n (arr_slots i vs) = arr_slots (i + Z.of_nat n) (drop n vs).
Proof.
  revert i n. induction vs as [|v vs IH]; intros i [|n]; simpl; [done..| |].
  - by rewrite Z.add_0_r.
  - rewrite IH. f_equal. lia.
Qed.

Lemma slots_length t : length (slots t) = slot_count t.
Proof. unfold slots, slot_count. by rewrite length_app, arr_slots_length, length_fmap. Qed.

Lemma slots_array t p :
  (p < length (array t))%nat →
  slots t !! p = (λ v, (TNum (int2num (Z.of_nat p)), v)) <$> array t !! p.
Proof.
  intros Hp. unfold slots. rewrite lookup_app_l by (by rewrite arr_slots_length).
  by rewrite arr_slots_lookup.
Qed.

Lemma slots_node t p :
  (length (array t) ≤ p)%nat → slots t !! p = node_slot <$> node t !! (p - length (array t))%nat.
Proof.
  intros Hp. unfold slots. rewrite lookup_app_r by (by rewrite arr_slots_length).
  by rewrite arr_slots_length, list_lookup_fmap.
Qed.

(** The first live pair of a list of slots. *)
Fixpoint first_pair (l : list (TValue * TValue)) (i : Z) : option (Z * (TValue * TValue)) :=
  match l with
  | [] => None
  | kv :: l' => if tvisnil kv.2 then first_pair l' (i + 1) else Some (i, kv)
  end.

Lemma first_pair_app l1 l2 i :
  first_pair (l1 ++ l2) i =
    match first_pair l1 i with Some x => Some x | None => first_pair l2 (i + Z.of_nat (length l1)) end.
Proof.
  revert i. induction l1 as [|[k v] l1 IH]; intros i; simpl; [by rewrite Z.add_0_r|].
  destruct (tvisnil v); [|done]. rewrite IH. case_test; [done|]. f_equal. lia.
Qed.

Lemma first_elem_pair vs i :
  first_pair (arr_slots i vs) i = (λ p, (p.1, (TNum (int2num p.1), p.2))) <$> first_elem vs i.
Proof. revert i. induction vs as [|v vs IH]; intros i; simpl; [done|]. destruct (tvisnil v); auto. Qed.

Lemma first_live_pair ns i :
  first_pair (node_slot <$> ns) i = (λ p, (p.1, node_slot p.2)) <$> first_live ns i.
Proof. revert i. induction ns as [|n ns IH]; intros i; simpl; [done|]. destruct (tvisnil (val n)); auto. Qed.

Lemma first_pair_shift l i c :
  first_pair l (i + c) = (λ p, (p.1 + c, p.2)) <$> first_pair l i.
Proof.
  revert i. induction l as [|[k v] l IH]; intros i; simpl; [done|].
  destruct (tvisnil v); [|done]. replace (i + c + 1) with (i + 1 + c) by lia. apply IH.
Qed.

Lemma first_pair_spec l i :
  match first_pair l i with
  | None => filter live l = []
  | Some (j, kv) => ∃ n, j = i + Z.of_nat n ∧ l !! n = Some kv ∧ live kv ∧
      filter live l = kv :: filter live (drop (S n) l)
  end.
Proof.
  revert i. induction l as [|kv l IH]; intros i; simpl; [done|].
  rewrite filter_cons. destruct (decide (live kv)) as [Hl|Hl].
  - rewrite Hl. exists 0%nat. split_and!; auto. lia.
  - unfold live in Hl. apply not_false_iff_true in Hl. rewrite Hl. specialize (IH (i + 1)).
    destruct (first_pair l (i + 1)) as [[j kv']|]; [|done].
    destruct IH as (n & -> & ? & ? & ?). exists (S n). split_and!; auto. lia.
Qed.

Lemma first_pair_head l i : snd <$> first_pair l i = head (filter live l).
Proof.
  pose proof (first_pair_spec l i) as Hs. destruct (first_pair l i) as [[j kv]|]; simpl.
  - destruct Hs as (n & _ & _ & _ & ->). done.
  - by rewrite Hs.
Qed.

(** Storage indices fit [uint32_t]. *)
Lemma slots_u32 `{ObjHeap} t : twf t → Z.of_nat (length (slots t)) + 1 < 2 ^ 32.
Proof.
  intros W. rewrite slots_length. unfold slot_count. rewrite Nat2Z.inj_add.
  pose proof (tw_asize _ W) as Ha. pose proof (tw_hmask _ W) as Hh.
  pose proof (hw_len _ _ (tw_hash _ W)) as Hl.
  unfold asize, LJ_MAX_ASIZE, LJ_MAX_ABITS, LJ_MAX_HBITS in *. simpl in *. lia.
Qed.

Lemma first_pair_slots t k :
  0 ≤ k →
  first_pair (drop (Z.to_nat k) (slots t)) k =
    match first_elem (drop (Z.to_nat k) (array t)) k with
    | Some (i, v) => Some (i, (TNum (int2num i), v))
    | None =>
        let i := Z.max k (asize t) - asize t in
        match first_live (drop (Z.to_nat i) (node t)) i with
        | Some (j, n) => Some (j + asize t, node_slot n)
        | None => None
        end
    end.
Proof.
  intros Hk. unfold slots.
  rewrite drop_app, arr_slots_length, arr_slots_drop, Z2Nat.id, Z.add_0_l, <-fmap_drop by done.
  rewrite first_pair_app, first_elem_pair, arr_slots_length, length_drop.
  destruct (first_elem _ k) as [[i v]|]; simpl; [done|].
  replace (k + Z.of_nat (length (array t) - Z.to_nat k))
    with (Z.max k (asize t) - asize t + asize t) by (unfold asize; lia).
  replace (Z.to_nat k - length (array t))%nat
    with (Z.to_nat (Z.max k (asize t) - asize t)) by (unfold asize; lia).
  rewrite first_pair_shift, first_live_pair. by destruct (first_live _ _) as [[j n]|].
Qed.

Lemma first_pair_bound t k p kv :
  0 ≤ k → first_pair (drop (Z.to_nat k) (slots t)) k = Some (p, kv) →
  k ≤ p < Z.of_nat (length (slots t)) ∧ slots t !! Z.to_nat p = Some kv ∧ live kv ∧
  filter live (drop (Z.to_nat k) (slots t)) = kv :: filter live (drop (Z.to_nat (p + 1)) (slots t)).
Proof.
  intros Hk E. pose proof (first_pair_spec (drop (Z.to_nat k) (slots t)) k) as Hs. rewrite E in Hs.
  destruct Hs as (n & -> & Hn & Hl & ->). rewrite lookup_drop in Hn.
  apply lookup_lt_Some in Hn as Hlt. split_and!; [lia|lia| |done|].
  - rewrite <-Hn. f_equal. lia.
  - rewrite drop_drop. do 3 f_equal. lia.
Qed.

Lemma tab_next_slots `{ObjHeap} t k :
  twf t → 0 ≤ k →
  tab_next t k = (λ p, (p.1 + 1, p.2)) <$> first_pair (drop (Z.to_nat k) (slots t)) k.
Proof.
  intros W Hk. pose proof (slots_u32 t W) as Hu.
  pose proof (first_pair_bound t k) as Hb. rewrite first_pair_slots in * by done. unfold tab_next.
  assert (∀ i, 0 ≤ i < Z.of_nat (length (slots t)) → u32 (i + 1) = i + 1) as Hwrap.
  { intros i Hi. apply wrapu_id. unfold in_u. lia. }
  simpl in Hb |- *. destruct (first_elem _ k) as [[i v]|]; simpl.
  - destruct (Hb _ _ Hk eq_refl) as [? _]. by rewrite Hwrap by lia.
  - destruct (first_live _ _) as [[j n]|]; simpl; [|done].
    destruct (Hb _ _ Hk eq_refl) as [? _].
    replace (j + 1 + asize t) with (j + asize t + 1) by lia. by rewrite Hwrap by lia.
Qed.

(** ** The storage index of a key *)

Section Next.
Context `{ObjHeap}.

(** The array test of [keyindex], as in [countint] but against [asize]. *)
Lemma keyindex_array t n :
  asize t ≤ LJ_MAX_ASIZE →
  (u32 (lj_num2int n) <? asize t) && num_eq n (int2num (lj_num2int n)) =
    if arr_index t (TNum n) is Some _ then true else false.
Proof.
  intros Ha. unfold arr_index. simpl. fold (num_isint n). pose proof (num2int_range n) as Hr.
  destruct (num_isint n); [|by rewrite andb_false_r]. rewrite andb_true_r.
  pose proof (inarray_iff t _ Ha Hr) as Hi. unfold in_s in Hr. simpl in Hr.
  unfold u32, wrapu. unfold asize, LJ_MAX_ASIZE, LJ_MAX_ABITS in *. simpl in *.
  destruct (inarray t (lj_num2int n)).
  - destruct Hi as [Hi _]. specialize (Hi eq_refl). apply Z.ltb_lt. rewrite Z.mod_small; lia.
  - apply Z.ltb_ge. destruct (decide (0 ≤ lj_num2int n)).
    + rewrite Z.mod_small by lia. apply Z.nlt_ge. intros ?. by discriminate (proj2 Hi).
    + rewrite <-(Z.mod_unique _ (2 ^ 32) (-1) (lj_num2int n + 2 ^ 32)); lia.
Qed.

(** The part of [keyindex] that searches the hash part. *)
Definition keyindex_hash (t : GCtab) (k : TValue) : index :=
  match find_from t (key_equal k) (hashkey (hmask t) k) with
  | LSlot (HSlot n) => Idx (u32 (asize t + Z.of_nat n))
  | LSlot (ASlot _) | LUndef => UndefIdx
  | LNull => match itern_index k with Some lo => Idx (u32 (lo - 1)) | None => BadIdx end
  end.

Lemma keyindex_no_array t k :
  asize t ≤ LJ_MAX_ASIZE → k ≠ TNil → arr_index t k = None → keyindex t k = keyindex_hash t k.
Proof.
  intros Ha Hk Hi. unfold keyindex. fold (keyindex_hash t k). destruct k; try done.
  by rewrite keyindex_array, Hi.
Qed.

Lemma keyindex_slot t p k v :
  twf t → slots t !! p = Some (k, v) → k ≠ TNil → keyindex t k = Idx (Z.of_nat p).
Proof.
  intros W Hp Hk. pose proof (slots_u32 t W) as Hu. apply lookup_lt_Some in Hp as Hlt.
  pose proof (tw_asize _ W) as Ha.
  destruct (decide (p < length (array t))%nat) as [Hin|Hout].
  - rewrite slots_array in Hp by done. destruct (array t !! p) as [x|]; [|done].
    injection Hp as <- ->. unfold asize in Ha.
    assert (in_s 32 (Z.of_nat p)) as Hr by (apply small_int_range; lia).
    unfold keyindex. rewrite keyindex_array, num2int_int2num by done.
    rewrite (proj2 (arr_index_iff t (TNum (int2num (Z.of_nat p))) p Ha
      (int2num_key_ok _ Hr) (norm_int _ Hr))) by done.
    f_equal. apply wrapu_id. unfold in_u. lia.
  - rewrite slots_node in Hp by lia. set (j := (p - length (array t))%nat) in *.
    destruct (node t !! j) as [n|] eqn:Hn; [|done]. injection Hp as <- <-.
    rewrite keyindex_no_array by eauto using tw_disj. unfold keyindex_hash.
    destruct (hwf_stored _ _ _ _ (tw_hash _ W) Hn) as [?|[Hok Hc]]; [done|].
    pose proof (getgen_found t (key n) W Hok) as [(j' & n' & Hn' & E & Hf)|[Hf _]].
    + unfold lj_tab_getgen in Hf. rewrite Hf. rewrite Hc in E.
      assert (j' = j) as -> by (eapply hw_nodup; eauto using tw_hash; congruence).
      f_equal. unfold asize. replace (Z.of_nat (length (array t)) + Z.of_nat j) with (Z.of_nat p) by lia.
      apply wrapu_id. unfold in_u. lia.
    + by destruct (Hf _ _ Hn).
Qed.

Lemma itern_mark_number i :
  0 ≤ i < 2 ^ 32 →
  is_num (LJ_ITERN_MARK * 2 ^ 32 + i) ∧ tvisnan (LJ_ITERN_MARK * 2 ^ 32 + i) = true ∧
  itern_index (TNum (LJ_ITERN_MARK * 2 ^ 32 + i)) = Some i.
Proof.
  intros Hi. assert ((LJ_ITERN_MARK * 2 ^ 32 + i) / 2 ^ 32 = LJ_ITERN_MARK) as Ehi
    by (rewrite Z.div_add_l, Z.div_small by lia; lia).
  assert (u32 (LJ_ITERN_MARK * 2 ^ 32 + i) = i) as Elo
    by (unfold u32, wrapu; rewrite Z.add_comm, Z.mod_add, Z.mod_small; lia).
  split; [unfold is_num, in_u, LJ_ITERN_MARK; lia|].
  generalize dependent (LJ_ITERN_MARK * 2 ^ 32 + i). intros x Ehi Elo. split.
  - unfold tvisnan, num_exp, num_mant. apply andb_true_intro. split.
    + apply Z.eqb_eq. change (2 ^ 52) with (2 ^ 32 * 2 ^ 20). rewrite <-Z.div_div, Ehi by lia. done.
    + apply negb_true_iff, Z.eqb_neq. intros E. apply Z.mod_divide in E as [q Eq]; [|lia].
      rewrite Eq in Ehi. change (2 ^ 52) with (2 ^ 20 * 2 ^ 32) in Ehi.
      rewrite Z.mul_assoc, Z.div_mul in Ehi by lia. unfold LJ_ITERN_MARK in Ehi. lia.
  - unfold itern_index. rewrite Z.shiftr_div_pow2, Ehi, Z.eqb_refl by lia. by rewrite Elo.
Qed.

Lemma keyindex_marked t x i :
  twf t → is_num x → tvisnan x = true → itern_index (TNum x) = Some i →
  keyindex t (TNum x) = Idx (u32 (i - 1)).
Proof.
  intros W Ht Hnan Hm.
  assert (¬ key_ok (TNum x)) as Hbad by (intros [_ [_ ?]]; congruence).
  assert (num_isint x = false) as Hint by (unfold num_isint, num_eq; by rewrite Hnan).
  rewrite keyindex_no_array; [|apply W|done|unfold arr_index; simpl; by rewrite Hint].
  unfold keyindex_hash. pose proof (getgen_bad t (TNum x) W Ht Hbad ltac:(done)) as Hg. unfold lj_tab_getgen in Hg.
  by rewrite Hg, Hm.
Qed.

Lemma lj_tab_next_from t k i :
  twf t → 0 ≤ i → i + 1 < 2 ^ 32 → keyindex t k = Idx i →
  lj_tab_next t k = Ret (head (filter live (drop (Z.to_nat (i + 1)) (slots t)))) t.
Proof.
  intros W Hi Hu E. unfold lj_tab_next. rewrite E.
  assert (u32 (i + 1) = i + 1) as -> by (apply wrapu_id; unfold in_u; lia).
  rewrite tab_next_slots by (done || lia). rewrite <-(first_pair_head _ (i + 1)).
  by destruct (first_pair _ _) as [[p kv]|].
Qed.

Lemma lj_tab_next_slot t p k v :
  twf t → slots t !! p = Some (k, v) → k ≠ TNil →
  lj_tab_next t k = Ret (head (filter live (drop (S p) (slots t)))) t.
Proof.
  intros W Hp Hk. pose proof (slots_u32 t W). apply lookup_lt_Some in Hp as Hlt.
  rewrite (lj_tab_next_from t k (Z.of_nat p)) by (lia || eauto using keyindex_slot).
  do 4 f_equal. lia.
Qed.

Lemma lj_tab_next_nil t : twf t → lj_tab_next t TNil = Ret (head (entries t)) t.
Proof.
  intros W. unfold lj_tab_next, entries. change (keyindex t TNil) with (Idx (2 ^ 32 - 1)). simpl.
  change (u32 (2 ^ 32 - 1 + 1)) with 0. rewrite tab_next_slots by done. simpl.
  rewrite drop_0, <-(first_pair_head _ 0). by destruct (first_pair _ _) as [[p kv]|].
Qed.

(** ** Complete traversals *)

Fixpoint traverse (fuel : nat) (t : GCtab) (k : TValue) : option (list (TValue * TValue)) :=
  match fuel with
  | O => None
  | S f =>
      match lj_tab_next t k with
      | Ret None _ => Some []
      | Ret (Some kv) _ => cons kv <$> traverse f t kv.1
      | _ => None
      end
  end.

(** Live slots have valid keys. *)
Lemma live_slot_key t p kv :
  twf t → slots t !! p = Some kv → live kv → key_ok kv.1 ∧ canon kv.1.
Proof.
  intros W Hp Hl. apply lookup_lt_Some in Hp as Hlt.
  destruct (decide (p < length (array t))%nat) as [Hin|Hout].
  - rewrite slots_array in Hp by done. destruct (array t !! p) as [x|]; [|done].
    injection Hp as <-. pose proof (tw_asize _ W) as Ha. unfold asize in Ha.
    assert (in_s 32 (Z.of_nat p)) as Hr by (apply small_int_range; lia).
    split; [by apply int2num_key_ok|by apply norm_int].
  - rewrite slots_node in Hp by lia. destruct (node t !! _) as [n|] eqn:Hn; [|done].
    injection Hp as <-. apply (proj1 (hwf_nodes_ok _ _ (tw_hash _ W)) _ _ Hn).
    intros E. unfold live in Hl. simpl in Hl. by rewrite E in Hl.
Qed.

Lemma traverse_from t l q fuel k :
  twf t → lj_tab_next t k = Ret (head l) t → l = filter live (drop q (slots t)) →
  (length l < fuel)%nat → traverse fuel t k = Some l.
Proof.
  intros W. revert q fuel k. induction l as [|kv l IH]; intros q [|fuel] k Hn El Hf;
    simpl in Hf; try lia; simpl; rewrite Hn; [done|]. simpl.
  pose proof (first_pair_spec (drop q (slots t)) 0) as Hs. rewrite <-El in Hs.
  destruct (first_pair (drop q (slots t)) 0) as [[j kv']|]; [|done].
  destruct Hs as (n & _ & Hp & Hl & E). injection E as <- E.
  rewrite lookup_drop in Hp. rewrite drop_drop in E.
  destruct (live_slot_key t _ _ W Hp Hl) as [[Hk _] _].
  rewrite (IH (q + S n)%nat fuel kv.1); [done| |done|lia].
  destruct kv as [k' v']. cbn [fst] in *. rewrite (lj_tab_next_slot t _ _ _ W Hp Hk), E. do 4 f_equal. lia.
Qed.

Lemma traverse_entries t fuel :
  twf t → (length (entries t) < fuel)%nat → traverse fuel t TNil = Some (entries t).
Proof.
  intros W Hf. apply (traverse_from t _ 0); auto using lj_tab_next_nil.
Qed.

(** The entries are the map of the table, each key once. *)
Lemma entries_tlive t k v :
  twf t → key_ok k → canon k → (k, v) ∈ entries t ↔ tlive t k v.
Proof.
  intros W Hk Hc. unfold entries. rewrite list_elem_of_filter, list_elem_of_lookup.
  rewrite tlive_parts by (done || apply W). unfold live. simpl. split.
  - intros [Hl [p Hp]]. apply lookup_lt_Some in Hp as Hlt.
    assert (v ≠ TNil) by (intros ->; done).
    destruct (decide (p < length (array t))%nat) as [Hin|Hout].
    + rewrite slots_array in Hp by done. destruct (array t !! p) as [x|] eqn:Ex; [|done].
      injection Hp as <- <-. left. by exists p.
    + rewrite slots_node in Hp by lia. destruct (node t !! _) as [n|] eqn:Hn; [|done].
      injection Hp as <- <-. right. by eexists _, n.
  - intros [(p & -> & Hv & Hn)|(j & n & Hn & <- & <- & Hv)].
    + split; [by destruct v|]. exists p. rewrite slots_array by (by apply lookup_lt_Some in Hv).
      by rewrite Hv.
    + split; [by destruct (val n)|]. exists (length (array t) + j)%nat.
      rewrite slots_node by lia. replace (length (array t) + j - length (array t))%nat with j by lia.
      by rewrite Hn.
Qed.

Lemma slots_keys_inj t p q k v w :
  twf t → slots t !! p = Some (k, v) → slots t !! q = Some (k, w) → k ≠ TNil → p = q.
Proof.
  intros W Hp Hq Hk. pose proof (keyindex_slot t p k v W Hp Hk) as E.
  rewrite (keyindex_slot t q k w W Hq Hk) in E. injection E. lia.
Qed.

Lemma entries_NoDup t : twf t → NoDup (entries t).*1.
Proof.
  intros W. unfold entries.
  assert (∀ l, (∀ p q k v w, l !! p = Some (k, v) → l !! q = Some (k, w) →
    tvisnil v = false → p = q) → NoDup (filter live l).*1) as Hgen.
  { induction l as [|[k v] l IH]; intros Hd; [constructor|]. rewrite filter_cons.
    assert (NoDup (filter live l).*1) as Hl.
    { apply IH. intros p q k' v' w' Hp Hq Hv.
      pose proof (Hd (S p) (S q) k' v' w' Hp Hq Hv). lia. }
    destruct (decide (live (k, v))) as [Hlv|]; [|done]. simpl. constructor; [|done].
    intros ([k' w] & -> & Hin)%list_elem_of_fmap. apply list_elem_of_filter in Hin as [_ Hin].
    apply list_elem_of_lookup in Hin as [q Hq]. by discriminate (Hd 0%nat (S q) _ v w eq_refl Hq Hlv). }
  apply Hgen. intros p q k v w Hp Hq Hv.
  destruct (live_slot_key t p (k, v) W Hp Hv) as [[Hk _] _]. eauto using slots_keys_inj.
Qed.

End Next.
(** ** Length *)

Lemma bisect_spec P fuel i j :
  i < j → j - i ≤ 2 ^ Z.of_nat fuel → P j = false →
  i ≤ bisect P fuel i j < j ∧ (bisect P fuel i j = i ∨ P (bisect P fuel i j) = true) ∧
  P (bisect P fuel i j + 1) = false.
Proof.
  revert i j. induction fuel as [|fuel IH]; intros i j Hij Hb Hj; cbn [bisect].
  { change (2 ^ Z.of_nat 0) with 1 in Hb. replace (i + 1) with j by lia. auto with lia. }
  rewrite Nat2Z.inj_succ, Z.pow_succ_r in Hb by lia.
  destruct (1 <? j - i) eqn:E; bprop.
  2:{ replace (i + 1) with j by lia. auto with lia. }
  assert (i < (i + j) / 2 < j) by dlia.
  assert (j - (i + j) / 2 ≤ 2 ^ Z.of_nat fuel ∧ (i + j) / 2 - i ≤ 2 ^ Z.of_nat fuel) as [? ?] by dlia.
  destruct (P ((i + j) / 2)) eqn:Em.
  - destruct (IH ((i + j) / 2) j) as (? & [->|?] & ?); auto with lia.
  - destruct (IH i ((i + j) / 2)) as (? & ? & ?); auto with lia.
Qed.

Section Len.
Context `{ObjHeap} (t : GCtab) (W : twf t).

(** A border: the value at [n] is not nil (or [n] is 0), the next one is. *)
Definition border (n : Z) : Prop :=
  0 ≤ n ≤ INT_MAX - 2 ∧ (n = 0 ∨ ref_get t (num n) ≠ TNil) ∧ ref_get t (num (n + 1)) = TNil.

Lemma getint_ref j : in_s 32 j → deref t (lj_tab_getint t j) = Some (ref_get t (num j)).
Proof.
  intros Hj. rewrite <-get_is_ref by (done || by apply int2num_num).
  simpl. by rewrite num_isint_int2num, num2int_int2num.
Qed.

Lemma present_ref j : in_s 32 j → present t j = true ↔ ref_get t (num j) ≠ TNil.
Proof.
  intros Hj. unfold present, i32. rewrite wraps_id, getint_ref by (done || lia).
  by destruct (ref_get t (num j)).
Qed.

Lemma absent_ref j : in_s 32 j → present t j = false ↔ ref_get t (num j) = TNil.
Proof.
  intros Hj. rewrite <-not_true_iff_false, present_ref by done.
  destruct (decide (ref_get t (num j) = TNil)); tauto.
Qed.

Lemma pos_int j : 0 ≤ j ≤ INT_MAX → in_s 32 j.
Proof. unfold in_s, INT_MAX. simpl. lia. Qed.

(** [1 .. n] all present: there are as many slots. *)
Lemma present_bound n :
  0 ≤ n ≤ INT_MAX → (∀ j, 1 ≤ j ≤ n → present t j = true) → n ≤ Z.of_nat (slot_count t).
Proof.
  intros Hn Hp. rewrite <-slots_length.
  assert (Z.to_nat n ≤ length (slots t))%nat; [|lia].
  rewrite <-(length_fmap fst (slots t)), <-(length_seqZ 1 n), <-(length_fmap num).
  apply submseteq_length, NoDup_submseteq.
  - apply NoDup_fmap_2_strong; [|apply NoDup_seqZ].
    intros x y Hx%elem_of_seqZ Hy%elem_of_seqZ E. injection E.
    apply int2num_inj; apply pos_int; lia.
  - intros k (j & -> & Hj%elem_of_seqZ)%list_elem_of_fmap.
    assert (in_s 32 j) as Hr by (apply pos_int; lia).
    specialize (Hp j ltac:(lia)). apply present_ref in Hp; [|done].
    apply list_elem_of_fmap. exists (num j, ref_get t (num j)). split; [done|].
    assert ((num j, ref_get t (num j)) ∈ entries t) as Hin.
    { pose proof (int2num_key_ok j Hr). pose proof (norm_int j Hr).
      apply entries_tlive; [done..|]. by apply ref_get_tlive. }
    by apply list_elem_of_filter in Hin as [_ ?].
Qed.

Lemma slots_int : Z.of_nat (slot_count t) + 2 ≤ INT_MAX.
Proof.
  pose proof (tw_asize _ W) as Ha. pose proof (tw_hmask _ W) as Hh.
  pose proof (hw_len _ _ (tw_hash _ W)) as Hl.
  unfold slot_count, asize, LJ_MAX_ASIZE, LJ_MAX_ABITS, LJ_MAX_HBITS, INT_MAX in *. simpl in *. lia.
Qed.

Lemma linear_search_border fuel i :
  1 ≤ i → i + Z.of_nat fuel = Z.of_nat (slot_count t) + 2 →
  (∀ j, 1 ≤ j < i → present t j = true) → border (linear_search t fuel i).
Proof.
  pose proof slots_int as Hs. revert i. induction fuel as [|fuel IH]; intros i Hi Hf Hp.
  - pose proof (present_bound (i - 1)) as Hb. specialize (Hb ltac:(lia)).
    assert (i - 1 ≤ Z.of_nat (slot_count t)) by (apply Hb; intros; apply Hp; lia). lia.
  - cbn [linear_search]. destruct (present t i) eqn:E.
    + apply IH; [lia|lia|]. intros j Hj. destruct (decide (j = i)) as [->|]; [done|]. apply Hp. lia.
    + unfold border. rewrite Z.sub_add.
      split_and!; [lia|lia| |apply absent_ref; [apply pos_int; lia|done]].
      destruct (decide (i = 1)) as [->|]; [by left|right].
      apply present_ref; [apply pos_int; lia|]. apply Hp. lia.
Qed.

Lemma unbound_loop_border fuel i j :
  0 ≤ i < j → j ≤ INT_MAX - 2 → INT_MAX - 2 < j * 2 ^ Z.of_nat fuel →
  (i = 0 ∨ present t i = true) → border (unbound_loop t fuel i j).
Proof.
  pose proof slots_int as Hs.
  revert i j. induction fuel as [|fuel IH]; intros i j Hij Hj Hf Hi.
  { change (2 ^ Z.of_nat 0) with 1 in Hf. lia. }
  cbn [unbound_loop]. destruct (present t j) eqn:Ej.
  - destruct (INT_MAX - 2 <? 2 * j) eqn:Eo; bprop.
    + apply linear_search_border; lia.
    + apply IH; [lia|lia| |by right]. rewrite Nat2Z.inj_succ, Z.pow_succ_r in Hf by lia. lia.
  - destruct (bisect_spec (present t) SEARCH_BITS i j) as (Hr & Hp & Hn); [lia| |done|].
    { unfold INT_MAX in Hj. change (2 ^ Z.of_nat SEARCH_BITS) with (2 ^ 33). lia. }
    set (r := bisect _ _ _ _) in *. split; [lia|]. split.
    + destruct Hp as [E|Hp]; [rewrite E; destruct Hi as [->|Hi]; [by left|right]|right];
        (apply present_ref; [apply pos_int; lia|done]).
    + apply absent_ref; [apply pos_int; lia|done].
Qed.

(** Array slots through [ref_get]. *)
Lemma ref_get_arrayslot i : 0 ≤ i < asize t → ref_get t (num i) = arrayslot t i.
Proof.
  intros Hi. pose proof (tw_asize _ W) as Ha.
  assert (in_s 32 i) as Hr by (apply small_int_range; lia).
  unfold ref_get, num. rewrite (proj2 (arr_index_iff t (TNum (int2num i)) (Z.to_nat i) Ha
    (int2num_key_ok i Hr) (norm_int i Hr))); [done|].
  unfold asize in *. rewrite Z2Nat.id by lia. split; [lia|done].
Qed.

Lemma ref_get_no_hash i : hmask t = 0 → asize t ≤ i ≤ LJ_MAX_ASIZE → ref_get t (num i) = TNil.
Proof.
  intros Hh Hi. unfold ref_get, num. assert (0 ≤ asize t) by (unfold asize; lia).
  rewrite arr_index_beyond by (lia || apply W).
  pose proof (tw_free _ W) as Hf. unfold freetop_ok in Hf. rewrite Hh in Hf. simpl in Hf.
  destruct Hf as [-> _]. unfold hval, list_find. by case_decide.
Qed.

Lemma lj_tab_len_border : border (lj_tab_len t).
Proof.
  pose proof (tw_asize _ W) as Ha. assert (0 ≤ asize t) as H0 by (unfold asize; lia).
  assert (LJ_MAX_ASIZE + 2 ≤ INT_MAX - 2) as Hmax by (unfold INT_MAX; vm_compute; congruence).
  unfold lj_tab_len. destruct ((1 <? asize t) && tvisnil (arrayslot t (asize t - 1))) eqn:E.
  - apply andb_prop in E as [E1 E2]. bprop.
    destruct (bisect_spec (λ m, negb (tvisnil (arrayslot t (m - 1)))) SEARCH_BITS 1 (asize t))
      as (Hr & Hp & Hn); [lia| |by rewrite E2|].
    { change (2 ^ Z.of_nat SEARCH_BITS) with (2 ^ 33). unfold INT_MAX in Hmax. lia. }
    set (r := bisect _ _ _ _) in *. unfold border. rewrite Z.sub_add.
    rewrite !ref_get_arrayslot by lia. apply negb_false_iff in Hn.
    replace (r + 1 - 1) with r in Hn by lia. split; [lia|]. split; [|by destruct (arrayslot t r)].
    destruct Hp as [->|Hp]; [by left|right]. apply negb_true_iff in Hp. intros E. by rewrite E in Hp.
  - set (j := if negb (asize t =? 0) then asize t - 1 else asize t).
    assert (0 ≤ j ≤ asize t ∧ (j = 0 ∨ ref_get t (num j) ≠ TNil) ∧
      asize t ≤ j + 1 ≤ Z.max 1 (asize t)) as (Hj & Hp & Hj1).
    { subst j. destruct (asize t =? 0) eqn:Ez; bprop; cbn [negb]; [auto with lia|].
      split_and!; [lia|lia| |lia|lia]. destruct (decide (asize t = 1)) as [->|]; [by left|right].
      rewrite ref_get_arrayslot by lia. destruct E as [E|E]; [lia|].
      intros E'. by rewrite E' in E. }
    destruct (hmask t <=? 0) eqn:Eh; bprop.
    + split; [lia|]. split; [done|]. destruct (hw_pow _ _ (tw_hash _ W)) as (b & ? & ?).
      pose proof (Z.pow_pos_nonneg 2 b).
      assert (1 ≤ LJ_MAX_ASIZE) by (vm_compute; congruence). apply ref_get_no_hash; lia.
    + unfold unbound_search. apply unbound_loop_border; [lia|lia| |].
      * change (2 ^ Z.of_nat SEARCH_BITS) with (2 ^ 33). unfold INT_MAX. lia.
      * destruct Hp as [?|Hp]; [by left|right]. apply present_ref; [apply pos_int; lia|done].
Qed.

End Len.
(** ** Size, keys and values *)

Lemma entries_parts t :
  entries t = filter live (arr_slots 0 (array t)) ++ filter live (node_slot <$> node t).
Proof. unfold entries, slots. apply filter_app. Qed.

Lemma arr_entries_keys i vs : (filter live (arr_slots i vs)).*1 = array_keys_from i vs.
Proof.
  revert i. induction vs as [|v vs IH]; intros i; simpl; [done|]. rewrite filter_cons.
  destruct (decide (live _)) as [Hl|Hl]; unfold live in Hl; simpl in Hl.
  - rewrite Hl. simpl. by rewrite IH.
  - apply not_false_iff_true in Hl. rewrite Hl. apply IH.
Qed.

Lemma arr_entries_values i vs : (filter live (arr_slots i vs)).*2 = live_values vs.
Proof.
  unfold live_values. revert i. induction vs as [|v vs IH]; intros i; simpl; [done|].
  rewrite !filter_cons. destruct (decide (live _)) as [Hl|Hl]; unfold live in Hl; simpl in Hl.
  - rewrite decide_True by done. simpl. by rewrite IH.
  - rewrite decide_False by done. apply IH.
Qed.

Lemma node_entries {A} (f : TValue * TValue → A) ns :
  f <$> filter live (node_slot <$> ns) =
    flat_map (λ n, if tvisnil (val n) then [] else [f (node_slot n)]) ns.
Proof.
  induction ns as [|n ns IH]; [done|]. rewrite fmap_cons, filter_cons. cbn [flat_map].
  destruct (decide (live _)) as [Hl|Hl]; unfold live in Hl; simpl in Hl.
  - by rewrite fmap_cons, IH, Hl.
  - apply not_false_iff_true in Hl. rewrite Hl. apply IH.
Qed.

Lemma arr_entries_length i vs : Z.of_nat (length (filter live (arr_slots i vs))) = count_live vs.
Proof. by rewrite <-(length_fmap snd), arr_entries_values. Qed.

Lemma node_entries_length ns :
  Z.of_nat (length (filter live (node_slot <$> ns))) = count_live (val <$> ns).
Proof.
  induction ns as [|n ns IH]; [done|]. rewrite !fmap_cons, filter_cons, count_live_cons.
  destruct (decide (live _)) as [Hl|Hl]; unfold live in Hl; simpl in Hl.
  - rewrite Hl. simpl length. lia.
  - apply not_false_iff_true in Hl. rewrite Hl. lia.
Qed.

Lemma entries_length t :
  Z.of_nat (length (entries t)) = count_live (array t) + count_live (val <$> node t).
Proof. rewrite entries_parts, length_app, Nat2Z.inj_add, arr_entries_length, node_entries_length. done. Qed.

Lemma fill_spec vs idx t :
  (idx + length vs ≤ length (array t))%nat →
  fill vs idx t = Ret (idx + length vs)%nat
    (set_array (colo t) (take idx (array t) ++ vs ++ drop (idx + length vs) (array t)) t).
Proof.
  revert idx t. induction vs as [|v vs IH]; intros idx t Hl; simpl.
  - rewrite Nat.add_0_r, take_drop. by destruct t.
  - simpl in Hl. rewrite decide_True by lia. rewrite IH; simpl; [|rewrite length_insert; lia].
    rewrite Nat.add_succ_r. f_equal. unfold set_array. simpl. f_equal.
    rewrite (insert_take_drop (array t) idx v) by lia.
    rewrite take_app, length_take, Nat.min_l by lia.
    replace (S idx - idx)%nat with 1%nat by lia.
    rewrite (take_ge (take idx _)) by (rewrite length_take; lia).
    rewrite drop_app, length_take, Nat.min_l by lia.
    rewrite (drop_ge (take idx _)) by (rewrite length_take; lia).
    replace (S (idx + length vs) - idx)%nat with (S (length vs)) by lia.
    simpl. rewrite drop_drop, <-app_assoc. simpl. done.
Qed.

Section Builtins.
Context `{ObjHeap} (t : GCtab) (W : twf t).

Lemma no_hash_nodes : hmask t = 0 → node t = [empty_node].
Proof.
  intros E. pose proof (tw_free _ W) as Hf. unfold freetop_ok in Hf. rewrite E in Hf. apply Hf.
Qed.

Lemma tab_hsize_live : tab_hsize t = count_live (val <$> node t).
Proof.
  unfold tab_hsize. destruct (hmask t =? 0) eqn:E; bprop; [|done]. by rewrite no_hash_nodes.
Qed.

Lemma lj_tab_size_entries : lj_tab_size t = Z.of_nat (length (entries t)).
Proof. unfold lj_tab_size, tab_asize. by rewrite tab_hsize_live, entries_length. Qed.

Lemma intkey_count_entries :
  tab_aux_total_intkey_count t no_bins = Z.of_nat (length (entries t)).
Proof.
  unfold tab_aux_total_intkey_count.
  destruct (countarray_hist t (tw_asize _ W)) as (bins0 & -> & H0). unfold counthash.
  destruct (counthash_loop_hist (node t) 0 0 bins0 _ H0) as (bins1 & -> & _).
  rewrite entries_length. lia.
Qed.

Lemma hpart_all : take (Z.to_nat (if negb (hmask t =? 0) then hmask t + 1 else 0)) (node t) =
  if hmask t =? 0 then [] else node t.
Proof.
  destruct (hmask t =? 0); [done|]. simpl. apply take_ge.
  pose proof (hw_len _ _ (tw_hash _ W)). lia.
Qed.

(** The table that lists one component of every entry, from index 1. *)
Definition listing (l : list TValue) : list TValue := if l is [] then [] else TNil :: l.

Lemma copy_parts_listing arr part (f : TValue * TValue → TValue) dst :
  entries t ≠ [] →
  arr = f <$> filter live (arr_slots 0 (array t)) → (∀ n, f (node_slot n) = part n) →
  array dst = replicate (S (length (entries t))) TNil →
  ∃ dst', copy_parts t arr part dst = Ret () dst' ∧ array dst' = TNil :: (f <$> entries t) ∧
    node dst' = node dst ∧ hmask dst' = hmask dst ∧ freetop dst' = freetop dst ∧
    marked dst' = marked dst.
Proof.
  intros Hne Harr Hf Hdst.
  unfold copy_parts, asize. rewrite Hdst, length_replicate, (proj2 (Z.eqb_neq _ 0)) by lia.
  change (Z.to_nat TAB_ARR_EL_START_IDX) with 1%nat.
  assert (flat_map (λ n, if tvisnil (val n) then [] else [part n])
    (take (Z.to_nat (if negb (hmask t =? 0) then hmask t + 1 else 0)) (node t)) =
    f <$> filter live (node_slot <$> node t)) as Hh.
  { rewrite hpart_all, node_entries. destruct (hmask t =? 0) eqn:E; bprop.
    - by rewrite no_hash_nodes.
    - apply flat_map_ext. intros n. by rewrite Hf. }
  assert (length (arr ++ (f <$> filter live (node_slot <$> node t))) = length (entries t)) as Hlen.
  { by rewrite Harr, <-fmap_app, <-entries_parts, length_fmap. }
  rewrite length_app in Hlen. unfold M_bind at 1. rewrite fill_spec
    by (rewrite Hdst, length_replicate; simpl; lia).
  unfold tab_aux_copy_hpart, M_bind. rewrite Hh. rewrite fill_spec.
  2:{ simpl. rewrite Hdst, !length_app, length_take, length_drop, length_replicate in *. lia. }
  eexists. split; [reflexivity|]. split; [|done]. cbn [set_array array colo].
  set (A := take 1 (array dst) ++ arr ++ drop (1 + length arr) (array dst)).
  assert (A = (TNil :: arr) ++ drop (1 + length arr) (array dst)) as EA by (unfold A; by rewrite Hdst).
  assert (length A = S (length (entries t))) as HA.
  { rewrite EA, length_app, length_drop, Hdst, length_replicate. simpl. lia. }
  rewrite (drop_ge A) by lia. rewrite EA, (take_app_length' (TNil :: arr)), app_nil_r by done.
  by rewrite entries_parts, fmap_app, Harr.
Qed.

End Builtins.
(** ** [lj_tab_toset] *)

Lemma map_puts_true vs f k :
  map_puts f ((λ v, (v, TBool true)) <$> vs) k =
    if existsb (uj_obj_equal k) vs then TBool true else f k.
Proof.
  unfold map_puts. revert f. induction vs as [|v vs IH]; intros f; simpl; [done|].
  rewrite IH. unfold map_put. simpl. destruct (uj_obj_equal k v), (existsb _ vs); done.
Qed.

Section ToSet.
Context `{ObjHeap} (src : GCtab) (W : twf src).

Definition seq_values (i n : Z) : list TValue := (λ j, ref_get src (num j)) <$> seqZ i (n + 1 - i).

(** The first nil after a run of values, from index [i]. *)
Lemma first_border fuel i :
  1 ≤ i → i + Z.of_nat fuel = Z.of_nat (slot_count src) + 2 →
  (∀ j, 1 ≤ j < i → ref_get src (num j) ≠ TNil) →
  ∃ n, i ≤ n + 1 ∧ n < Z.of_nat (slot_count src) + 1 ∧
    (∀ j, 1 ≤ j ≤ n → ref_get src (num j) ≠ TNil) ∧ ref_get src (num (n + 1)) = TNil.
Proof.
  pose proof (slots_int src W) as Hs. revert i. induction fuel as [|fuel IH]; intros i Hi Hf Hp.
  - exfalso. assert (i - 1 ≤ Z.of_nat (slot_count src)); [|lia].
    apply (present_bound src W); [lia|]. intros j Hj. apply present_ref; [done|apply pos_int; lia|].
    apply Hp. lia.
  - destruct (decide (ref_get src (num i) = TNil)) as [E|E].
    + exists (i - 1). rewrite Z.sub_add. split_and!; [lia|lia| |done]. intros j Hj. apply Hp. lia.
    + destruct (IH (i + 1)) as (n & Hn & Hr); [lia|lia| |].
      * intros j Hj. destruct (decide (j = i)) as [->|]; [done|]. apply Hp. lia.
      * exists n. split; [lia|done].
Qed.

Lemma toset_loop_puts n fuel i t :
  1 ≤ i ≤ n + 1 → n + 1 ≤ INT_MAX → n + 1 - i < Z.of_nat fuel →
  (∀ j, 1 ≤ j ≤ n → ref_get src (num j) ≠ TNil) → ref_get src (num (n + 1)) = TNil →
  toset_loop src fuel i t = run_puts ((λ v, (v, TBool true)) <$> seq_values i n) t.
Proof.
  intros Hi Hmax Hf Hp Hn. revert i t Hi Hf. induction fuel as [|fuel IH]; intros i t Hi Hf; [lia|].
  cbn [toset_loop]. rewrite getint_ref by (done || apply pos_int; lia).
  destruct (decide (i = n + 1)) as [->|Hne].
  - rewrite Hn. unfold seq_values. by rewrite Z.sub_diag.
  - specialize (Hp i ltac:(lia)) as Hpi. unfold seq_values. rewrite seqZ_cons by lia.
    rewrite !fmap_cons. cbn [run_puts]. unfold M_bind.
    replace (Z.pred (n + 1 - i)) with (n + 1 - Z.succ i) by lia.
    fold (seq_values (Z.succ i) n).
    destruct (ref_get src (num i)) eqn:E; [done|..];
      (destruct (tab_put _ _ t) as [[] t1| |]; [|done..]; rewrite (IH (i + 1)) by lia; done).
Qed.

End ToSet.
End TabIterSpec.
