(* ===== verification/TabIterTheorems.v ===== *)
(** * The theorems on traversal, length and the table built-ins *)

From stdpp Require Import base decidable list numbers option sets.
From Stdlib Require Import ZArith Lia.
From S2P Require Import Prelude Obj Tab TabChain TabWf TabPut TabResize TabRehash TabSpec.
From S2P Require Import TabTheorems TabIter TabIterSpec.

Local Open Scope Z_scope.

Module TabIterTheorems.
Import Obj Tab TabChain TabWf TabPut TabResize TabRehash TabSpec TabTheorems TabIter TabIterSpec.

#[local] Existing Instance demo_heap.

(** [lj_tab_next] called on the key of any storage slot, live or already
    removed, returns the first live pair stored after it (none at the end); on
    nil it starts the traversal; on a number that a despecialised iterator left
    behind it resumes at the storage index in its lower word. *)
Theorem lj_tab_next_correct `{ObjHeap} t (W : twf t) :
  (∀ p k v, slots t !! p = Some (k, v) → k ≠ TNil →
     lj_tab_next t k = Ret (head (filter live (drop (S p) (slots t)))) t) ∧
  lj_tab_next t TNil = Ret (head (filter live (slots t))) t ∧
  (∀ i, 0 ≤ i < 2 ^ 32 →
     lj_tab_next t (TNum (LJ_ITERN_MARK * 2 ^ 32 + i)) =
       Ret (head (filter live (drop (Z.to_nat i) (slots t)))) t).
Proof.
  split_and!.
  - intros p k v Hp Hk. by eapply lj_tab_next_slot.
  - by apply lj_tab_next_nil.
  - intros i Hi. destruct (itern_mark_number i Hi) as (Ht & Hnan & Hm).
    set (x := LJ_ITERN_MARK * 2 ^ 32 + i) in *. clearbody x.
    pose proof (keyindex_marked t x i W Ht Hnan Hm) as Ek.
    destruct (decide (i = 0)) as [E0|].
    + unfold lj_tab_next. rewrite Ek. subst i. change (u32 (u32 (0 - 1) + 1)) with 0.
      rewrite tab_next_slots by done. rewrite drop_0, <-(first_pair_head _ 0).
      by destruct (first_pair _ _) as [[p kv]|].
    + assert (u32 (i - 1) = i - 1) as Eu by (apply wrapu_id; unfold in_u; lia).
      rewrite Eu in Ek. rewrite (lj_tab_next_from t _ (i - 1)) by (done || lia).
      by rewrite Z.sub_add.
Qed.

Lemma lj_tab_next_correct_witness :
  lj_tab_next demo_tab TNil = Ret (Some (num 0, num 70)) demo_tab.
Proof.
  destruct demo_tab_wf as [W _]. destruct (lj_tab_next_correct demo_tab W) as (_ & E & _).
  rewrite E. vm_compute. reflexivity.
Defined.

(** C39: a traversal with [lj_tab_next] from nil ends after as many steps as
    there are live pairs, visits every key with a non-nil value exactly once,
    with that value, and nothing else. *)
Theorem traverse_correct `{ObjHeap} t (W : twf t) :
  ∃ l, traverse (S (slot_count t)) t TNil = Some l ∧ NoDup l.*1 ∧
    (∀ k v, key_ok k → canon k →
       (k, v) ∈ l ↔ v ≠ TNil ∧ lj_tab_get t k = Some v) ∧
    (∀ k v, (k, v) ∈ l → key_ok k ∧ canon k) ∧
    Z.of_nat (length l) = lj_tab_size t.
Proof.
  exists (entries t). split_and!.
  - apply traverse_entries; [done|]. rewrite <-slots_length. unfold entries.
    pose proof (length_filter live (slots t)). lia.
  - by apply entries_NoDup.
  - intros k v Hk Hc. rewrite entries_tlive, <-ref_get_tlive by done.
    rewrite get_is_ref by (done || by apply key_ok_tv_ok). split.
    + intros [-> ?]. done.
    + intros [? E]. by injection E as ->.
  - intros k v Hin. apply list_elem_of_filter in Hin as [Hl Hin].
    apply list_elem_of_lookup in Hin as [p Hp]. by apply (live_slot_key t p (k, v)).
  - by rewrite lj_tab_size_entries.
Qed.

Lemma traverse_correct_witness :
  ∃ l, traverse (S (slot_count demo_tab)) demo_tab TNil = Some l ∧ NoDup l.*1 ∧
    (str 48, num 60) ∈ l.
Proof.
  destruct demo_tab_wf as [W _]. destruct (traverse_correct demo_tab W) as (l & E & Hd & Hl & _).
  exists l. split; [exact E|]. split; [exact Hd|]. apply Hl.
  - vm_compute. split; congruence.
  - reflexivity.
  - split; [discriminate|]. vm_compute. reflexivity.
Defined.

(** C40: [lj_tab_len] terminates with a border: the value at the length is not
    nil (unless the length is 0) and the value after it is nil, for every
    well-formed table, also when the search for an upper bound overflows. *)
Theorem lj_tab_len_correct `{ObjHeap} t (W : twf t) :
  let n := lj_tab_len t in
  (n = 0 ∨ lj_tab_get t (num n) ≠ Some TNil) ∧ lj_tab_get t (num (n + 1)) = Some TNil ∧
  0 ≤ n ≤ INT_MAX - 2.
Proof.
  intros n. destruct (lj_tab_len_border t W) as (Hr & Hn & Hs). fold n in Hr, Hn, Hs.
  rewrite !get_is_ref by (done || (apply int2num_num, pos_int; lia)).
  rewrite Hs. split_and!; [|done|lia|lia]. destruct Hn as [?|Hn]; [by left|right; congruence].
Qed.

Lemma lj_tab_len_correct_witness : lj_tab_len demo_tab = 3 ∧ lj_tab_get demo_tab (num 4) = Some TNil.
Proof.
  destruct demo_tab_wf as [W _]. destruct (lj_tab_len_correct demo_tab W) as (_ & E & _).
  assert (lj_tab_len demo_tab = 3) as El by (vm_compute; reflexivity).
  rewrite El in E. split; [exact El|exact E].
Defined.

(** [lj_tab_keys] and [lj_tab_values] return fresh array tables that list,
    from index 1, the keys and the values of the live pairs in traversal order;
    they fail exactly when the array would exceed its limit. *)
Theorem lj_tab_keys_values_correct `{ObjHeap} t (W : twf t) :
  if bool_decide (lj_tab_size t + 1 ≤ LJ_MAX_ASIZE)
  then ∃ tk tv, lj_tab_keys t = Ret () tk ∧ lj_tab_values t = Ret () tv ∧ twf tk ∧ twf tv ∧
         array tk = listing (entries t).*1 ∧ array tv = listing (entries t).*2
  else ∃ t1 t2, lj_tab_keys t = Throw UJ_ERR_TABOV t1 ∧ lj_tab_values t = Throw UJ_ERR_TABOV t2.
Proof.
  rewrite lj_tab_size_entries by done. unfold lj_tab_keys, lj_tab_values, tab_aux_new_apart, M_bind.
  rewrite intkey_count_entries by done. unfold TAB_ARR_EL_START_IDX.
  set (n := length (entries t)). case_bool_decide as Hn.
  - destruct (decide (entries t = [])) as [E|E].
    + assert (n = 0%nat) as -> by (unfold n; by rewrite E).
      destruct (newtab_fresh 0 0) as (d & Ed & Wd & _ & Ea & _); [done..|].
      assert (array d = []) as Earr by (unfold asize in Ea; destruct (array d); [done|simpl in Ea; lia]).
      unfold lj_tab_new. change (if negb (Z.of_nat 0 =? 0) then Z.of_nat 0 + 1 else 0) with 0.
      rewrite Ed. unfold copy_parts. rewrite Ea. exists d, d. rewrite E. done.
    + assert (n ≠ 0%nat) as Hn0 by (unfold n; by destruct (entries t)).
      rewrite (proj2 (Z.eqb_neq _ 0)) by lia. cbn [negb].
      destruct (newtab_array (Z.of_nat n + 1)) as (d & Ed & Wd & Ed2); [lia|]. unfold lj_tab_new. rewrite Ed.
      replace (Z.to_nat (Z.of_nat n + 1)) with (S n) in Ed2 by lia.
      destruct (copy_parts_listing t W (array_keys_from 0 (array t)) key fst d)
        as (dk & Ek & Ak & ? & ? & ? & ?); auto using arr_entries_keys.
      destruct (copy_parts_listing t W (live_values (array t)) val snd d)
        as (dv & Ev & Av & ? & ? & ? & ?); auto using arr_entries_values.
      exists dk, dv. rewrite Ek, Ev, Ak, Av. split_and!; [done..| | | |].
      * eapply twf_ext; [..|exact Wd]; auto. rewrite Ak, Ed2. simpl.
        by rewrite length_fmap, length_replicate.
      * eapply twf_ext; [..|exact Wd]; auto. rewrite Av, Ed2. simpl.
        by rewrite length_fmap, length_replicate.
      * by destruct (entries t).
      * by destruct (entries t).
  - assert (1 ≤ LJ_MAX_ASIZE) by (vm_compute; congruence).
    assert (LJ_MAX_COLOSIZE ≤ LJ_MAX_ASIZE) by (vm_compute; congruence).
    rewrite (proj2 (Z.eqb_neq _ 0)) by lia. cbn [negb]. unfold lj_tab_new, newtab.
    rewrite (proj2 (Z.leb_gt _ LJ_MAX_COLOSIZE)), andb_false_r by lia.
    rewrite (proj2 (Z.ltb_lt LJ_MAX_ASIZE _)) by lia. eexists _, _. done.
Qed.

Lemma lj_tab_keys_values_correct_witness :
  ∃ tk, lj_tab_keys demo_tab = Ret () tk ∧ array tk = TNil :: (entries demo_tab).*1.
Proof.
  destruct demo_tab_wf as [W _]. pose proof (lj_tab_keys_values_correct demo_tab W) as R.
  rewrite bool_decide_eq_true_2 in R by (vm_compute; congruence).
  destruct R as (tk & tv & E & _ & _ & _ & Ek & _). exists tk. split; [exact E|].
  rewrite Ek. vm_compute. reflexivity.
Defined.

(** [lj_tab_toset] of a table whose sequence [t[1] .. t[n]] holds no NaN
    returns the set of these values: looking up a key gives true if it equals one
    of them, nil otherwise (the overflow error apart). *)
Theorem lj_tab_toset_correct `{ObjHeap} src (W : twf src)
    (Hsz : asize src - 1 ≤ 2 ^ LJ_MAX_HBITS) :
  ∃ n, 0 ≤ n ∧ (∀ j, 1 ≤ j ≤ n → ref_get src (num j) ≠ TNil) ∧
    ref_get src (num (n + 1)) = TNil ∧
    ((∀ v, v ∈ seq_values src 1 n → key_ok v) →
     (∃ dst, lj_tab_toset src = Ret () dst ∧ twf dst ∧
        ∀ k, tv_ok k → lj_tab_get dst k =
          Some (if existsb (uj_obj_equal k) (seq_values src 1 n) then TBool true else TNil)) ∨
     (∃ dst, lj_tab_toset src = Throw UJ_ERR_TABOV dst)).
Proof.
  pose proof (slots_int src W) as Hs.
  destruct (first_border src W (S (slot_count src)) 1) as (n & Hn & Hmax & Hp & Hb); [lia..|].
  exists n. split_and!; [lia|done..|]. intros Hok. unfold lj_tab_toset.
  set (s := if negb (asize src =? 0) then asize src - TAB_ARR_EL_START_IDX else 0).
  assert (0 ≤ s ≤ 2 ^ LJ_MAX_HBITS) as Hs0.
  { assert (0 ≤ asize src) by (unfold asize; lia). subst s. unfold TAB_ARR_EL_START_IDX.
    destruct (asize src =? 0) eqn:E; bprop; simpl in *; lia. }
  destruct (hsize2hbits_ok s) as (Hh0 & _ & Hh1); [lia|].
  destruct (newtab_fresh 0 (hsize2hbits s)) as (d & Ed & Wd & Hm & _ & _ & _ & Hnil);
    [done|split; [done|apply Hh1; lia]|].
  unfold M_bind. rewrite Ed.
  rewrite (toset_loop_puts src W n) by (done || unfold TAB_ARR_EL_START_IDX; lia).
  destruct (run_puts_spec ((λ v, (v, TBool true)) <$> seq_values src TAB_ARR_EL_START_IDX n) d Wd Hm)
    as [(d' & -> & W' & _ & G)|(d' & ->)].
  - intros k v Hin. apply list_elem_of_fmap in Hin as (v' & E & Hin). injection E as -> _. by apply Hok.
  - left. exists d'. split_and!; auto. intros k Hk. by rewrite (G k Hk), map_puts_true, Hnil.
  - right. by exists d'.
Qed.

Lemma lj_tab_toset_correct_witness :
  ∃ n, (∀ j, 1 ≤ j ≤ n → ref_get demo_tab (num j) ≠ TNil) ∧ ref_get demo_tab (num (n + 1)) = TNil.
Proof.
  destruct demo_tab_wf as [W _].
  destruct (lj_tab_toset_correct demo_tab W) as (n & _ & Hp & Hn & _).
  - vm_compute. congruence.
  - exists n. split; [exact Hp|exact Hn].
Defined.

(** ** Keys stored under another key *)

(** [lj_tab_newkey] normalises -0 by looking at the payload of the key
    only, and the payload of a boolean is what its slot held before: a boolean
    key computed in a slot that last held -0 is stored as the number 0.  The
    assigned value cannot be read back under the boolean, and a traversal
    returns it under a key that was never assigned. *)
Theorem bool_key_stale_payload `{ObjHeap} b v (Hraw : pri_raw b = 2 ^ 63) (Hv : v ≠ TNil) :
  ∃ t0 t', lj_tab_new 0 1 = Ret () t0 ∧ tab_put (TBool b) v t0 = Ret () t' ∧
    lj_tab_get t' (TBool b) = Some TNil ∧
    lj_tab_next t' TNil = Ret (Some (num 0, v)) t'.
Proof.
  set (n := if b then 1%nat else 0%nat).
  set (t0 := ret_tab (lj_tab_new 0 1)).
  assert (store_key (TBool b) = TNum 0) as Hk by (unfold store_key, key_raw; by rewrite Hraw).
  assert (tab_set (TBool b) t0 =
    Ret (HSlot n) (set_node (alter (set_key (store_key (TBool b))) n (node t0)) (set_nomm 0 t0)))
    as Hset by (by destruct b).
  exists t0, (set_node (alter (λ _, MkNode (TNum 0) v None) n (node t0)) (set_nomm 0 t0)).
  split_and!; [reflexivity| |by destruct b|by destruct b, v].
  unfold tab_put, M_bind, store, modify. rewrite Hset, Hk. by destruct b.
Qed.

Lemma bool_key_stale_payload_witness :
  let H := MkHeap (λ s, s) (λ _, 2 ^ 63) in
  ∃ t0 t', lj_tab_new 0 1 = Ret () t0 ∧ tab_put (TBool true) (num 1) t0 = Ret () t' ∧
    lj_tab_get t' (TBool true) = Some TNil ∧
    lj_tab_next t' TNil = Ret (Some (num 0, num 1)) t'.
Proof.
  intros H. apply (bool_key_stale_payload true (num 1)).
  - reflexivity.
  - discriminate.
Defined.

End TabIterTheorems.
