(* ===== verification/StrHash.v ===== *)
(** * The string hash functions (utils/strhash)

    The three functions a state can use to hash strings: LuaJIT's original
    one, MurmurHash3 and CityHash32.  A buffer is a list of octets; a load of
    four octets at an offset is [None] outside the buffer, so a result [Some h]
    also says that the function only read the string. *)

From stdpp Require Import base decidable list numbers option.
From Stdlib Require Import ZArith Lia.
From S2P Require Import Prelude Obj.

Local Open Scope Z_scope.

Module StrHash.
Import Obj.

(** ** Loads and word operations *)

Definition byte_at (s : list Z) (i : Z) : option Z :=
  if bool_decide (0 ≤ i) then s !! Z.to_nat i else None.

(** Little-endian load of four octets. *)
Definition lj_getu32 (s : list Z) (i : Z) : option Z :=
  b0 ← byte_at s i; b1 ← byte_at s (i + 1); b2 ← byte_at s (i + 2); b3 ← byte_at s (i + 3);
  Some (u32 (b0 + 2 ^ 8 * b1 + 2 ^ 16 * b2 + 2 ^ 24 * b3)).

Definition Fetch32 : list Z → Z → option Z := lj_getu32.

Definition mul32 (a b : Z) : Z := u32 (a * b).
Definition add32 (a b : Z) : Z := u32 (a + b).
Definition sub32 (a b : Z) : Z := u32 (a - b).

Definition slen (s : list Z) : Z := Z.of_nat (length s).

(** ** utils/strhash/luajit2.c *)

Definition strhash_luajit2 (s : list Z) : option Z :=
  let len := u32 (slen s) in
  '(a, b, h) ←
    (if 4 <=? len then
       a ← lj_getu32 s 0;
       x ← lj_getu32 s (len - 4);
       b ← lj_getu32 s (Z.shiftr len 1 - 2);
       let h := Z.lxor len x in
       let h := Z.lxor h b in
       let h := sub32 h (lj_rol b 14) in
       y ← lj_getu32 s (Z.shiftr len 2 - 1);
       Some (a, add32 b y, h)
     else
       a ← byte_at s 0;
       x ← byte_at s (u32 (len - 1));
       b ← byte_at s (Z.shiftr len 1);
       let h := Z.lxor len x in
       let h := Z.lxor h b in
       Some (a, b, sub32 h (lj_rol b 14)));
  let a := Z.lxor a h in
  let a := sub32 a (lj_rol h 11) in
  let b := Z.lxor b a in
  let b := sub32 b (lj_rol a 25) in
  let h := Z.lxor h b in
  Some (sub32 h (lj_rol b 16)).

(** ** utils/strhash/murmur3.c *)

Definition MURMUR3_SEED : Z := 0xdeadbeef.
Definition c1 : Z := 0xcc9e2d51.
Definition c2 : Z := 0x1b873593.

Definition fmix32 (h : Z) : Z :=
  let h := Z.lxor h (Z.shiftr h 16) in
  let h := mul32 h 0x85ebca6b in
  let h := Z.lxor h (Z.shiftr h 13) in
  let h := mul32 h 0xc2b2ae35 in
  Z.lxor h (Z.shiftr h 16).

Fixpoint murmur_body (s : list Z) (nblocks : nat) (i h1 : Z) : option Z :=
  match nblocks with
  | O => Some h1
  | S n =>
      k1 ← lj_getu32 s (Z.shiftl i 2);
      let k1 := mul32 (lj_rol (mul32 k1 c1) 15) c2 in
      let h1 := lj_rol (Z.lxor h1 k1) 13 in
      murmur_body s n (i + 1) (add32 (mul32 h1 5) 0xe6546b64)
  end.

(** The fall-through [switch] on the last [len & 3] octets. *)
Definition murmur_tail (s : list Z) (tail len h1 : Z) : option Z :=
  let r := Z.land len 3 in
  if r =? 0 then Some h1
  else
    k1 ← (if r =? 3 then (λ b, Z.shiftl b 16) <$> byte_at s (tail + 2) else Some 0);
    k1 ← (if 2 <=? r then (λ b, Z.lxor k1 (Z.shiftl b 8)) <$> byte_at s (tail + 1) else Some k1);
    b ← byte_at s tail;
    let k1 := Z.lxor k1 b in
    Some (Z.lxor h1 (mul32 (lj_rol (mul32 k1 c1) 15) c2)).

Definition MurmurHash3_x86_32 (s : list Z) (seed : Z) : option Z :=
  let len := u32 (slen s) in
  let nblocks := Z.shiftr len 2 in
  h1 ← murmur_body s (Z.to_nat nblocks) 0 seed;
  h1 ← murmur_tail s (Z.shiftl nblocks 2) len h1;
  Some (fmix32 (Z.lxor h1 len)).

Definition strhash_murmur3 (s : list Z) : option Z := MurmurHash3_x86_32 s MURMUR3_SEED.

(** ** utils/strhash/city.c *)

Definition fmix : Z → Z := fmix32.

Definition Rotate32 (v shift : Z) : Z :=
  if shift =? 0 then v else Z.lor (Z.shiftr v shift) (u32 (Z.shiftl v (32 - shift))).

Definition bswap_32 (x : Z) : Z :=
  Z.shiftl (Z.land x 0xff) 24 + Z.shiftl (Z.land (Z.shiftr x 8) 0xff) 16 +
  Z.shiftl (Z.land (Z.shiftr x 16) 0xff) 8 + Z.land (Z.shiftr x 24) 0xff.

Definition Mur (a h : Z) : Z :=
  let a := mul32 (Rotate32 (mul32 a c1) 17) c2 in
  let h := Rotate32 (Z.lxor h a) 19 in
  add32 (mul32 h 5) 0xe6546b64.

Definition Hash32Len13to24 (s : list Z) : option Z :=
  let len := slen s in
  a ← Fetch32 s (- 4 + Z.shiftr len 1);
  b ← Fetch32 s 4;
  c ← Fetch32 s (len - 8);
  d ← Fetch32 s (Z.shiftr len 1);
  e ← Fetch32 s 0;
  f ← Fetch32 s (len - 4);
  Some (fmix (Mur f (Mur e (Mur d (Mur c (Mur b (Mur a (u32 len)))))))).

Definition schar (b : Z) : Z := wraps 8 b.

Fixpoint len0to4_loop (s : list Z) (b c : Z) : Z * Z :=
  match s with
  | [] => (b, c)
  | v :: s' =>
      let b := add32 (mul32 b c1) (schar v) in
      len0to4_loop s' b (Z.lxor c b)
  end.

Definition Hash32Len0to4 (s : list Z) : Z :=
  let '(b, c) := len0to4_loop s 0 9 in fmix (Mur b (Mur (u32 (slen s)) c)).

Definition Hash32Len5to12 (s : list Z) : option Z :=
  let len := slen s in
  let b := u32 (len * 5) in
  x ← Fetch32 s 0;
  y ← Fetch32 s (len - 4);
  z ← Fetch32 s (Z.land (Z.shiftr len 1) 4);
  Some (fmix (Mur (add32 9 z) (Mur (add32 b y) (Mur (add32 (u32 len) x) b)))).

(** [PERMUTE3] takes its arguments by value. *)
Definition PERMUTE3 (f h g : Z) : Z * Z * Z := (f, h, g).

Section City.
(** What the loop does to its three accumulators at the end of an iteration. *)
Context (permute : Z → Z → Z → Z * Z * Z).

Definition mix5 (x sh : Z) : Z := add32 (mul32 (Rotate32 x sh) 5) 0xe6546b64.

Fixpoint city_loop (s : list Z) (iters : nat) (p f g h : Z) : option (Z * Z * Z) :=
  match iters with
  | O => Some (f, g, h)
  | S n =>
      x0 ← Fetch32 s p;
      a1 ← Fetch32 s (p + 4);
      x2 ← Fetch32 s (p + 8);
      x3 ← Fetch32 s (p + 12);
      a4 ← Fetch32 s (p + 16);
      let a0 := mul32 (Rotate32 (mul32 x0 c1) 17) c2 in
      let a2 := mul32 (Rotate32 (mul32 x2 c1) 17) c2 in
      let a3 := mul32 (Rotate32 (mul32 x3 c1) 17) c2 in
      let h := mix5 (Z.lxor h a0) 18 in
      let f := mul32 (Rotate32 (add32 f a1) 19) c1 in
      let g := mix5 (add32 g a2) 18 in
      let h := mix5 (Z.lxor h (add32 a3 a1)) 19 in
      let g := mul32 (bswap_32 (Z.lxor g a4)) 5 in
      let h := bswap_32 (add32 h (mul32 a4 5)) in
      let f := add32 f a0 in
      let '(f, h, g) := permute f h g in
      city_loop s n (p + 20) f g h
  end.

Definition city_finish (f g h : Z) : Z :=
  let g := mul32 (Rotate32 g 11) c1 in
  let g := mul32 (Rotate32 g 17) c1 in
  let f := mul32 (Rotate32 f 11) c1 in
  let f := mul32 (Rotate32 f 17) c1 in
  let h := mix5 (add32 h g) 19 in
  let h := mul32 (Rotate32 h 17) c1 in
  let h := mix5 (add32 h f) 19 in
  mul32 (Rotate32 h 17) c1.

Definition CityHash32_with (s : list Z) : option Z :=
  let len := slen s in
  if len <=? 24 then
    if len <=? 12 then
      if len <=? 4 then Some (Hash32Len0to4 s) else Hash32Len5to12 s
    else Hash32Len13to24 s
  else
    let g := mul32 c1 (u32 len) in
    y0 ← Fetch32 s (len - 4);
    y1 ← Fetch32 s (len - 8);
    y2 ← Fetch32 s (len - 16);
    y3 ← Fetch32 s (len - 12);
    y4 ← Fetch32 s (len - 20);
    let pre y := mul32 (Rotate32 (mul32 y c1) 17) c2 in
    let h := mix5 (Z.lxor (u32 len) (pre y0)) 19 in
    let h := mix5 (Z.lxor h (pre y2)) 19 in
    let g' := mix5 (Z.lxor g (pre y1)) 19 in
    let g' := mix5 (Z.lxor g' (pre y3)) 19 in
    let f := mix5 (add32 g (pre y4)) 19 in
    '(f, g, h) ← city_loop s (Z.to_nat ((len - 1) / 20)) 0 f g' h;
    Some (city_finish f g h).

End City.

Definition CityHash32 : list Z → option Z := CityHash32_with PERMUTE3.
Definition strhash_city (s : list Z) : option Z := CityHash32 s.

(** ** Loads inside the buffer *)

Definition bytes (s : list Z) : Prop := Forall (in_u 8) s.

Lemma byte_at_in s i : bytes s → 0 ≤ i < slen s → ∃ b, byte_at s i = Some b ∧ in_u 8 b.
Proof.
  intros Hs Hi. unfold slen in Hi. destruct (lookup_lt_is_Some_2 s (Z.to_nat i)) as [b Hb]; [lia|].
  exists b. unfold byte_at. rewrite bool_decide_eq_true_2 by lia. split; [done|].
  by eapply Forall_lookup_1.
Qed.

Lemma getu32_in s i : bytes s → 0 ≤ i → i + 4 ≤ slen s → ∃ x, lj_getu32 s i = Some x ∧ in_u 32 x.
Proof.
  intros Hs Hi Hl. unfold lj_getu32.
  destruct (byte_at_in s i) as (b0 & -> & _); [done|lia|].
  destruct (byte_at_in s (i + 1)) as (b1 & -> & _); [done|lia|].
  destruct (byte_at_in s (i + 2)) as (b2 & -> & _); [done|lia|].
  destruct (byte_at_in s (i + 3)) as (b3 & -> & _); [done|lia|].
  simpl. eexists. split; [done|]. by apply wrapu_range.
Qed.

(** Replace the next load of the goal by its value. *)
Ltac load Hs :=
  match goal with
  | |- context [lj_getu32 ?s ?i] =>
      let x := fresh "x" in let Hx := fresh "Hx" in
      destruct (getu32_in s i Hs) as (x & -> & Hx); [lia|lia|simpl]
  | |- context [byte_at ?s ?i] =>
      let x := fresh "x" in let Hx := fresh "Hx" in
      destruct (byte_at_in s i Hs) as (x & -> & Hx); [lia|simpl]
  end.

Lemma u32_range x : in_u 32 (u32 x).
Proof. by apply wrapu_range. Qed.

Lemma lxor_range w a b : 0 ≤ w → in_u w a → in_u w b → in_u w (Z.lxor a b).
Proof.
  intros Hw [Ha1 Ha2] [Hb1 Hb2]. split; [by apply Z.lxor_nonneg|].
  destruct (decide (Z.lxor a b = 0)) as [->|Hn]; [by apply Z.pow_pos_nonneg|].
  apply Z.log2_lt_pow2; [pose proof (proj2 (Z.lxor_nonneg a b)); lia|].
  pose proof (Z.log2_lxor a b Ha1 Hb1).
  assert (∀ c, 0 ≤ c < 2 ^ w → Z.log2 c < w ∨ w = 0) as Hlog.
  { intros c Hc. destruct (decide (w = 0)) as [|]; [by right|left].
    destruct (decide (c = 0)) as [->|]; [simpl; lia|]. apply Z.log2_lt_pow2; lia. }
  destruct (Hlog a) as [|E]; [done| |subst w; simpl in *; assert (a = 0 ∧ b = 0) as [-> ->] by lia; done].
  destruct (Hlog b) as [|E]; [done| |subst w; simpl in *; assert (a = 0 ∧ b = 0) as [-> ->] by lia; done].
  lia.
Qed.

Lemma shiftr_range w a n : 0 ≤ n → in_u w a → in_u w (Z.shiftr a n).
Proof.
  intros Hn [H1 H2]. rewrite Z.shiftr_div_pow2 by done. pose proof (Z.pow_pos_nonneg 2 n).
  split; [by apply Z.div_pos; lia|]. apply Z.le_lt_trans with a; [|done].
  apply Z.div_le_upper_bound; nia.
Qed.

Lemma fmix32_range h : in_u 32 (fmix32 h).
Proof.
  unfold fmix32, mul32. apply lxor_range; [done|apply u32_range|].
  apply shiftr_range; [done|apply u32_range].
Qed.

Lemma murmur_body_in s n i h1 :
  bytes s → 0 ≤ i → 4 * (i + Z.of_nat n) ≤ slen s → is_Some (murmur_body s n i h1).
Proof.
  intros Hs. revert i h1. induction n as [|n IH]; intros i h1 Hi Hl; [by eexists|].
  cbn [murmur_body]. rewrite Z.shiftl_mul_pow2 by done. change (2 ^ 2) with 4. load Hs.
  apply IH; lia.
Qed.

Lemma murmur_tail_in s tail len h1 :
  bytes s → 0 ≤ tail → 0 ≤ len → tail + len `mod` 4 ≤ slen s → is_Some (murmur_tail s tail len h1).
Proof.
  intros Hs Ht Hl Hin. unfold murmur_tail.
  assert (Z.land len 3 = len `mod` 4) as -> by (by apply (Z.land_ones len 2)). pose proof (Z.mod_pos_bound len 4).
  set (r := len `mod` 4) in *. destruct (r =? 0) eqn:E0; bprop; [by eexists|].
  destruct (r =? 3) eqn:E3, (2 <=? r) eqn:E2; bprop; try lia; simpl; repeat load Hs; by eexists.
Qed.

Lemma city_loop_in pm s n p f g h :
  bytes s → 0 ≤ p → p + 20 * Z.of_nat n ≤ slen s → is_Some (city_loop pm s n p f g h).
Proof.
  intros Hs. revert p f g h. induction n as [|n IH]; intros p f g h Hp Hl; [by eexists|].
  cbn [city_loop]. unfold Fetch32. do 5 load Hs. destruct (pm _ _ _) as [[f' h'] g'].
  apply IH; lia.
Qed.

Lemma luajit2_in s :
  bytes s → u32 (slen s) = slen s → 1 ≤ slen s → ∃ h, strhash_luajit2 s = Some h ∧ in_u 32 h.
Proof.
  intros Hs Hlen H1. unfold strhash_luajit2. rewrite Hlen.
  rewrite !Z.shiftr_div_pow2 by done. change (2 ^ 1) with 2. change (2 ^ 2) with 4.
  destruct (4 <=? slen s) eqn:E; bprop.
  + assert (slen s / 2 + 2 ≤ slen s ∧ slen s / 4 + 3 ≤ slen s ∧ 2 ≤ slen s / 2 ∧ 1 ≤ slen s / 4) by dlia.
    do 4 load Hs. eexists. split; [done|]. apply u32_range.
  + assert (u32 (slen s - 1) = slen s - 1) as -> by (apply wrapu_id; unfold in_u; lia).
    assert (0 ≤ slen s / 2 < slen s) by dlia.
    do 3 load Hs. eexists. split; [done|]. apply u32_range.
Qed.

Lemma murmur3_in s :
  bytes s → u32 (slen s) = slen s → 0 ≤ slen s → ∃ h, strhash_murmur3 s = Some h ∧ in_u 32 h.
Proof.
  intros Hs Hlen H0.
  unfold strhash_murmur3, MurmurHash3_x86_32. rewrite Hlen.
  rewrite Z.shiftr_div_pow2, Z.shiftl_mul_pow2 by done. change (2 ^ 2) with 4.
  assert (0 ≤ slen s / 4 ∧ 4 * (slen s / 4) ≤ slen s ∧
    slen s / 4 * 4 + slen s `mod` 4 = slen s) as (? & ? & ?) by dlia.
  destruct (murmur_body_in s (Z.to_nat (slen s / 4)) 0 MURMUR3_SEED) as [h1 ->]; [done|lia|lia|]. simpl.
  destruct (murmur_tail_in s (slen s / 4 * 4) (slen s) h1) as [h2 ->]; [done|lia|lia|lia|].
  simpl. eexists. split; [done|]. apply fmix32_range.
Qed.

Lemma city_in s : bytes s → ∃ h, strhash_city s = Some h ∧ in_u 32 h.
Proof.
  intros Hs.
  unfold strhash_city, CityHash32, CityHash32_with.
  destruct (slen s <=? 24) eqn:E24; bprop; [destruct (slen s <=? 12) eqn:E12; bprop;
    [destruct (slen s <=? 4) eqn:E4; bprop|]|].
  + eexists. split; [done|]. unfold Hash32Len0to4. destruct (len0to4_loop s 0 9).
    apply fmix32_range.
  + unfold Hash32Len5to12, Fetch32. rewrite Z.shiftr_div_pow2 by done. change (2 ^ 1) with 2.
    assert (0 ≤ Z.land (slen s / 2) 4 ∧ Z.land (slen s / 2) 4 + 4 ≤ slen s).
    { split; [apply Z.land_nonneg; right; lia|].
      assert (slen s = 5 ∨ slen s = 6 ∨ slen s = 7 ∨ slen s = 8 ∨ slen s = 9 ∨ slen s = 10 ∨
        slen s = 11 ∨ slen s = 12) as Hc by lia.
      repeat destruct Hc as [->|Hc]; try rewrite Hc; vm_compute; congruence. }
    do 3 load Hs. eexists. split; [done|]. apply fmix32_range.
  + unfold Hash32Len13to24, Fetch32. rewrite Z.shiftr_div_pow2 by done. change (2 ^ 1) with 2.
    assert (4 ≤ slen s / 2 ∧ slen s / 2 + 4 ≤ slen s) as [? ?] by dlia.
    do 6 load Hs. eexists. split; [done|]. apply fmix32_range.
  + unfold Fetch32. do 5 load Hs.
    assert (0 ≤ (slen s - 1) / 20 ∧ 20 * ((slen s - 1) / 20) ≤ slen s) by dlia.
    match goal with |- context [city_loop ?pm s ?n ?p ?f ?g ?h] =>
      destruct (city_loop_in pm s n p f g h) as [[[f' g'] h'] ->] end; [done|lia|lia|].
    simpl. eexists. split; [done|]. apply u32_range.
Qed.

(** ** Theorems *)

(** On every non-empty string shorter than 4 GB the three hash functions
    terminate, only read octets of the string, and return a [uint32_t]; CityHash
    and MurmurHash also accept the empty string. *)
Theorem strhash_in_bounds s (Hs : bytes s) (Hl : slen s < 2 ^ 32) :
  (1 ≤ slen s → ∃ h, strhash_luajit2 s = Some h ∧ in_u 32 h) ∧
  (∃ h, strhash_murmur3 s = Some h ∧ in_u 32 h) ∧
  (∃ h, strhash_city s = Some h ∧ in_u 32 h).
Proof.
  assert (0 ≤ slen s) as H0 by (unfold slen; lia).
  assert (u32 (slen s) = slen s) as Hlen by (apply wrapu_id; unfold in_u; lia).
  split_and!; auto using luajit2_in, murmur3_in, city_in.
Qed.

Lemma strhash_in_bounds_witness : ∃ h, strhash_luajit2 [104; 101; 108; 108; 111] = Some h ∧ in_u 32 h.
Proof.
  destruct (strhash_in_bounds [104; 101; 108; 108; 111]) as [Hj _].
  - repeat constructor; vm_compute; congruence.
  - vm_compute. reflexivity.
  - apply Hj. vm_compute. congruence.
Defined.

(** The permutation of the original algorithm: swap [f] and [h], then [f] and [g]. *)
Definition std_permute3 (f h g : Z) : Z * Z * Z := let '(f, h) := (h, f) in (g, h, f).

Definition sample25 : list Z := Z.of_nat <$> seq 97 25.

(** [PERMUTE3] swaps copies of its arguments, so the accumulators of
    CityHash32 are never rotated: on strings of more than 24 octets the function
    is not CityHash32 (whose hash of the 25 octets 97..121 is different). *)
Theorem city_permute_is_lost :
  (∀ s, CityHash32 s = CityHash32_with (λ f h g, (f, h, g)) s) ∧
  CityHash32 sample25 ≠ CityHash32_with std_permute3 sample25.
Proof. split; [done|]. vm_compute. congruence. Qed.

End StrHash.
