(* ===== verification/Str.v ===== *)
(** * Strings: interning (uj_strhash.c, uj_str.c)

    A string hash is an array of chains of string objects, indexed by the
    masked hash; chains are lists, the [nextgc] links being their order.  A
    [GCstr] keeps the address of the object, its mark bits, hash field and octets.
    [uj_str_new] takes the address that the allocator would return for a new
    string.  The hash function of the state is the class [HashF]; its instances
    are the functions of utils/strhash. *)

From stdpp Require Import base decidable list numbers option sets sorting.
From Stdlib Require Import ZArith Lia.
From S2P Require Import Prelude Obj StrHash.

Local Open Scope Z_scope.

Module Str.
Import Obj StrHash.

(** ** Constants *)

Definition LJ_MAX_STR : Z := 0x7fffff00.
Definition LJ_MAX_STRTAB : Z := 2 ^ 26.
Definition LJ_MIN_STRTAB : Z := 256.
Definition LJ_GC_WHITES : Z := 0x03.
Definition UJ_GCO_SEALED : Z := 0x80.
Definition UJ_GCO_IMMUTABLE : Z := 0x40.

(** The hash function a state was created with. *)
Class HashF := { hashf : list Z → Z; hashf_u32 s : bytes s → 1 ≤ slen s < 2 ^ 32 → in_u 32 (hashf s) }.

(** ** Data *)

Record GCstr := MkGCstr { saddr : Z; smarked : Z; shash : Z; sdata : list Z }.

Record uj_strhash_t := MkSH { hash : list (list GCstr); mask : Z; count : Z }.

Record gstate := MkG {
  strhash : uj_strhash_t;
  strhash_sealed : uj_strhash_t;
  strhash_hit : Z;
  strhash_miss : Z;
  currentwhite : Z;
  sweepstring : bool;       (** [gc.state == GCSsweepstring] *)
  strempty : GCstr
}.

#[export] Instance GCstr_eq_dec : EqDecision GCstr.
Proof. solve_decision. Defined.

(** ** The string hash (uj_strhash.c) *)

Definition strhash_index (h m : Z) : nat := Z.to_nat (Z.land h m).

(** Follow a chain and reinsert its strings at the heads of the new chains. *)
Fixpoint reinsert (newmask : Z) (p : list GCstr) (newhash : list (list GCstr)) :
    list (list GCstr) :=
  match p with
  | [] => newhash
  | s :: next => reinsert newmask next (alter (cons s) (strhash_index (shash s) newmask) newhash)
  end.

(** Chains are visited from the last to the first. *)
Definition strhash_resize (sweeping : bool) (newmask : Z) (sh : uj_strhash_t) : uj_strhash_t :=
  if sweeping || (LJ_MAX_STRTAB - 1 <=? newmask) then sh
  else
    let newhash := replicate (Z.to_nat (newmask + 1)) [] in
    MkSH (foldl (λ nh p, reinsert newmask p nh) newhash (rev (hash sh))) newmask (count sh).

Definition uj_strhash_shrink (sweeping : bool) (sh : uj_strhash_t) : bool * uj_strhash_t :=
  let hmask := mask sh in
  if (Z.shiftr hmask 2 <? count sh) || (hmask <=? LJ_MIN_STRTAB * 2 - 1) then (false, sh)
  else (true, strhash_resize sweeping (Z.shiftr hmask 1) sh).

(** [sx->len == len && memcmp(str, strdata(sx), len) == 0] *)
Fixpoint strhash_find_in_bucket (o : list GCstr) (str : list Z) : option GCstr :=
  match o with
  | [] => None
  | sx :: o' => if decide (sdata sx = str) then Some sx else strhash_find_in_bucket o' str
  end.

Definition uj_strhash_find (sh : uj_strhash_t) (str : list Z) (h : Z) : option GCstr :=
  o ← hash sh !! strhash_index h (mask sh); strhash_find_in_bucket o str.

(** The count is incremented before the table may grow. *)
Definition uj_strhash_add (sweeping : bool) (s : GCstr) (sh : uj_strhash_t) : uj_strhash_t :=
  let i := strhash_index (shash s) (mask sh) in
  let sh' := MkSH (alter (cons s) i (hash sh)) (mask sh) (count sh + 1) in
  if mask sh <? count sh then strhash_resize sweeping (Z.shiftl (mask sh) 1 + 1) sh' else sh'.

Definition uj_obj_is_sealed (s : GCstr) : bool := negb (Z.land (smarked s) UJ_GCO_SEALED =? 0).

(** What stays in a bucket, the sealed table after the additions, the number
    of evicted strings. *)
Fixpoint strhash_relink_bucket (sweeping : bool) (it : list GCstr) (sealed : uj_strhash_t) :
    list GCstr * uj_strhash_t * Z :=
  match it with
  | [] => ([], sealed, 0)
  | o :: it' =>
      if uj_obj_is_sealed o then
        let '(kept, sealed', evicted) :=
          strhash_relink_bucket sweeping it' (uj_strhash_add sweeping o sealed) in
        (kept, sealed', evicted + 1)
      else
        let '(kept, sealed', evicted) := strhash_relink_bucket sweeping it' sealed in
        (o :: kept, sealed', evicted)
  end.

Fixpoint relink_buckets (sweeping : bool) (bs : list (list GCstr)) (sealed : uj_strhash_t) :
    list (list GCstr) * uj_strhash_t * Z :=
  match bs with
  | [] => ([], sealed, 0)
  | b :: bs' =>
      let '(kept, sealed1, e1) := strhash_relink_bucket sweeping b sealed in
      let '(rest, sealed2, e2) := relink_buckets sweeping bs' sealed1 in
      (kept :: rest, sealed2, e1 + e2)
  end.

Definition uj_strhash_relink (sweeping : bool) (sh sealed : uj_strhash_t) :
    uj_strhash_t * uj_strhash_t :=
  let '(bs, sealed', evicted) := relink_buckets sweeping (hash sh) sealed in
  (MkSH bs (mask sh) (count sh - evicted), sealed').

(** Called with [mask] set to [~0] and no chains. *)
Definition uj_strhash_init (sweeping : bool) (sh : uj_strhash_t) : uj_strhash_t :=
  strhash_resize sweeping (LJ_MIN_STRTAB - 1) sh.

(** ** Interning (uj_str.c) *)

Definition otherwhite (g : gstate) : Z := Z.lxor (currentwhite g) LJ_GC_WHITES.
Definition isdead (g : gstate) (s : GCstr) : bool :=
  negb (Z.land (Z.land (smarked s) (otherwhite g)) LJ_GC_WHITES =? 0).
Definition flipwhite (s : GCstr) : GCstr :=
  MkGCstr (saddr s) (Z.lxor (smarked s) LJ_GC_WHITES) (shash s) (sdata s).
Definition curwhite (g : gstate) : Z := Z.land (currentwhite g) LJ_GC_WHITES.

(** Update the string object at an address. *)
Definition update_str (a : Z) (f : GCstr → GCstr) (sh : uj_strhash_t) : uj_strhash_t :=
  let upd s := if decide (saddr s = a) then f s else s in
  MkSH (map (map upd) (hash sh)) (mask sh) (count sh).

Inductive str_result := SRet (s : GCstr) (g : gstate) | SThrow.

Section Intern.
Context `{HashF}.

Definition uj_str_new (a : Z) (str : list Z) (g : gstate) : str_result :=
  let lenx := slen str in
  if LJ_MAX_STR <=? lenx then SThrow
  else if lenx =? 0 then SRet (strempty g) g
  else
    let h := hashf str in
    let found :=
      match uj_strhash_find (strhash g) str h with
      | Some s => Some s
      | None => uj_strhash_find (strhash_sealed g) str h
      end in
    match found with
    | Some s =>
        let g1 := MkG (strhash g) (strhash_sealed g) (strhash_hit g + 1) (strhash_miss g)
                    (currentwhite g) (sweepstring g) (strempty g) in
        if isdead g s then
          SRet (flipwhite s)
            (MkG (update_str (saddr s) flipwhite (strhash g1))
                 (update_str (saddr s) flipwhite (strhash_sealed g1))
                 (strhash_hit g1) (strhash_miss g1) (currentwhite g1) (sweepstring g1) (strempty g1))
        else SRet s g1
    | None =>
        let s := MkGCstr a (Z.lor (curwhite g) UJ_GCO_IMMUTABLE) h str in
        SRet s (MkG (uj_strhash_add (sweepstring g) s (strhash g)) (strhash_sealed g)
                    (strhash_hit g) (strhash_miss g + 1) (currentwhite g) (sweepstring g)
                    (strempty g))
    end.

End Intern.

(** ** Comparison *)

(** An octet of the string, or what lies behind its end. *)
Definition octet (s : list Z) (behind : nat → Z) (i : nat) : Z := default (behind i) (s !! i).

(** The unaligned little-endian load of four octets. *)
Definition load_word (s : list Z) (behind : nat → Z) (i : nat) : Z :=
  octet s behind i + 2 ^ 8 * octet s behind (i + 1) + 2 ^ 16 * octet s behind (i + 2) +
  2 ^ 24 * octet s behind (i + 3).

Definition lj_bswap (x : Z) : Z := bswap_32 x.

Section Cmp.
Context (a b : list Z) (behind_a behind_b : nat → Z).

Definition len_diff : Z := i32 (slen a - slen b).

Fixpoint cmp_loop (fuel : nat) (i n : nat) : Z :=
  match fuel with
  | O => len_diff
  | S f =>
      if decide (i < n)%nat then
        let va := load_word a behind_a i in
        let vb := load_word b behind_b i in
        if va =? vb then cmp_loop f (i + 4) n
        else
          let va := lj_bswap va in
          let vb := lj_bswap vb in
          let d := u64 (Z.of_nat i - Z.of_nat n) in
          let sh := if -3 <=? i32 d then u64 (32 + u64 (Z.shiftl d 3)) else 0 in
          let va := Z.shiftr va sh in
          let vb := Z.shiftr vb sh in
          if va =? vb then len_diff
          else if va <? vb then -1 else 1
      else len_diff
  end.

(** [n] is the length of the shorter string; one iteration per four octets. *)
Definition uj_str_cmp : Z :=
  let n := if slen b <? slen a then length b else length a in cmp_loop (S n) 0 n.

End Cmp.

(** ** Case and trimming *)

Definition CASE_BIT : Z := 0x20.
Definition lj_char_flipcase (c : Z) : Z := Z.lxor c CASE_BIT.

(** [char] is signed: octets from 128 are below every ASCII bound. *)
Definition str_flip_case (s : list Z) (low hi : Z) : list Z :=
  (λ c, if (low <=? schar c) && (schar c <=? hi) then lj_char_flipcase c else c) <$> s.
Definition uj_str_lower (s : list Z) : list Z := str_flip_case s 65 90.
Definition uj_str_upper (s : list Z) : list Z := str_flip_case s 97 122.

(** The space characters of [lj_char_bits]: 9..13 and 32. *)
Definition lj_char_isspace (c : Z) : bool := (9 <=? c) && (c <=? 13) || (c =? 32).

(** [while (left < len && str_isspace(left)) left++;] as the suffix it leaves. *)
Fixpoint skip_left (s : list Z) : list Z :=
  match s with
  | [] => []
  | c :: s' => if lj_char_isspace c then skip_left s' else s
  end.

(** [while (str_isspace(right)) right--;], from the right end. *)
Definition skip_right (s : list Z) : list Z := rev (skip_left (rev s)).

(** The octets handed to [uj_str_new] (none: the empty string is returned). *)
Definition uj_str_trim (s : list Z) : list Z :=
  if decide (s = []) then []
  else
    let l := skip_left s in
    if decide (l = []) then [] else skip_right l.

(** ** Invariants *)

Definition strings (sh : uj_strhash_t) : list GCstr := concat (hash sh).

Record sh_wf `{HashF} (sh : uj_strhash_t) : Prop := {
  sw_len : Z.of_nat (length (hash sh)) = mask sh + 1;
  sw_pow : ∃ b, 0 ≤ b ∧ mask sh + 1 = 2 ^ b;
  sw_place i b s : hash sh !! i = Some b → s ∈ b → strhash_index (shash s) (mask sh) = i;
  sw_hash s : s ∈ strings sh → shash s = hashf (sdata s);
  sw_count : count sh = Z.of_nat (length (strings sh))
}.

Lemma strhash_index_lt h m : 0 ≤ m → (strhash_index h m < Z.to_nat (m + 1))%nat.
Proof.
  intros Hm. unfold strhash_index. pose proof (land_mask_range h m Hm). lia.
Qed.

(** ** Reinsertion *)

Lemma concat_alter_cons (s : GCstr) i nh :
  (i < length nh)%nat → concat (alter (cons s) i nh) ≡ₚ s :: concat nh.
Proof.
  revert i. induction nh as [|b nh IH]; intros [|i] Hi; cbn [length] in Hi; [lia..|done|].
  change (alter (cons s) (S i) (b :: nh)) with (b :: alter (cons s) i nh). cbn [concat].
  rewrite IH by lia. by rewrite Permutation_middle.
Qed.

Definition placed (m : Z) (nh : list (list GCstr)) : Prop :=
  ∀ i b s, nh !! i = Some b → s ∈ b → strhash_index (shash s) m = i.

Lemma placed_cons m s nh :
  placed m nh → placed m (alter (cons s) (strhash_index (shash s) m) nh).
Proof.
  intros Hp i b s' Hb Hin. destruct (decide (strhash_index (shash s) m = i)) as [E|Hne].
  - rewrite E, list_lookup_alter_eq in Hb. destruct (nh !! i) as [b'|] eqn:Eb; [|done].
    injection Hb as <-. apply elem_of_cons in Hin as [->|Hin]; [done|]. by apply (Hp i b').
  - rewrite list_lookup_alter_ne in Hb by done. by apply (Hp i b).
Qed.

Lemma reinsert_spec m p nh :
  0 ≤ m → length nh = Z.to_nat (m + 1) → placed m nh →
  length (reinsert m p nh) = length nh ∧ placed m (reinsert m p nh) ∧
  concat (reinsert m p nh) ≡ₚ p ++ concat nh.
Proof.
  intros Hm. revert nh. induction p as [|s p IH]; intros nh Hl Hp; simpl; [done|].
  destruct (IH (alter (cons s) (strhash_index (shash s) m) nh)) as (E1 & E2 & E3);
    [by rewrite length_alter|by apply placed_cons|].
  split_and!; [by rewrite E1, length_alter|done|].
  rewrite E3, concat_alter_cons by (rewrite Hl; by apply strhash_index_lt).
  by rewrite Permutation_middle.
Qed.

Lemma reinsert_all_spec m bs nh :
  0 ≤ m → length nh = Z.to_nat (m + 1) → placed m nh →
  let nh' := foldl (λ nh p, reinsert m p nh) nh bs in
  length nh' = length nh ∧ placed m nh' ∧ concat nh' ≡ₚ concat bs ++ concat nh.
Proof.
  intros Hm. revert nh. induction bs as [|b bs IH]; intros nh Hl Hp; simpl; [done|].
  destruct (reinsert_spec m b nh Hm Hl Hp) as (E1 & E2 & E3).
  destruct (IH (reinsert m b nh)) as (F1 & F2 & F3); [by rewrite E1|done|].
  split_and!; [by rewrite F1|done|]. rewrite F3, E3, !app_assoc. f_equiv. apply Permutation_app_comm.
Qed.

Lemma concat_replicate_nil n : concat (replicate n (@nil GCstr)) = [].
Proof. by induction n. Qed.

Lemma concat_rev (bs : list (list GCstr)) : concat (rev bs) ≡ₚ concat bs.
Proof. by rewrite <-(Permutation_rev bs). Qed.

Section Wf.
Context `{HashF}.

Lemma resize_wf sw m sh b :
  sh_wf sh → 0 ≤ b → m + 1 = 2 ^ b →
  sh_wf (strhash_resize sw m sh) ∧ strings (strhash_resize sw m sh) ≡ₚ strings sh.
Proof.
  intros W Hb Em. unfold strhash_resize. case_test; [done|].
  pose proof (Z.pow_pos_nonneg 2 b).
  destruct (reinsert_all_spec m (rev (hash sh)) (replicate (Z.to_nat (m + 1)) []))
    as (E1 & E2 & E3); [lia|by rewrite length_replicate| |].
  { intros i b' s Hb' Hs. apply lookup_replicate in Hb' as [-> _]. by apply elem_of_nil in Hs. }
  rewrite concat_replicate_nil, app_nil_r, concat_rev in E3. split; [|done]. split; simpl.
  - rewrite E1, length_replicate. lia.
  - by exists b.
  - done.
  - intros s Hs. apply (sw_hash _ W). unfold strings in *. simpl in Hs. by rewrite E3 in Hs.
  - rewrite (sw_count _ W). unfold strings. simpl. by rewrite E3.
Qed.

Lemma sw_mask sh : sh_wf sh → 0 ≤ mask sh.
Proof. intros W. destruct (sw_pow _ W) as (b & Hb & E). pose proof (Z.pow_pos_nonneg 2 b). lia. Qed.

Lemma add_wf sw s sh :
  sh_wf sh → shash s = hashf (sdata s) →
  sh_wf (uj_strhash_add sw s sh) ∧ strings (uj_strhash_add sw s sh) ≡ₚ s :: strings sh.
Proof.
  intros W Hh. pose proof (sw_mask _ W) as Hm. destruct (sw_pow _ W) as (b & Hb & Eb).
  pose proof (sw_len _ W) as Hl.
  set (sh' := MkSH (alter (cons s) (strhash_index (shash s) (mask sh)) (hash sh))
    (mask sh) (count sh + 1)).
  assert (strings sh' ≡ₚ s :: strings sh) as Hs.
  { apply concat_alter_cons. pose proof (strhash_index_lt (shash s) (mask sh) Hm). lia. }
  assert (sh_wf sh') as W'.
  { split; simpl; [by rewrite length_alter|by exists b| | |].
    - apply placed_cons. exact (sw_place _ W).
    - intros s'. rewrite Hs. intros [->|Hin]%elem_of_cons; [done|by apply W].
    - rewrite Hs, (sw_count _ W). simpl. lia. }
  unfold uj_strhash_add. fold sh'. case_test; [|done].
  destruct (resize_wf sw (Z.shiftl (mask sh) 1 + 1) sh' (b + 1) W') as [W2 P2]; [lia| |].
  { rewrite Z.shiftl_mul_pow2, Z.pow_add_r by lia. lia. }
  split; [done|]. by rewrite P2.
Qed.

Lemma find_in_bucket_spec o str :
  match strhash_find_in_bucket o str with
  | Some s => s ∈ o ∧ sdata s = str
  | None => ∀ s, s ∈ o → sdata s ≠ str
  end.
Proof.
  induction o as [|sx o IH]; simpl; [by intros s ?%elem_of_nil|].
  destruct (decide (sdata sx = str)) as [E|E]; [split; [by left|done]|].
  destruct (strhash_find_in_bucket o str) as [s|].
  - destruct IH. split; [by right|done].
  - intros s [->|Hs]%elem_of_cons; auto.
Qed.

Lemma find_spec sh str :
  sh_wf sh →
  match uj_strhash_find sh str (hashf str) with
  | Some s => s ∈ strings sh ∧ sdata s = str
  | None => ∀ s, s ∈ strings sh → sdata s ≠ str
  end.
Proof.
  intros W. unfold uj_strhash_find, strings.
  set (i := strhash_index (hashf str) (mask sh)).
  destruct (lookup_lt_is_Some_2 (hash sh) i) as [o Ho].
  { pose proof (strhash_index_lt (hashf str) (mask sh) (sw_mask _ W)). pose proof (sw_len _ W). lia. }
  rewrite Ho. simpl. pose proof (find_in_bucket_spec o str) as Hf.
  destruct (strhash_find_in_bucket o str) as [s|].
  - destruct Hf as [Hin Hd]. split; [|done]. apply list_elem_of_In, in_concat.
    exists o. split; apply list_elem_of_In; [by eapply list_elem_of_lookup_2|done].
  - intros s Hs Hd. pose proof (sw_hash _ W s Hs) as Hh.
    apply list_elem_of_In, in_concat in Hs as (b & Hb & Hin).
    apply list_elem_of_In in Hb. apply list_elem_of_In in Hin.
    apply list_elem_of_lookup in Hb as [j Hj].
    pose proof (sw_place _ W j b s Hj Hin) as Hp. rewrite Hh, Hd in Hp. fold i in Hp.
    apply (Hf s); [|done]. rewrite Hp, Hj in Ho. by injection Ho as <-.
Qed.

(** ** The state: every content interned once *)

Definition all_strings (g : gstate) : list GCstr :=
  strings (strhash g) ++ strings (strhash_sealed g).

Record g_wf (g : gstate) : Prop := {
  gw_main : sh_wf (strhash g);
  gw_sealed : sh_wf (strhash_sealed g);
  gw_data : NoDup (sdata <$> strempty g :: all_strings g);
  gw_addr : NoDup (saddr <$> strempty g :: all_strings g);
  gw_empty : sdata (strempty g) = []
}.

(** The content [d] is interned as the object at address [x]. *)
Definition interned (g : gstate) (d : list Z) (x : Z) : Prop :=
  ∃ s, s ∈ strempty g :: all_strings g ∧ sdata s = d ∧ saddr s = x.

Lemma Permutation_eq {A} (l1 l2 : list A) : l1 = l2 → l1 ≡ₚ l2.
Proof. by intros ->. Qed.

Lemma NoDup_fmap_eq {A B} (f : A → B) (l : list A) x y :
  NoDup (f <$> l) → x ∈ l → y ∈ l → f x = f y → x = y.
Proof.
  induction l as [|z l IH]; [by intros _ ?%elem_of_nil|].
  rewrite fmap_cons, NoDup_cons. intros [Hn Hd] [->|Hx]%elem_of_cons [->|Hy]%elem_of_cons E; auto.
  - destruct Hn. rewrite E. by apply list_elem_of_fmap_2.
  - destruct Hn. rewrite <-E. by apply list_elem_of_fmap_2.
Qed.

Lemma interned_eq g d e x y :
  g_wf g → interned g d x → interned g e y → d = e ↔ x = y.
Proof.
  intros W (s & Hs & <- & <-) (s' & Hs' & <- & <-). split; intros E.
  - by rewrite (NoDup_fmap_eq sdata _ s s' (gw_data _ W)).
  - by rewrite (NoDup_fmap_eq saddr _ s s' (gw_addr _ W)).
Qed.

(** Resurrection only touches mark bits. *)
Section Update.
Context (a : Z) (f : GCstr → GCstr).
Context (Hf : ∀ s, saddr (f s) = saddr s ∧ shash (f s) = shash s ∧ sdata (f s) = sdata s).
Let upd (s : GCstr) : GCstr := if decide (saddr s = a) then f s else s.

Lemma upd_fields s : saddr (upd s) = saddr s ∧ shash (upd s) = shash s ∧ sdata (upd s) = sdata s.
Proof. unfold upd. case_decide; auto. Qed.

Lemma update_strings sh : strings (update_str a f sh) = upd <$> strings sh.
Proof. unfold strings, update_str. simpl. by rewrite <-concat_map. Qed.

Lemma update_wf sh : sh_wf sh → sh_wf (update_str a f sh).
Proof.
  intros W. split.
  - simpl. rewrite length_map. apply W.
  - apply W.
  - intros i b s Hb Hin. simpl in Hb. change (map (map upd) (hash sh)) with (map upd <$> hash sh) in Hb.
    rewrite list_lookup_fmap in Hb. destruct (hash sh !! i) as [b0|] eqn:E; [|done].
    injection Hb as <-. apply list_elem_of_fmap in Hin as (s0 & -> & Hin).
    destruct (upd_fields s0) as (_ & Eh & _). change (strhash_index (shash (upd s0)) (mask sh) = i).
    rewrite Eh. by apply (sw_place _ W i b0).
  - rewrite update_strings. intros s (s0 & -> & Hin)%list_elem_of_fmap.
    destruct (upd_fields s0) as (_ & Eh & Ed). rewrite Eh, Ed. by apply W.
  - rewrite update_strings, length_fmap. apply W.
Qed.

End Update.

Lemma flipwhite_fields s :
  saddr (flipwhite s) = saddr s ∧ shash (flipwhite s) = shash s ∧ sdata (flipwhite s) = sdata s.
Proof. done. Qed.

(** Same contents at the same addresses. *)
Lemma g_wf_same g g' :
  sh_wf (strhash g') → sh_wf (strhash_sealed g') → strempty g' = strempty g →
  (sdata <$> all_strings g') ≡ₚ (sdata <$> all_strings g) →
  (saddr <$> all_strings g') ≡ₚ (saddr <$> all_strings g) → g_wf g → g_wf g'.
Proof.
  intros W1 W2 Ee Ed Ea [? ? Hd Ha He]. split; [done..| | |by rewrite Ee]; rewrite fmap_cons, Ee.
  - by rewrite Ed.
  - by rewrite Ea.
Qed.

Lemma uj_str_new_found g s a str :
  g_wf g → s ∈ all_strings g → sdata s = str → slen str < LJ_MAX_STR → slen str ≠ 0 →
  ∃ s' g', uj_str_new a str g = SRet s' g' ∧ saddr s' = saddr s ∧ sdata s' = str ∧ g_wf g' ∧
    ∀ d x, interned g' d x ↔ interned g d x.
Proof.
  intros W Hs Hd Hmax Hne. unfold uj_str_new.
  rewrite (proj2 (Z.leb_gt _ _)), (proj2 (Z.eqb_neq _ _)) by done.
  pose proof (find_spec (strhash g) str (gw_main _ W)) as F1.
  pose proof (find_spec (strhash_sealed g) str (gw_sealed _ W)) as F2.
  assert (∃ s', match uj_strhash_find (strhash g) str (hashf str) with
    | Some s => Some s | None => uj_strhash_find (strhash_sealed g) str (hashf str) end = Some s' ∧
    s' = s) as (s' & -> & ->).
  { destruct (uj_strhash_find (strhash g) _ _) as [s1|].
    - exists s1. split; [done|]. destruct F1 as [Hin E].
      apply (NoDup_fmap_eq sdata _ _ _ (gw_data _ W)); [|by right|congruence].
      right. unfold all_strings. rewrite elem_of_app. by left.
    - destruct (uj_strhash_find (strhash_sealed g) _ _) as [s1|].
      + exists s1. split; [done|]. destruct F2 as [Hin E].
        apply (NoDup_fmap_eq sdata _ _ _ (gw_data _ W)); [|by right|congruence].
        right. unfold all_strings. rewrite elem_of_app. by right.
      + exfalso. unfold all_strings in Hs. apply elem_of_app in Hs as [Hs|Hs]; naive_solver. }
  destruct (isdead g s).
  - eexists _, _. split; [done|]. split; [done|]. split; [done|].
    set (g' := MkG _ _ _ _ _ _ _).
    set (u := λ s0, if decide (saddr s0 = saddr s) then flipwhite s0 else s0).
    assert (all_strings g' = u <$> all_strings g) as Eall.
    { unfold all_strings, g'. simpl. by rewrite !update_strings, fmap_app. }
    assert (∀ s0, saddr (u s0) = saddr s0 ∧ sdata (u s0) = sdata s0) as Hu.
    { intros s0. unfold u. by case_decide. }
    split.
    + apply (g_wf_same g); auto; try (apply update_wf; [done|apply W]).
      * apply Permutation_eq. rewrite Eall, <-list_fmap_compose. apply list_fmap_ext.
        intros i s0 _. apply Hu.
      * apply Permutation_eq. rewrite Eall, <-list_fmap_compose. apply list_fmap_ext.
        intros i s0 _. apply Hu.
    + intros d x. unfold interned. rewrite Eall. change (strempty g') with (strempty g). split.
      * intros (s0 & [->|(s1 & -> & Hs1)%list_elem_of_fmap]%elem_of_cons & <- & <-).
        -- exists (strempty g). split; [by left|done].
        -- exists s1. destruct (Hu s1) as [-> ->]. split; [by right|done].
      * intros (s0 & [->|Hs1]%elem_of_cons & <- & <-).
        -- exists (strempty g). split; [by left|done].
        -- exists (u s0). destruct (Hu s0) as [-> ->]. split; [|done]. right. by apply list_elem_of_fmap_2.
  - eexists _, _. split; [done|]. split; [done|]. split; [done|].
    split; [|done]. by apply (g_wf_same g); try apply W.
Qed.

Lemma uj_str_new_fresh g a str :
  g_wf g → (∀ s, s ∈ all_strings g → sdata s ≠ str) → a ∉ saddr <$> strempty g :: all_strings g →
  slen str < LJ_MAX_STR → slen str ≠ 0 →
  ∃ g', let s := MkGCstr a (Z.lor (curwhite g) UJ_GCO_IMMUTABLE) (hashf str) str in
    uj_str_new a str g = SRet s g' ∧ g_wf g' ∧ strempty g' = strempty g ∧
    all_strings g' ≡ₚ s :: all_strings g.
Proof.
  intros W Hnone Ha Hmax Hne. unfold uj_str_new.
  rewrite (proj2 (Z.leb_gt _ _)), (proj2 (Z.eqb_neq _ _)) by done.
  pose proof (find_spec (strhash g) str (gw_main _ W)) as F1.
  pose proof (find_spec (strhash_sealed g) str (gw_sealed _ W)) as F2.
  unfold all_strings in Hnone.
  destruct (uj_strhash_find (strhash g) _ _) as [s1|].
  { destruct F1. exfalso. apply (Hnone s1); [rewrite elem_of_app; by left|done]. }
  destruct (uj_strhash_find (strhash_sealed g) _ _) as [s1|].
  { destruct F2. exfalso. apply (Hnone s1); [rewrite elem_of_app; by right|done]. }
  set (s := MkGCstr _ _ _ _).
  destruct (add_wf (sweepstring g) s (strhash g) (gw_main _ W) eq_refl) as [Wa Pa].
  eexists. split; [done|]. set (g' := MkG _ _ _ _ _ _ _).
  assert (all_strings g' ≡ₚ s :: all_strings g) as P by (unfold all_strings; simpl; by rewrite Pa).
  split; [|done]. split; [done|apply W| | |apply W].
  - rewrite fmap_cons, P. change (strempty g') with (strempty g). rewrite fmap_cons.
    rewrite Permutation_swap, NoDup_cons. split; [|apply W].
    change (sdata s) with str. intros [E|(s1 & E & Hin)%list_elem_of_fmap]%elem_of_cons.
    + apply Hne. by rewrite E, (gw_empty _ W).
    + by apply (Hnone s1).
  - rewrite fmap_cons, P. change (strempty g') with (strempty g). rewrite fmap_cons.
    rewrite Permutation_swap, NoDup_cons. split; [done|apply W].
Qed.

End Wf.

End Str.
