(* ===== verification/StrTheorems.v ===== *)
(** * The theorems on strings *)

From stdpp Require Import base decidable list numbers option sets sorting.
From Stdlib Require Import ZArith Lia.
From S2P Require Import Prelude Obj StrHash Str.

Local Open Scope Z_scope.

Module StrTheorems.
Import Obj StrHash Str.

(** ** The hash functions of utils/strhash as hash functions of a state *)

Lemma hash_default (f : list Z → option Z) s :
  (∃ h, f s = Some h ∧ in_u 32 h) → in_u 32 (default 0 (f s)).
Proof. by intros (h & -> & Hh). Qed.

Lemma slen_u32 s : 1 ≤ slen s < 2 ^ 32 → u32 (slen s) = slen s.
Proof. intros Hs. apply wrapu_id. unfold in_u. lia. Qed.

#[export, refine] Instance luajit2_hashf : HashF | 0 := {| hashf s := default 0 (strhash_luajit2 s) |}.
Proof. intros s Hb Hs. apply hash_default, luajit2_in; [done|by apply slen_u32|lia]. Defined.

#[export, refine] Instance murmur3_hashf : HashF | 1 := {| hashf s := default 0 (strhash_murmur3 s) |}.
Proof. intros s Hb Hs. apply hash_default, murmur3_in; [done|by apply slen_u32|lia]. Defined.

#[export, refine] Instance city_hashf : HashF | 2 := {| hashf s := default 0 (strhash_city s) |}.
Proof. intros s Hb Hs. by apply hash_default, city_in. Defined.

(** ** Evicting sealed strings *)

Section Relink.
Context `{HashF}.

Definition sealed (s : GCstr) : Prop := uj_obj_is_sealed s = true.
#[local] Instance sealed_dec s : Decision (sealed s) := decide (uj_obj_is_sealed s = true).

Lemma relink_bucket_spec sw b sh kept sh' e :
  sh_wf sh → (∀ s, s ∈ b → shash s = hashf (sdata s)) →
  strhash_relink_bucket sw b sh = (kept, sh', e) →
  kept = filter (λ s, ¬ sealed s) b ∧ e = Z.of_nat (length (filter sealed b)) ∧ sh_wf sh' ∧
  strings sh' ≡ₚ filter sealed b ++ strings sh.
Proof.
  revert sh kept sh' e. induction b as [|o b IH]; intros sh kept sh' e W Hb; simpl.
  { intros [= <- <- <-]. done. }
  assert (∀ s, s ∈ b → shash s = hashf (sdata s)) as Hb' by (intros; apply Hb; by right).
  rewrite !filter_cons. destruct (decide (sealed o)) as [Ho|Ho].
  - rewrite decide_False by tauto. unfold sealed in Ho. rewrite Ho.
    destruct (add_wf sw o sh W) as [Wa Pa]; [apply Hb; by left|].
    destruct (strhash_relink_bucket sw b _) as [[k1 sh1] e1] eqn:Er. intros [= <- <- <-].
    destruct (IH _ _ _ _ Wa Hb' Er) as (-> & -> & W1 & P1).
    split_and!; [done|simpl; lia|done|]. rewrite P1, Pa. simpl. by rewrite Permutation_middle.
  - rewrite decide_True by done. unfold sealed in Ho. apply not_true_iff_false in Ho. rewrite Ho.
    destruct (strhash_relink_bucket sw b _) as [[k1 sh1] e1] eqn:Er. intros [= <- <- <-].
    destruct (IH _ _ _ _ W Hb' Er) as (-> & -> & W1 & P1). done.
Qed.

Lemma relink_buckets_spec sw bs sh rest sh' e :
  sh_wf sh → (∀ s, s ∈ concat bs → shash s = hashf (sdata s)) →
  relink_buckets sw bs sh = (rest, sh', e) →
  rest = filter (λ s, ¬ sealed s) <$> bs ∧ e = Z.of_nat (length (filter sealed (concat bs))) ∧
  sh_wf sh' ∧ strings sh' ≡ₚ filter sealed (concat bs) ++ strings sh.
Proof.
  revert sh rest sh' e. induction bs as [|b bs IH]; intros sh rest sh' e W Hb; simpl.
  { intros [= <- <- <-]. done. }
  destruct (strhash_relink_bucket sw b sh) as [[k1 sh1] e1] eqn:E1.
  destruct (relink_buckets sw bs sh1) as [[r2 sh2] e2] eqn:E2. intros [= <- <- <-].
  destruct (relink_bucket_spec _ _ _ _ _ _ W (λ s Hs, Hb s ltac:(apply elem_of_app; by left)) E1)
    as (-> & -> & W1 & P1).
  destruct (IH _ _ _ _ W1 (λ s Hs, Hb s ltac:(apply elem_of_app; by right)) E2)
    as (-> & -> & W2 & P2).
  split_and!; [done| |done|].
  - rewrite filter_app, length_app. lia.
  - rewrite P2, P1, filter_app, !app_assoc. f_equiv. apply Permutation_app_comm.
Qed.

Lemma concat_filter {A} (P : A → Prop) `{∀ x, Decision (P x)} bs :
  concat (filter P <$> bs) = filter P (concat bs).
Proof. induction bs as [|b bs IH]; [done|]. rewrite fmap_cons. cbn [concat]. by rewrite IH, filter_app. Qed.

Lemma filter_split {A} (P : A → Prop) `{∀ x, Decision (P x)} (l : list A) :
  filter (λ x, ¬ P x) l ++ filter P l ≡ₚ l.
Proof.
  induction l as [|x l IH]; [done|]. rewrite !filter_cons.
  destruct (decide (P x)).
  - rewrite decide_False by tauto. by rewrite <-Permutation_middle, IH.
  - rewrite decide_True by done. simpl. by rewrite IH.
Qed.

Lemma relink_spec sw sh sl sh' sl' :
  sh_wf sh → sh_wf sl → uj_strhash_relink sw sh sl = (sh', sl') →
  sh_wf sh' ∧ sh_wf sl' ∧ strings sh' = filter (λ s, ¬ sealed s) (strings sh) ∧
  strings sl' ≡ₚ filter sealed (strings sh) ++ strings sl.
Proof.
  intros W Wl. unfold uj_strhash_relink.
  destruct (relink_buckets sw (hash sh) sl) as [[bs sl1] e] eqn:E. intros [= <- <-].
  destruct (relink_buckets_spec _ _ _ _ _ _ Wl (sw_hash _ W) E) as (-> & -> & W1 & P1).
  assert (strings (MkSH (filter (λ s, ¬ sealed s) <$> hash sh) (mask sh)
    (count sh - Z.of_nat (length (filter sealed (concat (hash sh)))))) =
    filter (λ s, ¬ sealed s) (strings sh)) as Es by (unfold strings; simpl; apply concat_filter).
  split_and!; [|done..]. split.
  - simpl. rewrite length_fmap. apply W.
  - apply W.
  - simpl. intros i b s Hb Hin. rewrite list_lookup_fmap in Hb.
    destruct (hash sh !! i) as [b0|] eqn:Eb; [|done]. injection Hb as <-.
    apply list_elem_of_filter in Hin as [_ Hin]. by apply (sw_place _ W i b0).
  - rewrite Es. intros s [_ Hs]%list_elem_of_filter. by apply W.
  - rewrite Es. simpl. rewrite (sw_count _ W). fold (strings sh).
    rewrite <-(filter_split sealed (strings sh)) at 1. rewrite length_app. lia.
Qed.

End Relink.
(** ** Interning *)

Section Intern.
Context `{HashF}.

Lemma interned_cons g g' s d x :
  strempty g' = strempty g → all_strings g' ≡ₚ s :: all_strings g →
  interned g' d x ↔ (d = sdata s ∧ x = saddr s) ∨ interned g d x.
Proof.
  intros Ee P. unfold interned. rewrite Ee. setoid_rewrite P. setoid_rewrite elem_of_cons.
  setoid_rewrite elem_of_cons. split.
  - intros (s0 & [->|[->|Hs]] & <- & <-); [right|by left|right].
    + exists (strempty g). auto.
    + exists s0. auto.
  - intros [[-> ->]|(s0 & [->|Hs] & <- & <-)].
    + exists s. auto.
    + exists (strempty g). auto.
    + exists s0. auto.
Qed.

Lemma uj_str_new_spec g a str :
  g_wf g → a ∉ saddr <$> strempty g :: all_strings g → slen str < LJ_MAX_STR →
  ∃ s g', uj_str_new a str g = SRet s g' ∧ sdata s = str ∧ g_wf g' ∧
    (∀ x, interned g str x → saddr s = x) ∧
    (∀ d x, interned g' d x ↔ (d = str ∧ x = saddr s) ∨ interned g d x).
Proof.
  intros W Ha Hmax. destruct (decide (str = [])) as [->|Hne].
  { exists (strempty g), g. split; [done|]. split; [apply W|]. split; [done|].
    assert (interned g [] (saddr (strempty g))) as Hi.
    { exists (strempty g). split; [by left|]. split; [apply W|done]. }
    split.
    - intros x Hx. by apply (interned_eq g [] [] _ _ W Hi Hx).
    - intros d x. split; [auto|]. by intros [[-> ->]|?]. }
  assert (slen str ≠ 0) as Hl by (unfold slen; destruct str; simpl; [done|lia]).
  destruct (decide (Exists (λ s, sdata s = str) (all_strings g))) as [Hex|Hno].
  - apply Exists_exists in Hex as (s & Hs & Hd).
    destruct (uj_str_new_found g s a str W Hs Hd Hmax Hl) as (s' & g' & -> & Ea & Ed & W' & Hi).
    assert (interned g str (saddr s)) as Hin by (exists s; split; [by right|done]).
    exists s', g'. split_and!; [done..| |].
    + intros x Hx. rewrite Ea. by apply (interned_eq g str str _ _ W Hin Hx).
    + intros d x. rewrite Hi. split; [auto|]. rewrite Ea. by intros [[-> ->]|?].
  - rewrite Exists_exists in Hno.
    destruct (uj_str_new_fresh g a str) as (g' & -> & W' & Ee & P); auto.
    { intros s Hs Hd. apply Hno. eauto. }
    eexists _, g'. split; [done|]. split_and!; [done..| |].
    + intros x (s & [->|Hs]%elem_of_cons & Hd & _).
      * rewrite (gw_empty _ W) in Hd. congruence.
      * destruct Hno. eauto.
    + intros d x. by rewrite (interned_cons g g' _ d x Ee P).
Qed.

End Intern.

(** ** A concrete state *)

Definition demo_init : uj_strhash_t := uj_strhash_init false (MkSH [] (2 ^ 64 - 1) 0).
Definition demo_g : gstate :=
  MkG demo_init demo_init 0 0 1 false (MkGCstr 64 1 0 []).

Lemma init_wf `{HashF} : sh_wf demo_init ∧ strings demo_init = [].
Proof.
  assert (strings demo_init = []) as E by (vm_compute; reflexivity). split; [|done]. split.
  - by vm_compute.
  - exists 8. by vm_compute.
  - intros i b s Hb Hin. assert (s ∈ strings demo_init) as Hs.
    { unfold strings. apply list_elem_of_In, in_concat. exists b.
      split; apply list_elem_of_In; [by eapply list_elem_of_lookup_2|done]. }
    rewrite E in Hs. by apply elem_of_nil in Hs.
  - intros s Hs. rewrite E in Hs. by apply elem_of_nil in Hs.
  - by rewrite E.
Qed.

Lemma demo_g_wf `{HashF} : g_wf demo_g.
Proof.
  destruct init_wf as [W _].
  assert (all_strings demo_g = []) as E by (vm_compute; reflexivity).
  split; [done|done| | |done]; rewrite E; apply NoDup_singleton.
Qed.

(** ** Theorems *)

(** C37: interning.  For any hash function, [uj_str_new] on a state where every
    content is interned once throws for strings of 0x7fffff00 octets or more,
    and otherwise returns an object with exactly the given octets; if the
    content was interned (as a live, dead or sealed string) it is the existing
    object, and nothing else changes; the state keeps its invariant (chains,
    hashes, counts and uniqueness), also when the table grows. *)
Theorem uj_str_new_correct `{HashF} g a str
    (W : g_wf g) (Ha : a ∉ saddr <$> strempty g :: all_strings g) :
  if bool_decide (LJ_MAX_STR ≤ slen str) then uj_str_new a str g = SThrow
  else ∃ s g', uj_str_new a str g = SRet s g' ∧ sdata s = str ∧ g_wf g' ∧
    (∀ x, interned g str x → saddr s = x) ∧
    (∀ d x, interned g' d x ↔ (d = str ∧ x = saddr s) ∨ (d ≠ str ∧ interned g d x)).
Proof.
  case_bool_decide as Hm.
  - unfold uj_str_new. by rewrite (proj2 (Z.leb_le _ _)).
  - destruct (uj_str_new_spec g a str W Ha) as (s & g' & E & Ed & W' & Hx & Hi); [lia|].
    exists s, g'. split_and!; auto. intros d x. rewrite Hi.
    destruct (decide (d = str)) as [->|]; [|tauto]. split; [|tauto].
    intros [?|Hin]; [by left|left]. split; [done|]. symmetry. by apply Hx.
Qed.

Lemma uj_str_new_correct_witness :
  ∃ s g', uj_str_new 128 [104; 105] demo_g = SRet s g' ∧ sdata s = [104; 105] ∧ g_wf g'.
Proof.
  pose proof (uj_str_new_correct demo_g 128 [104; 105] demo_g_wf) as R.
  rewrite bool_decide_eq_false_2 in R by (vm_compute; intros Hn; by apply Hn).
  destruct R as (s & g' & E & Ed & W & _).
  - vm_compute. intros Hin. apply list_elem_of_singleton in Hin. congruence.
  - exists s, g'. split; [exact E|]. split; [exact Ed|exact W].
Defined.

(** C38: interned strings are compared by address: two strings interned one
    after the other are the same object exactly when their octets are equal. *)
Theorem interned_pointer_equality `{HashF} g a b d e s s' g1 g2
    (W : g_wf g) (Ha : a ∉ saddr <$> strempty g :: all_strings g)
    (Hd : uj_str_new a d g = SRet s g1)
    (Hb : b ∉ saddr <$> strempty g1 :: all_strings g1)
    (He : uj_str_new b e g1 = SRet s' g2) :
  saddr s = saddr s' ↔ d = e.
Proof.
  assert (∀ a0 d0 g0 s0 g0', uj_str_new a0 d0 g0 = SRet s0 g0' → slen d0 < LJ_MAX_STR) as Hlen.
  { intros a0 d0 g0 s0 g0' E. unfold uj_str_new in E.
    destruct (LJ_MAX_STR <=? slen d0) eqn:El; [done|]. by bprop. }
  destruct (uj_str_new_spec g a d W Ha) as (s1 & g1' & E1 & Ed1 & W1 & _ & Hi1); [eauto|].
  rewrite Hd in E1. injection E1 as <- <-.
  destruct (uj_str_new_spec g1 b e W1 Hb) as (s2 & g2' & E2 & Ed2 & W2 & Hx2 & Hi2); [eauto|].
  rewrite He in E2. injection E2 as <- <-.
  rewrite (interned_eq g2 d e (saddr s) (saddr s') W2); [done| |].
  - apply Hi2. right. apply Hi1. by left.
  - apply Hi2. by left.
Qed.

Lemma interned_pointer_equality_witness :
  ∃ s s' g1 g2, uj_str_new 128 [104; 105] demo_g = SRet s g1 ∧
    uj_str_new 256 [104; 105] g1 = SRet s' g2 ∧ saddr s = saddr s'.
Proof.
  eexists _, _, _, _. split; [vm_compute; reflexivity|]. split; [vm_compute; reflexivity|].
  eapply (interned_pointer_equality demo_g 128 256 [104; 105] [104; 105]).
  - exact demo_g_wf.
  - vm_compute. intros Hin. apply list_elem_of_singleton in Hin. congruence.
  - vm_compute. reflexivity.
  - vm_compute. intros Hin. apply elem_of_cons in Hin as [?|Hin]; [congruence|].
    apply list_elem_of_singleton in Hin. congruence.
  - vm_compute. reflexivity.
  - reflexivity.
Defined.

(** [uj_strhash_relink] moves exactly the sealed strings of the main table
    to the sealed table: afterwards the main table has no sealed string, the
    sealed table has all of them, no string is lost or duplicated, and both
    tables keep their invariant. *)
Theorem uj_strhash_relink_correct `{HashF} g sh' sl'
    (W : g_wf g)
    (E : uj_strhash_relink (sweepstring g) (strhash g) (strhash_sealed g) = (sh', sl')) :
  let g' := MkG sh' sl' (strhash_hit g) (strhash_miss g) (currentwhite g) (sweepstring g)
              (strempty g) in
  g_wf g' ∧ (∀ d x, interned g' d x ↔ interned g d x) ∧
  (∀ s, s ∈ strings sh' ↔ s ∈ strings (strhash g) ∧ uj_obj_is_sealed s = false) ∧
  (∀ s, s ∈ strings sl' ↔ s ∈ strings (strhash_sealed g) ∨
     (s ∈ strings (strhash g) ∧ uj_obj_is_sealed s = true)).
Proof.
  intros g'. destruct (relink_spec _ _ _ _ _ (gw_main _ W) (gw_sealed _ W) E) as (W1 & W2 & E1 & P2).
  assert (all_strings g' ≡ₚ all_strings g) as P.
  { unfold all_strings. simpl. rewrite E1, P2, app_assoc. by rewrite filter_split. }
  split_and!.
  - apply (g_wf_same g); auto; by rewrite P.
  - intros d x. unfold interned. change (strempty g') with (strempty g). by setoid_rewrite P.
  - intros s. rewrite E1, list_elem_of_filter. unfold sealed. rewrite not_true_iff_false. tauto.
  - intros s. rewrite P2, elem_of_app, list_elem_of_filter. unfold sealed. tauto.
Qed.

(** A state with one sealed string in the main table. *)
Definition demo_sealed : gstate :=
  let s := MkGCstr 128 0x81 (hashf [97]) [97] in
  MkG (uj_strhash_add false s demo_init) demo_init 0 0 1 false (MkGCstr 64 1 0 []).

Lemma demo_sealed_wf : g_wf demo_sealed.
Proof.
  pose proof (proj1 (init_wf (H := luajit2_hashf))) as W.
  destruct (add_wf false (MkGCstr 128 0x81 (hashf [97]) [97]) demo_init W) as [Wa _];
    [reflexivity|].
  split; [exact Wa|exact W| | |reflexivity]; vm_compute;
    (apply NoDup_cons; split; [rewrite list_elem_of_singleton; congruence|apply NoDup_singleton]).
Qed.

Lemma uj_strhash_relink_correct_witness :
  ∃ sh' sl', uj_strhash_relink false (strhash demo_sealed) demo_init = (sh', sl') ∧
    ∀ s, s ∈ strings sh' ↔ s ∈ strings (strhash demo_sealed) ∧ uj_obj_is_sealed s = false.
Proof.
  eexists _, _. split; [vm_compute; reflexivity|].
  eapply (uj_strhash_relink_correct demo_sealed).
  - exact demo_sealed_wf.
  - vm_compute. reflexivity.
Defined.

(** Resizing.  [uj_strhash_shrink] halves the table exactly when at most a
    quarter of it is used and it is larger than twice the minimal size (except
    while the collector sweeps strings); the strings, their chains and the
    count stay consistent. *)
Theorem uj_strhash_shrink_correct `{HashF} sw sh r sh'
    (W : sh_wf sh) (E : uj_strhash_shrink sw sh = (r, sh')) :
  sh_wf sh' ∧ strings sh' ≡ₚ strings sh ∧ count sh' = count sh ∧
  r = bool_decide (count sh ≤ mask sh / 4 ∧ 2 * LJ_MIN_STRTAB ≤ mask sh) ∧
  mask sh' + 1 = (if r && negb sw && bool_decide (mask sh / 2 < LJ_MAX_STRTAB - 1)
                  then (mask sh + 1) / 2 else mask sh + 1).
Proof.
  destruct (sw_pow _ W) as (b & Hb & Eb). revert E. unfold uj_strhash_shrink.
  rewrite !Z.shiftr_div_pow2 by done. change (2 ^ 2) with 4. change (2 ^ 1) with 2.
  destruct ((mask sh / 4 <? count sh) || (mask sh <=? LJ_MIN_STRTAB * 2 - 1)) eqn:Ec; bprop.
  - intros [= <- <-]. rewrite bool_decide_eq_false_2; [done|]. unfold LJ_MIN_STRTAB in *. lia.
  - intros [= <- <-]. bprop. rewrite bool_decide_eq_true_2 by (unfold LJ_MIN_STRTAB in *; lia).
    assert (mask sh / 2 + 1 = 2 ^ (b - 1) ∧ (mask sh + 1) / 2 = mask sh / 2 + 1) as [Eh Eh2].
    { destruct (decide (b = 0)) as [->|]; [unfold LJ_MIN_STRTAB in *; simpl in Eb; lia|].
      rewrite (pow2_half b) in Eb by lia. dlia. }
    destruct (resize_wf sw (mask sh / 2) sh (b - 1) W) as [W' P]; [|done|].
    { destruct (decide (b = 0)) as [->|]; [unfold LJ_MIN_STRTAB in *; simpl in Eb|]; lia. }
    split_and!; [done|done| |done|].
    + unfold strhash_resize. by case_test.
    + unfold strhash_resize. rewrite Eh2. destruct sw; simpl; [done|].
      destruct (LJ_MAX_STRTAB - 1 <=? mask sh / 2) eqn:El; bprop.
      * by rewrite bool_decide_eq_false_2 by lia.
      * by rewrite bool_decide_eq_true_2 by lia.
Qed.

Lemma uj_strhash_shrink_correct_witness :
  ∃ sh', uj_strhash_shrink false demo_init = (false, sh') ∧ sh_wf sh'.
Proof.
  exists demo_init. split; [vm_compute; reflexivity|].
  apply (uj_strhash_shrink_correct false demo_init false demo_init).
  - apply init_wf.
  - vm_compute. reflexivity.
Defined.

(** ** Comparison *)

Fixpoint lexcmp (a b : list Z) : comparison :=
  match a, b with
  | [], [] => Eq
  | [], _ :: _ => Lt
  | _ :: _, [] => Gt
  | x :: a', y :: b' => match x ?= y with Eq => lexcmp a' b' | c => c end
  end.

Lemma lexcmp_prefix p a b : lexcmp (p ++ a) (p ++ b) = lexcmp a b.
Proof. induction p as [|x p IH]; [done|]. simpl. by rewrite Z.compare_refl. Qed.

Lemma lexcmp_lengths n a b :
  take n a = take n b → n = Nat.min (length a) (length b) → lexcmp a b = (slen a ?= slen b).
Proof.
  unfold slen. revert a b. induction n as [|n IH]; intros [|x a] [|y b] E Hn;
    try (simpl in Hn; lia); try done.
  injection E as -> E. cbn [lexcmp length] in *. rewrite Z.compare_refl, (IH a b E) by lia.
  symmetry. destruct (Z.compare_spec (Z.of_nat (length a)) (Z.of_nat (length b)));
    [apply Z.compare_eq_iff|apply Z.compare_lt_iff|apply Z.compare_gt_iff]; lia.
Qed.

(** Octets as a big-endian number. *)
Definition be (l : list Z) : Z := foldl (λ acc x, acc * 2 ^ 8 + x) 0 l.

Lemma be_snoc l x : be (l ++ [x]) = be l * 2 ^ 8 + x.
Proof. unfold be. by rewrite foldl_app. Qed.

Lemma lexcmp_be x y u v :
  length x = length y → bytes x → bytes y →
  lexcmp (x ++ u) (y ++ v) = match be x ?= be y with Eq => lexcmp u v | c => c end.
Proof.
  revert y u v. induction x as [|c x IH] using rev_ind; intros y u v Hl Hx Hy.
  { by destruct y. }
  destruct y as [|d y _] using rev_ind; [rewrite length_app in Hl; simpl in Hl; lia|].
  rewrite !length_app in Hl. simpl in Hl.
  apply Forall_app in Hx as [Hx Hc]. apply Forall_app in Hy as [Hy Hd].
  rewrite <-!app_assoc, (IH y) by (done || lia). rewrite !be_snoc. simpl.
  apply Forall_inv in Hc. apply Forall_inv in Hd. unfold in_u in Hc, Hd.
  destruct (Z.compare_spec (be x) (be y)) as [->|Hlt|Hgt].
  - rewrite Z.add_compare_mono_l. by destruct (c ?= d).
  - by rewrite (proj2 (Z.compare_lt_iff _ _)) by lia.
  - by rewrite (proj2 (Z.compare_gt_iff _ _)) by lia.
Qed.

Lemma be_inj x y : length x = length y → bytes x → bytes y → be x = be y → x = y.
Proof.
  revert y. induction x as [|c x IH] using rev_ind; intros y Hl Hx Hy E; [by destruct y|].
  destruct y as [|d y _] using rev_ind; [rewrite length_app in Hl; simpl in Hl; lia|].
  rewrite !length_app in Hl. simpl in Hl.
  apply Forall_app in Hx as [Hx Hc]. apply Forall_app in Hy as [Hy Hd].
  apply Forall_inv in Hc. apply Forall_inv in Hd. unfold in_u in Hc, Hd. rewrite !be_snoc in E.
  rewrite (IH y) by (done || lia). f_equal. f_equal. lia.
Qed.

Section Words.
Context (s : list Z) (behind : nat → Z) (Hs : bytes s) (Hg : ∀ i, in_u 8 (behind i)).

Definition octets (i : nat) : list Z :=
  [octet s behind i; octet s behind (i + 1); octet s behind (i + 2); octet s behind (i + 3)].

Lemma octet_range i : in_u 8 (octet s behind i).
Proof.
  unfold octet. destruct (s !! i) eqn:E; simpl; [by eapply Forall_lookup_1|apply Hg].
Qed.

Lemma octets_bytes i : bytes (octets i).
Proof. repeat constructor; apply octet_range. Qed.

Lemma octets_take i r :
  (r ≤ 4)%nat → (i + r ≤ length s)%nat → take r (octets i) = take r (drop i s).
Proof.
  intros Hr Hi. apply list_eq. intros j. destruct (decide (j < r)%nat) as [Hj|].
  - rewrite !lookup_take_lt, lookup_drop by done.
    destruct (lookup_lt_is_Some_2 s (i + j)) as [x Hx]; [lia|]. rewrite Hx.
    unfold octets, octet. destruct j as [|[|[|[|j]]]]; simpl; try lia;
      rewrite ?Nat.add_0_r in Hx; by rewrite Hx.
  - rewrite !lookup_take_ge by lia. done.
Qed.

(** The swapped word, shifted to its first [r] octets. *)
Lemma swapped_word i r :
  (1 ≤ r ≤ 4)%nat →
  Z.shiftr (lj_bswap (load_word s behind i)) (32 - 8 * Z.of_nat r) = be (take r (octets i)).
Proof.
  intros Hr. unfold load_word, octets.
  pose proof (octet_range i) as H0. pose proof (octet_range (i + 1)) as H1.
  pose proof (octet_range (i + 2)) as H2. pose proof (octet_range (i + 3)) as H3.
  generalize dependent (octet s behind i). generalize dependent (octet s behind (i + 1)).
  generalize dependent (octet s behind (i + 2)). generalize dependent (octet s behind (i + 3)).
  intros x3 H3 x2 H2 x1 H1 x0 H0. unfold in_u in *.
  assert (lj_bswap (x0 + 2 ^ 8 * x1 + 2 ^ 16 * x2 + 2 ^ 24 * x3) =
    2 ^ 24 * x0 + 2 ^ 16 * x1 + 2 ^ 8 * x2 + x3) as ->.
  { unfold lj_bswap, bswap_32. change 0xff with (Z.ones 8).
    rewrite !Z.land_ones, !Z.shiftl_mul_pow2, !Z.shiftr_div_pow2 by lia. dlia. }
  rewrite Z.shiftr_div_pow2 by lia. unfold be.
  assert (r = 1 ∨ r = 2 ∨ r = 3 ∨ r = 4)%nat as [-> | [-> | [-> | ->]]] by lia; simpl; dlia.
Qed.

End Words.

Lemma load_word_inj a ga b gb i :
  bytes a → bytes b → (∀ j, in_u 8 (ga j)) → (∀ j, in_u 8 (gb j)) →
  load_word a ga i = load_word b gb i → octets a ga i = octets b gb i.
Proof.
  intros Ha Hb Hga Hgb. unfold load_word, octets.
  pose proof (octet_range a ga Ha Hga) as Ra. pose proof (octet_range b gb Hb Hgb) as Rb.
  pose proof (Ra i). pose proof (Ra (i + 1)%nat). pose proof (Ra (i + 2)%nat). pose proof (Ra (i + 3)%nat).
  pose proof (Rb i). pose proof (Rb (i + 1)%nat). pose proof (Rb (i + 2)%nat). pose proof (Rb (i + 3)%nat).
  clear Ra Rb. unfold in_u in *. intros E.
  f_equal; [lia|f_equal; [lia|f_equal; [lia|f_equal; lia]]].
Qed.

Section Cmp.
Context (a b : list Z) (ga gb : nat → Z).
Context (Ha : bytes a) (Hb : bytes b) (Hga : ∀ j, in_u 8 (ga j)) (Hgb : ∀ j, in_u 8 (gb j)).
Context (Hla : slen a < 2 ^ 31) (Hlb : slen b < 2 ^ 31).

Lemma len_diff_sign : (len_diff a b ?= 0) = (slen a ?= slen b).
Proof.
  unfold len_diff, i32. rewrite wraps_id by (done || unfold in_s, slen in *; simpl in *; lia).
  destruct (Z.compare_spec (slen a) (slen b));
    [apply Z.compare_eq_iff|apply Z.compare_lt_iff|apply Z.compare_gt_iff]; lia.
Qed.

(** The shift count of the code for [r] octets left. *)
Lemma cmp_shift (i n r : nat) :
  Z.of_nat n < 2 ^ 31 → n = (i + r)%nat → (1 ≤ r)%nat →
  (if -3 <=? i32 (u64 (Z.of_nat i - Z.of_nat n))
   then u64 (32 + u64 (Z.shiftl (u64 (Z.of_nat i - Z.of_nat n)) 3)) else 0) =
  32 - 8 * Z.of_nat (Nat.min 4 r).
Proof.
  intros Hn -> Hr. replace (Z.of_nat i - Z.of_nat (i + r)) with (- Z.of_nat r) by lia.
  assert (u64 (- Z.of_nat r) = 2 ^ 64 - Z.of_nat r) as ->.
  { unfold u64, wrapu. symmetry. apply (Z.mod_unique _ _ (-1)); lia. }
  assert (i32 (2 ^ 64 - Z.of_nat r) = - Z.of_nat r) as ->.
  { unfold i32, wraps. replace ((2 ^ 64 - Z.of_nat r) `mod` 2 ^ 32) with (2 ^ 32 - Z.of_nat r).
    - change (2 ^ (32 - 1)) with (2 ^ 31). rewrite (proj2 (Z.ltb_ge _ _)) by lia. lia.
    - apply (Z.mod_unique _ _ (2 ^ 32 - 1)); lia. }
  rewrite Z.shiftl_mul_pow2 by done. change (2 ^ 3) with 8.
  assert (u64 ((2 ^ 64 - Z.of_nat r) * 8) = 2 ^ 64 - 8 * Z.of_nat r) as ->.
  { unfold u64, wrapu. symmetry. apply (Z.mod_unique _ _ 7); lia. }
  destruct (-3 <=? - Z.of_nat r) eqn:E; bprop.
  - rewrite Nat.min_r by lia. unfold u64, wrapu. symmetry. apply (Z.mod_unique _ _ 1); lia.
  - rewrite Nat.min_l by lia. lia.
Qed.

Lemma take_extend i r (s1 s2 : list Z) :
  take i s1 = take i s2 → take r (drop i s1) = take r (drop i s2) → take (i + r) s1 = take (i + r) s2.
Proof. intros E1 E2. by rewrite <-!take_take_drop, E1, E2. Qed.

Lemma cmp_loop_lex fuel i n :
  n = Nat.min (length a) (length b) → (n < fuel + i)%nat →
  take (Nat.min i n) a = take (Nat.min i n) b →
  (cmp_loop a b ga gb fuel i n ?= 0) = lexcmp a b.
Proof.
  intros Hn. revert i. induction fuel as [|fuel IH]; intros i Hf Ht.
  { simpl. rewrite Nat.min_r in Ht by lia. by rewrite len_diff_sign, (lexcmp_lengths n). }
  cbn [cmp_loop]. destruct (decide (i < n)%nat) as [Hi|Hi].
  2:{ rewrite Nat.min_r in Ht by lia. by rewrite len_diff_sign, (lexcmp_lengths n). }
  rewrite Nat.min_l in Ht by lia. set (r := Nat.min 4 (n - i)).
  assert (1 ≤ r ≤ 4)%nat as Hr by lia.
  pose proof (octets_take a ga i r ltac:(lia) ltac:(lia)) as Ta.
  pose proof (octets_take b gb i r ltac:(lia) ltac:(lia)) as Tb.
  destruct (load_word a ga i =? load_word b gb i) eqn:Ew; bprop.
  - apply IH; [lia|]. apply load_word_inj in Ew; [|done..].
    replace (Nat.min (i + 4) n) with (i + r)%nat by lia. apply take_extend; [done|].
    by rewrite <-Ta, <-Tb, Ew.
  - rewrite (cmp_shift i n (n - i)) by (unfold slen in *; lia). fold r.
    rewrite (swapped_word a ga Ha Hga i r Hr), (swapped_word b gb Hb Hgb i r Hr), Ta, Tb.
    assert (lexcmp a b = match be (take r (drop i a)) ?= be (take r (drop i b)) with
      | Eq => lexcmp (drop r (drop i a)) (drop r (drop i b)) | c => c end) as Hlex.
    { rewrite <-(take_drop i a) at 1. rewrite <-(take_drop i b) at 1. rewrite Ht, lexcmp_prefix.
      rewrite <-(take_drop r (drop i a)) at 1. rewrite <-(take_drop r (drop i b)) at 1.
      apply lexcmp_be; [rewrite !length_take, !length_drop; lia|..];
        by apply Forall_take, Forall_drop. }
    destruct (Z.compare_spec (be (take r (drop i a))) (be (take r (drop i b)))) as [E|E|E].
    + rewrite E, Z.eqb_refl, len_diff_sign. symmetry. apply (lexcmp_lengths n); [|done].
      apply be_inj in E; [|rewrite !length_take, !length_drop; lia|by apply Forall_take, Forall_drop..].
      destruct (decide (4 ≤ n - i)%nat) as [H4|H4].
      * exfalso. apply Ew. assert (r = 4%nat) as Er by lia.
        rewrite <-Ta, <-Tb, Er in E. injection E as E0 E1 E2 E3. unfold load_word. congruence.
      * replace n with (i + r)%nat by lia. by apply take_extend.
    + rewrite (proj2 (Z.eqb_neq _ _)), (proj2 (Z.ltb_lt _ _)), Hlex by lia. done.
    + rewrite (proj2 (Z.eqb_neq _ _)), (proj2 (Z.ltb_ge _ _)), Hlex by lia. done.
Qed.

End Cmp.

(** [uj_str_cmp], which compares four octets at a time and reads up to
    three octets behind the end of the shorter string, orders strings
    lexicographically by octets, whatever lies behind their ends. *)
Theorem uj_str_cmp_lexicographic a b ga gb
    (Ha : bytes a) (Hb : bytes b) (Hga : ∀ j, in_u 8 (ga j)) (Hgb : ∀ j, in_u 8 (gb j))
    (Hla : slen a < LJ_MAX_STR) (Hlb : slen b < LJ_MAX_STR) :
  (uj_str_cmp a b ga gb ?= 0) = lexcmp a b.
Proof.
  unfold LJ_MAX_STR in *. unfold uj_str_cmp.
  assert ((if slen b <? slen a then length b else length a) = Nat.min (length a) (length b)) as ->.
  { unfold slen. destruct (Z.of_nat (length b) <? Z.of_nat (length a)) eqn:E; bprop; lia. }
  apply cmp_loop_lex; try done; lia.
Qed.

Lemma uj_str_cmp_lexicographic_witness :
  (uj_str_cmp [97; 98; 99; 100; 101] [97; 98; 99; 100; 101; 102] (λ _, 255) (λ _, 0) ?= 0) = Lt.
Proof.
  rewrite (uj_str_cmp_lexicographic [97; 98; 99; 100; 101] [97; 98; 99; 100; 101; 102]).
  - reflexivity.
  - repeat constructor; vm_compute; congruence.
  - repeat constructor; vm_compute; congruence.
  - intros j. vm_compute. split; congruence.
  - intros j. vm_compute. split; congruence.
  - vm_compute. reflexivity.
  - vm_compute. reflexivity.
Defined.

(** ** Case and trimming *)

Lemma skip_left_spec s :
  ∃ p, s = p ++ skip_left s ∧ Forall (λ c, lj_char_isspace c = true) p ∧
    (∀ c l, skip_left s = c :: l → lj_char_isspace c = false).
Proof.
  induction s as [|c s IH]; simpl; [by exists []|].
  destruct (lj_char_isspace c) eqn:E.
  - destruct IH as (p & Ep & Hp & Hn). exists (c :: p). split; [simpl; by rewrite <-Ep|].
    split; [by constructor|done].
  - exists []. split_and!; [done|constructor|]. by intros c' l [= <- <-].
Qed.

(** [uj_str_trim] removes exactly the leading and trailing space characters:
    the argument is the result between two runs of spaces, and the result neither
    begins nor ends with a space. *)
Theorem uj_str_trim_correct s :
  ∃ p q, s = p ++ uj_str_trim s ++ q ∧
    Forall (λ c, lj_char_isspace c = true) p ∧ Forall (λ c, lj_char_isspace c = true) q ∧
    (∀ c, head (uj_str_trim s) = Some c → lj_char_isspace c = false) ∧
    (∀ c, last (uj_str_trim s) = Some c → lj_char_isspace c = false).
Proof.
  unfold uj_str_trim. destruct (decide (s = [])) as [->|Hs].
  { exists [], []. split_and!; done. }
  destruct (skip_left_spec s) as (p & Ep & Hp & Hl).
  destruct (decide (skip_left s = [])) as [E|E].
  { exists p, []. rewrite E, app_nil_r in Ep. split_and!; try done. by rewrite app_nil_r. }
  unfold skip_right. set (l := skip_left s) in *.
  destruct (skip_left_spec (rev l)) as (q & Eq & Hq & Hr).
  set (m := skip_left (rev l)) in *.
  assert (l = rev m ++ rev q) as El.
  { rewrite <-(rev_involutive l), Eq, rev_app_distr. done. }
  exists p, (rev q). split_and!; [by rewrite <-El| done| by apply Forall_rev| |].
  - intros c Hc. destruct (rev m) as [|c' m'] eqn:Em; [done|]. injection Hc as ->.
    by apply (Hl c (m' ++ rev q)).
  - intros c Hc. destruct m as [|c' m'] eqn:Em; [done|]. simpl in Hc. rewrite last_snoc in Hc.
    injection Hc as ->. by apply (Hr c m').
Qed.

(** A property of all octets, checked by enumeration. *)
Lemma octet_forall (P : Z → bool) :
  forallb P (Z.of_nat <$> seq 0 256) = true → ∀ c, in_u 8 c → P c = true.
Proof.
  intros Hall c [Hc1 Hc2]. rewrite forallb_forall in Hall. apply Hall.
  apply list_elem_of_In, list_elem_of_fmap. exists (Z.to_nat c). split; [lia|].
  apply elem_of_seq. simpl in *. lia.
Qed.

(** [uj_str_upper] and [uj_str_lower] only change ASCII letters, keep the
    length, and each undoes the other's effect on letters. *)
Theorem uj_str_case_correct s (Hs : bytes s) :
  uj_str_lower s = (λ c, if (65 <=? c) && (c <=? 90) then c + 32 else c) <$> s ∧
  uj_str_upper s = (λ c, if (97 <=? c) && (c <=? 122) then c - 32 else c) <$> s ∧
  uj_str_upper (uj_str_lower s) = uj_str_upper s ∧ uj_str_lower (uj_str_upper s) = uj_str_lower s.
Proof.
  unfold uj_str_lower, uj_str_upper, str_flip_case.
  assert (∀ f g : Z → Z, forallb (λ c, f c =? g c) (Z.of_nat <$> seq 0 256) = true →
    f <$> s = g <$> s) as Hext.
  { intros f g E. apply list_fmap_ext. intros i c Hc. apply Z.eqb_eq.
    apply (octet_forall (λ c, f c =? g c) E). by eapply Forall_lookup_1. }
  split_and!; [by apply Hext| by apply Hext| |];
    rewrite <-list_fmap_compose; by apply Hext.
Qed.

Lemma uj_str_case_correct_witness : uj_str_upper [76; 117; 97; 200] = [76; 85; 65; 200].
Proof.
  destruct (uj_str_case_correct [76; 117; 97; 200]) as (_ & E & _).
  - repeat constructor; vm_compute; congruence.
  - rewrite E. reflexivity.
Defined.

End StrTheorems.
