(* ===== verification/Bc.v ===== *)
(** * Bytecode instructions (lj_bc.h, lj_bcins.h)

    A [BCIns] is a 32-bit word: the opcode in its lowest octet, then the operand
    A, then either C and B (8 bits each) or D (16 bits).  Operands that are stack
    slots or numbers of constants are stored doubled ("x2"), which of them being
    a matter of the opcode's modes.  [BCDEF] is the table of the modes, indexed
    by the opcode; its metamethod column is not part of the instruction format
    and is left out. *)

From stdpp Require Import base decidable list numbers option.
From Stdlib Require Import ZArith Lia.
From S2P Require Import Prelude.

Local Open Scope Z_scope.

Module Bc.

Definition BCMAX_A : Z := 0xff.
Definition NO_REG : Z := BCMAX_A.
Definition BCBIAS_J : Z := 0x8000.

(** ** Operand modes *)

Inductive BCMode :=
  | Mnone | Mdst | Mbase | Mvar | Mrbase | Muv
  | Mlit | Mlits | Mpri | Mnum | Mstr | Mtab | Mfunc | Mjump | Mcdata.

(** The modes of A, B and C (or D) of each opcode. *)
Definition BCDEF : list (BCMode * BCMode * BCMode) :=
  [
   (Mvar, Mnone, Mvar); (Mvar, Mnone, Mvar); (Mvar, Mnone, Mvar);  (* ISLT ISGE ISLE *)
   (Mvar, Mnone, Mvar); (Mvar, Mnone, Mvar); (Mvar, Mnone, Mvar);  (* ISGT ISEQV ISNEV *)
   (Mvar, Mnone, Mstr); (Mvar, Mnone, Mstr); (Mvar, Mnone, Mnum);  (* ISEQS ISNES ISEQN *)
   (Mvar, Mnone, Mnum); (Mvar, Mnone, Mpri); (Mvar, Mnone, Mpri);  (* ISNEN ISEQP ISNEP *)
   (Mdst, Mnone, Mvar); (Mdst, Mnone, Mvar); (Mnone, Mnone, Mvar);  (* ISTC ISFC IST *)
   (Mnone, Mnone, Mvar); (Mdst, Mnone, Mvar); (Mdst, Mnone, Mvar);  (* ISF MOV NOT *)
   (Mdst, Mnone, Mvar); (Mdst, Mnone, Mvar); (Mdst, Mvar, Mvar);  (* UNM LEN ADD *)
   (Mdst, Mvar, Mvar); (Mdst, Mvar, Mvar); (Mdst, Mvar, Mvar);  (* SUB MUL DIV *)
   (Mdst, Mvar, Mvar); (Mdst, Mvar, Mvar); (Mdst, Mbase, Mbase);  (* MOD POW CAT *)
   (Mdst, Mnone, Mstr); (Mdst, Mnone, Mcdata); (Mdst, Mnone, Mlits);  (* KSTR KCDATA KSHORT *)
   (Mdst, Mnone, Mnum); (Mdst, Mnone, Mpri); (Mbase, Mnone, Mbase);  (* KNUM KPRI KNIL *)
   (Mdst, Mnone, Muv); (Muv, Mnone, Mvar); (Muv, Mnone, Mstr);  (* UGET USETV USETS *)
   (Muv, Mnone, Mnum); (Muv, Mnone, Mpri); (Mrbase, Mnone, Mjump);  (* USETN USETP UCLO *)
   (Mdst, Mnone, Mfunc); (Mdst, Mnone, Mlit); (Mdst, Mnone, Mtab);  (* FNEW TNEW TDUP *)
   (Mdst, Mnone, Mstr); (Mvar, Mnone, Mstr); (Mdst, Mvar, Mvar);  (* GGET GSET TGETV *)
   (Mdst, Mvar, Mstr); (Mdst, Mvar, Mlit); (Mvar, Mvar, Mvar);  (* TGETS TGETB TSETV *)
   (Mvar, Mvar, Mstr); (Mvar, Mvar, Mlit); (Mbase, Mnone, Mnum);  (* TSETS TSETB TSETM *)
   (Mbase, Mlit, Mlit); (Mbase, Mlit, Mlit); (Mbase, Mnone, Mlit);  (* CALLM CALL CALLMT *)
   (Mbase, Mnone, Mlit); (Mbase, Mlit, Mlit); (Mbase, Mlit, Mlit);  (* CALLT ITERC ITERN *)
   (Mbase, Mlit, Mlit); (Mbase, Mnone, Mjump); (Mbase, Mnone, Mlit);  (* VARG ISNEXT RETM *)
   (Mrbase, Mnone, Mlit); (Mrbase, Mnone, Mlit); (Mrbase, Mnone, Mlit);  (* RET RET0 RET1 *)
   (Mnone, Mnone, Mnone); (Mnone, Mnone, Mnone); (Mbase, Mnone, Mjump);  (* HOTCNT COVERG FORI *)
   (Mbase, Mnone, Mjump); (Mbase, Mnone, Mjump); (Mbase, Mnone, Mjump);  (* JFORI FORL IFORL *)
   (Mbase, Mnone, Mlit); (Mbase, Mnone, Mjump); (Mbase, Mnone, Mjump);  (* JFORL ITERL IITERL *)
   (Mbase, Mnone, Mlit); (Mbase, Mnone, Mjump); (Mbase, Mnone, Mjump);  (* JITERL ITRNL IITRNL *)
   (Mbase, Mnone, Mlit); (Mrbase, Mnone, Mjump); (Mrbase, Mnone, Mjump);  (* JITRNL LOOP ILOOP *)
   (Mrbase, Mnone, Mlit); (Mrbase, Mnone, Mjump); (Mrbase, Mnone, Mnone);  (* JLOOP JMP FUNCF *)
   (Mrbase, Mnone, Mnone); (Mrbase, Mnone, Mlit); (Mrbase, Mnone, Mnone);  (* IFUNCF JFUNCF FUNCV *)
   (Mrbase, Mnone, Mnone); (Mrbase, Mnone, Mlit); (Mrbase, Mnone, Mnone);  (* IFUNCV JFUNCV FUNCC *)
   (Mrbase, Mnone, Mnone)  (* FUNCCW *)
  ].

Definition BC__MAX : Z := 88.
Definition BC_KNUM : Z := 0x1e.
Definition BC_HOTCNT : Z := 0x3f.
Definition BC_JFORI : Z := 0x42.
Definition BC_FORL : Z := 0x43.
Definition BC_IFORL : Z := 0x44.
Definition BC_JFORL : Z := 0x45.
Definition BC_IITERL : Z := 0x47.
Definition BC_JITERL : Z := 0x48.
Definition BC_IITRNL : Z := 0x4a.
Definition BC_JITRNL : Z := 0x4b.
Definition BC_ILOOP : Z := 0x4d.
Definition BC_JLOOP : Z := 0x4e.
Definition BC_FUNCF : Z := 0x50.
Definition BC_FUNCV : Z := 0x53.

Definition bcmodes (op : Z) : BCMode * BCMode * BCMode :=
  nth (Z.to_nat op) BCDEF (Mnone, Mnone, Mnone).
Definition bcmode_a (op : Z) : BCMode := (bcmodes op).1.1.
Definition bcmode_b (op : Z) : BCMode := (bcmodes op).1.2.
Definition bcmode_c (op : Z) : BCMode := (bcmodes op).2.
Definition bcmode_d (op : Z) : BCMode := bcmode_c op.

(** Is an operand of this mode stored doubled? *)
Definition isx2_bcm (m : BCMode) : bool :=
  match m with Mdst | Mvar | Mbase | Mrbase | Mnum => true | _ => false end.

(** [(isx2 && r != NO_REG) ? r << 1 : r] on a [uint32_t], and its inverse. *)
Definition x2_encode (m : BCMode) (r : Z) : Z :=
  if isx2_bcm m && negb (r =? NO_REG) then u32 (Z.shiftl r 1) else r.
Definition x2_decode (m : BCMode) (r : Z) : Z :=
  if isx2_bcm m && negb (r =? NO_REG) then Z.shiftr r 1 else r.

(** ** Fields *)

Definition bc_op (i : Z) : Z := Z.land i 0xff.
Definition bc_a_raw (i : Z) : Z := Z.land (Z.shiftr i 8) 0xff.
Definition bc_b_raw (i : Z) : Z := Z.shiftr i 24.
Definition bc_c_raw (i : Z) : Z := Z.land (Z.shiftr i 16) 0xff.
Definition bc_d_raw (i : Z) : Z := Z.shiftr i 16.

Definition bc_a (i : Z) : Z := x2_decode (bcmode_a (bc_op i)) (bc_a_raw i).
Definition bc_b (i : Z) : Z := x2_decode (bcmode_b (bc_op i)) (bc_b_raw i).
Definition bc_c (i : Z) : Z := x2_decode (bcmode_c (bc_op i)) (bc_c_raw i).
Definition bc_d (i : Z) : Z := x2_decode (bcmode_d (bc_op i)) (bc_d_raw i).
Definition bc_j (i : Z) : Z := bc_d i - BCBIAS_J.

(** Store an octet of the word. *)
Definition setbc_byte (ofs x i : Z) : Z :=
  Z.lor (Z.ldiff i (Z.shiftl 0xff (8 * ofs))) (Z.shiftl (u8 x) (8 * ofs)).
Definition setbc_op (x i : Z) : Z := setbc_byte 0 x i.
Definition setbc_a_raw (x i : Z) : Z := setbc_byte 1 x i.
Definition setbc_b_raw (x i : Z) : Z := setbc_byte 3 x i.
Definition setbc_c_raw (x i : Z) : Z := setbc_byte 2 x i.
(** Store its upper half. *)
Definition setbc_d_raw (x i : Z) : Z :=
  Z.lor (Z.ldiff i (Z.shiftl 0xffff 16)) (Z.shiftl (wrapu 16 x) 16).

Definition setbc_a (a i : Z) : Z := setbc_a_raw (x2_encode (bcmode_a (bc_op i)) a) i.
Definition setbc_b (b i : Z) : Z := setbc_b_raw (x2_encode (bcmode_b (bc_op i)) b) i.
Definition setbc_c (c i : Z) : Z := setbc_c_raw (x2_encode (bcmode_c (bc_op i)) c) i.
Definition setbc_d (d i : Z) : Z := setbc_d_raw (x2_encode (bcmode_d (bc_op i)) d) i.

Definition BCINS_ABC_raw (o a b c : Z) : Z :=
  Z.lor (Z.lor (Z.lor o (u32 (Z.shiftl a 8))) (u32 (Z.shiftl b 24))) (u32 (Z.shiftl c 16)).
Definition BCINS_AD_raw (o a d : Z) : Z :=
  Z.lor (Z.lor o (u32 (Z.shiftl a 8))) (u32 (Z.shiftl d 16)).
Definition BCINS_AJ_raw (o a j : Z) : Z := BCINS_AD_raw o a (u32 (i32 (j + BCBIAS_J))).

Definition BCINS_ABC (o a b c : Z) : Z :=
  BCINS_ABC_raw o (x2_encode (bcmode_a o) a) (x2_encode (bcmode_b o) b) (x2_encode (bcmode_c o) c).
Definition BCINS_AD (o a d : Z) : Z :=
  BCINS_AD_raw o (x2_encode (bcmode_a o) a) (x2_encode (bcmode_d o) d).
Definition BCINS_AJ (o a j : Z) : Z := BCINS_AJ_raw o (x2_encode (bcmode_a o) a) j.

(** ** Classes of loop opcodes *)

Definition bc_isiloop (op : Z) : bool :=
  (op =? BC_IFORL) || (op =? BC_IITERL) || (op =? BC_IITRNL) || (op =? BC_ILOOP).
Definition bc_isjloop (op : Z) : bool :=
  (op =? BC_JFORL) || (op =? BC_JITERL) || (op =? BC_JITRNL) || (op =? BC_JLOOP).

(** ** Packing *)

(** The operands that a field of [lim] values can hold. *)
Definition operand_ok (m : BCMode) (lim r : Z) : Prop :=
  if isx2_bcm m then 0 ≤ r < lim / 2 ∨ r = NO_REG else 0 ≤ r < lim.

Lemma x2_roundtrip m lim r :
  256 ≤ lim ≤ 65536 → operand_ok m lim r →
  0 ≤ x2_encode m r < lim ∧ x2_decode m (x2_encode m r) = r.
Proof.
  unfold operand_ok, x2_encode, x2_decode, NO_REG, BCMAX_A. intros Hl Hr.
  destruct (isx2_bcm m); simpl; [|done].
  destruct (r =? 255) eqn:E; bprop; simpl.
  - subst r. split; [lia|done].
  - destruct Hr as [Hr|]; [|done]. assert (0 ≤ r < 32768) by dlia.
    rewrite Z.shiftl_mul_pow2, Z.shiftr_div_pow2 by lia. change (2 ^ 1) with 2.
    unfold u32. rewrite wrapu_id by (unfold in_u; lia).
    rewrite (proj2 (Z.eqb_neq _ _)) by lia. simpl. split; dlia.
Qed.

Lemma pack_ad o a d :
  0 ≤ o < 256 → 0 ≤ a < 256 → 0 ≤ d < 65536 → BCINS_AD_raw o a d = o + a * 2 ^ 8 + d * 2 ^ 16.
Proof.
  intros Ho Ha Hd. unfold BCINS_AD_raw. rewrite !Z.shiftl_mul_pow2 by lia.
  unfold u32. rewrite !wrapu_id by (unfold in_u; lia).
  rewrite (lor_disjoint_add o a 8) by lia. by apply lor_disjoint_add; lia.
Qed.

Lemma pack_abc o a b c :
  0 ≤ o < 256 → 0 ≤ a < 256 → 0 ≤ b < 256 → 0 ≤ c < 256 →
  BCINS_ABC_raw o a b c = o + a * 2 ^ 8 + c * 2 ^ 16 + b * 2 ^ 24.
Proof.
  intros Ho Ha Hb Hc. unfold BCINS_ABC_raw. rewrite !Z.shiftl_mul_pow2 by lia.
  unfold u32. rewrite !wrapu_id by (unfold in_u; lia).
  rewrite <-Z.lor_assoc, (Z.lor_comm (b * _)), Z.lor_assoc.
  rewrite (lor_disjoint_add o a 8), (lor_disjoint_add _ c 16) by lia.
  by apply lor_disjoint_add; lia.
Qed.

Lemma field_byte i k : 0 ≤ k → Z.land (Z.shiftr i k) 0xff = (i / 2 ^ k) `mod` 2 ^ 8.
Proof. intros Hk. rewrite Z.shiftr_div_pow2 by done. apply (Z.land_ones _ 8). lia. Qed.

Lemma bc_fields i :
  bc_op i = i `mod` 2 ^ 8 ∧ bc_a_raw i = (i / 2 ^ 8) `mod` 2 ^ 8 ∧
  bc_c_raw i = (i / 2 ^ 16) `mod` 2 ^ 8 ∧ bc_b_raw i = i / 2 ^ 24 ∧ bc_d_raw i = i / 2 ^ 16.
Proof.
  unfold bc_op, bc_a_raw, bc_b_raw, bc_c_raw, bc_d_raw. rewrite !field_byte by lia.
  rewrite !Z.shiftr_div_pow2 by lia. split_and!; try done. apply (Z.land_ones i 8). lia.
Qed.

(** Every instruction the composing functions build gives back its opcode and operands, for
    all operands that the fields can hold (doubled or not). *)
Theorem bcins_roundtrip o a b c d :
  0 ≤ o < BC__MAX → operand_ok (bcmode_a o) 256 a → operand_ok (bcmode_b o) 256 b →
  operand_ok (bcmode_c o) 256 c → operand_ok (bcmode_d o) 65536 d →
  let i := BCINS_AD o a d in let i' := BCINS_ABC o a b c in
  (bc_op i = o ∧ bc_a i = a ∧ bc_d i = d) ∧
  (bc_op i' = o ∧ bc_a i' = a ∧ bc_b i' = b ∧ bc_c i' = c).
Proof.
  intros Ho Ha Hb Hc Hd i i'. unfold BC__MAX in Ho.
  destruct (x2_roundtrip _ 256 _ ltac:(lia) Ha) as [Ra Ea].
  destruct (x2_roundtrip _ 256 _ ltac:(lia) Hb) as [Rb Eb].
  destruct (x2_roundtrip _ 256 _ ltac:(lia) Hc) as [Rc Ec].
  destruct (x2_roundtrip _ 65536 _ ltac:(lia) Hd) as [Rd Ed].
  destruct (bc_fields i) as (Fo & Fa & _ & _ & Fd), (bc_fields i') as (Fo' & Fa' & Fc' & Fb' & _).
  unfold i, i', BCINS_AD, BCINS_ABC in *. rewrite pack_ad in * by lia. rewrite pack_abc in * by lia.
  unfold bc_a, bc_b, bc_c, bc_d. rewrite Fo, Fa, Fd, Fo', Fa', Fb', Fc'.
  assert (∀ x y : Z, 0 ≤ x < 256 → 0 ≤ y → (o + x * 2 ^ 8 + y * 2 ^ 16) `mod` 2 ^ 8 = o) as Mo
    by (intros; dlia).
  split; [rewrite Mo by lia|replace (_ + x2_encode _ b * 2 ^ 24) with
    (o + x2_encode (bcmode_a o) a * 2 ^ 8 +
     (x2_encode (bcmode_c o) c + x2_encode (bcmode_b o) b * 2 ^ 8) * 2 ^ 16) by lia;
    rewrite Mo by lia]; split_and!; try done.
  - rewrite <-Ea at 2. f_equal. dlia.
  - rewrite <-Ed at 2. f_equal. dlia.
  - rewrite <-Ea at 2. f_equal. dlia.
  - rewrite <-Eb at 2. f_equal. dlia.
  - rewrite <-Ec at 2. f_equal. dlia.
Qed.

Lemma bcins_roundtrip_witness :
  bc_a (BCINS_AD BC_KNUM 5 300) = 5 ∧ bc_d (BCINS_AD BC_KNUM 5 300) = 300.
Proof.
  destruct (bcins_roundtrip BC_KNUM 5 0 0 300) as [(_ & Ha & Hd) _];
    [split; done|by left|split; done|by left|by left|]. split; assumption.
Defined.

(** The number constant 255 is the one index that is not doubled: the instruction that loads it
    holds 255, the address of the middle of the constant 127. *)
Theorem knum_255_not_doubled a :
  0 ≤ a < 128 → bc_d_raw (BCINS_AD BC_KNUM a 255) = 255 ∧
  bc_d_raw (BCINS_AD BC_KNUM a 127) = 254 ∧ bc_d_raw (BCINS_AD BC_KNUM a 128) = 256.
Proof.
  intros Ha. assert (∀ k x, x2_encode Mnum k = x → 0 ≤ x < 65536 →
    bc_d_raw (BCINS_AD BC_KNUM a k) = x) as H.
  { intros k x E Hx. unfold BCINS_AD. change (bcmode_d BC_KNUM) with Mnum. rewrite E.
    change (bcmode_a BC_KNUM) with Mdst.
    destruct (x2_roundtrip Mdst 256 a ltac:(lia)) as [R _]; [by left; dlia|].
    destruct (bc_fields (BCINS_AD_raw BC_KNUM (x2_encode Mdst a) x)) as (_ & _ & _ & _ & ->).
    rewrite pack_ad by (done || lia). unfold BC_KNUM. dlia. }
  split_and!; by apply H.
Qed.

(** Number constants from 32768 on lose their upper bit, although a function may have 65536. *)
Theorem knum_index_wraps a k :
  0 ≤ a < 128 → 0 ≤ k < 32768 → k ≠ 255 →
  bc_d_raw (BCINS_AD BC_KNUM a (k + 32768)) = bc_d_raw (BCINS_AD BC_KNUM a k).
Proof.
  intros Ha Hk Hne. unfold BCINS_AD. f_equal. change (bcmode_d BC_KNUM) with Mnum.
  unfold x2_encode. change (isx2_bcm Mnum) with true. unfold NO_REG, BCMAX_A.
  rewrite !(proj2 (Z.eqb_neq _ _)) by lia. simpl. unfold BCINS_AD_raw. f_equal.
  unfold u32. rewrite !(wrapu_id 32 (Z.shiftl _ 1)) by (rewrite Z.shiftl_mul_pow2 by lia; unfold in_u; lia).
  rewrite !Z.shiftl_mul_pow2 by lia. unfold wrapu. dlia.
Qed.

End Bc.
