(* ===== verification/Cstr.v ===== *)
(** * C strings (uj_cstr.c): printing of integers and substring search

    Functions that write characters into a caller's buffer are modelled as the
    list of octets written.  [lua_number2str] is a [sprintf] of the C library;
    it is the argument [number2str] of [uj_cstr_fromnum]. *)

From stdpp Require Import base decidable list numbers option.
From Stdlib Require Import ZArith Lia.
From S2P Require Import Prelude Obj.

Local Open Scope Z_scope.

Module Cstr.
Import Obj.

(** ** Printing *)

Definition UJ_CSTR_INTBUF : Z := 1 + 10.

(** [*s++ = '0' + u] *)
Definition dig (u : Z) : Z := u8 (48 + u).

(** The labels of [cstr_print_four_digits]. *)
Definition dig1 (u : Z) : list Z := [dig u].
Definition dig2 (u : Z) : list Z := dig (u / 10) :: dig1 (u `mod` 10).
Definition dig3 (u : Z) : list Z := dig (u / 100) :: dig2 (u `mod` 100).

Definition cstr_print_four_digits (u : Z) (padded : bool) : list Z :=
  if negb padded && (u <? 10) then dig1 u
  else if negb padded && (u <? 100) then dig2 u
  else if negb padded && (u <? 1000) then dig3 u
  else dig (u / 1000) :: dig3 (u `mod` 1000).

Definition cstr_print_two_digits (u : Z) : list Z :=
  if 10 <=? u then [dig (u / 10); dig (u `mod` 10)] else [dig u].

(** [u = -k] of the smallest integer relies on two's complement. *)
Definition uj_cstr_fromint (k : Z) : list Z :=
  let u := if k <? 0 then u32 (i32 (- k)) else u32 k in
  let sign := if k <? 0 then [45] else [] in
  if u <? 10000 then sign ++ cstr_print_four_digits u false
  else
    let med := u / 10000 in
    let lo := u `mod` 10000 in
    if med <? 10000 then
      sign ++ cstr_print_four_digits med false ++ cstr_print_four_digits lo true
    else
      let hi := med / 10000 in
      let med := med `mod` 10000 in
      sign ++ cstr_print_two_digits hi ++ cstr_print_four_digits med true ++
        cstr_print_four_digits lo true.

(** "nan", "inf", "-inf" or what the C library prints. *)
Definition uj_cstr_fromnum (number2str : Z → list Z) (n : Z) : list Z :=
  if num_exp n =? 2047 then
    if negb (num_mant n =? 0) then [110; 97; 110]
    else if num_neg n then [45; 105; 110; 102] else [105; 110; 102]
  else number2str n.

(** ** Substring search *)

Inductive find_res := FFound (i : nat) | FNull | FUndef.

(** [memchr]: the index of the first [c] among the first [n] octets. *)
Fixpoint memchr (h : list Z) (c : Z) (n : nat) : option nat :=
  match n, h with
  | S n, x :: h => if x =? c then Some O else S <$> memchr h c n
  | _, _ => None
  end.

(** The loop, at position [pos] of the haystack; reading behind it is undefined. *)
Fixpoint find_loop (fuel : nat) (h : list Z) (pos haystacklen : nat) (c : Z) (needle : list Z) :
    find_res :=
  match fuel with
  | O => FUndef
  | S fuel =>
      match haystacklen with
      | O => FNull
      | _ =>
          match memchr h c haystacklen with
          | None => FNull
          | Some p =>
              let h1 := drop (S p) h in
              if decide (length h1 < length needle)%nat then FUndef
              else if decide (take (length needle) h1 = needle) then FFound (pos + p)
              else find_loop fuel h1 (pos + S p) (haystacklen - S p) c needle
          end
      end
  end.

Definition uj_cstr_find (haystack needle : list Z) : find_res :=
  if decide (length haystack < length needle)%nat then FNull
  else match needle with
  | [] => FFound 0
  | c :: needle =>
      find_loop (S (length haystack)) haystack 0 (length haystack - length needle) c needle
  end.

(** ** Decimal notation *)

Definition isdig (c : Z) : Prop := 48 ≤ c < 58.
(** The number that a sequence of digits spells, after [acc]. *)
Definition dec_val (acc : Z) (ds : list Z) : Z := foldl (λ a c, 10 * a + (c - 48)) acc ds.

(** Digits without superfluous zeroes. *)
Definition decimal (ds : list Z) : Prop :=
  Forall isdig ds ∧ ds ≠ [] ∧ (head ds = Some 48 → ds = [48]).

Lemma dig_val u : 0 ≤ u < 10 → dig u = 48 + u.
Proof. intros Hu. unfold dig, u8. apply wrapu_id. unfold in_u. lia. Qed.

Ltac digits := repeat (apply Forall_cons_2; [unfold isdig; dlia|]); apply Forall_nil_2.

Lemma four_padded u acc :
  0 ≤ u < 10000 → let ds := cstr_print_four_digits u true in
  Forall isdig ds ∧ length ds = 4%nat ∧ dec_val acc ds = 10000 * acc + u.
Proof.
  intros Hu. unfold cstr_print_four_digits, dig3, dig2, dig1. simpl.
  rewrite !dig_val by dlia. split; [|split; [done|dlia]].
  digits.
Qed.

Lemma four_plain u :
  0 ≤ u < 10000 → let ds := cstr_print_four_digits u false in
  decimal ds ∧ (length ds ≤ 4)%nat ∧ dec_val 0 ds = u.
Proof.
  intros Hu. unfold cstr_print_four_digits, decimal, dig3, dig2, dig1. simpl.
  destruct (u <? 10) eqn:E1; [|destruct (u <? 100) eqn:E2; [|destruct (u <? 1000) eqn:E3]];
    bprop; simpl; rewrite !dig_val by dlia; (split; [split; [digits|]
      |split; [lia|dlia]]); (split; [done|]); intros [= H]; try (exfalso; dlia).
  by rewrite H.
Qed.

Lemma two_plain u :
  1 ≤ u < 100 → let ds := cstr_print_two_digits u in
  decimal ds ∧ (length ds ≤ 2)%nat ∧ dec_val 0 ds = u.
Proof.
  intros Hu. unfold cstr_print_two_digits, decimal. simpl.
  destruct (10 <=? u) eqn:E; bprop; simpl; rewrite !dig_val by dlia;
    (split; [split; [digits|]|split; [lia|dlia]]);
    (split; [done|]); intros [= H]; exfalso; dlia.
Qed.

(** Padded groups after the first one. *)
Lemma decimal_app ds es :
  decimal ds → dec_val 0 ds ≠ 0 → Forall isdig es → decimal (ds ++ es).
Proof.
  intros (Hd & Hn & Hz) Hv He. split; [by apply Forall_app|]. split; [by destruct ds|].
  destruct ds as [|c ds]; [done|]. simpl. intros H. specialize (Hz H). injection Hz as -> ->.
  done.
Qed.

Lemma dec_val_app acc ds es : dec_val acc (ds ++ es) = dec_val (dec_val acc ds) es.
Proof. apply foldl_app. Qed.

Lemma fromint_abs u :
  0 ≤ u < 2 ^ 32 →
  let ds := if u <? 10000 then cstr_print_four_digits u false
    else if u / 10000 <? 10000 then
      cstr_print_four_digits (u / 10000) false ++ cstr_print_four_digits (u `mod` 10000) true
    else cstr_print_two_digits (u / 10000 / 10000) ++
      cstr_print_four_digits ((u / 10000) `mod` 10000) true ++
      cstr_print_four_digits (u `mod` 10000) true in
  decimal ds ∧ (length ds ≤ 10)%nat ∧ dec_val 0 ds = u.
Proof.
  intros Hu. cbv zeta. destruct (u <? 10000) eqn:E1; bprop.
  { destruct (four_plain u) as (? & ? & ?); [lia|]. split_and!; [done|lia|done]. }
  destruct (u / 10000 <? 10000) eqn:E2; bprop.
  - destruct (four_plain (u / 10000)) as (D & L & V); [dlia|].
    destruct (four_padded (u `mod` 10000) (u / 10000)) as (F & L' & V'); [dlia|].
    rewrite length_app, dec_val_app, V, V'. split_and!; [|lia|dlia].
    apply decimal_app; [done|rewrite V; dlia|done].
  - destruct (two_plain (u / 10000 / 10000)) as (D & L & V); [dlia|].
    destruct (four_padded ((u / 10000) `mod` 10000) (u / 10000 / 10000)) as (F1 & L1 & V1); [dlia|].
    destruct (four_padded (u `mod` 10000) (u / 10000)) as (F2 & L2 & V2); [dlia|].
    rewrite !length_app, !dec_val_app, V, V1.
    replace (10000 * (u / 10000 / 10000) + (u / 10000) `mod` 10000) with (u / 10000) by dlia.
    rewrite V2. split_and!; [|lia|dlia].
    apply decimal_app; [done|rewrite V; dlia|by apply Forall_app].
Qed.

(** Every 32-bit integer is printed as its decimal notation, in at most 11 characters. *)
Lemma fromint_decimal k :
  in_s 32 k → ∃ ds, uj_cstr_fromint k = (if k <? 0 then [45] else []) ++ ds ∧
    decimal ds ∧ dec_val 0 ds = Z.abs k ∧ (length (uj_cstr_fromint k) ≤ 11)%nat.
Proof.
  intros Hk. unfold in_s in Hk. change (2 ^ (32 - 1)) with 2147483648 in Hk.
  assert ((if k <? 0 then u32 (i32 (- k)) else u32 k) = Z.abs k) as Eu.
  { unfold u32, i32, wraps, wrapu. change (2 ^ 32) with 4294967296.
    change (2 ^ (32 - 1)) with 2147483648.
    destruct (k <? 0) eqn:E; bprop; [|rewrite Z.mod_small by lia; lia].
    rewrite (Z.mod_small (- k)) by lia. case_test; bprop; dlia. }
  destruct (fromint_abs (Z.abs k)) as (D & L & V); [lia|].
  unfold uj_cstr_fromint. rewrite Eu. cbv zeta.
  exists (if Z.abs k <? 10000 then cstr_print_four_digits (Z.abs k) false
    else if Z.abs k / 10000 <? 10000 then
      cstr_print_four_digits (Z.abs k / 10000) false ++
      cstr_print_four_digits (Z.abs k `mod` 10000) true
    else cstr_print_two_digits (Z.abs k / 10000 / 10000) ++
      cstr_print_four_digits ((Z.abs k / 10000) `mod` 10000) true ++
      cstr_print_four_digits (Z.abs k `mod` 10000) true).
  split; [by repeat case_match|]. split; [done|]. split; [done|].
  assert (∀ l : list Z, (length l ≤ 10)%nat →
    (length ((if (k <? 0)%Z then [45%Z] else []) ++ l) ≤ 11)%nat) as Hl
    by (intros l ?; destruct (k <? 0); simpl; lia).
  repeat case_match; by apply Hl.
Qed.

(** ** The first occurrence *)

Definition occurs (h needle : list Z) (i : nat) : Prop :=
  (i + length needle ≤ length h)%nat ∧ take (length needle) (drop i h) = needle.

Lemma memchr_spec h c n :
  match memchr h c n with
  | Some p => (p < n)%nat ∧ h !! p = Some c ∧ ∀ j, (j < p)%nat → h !! j ≠ Some c
  | None => ∀ j, (j < n)%nat → h !! j ≠ Some c
  end.
Proof.
  revert n. induction h as [|x h IH]; intros [|n]; simpl; try (intros; lia || done).
  destruct (x =? c) eqn:E; bprop.
  - subst. split; [lia|]. split; [done|]. intros j ?. lia.
  - specialize (IH n). destruct (memchr h c n) as [p|]; simpl.
    + destruct IH as (? & ? & IH). split; [lia|]. split; [done|].
      intros [|j] ?; simpl; [congruence|]. apply IH. lia.
    + intros [|j] ?; simpl; [congruence|]. apply IH. lia.
Qed.

Lemma occurs_cons h c needle i :
  occurs h (c :: needle) i ↔
  h !! i = Some c ∧ (length needle ≤ length (drop (S i) h))%nat ∧
  take (length needle) (drop (S i) h) = needle.
Proof.
  unfold occurs. rewrite length_drop. simpl. split.
  - intros [Hl E]. destruct (drop i h) as [|x r] eqn:Ed; [done|]. injection E as -> E.
    assert (h !! i = Some c) as Hi.
    { pose proof (lookup_drop h i 0) as H. rewrite Ed, Nat.add_0_r in H. done. }
    split; [done|]. split; [lia|]. rewrite (drop_S _ _ _ Hi) in Ed. by injection Ed as ->.
  - intros (Hi & Hl & E). apply lookup_lt_Some in Hi as ?. rewrite (drop_S _ _ _ Hi).
    split; [lia|]. by rewrite firstn_cons, E.
Qed.

Lemma occurs_drop h needle k i : occurs (drop k h) needle i ↔ (k ≤ length h)%nat ∧ occurs h needle (k + i) ∨
  (length h < k)%nat ∧ (i + length needle = 0)%nat.
Proof.
  unfold occurs. rewrite drop_drop, length_drop. destruct (decide (k ≤ length h)%nat).
  - split; [intros [? ?]; left; split_and!; (done || lia)|].
    intros [(? & ? & ?)|[? ?]]; [split; [lia|done]|lia].
  - split.
    + intros [? E]. right. lia.
    + intros [[? _]|[_ ?]]; [lia|]. split; [lia|]. destruct needle; [by rewrite take_0|simpl in *; lia].
Qed.

Lemma find_loop_spec fuel h pos hl c needle :
  (length h < fuel)%nat → length h = (hl + length needle)%nat →
  match find_loop fuel h pos hl c needle with
  | FFound i => (pos ≤ i)%nat ∧ occurs h (c :: needle) (i - pos) ∧
      ∀ j, (j < i - pos)%nat → ¬ occurs h (c :: needle) j
  | FNull => ∀ j, ¬ occurs h (c :: needle) j
  | FUndef => False
  end.
Proof.
  revert h pos hl. induction fuel as [|fuel IH]; intros h pos hl Hf Hl; [lia|]. cbn [find_loop].
  assert (∀ j, (hl ≤ j)%nat → ¬ occurs h (c :: needle) j) as Hbeyond
    by (intros j ? [? _]; simpl in *; lia).
  destruct hl as [|hl]; [intros j; apply Hbeyond; lia|].
  pose proof (memchr_spec h c (S hl)) as Hm. destruct (memchr h c (S hl)) as [p|].
  2:{ intros j. destruct (decide (j < S hl)%nat); [|apply Hbeyond; lia].
      rewrite occurs_cons. intros (Hj & _). by apply (Hm j). }
  destruct Hm as (Hp & Hc & Hfirst).
  assert (∀ j, (j < p)%nat → ¬ occurs h (c :: needle) j) as Hbefore.
  { intros j Hj. rewrite occurs_cons. intros (E & _). by apply (Hfirst j). }
  assert (length (drop (S p) h) = (hl - p + length needle)%nat) as El by (rewrite length_drop; lia).
  rewrite decide_False by lia. case_decide as Ed.
  - replace (pos + p - pos)%nat with p by lia. split; [lia|]. split; [|done].
    apply occurs_cons. split_and!; [done|lia|done].
  - assert (¬ occurs h (c :: needle) p) as Hnot by (rewrite occurs_cons; naive_solver).
    specialize (IH (drop (S p) h) (pos + S p)%nat (S hl - S p)%nat ltac:(rewrite length_drop; lia)
      ltac:(lia)).
    assert (∀ j, occurs (drop (S p) h) (c :: needle) j ↔ occurs h (c :: needle) (S p + j)) as Ho.
    { intros j. rewrite occurs_drop. simpl. split; [intros [[_ ?]|[? ?]]; [done|lia]|].
      intros O. left. split; [lia|done]. }
    destruct (find_loop fuel _ _ _ _ _) as [i| |]; [|..|done].
    + destruct IH as (Hge & O & Hn). rewrite Ho in O.
      replace (S p + (i - (pos + S p)))%nat with (i - pos)%nat in O by lia.
      split; [lia|]. split; [done|]. intros j Hj.
      destruct (decide (j < p)%nat); [by apply Hbefore|].
      destruct (decide (j = p)) as [->|]; [done|].
      specialize (Hn (j - S p)%nat ltac:(lia)). rewrite Ho in Hn.
      by replace (S p + (j - S p))%nat with j in Hn by lia.
    + intros j. destruct (decide (j < p)%nat); [by apply Hbefore|].
      destruct (decide (j = p)) as [->|]; [done|].
      specialize (IH (j - S p)%nat). rewrite Ho in IH.
      by replace (S p + (j - S p))%nat with j in IH by lia.
Qed.

(** The substring search returns the first occurrence of the needle, or nothing exactly when
    there is none, and reads only the haystack. *)
Theorem uj_cstr_find_first haystack needle :
  match uj_cstr_find haystack needle with
  | FFound i => occurs haystack needle i ∧ ∀ j, (j < i)%nat → ¬ occurs haystack needle j
  | FNull => ∀ j, ¬ occurs haystack needle j
  | FUndef => False
  end.
Proof.
  unfold uj_cstr_find. case_decide as Hd; [intros j [? _]; lia|].
  destruct needle as [|c needle]; [split; [split; [simpl; lia|done]|intros; lia]|].
  simpl in Hd.
  pose proof (find_loop_spec (S (length haystack)) haystack 0 (length haystack - length needle) c
    needle ltac:(lia) ltac:(lia)) as H.
  destruct (find_loop _ _ _ _ _ _) as [i| |]; [|done..]. rewrite Nat.sub_0_r in H. tauto.
Qed.

End Cstr.
