(* ===== verification/Sbuf.v ===== *)
(** * Resizeable string buffers (uj_sbuf.c, uj_sbuf.h)

    A buffer is its content (the first [sz] octets of the storage) and its
    capacity; octets behind the content are never read.  Writing behind the
    capacity is undefined, growing beyond [LJ_MAX_SBUF] throws; allocation is
    assumed to succeed.  The temporary buffer of the global state is a buffer
    like the others. *)

From stdpp Require Import base decidable list numbers option.
From Stdlib Require Import ZArith Lia.
From S2P Require Import Prelude Leb128 Obj Cstr.

Local Open Scope Z_scope.

Module Sbuf.
Import Leb128 Obj Cstr.

Definition LJ_MAX_SBUF : Z := 0x7fffff00.
Definition LJ_MIN_SBUF : Z := 32.
Definition LUAI_MAXNUMBER2STR : Z := 32.

Record sbuf := MkSbuf { data : list Z; cap : Z }.

Inductive result := SOk (sb : sbuf) | SThrow | SUndef.

Definition uj_sbuf_size (sb : sbuf) : Z := Z.of_nat (length (data sb)).

Definition uj_sbuf_init : sbuf := MkSbuf [] 0.
Definition uj_sbuf_reset (sb : sbuf) : sbuf := MkSbuf [] (cap sb).

(** The storage keeps what fits of the content. *)
Definition sbuf_realloc (n : Z) (sb : sbuf) : sbuf := MkSbuf (take (Z.to_nat n) (data sb)) n.

(** [while (cap < n) cap *= 2;]: from 32 on, 64 doublings leave [size_t]. *)
Fixpoint grow_cap (fuel : nat) (c n : Z) : Z :=
  match fuel with
  | O => c
  | S fuel => if c <? n then grow_cap fuel (u64 (c * 2)) n else c
  end.

Definition uj_sbuf_reserve (n : Z) (sb : sbuf) : result :=
  if n <=? cap sb then SOk sb
  else if LJ_MAX_SBUF <? n then SThrow
  else
    let c := if cap sb <? LJ_MIN_SBUF then LJ_MIN_SBUF else cap sb in
    SOk (sbuf_realloc (grow_cap 64 c n) sb).

Definition sbuf_fit (add : Z) (sb : sbuf) : result :=
  uj_sbuf_reserve (u64 (uj_sbuf_size sb + add)) sb.

(** Write octets at the back of the buffer. *)
Definition put_back (os : list Z) (sb : sbuf) : result :=
  if uj_sbuf_size sb + len os <=? cap sb then SOk (MkSbuf (data sb ++ os) (cap sb)) else SUndef.

Definition bind (r : result) (f : sbuf → result) : result :=
  match r with SOk sb => f sb | SThrow => SThrow | SUndef => SUndef end.

(** Make room for [room] octets, then write. *)
Definition push (room : Z) (os : list Z) (sb : sbuf) : result := bind (sbuf_fit room sb) (put_back os).

Definition uj_sbuf_push_char (c : Z) (sb : sbuf) : result := push 1 [u8 c] sb.
Definition uj_sbuf_push_block (src : list Z) (sb : sbuf) : result := push (len src) src sb.
Definition uj_sbuf_push_str (s : list Z) (sb : sbuf) : result := uj_sbuf_push_block s sb.
Definition uj_sbuf_push_cstr (s : list Z) (sb : sbuf) : result := uj_sbuf_push_block s sb.

Definition uj_sbuf_push_uleb128 (value : Z) (sb : sbuf) : result :=
  bind (sbuf_fit (Z.of_nat LEB128_U64_MAXSIZE) sb) (λ sb,
    match write_uleb128 value with Some os => put_back os sb | None => SUndef end).

Definition uj_sbuf_push_int (n : Z) (sb : sbuf) : result :=
  push UJ_CSTR_INTBUF (uj_cstr_fromint n) sb.

Definition uj_sbuf_push_num (number2str : Z → list Z) (n : Z) (sb : sbuf) : result :=
  push LUAI_MAXNUMBER2STR (uj_cstr_fromnum number2str n) sb.

(** [intnum == n] compares doubles. *)
Definition uj_sbuf_push_number (number2str : Z → list Z) (n : Z) (sb : sbuf) : result :=
  let intnum := lj_num2int n in
  if num_eq (int2num intnum) n then uj_sbuf_push_int intnum sb
  else uj_sbuf_push_num number2str n sb.

(** The last [n] hexadecimal digits of [p]. *)
Fixpoint hex_digits (n : nat) (p : Z) : list Z :=
  match n with
  | O => []
  | S n =>
      let d := Z.land p 15 in
      hex_digits n (Z.shiftr p 4) ++ [if d <? 10 then 48 + d else 87 + d]
  end.

(** [p] is a [ptrdiff_t]; leading zeroes of 64-bit pointers are shortened. *)
Definition uj_sbuf_push_ptr (p : Z) (sb : sbuf) : result :=
  let hi_p := Z.shiftr p 32 in
  if p =? 0 then uj_sbuf_push_cstr [78; 85; 76; 76] sb
  else
    let lasti := 2 + 2 * 4 + (if hi_p =? 0 then 0 else 1 + Z.shiftr (lj_bsr (u32 hi_p)) 2) in
    push (2 + 2 * 8) ([48; 120] ++ hex_digits (Z.to_nat (lasti - 2)) p) sb.

Definition uj_sbuf_shrink_tmp (sb : sbuf) : sbuf :=
  let new_capacity := cap sb / 2 in
  if new_capacity <? uj_sbuf_size sb then sb
  else if new_capacity <? LJ_MIN_SBUF then sb
  else sbuf_realloc new_capacity sb.

(** ** The contract: content is appended, within the capacity *)

(** The capacities that occur: none, or up to twice the limit. *)
Record sb_wf (sb : sbuf) : Prop := {
  sb_fits : uj_sbuf_size sb ≤ cap sb;
  sb_cap : cap sb = 0 ∨ LJ_MIN_SBUF ≤ cap sb < 2 * LJ_MAX_SBUF
}.

Lemma grow_cap_spec fuel c n :
  0 < c → n ≤ c * 2 ^ Z.of_nat fuel → n ≤ LJ_MAX_SBUF → c < 2 * LJ_MAX_SBUF →
  n ≤ grow_cap fuel c n < 2 * LJ_MAX_SBUF ∧ c ≤ grow_cap fuel c n.
Proof.
  unfold LJ_MAX_SBUF. revert c. induction fuel as [|fuel IH]; intros c Hc Hn Hmax Hlt; simpl.
  { change (2 ^ Z.of_nat 0) with 1 in Hn. lia. }
  destruct (c <? n) eqn:E; bprop; [|lia].
  unfold u64. rewrite wrapu_id by (unfold in_u; lia).
  rewrite Nat2Z.inj_succ, Z.pow_succ_r in Hn by lia.
  destruct (IH (c * 2)); lia.
Qed.

Lemma reserve_spec n sb :
  sb_wf sb → 0 ≤ n →
  (∃ c, uj_sbuf_reserve n sb = SOk (MkSbuf (data sb) c) ∧ n ≤ c ∧ cap sb ≤ c ∧
     sb_wf (MkSbuf (data sb) c) ∧ (n ≤ cap sb → c = cap sb)) ∨
  uj_sbuf_reserve n sb = SThrow ∧ LJ_MAX_SBUF < n ∧ cap sb < n.
Proof.
  intros [Hf Hc] Hn. unfold uj_sbuf_reserve.
  destruct (n <=? cap sb) eqn:E1; bprop.
  { left. exists (cap sb). split; [by destruct sb|]. by split_and!; [..|split]. }
  destruct (LJ_MAX_SBUF <? n) eqn:E2; bprop; [by right|left].
  set (c := if cap sb <? LJ_MIN_SBUF then LJ_MIN_SBUF else cap sb).
  assert (LJ_MIN_SBUF ≤ c < 2 * LJ_MAX_SBUF ∧ cap sb ≤ c) as [Hc1 Hc2].
  { unfold c, LJ_MIN_SBUF, LJ_MAX_SBUF in *. case_test; bprop; lia. }
  unfold LJ_MIN_SBUF in Hc1.
  destruct (grow_cap_spec 64 c n) as [Hg Hg']; [lia| |lia|lia|].
  { change (2 ^ Z.of_nat 64) with (2 ^ 64). unfold LJ_MAX_SBUF in E2. lia. }
  revert Hg Hg'. generalize (grow_cap 64 c n) as g. intros g Hg Hg'. exists g. unfold sbuf_realloc.
  rewrite take_ge by (unfold uj_sbuf_size in Hf; lia).
  split; [done|]. split_and!; [lia|lia| |lia].
  split; unfold uj_sbuf_size, LJ_MIN_SBUF in *; simpl; lia.
Qed.

(** What a push of [os] after making room for [room] octets does. *)
Definition appends (room : Z) (os : list Z) (sb : sbuf) (r : result) : Prop :=
  (∃ c, r = SOk (MkSbuf (data sb ++ os) c) ∧ sb_wf (MkSbuf (data sb ++ os) c) ∧ cap sb ≤ c) ∨
  r = SThrow ∧ LJ_MAX_SBUF < uj_sbuf_size sb + room ∧ cap sb < uj_sbuf_size sb + room.

Lemma size_app d os c : uj_sbuf_size (MkSbuf (d ++ os) c) = uj_sbuf_size (MkSbuf d c) + len os.
Proof. unfold uj_sbuf_size, len. simpl. rewrite length_app. lia. Qed.

Lemma push_appends room os sb :
  sb_wf sb → len os ≤ room < 2 ^ 63 → appends room os sb (push room os sb).
Proof.
  intros W Hr. pose proof (sb_fits _ W) as Hf. pose proof (sb_cap _ W) as Hc.
  assert (0 ≤ len os) by (unfold len; lia).
  unfold push, sbuf_fit, appends. assert (0 ≤ uj_sbuf_size sb) by (unfold uj_sbuf_size; lia).
  unfold u64. rewrite wrapu_id by (unfold in_u, LJ_MAX_SBUF in *; lia).
  destruct (reserve_spec (uj_sbuf_size sb + room) sb W ltac:(lia))
    as [(c & -> & Hn & Hge & Wc & _)|(-> & ? & ?)]; [left|by right].
  simpl. unfold put_back. change (uj_sbuf_size (MkSbuf (data sb) c)) with (uj_sbuf_size sb).
  simpl. rewrite (proj2 (Z.leb_le _ _)) by lia. exists c. split; [done|]. split; [|done].
  split; [rewrite size_app; change (uj_sbuf_size (MkSbuf (data sb) c)) with (uj_sbuf_size sb);
    simpl; lia|]. apply (sb_cap _ Wc).
Qed.

Lemma uleb128_push value sb :
  in_u 64 value → ∃ os, write_uleb128 value = Some os ∧ 1 ≤ len os ≤ 10 ∧
    uj_sbuf_push_uleb128 value sb = push 10 os sb.
Proof.
  intros Hv. destruct (write_uleb128_total value Hv) as [os Ho].
  exists os. pose proof (write_uleb128_len _ _ Hv Ho). split; [done|]. split; [lia|].
  unfold uj_sbuf_push_uleb128, push. by rewrite Ho.
Qed.

Lemma hex_digits_len n p : length (hex_digits n p) = n.
Proof. revert p. induction n as [|n IH]; intros p; simpl; [done|]. rewrite length_app, IH. simpl. lia. Qed.

(** Enough digits are printed. *)
Lemma ptr_push p sb :
  0 < p < 2 ^ 63 → ∃ n, (8 ≤ n ≤ 16)%nat ∧ p < 16 ^ Z.of_nat n ∧
    uj_sbuf_push_ptr p sb = push 18 ([48; 120] ++ hex_digits n p) sb.
Proof.
  intros Hp. unfold uj_sbuf_push_ptr. rewrite (proj2 (Z.eqb_neq p 0)) by lia.
  assert (0 ≤ Z.shiftr p 32 < 2 ^ 31 ∧ p < (Z.shiftr p 32 + 1) * 2 ^ 32) as [Hh Hlt]
    by (rewrite Z.shiftr_div_pow2 by lia; dlia).
  set (h := Z.shiftr p 32) in *. clearbody h.
  destruct (h =? 0) eqn:E; bprop.
  { exists 8%nat. split; [lia|]. split; [|done]. change (16 ^ Z.of_nat 8) with (2 ^ 32). lia. }
  unfold u32. rewrite wrapu_id by (unfold in_u; lia).
  pose proof (Z.log2_spec h ltac:(lia)) as [_ Hl]. pose proof (Z.log2_nonneg h) as Hb0.
  assert (Z.log2 h < 31) as Hb by (apply Z.log2_lt_pow2; lia).
  unfold lj_bsr. set (b := Z.log2 h) in *. clearbody b.
  rewrite (Z.shiftr_div_pow2 b) by lia. change (2 ^ 2) with 4.
  exists (Z.to_nat (2 + 2 * 4 + (1 + b / 4) - 2)). split; [dlia|]. split; [|done].
  rewrite Z2Nat.id by dlia. change 16 with (2 ^ 4). rewrite <-Z.pow_mul_r by dlia.
  pose proof (Z.pow_le_mono_r 2 (Z.succ b + 32) (4 * (2 + 2 * 4 + (1 + b / 4) - 2))
    ltac:(lia) ltac:(dlia)) as Hm.
  rewrite Z.pow_add_r in Hm by lia. nia.
Qed.

(** Every push appends exactly its octets, whatever the capacity was, and keeps the content
    within it; a push throws only when content and room exceed both the capacity and the limit;
    none writes behind the storage. *)
Theorem sbuf_push_correct sb c src value k p (W : sb_wf sb)
    (Hs : len src < 2 ^ 62) (Hv : in_u 64 value) (Hk : in_s 32 k) (Hp : 0 < p < 2 ^ 63) :
  appends 1 [u8 c] sb (uj_sbuf_push_char c sb) ∧
  appends (len src) src sb (uj_sbuf_push_block src sb) ∧
  (∃ os, write_uleb128 value = Some os ∧ appends 10 os sb (uj_sbuf_push_uleb128 value sb)) ∧
  appends 11 (uj_cstr_fromint k) sb (uj_sbuf_push_int k sb) ∧
  (∃ n, (8 ≤ n ≤ 16)%nat ∧ p < 16 ^ Z.of_nat n ∧
     appends 18 ([48; 120] ++ hex_digits n p) sb (uj_sbuf_push_ptr p sb)).
Proof.
  assert (0 ≤ len src) by (unfold len; lia).
  split_and!.
  - unfold uj_sbuf_push_char. apply push_appends; [done|unfold len; simpl; lia].
  - unfold uj_sbuf_push_block. apply push_appends; [done|lia].
  - destruct (uleb128_push value sb Hv) as (os & Ho & Hl & ->). exists os. split; [done|].
    apply push_appends; [done|lia].
  - unfold uj_sbuf_push_int. change UJ_CSTR_INTBUF with 11.
    apply push_appends; [done|]. destruct (fromint_decimal k Hk) as (ds & _ & _ & _ & Hl).
    unfold len. lia.
  - destruct (ptr_push p sb Hp) as (n & Hn & Hlt & ->). exists n. split; [done|]. split; [done|].
    apply push_appends; [done|]. unfold len. rewrite length_app, hex_digits_len. simpl. lia.
Qed.

Lemma sbuf_push_correct_witness :
  appends 1 [65] uj_sbuf_init (uj_sbuf_push_char 65 uj_sbuf_init).
Proof.
  apply (sbuf_push_correct uj_sbuf_init 65 [] 0 0 1); [|by vm_compute..|].
  - split; [by vm_compute|by left].
  - split; by vm_compute.
Defined.

End Sbuf.
