(* ===== verification/Proto.v ===== *)
(** * Function prototypes and the dump format (lj_obj.h, lj_bcdump.h)

    A [GCproto] is its header fields, the arrays that are laid out behind it
    (bytecode, upvalue references, number constants, debug information) and the
    array of collectable constants, which holds the prototypes of the functions
    defined inside.  Strings are objects of the string table: the class
    [StrTable] states what dumping and loading rely on, and [gstate_strtable]
    shows that the string table of uj_str.c provides it. *)

From stdpp Require Import base decidable list numbers option sets.
From Stdlib Require Import ZArith Lia.
From S2P Require Import Prelude Leb128 Obj Tab StrHash Str.

Local Open Scope Z_scope.

Module Proto.
Import Leb128 Obj Tab.

(** ** The string table as seen by its clients *)

(** [st_new] is [uj_str_new]: the address of the object and the new state, or the
    error; [st_data] reads the octets of the object at an address; [st_holds] says
    that the object at an address is interned, [st_ok] that a string can be added. *)
Class StrTable (S : Type) := {
  st_new : list Z → S → option (Z * S);
  st_data : S → Z → list Z;
  st_holds : S → Z → Prop;
  st_ok : S → Prop;
  (** Interned strings are found again, and stay interned with their octets. *)
  st_new_again s a :
    st_holds s a → len (st_data s a) < Str.LJ_MAX_STR →
    ∃ s', st_new (st_data s a) s = Some (a, s') ∧
      ∀ b, st_holds s b → st_holds s' b ∧ st_data s' b = st_data s b;
  st_new_any s d :
    st_ok s → len d < Str.LJ_MAX_STR →
    ∃ a s', st_new d s = Some (a, s') ∧
      ∀ b, st_holds s b → st_holds s' b ∧ st_data s' b = st_data s b
}.

(** ** Prototypes *)

Definition PROTO_CHILD : Z := 0x01.
Definition PROTO_VARARG : Z := 0x02.
Definition PROTO_FFI : Z := 0x04.
Definition PROTO_ILOOP : Z := 0x10.

(** [sizebc], [sizekgc], [sizekn] and [sizeuv] are the lengths of the arrays.
    [dbg] are the octets from [lineinfo] to the end of the object, none if
    [lineinfo] is NULL; [uvinfo] and [varinfo] are offsets from [lineinfo]. *)
Record phead := MkHead {
  numparams : Z;
  framesize : Z;
  flags : Z;
  trace : Z;
  sizept : Z;
  chunkname : Z;
  bc : list Z;
  uv : list Z;
  knum : list Z;
  firstline : Z;
  numline : Z;
  dbg : list Z;
  uvinfo : Z;
  varinfo : Z
}.

(** Collectable constants; cdata constants are 64-bit integers and complex numbers. *)
Inductive kgc (P : Type) :=
  | KStr (s : Z)
  | KTab (t : GCtab)
  | KI64 (u : Z)
  | KU64 (u : Z)
  | KComplex (re im : Z)
  | KChild (p : P).
Arguments KStr {P}.
Arguments KTab {P}.
Arguments KI64 {P}.
Arguments KU64 {P}.
Arguments KComplex {P}.
Arguments KChild {P}.

(** The constants in ascending order of their addresses, from [k[-sizekgc]] to [k[-1]]. *)
Inductive GCproto := MkProto (h : phead) (ks : list (kgc GCproto)).

Definition head (pt : GCproto) : phead := let '(MkProto h _) := pt in h.
Definition kgcs (pt : GCproto) : list (kgc GCproto) := let '(MkProto _ ks) := pt in ks.

(** ** lj_bcdump.h *)

Definition BCDUMP_HEAD1 : Z := 0x1b.
Definition BCDUMP_HEAD2 : Z := 0x4c.
Definition BCDUMP_HEAD3 : Z := 0x4a.
Definition BCDUMP_VERSION : Z := 1.
Definition BCDUMP_F_STRIP : Z := 0x02.
Definition BCDUMP_F_FFI : Z := 0x04.
Definition BCDUMP_F_KNOWN : Z := BCDUMP_F_FFI * 2 - 1.

Definition BCDUMP_KGC_CHILD : Z := 0.
Definition BCDUMP_KGC_TAB : Z := 1.
Definition BCDUMP_KGC_I64 : Z := 2.
Definition BCDUMP_KGC_U64 : Z := 3.
Definition BCDUMP_KGC_COMPLEX : Z := 4.
Definition BCDUMP_KGC_STR : Z := 5.

Definition BCDUMP_KTAB_NIL : Z := 0.
Definition BCDUMP_KTAB_FALSE : Z := 1.
Definition BCDUMP_KTAB_TRUE : Z := 2.
Definition BCDUMP_KTAB_INT : Z := 3.
Definition BCDUMP_KTAB_NUM : Z := 4.
Definition BCDUMP_KTAB_STR : Z := 5.

(** ** The string table of uj_str.c *)

Section Instance_.
Import StrHash Str.
Context `{HashF} (alloc : gstate → Z).

Definition str_at (g : gstate) (a : Z) : option GCstr :=
  snd <$> list_find (λ s, saddr s = a) (strempty g :: all_strings g).

Lemma str_at_spec g a :
  g_wf g → match str_at g a with
  | Some s => s ∈ strempty g :: all_strings g ∧ saddr s = a ∧ interned g (sdata s) a
  | None => ∀ d, ¬ interned g d a
  end.
Proof.
  intros W. unfold str_at. destruct (list_find _ _) as [[i s]|] eqn:E; simpl.
  - apply list_find_Some in E as (Hi & Ha & _). assert (s ∈ strempty g :: all_strings g)
      by (by eapply list_elem_of_lookup_2). split_and!; [done|done|]. by exists s.
  - apply list_find_None in E. intros d (s & Hs & _ & Ha). rewrite Forall_forall in E.
    by apply (E s).
Qed.

Definition gs_data (g : gstate) (a : Z) : list Z := default [] (sdata <$> str_at g a).
Definition gs_holds (g : gstate) (a : Z) : Prop := g_wf g ∧ interned g (gs_data g a) a.
Definition gs_new (d : list Z) (g : gstate) : option (Z * gstate) :=
  match uj_str_new (alloc g) d g with SRet s g' => Some (saddr s, g') | SThrow => None end.

Lemma interned_data g d a : g_wf g → interned g d a → gs_data g a = d.
Proof.
  intros W Hi. pose proof (str_at_spec g a W) as Hs. unfold gs_data.
  destruct (str_at g a) as [s|]; simpl; [|by destruct (Hs d)].
  destruct Hs as (_ & _ & Hs). by apply (interned_eq g (sdata s) d a a W Hs Hi).
Qed.

Lemma gs_again g a :
  gs_holds g a → len (gs_data g a) < LJ_MAX_STR →
  ∃ g', gs_new (gs_data g a) g = Some (a, g') ∧
    ∀ b, gs_holds g b → gs_holds g' b ∧ gs_data g' b = gs_data g b.
Proof.
  intros [W Hi] Hl. set (d := gs_data g a) in *. clearbody d.
  assert (∃ s g', uj_str_new (alloc g) d g = SRet s g' ∧ saddr s = a ∧ g_wf g' ∧
    ∀ d x, interned g' d x ↔ interned g d x) as (s & g' & E & Ha & W' & Hsame).
  { destruct (decide (d = [])) as [->|Hd].
    - exists (strempty g), g. split; [done|]. split; [|done].
      destruct Hi as (s & Hs & Ed & <-).
      rewrite (NoDup_fmap_eq sdata _ (strempty g) s (gw_data _ W)); [done|by left|done|].
      by rewrite (gw_empty _ W), Ed.
    - destruct Hi as (s & [->|Hs]%elem_of_cons & Ed & Ea).
      { destruct Hd. by rewrite <-Ed, (gw_empty _ W). }
      destruct (uj_str_new_found g s (alloc g) d W Hs Ed Hl) as (s' & g' & E & Ea' & _ & W' & Hsame).
      { unfold slen. destruct d; [done|]. simpl. lia. }
      exists s', g'. by rewrite Ea', Ea. }
  exists g'. unfold gs_new. rewrite E, Ha. split; [done|]. intros b [_ Hb].
  assert (gs_data g' b = gs_data g b) as Ed by (apply interned_data; [done|]; by apply Hsame).
  split; [|done]. split; [done|]. rewrite Ed. by apply Hsame.
Qed.

Definition gs_ok (g : gstate) : Prop := g_wf g ∧ alloc g ∉ saddr <$> strempty g :: all_strings g.

Lemma gs_any g d :
  gs_ok g → len d < LJ_MAX_STR →
  ∃ a g', gs_new d g = Some (a, g') ∧ ∀ b, gs_holds g b → gs_holds g' b ∧ gs_data g' b = gs_data g b.
Proof.
  intros [W Ha] Hl.
  destruct (decide (d = [] ∨ Exists (λ s, sdata s = d) (all_strings g))) as [Hd|Hd].
  - assert (∃ a, interned g d a) as [a Hi].
    { destruct Hd as [->|(s & Hs & Ed)%Exists_exists].
      - exists (saddr (strempty g)), (strempty g). split; [by left|]. by rewrite (gw_empty _ W).
      - exists (saddr s), s. split; [by right|done]. }
    exists a. pose proof (interned_data g d a W Hi) as Ed.
    destruct (gs_again g a) as (g' & E & Hg'); [by split; [|rewrite Ed]|by rewrite Ed|].
    rewrite Ed in E. by exists g'.
  - destruct (uj_str_new_fresh g (alloc g) d W) as (g' & E & W' & Ee & P).
    + intros s Hs Ed. apply Hd. right. apply Exists_exists. by exists s.
    + done.
    + done.
    + intros E. apply Hd. left. unfold slen in E. destruct d; [done|]. simpl in E. lia.
    + eexists _, g'. unfold gs_new. rewrite E. split; [done|]. intros b [_ Hb].
      assert (∀ e x, interned g e x → interned g' e x) as Hmono.
      { intros e x (s & Hs & Es & Ex). exists s. split; [|done]. rewrite Ee.
        apply elem_of_cons in Hs as [->|Hs]; [by left|]. right. rewrite P. by right. }
      assert (gs_data g' b = gs_data g b) as Ed by (apply interned_data; [done|]; by apply Hmono).
      split; [|done]. split; [done|]. rewrite Ed. by apply Hmono.
Qed.

#[export] Instance gstate_strtable : StrTable gstate :=
  {| st_new := gs_new; st_data := gs_data; st_holds := gs_holds; st_ok := gs_ok;
     st_new_again := gs_again; st_new_any := gs_any |}.

End Instance_.

End Proto.
