(* ===== verification/ProtoOps.v ===== *)
(** * Prototype handling (uj_proto.c) and the patches of the trace compiler (jit/lj_trace.c)

    The operations read the debug information of a prototype, which is the list
    [dbg] of the octets from [lineinfo] on; a C string is read up to its zero
    octet, and running off the list is undefined ([None]). *)

From stdpp Require Import base decidable list numbers option sets.
From Stdlib Require Import ZArith Lia.
From S2P Require Import Prelude Leb128 Obj Tab Cstr Sbuf Bc Str Proto.

Local Open Scope Z_scope.

Module ProtoOps.
Import Leb128 Bc Proto.

(** ** Hot-counting instructions *)

Definition BC_GGET : Z := 0x2a.
Definition BC_GSET : Z := 0x2b.
Definition BC_RET : Z := 0x3c.
Definition BC_RET0 : Z := 0x3d.
Definition BC_RET1 : Z := 0x3e.
Definition BC_FORI : Z := 0x41.
Definition BC_ITERL : Z := 0x46.
Definition BC_ITRNL : Z := 0x49.
Definition BC_LOOP : Z := 0x4c.
Definition BC_IFUNCF : Z := 0x51.
Definition BC_JFUNCF : Z := 0x52.
Definition BC_JMP : Z := 0x4f.

Definition PROTO_NOJIT : Z := 0x08.
Definition PROTO_CLCOUNT : Z := 0x20.
Definition PROTO_CLC_BITS : Z := 3.

Definition BC_OFFSET_DISABLE_HOTCOUNT : Z := BC_ILOOP - BC_LOOP.
Definition BC_OFFSET_ENABLE_HOTCOUNT : Z := BC_LOOP - BC_ILOOP.

Definition bc_isloop (op : Z) : bool :=
  (op =? BC_FORL) || (op =? BC_ITERL) || (op =? BC_ITRNL) || (op =? BC_LOOP).
Definition bcop_accesses_globals (op : Z) : bool := (op =? BC_GGET) || (op =? BC_GSET).
Definition bcop_is_hotcounting (op : Z) : bool := bc_isloop op || (op =? BC_FUNCF).
Definition bcop_is_not_hotcounting (op : Z) : bool := bc_isiloop op || (op =? BC_IFUNCF).

Definition bc_disable_hotcount (ins : Z) : Z :=
  let op := bc_op ins in
  if bcop_is_hotcounting op then setbc_op (op + BC_OFFSET_DISABLE_HOTCOUNT) ins else ins.
Definition bc_enable_hotcount (ins : Z) : Z :=
  let op := bc_op ins in
  if bcop_is_not_hotcounting op then setbc_op (op + BC_OFFSET_ENABLE_HOTCOUNT) ins else ins.

Definition set_flags_bc (fl : Z) (b : list Z) (h : phead) : phead :=
  MkHead (numparams h) (framesize h) fl (trace h) (sizept h) (chunkname h) b (uv h) (knum h)
    (firstline h) (numline h) (dbg h) (uvinfo h) (varinfo h).

Definition uj_proto_count_closure (h : phead) : phead :=
  let count := u32 (flags h + PROTO_CLCOUNT) in
  set_flags_bc (u8 (u32 (count - Z.land (Z.shiftr count PROTO_CLC_BITS) PROTO_CLCOUNT))) (bc h) h.

Definition uj_proto_accesses_globals (h : phead) : bool :=
  existsb (λ i, bcop_accesses_globals (bc_op i)) (bc h).

(** [None] where the assertions of the code fail. *)
Definition uj_proto_blacklist_ins (pos : nat) (h : phead) : option phead :=
  match bc h !! pos with
  | Some ins =>
      if bcop_is_hotcounting (bc_op ins) then
        Some (set_flags_bc (Z.lor (flags h) PROTO_ILOOP)
          (<[pos := setbc_op (bc_op ins + BC_OFFSET_DISABLE_HOTCOUNT) ins]> (bc h)) h)
      else None
  | None => None
  end.

Definition uj_proto_disable_jit (h : phead) : phead :=
  set_flags_bc (Z.lor (Z.lor (flags h) PROTO_NOJIT) PROTO_ILOOP) (bc_disable_hotcount <$> bc h) h.

(** [sealed] is the seal mark of the prototype. *)
Definition uj_proto_enable_jit (sealed : bool) (h : phead) : phead :=
  if sealed then h
  else if Z.land (flags h) PROTO_ILOOP =? 0 then h
  else set_flags_bc (Z.ldiff (Z.ldiff (flags h) PROTO_NOJIT) PROTO_ILOOP) (bc_enable_hotcount <$> bc h) h.

(** ** Traces *)

(** What [trace_stop] stores at [J->cur.startpc] for a trace that starts at [ins]; [None] where
    the bytecode is left alone (side traces). *)
Definition trace_stop_patch (ins nslots traceno : Z) : option Z :=
  let op := bc_op ins in
  if (op =? BC_FORL) || (op =? BC_LOOP) || (op =? BC_ITERL) || (op =? BC_ITRNL) || (op =? BC_FUNCF)
  then Some (setbc_d traceno (setbc_op (op + BC_JLOOP - BC_LOOP) ins))
  else if (op =? BC_RET) || (op =? BC_RET0) || (op =? BC_RET1)
  then Some (BCINS_AD BC_JLOOP nslots traceno)
  else None.

(** The FORI of a compiled loop is patched, too. *)
Definition trace_stop_fori (ins : Z) : Z := setbc_op BC_JFORI ins.

(** ** Copies *)

(** [proto_fixup_field] on addresses. *)
Definition proto_fixup_field (dst src field : Z) : Z := u64 (dst + (field - src)).

(** ** Line numbers *)

(** The [w]-octet unsigned number at index [i]. *)
Definition num_at (w i : nat) (p : list Z) : option Z :=
  let os := take w (drop (w * i) p) in
  if decide (length os = w) then Some (foldr (λ o v, o + 256 * v) 0 os) else None.

(** [lineinfo] is NULL when there is no debug information. *)
Definition uj_proto_line (h : phead) (pos : Z) : option Z :=
  let sizebc := Z.of_nat (length (bc h)) in
  if bool_decide (dbg h = []) || (sizebc <? pos) then Some 0
  else
    let first := firstline h in
    if pos =? sizebc then Some (i32 (first + numline h))
    else if pos =? 0 then Some first
    else
      let pos := Z.to_nat (pos - 1) in
      let w := if numline h <=? 255 then 1%nat else if numline h <=? 65535 then 2%nat else 4%nat in
      (λ v, i32 (first + i32 v)) <$> num_at w pos (dbg h).

(** ** Names *)

(** The C string at the front of [p]. *)
Fixpoint cstr (p : list Z) : option (list Z) :=
  match p with
  | [] => None
  | c :: p => if c =? 0 then Some [] else cons c <$> cstr p
  end.

(** Skip [n] C strings. *)
Fixpoint skip_cstrs (n : nat) (p : list Z) : option (list Z) :=
  match n with
  | O => Some p
  | S n' =>
      match p with
      | [] => None
      | c :: p => skip_cstrs (if c =? 0 then n' else n) p
      end
  end.

(** "(for index)", "(for limit)", "(for step)", "(for generator)", "(for state)", "(for control)",
    each with its zero octet. *)
Definition VARNAMEDEF : list Z :=
  [40; 102; 111; 114; 32; 105; 110; 100; 101; 120; 41; 0;
   40; 102; 111; 114; 32; 108; 105; 109; 105; 116; 41; 0;
   40; 102; 111; 114; 32; 115; 116; 101; 112; 41; 0;
   40; 102; 111; 114; 32; 103; 101; 110; 101; 114; 97; 116; 111; 114; 41; 0;
   40; 102; 111; 114; 32; 115; 116; 97; 116; 101; 41; 0;
   40; 102; 111; 114; 32; 99; 111; 110; 116; 114; 111; 108; 41; 0].
Definition VARNAME_END : Z := 0.
Definition VARNAME__MAX : Z := 7.

Definition proto_read_uleb128 (p : list Z) : option (Z * list Z) :=
  match read_uleb128 p with
  | ReadOk value n => Some (u32 value, drop (Z.to_nat n) p)
  | _ => None
  end.

(** The loop over the variables; every round consumes an octet.  The outer option is the
    definedness of the code, the inner one NULL. *)
Fixpoint varname_loop (fuel : nat) (p : list Z) (lastpos pos slot : Z) : option (option (list Z)) :=
  match fuel with
  | O => None
  | S fuel =>
      match p with
      | [] => None
      | vn :: p1 =>
          if vn =? VARNAME_END then Some None
          else
            p2 ← (if vn <? VARNAME__MAX then Some p1 else skip_cstrs 1 p1);
            '(d, p3) ← proto_read_uleb128 p2;
            let startpos := u32 (lastpos + d) in
            if pos <? startpos then Some None
            else
              '(e, p4) ← proto_read_uleb128 p3;
              let endpos := u32 (startpos + e) in
              if endpos <=? pos then varname_loop fuel p4 startpos pos slot
              else if negb (slot =? 0) then varname_loop fuel p4 startpos pos (u32 (slot - 1))
              else
                Some <$> (if vn <? VARNAME__MAX
                          then q ← skip_cstrs (Z.to_nat (vn - 1)) VARNAMEDEF; cstr q
                          else cstr p)
      end
  end.

(** [varinfo] is NULL when there is no debug information. *)
Definition uj_proto_varname (h : phead) (pos slot : Z) : option (option (list Z)) :=
  if bool_decide (dbg h = []) then Some None
  else
    let p := drop (Z.to_nat (varinfo h)) (dbg h) in
    varname_loop (S (length p)) p 0 pos slot.

Definition uj_proto_uvname (h : phead) (idx : nat) : option (list Z) :=
  if decide (idx < length (uv h))%nat then
    if bool_decide (dbg h = []) then Some []
    else q ← skip_cstrs idx (drop (Z.to_nat (uvinfo h)) (dbg h)); cstr q
  else None.

(** ** Chunk names *)

(** The control characters of [lj_char_bits]: 0..31 and 127. *)
Definition lj_char_iscntrl (c : Z) : bool := (0 <=? c) && (c <=? 31) || (c =? 127).

(** The octets of a string object up to the first zero, and what [strncpy] writes of them. *)
Fixpoint cpart (s : list Z) : list Z :=
  match s with [] => [] | c :: s => if c =? 0 then [] else c :: cpart s end.
Definition strncpy (src : list Z) (n : nat) : list Z :=
  let t := take n (cpart src) in t ++ replicate (n - length t) 0.

Definition TRUNC_MARK : list Z := [46; 46; 46].
Definition CHUNK_START : list Z := [91; 115; 116; 114; 105; 110; 103; 32; 34].
Definition CHUNK_STOP : list Z := [34; 93].
Definition BRACES_LEN : nat := length CHUNK_START + length CHUNK_STOP + 1.

(** The first [n] octets are searched for an end or a control character. *)
Fixpoint short_pos (src : list Z) (n : nat) : nat :=
  match n, src with
  | O, _ | _, [] => O
  | S n, c :: src => if (c =? 0) || lj_char_iscntrl c then O else S (short_pos src n)
  end.

(** The octets written to [out]. *)
Definition proto_shortsource (src : list Z) (n : nat) : list Z :=
  let pos := short_pos src (n - BRACES_LEN) in
  let body :=
    if negb (default 0 (src !! pos) =? 0) then
      take (if (n - BRACES_LEN - length TRUNC_MARK <? pos)%nat then n - BRACES_LEN - length TRUNC_MARK
            else pos)%nat src ++ TRUNC_MARK
    else take pos src in
  CHUNK_START ++ body ++ CHUNK_STOP ++ [0].

Definition uj_proto_chunknamencpy (str : list Z) (n : nat) : list Z :=
  match str with
  | 61 :: src => <[(n - 1)%nat := 0]> (strncpy src n)
  | 64 :: src =>
      let len := length src in
      if (len <? n)%nat then strncpy src n
      else TRUNC_MARK ++
        strncpy (drop (len - n + length TRUNC_MARK + 1) src) (n - length TRUNC_MARK)
  | _ => proto_shortsource str n
  end.

End ProtoOps.
