(* ===== verification/BcWrite.v ===== *)
(** * The bytecode writer (frontend/lj_bcwrite.c)

    The writer serialises a prototype into a string buffer and hands the octets
    to the caller's [wfunc], here a function that takes the caller's state and a
    block and returns the new state and a status.  [startins] reads the first
    instruction of a trace, which belongs to the trace compiler. *)

From stdpp Require Import base decidable list numbers option.
From Stdlib Require Import ZArith Lia.
From S2P Require Import Prelude Leb128 Obj Tab Cstr Sbuf Bc Proto.

Local Open Scope Z_scope.

Module BcWrite.
Import Leb128 Obj Tab Sbuf Bc Proto.

(** One action on the buffer after the other. *)
Notation "f >=> g" := (λ sb, Sbuf.bind (f sb) g) (at level 60, right associativity) : vela_scope.
#[local] Open Scope vela_scope.

Definition nothing (sb : sbuf) : result := SOk sb.

(** Actions on the elements of a list, in order. *)
Fixpoint each {A} (f : A → sbuf → result) (l : list A) : sbuf → result :=
  match l with
  | [] => nothing
  | x :: l => f x >=> each f l
  end.

Section Writer.
Context {S : Type} `{StrTable S} (s : S).
Context (startins : Z → Z).

(** ** Constants *)

Definition push_str (a : Z) : sbuf → result := uj_sbuf_push_str (st_data s a).

(** Write a single constant key/value of a template table. *)
Definition bcwrite_ktabk (o : TValue) : sbuf → result :=
  match o with
  | TGCV GT_STR a =>
      uj_sbuf_push_uleb128 (BCDUMP_KTAB_STR + len (st_data s a)) >=> push_str a
  | TNum n => uj_sbuf_push_char BCDUMP_KTAB_NUM >=> uj_sbuf_push_uleb128 n
  | TNil => uj_sbuf_push_char BCDUMP_KTAB_NIL
  | TBool b => uj_sbuf_push_char (if b then BCDUMP_KTAB_TRUE else BCDUMP_KTAB_FALSE)
  | _ => λ _, SUndef
  end.

(** One plus the index of the last slot that is not nil. *)
Fixpoint array_len (vs : list TValue) : nat :=
  match vs with
  | [] => O
  | v :: vs => let n := array_len vs in
               if decide (n = O) then if tvisnil v then O else 1%nat else (1 + n)%nat
  end.

Definition node_live (n : Node) : bool := negb (tvisnil (val n)).

(** Hash entries are written from the last node to the first. *)
Definition bcwrite_ktab (t : GCtab) : sbuf → result :=
  let narray := array_len (array t) in
  let live := if 0 <? hmask t then filter node_live (node t) else [] in
  uj_sbuf_push_uleb128 (Z.of_nat narray) >=>
  uj_sbuf_push_uleb128 (Z.of_nat (length live)) >=>
  each bcwrite_ktabk (take narray (array t)) >=>
  each (λ n, bcwrite_ktabk (key n) >=> bcwrite_ktabk (val n)) (rev live).

(** [rawV(&p[i])] of the payload [ws] of a cdata object, whose 64-bit words it takes for
    tagged values of two words each; behind the payload the memory is not the object's. *)
Definition push_raw (ws : list Z) (i : nat) (sb : sbuf) : result :=
  match ws !! (2 * i)%nat with
  | Some u => uj_sbuf_push_uleb128 u sb
  | None => SUndef
  end.

(** The constant's type, then its data; a 64-bit integer is one word. *)
Definition bcwrite_kgc1 (o : kgc GCproto) : sbuf → result :=
  match o with
  | KStr a => uj_sbuf_push_uleb128 (BCDUMP_KGC_STR + len (st_data s a)) >=> push_str a
  | KChild _ => uj_sbuf_push_uleb128 BCDUMP_KGC_CHILD
  | KI64 u => uj_sbuf_push_uleb128 BCDUMP_KGC_I64 >=> push_raw [u] 0
  | KU64 u => uj_sbuf_push_uleb128 BCDUMP_KGC_U64 >=> push_raw [u] 0
  | KComplex re im =>
      uj_sbuf_push_uleb128 BCDUMP_KGC_COMPLEX >=> push_raw [re; im] 0 >=> push_raw [re; im] 1
  | KTab t => uj_sbuf_push_uleb128 BCDUMP_KGC_TAB >=> bcwrite_ktab t
  end.

Definition bcwrite_kgc (ks : list (kgc GCproto)) : sbuf → result := each bcwrite_kgc1 ks.

Definition bcwrite_knum (kn : list Z) : sbuf → result := each uj_sbuf_push_uleb128 kn.

(** ** Bytecode *)

(** The octets of words and half-words in memory. *)
Definition le32 (i : Z) : list Z :=
  [u8 i; u8 (Z.shiftr i 8); u8 (Z.shiftr i 16); u8 (Z.shiftr i 24)].
Definition le16 (i : Z) : list Z := [u8 i; u8 (Z.shiftr i 8)].

(** Zero the counters of HOTCNT instructions. *)
Fixpoint bcwrite_zero_hotcnt (p : list Z) : list Z :=
  match p with
  | p0 :: p1 :: p2 :: p3 :: p =>
      (if p0 =? BC_HOTCNT then le32 BC_HOTCNT else [p0; p1; p2; p3]) ++ bcwrite_zero_hotcnt p
  | _ => p
  end.

(** Unpatch modified bytecode containing ILOOP/JLOOP etc. *)
Fixpoint unpatch (p : list Z) : list Z :=
  match p with
  | p0 :: p1 :: p2 :: p3 :: p =>
      (if bc_isiloop p0 || (p0 =? BC_JFORI) then [u8 (p0 - BC_IFORL + BC_FORL); p1; p2; p3]
       else if bc_isjloop p0 then
         let ins := startins (p2 + Z.shiftl p3 8) in
         [u8 (p0 - BC_JFORL + BC_FORL); p1; u8 (bc_c ins); u8 (bc_b ins)]
       else [p0; p1; p2; p3]) ++ unpatch p
  | _ => p
  end.

(** Rewrite the octets of the buffer from a position on. *)
Definition patch_from (pos : Z) (f : list Z → list Z) (sb : sbuf) : result :=
  SOk (MkSbuf (take (Z.to_nat pos) (data sb) ++ f (drop (Z.to_nat pos) (data sb))) (cap sb)).

(** The header instruction is omitted. *)
Definition bcwrite_bytecode (h : phead) (sb : sbuf) : result :=
  let bc_pos := uj_sbuf_size sb in
  (uj_sbuf_push_block (concat (le32 <$> tail (bc h))) >=>
   patch_from bc_pos bcwrite_zero_hotcnt >=>
   (if negb (Z.land (flags h) PROTO_ILOOP =? 0) || negb (trace h =? 0)
    then patch_from bc_pos unpatch else nothing)) sb.

(** ** Prototypes *)

Record wctx (W : Type) := MkCtx { wsb : sbuf; wdata : W; status : Z }.
Arguments MkCtx {W}.
Arguments wsb {W}.
Arguments wdata {W}.
Arguments status {W}.

(** An error unwinds to [lj_bcwrite]; the caller keeps what it was given before. *)
Inductive wres (W : Type) := WOk (c : wctx W) | WThrow (w : W) | WUndef.
Arguments WOk {W}.
Arguments WThrow {W}.
Arguments WUndef {W}.

Context {W : Type} (wfunc : W → list Z → W * Z).

Definition wbind (r : wres W) (f : wctx W → wres W) : wres W :=
  match r with WOk c => f c | WThrow w => WThrow w | WUndef => WUndef end.

(** Run actions on the buffer of the context. *)
Definition on_sb (f : sbuf → result) (c : wctx W) : wres W :=
  match f (wsb c) with
  | SOk sb => WOk (MkCtx sb (wdata c) (status c))
  | SThrow => WThrow (wdata c)
  | SUndef => WUndef
  end.

(** [if (ctx->status == 0) ctx->status = ctx->wfunc(...);] *)
Definition call_writer (os : list Z) (c : wctx W) : wctx W :=
  if status c =? 0 then let (w, st) := wfunc (wdata c) os in MkCtx (wsb c) w st else c.

(** The buffer is reset, then the header fields, bytecode, upvalue references,
    constants and debug information are appended. *)
Definition bcwrite_body (strip : bool) (h : phead) (ks : list (kgc GCproto)) : sbuf → result :=
  let sizedbg := if strip then 0 else len (dbg h) in
  (λ sb, SOk (uj_sbuf_reset sb)) >=>
  uj_sbuf_push_char (Z.land (flags h) (Z.lor (Z.lor PROTO_CHILD PROTO_VARARG) PROTO_FFI)) >=>
  uj_sbuf_push_char (numparams h) >=>
  uj_sbuf_push_char (framesize h) >=>
  uj_sbuf_push_char (len (uv h)) >=>
  uj_sbuf_push_uleb128 (Z.of_nat (length ks)) >=>
  uj_sbuf_push_uleb128 (len (knum h)) >=>
  uj_sbuf_push_uleb128 (len (bc h) - 1) >=>
  (if strip then nothing else
     uj_sbuf_push_uleb128 sizedbg >=>
     (if negb (sizedbg =? 0) then
        uj_sbuf_push_uleb128 (u64 (firstline h)) >=> uj_sbuf_push_uleb128 (u64 (numline h))
      else nothing)) >=>
  bcwrite_bytecode h >=>
  uj_sbuf_push_block (concat (le16 <$> uv h)) >=>
  bcwrite_kgc ks >=>
  bcwrite_knum (knum h) >=>
  (if negb (sizedbg =? 0) then uj_sbuf_push_block (dbg h) else nothing).

(** Pass the length of the serialized prototype and the prototype to the writer. *)
Definition emit_proto (c : wctx W) : wres W :=
  match write_uleb128 (uj_sbuf_size (wsb c)) with
  | Some os => WOk (call_writer (data (wsb c)) (call_writer os c))
  | None => WUndef
  end.

(** Children are written first, from the last constant to the first. *)
Fixpoint bcwrite_proto (strip : bool) (pt : GCproto) (c : wctx W) : wres W :=
  let '(MkProto h ks) := pt in
  wbind
    (if negb (Z.land (flags h) PROTO_CHILD =? 0) then
       foldr (λ k r, wbind r (λ c, match k with KChild p => bcwrite_proto strip p c | _ => WOk c end))
         (WOk c) ks
     else WOk c)
    (λ c, wbind (on_sb (bcwrite_body strip h ks) c) emit_proto).

(** Write header of bytecode dump. *)
Definition bcwrite_header (strip : bool) (pt : GCproto) (c : wctx W) : wres W :=
  let h := head pt in
  wbind (on_sb
    ((λ sb, SOk (uj_sbuf_reset sb)) >=>
     uj_sbuf_push_char BCDUMP_HEAD1 >=>
     uj_sbuf_push_char BCDUMP_HEAD2 >=>
     uj_sbuf_push_char BCDUMP_HEAD3 >=>
     uj_sbuf_push_char BCDUMP_VERSION >=>
     uj_sbuf_push_char ((if strip then BCDUMP_F_STRIP else 0) +
       (if Z.land (flags h) PROTO_FFI =? 0 then 0 else BCDUMP_F_FFI)) >=>
     (if strip then nothing else
        uj_sbuf_push_uleb128 (len (st_data s (chunkname h))) >=> push_str (chunkname h))) c)
    (λ c, let (w, st) := wfunc (wdata c) (data (wsb c)) in WOk (MkCtx (wsb c) w st)).

(** Write footer of bytecode dump. *)
Definition bcwrite_footer (c : wctx W) : wres W := WOk (call_writer [0] c).

(** The protected part of the writer. *)
Definition cpwriter (strip : bool) (pt : GCproto) (c : wctx W) : wres W :=
  wbind (on_sb (uj_sbuf_reserve 1024) c) (λ c,
  wbind (bcwrite_header strip pt c) (λ c,
  wbind (bcwrite_proto strip pt c) bcwrite_footer)).

(** The caller's state and the status; [errst] is the status of a caught error. *)
Definition lj_bcwrite (errst : Z) (strip : bool) (pt : GCproto) (w : W) : option (W * Z) :=
  match cpwriter strip pt (MkCtx uj_sbuf_init w 0) with
  | WOk c => Some (wdata c, status c)
  | WThrow w => Some (w, errst)
  | WUndef => None
  end.

End Writer.
End BcWrite.
