(* ===== verification/BcRead.v ===== *)
(** * The bytecode reader (frontend/lj_bcread.c)

    The reader works on the part [rest] of its input that is buffered ([p] and
    [n] of the lexer state).  The octets come in blocks from the caller's
    [rfunc]: [chunks] are the blocks it has still to return, an empty block or
    the end of the list being the end of the stream.  [sb] is the lexer's own
    buffer, into which incomplete input is copied.  Reading behind the buffered
    octets is undefined: the code only asserts that it does not.  The Lua stack
    above the saved top holds the prototypes read so far, the topmost first. *)

From stdpp Require Import base decidable list numbers option.
From Stdlib Require Import ZArith Lia.
From S2P Require Import Prelude Leb128 Obj Tab Cstr Sbuf Bc Proto.

Local Open Scope Z_scope.

Module BcRead.
Import Leb128 Obj Tab Sbuf Bc Proto.

Definition LJ_MAX_MEM : Z := 0x7fffff00.

Inductive rerr :=
  | UJ_ERR_BCBAD | UJ_ERR_BCFMT | UJ_ERR_SBUFOV | UJ_ERR_STROV | TabErr (e : Tab.err).

Record LexState (S : Type) := MkLS {
  rest : list Z;
  sb : sbuf;
  chunks : list (list Z);
  current : Z;
  rflags : Z;
  rname : Z;              (** [ls->chunkname] *)
  chunkarg : list Z;
  stack : list GCproto;
  strs : S
}.
Arguments MkLS {S}.
Arguments rest {S}.
Arguments sb {S}.
Arguments chunks {S}.
Arguments current {S}.
Arguments rflags {S}.
Arguments rname {S}.
Arguments chunkarg {S}.
Arguments stack {S}.
Arguments strs {S}.

(** ** The state and error monad *)

Inductive outcome (S A : Type) :=
  | ROk (a : A) (ls : LexState S)
  | RErr (e : rerr)
  | RUndef.
Arguments ROk {S A}.
Arguments RErr {S A}.
Arguments RUndef {S A}.

Section Reader.
Context {S : Type} `{StrTable S} `{ObjHeap}.

Definition R (A : Type) : Type := LexState S → outcome S A.

Definition ret {A} (a : A) : R A := ROk a.
Definition rbind {A B} (m : R A) (f : A → R B) : R B := λ ls,
  match m ls with ROk a ls => f a ls | RErr e => RErr e | RUndef => RUndef end.
Definition throw {A} (e : rerr) : R A := λ _, RErr e.
Definition undef {A} : R A := λ _, RUndef.
Definition gets {A} (f : LexState S → A) : R A := λ ls, ROk (f ls) ls.
Definition modify (f : LexState S → LexState S) : R () := λ ls, ROk () (f ls).

Notation "'let%' x := m 'in' k" := (rbind m (λ x, k)) (at level 10, x binder, k at level 200).
Notation "m ;% k" := (rbind m (λ _, k)) (at level 60, right associativity).

Definition set_rest (r : list Z) (ls : LexState S) : LexState S :=
  MkLS r (sb ls) (chunks ls) (current ls) (rflags ls) (rname ls) (chunkarg ls) (stack ls) (strs ls).
Definition set_input (r : list Z) (b : sbuf) (cs : list (list Z)) (ls : LexState S) : LexState S :=
  MkLS r b cs (current ls) (rflags ls) (rname ls) (chunkarg ls) (stack ls) (strs ls).
Definition set_current (c : Z) (ls : LexState S) : LexState S :=
  MkLS (rest ls) (sb ls) (chunks ls) c (rflags ls) (rname ls) (chunkarg ls) (stack ls) (strs ls).
Definition set_flags (f : Z) (ls : LexState S) : LexState S :=
  MkLS (rest ls) (sb ls) (chunks ls) (current ls) f (rname ls) (chunkarg ls) (stack ls) (strs ls).
Definition set_name (a : Z) (ls : LexState S) : LexState S :=
  MkLS (rest ls) (sb ls) (chunks ls) (current ls) (rflags ls) a (chunkarg ls) (stack ls) (strs ls).
Definition set_stack (st : list GCproto) (ls : LexState S) : LexState S :=
  MkLS (rest ls) (sb ls) (chunks ls) (current ls) (rflags ls) (rname ls) (chunkarg ls) st (strs ls).
Definition set_strs (s : S) (ls : LexState S) : LexState S :=
  MkLS (rest ls) (sb ls) (chunks ls) (current ls) (rflags ls) (rname ls) (chunkarg ls) (stack ls) s.

(** ** Input buffer handling *)

(** [n] of the lexer state. *)
Definition avail (ls : LexState S) : Z := len (rest ls).

(** Copy the remainder to the buffer: it is moved down if it is there already,
    else appended; without a remainder the buffer is reset. *)
Definition keep_rest (ls : LexState S) : Sbuf.result :=
  if avail ls =? 0 then SOk (uj_sbuf_reset (sb ls))
  else if negb (uj_sbuf_size (sb ls) =? 0) then SOk (MkSbuf (rest ls) (cap (sb ls)))
  else uj_sbuf_push_block (rest ls) (sb ls).

(** The loop of [bcread_fill]; every round takes a block. *)
Fixpoint fill_loop (fuel : nat) (len : Z) (need : bool) : R () := λ ls,
  match fuel with
  | O => RUndef
  | Datatypes.S fuel =>
      match keep_rest ls with
      | SThrow => RErr UJ_ERR_SBUFOV
      | SUndef => RUndef
      | SOk b =>
          match chunks ls with
          | [] | [] :: _ =>
              if need then RErr UJ_ERR_BCBAD
              else ROk () (set_current (-1) (set_input (rest ls) b (tail (chunks ls)) ls))
          | buf :: cs =>
              let r :=
                if negb (uj_sbuf_size b =? 0)
                then match uj_sbuf_push_block buf b with
                     | SOk b => Some (data b, b)
                     | _ => None
                     end
                else Some (buf, b) in
              match r with
              | None => RErr UJ_ERR_SBUFOV
              | Some (r, b) =>
                  let ls := set_input r b cs ls in
                  if avail ls <? len then fill_loop fuel len need ls else ROk () ls
              end
          end
      end
  end.

Definition bcread_fill (len : Z) (need : bool) : R () := λ ls,
  if (LJ_MAX_MEM <? len) || (current ls <? 0) then RErr UJ_ERR_BCBAD
  else fill_loop (Datatypes.S (length (chunks ls))) len need ls.

Definition bcread_need (len : Z) : R () := λ ls,
  if avail ls <? len then bcread_fill len true ls else ROk () ls.
Definition bcread_want (len : Z) : R () := λ ls,
  if avail ls <? len then bcread_fill len false ls else ROk () ls.

(** Return memory block from buffer. *)
Definition bcread_mem (len : Z) : R (list Z) := λ ls,
  if avail ls <? len then RUndef
  else ROk (take (Z.to_nat len) (rest ls)) (set_rest (drop (Z.to_nat len) (rest ls)) ls).

(** Copy memory block from buffer. *)
Definition bcread_block (len : Z) : R (list Z) := bcread_mem len.

Definition bcread_byte : R Z := λ ls,
  match rest ls with
  | [] => RUndef
  | b :: r => ROk b (set_rest r ls)
  end.

(** Read ULEB128 value from buffer. *)
Definition bcread_qword : R Z := λ ls,
  match read_uleb128_n (rest ls) (avail ls) with
  | ReadOk v n => ROk v (set_rest (drop (Z.to_nat n) (rest ls)) ls)
  | _ => RUndef
  end.
Definition bcread_dword : R Z := let% v := bcread_qword in ret (u32 v).

(** ** Constants *)

(** [uj_str_new(L, p, len)] *)
Definition new_str (d : list Z) : R Z := λ ls,
  match st_new d (strs ls) with
  | Some (a, s) => ROk a (set_strs s ls)
  | None => RErr UJ_ERR_STROV
  end.

(** Repeat a reader, collecting the results. *)
Fixpoint repeatm {A} (n : nat) (m : R A) : R (list A) :=
  match n with
  | O => ret []
  | Datatypes.S n => let% x := m in let% l := repeatm n m in ret (x :: l)
  end.

(** Read a single constant key/value of a template table. *)
Definition bcread_ktabk : R TValue :=
  let% tp := bcread_dword in
  if BCDUMP_KTAB_STR <=? tp then
    let% p := bcread_mem (tp - BCDUMP_KTAB_STR) in
    let% a := new_str p in ret (TGCV GT_STR a)
  else if tp =? BCDUMP_KTAB_INT then
    let% v := bcread_dword in ret (TNum (int2num (i32 v)))
  else if tp =? BCDUMP_KTAB_NUM then
    let% v := bcread_qword in ret (TNum v)
  else ret (if tp =? BCDUMP_KTAB_NIL then TNil else TBool (tp =? BCDUMP_KTAB_TRUE)).

(** Run an operation of the table [t] and go on with its result and table. *)
Definition in_tab {A B} (r : Tab.outcome A) (k : A → GCtab → R B) : R B :=
  match r with
  | Tab.Ret a t => k a t
  | Tab.Throw e _ => throw (TabErr e)
  | Tab.Undef => undef
  end.

(** The value is read into the slot that [lj_tab_set] returned. *)
Fixpoint ktab_hash (n : nat) (t : GCtab) : R GCtab :=
  match n with
  | O => ret t
  | Datatypes.S n =>
      let% k := bcread_ktabk in
      in_tab (tab_set k t) (λ s t,
        let% v := bcread_ktabk in
        ktab_hash n (slot_write v s t))
  end.

(** Array entries are read into the slots of the array part. *)
Definition bcread_ktab : R GCtab :=
  let% narray := bcread_dword in
  let% nhash := bcread_dword in
  in_tab (lj_tab_new narray (hsize2hbits nhash)) (λ _ t,
    let% vs := repeatm (Z.to_nat narray) bcread_ktabk in
    ktab_hash (Z.to_nat nhash) (set_array (colo t) vs t)).

(** [setrawV(&p[i], x)] in the payload [ws] of a new cdata object, whose 64-bit words it takes
    for tagged values: it stores a word and, in the next one, the tag of numbers; behind the
    payload the memory is not the object's. *)
Definition LJ_TNUMX : Z := u32 (Z.lnot 13).
Definition setraw (i : nat) (x : Z) (ws : list Z) : R (list Z) :=
  match ws !! (2 * i + 1)%nat with
  | Some w => ret (<[(2 * i + 1)%nat := Z.lor (Z.ldiff w (2 ^ 32 - 1)) LJ_TNUMX]> (<[(2 * i)%nat := x]> ws))
  | None => undef
  end.

(** The payload of a 64-bit integer has one word, that of a complex number two.  A child is
    popped from the stack. *)
Definition bcread_kgc1 : R (kgc GCproto) :=
  let% tp := bcread_dword in
  if BCDUMP_KGC_STR <=? tp then
    let% p := bcread_mem (tp - BCDUMP_KGC_STR) in
    let% a := new_str p in ret (KStr a)
  else if tp =? BCDUMP_KGC_TAB then let% t := bcread_ktab in ret (KTab t)
  else if negb (tp =? BCDUMP_KGC_CHILD) then
    let% lo := bcread_qword in
    let% p := setraw 0 lo (if tp =? BCDUMP_KGC_COMPLEX then [0; 0] else [0]) in
    if tp =? BCDUMP_KGC_COMPLEX then
      let% hi := bcread_qword in
      let% p := setraw 1 hi p in ret (KComplex (default 0 (p !! 0%nat)) (default 0 (p !! 1%nat)))
    else
      let u := default 0 (p !! 0%nat) in ret (if tp =? BCDUMP_KGC_I64 then KI64 u else KU64 u)
  else λ ls,
    match stack ls with
    | [] => RErr UJ_ERR_BCBAD
    | p :: st => ROk (KChild p) (set_stack st ls)
    end.

Definition bcread_kgc (sizekgc : Z) : R (list (kgc GCproto)) :=
  repeatm (Z.to_nat sizekgc) bcread_kgc1.

Definition bcread_knum (sizekn : Z) : R (list Z) := repeatm (Z.to_nat sizekn) bcread_qword.

(** ** Bytecode *)

(** Words and half-words in memory. *)
Fixpoint words (p : list Z) : list Z :=
  match p with
  | p0 :: p1 :: p2 :: p3 :: p =>
      (p0 + Z.shiftl p1 8 + Z.shiftl p2 16 + Z.shiftl p3 24) :: words p
  | _ => []
  end.
Fixpoint halfs (p : list Z) : list Z :=
  match p with
  | p0 :: p1 :: p => (p0 + Z.shiftl p1 8) :: halfs p
  | _ => []
  end.

Definition bcread_bytecode (flags framesize sizebc : Z) : R (list Z) :=
  let op := if negb (Z.land flags PROTO_VARARG =? 0) then BC_FUNCV else BC_FUNCF in
  let% p := bcread_block ((sizebc - 1) * 4) in
  ret (BCINS_AD op framesize 0 :: words p).

Definition bcread_uv (sizeuv : Z) : R (list Z) :=
  if negb (sizeuv =? 0) then let% p := bcread_block (sizeuv * 2) in ret (halfs p) else ret [].

(** Find pointer to varinfo: skip [n] names that end with a zero octet, from offset [ofs]. *)
Fixpoint skip_names (p : list Z) (n : nat) (ofs : Z) : option Z :=
  match n with
  | O => Some ofs
  | Datatypes.S n' =>
      match p with
      | [] => None
      | c :: p => skip_names p (if c =? 0 then n' else n) (ofs + 1)
      end
  end.
Definition bcread_varinfo (dbg : list Z) (uvinfo sizeuv : Z) : option Z :=
  skip_names (drop (Z.to_nat uvinfo) dbg) (Z.to_nat sizeuv) uvinfo.

(** The size of a line number difference. *)
Definition sizeli (sizebc numline : Z) : Z :=
  Z.shiftl (sizebc - 1) (if numline <? 256 then 0 else if numline <? 65536 then 1 else 2).

(** Total size of a prototype with its colocated arrays; 112 is the size of [GCproto],
    16 that of [TValue]. *)
Definition proto_size (sizebc sizekgc sizekn sizeuv sizedbg : Z) : Z :=
  let sz := 112 + sizebc * 4 + sizekgc * 8 in
  let sz := Z.ldiff (sz + 15) 15 in
  let sz := sz + sizekn * 16 in
  let sz := sz + Z.ldiff (sizeuv + 1) 1 * 2 in
  sz + sizedbg.

(** ** Prototypes *)

(** The header, constants and debug information of a prototype; [hd] are the fixed octets. *)
Definition bcread_body (fl numparams framesize sizeuv : Z) : R GCproto :=
  let% sizekgc := bcread_dword in
  let% sizekn := bcread_dword in
  let% nbc := bcread_dword in
  let sizebc := nbc + 1 in
  let% f := gets rflags in
  let% dbgs :=
    (if Z.land f BCDUMP_F_STRIP =? 0 then
       let% sizedbg := bcread_dword in
       if negb (sizedbg =? 0) then
         let% first := bcread_dword in
         let% num := bcread_dword in ret (sizedbg, i32 first, i32 num)
       else ret (0, 0, 0)
     else ret (0, 0, 0)) in
  let '(sizedbg, firstline, numline) := dbgs in
  let sizept := proto_size sizebc sizekgc sizekn sizeuv sizedbg in
  let% name := gets rname in
  let% bc := bcread_bytecode fl framesize sizebc in
  let% uv := bcread_uv sizeuv in
  let% ks := bcread_kgc sizekgc in
  let% kn := bcread_knum sizekn in
  if negb (sizedbg =? 0) then
    let% dbg := bcread_block sizedbg in
    let uvinfo := sizeli sizebc numline in
    match bcread_varinfo dbg uvinfo sizeuv with
    | None => undef
    | Some varinfo =>
        ret (MkProto (MkHead numparams framesize fl 0 sizept name bc uv kn firstline numline dbg
                        uvinfo varinfo) ks)
    end
  else ret (MkProto (MkHead numparams framesize fl 0 sizept name bc uv kn firstline numline [] 0 0) ks).

(** [None] is the end of the dump. *)
Definition bcread_proto : R (option GCproto) := λ ls,
  match rest ls with
  | 0 :: r => ROk None (set_rest r ls)
  | _ =>
      (bcread_want 5 ;%
       let% len := bcread_dword in
       if len =? 0 then ret None
       else
         bcread_need len ;%
         let% startn := gets avail in
         let% fl := bcread_byte in
         let% numparams := bcread_byte in
         let% framesize := bcread_byte in
         let% sizeuv := bcread_byte in
         let% pt := bcread_body fl numparams framesize sizeuv in
         let% n := gets avail in
         if negb (len =? startn - n) then throw UJ_ERR_BCBAD else ret (Some pt)) ls
  end.

(** Read and check header of bytecode dump.  A dump that uses the FFI loads the
    FFI library, which does not concern the reader. *)
Definition bcread_header : R bool :=
  bcread_want (3 + 5 + 5) ;%
  let% h2 := bcread_byte in
  if negb (h2 =? BCDUMP_HEAD2) then ret false else
  let% h3 := bcread_byte in
  if negb (h3 =? BCDUMP_HEAD3) then ret false else
  let% v := bcread_byte in
  if negb (v =? BCDUMP_VERSION) then ret false else
  let% f := bcread_dword in
  modify (set_flags f) ;%
  if negb (Z.ldiff f BCDUMP_F_KNOWN =? 0) then ret false
  else if negb (Z.land f BCDUMP_F_STRIP =? 0) then
    let% arg := gets chunkarg in
    let% a := new_str arg in
    modify (set_name a) ;% ret true
  else
    let% len := bcread_dword in
    bcread_need len ;%
    let% p := bcread_mem len in
    let% a := new_str p in
    modify (set_name a) ;% ret true.

(** Process all prototypes in the bytecode dump; each takes at least one octet. *)
Fixpoint read_protos (fuel : nat) : R () :=
  match fuel with
  | O => undef
  | Datatypes.S fuel =>
      let% pt := bcread_proto in
      match pt with
      | None => ret ()
      | Some p => modify (λ ls, set_stack (p :: stack ls) ls) ;% read_protos fuel
      end
  end.

(** Octets that are still to come, at most. *)
Definition input_len (ls : LexState S) : nat :=
  (length (rest ls) + length (concat (chunks ls)))%nat.

(** Read a bytecode dump, after its first octet. *)
Definition lj_bcread : R GCproto :=
  modify (λ ls, set_stack [] (set_input (rest ls) (uj_sbuf_reset (sb ls)) (chunks ls) ls)) ;%
  let% ok := bcread_header in
  if negb ok then throw UJ_ERR_BCFMT
  else
    let% fuel := gets input_len in
    read_protos (Datatypes.S fuel) ;%
    λ ls,
      if (0 <? i32 (avail ls)) then RErr UJ_ERR_BCBAD
      else match stack ls with
      | [p] => ROk p (set_stack [] ls)
      | _ => RErr UJ_ERR_BCBAD
      end.

End Reader.
End BcRead.
