(* ===== verification/BcSpec.v ===== *)
(** * What a dump is: the octets of a prototype, and what loading gives back

    [enc_proto] is the reference definition of the dump format.  A prototype
    that can be dumped ([proto_ok]) and the one that loading builds are related
    by [loaded]: the same function, without what a dump does not keep. *)

From stdpp Require Import base decidable list numbers option.
From Stdlib Require Import ZArith Lia.
From S2P Require Import Prelude Leb128 Obj Tab TabChain TabWf Cstr Sbuf Bc Str Proto BcWrite BcRead.

Local Open Scope Z_scope.

Module BcSpec.
Import Leb128 Obj Tab TabWf Bc Proto BcWrite BcRead.

Section Spec.
Context {S : Type} `{StrTable S} `{ObjHeap} (s0 : S) (startins : Z → Z).

(** ** Octets *)

Definition uleb (v : Z) : list Z := default [] (write_uleb128 v).

Definition enc_str (base a : Z) : list Z := uleb (base + len (st_data s0 a)) ++ st_data s0 a.

Definition enc_ktabk (o : TValue) : list Z :=
  match o with
  | TGCV GT_STR a => enc_str BCDUMP_KTAB_STR a
  | TNum n => BCDUMP_KTAB_NUM :: uleb n
  | TBool b => [if b then BCDUMP_KTAB_TRUE else BCDUMP_KTAB_FALSE]
  | _ => [BCDUMP_KTAB_NIL]
  end.

Definition live_nodes (t : GCtab) : list Node :=
  if 0 <? hmask t then filter node_live (node t) else [].

Definition enc_node (n : Node) : list Z := enc_ktabk (key n) ++ enc_ktabk (val n).

(** The length of a list as a number. *)
Definition size {A} (l : list A) : Z := Z.of_nat (length l).

Definition enc_ktab (t : GCtab) : list Z :=
  let vs := take (array_len (array t)) (array t) in
  uleb (size vs) ++ uleb (size (live_nodes t)) ++
  concat (enc_ktabk <$> vs) ++ concat (enc_node <$> rev (live_nodes t)).

Definition enc_kgc (o : kgc GCproto) : list Z :=
  match o with
  | KStr a => enc_str BCDUMP_KGC_STR a
  | KChild _ => uleb BCDUMP_KGC_CHILD
  | KI64 u => uleb BCDUMP_KGC_I64 ++ uleb u
  | KU64 u => uleb BCDUMP_KGC_U64 ++ uleb u
  | KComplex re im => uleb BCDUMP_KGC_COMPLEX ++ uleb re ++ uleb im
  | KTab t => uleb BCDUMP_KGC_TAB ++ enc_ktab t
  end.

(** ** Instructions *)

(** The counter of HOTCNT is not dumped. *)
Definition zero_ins (i : Z) : Z := if bc_op i =? BC_HOTCNT then BC_HOTCNT else i.

(** The instruction that the trace compiler replaced. *)
Definition unpatch_ins (i : Z) : Z :=
  let op := bc_op i in
  if bc_isiloop op || (op =? BC_JFORI)
  then BCINS_ABC_raw (op - BC_IFORL + BC_FORL) (bc_a_raw i) (bc_b_raw i) (bc_c_raw i)
  else if bc_isjloop op then
    let ins := startins (bc_d_raw i) in
    BCINS_ABC_raw (op - BC_JFORL + BC_FORL) (bc_a_raw i) (u8 (bc_b ins)) (u8 (bc_c ins))
  else i.

Definition patched (h : phead) : bool :=
  negb (Z.land (flags h) PROTO_ILOOP =? 0) || negb (trace h =? 0).

Definition dump_bc (h : phead) : list Z :=
  (λ i, if patched h then unpatch_ins (zero_ins i) else zero_ins i) <$> tail (bc h).

(** ** Prototypes *)

Definition dump_flags (h : phead) : Z :=
  Z.land (flags h) (Z.lor (Z.lor PROTO_CHILD PROTO_VARARG) PROTO_FFI).

(** The debug information that is dumped. *)
Definition dump_dbg (strip : bool) (h : phead) : list Z := if strip then [] else dbg h.

Definition enc_lines (strip : bool) (h : phead) : list Z :=
  if strip then []
  else uleb (size (dbg h)) ++
    (if decide (dbg h = []) then [] else uleb (u64 (firstline h)) ++ uleb (u64 (numline h))).

Definition enc_body (strip : bool) (h : phead) (ks : list (kgc GCproto)) : list Z :=
  [dump_flags h; numparams h; framesize h; size (uv h)] ++
  uleb (size ks) ++ uleb (size (knum h)) ++ uleb (size (bc h) - 1) ++
  enc_lines strip h ++
  concat (le32 <$> dump_bc h) ++ concat (le16 <$> uv h) ++
  concat (enc_kgc <$> ks) ++ concat (uleb <$> knum h) ++ dump_dbg strip h.

Definition frame (body : list Z) : list Z := uleb (size body) ++ body.

(** Children from the last constant to the first, then the prototype itself. *)
Fixpoint enc_proto (strip : bool) (pt : GCproto) : list Z :=
  let '(MkProto h ks) := pt in
  foldr (λ k os, os ++ match k with KChild p => enc_proto strip p | _ => [] end) [] ks ++
  frame (enc_body strip h ks).

Definition enc_flags (strip : bool) (h : phead) : Z :=
  (if strip then BCDUMP_F_STRIP else 0) + (if Z.land (flags h) PROTO_FFI =? 0 then 0 else BCDUMP_F_FFI).

Definition enc_header (strip : bool) (h : phead) : list Z :=
  [BCDUMP_HEAD1; BCDUMP_HEAD2; BCDUMP_HEAD3; BCDUMP_VERSION; enc_flags strip h] ++
  (if strip then [] else enc_str 0 (chunkname h)).

Definition enc_dump (strip : bool) (pt : GCproto) : list Z :=
  enc_header strip (head pt) ++ enc_proto strip pt ++ [0].

(** ** Prototypes that can be dumped *)

Definition str_ok (a : Z) : Prop := st_holds s0 a ∧ len (st_data s0 a) < Str.LJ_MAX_STR.

(** Values of template tables. *)
Definition kval_ok (o : TValue) : Prop :=
  match o with
  | TNil | TBool _ => True
  | TGCV GT_STR a => str_ok a
  | TNum n => in_u 64 n
  | _ => False
  end.

Record ktab_ok (t : GCtab) : Prop := {
  kt_wf : twf t;
  kt_array i v : array t !! i = Some v → kval_ok v;
  kt_node i n : node t !! i = Some n → val n ≠ TNil → kval_ok (key n) ∧ kval_ok (val n)
}.

Definition octets (l : list Z) : Prop := Forall (in_u 8) l.

Record head_ok (h : phead) : Prop := {
  ho_flags : in_u 8 (flags h);
  ho_params : in_u 8 (numparams h);
  ho_frame : in_u 8 (framesize h);
  ho_name : str_ok (chunkname h);
  ho_bc : Forall (in_u 32) (bc h) ∧ 1 ≤ size (bc h) < 2 ^ 29;
  ho_uv : Forall (in_u 16) (uv h) ∧ size (uv h) < 2 ^ 8;
  ho_knum : Forall (in_u 64) (knum h) ∧ size (knum h) < 2 ^ 32;
  ho_lines : in_s 32 (firstline h) ∧ in_s 32 (numline h);
  ho_dbg : octets (dbg h) ∧ size (dbg h) < 2 ^ 32;
  ho_uvinfo : dbg h ≠ [] → uvinfo h = sizeli (size (bc h)) (numline h) ∧
    bcread_varinfo (dbg h) (uvinfo h) (size (uv h)) = Some (varinfo h)
}.

Definition kgc_ok (P : GCproto → Prop) (k : kgc GCproto) : Prop :=
  match k with
  | KStr a => str_ok a
  | KTab t => ktab_ok t
  | KI64 u | KU64 u => in_u 64 u
  | KComplex _ _ => False
  | KChild p => P p
  end.

(** [Forall] and [Forall2] as functions. *)
Definition lall {A} (P : A → Prop) : list A → Prop :=
  fix go l := match l with [] => True | x :: l => P x ∧ go l end.
Definition lall2 {A B} (P : A → B → Prop) : list A → list B → Prop :=
  fix go l l' :=
    match l, l' with [], [] => True | x :: l, y :: l' => P x y ∧ go l l' | _, _ => False end.

(** A prototype with children says so in its flags. *)
Fixpoint proto_ok (pt : GCproto) : Prop :=
  let '(MkProto h ks) := pt in
  head_ok h ∧ size ks < 2 ^ 32 ∧
  (Z.land (flags h) PROTO_CHILD = 0 → Forall (λ k, if k is KChild _ then False else True) ks) ∧
  lall (kgc_ok proto_ok) ks.

(** Prototypes that can be loaded: without cdata constants. *)
Definition kgc_loadable (P : GCproto → Prop) (k : kgc GCproto) : Prop :=
  match k with
  | KStr _ | KTab _ => True
  | KChild p => P p
  | KI64 _ | KU64 _ | KComplex _ _ => False
  end.
Fixpoint loadable (pt : GCproto) : Prop :=
  let '(MkProto h ks) := pt in lall (kgc_loadable loadable) ks.

(** ** What loading gives back *)

(** The same map; a loaded table can be modified. *)
Definition same_tab (t t' : GCtab) : Prop :=
  twf t' ∧ mutable t' ∧ ∀ k, tv_ok k → lj_tab_get t' k = lj_tab_get t k.

Definition loaded_head (strip : bool) (name : Z) (nk : Z) (h : phead) : phead :=
  let d := dump_dbg strip h in
  let keep {A} (x y : A) : A := if decide (d = []) then y else x in
  MkHead (numparams h) (framesize h) (dump_flags h) 0
    (proto_size (size (bc h)) nk (size (knum h)) (size (uv h)) (size d)) name
    (BCINS_AD (if Z.land (flags h) PROTO_VARARG =? 0 then BC_FUNCF else BC_FUNCV) (framesize h) 0
       :: dump_bc h)
    (uv h) (knum h) (keep (firstline h) 0) (keep (numline h) 0) d (keep (uvinfo h) 0)
    (keep (varinfo h) 0).

Definition kgc_loaded (R : GCproto → GCproto → Prop) (k k' : kgc GCproto) : Prop :=
  match k, k' with
  | KTab t, KTab t' => same_tab t t'
  | KChild p, KChild p' => R p p'
  | KStr a, KStr a' => a' = a
  | KI64 u, KI64 u' => u' = u
  | KU64 u, KU64 u' => u' = u
  | KComplex re im, KComplex re' im' => re' = re ∧ im' = im
  | _, _ => False
  end.

(** [loaded strip name pt pt']: [pt'] is what a dump of [pt] loads as. *)
Fixpoint loaded (strip : bool) (name : Z) (pt pt' : GCproto) : Prop :=
  let '(MkProto h ks) := pt in
  head pt' = loaded_head strip name (size ks) h ∧
  lall2 (kgc_loaded (loaded strip name)) ks (kgcs pt').

(** ** Induction over nested prototypes *)

Definition kids_ok (P : GCproto → Prop) (k : kgc GCproto) : Prop :=
  if k is KChild p then P p else True.

Fixpoint proto_rect' (P : GCproto → Prop)
    (f : ∀ h ks, lall (kids_ok P) ks → P (MkProto h ks)) (pt : GCproto) : P pt :=
  let '(MkProto h ks) := pt in
  f h ks ((fix go ks : lall (kids_ok P) ks :=
    match ks with
    | [] => I
    | k :: ks => conj (match k return kids_ok P k with
                       | KChild p => proto_rect' P f p
                       | _ => I end) (go ks)
    end) ks).

End Spec.
End BcSpec.
