(* ===== verification/BcWriteSpec.v ===== *)
(** * The writer emits the dump of a prototype

    Every action on the buffer appends the octets that [BcSpec] defines, and the
    caller's function is called with the blocks of the dump in order, until it
    returns a status other than 0. *)

From stdpp Require Import base decidable list numbers option sets.
From Stdlib Require Import ZArith Lia.
From S2P Require Import Prelude Leb128 Obj Tab TabChain TabWf Cstr Sbuf Bc Str Proto BcWrite BcRead.
From S2P Require Import BcSpec.

Local Open Scope Z_scope.

Module BcWriteSpec.
Import Leb128 Obj Tab TabWf Sbuf Bc Proto BcWrite BcSpec.

(** ** Actions that append *)

Definition writes (f : sbuf → result) (os : list Z) : Prop :=
  ∀ sb, sb_wf sb → uj_sbuf_size sb + len os + 10 ≤ LJ_MAX_SBUF →
    ∃ c, f sb = SOk (MkSbuf (data sb ++ os) c) ∧ sb_wf (MkSbuf (data sb ++ os) c).

Lemma len_app (a b : list Z) : len (a ++ b) = len a + len b.
Proof. unfold len. rewrite length_app. lia. Qed.

Lemma len_nonneg (a : list Z) : 0 ≤ len a.
Proof. unfold len. lia. Qed.

Lemma writes_push room os :
  len os ≤ room ≤ len os + 10 → writes (push room os) os.
Proof.
  intros Hr sb W Hs. pose proof (len_nonneg os).
  assert (0 ≤ uj_sbuf_size sb) by (unfold uj_sbuf_size; lia). unfold LJ_MAX_SBUF in Hs.
  destruct (push_appends room os sb W) as [(c & -> & Wc & _)|(_ & Ht & _)]; [lia|by exists c|].
  unfold LJ_MAX_SBUF in Ht. lia.
Qed.

Lemma writes_seq f g os1 os2 :
  writes f os1 → writes g os2 → writes (λ sb, bind (f sb) g) (os1 ++ os2).
Proof.
  intros Hf Hg sb W Hs. rewrite len_app in Hs. pose proof (len_nonneg os2).
  destruct (Hf sb W) as (c & -> & W1); [lia|]. simpl.
  destruct (Hg _ W1) as (c' & -> & W2); [rewrite size_app; unfold uj_sbuf_size in *; simpl; lia|].
  simpl in *. rewrite <-app_assoc in *. by exists c'.
Qed.

Lemma writes_nothing : writes nothing [].
Proof. intros [d c] W _. exists c. simpl. by rewrite app_nil_r. Qed.

Lemma writes_each {A} (f : A → sbuf → result) (g : A → list Z) l :
  (∀ x, x ∈ l → writes (f x) (g x)) → writes (each f l) (concat (g <$> l)).
Proof.
  induction l as [|x l IH]; intros Hl; simpl; [apply writes_nothing|].
  apply (writes_seq (f x) (each f l)); [apply Hl; by left|]. apply IH. intros y Hy. apply Hl. by right.
Qed.

Lemma writes_char c : in_u 8 c → writes (uj_sbuf_push_char c) [c].
Proof.
  intros Hc. unfold uj_sbuf_push_char, u8. rewrite wrapu_id by done.
  apply writes_push. unfold len. simpl. lia.
Qed.

Lemma writes_block os : writes (uj_sbuf_push_block os) os.
Proof. apply writes_push. lia. Qed.

Lemma uleb_spec v : in_u 64 v → write_uleb128 v = Some (uleb v) ∧ 1 ≤ len (uleb v) ≤ 10.
Proof.
  intros Hv. unfold uleb. destruct (write_uleb128_total v Hv) as [os Ho]. rewrite Ho.
  split; [done|]. apply (write_uleb128_len v os Hv Ho).
Qed.

Lemma writes_uleb v : in_u 64 v → writes (uj_sbuf_push_uleb128 v) (uleb v).
Proof.
  intros Hv sb. destruct (uleb128_push v sb Hv) as (os & Ho & Hl & ->).
  destruct (uleb_spec v Hv) as [E _]. rewrite E in Ho. injection Ho as <-.
  revert sb. apply writes_push. lia.
Qed.

Lemma size_u64 {A} (l : list A) : size l < 2 ^ 62 → in_u 64 (size l).
Proof. unfold size, in_u. lia. Qed.

(** ** Instructions *)

Lemma le32_pack o a b c :
  in_u 8 o → in_u 8 a → in_u 8 b → in_u 8 c → le32 (BCINS_ABC_raw o a b c) = [o; a; c; b].
Proof.
  unfold in_u. intros Ho Ha Hb Hc. rewrite pack_abc by lia. unfold le32.
  rewrite !Z.shiftr_div_pow2 by lia. unfold u8, wrapu. repeat f_equal; dlia.
Qed.

Lemma le32_octets i :
  in_u 32 i → le32 i = [bc_op i; bc_a_raw i; bc_c_raw i; bc_b_raw i] ∧
  Forall (in_u 8) (le32 i) ∧ bc_c_raw i + Z.shiftl (bc_b_raw i) 8 = bc_d_raw i.
Proof.
  unfold in_u at 1. intros Hi. destruct (bc_fields i) as (-> & -> & -> & -> & ->). unfold le32.
  rewrite !Z.shiftr_div_pow2, Z.shiftl_mul_pow2 by lia. unfold u8, wrapu. split; [|split; [|dlia]].
  - repeat f_equal; dlia.
  - repeat (apply Forall_cons_2; [unfold in_u; dlia|]). apply Forall_nil_2.
Qed.

Lemma zero_ins_u32 i : in_u 32 i → in_u 32 (zero_ins i).
Proof. intros. unfold zero_ins. case_test; [by vm_compute|done]. Qed.

Lemma zero_hotcnt_bytes l :
  Forall (in_u 32) l →
  bcwrite_zero_hotcnt (concat (le32 <$> l)) = concat (le32 <$> (zero_ins <$> l)).
Proof.
  induction 1 as [|i l Hi Hl IH]; [done|]. destruct (le32_octets i Hi) as [E _].
  cbn [fmap list_fmap concat]. rewrite E. cbn [app bcwrite_zero_hotcnt]. rewrite IH. f_equal.
  unfold zero_ins. by case_test; rewrite ?E.
Qed.

Section Bytes.
Context (startins : Z → Z).

Lemma unpatch_bytes l :
  Forall (in_u 32) l →
  unpatch startins (concat (le32 <$> l)) = concat (le32 <$> (unpatch_ins startins <$> l)).
Proof.
  induction 1 as [|i l Hi Hl IH]; [done|]. destruct (le32_octets i Hi) as (E & Ho & Ed).
  cbn [fmap list_fmap concat]. rewrite E. cbn [app unpatch]. rewrite IH. f_equal.
  rewrite E in Ho. rewrite !Forall_cons in Ho. destruct Ho as (H0 & H1 & H2 & H3 & _).
  unfold unpatch_ins. rewrite Ed.
  destruct (bc_isiloop (bc_op i) || (bc_op i =? BC_JFORI)) eqn:Ei;
    [|destruct (bc_isjloop (bc_op i)) eqn:Ej; [|done]].
  - assert (in_u 8 (bc_op i - BC_IFORL + BC_FORL)) as Hop.
    { unfold bc_isiloop in Ei. unfold in_u. repeat rewrite orb_true_iff in Ei.
      rewrite !Z.eqb_eq in Ei. unfold BC_IFORL, BC_FORL, BC_IITERL, BC_IITRNL, BC_ILOOP, BC_JFORI in *.
      lia. }
    rewrite le32_pack by done. unfold u8. by rewrite wrapu_id.
  - assert (in_u 8 (bc_op i - BC_JFORL + BC_FORL)) as Hop.
    { unfold bc_isjloop in Ej. unfold in_u. repeat rewrite orb_true_iff in Ej.
      rewrite !Z.eqb_eq in Ej. unfold BC_JFORL, BC_FORL, BC_JITERL, BC_JITRNL, BC_JLOOP in *. lia. }
    rewrite le32_pack by (done || by apply wrapu_range). unfold u8. by rewrite (wrapu_id _ (_ + _)).
Qed.

Lemma patch_tail d os f c : patch_from (uj_sbuf_size (MkSbuf d c)) f (MkSbuf (d ++ os) c) =
  SOk (MkSbuf (d ++ f os) c).
Proof.
  unfold patch_from, uj_sbuf_size. simpl. by rewrite Nat2Z.id, take_app_length, drop_app_length.
Qed.

Lemma length_le32 (l : list Z) : length (concat (le32 <$> l)) = (4 * length l)%nat.
Proof.
  induction l as [|i l IH]; [done|]. cbn [fmap list_fmap concat]. rewrite length_app, IH. simpl. lia.
Qed.

Lemma writes_bytecode h :
  Forall (in_u 32) (bc h) → writes (bcwrite_bytecode startins h) (concat (le32 <$> dump_bc startins h)).
Proof.
  intros Hb sb W Hs. unfold bcwrite_bytecode.
  assert (Forall (in_u 32) (tail (bc h))) as Ht by (destruct Hb; [apply Forall_nil_2|done]).
  assert (len (concat (le32 <$> tail (bc h))) = len (concat (le32 <$> dump_bc startins h))) as El.
  { unfold len. rewrite !length_le32. unfold dump_bc. by rewrite length_fmap. }
  destruct (writes_block (concat (le32 <$> tail (bc h))) sb W) as (c & E & Wc); [by rewrite El|].
  cbv beta. rewrite E. cbn [bind].
  change (uj_sbuf_size sb) with (uj_sbuf_size (MkSbuf (data sb) c)).
  rewrite patch_tail. cbn [bind]. exists c.
  assert (∀ os, len os = len (concat (le32 <$> tail (bc h))) → sb_wf (MkSbuf (data sb ++ os) c)) as Wos.
  { intros os Hos. destruct Wc as [Hf Hc]. split; [|done]. rewrite size_app in *. cbn [cap] in *. lia. }
  split; [|apply Wos; by rewrite El].
  rewrite zero_hotcnt_bytes by done. unfold dump_bc. fold (patched h). destruct (patched h).
  - rewrite patch_tail, unpatch_bytes, <-(list_fmap_compose zero_ins (unpatch_ins startins)); [done|].
    apply Forall_fmap. eapply Forall_impl; [exact Ht|]. intros i Hi. by apply zero_ins_u32.
  - done.
Qed.

End Bytes.

(** ** Constants *)

Section Writer.
Context {S : Type} `{StrTable S} `{ObjHeap} (s0 : S) (startins : Z → Z).

Lemma writes_str base a :
  str_ok s0 a → 0 ≤ base < 2 ^ 32 →
  writes (λ sb, bind (uj_sbuf_push_uleb128 (base + len (st_data s0 a)) sb) (push_str s0 a))
    (enc_str s0 base a).
Proof.
  intros [_ Hl] Hb. pose proof (len_nonneg (st_data s0 a)).
  apply writes_seq; [|apply writes_block]. apply writes_uleb.
  unfold in_u, Str.LJ_MAX_STR in *. lia.
Qed.

Lemma writes_ktabk o : kval_ok s0 o → writes (bcwrite_ktabk s0 o) (enc_ktabk s0 o).
Proof.
  destruct o as [|b|p|[] p|n]; simpl; try done; intros Ho.
  - by apply writes_char.
  - apply writes_char. by destruct b.
  - by apply writes_str.
  - apply (writes_seq (uj_sbuf_push_char BCDUMP_KTAB_NUM) _ [_]); [by apply writes_char|].
    by apply writes_uleb.
Qed.

Lemma array_len_le vs : (array_len vs ≤ length vs)%nat.
Proof. induction vs as [|v vs IH]; simpl; [done|]. repeat case_match; lia. Qed.

Lemma live_nodes_in t n : n ∈ live_nodes t → ∃ i, node t !! i = Some n ∧ val n ≠ TNil.
Proof.
  unfold live_nodes. case_match; [|by intros ?%elem_of_nil].
  intros [Hl Hn]%list_elem_of_filter. apply list_elem_of_lookup in Hn as [i Hi]. exists i.
  split; [done|]. intros E. unfold node_live in Hl. by rewrite E in Hl.
Qed.

Lemma live_nodes_size t : size (live_nodes t) ≤ size (node t).
Proof.
  unfold live_nodes, size. case_match; [|simpl; lia].
  pose proof (length_filter node_live (node t)). lia.
Qed.

Lemma ktab_sizes t : twf t → size (array t) ≤ 2 ^ 27 + 1 ∧ size (node t) ≤ 2 ^ 26.
Proof.
  intros W. pose proof (tw_asize _ W) as Ha. pose proof (tw_hmask _ W) as Hh.
  pose proof (TabChain.hw_len _ _ (tw_hash _ W)). unfold size, asize in *.
  change LJ_MAX_ASIZE with (2 ^ 27 + 1) in Ha. change (2 ^ LJ_MAX_HBITS) with (2 ^ 26) in Hh. lia.
Qed.

Lemma writes_ktab t : ktab_ok s0 t → writes (bcwrite_ktab s0 t) (enc_ktab s0 t).
Proof.
  intros [W Ha Hn]. unfold bcwrite_ktab, enc_ktab. fold (live_nodes t).
  pose proof (array_len_le (array t)). pose proof (live_nodes_size t).
  destruct (ktab_sizes t W) as [Sa Sn].
  assert (size (take (array_len (array t)) (array t)) = Z.of_nat (array_len (array t))) as ->
    by (unfold size; rewrite length_take; lia).
  unfold size in *.
  apply (writes_seq (uj_sbuf_push_uleb128 _)); [apply writes_uleb; unfold in_u; lia|].
  apply (writes_seq (uj_sbuf_push_uleb128 _)); [apply writes_uleb; unfold in_u; lia|].
  apply (writes_seq (each _ _)).
  - apply writes_each. intros v [i Hi]%list_elem_of_lookup. apply writes_ktabk, (Ha i).
    by apply lookup_take_Some in Hi as [Hi _].
  - apply (writes_each _ (enc_node s0)). intros n Hin%list_elem_of_In%in_rev%list_elem_of_In.
    destruct (live_nodes_in t n Hin) as (i & Hi & Hv). destruct (Hn i n Hi Hv).
    by apply (writes_seq (bcwrite_ktabk s0 (key n))); apply writes_ktabk.
Qed.

Lemma writes_kgc P k : kgc_ok s0 P k → writes (bcwrite_kgc1 s0 k) (enc_kgc s0 k).
Proof.
  destruct k as [a|t|u|u|re im|p]; cbn [bcwrite_kgc1 enc_kgc kgc_ok]; intros Hk.
  - by apply writes_str.
  - apply (writes_seq (uj_sbuf_push_uleb128 _)); [by apply writes_uleb|by apply writes_ktab].
  - apply (writes_seq (uj_sbuf_push_uleb128 _)); by apply writes_uleb.
  - apply (writes_seq (uj_sbuf_push_uleb128 _)); by apply writes_uleb.
  - done.
  - by apply writes_uleb.
Qed.

Lemma lall_Forall {A} (P : A → Prop) l : lall P l ↔ Forall P l.
Proof. induction l as [|x l IH]; simpl; [by rewrite Forall_nil|by rewrite Forall_cons, IH]. Qed.

(** ** Prototypes *)

Lemma in_s_u64 v : in_u 64 (u64 v).
Proof. by apply wrapu_range. Qed.

Lemma writes_lines (strip : bool) h :
  head_ok s0 h →
  writes (if strip then nothing else λ sb, bind (uj_sbuf_push_uleb128 (if strip then 0 else len (dbg h)) sb)
    (if negb ((if strip then 0 else len (dbg h)) =? 0)
     then λ sb, bind (uj_sbuf_push_uleb128 (u64 (firstline h)) sb) (uj_sbuf_push_uleb128 (u64 (numline h)))
     else nothing)) (enc_lines strip h).
Proof.
  intros Hh. unfold enc_lines. destruct strip; [apply writes_nothing|].
  destruct (ho_dbg _ _ Hh) as [_ Hd]. change (len (dbg h)) with (size (dbg h)).
  apply (writes_seq (uj_sbuf_push_uleb128 _)); [apply writes_uleb, size_u64; lia|].
  unfold size. destruct (dbg h); simpl; [apply writes_nothing|].
  apply (writes_seq (uj_sbuf_push_uleb128 _)); apply writes_uleb, in_s_u64.
Qed.

Lemma writes_body strip h ks P sb :
  head_ok s0 h → size ks < 2 ^ 32 → Forall (kgc_ok s0 P) ks → sb_wf sb →
  len (enc_body s0 startins strip h ks) + 10 ≤ LJ_MAX_SBUF →
  ∃ c, bcwrite_body s0 startins strip h ks sb = SOk (MkSbuf (enc_body s0 startins strip h ks) c) ∧
    sb_wf (MkSbuf (enc_body s0 startins strip h ks) c).
Proof.
  intros Hh Hk Hks W Hl.
  assert (sb_wf (uj_sbuf_reset sb)) as Wr.
  { destruct W as [? ?]. split; [|done]. unfold uj_sbuf_size in *. simpl. lia. }
  unfold bcwrite_body. cbv beta zeta. cbn [bind].
  enough (∀ f, writes f (enc_body s0 startins strip h ks) → f (uj_sbuf_reset sb) =
    f (uj_sbuf_reset sb) → ∃ c, f (uj_sbuf_reset sb) =
    SOk (MkSbuf (enc_body s0 startins strip h ks) c) ∧ sb_wf (MkSbuf (enc_body s0 startins strip h ks) c))
    as Hrun.
  2:{ intros f Hf _. apply (Hf _ Wr). unfold uj_sbuf_size. simpl. lia. }
  apply (Hrun (λ sb, bind (uj_sbuf_push_char _ sb) _)); [|done]. clear Hrun Wr W Hl sb.
  unfold enc_body. cbn [app].
  assert (∀ f g c os, in_u 8 c → f = uj_sbuf_push_char c → writes g os →
    writes (λ sb, bind (f sb) g) (c :: os)) as Wc.
  { intros f g c os Hc -> Hg. apply (writes_seq (uj_sbuf_push_char c) g [c]); [|done].
    by apply writes_char. }
  assert (∀ f g v os, in_u 64 v → f = uj_sbuf_push_uleb128 v → writes g os →
    writes (λ sb, bind (f sb) g) (uleb v ++ os)) as Wu.
  { intros f g v os Hv -> Hg. apply writes_seq; [|done]. by apply writes_uleb. }
  destruct (ho_bc _ _ Hh) as [Hbc Hnb], (ho_uv _ _ Hh) as [_ Huv], (ho_knum _ _ Hh) as [Hkn Hnk].
  apply Wc; [|done|].
  { unfold dump_flags. pose proof (ho_flags _ _ Hh).
    pose proof (land_mask_range (flags h) (Z.lor (Z.lor PROTO_CHILD PROTO_VARARG) PROTO_FFI) ltac:(done))
      as Hm. change (Z.lor (Z.lor PROTO_CHILD PROTO_VARARG) PROTO_FFI) with 7 in *. unfold in_u. lia. }
  apply Wc; [apply Hh|done|]. apply Wc; [apply Hh|done|].
  apply Wc; [unfold in_u, size in *; lia|done|].
  apply Wu; [apply size_u64; lia|done|]. apply Wu; [apply size_u64; lia|done|].
  apply Wu; [unfold in_u; lia|done|].
  apply writes_seq; [by apply writes_lines|].
  apply writes_seq; [by apply writes_bytecode|].
  apply writes_seq; [apply writes_block|].
  apply writes_seq.
  { apply writes_each. intros k Hin. rewrite Forall_forall in Hks. by eapply writes_kgc, Hks. }
  apply writes_seq.
  { apply writes_each. intros v Hin. rewrite Forall_forall in Hkn. by apply writes_uleb, Hkn. }
  unfold dump_dbg. destruct strip; [apply writes_nothing|].
  change (len (dbg h)) with (Z.of_nat (length (dbg h))).
  destruct (dbg h) eqn:Ed; simpl; [apply writes_nothing|]. rewrite <-Ed. apply writes_block.
Qed.

(** The blocks that the caller is given. *)
Fixpoint proto_blocks (strip : bool) (pt : GCproto) : list (list Z) :=
  let '(MkProto h ks) := pt in
  foldr (λ k bs, bs ++ match k with KChild p => proto_blocks strip p | _ => [] end) [] ks ++
  [uleb (size (enc_body s0 startins strip h ks)); enc_body s0 startins strip h ks].

Definition dump_blocks (strip : bool) (pt : GCproto) : list (list Z) :=
  enc_header s0 strip (head pt) :: proto_blocks strip pt ++ [[0]].

Lemma proto_blocks_concat strip pt : concat (proto_blocks strip pt) = enc_proto s0 startins strip pt.
Proof.
  induction pt as [h ks IH] using proto_rect'. cbn [proto_blocks enc_proto].
  rewrite concat_app. f_equal; [|simpl; by rewrite app_nil_r].
  induction ks as [|k ks IHk]; simpl; [done|]. destruct IH as [Hk Hks].
  rewrite concat_app, IHk by done. f_equal. by destruct k.
Qed.

Lemma dump_blocks_concat strip pt : concat (dump_blocks strip pt) = enc_dump s0 startins strip pt.
Proof.
  unfold dump_blocks, enc_dump. cbn [concat]. rewrite concat_app, proto_blocks_concat. done.
Qed.

(** The caller's function is called until it returns a status other than 0. *)
Section Feed.
Context {W : Type} (wfunc : W → list Z → W * Z).

Definition step (x : W * Z) (b : list Z) : W * Z := if x.2 =? 0 then wfunc x.1 b else x.
Definition feed (x : W * Z) (bs : list (list Z)) : W * Z := foldl step x bs.

Lemma call_step b c :
  call_writer wfunc b c =
  MkCtx W (wsb _ c) (step (wdata _ c, status _ c) b).1 (step (wdata _ c, status _ c) b).2.
Proof.
  destruct c as [sb w st]. unfold call_writer, step. simpl. destruct (st =? 0); [|done].
  by destruct (wfunc w b).
Qed.

Definition fed (c c' : wctx W) (bs : list (list Z)) : Prop :=
  sb_wf (wsb _ c') ∧ (wdata _ c', status _ c') = feed (wdata _ c, status _ c) bs.

Lemma bcwrite_proto_feed strip pt c :
  proto_ok s0 pt → len (enc_proto s0 startins strip pt) + 10 ≤ LJ_MAX_SBUF → sb_wf (wsb _ c) →
  ∃ c', bcwrite_proto s0 startins wfunc strip pt c = WOk W c' ∧ fed c c' (proto_blocks strip pt).
Proof.
  revert c. induction pt as [h ks IH] using proto_rect'. intros c Hok Hl Wc.
  destruct Hok as (Hh & Hn & Hflag & Hks). cbn [bcwrite_proto proto_blocks enc_proto] in *.
  rewrite len_app in Hl. pose proof (len_nonneg (frame (enc_body s0 startins strip h ks))) as Hfr.
  assert (∃ c', (if negb (Z.land (flags h) PROTO_CHILD =? 0) then
       foldr (λ k r, wbind r (λ c, match k with
         | KChild p => bcwrite_proto s0 startins wfunc strip p c | _ => WOk W c end)) (WOk W c) ks
     else WOk W c) = WOk W c' ∧
     fed c c' (foldr (λ k bs, bs ++ match k with KChild p => proto_blocks strip p | _ => [] end) [] ks))
    as (c1 & -> & W1 & F1).
  { destruct (negb (Z.land (flags h) PROTO_CHILD =? 0)) eqn:Ef; bprop.
    - clear Hflag Hn. assert (len (foldr (λ k os, os ++ match k with
        | KChild p => enc_proto s0 startins strip p | _ => [] end) [] ks) + 10 ≤ LJ_MAX_SBUF) as Hl' by lia.
      clear Hl Hfr. revert Hl'. induction ks as [|k ks IHk]; intros Hl; [by exists c|].
      cbn [foldr] in *. rewrite len_app in Hl.
      destruct IH as [IHc IHks], Hks as [Hk Hks].
      pose proof (len_nonneg (match k with KChild p => enc_proto s0 startins strip p | _ => [] end)).
      pose proof (len_nonneg (foldr (λ k os, os ++ match k with
        | KChild p => enc_proto s0 startins strip p | _ => [] end) [] ks)).
      destruct IHk as (c1 & -> & W1 & F1); [done|done|lia|]. simpl.
      destruct k as [a|t|u|u|re im|p]; try (exists c1; split; [done|]; split; [done|]; by rewrite app_nil_r).
      destruct (IHc c1) as (c2 & -> & W2 & F2); [done|lia|done|].
      exists c2. split; [done|]. split; [done|]. unfold feed in *. rewrite foldl_app, <-F1. done.
    - exists c. split; [done|]. split; [done|]. specialize (Hflag Ef).
      enough (foldr (λ k bs, bs ++ match k with KChild p => proto_blocks strip p | _ => [] end) [] ks = [])
        as -> by done.
      clear -Hflag. induction Hflag as [|k ks Hk Hks IH]; simpl; [done|]. rewrite IH. by destruct k. }
  apply lall_Forall in Hks. cbn [wbind].
  assert (in_u 64 (size (enc_body s0 startins strip h ks)) ∧
    len (enc_body s0 startins strip h ks) + 10 ≤ LJ_MAX_SBUF) as [Hu Hb].
  { unfold frame in *. rewrite len_app in *.
    pose proof (len_nonneg (enc_body s0 startins strip h ks)).
    pose proof (len_nonneg (uleb (size (enc_body s0 startins strip h ks)))).
    pose proof (len_nonneg (foldr (λ k os, os ++ match k with
        | KChild p => enc_proto s0 startins strip p | _ => [] end) [] ks)).
    change (size (enc_body s0 startins strip h ks)) with (len (enc_body s0 startins strip h ks)) in *.
    unfold LJ_MAX_SBUF, in_u in *. lia. }
  destruct (writes_body strip h ks _ (wsb _ c1) Hh Hn Hks W1 Hb) as (cp & E & Wb).
  unfold on_sb. rewrite E. cbn [wbind]. unfold emit_proto. cbn [wsb].
  change (uj_sbuf_size (MkSbuf (enc_body s0 startins strip h ks) cp))
    with (size (enc_body s0 startins strip h ks)).
  destruct (uleb_spec _ Hu) as [-> _].
  rewrite !call_step. cbn [wsb wdata status data]. eexists. split; [done|]. split; [exact Wb|].
  cbn [wdata status]. unfold feed in *. rewrite foldl_app, <-F1. cbn [foldl].
  rewrite <-!surjective_pairing. done.
Qed.

(** The whole writer. *)
Lemma lj_bcwrite_feed errst strip pt w :
  proto_ok s0 pt → len (enc_dump s0 startins strip pt) + 10 ≤ LJ_MAX_SBUF →
  lj_bcwrite s0 startins wfunc errst strip pt w = Some (feed (w, 0) (dump_blocks strip pt)).
Proof.
  intros Hok Hl. unfold enc_dump in Hl. rewrite !len_app in Hl.
  pose proof (len_nonneg (enc_header s0 strip (head pt))).
  pose proof (len_nonneg (enc_proto s0 startins strip pt)).
  assert (len [0] = 1) as E0 by done. rewrite E0 in Hl.
  assert (head_ok s0 (head pt)) as Hh by (destruct pt; apply Hok).
  unfold lj_bcwrite, cpwriter.
  assert (∃ sb, on_sb (uj_sbuf_reserve 1024) (MkCtx W uj_sbuf_init w 0) = WOk W (MkCtx W sb w 0) ∧ sb_wf sb)
    as (sb & -> & Wsb).
  { unfold on_sb. cbn [wsb wdata status].
    destruct (reserve_spec 1024 uj_sbuf_init) as [(c & -> & _ & _ & Wc & _)|(_ & Ht & _)].
    - split; [done|by left].
    - lia.
    - by eexists.
    - unfold LJ_MAX_SBUF in Ht. lia. }
  cbn [wbind].
  assert (∃ sb', bcwrite_header s0 wfunc strip pt (MkCtx W sb w 0) =
    (let (w, st) := wfunc w (enc_header s0 strip (head pt)) in WOk W (MkCtx W sb' w st)) ∧ sb_wf sb')
    as (sb' & -> & Wsb').
  { unfold bcwrite_header, on_sb. cbn [wsb wdata status bind].
    assert (sb_wf (uj_sbuf_reset sb)) as Wr.
    { destruct Wsb as [? ?]. split; [|done]. unfold uj_sbuf_size in *. simpl. lia. }
    assert (∀ f g c os, in_u 8 c → f = uj_sbuf_push_char c → writes g os →
      writes (λ sb, bind (f sb) g) (c :: os)) as Wch.
    { intros f g c os Hc -> Hg. apply (writes_seq (uj_sbuf_push_char c) g [c]); [|done].
      by apply writes_char. }
    match goal with |- context [bind (uj_sbuf_push_char BCDUMP_HEAD1 _) ?g] =>
      assert (writes (λ sb, bind (uj_sbuf_push_char BCDUMP_HEAD1 sb) g) (enc_header s0 strip (head pt)))
        as Hw end.
    { unfold enc_header. cbn [app]. repeat (apply Wch; [done|done|]). apply Wch; [|done|].
      - unfold enc_flags. destruct strip, (Z.land (flags (head pt)) PROTO_FFI =? 0); by vm_compute.
      - destruct strip; [apply writes_nothing|].
        apply (writes_str 0 (chunkname (head pt))); [apply Hh|done]. }
    destruct (Hw _ Wr) as (c & E & Wc); [unfold uj_sbuf_size; simpl; lia|].
    change (data (uj_sbuf_reset sb)) with (@nil Z) in *. cbn [app] in *.
    cbv beta in E. rewrite E. cbn [wbind wsb wdata status data].
    exists (MkSbuf (enc_header s0 strip (head pt)) c). split; [|done].
    by destruct (wfunc w (enc_header s0 strip (head pt))). }
  unfold dump_blocks, feed. cbn [foldl]. unfold step at 2. cbn [fst snd].
  change (0 =? 0) with true. cbv iota.
  destruct (wfunc w (enc_header s0 strip (head pt))) as [w1 st1]. cbn [wbind].
  destruct (bcwrite_proto_feed strip pt (MkCtx W sb' w1 st1) Hok ltac:(lia) Wsb') as (c & -> & Wc & F).
  cbn [wbind wdata status] in *. unfold bcwrite_footer. rewrite call_step.
  cbn [wdata status]. rewrite <-surjective_pairing, F, foldl_app. done.
Qed.

End Feed.
End Writer.
End BcWriteSpec.
