(* ===== verification/BcReadSpec.v ===== *)
(** * The reader understands the dump of a prototype

    [reads m os Q st st']: in a state whose buffered input starts with the octets
    [os] and whose stack is [st], [m] consumes exactly [os], leaves the stack
    [st'] and returns a value of [Q]; strings that were interned stay so. *)

From stdpp Require Import base decidable list numbers option sets.
From Stdlib Require Import ZArith Lia.
From S2P Require Import Prelude Leb128 Obj Tab TabChain TabWf TabPut TabResize TabRehash TabSpec.
From S2P Require Import Cstr Sbuf Bc Str Proto BcWrite BcRead BcSpec BcWriteSpec.

Local Open Scope Z_scope.

Module BcReadSpec.
Import Leb128 Obj Tab TabChain TabWf TabPut TabResize TabRehash TabSpec.
Import Sbuf Bc Proto BcWrite BcRead BcSpec BcWriteSpec.

Section Reads.
Context {S : Type} `{StrTable S} `{ObjHeap} (s0 : S).

Definition ext (s s' : S) : Prop :=
  ∀ b, st_holds s b → st_holds s' b ∧ st_data s' b = st_data s b.

Lemma ext_trans s1 s2 s3 : ext s1 s2 → ext s2 s3 → ext s1 s3.
Proof.
  intros E1 E2 b Hb. destruct (E1 b Hb) as [H2 D2]. destruct (E2 b H2) as [H3 D3].
  split; [done|congruence].
Qed.

(** The state after reading: input, stack and strings have changed. *)
Definition upd (tl : list Z) (st : list GCproto) (s : S) (ls : LexState S) : LexState S :=
  MkLS tl (sb ls) (chunks ls) (current ls) (rflags ls) (rname ls) (chunkarg ls) st s.

Lemma upd_upd tl1 st1 s1 tl2 st2 s2 ls : upd tl2 st2 s2 (upd tl1 st1 s1 ls) = upd tl2 st2 s2 ls.
Proof. done. Qed.

Context (fl nm : Z).

Definition reads {A} (m : R A) (os : list Z) (Q : A → Prop) (st st' : list GCproto) : Prop :=
  ∀ ls tl, rest ls = os ++ tl → stack ls = st → rflags ls = fl → rname ls = nm → ext s0 (strs ls) →
    ∃ a s', m ls = ROk a (upd tl st' s' ls) ∧ Q a ∧ ext s0 s'.

Lemma reads_bind {A B} (m : R A) (f : A → R B) os1 os2 Q1 Q2 st1 st2 st3 :
  reads m os1 Q1 st1 st2 → (∀ a, Q1 a → reads (f a) os2 Q2 st2 st3) →
  reads (rbind m f) (os1 ++ os2) Q2 st1 st3.
Proof.
  intros Hm Hf ls tl Hr Hs Hfl Hnm He. rewrite <-app_assoc in Hr.
  destruct (Hm ls _ Hr Hs Hfl Hnm He) as (a & s1 & E & HQ & E1).
  destruct (Hf a HQ (upd (os2 ++ tl) st2 s1 ls) tl) as (b & s2 & E' & HQ' & E2); [done..|].
  exists b, s2. unfold rbind. by rewrite E, E'.
Qed.

(** The same with an exact value. *)
Lemma reads_then {A B} (m : R A) (f : A → R B) os1 os2 a Q st1 st2 st3 :
  reads m os1 (eq a) st1 st2 → reads (f a) os2 Q st2 st3 → reads (rbind m f) (os1 ++ os2) Q st1 st3.
Proof. intros Hm Hf. eapply reads_bind; [done|]. by intros ? <-. Qed.

Lemma reads_ret {A} (a : A) (Q : A → Prop) st : Q a → reads (ret a) [] Q st st.
Proof.
  intros HQ ls tl Hr Hs _ _ He. exists a, (strs ls). split; [|done]. unfold ret. f_equal.
  destruct ls; simpl in *; by subst.
Qed.

Lemma reads_weaken {A} (m : R A) os (Q Q' : A → Prop) st st' :
  (∀ a, Q a → Q' a) → reads m os Q st st' → reads m os Q' st st'.
Proof.
  intros HQ Hm ls tl Hr Hs Hfl Hnm He. destruct (Hm ls tl Hr Hs Hfl Hnm He) as (a & s & ? & ? & ?).
  exists a, s. auto.
Qed.

Lemma reads_gets {A} (f : LexState S → A) a st :
  (∀ ls, stack ls = st → rflags ls = fl → rname ls = nm → f ls = a) → reads (gets f) [] (eq a) st st.
Proof.
  intros Hf ls tl Hr Hs Hfl Hnm He. exists a, (strs ls). unfold gets. rewrite (Hf ls) by done.
  split; [|done]. f_equal. destruct ls; simpl in *; by subst.
Qed.

(** ** Numbers and blocks *)

Lemma reads_byte b st : reads bcread_byte [b] (eq b) st st.
Proof.
  intros ls tl Hr Hs _ _ He. exists b, (strs ls). unfold bcread_byte. rewrite Hr. simpl.
  split; [|done]. unfold upd, set_rest. by rewrite Hs.
Qed.

Lemma uleb_read v tl :
  in_u 64 v → read_uleb128_n (uleb v ++ tl) (len (uleb v ++ tl)) = ReadOk v (len (uleb v)).
Proof.
  intros Hv. destruct (uleb_spec v Hv) as [Hw Hl]. pose proof (len_nonneg tl).
  destruct (write_uleb128_loop_spec _ _ _ (proj1 Hv) Hw) as (Hf & Hd & _).
  unfold read_uleb128_n, read_uleb128_gen.
  rewrite read_uleb128_loop_framed by (done || (simpl; lia)).
  rewrite len_app, (proj2 (Z.ltb_ge _ _)) by lia. simpl. f_equal.
  rewrite Hd, Z.mul_1_r. unfold u64. by apply wrapu_id.
Qed.

Lemma qword_run v r (ls : LexState S) :
  in_u 64 v → rest ls = uleb v ++ r → bcread_qword ls = ROk v (set_rest r ls).
Proof.
  intros Hv Hr. unfold bcread_qword, avail. rewrite Hr, uleb_read by done.
  unfold len. by rewrite Nat2Z.id, drop_app_length.
Qed.

Lemma reads_qword v st : in_u 64 v → reads bcread_qword (uleb v) (eq v) st st.
Proof.
  intros Hv ls tl Hr Hs _ _ He. exists v, (strs ls).
  rewrite (qword_run v tl) by done. split; [|done]. unfold upd, set_rest. by rewrite Hs.
Qed.

Lemma reads_dword v st : in_u 32 v → reads bcread_dword (uleb v) (eq v) st st.
Proof.
  intros Hv. unfold bcread_dword. rewrite <-(app_nil_r (uleb v)).
  eapply reads_then; [apply reads_qword; unfold in_u in *; lia|].
  apply reads_ret. unfold u32. by rewrite wrapu_id.
Qed.

Lemma reads_mem os st : reads (bcread_mem (len os)) os (eq os) st st.
Proof.
  intros ls tl Hr Hs _ _ He. exists os, (strs ls). unfold bcread_mem, avail. rewrite Hr, len_app.
  pose proof (len_nonneg tl). rewrite (proj2 (Z.ltb_ge _ _)) by lia. split; [|done].
  unfold upd, set_rest, len. by rewrite Nat2Z.id, take_app_length, drop_app_length, Hs.
Qed.

Lemma reads_new_str a st : str_ok s0 a → reads (new_str (st_data s0 a)) [] (eq a) st st.
Proof.
  intros [Hh Hl] ls tl Hr Hs _ _ He. destruct (He a Hh) as [Hh' Hd].
  destruct (st_new_again (strs ls) a Hh') as (s' & E & He'); [by rewrite Hd|].
  exists a, s'. unfold new_str. rewrite <-Hd, E. split; [|split; [done|by eapply ext_trans]].
  f_equal. destruct ls; simpl in *; by subst.
Qed.

(** The octets of a string after its length. *)
Lemma reads_str {A} base a (f : Z → A) st :
  str_ok s0 a →
  reads (rbind (bcread_mem (base + len (st_data s0 a) - base))
          (λ p, rbind (new_str p) (λ a, ret (f a)))) (st_data s0 a) (eq (f a)) st st.
Proof.
  intros Ha. replace (base + len (st_data s0 a) - base) with (len (st_data s0 a)) by lia.
  rewrite <-(app_nil_r (st_data s0 a)) at 2. eapply reads_then; [apply reads_mem|].
  rewrite <-(app_nil_r []). eapply reads_then; [by apply reads_new_str|]. by apply reads_ret.
Qed.

Lemma str_len_u32 base a : str_ok s0 a → 0 ≤ base < 128 → in_u 32 (base + len (st_data s0 a)).
Proof.
  intros [_ Hl] Hb. pose proof (len_nonneg (st_data s0 a)). unfold in_u, Str.LJ_MAX_STR in *. lia.
Qed.

(** Elements that are read one after the other. *)
Lemma reads_repeat {A} (m : R A) (g : A → list Z) l st :
  (∀ x, x ∈ l → reads m (g x) (eq x) st st) →
  reads (repeatm (length l) m) (concat (g <$> l)) (eq l) st st.
Proof.
  induction l as [|x l IH]; intros Hl; simpl; [by apply reads_ret|].
  eapply reads_then; [apply Hl; by left|]. rewrite <-(app_nil_r (concat _)).
  eapply reads_then; [apply IH; intros y Hy; apply Hl; by right|]. by apply reads_ret.
Qed.

(** ** Template tables *)

Lemma reads_ktabk o st : kval_ok s0 o → reads bcread_ktabk (enc_ktabk s0 o) (eq o) st st.
Proof.
  intros Ho. unfold bcread_ktabk.
  assert (∀ tp f os, in_u 32 tp → os = uleb tp → reads (f tp) [] (eq o) st st →
    reads (rbind bcread_dword f) os (eq o) st st) as Htag.
  { intros tp f os Htp -> Hf. rewrite <-(app_nil_r (uleb tp)). eapply reads_then; [|done].
    by apply reads_dword. }
  destruct o as [|b|p|[] p|n]; try done; cbn [enc_ktabk].
  - apply (Htag 0); [by vm_compute|done|]. by apply reads_ret.
  - apply (Htag (if b then 2 else 1)); [by destruct b|by destruct b|].
    destruct b; by apply reads_ret.
  - unfold enc_str. eapply reads_then; [apply reads_dword; by apply str_len_u32|].
    pose proof (len_nonneg (st_data s0 p)). rewrite (proj2 (Z.leb_le _ _)) by lia.
    by apply (reads_str _ _ (TGCV GT_STR)).
  - change (BCDUMP_KTAB_NUM :: uleb n) with (uleb 4 ++ uleb n).
    eapply reads_then; [by apply reads_dword|]. simpl.
    rewrite <-(app_nil_r (uleb n)). eapply reads_then; [by apply reads_qword|]. by apply reads_ret.
Qed.

Lemma tab_set_run t k v t' :
  tab_put k v t = Ret () t' → ∃ s t1, tab_set k t = Ret s t1 ∧ slot_write v s t1 = t'.
Proof.
  unfold tab_put, M_bind. destruct (tab_set k t) as [s t1| |]; try done.
  unfold store. intros [= <-]. by exists s, t1.
Qed.

Lemma reads_ktab_hash ns t st :
  twf t → mutable t → nodes_ok ns →
  (∀ n, n ∈ ns → val n ≠ TNil ∧ kval_ok s0 (key n) ∧ kval_ok s0 (val n)) →
  nkeys (node t) + count_out (asize t) ns ≤ TabPut.cap (hmask t) →
  (∀ k v w, livepair ns k v → ¬ tlive t k w) →
  reads (ktab_hash (length ns) t) (concat (enc_node s0 <$> ns))
    (λ t', ∃ c, moved_in t (livepair ns) c t') st st.
Proof.
  revert t. induction ns as [|n ns IH]; intros t W Hmut Hok Hin Hcap Hnew; cbn [length ktab_hash].
  { apply reads_ret. exists 0. eapply moved_in_ext, moved_in_refl; auto.
    intros k v. split; [done|]. by intros (j & ? & ? & _). }
  destruct (Hin n ltac:(by left)) as (Hv & Hkk & Hkv).
  destruct (proj1 Hok 0%nat n eq_refl Hv) as [Hk Hc].
  simpl in Hcap. pose proof (count_out_nonneg (asize t) ns) as Hco.
  assert (tvisnil (val n) = false) as En by (by destruct (val n)). rewrite En in Hcap. simpl in Hcap.
  destruct (reinsert_one REHASH_DEPTH t (key n) (val n)) as (t' & Hrun & M1); auto.
  { intros w. apply (Hnew _ (val n)). rewrite livepair_cons. auto. }
  { intros E. rewrite E in Hcap. simpl in Hcap. lia. }
  destruct (tab_set_run t (key n) (val n) t' Hrun) as (sl & t1 & Es & Ew).
  cbn [fmap list_fmap concat]. unfold enc_node at 1. rewrite <-app_assoc.
  eapply reads_then; [by apply reads_ktabk|]. rewrite Es. simpl.
  eapply reads_then; [by apply reads_ktabk|]. rewrite Ew.
  assert (asize t' = asize t) as Ea by (unfold asize; by rewrite (mi_asize _ _ _ _ M1)).
  eapply reads_weaken, IH.
  - intros t2 [c M2]. eexists. eapply moved_in_ext; [|eapply moved_in_trans; eauto].
    intros k v. rewrite livepair_cons. naive_solver.
  - apply M1.
  - apply M1.
  - by eapply nodes_ok_tail.
  - intros m Hm. apply Hin. by right.
  - rewrite (mi_hmask _ _ _ _ M1), Ea. pose proof (mi_nkeys _ _ _ _ M1) as Hnk.
    destruct (in_range (asize t) (key n)); simpl in *; lia.
  - intros k v w Hp Hl.
    destruct (livepair_key_ok ns k v (nodes_ok_tail _ _ Hok) Hp) as [Hk' Hc'].
    rewrite (mi_live _ _ _ _ M1) in Hl by done. destruct Hl as [[-> _]|Hl].
    + eapply nodes_ok_head; [done| |done]. apply Hk.
    + apply (Hnew k v w); [|done]. rewrite livepair_cons. auto.
Qed.

Lemma nodes_ok_cons n ns :
  nodes_ok (n :: ns) ↔ (val n ≠ TNil → key_ok (key n) ∧ canon (key n)) ∧
    (key n ≠ TNil → ∀ m, m ∈ ns → key m ≠ key n) ∧ nodes_ok ns.
Proof.
  split.
  - intros Hok. split_and!; [apply (proj1 Hok 0%nat n eq_refl)| |by eapply nodes_ok_tail].
    intros Hk m [i Hi]%list_elem_of_lookup E.
    by discriminate (proj2 Hok 0%nat (Datatypes.S i) n m eq_refl Hi (eq_sym E) Hk).
  - intros (Hn & Hd & [A B]). split.
    + intros [|i] m Hm; simpl in Hm; [by injection Hm as <-|by apply (A i)].
    + intros [|i] [|j] ni nj Hi Hj E Hk; simpl in Hi, Hj; simplify_eq; [done|..].
      * destruct (Hd Hk nj); [by eapply list_elem_of_lookup_2|done].
      * rewrite E in Hk. destruct (Hd Hk ni); [by eapply list_elem_of_lookup_2|done].
      * f_equal. by apply (B i j ni nj).
Qed.

Lemma nodes_ok_perm ns ns' : ns ≡ₚ ns' → nodes_ok ns → nodes_ok ns'.
Proof.
  induction 1 as [|n ns ns' P IH|n m ns|ns1 ns2 ns3 _ IH1 _ IH2]; [done|..|auto].
  - rewrite !nodes_ok_cons. intros (? & Hd & ?). split_and!; auto. intros Hk m. rewrite <-P. auto.
  - rewrite !nodes_ok_cons. intros (H1 & D1 & H2 & D2 & Hok). split_and!; auto.
    + intros Hk x [->|Hx]%elem_of_cons; [|by apply D2].
      intros E. destruct (D1 ltac:(congruence) n); [by left|congruence].
    + intros Hk x Hx. apply D1; [done|by right].
Qed.

Lemma nodes_ok_live ns : nodes_ok ns → nodes_ok (rev (filter node_live ns)).
Proof.
  intros Hok. apply (nodes_ok_perm (filter node_live ns)); [apply Permutation_rev|].
  induction ns as [|n ns IH]; [done|]. rewrite nodes_ok_cons in Hok. destruct Hok as (Hn & Hd & Hok).
  rewrite filter_cons. case_decide; [|by apply IH]. rewrite nodes_ok_cons. split_and!; auto.
  intros Hk m [_ Hm]%list_elem_of_filter. by apply Hd.
Qed.

Lemma live_pairs t k v : twf t → livepair (rev (live_nodes t)) k v ↔ livepair (node t) k v.
Proof.
  intros W. unfold live_nodes. destruct (0 <? hmask t) eqn:E; bprop.
  - split.
    + intros (i & n & Hn & Hk & Hv & Hl). apply list_elem_of_lookup_2 in Hn.
      rewrite list_elem_of_In, <-in_rev, <-list_elem_of_In in Hn.
      apply list_elem_of_filter in Hn as [_ [j Hj]%list_elem_of_lookup]. by exists j, n.
    + intros (i & n & Hn & Hk & Hv & Hl).
      assert (n ∈ rev (filter node_live (node t))) as [j Hj]%list_elem_of_lookup.
      { rewrite list_elem_of_In, <-in_rev, <-list_elem_of_In. apply list_elem_of_filter.
        split; [|by eapply list_elem_of_lookup_2]. unfold node_live. subst v. by destruct (val n). }
      by exists j, n.
  - pose proof (tw_free _ W) as Hf. unfold freetop_ok in Hf.
    destruct (hw_pow _ _ (tw_hash _ W)) as (b & Hb & Eb). pose proof (Z.pow_pos_nonneg 2 b).
    rewrite (proj2 (Z.eqb_eq _ _)) in Hf by lia. destruct Hf as [-> _]. simpl. split.
    + by intros (i & n & ? & _).
    + intros ([|i] & n & Hn & _ & <- & Hv); [|done]. simpl in Hn. by injection Hn as <-.
Qed.

Lemma array_len_nil vs i v : (array_len vs ≤ i)%nat → vs !! i = Some v → v = TNil.
Proof.
  revert i. induction vs as [|x vs IH]; intros i Hi Hv; [done|]. simpl in Hi.
  destruct i as [|i]; simpl in Hv.
  - injection Hv as ->. destruct (decide (array_len vs = 0%nat)), (tvisnil v) eqn:E; try lia.
    by destruct v.
  - apply (IH i); [|done]. destruct (decide (array_len vs = 0%nat)), (tvisnil x); lia.
Qed.

Lemma array_len_pairs vs k v : array_pairs 0 (take (array_len vs) vs) k v ↔ array_pairs 0 vs k v.
Proof.
  unfold array_pairs. split; intros (j & Hk & Hj & Hv); exists j; (split; [done|]); (split; [|done]).
  - by apply lookup_take_Some in Hj as [Hj _].
  - apply lookup_take_Some. split; [done|]. apply Nat.nle_gt. intros Hle.
    by apply Hv, (array_len_nil vs j).
Qed.

Lemma newtab_rehashed a h :
  0 ≤ a ≤ LJ_MAX_ASIZE → 0 ≤ h ≤ LJ_MAX_HBITS →
  ∃ c, lj_tab_new a h = Ret () (rehashed h (set_array c (replicate (Z.to_nat a) TNil)
    (MkTab 0 0xff 0 None [] [empty_node] 0 0))).
Proof.
  intros Ha Hh. unfold lj_tab_new, newtab. destruct ((0 <? a) && (a <=? LJ_MAX_COLOSIZE)).
  - rewrite newhpart_rehashed by done. by eexists.
  - rewrite (proj2 (Z.ltb_ge _ _)) by lia. rewrite newhpart_rehashed by done. by eexists.
Qed.

Lemma reads_ktab t st : ktab_ok s0 t → reads bcread_ktab (enc_ktab s0 t) (same_tab t) st st.
Proof.
  intros [W Ha Hn]. unfold bcread_ktab, enc_ktab.
  pose proof (array_len_le (array t)) as Hal. pose proof (live_nodes_size t) as Hls.
  destruct (ktab_sizes t W) as [Sa Sn].
  set (vs := take (array_len (array t)) (array t)).
  assert (0 ≤ size vs ≤ LJ_MAX_ASIZE) as Hvs.
  { unfold vs, size in *. rewrite length_take. change LJ_MAX_ASIZE with (2 ^ 27 + 1). lia. }
  assert (0 ≤ size (live_nodes t)) by (unfold size; lia).
  eapply reads_then; [apply reads_dword; change LJ_MAX_ASIZE with (2 ^ 27 + 1) in Hvs; unfold in_u; lia|].
  eapply reads_then; [apply reads_dword; unfold in_u; lia|].
  destruct (hsize2hbits_ok (size (live_nodes t))) as (Hb0 & Hcap & Hbm); [lia|].
  specialize (Hbm ltac:(change LJ_MAX_HBITS with 26; lia)).
  set (hb := hsize2hbits (size (live_nodes t))) in *. clearbody hb.
  destruct (newtab_rehashed (size vs) hb Hvs ltac:(lia)) as [c ->]. cbn [in_tab colo].
  unfold size at 1. rewrite Nat2Z.id.
  eapply reads_then.
  { apply reads_repeat. intros v [i Hi]%list_elem_of_lookup. apply reads_ktabk, (Ha i).
    by apply lookup_take_Some in Hi as [Hi _]. }
  set (t1 := set_array _ _ _).
  change t1 with (rehashed hb (set_array c vs (MkTab 0 0xff 0 None [] [empty_node] 0 0))) in *.
  clear t1. set (t1 := rehashed _ _).
  assert (asize t1 = size vs) as Ea by done.
  assert (twf t1) as W1.
  { apply twf_rehashed; [lia|]. unfold asize. simpl. fold (size vs). lia. }
  assert (mutable t1) as Hm1 by done.
  assert (size (live_nodes t) = size (rev (live_nodes t))) as Er by (unfold size; by rewrite length_rev).
  unfold size at 1. rewrite Nat2Z.id, <-(length_rev (live_nodes t)).
  assert (nodes_ok (rev (live_nodes t))) as Hok.
  { unfold live_nodes. destruct (0 <? hmask t); [|by split; intros []]. apply nodes_ok_live.
    eapply hwf_nodes_ok, W. }
  assert (∀ k v, livepair (node t1) k v ↔ False) as Hl1
    by (intros k v; split; [apply fresh_not_live|done]).
  assert (∀ k v, key_ok k → canon k → tlive t1 k v ↔ array_pairs 0 (array t) k v) as Ht1.
  { intros k v Hk Hc. rewrite tlive_parts by (apply W1 || done). rewrite (Hl1 k v).
    simpl. unfold vs. rewrite array_len_pairs. tauto. }
  eapply reads_weaken, reads_ktab_hash; [|done|done|done|..].
  - intros t2 [cc M]. split; [apply M|]. split; [apply M|]. intros k Hk.
    rewrite !get_is_ref by (done || apply M). f_equal. apply same_map_get; [done|apply M| |done].
    intros k0 v0 Hk0 Hc0. rewrite (mi_live _ _ _ _ M), live_pairs, Ht1 by done.
    rewrite (tlive_parts t) by (done || apply W). tauto.
  - intros n Hin. rewrite list_elem_of_In, <-in_rev, <-list_elem_of_In in Hin.
    destruct (live_nodes_in t n Hin) as (i & Hi & Hv). by destruct (Hn i n Hi Hv).
  - pose proof (count_out_length (asize t1) (rev (live_nodes t))) as Hco. fold (size (rev (live_nodes t))) in Hco.
    unfold t1 at 3. rewrite cap_rehashed by done. unfold t1 at 1. simpl. rewrite nkeys_fresh. lia.
  - intros k v w Hp Hl. destruct (livepair_key_ok _ k v Hok Hp) as [Hk Hc].
    rewrite Ht1 in Hl by done. rewrite live_pairs in Hp by done.
    destruct Hp as (i & n & Hi & <- & _ & _). destruct Hl as (j & Ej & Hj & Hwn).
    apply lookup_lt_Some in Hj. pose proof (tw_disj _ W i n Hi) as Hdis.
    assert (arr_index t (key n) = Some j); [|congruence].
    apply arr_index_iff; [apply W|done..].
Qed.

(** ** Constants *)

(** The prototypes [cs] on the stack are what the children among [ks] load as. *)
Fixpoint kids (R : GCproto → GCproto → Prop) (ks : list (kgc GCproto)) (cs : list GCproto) : Prop :=
  match ks with
  | [] => cs = []
  | KChild p :: ks => ∃ c cs', cs = c :: cs' ∧ R p c ∧ kids R ks cs'
  | _ :: ks => kids R ks cs
  end.

Lemma reads_kgc1 P L R k st st' :
  kgc_ok s0 P k → kgc_loadable L k → (if k is KChild p then ∃ c, st = c :: st' ∧ R p c else st = st') →
  reads bcread_kgc1 (enc_kgc s0 k) (kgc_loaded R k) st st'.
Proof.
  intros Hk Hld Hst. unfold bcread_kgc1.
  assert (∀ tp (f : Z → BcRead.R (kgc GCproto)) os Q, in_u 32 tp → reads (f tp) os Q st st' →
    reads (rbind bcread_dword f) (uleb tp ++ os) Q st st') as Htag.
  { intros tp f os Q Htp Hf. eapply reads_then; [|done]. by apply reads_dword. }
  destruct k as [a|t|u|u|re im|p]; cbn [enc_kgc kgc_ok] in *; try subst st'.
  - unfold enc_str. apply Htag; [by apply str_len_u32|].
    pose proof (len_nonneg (st_data s0 a)). rewrite (proj2 (Z.leb_le _ _)) by lia.
    eapply reads_weaken, (reads_str _ _ KStr); [|done]. by intros ? <-.
  - apply Htag; [by vm_compute|]. simpl. rewrite <-(app_nil_r (enc_ktab s0 t)).
    eapply reads_bind; [by apply reads_ktab|]. intros t' Ht. by apply reads_ret.
  - done.
  - done.
  - done.
  - destruct Hst as (c & -> & Hc). rewrite <-(app_nil_r (uleb _)). apply Htag; [by vm_compute|]. simpl.
    intros ls tl Hr Hs _ _ He. exists (KChild c), (strs ls). rewrite Hs. split; [|done]. f_equal.
    destruct ls; simpl in *; by subst.
Qed.

Lemma reads_kgc P L R ks cs st :
  Forall (kgc_ok s0 P) ks → Forall (kgc_loadable L) ks → kids R ks cs →
  reads (repeatm (length ks) bcread_kgc1) (concat (enc_kgc s0 <$> ks)) (lall2 (kgc_loaded R) ks)
    (cs ++ st) st.
Proof.
  intros Hks Hlds. revert cs. induction Hks as [|k ks Hk Hks IH]; intros cs Hc.
  { simpl in Hc. subst cs. by apply reads_ret. }
  apply Forall_cons in Hlds as [Hld Hlds]. specialize (IH Hlds).
  cbn [length repeatm fmap list_fmap concat].
  assert (∃ cs1, kids R ks cs1 ∧
    (if k is KChild p then ∃ c, cs ++ st = c :: cs1 ++ st ∧ R p c else cs ++ st = cs1 ++ st))
    as (cs1 & Hc1 & Hst).
  { destruct k; simpl in Hc; try by exists cs. destruct Hc as (c & cs1 & -> & ? & ?).
    exists cs1. split; [done|]. by exists c. }
  eapply reads_bind; [by eapply reads_kgc1|]. intros k' Hk'.
  rewrite <-(app_nil_r (concat _)). eapply reads_bind; [by apply IH|].
  intros ks' Hks'. by apply reads_ret.
Qed.

(** ** Bytecode *)

Lemma words_le32 l : Forall (in_u 32) l → words (concat (le32 <$> l)) = l.
Proof.
  induction 1 as [|i l Hi Hl IH]; [done|]. cbn [fmap list_fmap concat]. unfold le32 at 1.
  cbn [app words]. rewrite IH. f_equal. unfold in_u in Hi. rewrite !Z.shiftl_mul_pow2, !Z.shiftr_div_pow2 by lia.
  unfold u8, wrapu. dlia.
Qed.

Lemma halfs_le16 l : Forall (in_u 16) l → halfs (concat (le16 <$> l)) = l.
Proof.
  induction 1 as [|i l Hi Hl IH]; [done|]. cbn [fmap list_fmap concat]. unfold le16 at 1.
  cbn [app halfs]. rewrite IH. f_equal. unfold in_u in Hi. rewrite !Z.shiftl_mul_pow2, !Z.shiftr_div_pow2 by lia.
  unfold u8, wrapu. dlia.
Qed.

Lemma length_le16 (l : list Z) : length (concat (le16 <$> l)) = (2 * length l)%nat.
Proof.
  induction l as [|i l IH]; [done|]. cbn [fmap list_fmap concat]. rewrite length_app, IH. simpl. lia.
Qed.

Lemma unpatch_u32 startins i : in_u 32 i → in_u 32 (unpatch_ins startins i).
Proof.
  intros Hi. destruct (le32_octets i Hi) as (E & Ho & _). rewrite E, !Forall_cons in Ho.
  destruct Ho as (H0' & H1' & H2' & H3' & _). unfold in_u in *.
  unfold unpatch_ins.
  destruct (bc_isiloop (bc_op i) || (bc_op i =? BC_JFORI)) eqn:Ei.
  { unfold bc_isiloop in Ei. repeat rewrite orb_true_iff in Ei. rewrite !Z.eqb_eq in Ei.
    unfold BC_IFORL, BC_FORL, BC_IITERL, BC_IITRNL, BC_ILOOP, BC_JFORI in *. rewrite pack_abc by lia. lia. }
  destruct (bc_isjloop (bc_op i)) eqn:Ej; [|done].
  unfold bc_isjloop in Ej. repeat rewrite orb_true_iff in Ej. rewrite !Z.eqb_eq in Ej.
  pose proof (wrapu_range 8 (bc_b (startins (bc_d_raw i))) ltac:(lia)) as Hb.
  pose proof (wrapu_range 8 (bc_c (startins (bc_d_raw i))) ltac:(lia)) as Hc. unfold in_u, u8 in *.
  unfold BC_JFORL, BC_FORL, BC_JITERL, BC_JITRNL, BC_JLOOP in *. rewrite pack_abc by lia. lia.
Qed.

Lemma dump_bc_u32 startins h : Forall (in_u 32) (bc h) → Forall (in_u 32) (dump_bc startins h).
Proof.
  intros Hb. unfold dump_bc. apply Forall_fmap.
  assert (Forall (in_u 32) (tail (bc h))) as Ht by (destruct Hb; [apply Forall_nil_2|done]).
  eapply Forall_impl; [exact Ht|]. intros i Hi. simpl.
  destruct (patched h); [apply unpatch_u32|]; by apply zero_ins_u32.
Qed.

Lemma reads_block os n st : n = len os → reads (bcread_block n) os (eq os) st st.
Proof. intros ->. apply reads_mem. Qed.

Lemma reads_bytecode flags framesize n l st :
  Forall (in_u 32) l → n = size l →
  reads (bcread_bytecode flags framesize (n + 1)) (concat (le32 <$> l))
    (eq (BCINS_AD (if Z.land flags PROTO_VARARG =? 0 then BC_FUNCF else BC_FUNCV) framesize 0 :: l)) st st.
Proof.
  intros Hl ->. unfold bcread_bytecode. rewrite <-(app_nil_r (concat _)).
  eapply reads_then; [apply reads_block; unfold len, size; rewrite length_le32; lia|].
  apply reads_ret. rewrite words_le32 by done. by destruct (Z.land flags PROTO_VARARG =? 0).
Qed.

Lemma reads_uv l st :
  Forall (in_u 16) l → reads (bcread_uv (size l)) (concat (le16 <$> l)) (eq l) st st.
Proof.
  intros Hl. unfold bcread_uv. destruct (negb (size l =? 0)) eqn:E; bprop.
  - rewrite <-(app_nil_r (concat _)).
    eapply reads_then; [apply reads_block; unfold len, size; rewrite length_le16; lia|].
    apply reads_ret. by rewrite halfs_le16.
  - destruct l; [by apply reads_ret|done].
Qed.

(** ** Prototypes *)

Lemma size_nat {A} (l : list A) : Z.to_nat (size l) = length l.
Proof. unfold size. lia. Qed.

Lemma reads_dword64 v st : in_u 64 v → reads bcread_dword (uleb v) (eq (u32 v)) st st.
Proof.
  intros Hv. unfold bcread_dword. rewrite <-(app_nil_r (uleb v)).
  eapply reads_then; [by apply reads_qword|]. by apply reads_ret.
Qed.

Lemma line_back v : in_s 32 v → i32 (u32 (u64 v)) = v.
Proof.
  intros Hv. unfold u32, u64, i32. unfold wraps, wrapu.
  change (2 ^ 64) with (2 ^ 32 * 2 ^ 32). rewrite Z.rem_mul_r by lia.
  rewrite (Z.mul_comm (2 ^ 32)), Z.mod_add, !Z.mod_mod by lia.
  by apply (wraps_id 32 v).
Qed.

(** The sizes of the debug information and its lines. *)
Lemma reads_lines strip h st :
  head_ok s0 h → (Z.land fl BCDUMP_F_STRIP =? 0) = negb strip →
  reads (if Z.land fl BCDUMP_F_STRIP =? 0 then
       rbind bcread_dword (λ sizedbg,
       if negb (sizedbg =? 0) then
         rbind bcread_dword (λ first, rbind bcread_dword (λ num, ret (sizedbg, i32 first, i32 num)))
       else ret (0, 0, 0))
     else ret (0, 0, 0)) (enc_lines strip h)
    (eq (size (dump_dbg strip h),
         if decide (dump_dbg strip h = []) then 0 else firstline h,
         if decide (dump_dbg strip h = []) then 0 else numline h)) st st.
Proof.
  intros Hh Hf. rewrite Hf. unfold enc_lines, dump_dbg. destruct strip; cbn [negb]; [by apply reads_ret|].
  destruct (ho_dbg _ _ Hh) as [_ Hd], (ho_lines _ _ Hh) as [H1' H2'].
  eapply reads_then; [apply reads_dword; unfold in_u, size in *; lia|].
  destruct (dbg h) as [|d ds] eqn:Ed; [by apply reads_ret|]. rewrite decide_False by done.
  rewrite (proj2 (Z.eqb_neq _ 0)) by (unfold size; simpl; lia). cbn [negb].
  eapply reads_then; [apply reads_dword64, in_s_u64|].
  rewrite <-(app_nil_r (uleb _)). eapply reads_then; [apply reads_dword64, in_s_u64|].
  apply reads_ret. by rewrite !line_back.
Qed.

Lemma reads_body startins strip h ks P L R cs st :
  head_ok s0 h → size ks < 2 ^ 32 → Forall (kgc_ok s0 P) ks → Forall (kgc_loadable L) ks → kids R ks cs →
  (Z.land fl BCDUMP_F_STRIP =? 0) = negb strip →
  reads (rbind bcread_byte (λ fl, rbind bcread_byte (λ np, rbind bcread_byte (λ fs,
         rbind bcread_byte (λ nuv, bcread_body fl np fs nuv)))))
    (enc_body s0 startins strip h ks)
    (λ pt', head pt' = loaded_head startins strip nm (size ks) h ∧ lall2 (kgc_loaded R) ks (kgcs pt'))
    (cs ++ st) st.
Proof.
  intros Hh Hn Hks Hlds Hc Hf. unfold enc_body.
  destruct (ho_bc _ _ Hh) as [Hbc Hnb], (ho_uv _ _ Hh) as [Huv Hnuv], (ho_knum _ _ Hh) as [Hkn Hnk].
  assert (∀ b (f : Z → BcRead.R GCproto) os Q st st', reads (f b) os Q st st' → reads (rbind bcread_byte f) ([b] ++ os) Q st st')
    as Hbyte.
  { intros b f os Q st1 st2 Hr. eapply reads_then; [apply reads_byte|done]. }
  do 4 (apply (Hbyte _ _ (_ ++ _) _ _ _)).
  unfold bcread_body.
  eapply reads_then; [apply reads_dword; unfold in_u, size in *; lia|].
  eapply reads_then; [apply reads_dword; unfold in_u, size in *; lia|].
  eapply reads_then; [apply reads_dword; unfold in_u, size in *; lia|].
  rewrite <-(app_nil_l (enc_lines _ _ ++ _)).
  eapply reads_then; [by apply reads_gets|].
  eapply reads_then; [by apply reads_lines|].
  rewrite <-(app_nil_l (concat (le32 <$> _) ++ _)).
  eapply reads_then; [by apply reads_gets|].
  eapply reads_then.
  { apply reads_bytecode; [by apply dump_bc_u32|]. unfold dump_bc, size. rewrite length_fmap.
    destruct (bc h); simpl in *; [unfold size in Hnb; simpl in Hnb; lia|lia]. }
  eapply reads_then; [by apply reads_uv|].
  unfold bcread_kgc. rewrite size_nat.
  eapply reads_bind; [by eapply reads_kgc|]. intros ks' Hks'.
  unfold bcread_knum. rewrite size_nat.
  eapply reads_then.
  { apply reads_repeat. intros v Hv. rewrite Forall_forall in Hkn. by apply reads_qword, Hkn. }
  assert (Z.land (dump_flags h) PROTO_VARARG = Z.land (flags h) PROTO_VARARG) as Ev.
  { unfold dump_flags. by rewrite <-Z.land_assoc. }
  rewrite Ev. replace (size (bc h) - 1 + 1) with (size (bc h)) by lia.
  destruct (decide (dump_dbg strip h = [])) as [Ed|Ed].
  - rewrite Ed. change (size []) with 0. cbn [negb Z.eqb]. apply reads_ret.
    split; [|done]. cbn [head]. unfold loaded_head. rewrite !Ed. done.
  - rewrite (proj2 (Z.eqb_neq _ 0)) by (destruct (dump_dbg strip h); [done|unfold size; simpl; lia]).
    cbn [negb]. rewrite <-(app_nil_r (dump_dbg strip h)) at 2.
    eapply reads_then; [by apply reads_block|].
    assert (dump_dbg strip h = dbg h) as E by (destruct strip; [done|done]).
    destruct (ho_uvinfo _ _ Hh) as [Eu Ev']; [by rewrite <-E|].
    rewrite !E, <-Eu, Ev'. apply reads_ret. split; [|done]. cbn [head]. unfold loaded_head.
    rewrite !E. rewrite !decide_False by (by rewrite <-E). done.
Qed.

End Reads.
End BcReadSpec.
