(* ===== verification/BcLoad.v ===== *)
(** * Reading streams and loading functions

    [BcStream]: the reader sees the octets of its stream in the order in which they come, however they
    are cut into blocks.  [BcLoad]: loading a dump. *)

From stdpp Require Import base decidable list numbers option sets.
From Stdlib Require Import ZArith Lia.
From S2P Require Import Prelude Leb128 Obj Tab Cstr Sbuf Bc Str Proto BcWrite BcRead BcSpec.
From S2P Require Import BcWriteSpec BcReadSpec.

Local Open Scope Z_scope.

Module BcStream.
Import Leb128 Obj Sbuf Bc Proto BcWrite BcRead BcSpec BcWriteSpec BcReadSpec.

Section Stream.
Context {S : Type} `{StrTable S}.

(** All octets that are still to be read. *)
Definition input (ls : LexState S) : list Z := rest ls ++ concat (chunks ls).

(** The remainder lies at the end of the lexer's buffer, if that is in use. *)
Record in_ok (ls : LexState S) : Prop := {
  io_sb : sb_wf (sb ls);
  io_suffix : data (sb ls) ≠ [] → rest ls `suffix_of` data (sb ls);
  io_len : len (input ls) ≤ LJ_MAX_SBUF;
  io_chunks : Forall (λ c, c ≠ []) (chunks ls)
}.

Lemma app_split {A} (a b c d : list A) :
  a ++ b = c ++ d → (length c ≤ length a)%nat → ∃ r, a = c ++ r ∧ r ++ b = d.
Proof.
  intros E Hl. exists (drop (length c) a).
  assert (take (length c) a = c) as Et.
  { apply (f_equal (take (length c))) in E. rewrite take_app_length in E.
    by rewrite take_app_le in E by done. }
  assert (a = c ++ drop (length c) a) as Ea by (rewrite <-Et at 1; by rewrite take_drop).
  split; [done|]. rewrite Ea, <-app_assoc in E. by apply app_inv_head in E.
Qed.

Lemma keep_rest_spec ls :
  in_ok ls → ∃ b, keep_rest ls = SOk b ∧ sb_wf b ∧ data b = rest ls.
Proof.
  intros [[Hf Hc] Hs Hl _]. unfold keep_rest, avail, input in *. rewrite len_app in Hl.
  pose proof (len_nonneg (concat (chunks ls))). pose proof (len_nonneg (rest ls)).
  destruct (len (rest ls) =? 0) eqn:E; bprop.
  { assert (rest ls = []) as Er by (unfold len in E; destruct (rest ls); [done|simpl in E; lia]).
    eexists. split; [done|]. rewrite Er. split; [|done].
    split; [unfold uj_sbuf_size in *; simpl; lia|done]. }
  destruct (negb (uj_sbuf_size (sb ls) =? 0)) eqn:Es; bprop.
  - assert (data (sb ls) ≠ []) as Hd by (intros E'; unfold uj_sbuf_size in Es; by rewrite E' in Es).
    destruct (Hs Hd) as [k Hk]. eexists. split; [done|]. split; [|done]. split; [|done].
    unfold uj_sbuf_size in *. simpl. rewrite Hk, length_app in Hf. lia.
  - assert (data (sb ls) = []) as Hd
      by (unfold uj_sbuf_size in Es; destruct (data (sb ls)); [done|simpl in Es; lia]).
    destruct (push_appends (len (rest ls)) (rest ls) (sb ls)) as [(c & E' & Wc & _)|(_ & Ht & _)].
    + by split.
    + unfold LJ_MAX_SBUF in Hl. lia.
    + unfold uj_sbuf_push_block. rewrite E'. eexists. split; [done|]. split; [done|]. simpl. by rewrite Hd.
    + lia.
Qed.

(** What filling does: octets move from the blocks to the remainder. *)
Definition filled (ls ls' : LexState S) : Prop :=
  ∃ r b cs, ls' = set_input r b cs ls ∧ in_ok ls' ∧ input ls' = input ls ∧ stack ls' = stack ls.

Lemma filled_trans ls1 ls2 ls3 : filled ls1 ls2 → filled ls2 ls3 → filled ls1 ls3.
Proof.
  intros (r1 & b1 & c1 & -> & _ & E1 & _) (r2 & b2 & c2 & -> & O2 & E2 & _).
  exists r2, b2, c2. split_and!; [done|done|congruence|done].
Qed.

Lemma filled_refl ls : in_ok ls → filled ls ls.
Proof. intros O. exists (rest ls), (sb ls), (chunks ls). by destruct ls. Qed.

(** One block is taken. *)
Lemma fill_step ls buf cs :
  in_ok ls → chunks ls = buf :: cs →
  ∃ b, keep_rest ls = SOk b ∧
    ∃ b', (if negb (uj_sbuf_size b =? 0)
      then match uj_sbuf_push_block buf b with SOk b => Some (data b, b) | _ => None end
      else Some (buf, b)) = Some (rest ls ++ buf, b') ∧
      filled ls (set_input (rest ls ++ buf) b' cs ls).
Proof.
  intros O Ec. destruct (keep_rest_spec ls O) as (b & Ek & Wb & Ed). exists b. split; [done|].
  pose proof (io_len _ O) as Hl. unfold input in Hl. rewrite Ec in Hl. cbn [concat] in Hl.
  rewrite !len_app in Hl. pose proof (len_nonneg (concat cs)). pose proof (len_nonneg buf).
  pose proof (len_nonneg (rest ls)).
  assert (∀ b', sb_wf b' → (data b' ≠ [] → data b' = rest ls ++ buf) →
    filled ls (set_input (rest ls ++ buf) b' cs ls)) as Hfill.
  { intros b' Wb' Hd. exists (rest ls ++ buf), b', cs. split; [done|].
    assert (input (set_input (rest ls ++ buf) b' cs ls) = input ls) as Ei.
    { unfold input. simpl. rewrite Ec. cbn [concat]. by rewrite app_assoc. }
    split; [|done]. split; [done| |rewrite Ei; apply O|].
    - simpl. intros Hne. rewrite (Hd Hne). by exists [].
    - simpl. pose proof (io_chunks _ O) as Hc. rewrite Ec in Hc. by apply Forall_cons in Hc as [_ ?]. }
  destruct (negb (uj_sbuf_size b =? 0)) eqn:Es; bprop.
  - destruct (push_appends (len buf) buf b Wb) as [(c & E' & Wc & _)|(_ & Ht & _)].
    + unfold LJ_MAX_SBUF in Hl. lia.
    + unfold uj_sbuf_push_block. rewrite E'. simpl. rewrite Ed in *. eexists. split; [done|].
      by apply Hfill.
    + unfold uj_sbuf_size in Ht. rewrite Ed in Ht. unfold len, LJ_MAX_SBUF in *. lia.
  - assert (data b = []) as Hd
      by (unfold uj_sbuf_size in Es; destruct (data b); [done|simpl in Es; lia]).
    rewrite <-Ed, Hd. exists b. split; [done|]. rewrite <-Hd, Ed. apply Hfill; [done|].
    intros Hne. by rewrite Hd in Hne.
Qed.

Lemma fill_loop_spec fuel n need ls :
  in_ok ls → (length (chunks ls) < fuel)%nat → avail ls < n →
  (n ≤ len (input ls) → ∃ ls', fill_loop fuel n need ls = ROk () ls' ∧ filled ls ls' ∧ n ≤ avail ls') ∧
  (len (input ls) < n → need = false →
   ∃ ls', fill_loop fuel n need ls = ROk () (set_current (-1) ls') ∧ filled ls ls' ∧ rest ls' = input ls ∧
     chunks ls' = []) ∧
  (len (input ls) < n → need = true → fill_loop fuel n need ls = RErr UJ_ERR_BCBAD).
Proof.
  revert ls. induction fuel as [|fuel IH]; intros ls O Hf Hn; [lia|].
  destruct (chunks ls) as [|buf cs] eqn:Ec.
  - cbn [fill_loop]. destruct (keep_rest_spec ls O) as (b & -> & Wb & Ed). rewrite Ec.
    assert (input ls = rest ls) as Ei by (unfold input; rewrite Ec; apply app_nil_r). rewrite Ei. split.
    { intros Hle. unfold avail in Hn. lia. }
    split; [|by intros _ ->]. intros _ ->. exists (set_input (rest ls) b [] ls). split; [done|]. split; [|done].
    exists (rest ls), b, []. split; [done|].
    assert (input (set_input (rest ls) b [] ls) = input ls) as Ei'
      by (unfold input at 1; simpl; by rewrite app_nil_r).
    split; [|done]. split; [done| |rewrite Ei'; apply O|apply Forall_nil_2].
    simpl. rewrite Ed. by exists [].
  - cbn [fill_loop]. destruct (fill_step ls buf cs O Ec) as (b & -> & b' & Hr & Hfl). rewrite Ec.
    pose proof (io_chunks _ O) as Hc. rewrite Ec in Hc. apply Forall_cons in Hc as [Hb Hcs].
    destruct buf as [|x buf]; [done|]. cbv zeta. rewrite Hr.
    set (ls1 := set_input _ b' cs ls) in *.
    assert (input ls1 = input ls) as Ei by (destruct Hfl as (? & ? & ? & _ & _ & ? & _); done).
    assert (in_ok ls1) as O1 by (destruct Hfl as (? & ? & ? & _ & ? & _); done).
    destruct (avail ls1 <? n) eqn:E; bprop.
    + destruct (IH ls1 O1) as (IH1 & IH2 & IH3); [simpl; simpl in Hf; lia|done|].
      rewrite Ei in *. split_and!; [| |done].
      * intros Hle. destruct (IH1 Hle) as (ls2 & E2 & F2 & A2). exists ls2.
        split_and!; [done|by eapply filled_trans|done].
      * intros Hlt Hnd. destruct (IH2 Hlt Hnd) as (ls2 & E2 & F2 & A2 & C2). exists ls2.
        split_and!; [done|by eapply filled_trans|done|done].
    + split; [intros _; by exists ls1|].
      enough (n ≤ len (input ls)) by (split; lia).
      rewrite <-Ei. unfold input. rewrite len_app.
      pose proof (len_nonneg (concat (chunks ls1))). unfold avail in E. lia.
Qed.

Lemma input_rest ls : avail ls ≤ len (input ls).
Proof. unfold avail, input. rewrite len_app. pose proof (len_nonneg (concat (chunks ls))). lia. Qed.

(** Enough input for the request. *)
Lemma fill_enough need n ls :
  in_ok ls → (0 ≤ current ls ∨ n ≤ avail ls) → n ≤ len (input ls) →
  ∃ ls', (if avail ls <? n then bcread_fill n need ls else ROk () ls) = ROk () ls' ∧
    filled ls ls' ∧ n ≤ avail ls'.
Proof.
  intros O Hc Hn. destruct (avail ls <? n) eqn:E; bprop.
  - unfold bcread_fill. pose proof (io_len _ O) as Hl.
    rewrite (proj2 (Z.ltb_ge LJ_MAX_MEM n)), (proj2 (Z.ltb_ge (current ls) 0))
      by (unfold LJ_MAX_MEM, LJ_MAX_SBUF in *; lia). simpl.
    by apply (proj1 (fill_loop_spec (Datatypes.S (length (chunks ls))) n need ls O ltac:(lia) E)).
  - exists ls. split_and!; [done|by apply filled_refl|done].
Qed.

(** The end of the stream: everything is buffered. *)
Lemma want_eof n ls :
  in_ok ls → 0 ≤ current ls → len (input ls) < n ≤ LJ_MAX_MEM →
  ∃ ls', bcread_want n ls = ROk () (set_current (-1) ls') ∧ filled ls ls' ∧ rest ls' = input ls ∧
    chunks ls' = [].
Proof.
  intros O Hc Hn. pose proof (input_rest ls). unfold bcread_want.
  rewrite (proj2 (Z.ltb_lt (avail ls) n)) by lia. unfold bcread_fill.
  rewrite (proj2 (Z.ltb_ge LJ_MAX_MEM n)), (proj2 (Z.ltb_ge (current ls) 0)) by lia. simpl.
  apply (fill_loop_spec (Datatypes.S (length (chunks ls))) n false ls O); [lia|lia|lia|done].
Qed.

(** A request that the stream cannot meet. *)
Lemma need_too_much n ls :
  in_ok ls → len (input ls) < n → bcread_need n ls = RErr UJ_ERR_BCBAD.
Proof.
  intros O Hn. pose proof (input_rest ls). unfold bcread_need.
  rewrite (proj2 (Z.ltb_lt (avail ls) n)) by lia. unfold bcread_fill.
  destruct ((LJ_MAX_MEM <? n) || (current ls <? 0)); [done|].
  apply (fill_loop_spec (Datatypes.S (length (chunks ls))) n true ls O); [lia|lia|lia|done].
Qed.

(** Reading buffered octets. *)
Lemma in_ok_upd os tl st s ls : in_ok ls → rest ls = os ++ tl →
  in_ok (upd tl st s ls) ∧ input ls = os ++ input (upd tl st s ls).
Proof.
  intros [Wb Hs Hl Hc] Hr. unfold input in *. simpl. rewrite Hr, <-app_assoc in *. split; [|done].
  split; [done| | |done]; simpl.
  - intros Hd. destruct (Hs Hd) as [k Hk]. exists (k ++ os). by rewrite <-app_assoc.
  - unfold input. simpl. rewrite len_app in Hl. pose proof (len_nonneg os). lia.
Qed.

End Stream.
End BcStream.

Module BcLoad.
Import Leb128 Obj Sbuf Bc Proto BcWrite BcRead BcSpec BcWriteSpec BcReadSpec BcStream.

Section Load.
Context {S : Type} `{StrTable S} `{ObjHeap} (s0 : S) (startins : Z → Z).
Context (strip : bool) (fl nm : Z) (Hstrip : (Z.land fl BCDUMP_F_STRIP =? 0) = negb strip).

(** A state in which prototypes can be read. *)
Record ready (ls : LexState S) : Prop := {
  rd_in : in_ok ls;
  rd_current : 0 ≤ current ls;
  rd_flags : rflags ls = fl;
  rd_name : rname ls = nm;
  rd_ext : ext s0 (strs ls)
}.

Lemma ready_filled ls ls' : ready ls → filled ls ls' → ready ls'.
Proof. intros [? ? ? ? ?] (r & b & cs & -> & O & _). by split. Qed.

Lemma ready_upd os tl st s ls :
  ready ls → rest ls = os ++ tl → ext s0 s → ready (upd tl st s ls).
Proof. intros [O ? ? ? ?] Hr He. split; try done. by eapply in_ok_upd. Qed.

(** A reader of buffered octets, run in a state that is ready. *)
Lemma reads_run {A} (m : R A) os Q st st' ls tl :
  reads s0 fl nm m os Q st st' → ready ls → stack ls = st → input ls = os ++ tl → len os ≤ avail ls →
  ∃ a ls', m ls = ROk a ls' ∧ Q a ∧ ready ls' ∧ stack ls' = st' ∧ input ls' = tl ∧
    avail ls' = avail ls - len os.
Proof.
  intros Hm Hrd Hst Hi Hle. unfold input in Hi.
  destruct (app_split _ _ _ _ Hi) as (r & Er & Erest); [unfold avail, len in Hle; lia|].
  destruct (Hm ls r Er Hst (rd_flags _ Hrd) (rd_name _ Hrd) (rd_ext _ Hrd)) as (a & s' & E & HQ & He).
  exists a, (upd r st' s' ls). split_and!; try done.
  - by eapply ready_upd.
  - unfold avail. simpl. rewrite Er, len_app. lia.
Qed.

(** ** One prototype *)

Lemma uleb_first v x l : 0 < v < 2 ^ 64 → uleb v = x :: l → x ≠ 0.
Proof.
  intros Hv E ->. destruct (uleb_spec v ltac:(unfold in_u; lia)) as [Hw _].
  destruct (write_uleb128_loop_spec _ v _ ltac:(lia) Hw) as (Hf & Hd & _). rewrite E in Hf, Hd.
  destruct l as [|y l]; [change (0 = v) in Hd; lia|by destruct Hf].
Qed.

Lemma uleb_short v : 0 ≤ v < 2 ^ 35 → len (uleb v) ≤ 5.
Proof.
  intros Hv. destruct (uleb_spec v ltac:(unfold in_u; lia)) as [Hw _].
  destruct (write_uleb128_loop_spec _ v _ ltac:(lia) Hw) as (_ & _ & _ & Hge).
  apply Z.nlt_ge. intros Hlt. specialize (Hge ltac:(lia)).
  pose proof (Z.pow_le_mono_r 2 35 (7 * (len (uleb v) - 1)) ltac:(lia) ltac:(lia)). lia.
Qed.

(** The four fixed octets and the rest of the prototype, then the check of the length. *)
Lemma body_assoc (k : GCproto → R (option GCproto)) ls :
  rbind bcread_byte (λ fl, rbind bcread_byte (λ np, rbind bcread_byte (λ fs, rbind bcread_byte (λ nuv,
    rbind (bcread_body fl np fs nuv) k)))) ls =
  rbind (rbind bcread_byte (λ fl, rbind bcread_byte (λ np, rbind bcread_byte (λ fs,
    rbind bcread_byte (λ nuv, bcread_body fl np fs nuv))))) k ls.
Proof.
  unfold rbind, bcread_byte. destruct (rest ls) as [|b0 r0]; [done|]. simpl.
  destruct r0 as [|b1 r1]; [done|]. simpl. destruct r1 as [|b2 r2]; [done|]. simpl.
  by destruct r2 as [|b3 r3].
Qed.

(** [bcread_proto] where the end mark does not follow. *)
Definition proto_tail : R (option GCproto) :=
  rbind (bcread_want 5) (λ _, rbind bcread_dword (λ len,
    if len =? 0 then ret None else rbind (bcread_need len) (λ _, rbind (gets avail) (λ startn,
      rbind bcread_byte (λ fl, rbind bcread_byte (λ np, rbind bcread_byte (λ fs,
      rbind bcread_byte (λ nuv, rbind (bcread_body fl np fs nuv) (λ pt, rbind (gets avail) (λ n,
      if negb (len =? startn - n) then throw UJ_ERR_BCBAD else ret (Some pt))))))))))).

Lemma proto_tail_eq v tl ls :
  0 < v < 2 ^ 64 → input ls = uleb v ++ tl → bcread_proto ls = proto_tail ls.
Proof.
  intros Hv Hi. unfold bcread_proto. destruct (rest ls) as [|x r] eqn:Er; [done|].
  assert (x ≠ 0) as Hx; [|by destruct x].
  destruct (uleb_spec v) as [_ Hul]; [unfold in_u; lia|].
  destruct (uleb v) as [|y l] eqn:Eu; [unfold len in Hul; simpl in Hul; lia|].
  unfold input in Hi. rewrite Er in Hi. injection Hi as -> _. by eapply uleb_first.
Qed.

Lemma proto_step body Q st st' ls tl :
  reads s0 fl nm (rbind bcread_byte (λ fl, rbind bcread_byte (λ np, rbind bcread_byte (λ fs,
      rbind bcread_byte (λ nuv, bcread_body fl np fs nuv))))) body Q st st' →
  ready ls → stack ls = st → input ls = frame body ++ tl → 4 ≤ len body →
  ∃ pt ls', bcread_proto ls = ROk (Some pt) ls' ∧ Q pt ∧ ready ls' ∧ stack ls' = st' ∧ input ls' = tl.
Proof.
  intros Hb Hrd Hst Hi Hl. pose proof (io_len _ (rd_in _ Hrd)) as Hmax.
  pose proof (input_rest ls) as Hav.
  assert (in_u 32 (size body) ∧ size body = len body) as [Hu Es].
  { change (size body) with (len body). rewrite Hi in Hmax. unfold frame in Hmax.
    rewrite !len_app in Hmax. pose proof (len_nonneg (uleb (size body))). pose proof (len_nonneg tl).
    unfold in_u, LJ_MAX_SBUF in *. lia. }
  assert (1 ≤ len (uleb (size body)) ≤ 5) as Hul.
  { destruct (uleb_spec (size body)) as [_ ?]; [unfold in_u in *; lia|].
    split; [lia|]. apply uleb_short. unfold in_u in Hu. lia. }
  unfold frame in Hi. rewrite <-app_assoc in Hi.
  rewrite (proto_tail_eq (size body) (body ++ tl)) by (done || (unfold in_u in Hu; lia)).
  unfold proto_tail.
  unfold rbind at 1. unfold bcread_want.
  destruct (fill_enough false 5 ls (rd_in _ Hrd)) as (ls1 & -> & F1 & A1).
  { left. apply Hrd. }
  { rewrite Hi, !len_app. pose proof (len_nonneg tl). lia. }
  pose proof (ready_filled _ _ Hrd F1) as R1.
  assert (input ls1 = input ls ∧ stack ls1 = st) as [Ei1 Es1]
    by (destruct F1 as (? & ? & ? & -> & _ & ? & ?); split; congruence).
  unfold rbind at 1.
  destruct (reads_run bcread_dword (uleb (size body)) (eq (size body)) st st ls1 (body ++ tl))
    as (v & ls2 & -> & <- & R2 & S2 & I2 & _); [by apply reads_dword|done|done|congruence|lia|].
  rewrite (proj2 (Z.eqb_neq _ 0)) by lia. unfold rbind at 1. unfold bcread_need.
  destruct (fill_enough true (size body) ls2 (rd_in _ R2)) as (ls3 & -> & F3 & A3).
  { left. apply R2. }
  { rewrite I2, len_app. pose proof (len_nonneg tl). lia. }
  pose proof (ready_filled _ _ R2 F3) as R3.
  assert (input ls3 = body ++ tl ∧ stack ls3 = st) as [Ei3 Es3]
    by (destruct F3 as (? & ? & ? & -> & _ & ? & ?); split; congruence).
  unfold rbind at 1. unfold gets at 1. rewrite body_assoc. unfold rbind at 1.
  destruct (reads_run _ _ _ _ _ ls3 tl Hb R3 Es3 Ei3) as (pt & ls4 & -> & HQ & R4 & S4 & I4 & A4); [lia|].
  unfold rbind, gets. rewrite A4.
  replace (avail ls3 - (avail ls3 - len body)) with (size body) by lia. rewrite Z.eqb_refl.
  simpl. exists pt, ls4. by split_and!.
Qed.

(** ** All prototypes *)

Fixpoint nprotos (pt : GCproto) : nat :=
  let '(MkProto h ks) := pt in
  Datatypes.S (foldr (λ k n, match k with KChild p => nprotos p | _ => O end + n)%nat O ks).

Lemma read_protos_some fuel ls pt ls' :
  bcread_proto ls = ROk (Some pt) ls' →
  read_protos (Datatypes.S fuel) ls = read_protos fuel (set_stack (pt :: stack ls') ls').
Proof. intros E. cbn [read_protos]. unfold rbind at 1. by rewrite E. Qed.

Lemma ready_set_stack st ls : ready ls → ready (set_stack st ls).
Proof. intros [[? ? ? ?] ? ? ? ?]. by split. Qed.

Lemma body_len h ks : 4 ≤ len (enc_body s0 startins strip h ks).
Proof. unfold enc_body. rewrite len_app. pose proof (len_nonneg (uleb (size ks) ++ uleb (size (knum h)) ++
  uleb (size (bc h) - 1) ++ enc_lines strip h ++ concat (le32 <$> dump_bc startins h) ++
  concat (le16 <$> uv h) ++ concat (enc_kgc s0 <$> ks) ++ concat (uleb <$> knum h) ++ dump_dbg strip h)).
  change (len [dump_flags h; numparams h; framesize h; size (uv h)]) with 4. lia.
Qed.

Lemma tree_step pt ls tl fuel :
  proto_ok s0 pt → loadable pt → ready ls →
  input ls = enc_proto s0 startins strip pt ++ tl → (nprotos pt ≤ fuel)%nat →
  ∃ pt' ls', read_protos fuel ls = read_protos (fuel - nprotos pt) ls' ∧
    loaded startins strip nm pt pt' ∧ ready ls' ∧ stack ls' = pt' :: stack ls ∧ input ls' = tl.
Proof.
  revert ls tl fuel. induction pt as [h ks IH] using proto_rect'. intros ls tl fuel Hok Hlds Hrd Hi Hf.
  destruct Hok as (Hh & Hn & _ & Hks). cbn [enc_proto nprotos loadable] in *. rewrite <-app_assoc in Hi.
  assert (∃ cs ls', read_protos fuel ls =
      read_protos (fuel - foldr (λ k n, match k with KChild p => nprotos p | _ => O end + n)%nat O ks) ls' ∧
      kids (loaded startins strip nm) ks cs ∧ ready ls' ∧ stack ls' = cs ++ stack ls ∧
      input ls' = frame (enc_body s0 startins strip h ks) ++ tl) as (cs & ls1 & E1 & Hc & R1 & S1 & I1).
  { assert (foldr (λ k n, match k with KChild p => nprotos p | _ => O end + n)%nat O ks ≤ fuel)%nat as Hf' by lia.
    clear Hf Hh Hn. revert Hf' Hi. generalize (frame (enc_body s0 startins strip h ks) ++ tl) as tl'.
    induction ks as [|k ks IHk]; intros tl' Hf Hi.
    { exists [], ls. simpl in *. by rewrite Nat.sub_0_r. }
    cbn [foldr] in *. rewrite <-app_assoc in Hi.
    destruct IH as [IHc IHks], Hks as [Hk Hks], Hlds as [Hld Hlds].
    destruct (IHk IHks Hks Hlds _ ltac:(lia) Hi) as (cs & ls1 & E1 & Hc & R1 & S1 & I1).
    assert (match k with KChild _ => False | _ => True end →
      match k with KChild p => nprotos p | _ => O end = O ∧ input ls1 = tl' ∧
      kids (loaded startins strip nm) (k :: ks) cs) as Hplain by (by destruct k).
    destruct k as [a|t|u|u|re im|p];
      try (destruct (Hplain I) as (_ & I1' & Hc'); exists cs, ls1;
        exact (conj E1 (conj Hc' (conj R1 (conj S1 I1'))))).
    destruct (IHc ls1 tl' (fuel - foldr (λ k n, match k with KChild p => nprotos p | _ => O end + n)%nat O ks)%nat)
      as (c & ls2 & E2 & Hl2 & R2 & S2 & I2); [done|done|done|done|lia|].
    exists (c :: cs), ls2. rewrite E1, E2. split_and!; try done.
    - f_equal. lia.
    - simpl. eauto.
    - rewrite S2, S1. done. }
  apply lall_Forall in Hks, Hlds.
  destruct (proto_step (enc_body s0 startins strip h ks)
    (λ pt', head pt' = loaded_head startins strip nm (size ks) h ∧
      lall2 (kgc_loaded (loaded startins strip nm)) ks (kgcs pt')) (cs ++ stack ls) (stack ls) ls1 tl)
    as (pt' & ls2 & E2 & [Hhd Hl2] & R2 & S2 & I2).
  - by eapply reads_body.
  - done.
  - done.
  - done.
  - apply body_len.
  - exists pt', (set_stack (pt' :: stack ls2) ls2). rewrite E1.
    set (n := foldr (λ k n, match k with KChild p => nprotos p | _ => O end + n)%nat O ks) in *.
    clearbody n.
    replace (fuel - n)%nat with (Datatypes.S (fuel - Datatypes.S n)) by lia.
    rewrite (read_protos_some _ _ _ _ E2). split_and!; try done.
    + by apply ready_set_stack.
    + simpl. by rewrite S2.
Qed.

(** The end mark, wherever the blocks are cut. *)
Lemma footer_step ls :
  ready ls → input ls = [0] →
  ∃ ls', bcread_proto ls = ROk None ls' ∧ rest ls' = [] ∧ stack ls' = stack ls ∧ strs ls' = strs ls.
Proof.
  intros Hrd Hi. unfold bcread_proto. unfold input in Hi.
  destruct (rest ls) as [|x r] eqn:Er.
  - destruct (want_eof 5 ls (rd_in _ Hrd) (rd_current _ Hrd)) as (ls1 & E1 & F1 & Er1 & Ec1).
    { unfold input. rewrite Er, Hi. unfold LJ_MAX_MEM. simpl. change (len [0]) with 1. lia. }
    destruct F1 as (r1 & b1 & cs1 & -> & O1 & I1 & S1). simpl in Er1, Ec1. subst r1 cs1.
    unfold rbind at 1. rewrite E1. unfold bcread_dword, rbind, bcread_qword, avail. simpl.
    unfold input. rewrite Er, Hi. simpl. by eexists.
  - injection Hi as -> Hr. destruct r; [|done]. by eexists.
Qed.

End Load.
End BcLoad.
