(* ===== verification/BcRun.v ===== *)
(** * The reader on whole streams: dumps, and streams that are not dumps *)

From stdpp Require Import base decidable list numbers option sets.
From Stdlib Require Import ZArith Lia.
From S2P Require Import Prelude Leb128 Obj Tab Cstr Sbuf Bc StrHash Str Proto BcWrite BcRead BcSpec.
From S2P Require Import BcWriteSpec BcReadSpec BcLoad.

Local Open Scope Z_scope.

Module BcRun.
Import Leb128 Obj Sbuf Bc Proto BcWrite BcRead BcSpec BcWriteSpec BcReadSpec BcStream BcLoad.

Section Header.
Context {S : Type} `{StrTable S} `{ObjHeap} (s0 : S) (startins : Z → Z).

(** The state in which the lexer calls the reader: the first octet has been read. *)
Record lex_start (ls : LexState S) : Prop := {
  lx_sb : sb_wf (sb ls);
  lx_current : 0 ≤ current ls;
  lx_strs : strs ls = s0;
  lx_chunks : Forall (λ c, c ≠ []) (chunks ls);
  lx_len : len (input ls) ≤ LJ_MAX_SBUF
}.

Definition start (ls : LexState S) : LexState S :=
  set_stack [] (set_input (rest ls) (uj_sbuf_reset (sb ls)) (chunks ls) ls).

Lemma start_ok ls : lex_start ls → in_ok (start ls) ∧ input (start ls) = input ls.
Proof.
  intros [[Hf Hc] ? ? ? ?]. split; [|done]. split; try done.
  split; [unfold uj_sbuf_size in *; simpl; lia|done].
Qed.

Lemma ext_refl (s : S) : ext s s.
Proof. by intros b Hb. Qed.

Lemma flags_octet strip h :
  uleb (enc_flags strip h) = [enc_flags strip h] ∧ in_u 32 (enc_flags strip h) ∧
  Z.ldiff (enc_flags strip h) BCDUMP_F_KNOWN = 0 ∧
  (Z.land (enc_flags strip h) BCDUMP_F_STRIP =? 0) = negb strip.
Proof.
  unfold enc_flags. destruct strip, (Z.land (flags h) PROTO_FFI =? 0); split_and!; by vm_compute.
Qed.

(** The chunk name of the loaded functions. *)
Definition name_of (strip : bool) (h : phead) (arg : list Z) (nm : Z) : Prop :=
  if strip then ∃ s1, st_new arg s0 = Some (nm, s1) else nm = chunkname h.

(** After the magic octets and the version. *)
Lemma header_tail strip h ls tl :
  in_ok ls → strs ls = s0 → 0 ≤ current ls → head_ok s0 h → st_ok s0 → len (chunkarg ls) < Str.LJ_MAX_STR →
  rflags ls = enc_flags strip h →
  input ls = (if strip then [] else enc_str s0 0 (chunkname h)) ++ tl →
  (strip = false → 5 ≤ avail ls ∨ len (enc_str s0 0 (chunkname h)) ≤ avail ls) →
  ∃ nm ls', (if negb (Z.land (rflags ls) BCDUMP_F_STRIP =? 0) then
      rbind (gets chunkarg) (λ arg, rbind (new_str arg) (λ a, rbind (modify (set_name a)) (λ _, ret true)))
    else rbind bcread_dword (λ len, rbind (bcread_need len) (λ _, rbind (bcread_mem len) (λ p,
      rbind (new_str p) (λ a, rbind (modify (set_name a)) (λ _, ret true))))) : R bool) ls = ROk true ls' ∧
    ready s0 (enc_flags strip h) nm ls' ∧ input ls' = tl ∧ stack ls' = stack ls ∧
    name_of strip h (chunkarg ls) nm.
Proof.
  intros O Es Hc Hh Hst Harg Hfl Hi Hav. destruct (flags_octet strip h) as (_ & _ & _ & Ef).
  rewrite Hfl, Ef. destruct strip; cbn [negb].
  - destruct (st_new_any s0 (chunkarg ls) Hst Harg) as (a & s1 & Ea & Ex).
    exists a, (set_name a (set_strs s1 ls)). unfold rbind, gets, new_str, modify, ret.
    rewrite Es, Ea. split; [done|]. split_and!; try done; [|by exists s1].
    split; try done. destruct O. by split.
  - pose proof (ho_name _ _ Hh) as Hn. pose proof (str_len_u32 s0 0 _ Hn ltac:(lia)) as Hu.
    unfold enc_str in *. rewrite <-app_assoc, Z.add_0_l in *.
    set (d := st_data s0 (chunkname h)) in *.
    assert (len (uleb (len d)) ≤ 5) as Hul by (apply uleb_short; unfold in_u in Hu; lia).
    pose proof (len_nonneg d) as Hd0.
    assert (ready s0 (rflags ls) (rname ls) ls) as Hrd.
    { split; try done. rewrite Es. apply ext_refl. }
    unfold rbind at 1.
    destruct (reads_run s0 (rflags ls) (rname ls) bcread_dword (uleb (len d)) (eq (len d)) (stack ls)
      (stack ls) ls (d ++ tl)) as (v & ls1 & -> & <- & R1 & S1 & I1 & _).
    { by apply reads_dword. }
    { done. }
    { done. }
    { done. }
    { specialize (Hav eq_refl). rewrite len_app in Hav. lia. }
    unfold rbind at 1. unfold bcread_need.
    destruct (fill_enough true (len d) ls1 (rd_in _ _ _ _ R1)) as (ls2 & -> & F2 & A2).
    { left. apply R1. }
    { rewrite I1, len_app. pose proof (len_nonneg tl). lia. }
    pose proof (ready_filled _ _ _ _ _ R1 F2) as R2.
    assert (input ls2 = d ++ tl ∧ stack ls2 = stack ls) as [I2 S2]
      by (destruct F2 as (? & ? & ? & -> & _ & ? & ?); split; congruence).
    assert (reads s0 (rflags ls) (rname ls) (rbind (bcread_mem (0 + len d - 0))
      (λ p, rbind (new_str p) (λ a, ret a))) d (eq (chunkname h)) (stack ls) (stack ls)) as Hr
      by (by apply (reads_str s0 _ _ 0 (chunkname h) (λ a, a))).
    rewrite Z.sub_0_r, Z.add_0_l in Hr.
    destruct (reads_run _ _ _ _ _ _ _ _ ls2 tl Hr R2 S2 I2 A2) as (a & ls3 & E3 & <- & R3 & S3 & I3 & _).
    exists (chunkname h), (set_name (chunkname h) ls3).
    revert E3. unfold rbind, ret, modify.
    destruct (bcread_mem (len d) ls2) as [p ls4| |]; try done.
    destruct (new_str p ls4) as [a ls5| |]; try done. intros [= -> ->].
    split; [done|]. split_and!; try done. destruct R3 as [[? ? ? ?] ? Hf3 ? ?].
    split; try done. simpl. congruence.
Qed.

Lemma header_step strip h ls tl :
  in_ok ls → strs ls = s0 → 0 ≤ current ls → head_ok s0 h → st_ok s0 → len (chunkarg ls) < Str.LJ_MAX_STR →
  BCDUMP_HEAD1 :: input ls = enc_header s0 strip h ++ tl → 13 ≤ len (input ls) →
  ∃ nm ls', bcread_header ls = ROk true ls' ∧ ready s0 (enc_flags strip h) nm ls' ∧ input ls' = tl ∧
    stack ls' = stack ls ∧ name_of strip h (chunkarg ls) nm.
Proof.
  intros O Es Hc Hh Hst Harg Hi Hl. unfold enc_header in Hi. cbn [app] in Hi. injection Hi as Hi.
  destruct (flags_octet strip h) as (Eu & Hu & Ek & _).
  unfold bcread_header. unfold rbind at 1. unfold bcread_want.
  destruct (fill_enough false (3 + 5 + 5) ls O (or_introl Hc)) as (ls1 & -> & F1 & A1); [done|].
  destruct F1 as (r1 & b1 & cs1 & -> & O1 & I1 & S1). rewrite Hi in I1.
  set (ls1 := set_input r1 b1 cs1 ls) in *.
  destruct (app_split (rest ls1) (concat (chunks ls1))
    [BCDUMP_HEAD2; BCDUMP_HEAD3; BCDUMP_VERSION; enc_flags strip h] _ I1) as (r & Er & Ir);
    [unfold avail, len in A1; simpl in *; lia|].
  cbn [app] in Er. unfold rbind at 1. unfold bcread_byte at 1. rewrite Er. cbn [negb Z.eqb Pos.eqb BCDUMP_HEAD2].
  unfold rbind at 1. unfold bcread_byte at 1. cbn [rest set_rest negb Z.eqb Pos.eqb BCDUMP_HEAD3].
  unfold rbind at 1. unfold bcread_byte at 1. cbn [rest set_rest negb Z.eqb Pos.eqb BCDUMP_VERSION].
  unfold rbind at 1. unfold bcread_dword. unfold rbind at 1. unfold bcread_qword, avail. cbn [rest set_rest].
  pose proof (uleb_read (enc_flags strip h) r ltac:(unfold in_u in *; lia)) as Hq. rewrite Eu in Hq.
  cbn [app] in Hq. rewrite Hq. change (len [enc_flags strip h]) with 1. change (Z.to_nat 1) with 1%nat.
  cbn [drop]. unfold ret at 1. unfold u32. rewrite wrapu_id by done.
  unfold rbind at 1. unfold modify at 1. rewrite Ek. change (negb (0 =? 0)) with false. cbv iota.
  set (ls2 := set_flags _ _).
  assert (in_ok ls2 ∧ input ls2 = (if strip then [] else enc_str s0 0 (chunkname h)) ++ tl) as [O2 I2].
  { destruct (in_ok_upd [BCDUMP_HEAD2; BCDUMP_HEAD3; BCDUMP_VERSION; enc_flags strip h] r (stack ls1)
      (strs ls1) ls1 O1 Er) as [[? ? ? ?] _]. split; [by split|]. exact Ir. }
  change (enc_flags strip h) with (rflags ls2) at 1.
  destruct (header_tail strip h ls2 tl O2 Es Hc Hh Hst Harg eq_refl I2) as (nm & ls3 & E3 & R3 & I3 & S3 & N3).
  { intros _. left. unfold avail in *. rewrite Er in A1. change (rest ls2) with r.
    unfold len in *. cbn [length] in A1. lia. }
  exists nm, ls3. split; [exact E3|]. by split_and!.
Qed.

(** ** The whole dump *)

Lemma nprotos_len strip pt : Z.of_nat (nprotos pt) ≤ len (enc_proto s0 startins strip pt).
Proof.
  induction pt as [h ks IH] using proto_rect'. cbn [nprotos enc_proto]. rewrite len_app.
  assert (1 ≤ len (frame (enc_body s0 startins strip h ks))) as Hfr.
  { unfold frame. rewrite len_app. pose proof (body_len s0 startins strip h ks).
    pose proof (len_nonneg (uleb (size (enc_body s0 startins strip h ks)))). lia. }
  enough (Z.of_nat (foldr (λ k n, match k with KChild p => nprotos p | _ => O end + n)%nat O ks) ≤
    len (foldr (λ k os, os ++ match k with KChild p => enc_proto s0 startins strip p | _ => [] end) [] ks))
    by lia.
  clear Hfr. induction ks as [|k ks IHk]; [done|]. destruct IH as [Hk Hks].
  cbn [foldr]. rewrite len_app. specialize (IHk Hks).
  pose proof (len_nonneg (match k with KChild p => enc_proto s0 startins strip p | _ => [] end)).
  destruct k; simpl in Hk; lia.
Qed.

Lemma dump_min strip pt : proto_ok s0 pt → 8 ≤ len (enc_proto s0 startins strip pt).
Proof.
  destruct pt as [h ks]. intros (Hh & Hn & _). cbn [enc_proto]. rewrite len_app. unfold frame.
  rewrite len_app.
  pose proof (len_nonneg (foldr (λ k os, os ++ match k with
    | KChild p => enc_proto s0 startins strip p | _ => [] end) [] ks)).
  assert (∀ v, 0 ≤ v < 2 ^ 63 → 1 ≤ len (uleb v)) as Hv.
  { intros v Hr. destruct (uleb_spec v) as [_ ?]; [unfold in_u; lia|lia]. }
  destruct (ho_bc _ _ Hh) as [_ Hnb], (ho_knum _ _ Hh) as [_ Hnk].
  assert (7 ≤ len (enc_body s0 startins strip h ks)) as Hb.
  { unfold enc_body. rewrite 4!len_app.
    pose proof (Hv (size ks) ltac:(unfold size in *; lia)).
    pose proof (Hv (size (knum h)) ltac:(unfold size in *; lia)).
    pose proof (Hv (size (bc h) - 1) ltac:(unfold size in *; lia)).
    change (len [dump_flags h; numparams h; framesize h; size (uv h)]) with 4.
    match goal with |- _ ≤ _ + (_ + (_ + (_ + len ?x))) => pose proof (len_nonneg x) end. lia. }
  change (size (enc_body s0 startins strip h ks)) with (len (enc_body s0 startins strip h ks)).
  set (body := enc_body s0 startins strip h ks) in *.
  destruct (decide (len body < 2 ^ 63)) as [Hs|Hs].
  - pose proof (Hv (len body) ltac:(lia)). lia.
  - pose proof (len_nonneg (uleb (len body))). lia.
Qed.

(** The header, then the prototypes. *)
Definition read_all : R GCproto :=
  rbind (gets input_len) (λ fuel, rbind (read_protos (Datatypes.S fuel)) (λ _ ls,
    if 0 <? i32 (avail ls) then RErr UJ_ERR_BCBAD
    else match stack ls with
    | [p] => ROk p (set_stack [] ls)
    | _ => RErr UJ_ERR_BCBAD
    end)).

Lemma bcread_start strip h ls tl :
  lex_start ls → head_ok s0 h → st_ok s0 → len (chunkarg ls) < Str.LJ_MAX_STR →
  BCDUMP_HEAD1 :: input ls = enc_header s0 strip h ++ tl → 13 ≤ len (input ls) →
  ∃ nm ls', lj_bcread ls = read_all ls' ∧ ready s0 (enc_flags strip h) nm ls' ∧ input ls' = tl ∧
    stack ls' = [] ∧ name_of strip h (chunkarg ls) nm.
Proof.
  intros Hls Hh Hst Harg Hi Hl. destruct (start_ok ls Hls) as [O Ei].
  destruct (header_step strip h (start ls) tl) as (nm & ls1 & E1 & R1 & I1 & S1 & N1);
    try done; try apply Hls.
  exists nm, ls1. split_and!; try done.
  unfold lj_bcread. unfold rbind at 1, modify at 1. fold (start ls). unfold rbind at 1. by rewrite E1.
Qed.

Lemma header_min strip h : 5 ≤ len (enc_header s0 strip h).
Proof.
  unfold enc_header. rewrite len_app.
  pose proof (len_nonneg (if strip then [] else enc_str s0 0 (chunkname h))).
  change (len [BCDUMP_HEAD1; BCDUMP_HEAD2; BCDUMP_HEAD3; BCDUMP_VERSION; enc_flags strip h]) with 5. lia.
Qed.

Lemma input_cons (x : Z) l : len (x :: l) = 1 + len l.
Proof. unfold len. simpl. lia. Qed.

(** The prototypes of a dump, then what comes behind them. *)
Lemma read_all_dump strip pt nm ls tl :
  proto_ok s0 pt → loadable pt → ready s0 (enc_flags strip (head pt)) nm ls → stack ls = [] →
  input ls = enc_proto s0 startins strip pt ++ tl →
  ∃ pt' ls' n, read_all ls = rbind (read_protos (Datatypes.S n)) (λ _ ls,
      if 0 <? i32 (avail ls) then RErr UJ_ERR_BCBAD
      else match stack ls with
      | [p] => ROk p (set_stack [] ls)
      | _ => RErr UJ_ERR_BCBAD
      end) ls' ∧
    loaded startins strip nm pt pt' ∧ ready s0 (enc_flags strip (head pt)) nm ls' ∧
    stack ls' = [pt'] ∧ input ls' = tl.
Proof.
  intros Hok Hlds R1 S1 I1. pose proof (nprotos_len strip pt) as Hnp.
  destruct (flags_octet strip (head pt)) as (_ & _ & _ & Hf).
  assert (input_len ls = length (enc_proto s0 startins strip pt ++ tl)) as En.
  { rewrite <-I1. unfold input_len, input. by rewrite length_app. }
  set (n := length (enc_proto s0 startins strip pt ++ tl)) in *.
  assert (nprotos pt ≤ n)%nat as Hn by (unfold n; rewrite length_app; unfold len in Hnp; lia).
  destruct (tree_step s0 startins strip (enc_flags strip (head pt)) nm Hf pt ls tl (Datatypes.S n) Hok Hlds R1 I1)
    as (pt' & ls2 & E2 & Hld & R2 & S2 & I2); [lia|].
  exists pt', ls2, (n - nprotos pt)%nat. rewrite S1 in S2. split_and!; try done.
  unfold read_all. unfold rbind at 1, gets. rewrite En. unfold rbind. rewrite E2.
  by replace (Datatypes.S n - nprotos pt)%nat with (Datatypes.S (n - nprotos pt)) by lia.
Qed.

(** The reader on the octets of a dump. *)
Lemma load_dump strip pt ls :
  proto_ok s0 pt → loadable pt → st_ok s0 → lex_start ls → len (chunkarg ls) < Str.LJ_MAX_STR →
  BCDUMP_HEAD1 :: input ls = enc_dump s0 startins strip pt →
  ∃ pt' nm ls', lj_bcread ls = ROk pt' ls' ∧ loaded startins strip nm pt pt' ∧
    name_of strip (head pt) (chunkarg ls) nm ∧ rest ls' = [] ∧ ext s0 (strs ls').
Proof.
  intros Hok Hlds Hst Hls Harg Hi.
  assert (head_ok s0 (head pt)) as Hh by (destruct pt; apply Hok).
  pose proof (dump_min strip pt Hok) as Hmin. pose proof (header_min strip (head pt)).
  pose proof (input_cons BCDUMP_HEAD1 (input ls)) as El. rewrite Hi in El. unfold enc_dump in *.
  rewrite !len_app in El. change (len [0]) with 1 in El.
  destruct (bcread_start strip (head pt) ls _ Hls Hh Hst Harg Hi ltac:(lia))
    as (nm & ls1 & -> & R1 & I1 & S1 & N1).
  destruct (read_all_dump strip pt nm ls1 [0] Hok Hlds R1 S1 I1) as (pt' & ls2 & n & -> & Hld & R2 & S2 & I2).
  destruct (footer_step s0 _ nm ls2 R2 I2) as (ls3 & E3 & Er3 & S3 & Est3).
  unfold rbind at 1. cbn [read_protos]. unfold rbind at 1. rewrite E3. unfold ret.
  unfold avail. rewrite Er3. change (0 <? i32 (len [])) with false. cbv iota. rewrite S3, S2.
  exists pt', nm, (set_stack [] ls3). split_and!; try done.
  simpl. rewrite Est3. apply R2.
Qed.

(** ** Streams that are not dumps *)

(** The end of the stream where a prototype or the end mark should be. *)
Lemma proto_eof fl nm ls : ready s0 fl nm ls → input ls = [] → bcread_proto ls = RUndef.
Proof.
  intros Hrd Hi. unfold bcread_proto. unfold input in Hi. apply app_eq_nil in Hi as [Er Ec]. rewrite Er.
  destruct (want_eof 5 ls (rd_in _ _ _ _ Hrd) (rd_current _ _ _ _ Hrd)) as (ls1 & E1 & F1 & Er1 & _).
  { unfold input. by rewrite Er, Ec. }
  destruct F1 as (r1 & b1 & cs1 & -> & _). simpl in Er1. subst r1.
  unfold rbind at 1. rewrite E1. unfold bcread_dword, rbind, bcread_qword, avail. simpl.
  unfold input. by rewrite Er, Ec.
Qed.

(** A prototype that is longer than the stream. *)
Lemma proto_too_long fl nm n body ls :
  ready s0 fl nm ls → 0 < n < 2 ^ 32 → input ls = uleb n ++ body → len body < n →
  bcread_proto ls = RErr UJ_ERR_BCBAD.
Proof.
  intros Hrd Hn Hi Hl.
  assert (1 ≤ len (uleb n) ≤ 5) as Hul.
  { destruct (uleb_spec n) as [_ ?]; [unfold in_u in *; lia|]. split; [lia|]. apply uleb_short. lia. }
  assert (∃ ls1, bcread_want 5 ls = ROk () ls1 ∧ in_ok ls1 ∧ input ls1 = input ls ∧
    len (uleb n) ≤ avail ls1 ∧ rflags ls1 = fl ∧ rname ls1 = nm ∧ ext s0 (strs ls1))
    as (ls1 & E1 & O1 & I1 & A1 & Hf1 & Hn1 & He1).
  { destruct Hrd as [O Hc Hf Hnm He]. destruct (decide (5 ≤ len (input ls))) as [H5|H5].
    - destruct (fill_enough false 5 ls O (or_introl Hc) H5) as (ls1 & E1 & (r & b & cs & -> & O1 & I1 & _) & A1).
      eexists. split; [exact E1|]. split_and!; try done. lia.
    - destruct (want_eof 5 ls O Hc ltac:(unfold LJ_MAX_MEM; lia)) as (ls1 & E1 & (r & b & cs & -> & O1 & I1 & _) & Er & Ec).
      eexists. split; [exact E1|]. destruct O1. split_and!; try done.
      unfold avail. simpl in *. rewrite Er, Hi, len_app. pose proof (len_nonneg body). lia. }
  rewrite (proto_tail_eq n body) by (done || lia). unfold proto_tail.
  unfold rbind at 1. rewrite E1. unfold rbind at 1. rewrite Hi in I1. unfold input in I1.
  destruct (app_split _ _ _ _ I1) as (r' & Er' & Ir'); [unfold avail, len in A1; lia|].
  destruct (reads_dword s0 fl nm n (stack ls1) ltac:(unfold in_u; lia) ls1 r' Er' eq_refl Hf1 Hn1 He1)
    as (v & s' & -> & <- & _).
  rewrite (proj2 (Z.eqb_neq n 0)) by lia. unfold rbind at 1.
  rewrite need_too_much; [done|by eapply in_ok_upd|]. unfold input. simpl. by rewrite Ir'.
Qed.

(** What is checked in the header of a dump; [f] are the flags. *)
Definition good_header (h2 h3 v f : Z) : bool :=
  (h2 =? BCDUMP_HEAD2) && (h3 =? BCDUMP_HEAD3) && (v =? BCDUMP_VERSION) &&
  (Z.ldiff f BCDUMP_F_KNOWN =? 0).

Lemma header_bad ls h2 h3 v f tl :
  in_ok ls → 0 ≤ current ls → 13 ≤ len (input ls) → input ls = h2 :: h3 :: v :: f :: tl → 0 ≤ f < 128 →
  good_header h2 h3 v f = false → ∃ ls', bcread_header ls = ROk false ls'.
Proof.
  intros O Hc Hl Hi Hf Hg. unfold bcread_header. unfold rbind at 1. unfold bcread_want.
  destruct (fill_enough false (3 + 5 + 5) ls O (or_introl Hc)) as (ls1 & -> & F1 & A1); [done|].
  destruct F1 as (r1 & b1 & cs1 & -> & O1 & I1 & S1). rewrite Hi in I1.
  set (ls1 := set_input r1 b1 cs1 ls) in *.
  destruct (app_split (rest ls1) (concat (chunks ls1)) [h2; h3; v; f] tl I1) as (r & Er & Ir);
    [unfold avail, len in A1; simpl in *; lia|].
  cbn [app] in Er. unfold good_header in Hg.
  unfold rbind at 1. unfold bcread_byte at 1. rewrite Er.
  destruct (h2 =? BCDUMP_HEAD2); [|by eexists]. cbn [negb].
  unfold rbind at 1. unfold bcread_byte at 1. cbn [rest set_rest].
  destruct (h3 =? BCDUMP_HEAD3); [|by eexists]. cbn [negb].
  unfold rbind at 1. unfold bcread_byte at 1. cbn [rest set_rest].
  destruct (v =? BCDUMP_VERSION); [|by eexists]. cbn [negb].
  unfold rbind at 1. unfold bcread_dword. unfold rbind at 1. unfold bcread_qword, avail. cbn [rest set_rest].
  assert (uleb f = [f]) as Eu.
  { unfold uleb, write_uleb128. cbn [write_uleb128_loop LEB128_U64_MAXSIZE].
    rewrite (proj2 (Z.leb_gt _ _)) by (unfold MIN_TWOBYTE_VALUE; lia).
    simpl. unfold u8. by rewrite wrapu_id by (unfold in_u; lia). }
  pose proof (uleb_read f r ltac:(unfold in_u in *; lia)) as Hq. rewrite Eu in Hq.
  cbn [app] in Hq. rewrite Hq. unfold ret at 1. unfold u32. rewrite wrapu_id by (unfold in_u; lia).
  unfold rbind at 1. unfold modify at 1. simpl in Hg. rewrite Hg. by eexists.
Qed.

End Header.
End BcRun.
