(* ===== verification/BcTheorems.v ===== *)
(** * The theorems on dumping and loading functions

    The theorems are about any string table with the laws of [StrTable]; the
    witnesses use the string table of uj_str.c with the default hash function. *)

From stdpp Require Import base decidable list numbers option sets.
From Stdlib Require Import ZArith Lia.
From S2P Require Import Prelude Leb128 Obj Tab TabChain TabWf TabPut TabResize TabRehash TabSpec.
From S2P Require Import TabTheorems StrHash Str StrTheorems Cstr Sbuf Bc Proto BcWrite BcRead BcSpec.
From S2P Require Import BcWriteSpec BcReadSpec BcLoad BcRun.

Local Open Scope Z_scope.

Module BcTheorems.
Import Leb128 Obj Tab TabChain TabWf TabSpec TabTheorems Sbuf Bc Proto BcWrite BcRead BcSpec.
Import BcWriteSpec BcReadSpec BcStream BcLoad BcRun.

(** A writer that appends to what it has, and never fails. *)
Definition append_writer (w b : list Z) : list Z * Z := (w ++ b, 0).

Lemma append_feed bs w : feed append_writer (w, 0) bs = (w ++ concat bs, 0).
Proof.
  revert w. induction bs as [|b bs IH]; intros w; simpl; [by rewrite app_nil_r|].
  change (feed append_writer (w ++ b, 0) bs = (w ++ b ++ concat bs, 0)). by rewrite IH, app_assoc.
Qed.

(** ** A concrete program *)

Definition demo_alloc (g : Str.gstate) : Z := 128 + 64 * Z.of_nat (length (Str.all_strings g)).
#[local] Existing Instance StrTheorems.luajit2_hashf.
#[local] Existing Instance demo_heap.
#[local] Instance demo_strtable : StrTable Str.gstate := gstate_strtable demo_alloc.

(** Two strings: the chunk name "=demo" at 128 and "k" at 192. *)
Definition demo_name : list Z := [61; 100; 101; 109; 111].
Definition ret_g (r : Str.str_result) : Str.gstate :=
  match r with Str.SRet _ g => g | Str.SThrow => StrTheorems.demo_g end.
Definition demo_s1 : Str.gstate := ret_g (Str.uj_str_new 128 demo_name StrTheorems.demo_g).
Definition demo_s : Str.gstate := ret_g (Str.uj_str_new 192 [107] demo_s1).

(** A template table: an array part, and "k" in the hash part. *)
Definition ktab_puts : list (TValue * TValue) :=
  [(num 1, num 10); (str 192, TBool true); (num 2, str 128); (TBool false, num (-7))].
Definition demo_ktab : GCtab := ret_tab (run_puts ktab_puts demo_new).

Lemma ktab_puts_ok k v : (k, v) ∈ ktab_puts → key_ok k.
Proof.
  assert (Forall (λ kv : TValue * TValue, key_ok kv.1) ktab_puts) as Hall.
  { repeat constructor; vm_compute; intuition congruence. }
  rewrite Forall_forall in Hall. intros Hin. apply (Hall (k, v) Hin).
Qed.

(** The trace that compiled the loop started at this instruction. *)
Definition demo_startins (_ : Z) : Z := BCINS_ABC_raw BC_FORL 3 0xfc 0x7f.

(** A compiled loop, two upvalues, debug information, a string and a number constant. *)
Definition demo_child : GCproto :=
  MkProto
    (MkHead 1 4 PROTO_VARARG 7 0 128
       [BCINS_AD BC_FUNCV 4 0; BCINS_AD BC_HOTCNT 0 5; BCINS_AD BC_JFORL 3 7; BCINS_AD 0x4f 1 2]
       [0x8000; 3] [int2num 5] 10 3 [0; 1; 2; 120; 0; 121; 0; 9; 9] 3 7)
    [KStr 192; KTab demo_ktab].

Definition demo_proto : GCproto :=
  MkProto
    (MkHead 0 2 (Z.lor PROTO_CHILD PROTO_VARARG) 0 0 128 [BCINS_AD BC_FUNCV 2 0; BCINS_AD 0x4f 0 2]
       [] [] 1 20 [0] 1 1)
    [KStr 128; KChild demo_child; KStr 192].

(** The lexer state for octets that come in blocks. *)
Definition demo_ls (cs : list (list Z)) : LexState Str.gstate :=
  MkLS [] uj_sbuf_init cs BCDUMP_HEAD1 0 0 [61; 120] [] demo_s.

Lemma demo_s_wf : Str.g_wf demo_s ∧ Str.interned demo_s demo_name 128 ∧ Str.interned demo_s [107] 192.
Proof.
  destruct (StrTheorems.uj_str_new_spec StrTheorems.demo_g 128 demo_name StrTheorems.demo_g_wf)
    as (s1 & g1 & E1 & D1 & W1 & _ & I1).
  { vm_compute. intros Hin. apply list_elem_of_singleton in Hin. congruence. }
  { by vm_compute. }
  assert (g1 = demo_s1) as -> by (unfold demo_s1; by rewrite E1).
  assert (Str.saddr s1 = 128) as A1.
  { revert E1. vm_compute. by intros [= <-]. }
  destruct (StrTheorems.uj_str_new_spec demo_s1 192 [107] W1) as (s2 & g2 & E2 & D2 & W2 & _ & I2).
  { vm_compute. intros Hin. apply elem_of_cons in Hin as [?|Hin]; [congruence|].
    apply list_elem_of_singleton in Hin. congruence. }
  { by vm_compute. }
  assert (g2 = demo_s) as -> by (unfold demo_s; by rewrite E2).
  assert (Str.saddr s2 = 192) as A2.
  { revert E2. vm_compute. by intros [= <-]. }
  split; [done|]. rewrite !I2, !I1, A1, A2. auto.
Qed.

Lemma demo_str_ok a : a = 128 ∨ a = 192 → str_ok demo_s a.
Proof.
  destruct demo_s_wf as (W & I1 & I2). intros [->| ->].
  - split; [split; [done|]|by vm_compute]. by rewrite (interned_data _ _ _ W I1).
  - split; [split; [done|]|by vm_compute]. by rewrite (interned_data _ _ _ W I2).
Qed.

Lemma demo_st_ok : st_ok demo_s.
Proof.
  split; [apply demo_s_wf|]. vm_compute. intros Hin.
  repeat (apply elem_of_cons in Hin as [?|Hin]; [congruence|]). by apply elem_of_nil in Hin.
Qed.

Ltac demo_val :=
  match goal with
  | |- kval_ok _ (TGCV _ _) => apply demo_str_ok; auto
  | |- kval_ok _ (TNum _) => cbn [kval_ok]; split; vm_compute; congruence
  | |- _ => exact I
  end.

Lemma demo_ktab_ok : ktab_ok demo_s demo_ktab.
Proof.
  destruct demo_new_wf as [W Hm]. split.
  - apply (run_puts_wf ktab_puts demo_new demo_ktab W Hm ktab_puts_ok). by vm_compute.
  - intros i v Hi. apply list_elem_of_lookup_2 in Hi. revert Hi.
    change (array demo_ktab) with ltac:(let x := eval vm_compute in (array demo_ktab) in exact x).
    intros Hin.
    repeat (apply elem_of_cons in Hin as [->|Hin]; [demo_val|]).
    by apply elem_of_nil in Hin.
  - intros i n Hi Hv. apply list_elem_of_lookup_2 in Hi. revert Hi.
    change (node demo_ktab) with ltac:(let x := eval vm_compute in (node demo_ktab) in exact x).
    intros Hin.
    repeat (apply elem_of_cons in Hin as [->|Hin]; cbn [key val] in *;
      [first [by destruct (Hv eq_refl)|split; demo_val]|]).
    by apply elem_of_nil in Hin.
Qed.

(** Decidable facts of the example, by evaluation. *)
Lemma by_eval (P : Prop) `{!Decision P} : bool_decide P = true → P.
Proof. apply bool_decide_eq_true_1. Qed.

Ltac demo_head :=
  split; lazymatch goal with
  | |- str_ok _ _ => apply demo_str_ok; auto
  | |- _ => apply (by_eval _); vm_compute; reflexivity
  end.

Lemma demo_heads_ok : head_ok demo_s (head demo_child) ∧ head_ok demo_s (head demo_proto).
Proof. split; demo_head. Qed.

Lemma demo_proto_ok : proto_ok demo_s demo_proto.
Proof.
  destruct demo_heads_ok as [Hc Hp]. pose proof demo_ktab_ok. pose proof (demo_str_ok 192 (or_intror eq_refl)).
  split; [exact Hp|]. split; [done|]. split; [done|].
  split; [exact (demo_str_ok 128 (or_introl eq_refl))|]. split; [|by split_and!].
  split; [exact Hc|]. split; [done|]. split; [by repeat constructor|]. by split_and!.
Qed.

(** Octets cut into blocks of three. *)
Fixpoint blocks3 (l : list Z) : list (list Z) :=
  match l with
  | a :: b :: c :: l => [a; b; c] :: blocks3 l
  | [] => []
  | l => [l]
  end.

Definition demo_dump : list Z := enc_dump demo_s demo_startins false demo_proto.

Lemma demo_start cs :
  forallb (λ c, bool_decide (c ≠ [])) cs = true → len (concat cs) ≤ LJ_MAX_SBUF → lex_start demo_s (demo_ls cs).
Proof.
  intros Hc Hl. split; [by split; [|left]|done|done| |done].
  apply Forall_forall. intros c Hin. rewrite forallb_forall in Hc.
  apply list_elem_of_In, Hc, bool_decide_eq_true in Hin. done.
Qed.

(** ** Theorems *)

(** C33: dumping and loading.  For any string table, prototype and [strip] flag,
    [lj_bcwrite] with a writer that never fails ends with status 0 and gives the
    octets of the reference encoding; and however the stream cuts these octets
    into blocks, [lj_bcread] returns the function that was dumped: nested
    prototypes, instructions (with the compiled loops restored), upvalues,
    constants, and template tables with the same contents; chunk name and debug
    information too, unless stripped, when the name is that of the reader. *)
Theorem bcdump_roundtrip {S} `{StrTable S} `{ObjHeap} (s0 : S) startins errst strip pt
    (Hok : proto_ok s0 pt) (Hld : loadable pt) (Hst : st_ok s0)
    (Hl : len (enc_dump s0 startins strip pt) + 10 ≤ LJ_MAX_SBUF) :
  let os := enc_dump s0 startins strip pt in
  lj_bcwrite s0 startins append_writer errst strip pt [] = Some (os, 0) ∧
  ∀ ls, lex_start s0 ls → len (chunkarg ls) < Str.LJ_MAX_STR → BCDUMP_HEAD1 :: input ls = os →
    ∃ pt' nm ls', lj_bcread ls = ROk pt' ls' ∧ loaded startins strip nm pt pt' ∧
      name_of s0 strip (head pt) (chunkarg ls) nm ∧ rest ls' = [] ∧ ext s0 (strs ls').
Proof.
  split.
  - rewrite lj_bcwrite_feed, append_feed by done. by rewrite dump_blocks_concat.
  - intros ls Hls Ha Hi. by apply load_dump.
Qed.

Lemma bcdump_roundtrip_witness :
  ∃ os, lj_bcwrite demo_s demo_startins append_writer 1 false demo_proto [] = Some (os, 0) ∧
    ∃ pt' nm ls', lj_bcread (demo_ls (blocks3 (tail os))) = ROk pt' ls' ∧
      loaded demo_startins false nm demo_proto pt' ∧ nm = 128 ∧ rest ls' = [].
Proof.
  destruct (bcdump_roundtrip demo_s demo_startins 1 false demo_proto demo_proto_ok) as [Hw Hr].
  - by vm_compute.
  - exact demo_st_ok.
  - vm_compute. congruence.
  - eexists. split; [exact Hw|].
    destruct (Hr (demo_ls (blocks3 (tail demo_dump)))) as (pt' & nm & ls' & E & Hld & Hn & Hrest & _).
    + apply demo_start; vm_compute; congruence.
    + vm_compute. reflexivity.
    + vm_compute. reflexivity.
    + exists pt', nm, ls'. split; [exact E|]. split; [exact Hld|]. split; [exact Hn|exact Hrest].
Defined.

(** C34: the calls of the writer function.  For any writer function, [lj_bcwrite]
    passes it the header, then for every prototype, children first, its length
    and its octets, then the end mark; it stops calling it once it has returned
    a non-zero status, and returns that status.  The blocks together are the
    reference encoding. *)
Theorem lj_bcwrite_calls {S W} `{StrTable S} (wfunc : W → list Z → W * Z) (s0 : S) startins errst strip pt w
    (Hok : proto_ok s0 pt) (Hl : len (enc_dump s0 startins strip pt) + 10 ≤ LJ_MAX_SBUF) :
  lj_bcwrite s0 startins wfunc errst strip pt w =
    Some (feed wfunc (w, 0) (dump_blocks s0 startins strip pt)) ∧
  concat (dump_blocks s0 startins strip pt) = enc_dump s0 startins strip pt.
Proof. split; [by apply lj_bcwrite_feed|apply dump_blocks_concat]. Qed.

(** A writer that takes two blocks and fails. *)
Lemma lj_bcwrite_calls_witness :
  lj_bcwrite demo_s demo_startins (λ n _, (n + 1, if n =? 2 then 5 else 0)) 1 true demo_proto 0 = Some (3, 5).
Proof.
  destruct (lj_bcwrite_calls (λ n (_ : list Z), (n + 1, if n =? 2 then 5 else 0)) demo_s demo_startins 1 true
    demo_proto 0 demo_proto_ok) as [E _].
  - vm_compute. congruence.
  - rewrite E. vm_compute. reflexivity.
Defined.

(** Streams that are refused.  A stream of at least 13 octets behind the
    first one is refused as incompatible if the magic octets, the version or the
    flags are not those the reader knows, and as malformed if the first
    prototype says it is longer than what follows. *)
Theorem lj_bcread_refuses {S} `{StrTable S} `{ObjHeap} (s0 : S) ls (Hls : lex_start s0 ls)
    (Hl : 13 ≤ len (input ls)) :
  (∀ h2 h3 v f tl, input ls = h2 :: h3 :: v :: f :: tl → 0 ≤ f < 128 → good_header h2 h3 v f = false →
    lj_bcread ls = RErr UJ_ERR_BCFMT) ∧
  (∀ strip h n body, head_ok s0 h → st_ok s0 → len (chunkarg ls) < Str.LJ_MAX_STR →
    BCDUMP_HEAD1 :: input ls = enc_header s0 strip h ++ uleb n ++ body → 0 < n < 2 ^ 32 → len body < n →
    lj_bcread ls = RErr UJ_ERR_BCBAD).
Proof.
  split.
  - intros h2 h3 v f tl Hi Hf Hg. destruct (start_ok s0 ls Hls) as [O Ei].
    destruct (header_bad (start ls) h2 h3 v f tl O) as [ls' E]; try done; [apply Hls|].
    unfold lj_bcread. unfold rbind at 1, modify at 1. fold (start ls). unfold rbind. by rewrite E.
  - intros strip h n body Hh Hst Ha Hi Hn Hb.
    destruct (bcread_start s0 strip h ls _ Hls Hh Hst Ha Hi Hl) as (nm & ls1 & -> & R1 & I1 & _).
    unfold read_all. unfold rbind at 1, gets. unfold rbind at 1. cbn [read_protos]. unfold rbind at 1.
    by rewrite (proto_too_long s0 _ nm n body ls1 R1 Hn I1 Hb).
Qed.

Lemma lj_bcread_refuses_witness :
  lj_bcread (demo_ls [[76; 74; 2; 0; 5]; tail demo_dump]) = RErr UJ_ERR_BCFMT ∧
  lj_bcread (demo_ls [[76; 74; 1; 2]; [200; 1; 2; 0; 2]; [0; 4; 0; 1; 80]]) = RErr UJ_ERR_BCBAD.
Proof.
  split.
  - refine (proj1 (lj_bcread_refuses demo_s (demo_ls [[76; 74; 2; 0; 5]; tail demo_dump]) _ _)
      76 74 2 0 (5 :: tail demo_dump) _ _ _).
    + apply demo_start; vm_compute; congruence.
    + vm_compute. congruence.
    + vm_compute. reflexivity.
    + lia.
    + reflexivity.
  - refine (proj2 (lj_bcread_refuses demo_s
      (demo_ls [[76; 74; 1; 2]; [200; 1; 2; 0; 2]; [0; 4; 0; 1; 80]]) _ _)
      true (head demo_child) 200 [2; 0; 2; 0; 4; 0; 1; 80] _ demo_st_ok _ _ _ _).
    + apply demo_start; vm_compute; congruence.
    + vm_compute. congruence.
    + exact (proj1 demo_heads_ok).
    + vm_compute. reflexivity.
    + vm_compute. reflexivity.
    + lia.
    + vm_compute. reflexivity.
Defined.

(** A dump that ends where the end mark should be.  The reader asks for more
    octets, is told that there are none, and decodes a length from the empty
    buffer: [bcread_qword] only asserts that an octet was there and returns a
    value that was never assigned. *)
Theorem bcread_without_end_mark {S} `{StrTable S} `{ObjHeap} (s0 : S) startins strip pt ls
    (Hok : proto_ok s0 pt) (Hld : loadable pt) (Hst : st_ok s0) (Hls : lex_start s0 ls) (Hl : 13 ≤ len (input ls))
    (Ha : len (chunkarg ls) < Str.LJ_MAX_STR)
    (Hi : BCDUMP_HEAD1 :: input ls = enc_header s0 strip (head pt) ++ enc_proto s0 startins strip pt) :
  lj_bcread ls = RUndef.
Proof.
  rewrite <-(app_nil_r (enc_proto _ _ _ _)) in Hi.
  assert (head_ok s0 (head pt)) as Hh by (destruct pt; apply Hok).
  destruct (bcread_start s0 strip (head pt) ls _ Hls Hh Hst Ha Hi Hl) as (nm & ls1 & -> & R1 & I1 & S1 & _).
  destruct (read_all_dump s0 startins strip pt nm ls1 [] Hok Hld R1 S1 I1) as (pt' & ls2 & n & -> & _ & R2 & _ & I2).
  unfold rbind at 1. cbn [read_protos]. unfold rbind at 1. by rewrite (proto_eof s0 _ nm ls2 R2 I2).
Qed.

Lemma bcread_without_end_mark_witness :
  lj_bcread (demo_ls (blocks3 (tail (take (length demo_dump - 1) demo_dump)))) = RUndef.
Proof.
  apply (bcread_without_end_mark demo_s demo_startins false demo_proto).
  - exact demo_proto_ok.
  - by vm_compute.
  - exact demo_st_ok.
  - apply demo_start; vm_compute; congruence.
  - vm_compute. congruence.
  - vm_compute. reflexivity.
  - vm_compute. reflexivity.
Defined.

(** Cdata constants.  The writer takes the payload of a complex constant for
    two tagged values of 16 octets, and reads the imaginary part from behind the
    16 octets of the payload; the reader stores every cdata constant as a tagged
    value, whose tag lies behind the payload of a 64-bit integer, and the
    imaginary part behind that of a complex number. *)
Theorem cdata_constants_undefined {S} `{StrTable S} `{ObjHeap} (s0 : S) :
  (∀ re im sb, in_u 64 re → sb_wf sb → uj_sbuf_size sb + 30 ≤ LJ_MAX_SBUF →
    bcwrite_kgc1 s0 (KComplex re im) sb = SUndef) ∧
  (∀ tp lo hi tl (ls : LexState S), tp ∈ [BCDUMP_KGC_I64; BCDUMP_KGC_U64; BCDUMP_KGC_COMPLEX] →
    in_u 64 lo → in_u 64 hi → rest ls = uleb tp ++ uleb lo ++ uleb hi ++ tl → bcread_kgc1 ls = RUndef).
Proof.
  split.
  - intros re im sb Hre Wsb Hsz. cbn [bcwrite_kgc1].
    destruct (writes_seq (uj_sbuf_push_uleb128 BCDUMP_KGC_COMPLEX) (uj_sbuf_push_uleb128 re)
      (uleb BCDUMP_KGC_COMPLEX) (uleb re) ltac:(by apply writes_uleb) ltac:(by apply writes_uleb) sb Wsb)
      as (c & E & _).
    { rewrite len_app. destruct (uleb_spec re Hre). change (len (uleb BCDUMP_KGC_COMPLEX)) with 1. lia. }
    revert E. destruct (uj_sbuf_push_uleb128 BCDUMP_KGC_COMPLEX sb) as [sb1| |]; try done. simpl.
    unfold push_raw. simpl. by intros ->.
  - intros tp lo hi tl ls Htp Hlo Hhi Hr.
    assert (in_u 64 tp ∧ u32 tp = tp) as [Hu Et].
    { repeat (apply elem_of_cons in Htp as [->|Htp]; [done|]). by apply elem_of_nil in Htp. }
    unfold bcread_kgc1, bcread_dword. unfold rbind at 1 2. rewrite (qword_run tp _ ls Hu Hr).
    unfold ret at 1. rewrite Et.
    repeat (apply elem_of_cons in Htp as [->|Htp]; [|]); [| | |by apply elem_of_nil in Htp]; simpl;
      unfold rbind at 1; rewrite (qword_run lo (uleb hi ++ tl)) by done; simpl; try done.
    unfold rbind. simpl. by rewrite (qword_run hi tl).
Qed.

Lemma cdata_constants_undefined_witness :
  bcwrite_kgc1 demo_s (KComplex 1 2) uj_sbuf_init = SUndef ∧
  bcread_kgc1 (set_rest [2; 5; 0; 9] (demo_ls [])) = RUndef.
Proof.
  destruct (cdata_constants_undefined demo_s) as [Hw Hr]. split.
  - apply Hw; [by vm_compute|by split; [by vm_compute|left]|by vm_compute].
  - apply (Hr 2 5 0 [9]); [left; reflexivity|by vm_compute..].
Defined.

End BcTheorems.
