(* ===== verification/DebugInfo.v ===== *)
(** * Debug information of prototypes (frontend/lj_parse.c, uj_proto.c)

    When the parser has finished a function, it stores the line numbers of its
    instructions and the names of its upvalues and variables with their ranges
    behind the prototype ([fs_prep_line], [fs_fixup_line], [fs_prep_var],
    [fs_fixup_var]).  The operations of uj_proto.c find them again. *)

From stdpp Require Import base decidable list numbers option sets sorting.
From Stdlib Require Import ZArith Lia.
From S2P Require Import Prelude Leb128 Obj Tab Cstr Sbuf Bc Str Proto ProtoOps.
From S2P Require Import BcWrite BcRead BcSpec BcWriteSpec.

Local Open Scope Z_scope.

Module DebugInfo.
Import Leb128 Sbuf Bc Proto ProtoOps BcWrite BcRead BcSpec BcWriteSpec.

(** ** The parser *)

(** The name of a variable: one of the fixed names, or a string object. *)
Inductive vname := Fixed (n : Z) | Named (s : list Z).

Definition VSTACK_GOTO : Z := 0x02.
Definition VSTACK_LABEL : Z := 0x04.

Record VarInfo := MkVar { name : vname; startpc : Z; endpc : Z; info : Z }.

Definition gola_isgotolabel (v : VarInfo) : bool :=
  negb (Z.land (info v) (Z.lor VSTACK_GOTO VSTACK_LABEL) =? 0).

(** The octets of a line number difference. *)
Definition line_width (numline : Z) : nat :=
  if numline <? 256 then 1%nat else if numline <? 65536 then 2%nat else 4%nat.
Definition le_octets (w : nat) (v : Z) : list Z := (λ k, u8 (Z.shiftr v (8 * Z.of_nat k))) <$> seq 0 w.

(** [pc] instructions, with the header. *)
Definition fs_prep_line (pc numline : Z) : Z :=
  Z.shiftl (pc - 1) (if numline <? 256 then 0 else if numline <? 65536 then 1 else 2).

(** [lines] are the line numbers of the instructions behind the header. *)
Definition fs_fixup_line (first numline : Z) (lines : list Z) : list Z :=
  concat (le_octets (line_width numline) <$> ((λ l, i32 (l - first)) <$> lines)).

(** A string object with the zero octet that follows it. *)
Definition push_name (s : list Z) : sbuf → result := uj_sbuf_push_block (s ++ [0]).

(** Store local variable names and compressed ranges. *)
Fixpoint push_vars (vs : list VarInfo) (lastpc : Z) : sbuf → result :=
  match vs with
  | [] => nothing
  | v :: vs =>
      if gola_isgotolabel v then push_vars vs lastpc
      else
        (λ sb, bind (match name v with Fixed n => uj_sbuf_push_char n | Named s => push_name s end sb)
        (λ sb, bind (uj_sbuf_push_uleb128 (u32 (startpc v - lastpc)) sb)
        (λ sb, bind (uj_sbuf_push_uleb128 (u32 (endpc v - startpc v)) sb)
        (push_vars vs (startpc v)))))
  end.

(** The buffer and [*ofsvar]. *)
Definition fs_prep_var (uvnames : list (list Z)) (vs : list VarInfo) (sb : sbuf) : option (sbuf * Z) :=
  match each push_name uvnames (uj_sbuf_reset sb) with
  | SOk sb =>
      let ofsvar := uj_sbuf_size sb in
      match bind (push_vars vs 0 sb) (uj_sbuf_push_char 0) with
      | SOk sb => Some (sb, ofsvar)
      | _ => None
      end
  | _ => None
  end.

(** [fs_finish]: the debug information of the prototype. *)
Definition fs_debug (first numline : Z) (lines : list Z) (sb : sbuf) (ofsvar : Z) (h : phead) : phead :=
  let ofsdbg := fs_prep_line (Z.of_nat (length (bc h))) numline in
  MkHead (numparams h) (framesize h) (flags h) (trace h) (sizept h) (chunkname h) (bc h) (uv h) (knum h)
    first numline (fs_fixup_line first numline lines ++ data sb) ofsdbg (ofsdbg + ofsvar).

(** ** Lines *)

Lemma le_octets_len w v : length (le_octets w v) = w.
Proof. unfold le_octets. by rewrite length_fmap, length_seq. Qed.

Lemma le_octets_val w v :
  in_u (8 * Z.of_nat w) v → foldr (λ o v, o + 256 * v) 0 (le_octets w v) = v.
Proof.
  revert v. induction w as [|w IH]; intros v Hv.
  { unfold in_u in Hv. change (8 * Z.of_nat 0) with 0 in Hv. simpl. lia. }
  unfold le_octets. cbn [seq fmap list_fmap foldr]. rewrite <-fmap_S_seq, <-list_fmap_compose.
  assert (foldr (λ o v, o + 256 * v) 0 ((λ k, u8 (Z.shiftr v (8 * Z.of_nat k))) ∘ S <$> seq 0 w) = v / 256)
    as ->.
  { rewrite <-(IH (v / 256)).
    - f_equal. unfold le_octets. apply list_fmap_ext. intros i k _. simpl.
      replace (v / 256) with (Z.shiftr v 8) by (rewrite Z.shiftr_div_pow2 by lia; done).
      rewrite Z.shiftr_shiftr by lia. do 2 f_equal. lia.
    - unfold in_u in *. replace (8 * Z.of_nat (S w)) with (8 + 8 * Z.of_nat w) in Hv by lia.
      rewrite Z.pow_add_r in Hv by lia. change (2 ^ 8) with 256 in Hv. split; [by apply Z.div_pos; lia|].
      apply Z.div_lt_upper_bound; lia. }
  change (8 * Z.of_nat 0) with 0. rewrite Z.shiftr_0_r. unfold u8, wrapu. change (2 ^ 8) with 256.
  pose proof (Z.div_mod v 256). lia.
Qed.

Lemma num_at_concat w i vs v rest :
  vs !! i = Some v → in_u (8 * Z.of_nat w) v → num_at w i (concat (le_octets w <$> vs) ++ rest) = Some v.
Proof.
  revert i. induction vs as [|x vs IH]; intros i Hi Hv; [done|].
  cbn [fmap list_fmap concat]. rewrite <-app_assoc. destruct i as [|i].
  - injection Hi as ->. unfold num_at. rewrite Nat.mul_0_r, drop_0. cbv zeta.
    rewrite take_app_length' by (by rewrite le_octets_len). rewrite decide_True by apply le_octets_len.
    by rewrite le_octets_val.
  - rewrite <-(IH i) by done. unfold num_at. cbv zeta.
    replace (w * S i)%nat with (length (le_octets w x) + w * i)%nat by (rewrite le_octets_len; lia).
    by rewrite <-drop_drop, drop_app_length.
Qed.

(** ** Names *)

(** C strings: octets that are not zero. *)
Definition cname (s : list Z) : Prop := Forall (λ c, c ≠ 0) s.

Lemma cstr_app s r : cname s → cstr (s ++ 0 :: r) = Some s.
Proof.
  induction 1 as [|c s Hc Hs IH]; [done|]. cbn [app cstr].
  by rewrite (proj2 (Z.eqb_neq c 0) Hc), IH.
Qed.

Lemma skip_zero p : skip_cstrs 0 p = Some p.
Proof. by destruct p. Qed.

Lemma skip_one n s r : cname s → skip_cstrs (S n) (s ++ 0 :: r) = skip_cstrs n r.
Proof.
  induction 1 as [|c s Hc Hs IH]; [done|]. cbn [app skip_cstrs].
  rewrite (proj2 (Z.eqb_neq c 0) Hc). exact IH.
Qed.

Lemma skip_all n l r :
  Forall cname l → (n ≤ length l)%nat →
  skip_cstrs n (concat ((λ s, s ++ [0]) <$> l) ++ r) = Some (concat ((λ s, s ++ [0]) <$> drop n l) ++ r).
Proof.
  intros Hl. revert n. induction Hl as [|s l Hs Hl IH]; intros n Hn.
  { simpl in Hn. replace n with O by lia. apply skip_zero. }
  destruct n as [|n]; [apply skip_zero|]. cbn [fmap list_fmap concat drop]. simpl in Hn.
  rewrite <-!app_assoc. cbn [app]. rewrite skip_one by done. apply IH. lia.
Qed.

(** [bcread_varinfo] finds the same place. *)
Lemma skip_names_cstrs n p q ofs :
  skip_cstrs n p = Some q → skip_names p n ofs = Some (ofs + (len p - len q)).
Proof.
  revert n ofs. induction p as [|c p IH]; intros n ofs.
  - destruct n; simpl; [|done]. intros [= <-]. f_equal. lia.
  - destruct n as [|n]; [intros [= <-]; cbn [skip_names]; f_equal; lia|].
    cbn [skip_cstrs skip_names]. intros E. rewrite (IH _ _ E). f_equal. unfold len. simpl. lia.
Qed.

(** ** Variables *)

(** The name of a variable as the code shows it. *)
Definition fixed_names : list (list Z) :=
  [[40; 102; 111; 114; 32; 105; 110; 100; 101; 120; 41];
   [40; 102; 111; 114; 32; 108; 105; 109; 105; 116; 41];
   [40; 102; 111; 114; 32; 115; 116; 101; 112; 41];
   [40; 102; 111; 114; 32; 103; 101; 110; 101; 114; 97; 116; 111; 114; 41];
   [40; 102; 111; 114; 32; 115; 116; 97; 116; 101; 41];
   [40; 102; 111; 114; 32; 99; 111; 110; 116; 114; 111; 108; 41]].

Definition shown (n : vname) : list Z :=
  match n with Fixed n => default [] (fixed_names !! Z.to_nat (n - 1)) | Named s => s end.

Definition vname_ok (n : vname) : Prop :=
  match n with
  | Fixed n => 0 < n < VARNAME__MAX
  | Named s => cname s ∧ (if s is c :: _ then VARNAME__MAX ≤ c else False)
  end.

Record var_ok (v : VarInfo) : Prop := {
  vo_name : vname_ok (name v);
  vo_range : 0 ≤ startpc v ≤ endpc v ∧ endpc v < 2 ^ 32
}.

Definition real (v : VarInfo) : Prop := gola_isgotolabel v = false.
#[local] Instance real_dec v : Decision (real v) := decide (gola_isgotolabel v = false).

Definition active (pos : Z) (v : VarInfo) : Prop := startpc v ≤ pos < endpc v.
#[local] Instance active_dec pos v : Decision (active pos v).
Proof. unfold active. apply _. Defined.

Definition enc_vname (n : vname) : list Z := match n with Fixed n => [n] | Named s => s ++ [0] end.

Fixpoint enc_vars (vs : list VarInfo) (lastpc : Z) : list Z :=
  match vs with
  | [] => []
  | v :: vs => enc_vname (name v) ++ uleb (startpc v - lastpc) ++ uleb (endpc v - startpc v) ++
      enc_vars vs (startpc v)
  end.

(** The variables start one after the other. *)
Fixpoint ascending (vs : list VarInfo) (lastpc : Z) : Prop :=
  match vs with
  | [] => True
  | v :: vs => lastpc ≤ startpc v ∧ ascending vs (startpc v)
  end.

Lemma fixed_shown n :
  0 < n < VARNAME__MAX → (q ← skip_cstrs (Z.to_nat (n - 1)) VARNAMEDEF; cstr q) = Some (shown (Fixed n)).
Proof.
  unfold VARNAME__MAX. intros Hn.
  assert (n = 1 ∨ n = 2 ∨ n = 3 ∨ n = 4 ∨ n = 5 ∨ n = 6) as Hc by lia.
  by repeat (destruct Hc as [->|Hc]; [vm_compute; reflexivity|]); rewrite Hc.
Qed.

Lemma read_pos v r : in_u 32 v → proto_read_uleb128 (uleb v ++ r) = Some (v, r).
Proof.
  intros Hv. assert (in_u 64 v) as Hv64 by (unfold in_u in *; lia).
  destruct (uleb_spec v Hv64) as [Hw Hl].
  destruct (write_uleb128_loop_spec _ _ _ (proj1 Hv) Hw) as (Hf & Hd & _).
  unfold proto_read_uleb128, read_uleb128, read_uleb128_gen.
  rewrite read_uleb128_loop_framed by (done || (simpl; lia)). cbn [andb].
  rewrite Hd, Z.mul_1_r, Z.add_0_l. unfold u64, u32. rewrite (wrapu_id 64), (wrapu_id 32), Z.add_0_l by done.
  unfold len. by rewrite Nat2Z.id, drop_app_length.
Qed.

(** The reader on the stored variables. *)
Lemma varname_spec vs r lastpc pos slot fuel :
  Forall var_ok vs → ascending vs lastpc → 0 ≤ lastpc < 2 ^ 32 → 0 ≤ slot < 2 ^ 32 →
  (length vs < fuel)%nat →
  varname_loop fuel (enc_vars vs lastpc ++ 0 :: r) lastpc pos slot =
  Some (shown ∘ name <$> filter (active pos) vs !! Z.to_nat slot).
Proof.
  intros Hvs. revert lastpc slot fuel. induction Hvs as [|v vs Hv Hvs IH]; intros lastpc slot fuel Ha Hlast Hs Hf.
  { destruct fuel as [|fuel]; [simpl in Hf; lia|]. done. }
  destruct fuel as [|fuel]; [simpl in Hf; lia|]. simpl in Hf. destruct Ha as [Hle Ha].
  destruct Hv as [Hn [[Hs0 Hse] He]].
  set (q := uleb (startpc v - lastpc) ++ uleb (endpc v - startpc v) ++ enc_vars vs (startpc v) ++ 0 :: r).
  assert (∃ vn p1, enc_vars (v :: vs) lastpc ++ 0 :: r = vn :: p1 ∧ vn ≠ 0 ∧
    (if vn <? VARNAME__MAX then Some p1 else skip_cstrs 1 p1) = Some q ∧
    (if vn <? VARNAME__MAX then q ← skip_cstrs (Z.to_nat (vn - 1)) VARNAMEDEF; cstr q
     else cstr (vn :: p1)) = Some (shown (name v))) as (vn & p1 & -> & Hvn & Hskip & Hshow).
  { cbn [enc_vars]. rewrite <-!app_assoc. fold q. destruct (name v) as [n|[|c s]]; cbn [enc_vname vname_ok] in *.
    - exists n, q. split; [done|]. rewrite (proj2 (Z.ltb_lt _ _)) by lia.
      split_and!; [lia|done|by apply fixed_shown].
    - by destruct Hn.
    - destruct Hn as [Hc Hge].
      exists c, (s ++ 0 :: q). split; [by cbn [app]; rewrite <-app_assoc|].
      rewrite (proj2 (Z.ltb_ge c VARNAME__MAX)) by done.
      apply Forall_cons in Hc as [Hc0 Hc]. split; [done|]. split; [by rewrite skip_one, skip_zero|].
      apply (cstr_app (c :: s)). by apply Forall_cons_2. }
  cbn [varname_loop]. unfold VARNAME_END. rewrite (proj2 (Z.eqb_neq vn 0) Hvn), Hskip.
  cbn [mbind option_bind]. unfold q. rewrite read_pos by (unfold in_u; lia).
  cbn [mbind option_bind].
  replace (lastpc + (startpc v - lastpc)) with (startpc v) by lia.
  assert (u32 (startpc v) = startpc v) as -> by (apply wrapu_id; unfold in_u; lia).
  assert (∀ w, w ∈ vs → startpc v ≤ startpc w) as Hlater.
  { clear -Ha. revert Ha. generalize (startpc v). induction vs as [|w vs IH]; intros s Ha x Hx.
    - by apply elem_of_nil in Hx.
    - destruct Ha as [Hle Ha]. apply elem_of_cons in Hx as [->|Hx]; [done|].
      specialize (IH _ Ha _ Hx). lia. }
  destruct (pos <? startpc v) eqn:Ep; bprop.
  { assert (filter (active pos) (v :: vs) = []) as ->; [|done].
    rewrite filter_cons, decide_False by (unfold active; lia). apply elem_of_nil_inv.
    intros w [[? _] Hw]%list_elem_of_filter. specialize (Hlater w Hw). lia. }
  rewrite read_pos by (unfold in_u; lia). cbn [mbind option_bind].
  replace (startpc v + (endpc v - startpc v)) with (endpc v) by lia.
  assert (u32 (endpc v) = endpc v) as -> by (apply wrapu_id; unfold in_u; lia).
  rewrite filter_cons. destruct (endpc v <=? pos) eqn:Ee; bprop.
  { rewrite decide_False by (unfold active; lia). apply IH; done || lia. }
  rewrite decide_True by done.
  destruct (slot =? 0) eqn:E0; bprop; cbn [negb].
  - subst slot. rewrite Hshow. done.
  - assert (u32 (slot - 1) = slot - 1) as -> by (apply wrapu_id; unfold in_u; lia).
    rewrite IH by (done || lia). replace (Z.to_nat slot) with (S (Z.to_nat (slot - 1))) by lia. done.
Qed.

(** ** What the parser stores *)

Lemma writes_vname n : vname_ok n →
  writes (match n with Fixed n => uj_sbuf_push_char n | Named s => push_name s end) (enc_vname n).
Proof.
  destruct n as [n|s]; intros Hn.
  - apply writes_char. unfold vname_ok, VARNAME__MAX, in_u in *. lia.
  - apply writes_block.
Qed.

Lemma writes_vars vs lastpc :
  Forall var_ok (filter real vs) → ascending (filter real vs) lastpc → 0 ≤ lastpc →
  writes (push_vars vs lastpc) (enc_vars (filter real vs) lastpc).
Proof.
  revert lastpc. induction vs as [|v vs IH]; intros lastpc; [intros _ _ _; apply writes_nothing|].
  rewrite filter_cons. cbn [push_vars]. unfold real at 1 3 5. destruct (decide _) as [->|Hg].
  - intros [[Hn [[? ?] ?]] Hvs]%Forall_cons [Hle Ha] Hl. cbn [enc_vars].
    assert (∀ x, 0 ≤ x < 2 ^ 32 → u32 x = x) as Hu by (intros; apply wrapu_id; unfold in_u; lia).
    rewrite !Hu by lia.
    apply writes_seq; [by apply writes_vname|].
    apply writes_seq; [apply writes_uleb; unfold in_u; lia|].
    apply writes_seq; [apply writes_uleb; unfold in_u; lia|]. apply IH; done || lia.
  - apply not_false_iff_true in Hg. rewrite Hg. apply IH.
Qed.

Definition enc_uvnames (uvnames : list (list Z)) : list Z := concat ((λ s, s ++ [0]) <$> uvnames).

Lemma fs_prep_var_spec uvnames vs sb :
  sb_wf sb → Forall var_ok (filter real vs) → ascending (filter real vs) 0 →
  len (enc_uvnames uvnames) + len (enc_vars (filter real vs) 0) + 20 ≤ LJ_MAX_SBUF →
  ∃ c, fs_prep_var uvnames vs sb =
    Some (MkSbuf (enc_uvnames uvnames ++ enc_vars (filter real vs) 0 ++ [0]) c, len (enc_uvnames uvnames)).
Proof.
  intros [Hf Hc] Hvs Ha Hl. pose proof (len_nonneg (enc_vars (filter real vs) 0)).
  assert (sb_wf (uj_sbuf_reset sb)) as Wr by (split; [unfold uj_sbuf_size in *; simpl; lia|done]).
  destruct (writes_each push_name (λ s, s ++ [0]) uvnames ltac:(intros; apply writes_block) _ Wr)
    as (c1 & E1 & W1); [unfold uj_sbuf_size; simpl; fold (enc_uvnames uvnames); lia|].
  fold (enc_uvnames uvnames) in *. cbn [data uj_sbuf_reset app] in *.
  unfold fs_prep_var. rewrite E1.
  destruct (writes_seq (push_vars vs 0) (uj_sbuf_push_char 0) (enc_vars (filter real vs) 0) [0]
    ltac:(by apply writes_vars) ltac:(by apply writes_char) _ W1) as (c & E & _).
  { rewrite len_app. change (len [0]) with 1. unfold uj_sbuf_size. cbn [data]. unfold len in *. lia. }
  cbv beta in E. rewrite E. by exists c.
Qed.

(** Lines within the function. *)
Definition lines_ok (first nl : Z) (lines : list Z) : Prop :=
  0 ≤ nl ∧ 0 ≤ first ∧ in_s 32 (first + nl) ∧
  Forall (λ l, first ≤ l ≤ first + nl) lines.

Lemma line_found first nl lines r i l :
  lines_ok first nl lines → lines !! i = Some l →
  num_at (line_width nl) i (fs_fixup_line first nl lines ++ r) = Some (l - first).
Proof.
  intros (Hn & Hf & Hfn & Hls) Hi. rewrite Forall_lookup in Hls. specialize (Hls _ _ Hi). simpl in Hls.
  unfold in_s in *. apply num_at_concat.
  - rewrite list_lookup_fmap, Hi. simpl. f_equal. apply wraps_id; unfold in_s; lia.
  - unfold line_width, in_u.
    destruct (nl <? 256) eqn:E1; bprop; [change (2 ^ (8 * Z.of_nat 1)) with 256; lia|].
    destruct (nl <? 65536) eqn:E2; bprop;
      [change (2 ^ (8 * Z.of_nat 2)) with 65536|change (2 ^ (8 * Z.of_nat 4)) with (2 ^ 32)]; lia.
Qed.

Lemma fixup_line_len first nl lines :
  len (fs_fixup_line first nl lines) = fs_prep_line (Z.of_nat (length lines) + 1) nl.
Proof.
  unfold fs_fixup_line, fs_prep_line.
  assert (∀ l, length (concat (le_octets (line_width nl) <$> l)) = (line_width nl * length l)%nat) as Hc.
  { induction l as [|x l IH]; [simpl; lia|].
    cbn [fmap list_fmap concat]. rewrite length_app, le_octets_len, IH. simpl. lia. }
  unfold len. rewrite Hc, length_fmap. rewrite Z.shiftl_mul_pow2 by (repeat case_match; lia).
  unfold line_width. repeat case_match; simpl; lia.
Qed.

Lemma enc_vars_len vs lastpc : Forall var_ok vs → (length vs ≤ length (enc_vars vs lastpc))%nat.
Proof.
  intros Hvs. revert lastpc. induction Hvs as [|v vs Hv Hvs IH]; intros lastpc; [done|].
  cbn [enc_vars]. rewrite !length_app. specialize (IH (startpc v)).
  assert (1 ≤ length (enc_vname (name v)))%nat; [|simpl; lia].
  destruct (name v); simpl; [|rewrite length_app; simpl]; lia.
Qed.

(** C35: the debug information of a function.  For the lines, upvalue names and
    variables that the parser has collected, [uj_proto_line] gives the line of
    every instruction, [uj_proto_uvname] the name of every upvalue, and
    [uj_proto_varname] the name of the variable that is in a slot at a position,
    if there is one; and [bcread_proto] finds the variables where the parser has
    put them, so a dump keeps all of it. *)
Theorem debug_info_correct first nl lines uvnames vs sb h
    (Wsb : sb_wf sb) (Hls : lines_ok first nl lines)
    (Hbc : length (bc h) = S (length lines)) (Huv : length (uv h) = length uvnames)
    (Hun : Forall cname uvnames) (Hvs : Forall var_ok (filter real vs)) (Ha : ascending (filter real vs) 0)
    (Hfit : len (enc_uvnames uvnames) + len (enc_vars (filter real vs) 0) + 20 ≤ LJ_MAX_SBUF) :
  ∃ sb' ofsvar, fs_prep_var uvnames vs sb = Some (sb', ofsvar) ∧
  let h' := fs_debug first nl lines sb' ofsvar h in
  (∀ i l, lines !! i = Some l → uj_proto_line h' (Z.of_nat i + 1) = Some l) ∧
  (∀ pos slot, in_u 32 slot → uj_proto_varname h' pos slot =
     Some (shown ∘ name <$> filter (active pos) (filter real vs) !! Z.to_nat slot)) ∧
  (∀ i s, uvnames !! i = Some s → uj_proto_uvname h' i = Some s) ∧
  uvinfo h' = sizeli (size (bc h')) (numline h') ∧
  bcread_varinfo (dbg h') (uvinfo h') (size (uv h')) = Some (varinfo h').
Proof.
  destruct (fs_prep_var_spec uvnames vs sb Wsb Hvs Ha Hfit) as [c E].
  eexists _, _. split; [exact E|]. set (os := enc_uvnames uvnames ++ enc_vars (filter real vs) 0 ++ [0]).
  set (li := fs_fixup_line first nl lines). intros h'.
  assert (dbg h' = li ++ os) as Ed by done.
  assert (li ++ os ≠ []) as Hne.
  { unfold os. intros En. apply (f_equal length) in En. rewrite !length_app in En. simpl in En. lia. }
  assert (len li = uvinfo h') as Eli.
  { unfold li. rewrite fixup_line_len. simpl. f_equal. lia. }
  assert (varinfo h' = uvinfo h' + len (enc_uvnames uvnames)) as Evi by done.
  assert (drop (Z.to_nat (uvinfo h')) (dbg h') = os) as Eu.
  { rewrite <-Eli, Ed. unfold len. by rewrite Nat2Z.id, drop_app_length. }
  split_and!.
  - intros i l Hi. unfold uj_proto_line. rewrite Ed, bool_decide_eq_false_2 by done. simpl.
    pose proof (lookup_lt_Some _ _ _ Hi).
    rewrite (proj2 (Z.ltb_ge _ _)), !(proj2 (Z.eqb_neq _ _)) by lia. simpl.
    replace (Z.to_nat (Z.of_nat i + 1 - 1)) with i by lia.
    assert ((if nl <=? 255 then 1%nat else if nl <=? 65535 then 2%nat else 4%nat) = line_width nl) as ->.
    { unfold line_width. repeat case_match; bprop; done || lia. }
    unfold li. rewrite (line_found _ _ _ _ _ _ Hls Hi). simpl. f_equal.
    destruct Hls as (Hn & Hf & Hfn & Hls). rewrite Forall_lookup in Hls. specialize (Hls _ _ Hi). simpl in Hls.
    unfold in_s in *. unfold i32. rewrite (wraps_id 32 (l - first)) by (unfold in_s; lia).
    rewrite wraps_id by (unfold in_s; lia). lia.
  - intros pos slot Hs. unfold uj_proto_varname. rewrite Ed, bool_decide_eq_false_2, <-Ed by done.
    assert (drop (Z.to_nat (varinfo h')) (dbg h') = enc_vars (filter real vs) 0 ++ [0]) as ->.
    { rewrite Evi, Z2Nat.inj_add, <-drop_drop, Eu by (rewrite <-?Eli; apply len_nonneg).
      unfold os, len. by rewrite Nat2Z.id, drop_app_length. }
    apply varname_spec; try done.
    rewrite length_app. enough (length (filter real vs) ≤ length (enc_vars (filter real vs) 0))%nat by (simpl; lia).
    apply enc_vars_len. done.
  - intros i s Hi. unfold uj_proto_uvname. pose proof (lookup_lt_Some _ _ _ Hi).
    rewrite decide_True by (simpl; lia). rewrite Ed, bool_decide_eq_false_2, <-Ed, Eu by done.
    unfold os, enc_uvnames. rewrite skip_all by (done || lia). cbn [mbind option_bind].
    rewrite (drop_S _ s) by done. cbn [fmap list_fmap concat]. rewrite <-!app_assoc. cbn [app].
    apply cstr_app. rewrite Forall_lookup in Hun. eauto.
  - simpl. unfold sizeli, fs_prep_line, size. done.
  - unfold bcread_varinfo. rewrite Eu.
    rewrite (skip_names_cstrs _ _ (enc_vars (filter real vs) 0 ++ [0])).
    + f_equal. rewrite Evi. unfold os. rewrite len_app. lia.
    + unfold os, enc_uvnames. change (size (uv h')) with (Z.of_nat (length (uv h))).
      rewrite Nat2Z.id, Huv, skip_all by done. rewrite drop_all. done.
Qed.

(** A loop variable, a label, and a local variable "a" in three lines; the upvalue "x". *)
Lemma debug_info_correct_witness :
  let vs := [MkVar (Fixed 1) 1 3 0; MkVar (Named [108]) 1 0 VSTACK_LABEL; MkVar (Named [97]) 2 4 0] in
  let h := MkHead 0 4 0 0 0 0 [0; 0; 0; 0] [0x8000] [] 0 0 [] 0 0 in
  ∃ sb' ofsvar, fs_prep_var [[120]] vs uj_sbuf_init = Some (sb', ofsvar) ∧
    let h' := fs_debug 10 2 [10; 11; 12] sb' ofsvar h in
    uj_proto_line h' 2 = Some 11 ∧ uj_proto_varname h' 2 1 = Some (Some [97]) ∧
    uj_proto_uvname h' 0 = Some [120].
Proof.
  intros vs h.
  destruct (debug_info_correct 10 2 [10; 11; 12] [[120]] vs uj_sbuf_init h)
    as (sb' & ofsvar & E & Hl & Hv & Hu & _).
  - split; [by vm_compute|by left].
  - split_and!; [lia|lia|split; vm_compute; congruence|repeat constructor; lia].
  - reflexivity.
  - reflexivity.
  - repeat constructor; lia.
  - apply Forall_cons_2; [split; [split; vm_compute; congruence|simpl; lia]|].
    apply Forall_cons_2; [split; [split; [repeat constructor; lia|vm_compute; congruence]|simpl; lia]|].
    constructor.
  - simpl. lia.
  - vm_compute. congruence.
  - exists sb', ofsvar. split; [exact E|]. split; [exact (Hl 1%nat 11 eq_refl)|].
    split; [|exact (Hu 0%nat [120] eq_refl)]. rewrite (Hv 2 1) by (split; vm_compute; congruence).
    vm_compute. reflexivity.
Defined.

End DebugInfo.
