(* ===== verification/ProtoTheorems.v ===== *)
(** * The theorems on prototypes *)

From stdpp Require Import base decidable list numbers option sets sorting.
From Stdlib Require Import ZArith Lia.
From S2P Require Import Prelude Leb128 Obj Tab Cstr Sbuf Bc Str Proto ProtoOps.
From S2P Require Import BcWrite BcRead BcSpec BcWriteSpec DebugInfo.

Local Open Scope Z_scope.

Module ProtoTheorems.
Import Leb128 Sbuf Bc Proto ProtoOps BcWrite BcSpec BcWriteSpec.

(** ** Storing fields of an instruction *)

Lemma setbc_op_val x i : in_u 8 x → 0 ≤ i → setbc_op x i = i / 2 ^ 8 * 2 ^ 8 + x.
Proof.
  intros Hx Hi. unfold setbc_op, setbc_byte. change (8 * 0) with 0. rewrite !Z.shiftl_0_r.
  unfold u8. rewrite wrapu_id by done. change 0xff with (Z.ones 8). rewrite Z.ldiff_ones_r by lia.
  rewrite Z.shiftl_mul_pow2, Z.shiftr_div_pow2 by lia. unfold in_u in Hx.
  rewrite Z.lor_comm, lor_disjoint_add by (try apply Z.div_pos; lia). lia.
Qed.


Lemma ops_range op :
  bc_isloop op = true →
  op = BC_FORL ∨ op = BC_ITERL ∨ op = BC_ITRNL ∨ op = BC_LOOP.
Proof. unfold bc_isloop. rewrite !orb_true_iff, !Z.eqb_eq. tauto. Qed.

(** An instruction and its fields. *)
Lemma ins_fields i :
  in_u 32 i → i = BCINS_ABC_raw (bc_op i) (bc_a_raw i) (bc_b_raw i) (bc_c_raw i) ∧
    in_u 8 (bc_op i) ∧ in_u 8 (bc_a_raw i) ∧ in_u 8 (bc_b_raw i) ∧ in_u 8 (bc_c_raw i).
Proof.
  intros Hi. destruct (bc_fields i) as (-> & -> & -> & -> & _). unfold in_u in *.
  assert (0 ≤ i / 2 ^ 24 < 2 ^ 8) by (split; [apply Z.div_pos; lia|apply Z.div_lt_upper_bound; lia]).
  rewrite pack_abc by (try apply Z.mod_pos_bound; lia).
  split_and!; try (apply Z.mod_pos_bound; lia); try lia. dlia.
Qed.

Lemma setbc_op_fields x i :
  in_u 8 x → in_u 32 i →
  setbc_op x i = BCINS_ABC_raw x (bc_a_raw i) (bc_b_raw i) (bc_c_raw i).
Proof.
  intros Hx Hi. destruct (ins_fields i Hi) as (Ei & Ho & Ha & Hb & Hc). unfold in_u in *.
  rewrite setbc_op_val by (done || lia). rewrite Ei at 1. rewrite !pack_abc by lia. dlia.
Qed.

Lemma abc_fields o a b c :
  in_u 8 o → in_u 8 a → in_u 8 b → in_u 8 c →
  let i := BCINS_ABC_raw o a b c in
  in_u 32 i ∧ bc_op i = o ∧ bc_a_raw i = a ∧ bc_b_raw i = b ∧ bc_c_raw i = c ∧ bc_d_raw i = c + b * 2 ^ 8.
Proof.
  intros Ho Ha Hb Hc i. destruct (bc_fields i) as (-> & -> & -> & -> & ->). unfold i, in_u in *.
  rewrite pack_abc by lia. split_and!; dlia.
Qed.


(** ** The instructions that a dump contains *)

Section Unpatch.
Context (startins : Z → Z).









End Unpatch.

(** ** Theorems *)



(** A trace for down-recursion starts at a return instruction, which is patched with JLOOP: the
    dump has a LOOP in its place. *)
Theorem dump_downrec_wrong startins ins nslots t p :
  bc_op ins ∈ [BC_RET; BC_RET0; BC_RET1] → 0 ≤ nslots < 128 → in_u 16 t → startins t = ins →
  trace_stop_patch ins nslots t = Some p → bc_op (unpatch_ins startins p) = BC_LOOP.
Proof.
  intros Hop Hn Ht Hs Hp.
  assert (trace_stop_patch ins nslots t = Some (BCINS_AD BC_JLOOP nslots t)) as E.
  { unfold trace_stop_patch. repeat (apply elem_of_cons in Hop as [->|Hop]; [done|]). by apply elem_of_nil in Hop. }
  rewrite E in Hp. injection Hp as <-.
  assert (BCINS_AD BC_JLOOP nslots t = BCINS_ABC_raw BC_JLOOP (2 * nslots) (t / 2 ^ 8) (t `mod` 2 ^ 8)) as ->.
  { unfold BCINS_AD. change (bcmode_d BC_JLOOP) with Mlit. change (bcmode_a BC_JLOOP) with Mrbase.
    change (x2_encode Mlit t) with t. unfold x2_encode. cbn [isx2_bcm andb].
    unfold NO_REG, BCMAX_A. rewrite (proj2 (Z.eqb_neq _ _)) by lia. cbn [negb andb].
    rewrite Z.shiftl_mul_pow2 by lia. unfold u32. rewrite wrapu_id by (unfold in_u; lia).
    unfold in_u in Ht. rewrite pack_ad, pack_abc by (done || lia || dlia). dlia. }
  destruct (abc_fields BC_JLOOP (2 * nslots) (t / 2 ^ 8) (t `mod` 2 ^ 8)) as (_ & Eo & Ea & _);
    [done|unfold in_u in *; lia|unfold in_u in *; dlia|unfold in_u in *; dlia|].
  unfold unpatch_ins. rewrite Eo, Ea. cbn -[BCINS_ABC_raw bc_d_raw].
  apply abc_fields; [done|unfold in_u; lia|apply (wrapu_range 8); lia|apply (wrapu_range 8); lia].
Qed.

(** The flags of a prototype are an octet: all cases. *)
Definition flags_ok (fl : Z) : Prop :=
  Z.land (Z.lor (Z.lor fl PROTO_NOJIT) PROTO_ILOOP) PROTO_ILOOP ≠ 0 ∧
  Z.ldiff (Z.ldiff (Z.lor (Z.lor fl PROTO_NOJIT) PROTO_ILOOP) PROTO_NOJIT) PROTO_ILOOP =
    Z.ldiff (Z.ldiff fl PROTO_NOJIT) PROTO_ILOOP ∧
  u8 (u32 (u32 (fl + PROTO_CLCOUNT) -
    Z.land (Z.shiftr (u32 (fl + PROTO_CLCOUNT)) PROTO_CLC_BITS) PROTO_CLCOUNT)) / 32 = Z.min 7 (fl / 32 + 1) ∧
  u8 (u32 (u32 (fl + PROTO_CLCOUNT) -
    Z.land (Z.shiftr (u32 (fl + PROTO_CLCOUNT)) PROTO_CLC_BITS) PROTO_CLCOUNT)) `mod` 32 = fl `mod` 32.
#[local] Instance flags_ok_dec fl : Decision (flags_ok fl).
Proof. unfold flags_ok. apply _. Defined.

Lemma flags_all : Forall flags_ok (seqZ 0 256).
Proof. apply (bool_decide_eq_true_1 (Forall flags_ok (seqZ 0 256))). vm_compute. reflexivity. Qed.

Lemma enable_disable i :
  in_u 32 i → bcop_is_not_hotcounting (bc_op i) = false → bc_enable_hotcount (bc_disable_hotcount i) = i.
Proof.
  intros Hi Hn. unfold bc_disable_hotcount. destruct (bcop_is_hotcounting (bc_op i)) eqn:Eh.
  - destruct (ins_fields i Hi) as (Ei & Ho & Ha & Hb & Hc).
    assert (in_u 8 (bc_op i + BC_OFFSET_DISABLE_HOTCOUNT) ∧
      bcop_is_not_hotcounting (bc_op i + BC_OFFSET_DISABLE_HOTCOUNT) = true) as [Ho' Hin].
    { unfold bcop_is_hotcounting in Eh. apply orb_true_iff in Eh as [Hl|E]; [|apply Z.eqb_eq in E; by rewrite E].
      by apply ops_range in Hl as [->|[->|[->| ->]]]. }
    rewrite setbc_op_fields by done.
    destruct (abc_fields _ _ _ _ Ho' Ha Hb Hc) as (Hi' & Eo & Ea & Eb & Ec & _).
    unfold bc_enable_hotcount. rewrite Eo, Hin.
    replace (bc_op i + BC_OFFSET_DISABLE_HOTCOUNT + BC_OFFSET_ENABLE_HOTCOUNT) with (bc_op i)
      by (unfold BC_OFFSET_DISABLE_HOTCOUNT, BC_OFFSET_ENABLE_HOTCOUNT; lia).
    rewrite setbc_op_fields, Ea, Eb, Ec by done. by symmetry.
  - unfold bc_enable_hotcount. by rewrite Hn.
Qed.

(** Switches and counters of a prototype.  Enabling the compiler after
    disabling it gives back the bytecode and clears both flags, where no
    instruction was switched off before; a sealed prototype stays as it is; the
    counter of closures goes up to 7 and stays there, and leaves the flags alone. *)
Theorem proto_switches h (Hf : in_u 8 (flags h))
    (Hbc : Forall (λ i, in_u 32 i ∧ bcop_is_not_hotcounting (bc_op i) = false) (bc h)) :
  bc (uj_proto_enable_jit false (uj_proto_disable_jit h)) = bc h ∧
  flags (uj_proto_enable_jit false (uj_proto_disable_jit h)) =
    Z.ldiff (Z.ldiff (flags h) PROTO_NOJIT) PROTO_ILOOP ∧
  uj_proto_enable_jit true h = h ∧
  flags (uj_proto_count_closure h) / 32 = Z.min 7 (flags h / 32 + 1) ∧
  flags (uj_proto_count_closure h) `mod` 32 = flags h `mod` 32.
Proof.
  pose proof flags_all as Hall. rewrite Forall_forall in Hall.
  destruct (Hall (flags h)) as (Hne & Hfl & Hc1 & Hc2); [apply elem_of_seqZ; unfold in_u in Hf; lia|].
  unfold uj_proto_enable_jit, uj_proto_disable_jit, uj_proto_count_closure. cbn [flags bc set_flags_bc].
  rewrite (proj2 (Z.eqb_neq _ 0) Hne). cbn [flags bc set_flags_bc]. split_and!; try done.
  clear -Hbc. induction Hbc as [|i l [Hi Hn] Hl IH]; [done|].
  cbn [fmap list_fmap]. rewrite enable_disable by done. f_equal. exact IH.
Qed.

Lemma proto_switches_witness :
  let h := MkHead 0 4 2 0 0 0 [BCINS_AD BC_FUNCF 4 0; BCINS_AD BC_LOOP 0 0x8000] [] [] 0 0 [] 0 0 in
  bc (uj_proto_enable_jit false (uj_proto_disable_jit h)) = bc h ∧ bc (uj_proto_disable_jit h) ≠ bc h.
Proof.
  intros h. split; [|vm_compute; congruence]. apply (proto_switches h).
  - split; vm_compute; congruence.
  - repeat (apply Forall_cons_2; [split; [split; vm_compute; congruence|reflexivity]|]). constructor.
Defined.

(** The fields of a copied prototype are moved by the distance of the objects, also a null pointer:
    the copy of a function without debug information has dangling pointers instead. *)
Theorem fixup_null_dangles dst src :
  in_u 64 dst → in_u 64 src → dst ≠ src → proto_fixup_field dst src 0 ≠ 0.
Proof.
  unfold proto_fixup_field, u64, wrapu, in_u. intros Hd Hs Hne. dlia.
Qed.

(** ** Chunk names *)

Lemma cpart_app a b : Forall (λ c, c ≠ 0) a → cpart (a ++ b) = a ++ cpart b.
Proof.
  induction 1 as [|c a Hc Ha IH]; [done|]. cbn [app cpart]. by rewrite (proj2 (Z.eqb_neq c 0) Hc), IH.
Qed.

Lemma cpart_nonzero s : Forall (λ c, c ≠ 0) (cpart s).
Proof.
  induction s as [|c s IH]; [apply Forall_nil_2|]. cbn [cpart].
  destruct (c =? 0) eqn:E; [apply Forall_nil_2|]. bprop. by apply Forall_cons_2.
Qed.

Lemma cpart_id s : Forall (λ c, c ≠ 0) s → cpart s = s.
Proof. intros Hs. by rewrite <-(app_nil_r s), cpart_app by done. Qed.

Lemma strncpy_len s n : length (strncpy s n) = n.
Proof. unfold strncpy. rewrite length_app, length_take, length_replicate. lia. Qed.

Lemma cpart_strncpy s n : (length (cpart s) < n)%nat → cpart (strncpy s n) = cpart s.
Proof.
  intros Hl. unfold strncpy. rewrite take_ge by lia.
  destruct (n - length (cpart s))%nat as [|k] eqn:E; [lia|]. cbn [replicate].
  rewrite cpart_app by apply cpart_nonzero. cbn [cpart Z.eqb]. apply app_nil_r.
Qed.

(** A zero stored in a buffer cuts its string. *)
Lemma cpart_cut k t r : cpart (take k t ++ 0 :: r) = take k (cpart t).
Proof.
  revert t. induction k as [|k IH]; intros [|c t]; try done. cbn [take app cpart].
  destruct (c =? 0); [done|]. cbn [take]. by rewrite IH.
Qed.

(** A terminated string in a buffer. *)
Definition terminated (out : list Z) : Prop := (length (cpart out) < length out)%nat.

Lemma cpart_len s : (length (cpart s) ≤ length s)%nat.
Proof. induction s as [|c s IH]; [done|]. cbn [cpart]. destruct (c =? 0); simpl; lia. Qed.

(** The part of the source that is shown: its first line, if it fits. *)
Definition shown_source (src : list Z) (n : nat) : list Z :=
  let line := take (short_pos src (n - 12)) src in
  if decide (cpart src = line) then line else take (n - 15) line ++ TRUNC_MARK.

Lemma short_pos_le src n : (short_pos src n ≤ n)%nat ∧ Forall (λ c, c ≠ 0) (take (short_pos src n) src).
Proof.
  revert src. induction n as [|n IH]; intros [|c src]; try (split; [simpl; lia|apply Forall_nil_2]).
  cbn [short_pos]. destruct ((c =? 0) || lj_char_iscntrl c) eqn:E; [split; [lia|apply Forall_nil_2]|].
  destruct (IH src) as [Hle Hf]. split; [lia|]. cbn [take]. apply Forall_cons_2; [|done]. bprop. tauto.
Qed.

(** What [proto_shortsource] tests. *)
Lemma short_end src n :
  (default 0 (src !! short_pos src n) = 0) ↔ cpart src = take (short_pos src n) src.
Proof.
  revert src. induction n as [|n IH]; intros [|c src]; try done.
  - cbn [short_pos take cpart lookup list_lookup default]. destruct (c =? 0) eqn:E; bprop; [done|].
    simpl. split; [done|]. done.
  - cbn [short_pos]. destruct ((c =? 0) || lj_char_iscntrl c) eqn:E.
    + cbn [take cpart lookup list_lookup default]. destruct (c =? 0) eqn:E'; bprop; simpl; done.
    + apply orb_false_iff in E as [E _]. cbn [take cpart lookup list_lookup]. rewrite E.
      change ((c :: src) !! S (short_pos src n)) with (src !! short_pos src n). rewrite IH.
      split; [by intros ->|by intros [=]].
Qed.

(** Chunk names in messages.  In a buffer of [n] octets, 16 or more,
    [uj_proto_chunknamencpy] writes at most [n] octets with a terminator: of a
    name with '=' the first [n - 1] octets, of a file name ('@') the whole if it
    fits and else its end behind three dots, of source text its first line,
    truncated with dots if it does not fit, in [string "..."]. *)
Theorem chunknamencpy_correct n src (Hn : (15 < n)%nat) (Hsrc : Forall (λ c, c ≠ 0) src) :
  (let out := uj_proto_chunknamencpy (61 :: src) n in
   length out = n ∧ terminated out ∧ cpart out = take (n - 1) src) ∧
  (let out := uj_proto_chunknamencpy (64 :: src) n in
   length out = n ∧ terminated out ∧
   cpart out = if decide (length src < n)%nat then src else TRUNC_MARK ++ drop (length src - (n - 4)) src) ∧
  (let out := proto_shortsource src n in
   (length out ≤ n)%nat ∧ terminated out ∧ cpart out = CHUNK_START ++ shown_source src n ++ CHUNK_STOP).
Proof.
  assert (cpart src = src) as Ec by (by apply cpart_id). split_and!.
  - intros out. assert (length out = n) as Hl by (unfold out; simpl; rewrite length_insert; apply strncpy_len).
    assert (cpart out = take (n - 1) src) as E.
    { unfold out. cbn [uj_proto_chunknamencpy]. rewrite insert_take_drop by (rewrite strncpy_len; lia).
      rewrite cpart_cut. destruct (decide (length src < n)%nat) as [Hs|Hs].
      - by rewrite cpart_strncpy, Ec by (rewrite Ec; lia).
      - unfold strncpy. rewrite Ec, length_take, Nat.min_l, Nat.sub_diag by lia. cbn [replicate].
        rewrite app_nil_r, cpart_id by (by apply Forall_take). rewrite take_take. f_equal. lia. }
    split_and!; [done| |done]. unfold terminated. rewrite E, Hl, length_take. lia.
  - intros out. unfold terminated, out. cbn [uj_proto_chunknamencpy].
    destruct (decide (length src < n)%nat) as [Hs|Hs].
    + rewrite (proj2 (Nat.ltb_lt _ _)) by done. rewrite strncpy_len, cpart_strncpy, Ec by (rewrite Ec; lia). done.
    + rewrite (proj2 (Nat.ltb_ge _ _)) by lia. change (length TRUNC_MARK) with 3%nat.
      set (rest := drop (length src - n + 3 + 1) src).
      assert (Forall (λ c, c ≠ 0) rest) as Hr by (by apply Forall_drop).
      assert (length rest = n - 4)%nat as Hrl by (unfold rest; rewrite length_drop; lia).
      rewrite cpart_app by (by repeat constructor). rewrite !length_app, strncpy_len.
      rewrite cpart_strncpy; rewrite (cpart_id rest) by done; [|lia]. rewrite Hrl. change (length TRUNC_MARK) with 3%nat.
      split_and!; [lia|lia|]. unfold rest. do 2 f_equal. lia.
  - intros out. destruct (short_pos_le src (n - 12)) as [Hle Hf].
    assert (proto_shortsource src n = CHUNK_START ++ shown_source src n ++ CHUNK_STOP ++ [0]) as E.
    { unfold proto_shortsource, shown_source. change BRACES_LEN with 12%nat.
      change (length TRUNC_MARK) with 3%nat. set (pos := short_pos src (n - 12)). do 2 f_equal.
      destruct (decide (cpart src = take pos src)) as [Hd|Hd].
      - apply short_end in Hd. fold pos in Hd. by rewrite Hd.
      - unfold pos in Hd. rewrite <-short_end in Hd. fold pos in Hd. rewrite (proj2 (Z.eqb_neq _ 0) Hd). cbn [negb]. f_equal.
        rewrite take_take. f_equal. destruct (Nat.ltb_spec (n - 12 - 3) pos); lia. }
    assert ((length (shown_source src n) ≤ n - 12)%nat ∧ Forall (λ c, c ≠ 0) (shown_source src n)) as [Hsl Hsf].
    { unfold shown_source. destruct (decide _).
      - split; [rewrite length_take; lia|done].
      - split; [rewrite length_app, !length_take; simpl; lia|].
        apply Forall_app; split; [by apply Forall_take|by repeat constructor]. }
    unfold terminated, out. rewrite E.
    assert (cpart (CHUNK_START ++ shown_source src n ++ CHUNK_STOP ++ [0]) =
      CHUNK_START ++ shown_source src n ++ CHUNK_STOP) as ->.
    { rewrite cpart_app by (by repeat constructor). rewrite cpart_app by done.
      rewrite cpart_app by (by repeat constructor). cbn [cpart Z.eqb]. by rewrite app_nil_r. }
    rewrite !length_app. change (length CHUNK_START) with 9%nat. change (length CHUNK_STOP) with 2%nat.
    cbn [length]. split_and!; [lia|lia|done].
Qed.

Lemma chunknamencpy_correct_witness :
  cpart (uj_proto_chunknamencpy (64 :: seqZ 65 20) 16) = [46; 46; 46] ++ seqZ 73 12.
Proof.
  destruct (chunknamencpy_correct 16 (seqZ 65 20)) as [_ [(_ & _ & E) _]].
  - lia.
  - apply (bool_decide_eq_true_1 (Forall (λ c, c ≠ 0) (seqZ 65 20))). vm_compute. reflexivity.
  - rewrite E. vm_compute. reflexivity.
Defined.

End ProtoTheorems.
