(* ===== verification/Ir.v ===== *)
(** * The SSA IR of the trace compiler: format, buffer and constants

    - jit/lj_ir.h: opcodes with their modes, types, references and the
      instruction format;
    - jit/lj_iropt.h and jit/lj_ir.c: the instruction buffer, which grows upwards
      with instructions and downwards with constants, [lj_ir_emit], the interning
      of constants and [lj_ir_rollback].

    The buffer is the list of the cells [irbuf[irbotlim]] to
    [irbuf[irtoplim - 1]]; growing it moves the cells as the code does with
    [memmove] and [memcpy].  A cell keeps the constant ([i] or [ptr]) and the two
    operands in separate fields where the C structure overlaps them: no code
    reads the member of the union that was not written.  A reference is a [Z];
    operands are 16-bit fields, so [op12] is compared as a pair. *)

From stdpp Require Import base decidable list numbers option sets.
From Stdlib Require Import ZArith Lia.
From S2P Require Import Prelude Obj.

Local Open Scope Z_scope.
Import Obj.

Module Ir.

(** ** Opcodes *)

Inductive IROp :=
  | IR_LT | IR_GE | IR_LE | IR_GT | IR_ULT | IR_UGE | IR_ULE | IR_UGT | IR_EQ
  | IR_NE | IR_ABC | IR_RETF | IR_NOP | IR_BASE | IR_PVAL | IR_GCSTEP | IR_HIOP
  | IR_LOOP | IR_USE | IR_PHI | IR_RENAME | IR_TVARG | IR_TVARGF | IR_KPRI
  | IR_KINT | IR_KGC | IR_KPTR | IR_KKPTR | IR_KNULL | IR_KNUM | IR_KINT64
  | IR_KSLOT | IR_BNOT | IR_BSWAP | IR_BAND | IR_BOR | IR_BXOR | IR_BSHL | IR_BSHR
  | IR_BSAR | IR_BROL | IR_BROR | IR_ADD | IR_SUB | IR_MUL | IR_DIV | IR_MOD
  | IR_POW | IR_NEG | IR_ABS | IR_ATAN2 | IR_LDEXP | IR_MIN | IR_MAX | IR_FPMATH
  | IR_FPAND | IR_ADDOV | IR_SUBOV | IR_MULOV | IR_AREF | IR_HREFK | IR_HREF
  | IR_NEWREF | IR_UREFO | IR_UREFC | IR_FREF | IR_STRREF | IR_LREF | IR_HKLOAD
  | IR_ALOAD | IR_HLOAD | IR_ULOAD | IR_FLOAD | IR_XLOAD | IR_SLOAD | IR_VLOAD
  | IR_TVLOAD | IR_ASTORE | IR_HSTORE | IR_USTORE | IR_FSTORE | IR_XSTORE | IR_SNEW
  | IR_XSNEW | IR_TNEW | IR_TDUP | IR_CNEW | IR_CNEWI | IR_BUFHDR | IR_BUFPUT
  | IR_BUFSTR | IR_TBAR | IR_OBAR | IR_XBAR | IR_CONV | IR_TOBIT | IR_TOSTR
  | IR_STRTO | IR_CALLN | IR_CALLL | IR_CALLS | IR_CALLXS | IR_CARG.

(** The number of an opcode in the enumeration. *)
Definition irop_num (o : IROp) : Z :=
  match o with
  | IR_LT => 0 | IR_GE => 1 | IR_LE => 2 | IR_GT => 3 | IR_ULT => 4 | IR_UGE => 5
  | IR_ULE => 6 | IR_UGT => 7 | IR_EQ => 8 | IR_NE => 9 | IR_ABC => 10
  | IR_RETF => 11 | IR_NOP => 12 | IR_BASE => 13 | IR_PVAL => 14 | IR_GCSTEP => 15
  | IR_HIOP => 16 | IR_LOOP => 17 | IR_USE => 18 | IR_PHI => 19 | IR_RENAME => 20
  | IR_TVARG => 21 | IR_TVARGF => 22 | IR_KPRI => 23 | IR_KINT => 24 | IR_KGC => 25
  | IR_KPTR => 26 | IR_KKPTR => 27 | IR_KNULL => 28 | IR_KNUM => 29
  | IR_KINT64 => 30 | IR_KSLOT => 31 | IR_BNOT => 32 | IR_BSWAP => 33
  | IR_BAND => 34 | IR_BOR => 35 | IR_BXOR => 36 | IR_BSHL => 37 | IR_BSHR => 38
  | IR_BSAR => 39 | IR_BROL => 40 | IR_BROR => 41 | IR_ADD => 42 | IR_SUB => 43
  | IR_MUL => 44 | IR_DIV => 45 | IR_MOD => 46 | IR_POW => 47 | IR_NEG => 48
  | IR_ABS => 49 | IR_ATAN2 => 50 | IR_LDEXP => 51 | IR_MIN => 52 | IR_MAX => 53
  | IR_FPMATH => 54 | IR_FPAND => 55 | IR_ADDOV => 56 | IR_SUBOV => 57
  | IR_MULOV => 58 | IR_AREF => 59 | IR_HREFK => 60 | IR_HREF => 61
  | IR_NEWREF => 62 | IR_UREFO => 63 | IR_UREFC => 64 | IR_FREF => 65
  | IR_STRREF => 66 | IR_LREF => 67 | IR_HKLOAD => 68 | IR_ALOAD => 69
  | IR_HLOAD => 70 | IR_ULOAD => 71 | IR_FLOAD => 72 | IR_XLOAD => 73
  | IR_SLOAD => 74 | IR_VLOAD => 75 | IR_TVLOAD => 76 | IR_ASTORE => 77
  | IR_HSTORE => 78 | IR_USTORE => 79 | IR_FSTORE => 80 | IR_XSTORE => 81
  | IR_SNEW => 82 | IR_XSNEW => 83 | IR_TNEW => 84 | IR_TDUP => 85 | IR_CNEW => 86
  | IR_CNEWI => 87 | IR_BUFHDR => 88 | IR_BUFPUT => 89 | IR_BUFSTR => 90
  | IR_TBAR => 91 | IR_OBAR => 92 | IR_XBAR => 93 | IR_CONV => 94 | IR_TOBIT => 95
  | IR_TOSTR => 96 | IR_STRTO => 97 | IR_CALLN => 98 | IR_CALLL => 99
  | IR_CALLS => 100 | IR_CALLXS => 101 | IR_CARG => 102
  end.

Definition IR__MAX : Z := 103.

(** The opcode with a number, [IR_NOP] for numbers out of the enumeration. *)
Definition irop_of (n : Z) : IROp :=
  nth (Z.to_nat n)
    [
     IR_LT; IR_GE; IR_LE; IR_GT; IR_ULT; IR_UGE; IR_ULE; IR_UGT; IR_EQ; IR_NE;
     IR_ABC; IR_RETF; IR_NOP; IR_BASE; IR_PVAL; IR_GCSTEP; IR_HIOP; IR_LOOP;
     IR_USE; IR_PHI; IR_RENAME; IR_TVARG; IR_TVARGF; IR_KPRI; IR_KINT; IR_KGC;
     IR_KPTR; IR_KKPTR; IR_KNULL; IR_KNUM; IR_KINT64; IR_KSLOT; IR_BNOT; IR_BSWAP;
     IR_BAND; IR_BOR; IR_BXOR; IR_BSHL; IR_BSHR; IR_BSAR; IR_BROL; IR_BROR; IR_ADD;
     IR_SUB; IR_MUL; IR_DIV; IR_MOD; IR_POW; IR_NEG; IR_ABS; IR_ATAN2; IR_LDEXP;
     IR_MIN; IR_MAX; IR_FPMATH; IR_FPAND; IR_ADDOV; IR_SUBOV; IR_MULOV; IR_AREF;
     IR_HREFK; IR_HREF; IR_NEWREF; IR_UREFO; IR_UREFC; IR_FREF; IR_STRREF; IR_LREF;
     IR_HKLOAD; IR_ALOAD; IR_HLOAD; IR_ULOAD; IR_FLOAD; IR_XLOAD; IR_SLOAD;
     IR_VLOAD; IR_TVLOAD; IR_ASTORE; IR_HSTORE; IR_USTORE; IR_FSTORE; IR_XSTORE;
     IR_SNEW; IR_XSNEW; IR_TNEW; IR_TDUP; IR_CNEW; IR_CNEWI; IR_BUFHDR; IR_BUFPUT;
     IR_BUFSTR; IR_TBAR; IR_OBAR; IR_XBAR; IR_CONV; IR_TOBIT; IR_TOSTR; IR_STRTO;
     IR_CALLN; IR_CALLL; IR_CALLS; IR_CALLXS; IR_CARG] IR_NOP.

Lemma irop_of_num o : irop_of (irop_num o) = o.
Proof. by destruct o. Qed.

#[export] Instance IROp_eq_dec : EqDecision IROp.
Proof.
  refine (λ a b, cast_if (decide (irop_num a = irop_num b))); [|congruence].
  rewrite <-(irop_of_num a), <-(irop_of_num b). congruence.
Defined.

(** [a == b] on opcodes. *)
Definition opeq (a b : IROp) : bool := irop_num a =? irop_num b.

Lemma opeq_spec a b : reflect (a = b) (opeq a b).
Proof.
  unfold opeq. destruct (Z.eqb_spec (irop_num a) (irop_num b)) as [E|E]; constructor.
  - rewrite <-(irop_of_num a), <-(irop_of_num b). congruence.
  - congruence.
Qed.

(** ** Operand modes *)

Definition IRMref : Z := 0.
Definition IRMlit : Z := 1.
Definition IRMcst : Z := 2.
Definition IRMnone : Z := 3.

Definition IRM_C : Z := 16.
Definition IRM_N : Z := 0.
Definition IRM_R : Z := IRM_N.
Definition IRM_A : Z := 32.
Definition IRM_L : Z := 64.
Definition IRM_S : Z := 96.
Definition IRM_W : Z := 128.
Definition IRM_NW : Z := Z.lor IRM_N IRM_W.
Definition IRM_CW : Z := Z.lor IRM_C IRM_W.
Definition IRM_AW : Z := Z.lor IRM_A IRM_W.
Definition IRM_LW : Z := Z.lor IRM_L IRM_W.

Definition irm_kind (m : Z) : Z := Z.land m IRM_S.

Definition IRMODE (m m1 m2 : Z) : Z := Z.lxor (Z.lor (Z.lor m1 (Z.shiftl m2 2)) m) IRM_W.

Definition lj_ir_mode (o : IROp) : Z :=
  match o with
  | IR_LT | IR_GE | IR_LE | IR_GT | IR_ULT | IR_UGE | IR_ULE | IR_UGT | IR_ABC
  | IR_BSHL | IR_BSHR | IR_BSAR | IR_BROL | IR_BROR | IR_SUB | IR_DIV | IR_MOD
  | IR_POW | IR_NEG | IR_ABS | IR_ATAN2 | IR_LDEXP | IR_FPAND | IR_STRREF
  | IR_SNEW | IR_TOBIT | IR_CARG => IRMODE IRM_N IRMref IRMref
  | IR_EQ | IR_NE | IR_BAND | IR_BOR | IR_BXOR | IR_ADD | IR_MUL | IR_MIN
  | IR_MAX => IRMODE IRM_C IRMref IRMref
  | IR_RETF | IR_HIOP | IR_PHI | IR_TVARG | IR_NEWREF | IR_ASTORE | IR_HSTORE
  | IR_USTORE | IR_FSTORE | IR_XSTORE | IR_OBAR | IR_CALLXS => IRMODE IRM_S IRMref IRMref
  | IR_NOP | IR_KPRI => IRMODE IRM_N IRMnone IRMnone
  | IR_BASE => IRMODE IRM_N IRMlit IRMlit
  | IR_PVAL => IRMODE IRM_N IRMlit IRMnone
  | IR_GCSTEP | IR_LOOP | IR_XBAR => IRMODE IRM_S IRMnone IRMnone
  | IR_USE | IR_TBAR => IRMODE IRM_S IRMref IRMnone
  | IR_RENAME | IR_TVARGF | IR_CALLS => IRMODE IRM_S IRMref IRMlit
  | IR_KINT | IR_KGC | IR_KPTR | IR_KKPTR | IR_KNULL | IR_KNUM | IR_KINT64 => IRMODE IRM_N IRMcst IRMnone
  | IR_KSLOT | IR_FPMATH | IR_CALLN => IRMODE IRM_N IRMref IRMlit
  | IR_BNOT | IR_BSWAP | IR_TOSTR | IR_STRTO => IRMODE IRM_N IRMref IRMnone
  | IR_ADDOV | IR_MULOV => IRMODE IRM_CW IRMref IRMref
  | IR_SUBOV | IR_CNEWI => IRMODE IRM_NW IRMref IRMref
  | IR_AREF | IR_HREFK => IRMODE IRM_R IRMref IRMref
  | IR_HREF | IR_BUFPUT => IRMODE IRM_L IRMref IRMref
  | IR_UREFO | IR_UREFC => IRMODE IRM_LW IRMref IRMlit
  | IR_FREF => IRMODE IRM_R IRMref IRMlit
  | IR_LREF => IRMODE IRM_L IRMnone IRMnone
  | IR_HKLOAD | IR_ALOAD | IR_HLOAD | IR_ULOAD | IR_VLOAD | IR_TVLOAD => IRMODE IRM_L IRMref IRMnone
  | IR_FLOAD | IR_XLOAD | IR_BUFHDR | IR_CALLL => IRMODE IRM_L IRMref IRMlit
  | IR_SLOAD => IRMODE IRM_L IRMlit IRMlit
  | IR_XSNEW | IR_BUFSTR => IRMODE IRM_A IRMref IRMref
  | IR_TNEW => IRMODE IRM_AW IRMlit IRMlit
  | IR_TDUP => IRMODE IRM_AW IRMref IRMnone
  | IR_CNEW => IRMODE IRM_AW IRMref IRMref
  | IR_CONV => IRMODE IRM_NW IRMref IRMlit
  end.
(** ** Types *)

Definition IRT_NIL : Z := 0.
Definition IRT_P32 : Z := 5.
Definition IRT_NUM : Z := 13.
Definition IRT_I8 : Z := 15.
Definition IRT_U8 : Z := 16.
Definition IRT_I16 : Z := 17.
Definition IRT_U16 : Z := 18.
Definition IRT_INT : Z := 19.
Definition IRT_U32 : Z := 20.
Definition IRT_I64 : Z := 21.
Definition IRT_U64 : Z := 22.

Definition IRT_MARK : Z := 32.
Definition IRT_ISPHI : Z := 64.
Definition IRT_GUARD : Z := 128.
Definition IRT_TYPE : Z := 31.

Definition irt_type (t : Z) : Z := Z.land t IRT_TYPE.

(** [lj_ir_type_size], indexed by the type. *)
Definition lj_ir_type_size : list Z :=
  [8; 4; 4; 8; 8; 8; 8; 8; 8; 8; 8; 8; 8; 8; 4; 1; 1; 2; 2; 4; 4; 8; 8; 16; 0].
Definition irt_size (t : Z) : Z := nth (Z.to_nat (irt_type t)) lj_ir_type_size 0.

Definition irt_is64 (t : Z) : bool := irt_size t =? 8.
Definition irt_isnum (t : Z) : bool := irt_type t =? IRT_NUM.
Definition irt_isint (t : Z) : bool := irt_type t =? IRT_INT.
Definition irt_isu8 (t : Z) : bool := irt_type t =? IRT_U8.
Definition irt_isu16 (t : Z) : bool := irt_type t =? IRT_U16.
Definition irt_isi64 (t : Z) : bool := irt_type t =? IRT_I64.
Definition irt_isguard (t : Z) : bool := negb (Z.land t IRT_GUARD =? 0).
Definition irt_ismarked (t : Z) : bool := negb (Z.land t IRT_MARK =? 0).
Definition irt_isphi (t : Z) : bool := negb (Z.land t IRT_ISPHI =? 0).
Definition irt_setmark (t : Z) : Z := Z.lor t IRT_MARK.
Definition irt_clearmark (t : Z) : Z := Z.ldiff t IRT_MARK.

(** ** References *)

Definition REF_BIAS : Z := 32768.
Definition REF_TRUE : Z := REF_BIAS - 3.
Definition REF_FALSE : Z := REF_BIAS - 2.
Definition REF_NIL : Z := REF_BIAS - 1.
Definition REF_BASE : Z := REF_BIAS.
Definition REF_FIRST : Z := REF_BIAS + 1.
Definition REF_DROP : Z := 65535.

Definition irref_isk (ref : Z) : bool := ref <? REF_BIAS.

(** ** Instructions *)

Record IRIns := MkIns {
  io : IROp;        (* opcode *)
  it : Z;           (* type and flags *)
  op1 : Z;
  op2 : Z;
  ii : Z;           (* the constant: [i], or the address [ptr] *)
  hints : Z;
  prev : Z }.

(** Contents of memory that was never written. *)
Definition ir_zero : IRIns := MkIns IR_LT 0 0 0 0 0 0.

Definition set_io (o : IROp) (x : IRIns) : IRIns :=
  MkIns o (it x) (op1 x) (op2 x) (ii x) (hints x) (prev x).
Definition set_it (t : Z) (x : IRIns) : IRIns :=
  MkIns (io x) t (op1 x) (op2 x) (ii x) (hints x) (prev x).
Definition set_op1 (a : Z) (x : IRIns) : IRIns :=
  MkIns (io x) (it x) a (op2 x) (ii x) (hints x) (prev x).
Definition set_op2 (b : Z) (x : IRIns) : IRIns :=
  MkIns (io x) (it x) (op1 x) b (ii x) (hints x) (prev x).
Definition set_prev (p : Z) (x : IRIns) : IRIns :=
  MkIns (io x) (it x) (op1 x) (op2 x) (ii x) (hints x) p.

Definition ir_sideeff (x : IRIns) : bool :=
  IRM_S <=? Z.land (Z.lor (it x) (Z.ldiff 255 IRT_GUARD)) (lj_ir_mode (io x)).

Definition ir_tonop (x : IRIns) : IRIns :=
  MkIns IR_NOP IRT_NIL 0 0 (ii x) (hints x) 0.

(** ** Compiler state *)

Record ScEvEntry := MkScev {
  scev_idx : Z; scev_start : Z; scev_stop : Z; scev_dir : bool }.

Record jit_State := MkJ {
  flags : Z;
  guardemit : Z;
  fins : IRIns;              (* J->fold.ins *)
  fleft : IRIns;             (* J->fold.left *)
  fright : IRIns;            (* J->fold.right *)
  k64 : list (list Z);       (* the chain of arrays of 64 bit constants *)
  irbuf : list IRIns;        (* the cells from [irbotlim] up to [irtoplim] *)
  irtoplim : Z;
  irbotlim : Z;
  nk : Z;                    (* J->cur.nk: lowest constant *)
  nins : Z;                  (* J->cur.nins: next instruction *)
  chain : IROp → Z;
  scev : ScEvEntry }.

Definition set_guardemit (v : Z) (J : jit_State) : jit_State :=
  MkJ (flags J) v (fins J) (fleft J) (fright J) (k64 J) (irbuf J) (irtoplim J)
    (irbotlim J) (nk J) (nins J) (chain J) (scev J).
Definition set_fins (v : IRIns) (J : jit_State) : jit_State :=
  MkJ (flags J) (guardemit J) v (fleft J) (fright J) (k64 J) (irbuf J) (irtoplim J)
    (irbotlim J) (nk J) (nins J) (chain J) (scev J).
Definition set_fleft (v : IRIns) (J : jit_State) : jit_State :=
  MkJ (flags J) (guardemit J) (fins J) v (fright J) (k64 J) (irbuf J) (irtoplim J)
    (irbotlim J) (nk J) (nins J) (chain J) (scev J).
Definition set_fright (v : IRIns) (J : jit_State) : jit_State :=
  MkJ (flags J) (guardemit J) (fins J) (fleft J) v (k64 J) (irbuf J) (irtoplim J)
    (irbotlim J) (nk J) (nins J) (chain J) (scev J).
Definition set_k64 (v : list (list Z)) (J : jit_State) : jit_State :=
  MkJ (flags J) (guardemit J) (fins J) (fleft J) (fright J) v (irbuf J) (irtoplim J)
    (irbotlim J) (nk J) (nins J) (chain J) (scev J).
Definition set_buf (b : list IRIns) (top bot : Z) (J : jit_State) : jit_State :=
  MkJ (flags J) (guardemit J) (fins J) (fleft J) (fright J) (k64 J) b top
    bot (nk J) (nins J) (chain J) (scev J).
Definition set_nk (v : Z) (J : jit_State) : jit_State :=
  MkJ (flags J) (guardemit J) (fins J) (fleft J) (fright J) (k64 J) (irbuf J)
    (irtoplim J) (irbotlim J) v (nins J) (chain J) (scev J).
Definition set_nins (v : Z) (J : jit_State) : jit_State :=
  MkJ (flags J) (guardemit J) (fins J) (fleft J) (fright J) (k64 J) (irbuf J)
    (irtoplim J) (irbotlim J) (nk J) v (chain J) (scev J).
Definition set_chain (o : IROp) (r : Z) (J : jit_State) : jit_State :=
  MkJ (flags J) (guardemit J) (fins J) (fleft J) (fright J) (k64 J) (irbuf J)
    (irtoplim J) (irbotlim J) (nk J) (nins J)
    (λ o', if opeq o' o then r else chain J o') (scev J).

(** [IR(ref)], and a store to that cell. *)
Definition IR (J : jit_State) (ref : Z) : IRIns :=
  nth (Z.to_nat (ref - irbotlim J)) (irbuf J) ir_zero.
Definition set_ir (ref : Z) (x : IRIns) (J : jit_State) : jit_State :=
  set_buf (<[Z.to_nat (ref - irbotlim J) := x]> (irbuf J)) (irtoplim J) (irbotlim J) J.

(** ** The emitter *)

Definition LJ_MIN_IRSZ : Z := 32.

(** Grow IR buffer at the top. *)
Definition lj_ir_growtop (J : jit_State) : jit_State :=
  let szins := irtoplim J - irbotlim J in
  if negb (szins =? 0) then
    set_buf (irbuf J ++ replicate (Z.to_nat szins) ir_zero)
      (irbotlim J + 2 * szins) (irbotlim J) J
  else
    let bot := REF_BASE - LJ_MIN_IRSZ / 4 in
    set_buf (replicate (Z.to_nat LJ_MIN_IRSZ) ir_zero) (bot + LJ_MIN_IRSZ) bot J.

(** Grow IR buffer at the bottom or shift it up. *)
Definition lj_ir_growbot (J : jit_State) : jit_State :=
  let szins := irtoplim J - irbotlim J in
  let n := Z.to_nat (nins J - irbotlim J) in
  if nins J + Z.shiftr szins 1 <? irtoplim J then
    (* More than half of the buffer is free on top: shift up by a quarter. *)
    let ofs := Z.shiftr szins 2 in
    set_buf (take (Z.to_nat ofs) (irbuf J) ++ take n (irbuf J)
               ++ drop (Z.to_nat ofs + n) (irbuf J))
      (irtoplim J - ofs) (irbotlim J - ofs) J
  else
    (* Double the buffer size, but split the growth amongst top/bottom. *)
    let ofs := if 256 <=? szins then 128 else Z.shiftr szins 1 in
    set_buf (replicate (Z.to_nat ofs) ir_zero ++ take n (irbuf J)
               ++ replicate (Z.to_nat (2 * szins - ofs) - n) ir_zero)
      (irbotlim J - ofs + 2 * szins) (irbotlim J - ofs) J.

Definition lj_ir_nextins (J : jit_State) : jit_State * Z :=
  let ref := nins J in
  let J := if irtoplim J <=? ref then lj_ir_growtop J else J in
  (set_nins (ref + 1) J, ref).

(** Emit IR without any optimizations. *)
Definition lj_ir_emit (J : jit_State) : jit_State * Z :=
  let (J, ref) := lj_ir_nextins J in
  let op := io (fins J) in
  let x := MkIns op (it (fins J)) (op1 (fins J)) (op2 (fins J)) (ii (IR J ref))
             (hints (fins J)) (chain J op) in
  let J := set_chain op ref (set_ir ref x J) in
  (set_guardemit (Z.lor (guardemit J) (it (fins J))) J, ref).

(** ** Interning of constants *)

Definition ir_nextk (J : jit_State) : jit_State * Z :=
  let ref := nk J in
  let J := if ref <=? irbotlim J then lj_ir_growbot J else J in
  (set_nk (ref - 1) J, ref - 1).

(** [for (ref = ...; ref; ref = cir[ref].prev) if (p) goto found;]; 0 when the loop
    ends.  Constants are chained upwards, so [REF_BIAS - nk] rounds are enough. *)
Fixpoint chain_find (fuel : nat) (J : jit_State) (p : IRIns → bool) (ref : Z) : Z :=
  match fuel with
  | O => 0
  | S fuel =>
      if ref =? 0 then 0
      else if p (IR J ref) then ref
      else chain_find fuel J p (prev (IR J ref))
  end.

(** The shape shared by the interning functions: search the chain of the opcode,
    else take the next constant cell, fill it and link it. *)
Definition ir_intern (J : jit_State) (op : IROp) (p : IRIns → bool)
    (x : Z → IRIns) : jit_State * Z :=
  let ref := chain_find (Z.to_nat (REF_BIAS - nk J)) J p (chain J op) in
  if negb (ref =? 0) then (J, ref)
  else
    let (J, ref) := ir_nextk J in
    (set_chain op ref (set_ir ref (x (chain J op)) J), ref).

Definition lj_ir_kint (J : jit_State) (k : Z) : jit_State * Z :=
  ir_intern J IR_KINT (λ x, ii x =? k) (MkIns IR_KINT IRT_INT 0 0 k 0).

Definition LJ_MIN_K64SZ : nat := 16.

(** Position of the first constant equal to [u] in one array. *)
Fixpoint k64_search (l : list Z) (u : Z) (idx : nat) : option nat :=
  match l with
  | [] => None
  | v :: l => if v =? u then Some idx else k64_search l u (S idx)
  end.

(** Find 64 bit constant in chained array or add it; the address of element
    [idx] of array [a] is [16 * a + idx]. *)
Fixpoint k64_find_or_add (ks : list (list Z)) (u : Z) (a : nat) : list (list Z) * Z :=
  match ks with
  | [] => ([[u]], Z.of_nat (LJ_MIN_K64SZ * a))
  | k :: ks' =>
      match k64_search k u 0 with
      | Some idx => (ks, Z.of_nat (LJ_MIN_K64SZ * a + idx))
      | None =>
          match ks' with
          | [] =>
              if (length k <? LJ_MIN_K64SZ)%nat
              then ([k ++ [u]], Z.of_nat (LJ_MIN_K64SZ * a + length k))
              else ([k; [u]], Z.of_nat (LJ_MIN_K64SZ * S a))
          | _ =>
              let (ks', adr) := k64_find_or_add ks' u (S a) in (k :: ks', adr)
          end
      end
  end.

Definition lj_ir_k64_find (J : jit_State) (u : Z) : jit_State * Z :=
  let (ks, adr) := k64_find_or_add (k64 J) u 0 in (set_k64 ks J, adr).

(** [rawV(tv)] of the constant at an address. *)
Definition k64_val (J : jit_State) (adr : Z) : Z :=
  nth (Z.to_nat adr `mod` LJ_MIN_K64SZ) (nth (Z.to_nat adr / LJ_MIN_K64SZ) (k64 J) []) 0.

(** Intern 64 bit constant, given by its address. *)
Definition lj_ir_k64 (J : jit_State) (op : IROp) (tv : Z) : jit_State * Z :=
  let t := if opeq op IR_KNUM then IRT_NUM else IRT_I64 in
  ir_intern J op (λ x, ii x =? tv) (MkIns op t 0 0 tv 0).

Definition lj_ir_knum_u64 (J : jit_State) (u : Z) : jit_State * Z :=
  let (J, tv) := lj_ir_k64_find J u in lj_ir_k64 J IR_KNUM tv.

Definition lj_ir_kint64 (J : jit_State) (u : Z) : jit_State * Z :=
  let (J, tv) := lj_ir_k64_find J u in lj_ir_k64 J IR_KINT64 tv.

(** Check whether a number is int and return it. -0 is NOT considered an int. *)
Definition numistrueint (n : Z) : option Z :=
  let k := lj_num2int n in
  if num_eq n (int2num k) then
    if (k =? 0) && tvismzero n then None else Some k
  else None.

Definition lj_ir_knumint (J : jit_State) (n : Z) : jit_State * Z :=
  match numistrueint n with
  | Some k => lj_ir_kint J k
  | None => lj_ir_knum_u64 J n
  end.

Definition lj_ir_kgc (J : jit_State) (o : Z) (t : Z) : jit_State * Z :=
  ir_intern J IR_KGC (λ x, ii x =? o) (MkIns IR_KGC t 0 0 o 0).

Definition lj_ir_kptr_ (J : jit_State) (op : IROp) (ptr : Z) : jit_State * Z :=
  ir_intern J op (λ x, ii x =? ptr) (MkIns op IRT_P32 0 0 ptr 0).

Definition lj_ir_knull (J : jit_State) (t : Z) : jit_State * Z :=
  ir_intern J IR_KNULL (λ x, it x =? t) (MkIns IR_KNULL t 0 0 0 0).

Definition lj_ir_kslot (J : jit_State) (key slot : Z) : jit_State * Z :=
  ir_intern J IR_KSLOT (λ x, (op1 x =? key) && (op2 x =? slot))
    (MkIns IR_KSLOT IRT_P32 key slot 0 0).

(** ** Rollback *)

(** Rollback IR to previous state. *)
Fixpoint ir_rollback_loop (n : nat) (J : jit_State) (nins ref : Z) : jit_State * Z :=
  match n with
  | O => (J, nins)
  | S n =>
      if ref <? nins then
        let nins := nins - 1 in
        let x := IR J nins in
        ir_rollback_loop n (set_chain (io x) (prev x) J) nins ref
      else (J, nins)
  end.

Definition lj_ir_rollback (J : jit_State) (ref : Z) : jit_State :=
  let (J, n) := ir_rollback_loop (Z.to_nat (nins J - ref)) J (nins J) ref in
  set_nins n J.

End Ir.
