(* ===== verification/IrWf.v ===== *)
(** * Invariants of the IR buffer

    [buf_ok]: the limits of the buffer enclose the constants and the
    instructions.  [ir_wf]: cells below [REF_BIAS] hold constants and cells above
    hold instructions, every opcode's chain stays inside the buffer, and equal
    integer constants have equal references.  [ext J J'] says that [J'] was
    obtained from [J] by adding constants and instructions. *)

From stdpp Require Import base decidable list numbers option sets.
From Stdlib Require Import ZArith Lia.
From S2P Require Import Prelude Obj Ir.

Local Open Scope Z_scope.
Import Ir.

Module IrWf.

(** ** Cells *)

Record buf_ok (J : jit_State) : Prop := {
  bo_len : irtoplim J - irbotlim J = Z.of_nat (length (irbuf J));
  bo_bot : irbotlim J ≤ nk J;
  bo_nk : nk J ≤ REF_TRUE;
  bo_nins : REF_FIRST ≤ nins J;
  bo_top : nins J ≤ irtoplim J }.

Lemma IR_set_ir J r x r' :
  irtoplim J - irbotlim J = Z.of_nat (length (irbuf J)) →
  irbotlim J ≤ r < irtoplim J → irbotlim J ≤ r' →
  IR (set_ir r x J) r' = if r' =? r then x else IR J r'.
Proof.
  intros Hl Hr Hr'. unfold IR, set_ir. simpl. rewrite !nth_lookup.
  destruct (Z.eqb_spec r' r) as [->|Hne].
  - rewrite list_lookup_insert_eq by lia. done.
  - rewrite list_lookup_insert_ne by lia. done.
Qed.

Definition refs (J : jit_State) (r : Z) : Prop := nk J ≤ r < nins J.

(** The parts of the state that taking a cell leaves alone. *)
Definition frame (J J' : jit_State) : Prop :=
  flags J' = flags J ∧ guardemit J' = guardemit J ∧ fins J' = fins J ∧
  fleft J' = fleft J ∧ fright J' = fright J ∧ k64 J' = k64 J ∧ chain J' = chain J ∧
  scev J' = scev J ∧ (∀ r, refs J r → IR J' r = IR J r).

Lemma growtop_spec J :
  buf_ok J → irtoplim J ≤ nins J →
  let J' := lj_ir_growtop J in
  buf_ok J' ∧ nins J' = nins J ∧ nk J' = nk J ∧ nins J < irtoplim J' ∧ frame J J'.
Proof.
  intros [Hl Hb Hk Hi Ht] Hn. unfold lj_ir_growtop, REF_TRUE, REF_FIRST in *.
  rewrite (proj2 (Z.eqb_neq _ 0)) by lia. simpl.
  assert (nins J = irtoplim J) by lia.
  split_and!; try done; try lia; [constructor; simpl; unfold REF_TRUE, REF_FIRST; try lia|].
  - rewrite length_app, length_replicate. lia.
  - unfold frame, IR. simpl. split_and!; try done. intros r [? ?].
    rewrite !nth_lookup, lookup_app_l by lia. done.
Qed.

Lemma growbot_spec J :
  buf_ok J → nk J ≤ irbotlim J →
  let J' := lj_ir_growbot J in
  buf_ok J' ∧ nins J' = nins J ∧ nk J' = nk J ∧ irbotlim J' < nk J ∧ frame J J'.
Proof.
  intros [Hl Hb Hk Hi Ht] Hn. unfold lj_ir_growbot, REF_TRUE, REF_FIRST in *.
  rewrite !Z.shiftr_div_pow2 by lia. change (2 ^ 1) with 2. change (2 ^ 2) with 4.
  set (szins := irtoplim J - irbotlim J) in *.
  destruct (Z.ltb_spec (nins J + szins / 2) (irtoplim J)) as [Hs|Hs]; simpl.
  - assert (1 ≤ szins / 4) by dlia.
    assert (nins J - irbotlim J + szins / 4 ≤ szins) by dlia.
    split_and!; try done; try lia; [constructor; simpl; unfold REF_TRUE, REF_FIRST; try lia|].
    + rewrite !length_app, !length_take, length_drop. lia.
    + unfold frame, IR. simpl. split_and!; try done. intros r [? ?].
      rewrite !nth_lookup, lookup_app_r by (rewrite length_take; lia).
      rewrite length_take, lookup_app_l by (rewrite length_take; lia).
      rewrite lookup_take_lt by lia. do 2 f_equal. lia.
  - set (ofs := if 256 <=? szins then 128 else szins / 2).
    assert (1 ≤ ofs ≤ szins) by (unfold ofs; case_test; bprop; dlia).
    split_and!; try done; try lia; [constructor; simpl; unfold REF_TRUE, REF_FIRST; try lia|].
    + rewrite !length_app, !length_replicate, length_take. lia.
    + unfold frame, IR. simpl. split_and!; try done. intros r [? ?].
      rewrite !nth_lookup, lookup_app_r by (rewrite length_replicate; lia).
      rewrite length_replicate, lookup_app_l by (rewrite length_take; lia).
      rewrite lookup_take_lt by lia. do 2 f_equal. lia.
Qed.

Lemma frame_refl J : frame J J.
Proof. done. Qed.

Lemma nextins_spec J J' r :
  buf_ok J → lj_ir_nextins J = (J', r) →
  r = nins J ∧ buf_ok J' ∧ nins J' = nins J + 1 ∧ nk J' = nk J ∧ frame J J'.
Proof.
  unfold lj_ir_nextins. intros Hb E. apply pair_equal_spec in E as [<- <-].
  destruct (Z.leb_spec (irtoplim J) (nins J)) as [Hn|Hn].
  - destruct (growtop_spec J Hb Hn) as ([] & Hi & Hk & Ht & Hf).
    split_and!; simpl; try done; [constructor; simpl; lia].
  - destruct Hb. split_and!; simpl; try done. constructor; simpl; lia.
Qed.

Lemma nextk_spec J J' r :
  buf_ok J → ir_nextk J = (J', r) →
  r = nk J - 1 ∧ buf_ok J' ∧ nins J' = nins J ∧ nk J' = nk J - 1 ∧ frame J J'.
Proof.
  unfold ir_nextk. intros Hb E. apply pair_equal_spec in E as [<- <-].
  destruct (Z.leb_spec (nk J) (irbotlim J)) as [Hn|Hn].
  - destruct (growbot_spec J Hb Hn) as ([] & Hi & Hk & Ht & Hf).
    split_and!; simpl; try done; [constructor; simpl; lia].
  - destruct Hb. split_and!; simpl; try done. constructor; simpl; lia.
Qed.

(** ** Chained arrays of 64 bit constants *)

Definition k64_at (ks : list (list Z)) (adr v : Z) : Prop :=
  0 ≤ adr ∧ ∃ k, ks !! (Z.to_nat adr / LJ_MIN_K64SZ)%nat = Some k ∧
                 k !! (Z.to_nat adr `mod` LJ_MIN_K64SZ)%nat = Some v.

Definition k64_ok (ks : list (list Z)) : Prop :=
  NoDup (concat ks) ∧ Forall (λ k, (length k ≤ LJ_MIN_K64SZ)%nat) ks.

Lemma k64_val_at J adr v : k64_at (k64 J) adr v → k64_val J adr = v.
Proof.
  intros (_ & k & H1 & H2). unfold k64_val. rewrite !nth_lookup, H1.
  change (default [] (Some k)) with k. by rewrite H2.
Qed.

Lemma k64_search_spec l u i :
  match k64_search l u i with
  | Some j => (i ≤ j)%nat ∧ l !! (j - i)%nat = Some u
  | None => u ∉ l
  end.
Proof.
  revert i. induction l as [|v l IH]; intros i; simpl; [set_solver|].
  destruct (Z.eqb_spec v u) as [->|Hne].
  - by rewrite Nat.sub_diag.
  - specialize (IH (S i)). destruct (k64_search l u (S i)) as [j|]; [|set_solver].
    destruct IH as [? E]. split; [lia|].
    by replace (j - i)%nat with (S (j - S i)) by lia.
Qed.

(** Position [(i, idx)] of the constant in the arrays that start at number [a]. *)
Lemma k64_find_or_add_spec ks u a ks' adr :
  k64_ok ks → k64_find_or_add ks u a = (ks', adr) →
  k64_ok ks' ∧
  (∃ i idx k, adr = Z.of_nat (LJ_MIN_K64SZ * (a + i) + idx) ∧
     (idx < LJ_MIN_K64SZ)%nat ∧ ks' !! i = Some k ∧ k !! idx = Some u) ∧
  (∀ i idx k v, ks !! i = Some k → k !! idx = Some v →
     ∃ k', ks' !! i = Some k' ∧ k' !! idx = Some v) ∧
  (∀ x, x ∈ concat ks' → x = u ∨ x ∈ concat ks).
Proof.
  revert a ks' adr. induction ks as [|k ks IH]; intros a ks' adr [Hnd Hlen]; simpl.
  - intros [= <- <-]. split_and!.
    + split; simpl; [apply NoDup_singleton|]. constructor; [unfold LJ_MIN_K64SZ; simpl; lia|done].
    + exists 0%nat, 0%nat, [u]. split_and!; [unfold LJ_MIN_K64SZ; lia|unfold LJ_MIN_K64SZ; lia|done|done].
    + intros [|] ????; done.
    + simpl. set_solver.
  - pose proof (k64_search_spec k u 0) as Hs.
    simpl in Hnd. apply NoDup_app in Hnd as (Hk & Hdis & Hks).
    apply Forall_cons in Hlen as [Hl Hls].
    destruct (k64_search k u 0) as [j|]; [|destruct ks as [|k2 ks]].
    + intros [= <- <-]. destruct Hs as [_ Hs]. rewrite Nat.sub_0_r in Hs.
      pose proof (lookup_lt_Some _ _ _ Hs). split_and!.
      * split; [simpl; apply NoDup_app; done|by constructor].
      * exists 0%nat, j, k. split_and!; [unfold LJ_MIN_K64SZ; lia|unfold LJ_MIN_K64SZ in *; lia|done|done].
      * intros. eauto.
      * intros. by right.
    + case_test; intros [= <- <-].
      * apply Nat.ltb_lt in Heqb. split_and!.
        -- split; [|constructor; [rewrite length_app; simpl; lia|done]].
           simpl. rewrite app_nil_r. apply NoDup_app. split_and!; [done|set_solver|apply NoDup_singleton].
        -- exists 0%nat, (length k), (k ++ [u]). split_and!; [unfold LJ_MIN_K64SZ; lia|lia|done|].
           by rewrite lookup_app_r, Nat.sub_diag by lia.
        -- intros [|i] idx k' v; simpl; [|done]. intros [= <-] Hv.
           exists (k ++ [u]). split; [done|]. by apply lookup_app_l_Some.
        -- simpl. set_solver.
      * apply Nat.ltb_ge in Heqb. split_and!.
        -- split; [|constructor; [done|constructor; [unfold LJ_MIN_K64SZ; simpl; lia|done]]].
           simpl. apply NoDup_app. split_and!; [done|set_solver|apply NoDup_singleton].
        -- exists 1%nat, 0%nat, [u]. split_and!; [unfold LJ_MIN_K64SZ; lia|unfold LJ_MIN_K64SZ; lia|done|done].
        -- intros [|i] idx k' v; simpl; [|done]. intros [= <-] Hv. eauto.
        -- simpl. set_solver.
    + destruct (k64_find_or_add (k2 :: ks) u (S a)) as [ks2 adr2] eqn:E.
      intros [= <- <-].
      destruct (IH (S a) ks2 adr2 (conj Hks Hls) E) as (Hok & (i & idx & k3 & -> & ? & ? & ?) & Hold & Hin).
      split_and!.
      * destruct Hok as [Hnd' Hlen']. split; [|by constructor]. simpl.
        apply NoDup_app. split_and!; [done| |done].
        intros x Hx Hx'. apply Hin in Hx' as [->|Hx']; [done|]. by apply (Hdis x).
      * exists (S i), idx, k3. split_and!; [unfold LJ_MIN_K64SZ; lia|done|done|done].
      * intros [|j] idx' k' v; simpl; [intros [= <-]; eauto|apply Hold].
      * intros x. simpl. rewrite elem_of_app. intros [Hx|Hx]; [set_solver|].
        apply Hin in Hx. simpl in Hx. set_solver.
Qed.

Lemma k64_find_spec J u J' adr :
  k64_ok (k64 J) → lj_ir_k64_find J u = (J', adr) →
  k64_ok (k64 J') ∧ k64_at (k64 J') adr u ∧
  (∀ b v, k64_at (k64 J) b v → k64_at (k64 J') b v) ∧ J' = set_k64 (k64 J') J.
Proof.
  unfold lj_ir_k64_find. intros Hok.
  destruct (k64_find_or_add (k64 J) u 0) as [ks a] eqn:E. intros [= <- <-].
  destruct (k64_find_or_add_spec _ _ _ _ _ Hok E) as (Hok' & (i & idx & k & -> & ? & H1 & H2) & Hold & _).
  change (k64 (set_k64 ks J)) with ks. split; [done|]. split; [|split; [|done]].
  - split; [lia|]. exists k. rewrite Nat2Z.id, Nat.add_0_l, Nat.mul_comm.
    rewrite Nat.div_add_l, Nat.div_small by done.
    rewrite Nat.add_0_r. split; [done|].
    rewrite Nat.add_comm, Nat.Div0.mod_add, Nat.mod_small by done. done.
  - intros b v (? & k' & K1 & K2). split; [done|]. eauto.
Qed.

Lemma concat_lookup_inj (ks : list (list Z)) i j p q k k' v :
  NoDup (concat ks) → ks !! i = Some k → ks !! j = Some k' →
  k !! p = Some v → k' !! q = Some v → i = j ∧ p = q.
Proof.
  revert i j. induction ks as [|k0 ks IH]; intros i j Hnd; [done|].
  simpl in Hnd. apply NoDup_app in Hnd as (Hk & Hdis & Hks).
  assert (∀ i k v p, ks !! i = Some k → k !! p = Some v → v ∈ concat ks) as Hin.
  { intros i' k1 v' p' H1 H2. apply list_elem_of_In, in_concat. exists k1. split.
    - apply list_elem_of_In. by eapply list_elem_of_lookup_2.
    - apply list_elem_of_In. by eapply list_elem_of_lookup_2. }
  destruct i as [|i], j as [|j]; simpl; intros H1 H2 H3 H4.
  - injection H1 as <-. injection H2 as <-. split; [done|]. exact (NoDup_lookup _ _ _ _ Hk H3 H4).
  - injection H1 as <-. exfalso. apply (Hdis v); [by eapply list_elem_of_lookup_2|eauto].
  - injection H2 as <-. exfalso. apply (Hdis v); [by eapply list_elem_of_lookup_2|eauto].
  - destruct (IH i j Hks H1 H2 H3 H4). by subst.
Qed.

Lemma k64_at_inj ks a b v : k64_ok ks → k64_at ks a v → k64_at ks b v → a = b.
Proof.
  intros [Hnd _] (? & k & H1 & H2) (? & k' & H3 & H4).
  destruct (concat_lookup_inj ks _ _ _ _ _ _ _ Hnd H1 H3 H2 H4) as [E1 E2].
  rewrite <-(Z2Nat.id a), <-(Z2Nat.id b) by done. f_equal.
  rewrite (Nat.div_mod_eq (Z.to_nat a) LJ_MIN_K64SZ), (Nat.div_mod_eq (Z.to_nat b) LJ_MIN_K64SZ).
  by rewrite E1, E2.
Qed.

Lemma k64_at_fun ks a v v' : k64_at ks a v → k64_at ks a v' → v = v'.
Proof. intros (_ & k & H1 & H2) (_ & k' & H3 & H4). simplify_eq. congruence. Qed.

(** ** Well-formed state *)

Definition isk_op (o : IROp) : bool := (23 <=? irop_num o) && (irop_num o <=? 31).

(** Constants interned by their [i] or [ptr] field. *)
Definition keyed (o : IROp) : Prop :=
  o ∈ [IR_KINT; IR_KGC; IR_KPTR; IR_KKPTR; IR_KNUM; IR_KINT64].

(** Literal operands (conversion modes) are below the references of constants. *)
Definition KLIM : Z := 4096.

(** The chain of a constant opcode: upwards from [r], ended by 0. *)
Inductive links (lo : Z) (pv : Z → Z) : Z → list Z → Prop :=
  | links_nil : links lo pv 0 []
  | links_cons r l :
      lo ≤ r < REF_BIAS → Forall (λ x, r < x) l → links lo pv (pv r) l →
      links lo pv r (r :: l).
Definition klinks (J : jit_State) := links (nk J) (λ r, prev (IR J r)).

Record ir_wf (J : jit_State) : Prop := {
  iw_buf : buf_ok J;
  iw_klim : KLIM < nk J;
  iw_kop r : nk J ≤ r < REF_BIAS → isk_op (io (IR J r)) = true;
  iw_iop r : REF_BIAS ≤ r < nins J → isk_op (io (IR J r)) = false;
  iw_kchain o : keyed o → ∃ l, klinks J (chain J o) l ∧
    ∀ r, nk J ≤ r < REF_BIAS → io (IR J r) = o ↔ r ∈ l;
  iw_ichain o : isk_op o = false →
    chain J o = 0 ∨ REF_BIAS ≤ chain J o < nins J ∧ io (IR J (chain J o)) = o;
  iw_prev r : REF_BIAS ≤ r < nins J →
    prev (IR J r) = 0 ∨
    REF_BIAS ≤ prev (IR J r) < r ∧ io (IR J (prev (IR J r))) = io (IR J r);
  iw_kuniq r1 r2 : nk J ≤ r1 < REF_BIAS → nk J ≤ r2 < REF_BIAS →
    keyed (io (IR J r1)) → io (IR J r1) = io (IR J r2) → ii (IR J r1) = ii (IR J r2) →
    r1 = r2;
  iw_kint r : nk J ≤ r < REF_BIAS → io (IR J r) = IR_KINT →
    in_s 32 (ii (IR J r)) ∧ it (IR J r) = IRT_INT;
  iw_kint64 r : nk J ≤ r < REF_BIAS → io (IR J r) = IR_KINT64 →
    (∃ u, k64_at (k64 J) (ii (IR J r)) u) ∧ it (IR J r) = IRT_I64;
  iw_k64 : k64_ok (k64 J);
  iw_k64_rng a u : k64_at (k64 J) a u → in_u 64 u }.

(** [J'] has the constants and instructions of [J], and maybe more. *)
Record ext (J J' : jit_State) : Prop := {
  ex_nk : nk J' ≤ nk J;
  ex_nins : nins J ≤ nins J';
  ex_ir r : refs J r → IR J' r = IR J r;
  ex_k64 a u : k64_at (k64 J) a u → k64_at (k64 J') a u;
  ex_flags : flags J' = flags J;
  ex_scev : scev J' = scev J }.

#[export] Instance ext_preorder : PreOrder ext.
Proof.
  split; [by constructor; auto; lia|].
  intros J1 J2 J3 [] []. constructor; try lia; try congruence; [|eauto].
  intros r Hr. rewrite ex_ir1; [auto|]. unfold refs in *. lia.
Qed.

(** The fold state is not touched by interning. *)
Definition same_fold (J J' : jit_State) : Prop :=
  fins J' = fins J ∧ fleft J' = fleft J ∧ fright J' = fright J.

(** ** Interning *)

Lemma klinks_len J r l :
  0 < nk J → klinks J r l → Forall (λ x, r ≤ x < REF_BIAS) l ∧
  (r = 0 ∨ Z.of_nat (length l) ≤ REF_BIAS - r).
Proof.
  intros Hk. induction 1 as [|r l Hr Hl Hlk [IH1 IH2]]; [split; [done|by left]|].
  split.
  - constructor; [lia|]. apply Forall_forall. intros x Hx.
    rewrite Forall_forall in Hl, IH1. specialize (Hl x Hx). specialize (IH1 x Hx). lia.
  - right. destruct Hlk as [|r' l' Hr' _ _]; simpl in *; [lia|].
    apply Forall_cons in Hl as [? _]. lia.
Qed.

Lemma ir_find_spec J p n r l :
  0 < nk J → klinks J r l → (length l ≤ n)%nat →
  let x := chain_find n J p r in
  x ≠ 0 ∧ x ∈ l ∧ p (IR J x) = true ∨ x = 0 ∧ ∀ y, y ∈ l → p (IR J y) = false.
Proof.
  intros Hk Hl. revert n. induction Hl as [|r l Hr Hs Hl IH]; intros n Hn; simpl.
  - right. split; [by destruct n|]. set_solver.
  - destruct n as [|n]; simpl in *; [lia|].
    rewrite (proj2 (Z.eqb_neq r 0)) by lia.
    destruct (p (IR J r)) eqn:E; [left; split_and!; [lia|set_solver|done]|].
    destruct (IH n ltac:(lia)) as [(? & ? & ?)|[? Hall]]; [left; set_solver|right].
    split; [done|]. intros y [->|Hy]%elem_of_cons; auto.
Qed.

Definition const_ok (J : jit_State) (o : IROp) (t v : Z) : Prop :=
  keyed o ∧ (o = IR_KINT → in_s 32 v ∧ t = IRT_INT) ∧
  (o = IR_KINT64 → (∃ u, k64_at (k64 J) v u) ∧ t = IRT_I64).

Lemma keyed_isk o : keyed o → isk_op o = true.
Proof. unfold keyed. rewrite !elem_of_cons, elem_of_nil. naive_solver. Qed.

Section NewConstant.
  (** A constant cell filled and linked below the others. *)
  Context (J J1 : jit_State) (op : IROp) (t v : Z).
  Hypothesis W : ir_wf J.
  Hypothesis Hc : const_ok J op t v.
  Hypothesis Hb : buf_ok J1.
  Hypothesis Hi : nins J1 = nins J.
  Hypothesis Hk : nk J1 = nk J - 1.
  Hypothesis Hf : frame J J1.
  Hypothesis Hlim : KLIM < nk J - 1.
  Hypothesis Hnew : ∀ r, nk J ≤ r < REF_BIAS → io (IR J r) = op → ii (IR J r) ≠ v.

Let cell := MkIns op t 0 0 v 0 (chain J op).
Let J2 := set_chain op (nk J - 1) (set_ir (nk J - 1) cell J1).

Lemma newk_IR r : nk J - 1 ≤ r < nins J → IR J2 r = if r =? nk J - 1 then cell else IR J r.
  Proof.
    intros Hr. destruct Hb. destruct Hf as (_ & _ & _ & _ & _ & _ & _ & _ & Hir).
    unfold J2. change (IR (set_chain op (nk J - 1) ?x) r) with (IR x r).
    rewrite IR_set_ir; [|done|pose proof bo_nins0; pose proof bo_nk0; unfold REF_FIRST, REF_TRUE in *; lia|lia].
    destruct (Z.eqb_spec r (nk J - 1)); [done|]. apply Hir. unfold refs. lia.
  Qed.

Lemma newk_old r : refs J r → IR J2 r = IR J r.
  Proof.
    intros [? ?]. rewrite newk_IR by lia. by rewrite (proj2 (Z.eqb_neq _ _)) by lia.
  Qed.

Lemma newk_new : IR J2 (nk J - 1) = cell.
  Proof.
    pose proof (bo_nins _ (iw_buf _ W)). pose proof (bo_nk _ (iw_buf _ W)).
    unfold REF_FIRST, REF_TRUE in *. rewrite newk_IR by lia. by rewrite Z.eqb_refl.
  Qed.

Lemma newk_ext : ext J J2.
  Proof.
    destruct Hf as (? & _ & _ & _ & _ & Hk64 & _ & ? & _).
    constructor; simpl; try lia; try done; [apply newk_old|by rewrite Hk64].
  Qed.

Lemma newk_links r l : klinks J r l → klinks J2 r l.
  Proof.
    pose proof (bo_nins _ (iw_buf _ W)). unfold REF_FIRST in *.
    induction 1 as [|r l Hr Hs Hl IH]; [constructor|].
    constructor; [simpl; lia|done|]. rewrite newk_old; [done|unfold refs; lia].
  Qed.

Lemma newk_kchain o : keyed o → ∃ l, klinks J2 (chain J2 o) l ∧
    ∀ r, nk J2 ≤ r < REF_BIAS → io (IR J2 r) = o ↔ r ∈ l.
  Proof.
    pose proof (bo_nins _ (iw_buf _ W)) as Hn. pose proof (bo_nk _ (iw_buf _ W)) as Hkb.
    unfold REF_FIRST, REF_TRUE in *. intros Ho.
    destruct (iw_kchain _ W o Ho) as (l & Hl & Hin).
    destruct Hf as (_ & _ & _ & _ & _ & _ & Hch & _ & _).
    assert (nk J2 = nk J - 1) as Hk2 by done.
    assert (Forall (λ x, nk J - 1 < x) l) as Hlow.
    { apply Forall_forall. intros x Hx.
      assert (∀ r l, klinks J r l → x ∈ l → nk J ≤ x) as Haux.
      { induction 1; [set_solver|]. intros [->|?]%elem_of_cons; [lia|auto]. }
      specialize (Haux _ _ Hl Hx). lia. }
    assert (chain J2 o = if opeq o op then nk J - 1 else chain J1 o) as -> by done.
    rewrite Hch. destruct (opeq_spec o op) as [->|Hne].
    - exists (nk J - 1 :: l). split.
      + constructor; [lia|done|]. rewrite newk_new. simpl. by apply newk_links.
      + intros r Hr. rewrite Hk2 in Hr. rewrite elem_of_cons.
        destruct (decide (r = nk J - 1)) as [->|Hne].
        * rewrite newk_new. simpl. tauto.
        * rewrite newk_old by (unfold refs; lia). rewrite Hin by lia. tauto.
    - exists l. split; [by apply newk_links|]. intros r Hr. rewrite Hk2 in Hr.
      destruct (decide (r = nk J - 1)) as [->|Hnr].
      + rewrite newk_new. simpl. split; [congruence|]. intros Hx.
        rewrite Forall_forall in Hlow. specialize (Hlow _ Hx). lia.
      + rewrite newk_old by (unfold refs; lia). apply Hin. lia.
  Qed.

Lemma newk_wf : ir_wf J2.
  Proof.
    pose proof (bo_nins _ (iw_buf _ W)) as Hn. pose proof (bo_nk _ (iw_buf _ W)) as Hkb.
    unfold REF_FIRST, REF_TRUE in *. pose proof Hf as (_ & _ & _ & _ & _ & Hk64 & Hch & _ & _).
    destruct Hc as (Hkey & Hc1 & Hc2).
    assert (k64 J2 = k64 J) as Hk2 by done.
    assert (nk J2 = nk J - 1) as HkJ by done. assert (nins J2 = nins J) as HiJ by done.
    assert (∀ r, REF_BIAS ≤ r < nins J → IR J2 r = IR J r) as Hold
      by (intros; apply newk_old; unfold refs; lia).
    assert (∀ r, nk J ≤ r < REF_BIAS → IR J2 r = IR J r) as Hold'
      by (intros; apply newk_old; unfold refs; lia).
    constructor.
    - destruct Hb. constructor; simpl; try done. by rewrite length_insert.
    - simpl. lia.
    - intros r Hr. rewrite HkJ in Hr. destruct (decide (r = nk J - 1)) as [->|].
      + rewrite newk_new. by apply keyed_isk.
      + rewrite Hold' by lia. apply (iw_kop _ W). lia.
    - intros r Hr. rewrite HiJ in Hr. rewrite Hold by done. by apply (iw_iop _ W).
    - apply newk_kchain.
    - intros o Ho.
      assert (chain J2 o = if opeq o op then nk J - 1 else chain J1 o) as -> by done.
      rewrite Hch.
      destruct (opeq_spec o op) as [->|]; [rewrite keyed_isk in Ho; done|].
      destruct (iw_ichain _ W o Ho) as [?|[? ?]]; [by left|right].
      rewrite HiJ, Hold by done. done.
    - intros r Hr. rewrite HiJ in Hr. rewrite Hold by done.
      destruct (iw_prev _ W r Hr) as [?|[? ?]]; [by left|right]. rewrite Hold by lia. done.
    - intros r1 r2 H1 H2. rewrite HkJ in H1, H2.
      destruct (decide (r1 = nk J - 1)) as [->|], (decide (r2 = nk J - 1)) as [->|]; [done| | |].
      + rewrite newk_new, Hold' by lia. simpl. intros _ E1 E2.
        destruct (Hnew r2 ltac:(lia) (eq_sym E1) (eq_sym E2)).
      + rewrite newk_new, Hold' by lia. simpl. intros _ E1 E2.
        destruct (Hnew r1 ltac:(lia) E1 E2).
      + rewrite !Hold' by lia. apply (iw_kuniq _ W); lia.
    - intros r Hr. rewrite HkJ in Hr. destruct (decide (r = nk J - 1)) as [->|].
      + rewrite newk_new. exact Hc1.
      + rewrite Hold' by lia. apply (iw_kint _ W). lia.
    - intros r Hr. rewrite HkJ in Hr. rewrite Hk2. destruct (decide (r = nk J - 1)) as [->|].
      + rewrite newk_new. exact Hc2.
      + rewrite Hold' by lia. apply (iw_kint64 _ W). lia.
    - rewrite Hk2. apply W.
    - rewrite Hk2. apply W.
  Qed.
End NewConstant.

Lemma intern_spec J op t v J' r :
  ir_wf J → const_ok J op t v →
  ir_intern J op (λ x, ii x =? v) (MkIns op t 0 0 v 0) = (J', r) → KLIM < nk J' →
  ir_wf J' ∧ ext J J' ∧ nins J' = nins J ∧ same_fold J J' ∧
  nk J' ≤ r < REF_BIAS ∧ io (IR J' r) = op ∧ ii (IR J' r) = v ∧ k64 J' = k64 J.
Proof.
  intros W Hc. unfold ir_intern. pose proof (iw_klim _ W) as Hlim.
  pose proof (bo_nk _ (iw_buf _ W)). unfold KLIM, REF_TRUE in *.
  destruct (iw_kchain _ W op (proj1 Hc)) as (l & Hl & Hin).
  assert (∀ x, x ∈ l → nk J ≤ x < REF_BIAS) as Hrng.
  { clear -Hl. induction Hl; [set_solver|]. intros x [->|?]%elem_of_cons; auto. }
  pose proof (ir_find_spec J (λ x, ii x =? v) (Z.to_nat (REF_BIAS - nk J)) _ _ ltac:(lia) Hl) as Hs.
  destruct Hs as [(Hnz & Hx & Hp)|[-> Hall]].
  { destruct (klinks_len J _ _ ltac:(lia) Hl) as [Hbd [E|?]].
    - rewrite E in Hl. inversion Hl; subst; simpl; lia.
    - inversion Hl; subst; simpl in *; lia. }
  - rewrite (proj2 (Z.eqb_neq _ 0)) by done. simpl. intros [= <- <-] _.
    bprop. split_and!; try done; try (apply Hrng in Hx; lia).
    apply Hin; [apply Hrng in Hx; lia|done].
  - change (negb (0 =? 0)) with false. cbv iota. destruct (ir_nextk J) as [J1 r1] eqn:E. intros [= <- <-] Hlim'.
    destruct (nextk_spec _ _ _ (iw_buf _ W) E) as (-> & Hb & Hi & Hk & Hf).
    simpl in Hlim'.
    pose proof Hf as (_ & _ & Hf1 & Hf2 & Hf3 & Hk64 & Hch & _).
    rewrite Hch.
    assert (∀ r, nk J ≤ r < REF_BIAS → io (IR J r) = op → ii (IR J r) ≠ v) as Hnew.
    { intros r Hr Ho E'. apply Hin in Ho; [|done]. specialize (Hall _ Ho). simpl in Hall. lia. }
    rewrite Hk in Hlim'. unfold KLIM in *.
    split_and!; simpl; try done; try lia.
    + by apply newk_wf.
    + by apply newk_ext.
    + by rewrite (newk_new J J1 op t v).
    + by rewrite (newk_new J J1 op t v).
Qed.

(** ** The interning functions of the fold engine *)

(** A state that differs in fields the invariant does not read. *)
Ltac wf_fields W :=
  let B := fresh in destruct W as [B]; destruct B; constructor; [by constructor|done..].

Lemma wf_set_fins J x : ir_wf J → ir_wf (set_fins x J).
Proof. intros W. wf_fields W. Qed.
Lemma wf_set_fleft J x : ir_wf J → ir_wf (set_fleft x J).
Proof. intros W. wf_fields W. Qed.
Lemma wf_set_fright J x : ir_wf J → ir_wf (set_fright x J).
Proof. intros W. wf_fields W. Qed.
Lemma ext_set_fins J x : ext J (set_fins x J).
Proof. constructor; simpl; done || lia. Qed.

#[export] Hint Resolve wf_set_fins wf_set_fleft wf_set_fright ext_set_fins : vela.

(** What interning a constant gives: a cell with the value, in an extended state. *)
Record interned (J J' : jit_State) (r : Z) (o : IROp) (v : Z) : Prop := {
  in_wf : ir_wf J';
  in_ext : ext J J';
  in_nins : nins J' = nins J;
  in_fold : same_fold J J';
  in_ref : nk J' ≤ r < REF_BIAS;
  in_io : io (IR J' r) = o;
  in_val : match o with
           | IR_KINT => ii (IR J' r) = v
           | _ => k64_at (k64 J') (ii (IR J' r)) v
           end }.

Lemma kint_spec J k J' r :
  ir_wf J → in_s 32 k → lj_ir_kint J k = (J', r) → KLIM < nk J' →
  interned J J' r IR_KINT k.
Proof.
  intros W Hk E Hl. apply intern_spec in E as (? & ? & ? & ? & ? & ? & ? & _); try done.
  split; [unfold keyed; set_solver|done].
Qed.

Lemma wf_set_k64 J ks :
  ir_wf J → k64_ok ks → (∀ a u, k64_at (k64 J) a u → k64_at ks a u) →
  (∀ a u, k64_at ks a u → in_u 64 u) → ir_wf (set_k64 ks J).
Proof.
  intros [] Hok Hold Hrng. constructor; try done; [by destruct iw_buf0|].
  intros r Hr Ho. destruct (iw_kint65 r Hr Ho) as [[u ?] ?]. eauto.
Qed.

Lemma k64_find_in ks u a ks' adr b v :
  k64_ok ks → k64_find_or_add ks u a = (ks', adr) → k64_at ks' b v → v = u ∨ ∃ c, k64_at ks c v.
Proof.
  intros Hok E (? & k & H1 & H2).
  destruct (k64_find_or_add_spec _ _ _ _ _ Hok E) as (_ & _ & _ & Hin).
  destruct (Hin v) as [?|Hv]; [|by left|].
  - apply list_elem_of_In, in_concat. exists k. split; apply list_elem_of_In;
      by eapply list_elem_of_lookup_2.
  - right. apply list_elem_of_In, in_concat in Hv as (k2 & Hk2 & Hv).
    apply list_elem_of_In, list_elem_of_lookup in Hk2 as [i Hi].
    apply list_elem_of_In, list_elem_of_lookup in Hv as [j Hj].
    pose proof (lookup_lt_Some _ _ _ Hj).
    assert (length k2 ≤ LJ_MIN_K64SZ)%nat.
    { destruct Hok as [_ Hlen]. rewrite Forall_forall in Hlen. apply Hlen.
      by eapply list_elem_of_lookup_2. }
    exists (Z.of_nat (i * LJ_MIN_K64SZ + j)). split; [lia|]. exists k2. rewrite Nat2Z.id.
    rewrite Nat.div_add_l, Nat.div_small, Nat.add_0_r by (done || lia). split; [done|].
    rewrite Nat.add_comm, Nat.Div0.mod_add, Nat.mod_small by lia. done.
Qed.

Lemma kint64_spec J u J' r :
  ir_wf J → in_u 64 u → lj_ir_kint64 J u = (J', r) → KLIM < nk J' →
  interned J J' r IR_KINT64 u.
Proof.
  unfold lj_ir_kint64. intros W Hu. destruct (lj_ir_k64_find J u) as [J1 tv] eqn:E1.
  destruct (k64_find_spec _ _ _ _ (iw_k64 _ W) E1) as (Hok & Hat & Hold & HJ1).
  assert (ir_wf J1) as W1.
  { rewrite HJ1. apply wf_set_k64; [done..|]. intros a v Ha.
    unfold lj_ir_k64_find in E1. destruct (k64_find_or_add (k64 J) u 0) as [ks ?] eqn:E2.
    injection E1 as <- <-. simpl in Ha.
    destruct (k64_find_in _ _ _ _ _ _ _ (iw_k64 _ W) E2 Ha) as [->|[c Hc]]; [done|].
    exact (iw_k64_rng _ W _ _ Hc). }
  assert (ext J J1) as X1 by (rewrite HJ1; constructor; simpl; done || lia).
  assert (same_fold J J1 ∧ nins J1 = nins J) as [F1 N1] by (by rewrite HJ1).
  intros E2 Hl. apply intern_spec in E2 as (? & ? & Hn & (? & ? & ?) & ? & ? & Hi & Hk64); try done.
  - destruct F1 as (? & ? & ?).
    constructor; try done; [by etransitivity|congruence|split_and!; congruence|].
    rewrite Hi, Hk64. done.
  - split; [unfold keyed; set_solver|]. split; [done|]. eauto.
Qed.

(** ** Emitting an instruction *)

Definition emitted (J J' : jit_State) (r : Z) : Prop :=
  ir_wf J' ∧ ext J J' ∧ r = nins J ∧ nins J' = nins J + 1 ∧ nk J' = nk J ∧
  io (IR J' r) = io (fins J) ∧ it (IR J' r) = it (fins J) ∧
  op1 (IR J' r) = op1 (fins J) ∧ op2 (IR J' r) = op2 (fins J) ∧ k64 J' = k64 J ∧
  fins J' = fins J.

Lemma emit_wf J J1 r x :
  ir_wf J → lj_ir_nextins J = (J1, r) → isk_op (io x) = false →
  prev x = chain J (io x) →
  let J2 := set_chain (io x) r (set_ir r x J1) in
  ir_wf J2 ∧ ext J J2 ∧ r = nins J ∧ nins J2 = nins J + 1 ∧ nk J2 = nk J ∧ IR J2 r = x.
Proof.
  intros W E Hx Hprev J2.
  destruct (nextins_spec _ _ _ (iw_buf _ W) E) as (-> & Hb & Hi & Hk & Hf).
  pose proof Hf as (Hfl & _ & _ & _ & _ & Hk64 & Hch & Hsc & Hir).
  pose proof (bo_nins _ (iw_buf _ W)) as Hn. pose proof (bo_nk _ (iw_buf _ W)) as Hkb.
  unfold REF_FIRST, REF_TRUE in *.
  assert (∀ r, nk J ≤ r < nins J + 1 → IR J2 r = if r =? nins J then x else IR J r) as HIR.
  { intros r Hr. destruct Hb. unfold J2.
    change (IR (set_chain (io x) (nins J) ?y) r) with (IR y r).
    rewrite IR_set_ir by (done || lia).
    destruct (Z.eqb_spec r (nins J)); [done|]. apply Hir. unfold refs. lia. }
  assert (∀ r, nk J ≤ r < nins J → IR J2 r = IR J r) as Hold.
  { intros r Hr. rewrite HIR by lia. by rewrite (proj2 (Z.eqb_neq _ _)) by lia. }
  assert (IR J2 (nins J) = x) as Hnew by (rewrite HIR by lia; by rewrite Z.eqb_refl).
  assert (k64 J2 = k64 J) as Hk2 by done.
  assert (nk J2 = nk J) as HkJ by done. assert (nins J2 = nins J + 1) as HiJ by done.
  assert (∀ o, chain J2 o = if opeq o (io x) then nins J else chain J o) as HcJ
    by (intros o; simpl; by rewrite Hch).
  assert (ext J J2) as X.
  { constructor; try done; simpl; try lia. by rewrite Hk64. }
  split_and!; try done.
  constructor; rewrite ?HkJ, ?HiJ, ?Hk2; try apply W.
  - destruct Hb. constructor; simpl; try done. by rewrite length_insert.
  - intros r Hr. rewrite Hold by lia. by apply (iw_kop _ W).
  - intros r Hr. destruct (decide (r = nins J)) as [->|]; [by rewrite Hnew|].
    rewrite Hold by lia. apply (iw_iop _ W). lia.
  - intros o Ho. destruct (iw_kchain _ W o Ho) as (l & Hl & Hin). exists l. split.
    + rewrite HcJ. destruct (opeq_spec o (io x)) as [->|_];
        [by rewrite keyed_isk in Hx|].
      clear -Hl Hold HkJ Hn. induction Hl; constructor; [lia|done|].
      rewrite Hold by (unfold REF_BIAS in *; lia). done.
    + intros r Hr. rewrite Hold by lia. by apply Hin.
  - intros o Ho. rewrite HcJ. destruct (opeq_spec o (io x)) as [->|Hne].
    + right. rewrite Hnew. split; [lia|done].
    + destruct (iw_ichain _ W o Ho) as [?|[? ?]]; [by left|right].
      rewrite Hold by lia. split; [lia|done].
  - intros r Hr. destruct (decide (r = nins J)) as [->|Hne].
    + rewrite Hnew, Hprev. destruct (iw_ichain _ W _ Hx) as [?|[? ?]]; [by left|right].
      rewrite Hold by lia. split; [lia|done].
    + rewrite (Hold r) by lia. destruct (iw_prev _ W r ltac:(lia)) as [?|[? ?]]; [by left|right].
      rewrite Hold by lia. done.
  - intros r1 r2 H1 H2. rewrite !Hold by lia. by apply (iw_kuniq _ W).
  - intros r Hr. rewrite Hold by lia. by apply (iw_kint _ W).
  - intros r Hr. rewrite Hold by lia. by apply (iw_kint64 _ W).
Qed.

Lemma lj_ir_emit_spec J J' r :
  ir_wf J → isk_op (io (fins J)) = false → lj_ir_emit J = (J', r) → emitted J J' r.
Proof.
  intros W Ho. unfold lj_ir_emit. destruct (lj_ir_nextins J) as [J1 r1] eqn:E.
  pose proof (nextins_spec _ _ _ (iw_buf _ W) E) as (_ & _ & _ & _ & Hf).
  destruct Hf as (_ & _ & Hfins & _ & _ & _ & Hch & _).
  rewrite Hfins, Hch. set (x := MkIns _ _ _ _ _ _ _).
  intros [= <- <-].
  destruct (emit_wf J J1 r1 x W E Ho eq_refl) as (W2 & X2 & -> & Hn & Hk & Hx).
  set (J2 := set_chain _ _ _) in *.
  split_and!; try done.
  - wf_fields W2.
  - destruct X2. by constructor.
  - change (IR (set_guardemit ?g J2) (nins J)) with (IR J2 (nins J)). by rewrite Hx.
  - change (IR (set_guardemit ?g J2) (nins J)) with (IR J2 (nins J)). by rewrite Hx.
  - change (IR (set_guardemit ?g J2) (nins J)) with (IR J2 (nins J)). by rewrite Hx.
  - change (IR (set_guardemit ?g J2) (nins J)) with (IR J2 (nins J)). by rewrite Hx.
  - simpl. destruct (nextins_spec _ _ _ (iw_buf _ W) E) as (_ & _ & _ & _ & (_ & _ & _ & _ & _ & ? & _)).
    done.
Qed.

End IrWf.
