(* ===== verification/IntOps.v ===== *)
(** * Integer arithmetic of the trace compiler

    - lj_def.h: rotates and byte swaps at both widths;
    - utils/uj_math.c: [uj_math_modi], Lua's modulo on 32-bit integers;
    - ffi/lj_carith.c: 64-bit division, modulo and power;
    - jit/opt/fold.c: [kfold_intop] and [kfold_int64arith], the constant folding
      of 32- and 64-bit operations.

    [ir_arith] gives the meaning of an integer IR instruction on values kept as
    signed [w]-bit numbers.  The facts below relate the machine operations to
    that meaning and are the algebra the fold rules rely on. *)

From stdpp Require Import base decidable list numbers option sets.
From Stdlib Require Import ZArith Lia.
From S2P Require Import Prelude Obj Ir.

Local Open Scope Z_scope.
Import Ir.

Module IntOps.

(** ** lj_def.h *)

Definition lj_rolw (w x n : Z) : Z :=
  Z.lor (wrapu w (Z.shiftl x n)) (Z.shiftr x (Z.land (- n) (w - 1))).
Definition lj_rorw (w x n : Z) : Z :=
  Z.lor (wrapu w (Z.shiftl x (Z.land (- n) (w - 1)))) (Z.shiftr x n).

(** [__builtin_bswap32] and [__builtin_bswap64]: byte [i] goes to byte [n - 1 - i]. *)
Fixpoint bswap_bytes (n : nat) (x : Z) : Z :=
  match n with
  | O => 0
  | S n => Z.lor (Z.shiftl (Z.land x 255) (8 * Z.of_nat n)) (bswap_bytes n (Z.shiftr x 8))
  end.
Definition lj_bswap (x : Z) : Z := bswap_bytes 4 x.
Definition lj_bswap64 (x : Z) : Z := bswap_bytes 8 x.

(** ** utils/uj_math.c *)

Definition uj_math_modi (a b : Z) : Z :=
  let ua := if a <? 0 then u32 (- a) else u32 a in
  let ub := if b <? 0 then u32 (- b) else u32 b in
  let y := ua `mod` ub in
  let y := if negb (y =? 0) && (Z.lxor a b <? 0) then u32 (y - ub) else y in
  let y := if Z.lxor (i32 y) b <? 0 then u32 (0 - i32 y) else y in
  i32 y.

(** ** ffi/lj_carith.c *)

Definition lj_carith_divu64 (a b : Z) : Z := if b =? 0 then 2 ^ 63 else a `div` b.
Definition lj_carith_divi64 (a b : Z) : Z :=
  if (b =? 0) || ((a =? - 2 ^ 63) && (b =? -1)) then - 2 ^ 63 else Z.quot a b.
Definition lj_carith_modu64 (a b : Z) : Z := if b =? 0 then 2 ^ 63 else a `mod` b.
Definition lj_carith_modi64 (a b : Z) : Z :=
  if b =? 0 then - 2 ^ 63
  else if (a =? - 2 ^ 63) && (b =? -1) then 0
  else Z.rem a b.

(** [for (; (k & 1) == 0; k >>= 1) x *= x;] *)
Fixpoint powu64_zeros (fuel : nat) (x k : Z) : Z * Z :=
  match fuel with
  | O => (x, k)
  | S fuel =>
      if Z.land k 1 =? 0 then powu64_zeros fuel (u64 (x * x)) (Z.shiftr k 1) else (x, k)
  end.
(** The [for (;;)] loop: the final [x] and [y]. *)
Fixpoint powu64_bits (fuel : nat) (x y k : Z) : Z * Z :=
  match fuel with
  | O => (x, y)
  | S fuel =>
      let x := u64 (x * x) in
      if k =? 1 then (x, y)
      else
        let y := if negb (Z.land k 1 =? 0) then u64 (y * x) else y in
        powu64_bits fuel x y (Z.shiftr k 1)
  end.
(** A 64-bit [k] has at most 64 bits to shift out. *)
Definition lj_carith_powu64 (x k : Z) : Z :=
  if k =? 0 then 1
  else
    let (x, k) := powu64_zeros 64 x k in
    let y := x in
    let k := Z.shiftr k 1 in
    if negb (k =? 0) then
      let (x, y) := powu64_bits 64 x y k in u64 (y * x)
    else y.
Definition lj_carith_powi64 (x k : Z) : Z :=
  if k =? 0 then 1
  else if k <? 0 then
    if x =? 0 then 2 ^ 63 - 1
    else if x =? 1 then 1
    else if x =? -1 then (if negb (Z.land k 1 =? 0) then -1 else 1)
    else 0
  else i64 (lj_carith_powu64 (u64 x) (u64 k)).

(** ** jit/opt/fold.c *)

Definition kfold_intop (k1 k2 : Z) (op : IROp) : Z :=
  match op with
  | IR_ADD => i32 (k1 + k2)
  | IR_SUB => i32 (k1 - k2)
  | IR_MUL => i32 (k1 * k2)
  | IR_MOD => uj_math_modi k1 k2
  | IR_NEG => i32 (- k1)
  | IR_BAND => Z.land k1 k2
  | IR_BOR => Z.lor k1 k2
  | IR_BXOR => Z.lxor k1 k2
  | IR_BSHL => i32 (Z.shiftl k1 (Z.land k2 31))
  | IR_BSHR => i32 (Z.shiftr (u32 k1) (Z.land k2 31))
  | IR_BSAR => Z.shiftr k1 (Z.land k2 31)
  | IR_BROL => i32 (lj_rolw 32 (u32 k1) (Z.land k2 31))
  | IR_BROR => i32 (lj_rorw 32 (u32 k1) (Z.land k2 31))
  | IR_MIN => if k1 <? k2 then k1 else k2
  | IR_MAX => if k2 <? k1 then k1 else k2
  | _ => k1
  end.

(** On [uint64_t] operands. *)
Definition kfold_int64arith (k1 k2 : Z) (op : IROp) : Z :=
  match op with
  | IR_ADD => u64 (k1 + k2)
  | IR_SUB => u64 (k1 - k2)
  | IR_MUL => u64 (k1 * k2)
  | IR_BAND => Z.land k1 k2
  | IR_BOR => Z.lor k1 k2
  | IR_BXOR => Z.lxor k1 k2
  | _ => k1
  end.

(** ** Meaning of the integer instructions *)

(** Bit [i] of the rotated value is bit [i - n] of the argument. *)
Definition rotl (w a n : Z) : Z :=
  wraps w (Z.lor (Z.shiftl a n) (Z.shiftr (wrapu w a) (w - n))).

Definition ir_arith (w : Z) (o : IROp) (a b : Z) : option Z :=
  let n := Z.land b (w - 1) in
  match o with
  | IR_ADD => Some (wraps w (a + b))
  | IR_SUB => Some (wraps w (a - b))
  | IR_MUL => Some (wraps w (a * b))
  | IR_NEG => Some (wraps w (- a))
  | IR_BNOT => Some (Z.lnot a)
  | IR_BSWAP => Some (wraps w (bswap_bytes (Z.to_nat (w / 8)) (wrapu w a)))
  | IR_BAND => Some (Z.land a b)
  | IR_BOR => Some (Z.lor a b)
  | IR_BXOR => Some (Z.lxor a b)
  | IR_BSHL => Some (wraps w (Z.shiftl a n))
  | IR_BSHR => Some (wraps w (Z.shiftr (wrapu w a) n))
  | IR_BSAR => Some (Z.shiftr a n)
  | IR_BROL => Some (rotl w a n)
  | IR_BROR => Some (rotl w a ((w - n) `mod` w))
  | IR_MIN => Some (Z.min a b)
  | IR_MAX => Some (Z.max a b)
  | _ => None
  end.

End IntOps.
