(* ===== verification/IntFacts.v ===== *)
(** * Algebra of two's complement integers

    Values are signed [w]-bit numbers.  Two of them are equal when they agree
    modulo [2^w] or on their low [w] bits; the section gives the laws of
    wrapping, shifting and rotating that the fold rules use. *)

From stdpp Require Import base decidable list numbers option sets.
From Stdlib Require Import ZArith Lia.
From S2P Require Import Prelude Obj Ir IntOps.

Local Open Scope Z_scope.
Import Ir IntOps.

Module IntFacts.

(** ** Wrapping *)

Lemma wraps_cong w a b : a `mod` 2 ^ w = b `mod` 2 ^ w → wraps w a = wraps w b.
Proof. unfold wraps. by intros ->. Qed.

Lemma wraps_mod w a : 0 < w → wraps w a `mod` 2 ^ w = a `mod` 2 ^ w.
Proof.
  intros Hw. unfold wraps. pose proof (Z.pow_pos_nonneg 2 w).
  case_test; [by rewrite Z.mod_mod by lia|].
  replace (a `mod` 2 ^ w - 2 ^ w) with (a `mod` 2 ^ w + (-1) * 2 ^ w) by lia.
  rewrite Z.mod_add by lia. by rewrite Z.mod_mod by lia.
Qed.

Lemma s_eq w a b : 0 < w → in_s w a → in_s w b → a `mod` 2 ^ w = b `mod` 2 ^ w → a = b.
Proof.
  intros Hw Ha Hb E. rewrite <-(wraps_id w a), <-(wraps_id w b) by done.
  by apply wraps_cong.
Qed.

Lemma wraps_wrapu w a : 0 < w → wraps w (wrapu w a) = wraps w a.
Proof. intros. apply wraps_cong. unfold wrapu. rewrite Z.mod_mod by lia. done. Qed.
Lemma wrapu_wraps w a : 0 < w → wrapu w (wraps w a) = wrapu w a.
Proof. intros. by apply wraps_mod. Qed.

(** Congruence: drop the inner wraps of sums and products. *)
Lemma wraps_add w a b : 0 < w → wraps w (wraps w a + wraps w b) = wraps w (a + b).
Proof.
  intros. apply wraps_cong. pose proof (Z.pow_pos_nonneg 2 w).
  rewrite Z.add_mod, !wraps_mod by lia. by rewrite <-Z.add_mod by lia.
Qed.
Lemma wraps_sub w a b : 0 < w → wraps w (wraps w a - wraps w b) = wraps w (a - b).
Proof.
  intros. apply wraps_cong. pose proof (Z.pow_pos_nonneg 2 w).
  rewrite Zminus_mod, !wraps_mod by lia. by rewrite <-Zminus_mod by lia.
Qed.
Lemma wraps_mul w a b : 0 < w → wraps w (wraps w a * wraps w b) = wraps w (a * b).
Proof.
  intros. apply wraps_cong. pose proof (Z.pow_pos_nonneg 2 w).
  rewrite Z.mul_mod, !wraps_mod by lia. by rewrite <-Z.mul_mod by lia.
Qed.

Lemma wraps_idem w a : 0 < w → wraps w (wraps w a) = wraps w a.
Proof. intros. apply wraps_cong. by apply wraps_mod. Qed.
Lemma wraps_add_l w a b : 0 < w → wraps w (wraps w a + b) = wraps w (a + b).
Proof. intros. rewrite <-wraps_add, wraps_idem, wraps_add by done. done. Qed.
Lemma wraps_add_r w a b : 0 < w → wraps w (a + wraps w b) = wraps w (a + b).
Proof. intros. rewrite <-wraps_add, wraps_idem, wraps_add by done. done. Qed.
Lemma wraps_sub_l w a b : 0 < w → wraps w (wraps w a - b) = wraps w (a - b).
Proof. intros. rewrite <-wraps_sub, wraps_idem, wraps_sub by done. done. Qed.
Lemma wraps_sub_r w a b : 0 < w → wraps w (a - wraps w b) = wraps w (a - b).
Proof. intros. rewrite <-wraps_sub, wraps_idem, wraps_sub by done. done. Qed.
Lemma wraps_mul_l w a b : 0 < w → wraps w (wraps w a * b) = wraps w (a * b).
Proof. intros. rewrite <-wraps_mul, wraps_idem, wraps_mul by done. done. Qed.
Lemma wraps_mul_r w a b : 0 < w → wraps w (a * wraps w b) = wraps w (a * b).
Proof. intros. rewrite <-wraps_mul, wraps_idem, wraps_mul by done. done. Qed.
Lemma wraps_opp w a : 0 < w → wraps w (- wraps w a) = wraps w (- a).
Proof. intros. rewrite <-(Z.sub_0_l (wraps w a)), wraps_sub_r by done. done. Qed.

(** ** Bits *)

Lemma testbit_wraps w a i :
  0 < w → 0 ≤ i → Z.testbit (wraps w a) i = Z.testbit a (Z.min i (w - 1)).
Proof.
  intros Hw Hi. pose proof (pow2_half w Hw) as Hh. pose proof (Z.pow_pos_nonneg 2 (w - 1)) as Hp.
  assert (∀ j, 0 ≤ j < w → Z.testbit (a `mod` 2 ^ w) j = Z.testbit a j) as Hlow
    by (intros; by rewrite Z.mod_pow2_bits_low by lia).
  assert (Z.testbit a (w - 1) = negb (a `mod` 2 ^ w <? 2 ^ (w - 1))) as Htop.
  { rewrite <-Hlow by lia.
    destruct (Z.ltb_spec (a `mod` 2 ^ w) (2 ^ (w - 1))) as [Hs|Hs]; simpl.
    - destruct (decide (a `mod` 2 ^ w = 0)) as [->|]; [apply Z.bits_0|].
      apply Z.bits_above_log2; [apply Z.mod_pos_bound; lia|].
      apply Z.log2_lt_pow2; [|done]. pose proof (Z.mod_pos_bound a (2 ^ w)). lia.
    - apply Z.testbit_true; [lia|]. pose proof (Z.mod_pos_bound a (2 ^ w)).
      rewrite <-(Z.div_unique (a `mod` 2 ^ w) (2 ^ (w - 1)) 1 (a `mod` 2 ^ w - 2 ^ (w - 1))) by lia.
      done. }
  unfold wraps. destruct (Z.ltb_spec (a `mod` 2 ^ w) (2 ^ (w - 1))) as [Hs|Hs]; simpl in Htop.
  - destruct (decide (i < w)) as [Hl|Hl]; [rewrite Z.min_l, Hlow by lia; done|].
    rewrite Z.min_r, Htop by lia. by rewrite Z.mod_pow2_bits_high by lia.
  - replace (a `mod` 2 ^ w - 2 ^ w) with (a `mod` 2 ^ w + (-1) * 2 ^ w) by lia.
    rewrite <-lor_disjoint_add by (lia || (apply Z.mod_pos_bound; lia)).
    rewrite Z.lor_spec, <-Z.shiftl_mul_pow2, Z.shiftl_spec by lia.
    destruct (decide (i < w)) as [Hl|Hl].
    + rewrite Z.min_l, Hlow, (Z.testbit_neg_r _ (i - w)), orb_false_r by lia. done.
    + rewrite Z.min_r, Htop, Z.bits_m1, orb_true_r by lia. done.
Qed.

Lemma testbit_wraps_low w a i :
  0 ≤ i < w → Z.testbit (wraps w a) i = Z.testbit a i.
Proof. intros. rewrite testbit_wraps by lia. by rewrite Z.min_l by lia. Qed.

Lemma testbit_wrapu w a i :
  0 ≤ w → 0 ≤ i → Z.testbit (wrapu w a) i = if i <? w then Z.testbit a i else false.
Proof.
  intros. unfold wrapu. destruct (Z.ltb_spec i w).
  - by rewrite Z.mod_pow2_bits_low by lia.
  - by rewrite Z.mod_pow2_bits_high by lia.
Qed.

(** Signed numbers are equal when their low [w] bits are. *)
Lemma s_ext w a b :
  0 < w → in_s w a → in_s w b →
  (∀ i, 0 ≤ i < w → Z.testbit a i = Z.testbit b i) → a = b.
Proof.
  intros Hw Ha Hb Hbits. rewrite <-(wraps_id w a), <-(wraps_id w b) by done.
  apply Z.bits_inj'. intros i Hi. rewrite !testbit_wraps by done. apply Hbits. lia.
Qed.

Lemma in_s_iff w a : 0 < w → in_s w a ↔ ∀ i, w ≤ i → Z.testbit a i = Z.testbit a (w - 1).
Proof.
  intros Hw. split.
  - intros Ha i Hi. transitivity (Z.testbit (wraps w a) i); [by rewrite wraps_id|].
    rewrite testbit_wraps by lia. by rewrite Z.min_r by lia.
  - intros Hb. replace a with (wraps w a); [by apply wraps_range|].
    apply Z.bits_inj'. intros i Hi. rewrite testbit_wraps by done.
    destruct (decide (i < w)); [by rewrite Z.min_l by lia|].
    rewrite Z.min_r by lia. symmetry. apply Hb. lia.
Qed.

Lemma in_s_land w a b : 0 < w → in_s w a → in_s w b → in_s w (Z.land a b).
Proof.
  intros Hw. rewrite !in_s_iff by done. intros Ha Hb i Hi.
  by rewrite !Z.land_spec, Ha, Hb by done.
Qed.
Lemma in_s_lor w a b : 0 < w → in_s w a → in_s w b → in_s w (Z.lor a b).
Proof.
  intros Hw. rewrite !in_s_iff by done. intros Ha Hb i Hi.
  by rewrite !Z.lor_spec, Ha, Hb by done.
Qed.
Lemma in_s_lxor w a b : 0 < w → in_s w a → in_s w b → in_s w (Z.lxor a b).
Proof.
  intros Hw. rewrite !in_s_iff by done. intros Ha Hb i Hi.
  by rewrite !Z.lxor_spec, Ha, Hb by done.
Qed.
Lemma in_s_lnot w a : 0 < w → in_s w a → in_s w (Z.lnot a).
Proof. unfold in_s, Z.lnot. lia. Qed.
Lemma in_s_shiftr w a n : 0 < w → 0 ≤ n → in_s w a → in_s w (Z.shiftr a n).
Proof.
  intros Hw Hn. rewrite !in_s_iff by done. intros Ha i Hi.
  rewrite !Z.shiftr_spec by lia. rewrite (Ha (i + n)) by lia.
  destruct (decide (n = 0)) as [->|]; [by rewrite Z.add_0_r|]. by rewrite (Ha (w - 1 + n)) by lia.
Qed.

#[export] Hint Resolve in_s_land in_s_lor in_s_lxor in_s_lnot in_s_shiftr : vela.

(** ** Rotation *)

Lemma testbit_rotl w a n i :
  0 ≤ n < w → 0 ≤ i < w → Z.testbit (rotl w a n) i = Z.testbit a ((i - n) `mod` w).
Proof.
  intros Hn Hi. unfold rotl. rewrite testbit_wraps_low by done.
  rewrite Z.lor_spec, Z.shiftl_spec, Z.shiftr_spec, testbit_wrapu by lia.
  destruct (decide (n ≤ i)).
  - rewrite (Z.mod_small (i - n)) by lia.
    destruct (Z.ltb_spec (i + (w - n)) w); [lia|]. by rewrite orb_false_r.
  - rewrite (Z.testbit_neg_r a (i - n)) by lia.
    rewrite <-(Z.mod_unique (i - n) w (-1) (i + (w - n))) by lia.
    by rewrite (proj2 (Z.ltb_lt _ _)) by lia.
Qed.

Lemma rotl_range w a n : 0 < w → in_s w (rotl w a n).
Proof. intros. by apply wraps_range. Qed.

Lemma rotl_0 w a : 0 < w → in_s w a → rotl w a 0 = a.
Proof.
  intros Hw Ha. apply (s_ext w); [done|by apply rotl_range|done|].
  intros i Hi. rewrite testbit_rotl, Z.sub_0_r, Z.mod_small by lia. done.
Qed.

Lemma rotl_rotl w a n m :
  0 ≤ n < w → 0 ≤ m < w → rotl w (rotl w a n) m = rotl w a ((n + m) `mod` w).
Proof.
  intros Hn Hm. apply (s_ext w); [lia|apply rotl_range; lia|apply rotl_range; lia|].
  intros i Hi. pose proof (Z.mod_pos_bound (n + m) w).
  pose proof (Z.mod_pos_bound (i - m) w).
  rewrite !testbit_rotl by lia. f_equal.
  rewrite Zminus_mod_idemp_l, Zminus_mod_idemp_r. f_equal. lia.
Qed.

Lemma rotl_m1 w n : 0 ≤ n < w → rotl w (-1) n = -1.
Proof.
  intros Hn. apply (s_ext w); [lia|apply rotl_range; lia| |].
  { unfold in_s. pose proof (Z.pow_pos_nonneg 2 (w - 1)). lia. }
  intros i Hi. rewrite testbit_rotl by lia. pose proof (Z.mod_pos_bound (i - n) w).
  by rewrite !Z.bits_m1 by lia.
Qed.

Lemma rotl_zero w n : 0 ≤ n < w → rotl w 0 n = 0.
Proof.
  intros Hn. apply (s_ext w); [lia|apply rotl_range; lia| |].
  { unfold in_s. pose proof (Z.pow_pos_nonneg 2 (w - 1)). lia. }
  intros i Hi. rewrite testbit_rotl by lia. by rewrite !Z.bits_0.
Qed.

Lemma rotl_land w a b n :
  0 ≤ n < w → in_s w a → in_s w b →
  rotl w (Z.land a b) n = Z.land (rotl w a n) (rotl w b n).
Proof.
  intros Hn Ha Hb. apply (s_ext w); [lia|apply rotl_range; lia| |].
  { apply in_s_land; [lia|apply rotl_range; lia..]. }
  intros i Hi. rewrite Z.land_spec, !testbit_rotl, Z.land_spec by lia. done.
Qed.

(** ** The machine operations *)

(** The widths of the IR, whose masks are all ones. *)
Definition width (w : Z) : Prop := w = 32 ∨ w = 64.

Lemma width_pos w : width w → 0 < w.
Proof. unfold width. lia. Qed.
#[export] Hint Resolve width_pos : vela.

Lemma land_mask w n : width w → Z.land n (w - 1) = n `mod` w.
Proof.
  intros [->| ->].
  - change (32 - 1) with (Z.ones 5). by rewrite Z.land_ones by lia.
  - change (64 - 1) with (Z.ones 6). by rewrite Z.land_ones by lia.
Qed.

Lemma count_range w n : width w → 0 ≤ Z.land n (w - 1) < w.
Proof.
  intros Hw. rewrite land_mask by done. apply Z.mod_pos_bound. by apply width_pos.
Qed.

Lemma neg_mask w n :
  width w → 0 ≤ n < w → Z.land (- n) (w - 1) = if n =? 0 then 0 else w - n.
Proof.
  intros Hw Hn. rewrite land_mask by done. destruct (Z.eqb_spec n 0) as [->|]; [done|].
  symmetry. apply (Z.mod_unique _ _ (-1)); lia.
Qed.

Lemma rolw_rotl w a n :
  width w → 0 ≤ n < w → wraps w (lj_rolw w (wrapu w a) n) = rotl w a n.
Proof.
  intros Hw Hn. pose proof (width_pos _ Hw).
  apply (s_ext w); [done|by apply wraps_range|by apply rotl_range|].
  intros i Hi. rewrite testbit_wraps_low, testbit_rotl by lia.
  unfold lj_rolw. rewrite neg_mask by done.
  rewrite Z.lor_spec, testbit_wrapu, (proj2 (Z.ltb_lt i w)) by lia.
  destruct (Z.eqb_spec n 0) as [->|Hn0].
  - rewrite Z.shiftl_0_r, Z.shiftr_0_r, Z.sub_0_r, Z.mod_small by lia.
    rewrite testbit_wrapu, (proj2 (Z.ltb_lt i w)) by lia. by rewrite orb_diag.
  - rewrite Z.shiftl_spec, Z.shiftr_spec, (testbit_wrapu w a (i + (w - n))) by lia.
    destruct (decide (n ≤ i)).
    + rewrite testbit_wrapu by lia. rewrite (proj2 (Z.ltb_lt (i - n) w)) by lia.
      rewrite (proj2 (Z.ltb_ge _ _)) by lia. rewrite orb_false_r, Z.mod_small by lia. done.
    + rewrite Z.testbit_neg_r by lia. rewrite (proj2 (Z.ltb_lt _ _)) by lia. simpl.
      f_equal. apply (Z.mod_unique _ _ (-1)); lia.
Qed.

Lemma rorw_rotl w a n :
  width w → 0 ≤ n < w →
  wraps w (lj_rorw w (wrapu w a) n) = rotl w a ((w - n) `mod` w).
Proof.
  intros Hw Hn. pose proof (width_pos _ Hw).
  assert (lj_rorw w (wrapu w a) n = lj_rolw w (wrapu w a) ((w - n) `mod` w)) as ->;
    [|apply rolw_rotl; [done|]; apply Z.mod_pos_bound; lia].
  unfold lj_rorw, lj_rolw. destruct (decide (n = 0)) as [->|].
  - rewrite Z.sub_0_r, Z.mod_same by lia. done.
  - rewrite (Z.mod_small (w - n)) by lia. rewrite !neg_mask by (done || lia).
    rewrite !(proj2 (Z.eqb_neq _ 0)) by lia. do 2 f_equal. lia.
Qed.

(** [uj_math_modi] is the modulo of Lua: rounding towards minus infinity. *)
Lemma uj_math_modi_floor a b : in_s 32 a → in_s 32 b → b ≠ 0 → uj_math_modi a b = a `mod` b.
Proof.
  unfold in_s. simpl. intros Ha Hb Hb0. unfold uj_math_modi.
  assert ((if a <? 0 then u32 (- a) else u32 a) = Z.abs a) as ->.
  { unfold u32, wrapu. change (2 ^ 32) with 4294967296.
    case_test; bprop; rewrite Z.mod_small by lia; lia. }
  assert ((if b <? 0 then u32 (- b) else u32 b) = Z.abs b) as ->.
  { unfold u32, wrapu. change (2 ^ 32) with 4294967296.
    case_test; bprop; rewrite Z.mod_small by lia; lia. }
  pose proof (Z.mod_pos_bound (Z.abs a) (Z.abs b) ltac:(lia)) as Hy.
  assert ((Z.lxor a b <? 0) = xorb (a <? 0) (b <? 0)) as Hx.
  { pose proof (Z.lxor_nonneg a b).
    destruct (Z.ltb_spec a 0), (Z.ltb_spec b 0), (Z.ltb_spec (Z.lxor a b) 0); try done; lia. }
  assert (∀ y, - 2 ^ 31 ≤ y < 2 ^ 31 → i32 (u32 y) = y) as Hi.
  { intros y ?. unfold i32, u32. rewrite wraps_wrapu by lia. apply wraps_id; [lia|]. done. }
  simpl in Hi.
  set (y := Z.abs a `mod` Z.abs b) in *.
  assert (∀ z, -2147483648 ≤ z < 2147483648 →
    (Z.lxor z b <? 0) = xorb (z <? 0) (b <? 0)) as Hz.
  { intros z _. pose proof (Z.lxor_nonneg z b).
    destruct (Z.ltb_spec z 0), (Z.ltb_spec b 0), (Z.ltb_spec (Z.lxor z b) 0); try done; lia. }
  assert (i32 y = y) as Hiy by (apply wraps_id; [lia|]; unfold in_s; simpl; lia).
  rewrite Hx. pose proof (Z.div_mod (Z.abs a) (Z.abs b) ltac:(lia)) as Hdm. fold y in Hdm.
  set (q := Z.abs a `div` Z.abs b) in *.
  destruct (Z.eqb_spec y 0) as [Hy0|Hy0]; simpl.
  - rewrite Hy0 in *. change (i32 0) with 0. rewrite Z.lxor_0_l.
    assert (a `mod` b = 0) as ->.
    { apply Z.mod_divide; [done|]. exists (if a <? 0 then if b <? 0 then q else - q
        else if b <? 0 then - q else q). repeat case_test; bprop; lia. }
    case_test; done.
  - destruct (Z.ltb_spec a 0) as [Ha0|Ha0], (Z.ltb_spec b 0) as [Hb1|Hb1]; simpl.
    + rewrite Hiy, Hz, (proj2 (Z.ltb_ge y 0)) by lia. simpl.
      rewrite Hi by lia. apply (Z.mod_unique_neg _ _ q); lia.
    + rewrite Hi, Hz, (proj2 (Z.ltb_lt (y - _) 0)) by lia. simpl.
      rewrite Hi by lia. apply (Z.mod_unique_pos _ _ (- q - 1)); lia.
    + rewrite Hi, Hz, (proj2 (Z.ltb_lt (y - _) 0)) by lia. simpl.
      rewrite Hi by lia. apply (Z.mod_unique_neg _ _ (- q - 1)); lia.
    + rewrite Hiy, Hz, (proj2 (Z.ltb_ge y 0)) by lia. simpl.
      rewrite Hiy. apply (Z.mod_unique_pos _ _ q); lia.
Qed.

(** Constant folding of 32 bit operations computes their meaning. *)
Lemma kfold_intop_arith o a b v :
  in_s 32 a → in_s 32 b → o ≠ IR_BNOT → o ≠ IR_BSWAP → ir_arith 32 o a b = Some v →
  kfold_intop a b o = v.
Proof.
  intros Ha Hb H1 H2. pose proof (count_range 32 b ltac:(by left)) as Hn. simpl in Hn.
  destruct o; simpl; try done; intros [= <-]; try done.
  - apply rolw_rotl; [by left|done].
  - apply rorw_rotl; [by left|done].
  - case_test; bprop; lia.
  - case_test; bprop; lia.
Qed.

(** ... and of 64 bit operations, on the unsigned representation. *)
Lemma i64_u64 a : i64 (u64 a) = i64 a.
Proof. by apply wraps_wrapu. Qed.
Lemma u64_i64 a : u64 (i64 a) = u64 a.
Proof. by apply wrapu_wraps. Qed.

Lemma wraps_land w a b : 0 < w → wraps w (Z.land a b) = Z.land (wraps w a) (wraps w b).
Proof.
  intros. apply Z.bits_inj'. intros i Hi.
  by rewrite Z.land_spec, !testbit_wraps, Z.land_spec by done.
Qed.
Lemma wraps_lor w a b : 0 < w → wraps w (Z.lor a b) = Z.lor (wraps w a) (wraps w b).
Proof.
  intros. apply Z.bits_inj'. intros i Hi.
  by rewrite Z.lor_spec, !testbit_wraps, Z.lor_spec by done.
Qed.
Lemma wraps_lxor w a b : 0 < w → wraps w (Z.lxor a b) = Z.lxor (wraps w a) (wraps w b).
Proof.
  intros. apply Z.bits_inj'. intros i Hi.
  by rewrite Z.lxor_spec, !testbit_wraps, Z.lxor_spec by done.
Qed.
Lemma wraps_lnot w a : 0 < w → wraps w (Z.lnot a) = Z.lnot (wraps w a).
Proof.
  intros. apply Z.bits_inj'. intros i Hi.
  rewrite Z.lnot_spec, !testbit_wraps, Z.lnot_spec by lia. done.
Qed.

Lemma kfold_int64arith_arith o a b v :
  o ∈ [IR_ADD; IR_SUB; IR_MUL; IR_BAND; IR_BOR; IR_BXOR] →
  ir_arith 64 o (i64 a) (i64 b) = Some v → i64 (kfold_int64arith a b o) = v.
Proof.
  intros Ho. repeat (apply elem_of_cons in Ho as [->|Ho]); [..|by apply elem_of_nil in Ho];
    simpl; intros [= <-]; rewrite ?i64_u64; unfold i64.
  - by rewrite wraps_add.
  - by rewrite wraps_sub.
  - by rewrite wraps_mul.
  - by apply wraps_land.
  - by apply wraps_lor.
  - by apply wraps_lxor.
Qed.

Lemma kfold_int64arith_rng o a b :
  in_u 64 a → in_u 64 b → o ∈ [IR_ADD; IR_SUB; IR_MUL; IR_BAND; IR_BOR; IR_BXOR] →
  in_u 64 (kfold_int64arith a b o).
Proof.
  intros Ha Hb Ho. assert (∀ x, in_u 64 x ↔ 0 ≤ x ∧ ∀ i, 64 ≤ i → Z.testbit x i = false) as Hu.
  { intros x. split.
    - intros Hx. split; [apply Hx|]. intros i Hi.
      rewrite <-(wrapu_id 64 x) by done. rewrite testbit_wrapu by lia.
      by rewrite (proj2 (Z.ltb_ge _ _)) by lia.
    - intros [H0 Hx]. split; [done|]. destruct (decide (x = 0)) as [->|]; [lia|].
      apply Z.log2_lt_pow2; [lia|]. destruct (decide (Z.log2 x < 64)); [done|].
      pose proof (Z.bit_log2 x ltac:(lia)) as Hb2. rewrite Hx in Hb2 by lia. done. }
  repeat (apply elem_of_cons in Ho as [->|Ho]); [..|by apply elem_of_nil in Ho];
    simpl; try by apply wrapu_range.
  all: apply Hu in Ha as [? Ha], Hb as [? Hb]; apply Hu.
  - split; [apply Z.land_nonneg; lia|]. intros. by rewrite Z.land_spec, Ha by lia.
  - split; [apply Z.lor_nonneg; lia|]. intros. by rewrite Z.lor_spec, Ha, Hb by lia.
  - split; [apply Z.lxor_nonneg; lia|]. intros. by rewrite Z.lxor_spec, Ha, Hb by lia.
Qed.

(** ** Laws of the simplifications *)

Lemma shl_one w a : wraps w (Z.shiftl a 1) = wraps w (a + a).
Proof. rewrite Z.shiftl_mul_pow2 by lia. f_equal. lia. Qed.

(** [(k & (k-1)) == 0] tests for a power of two. *)
Lemma pow2_test k : 0 < k → Z.land k (k - 1) = 0 → k = 2 ^ Z.log2 k.
Proof.
  intros Hk H. destruct (Z.log2_spec k Hk) as [Hlo Hhi].
  destruct (decide (k = 2 ^ Z.log2 k)) as [|Hne]; [done|]. exfalso.
  assert (Z.log2 (k - 1) = Z.log2 k) as El.
  { apply Z.log2_unique; [apply Z.log2_nonneg|]. lia. }
  assert (Z.testbit (Z.land k (k - 1)) (Z.log2 k) = true) as Hb.
  { rewrite Z.land_spec. rewrite Z.bit_log2 by lia. rewrite <-El. apply Z.bit_log2.
    pose proof (Z.pow_pos_nonneg 2 (Z.log2 k) ltac:(lia) (Z.log2_nonneg k)). lia. }
  by rewrite H, Z.bits_0 in Hb.
Qed.

Lemma mod_land_pow2 a k : 0 < k → Z.land k (k - 1) = 0 → a `mod` k = Z.land a (k - 1).
Proof.
  intros Hk H. pose proof (Z.land_ones a (Z.log2 k) (Z.log2_nonneg k)) as E.
  rewrite Z.ones_equiv, <-(pow2_test k Hk H), <-Z.sub_1_r in E. done.
Qed.

Lemma wrapu_land w a b : 0 ≤ w → wrapu w (Z.land a b) = Z.land (wrapu w a) (wrapu w b).
Proof.
  intros. apply Z.bits_inj'. intros i Hi.
  rewrite Z.land_spec, !testbit_wrapu, Z.land_spec by done. by case_test.
Qed.

(** [(a & b) o n = (a o n) & (b o n)] *)
Lemma arith_land o w a b n va vb v :
  width w → o ∈ [IR_BSHL; IR_BSHR; IR_BROL; IR_BROR] → in_s w a → in_s w b →
  ir_arith w o a n = Some va → ir_arith w o b n = Some vb →
  ir_arith w o (Z.land a b) n = Some v → v = Z.land va vb.
Proof.
  intros Hw Ho Ha Hb. pose proof (width_pos _ Hw). pose proof (count_range w n Hw) as Hn.
  repeat (apply elem_of_cons in Ho as [->|Ho]); [..|by apply elem_of_nil in Ho];
    simpl; intros [= <-] [= <-] [= <-].
  - by rewrite Z.shiftl_land, wraps_land.
  - by rewrite wrapu_land, Z.shiftr_land, wraps_land by lia.
  - by apply rotl_land.
  - apply rotl_land; [apply Z.mod_pos_bound; lia|done|done].
Qed.

Lemma shl_shl w a n m :
  0 < w → 0 ≤ n → 0 ≤ m → wraps w (Z.shiftl (wraps w (Z.shiftl a n)) m) = wraps w (Z.shiftl a (n + m)).
Proof.
  intros. rewrite <-Z.shiftl_shiftl by done. rewrite !(Z.shiftl_mul_pow2 _ m) by done.
  by apply wraps_mul_l.
Qed.

Lemma shl_wide w a n : 0 < w → w ≤ n → wraps w (Z.shiftl a n) = 0.
Proof.
  intros. apply (s_ext w); [done|by apply wraps_range| |].
  { unfold in_s. pose proof (Z.pow_pos_nonneg 2 (w - 1)). lia. }
  intros i Hi. rewrite testbit_wraps_low, Z.bits_0 by done.
  rewrite Z.shiftl_spec by lia. apply Z.testbit_neg_r. lia.
Qed.

Lemma shr_shr w a n m :
  0 < w → 0 ≤ n → 0 ≤ m →
  wraps w (Z.shiftr (wrapu w (wraps w (Z.shiftr (wrapu w a) n))) m) =
  wraps w (Z.shiftr (wrapu w a) (n + m)).
Proof.
  intros Hw Hn Hm. rewrite wrapu_wraps by done. rewrite <-Z.shiftr_shiftr by done.
  do 2 f_equal. apply wrapu_id. pose proof (wrapu_range w a ltac:(lia)) as Hr. unfold in_u in *.
  rewrite Z.shiftr_div_pow2 by done. pose proof (Z.pow_pos_nonneg 2 n).
  split; [apply Z.div_pos; lia|]. apply Z.div_lt_upper_bound; [lia|]. nia.
Qed.

Lemma shr_wide w a n : 0 < w → w ≤ n → wraps w (Z.shiftr (wrapu w a) n) = 0.
Proof.
  intros. rewrite Z.shiftr_div_pow2 by lia. rewrite Z.div_small.
  { apply wraps_id; [done|]. unfold in_s. pose proof (Z.pow_pos_nonneg 2 (w - 1)). lia. }
  pose proof (wrapu_range w a ltac:(lia)) as [? ?]. split; [done|].
  pose proof (Z.pow_le_mono_r 2 w n). lia.
Qed.

Lemma sar_wide w a n : 0 < w → in_s w a → w - 1 ≤ n → Z.shiftr a n = Z.shiftr a (w - 1).
Proof.
  intros Hw Ha Hn. apply Z.bits_inj'. intros i Hi. rewrite !Z.shiftr_spec by done.
  rewrite in_s_iff in Ha by done.
  assert (∀ j, w - 1 ≤ j → Z.testbit a j = Z.testbit a (w - 1)) as Hj.
  { intros j ?. destruct (decide (j = w - 1)) as [->|]; [done|]. apply Ha. lia. }
  rewrite (Hj (i + n)), (Hj (i + (w - 1))) by lia. done.
Qed.

(** Byte swapping twice is the identity. *)
Lemma testbit_bswap n x i :
  0 ≤ i < 8 * Z.of_nat n →
  Z.testbit (bswap_bytes n x) i = Z.testbit x (8 * (Z.of_nat n - 1 - i / 8) + i `mod` 8).
Proof.
  revert x. induction n as [|n IH]; intros x Hi; [lia|].
  simpl bswap_bytes. rewrite Z.lor_spec, Z.shiftl_spec by lia.
  pose proof (Z.mod_pos_bound i 8 ltac:(lia)). pose proof (Z.div_mod i 8 ltac:(lia)).
  assert (∀ y j, 8 * Z.of_nat n ≤ j → Z.testbit (bswap_bytes n y) j = false) as Hhigh.
  { clear. induction n as [|n IH]; intros y j Hj; simpl; [apply Z.bits_0|].
    rewrite Z.lor_spec, Z.shiftl_spec, IH, orb_false_r by lia.
    rewrite Z.land_spec. change 255 with (Z.ones 8).
    rewrite Z.ones_spec_high, andb_false_r by lia. done. }
  destruct (decide (i < 8 * Z.of_nat n)).
  - rewrite Z.testbit_neg_r, IH, Z.shiftr_spec by lia. simpl. f_equal. lia.
  - rewrite Hhigh, orb_false_r, Z.land_spec by lia. change 255 with (Z.ones 8).
    rewrite Z.ones_spec_low, andb_true_r by lia. f_equal. lia.
Qed.

Lemma bswap_bswap w a :
  width w → in_s w a →
  wraps w (bswap_bytes (Z.to_nat (w / 8)) (wrapu w
    (wraps w (bswap_bytes (Z.to_nat (w / 8)) (wrapu w a))))) = a.
Proof.
  intros Hw Ha. pose proof (width_pos _ Hw). rewrite wrapu_wraps by done.
  assert (8 * Z.of_nat (Z.to_nat (w / 8)) = w) as Hn by (by destruct Hw as [->| ->]).
  apply (s_ext w); [done|by apply wraps_range|done|].
  intros i Hi. pose proof (Z.mod_pos_bound i 8 ltac:(lia)). pose proof (Z.div_mod i 8 ltac:(lia)).
  set (n := Z.to_nat (w / 8)) in *.
  assert (0 ≤ 8 * (Z.of_nat n - 1 - i / 8) + i `mod` 8 < w) by lia.
  rewrite testbit_wraps_low, testbit_bswap, testbit_wrapu by lia.
  rewrite (proj2 (Z.ltb_lt _ w)), testbit_bswap by lia.
  assert (8 * (Z.of_nat n - 1 - (8 * (Z.of_nat n - 1 - i / 8) + i `mod` 8) / 8) +
    (8 * (Z.of_nat n - 1 - i / 8) + i `mod` 8) `mod` 8 = i) as ->.
  { rewrite (Z.mul_comm 8 (Z.of_nat n - 1 - i / 8)), Z.div_add_l by lia.
    rewrite (Z.add_comm _ (i `mod` 8)), Z.mod_add by lia.
    rewrite (Z.div_small (i `mod` 8)), Z.mod_mod by lia. lia. }
  by rewrite testbit_wrapu, (proj2 (Z.ltb_lt _ w)) by lia.
Qed.

Lemma neg_neg w a : 0 < w → in_s w a → wraps w (- wraps w (- a)) = a.
Proof. intros. rewrite wraps_opp, Z.opp_involutive by done. by apply wraps_id. Qed.

(** A count that only keeps the bits of the mask. *)
Lemma land_count w j k : Z.land k (w - 1) = w - 1 → Z.land (Z.land j k) (w - 1) = Z.land j (w - 1).
Proof. intros H. by rewrite <-Z.land_assoc, H. Qed.
Lemma count_idem w n : Z.land (Z.land n (w - 1)) (w - 1) = Z.land n (w - 1).
Proof. by rewrite <-Z.land_assoc, Z.land_diag. Qed.

End IntFacts.
