(* ===== verification/Fold.v ===== *)
(** * FOLD: the fold engine of the trace compiler (jit/opt/fold.c)

    Every fold function of the integer and bit operations, their comparisons,
    conversions between integer types, bounds checks, and commutativity, with
    the [LJFOLD] lines that register it; the engine [lj_opt_fold] that matches
    an instruction against the rules, and common-subexpression elimination.

    A fold function is a program that ends with one of the special results or
    calls the engine on an instruction it has put into [J->fold.ins]
    ([CallFold]) and continues with the reference returned.  [lj_trace_err]
    leaves the engine: the outcome is [TraceErr].

    The rules whose keys need operands of other types (numbers, strings,
    pointers, tables and memory) are not in the table; they cannot match an
    instruction whose operands are integers. *)

From stdpp Require Import base decidable list numbers option sets.
From Stdlib Require Import ZArith Lia.
From S2P Require Import Prelude Obj Ir IntOps.

Local Open Scope Z_scope.
Import Ir IntOps.

Module Fold.

(** ** Results of fold functions (jit/lj_iropt.h) *)

Inductive foldres :=
  | NEXTFOLD
  | RETRYFOLD
  | KINTFOLD (k : Z)      (* [fins->i = k] *)
  | FAILFOLD
  | DROPFOLD
  | REFFOLD (ref : Z).

Inductive prog :=
  | Ret (J : jit_State) (r : foldres)
  | CallFold (J : jit_State) (k : jit_State → Z → prog).

Definition CONDFOLD (c : bool) : foldres := if c then DROPFOLD else FAILFOLD.
Definition LEFTFOLD (J : jit_State) : foldres := REFFOLD (op1 (fins J)).
Definition RIGHTFOLD (J : jit_State) : foldres := REFFOLD (op2 (fins J)).

(** [INT64FOLD(k)] *)
Definition INT64FOLD (J : jit_State) (k : Z) : prog :=
  let (J, ref) := lj_ir_kint64 J k in Ret J (REFFOLD ref).

(** Assignments to fields of [fins]. *)
Definition fins_o (o : IROp) (J : jit_State) : jit_State := set_fins (set_io o (fins J)) J.
Definition fins_op1 (r : Z) (J : jit_State) : jit_State := set_fins (set_op1 r (fins J)) J.
Definition fins_op2 (r : Z) (J : jit_State) : jit_State := set_fins (set_op2 r (fins J)) J.
Definition fins_ot (o : IROp) (t : Z) (J : jit_State) : jit_State :=
  set_fins (set_it t (set_io o (fins J))) J.

Definition lj_ir_set_ (J : jit_State) (o : IROp) (t a b : Z) : jit_State :=
  set_fins (MkIns o t a b (ii (fins J)) 0 (prev (fins J))) J.

(** [fins->op2 = (IRRef1)lj_ir_kint(J, k)] *)
Definition fins_op2_kint (k : Z) (J : jit_State) : jit_State :=
  let (J, r) := lj_ir_kint J k in fins_op2 r J.
Definition fins_op1_kint (k : Z) (J : jit_State) : jit_State :=
  let (J, r) := lj_ir_kint J k in fins_op1 r J.
Definition fins_op2_kint64 (k : Z) (J : jit_State) : jit_State :=
  let (J, r) := lj_ir_kint64 J k in fins_op2 r J.

(** [PHIBARRIER(ir)] *)
Definition PHIBARRIER (x : IRIns) (J : jit_State) (k : prog) : prog :=
  if irt_isphi (it x) then Ret J NEXTFOLD else k.

(** [rawV(ir_kint64(ir))] *)
Definition rawK (J : jit_State) (x : IRIns) : Z := k64_val J (ii x).

(** ** Common-subexpression elimination *)

Definition JIT_F_OPT_MASK : Z := 0xfffff000.
Definition JIT_F_OPT_FOLD : Z := 0x00001000.
Definition JIT_F_OPT_CSE : Z := 0x00002000.
Definition JIT_F_OPT_FWD : Z := 0x00008000.
Definition JIT_F_OPT_DSE : Z := 0x00010000.
Definition JIT_F_OPT_ABC : Z := 0x00080000.
(** FOLD, CSE, DCE, NARROW, LOOP, FWD, DSE, ABC and SINK. *)
Definition JIT_F_OPT_DEFAULT : Z := 0x001ff000.

Definition optflag (J : jit_State) (f : Z) : bool := negb (Z.land (flags J) f =? 0).

(** [while (ref > lim) { if (p) return ref; ref = prev; }]; 0 when not found.
    Instructions are chained downwards, so [nins] rounds are enough. *)
Fixpoint cse_find (fuel : nat) (J : jit_State) (p : IRIns → bool) (lim ref : Z) : Z :=
  match fuel with
  | O => 0
  | S fuel =>
      if lim <? ref then
        if p (IR J ref) then ref else cse_find fuel J p lim (prev (IR J ref))
      else 0
  end.
Definition chain_search (J : jit_State) (o : IROp) (p : IRIns → bool) (lim : Z) : Z :=
  cse_find (Z.to_nat (nins J)) J p lim (chain J o).

Definition same_op12 (x y : IRIns) : bool := (op1 x =? op1 y) && (op2 x =? op2 y).

(** CSE an IR instruction. *)
Definition lj_opt_cse (J : jit_State) : jit_State * Z :=
  let op := io (fins J) in
  let found :=
    if optflag J JIT_F_OPT_CSE then
      chain_search J op (same_op12 (fins J)) (Z.max (op1 (fins J)) (op2 (fins J)))
    else 0 in
  if negb (found =? 0) then (J, found)
  else
    let (J, ref) := lj_ir_nextins J in
    let x := MkIns op (it (fins J)) (op1 (fins J)) (op2 (fins J)) (ii (IR J ref))
               (hints (fins J)) (chain J op) in
    let J := set_chain op ref (set_ir ref x J) in
    (set_guardemit (Z.lor (guardemit J) (it (fins J))) J, ref).

(** CSE with explicit search limit. *)
Definition lj_opt_cselim (J : jit_State) (lim : Z) : jit_State * Z :=
  let found := chain_search J (io (fins J)) (same_op12 (fins J)) lim in
  if negb (found =? 0) then (J, found) else lj_ir_emit J.

Definition CSEFOLD (J : jit_State) : prog := let (J, r) := lj_opt_cse J in Ret J (REFFOLD r).
Definition EMITFOLD (J : jit_State) : prog := let (J, r) := lj_ir_emit J in Ret J (REFFOLD r).

(** ** Constant folding for 32 bit integers *)

Definition kfold_intarith (J : jit_State) : prog :=
  Ret J (KINTFOLD (kfold_intop (ii (fleft J)) (ii (fright J)) (io (fins J)))).

(** [uj_math_foldarith] on numbers that are integers: the exact result, rounded
    to the nearest number when it does not fit 53 bits. *)
Definition num_of_int (k : Z) : Z :=
  let a := Z.abs k in
  let e := Z.log2 a in
  if e <=? 52 then Obj.int2num k
  else
    let d := 2 ^ (e - 52) in
    let q := a / d in
    let r := 2 * (a `mod` d) in
    let q := if (d <? r) || ((r =? d) && Z.odd q) then q + 1 else q in
    (if k <? 0 then 2 ^ 63 else 0) + (e + 1023) * 2 ^ 52 + (q - 2 ^ 52).
Definition foldarith_int (op : IROp) (a b : Z) : Z :=
  match op with
  | IR_ADDOV => num_of_int (a + b)
  | IR_SUBOV => num_of_int (a - b)
  | _ => if (a * b =? 0) && negb (Bool.eqb (a <? 0) (b <? 0)) then 2 ^ 63
         else num_of_int (a * b)
  end.

Definition kfold_intovarith (J : jit_State) : prog :=
  let n := foldarith_int (io (fins J)) (ii (fleft J)) (ii (fright J)) in
  let k := Obj.lj_num2int n in
  if negb (Obj.num_eq n (Obj.int2num k)) then Ret J FAILFOLD
  else Ret J (KINTFOLD k).

Definition kfold_bnot (J : jit_State) : prog := Ret J (KINTFOLD (Z.lnot (ii (fleft J)))).
Definition kfold_bswap (J : jit_State) : prog :=
  Ret J (KINTFOLD (i32 (lj_bswap (u32 (ii (fleft J)))))).

Definition kfold_intcomp (J : jit_State) : prog :=
  let a := i32 (ii (fleft J)) in
  let b := i32 (ii (fright J)) in
  Ret J (match io (fins J) with
         | IR_LT => CONDFOLD (a <? b)
         | IR_GE => CONDFOLD (b <=? a)
         | IR_LE => CONDFOLD (a <=? b)
         | IR_GT => CONDFOLD (b <? a)
         | IR_ULT => CONDFOLD (u32 a <? u32 b)
         | IR_UGE => CONDFOLD (u32 b <=? u32 a)
         | IR_ULE => CONDFOLD (u32 a <=? u32 b)
         | IR_ABC | IR_UGT => CONDFOLD (u32 b <? u32 a)
         | _ => FAILFOLD
         end).

Definition kfold_intcomp0 (J : jit_State) : prog :=
  if ii (fright J) =? 0 then Ret J DROPFOLD else Ret J NEXTFOLD.

(** ** Constant folding for 64 bit integers *)

Definition fold_kfold_int64arith (J : jit_State) : prog :=
  INT64FOLD J (kfold_int64arith (rawK J (fleft J)) (rawK J (fright J)) (io (fins J))).

Definition kfold_int64arith2 (J : jit_State) : prog :=
  let k1 := rawK J (fleft J) in
  let k2 := rawK J (fright J) in
  let k1 :=
    if irt_isi64 (it (fins J)) then
      u64 (if opeq (io (fins J)) IR_DIV then lj_carith_divi64 (i64 k1) (i64 k2)
           else if opeq (io (fins J)) IR_MOD then lj_carith_modi64 (i64 k1) (i64 k2)
           else lj_carith_powi64 (i64 k1) (i64 k2))
    else
      if opeq (io (fins J)) IR_DIV then lj_carith_divu64 k1 k2
      else if opeq (io (fins J)) IR_MOD then lj_carith_modu64 k1 k2
      else lj_carith_powu64 k1 k2 in
  INT64FOLD J k1.

Definition kfold_int64shift (J : jit_State) : prog :=
  let k := rawK J (fleft J) in
  let sh := Z.land (ii (fright J)) 63 in
  INT64FOLD J
    (match io (fins J) with
     | IR_BSHL => u64 (Z.shiftl k sh)
     | IR_BSHR => Z.shiftr k sh
     | IR_BSAR => u64 (Z.shiftr (i64 k) sh)
     | IR_BROL => lj_rolw 64 k sh
     | IR_BROR => lj_rorw 64 k sh
     | _ => k
     end).

Definition kfold_bnot64 (J : jit_State) : prog :=
  INT64FOLD J (u64 (Z.lnot (rawK J (fleft J)))).
Definition kfold_bswap64 (J : jit_State) : prog :=
  INT64FOLD J (lj_bswap64 (rawK J (fleft J))).

Definition kfold_int64comp (J : jit_State) : prog :=
  let a := rawK J (fleft J) in
  let b := rawK J (fright J) in
  Ret J (match io (fins J) with
         | IR_LT => CONDFOLD (i64 a <? i64 b)
         | IR_GE => CONDFOLD (i64 b <=? i64 a)
         | IR_LE => CONDFOLD (i64 a <=? i64 b)
         | IR_GT => CONDFOLD (i64 b <? i64 a)
         | IR_ULT => CONDFOLD (a <? b)
         | IR_UGE => CONDFOLD (b <=? a)
         | IR_ULE => CONDFOLD (a <=? b)
         | IR_UGT => CONDFOLD (b <? a)
         | _ => FAILFOLD
         end).

Definition kfold_int64comp0 (J : jit_State) : prog :=
  if rawK J (fright J) =? 0 then Ret J DROPFOLD else Ret J NEXTFOLD.

(** ** Constant folding of conversions and equality checks *)

Definition IRCONV_SRCMASK : Z := 0x001f.
Definition IRCONV_DSTMASK : Z := 0x03e0.
Definition IRCONV_DSH : Z := 5.
Definition IRCONV_SEXT : Z := 0x0800.
Definition IRCONV_MODEMASK : Z := 0x0fff.
Definition conv_src (m : Z) : Z := Z.land m IRCONV_SRCMASK.
Definition conv_dst (m : Z) : Z := Z.shiftr (Z.land m IRCONV_DSTMASK) IRCONV_DSH.

Definition kfold_conv_kint_ext (J : jit_State) : prog :=
  let k := i32 (ii (fleft J)) in
  let src := conv_src (op2 (fins J)) in
  Ret J (KINTFOLD (if src =? IRT_I8 then wraps 8 k
                   else if src =? IRT_U8 then wrapu 8 k
                   else if src =? IRT_I16 then wraps 16 k
                   else wrapu 16 k)).

Definition kfold_conv_kint_i64 (J : jit_State) : prog :=
  if negb (Z.land (op2 (fins J)) IRCONV_SEXT =? 0)
  then INT64FOLD J (u64 (ii (fleft J)))
  else INT64FOLD J (u64 (u32 (ii (fleft J)))).

Definition kfold_conv_kint64_int_i64 (J : jit_State) : prog :=
  Ret J (KINTFOLD (i32 (rawK J (fleft J)))).

Definition kfold_kref (J : jit_State) : prog :=
  Ret J (CONDFOLD (xorb (op1 (fins J) =? op2 (fins J)) (opeq (io (fins J)) IR_NE))).

(** ** Algebraic shortcuts *)

Definition shortcut_leftleft (J : jit_State) : prog :=
  PHIBARRIER (fleft J) J (Ret J (REFFOLD (op1 (fleft J)))).   (* f(g(x)) ==> x *)

(** ** FP algebraic simplifications, also reached by integers *)

Definition simplify_numadd_negx (J : jit_State) : prog :=
  PHIBARRIER (fleft J) J
    (let J := fins_o IR_SUB J in                       (* (-a) + b ==> b - a *)
     let J := fins_op1 (op2 (fins J)) J in
     let J := fins_op2 (op1 (fleft J)) J in
     Ret J RETRYFOLD).

Definition simplify_numadd_xneg (J : jit_State) : prog :=
  PHIBARRIER (fright J) J
    (let J := fins_o IR_SUB J in                       (* a + (-b) ==> a - b *)
     let J := fins_op2 (op1 (fright J)) J in
     Ret J RETRYFOLD).

Definition simplify_numsub_xneg (J : jit_State) : prog :=
  PHIBARRIER (fright J) J
    (let J := fins_o IR_ADD J in                       (* a - (-b) ==> a + b *)
     let J := fins_op2 (op1 (fright J)) J in
     Ret J RETRYFOLD).

Definition simplify_nummuldiv_negneg (J : jit_State) : prog :=
  PHIBARRIER (fleft J) J
    (PHIBARRIER (fright J) J
       (let J := fins_op1 (op1 (fleft J)) J in         (* (-a) o (-b) ==> a o b *)
        let J := fins_op2 (op1 (fright J)) J in
        Ret J RETRYFOLD)).

(** ** Simplify conversions *)

Definition simplify_conv_int_i64 (J : jit_State) : prog :=
  PHIBARRIER (fleft J) J
    (let src := conv_src (op2 (fleft J)) in
     if (src =? IRT_INT) || (src =? IRT_U32) then
       if src =? conv_dst (op2 (fins J)) then Ret J (REFFOLD (op1 (fleft J)))
       else
         let J := fins_op2 (Z.lor (Z.land (op2 (fins J)) IRCONV_DSTMASK) src) J in
         let J := fins_op1 (op1 (fleft J)) J in
         Ret J RETRYFOLD
     else Ret J NEXTFOLD).

(** Strength reduction of widening. *)
Definition simplify_conv_sext (J : jit_State) : prog :=
  if Z.land (op2 (fins J)) IRCONV_SEXT =? 0 then Ret J NEXTFOLD
  else
    PHIBARRIER (fleft J) J
      (if opeq (io (fleft J)) IR_XLOAD && (irt_isu8 (it (fleft J)) || irt_isu16 (it (fleft J)))
       then Ret J (LEFTFOLD J)
       else
         let '(ofs, ref) :=
           if opeq (io (fleft J)) IR_ADD && irref_isk (op2 (fleft J))
           then (ii (IR J (op2 (fleft J))), op1 (fleft J))
           else (0, op1 (fins J)) in
         if ref =? scev_idx (scev J) then
           let lo := if scev_dir (scev J) then scev_start (scev J) else scev_stop (scev J) in
           if negb (lo =? 0) && opeq (io (IR J lo)) IR_KINT && (0 <=? ii (IR J lo) + ofs)
           then Ret J (LEFTFOLD J)
           else Ret J NEXTFOLD
         else Ret J NEXTFOLD).

(** Strength reduction of narrowing. *)
Definition simplify_conv_narrow (J : jit_State) : prog :=
  let op := io (fleft J) in
  let t := irt_type (it (fins J)) in
  let o1 := op1 (fleft J) in
  let o2 := op2 (fleft J) in
  let mode := op2 (fins J) in
  PHIBARRIER (fleft J) J
    (CallFold (lj_ir_set_ J IR_CONV IRT_INT o1 mode) (λ J o1,
     CallFold (lj_ir_set_ J IR_CONV IRT_INT o2 mode) (λ J o2,
     let J := fins_ot op t J in
     let J := fins_op1 o1 J in
     let J := fins_op2 o2 J in
     Ret J RETRYFOLD))).

(** Special CSE rule for CONV. *)
Definition cse_conv (J : jit_State) : prog :=
  let o1 := op1 (fins J) in
  let o2 := Z.land (op2 (fins J)) IRCONV_MODEMASK in
  let guard := Z.land (it (fins J)) IRT_GUARD in
  let found :=
    if optflag J JIT_F_OPT_CSE then
      chain_search J IR_CONV
        (λ x, (op1 x =? o1) && (Z.land (op2 x) IRCONV_MODEMASK =? o2) &&
              (guard <=? Z.land (it x) IRT_GUARD)) o1
    else 0 in
  if negb (found =? 0) then Ret J (REFFOLD found) else EMITFOLD J.

(** ** Integer algebraic simplifications *)

Definition simplify_intadd_k (J : jit_State) : prog :=
  if ii (fright J) =? 0 then Ret J (LEFTFOLD J) else Ret J NEXTFOLD.

Definition fold_simplify_intmul_k (J : jit_State) : prog :=
  if ii (fright J) =? 0 then Ret J (RIGHTFOLD J)
  else if ii (fright J) =? 1 then Ret J (LEFTFOLD J)
  else if ii (fright J) =? 2 then                       (* i * 2 ==> i + i *)
    let J := fins_o IR_ADDOV J in
    let J := fins_op2 (op1 (fins J)) J in
    Ret J RETRYFOLD
  else Ret J NEXTFOLD.

Definition simplify_intsub_k (J : jit_State) : prog :=
  if ii (fright J) =? 0 then Ret J (LEFTFOLD J)
  else
    let J := fins_o IR_ADD J in                         (* i - k ==> i + (-k) *)
    let J := fins_op2_kint (i32 (- ii (fright J))) J in
    Ret J RETRYFOLD.

Definition simplify_intsub_kleft (J : jit_State) : prog :=
  if (if opeq (io (fleft J)) IR_KINT then ii (fleft J) =? 0 else rawK J (fleft J) =? 0) then
    let J := fins_o IR_NEG J in                         (* 0 - i ==> -i *)
    let J := fins_op1 (op2 (fins J)) J in
    Ret J RETRYFOLD
  else Ret J NEXTFOLD.

Definition simplify_intadd_k64 (J : jit_State) : prog :=
  if rawK J (fright J) =? 0 then Ret J (LEFTFOLD J) else Ret J NEXTFOLD.

Definition simplify_intsub_k64 (J : jit_State) : prog :=
  let k := rawK J (fright J) in
  if k =? 0 then Ret J (LEFTFOLD J)
  else
    let J := fins_o IR_ADD J in                         (* i - k ==> i + (-k) *)
    let J := fins_op2_kint64 (u64 (- i64 k)) J in
    Ret J RETRYFOLD.

Definition simplify_intmul_k (J : jit_State) (k : Z) : prog :=
  if k =? 1 then Ret J (LEFTFOLD J)
  else if Z.land k (k - 1) =? 0 then                    (* i * 2^k ==> i << k *)
    let J := fins_o IR_BSHL J in
    let J := fins_op2_kint (Obj.lj_bsr (u32 k)) J in
    Ret J RETRYFOLD
  else Ret J NEXTFOLD.

Definition simplify_intmul_k32 (J : jit_State) : prog :=
  if ii (fright J) =? 0 then Ret J (KINTFOLD 0)
  else if 0 <? ii (fright J) then simplify_intmul_k J (i32 (ii (fright J)))
  else Ret J NEXTFOLD.

Definition simplify_intmul_k64 (J : jit_State) : prog :=
  if rawK J (fright J) =? 0 then INT64FOLD J 0
  else if rawK J (fright J) <? 0x80000000 then simplify_intmul_k J (i32 (rawK J (fright J)))
  else Ret J NEXTFOLD.

Definition simplify_intmod_k (J : jit_State) : prog :=
  let k := i32 (ii (fright J)) in
  if (0 <? k) && (Z.land k (k - 1) =? 0) then           (* i % (2^k) ==> i & (2^k-1) *)
    let J := fins_o IR_BAND J in
    let J := fins_op2_kint (k - 1) J in
    Ret J RETRYFOLD
  else Ret J NEXTFOLD.

Definition simplify_intmod_kleft (J : jit_State) : prog :=
  if ii (fleft J) =? 0 then Ret J (KINTFOLD 0) else Ret J NEXTFOLD.

Definition simplify_intsub (J : jit_State) : prog :=
  if (op1 (fins J) =? op2 (fins J)) && negb (irt_isnum (it (fins J))) then  (* i - i ==> 0 *)
    if irt_is64 (it (fins J)) then INT64FOLD J 0 else Ret J (KINTFOLD 0)
  else Ret J NEXTFOLD.

Definition simplify_intsubadd_leftcancel (J : jit_State) : prog :=
  if negb (irt_isnum (it (fins J))) then
    PHIBARRIER (fleft J) J
      (if op2 (fins J) =? op1 (fleft J)                 (* (i + j) - i ==> j *)
       then Ret J (REFFOLD (op2 (fleft J)))
       else if op2 (fins J) =? op2 (fleft J)            (* (i + j) - j ==> i *)
       then Ret J (REFFOLD (op1 (fleft J)))
       else Ret J NEXTFOLD)
  else Ret J NEXTFOLD.

Definition simplify_intsubsub_leftcancel (J : jit_State) : prog :=
  if negb (irt_isnum (it (fins J))) then
    PHIBARRIER (fleft J) J
      (if op2 (fins J) =? op1 (fleft J) then            (* (i - j) - i ==> 0 - j *)
         let J := fins_op1_kint 0 J in
         let J := fins_op2 (op2 (fleft J)) J in
         Ret J RETRYFOLD
       else Ret J NEXTFOLD)
  else Ret J NEXTFOLD.

Definition simplify_intsubsub_rightcancel (J : jit_State) : prog :=
  if negb (irt_isnum (it (fins J))) then
    PHIBARRIER (fright J) J
      (if op1 (fins J) =? op1 (fright J)                (* i - (i - j) ==> j *)
       then Ret J (REFFOLD (op2 (fright J)))
       else Ret J NEXTFOLD)
  else Ret J NEXTFOLD.

Definition simplify_intsubadd_rightcancel (J : jit_State) : prog :=
  if negb (irt_isnum (it (fins J))) then
    PHIBARRIER (fright J) J
      (if op1 (fins J) =? op1 (fright J) then           (* i - (i + j) ==> 0 - j *)
         let J := fins_op2 (op2 (fright J)) J in
         let J := fins_op1_kint 0 J in
         Ret J RETRYFOLD
       else if op1 (fins J) =? op2 (fright J) then      (* i - (j + i) ==> 0 - j *)
         let J := fins_op2 (op1 (fright J)) J in
         let J := fins_op1_kint 0 J in
         Ret J RETRYFOLD
       else Ret J NEXTFOLD)
  else Ret J NEXTFOLD.

Definition simplify_intsubaddadd_cancel (J : jit_State) : prog :=
  if negb (irt_isnum (it (fins J))) then
    PHIBARRIER (fleft J) J
      (PHIBARRIER (fright J) J
         (let retry a b := Ret (fins_op2 b (fins_op1 a J)) RETRYFOLD in
          if op1 (fleft J) =? op1 (fright J)            (* (i + j1) - (i + j2) ==> j1 - j2 *)
          then retry (op2 (fleft J)) (op2 (fright J))
          else if op1 (fleft J) =? op2 (fright J)       (* (i + j1) - (j2 + i) ==> j1 - j2 *)
          then retry (op2 (fleft J)) (op1 (fright J))
          else if op2 (fleft J) =? op1 (fright J)       (* (j1 + i) - (i + j2) ==> j1 - j2 *)
          then retry (op1 (fleft J)) (op2 (fright J))
          else if op2 (fleft J) =? op2 (fright J)       (* (j1 + i) - (j2 + i) ==> j1 - j2 *)
          then retry (op1 (fleft J)) (op1 (fright J))
          else Ret J NEXTFOLD))
  else Ret J NEXTFOLD.

(** [int64_t k = x->o == IR_KINT ? (int64_t)x->i : (int64_t)rawV(ir_k64(x))] *)
Definition kval (J : jit_State) (x : IRIns) : Z :=
  if opeq (io x) IR_KINT then ii x else i64 (rawK J x).

Definition simplify_band_k (J : jit_State) : prog :=
  let k := kval J (fright J) in
  if k =? 0 then Ret J (RIGHTFOLD J)                    (* i & 0 ==> 0 *)
  else if k =? -1 then Ret J (LEFTFOLD J)               (* i & -1 ==> i *)
  else Ret J NEXTFOLD.

Definition simplify_bor_k (J : jit_State) : prog :=
  let k := kval J (fright J) in
  if k =? 0 then Ret J (LEFTFOLD J)                     (* i | 0 ==> i *)
  else if k =? -1 then Ret J (RIGHTFOLD J)              (* i | -1 ==> -1 *)
  else Ret J NEXTFOLD.

Definition simplify_bxor_k (J : jit_State) : prog :=
  let k := kval J (fright J) in
  if k =? 0 then Ret J (LEFTFOLD J)                     (* i xor 0 ==> i *)
  else if k =? -1 then                                  (* i xor -1 ==> ~i *)
    let J := fins_o IR_BNOT J in
    let J := fins_op2 0 J in
    Ret J RETRYFOLD
  else Ret J NEXTFOLD.

(** [UJ_TARGET_UNIFYROT] is not defined on x64. *)
Definition simplify_shift_ik (J : jit_State) : prog :=
  let mask := if irt_is64 (it (fins J)) then 63 else 31 in
  let k := Z.land (ii (fright J)) mask in
  if k =? 0 then Ret J (LEFTFOLD J)                     (* i o 0 ==> i *)
  else if (k =? 1) && opeq (io (fins J)) IR_BSHL then   (* i << 1 ==> i + i *)
    let J := fins_o IR_ADD J in
    let J := fins_op2 (op1 (fins J)) J in
    Ret J RETRYFOLD
  else if negb (k =? ii (fright J)) then                (* i o k ==> i o (k & mask) *)
    Ret (fins_op2_kint k J) RETRYFOLD
  else if opeq (io (fins J)) IR_BROR then               (* bror(i, k) ==> brol(i, (-k)&mask) *)
    let J := fins_o IR_BROL J in
    Ret (fins_op2_kint (Z.land (- k) mask) J) RETRYFOLD
  else Ret J NEXTFOLD.

(** [UJ_TARGET_MASKSHIFT] and [UJ_TARGET_MASKROT] are 1 on x64. *)
Definition simplify_shift_andk (J : jit_State) : prog :=
  let irk := IR J (op2 (fright J)) in
  PHIBARRIER (fright J) J
    (if opeq (io irk) IR_KINT then                      (* i o (j & mask) ==> i o j *)
       let mask := if irt_is64 (it (fins J)) then 63 else 31 in
       let k := Z.land (ii irk) mask in
       if k =? mask then Ret (fins_op2 (op1 (fright J)) J) RETRYFOLD
       else Ret J NEXTFOLD
     else Ret J NEXTFOLD).

Definition simplify_shift1_ki (J : jit_State) : prog :=
  if kval J (fleft J) =? 0 then Ret J (LEFTFOLD J) else Ret J NEXTFOLD.

Definition simplify_shift2_ki (J : jit_State) : prog :=
  let k := kval J (fleft J) in
  if (k =? 0) || (k =? -1) then Ret J (LEFTFOLD J) else Ret J NEXTFOLD.

Definition simplify_shiftk_andk (J : jit_State) : prog :=
  let irk := IR J (op2 (fleft J)) in
  PHIBARRIER (fleft J) J
    (if opeq (io irk) IR_KINT then       (* (i & k1) o k2 ==> (i o k2) & (k1 o k2) *)
       let k := kfold_intop (ii irk) (ii (fright J)) (io (fins J)) in
       let J := fins_op1 (op1 (fleft J)) J in
       CallFold J (λ J r,
         let J := fins_op1 r J in
         let J := fins_op2_kint k J in
         Ret (fins_ot IR_BAND IRT_INT J) RETRYFOLD)
     else Ret J NEXTFOLD).

Definition simplify_andk_shiftk (J : jit_State) : prog :=
  let irk := IR J (op2 (fleft J)) in
  if opeq (io irk) IR_KINT && (kfold_intop (-1) (ii irk) (io (fleft J)) =? ii (fright J))
  then Ret J (LEFTFOLD J)                (* (i o k1) & k2 ==> i, if (-1 o k1) == k2 *)
  else Ret J NEXTFOLD.

(** ** Reassociation *)

Definition reassoc_intarith_k (J : jit_State) : prog :=
  let irk := IR J (op2 (fleft J)) in
  if opeq (io irk) IR_KINT then
    let k := kfold_intop (ii irk) (ii (fright J)) (io (fins J)) in
    if k =? ii irk then Ret J (LEFTFOLD J)
    else
      PHIBARRIER (fleft J) J
        (let J := fins_op1 (op1 (fleft J)) J in         (* (i o k1) o k2 ==> i o (k1 o k2) *)
         Ret (fins_op2_kint k J) RETRYFOLD)
  else Ret J NEXTFOLD.

Definition reassoc_intarith_k64 (J : jit_State) : prog :=
  let irk := IR J (op2 (fleft J)) in
  if opeq (io irk) IR_KINT64 then
    let k := kfold_int64arith (rawK J irk) (rawK J (fright J)) (io (fins J)) in
    PHIBARRIER (fleft J) J
      (let J := fins_op1 (op1 (fleft J)) J in           (* (i o k1) o k2 ==> i o (k1 o k2) *)
       Ret (fins_op2_kint64 k J) RETRYFOLD)
  else Ret J NEXTFOLD.

Definition reassoc_dup (J : jit_State) : prog :=
  if (op2 (fins J) =? op1 (fleft J)) || (op2 (fins J) =? op2 (fleft J))
  then Ret J (LEFTFOLD J)                               (* (a o b) o a ==> a o b *)
  else Ret J NEXTFOLD.

Definition reassoc_bxor (J : jit_State) : prog :=
  PHIBARRIER (fleft J) J
    (if op2 (fins J) =? op1 (fleft J)                   (* (a xor b) xor a ==> b *)
     then Ret J (REFFOLD (op2 (fleft J)))
     else if op2 (fins J) =? op2 (fleft J)              (* (a xor b) xor b ==> a *)
     then Ret J (REFFOLD (op1 (fleft J)))
     else Ret J NEXTFOLD).

Definition reassoc_shift (J : jit_State) : prog :=
  let irk := IR J (op2 (fleft J)) in
  PHIBARRIER (fleft J) J
    (if opeq (io irk) IR_KINT then                      (* (i o k1) o k2 ==> i o (k1 + k2) *)
       let mask := if irt_is64 (it (fins J)) then 63 else 31 in
       let k := Z.land (ii irk) mask + Z.land (ii (fright J)) mask in
       let wide := mask <? k in                         (* Combined shift too wide? *)
       if wide && (opeq (io (fins J)) IR_BSHL || opeq (io (fins J)) IR_BSHR) then
         if mask =? 31 then Ret J (KINTFOLD 0) else INT64FOLD J 0
       else
         let k := if wide then
                    if opeq (io (fins J)) IR_BSAR then mask else Z.land k mask
                  else k in
         let J := fins_op1 (op1 (fleft J)) J in
         Ret (fins_op2_kint k J) RETRYFOLD
     else Ret J NEXTFOLD).

(** The KINT part; a KNUM constant needs a number operand. *)
Definition reassoc_minmax_k (J : jit_State) : prog :=
  let irk := IR J (op2 (fleft J)) in
  if opeq (io irk) IR_KINT then
    let a := i32 (ii irk) in
    let y := kfold_intop a (ii (fright J)) (io (fins J)) in
    if a =? y then Ret J (LEFTFOLD J)
    else
      PHIBARRIER (fleft J) J
        (let J := fins_op1 (op1 (fleft J)) J in         (* (x o k1) o k2 ==> x o (k1 o k2) *)
         Ret (fins_op2_kint y J) RETRYFOLD)
  else Ret J NEXTFOLD.

Definition reassoc_minmax_left (J : jit_State) : prog :=
  if (op2 (fins J) =? op1 (fleft J)) || (op2 (fins J) =? op2 (fleft J))
  then Ret J (RIGHTFOLD J)                              (* (b o1 a) o2 b ==> b *)
  else Ret J NEXTFOLD.

Definition reassoc_minmax_right (J : jit_State) : prog :=
  if (op1 (fins J) =? op1 (fright J)) || (op1 (fins J) =? op2 (fright J))
  then Ret J (LEFTFOLD J)                               (* a o2 (a o1 b) ==> a *)
  else Ret J NEXTFOLD.

(** ** Array bounds check elimination *)

Definition abc_fwd (J : jit_State) : prog :=
  if optflag J JIT_F_OPT_ABC && irref_isk (op2 (fright J)) then
    let add2 := IR J (op1 (fright J)) in
    if opeq (io add2) IR_ADD && irref_isk (op2 add2) &&
       (ii (IR J (op2 (fright J))) =? - ii (IR J (op2 add2))) then
      let lim := Z.max (op1 add2) (op1 (fins J)) in
      let found := chain_search J IR_ABC
                     (λ x, (op1 x =? op1 (fins J)) && (op2 x =? op1 add2)) lim in
      if negb (found =? 0) then Ret J DROPFOLD else Ret J NEXTFOLD
    else Ret J NEXTFOLD
  else Ret J NEXTFOLD.

Definition abc_k (J : jit_State) : prog :=
  if optflag J JIT_F_OPT_ABC then
    let asize := op1 (fins J) in
    let ref := chain_search J IR_ABC (λ x, (op1 x =? asize) && irref_isk (op2 x)) asize in
    if negb (ref =? 0) then
      let k := i32 (ii (IR J (op2 (IR J ref)))) in
      let J := if k <? ii (fright J) then set_ir ref (set_op2 (op2 (fins J)) (IR J ref)) J
               else J in
      Ret J DROPFOLD
    else EMITFOLD J
  else Ret J NEXTFOLD.

Definition abc_invar (J : jit_State) : prog :=
  if negb (irt_isint (it (fins J))) && (op1 (fins J) <? chain J IR_LOOP) &&
     negb (irt_isphi (it (IR J (op1 (fins J)))))
  then Ret J DROPFOLD
  else Ret J NEXTFOLD.

(** ** Commutativity *)

Definition comm_swap (J : jit_State) : prog :=
  if op1 (fins J) <? op2 (fins J) then
    let tmp := op1 (fins J) in
    let J := fins_op1 (op2 (fins J)) J in
    Ret (fins_op2 tmp J) RETRYFOLD
  else Ret J NEXTFOLD.

Definition comm_equal (J : jit_State) : prog :=
  if (op1 (fins J) =? op2 (fins J)) && negb (irt_isnum (it (fins J)))
  then Ret J (CONDFOLD (opeq (io (fins J)) IR_EQ))
  else comm_swap J.

Definition comm_comp (J : jit_State) : prog :=
  let o := irop_num (io (fins J)) in
  if (op1 (fins J) =? op2 (fins J)) && negb (irt_isnum (it (fins J)))
  then Ret J (CONDFOLD (negb (Z.land (Z.lxor o (Z.shiftr o 1)) 1 =? 0)))
  else if op1 (fins J) <? op2 (fins J) then
    let tmp := op1 (fins J) in
    let J := fins_op1 (op2 (fins J)) J in
    let J := fins_op2 tmp J in
    Ret (fins_o (irop_of (Z.lxor o 3)) J) RETRYFOLD     (* GT <-> LT, GE <-> LE *)
  else Ret J NEXTFOLD.

Definition comm_dup (J : jit_State) : prog :=
  if op1 (fins J) =? op2 (fins J) then Ret J (LEFTFOLD J) else comm_swap J.

Definition comm_bxor (J : jit_State) : prog :=
  if op1 (fins J) =? op2 (fins J) then
    if irt_is64 (it (fins J)) then INT64FOLD J 0 else Ret J (KINTFOLD 0)
  else comm_swap J.

(** ** The fold rules

    One entry per [LJFOLD] line: the opcode, the patterns of the left and the
    right operand, and the fold function.  An operand is matched by the number of
    its opcode, or by the low ten bits of a literal; an unused operand is 0, and
    [None] is the wildcard [any]. *)

Definition pat : Type := option Z.
Definition any : pat := None.
Definition op (o : IROp) : pat := Some (irop_num o).
Definition lit (n : Z) : pat := Some n.
Definition none : pat := Some 0.
Definition IRCONV (dst src : Z) : Z := Z.lor (Z.shiftl dst IRCONV_DSH) src.

Record rule := MkRule { rl_op : IROp; rl_left : pat; rl_right : pat; rl_fn : jit_State → prog }.

Definition LJFOLDF (f : jit_State → prog) (keys : list (IROp * pat * pat)) : list rule :=
  map (λ k, MkRule k.1.1 k.1.2 k.2 f) keys.

Definition fold_rules : list rule :=
  LJFOLDF kfold_intarith
    [(IR_ADD, (op IR_KINT), (op IR_KINT)); (IR_SUB, (op IR_KINT), (op IR_KINT));
     (IR_MUL, (op IR_KINT), (op IR_KINT)); (IR_MOD, (op IR_KINT), (op IR_KINT));
     (IR_NEG, (op IR_KINT), (op IR_KINT)); (IR_BAND, (op IR_KINT), (op IR_KINT));
     (IR_BOR, (op IR_KINT), (op IR_KINT)); (IR_BXOR, (op IR_KINT), (op IR_KINT));
     (IR_BSHL, (op IR_KINT), (op IR_KINT)); (IR_BSHR, (op IR_KINT), (op IR_KINT));
     (IR_BSAR, (op IR_KINT), (op IR_KINT)); (IR_BROL, (op IR_KINT), (op IR_KINT));
     (IR_BROR, (op IR_KINT), (op IR_KINT)); (IR_MIN, (op IR_KINT), (op IR_KINT));
     (IR_MAX, (op IR_KINT), (op IR_KINT))] ++
  LJFOLDF kfold_intovarith
    [(IR_ADDOV, (op IR_KINT), (op IR_KINT)); (IR_SUBOV, (op IR_KINT), (op IR_KINT));
     (IR_MULOV, (op IR_KINT), (op IR_KINT))] ++
  LJFOLDF kfold_bnot
    [(IR_BNOT, (op IR_KINT), none)] ++
  LJFOLDF kfold_bswap
    [(IR_BSWAP, (op IR_KINT), none)] ++
  LJFOLDF kfold_intcomp
    [(IR_LT, (op IR_KINT), (op IR_KINT)); (IR_GE, (op IR_KINT), (op IR_KINT));
     (IR_LE, (op IR_KINT), (op IR_KINT)); (IR_GT, (op IR_KINT), (op IR_KINT));
     (IR_ULT, (op IR_KINT), (op IR_KINT)); (IR_UGE, (op IR_KINT), (op IR_KINT));
     (IR_ULE, (op IR_KINT), (op IR_KINT)); (IR_UGT, (op IR_KINT), (op IR_KINT));
     (IR_ABC, (op IR_KINT), (op IR_KINT))] ++
  LJFOLDF kfold_intcomp0
    [(IR_UGE, any, (op IR_KINT))] ++
  LJFOLDF fold_kfold_int64arith
    [(IR_ADD, (op IR_KINT64), (op IR_KINT64)); (IR_SUB, (op IR_KINT64), (op IR_KINT64));
     (IR_MUL, (op IR_KINT64), (op IR_KINT64)); (IR_BAND, (op IR_KINT64), (op IR_KINT64));
     (IR_BOR, (op IR_KINT64), (op IR_KINT64)); (IR_BXOR, (op IR_KINT64), (op IR_KINT64))] ++
  LJFOLDF kfold_int64arith2
    [(IR_DIV, (op IR_KINT64), (op IR_KINT64)); (IR_MOD, (op IR_KINT64), (op IR_KINT64));
     (IR_POW, (op IR_KINT64), (op IR_KINT64))] ++
  LJFOLDF kfold_int64shift
    [(IR_BSHL, (op IR_KINT64), (op IR_KINT)); (IR_BSHR, (op IR_KINT64), (op IR_KINT));
     (IR_BSAR, (op IR_KINT64), (op IR_KINT)); (IR_BROL, (op IR_KINT64), (op IR_KINT));
     (IR_BROR, (op IR_KINT64), (op IR_KINT))] ++
  LJFOLDF kfold_bnot64
    [(IR_BNOT, (op IR_KINT64), none)] ++
  LJFOLDF kfold_bswap64
    [(IR_BSWAP, (op IR_KINT64), none)] ++
  LJFOLDF kfold_int64comp
    [(IR_LT, (op IR_KINT64), (op IR_KINT64)); (IR_GE, (op IR_KINT64), (op IR_KINT64));
     (IR_LE, (op IR_KINT64), (op IR_KINT64)); (IR_GT, (op IR_KINT64), (op IR_KINT64));
     (IR_ULT, (op IR_KINT64), (op IR_KINT64)); (IR_UGE, (op IR_KINT64), (op IR_KINT64));
     (IR_ULE, (op IR_KINT64), (op IR_KINT64)); (IR_UGT, (op IR_KINT64), (op IR_KINT64))] ++
  LJFOLDF kfold_int64comp0
    [(IR_UGE, any, (op IR_KINT64))] ++
  LJFOLDF kfold_conv_kint_ext
    [(IR_CONV, (op IR_KINT), (lit (IRCONV IRT_INT IRT_I8)));
     (IR_CONV, (op IR_KINT), (lit (IRCONV IRT_INT IRT_U8)));
     (IR_CONV, (op IR_KINT), (lit (IRCONV IRT_INT IRT_I16)));
     (IR_CONV, (op IR_KINT), (lit (IRCONV IRT_INT IRT_U16)))] ++
  LJFOLDF kfold_conv_kint_i64
    [(IR_CONV, (op IR_KINT), (lit (IRCONV IRT_I64 IRT_INT)));
     (IR_CONV, (op IR_KINT), (lit (IRCONV IRT_U64 IRT_INT)));
     (IR_CONV, (op IR_KINT), (lit (IRCONV IRT_I64 IRT_U32)));
     (IR_CONV, (op IR_KINT), (lit (IRCONV IRT_U64 IRT_U32)))] ++
  LJFOLDF kfold_conv_kint64_int_i64
    [(IR_CONV, (op IR_KINT64), (lit (IRCONV IRT_INT IRT_I64)));
     (IR_CONV, (op IR_KINT64), (lit (IRCONV IRT_U32 IRT_I64)))] ++
  LJFOLDF kfold_kref
    [(IR_EQ, (op IR_KINT), (op IR_KINT)); (IR_NE, (op IR_KINT), (op IR_KINT));
     (IR_EQ, (op IR_KINT64), (op IR_KINT64)); (IR_NE, (op IR_KINT64), (op IR_KINT64))] ++
  LJFOLDF shortcut_leftleft
    [(IR_NEG, (op IR_NEG), any); (IR_BNOT, (op IR_BNOT), none);
     (IR_BSWAP, (op IR_BSWAP), none)] ++
  LJFOLDF simplify_numadd_negx
    [(IR_ADD, (op IR_NEG), any)] ++
  LJFOLDF simplify_numadd_xneg
    [(IR_ADD, any, (op IR_NEG))] ++
  LJFOLDF simplify_numsub_xneg
    [(IR_SUB, any, (op IR_NEG))] ++
  LJFOLDF simplify_nummuldiv_negneg
    [(IR_MUL, (op IR_NEG), (op IR_NEG)); (IR_DIV, (op IR_NEG), (op IR_NEG))] ++
  LJFOLDF simplify_conv_int_i64
    [(IR_CONV, (op IR_CONV), (lit (IRCONV IRT_INT IRT_I64)));
     (IR_CONV, (op IR_CONV), (lit (IRCONV IRT_INT IRT_U64)));
     (IR_CONV, (op IR_CONV), (lit (IRCONV IRT_U32 IRT_I64)));
     (IR_CONV, (op IR_CONV), (lit (IRCONV IRT_U32 IRT_U64)))] ++
  LJFOLDF simplify_conv_sext
    [(IR_CONV, any, (lit (IRCONV IRT_I64 IRT_INT)));
     (IR_CONV, any, (lit (IRCONV IRT_U64 IRT_INT)))] ++
  LJFOLDF simplify_conv_narrow
    [(IR_CONV, (op IR_ADD), (lit (IRCONV IRT_INT IRT_I64)));
     (IR_CONV, (op IR_SUB), (lit (IRCONV IRT_INT IRT_I64)));
     (IR_CONV, (op IR_MUL), (lit (IRCONV IRT_INT IRT_I64)));
     (IR_CONV, (op IR_ADD), (lit (IRCONV IRT_INT IRT_U64)));
     (IR_CONV, (op IR_SUB), (lit (IRCONV IRT_INT IRT_U64)));
     (IR_CONV, (op IR_MUL), (lit (IRCONV IRT_INT IRT_U64)));
     (IR_CONV, (op IR_ADD), (lit (IRCONV IRT_U32 IRT_I64)));
     (IR_CONV, (op IR_SUB), (lit (IRCONV IRT_U32 IRT_I64)));
     (IR_CONV, (op IR_MUL), (lit (IRCONV IRT_U32 IRT_I64)));
     (IR_CONV, (op IR_ADD), (lit (IRCONV IRT_U32 IRT_U64)));
     (IR_CONV, (op IR_SUB), (lit (IRCONV IRT_U32 IRT_U64)));
     (IR_CONV, (op IR_MUL), (lit (IRCONV IRT_U32 IRT_U64)))] ++
  LJFOLDF cse_conv
    [(IR_CONV, any, any)] ++
  LJFOLDF simplify_intadd_k
    [(IR_ADD, any, (op IR_KINT)); (IR_ADDOV, any, (op IR_KINT));
     (IR_SUBOV, any, (op IR_KINT))] ++
  LJFOLDF fold_simplify_intmul_k
    [(IR_MULOV, any, (op IR_KINT))] ++
  LJFOLDF simplify_intsub_k
    [(IR_SUB, any, (op IR_KINT))] ++
  LJFOLDF simplify_intsub_kleft
    [(IR_SUB, (op IR_KINT), any); (IR_SUB, (op IR_KINT64), any)] ++
  LJFOLDF simplify_intadd_k64
    [(IR_ADD, any, (op IR_KINT64))] ++
  LJFOLDF simplify_intsub_k64
    [(IR_SUB, any, (op IR_KINT64))] ++
  LJFOLDF simplify_intmul_k32
    [(IR_MUL, any, (op IR_KINT))] ++
  LJFOLDF simplify_intmul_k64
    [(IR_MUL, any, (op IR_KINT64))] ++
  LJFOLDF simplify_intmod_k
    [(IR_MOD, any, (op IR_KINT))] ++
  LJFOLDF simplify_intmod_kleft
    [(IR_MOD, (op IR_KINT), any)] ++
  LJFOLDF simplify_intsub
    [(IR_SUB, any, any); (IR_SUBOV, any, any)] ++
  LJFOLDF simplify_intsubadd_leftcancel
    [(IR_SUB, (op IR_ADD), any)] ++
  LJFOLDF simplify_intsubsub_leftcancel
    [(IR_SUB, (op IR_SUB), any)] ++
  LJFOLDF simplify_intsubsub_rightcancel
    [(IR_SUB, any, (op IR_SUB))] ++
  LJFOLDF simplify_intsubadd_rightcancel
    [(IR_SUB, any, (op IR_ADD))] ++
  LJFOLDF simplify_intsubaddadd_cancel
    [(IR_SUB, (op IR_ADD), (op IR_ADD))] ++
  LJFOLDF simplify_band_k
    [(IR_BAND, any, (op IR_KINT)); (IR_BAND, any, (op IR_KINT64))] ++
  LJFOLDF simplify_bor_k
    [(IR_BOR, any, (op IR_KINT)); (IR_BOR, any, (op IR_KINT64))] ++
  LJFOLDF simplify_bxor_k
    [(IR_BXOR, any, (op IR_KINT)); (IR_BXOR, any, (op IR_KINT64))] ++
  LJFOLDF simplify_shift_ik
    [(IR_BSHL, any, (op IR_KINT)); (IR_BSHR, any, (op IR_KINT));
     (IR_BSAR, any, (op IR_KINT)); (IR_BROL, any, (op IR_KINT));
     (IR_BROR, any, (op IR_KINT))] ++
  LJFOLDF simplify_shift_andk
    [(IR_BSHL, any, (op IR_BAND)); (IR_BSHR, any, (op IR_BAND));
     (IR_BSAR, any, (op IR_BAND)); (IR_BROL, any, (op IR_BAND));
     (IR_BROR, any, (op IR_BAND))] ++
  LJFOLDF simplify_shift1_ki
    [(IR_BSHL, (op IR_KINT), any); (IR_BSHR, (op IR_KINT), any);
     (IR_BSHL, (op IR_KINT64), any); (IR_BSHR, (op IR_KINT64), any)] ++
  LJFOLDF simplify_shift2_ki
    [(IR_BSAR, (op IR_KINT), any); (IR_BROL, (op IR_KINT), any);
     (IR_BROR, (op IR_KINT), any); (IR_BSAR, (op IR_KINT64), any);
     (IR_BROL, (op IR_KINT64), any); (IR_BROR, (op IR_KINT64), any)] ++
  LJFOLDF simplify_shiftk_andk
    [(IR_BSHL, (op IR_BAND), (op IR_KINT)); (IR_BSHR, (op IR_BAND), (op IR_KINT));
     (IR_BROL, (op IR_BAND), (op IR_KINT)); (IR_BROR, (op IR_BAND), (op IR_KINT))] ++
  LJFOLDF simplify_andk_shiftk
    [(IR_BAND, (op IR_BSHL), (op IR_KINT)); (IR_BAND, (op IR_BSHR), (op IR_KINT))] ++
  LJFOLDF reassoc_intarith_k
    [(IR_ADD, (op IR_ADD), (op IR_KINT)); (IR_MUL, (op IR_MUL), (op IR_KINT));
     (IR_BAND, (op IR_BAND), (op IR_KINT)); (IR_BOR, (op IR_BOR), (op IR_KINT));
     (IR_BXOR, (op IR_BXOR), (op IR_KINT))] ++
  LJFOLDF reassoc_intarith_k64
    [(IR_ADD, (op IR_ADD), (op IR_KINT64)); (IR_MUL, (op IR_MUL), (op IR_KINT64));
     (IR_BAND, (op IR_BAND), (op IR_KINT64)); (IR_BOR, (op IR_BOR), (op IR_KINT64));
     (IR_BXOR, (op IR_BXOR), (op IR_KINT64))] ++
  LJFOLDF reassoc_dup
    [(IR_MIN, (op IR_MIN), any); (IR_MAX, (op IR_MAX), any); (IR_BAND, (op IR_BAND), any);
     (IR_BOR, (op IR_BOR), any)] ++
  LJFOLDF reassoc_bxor
    [(IR_BXOR, (op IR_BXOR), any)] ++
  LJFOLDF reassoc_shift
    [(IR_BSHL, (op IR_BSHL), (op IR_KINT)); (IR_BSHR, (op IR_BSHR), (op IR_KINT));
     (IR_BSAR, (op IR_BSAR), (op IR_KINT)); (IR_BROL, (op IR_BROL), (op IR_KINT));
     (IR_BROR, (op IR_BROR), (op IR_KINT))] ++
  LJFOLDF reassoc_minmax_k
    [(IR_MIN, (op IR_MIN), (op IR_KINT)); (IR_MAX, (op IR_MAX), (op IR_KINT))] ++
  LJFOLDF reassoc_minmax_left
    [(IR_MIN, (op IR_MAX), any); (IR_MAX, (op IR_MIN), any)] ++
  LJFOLDF reassoc_minmax_right
    [(IR_MIN, any, (op IR_MAX)); (IR_MAX, any, (op IR_MIN))] ++
  LJFOLDF abc_fwd
    [(IR_ABC, any, (op IR_ADD))] ++
  LJFOLDF abc_k
    [(IR_ABC, any, (op IR_KINT))] ++
  LJFOLDF abc_invar
    [(IR_ABC, any, any)] ++
  LJFOLDF comm_swap
    [(IR_ADD, any, any); (IR_MUL, any, any); (IR_ADDOV, any, any); (IR_MULOV, any, any)] ++
  LJFOLDF comm_equal
    [(IR_EQ, any, any); (IR_NE, any, any)] ++
  LJFOLDF comm_comp
    [(IR_LT, any, any); (IR_GE, any, any); (IR_LE, any, any); (IR_GT, any, any);
     (IR_ULT, any, any); (IR_UGE, any, any); (IR_ULE, any, any); (IR_UGT, any, any)] ++
  LJFOLDF comm_dup
    [(IR_BAND, any, any); (IR_BOR, any, any); (IR_MIN, any, any); (IR_MAX, any, any)] ++
  LJFOLDF comm_bxor
    [(IR_BXOR, any, any)].

Definition pat_eqb (a b : pat) : bool :=
  match a, b with
  | Some x, Some y => x =? y
  | None, None => true
  | _, _ => false
  end.

(** The fold function registered for a key. *)
Fixpoint find_rule (rs : list rule) (o : IROp) (l r : pat) : option (jit_State → prog) :=
  match rs with
  | [] => None
  | x :: rs =>
      if opeq (rl_op x) o && pat_eqb (rl_left x) l && pat_eqb (rl_right x) r
      then Some (rl_fn x) else find_rule rs o l r
  end.

(** ** The engine *)

Inductive outcome (A : Type) :=
  | Done (J : jit_State) (a : A)
  | TraceErr (J : jit_State)       (* lj_trace_err(J, LJ_TRERR_GFAIL) *)
  | NoFuel (J : jit_State).
Arguments Done {A}. Arguments TraceErr {A}. Arguments NoFuel {A}.

(** Run a fold function, given the engine for its calls to [lj_opt_fold]. *)
Fixpoint run_prog (fold : jit_State → outcome Z) (p : prog) : outcome foldres :=
  match p with
  | Ret J r => Done J r
  | CallFold J k =>
      match fold J with
      | Done J ref => run_prog fold (k J ref)
      | TraceErr J => TraceErr J
      | NoFuel J => NoFuel J
      end
  end.

(** The key of the left and of the right operand; [fleft] and [fright] are
    loaded for operands that are references. *)
Definition fold_load (J : jit_State) : jit_State * Z * Z :=
  let x := fins J in
  let '(J, l) := if nk J <=? op1 x
                 then (set_fleft (IR J (op1 x)) J, irop_num (io (IR J (op1 x))))
                 else (J, 0) in
  let '(J, r) := if nk J <=? op2 x
                 then (set_fright (IR J (op2 x)) J, irop_num (io (IR J (op2 x))))
                 else (J, Z.land (op2 x) 0x3ff) in
  (J, l, r).

(** Check for a match in order from most specific to least specific. *)
Fixpoint try_rules (fold : jit_State → outcome Z) (o : IROp) (keys : list (pat * pat))
    (J : jit_State) : outcome foldres :=
  match keys with
  | [] => Done J NEXTFOLD
  | (l, r) :: keys =>
      match find_rule fold_rules o l r with
      | None => try_rules fold o keys J
      | Some f =>
          match run_prog fold (f J) with
          | Done J NEXTFOLD => try_rules fold o keys J
          | res => res
          end
      end
  end.

Definition fold_keys (l r : Z) : list (pat * pat) :=
  [(Some l, Some r); (None, Some r); (Some l, None); (None, None)].

(** Folding disabled, or raw loads and stores. *)
Definition fold_bypass (J : jit_State) : option (jit_State * Z) :=
  let kind := irm_kind (lj_ir_mode (io (fins J))) in
  let has m := Z.land (flags J) m =? m in
  if negb (Z.land (flags J) JIT_F_OPT_MASK =? JIT_F_OPT_DEFAULT) then
    if negb (optflag J JIT_F_OPT_FOLD) && (kind =? IRM_N) then Some (lj_opt_cse J)
    else if negb (has (JIT_F_OPT_FOLD + JIT_F_OPT_FWD + JIT_F_OPT_CSE)) &&
            (kind =? IRM_L) && negb (opeq (io (fins J)) IR_SLOAD) then Some (lj_ir_emit J)
    else if negb (has (JIT_F_OPT_FOLD + JIT_F_OPT_DSE)) && (kind =? IRM_S)
    then Some (lj_ir_emit J)
    else None
  else None.

(** The engine from its retry point, and its entry; the fuel bounds the retries
    and the nesting of calls. *)
Fixpoint fold_retry (fuel : nat) (J : jit_State) : outcome Z :=
  match fuel with
  | O => NoFuel J
  | S fuel =>
      let '(J, l, r) := fold_load J in
      let entry J := match fold_bypass J with
                     | Some (J, ref) => Done J ref
                     | None => fold_retry fuel J
                     end in
      match try_rules entry (io (fins J)) (fold_keys l r) J with
      | Done J NEXTFOLD => let (J, ref) := lj_opt_cse J in Done J ref
      | Done J (REFFOLD ref) => Done J ref
      | Done J RETRYFOLD => fold_retry fuel J
      | Done J (KINTFOLD k) => let (J, ref) := lj_ir_kint J (i32 k) in Done J ref
      | Done J FAILFOLD => TraceErr J
      | Done J DROPFOLD => Done J REF_DROP
      | TraceErr J => TraceErr J
      | NoFuel J => NoFuel J
      end
  end.

(** Fold IR instruction. *)
Definition lj_opt_fold (fuel : nat) (J : jit_State) : outcome Z :=
  match fold_bypass J with
  | Some (J, ref) => Done J ref
  | None => fold_retry fuel J
  end.

End Fold.
