(* ===== verification/IrSem.v ===== *)
(** * Meaning of integer IR

    A trace is a straight line of instructions.  An assignment [ρ] gives every
    reference a value, signed at the width of its type; [models ρ J] says that
    [ρ] is the outcome of running the instructions of [J] past all their guards:
    constants have their value, an instruction has the value of its operation and
    the condition of a guard holds.  Loads, calls and other operations are opaque:
    any value of the right width is possible.

    [ins_ok] is the typing of the operands and [ir_typed] asks it of every
    instruction.  A 64-bit operation may have the 32-bit constant 0 as an operand:
    [simplify_intsubsub_leftcancel] and [simplify_intsubadd_rightcancel] build
    [0 - j] with [lj_ir_kint] at every width. *)

From stdpp Require Import base decidable list numbers option sets.
From Stdlib Require Import ZArith Lia.
From S2P Require Import Prelude Obj Ir IrWf IntOps IntFacts Fold.

Local Open Scope Z_scope.
Import Ir IrWf IntOps IntFacts Fold.

Module IrSem.

(** ** Widths *)

(** The width an integer type is computed at; values of the small types are
    extended to 32 bits when they are loaded. *)
Definition tyw (t : Z) : option Z :=
  let ty := irt_type t in
  if (IRT_I8 <=? ty) && (ty <=? IRT_U32) then Some 32
  else if (ty =? IRT_I64) || (ty =? IRT_U64) then Some 64
  else None.

(** ** Meaning of one instruction *)

Inductive semres :=
  | SVal (v : Z)      (* the value *)
  | SPass             (* a guard that holds *)
  | SFail             (* a guard that fails: the trace is left *)
  | SOpaque.          (* not an integer operation *)

Definition ir_cond (w : Z) (o : IROp) (a b : Z) : option bool :=
  match o with
  | IR_LT => Some (a <? b)
  | IR_GE => Some (b <=? a)
  | IR_LE => Some (a <=? b)
  | IR_GT => Some (b <? a)
  | IR_ULT => Some (wrapu w a <? wrapu w b)
  | IR_UGE => Some (wrapu w b <=? wrapu w a)
  | IR_ULE => Some (wrapu w a <=? wrapu w b)
  | IR_UGT | IR_ABC => Some (wrapu w b <? wrapu w a)
  | IR_EQ => Some (a =? b)
  | IR_NE => Some (negb (a =? b))
  | _ => None
  end.

Definition is32 (ty : Z) : bool := (ty =? IRT_INT) || (ty =? IRT_U32).
Definition is64 (ty : Z) : bool := (ty =? IRT_I64) || (ty =? IRT_U64).

(** Conversions between integers; [None] when a number takes part. *)
Definition conv_sem (m v : Z) : option Z :=
  let src := conv_src m in
  let dst := conv_dst m in
  if is32 dst then
    if src =? IRT_I8 then Some (wraps 8 v)
    else if src =? IRT_U8 then Some (wrapu 8 v)
    else if src =? IRT_I16 then Some (wraps 16 v)
    else if src =? IRT_U16 then Some (wrapu 16 v)
    else if is32 src || is64 src then Some (wraps 32 v)
    else None
  else if is64 dst then
    if is32 src then Some (if Z.land m IRCONV_SEXT =? 0 then wrapu 32 v else v)
    else if is64 src then Some v
    else None
  else None.

(** Overflow-checking arithmetic: the exact result. *)
Definition ir_ov (o : IROp) (a b : Z) : option Z :=
  match o with
  | IR_ADDOV => Some (a + b)
  | IR_SUBOV => Some (a - b)
  | IR_MULOV => Some (a * b)
  | _ => None
  end.

(** Division, modulo and power; Lua's modulo on 32 bits, C's on 64. *)
Definition ir_divmod (t w : Z) (o : IROp) (a b : Z) : option Z :=
  let signed := irt_isi64 t in
  match o with
  | IR_DIV =>
      if w =? 32 then None
      else if signed then Some (lj_carith_divi64 a b)
      else Some (i64 (lj_carith_divu64 (u64 a) (u64 b)))
  | IR_MOD =>
      if w =? 32 then Some (a `mod` b)
      else if signed then Some (lj_carith_modi64 a b)
      else Some (i64 (lj_carith_modu64 (u64 a) (u64 b)))
  | IR_POW =>
      if w =? 32 then None
      else if signed then Some (lj_carith_powi64 a b)
      else Some (i64 (lj_carith_powu64 (u64 a) (u64 b)))
  | _ => None
  end.

Definition ins_sem (ρ : Z → Z) (x : IRIns) : semres :=
  match tyw (it x) with
  | None => SOpaque
  | Some w =>
      let a := ρ (op1 x) in
      let b := ρ (op2 x) in
      match io x with
      | IR_CONV =>
          match conv_sem (op2 x) a with Some v => SVal v | None => SOpaque end
      | o =>
          match ir_arith w o a b, ir_divmod (it x) w o a b, ir_ov o a b, ir_cond w o a b with
          | Some v, _, _, _ => SVal v
          | _, Some v, _, _ => SVal v
          | _, _, Some v, _ => if bool_decide (in_s w v) then SVal v else SFail
          | _, _, _, Some c => if c then SPass else SFail
          | _, _, _, _ => SOpaque
          end
      end
  end.

(** [v] is the value of the instruction and its guard holds. *)
Definition holds (ρ : Z → Z) (x : IRIns) (v : Z) : Prop :=
  match ins_sem ρ x with
  | SVal v' => v = v'
  | SFail => False
  | _ => True
  end.

Record models (ρ : Z → Z) (J : jit_State) : Prop := {
  mo_rng r w : refs J r → tyw (it (IR J r)) = Some w → in_s w (ρ r);
  mo_kint r : nk J ≤ r < REF_BIAS → io (IR J r) = IR_KINT → ρ r = ii (IR J r);
  mo_kint64 r u : nk J ≤ r < REF_BIAS → io (IR J r) = IR_KINT64 →
    k64_at (k64 J) (ii (IR J r)) u → ρ r = i64 u;
  mo_ins r : REF_BIAS ≤ r < nins J → holds ρ (IR J r) (ρ r) }.

(** ** Typing *)

Definition opnd (J : jit_State) (w r : Z) : Prop :=
  refs J r ∧ tyw (it (IR J r)) = Some w.

(** The 32-bit constant 0. *)
Definition kzero (J : jit_State) (r : Z) : Prop :=
  nk J ≤ r < REF_BIAS ∧ io (IR J r) = IR_KINT ∧ ii (IR J r) = 0.

Definition zopnd (J : jit_State) (w r : Z) : Prop := opnd J w r ∨ kzero J r.

(** How the operands of an opcode are typed. *)
Inductive shape := ShBin | ShZBin | ShNeg | ShUn | ShShift | ShConv | ShOther.

Definition op_shape (o : IROp) : shape :=
  match o with
  | IR_ADD | IR_SUB => ShZBin
  | IR_NEG => ShNeg
  | IR_BNOT | IR_BSWAP => ShUn
  | IR_MUL | IR_DIV | IR_MOD | IR_POW
  | IR_BAND | IR_BOR | IR_BXOR | IR_MIN | IR_MAX
  | IR_ADDOV | IR_SUBOV | IR_MULOV
  | IR_LT | IR_GE | IR_LE | IR_GT | IR_ULT | IR_UGE | IR_ULE | IR_UGT
  | IR_EQ | IR_NE | IR_ABC => ShBin
  | IR_BSHL | IR_BSHR | IR_BSAR | IR_BROL | IR_BROR => ShShift
  | IR_CONV => ShConv
  | _ => ShOther
  end.

(** The widths a conversion reads and writes. *)
Definition conv_srcw (m : Z) : Z := if is64 (conv_src m) then 64 else 32.
Definition conv_dstw (m : Z) : Z := if is64 (conv_dst m) then 64 else 32.
Definition conv_int (m : Z) : bool := if conv_sem m 0 is Some _ then true else false.

(** The instructions whose folding is treated. *)
Definition fold_op (o : IROp) : bool :=
  match o with
  | IR_ADD | IR_SUB | IR_MUL | IR_NEG | IR_MOD
  | IR_BNOT | IR_BSWAP | IR_BAND | IR_BOR | IR_BXOR
  | IR_BSHL | IR_BSHR | IR_BSAR | IR_BROL | IR_BROR | IR_MIN | IR_MAX
  | IR_ADDOV | IR_SUBOV | IR_MULOV | IR_CONV
  | IR_LT | IR_GE | IR_LE | IR_GT | IR_ULT | IR_UGE | IR_ULE | IR_UGT
  | IR_EQ | IR_NE => true
  | _ => false
  end.

Definition ins_ok (J : jit_State) (x : IRIns) : Prop :=
  match tyw (it x) with
  | None => fold_op (io x) = false ∨ io x = IR_CONV ∧ conv_int (op2 x) = false ∨
            refs J (op1 x) ∧ ∀ w, ¬ zopnd J w (op1 x)
  | Some w =>
      match op_shape (io x) with
      | ShBin => opnd J w (op1 x) ∧ opnd J w (op2 x)
      | ShZBin => zopnd J w (op1 x) ∧ opnd J w (op2 x)
      | ShNeg => opnd J w (op1 x) ∧ refs J (op2 x)
      | ShUn => opnd J w (op1 x) ∧ 0 ≤ op2 x ≤ KLIM
      | ShShift => opnd J w (op1 x) ∧ opnd J 32 (op2 x)
      | ShConv =>
          is32 (conv_dst (op2 x)) || is64 (conv_dst (op2 x)) = true ∧
          (conv_int (op2 x) = true →
           0 ≤ op2 x < KLIM ∧ w = conv_dstw (op2 x) ∧ zopnd J (conv_srcw (op2 x)) (op1 x))
      | ShOther => True
      end
  end.

Record ir_typed (J : jit_State) : Prop := {
  ty_wf : ir_wf J;
  ty_ins r : REF_BIAS ≤ r < nins J → ins_ok J (IR J r);
  ty_ssa r : REF_BIAS ≤ r < nins J → op_shape (io (IR J r)) ≠ ShOther →
    op1 (IR J r) < r ∧ op2 (IR J r) < r }.

(** ** Facts on meaning *)

Lemma irt_type_idem t : irt_type (irt_type t) = irt_type t.
Proof. unfold irt_type. by rewrite <-Z.land_assoc, Z.land_diag. Qed.

Lemma tyw_cases t w : tyw t = Some w → w = 32 ∨ w = 64.
Proof. unfold tyw. repeat case_test; naive_solver. Qed.

Lemma conv_int_spec m v : conv_int m = if conv_sem m v is Some _ then true else false.
Proof.
  unfold conv_int, conv_sem.
  destruct (is32 (conv_dst m)), (is64 (conv_dst m)), (conv_src m =? IRT_I8),
    (conv_src m =? IRT_U8), (conv_src m =? IRT_I16), (conv_src m =? IRT_U16),
    (is32 (conv_src m)), (is64 (conv_src m)); done.
Qed.

Lemma sem_other ρ x : op_shape (io x) = ShOther → ins_sem ρ x = SOpaque.
Proof.
  unfold ins_sem, ir_divmod. intros H. destruct (tyw (it x)) as [w|]; [|done].
  destruct (io x); simpl in *; try done; repeat case_test; done.
Qed.

Lemma refs_ext J J' r : ext J J' → refs J r → refs J' r.
Proof. intros []. unfold refs. lia. Qed.
Lemma opnd_ext J J' w r : ext J J' → opnd J w r → opnd J' w r.
Proof.
  intros X [Hr Hw]. split; [by eapply refs_ext|]. by rewrite (ex_ir _ _ X).
Qed.
Lemma kzero_ext J J' r : ir_wf J → ext J J' → kzero J r → kzero J' r.
Proof.
  intros W X (Hr & Ho & Hi). pose proof (bo_nins _ (iw_buf _ W)). pose proof (ex_nk _ _ X).
  unfold REF_FIRST in *. unfold kzero. rewrite (ex_ir _ _ X) by (unfold refs; lia).
  split_and!; [lia|lia|done|done].
Qed.
Lemma zopnd_ext J J' w r : ir_wf J → ext J J' → zopnd J w r → zopnd J' w r.
Proof. intros W X [H|H]; [left; by eapply opnd_ext|right; by eapply kzero_ext]. Qed.

Lemma kzero_refs J r : ir_wf J → kzero J r → refs J r.
Proof.
  intros W [Hr _]. pose proof (bo_nins _ (iw_buf _ W)). unfold refs, REF_FIRST in *. lia.
Qed.
Lemma zopnd_refs J w r : ir_wf J → zopnd J w r → refs J r.
Proof. intros W [[? _]|?]; [done|by apply kzero_refs]. Qed.
Lemma kzero_opnd J r : ir_wf J → kzero J r → opnd J 32 r.
Proof.
  intros W H. split; [by apply kzero_refs|]. destruct H as (Hr & Ho & _).
  destruct (iw_kint _ W r Hr Ho) as [_ ->]. done.
Qed.
Lemma zopnd_32 J r : ir_wf J → zopnd J 32 r → opnd J 32 r.
Proof. intros W [?|?]; [done|by apply kzero_opnd]. Qed.

Lemma zopnd_old J J' w r : ext J J' → refs J r → zopnd J' w r → zopnd J w r.
Proof.
  intros X Hr. unfold zopnd, opnd, kzero. rewrite (ex_ir _ _ X) by done.
  unfold refs in *. pose proof (ex_nk _ _ X).
  intros [[_ ?]|([? ?] & ? & ?)]; [by left|right]. split_and!; [lia|lia|done|done].
Qed.

Lemma ins_ok_ext J J' x : ir_wf J → ext J J' → ins_ok J x → ins_ok J' x.
Proof.
  intros W X. unfold ins_ok. destruct (tyw (it x)) as [w|].
  - pose proof (refs_ext J J' (op2 x) X). pose proof (opnd_ext J J' w (op1 x) X).
    pose proof (opnd_ext J J' w (op2 x) X). pose proof (opnd_ext J J' 32 (op2 x) X).
    pose proof (zopnd_ext J J' w (op1 x) W X). pose proof (zopnd_ext J J' w (op2 x) W X).
    pose proof (zopnd_ext J J' (conv_srcw (op2 x)) (op1 x) W X).
    destruct (op_shape (io x)); naive_solver.
  - intros [?|[?|[Hr Hn]]]; [by left|by right; left|right; right].
    split; [by eapply refs_ext|]. intros w Hz. apply (Hn w). by eapply zopnd_old.
Qed.

Lemma models_ext ρ J J' : ir_wf J → ext J J' → models ρ J' → models ρ J.
Proof.
  intros W X M. pose proof (bo_nins _ (iw_buf _ W)). pose proof (bo_nk _ (iw_buf _ W)).
  pose proof (ex_nk _ _ X). pose proof (ex_nins _ _ X).
  unfold REF_FIRST, REF_TRUE in *.
  assert (∀ r, refs J r → IR J' r = IR J r) as HIR by apply X. unfold refs in HIR.
  constructor.
  - intros r w Hr Hw. unfold refs in Hr. apply (mo_rng _ _ M); [by eapply refs_ext|by rewrite HIR].
  - intros r Hr Ho. rewrite <-HIR by lia. apply (mo_kint _ _ M); [lia|]. by rewrite HIR by lia.
  - intros r u Hr Ho Hu. rewrite <-HIR in Hu by lia.
    apply (mo_kint64 _ _ M r); [lia|by rewrite HIR by lia|]. by apply (ex_k64 _ _ X).
  - intros r Hr. rewrite <-HIR by lia. apply (mo_ins _ _ M). lia.
Qed.

(** Only the operands matter. *)
Lemma sem_agree J x ρ ρ' :
  ir_wf J → ins_ok J x → (∀ r, refs J r → ρ' r = ρ r) → ins_sem ρ' x = ins_sem ρ x.
Proof.
  intros W Hok Ha. destruct (op_shape (io x)) eqn:Hs; [..|by rewrite !sem_other];
    unfold ins_ok, ins_sem in *; destruct (tyw (it x)) as [w|]; try done; rewrite Hs in Hok.
  - destruct Hok as [[R1 _] [R2 _]]. by rewrite (Ha _ R1), (Ha _ R2).
  - destruct Hok as (R1%zopnd_refs & R2 & _); [|done..]. by rewrite (Ha _ R1), (Ha _ R2).
  - destruct Hok as [[R1 _] R2]. by rewrite (Ha _ R1), (Ha _ R2).
  - destruct Hok as [[R1 _] _]. rewrite (Ha (op1 x)) by done. by destruct (io x).
  - destruct Hok as [[R1 _] [R2 _]]. by rewrite (Ha _ R1), (Ha _ R2).
  - destruct (io x); try done. destruct (conv_int (op2 x)) eqn:Hc.
    + destruct (proj2 Hok eq_refl) as (_ & _ & R1). apply zopnd_refs in R1; [|done]. by rewrite (Ha _ R1).
    + pose proof (conv_int_spec (op2 x) (ρ (op1 x))) as E1.
      pose proof (conv_int_spec (op2 x) (ρ' (op1 x))) as E2. rewrite Hc in E1, E2.
      by destruct (conv_sem (op2 x) (ρ (op1 x))), (conv_sem (op2 x) (ρ' (op1 x))).
Qed.

End IrSem.
