(* ===== verification/FoldSpec.v ===== *)
(** * Specification of fold functions

    [wstep J J'] adds constants and instructions that cannot leave the trace;
    [rule_ok] is what the engine needs of a fold function: its result has the
    meaning of the instruction it was given, and a retried or nested
    instruction is smaller in a measure ([meas]), which is why folding ends. *)

From stdpp Require Import base decidable list numbers option sets.
From Stdlib Require Import ZArith Lia.
From S2P Require Import Prelude Obj Ir IrWf IntOps IntFacts Fold IrSem.

Local Open Scope Z_scope.
Import Ir IrWf IntOps IntFacts Fold IrSem.

Module FoldSpec.

(** ** The instructions folded *)

Record fdom (J : jit_State) (w : Z) (x : IRIns) : Prop := {
  fd_op : fold_op (io x) = true;
  fd_w : tyw (it x) = Some w;
  fd_ok : ins_ok J x;
  fd_conv : io x = IR_CONV → conv_int (op2 x) = true ∧ w = 32;
  fd_mod : io x = IR_MOD → w = 32 ∧ ¬ kzero J (op2 x);
  fd_ov : io x ∈ [IR_ADDOV; IR_SUBOV; IR_MULOV] → w = 32 }.

(** An addition or subtraction of the 32-bit 0, at 64 bits: the rules for a
    constant on the right remove it before anything else looks at it. *)
Definition zr (J : jit_State) (w : Z) (x : IRIns) : Prop :=
  io x ∈ [IR_ADD; IR_SUB] ∧ w = 64 ∧ tyw (it x) = Some w ∧ zopnd J w (op1 x) ∧ kzero J (op2 x).

Definition fdomz (J : jit_State) (w : Z) (x : IRIns) : Prop := fdom J w x ∨ zr J w x.

Definition agree (J : jit_State) (ρ ρ' : Z → Z) : Prop := ∀ r, refs J r → ρ' r = ρ r.

Record wstep (J J' : jit_State) : Prop := {
  ws_ty : ir_typed J';
  ws_ext : ext J J';
  ws_cons ρ : models ρ J → ∃ ρ', agree J ρ ρ' ∧ models ρ' J' }.

Lemma wstep_refl J : ir_typed J → wstep J J.
Proof. intros. constructor; [done|done|]. intros ρ ?. by exists ρ. Qed.

Lemma wstep_trans J1 J2 J3 : wstep J1 J2 → wstep J2 J3 → wstep J1 J3.
Proof.
  intros [T1 X1 C1] [T2 X2 C2]. constructor; [done|by etransitivity|].
  intros ρ M. destruct (C1 ρ M) as (ρ1 & A1 & M1). destruct (C2 ρ1 M1) as (ρ2 & A2 & M2).
  exists ρ2. split; [|done]. intros r Hr. rewrite A2; [by apply A1|by eapply refs_ext].
Qed.

(** ** The measure *)

Definition mref (r : Z) : nat := Z.to_nat (r - REF_BIAS + 1).

Definition op_class (o : IROp) : nat :=
  match o with
  | IR_CONV => 6
  | IR_MUL | IR_MOD | IR_MULOV => 5
  | IR_BROR => 4
  | IR_BSHL | IR_BSHR | IR_BSAR | IR_BROL => 3
  | IR_ADD | IR_SUB | IR_ADDOV | IR_BAND | IR_BXOR => 2
  | _ => 1
  end.

Definition shift_op (o : IROp) : bool := if op_shape o is ShShift then true else false.

(** A constant shift count that is not reduced yet. *)
Definition unreduced (J : jit_State) (x : IRIns) : bool :=
  let mask := if irt_is64 (it x) then 63 else 31 in
  shift_op (io x) && opeq (io (IR J (op2 x))) IR_KINT &&
  negb (Z.land (ii (IR J (op2 x))) mask =? ii (IR J (op2 x))).

Definition minor (J : jit_State) (x : IRIns) : nat :=
  (if op1 x <? op2 x then 1 else 0) + (if opeq (io x) IR_SUB then 2 else 0) +
  (if unreduced J x then 2 else 0).

Definition meas (J : jit_State) (x : IRIns) : nat :=
  8 * (mref (op1 x) + mref (op2 x)) + minor J x.

Definition meas_lt (J' : jit_State) (x' : IRIns) (J : jit_State) (x : IRIns) : Prop :=
  (op_class (io x') < op_class (io x))%nat ∨
  op_class (io x') = op_class (io x) ∧ (meas J' x' < meas J x)%nat.

(** ** What a fold function promises *)

Definition is_guard (o : IROp) : bool := if ir_cond 32 o 0 0 is Some _ then true else false.

(** Result [ref] of folding [x], in state [J'] reached from [J]. *)
Record res_ok (J : jit_State) (w : Z) (x : IRIns) (J' : jit_State) (ref : Z) : Prop := {
  ro_ty : ir_typed J';
  ro_ext : ext J J';
  ro_ref : is_guard (io x) = false → zopnd J' w ref;
  ro_sem ρ : models ρ J' → holds ρ x (ρ ref);
  ro_cons ρ : models ρ J → ins_sem ρ x ≠ SFail → ∃ ρ', agree J ρ ρ' ∧ models ρ' J' }.

Definition ret_ok (J : jit_State) (w : Z) (x : IRIns) (J' : jit_State) (r : foldres) : Prop :=
  match r with
  | NEXTFOLD => J' = J
  | RETRYFOLD =>
      wstep J J' ∧ fdomz J' w (fins J') ∧ is_guard (io (fins J')) = is_guard (io x) ∧
      (∀ ρ, models ρ J' → ins_sem ρ (fins J') = ins_sem ρ x) ∧
      meas_lt J' (fins J') J x
  | KINTFOLD k =>
      wstep J J' ∧ (w = 32 ∨ i32 k = 0) ∧ is_guard (io x) = false ∧
      ∀ ρ, models ρ J' → ins_sem ρ x = SVal (i32 k)
  | FAILFOLD => ∀ ρ, models ρ J → ins_sem ρ x = SFail
  | DROPFOLD => wstep J J' ∧ is_guard (io x) = true ∧ ∀ ρ, models ρ J' → ins_sem ρ x = SPass
  | REFFOLD ref =>
      wstep J J' ∧ is_guard (io x) = false ∧ zopnd J' w ref ∧
      ∀ ρ, models ρ J' → ins_sem ρ x = SVal (ρ ref)
  end.

(** [p] folds [x] of [J].  The promise covers the states in which the constants
    have not run into the literals. *)
Fixpoint rule_ok (J : jit_State) (w : Z) (x : IRIns) (p : prog) : Prop :=
  match p with
  | Ret J' r => KLIM < nk J' → ret_ok J w x J' r
  | CallFold J1 k =>
      (KLIM < nk J1 →
       wstep J J1 ∧ fdom J1 32 (fins J1) ∧ meas_lt J1 (fins J1) J x ∧
       is_guard (io (fins J1)) = false ∧ ∀ ρ, models ρ J1 → ins_sem ρ (fins J1) ≠ SFail) ∧
      ∀ J2 ref, nk J2 ≤ nk J1 →
                (KLIM < nk J2 → wstep J1 J2 ∧ res_ok J1 32 (fins J1) J2 ref) →
                rule_ok J w x (k J2 ref)
  end.

(** The operands of [fins] are loaded. *)
Record loaded (J : jit_State) : Prop := {
  lo_left : nk J ≤ op1 (fins J) → fleft J = IR J (op1 (fins J));
  lo_right : nk J ≤ op2 (fins J) → fright J = IR J (op2 (fins J)) }.

Definition key_left (J : jit_State) : Z :=
  if nk J <=? op1 (fins J) then irop_num (io (IR J (op1 (fins J)))) else 0.
Definition key_right (J : jit_State) : Z :=
  if nk J <=? op2 (fins J) then irop_num (io (IR J (op2 (fins J))))
  else Z.land (op2 (fins J)) 0x3ff.

Definition pat_ok (p : pat) (k : Z) : Prop := if p is Some n then n = k else True.

Definition fn_ok (o : IROp) (l r : pat) (f : jit_State → prog) : Prop :=
  ∀ J w, ir_typed J → fdom J w (fins J) → loaded J → io (fins J) = o →
    pat_ok l (key_left J) → pat_ok r (key_right J) → rule_ok J w (fins J) (f J).

(** ** Steps *)

Lemma typed_set_fins J x : ir_typed J → ir_typed (set_fins x J).
Proof. intros [W T S]. constructor; [by apply wf_set_fins|done|done]. Qed.
Lemma typed_set_fleft J x : ir_typed J → ir_typed (set_fleft x J).
Proof. intros [W T S]. constructor; [by apply wf_set_fleft|done|done]. Qed.
Lemma typed_set_fright J x : ir_typed J → ir_typed (set_fright x J).
Proof. intros [W T S]. constructor; [by apply wf_set_fright|done|done]. Qed.

Lemma models_set_fins ρ J x : models ρ J ↔ models ρ (set_fins x J).
Proof. split; intros []; by constructor. Qed.

Lemma wstep_set_fins J x : ir_typed J → wstep J (set_fins x J).
Proof.
  intros T. constructor; [by apply typed_set_fins|apply ext_set_fins|].
  intros ρ M. exists ρ. split; [done|]. by apply models_set_fins.
Qed.

Lemma wstep_set_fins_r J J' x : wstep J J' → wstep J (set_fins x J').
Proof. intros S. eapply wstep_trans; [done|]. apply wstep_set_fins, S. Qed.

Lemma kop_shape o : isk_op o = true → op_shape o = ShOther.
Proof. by destruct o. Qed.

(** The values that exist only in an extension by constants. *)
Definition kρ (J J' : jit_State) (ρ : Z → Z) (r : Z) : Z :=
  if (nk J' <=? r) && (r <? nk J) then
    match io (IR J' r) with
    | IR_KINT => ii (IR J' r)
    | IR_KINT64 => i64 (k64_val J' (ii (IR J' r)))
    | _ => 0
    end
  else ρ r.

Lemma kρ_old J J' ρ r : nk J ≤ r → kρ J J' ρ r = ρ r.
Proof. intros. unfold kρ. by rewrite (proj2 (Z.ltb_ge _ _)), andb_false_r by lia. Qed.
Lemma kρ_new J J' ρ r :
  nk J' ≤ r < nk J → kρ J J' ρ r = match io (IR J' r) with
    | IR_KINT => ii (IR J' r) | IR_KINT64 => i64 (k64_val J' (ii (IR J' r))) | _ => 0 end.
Proof.
  intros. unfold kρ. by rewrite (proj2 (Z.ltb_lt _ _)), (proj2 (Z.leb_le _ _)) by lia.
Qed.

Lemma in_s_zero w : 0 < w → in_s w 0.
Proof. unfold in_s. intros. pose proof (Z.pow_pos_nonneg 2 (w - 1)). lia. Qed.

Lemma const_step J J' :
  ir_typed J → ir_wf J' → ext J J' → nins J' = nins J → wstep J J'.
Proof.
  intros T W' X Hn. pose proof (ty_wf _ T) as W.
  pose proof (bo_nins _ (iw_buf _ W)). pose proof (bo_nk _ (iw_buf _ W)).
  pose proof (ex_nk _ _ X). unfold REF_FIRST, REF_TRUE in *.
  assert (∀ r, refs J r → IR J' r = IR J r) as HIR by apply X. unfold refs in HIR.
  constructor; [constructor|done|].
  - done.
  - intros r Hr. rewrite HIR by lia. apply (ins_ok_ext J); [done|done|]. apply T. lia.
  - intros r Hr. rewrite HIR by lia. apply T. lia.
  - intros ρ M. exists (kρ J J' ρ). split; [intros r [? _]; by apply kρ_old|].
    constructor.
    + intros r w Hr Hw. unfold refs in Hr. destruct (decide (nk J ≤ r)).
      { rewrite kρ_old by done. apply (mo_rng _ _ M); [unfold refs; lia|]. by rewrite <-HIR by lia. }
      rewrite kρ_new by lia. assert (0 < w) by (apply tyw_cases in Hw; lia).
      destruct (io (IR J' r)) eqn:Ho; try by apply in_s_zero.
      * destruct (iw_kint _ W' r ltac:(lia) Ho) as [Hi Ht]. rewrite Ht in Hw.
        cbv in Hw. injection Hw as <-. exact Hi.
      * destruct (iw_kint64 _ W' r ltac:(lia) Ho) as [_ Ht]. rewrite Ht in Hw.
        cbv in Hw. injection Hw as <-. by apply wraps_range.
    + intros r Hr Ho. destruct (decide (nk J ≤ r)).
      { rewrite kρ_old, HIR by lia. rewrite HIR in Ho by lia. apply (mo_kint _ _ M); [lia|done]. }
      rewrite kρ_new by lia. by rewrite Ho.
    + intros r u Hr Ho Hu. destruct (decide (nk J ≤ r)).
      { rewrite kρ_old by lia. rewrite HIR in Ho, Hu by lia.
        destruct (iw_kint64 _ W r ltac:(lia) Ho) as [[u' Hu'] _].
        rewrite (k64_at_fun _ _ _ _ Hu (ex_k64 _ _ X _ _ Hu')).
        apply (mo_kint64 _ _ M r); [lia|done|done]. }
      rewrite kρ_new by lia. rewrite Ho. by rewrite (k64_val_at _ _ _ Hu).
    + intros r Hr. rewrite HIR, kρ_old by lia. unfold holds.
      rewrite (sem_agree J _ ρ); [apply (mo_ins _ _ M); lia|done|apply T; lia|].
      intros r' [? _]. by apply kρ_old.
Qed.

Lemma interned_step J J' r o v : ir_typed J → interned J J' r o v → wstep J J'.
Proof. intros T [? ? ? _ _ _ _]. by apply const_step. Qed.

End FoldSpec.
