(* ===== verification/FoldEngine.v ===== *)
(** * The fold engine

    Emitting and commoning an instruction keep its meaning; the engine, given
    rules that keep their promise ([fn_ok]), returns a reference with the meaning
    of the instruction, and with enough fuel it returns. *)

From stdpp Require Import base decidable list numbers option sets.
From Stdlib Require Import ZArith Lia.
From S2P Require Import Prelude Obj Ir IrWf IntOps IntFacts Fold IrSem FoldSpec.

Local Open Scope Z_scope.
Import Ir IrWf IntOps IntFacts Fold IrSem FoldSpec.

Module FoldEngine.

(** ** Values of operands *)

Lemma kzero_val J ρ r : models ρ J → kzero J r → ρ r = 0.
Proof. intros M (Hr & Ho & Hi). by rewrite (mo_kint _ _ M). Qed.

Lemma opnd_rng J ρ w r : models ρ J → opnd J w r → in_s w (ρ r).
Proof. intros M [Hr Hw]. by apply (mo_rng _ _ M). Qed.

Lemma zopnd_rng J ρ w r : models ρ J → 0 < w → zopnd J w r → in_s w (ρ r).
Proof.
  intros M Hw [H|H]; [by eapply opnd_rng|]. rewrite (kzero_val _ _ _ M H). by apply in_s_zero.
Qed.

Lemma fdom_pos J w x : fdom J w x → w = 32 ∨ w = 64.
Proof. intros D. apply (tyw_cases _ _ (fd_w _ _ _ D)). Qed.

(** The operands are references, except literals. *)
Lemma fdom_refs J w x :
  ir_wf J → fdom J w x → refs J (op1 x) ∧ (refs J (op2 x) ∨ 0 ≤ op2 x ≤ KLIM).
Proof.
  intros W [Hop Hw Hok Hc _ _]. unfold ins_ok in Hok. rewrite Hw in Hok.
  destruct (io x); try done; simpl in Hok.
  all: try (destruct Hok as [[? _] [? _]]; by auto).
  all: try (destruct Hok as (?%zopnd_refs & ? & _); by auto).
  all: try (destruct Hok as [[? _] ?]; by auto).
  destruct (Hc eq_refl) as [Hm _]. destruct (proj2 Hok Hm) as (? & _ & ?%zopnd_refs); [|done].
  split; [done|right; lia].
Qed.

Lemma bswap_range n x : 0 ≤ bswap_bytes n x < 2 ^ (8 * Z.of_nat n).
Proof.
  revert x. induction n as [|n IH]; intros x; simpl bswap_bytes; [done|].
  rewrite Z.lor_comm, Z.shiftl_mul_pow2 by lia.
  rewrite lor_disjoint_add; [|lia|apply IH].
  assert (0 ≤ Z.land x 255 ≤ 255) by (by apply land_mask_range).
  specialize (IH (Z.shiftr x 8)).
  replace (8 * Z.of_nat (S n)) with (8 + 8 * Z.of_nat n) by lia.
  rewrite Z.pow_add_r by lia. change (2 ^ 8) with 256. nia.
Qed.

Lemma mod_range w a b : in_s w a → in_s w b → in_s w (a `mod` b).
Proof.
  unfold in_s. intros Ha Hb. destruct (decide (b = 0)) as [->|].
  - by rewrite Z.mod_0_r.
  - destruct (decide (0 < b)); [pose proof (Z.mod_pos_bound a b); lia|].
    pose proof (Z.mod_neg_bound a b). lia.
Qed.

Lemma conv_range m v u : conv_sem m v = Some u → in_s (conv_srcw m) v → in_s (conv_dstw m) u.
Proof.
  unfold conv_sem, conv_srcw, conv_dstw. intros E Hv.
  destruct (is32 (conv_dst m)) eqn:E32.
  - assert (is64 (conv_dst m) = false) as ->.
    { unfold is32, is64, IRT_INT, IRT_U32, IRT_I64, IRT_U64 in *. bprop. lia. }
    pose proof (wraps_range 8 v ltac:(lia)). pose proof (wrapu_range 8 v ltac:(lia)).
    pose proof (wraps_range 16 v ltac:(lia)). pose proof (wrapu_range 16 v ltac:(lia)).
    pose proof (wraps_range 32 v ltac:(lia)).
    unfold in_s, in_u in *. simpl in *.
    repeat case_test_in E; try discriminate E; injection E as <-; lia.
  - destruct (is64 (conv_dst m)); [|done].
    pose proof (wrapu_range 32 v ltac:(lia)).
    unfold in_s, in_u in *. destruct (is32 (conv_src m)) eqn:Es.
    + assert (is64 (conv_src m) = false) as Es'.
      { unfold is32, is64, IRT_INT, IRT_U32, IRT_I64, IRT_U64 in *. bprop. lia. }
      rewrite Es' in Hv. simpl in *. injection E as <-. case_test; lia.
    + destruct (is64 (conv_src m)); [|done]. by injection E as <-.
Qed.

Lemma sem_range J w x ρ v :
  fdom J w x → models ρ J → ins_sem ρ x = SVal v → in_s w v.
Proof.
  intros D M. pose proof (fdom_pos _ _ _ D) as Hw. destruct D as [Hop Ht Hok Hc Hm Ho].
  unfold ins_sem, ins_ok in *. rewrite Ht in *.
  assert (0 < w) by lia.
  destruct (io x) eqn:Eo; try done; simpl in Hok |- *.
  all: try (case_bool_decide; intros [= <-]; done).
  all: try (intros [= <-]; by (apply wraps_range || apply rotl_range)).
  all: try (case_test; done).
  all: try (destruct Hok as [R1%(opnd_rng _ ρ) R2%(opnd_rng _ ρ)]; [|done..];
            intros [= <-]; first [by apply in_s_land|by apply in_s_lor|by apply in_s_lxor
              |unfold in_s in *; lia]).
  all: try (destruct Hok as [R1%(opnd_rng _ ρ) _]; [|done..]; intros [= <-];
            first [by apply in_s_lnot
                  |apply in_s_shiftr; [done|apply Z.land_nonneg; lia|done]]).
  - destruct (Hm eq_refl) as [-> _]. simpl.
    destruct Hok as [R1%(opnd_rng _ ρ) R2%(opnd_rng _ ρ)]; [|done..]. intros [= <-].
    by apply mod_range.
  - destruct (Hc eq_refl) as [Hm' _]. destruct (proj2 Hok Hm') as (_ & -> & Hz).
    apply (zopnd_rng _ ρ) in Hz; [|done|unfold conv_srcw; case_test; lia].
    destruct (conv_sem (op2 x) (ρ (op1 x))) eqn:Ec; [|done]. intros [= <-].
    by eapply conv_range.
Qed.

(** ** Instructions with the same fields *)

Definition like (x y : IRIns) : Prop :=
  io x = io y ∧ it x = it y ∧ op1 x = op1 y ∧ op2 x = op2 y.

Lemma like_sem ρ x y : like x y → ins_sem ρ x = ins_sem ρ y.
Proof. intros (H1 & H2 & H3 & H4). unfold ins_sem. by rewrite H1, H2, H3, H4. Qed.
Lemma like_ok J x y : like x y → ins_ok J y → ins_ok J x.
Proof. intros (H1 & H2 & H3 & H4). unfold ins_ok. by rewrite H1, H2, H3, H4. Qed.

(** ** Emitting *)

Definition upd (ρ : Z → Z) (r v : Z) (x : Z) : Z := if x =? r then v else ρ x.

Lemma emit_typed J w J' r :
  ir_typed J → fdom J w (fins J) → emitted J J' r → ir_typed J'.
Proof.
  intros T D (W' & X & -> & Hn & Hk & Hio & Hit & Ho1 & Ho2 & _).
  destruct (fdom_refs _ _ _ (ty_wf _ T) D) as [R1 R2].
  pose proof (bo_nins _ (iw_buf _ (ty_wf _ T))). pose proof (bo_nk _ (iw_buf _ (ty_wf _ T))).
  unfold REF_FIRST, REF_TRUE, refs, KLIM, REF_BIAS in *.
  constructor; [done|..].
  - intros r Hr. unfold REF_BIAS in Hr. destruct (decide (r = nins J)) as [->|].
    + apply (like_ok J' _ (fins J)); [done|]. apply (ins_ok_ext J); [apply T|done|apply D].
    + rewrite (ex_ir _ _ X) by (unfold refs; lia).
      apply (ins_ok_ext J); [apply T|done|]. apply T. unfold REF_BIAS. lia.
  - intros r Hr Hs. unfold REF_BIAS in Hr. destruct (decide (r = nins J)) as [->|].
    + rewrite Ho1, Ho2. lia.
    + rewrite (ex_ir _ _ X) in * by (unfold refs; lia). apply T; [unfold REF_BIAS; lia|done].
Qed.

Lemma emit_res J w J' r :
  ir_typed J → fdom J w (fins J) → emitted J J' r → res_ok J w (fins J) J' r.
Proof.
  intros T D E. pose proof (emit_typed _ _ _ _ T D E) as T'.
  destruct E as (W' & X & -> & Hn & Hk & Hio & Hit & Ho1 & Ho2 & Hk64 & _).
  destruct (fdom_refs _ _ _ (ty_wf _ T) D) as [R1 R2].
  pose proof (bo_nins _ (iw_buf _ (ty_wf _ T))) as Hb. pose proof (bo_nk _ (iw_buf _ (ty_wf _ T))).
  pose proof (iw_klim _ (ty_wf _ T)).
  unfold REF_FIRST, REF_TRUE in *.
  assert (refs J' (nins J)) as Hr by (unfold refs; lia).
  constructor; [done|done| | |].
  - intros _. left. split; [done|]. rewrite Hit. apply D.
  - intros ρ M. unfold holds. rewrite <-(like_sem ρ (IR J' (nins J)) (fins J)) by done.
    apply (mo_ins _ _ M). lia.
  - intros ρ M Hnf.
    set (v := match ins_sem ρ (fins J) with SVal v => v | _ => 0 end).
    exists (upd ρ (nins J) v).
    assert (agree J ρ (upd ρ (nins J) v)) as Ha.
    { intros r Hr'. unfold upd, refs in *. by rewrite (proj2 (Z.eqb_neq _ _)) by lia. }
    split; [done|].
    assert (∀ r, refs J r → IR J' r = IR J r) as HIR by apply X. unfold refs in HIR.
    constructor.
    + intros r w' Hr' Hw'. unfold refs in Hr'. destruct (decide (r = nins J)) as [->|].
      * rewrite Hit, (fd_w _ _ _ D) in Hw'. injection Hw' as <-.
        unfold upd. rewrite Z.eqb_refl. unfold v.
        destruct (ins_sem ρ (fins J)) eqn:Es; [by eapply sem_range|..];
          apply in_s_zero; apply fdom_pos in D; lia.
      * rewrite Ha by (unfold refs; lia). rewrite HIR in Hw' by lia.
        apply (mo_rng _ _ M); [unfold refs; lia|done].
    + intros r Hr' Ho. rewrite HIR in * by lia. rewrite Ha by (unfold refs; lia).
      apply (mo_kint _ _ M); [lia|done].
    + intros r u Hr' Ho Hu. rewrite HIR in * by lia. rewrite Ha by (unfold refs; lia).
      rewrite Hk64 in Hu. apply (mo_kint64 _ _ M r); [lia|done|done].
    + intros r Hr'. destruct (decide (r = nins J)) as [->|].
      * unfold holds. rewrite (like_sem _ (IR J' (nins J)) (fins J)) by done.
        rewrite (sem_agree J _ ρ); [|apply T|apply D|done].
        unfold upd. rewrite Z.eqb_refl. unfold v.
        by destruct (ins_sem ρ (fins J)).
      * rewrite HIR, Ha by (unfold refs; lia). unfold holds.
        rewrite (sem_agree J _ ρ); [apply (mo_ins _ _ M); lia|apply T|apply T; lia|done].
Qed.

(** ** Common subexpressions *)

Lemma cse_find_sound J o p lim n ref :
  ir_wf J → isk_op o = false → 0 ≤ lim →
  (ref = 0 ∨ REF_BIAS ≤ ref < nins J ∧ io (IR J ref) = o) →
  let r := cse_find n J p lim ref in
  r = 0 ∨ lim < r ∧ REF_BIAS ≤ r < nins J ∧ io (IR J r) = o ∧ p (IR J r) = true.
Proof.
  intros W Ho Hl. revert ref. induction n as [|n IH]; intros ref Hr; simpl; [by left|].
  destruct (Z.ltb_spec lim ref); [|by left].
  destruct Hr as [->|[Hr Hio]]; [lia|].
  destruct (p (IR J ref)) eqn:Ep; [right; split_and!; done || lia|].
  apply IH. destruct (iw_prev _ W ref Hr) as [?|[? ?]]; [by left|right].
  split; [lia|congruence].
Qed.

Lemma chain_search_sound J o p lim :
  ir_wf J → isk_op o = false → 0 ≤ lim →
  let r := chain_search J o p lim in
  r = 0 ∨ REF_BIAS ≤ r < nins J ∧ io (IR J r) = o ∧ p (IR J r) = true.
Proof.
  intros W Ho Hl. destruct (cse_find_sound J o p lim (Z.to_nat (nins J)) (chain J o) W Ho Hl)
    as [?|(_ & ? & ? & ?)]; [by apply iw_ichain|by left|by right].
Qed.

(** Enough rounds: the search stops at the limit before the fuel runs out. *)
Lemma cse_find_fuel J p lim n m ref :
  ir_wf J → REF_BIAS ≤ ref < nins J ∨ ref = 0 → 0 ≤ lim →
  (Z.to_nat ref ≤ n)%nat → (n ≤ m)%nat → cse_find n J p lim ref = cse_find m J p lim ref.
Proof.
  intros W Hr Hl. revert m ref Hr. induction n as [|n IH]; intros m ref Hr Hn Hm.
  - assert (ref ≤ lim) by lia. destruct m; [done|]. simpl.
    by rewrite (proj2 (Z.ltb_ge _ _)) by lia.
  - destruct m as [|m]; [lia|]. simpl. destruct (Z.ltb_spec lim ref); [|done].
    destruct (p (IR J ref)); [done|]. destruct Hr as [Hr| ->]; [|lia].
    destruct (iw_prev _ W ref Hr) as [E|[E _]]; (apply IH; [|lia..]); lia.
Qed.

(** An instruction of the buffer with the same opcode and operands. *)
Lemma same_width J w x y :
  ir_wf J → fdom J w x → ins_ok J y → io y = io x →
  op1 y = op1 x → op2 y = op2 x → tyw (it y) = Some w.
Proof.
  intros W D Hy Ho E1 E2. destruct D as [Hop Hw Hok Hc _ _].
  unfold ins_ok in *. rewrite Hw in Hok. rewrite Ho, E1, E2 in Hy.
  destruct (decide (io x = IR_CONV)) as [Ec|Ec].
  { destruct (Hc Ec) as [Hm _]. rewrite Ec in *. simpl in *. destruct (proj2 Hok Hm) as (_ & -> & _).
    destruct (tyw (it y)); [by destruct (proj2 Hy Hm) as (_ & -> & _)|].
    destruct Hy as [?|[[_ ?]|[Hr Hz]]]; [done|congruence|]. destruct (proj2 Hok Hm) as (_ & _ & ?).
    by destruct (Hz (conv_srcw (op2 x))). }
  assert (zopnd J w (op1 x)) as Hz.
  { destruct (io x); simpl in *; try done; try apply Hok; left; apply Hok. }
  assert (∀ w', opnd J w (op1 x) → opnd J w' (op1 x) → w' = w) as Hf1.
  { intros w' [_ H1] [_ H2]. congruence. }
  assert (∀ w', opnd J w (op2 x) → opnd J w' (op2 x) → w' = w) as Hf2.
  { intros w' [_ H1] [_ H2]. congruence. }
  destruct (tyw (it y)) as [w'|] eqn:Hw'.
  - f_equal. destruct (op_shape (io x)) eqn:Hs.
    + destruct Hok, Hy. by apply Hf1.
    + destruct Hok, Hy. by apply Hf2.
    + destruct Hok, Hy. by apply Hf1.
    + destruct Hok, Hy. by apply Hf1.
    + destruct Hok, Hy. by apply Hf1.
    + by destruct (io x).
    + by destruct (io x).
  - destruct Hy as [Hy|[Hy|[_ Hy]]]; [congruence|by destruct Hy|]. by destruct (Hy w).
Qed.

Lemma sem_width ρ x y :
  io y = io x → tyw (it y) = tyw (it x) → (io x = IR_MOD → tyw (it x) = Some 32) →
  op1 y = op1 x → op2 y = op2 x → fold_op (io x) = true → ins_sem ρ y = ins_sem ρ x.
Proof.
  intros Ho Hw Hm E1 E2 Hop. unfold ins_sem. rewrite Ho, Hw, E1, E2.
  destruct (tyw (it x)) as [w|]; [|done].
  destruct (io x); try done. injection (Hm eq_refl) as ->. done.
Qed.

Lemma found_res J w r :
  ir_typed J → fdom J w (fins J) →
  REF_BIAS ≤ r < nins J → io (IR J r) = io (fins J) →
  op1 (IR J r) = op1 (fins J) → op2 (IR J r) = op2 (fins J) →
  res_ok J w (fins J) J r.
Proof.
  intros T D Hr Ho E1 E2. pose proof (ty_wf _ T) as W.
  assert (tyw (it (IR J r)) = Some w) as Hw.
  { eapply same_width; try done. by apply T. }
  pose proof (bo_nk _ (iw_buf _ W)). unfold REF_TRUE in *.
  constructor; [done|done| | |].
  - intros _. left. split; [unfold refs; lia|done].
  - intros ρ M. unfold holds. rewrite <-(sem_width ρ (fins J) (IR J r)); try done.
    + by apply (mo_ins _ _ M).
    + by rewrite Hw, (fd_w _ _ _ D).
    + intros Hm. rewrite (fd_w _ _ _ D). by destruct (fd_mod _ _ _ D Hm) as [-> _].
    + apply D.
  - intros ρ M _. by exists ρ.
Qed.

Lemma fold_op_notk o : fold_op o = true → isk_op o = false.
Proof. by destruct o. Qed.

Lemma cse_emit J J1 r1 :
  ir_wf J → lj_ir_nextins J = (J1, r1) → io (fins J1) = io (fins J).
Proof.
  intros W E. destruct (nextins_spec _ _ _ (iw_buf _ W) E) as (_ & _ & _ & _ & Hf).
  by destruct Hf as (_ & _ & -> & _).
Qed.

Lemma cse_res J w J' r :
  ir_typed J → fdom J w (fins J) →
  lj_opt_cse J = (J', r) → res_ok J w (fins J) J' r.
Proof.
  intros T D E. pose proof (ty_wf _ T) as W. pose proof (fold_op_notk _ (fd_op _ _ _ D)) as Hk.
  destruct (fdom_refs _ _ _ W D) as [R1 R2]. pose proof (iw_klim _ W).
  unfold refs, KLIM in *. unfold lj_opt_cse in E.
  match type of E with context [if negb (?f =? 0) then _ else _] => set (found := f) in E end.
  assert (found = 0 ∨ REF_BIAS ≤ found < nins J ∧ io (IR J found) = io (fins J) ∧
          same_op12 (fins J) (IR J found) = true) as Hf.
  { subst found. destruct (optflag J JIT_F_OPT_CSE); [|by left].
    apply chain_search_sound; [done|done|lia]. }
  destruct Hf as [->|(Hr & Ho & Hs)].
  - change (negb (0 =? 0)) with false in E. cbv iota in E.
    apply emit_res; [done|done|]. apply lj_ir_emit_spec; [done|done|].
    rewrite <-E. unfold lj_ir_emit. destruct (lj_ir_nextins J) as [J1 r1] eqn:En.
    by rewrite (cse_emit _ _ _ W En).
  - rewrite (proj2 (Z.eqb_neq _ 0)) in E by (unfold REF_BIAS in *; lia). simpl in E.
    injection E as <- <-. unfold same_op12 in Hs. bprop. by apply found_res.
Qed.

End FoldEngine.
