(* ===== verification/FoldLemmas.v ===== *)
(** * Lemmas shared by the proofs of the fold functions

    The values and the typing of the instructions that the operands refer to,
    and one lemma per way a fold function ends. *)

From stdpp Require Import base decidable list numbers option sets.
From Stdlib Require Import ZArith Lia.
From S2P Require Import Prelude Obj Ir IrWf IntOps IntFacts Fold IrSem FoldSpec FoldEngine.

Local Open Scope Z_scope.
Import Ir IrWf IntOps IntFacts Fold IrSem FoldSpec FoldEngine.

Module FoldLemmas.

Lemma irop_num_inj a b : irop_num a = irop_num b → a = b.
Proof. intros E. rewrite <-(irop_of_num a), <-(irop_of_num b). by rewrite E. Qed.

(** ** The instruction at a reference *)

Lemma inst_range J r :
  ir_typed J → refs J r → isk_op (io (IR J r)) = false → REF_BIAS ≤ r < nins J.
Proof.
  intros T [? ?] Hk. destruct (decide (REF_BIAS ≤ r)); [lia|].
  rewrite (iw_kop _ (ty_wf _ T)) in Hk by lia. done.
Qed.

Lemma const_range J r :
  ir_typed J → refs J r → isk_op (io (IR J r)) = true → nk J ≤ r < REF_BIAS.
Proof.
  intros T [? ?] Hk. destruct (decide (r < REF_BIAS)); [lia|].
  rewrite (iw_iop _ (ty_wf _ T)) in Hk by lia. done.
Qed.

Lemma inst_ssa J r :
  ir_typed J → refs J r → isk_op (io (IR J r)) = false → op_shape (io (IR J r)) ≠ ShOther →
  REF_BIAS ≤ r ∧ op1 (IR J r) < r ∧ op2 (IR J r) < r.
Proof.
  intros T Hr Hk Hs. pose proof (inst_range _ _ T Hr Hk). split; [lia|]. by apply T.
Qed.

Lemma inst_ok J r :
  ir_typed J → refs J r → isk_op (io (IR J r)) = false → ins_ok J (IR J r).
Proof. intros T Hr Hk. apply T. by apply inst_range. Qed.

Lemma sem_arith ρ x w v :
  tyw (it x) = Some w → ir_arith w (io x) (ρ (op1 x)) (ρ (op2 x)) = Some v →
  ins_sem ρ x = SVal v.
Proof.
  intros Hw Ha. unfold ins_sem. rewrite Hw. destruct (io x); try done; rewrite Ha; done.
Qed.

Lemma inst_val J ρ r w v :
  ir_typed J → models ρ J → opnd J w r → isk_op (io (IR J r)) = false →
  ir_arith w (io (IR J r)) (ρ (op1 (IR J r))) (ρ (op2 (IR J r))) = Some v → ρ r = v.
Proof.
  intros T M [Hr Hw] Hk Ha. pose proof (mo_ins _ _ M r (inst_range _ _ T Hr Hk)) as Hh.
  unfold holds in Hh. by rewrite (sem_arith ρ _ _ _ Hw Ha) in Hh.
Qed.

(** ** Constants *)

Lemma kint_val J ρ r :
  ir_typed J → models ρ J → refs J r → io (IR J r) = IR_KINT → ρ r = ii (IR J r).
Proof.
  intros T M Hr Ho. apply (mo_kint _ _ M); [|done]. apply const_range; [done|done|by rewrite Ho].
Qed.

Lemma kint_rng J r :
  ir_typed J → refs J r → io (IR J r) = IR_KINT →
  in_s 32 (ii (IR J r)) ∧ tyw (it (IR J r)) = Some 32 ∧ nk J ≤ r < REF_BIAS.
Proof.
  intros T Hr Ho. assert (nk J ≤ r < REF_BIAS) as Hk
    by (apply const_range; [done|done|by rewrite Ho]).
  destruct (iw_kint _ (ty_wf _ T) r Hk Ho) as [? ->]. done.
Qed.

Lemma kint_width J w r : ir_typed J → opnd J w r → io (IR J r) = IR_KINT → w = 32.
Proof.
  intros T [Hr Hw] Ho. destruct (kint_rng _ _ T Hr Ho) as (_ & E & _). congruence.
Qed.

Lemma kint64_rng J r :
  ir_typed J → refs J r → io (IR J r) = IR_KINT64 →
  in_u 64 (rawK J (IR J r)) ∧ tyw (it (IR J r)) = Some 64 ∧ nk J ≤ r < REF_BIAS.
Proof.
  intros T Hr Ho. assert (nk J ≤ r < REF_BIAS) as Hk
    by (apply const_range; [done|done|by rewrite Ho]).
  destruct (iw_kint64 _ (ty_wf _ T) r Hk Ho) as [[u Hu] ->]. split; [|done].
  unfold rawK. rewrite (k64_val_at _ _ _ Hu). exact (iw_k64_rng _ (ty_wf _ T) _ _ Hu).
Qed.

Lemma kint64_val J ρ r :
  ir_typed J → models ρ J → refs J r → io (IR J r) = IR_KINT64 →
  ρ r = i64 (rawK J (IR J r)).
Proof.
  intros T M Hr Ho. destruct (kint64_rng _ _ T Hr Ho) as (_ & _ & Hk).
  destruct (iw_kint64 _ (ty_wf _ T) r Hk Ho) as [[u Hu] _].
  rewrite (mo_kint64 _ _ M r u Hk Ho Hu). unfold rawK. by rewrite (k64_val_at _ _ _ Hu).
Qed.

Lemma kint64_width J w r : ir_typed J → opnd J w r → io (IR J r) = IR_KINT64 → w = 64.
Proof.
  intros T [Hr Hw] Ho. destruct (kint64_rng _ _ T Hr Ho) as (_ & E & _). congruence.
Qed.

(** A 64-bit operand is not a KINT, except for 0. *)
Lemma zopnd_kint J w r :
  ir_typed J → zopnd J w r → io (IR J r) = IR_KINT → w = 32 ∨ ii (IR J r) = 0.
Proof. intros T [H|(_ & _ & ?)] Ho; [left; by eapply kint_width|by right]. Qed.

(** [kval], the constant as an [int64_t]. *)
Lemma kval_val J ρ r :
  ir_typed J → models ρ J → refs J r → io (IR J r) ∈ [IR_KINT; IR_KINT64] →
  ρ r = kval J (IR J r).
Proof.
  intros T M Hr Ho. unfold kval. destruct (opeq_spec (io (IR J r)) IR_KINT) as [E|E].
  - by apply kint_val.
  - apply kint64_val; [done..|]. set_solver.
Qed.

(** ** Endings of fold functions *)

Lemma fdomz_set_fins J w x y : fdomz J w x → fdomz (set_fins y J) w x.
Proof. intros [[]|?]; [left; by constructor|by right]. Qed.

Lemma end_next J w x : rule_ok J w x (Ret J NEXTFOLD).
Proof. done. Qed.

Lemma end_ref J w x r :
  ir_typed J → is_guard (io x) = false → zopnd J w r →
  (∀ ρ, models ρ J → ins_sem ρ x = SVal (ρ r)) → rule_ok J w x (Ret J (REFFOLD r)).
Proof. intros T Hg Hz Hs _. split_and!; try done. by apply wstep_refl. Qed.

Lemma end_kint J w x k :
  ir_typed J → is_guard (io x) = false → w = 32 ∨ k = 0 → in_s 32 k →
  (∀ ρ, models ρ J → ins_sem ρ x = SVal k) → rule_ok J w x (Ret J (KINTFOLD k)).
Proof.
  intros T Hg Hz Hk Hs _. assert (i32 k = k) as E by (by apply wraps_id).
  simpl. rewrite E. split_and!; try done. by apply wstep_refl.
Qed.

Lemma end_cond J w x (c : bool) :
  ir_typed J → is_guard (io x) = true →
  (∀ ρ, models ρ J → ins_sem ρ x = if c then SPass else SFail) →
  rule_ok J w x (Ret J (CONDFOLD c)).
Proof.
  intros T Hg Hs. destruct c; intros _; [|done]. split_and!; try done. by apply wstep_refl.
Qed.

Lemma end_int64 J w x k :
  ir_typed J → is_guard (io x) = false → w = 64 → in_u 64 k →
  (∀ ρ, models ρ J → ins_sem ρ x = SVal (i64 k)) → rule_ok J w x (INT64FOLD J k).
Proof.
  intros T Hg -> Hk Hs. unfold INT64FOLD. destruct (lj_ir_kint64 J k) as [J' r] eqn:E.
  intros Hl. destruct (kint64_spec _ _ _ _ (ty_wf _ T) Hk E Hl) as [W X Hn HF Hr Ho Hv].
  assert (wstep J J') as S by (by apply const_step).
  assert (refs J' r) as Hr'.
  { pose proof (bo_nins _ (iw_buf _ W)). unfold refs, REF_FIRST in *. lia. }
  split_and!; try done.
  - left. split; [done|]. destruct (iw_kint64 _ W r Hr Ho) as [_ ->]. done.
  - intros ρ M. rewrite (mo_kint64 _ _ M r k Hr Ho Hv). apply Hs.
    apply (models_ext ρ J J'); [apply T|done|done].
Qed.

Lemma end_retry J w x y :
  ir_typed J → fdomz J w y → is_guard (io y) = is_guard (io x) →
  (∀ ρ, models ρ J → ins_sem ρ y = ins_sem ρ x) → meas_lt J y J x →
  rule_ok J w x (Ret (set_fins y J) RETRYFOLD).
Proof.
  intros T D Hg Hs Hm _. split_and!; try done.
  - by apply wstep_set_fins.
  - by apply fdomz_set_fins.
  - intros ρ M. apply Hs. by apply models_set_fins in M.
Qed.

(** What is known of a constant interned into [J']. *)
Record kcell (J J' : jit_State) (r : Z) (w k : Z) : Prop := {
  kc_step : wstep J J';
  kc_opnd : opnd J' w r;
  kc_ref : nk J' ≤ r < REF_BIAS;
  kc_io : io (IR J' r) = if w =? 32 then IR_KINT else IR_KINT64;
  kc_ii : w = 32 → ii (IR J' r) = k;
  kc_val ρ : models ρ J' → ρ r = k }.

Lemma kint_cell J y k J' r :
  ir_typed J → in_s 32 k → lj_ir_kint (set_fins y J) k = (J', r) → KLIM < nk J' →
  kcell J J' r 32 k ∧ fins J' = y ∧ fleft J' = fleft J ∧ fright J' = fright J.
Proof.
  intros T Hk E Hl. pose proof (typed_set_fins _ y T) as Ty.
  destruct (kint_spec _ _ _ _ (ty_wf _ Ty) Hk E Hl) as [W X Hn (? & ? & ?) Hr Ho Hv].
  assert (wstep (set_fins y J) J') as S by (by apply const_step).
  split; [|done]. constructor.
  - eapply wstep_trans; [by apply (wstep_set_fins J y)|done].
  - pose proof (bo_nins _ (iw_buf _ W)). unfold opnd, refs, REF_FIRST in *. split; [lia|].
    destruct (iw_kint _ W r Hr Ho) as [_ ->]. done.
  - done.
  - done.
  - done.
  - intros ρ M. by rewrite (mo_kint _ _ M).
Qed.

Lemma kint64_cell J y k J' r :
  ir_typed J → in_u 64 k → lj_ir_kint64 (set_fins y J) k = (J', r) → KLIM < nk J' →
  kcell J J' r 64 (i64 k) ∧ fins J' = y.
Proof.
  intros T Hk E Hl. pose proof (typed_set_fins _ y T) as Ty.
  destruct (kint64_spec _ _ _ _ (ty_wf _ Ty) Hk E Hl) as [W X Hn (? & ? & ?) Hr Ho Hv].
  assert (wstep (set_fins y J) J') as S by (by apply const_step).
  split; [|done]. constructor.
  - eapply wstep_trans; [by apply (wstep_set_fins J y)|done].
  - pose proof (bo_nins _ (iw_buf _ W)). unfold opnd, refs, REF_FIRST in *. split; [lia|].
    destruct (iw_kint64 _ W r Hr Ho) as [_ ->]. done.
  - done.
  - done.
  - done.
  - intros ρ M. by apply (mo_kint64 _ _ M r k).
Qed.

(** What has to be shown of the instruction [y] retried in [J']. *)
Definition retry_ok (J : jit_State) (w : Z) (x : IRIns) (J' : jit_State) (y : IRIns) : Prop :=
  fdomz J' w y ∧ is_guard (io y) = is_guard (io x) ∧
  (∀ ρ, models ρ J' → models ρ J → ins_sem ρ y = ins_sem ρ x) ∧ meas_lt J' y J x.

Lemma end_retry_at J w x J' y :
  ir_typed J → wstep J J' → retry_ok J w x J' y →
  ret_ok J w x (set_fins y J') RETRYFOLD.
Proof.
  intros T S (D & Hg & Hs & Hm). split_and!; try done.
  - by apply wstep_set_fins_r.
  - by apply fdomz_set_fins.
  - intros ρ M. apply models_set_fins in M. apply Hs; [done|].
    apply (models_ext ρ J J'); [apply T|apply S|done].
Qed.

Lemma end_op2_kint J w x y k :
  ir_typed J → in_s 32 k →
  (∀ J' r, kcell J J' r 32 k → retry_ok J w x J' (set_op2 r y)) →
  rule_ok J w x (Ret (fins_op2_kint k (set_fins y J)) RETRYFOLD).
Proof.
  intros T Hk H. unfold fins_op2_kint. destruct (lj_ir_kint _ k) as [J' r] eqn:E.
  intros Hl. destruct (kint_cell _ _ _ _ _ T Hk E Hl) as (C & Hf & _).
  unfold fins_op2. rewrite Hf. apply end_retry_at; [done|apply C|by apply H].
Qed.

Lemma end_op1_kint J w x y k :
  ir_typed J → in_s 32 k →
  (∀ J' r, kcell J J' r 32 k → retry_ok J w x J' (set_op1 r y)) →
  rule_ok J w x (Ret (fins_op1_kint k (set_fins y J)) RETRYFOLD).
Proof.
  intros T Hk H. unfold fins_op1_kint. destruct (lj_ir_kint _ k) as [J' r] eqn:E.
  intros Hl. destruct (kint_cell _ _ _ _ _ T Hk E Hl) as (C & Hf & _).
  unfold fins_op1. rewrite Hf. apply end_retry_at; [done|apply C|by apply H].
Qed.

Lemma end_op2_kint64 J w x y k :
  ir_typed J → in_u 64 k →
  (∀ J' r, kcell J J' r 64 (i64 k) → retry_ok J w x J' (set_op2 r y)) →
  rule_ok J w x (Ret (fins_op2_kint64 k (set_fins y J)) RETRYFOLD).
Proof.
  intros T Hk H. unfold fins_op2_kint64. destruct (lj_ir_kint64 _ k) as [J' r] eqn:E.
  intros Hl. destruct (kint64_cell _ _ _ _ _ T Hk E Hl) as (C & Hf).
  unfold fins_op2. rewrite Hf. apply end_retry_at; [done|apply C|by apply H].
Qed.

Lemma end_phi J w x y k : rule_ok J w x k → rule_ok J w x (PHIBARRIER y J k).
Proof. unfold PHIBARRIER. by destruct (irt_isphi (it y)). Qed.

(** ** Measures *)

Lemma mref_const r : r < REF_BIAS → mref r = 0%nat.
Proof. unfold mref. lia. Qed.
Lemma mref_lt a r : REF_BIAS ≤ r → a < r → (mref a < mref r)%nat.
Proof. unfold mref. lia. Qed.

Lemma minor_bound J x : (minor J x ≤ 5)%nat.
Proof. unfold minor. repeat case_test; lia. Qed.

(** A smaller class, or smaller references in the same class. *)
Lemma meas_class J' y J x : (op_class (io y) < op_class (io x))%nat → meas_lt J' y J x.
Proof. by left. Qed.
Lemma meas_refs J' y J x :
  (op_class (io y) ≤ op_class (io x))%nat →
  (mref (op1 y) + mref (op2 y) < mref (op1 x) + mref (op2 x))%nat → meas_lt J' y J x.
Proof.
  intros Hc Hm. destruct (decide (op_class (io y) = op_class (io x))); [right|left; lia].
  split; [done|]. unfold meas. pose proof (minor_bound J' y). lia.
Qed.

(** ** Operands of the instruction at a reference *)

Lemma zopnd_inst J w r : zopnd J w r → io (IR J r) ≠ IR_KINT → opnd J w r.
Proof. by intros [?|(_ & ? & _)]. Qed.

Lemma inst_shape J w r :
  ir_typed J → opnd J w r → isk_op (io (IR J r)) = false →
  match op_shape (io (IR J r)) with
  | ShBin => opnd J w (op1 (IR J r)) ∧ opnd J w (op2 (IR J r))
  | ShZBin => zopnd J w (op1 (IR J r)) ∧ opnd J w (op2 (IR J r))
  | ShNeg => opnd J w (op1 (IR J r)) ∧ refs J (op2 (IR J r))
  | ShUn => opnd J w (op1 (IR J r)) ∧ 0 ≤ op2 (IR J r) ≤ KLIM
  | ShShift => opnd J w (op1 (IR J r)) ∧ opnd J 32 (op2 (IR J r))
  | _ => True
  end.
Proof.
  intros T [Hr Hw] Hk. pose proof (inst_ok _ _ T Hr Hk) as Hok. unfold ins_ok in Hok.
  rewrite Hw in Hok. by destruct (op_shape (io (IR J r))).
Qed.

(** An instruction of [J] is typed when its opcode needs no side condition. *)
Lemma mk_fdom J w x :
  fold_op (io x) = true → tyw (it x) = Some w → ins_ok J x →
  io x ∉ [IR_CONV; IR_MOD] → (io x ∈ [IR_ADDOV; IR_SUBOV; IR_MULOV] → w = 32) → fdom J w x.
Proof. intros. constructor; try done; intros E; set_solver. Qed.

Lemma mk_zbin J w x :
  io x ∈ [IR_ADD; IR_SUB] → tyw (it x) = Some w →
  zopnd J w (op1 x) → zopnd J w (op2 x) → ir_typed J → fdomz J w x.
Proof.
  intros Ho Hw Z1 Z2 T.
  assert (∀ r, zopnd J w r → opnd J w r ∨ w = 64 ∧ kzero J r) as Hz.
  { intros r [H|H]; [by left|]. destruct (tyw_cases _ _ Hw) as [->| ->]; [left|by right].
    apply kzero_opnd; [apply T|done]. }
  assert (fold_op (io x) = true ∧ op_shape (io x) = ShZBin ∧ io x ∉ [IR_CONV; IR_MOD] ∧
    io x ∉ [IR_ADDOV; IR_SUBOV; IR_MULOV]) as (H1 & H2 & H3 & H4).
  { apply elem_of_cons in Ho as [->|Ho]; [|apply list_elem_of_singleton in Ho as ->];
      split_and!; try done; set_solver. }
  destruct (Hz _ Z2) as [O2|[-> K2]]; [left|by right].
  apply mk_fdom; try done. unfold ins_ok. by rewrite Hw, H2.
Qed.

Lemma mk_bin J w x :
  op_shape (io x) = ShBin → fold_op (io x) = true → io x ≠ IR_MOD →
  (io x ∈ [IR_ADDOV; IR_SUBOV; IR_MULOV] → w = 32) → tyw (it x) = Some w →
  opnd J w (op1 x) → opnd J w (op2 x) → fdomz J w x.
Proof.
  intros Hs Hf Hm Hov Hw O1 O2. left. apply mk_fdom; try done.
  - unfold ins_ok. by rewrite Hw, Hs.
  - rewrite not_elem_of_cons, list_elem_of_singleton. split; [|done].
    intros E. by rewrite E in Hs.
Qed.

Lemma mk_shift J w x :
  op_shape (io x) = ShShift → tyw (it x) = Some w →
  opnd J w (op1 x) → opnd J 32 (op2 x) → fdomz J w x.
Proof.
  intros Hs Hw O1 O2. left. apply mk_fdom; [by destruct (io x)|done| | |].
  - unfold ins_ok. by rewrite Hw, Hs.
  - destruct (io x); try done; set_solver.
  - destruct (io x); try done; set_solver.
Qed.

(** ** States with one more constant *)

Lemma kcell_zopnd J J' r w k r' w' : ir_typed J → kcell J J' r w k → zopnd J w' r' → zopnd J' w' r'.
Proof. intros T C. apply zopnd_ext; [apply T|apply C]. Qed.
Lemma kcell_opnd J J' r w k r' w' : kcell J J' r w k → opnd J w' r' → opnd J' w' r'.
Proof. intros C. apply opnd_ext, C. Qed.
Lemma kcell_typed J J' r w k : kcell J J' r w k → ir_typed J'.
Proof. intros C. apply C. Qed.

End FoldLemmas.
