(* ===== verification/FoldKfold.v ===== *)
(** * Constant folding

    The fold functions on constant operands keep their promise: the constant
    they return is the value of the instruction, and a comparison is dropped or
    fails according to its outcome. *)

From stdpp Require Import base decidable list numbers option sets.
From Stdlib Require Import ZArith Lia.
From S2P Require Import Prelude Obj Ir IrWf IntOps IntFacts Fold IrSem FoldSpec FoldEngine.
From S2P Require Import FoldLemmas.

Local Open Scope Z_scope.
Import Ir IrWf IntOps IntFacts Fold IrSem FoldSpec FoldEngine FoldLemmas.

Module FoldKfold.

(** ** The operands of the instruction *)

Lemma ctx_left J w :
  ir_typed J → fdom J w (fins J) → loaded J →
  refs J (op1 (fins J)) ∧ fleft J = IR J (op1 (fins J)) ∧
  key_left J = irop_num (io (fleft J)).
Proof.
  intros T D L. destruct (fdom_refs _ _ _ (ty_wf _ T) D) as [[H1 H2] _].
  rewrite (lo_left _ L) by done. split_and!; try done.
  unfold key_left. by rewrite (proj2 (Z.leb_le _ _)) by lia.
Qed.

Lemma ctx_right J :
  loaded J → refs J (op2 (fins J)) →
  fright J = IR J (op2 (fins J)) ∧ key_right J = irop_num (io (fright J)).
Proof.
  intros L [H1 H2]. rewrite (lo_right _ L) by done. split; [done|].
  unfold key_right. by rewrite (proj2 (Z.leb_le _ _)) by lia.
Qed.

(** Operands of the shapes. *)
Lemma fdom_bin J w x : fdom J w x → op_shape (io x) = ShBin → opnd J w (op1 x) ∧ opnd J w (op2 x).
Proof. intros [_ Hw Hok _ _ _] Hs. unfold ins_ok in Hok. by rewrite Hw, Hs in Hok. Qed.
Lemma fdom_zbin J w x :
  fdom J w x → op_shape (io x) = ShZBin →
  zopnd J w (op1 x) ∧ zopnd J w (op2 x) ∧ opnd J w (op2 x).
Proof.
  intros [_ Hw Hok _ _ _] Hs. unfold ins_ok in Hok. rewrite Hw, Hs in Hok.
  destruct Hok. split_and!; [done|by left|done].
Qed.
Lemma fdom_shift J w x :
  fdom J w x → op_shape (io x) = ShShift → opnd J w (op1 x) ∧ opnd J 32 (op2 x).
Proof. intros [_ Hw Hok _ _ _] Hs. unfold ins_ok in Hok. by rewrite Hw, Hs in Hok. Qed.
Lemma fdom_neg J w x :
  fdom J w x → op_shape (io x) = ShNeg → opnd J w (op1 x) ∧ refs J (op2 x).
Proof. intros [_ Hw Hok _ _ _] Hs. unfold ins_ok in Hok. by rewrite Hw, Hs in Hok. Qed.
Lemma fdom_un J w x :
  fdom J w x → op_shape (io x) = ShUn → opnd J w (op1 x) ∧ 0 ≤ op2 x ≤ KLIM.
Proof. intros [_ Hw Hok _ _ _] Hs. unfold ins_ok in Hok. by rewrite Hw, Hs in Hok. Qed.

(** The second operand is a reference. *)
Lemma fdom_right J w x :
  ir_typed J → fdom J w x → op_shape (io x) ∉ [ShUn; ShConv] → refs J (op2 x).
Proof.
  intros T D Hs. destruct D as [Hop Hw Hok _ _ _]. unfold ins_ok in Hok. rewrite Hw in Hok.
  destruct (op_shape (io x)) eqn:E.
  - apply Hok.
  - apply Hok.
  - apply Hok.
  - set_solver.
  - apply Hok.
  - set_solver.
  - by destruct (io x).
Qed.

Lemma pat_left J w A :
  ir_typed J → fdom J w (fins J) → loaded J → pat_ok (op A) (key_left J) →
  io (IR J (op1 (fins J))) = A.
Proof.
  intros T D L Hp. destruct (ctx_left J w T D L) as (_ & E & K). rewrite K, E in Hp.
  symmetry. by apply irop_num_inj.
Qed.
Lemma pat_right J A :
  loaded J → refs J (op2 (fins J)) → pat_ok (op A) (key_right J) →
  io (IR J (op2 (fins J))) = A.
Proof.
  intros L R Hp. destruct (ctx_right J L R) as (E & K). rewrite K, E in Hp.
  symmetry. by apply irop_num_inj.
Qed.

(** Start of the proof for a rule: [x] is the instruction. *)
Ltac fold_intro :=
  intros J w T D L Ho Hl Hr;
  destruct (ctx_left J w T D L) as (RL & EL & _); try rewrite EL in *;
  try (apply (pat_left J w) in Hl; [|assumption..]).
Ltac fold_right :=
  let RR := fresh "RR" in
  match goal with D : fdom ?J ?w _, T : ir_typed ?J, L : loaded ?J, Ho : io (fins ?J) = _ |- _ =>
    assert (refs J (op2 (fins J))) as RR
      by (apply (fdom_right J w); [exact T|exact D|rewrite Ho; set_solver]);
    destruct (ctx_right J L RR) as (ER & _); try rewrite ER in *
  end;
  match goal with Hr : pat_ok _ _ |- _ => try (apply pat_right in Hr; [|assumption..]) | _ => idtac end.

(** [o ∈ [a; b; ...]] by cases. *)
Ltac each H := repeat (apply elem_of_cons in H as [->|H]); [..|by apply elem_of_nil in H].

(** ** 32 bits *)

Lemma kfold_intarith_ok o :
  o ∈ [IR_ADD; IR_SUB; IR_MUL; IR_MOD; IR_NEG; IR_BAND; IR_BOR; IR_BXOR; IR_BSHL; IR_BSHR;
       IR_BSAR; IR_BROL; IR_BROR; IR_MIN; IR_MAX] →
  fn_ok o (op IR_KINT) (op IR_KINT) kfold_intarith.
Proof.
  intros Hin. fold_intro.
  assert (refs J (op2 (fins J))) as RR.
  { apply (fdom_right J w); [done|done|]. rewrite Ho. each Hin; set_solver. }
  destruct (ctx_right J L RR) as (ER & _). apply pat_right in Hr; [|done..].
  unfold kfold_intarith. rewrite EL, ER, Ho.
  destruct (kint_rng _ _ T RL Hl) as (K1 & _ & _). destruct (kint_rng _ _ T RR Hr) as (K2 & W2 & _).
  set (a := ii (IR J (op1 (fins J)))) in *. set (b := ii (IR J (op2 (fins J)))) in *.
  assert (∀ ρ, models ρ J → ρ (op1 (fins J)) = a ∧ ρ (op2 (fins J)) = b) as Hv
    by (intros; split; by apply kint_val).
  assert (w = 32) as ->.
  { destruct (fdom_pos _ _ _ D) as [->| ->]; [done|]. exfalso.
    assert (¬ opnd J 64 (op1 (fins J))) as N1 by (intros H; by apply (kint_width J) in H).
    assert (¬ opnd J 64 (op2 (fins J))) as N2 by (intros H; by apply (kint_width J) in H).
    pose proof (fd_ok _ _ _ D) as Hok. unfold ins_ok in Hok. rewrite (fd_w _ _ _ D), Ho in Hok.
    each Hin; simpl in Hok; tauto. }
  assert (is_guard (io (fins J)) = false) as Hg by (rewrite Ho; each Hin; done).
  destruct (decide (o = IR_MOD)) as [->|Hm].
  - destruct (fd_mod _ _ _ D Ho) as [_ Hnz].
    assert (b ≠ 0) as Hb0.
    { intros E. apply Hnz. destruct (kint_rng _ _ T RR Hr) as (_ & _ & ?). by unfold kzero. }
    simpl. rewrite uj_math_modi_floor by done.
    apply end_kint; [done|done|by left|by apply mod_range|].
    intros ρ M. destruct (Hv ρ M) as [E1 E2]. unfold ins_sem. rewrite (fd_w _ _ _ D), Ho.
    simpl. by rewrite E1, E2.
  - assert (∃ v, ir_arith 32 o a b = Some v) as [v Hv'] by (each Hin; simpl; eauto; done).
    rewrite (kfold_intop_arith o a b v) by (done || (each Hin; done)).
    assert (∀ ρ, models ρ J → ins_sem ρ (fins J) = SVal v) as Hs.
    { intros ρ M. destruct (Hv ρ M) as [E1 E2]. apply (sem_arith _ _ 32); [apply D|].
      by rewrite Ho, E1, E2. }
    apply end_kint; [done|done|by left| |done].
    rewrite <-(kfold_intop_arith o a b v) by (done || (each Hin; done)).
    pose proof (count_range 32 b ltac:(by left)) as Hc.
    clear - Hin K1 K2 Hm Hc. each Hin; simpl; try done; try (by apply wraps_range);
      first [by apply in_s_land|by apply in_s_lor|by apply in_s_lxor
            |apply in_s_shiftr; [done|apply Hc|done]|case_test; done].
Qed.

(** ** Overflow-checking arithmetic through numbers *)

(** Out of the range of [int32_t], the number has an exponent of 31 or more and
    its conversion gives the smallest integer. *)
Lemma big_num2int s e r :
  (s = 0 ∨ s = 1) → 31 ≤ e ≤ 62 → 0 ≤ r ≤ 2 ^ 52 →
  Obj.lj_num2int (s * 2 ^ 63 + (e + 1023) * 2 ^ 52 + r) = - 2 ^ 31.
Proof.
  intros Hs He Hr. set (n := s * 2 ^ 63 + (e + 1023) * 2 ^ 52 + r).
  assert (Obj.num_exp n = if r =? 2 ^ 52 then e + 1024 else e + 1023) as Hexp.
  { unfold Obj.num_exp, n. change (2 ^ 63) with (2048 * 2 ^ 52). change (2 ^ 11) with 2048.
    change (2 ^ 52) with 4503599627370496 in *.
    destruct (Z.eqb_spec r 4503599627370496); dlia. }
  pose proof (Z.mod_pos_bound n (2 ^ 52) ltac:(lia)) as Hm.
  unfold Obj.lj_num2int. rewrite Hexp.
  set (E := (if r =? 2 ^ 52 then e + 1024 else e + 1023) - 1023).
  assert (31 ≤ E ≤ 63) as HE by (unfold E; case_test; lia).
  rewrite (proj2 (Z.ltb_ge E 0)) by lia.
  set (m := Obj.num_mant n + 2 ^ 52). assert (2 ^ 52 ≤ m) by (unfold m, Obj.num_mant; lia).
  assert (2 ^ 31 ≤ if E <=? 52 then m / 2 ^ (52 - E) else m * 2 ^ (E - 52)) as Ha.
  { destruct (Z.leb_spec E 52).
    - apply Z.div_le_lower_bound; [apply Z.pow_pos_nonneg; lia|].
      rewrite <-Z.pow_add_r by lia. transitivity (2 ^ 52); [apply Z.pow_le_mono_r; lia|done].
    - pose proof (Z.pow_pos_nonneg 2 (E - 52)). nia. }
  set (a := if E <=? 52 then _ else _) in *. case_bool_decide as Hin; [|done].
  unfold in_s in Hin. simpl in Hin. change (2 ^ 31) with 2147483648 in *. case_test; lia.
Qed.

Lemma ov_out p :
  ¬ in_s 32 p → - 2 ^ 62 ≤ p ≤ 2 ^ 62 →
  Obj.num_eq (num_of_int p) (Obj.int2num (Obj.lj_num2int (num_of_int p))) = false.
Proof.
  intros Hp Hb. unfold in_s in Hp. simpl in Hp.
  assert (∃ s r, let e := Z.log2 (Z.abs p) in
    num_of_int p = s * 2 ^ 63 + (e + 1023) * 2 ^ 52 + r ∧ s = (if p <? 0 then 1 else 0) ∧
    0 ≤ r ≤ 2 ^ 52 ∧ (e = 31 → r = 0 → Z.abs p = 2 ^ 31)) as (s & r & E & Hs & Hr & H31).
  { unfold num_of_int. set (a := Z.abs p). set (e := Z.log2 a).
    destruct (Z.log2_spec a ltac:(lia)) as [Hlo Hhi]. fold e in Hlo, Hhi.
    assert (0 ≤ e) by apply Z.log2_nonneg. rewrite Z.pow_succ_r in Hhi by done.
    exists (if p <? 0 then 1 else 0). destruct (Z.leb_spec e 52) as [He|He].
    - assert (2 ^ e * 2 ^ (52 - e) = 2 ^ 52) by (rewrite <-Z.pow_add_r by lia; f_equal; lia).
      assert (0 < 2 ^ (52 - e)) by (apply Z.pow_pos_nonneg; lia).
      exists (a * 2 ^ (52 - e) - 2 ^ 52). unfold Obj.int2num. fold a. fold e.
      rewrite (proj2 (Z.eqb_neq p 0)) by lia.
      split; [destruct (p <? 0); lia|]. split; [done|]. split; [nia|]. intros -> ?. nia.
    - set (d := 2 ^ (e - 52)). assert (0 < d) by (apply Z.pow_pos_nonneg; lia).
      assert (2 ^ e = d * 2 ^ 52) by (unfold d; rewrite <-Z.pow_add_r by lia; f_equal; lia).
      assert (2 ^ 52 ≤ a / d < 2 * 2 ^ 52).
      { split; [apply Z.div_le_lower_bound; lia|apply Z.div_lt_upper_bound; lia]. }
      set (q := if _ || _ then a / d + 1 else a / d).
      assert (2 ^ 52 ≤ q ≤ 2 * 2 ^ 52) by (unfold q; case_test; lia).
      exists (q - 2 ^ 52). split; [destruct (p <? 0); lia|]. split; [done|]. lia. }
  assert (31 ≤ Z.log2 (Z.abs p) ≤ 62) as He.
  { change (2 ^ 62) with 4611686018427387904 in Hb. split.
    - apply Z.log2_le_pow2; lia.
    - change 62 with (Z.log2 4611686018427387904). apply Z.log2_le_mono. lia. }
  cbv zeta in E, H31. rewrite E, big_num2int by (destruct (p <? 0); lia || auto).
  apply not_true_iff_false. unfold Obj.num_eq. intros H. bprop.
  match goal with H : _ ∨ _ |- _ => destruct H as [H|H] end; bprop.
  - change (Obj.int2num (- 2 ^ 31)) with (1 * 2 ^ 63 + 1054 * 2 ^ 52) in *.
    change (2 ^ 63) with (2048 * 2 ^ 52) in *. change (2 ^ 52) with 4503599627370496 in *.
    assert (Z.log2 (Z.abs p) = 31 ∧ r = 0 ∧ p < 0) as (E1 & E2 & ?).
    { subst s. destruct (Z.ltb_spec p 0); lia. }
    specialize (H31 E1 E2). lia.
  - done.
Qed.

Lemma kfold_intovarith_val o a b p :
  o ∈ [IR_ADDOV; IR_SUBOV; IR_MULOV] → in_s 32 a → in_s 32 b → ir_ov o a b = Some p →
  let n := foldarith_int o a b in
  let k := Obj.lj_num2int n in
  Obj.num_eq n (Obj.int2num k) = bool_decide (in_s 32 p) ∧ (in_s 32 p → k = p).
Proof.
  intros Ho Ha Hb Hp n k.
  assert (- 2 ^ 62 ≤ p ≤ 2 ^ 62) as Hbd.
  { unfold in_s in *. simpl in *. change (2 ^ 62) with 4611686018427387904.
    each Ho; simpl in Hp; injection Hp as <-; nia. }
  assert (n = num_of_int p ∨ n = 2 ^ 63 ∧ p = 0) as Hn.
  { subst n. each Ho; simpl in *; injection Hp as <-; try by left.
    destruct (Z.eqb_spec (a * b) 0) as [->|]; simpl; [|by left]. case_test; [right|left]; done. }
  case_bool_decide as Hin.
  - assert (num_of_int p = Obj.int2num p) as Ei.
    { unfold num_of_int. destruct (Z.leb_spec (Z.log2 (Z.abs p)) 52) as [|Hx]; [done|].
      exfalso. unfold in_s in Hin. simpl in Hin.
      assert (Z.log2 (Z.abs p) ≤ Z.log2 (2 ^ 31)) by (apply Z.log2_le_mono; lia).
      rewrite Z.log2_pow2 in * by lia. lia. }
    destruct Hn as [Hn|[Hn ->]].
    + subst k. rewrite Hn, Ei, Obj.num2int_int2num by done. split; [|done].
      apply Obj.num_eq_refl. by apply Obj.int2num_notnan.
    + subst k. rewrite Hn. done.
  - destruct Hn as [Hn|[_ ->]]; [|by destruct Hin]. subst k. rewrite Hn.
    split; [by apply ov_out|done].
Qed.

Lemma kfold_intovarith_ok o :
  o ∈ [IR_ADDOV; IR_SUBOV; IR_MULOV] → fn_ok o (op IR_KINT) (op IR_KINT) kfold_intovarith.
Proof.
  intros Hin. fold_intro.
  assert (op_shape (io (fins J)) = ShBin) as Hs by (rewrite Ho; each Hin; done).
  destruct (fdom_bin _ _ _ D Hs) as [O1 O2]. destruct (ctx_right J L (proj1 O2)) as (ER & _).
  apply pat_right in Hr; [|done|apply O2].
  destruct (kint_rng _ _ T RL Hl) as (K1 & _ & _).
  destruct (kint_rng _ _ T (proj1 O2) Hr) as (K2 & _ & _).
  assert (w = 32) as -> by (by eapply kint_width).
  unfold kfold_intovarith. rewrite EL, ER, Ho.
  assert (∃ p, ir_ov o (ii (IR J (op1 (fins J)))) (ii (IR J (op2 (fins J)))) = Some p)
    as [p Hp] by (each Hin; simpl; eauto).
  destruct (kfold_intovarith_val _ _ _ _ Hin K1 K2 Hp) as [-> Hk].
  assert (∀ ρ, models ρ J →
    ins_sem ρ (fins J) = if bool_decide (in_s 32 p) then SVal p else SFail) as Hsem.
  { intros ρ M. unfold ins_sem. rewrite (fd_w _ _ _ D), Ho.
    rewrite (kint_val _ _ _ T M RL Hl), (kint_val _ _ _ T M (proj1 O2) Hr).
    each Hin; simpl in *; injection Hp as ->; done. }
  case_bool_decide as Hb; simpl; [|done].
  rewrite Hk by done. apply end_kint; try done; [|by left]. rewrite Ho. each Hin; done.
Qed.

(** ** Unary operations *)

(** A unary instruction has no right operand. *)
Lemma kfold_bnot_ok : fn_ok IR_BNOT (op IR_KINT) none kfold_bnot.
Proof.
  fold_intro. destruct (fdom_un _ _ _ D ltac:(by rewrite Ho)) as [O1 _].
  destruct (kint_rng _ _ T RL Hl) as (K1 & _ & _).
  assert (w = 32) as -> by (by eapply kint_width). unfold kfold_bnot. rewrite EL.
  apply end_kint; [done|by rewrite Ho|by left|by apply in_s_lnot|].
  intros ρ M. apply (sem_arith _ _ 32); [apply D|]. rewrite Ho. simpl.
  by rewrite (kint_val _ _ _ T M RL Hl).
Qed.

Lemma kfold_bswap_ok : fn_ok IR_BSWAP (op IR_KINT) none kfold_bswap.
Proof.
  fold_intro. destruct (fdom_un _ _ _ D ltac:(by rewrite Ho)) as [O1 _].
  assert (w = 32) as -> by (by eapply kint_width). unfold kfold_bswap. rewrite EL.
  apply end_kint; [done|by rewrite Ho|by left|by apply wraps_range|].
  intros ρ M. apply (sem_arith _ _ 32); [apply D|]. rewrite Ho. simpl.
  by rewrite (kint_val _ _ _ T M RL Hl).
Qed.

Lemma kfold_bnot64_ok : fn_ok IR_BNOT (op IR_KINT64) none kfold_bnot64.
Proof.
  fold_intro. destruct (fdom_un _ _ _ D ltac:(by rewrite Ho)) as [O1 _].
  unfold kfold_bnot64. rewrite EL.
  apply end_int64; [done|by rewrite Ho|by eapply kint64_width|by apply wrapu_range|].
  intros ρ M. apply (sem_arith _ _ w); [apply D|]. rewrite Ho. simpl.
  rewrite (kint64_val _ _ _ T M RL Hl), i64_u64. unfold i64. by rewrite wraps_lnot.
Qed.

Lemma kfold_bswap64_ok : fn_ok IR_BSWAP (op IR_KINT64) none kfold_bswap64.
Proof.
  fold_intro. destruct (fdom_un _ _ _ D ltac:(by rewrite Ho)) as [O1 _].
  assert (w = 64) as -> by (by eapply kint64_width).
  destruct (kint64_rng _ _ T RL Hl) as (K1 & _ & _). unfold kfold_bswap64. rewrite EL.
  apply end_int64; [done|by rewrite Ho|done|apply (bswap_range 8)|].
  intros ρ M. apply (sem_arith _ _ 64); [apply D|]. rewrite Ho. unfold ir_arith.
  rewrite (kint64_val _ _ _ T M RL Hl). unfold i64 at 1.
  rewrite wrapu_wraps, wrapu_id by done. done.
Qed.

(** ** Comparisons *)

Lemma kfold_intcomp_ok o :
  o ∈ [IR_LT; IR_GE; IR_LE; IR_GT; IR_ULT; IR_UGE; IR_ULE; IR_UGT] →
  fn_ok o (op IR_KINT) (op IR_KINT) kfold_intcomp.
Proof.
  intros Hin. fold_intro.
  assert (op_shape (io (fins J)) = ShBin) as Hs by (rewrite Ho; each Hin; done).
  destruct (fdom_bin _ _ _ D Hs) as [O1 O2]. destruct (ctx_right J L (proj1 O2)) as (ER & _).
  apply pat_right in Hr; [|done|apply O2].
  destruct (kint_rng _ _ T RL Hl) as (K1 & _ & _).
  destruct (kint_rng _ _ T (proj1 O2) Hr) as (K2 & _ & _).
  assert (w = 32) as -> by (by eapply kint_width).
  unfold kfold_intcomp. rewrite EL, ER.
  unfold i32. rewrite !wraps_id by done.
  assert (∀ ρ, models ρ J → ins_sem ρ (fins J) =
    match ir_cond 32 o (ii (IR J (op1 (fins J)))) (ii (IR J (op2 (fins J)))) with
    | Some true => SPass | _ => SFail end) as Hsem.
  { intros ρ M. unfold ins_sem. rewrite (fd_w _ _ _ D), Ho.
    rewrite (kint_val _ _ _ T M RL Hl), (kint_val _ _ _ T M (proj1 O2) Hr).
    each Hin; simpl; case_test; done. }
  rewrite Ho. each Hin; (apply end_cond; [done|by rewrite Ho|exact Hsem]).
Qed.

Lemma kfold_int64comp_ok o :
  o ∈ [IR_LT; IR_GE; IR_LE; IR_GT; IR_ULT; IR_UGE; IR_ULE; IR_UGT] →
  fn_ok o (op IR_KINT64) (op IR_KINT64) kfold_int64comp.
Proof.
  intros Hin. fold_intro.
  assert (op_shape (io (fins J)) = ShBin) as Hs by (rewrite Ho; each Hin; done).
  destruct (fdom_bin _ _ _ D Hs) as [O1 O2]. destruct (ctx_right J L (proj1 O2)) as (ER & _).
  apply pat_right in Hr; [|done|apply O2].
  destruct (kint64_rng _ _ T RL Hl) as (K1 & _ & _).
  destruct (kint64_rng _ _ T (proj1 O2) Hr) as (K2 & _ & _).
  assert (w = 64) as -> by (by eapply kint64_width).
  unfold kfold_int64comp. rewrite EL, ER.
  assert (∀ ρ, models ρ J → ins_sem ρ (fins J) =
    match ir_cond 64 o (i64 (rawK J (IR J (op1 (fins J))))) (i64 (rawK J (IR J (op2 (fins J))))) with
    | Some true => SPass | _ => SFail end) as Hsem.
  { intros ρ M. unfold ins_sem. rewrite (fd_w _ _ _ D), Ho.
    rewrite (kint64_val _ _ _ T M RL Hl), (kint64_val _ _ _ T M (proj1 O2) Hr).
    each Hin; simpl; case_test; done. }
  assert (∀ u, in_u 64 u → wrapu 64 (i64 u) = u) as Hu.
  { intros u ?. unfold i64. by rewrite wrapu_wraps, wrapu_id. }
  rewrite Ho. each Hin; apply end_cond; try done; try (by rewrite Ho); simpl in Hsem;
    rewrite ?Hu in Hsem by done; exact Hsem.
Qed.

(** Nothing is below 0, unsigned. *)
Lemma kfold_intcomp0_ok : fn_ok IR_UGE any (op IR_KINT) kfold_intcomp0.
Proof.
  fold_intro. destruct (fdom_bin _ _ _ D ltac:(by rewrite Ho)) as [O1 O2].
  destruct (ctx_right J L (proj1 O2)) as (ER & _). apply pat_right in Hr; [|done|apply O2].
  unfold kfold_intcomp0. rewrite ER. destruct (Z.eqb_spec (ii (IR J (op2 (fins J)))) 0) as [E|]; [|done].
  apply (end_cond J w _ true); [done|by rewrite Ho|].
  intros ρ M. unfold ins_sem. rewrite (fd_w _ _ _ D), Ho.
  rewrite (kint_val _ _ _ T M (proj1 O2) Hr), E. simpl. destruct (fdom_pos _ _ _ D) as [->| ->];
    by rewrite (proj2 (Z.leb_le _ _)) by (apply wrapu_range; lia).
Qed.

Lemma kfold_int64comp0_ok : fn_ok IR_UGE any (op IR_KINT64) kfold_int64comp0.
Proof.
  fold_intro. destruct (fdom_bin _ _ _ D ltac:(by rewrite Ho)) as [O1 O2].
  destruct (ctx_right J L (proj1 O2)) as (ER & _). apply pat_right in Hr; [|done|apply O2].
  unfold kfold_int64comp0. rewrite ER.
  destruct (Z.eqb_spec (rawK J (IR J (op2 (fins J)))) 0) as [E|]; [|done].
  apply (end_cond J w _ true); [done|by rewrite Ho|].
  intros ρ M. unfold ins_sem. rewrite (fd_w _ _ _ D), Ho.
  rewrite (kint64_val _ _ _ T M (proj1 O2) Hr), E. simpl. destruct (fdom_pos _ _ _ D) as [->| ->];
    by rewrite (proj2 (Z.leb_le _ _)) by (apply wrapu_range; lia).
Qed.

(** Equal constants are the same reference, different ones are not. *)
Lemma const_eq J ρ r1 r2 k :
  ir_typed J → models ρ J → refs J r1 → refs J r2 → k ∈ [IR_KINT; IR_KINT64] →
  io (IR J r1) = k → io (IR J r2) = k → (r1 =? r2) = (ρ r1 =? ρ r2).
Proof.
  intros T M R1 R2 Hk E1 E2. destruct (Z.eqb_spec r1 r2) as [->|Hne]; [by rewrite Z.eqb_refl|].
  symmetry. apply Z.eqb_neq. intros Hv. apply Hne. pose proof (ty_wf _ T) as W. each Hk.
  - destruct (kint_rng _ _ T R1 E1) as (_ & _ & ?). destruct (kint_rng _ _ T R2 E2) as (_ & _ & ?).
    apply (iw_kuniq _ W); [done|done|rewrite E1; unfold keyed; set_solver|congruence|].
    by rewrite <-(kint_val _ _ _ T M R1 E1), <-(kint_val _ _ _ T M R2 E2).
  - destruct (kint64_rng _ _ T R1 E1) as (U1 & _ & K1).
    destruct (kint64_rng _ _ T R2 E2) as (U2 & _ & K2).
    apply (iw_kuniq _ W); [done|done|rewrite E1; unfold keyed; set_solver|congruence|].
    destruct (iw_kint64 _ W _ K1 E1) as [[u1 A1] _]. destruct (iw_kint64 _ W _ K2 E2) as [[u2 A2] _].
    rewrite (mo_kint64 _ _ M _ _ K1 E1 A1), (mo_kint64 _ _ M _ _ K2 E2 A2) in Hv.
    apply (f_equal u64) in Hv. rewrite !u64_i64 in Hv. unfold u64 in Hv.
    rewrite !wrapu_id in Hv by (by eapply (iw_k64_rng _ W)). subst u2.
    by eapply k64_at_inj; [apply W|..].
Qed.

Lemma kfold_kref_ok o k :
  o ∈ [IR_EQ; IR_NE] → k ∈ [IR_KINT; IR_KINT64] → fn_ok o (op k) (op k) kfold_kref.
Proof.
  intros Hin Hk. fold_intro.
  assert (op_shape (io (fins J)) = ShBin) as Hs by (rewrite Ho; each Hin; done).
  destruct (fdom_bin _ _ _ D Hs) as [O1 O2].
  apply pat_right in Hr; [|done|apply O2]. unfold kfold_kref.
  apply end_cond; [done|rewrite Ho; each Hin; done|]. intros ρ M.
  rewrite (const_eq J ρ _ _ k T M RL (proj1 O2) Hk Hl Hr).
  unfold ins_sem. rewrite (fd_w _ _ _ D), Ho.
  destruct (ρ (op1 (fins J)) =? ρ (op2 (fins J))) eqn:E; each Hin; simpl; by rewrite E.
Qed.

(** ** 64 bits *)

Lemma fold_kfold_int64arith_ok o :
  o ∈ [IR_ADD; IR_SUB; IR_MUL; IR_BAND; IR_BOR; IR_BXOR] →
  fn_ok o (op IR_KINT64) (op IR_KINT64) fold_kfold_int64arith.
Proof.
  intros Hin. fold_intro.
  assert (refs J (op2 (fins J))) as RR.
  { apply (fdom_right J w); [done|done|]. rewrite Ho. clear -Hin. each Hin; set_solver. }
  destruct (ctx_right J L RR) as (ER & _). apply pat_right in Hr; [|done..].
  destruct (kint64_rng _ _ T RL Hl) as (K1 & W1 & _). destruct (kint64_rng _ _ T RR Hr) as (K2 & W2 & _).
  assert (w = 64) as ->.
  { destruct (fdom_pos _ _ _ D) as [->| ->]; [|done]. exfalso.
    pose proof (fd_ok _ _ _ D) as Hok. unfold ins_ok in Hok. rewrite (fd_w _ _ _ D), Ho in Hok.
    assert (opnd J 32 (op1 (fins J))) as [_ ?]; [|congruence].
    clear -Hok Hin T. each Hin; simpl in Hok; try apply Hok; apply zopnd_32; apply T || apply Hok. }
  unfold fold_kfold_int64arith. rewrite EL, ER, Ho.
  apply end_int64; [done|rewrite Ho; clear -Hin; each Hin; done|done|by apply kfold_int64arith_rng|].
  intros ρ M. apply (sem_arith _ _ 64); [apply D|].
  rewrite Ho, (kint64_val _ _ _ T M RL Hl), (kint64_val _ _ _ T M RR Hr).
  assert (∀ a b, ∃ v, ir_arith 64 o a b = Some v) as Hex by (clear -Hin; each Hin; simpl; eauto).
  destruct (Hex (i64 (rawK J (IR J (op1 (fins J))))) (i64 (rawK J (IR J (op2 (fins J)))))) as [v Hv].
  rewrite Hv. f_equal. symmetry. by apply kfold_int64arith_arith.
Qed.

Lemma lor_u64 a b : in_u 64 a → in_u 64 b → in_u 64 (Z.lor a b).
Proof.
  intros Ha Hb. apply (kfold_int64arith_rng IR_BOR a b); [done|done|]. set_solver.
Qed.
Lemma shiftr_u64 a n : in_u 64 a → 0 ≤ n → in_u 64 (Z.shiftr a n).
Proof.
  unfold in_u. intros Ha Hn. rewrite Z.shiftr_div_pow2 by done.
  pose proof (Z.pow_pos_nonneg 2 n). split; [apply Z.div_pos; lia|].
  apply Z.div_lt_upper_bound; [lia|]. nia.
Qed.

Lemma kfold_int64shift_ok o :
  o ∈ [IR_BSHL; IR_BSHR; IR_BSAR; IR_BROL; IR_BROR] →
  fn_ok o (op IR_KINT64) (op IR_KINT) kfold_int64shift.
Proof.
  intros Hin. fold_intro.
  assert (op_shape (io (fins J)) = ShShift) as Hs by (rewrite Ho; clear -Hin; each Hin; done).
  destruct (fdom_shift _ _ _ D Hs) as [O1 O2]. destruct (ctx_right J L (proj1 O2)) as (ER & _).
  apply pat_right in Hr; [|done|apply O2].
  destruct (kint64_rng _ _ T RL Hl) as (K1 & _ & _).
  assert (w = 64) as -> by (by eapply kint64_width).
  unfold kfold_int64shift. rewrite EL, ER, Ho. set (k := rawK J (IR J (op1 (fins J)))) in *.
  set (n := ii (IR J (op2 (fins J)))) in *.
  pose proof (count_range 64 n ltac:(by right)) as Hn. change (64 - 1) with 63 in Hn.
  assert (0 ≤ Z.land (- Z.land n 63) 63) by (apply Z.land_nonneg; lia).
  assert (wrapu 64 k = k) as Hk by (by apply wrapu_id).
  assert (wrapu 64 (i64 k) = k) as Hk' by (unfold i64; by rewrite wrapu_wraps).
  apply end_int64; [done|rewrite Ho; clear -Hin; each Hin; done|done| |].
  - clear -Hin K1 Hn H. each Hin; simpl; try by apply wrapu_range.
    + apply shiftr_u64; [done|apply Hn].
    + apply lor_u64; [by apply wrapu_range|by apply shiftr_u64].
    + apply lor_u64; [by apply wrapu_range|apply shiftr_u64; [done|apply Hn]].
  - intros ρ M. apply (sem_arith _ _ 64); [apply D|].
    rewrite Ho, (kint64_val _ _ _ T M RL Hl), (kint_val _ _ _ T M (proj1 O2) Hr).
    fold k. fold n. clear -Hin Hn Hk Hk'. each Hin; unfold ir_arith; change (64 - 1) with 63; f_equal.
    + rewrite i64_u64. apply wraps_cong. rewrite !Z.shiftl_mul_pow2 by apply Hn.
      rewrite Z.mul_mod by lia. unfold i64. rewrite wraps_mod by lia. by rewrite <-Z.mul_mod by lia.
    + by rewrite Hk'.
    + rewrite i64_u64. unfold i64. symmetry. apply wraps_id; [lia|].
      apply in_s_shiftr; [lia|apply Hn|by apply wraps_range].
    + rewrite <-rolw_rotl by (done || by right). by rewrite Hk'.
    + rewrite <-rorw_rotl by (done || by right). by rewrite Hk'.
Qed.

End FoldKfold.
