(* ===== verification/FoldAlg.v ===== *)
(** * Algebraic simplifications of integers

    The fold functions for sums, products, negation and modulo keep their
    promise. *)

From stdpp Require Import base decidable list numbers option sets.
From Stdlib Require Import ZArith Lia.
From S2P Require Import Prelude Obj Ir IrWf IntOps IntFacts Fold IrSem FoldSpec FoldEngine.
From S2P Require Import FoldLemmas FoldKfold.

Local Open Scope Z_scope.
Import Ir IrWf IntOps IntFacts Fold IrSem FoldSpec FoldEngine FoldLemmas FoldKfold.

Module FoldAlg.

(** The widths are positive. *)
Lemma fdom_wpos J w x : fdom J w x → 0 < w.
Proof. intros D. destruct (fdom_pos _ _ _ D); lia. Qed.

(** Negation at a reference. *)
Lemma inst_neg J ρ w r :
  ir_typed J → zopnd J w r → io (IR J r) = IR_NEG →
  opnd J w (op1 (IR J r)) ∧ REF_BIAS ≤ r ∧ op1 (IR J r) < r ∧
  (models ρ J → ρ r = wraps w (- ρ (op1 (IR J r)))).
Proof.
  intros T Hz Ho. assert (opnd J w r) as O by (apply zopnd_inst; [done|by rewrite Ho]).
  pose proof (inst_shape J w r T O ltac:(by rewrite Ho)) as Hs. rewrite Ho in Hs. simpl in Hs.
  destruct (inst_ssa J r T (proj1 O)) as (? & ? & ?); [by rewrite Ho..|].
  split_and!; try done; [apply Hs|]. intros M.
  apply (inst_val J ρ r w); [done|done|done|by rewrite Ho|]. by rewrite Ho.
Qed.

Lemma shortcut_leftleft_ok o r :
  (o = IR_NEG ∧ r = any) ∨ (o = IR_BNOT ∧ r = none) ∨ (o = IR_BSWAP ∧ r = none) →
  fn_ok o (op o) r shortcut_leftleft.
Proof.
  intros Hin. fold_intro. unfold shortcut_leftleft. apply end_phi. rewrite EL.
  pose proof (fdom_wpos _ _ _ D).
  assert (opnd J w (op1 (fins J))) as O.
  { destruct Hin as [[-> _]|[[-> _]|[-> _]]]; [destruct (fdom_neg _ _ _ D)|destruct (fdom_un _ _ _ D)
      |destruct (fdom_un _ _ _ D)]; by rewrite ?Ho. }
  set (r1 := op1 (fins J)) in *.
  assert (opnd J w (op1 (IR J r1))) as O2.
  { pose proof (inst_shape J w r1 T O) as Hs. rewrite Hl in Hs.
    destruct Hin as [[-> _]|[[-> _]|[-> _]]]; by apply Hs. }
  apply end_ref; [done|rewrite Ho; by destruct Hin as [[-> _]|[[-> _]|[-> _]]]|by left|].
  intros ρ M. pose proof (opnd_rng _ ρ _ _ M O2) as Hrng.
  apply (sem_arith _ _ w); [apply D|]. fold r1.
  assert (∀ v, ir_arith w o (ρ (op1 (IR J r1))) (ρ (op2 (IR J r1))) = Some v → ρ r1 = v) as Hv.
  { intros v Hv. apply (inst_val J ρ r1 w); [done|done|done|rewrite Hl|by rewrite Hl].
    by destruct Hin as [[-> _]|[[-> _]|[-> _]]]. }
  rewrite Ho. destruct Hin as [[-> _]|[[-> _]|[-> _]]]; simpl in *; rewrite (Hv _ eq_refl).
  - by rewrite neg_neg.
  - by rewrite Z.lnot_involutive.
  - rewrite bswap_bswap; [done| |done]. exact (fdom_pos _ _ _ D).
Qed.

(** (-a) + b ==> b - a *)
Lemma simplify_numadd_negx_ok : fn_ok IR_ADD (op IR_NEG) any simplify_numadd_negx.
Proof.
  fold_intro. unfold simplify_numadd_negx. apply end_phi.
  destruct (fdom_zbin _ _ _ D ltac:(by rewrite Ho)) as (Z1 & Z2 & _).
  destruct (inst_neg J (λ _, 0) w _ T Z1 Hl) as (O & Hb & Hlt & _).
  pose proof (fdom_wpos _ _ _ D).
  apply (end_retry J w (fins J) (set_op2 (op1 (fleft J)) (set_op1 (op2 (fins J)) (set_io IR_SUB (fins J))))).
  - done.
  - rewrite EL. apply mk_zbin; simpl; [set_solver|apply D|done|by left|done].
  - by rewrite Ho.
  - rewrite EL. intros ρ M. transitivity (SVal (wraps w (ρ (op2 (fins J)) - ρ (op1 (IR J (op1 (fins J))))))).
    + apply (sem_arith _ _ w); [apply D|done].
    + symmetry. apply (sem_arith _ _ w); [apply D|]. rewrite Ho. simpl.
      destruct (inst_neg J ρ w _ T Z1 Hl) as (_ & _ & _ & Hv). rewrite (Hv M).
      rewrite wraps_add_l by done. do 2 f_equal; lia.
  - apply meas_refs; rewrite ?EL; simpl; rewrite ?Ho; simpl; [lia|].
    pose proof (mref_lt _ _ Hb Hlt). lia.
Qed.

(** a + (-b) ==> a - b and a - (-b) ==> a + b *)
Lemma simplify_numadd_xneg_ok : fn_ok IR_ADD any (op IR_NEG) simplify_numadd_xneg.
Proof.
  fold_intro. fold_right. unfold simplify_numadd_xneg. apply end_phi.
  destruct (fdom_zbin _ _ _ D ltac:(by rewrite Ho)) as (Z1 & Z2 & _).
  destruct (inst_neg J (λ _, 0) w _ T Z2 Hr) as (O & Hb & Hlt & _).
  pose proof (fdom_wpos _ _ _ D).
  apply (end_retry J w (fins J) (set_op2 (op1 (fright J)) (set_io IR_SUB (fins J)))).
  - done.
  - rewrite ER. apply mk_zbin; simpl; [set_solver|apply D|done|by left|done].
  - by rewrite Ho.
  - rewrite ER. intros ρ M. transitivity (SVal (wraps w (ρ (op1 (fins J)) - ρ (op1 (IR J (op2 (fins J))))))).
    + apply (sem_arith _ _ w); [apply D|done].
    + symmetry. apply (sem_arith _ _ w); [apply D|]. rewrite Ho. simpl.
      destruct (inst_neg J ρ w _ T Z2 Hr) as (_ & _ & _ & Hv). rewrite (Hv M).
      rewrite wraps_add_r by done. do 2 f_equal; lia.
  - apply meas_refs; rewrite ?ER; simpl; rewrite ?Ho; simpl; [lia|].
    pose proof (mref_lt _ _ Hb Hlt). lia.
Qed.

Lemma simplify_numsub_xneg_ok : fn_ok IR_SUB any (op IR_NEG) simplify_numsub_xneg.
Proof.
  fold_intro. fold_right. unfold simplify_numsub_xneg. apply end_phi.
  destruct (fdom_zbin _ _ _ D ltac:(by rewrite Ho)) as (Z1 & Z2 & _).
  destruct (inst_neg J (λ _, 0) w _ T Z2 Hr) as (O & Hb & Hlt & _).
  pose proof (fdom_wpos _ _ _ D).
  apply (end_retry J w (fins J) (set_op2 (op1 (fright J)) (set_io IR_ADD (fins J)))).
  - done.
  - rewrite ER. apply mk_zbin; simpl; [set_solver|apply D|done|by left|done].
  - by rewrite Ho.
  - rewrite ER. intros ρ M. transitivity (SVal (wraps w (ρ (op1 (fins J)) + ρ (op1 (IR J (op2 (fins J))))))).
    + apply (sem_arith _ _ w); [apply D|done].
    + symmetry. apply (sem_arith _ _ w); [apply D|]. rewrite Ho. simpl.
      destruct (inst_neg J ρ w _ T Z2 Hr) as (_ & _ & _ & Hv). rewrite (Hv M).
      rewrite wraps_sub_r by done. do 2 f_equal; lia.
  - apply meas_refs; rewrite ?ER; simpl; rewrite ?Ho; simpl; [lia|].
    pose proof (mref_lt _ _ Hb Hlt). lia.
Qed.

(** (-a) * (-b) ==> a * b *)
Lemma simplify_nummuldiv_negneg_ok : fn_ok IR_MUL (op IR_NEG) (op IR_NEG) simplify_nummuldiv_negneg.
Proof.
  fold_intro. fold_right. unfold simplify_nummuldiv_negneg. do 2 apply end_phi.
  destruct (fdom_bin _ _ _ D ltac:(by rewrite Ho)) as (O1 & O2).
  destruct (inst_neg J (λ _, 0) w _ T (or_introl O1) Hl) as (P1 & B1 & L1 & _).
  destruct (inst_neg J (λ _, 0) w _ T (or_introl O2) Hr) as (P2 & B2 & L2 & _).
  pose proof (fdom_wpos _ _ _ D).
  apply (end_retry J w (fins J) (set_op2 (op1 (fright J)) (set_op1 (op1 (fleft J)) (fins J)))).
  - done.
  - rewrite EL, ER. apply mk_bin; simpl; try (by rewrite Ho); try done; [rewrite Ho; set_solver|apply D].
  - done.
  - rewrite EL, ER. intros ρ M.
    transitivity (SVal (wraps w (ρ (op1 (IR J (op1 (fins J)))) * ρ (op1 (IR J (op2 (fins J))))))).
    + apply (sem_arith _ _ w); [apply D|]. simpl. by rewrite Ho.
    + symmetry. apply (sem_arith _ _ w); [apply D|]. rewrite Ho. simpl.
      destruct (inst_neg J ρ w _ T (or_introl O1) Hl) as (_ & _ & _ & Hv1).
      destruct (inst_neg J ρ w _ T (or_introl O2) Hr) as (_ & _ & _ & Hv2).
      rewrite (Hv1 M), (Hv2 M), wraps_mul by done. do 2 f_equal; lia.
  - apply meas_refs; rewrite ?EL, ?ER; simpl; rewrite ?Ho; [lia|].
    pose proof (mref_lt _ _ B1 L1). pose proof (mref_lt _ _ B2 L2). lia.
Qed.

(** ** Constants on the right *)

Lemma simplify_intadd_k_ok o :
  o ∈ [IR_ADD; IR_ADDOV; IR_SUBOV] → fn_ok o any (op IR_KINT) simplify_intadd_k.
Proof.
  intros Hin. fold_intro. assert (op_shape o ∈ [ShZBin; ShBin]) as Hs by (each Hin; set_solver).
  assert (refs J (op2 (fins J))) as RR.
  { apply (fdom_right J w); [done|done|]. rewrite Ho. each Hin; set_solver. }
  destruct (ctx_right J L RR) as (ER & _). apply pat_right in Hr; [|done..].
  pose proof (fdom_wpos _ _ _ D).
  unfold simplify_intadd_k. rewrite ER. destruct (Z.eqb_spec (ii (IR J (op2 (fins J)))) 0) as [E|]; [|done].
  assert (zopnd J w (op1 (fins J))) as Z1.
  { pose proof (fd_ok _ _ _ D) as Hok. unfold ins_ok in Hok. rewrite (fd_w _ _ _ D), Ho in Hok.
    clear -Hin Hok. each Hin; simpl in Hok; [apply Hok|left; apply Hok..]. }
  apply end_ref; [done|rewrite Ho; clear -Hin; each Hin; done|done|].
  intros ρ M. pose proof (zopnd_rng _ ρ _ _ M H Z1) as Hrng.
  unfold ins_sem. rewrite (fd_w _ _ _ D), Ho, (kint_val _ _ _ T M RR Hr), E.
  clear - Hin Hrng H. each Hin; simpl; rewrite ?Z.add_0_r, ?Z.sub_0_r, ?(wraps_id w) by done;
    try case_bool_decide; done.
Qed.

Lemma fold_simplify_intmul_k_ok : fn_ok IR_MULOV any (op IR_KINT) fold_simplify_intmul_k.
Proof.
  fold_intro. fold_right. unfold fold_simplify_intmul_k. rewrite ER.
  destruct (fdom_bin _ _ _ D ltac:(by rewrite Ho)) as (O1 & O2).
  assert (w = 32) as -> by (by eapply kint_width).
  assert (∀ ρ, models ρ J → ins_sem ρ (fins J) =
    if bool_decide (in_s 32 (ρ (op1 (fins J)) * ii (IR J (op2 (fins J)))))
    then SVal (ρ (op1 (fins J)) * ii (IR J (op2 (fins J)))) else SFail) as Hsem.
  { intros ρ M. unfold ins_sem. rewrite (fd_w _ _ _ D), Ho, (kint_val _ _ _ T M RR Hr). done. }
  destruct (Z.eqb_spec (ii (IR J (op2 (fins J)))) 0) as [E|].
  { apply end_ref; [done|by rewrite Ho|by left|]. intros ρ M.
    rewrite Hsem, (kint_val _ _ _ T M RR Hr), E, Z.mul_0_r by done. done. }
  destruct (Z.eqb_spec (ii (IR J (op2 (fins J)))) 1) as [E|].
  { apply end_ref; [done|by rewrite Ho|by left|]. intros ρ M.
    rewrite Hsem, E, Z.mul_1_r, bool_decide_true by (done || by eapply opnd_rng). done. }
  destruct (Z.eqb_spec (ii (IR J (op2 (fins J)))) 2) as [E|]; [|done].
  apply (end_retry J 32 (fins J) (set_op2 (op1 (fins J)) (set_io IR_ADDOV (fins J)))).
  - done.
  - apply mk_bin; simpl; try done. apply D.
  - by rewrite Ho.
  - intros ρ M. rewrite Hsem, E by done. unfold ins_sem. simpl. rewrite (fd_w _ _ _ D).
    by replace (ρ (op1 (fins J)) * 2) with (ρ (op1 (fins J)) + ρ (op1 (fins J))) by lia.
  - apply meas_class. rewrite Ho. simpl. lia.
Qed.

Lemma simplify_intsub_k_ok : fn_ok IR_SUB any (op IR_KINT) simplify_intsub_k.
Proof.
  fold_intro. fold_right. unfold simplify_intsub_k. rewrite ER.
  destruct (fdom_zbin _ _ _ D ltac:(by rewrite Ho)) as (Z1 & Z2 & _).
  pose proof (fdom_wpos _ _ _ D). destruct (kint_rng _ _ T RR Hr) as (K2 & _ & C2).
  destruct (Z.eqb_spec (ii (IR J (op2 (fins J)))) 0) as [E|Hne].
  { apply end_ref; [done|by rewrite Ho|done|]. intros ρ M.
    apply (sem_arith _ _ w); [apply D|]. rewrite Ho. simpl.
    rewrite (kint_val _ _ _ T M RR Hr), E, Z.sub_0_r, wraps_id; [done|done|by eapply zopnd_rng]. }
  assert (w = 32) as -> by (by destruct (zopnd_kint _ _ _ T Z2 Hr)).
  apply (end_op2_kint J 32 (fins J) (set_io IR_ADD (fins J)) (i32 (- ii (fright J))));
    [done|by apply wraps_range|].
  rewrite ER. intros J' r C. split_and!.
  - apply mk_zbin; simpl; [set_solver|apply D|by eapply kcell_zopnd|left; apply C|by eapply kcell_typed].
  - by rewrite Ho.
  - intros ρ M' M. transitivity (SVal (wraps 32 (ρ (op1 (fins J)) - ii (IR J (op2 (fins J)))))).
    + apply (sem_arith _ _ 32); [apply D|]. simpl. rewrite (kc_val _ _ _ _ _ C ρ M').
      unfold i32. rewrite wraps_add_r by done. do 2 f_equal.
    + symmetry. apply (sem_arith _ _ 32); [apply D|]. rewrite Ho. simpl.
      by rewrite (kint_val _ _ _ T M RR Hr).
  - right. split; [by rewrite Ho|]. unfold meas, minor. simpl. rewrite Ho.
    rewrite (mref_const r), (mref_const (op2 (fins J))) by (apply C || lia).
    unfold unreduced. simpl. rewrite Ho. simpl. repeat case_test; lia.
Qed.

Lemma simplify_intadd_k64_ok : fn_ok IR_ADD any (op IR_KINT64) simplify_intadd_k64.
Proof.
  fold_intro. fold_right. unfold simplify_intadd_k64. rewrite ER.
  destruct (fdom_zbin _ _ _ D ltac:(by rewrite Ho)) as (Z1 & Z2 & _).
  pose proof (fdom_wpos _ _ _ D).
  destruct (Z.eqb_spec (rawK J (IR J (op2 (fins J)))) 0) as [E|]; [|done].
  apply end_ref; [done|by rewrite Ho|done|]. intros ρ M.
  apply (sem_arith _ _ w); [apply D|]. rewrite Ho. simpl.
  rewrite (kint64_val _ _ _ T M RR Hr), E. change (i64 0) with 0.
  rewrite Z.add_0_r, wraps_id; [done|done|by eapply zopnd_rng].
Qed.

Lemma simplify_intsub_k64_ok : fn_ok IR_SUB any (op IR_KINT64) simplify_intsub_k64.
Proof.
  fold_intro. fold_right. unfold simplify_intsub_k64. rewrite ER.
  destruct (fdom_zbin _ _ _ D ltac:(by rewrite Ho)) as (Z1 & Z2 & _).
  pose proof (fdom_wpos _ _ _ D). destruct (kint64_rng _ _ T RR Hr) as (K2 & _ & C2).
  assert (w = 64) as ->.
  { apply (kint64_width J w (op2 (fins J))); [done| |done]. apply zopnd_inst; [done|by rewrite Hr]. }
  destruct (Z.eqb_spec (rawK J (IR J (op2 (fins J)))) 0) as [E|Hne].
  { apply end_ref; [done|by rewrite Ho|done|]. intros ρ M.
    apply (sem_arith _ _ 64); [apply D|]. rewrite Ho. simpl.
    rewrite (kint64_val _ _ _ T M RR Hr), E. change (i64 0) with 0.
    rewrite Z.sub_0_r, wraps_id; [done|done|by eapply zopnd_rng]. }
  apply (end_op2_kint64 J 64 (fins J) (set_io IR_ADD (fins J))); [done|by apply wrapu_range|].
  intros J' r C. split_and!.
  - apply mk_zbin; simpl; [set_solver|apply D|by eapply kcell_zopnd|left; apply C|by eapply kcell_typed].
  - by rewrite Ho.
  - intros ρ M' M. transitivity (SVal (wraps 64 (ρ (op1 (fins J)) - i64 (rawK J (IR J (op2 (fins J))))))).
    + apply (sem_arith _ _ 64); [apply D|]. simpl. rewrite (kc_val _ _ _ _ _ C ρ M').
      rewrite i64_u64. unfold i64 at 1. rewrite wraps_add_r by done. do 2 f_equal.
    + symmetry. apply (sem_arith _ _ 64); [apply D|]. rewrite Ho. simpl.
      by rewrite (kint64_val _ _ _ T M RR Hr).
  - right. split; [by rewrite Ho|]. unfold meas, minor. simpl. rewrite Ho.
    rewrite (mref_const r), (mref_const (op2 (fins J))) by (apply C || lia).
    unfold unreduced. simpl. rewrite Ho. simpl. repeat case_test; lia.
Qed.

(** 0 - i ==> -i *)
Lemma simplify_intsub_kleft_ok k :
  k ∈ [IR_KINT; IR_KINT64] → fn_ok IR_SUB (op k) any simplify_intsub_kleft.
Proof.
  intros Hk. fold_intro. fold_right. unfold simplify_intsub_kleft. rewrite EL.
  destruct (fdom_zbin _ _ _ D ltac:(by rewrite Ho)) as (Z1 & Z2 & O2).
  pose proof (fdom_wpos _ _ _ D).
  destruct (if opeq (io (IR J (op1 (fins J)))) IR_KINT then _ else _) eqn:E0; [|done].
  assert (∀ ρ, models ρ J → ρ (op1 (fins J)) = 0) as Hv.
  { intros ρ M. rewrite Hl in E0. each Hk; simpl in E0; apply Z.eqb_eq in E0.
    - by rewrite (kint_val _ _ _ T M RL Hl).
    - by rewrite (kint64_val _ _ _ T M RL Hl), E0. }
  apply (end_retry J w (fins J) (set_op1 (op2 (fins J)) (set_io IR_NEG (fins J)))).
  - done.
  - left. apply mk_fdom; simpl; [done|apply D| |set_solver|set_solver].
    unfold ins_ok. simpl. rewrite (fd_w _ _ _ D). done.
  - by rewrite Ho.
  - intros ρ M. transitivity (SVal (wraps w (- ρ (op2 (fins J))))).
    + apply (sem_arith _ _ w); [apply D|done].
    + symmetry. apply (sem_arith _ _ w); [apply D|]. rewrite Ho. simpl.
      by rewrite (Hv ρ M).
  - apply meas_class. rewrite Ho. simpl. lia.
Qed.

(** i * 2^k ==> i << k *)
Lemma simplify_intmul_k_ok J w k :
  ir_typed J → fdom J w (fins J) → io (fins J) = IR_MUL → 0 < k < 2 ^ 31 →
  (∀ ρ, models ρ J → ρ (op2 (fins J)) = k) →
  rule_ok J w (fins J) (simplify_intmul_k J k).
Proof.
  intros T D Ho Hk Hv. unfold simplify_intmul_k.
  destruct (fdom_bin _ _ _ D ltac:(by rewrite Ho)) as (O1 & O2). pose proof (fdom_wpos _ _ _ D).
  destruct (Z.eqb_spec k 1) as [->|].
  { apply end_ref; [done|by rewrite Ho|by left|]. intros ρ M.
    apply (sem_arith _ _ w); [apply D|]. rewrite Ho. simpl.
    rewrite (Hv ρ M), Z.mul_1_r, wraps_id; [done|done|by eapply opnd_rng]. }
  destruct (Z.eqb_spec (Z.land k (k - 1)) 0) as [E|]; [|done].
  assert (u32 k = k) as Hu.
  { unfold u32. apply wrapu_id. unfold in_u. change (2 ^ 31) with 2147483648 in Hk.
    change (2 ^ 32) with 4294967296. lia. }
  rewrite Hu. unfold Obj.lj_bsr.
  assert (0 ≤ Z.log2 k < 31) as Hlog.
  { split; [apply Z.log2_nonneg|]. apply Z.log2_lt_pow2; lia. }
  apply (end_op2_kint J w (fins J) (set_io IR_BSHL (fins J))); [done|unfold in_s; simpl; lia|].
  intros J' r C. split_and!.
  - apply mk_shift; simpl; [done|apply D|by eapply kcell_opnd|apply C].
  - by rewrite Ho.
  - intros ρ M' M. transitivity (SVal (wraps w (ρ (op1 (fins J)) * k))).
    + apply (sem_arith _ _ w); [apply D|]. simpl. rewrite (kc_val _ _ _ _ _ C ρ M').
      assert (Z.land (Z.log2 k) (w - 1) = Z.log2 k) as ->.
      { rewrite land_mask by (exact (fdom_pos _ _ _ D)). apply Z.mod_small.
        destruct (fdom_pos _ _ _ D); lia. }
      rewrite Z.shiftl_mul_pow2 by lia. rewrite <-(pow2_test k) by (done || lia). done.
    + symmetry. apply (sem_arith _ _ w); [apply D|]. rewrite Ho. simpl. by rewrite (Hv ρ M).
  - apply meas_class. rewrite Ho. simpl. lia.
Qed.

Lemma simplify_intmul_k32_ok : fn_ok IR_MUL any (op IR_KINT) simplify_intmul_k32.
Proof.
  fold_intro. fold_right. unfold simplify_intmul_k32. rewrite ER.
  destruct (fdom_bin _ _ _ D ltac:(by rewrite Ho)) as (O1 & O2).
  assert (w = 32) as -> by (by eapply kint_width).
  destruct (kint_rng _ _ T RR Hr) as (K2 & _ & _).
  destruct (Z.eqb_spec (ii (IR J (op2 (fins J)))) 0) as [E|].
  { apply end_kint; [done|by rewrite Ho|by left|by apply in_s_zero|]. intros ρ M.
    apply (sem_arith _ _ 32); [apply D|]. rewrite Ho. simpl.
    by rewrite (kint_val _ _ _ T M RR Hr), E, Z.mul_0_r. }
  destruct (Z.ltb_spec 0 (ii (IR J (op2 (fins J))))); [|done].
  unfold i32. rewrite wraps_id by done.
  apply simplify_intmul_k_ok; try done; [unfold in_s in K2; simpl in *; lia|].
  intros ρ M. by apply kint_val.
Qed.

Lemma simplify_intmul_k64_ok : fn_ok IR_MUL any (op IR_KINT64) simplify_intmul_k64.
Proof.
  fold_intro. fold_right. unfold simplify_intmul_k64. rewrite ER.
  destruct (fdom_bin _ _ _ D ltac:(by rewrite Ho)) as (O1 & O2).
  assert (w = 64) as -> by (by eapply kint64_width).
  destruct (kint64_rng _ _ T RR Hr) as (K2 & _ & _).
  destruct (Z.eqb_spec (rawK J (IR J (op2 (fins J)))) 0) as [E|].
  { apply end_int64; [done|by rewrite Ho|done|done|]. intros ρ M.
    apply (sem_arith _ _ 64); [apply D|]. rewrite Ho. simpl.
    rewrite (kint64_val _ _ _ T M RR Hr), E. change (i64 0) with 0. by rewrite Z.mul_0_r. }
  destruct (Z.ltb_spec (rawK J (IR J (op2 (fins J)))) 0x80000000) as [Hlt|]; [|done].
  unfold in_u in K2.
  assert (in_s 32 (rawK J (IR J (op2 (fins J))))) by (unfold in_s; simpl; lia).
  unfold i32. rewrite wraps_id by done.
  apply simplify_intmul_k_ok; try done; [simpl in *; lia|].
  intros ρ M. rewrite (kint64_val _ _ _ T M RR Hr). apply wraps_id; [done|].
  unfold in_s. simpl. lia.
Qed.

(** i % (2^k) ==> i & (2^k-1) *)
Lemma simplify_intmod_k_ok : fn_ok IR_MOD any (op IR_KINT) simplify_intmod_k.
Proof.
  fold_intro. fold_right. unfold simplify_intmod_k. rewrite ER.
  destruct (fdom_bin _ _ _ D ltac:(by rewrite Ho)) as (O1 & O2).
  assert (w = 32) as -> by (by eapply kint_width).
  destruct (kint_rng _ _ T RR Hr) as (K2 & _ & _).
  unfold i32. rewrite wraps_id by done. set (k := ii (IR J (op2 (fins J)))) in *.
  destruct ((0 <? k) && (Z.land k (k - 1) =? 0)) eqn:E; [|done]. bprop.
  apply (end_op2_kint J 32 (fins J) (set_io IR_BAND (fins J))).
  - done.
  - unfold in_s in *. simpl in *. lia.
  - intros J' r C. split_and!.
    + apply mk_bin; simpl; try done; [apply D|by eapply kcell_opnd|apply C].
    + by rewrite Ho.
    + intros ρ M' M. transitivity (SVal (ρ (op1 (fins J)) `mod` k)).
      * apply (sem_arith _ _ 32); [apply D|]. simpl. rewrite (kc_val _ _ _ _ _ C ρ M').
        f_equal. symmetry. by apply mod_land_pow2.
      * unfold ins_sem. rewrite (fd_w _ _ _ D), Ho. simpl. by rewrite (kint_val _ _ _ T M RR Hr).
    + apply meas_class. rewrite Ho. simpl. lia.
Qed.

Lemma simplify_intmod_kleft_ok : fn_ok IR_MOD (op IR_KINT) any simplify_intmod_kleft.
Proof.
  fold_intro. unfold simplify_intmod_kleft. rewrite EL.
  destruct (fdom_bin _ _ _ D ltac:(by rewrite Ho)) as (O1 & O2).
  assert (w = 32) as -> by exact (kint_width _ _ _ T O1 Hl).
  destruct (Z.eqb_spec (ii (IR J (op1 (fins J)))) 0) as [E|]; [|done].
  apply end_kint; [done|by rewrite Ho|by left|by apply in_s_zero|]. intros ρ M.
  unfold ins_sem. rewrite (fd_w _ _ _ D), Ho. simpl.
  by rewrite (kint_val _ _ _ T M RL Hl), E, Zmod_0_l.
Qed.

(** The type of a folded instruction is not a number, and tells its width. *)
Lemma tyw_isnum t w : tyw t = Some w → irt_isnum t = false.
Proof.
  unfold tyw, irt_isnum, IRT_I8, IRT_U32, IRT_I64, IRT_U64, IRT_NUM. intros H.
  apply Z.eqb_neq. intros E. by rewrite E in H.
Qed.

Lemma tyw_is64 t w : tyw t = Some w → irt_is64 t = (w =? 64).
Proof.
  unfold tyw, irt_is64, irt_size, IRT_I8, IRT_U32, IRT_I64, IRT_U64. intros H.
  assert (irt_type t ∈ [15; 16; 17; 18; 19; 20] ∧ w = 32 ∨ irt_type t ∈ [21; 22] ∧ w = 64) as Hc.
  { destruct ((15 <=? irt_type t) && (irt_type t <=? 20)) eqn:E1; bprop.
    - left. injection H as <-. split; [|done].
      assert (irt_type t = 15 ∨ irt_type t = 16 ∨ irt_type t = 17 ∨ irt_type t = 18 ∨
        irt_type t = 19 ∨ irt_type t = 20) by lia. set_solver.
    - right. destruct ((irt_type t =? 21) || (irt_type t =? 22)) eqn:E2; [|done].
      injection H as <-. split; [|done].
      apply orb_true_iff in E2 as [->%Z.eqb_eq| ->%Z.eqb_eq]; set_solver. }
  destruct Hc as [[Ht ->]|[Ht ->]]; repeat (apply elem_of_cons in Ht as [->|Ht]); try done;
    by apply elem_of_nil in Ht.
Qed.

(** i - i ==> 0 *)
Lemma simplify_intsub_ok o : o ∈ [IR_SUB; IR_SUBOV] → fn_ok o any any simplify_intsub.
Proof.
  intros Hin. fold_intro. unfold simplify_intsub.
  rewrite (tyw_isnum _ _ (fd_w _ _ _ D)), (tyw_is64 _ _ (fd_w _ _ _ D)), andb_true_r.
  destruct (Z.eqb_spec (op1 (fins J)) (op2 (fins J))) as [E|]; [|done].
  assert (∀ ρ, models ρ J → ins_sem ρ (fins J) = SVal 0) as Hs.
  { intros ρ M. unfold ins_sem. rewrite (fd_w _ _ _ D), Ho, E. pose proof (fdom_wpos _ _ _ D).
    clear - Hin H. each Hin; simpl; rewrite Z.sub_diag.
    - rewrite wraps_id; [done|done|by apply in_s_zero].
    - rewrite bool_decide_true; [done|by apply in_s_zero]. }
  assert (is_guard (io (fins J)) = false) by (rewrite Ho; clear -Hin; each Hin; done).
  destruct (Z.eqb_spec w 64) as [->|].
  - by apply end_int64.
  - apply end_kint; [done|done|left|by apply in_s_zero|done].
    by destruct (fdom_pos _ _ _ D).
Qed.

(** ** Cancellation *)

(** A sum or a difference at a reference. *)
Lemma inst_zbin J w r :
  ir_typed J → zopnd J w r → io (IR J r) ∈ [IR_ADD; IR_SUB] →
  zopnd J w (op1 (IR J r)) ∧ opnd J w (op2 (IR J r)) ∧
  (mref (op1 (IR J r)) < mref r)%nat ∧ (mref (op2 (IR J r)) < mref r)%nat.
Proof.
  intros T Hz Ho. assert (isk_op (io (IR J r)) = false ∧ op_shape (io (IR J r)) = ShZBin)
    as [Hk Hs] by (each Ho; done).
  assert (opnd J w r) as O.
  { apply zopnd_inst; [done|]. intros E. by rewrite E in Hk. }
  destruct (inst_ssa J r T (proj1 O)) as (? & ? & ?); [done|by rewrite Hs|].
  pose proof (inst_shape J w r T O Hk) as Hsh. rewrite Hs in Hsh. destruct Hsh.
  split_and!; try done; by apply mref_lt.
Qed.
Lemma inst_add J ρ w r :
  ir_typed J → zopnd J w r → io (IR J r) = IR_ADD → models ρ J →
  ρ r = wraps w (ρ (op1 (IR J r)) + ρ (op2 (IR J r))).
Proof.
  intros T Hz Ho M. apply (inst_val J ρ r w); [done|done| |by rewrite Ho|by rewrite Ho].
  apply zopnd_inst; [done|by rewrite Ho].
Qed.
Lemma inst_sub J ρ w r :
  ir_typed J → zopnd J w r → io (IR J r) = IR_SUB → models ρ J →
  ρ r = wraps w (ρ (op1 (IR J r)) - ρ (op2 (IR J r))).
Proof.
  intros T Hz Ho M. apply (inst_val J ρ r w); [done|done| |by rewrite Ho|by rewrite Ho].
  apply zopnd_inst; [done|by rewrite Ho].
Qed.

Lemma sem_sub ρ x w :
  tyw (it x) = Some w → io x = IR_SUB →
  ins_sem ρ x = SVal (wraps w (ρ (op1 x) - ρ (op2 x))).
Proof. intros Hw Ho. apply (sem_arith _ _ w); [done|by rewrite Ho]. Qed.

(** A sum of wrapped values that is [v] without wrapping. *)
Lemma wraps_cancel w a v : 0 < w → in_s w v → a = v → wraps w a = v.
Proof. intros ? ? ->. by apply wraps_id. Qed.

Lemma simplify_intsubadd_leftcancel_ok :
  fn_ok IR_SUB (op IR_ADD) any simplify_intsubadd_leftcancel.
Proof.
  fold_intro. unfold simplify_intsubadd_leftcancel. rewrite (tyw_isnum _ _ (fd_w _ _ _ D)).
  apply end_phi. rewrite EL.
  destruct (fdom_zbin _ _ _ D ltac:(by rewrite Ho)) as (Z1 & Z2 & _).
  pose proof (fdom_wpos _ _ _ D) as Hw.
  destruct (inst_zbin J w _ T Z1) as (P1 & P2 & _); [rewrite Hl; set_solver|].
  assert (∀ ρ v, models ρ J → in_s w v →
    ρ (op1 (IR J (op1 (fins J)))) + ρ (op2 (IR J (op1 (fins J)))) - ρ (op2 (fins J)) = v →
    ins_sem ρ (fins J) = SVal v) as Hs.
  { intros ρ v M Hv E. rewrite (sem_sub ρ _ w (fd_w _ _ _ D) Ho), (inst_add J ρ w _ T Z1 Hl M).
    rewrite wraps_sub_l by done. f_equal. by apply wraps_cancel. }
  destruct (Z.eqb_spec (op2 (fins J)) (op1 (IR J (op1 (fins J))))) as [E|_].
  { apply end_ref; [done|by rewrite Ho|by left|]. intros ρ M.
    apply Hs; [done|by eapply opnd_rng|rewrite E; lia]. }
  destruct (Z.eqb_spec (op2 (fins J)) (op2 (IR J (op1 (fins J))))) as [E|_]; [|done].
  apply end_ref; [done|by rewrite Ho|done|]. intros ρ M.
  apply Hs; [done|by eapply zopnd_rng|rewrite E; lia].
Qed.

(** i - (i - j) ==> j *)
Lemma simplify_intsubsub_rightcancel_ok :
  fn_ok IR_SUB any (op IR_SUB) simplify_intsubsub_rightcancel.
Proof.
  fold_intro. fold_right. unfold simplify_intsubsub_rightcancel.
  rewrite (tyw_isnum _ _ (fd_w _ _ _ D)). apply end_phi. rewrite ER.
  destruct (fdom_zbin _ _ _ D ltac:(by rewrite Ho)) as (Z1 & Z2 & _).
  pose proof (fdom_wpos _ _ _ D) as Hw.
  destruct (inst_zbin J w _ T Z2) as (P1 & P2 & _); [rewrite Hr; set_solver|].
  destruct (Z.eqb_spec (op1 (fins J)) (op1 (IR J (op2 (fins J))))) as [E|_]; [|done].
  apply end_ref; [done|by rewrite Ho|by left|]. intros ρ M.
  rewrite (sem_sub ρ _ w (fd_w _ _ _ D) Ho), (inst_sub J ρ w _ T Z2 Hr M).
  rewrite wraps_sub_r by done. f_equal. apply wraps_cancel; [done|by eapply opnd_rng|].
  rewrite E. lia.
Qed.

(** [0 - j] with an interned 0. *)
Lemma end_zero_sub J w J' z y j :
  ir_typed J → fdom J w (fins J) → io (fins J) = IR_SUB → kcell J J' z 32 0 →
  zopnd J w j → (mref j < mref (op1 (fins J)) + mref (op2 (fins J)))%nat →
  (∀ ρ, models ρ J → ins_sem ρ (fins J) = SVal (wraps w (- ρ j))) →
  io y = IR_SUB → it y = it (fins J) → op1 y = z → op2 y = j →
  retry_ok J w (fins J) J' y.
Proof.
  intros T D Ho C O Hm Hs Yo Yt Y1 Y2. split_and!.
  - apply mk_zbin; rewrite ?Yo, ?Yt, ?Y1, ?Y2; [set_solver|apply D| | |by eapply kcell_typed].
    + right. destruct C as [_ _ ? Hk Hi _]. split_and!; [lia|lia|done|by apply Hi].
    + by eapply kcell_zopnd.
  - by rewrite Yo, Ho.
  - intros ρ M' M. rewrite Hs by done. rewrite (sem_sub ρ y w), Y1, Y2.
    + by rewrite (kc_val _ _ _ _ _ C ρ M').
    + rewrite Yt. apply D.
    + done.
  - apply meas_refs; rewrite ?Yo, ?Ho, ?Y1, ?Y2; [done|].
    destruct C as [_ _ ? _ _ _]. rewrite (mref_const z) by lia. lia.
Qed.

(** (i - j) - i ==> 0 - j *)
Lemma simplify_intsubsub_leftcancel_ok :
  fn_ok IR_SUB (op IR_SUB) any simplify_intsubsub_leftcancel.
Proof.
  fold_intro. unfold simplify_intsubsub_leftcancel. rewrite (tyw_isnum _ _ (fd_w _ _ _ D)).
  apply end_phi.
  destruct (fdom_zbin _ _ _ D ltac:(by rewrite Ho)) as (Z1 & Z2 & _).
  pose proof (fdom_wpos _ _ _ D) as Hw.
  destruct (inst_zbin J w _ T Z1) as (P1 & P2 & M1 & M2); [rewrite Hl; set_solver|].
  rewrite EL. destruct (Z.eqb_spec (op2 (fins J)) (op1 (IR J (op1 (fins J))))) as [E|_]; [|done].
  unfold fins_op1_kint. destruct (lj_ir_kint J 0) as [J' z] eqn:Ek. intros Hlim.
  destruct (kint_cell J (fins J) 0 J' z T) as (C & Hf & Hfl & _); [done| |done|].
  { rewrite <-Ek. by destruct J. }
  unfold fins_op2, fins_op1. simpl. rewrite Hf, Hfl, EL.
  change (set_fins ?y (set_fins ?x J')) with (set_fins y J').
  apply end_retry_at; [done|apply C|].
  apply (end_zero_sub J w J' z _ (op2 (IR J (op1 (fins J))))); try done; [by left|lia|].
  intros ρ M. rewrite (sem_sub ρ _ w (fd_w _ _ _ D) Ho), (inst_sub J ρ w _ T Z1 Hl M), E.
  rewrite wraps_sub_l by done. do 2 f_equal; lia.
Qed.

(** i - (i + j) ==> 0 - j and i - (j + i) ==> 0 - j *)
Lemma simplify_intsubadd_rightcancel_ok :
  fn_ok IR_SUB any (op IR_ADD) simplify_intsubadd_rightcancel.
Proof.
  fold_intro. fold_right. unfold simplify_intsubadd_rightcancel.
  rewrite (tyw_isnum _ _ (fd_w _ _ _ D)). apply end_phi. rewrite ER.
  destruct (fdom_zbin _ _ _ D ltac:(by rewrite Ho)) as (Z1 & Z2 & _).
  pose proof (fdom_wpos _ _ _ D) as Hw.
  destruct (inst_zbin J w _ T Z2) as (P1 & P2 & M1 & M2); [rewrite Hr; set_solver|].
  destruct (Z.eqb_spec (op1 (fins J)) (op1 (IR J (op2 (fins J))))) as [E|_].
  { apply (end_op1_kint J w (fins J) (set_op2 (op2 (IR J (op2 (fins J)))) (fins J)) 0); [done|done|].
    intros J' z C. apply (end_zero_sub J w J' z _ (op2 (IR J (op2 (fins J))))); try done; [by left|lia|].
    intros ρ M. rewrite (sem_sub ρ _ w (fd_w _ _ _ D) Ho), (inst_add J ρ w _ T Z2 Hr M), E.
    rewrite wraps_sub_r by done. do 2 f_equal; lia. }
  destruct (Z.eqb_spec (op1 (fins J)) (op2 (IR J (op2 (fins J))))) as [E|_]; [|done].
  apply (end_op1_kint J w (fins J) (set_op2 (op1 (IR J (op2 (fins J)))) (fins J)) 0); [done|done|].
  intros J' z C. apply (end_zero_sub J w J' z _ (op1 (IR J (op2 (fins J))))); try done; [lia|].
  intros ρ M. rewrite (sem_sub ρ _ w (fd_w _ _ _ D) Ho), (inst_add J ρ w _ T Z2 Hr M), E.
  rewrite wraps_sub_r by done. do 2 f_equal; lia.
Qed.

(** (i + j1) - (i + j2) ==> j1 - j2, in the four orders *)
Lemma simplify_intsubaddadd_cancel_ok :
  fn_ok IR_SUB (op IR_ADD) (op IR_ADD) simplify_intsubaddadd_cancel.
Proof.
  fold_intro. fold_right. unfold simplify_intsubaddadd_cancel.
  rewrite (tyw_isnum _ _ (fd_w _ _ _ D)). do 2 apply end_phi.
  destruct (fdom_zbin _ _ _ D ltac:(by rewrite Ho)) as (Z1 & Z2 & _).
  pose proof (fdom_wpos _ _ _ D) as Hw.
  destruct (inst_zbin J w _ T Z1) as (P1 & P2 & M1 & M2); [rewrite Hl; set_solver|].
  destruct (inst_zbin J w _ T Z2) as (Q1 & Q2 & N1 & N2); [rewrite Hr; set_solver|].
  assert (∀ a b i, zopnd J w a → zopnd J w b →
    (mref a + mref b < mref (op1 (fins J)) + mref (op2 (fins J)))%nat →
    (∀ ρ : Z → Z, ρ (op1 (IR J (op1 (fins J)))) + ρ (op2 (IR J (op1 (fins J)))) = ρ a + ρ i ∧
              ρ (op1 (IR J (op2 (fins J)))) + ρ (op2 (IR J (op2 (fins J)))) = ρ b + ρ i) →
    rule_ok J w (fins J) (Ret (fins_op2 b (fins_op1 a J)) RETRYFOLD)) as Hend.
  { intros a b i Ha Hb Hm Hv.
    apply (end_retry J w (fins J) (set_op2 b (set_op1 a (fins J)))).
    - done.
    - apply mk_zbin; simpl; try done; [rewrite Ho; set_solver|apply D].
    - done.
    - intros ρ M. destruct (Hv ρ) as [E1 E2].
      rewrite (sem_sub ρ (fins J) w (fd_w _ _ _ D) Ho).
      rewrite (sem_sub ρ (set_op2 b (set_op1 a (fins J))) w (fd_w _ _ _ D) Ho).
      rewrite (inst_add J ρ w _ T Z1 Hl M), (inst_add J ρ w _ T Z2 Hr M), E1, E2, wraps_sub by done.
      simpl. do 2 f_equal; lia.
    - by apply meas_refs. }
  rewrite EL, ER.
  destruct (Z.eqb_spec (op1 (IR J (op1 (fins J)))) (op1 (IR J (op2 (fins J))))) as [E|_].
  { apply (Hend _ _ (op1 (IR J (op1 (fins J))))); [by left|by left|lia|].
    intros ρ. rewrite <-E. lia. }
  destruct (Z.eqb_spec (op1 (IR J (op1 (fins J)))) (op2 (IR J (op2 (fins J))))) as [E|_].
  { apply (Hend _ _ (op1 (IR J (op1 (fins J))))); [by left|done|lia|].
    intros ρ. rewrite <-E. lia. }
  destruct (Z.eqb_spec (op2 (IR J (op1 (fins J)))) (op1 (IR J (op2 (fins J))))) as [E|_].
  { apply (Hend _ _ (op2 (IR J (op1 (fins J))))); [done|by left|lia|].
    intros ρ. rewrite <-E. lia. }
  destruct (Z.eqb_spec (op2 (IR J (op1 (fins J)))) (op2 (IR J (op2 (fins J))))) as [E|_]; [|done].
  apply (Hend _ _ (op2 (IR J (op1 (fins J))))); [done|done|lia|].
  intros ρ. rewrite <-E. lia.
Qed.

End FoldAlg.
