(* ===== verification/FoldBits.v ===== *)
(** * Constants only grow downwards; bit operations

    [FoldMono]: no fold function, and no run of the engine, gives up a constant: [nk] never rises.
    [FoldBits]: the fold functions for the bitwise operations, shifts and rotates keep their promise. *)

From stdpp Require Import base decidable list numbers option sets.
From Stdlib Require Import ZArith Lia.
From S2P Require Import Prelude Obj Ir IntOps Fold IrWf IntFacts IrSem FoldSpec FoldEngine.
From S2P Require Import FoldLemmas FoldKfold FoldAlg.

Local Open Scope Z_scope.
Import Ir IntOps Fold.

Module FoldMono.

Arguments fold_rules : simpl never.

(** ** Constants and instructions *)

Lemma growbot_nk J : nk (lj_ir_growbot J) = nk J.
Proof. unfold lj_ir_growbot. by case_test. Qed.
Lemma growtop_nk J : nk (lj_ir_growtop J) = nk J.
Proof. unfold lj_ir_growtop. by case_test. Qed.

Lemma intern_nk J o p x : nk (ir_intern J o p x).1 ≤ nk J.
Proof.
  unfold ir_intern, ir_nextk. case_test; [done|]. simpl. lia.
Qed.
Lemma kint_nk J k : nk (lj_ir_kint J k).1 ≤ nk J.
Proof. apply intern_nk. Qed.
Lemma kint64_nk J k : nk (lj_ir_kint64 J k).1 ≤ nk J.
Proof.
  unfold lj_ir_kint64, lj_ir_k64_find. destruct (k64_find_or_add _ _ _) as [ks adr].
  etransitivity; [apply intern_nk|done].
Qed.

Lemma nextins_nk J : nk (lj_ir_nextins J).1 = nk J.
Proof. unfold lj_ir_nextins. simpl. case_test; [apply growtop_nk|done]. Qed.
Lemma emit_nk J : nk (lj_ir_emit J).1 = nk J.
Proof.
  unfold lj_ir_emit. pose proof (nextins_nk J). by destruct (lj_ir_nextins J).
Qed.
Lemma cse_nk J : nk (lj_opt_cse J).1 = nk J.
Proof.
  unfold lj_opt_cse. case_test; [done|].
  pose proof (nextins_nk J). by destruct (lj_ir_nextins J).
Qed.

(** ** Fold functions *)

Fixpoint prog_mono (n : Z) (p : prog) : Prop :=
  match p with
  | Ret J' _ => nk J' ≤ n
  | CallFold J1 k => nk J1 ≤ n ∧ ∀ J2 ref, prog_mono (nk J2) (k J2 ref)
  end.

Definition fn_mono (f : jit_State → prog) : Prop := ∀ J, prog_mono (nk J) (f J).

Lemma op2_kint_nk k J : nk (fins_op2_kint k J) ≤ nk J.
Proof. unfold fins_op2_kint. pose proof (kint_nk J k). by destruct (lj_ir_kint J k). Qed.
Lemma op1_kint_nk k J : nk (fins_op1_kint k J) ≤ nk J.
Proof. unfold fins_op1_kint. pose proof (kint_nk J k). by destruct (lj_ir_kint J k). Qed.
Lemma op2_kint64_nk k J : nk (fins_op2_kint64 k J) ≤ nk J.
Proof. unfold fins_op2_kint64. pose proof (kint64_nk J k). by destruct (lj_ir_kint64 J k). Qed.

Lemma int64fold_mono J k : prog_mono (nk J) (INT64FOLD J k).
Proof. unfold INT64FOLD. pose proof (kint64_nk J k). by destruct (lj_ir_kint64 J k). Qed.
Lemma emitfold_mono J : prog_mono (nk J) (EMITFOLD J).
Proof. unfold EMITFOLD. pose proof (emit_nk J). destruct (lj_ir_emit J). simpl in *. lia. Qed.
Lemma ret_mono J r : prog_mono (nk J) (Ret J r).
Proof. simpl. lia. Qed.
Lemma phi_mono J x p : prog_mono (nk J) p → prog_mono (nk J) (PHIBARRIER x J p).
Proof. unfold PHIBARRIER. case_test; [intros; apply ret_mono|done]. Qed.
Ltac mono_step :=
  match goal with
  | |- prog_mono _ (PHIBARRIER _ _ _) => apply phi_mono
  | |- prog_mono _ (INT64FOLD _ _) => apply int64fold_mono
  | |- prog_mono _ (EMITFOLD _) => apply emitfold_mono
  | |- prog_mono _ (if ?c then _ else _) => destruct c
  | |- prog_mono _ (let '(_, _) := ?c in _) => destruct c
  | |- prog_mono _ (Ret _ _) =>
      first [exact (Z.le_refl _)|exact (op2_kint_nk _ _)|exact (op1_kint_nk _ _)
            |exact (op2_kint64_nk _ _)]
  end.
Ltac mono f := intros J; unfold f; cbv zeta; repeat mono_step.

Lemma narrow_mono : fn_mono simplify_conv_narrow.
Proof.
  intros J. unfold simplify_conv_narrow. apply phi_mono. simpl. split; [lia|].
  intros J2 r. split; [done|]. intros J3 r'. done.
Qed.
Lemma shiftk_andk_mono : fn_mono simplify_shiftk_andk.
Proof.
  intros J. unfold simplify_shiftk_andk. apply phi_mono. case_test; [|apply ret_mono].
  cbv zeta. simpl. split; [lia|]. intros J2 r. apply (op2_kint_nk _ (fins_op1 r J2)).
Qed.
Lemma abc_k_mono : fn_mono abc_k.
Proof.
  intros J. unfold abc_k. cbv zeta. repeat mono_step. simpl. case_test; simpl; lia.
Qed.
Lemma swap_mono : fn_mono comm_swap.
Proof. mono comm_swap. Qed.
Lemma intmul_k_mono J k : prog_mono (nk J) (simplify_intmul_k J k).
Proof. unfold simplify_intmul_k. cbv zeta. repeat mono_step. Qed.

Lemma keys_mono f keys : fn_mono f → Forall (λ r, fn_mono (rl_fn r)) (LJFOLDF f keys).
Proof. intros H. unfold LJFOLDF. apply Forall_map, Forall_true. done. Qed.

Ltac mono_any :=
  lazymatch goal with
  | |- fn_mono ?f =>
      first [exact narrow_mono|exact shiftk_andk_mono|exact abc_k_mono|exact swap_mono
            |solve [intros J; unfold f; cbv zeta;
                    repeat first [mono_step|apply swap_mono|apply intmul_k_mono]]]
  end.

Lemma rules_mono : Forall (λ r, fn_mono (rl_fn r)) fold_rules.
Proof.
  unfold fold_rules. repeat (apply Forall_app; split); apply keys_mono; mono_any.
Qed.

(** ** The engine *)

Definition out_state {A} (o : outcome A) : jit_State :=
  match o with Done J _ => J | TraceErr J => J | NoFuel J => J end.

Lemma run_prog_mono fold n p :
  (∀ J, nk (out_state (fold J)) ≤ nk J) → prog_mono n p → nk (out_state (run_prog fold p)) ≤ n.
Proof.
  intros Hf. revert n. induction p as [J r|J k IH]; intros n; simpl; [done|]. intros [H1 Hk].
  pose proof (Hf J) as H2. destruct (fold J) as [J' ref|J'|J']; simpl in *; [|lia..].
  pose proof (IH J' ref _ (Hk J' ref)). lia.
Qed.

Lemma find_rule_in rs o l r f :
  find_rule rs o l r = Some f → ∃ x, x ∈ rs ∧ rl_op x = o ∧ rl_left x = l ∧ rl_right x = r ∧ rl_fn x = f.
Proof.
  induction rs as [|x rs IH]; simpl; [done|].
  destruct (opeq (rl_op x) o && pat_eqb (rl_left x) l && pat_eqb (rl_right x) r) eqn:E.
  - intros [= <-]. exists x. apply andb_true_iff in E as [[E1 E2]%andb_true_iff E3].
    assert (∀ a b, pat_eqb a b = true → a = b) as Hp.
    { intros [a|] [b|]; simpl; try done. by intros ->%Z.eqb_eq. }
    split_and!; [by left|by destruct (opeq_spec (rl_op x) o)|by apply Hp|by apply Hp|done].
  - intros H. destruct (IH H) as (y & ? & ?). exists y. split; [by right|done].
Qed.

Lemma find_rule_mono o l r f : find_rule fold_rules o l r = Some f → fn_mono f.
Proof.
  intros (x & Hx & _ & _ & _ & <-)%find_rule_in. revert x Hx. apply Forall_forall, rules_mono.
Qed.

Lemma try_rules_mono fold o keys J :
  (∀ J, nk (out_state (fold J)) ≤ nk J) → nk (out_state (try_rules fold o keys J)) ≤ nk J.
Proof.
  intros Hf. revert J. induction keys as [|[l r] keys IH]; intros J; cbn [try_rules]; [done|].
  destruct (find_rule fold_rules o l r) as [f|] eqn:E; [|by apply IH].
  pose proof (run_prog_mono fold _ _ Hf (find_rule_mono _ _ _ _ E J)) as H.
  destruct (run_prog fold (f J)) as [J' []|J'|J']; simpl in *; try done.
  etransitivity; [apply IH|done].
Qed.

Lemma bypass_nk J J' ref : fold_bypass J = Some (J', ref) → nk J' = nk J.
Proof.
  pose proof (cse_nk J) as Hc. pose proof (emit_nk J) as He. unfold fold_bypass.
  destruct (lj_opt_cse J) as [J1 r1], (lj_ir_emit J) as [J2 r2]. simpl in *.
  repeat case_test; intros [= <- <-]; done.
Qed.

Lemma load_nk J J' l r : fold_load J = (J', l, r) → nk J' = nk J.
Proof. unfold fold_load. intros E. repeat case_test_in E; by simplify_eq. Qed.

Lemma retry_mono fuel J : nk (out_state (fold_retry fuel J)) ≤ nk J.
Proof.
  revert J. induction fuel as [|fuel IH]; intros J; cbn [fold_retry]; [done|].
  destruct (fold_load J) as [[J1 l] r] eqn:EL. apply load_nk in EL. rewrite <-EL.
  set (entry := λ J : jit_State, _).
  assert (∀ J, nk (out_state (entry J)) ≤ nk J) as He.
  { intros J0. unfold entry. destruct (fold_bypass J0) as [[J2 ref]|] eqn:Eb; [|apply IH].
    simpl. apply bypass_nk in Eb. lia. }
  pose proof (try_rules_mono entry (io (fins J1)) (fold_keys l r) J1 He) as Ht.
  destruct (try_rules _ _ _ _) as [J2 []|J2|J2]; cbn [out_state] in *; try done.
  - pose proof (cse_nk J2) as Hc. destruct (lj_opt_cse J2). cbn in Hc |- *. lia.
  - etransitivity; [apply IH|done].
  - pose proof (kint_nk J2 (i32 k)) as Hc. destruct (lj_ir_kint J2 (i32 k)). cbn in Hc |- *. lia.
Qed.

(** ** More fuel *)

(** The second outcome is the first one, or goes on where that ran out. *)
Definition refine {A} (o1 o2 : outcome A) : Prop :=
  match o1 with NoFuel J => nk (out_state o2) ≤ nk J | _ => o2 = o1 end.

Lemma refine_refl {A} (o : outcome A) : refine o o.
Proof. destruct o; [done|done|]. unfold refine. simpl. lia. Qed.

Section refine.
  Context (fold fold' : jit_State → outcome Z).
  Context (Hr : ∀ J, refine (fold J) (fold' J)) (Hm : ∀ J, nk (out_state (fold' J)) ≤ nk J).

Lemma run_prog_refine n p : prog_mono n p → refine (run_prog fold p) (run_prog fold' p).
  Proof.
    revert n. induction p as [J r|J k IH]; intros n; simpl; [done|]. intros [_ Hk].
    pose proof (Hr J) as H. unfold refine in H. destruct (fold J) as [J1 ref|J1|J1].
    - rewrite H. eapply IH, Hk.
    - by rewrite H.
    - simpl. destruct (fold' J) as [J2 ref|J2|J2]; simpl in *; [|done..].
      pose proof (run_prog_mono fold' _ _ Hm (Hk J2 ref)). lia.
  Qed.

Lemma try_rules_refine o keys J : refine (try_rules fold o keys J) (try_rules fold' o keys J).
  Proof.
    revert J. induction keys as [|[l r] keys IH]; intros J; cbn [try_rules]; [done|].
    destruct (find_rule fold_rules o l r) as [f|] eqn:E; [|apply IH].
    pose proof (run_prog_refine _ _ (find_rule_mono _ _ _ _ E J)) as H.
    unfold refine in H. destruct (run_prog fold (f J)) as [J1 res|J1|J1].
    - rewrite H. destruct res; try apply refine_refl. apply IH.
    - rewrite H. apply refine_refl.
    - simpl. destruct (run_prog fold' (f J)) as [J2 []|J2|J2]; cbn [out_state] in *; try done.
      pose proof (try_rules_mono fold' o keys J2 Hm). lia.
  Qed.
End refine.

Lemma retry_refine n m J : (n ≤ m)%nat → refine (fold_retry n J) (fold_retry m J).
Proof.
  revert m J. induction n as [|n IH]; intros m J Hnm; [apply retry_mono|].
  destruct m as [|m]; [lia|]. cbn [fold_retry].
  destruct (fold_load J) as [[J1 l] r].
  set (entry := λ J : jit_State, match fold_bypass J with Some (J0, ref) => Done J0 ref | None => fold_retry n J end).
  set (entry' := λ J : jit_State, match fold_bypass J with Some (J0, ref) => Done J0 ref | None => fold_retry m J end).
  assert (∀ J, refine (entry J) (entry' J)) as Hr.
  { intros J0. unfold entry, entry'. destruct (fold_bypass J0) as [[]|]; [done|].
    apply IH. lia. }
  assert (∀ J, nk (out_state (entry' J)) ≤ nk J) as Hm.
  { intros J0. unfold entry'. destruct (fold_bypass J0) as [[J2 ref]|] eqn:Eb; [|apply retry_mono].
    simpl. apply bypass_nk in Eb. lia. }
  pose proof (try_rules_refine entry entry' Hr Hm (io (fins J1)) (fold_keys l r) J1) as H.
  unfold refine in H. destruct (try_rules entry _ _ J1) as [J2 res|J2|J2].
  - rewrite H. destruct res; try apply refine_refl. apply IH. lia.
  - rewrite H. done.
  - cbn [refine]. destruct (try_rules entry' _ _ J1) as [J3 []|J3|J3]; cbn [out_state] in *; try done.
    + pose proof (cse_nk J3) as Hc. destruct (lj_opt_cse J3). cbn in Hc |- *. lia.
    + pose proof (retry_mono m J3). lia.
    + pose proof (kint_nk J3 (i32 k)) as Hc. destruct (lj_ir_kint J3 (i32 k)). cbn in Hc |- *. lia.
Qed.

End FoldMono.

Import Ir IrWf IntOps IntFacts Fold IrSem FoldSpec FoldEngine FoldLemmas FoldKfold FoldAlg FoldMono.

Module FoldBits.

Lemma opeq_true a b : opeq a b = true → a = b.
Proof. by destruct (opeq_spec a b). Qed.

Lemma end_op2_kint_self J w x k :
  ir_typed J → in_s 32 k →
  (∀ J' r, kcell J J' r 32 k → retry_ok J w x J' (set_op2 r (fins J))) →
  rule_ok J w x (Ret (fins_op2_kint k J) RETRYFOLD).
Proof.
  intros T Hk H. pose proof (end_op2_kint J w x (fins J) k T Hk H) as He. by destruct J.
Qed.

(** ** Constants on the right *)

Lemma ctx_bin_k J w k :
  ir_typed J → fdom J w (fins J) → loaded J → op_shape (io (fins J)) = ShBin →
  k ∈ [IR_KINT; IR_KINT64] → pat_ok (op k) (key_right J) →
  opnd J w (op1 (fins J)) ∧ opnd J w (op2 (fins J)) ∧
  (∀ ρ, models ρ J → ρ (op2 (fins J)) = kval J (fright J)) ∧
  ∀ ρ v, models ρ J → ir_arith w (io (fins J)) (ρ (op1 (fins J))) (kval J (fright J)) = Some v →
    ins_sem ρ (fins J) = SVal v.
Proof.
  intros T D L Hs Hk Hr. destruct (fdom_bin _ _ _ D Hs) as [O1 O2].
  destruct (ctx_right J L (proj1 O2)) as (ER & _). apply pat_right in Hr; [|done|apply O2].
  assert (∀ ρ, models ρ J → ρ (op2 (fins J)) = kval J (fright J)) as Hv.
  { intros ρ M. rewrite ER. apply kval_val; [done|done|apply O2|by rewrite Hr]. }
  split_and!; try done. intros ρ v M Ha. apply (sem_arith _ _ w); [apply D|]. by rewrite (Hv ρ M).
Qed.

Lemma simplify_band_k_ok k :
  k ∈ [IR_KINT; IR_KINT64] → fn_ok IR_BAND any (op k) simplify_band_k.
Proof.
  intros Hk. fold_intro. unfold simplify_band_k.
  destruct (ctx_bin_k J w k T D L ltac:(by rewrite Ho) Hk Hr) as (O1 & O2 & Hv & Hs).
  rewrite Ho in Hs.
  destruct (Z.eqb_spec (kval J (fright J)) 0) as [E|_].
  { apply end_ref; [done|by rewrite Ho|by left|]. intros ρ M. rewrite (Hv ρ M).
    apply Hs; [done|]. simpl. by rewrite E, Z.land_0_r. }
  destruct (Z.eqb_spec (kval J (fright J)) (-1)) as [E|_]; [|done].
  apply end_ref; [done|by rewrite Ho|by left|]. intros ρ M.
  apply Hs; [done|]. simpl. by rewrite E, Z.land_m1_r.
Qed.

Lemma simplify_bor_k_ok k :
  k ∈ [IR_KINT; IR_KINT64] → fn_ok IR_BOR any (op k) simplify_bor_k.
Proof.
  intros Hk. fold_intro. unfold simplify_bor_k.
  destruct (ctx_bin_k J w k T D L ltac:(by rewrite Ho) Hk Hr) as (O1 & O2 & Hv & Hs).
  rewrite Ho in Hs.
  destruct (Z.eqb_spec (kval J (fright J)) 0) as [E|_].
  { apply end_ref; [done|by rewrite Ho|by left|]. intros ρ M.
    apply Hs; [done|]. simpl. by rewrite E, Z.lor_0_r. }
  destruct (Z.eqb_spec (kval J (fright J)) (-1)) as [E|_]; [|done].
  apply end_ref; [done|by rewrite Ho|by left|]. intros ρ M. rewrite (Hv ρ M).
  apply Hs; [done|]. simpl. by rewrite E, Z.lor_m1_r.
Qed.

Lemma simplify_bxor_k_ok k :
  k ∈ [IR_KINT; IR_KINT64] → fn_ok IR_BXOR any (op k) simplify_bxor_k.
Proof.
  intros Hk. fold_intro. unfold simplify_bxor_k.
  destruct (ctx_bin_k J w k T D L ltac:(by rewrite Ho) Hk Hr) as (O1 & O2 & Hv & Hs).
  rewrite Ho in Hs.
  destruct (Z.eqb_spec (kval J (fright J)) 0) as [E|_].
  { apply end_ref; [done|by rewrite Ho|by left|]. intros ρ M.
    apply Hs; [done|]. simpl. by rewrite E, Z.lxor_0_r. }
  destruct (Z.eqb_spec (kval J (fright J)) (-1)) as [E|_]; [|done].
  apply (end_retry J w (fins J) (set_op2 0 (set_io IR_BNOT (fins J)))).
  - done.
  - left. apply mk_fdom; simpl; [done|apply D| |set_solver|set_solver].
    unfold ins_ok. simpl. rewrite (fd_w _ _ _ D). unfold KLIM. split; [done|lia].
  - by rewrite Ho.
  - intros ρ M. transitivity (SVal (Z.lnot (ρ (op1 (fins J))))).
    + apply (sem_arith _ _ w); [apply D|done].
    + symmetry. apply Hs; [done|]. simpl. by rewrite E, Z.lxor_m1_r.
  - apply meas_class. rewrite Ho. simpl. lia.
Qed.

(** ** Shifts *)

Definition shifts : list IROp := [IR_BSHL; IR_BSHR; IR_BSAR; IR_BROL; IR_BROR].

(** The mask the code applies to a shift count. *)
Lemma shift_mask t w : tyw t = Some w → (if irt_is64 t then 63 else 31) = w - 1.
Proof. intros H. rewrite (tyw_is64 _ _ H). by destruct (tyw_cases _ _ H) as [->| ->]. Qed.

Lemma shift_facts o : o ∈ shifts → op_shape o = ShShift ∧ is_guard o = false ∧ isk_op o = false.
Proof. intros H. unfold shifts in H. each H; done. Qed.

Lemma shifts_ne o : o ∈ shifts → o ≠ IR_BNOT ∧ o ≠ IR_BSWAP ∧ o ∉ [IR_ADD; IR_SUB].
Proof. intros H. unfold shifts in H. each H; split_and!; done || set_solver. Qed.

(** The operation on a count that is reduced already. *)
Definition ir_shift (w : Z) (o : IROp) (a n : Z) : Z :=
  match o with
  | IR_BSHL => wraps w (Z.shiftl a n)
  | IR_BSHR => wraps w (Z.shiftr (wrapu w a) n)
  | IR_BSAR => Z.shiftr a n
  | IR_BROL => rotl w a n
  | _ => rotl w a ((w - n) `mod` w)
  end.

Lemma ir_arith_shift w o a b :
  o ∈ shifts → ir_arith w o a b = Some (ir_shift w o a (Z.land b (w - 1))).
Proof. intros H. unfold shifts in H. each H; done. Qed.

Lemma ir_shift_0 w o a : 0 < w → in_s w a → o ∈ shifts → ir_shift w o a 0 = a.
Proof.
  intros Hw Ha H. unfold shifts in H. each H; simpl.
  - by apply wraps_id.
  - by rewrite Z.shiftr_0_r, wraps_wrapu, wraps_id.
  - by rewrite Z.shiftr_0_r.
  - by apply rotl_0.
  - by rewrite Z.sub_0_r, Z.mod_same, rotl_0 by (done || lia).
Qed.

Lemma sem_shift ρ x w :
  tyw (it x) = Some w → io x ∈ shifts →
  ins_sem ρ x = SVal (ir_shift w (io x) (ρ (op1 x)) (Z.land (ρ (op2 x)) (w - 1))).
Proof. intros Hw Ho. apply (sem_arith _ _ w); [done|by apply ir_arith_shift]. Qed.

Lemma mask_small w n : width w → 0 ≤ n < w → Z.land n (w - 1) = n.
Proof. intros Hw Hn. rewrite land_mask by done. by apply Z.mod_small. Qed.

(** A shift by a constant. *)
Lemma ctx_shift_k J w o :
  ir_typed J → fdom J w (fins J) → loaded J → io (fins J) = o → o ∈ shifts →
  pat_ok (op IR_KINT) (key_right J) →
  opnd J w (op1 (fins J)) ∧ refs J (op2 (fins J)) ∧ io (IR J (op2 (fins J))) = IR_KINT ∧
  fright J = IR J (op2 (fins J)) ∧ nk J ≤ op2 (fins J) < REF_BIAS ∧
  ∀ ρ, models ρ J → ins_sem ρ (fins J) =
    SVal (ir_shift w o (ρ (op1 (fins J))) (Z.land (ii (IR J (op2 (fins J)))) (w - 1))).
Proof.
  intros T D L Ho Hin Hr. destruct (shift_facts o Hin) as (Sh & _ & _).
  destruct (fdom_shift _ _ _ D ltac:(by rewrite Ho)) as (O1 & O2).
  destruct (ctx_right J L (proj1 O2)) as (ER & _). apply pat_right in Hr; [|done|apply O2].
  destruct (kint_rng _ _ T (proj1 O2) Hr) as (_ & _ & C2).
  split_and!; try done; [apply O2|lia|lia|]. intros ρ M.
  rewrite (sem_shift ρ _ w (fd_w _ _ _ D)), (kint_val _ _ _ T M (proj1 O2) Hr), Ho by (by rewrite Ho).
  done.
Qed.

Lemma simplify_shift_ik_ok o : o ∈ shifts → fn_ok o any (op IR_KINT) simplify_shift_ik.
Proof.
  intros Hin. destruct (shift_facts o Hin) as (Sh & Sg & _). fold_intro.
  destruct (ctx_shift_k J w o T D L Ho Hin Hr) as (O1 & RR & Kr & ER & C2 & Hs).
  unfold simplify_shift_ik. rewrite (shift_mask _ _ (fd_w _ _ _ D)), ER.
  pose proof (fdom_wpos _ _ _ D) as Hw. pose proof (fdom_pos _ _ _ D) as Hww.
  set (k2 := ii (IR J (op2 (fins J)))) in *.
  pose proof (count_range w k2 Hww) as Hn. set (n := Z.land k2 (w - 1)) in *.
  assert (in_s 32 n) as Hn32 by (unfold in_s; simpl; lia).
  destruct (Z.eqb_spec n 0) as [E|Hn0].
  { apply end_ref; [done|by rewrite Ho|by left|]. intros ρ M. rewrite Hs, E by done.
    f_equal. apply ir_shift_0; [done|by eapply opnd_rng|done]. }
  destruct ((n =? 1) && opeq (io (fins J)) IR_BSHL) eqn:E1.
  { apply andb_true_iff in E1 as [E1%Z.eqb_eq E2]. apply opeq_true in E2.
    apply (end_retry J w (fins J) (set_op2 (op1 (fins J)) (set_io IR_ADD (fins J)))).
    - done.
    - apply mk_zbin; simpl; [set_solver|apply D|by left|by left|done].
    - rewrite Ho. done.
    - intros ρ M. rewrite Hs, E1, <-Ho, E2 by done. apply (sem_arith _ _ w); [apply D|].
      simpl. by rewrite shl_one.
    - apply meas_class. rewrite E2. simpl. lia. }
  destruct (Z.eqb_spec n k2) as [Ek|Hne]; simpl.
  - destruct (opeq (io (fins J)) IR_BROR) eqn:E2; [|done]. apply opeq_true in E2.
    apply (end_op2_kint J w (fins J) (set_io IR_BROL (fins J))); [done| |].
    { pose proof (count_range w (- n) Hww). unfold in_s. simpl. lia. }
    intros J' r C. split_and!.
    + apply mk_shift; simpl; [done|apply D|by eapply kcell_opnd|apply C].
    + rewrite Ho. done.
    + intros ρ M' M. rewrite Hs, <-Ho, E2 by done.
      rewrite (sem_shift ρ (set_op2 r (set_io IR_BROL (fins J))) w (fd_w _ _ _ D))
        by (simpl; unfold shifts; set_solver).
      simpl. rewrite (kc_val _ _ _ _ _ C ρ M'), count_idem, neg_mask by done.
      rewrite (proj2 (Z.eqb_neq _ _)), Z.mod_small by lia. done.
    + apply meas_class. rewrite E2. simpl. lia.
  - apply end_op2_kint_self; [done|done|].
    intros J' r C. split_and!.
    + apply mk_shift; simpl; [by rewrite Ho|apply D|by eapply kcell_opnd|apply C].
    + done.
    + intros ρ M' M. rewrite Hs by done.
      rewrite (sem_shift ρ (set_op2 r (fins J)) w (fd_w _ _ _ D)) by (simpl; by rewrite Ho).
      simpl. rewrite (kc_val _ _ _ _ _ C ρ M'), Ho, mask_small by done. done.
    + right. split; [done|]. unfold meas. simpl.
      destruct C as [_ _ ? _ Hi _]. rewrite (mref_const r), (mref_const (op2 (fins J))) by lia.
      unfold minor, unreduced. simpl. rewrite (shift_mask _ _ (fd_w _ _ _ D)), Hi by done.
      fold k2. unfold shift_op. rewrite Ho, Sh, Kr. fold n.
      rewrite (mask_small w n) by done. rewrite Z.eqb_refl, (proj2 (Z.eqb_neq n k2)) by done.
      simpl. rewrite andb_false_r. repeat case_test; lia.
Qed.

(** A binary operation or a shift at a reference. *)
Lemma inst_bin J w r :
  ir_typed J → opnd J w r → op_shape (io (IR J r)) = ShBin →
  opnd J w (op1 (IR J r)) ∧ opnd J w (op2 (IR J r)) ∧
  (mref (op1 (IR J r)) < mref r)%nat ∧ (mref (op2 (IR J r)) < mref r)%nat.
Proof.
  intros T O Hs. assert (isk_op (io (IR J r)) = false) as Hk by (by destruct (io (IR J r))).
  destruct (inst_ssa J r T (proj1 O) Hk) as (? & ? & ?); [by rewrite Hs|].
  pose proof (inst_shape J w r T O Hk) as Hsh. rewrite Hs in Hsh. destruct Hsh.
  split_and!; try done; by apply mref_lt.
Qed.
Lemma inst_shift J w r :
  ir_typed J → opnd J w r → op_shape (io (IR J r)) = ShShift →
  opnd J w (op1 (IR J r)) ∧ opnd J 32 (op2 (IR J r)) ∧
  (mref (op1 (IR J r)) < mref r)%nat ∧ (mref (op2 (IR J r)) < mref r)%nat.
Proof.
  intros T O Hs. assert (isk_op (io (IR J r)) = false) as Hk by (by destruct (io (IR J r))).
  destruct (inst_ssa J r T (proj1 O) Hk) as (? & ? & ?); [by rewrite Hs|].
  pose proof (inst_shape J w r T O Hk) as Hsh. rewrite Hs in Hsh. destruct Hsh.
  split_and!; try done; by apply mref_lt.
Qed.
Lemma inst_binval J ρ w r o v :
  ir_typed J → models ρ J → opnd J w r → io (IR J r) = o → isk_op o = false →
  ir_arith w o (ρ (op1 (IR J r))) (ρ (op2 (IR J r))) = Some v → ρ r = v.
Proof. intros T M O Ho Hk Hv. apply (inst_val J ρ r w); try done; by rewrite Ho. Qed.

(** i o (j & mask) ==> i o j *)
Lemma simplify_shift_andk_ok o : o ∈ shifts → fn_ok o any (op IR_BAND) simplify_shift_andk.
Proof.
  intros Hin. destruct (shift_facts o Hin) as (Sh & Sg & _). fold_intro.
  destruct (fdom_shift _ _ _ D ltac:(by rewrite Ho)) as (O1 & O2).
  destruct (ctx_right J L (proj1 O2)) as (ER & _). apply pat_right in Hr; [|done|apply O2].
  unfold simplify_shift_andk. apply end_phi. rewrite (shift_mask _ _ (fd_w _ _ _ D)), ER.
  destruct (opeq (io (IR J (op2 (IR J (op2 (fins J)))))) IR_KINT) eqn:Ek; [|done].
  apply opeq_true in Ek.
  destruct (inst_bin J 32 _ T O2 ltac:(by rewrite Hr)) as (P1 & P2 & M1 & M2).
  destruct (Z.eqb_spec (Z.land (ii (IR J (op2 (IR J (op2 (fins J)))))) (w - 1)) (w - 1)) as [E|_]; [|done].
  apply (end_retry J w (fins J) (set_op2 (op1 (IR J (op2 (fins J)))) (fins J))).
  - done.
  - apply mk_shift; simpl; [by rewrite Ho|apply D|done|done].
  - done.
  - intros ρ M. rewrite (sem_shift ρ (fins J) w (fd_w _ _ _ D)) by (by rewrite Ho).
    rewrite (sem_shift ρ (set_op2 _ (fins J)) w (fd_w _ _ _ D)) by (simpl; by rewrite Ho).
    simpl. do 2 f_equal.
    rewrite (inst_binval J ρ 32 (op2 (fins J)) IR_BAND _ T M O2 Hr eq_refl eq_refl).
    rewrite (kint_val _ _ _ T M (proj1 P2) Ek). by rewrite land_count.
  - apply meas_refs; simpl; [done|lia].
Qed.

(** 0 o i ==> 0 *)
Lemma ir_shift_zero w o n : 0 ≤ n < w → o ∈ shifts → ir_shift w o 0 n = 0.
Proof.
  intros Hn H. assert (in_s w 0) by (apply in_s_zero; lia). pose proof (Z.mod_pos_bound (w - n) w ltac:(lia)).
  unfold shifts in H. each H; simpl.
  - rewrite Z.shiftl_0_l. by apply wraps_id; [lia|].
  - change (wrapu w 0) with (0 `mod` 2 ^ w). rewrite Zmod_0_l, Z.shiftr_0_l. by apply wraps_id; [lia|].
  - by apply Z.shiftr_0_l.
  - by apply rotl_zero.
  - by apply rotl_zero.
Qed.
(** -1 o i ==> -1 *)
Lemma ir_shift_m1 w o n :
  0 ≤ n < w → o ∈ [IR_BSAR; IR_BROL; IR_BROR] → ir_shift w o (-1) n = -1.
Proof.
  intros Hn H. pose proof (Z.mod_pos_bound (w - n) w ltac:(lia)). each H; simpl.
  - apply Z.bits_inj'. intros i Hi. rewrite Z.shiftr_spec by done. by rewrite !Z.bits_m1 by lia.
  - by apply rotl_m1.
  - by apply rotl_m1.
Qed.

Lemma ctx_kshift J w o k :
  ir_typed J → fdom J w (fins J) → loaded J → io (fins J) = o → o ∈ shifts →
  k ∈ [IR_KINT; IR_KINT64] → io (IR J (op1 (fins J))) = k → refs J (op1 (fins J)) →
  fleft J = IR J (op1 (fins J)) →
  opnd J w (op1 (fins J)) ∧
  ∀ ρ, models ρ J → ρ (op1 (fins J)) = kval J (fleft J) ∧
    ∃ n, 0 ≤ n < w ∧ ins_sem ρ (fins J) = SVal (ir_shift w o (kval J (fleft J)) n).
Proof.
  intros T D L Ho Hin Hk Hl RL EL. destruct (shift_facts o Hin) as (Sh & _ & _).
  destruct (fdom_shift _ _ _ D ltac:(by rewrite Ho)) as (O1 & O2). split; [done|].
  intros ρ M. assert (ρ (op1 (fins J)) = kval J (fleft J)) as Hv.
  { rewrite EL. apply kval_val; [done..|by rewrite Hl]. }
  split; [done|]. exists (Z.land (ρ (op2 (fins J))) (w - 1)).
  split; [apply count_range; exact (fdom_pos _ _ _ D)|].
  by rewrite (sem_shift ρ _ w (fd_w _ _ _ D)), Hv, Ho by (by rewrite Ho).
Qed.

Lemma simplify_shift1_ki_ok o k :
  o ∈ [IR_BSHL; IR_BSHR] → k ∈ [IR_KINT; IR_KINT64] → fn_ok o (op k) any simplify_shift1_ki.
Proof.
  intros Ho' Hk. assert (o ∈ shifts) as Hin by (unfold shifts; set_solver).
  fold_intro. destruct (ctx_kshift J w o k T D L Ho Hin Hk Hl RL EL) as (O1 & Hv).
  unfold simplify_shift1_ki. destruct (Z.eqb_spec (kval J (fleft J)) 0) as [E|_]; [|done].
  apply end_ref; [done|rewrite Ho; by apply shift_facts|by left|]. intros ρ M.
  destruct (Hv ρ M) as (-> & n & Hn & ->). f_equal. rewrite E. by apply ir_shift_zero.
Qed.

Lemma simplify_shift2_ki_ok o k :
  o ∈ [IR_BSAR; IR_BROL; IR_BROR] → k ∈ [IR_KINT; IR_KINT64] → fn_ok o (op k) any simplify_shift2_ki.
Proof.
  intros Ho' Hk. assert (o ∈ shifts) as Hin by (unfold shifts; set_solver).
  fold_intro. destruct (ctx_kshift J w o k T D L Ho Hin Hk Hl RL EL) as (O1 & Hv).
  unfold simplify_shift2_ki.
  destruct ((kval J (fleft J) =? 0) || (kval J (fleft J) =? -1)) eqn:E; [|done].
  apply end_ref; [done|rewrite Ho; by apply shift_facts|by left|]. intros ρ M.
  destruct (Hv ρ M) as (-> & n & Hn & ->). f_equal.
  apply orb_true_iff in E as [E%Z.eqb_eq|E%Z.eqb_eq]; rewrite E;
    [by apply ir_shift_zero|by apply ir_shift_m1].
Qed.

(** (i & k1) o k2 ==> (i o k2) & (k1 o k2) *)
Lemma simplify_shiftk_andk_ok o :
  o ∈ [IR_BSHL; IR_BSHR; IR_BROL; IR_BROR] →
  fn_ok o (op IR_BAND) (op IR_KINT) simplify_shiftk_andk.
Proof.
  intros Ho'. assert (o ∈ shifts) as Hin by (unfold shifts; set_solver).
  destruct (shift_facts o Hin) as (Sh & Sg & _). fold_intro.
  destruct (ctx_shift_k J w o T D L Ho Hin Hr) as (O1 & RR & Kr & ER & C2 & Hs).
  destruct (inst_bin J w _ T O1 ltac:(by rewrite Hl)) as (P1 & P2 & M1 & M2).
  unfold simplify_shiftk_andk. apply end_phi. rewrite EL, ER, Ho.
  destruct (opeq (io (IR J (op2 (IR J (op1 (fins J)))))) IR_KINT) eqn:Ek; [|done].
  apply opeq_true in Ek. assert (w = 32) as -> by exact (kint_width _ _ _ T P2 Ek).
  set (i := op1 (IR J (op1 (fins J)))) in *. set (r2 := op2 (fins J)) in *.
  set (k1 := ii (IR J (op2 (IR J (op1 (fins J)))))) in *. set (k2 := ii (IR J r2)) in *.
  destruct (kint_rng _ _ T (proj1 P2) Ek) as (K1 & _ & _).
  destruct (kint_rng _ _ T RR Kr) as (K2 & W2 & _).
  set (n := Z.land k2 31) in *.
  assert (kfold_intop k1 k2 o = ir_shift 32 o k1 n) as Ekf.
  { apply kfold_intop_arith; [done|done|by apply shifts_ne|by apply shifts_ne|].
    by apply ir_arith_shift. }
  assert (∀ a, in_s 32 (ir_shift 32 o a n)) as Hrng.
  { intros a. clear -Ho'. each Ho'; simpl; first [by apply wraps_range|by apply rotl_range]. }
  set (y := set_op1 i (fins J)).
  assert (io y ∈ shifts) as Hy by (by simpl; rewrite Ho).
  assert (fdom J 32 y) as Dy.
  { destruct (mk_shift J 32 y) as [?|[Hz _]]; [by simpl; rewrite Ho|apply D|done|by split|done|].
    exfalso. simpl in Hz. rewrite Ho in Hz. by apply (shifts_ne o Hin). }
  split; [intros _; split_and!|].
  - by apply wstep_set_fins.
  - destruct Dy. by constructor.
  - apply meas_refs; simpl; [done|lia].
  - simpl. by rewrite Ho.
  - intros ρ _. change (fins (fins_op1 i J)) with y.
    by rewrite (sem_shift ρ y 32 (fd_w _ _ _ Dy) Hy).
  - intros J2 ref _ H2. unfold fins_op2_kint.
    destruct (lj_ir_kint (fins_op1 ref J2) (kfold_intop k1 k2 o)) as [J3 rk] eqn:Ekint.
    simpl. intros Hlim.
    assert (KLIM < nk J2) as Hlim2.
    { pose proof (kint_nk (fins_op1 ref J2) (kfold_intop k1 k2 o)) as Hn. rewrite Ekint in Hn.
      simpl in Hn. lia. }
    destruct (H2 Hlim2) as [S2 R2]. clear H2. pose proof (ws_ty _ _ S2) as T2.
    destruct (kint_cell J2 _ (kfold_intop k1 k2 o) J3 rk T2 ltac:(by rewrite Ekf) Ekint Hlim) as (C & Hf & _).
    assert (opnd J2 32 ref) as Oref.
    { apply zopnd_32; [apply T2|]. apply R2. simpl. by rewrite Ho. }
    assert (wstep J J3) as S3.
    { eapply wstep_trans; [|apply C]. eapply wstep_trans; [by apply (wstep_set_fins J y)|done]. }
    apply (end_retry_at J 32 (fins J) J3); [done|done|].
    change (fins (fins_op2 rk J3)) with (set_op2 rk (fins J3)). rewrite Hf. simpl. split_and!.
    + apply mk_bin; simpl; try done; [by eapply kcell_opnd|apply C].
    + simpl. by rewrite Ho.
    + intros ρ M3 M. rewrite Hs by done.
      transitivity (SVal (Z.land (ρ ref) (ρ rk))); [by apply (sem_arith _ _ 32)|]. f_equal.
      rewrite (kc_val _ _ _ _ _ C ρ M3), Ekf.
      assert (models ρ J2) as M2' by (apply (models_ext ρ J2 J3); [apply T2|apply C|done]).
      pose proof (ro_sem _ _ _ _ _ R2 ρ M2') as Hh. unfold holds in Hh.
      change (fins (fins_op1 i J)) with y in Hh.
      rewrite (sem_shift ρ y 32 (fd_w _ _ _ Dy) Hy) in Hh. simpl in Hh.
      fold r2 in Hh. rewrite Ho, (kint_val _ _ _ T M RR Kr) in Hh. fold k2 n in Hh. rewrite Hh.
      rewrite (inst_binval J ρ 32 (op1 (fins J)) IR_BAND _ T M O1 Hl eq_refl eq_refl).
      fold i. rewrite (kint_val _ _ _ T M (proj1 P2) Ek). fold k1. symmetry.
      apply (arith_land o 32 (ρ i) k1 k2); [by left|done|exact (opnd_rng _ _ _ _ M P1)|done|..];
        by apply ir_arith_shift.
    + apply meas_class. simpl. rewrite Ho. clear -Ho'. each Ho'; simpl; lia.
Qed.

(** (i o k1) & k2 ==> i o k1, if (-1 o k1) == k2 *)
Lemma simplify_andk_shiftk_ok o :
  o ∈ [IR_BSHL; IR_BSHR] → fn_ok IR_BAND (op o) (op IR_KINT) simplify_andk_shiftk.
Proof.
  intros Ho'. assert (o ∈ shifts) as Hin by (unfold shifts; set_solver).
  destruct (shift_facts o Hin) as (Sh & Sg & Sk). fold_intro. fold_right.
  destruct (fdom_bin _ _ _ D ltac:(by rewrite Ho)) as (O1 & O2).
  assert (w = 32) as -> by (by eapply kint_width).
  destruct (inst_shift J 32 _ T O1 ltac:(by rewrite Hl)) as (P1 & P2 & _ & _).
  unfold simplify_andk_shiftk. rewrite EL, ER, Hl.
  destruct (opeq (io (IR J (op2 (IR J (op1 (fins J)))))) IR_KINT) eqn:Ek; [|done].
  apply opeq_true in Ek. destruct (Z.eqb_spec (kfold_intop (-1)
    (ii (IR J (op2 (IR J (op1 (fins J)))))) o) (ii (IR J (op2 (fins J))))) as [E|_]; [|done].
  destruct (kint_rng _ _ T (proj1 P2) Ek) as (K1 & _ & _).
  apply (end_ref J 32); [done|by rewrite Ho|by left|]. intros ρ M.
  apply (sem_arith _ _ 32); [apply D|]. rewrite Ho. simpl. f_equal.
  rewrite (kint_val _ _ _ T M RR Hr), <-E.
  set (k1 := ii (IR J (op2 (IR J (op1 (fins J)))))) in *.
  rewrite (inst_binval J ρ 32 (op1 (fins J)) o _ T M O1 Hl Sk (ir_arith_shift _ _ _ _ Hin)).
  rewrite (kint_val _ _ _ T M (proj1 P2) Ek). fold k1.
  rewrite (kfold_intop_arith o (-1) k1 (ir_shift 32 o (-1) (Z.land k1 31)));
    [|by unfold in_s|done|by apply shifts_ne|by apply shifts_ne|by apply ir_arith_shift].
  set (i := op1 (IR J (op1 (fins J)))) in *. symmetry.
  apply (arith_land o 32 (ρ i) (-1) k1); [by left|set_solver|by eapply opnd_rng|by unfold in_s|..].
  - by apply ir_arith_shift.
  - by apply ir_arith_shift.
  - rewrite Z.land_m1_r. by apply ir_arith_shift.
Qed.

End FoldBits.
