(* ===== verification/FoldReassoc.v ===== *)
(** * Reassociation and commutativity

    The fold functions that reorder or merge operands keep their promise. *)

From stdpp Require Import base decidable list numbers option sets.
From Stdlib Require Import ZArith Lia.
From S2P Require Import Prelude Obj Ir IrWf IntOps IntFacts Fold IrSem FoldSpec FoldEngine.
From S2P Require Import FoldLemmas FoldKfold FoldAlg FoldBits.

Local Open Scope Z_scope.
Import Ir IrWf IntOps IntFacts Fold IrSem FoldSpec FoldEngine FoldLemmas FoldKfold FoldAlg
  FoldMono FoldBits.

Module FoldReassoc.

(** ** Associative operations *)

Definition assocs : list IROp := [IR_ADD; IR_MUL; IR_BAND; IR_BOR; IR_BXOR].

Lemma arith_assoc w o a b c x y :
  0 < w → o ∈ assocs → ir_arith w o a b = Some x → ir_arith w o b c = Some y →
  ir_arith w o x c = ir_arith w o a y.
Proof.
  intros Hw H. unfold assocs in H. each H; simpl; intros [= <-] [= <-]; f_equal.
  - rewrite wraps_add_l, wraps_add_r by done. f_equal; lia.
  - rewrite wraps_mul_l, wraps_mul_r by done. f_equal; lia.
  - by rewrite Z.land_assoc.
  - by rewrite Z.lor_assoc.
  - by rewrite Z.lxor_assoc.
Qed.

(** Operands of an associative operation. *)
Definition aopnd (J : jit_State) (w : Z) (o : IROp) (r : Z) : Prop :=
  if opeq o IR_ADD then zopnd J w r else opnd J w r.

Lemma aopnd_zopnd J w o r : aopnd J w o r → zopnd J w r.
Proof. unfold aopnd. case_test; [done|by left]. Qed.

Lemma fdom_assoc J w x :
  fdom J w x → io x ∈ assocs → aopnd J w (io x) (op1 x) ∧ opnd J w (op2 x).
Proof.
  intros [_ Hw Hok _ _ _] H. unfold ins_ok, assocs, aopnd in *. rewrite Hw in Hok.
  revert Hok H. generalize (io x). intros o Hok H. each H; simpl in Hok |- *; apply Hok.
Qed.

Lemma inst_assoc J w r o :
  ir_typed J → zopnd J w r → io (IR J r) = o → o ∈ assocs →
  opnd J w r ∧ aopnd J w o (op1 (IR J r)) ∧ opnd J w (op2 (IR J r)) ∧
  (mref (op1 (IR J r)) < mref r)%nat ∧ (mref (op2 (IR J r)) < mref r)%nat.
Proof.
  intros T Hz Ho Hin.
  assert (opnd J w r) as O.
  { apply zopnd_inst; [done|]. rewrite Ho. clear -Hin. unfold assocs in Hin. each Hin; done. }
  split; [done|]. unfold aopnd. destruct (opeq_spec o IR_ADD) as [->|Hne].
  - destruct (inst_zbin J w r T Hz) as (? & ? & ? & ?); [rewrite Ho; set_solver|done].
  - apply inst_bin; [done|done|]. rewrite Ho. clear -Hin Hne. unfold assocs in Hin. each Hin; done.
Qed.

Lemma mk_assoc J w x :
  io x ∈ assocs → tyw (it x) = Some w → aopnd J w (io x) (op1 x) → opnd J w (op2 x) →
  ir_typed J → fdomz J w x.
Proof.
  intros Hin Hw O1 O2 T. unfold aopnd in O1. destruct (opeq_spec (io x) IR_ADD) as [E|Hne].
  - apply mk_zbin; [rewrite E; set_solver|done|done|by left|done].
  - assert (op_shape (io x) = ShBin ∧ fold_op (io x) = true ∧ io x ≠ IR_MOD ∧
      io x ∉ [IR_ADDOV; IR_SUBOV; IR_MULOV]) as (? & ? & ? & ?).
    { revert Hin Hne. generalize (io x). unfold assocs. intros o Hin Hne.
      each Hin; split_and!; done || set_solver. }
    by apply mk_bin.
Qed.

Lemma assoc_facts o :
  o ∈ assocs → is_guard o = false ∧ isk_op o = false ∧ o ≠ IR_BNOT ∧ o ≠ IR_BSWAP ∧
  o ∈ [IR_ADD; IR_SUB; IR_MUL; IR_BAND; IR_BOR; IR_BXOR] ∧ ∀ w a b, ∃ v, ir_arith w o a b = Some v.
Proof.
  intros H. unfold assocs in H. each H; split_and!; try done; try set_solver; simpl; eauto.
Qed.

(** [(i o k1) o k2] is [i o (k1 o k2)]. *)
Lemma sem_assoc J ρ w o k1 k2 k :
  ir_typed J → models ρ J → fdom J w (fins J) → io (fins J) = o → o ∈ assocs →
  io (IR J (op1 (fins J))) = o →
  ρ (op2 (IR J (op1 (fins J)))) = k1 → ρ (op2 (fins J)) = k2 → ir_arith w o k1 k2 = Some k →
  ∃ v, ins_sem ρ (fins J) = SVal v ∧ ir_arith w o (ρ (op1 (IR J (op1 (fins J))))) k = Some v.
Proof.
  intros T M D Ho Hin Hl E1 E2 Ek. destruct (assoc_facts o Hin) as (_ & Hk & _ & _ & _ & Hex).
  destruct (fdom_assoc _ _ _ D) as [Z1 _]; [by rewrite Ho|]. apply aopnd_zopnd in Z1.
  destruct (inst_assoc J w _ o T Z1 Hl Hin) as (O & _).
  destruct (Hex w (ρ (op1 (IR J (op1 (fins J))))) k1) as [x Hx].
  destruct (Hex w (ρ (op1 (IR J (op1 (fins J))))) k) as [v Hv]. exists v. split; [|done].
  apply (sem_arith _ _ w); [apply D|]. rewrite Ho, E2.
  rewrite (inst_binval J ρ w (op1 (fins J)) o x T M O Hl Hk) by (by rewrite E1).
  rewrite (arith_assoc w o (ρ (op1 (IR J (op1 (fins J))))) k1 k2 x k); try done.
  by eapply fdom_wpos.
Qed.

Lemma kfold_assoc_rng o a b : o ∈ assocs → in_s 32 a → in_s 32 b → in_s 32 (kfold_intop a b o).
Proof.
  intros H Ha Hb. unfold assocs in H. each H; simpl;
    first [by apply wraps_range|by apply in_s_land|by apply in_s_lor|by apply in_s_lxor].
Qed.

Lemma reassoc_intarith_k_ok o : o ∈ assocs → fn_ok o (op o) (op IR_KINT) reassoc_intarith_k.
Proof.
  intros Hin. destruct (assoc_facts o Hin) as (Hg & Hk & Hn1 & Hn2 & _ & Hex). fold_intro.
  destruct (fdom_assoc _ _ _ D) as [A1 O2]; [by rewrite Ho|].
  destruct (ctx_right J L (proj1 O2)) as (ER & _). apply pat_right in Hr; [|done|apply O2].
  assert (w = 32) as -> by exact (kint_width _ _ _ T O2 Hr). rewrite Ho in A1.
  destruct (inst_assoc J 32 _ o T (aopnd_zopnd _ _ _ _ A1) Hl Hin) as (O1 & P1 & P2 & M1 & M2).
  unfold reassoc_intarith_k. rewrite EL, ER, Ho.
  destruct (opeq (io (IR J (op2 (IR J (op1 (fins J)))))) IR_KINT) eqn:Ek; [|done].
  apply opeq_true in Ek. destruct (kint_rng _ _ T (proj1 P2) Ek) as (K1 & _ & _).
  destruct (kint_rng _ _ T (proj1 O2) Hr) as (K2 & _ & C2).
  set (k1 := ii (IR J (op2 (IR J (op1 (fins J)))))) in *. set (k2 := ii (IR J (op2 (fins J)))) in *.
  destruct (Hex 32 k1 k2) as [k Hka]. pose proof (kfold_assoc_rng o k1 k2 Hin K1 K2) as Hkr.
  rewrite (kfold_intop_arith o k1 k2 k) in * by done.
  assert (∀ ρ, models ρ J → ∃ v, ins_sem ρ (fins J) = SVal v ∧
    ir_arith 32 o (ρ (op1 (IR J (op1 (fins J))))) k = Some v) as Hs.
  { intros ρ M. apply (sem_assoc J ρ 32 o k1 k2); try done.
    - apply kint_val; [done|done|apply P2|done].
    - apply kint_val; [done|done|apply O2|done]. }
  destruct (Z.eqb_spec k k1) as [E|_].
  - apply (end_ref J 32); [done|by rewrite Ho|by left|]. intros ρ M.
    destruct (Hs ρ M) as (v & -> & Hv). f_equal. symmetry.
    apply (inst_binval J ρ 32 _ o v T M O1 Hl Hk).
    rewrite (kint_val _ _ _ T M (proj1 P2) Ek). fold k1. by rewrite <-E.
  - apply end_phi. apply (end_op2_kint J 32 (fins J) (set_op1 (op1 (IR J (op1 (fins J)))) (fins J)));
      [done|done|]. intros J' r C. split_and!.
    + apply mk_assoc; simpl; rewrite ?Ho; [done|apply D| |apply C|by eapply kcell_typed].
      unfold aopnd in *. case_test; [by eapply kcell_zopnd|by eapply kcell_opnd].
    + done.
    + intros ρ M' M. destruct (Hs ρ M) as (v & -> & Hv). apply (sem_arith _ _ 32); [apply D|].
      simpl. by rewrite (kc_val _ _ _ _ _ C ρ M'), Ho.
    + apply meas_refs; simpl; [done|]. rewrite (mref_const r) by apply C. lia.
Qed.

Lemma reassoc_intarith_k64_ok o : o ∈ assocs → fn_ok o (op o) (op IR_KINT64) reassoc_intarith_k64.
Proof.
  intros Hin. destruct (assoc_facts o Hin) as (Hg & Hk & _ & _ & Hin' & Hex). fold_intro.
  destruct (fdom_assoc _ _ _ D) as [A1 O2]; [by rewrite Ho|].
  destruct (ctx_right J L (proj1 O2)) as (ER & _). apply pat_right in Hr; [|done|apply O2].
  assert (w = 64) as -> by exact (kint64_width _ _ _ T O2 Hr). rewrite Ho in A1.
  destruct (inst_assoc J 64 _ o T (aopnd_zopnd _ _ _ _ A1) Hl Hin) as (O1 & P1 & P2 & M1 & M2).
  unfold reassoc_intarith_k64. rewrite EL, ER, Ho.
  destruct (opeq (io (IR J (op2 (IR J (op1 (fins J)))))) IR_KINT64) eqn:Ek; [|done].
  apply opeq_true in Ek. destruct (kint64_rng _ _ T (proj1 P2) Ek) as (K1 & _ & _).
  destruct (kint64_rng _ _ T (proj1 O2) Hr) as (K2 & _ & C2).
  set (k1 := rawK J (IR J (op2 (IR J (op1 (fins J)))))) in *.
  set (k2 := rawK J (IR J (op2 (fins J)))) in *.
  assert (∀ ρ, models ρ J → ∃ v, ins_sem ρ (fins J) = SVal v ∧
    ir_arith 64 o (ρ (op1 (IR J (op1 (fins J))))) (i64 (kfold_int64arith k1 k2 o)) = Some v) as Hs.
  { intros ρ M. apply (sem_assoc J ρ 64 o (i64 k1) (i64 k2)); try done.
    - apply kint64_val; [done|done|apply P2|done].
    - apply kint64_val; [done|done|apply O2|done].
    - destruct (Hex 64 (i64 k1) (i64 k2)) as [v Hv]. rewrite Hv. f_equal. symmetry.
      by apply kfold_int64arith_arith. }
  apply end_phi. apply (end_op2_kint64 J 64 (fins J) (set_op1 (op1 (IR J (op1 (fins J)))) (fins J)));
    [done|by apply kfold_int64arith_rng|]. intros J' r C. split_and!.
  - apply mk_assoc; simpl; rewrite ?Ho; [done|apply D| |apply C|by eapply kcell_typed].
    unfold aopnd in *. case_test; [by eapply kcell_zopnd|by eapply kcell_opnd].
  - done.
  - intros ρ M' M. destruct (Hs ρ M) as (v & -> & Hv). apply (sem_arith _ _ 64); [apply D|].
    simpl. by rewrite (kc_val _ _ _ _ _ C ρ M'), Ho.
  - apply meas_refs; simpl; [done|]. rewrite (mref_const r) by apply C. lia.
Qed.

(** ** Repeated operands *)

(** A binary operation on a binary operation. *)
Lemma ctx_bin_left J w o ol :
  ir_typed J → fdom J w (fins J) → io (fins J) = o → op_shape o = ShBin →
  io (IR J (op1 (fins J))) = ol → op_shape ol = ShBin →
  opnd J w (op1 (fins J)) ∧ opnd J w (op2 (fins J)) ∧
  opnd J w (op1 (IR J (op1 (fins J)))) ∧ opnd J w (op2 (IR J (op1 (fins J)))).
Proof.
  intros T D Ho Hs Hl Hsl. destruct (fdom_bin _ _ _ D) as (O1 & O2); [by rewrite Ho|].
  destruct (inst_bin J w _ T O1) as (P1 & P2 & _); [by rewrite Hl|]. done.
Qed.

Lemma reassoc_dup_ok o :
  o ∈ [IR_MIN; IR_MAX; IR_BAND; IR_BOR] → fn_ok o (op o) any reassoc_dup.
Proof.
  intros Hin. assert (op_shape o = ShBin ∧ is_guard o = false ∧ isk_op o = false) as (Hs & Hg & Hk)
    by (each Hin; done).
  fold_intro. destruct (ctx_bin_left J w o o T D Ho Hs Hl Hs) as (O1 & O2 & P1 & P2).
  unfold reassoc_dup. rewrite EL.
  destruct ((_ =? _) || _) eqn:E; [|done]. apply orb_true_iff in E.
  apply end_ref; [done|by rewrite Ho|by left|]. intros ρ M.
  apply (sem_arith _ _ w); [apply D|]. rewrite Ho.
  pose proof (λ v, inst_binval J ρ w (op1 (fins J)) o v T M O1 Hl Hk) as Hv.
  set (a := ρ (op1 (IR J (op1 (fins J))))) in *. set (b := ρ (op2 (IR J (op1 (fins J))))) in *.
  assert (ρ (op2 (fins J)) = a ∨ ρ (op2 (fins J)) = b) as Hab.
  { destruct E as [E%Z.eqb_eq|E%Z.eqb_eq]; rewrite E; auto. }
  clear -Hin Hv Hab. each Hin; simpl in *; rewrite (Hv _ eq_refl); destruct Hab as [-> | ->]; f_equal;
    try lia; apply Z.bits_inj'; intros i Hi; rewrite ?Z.land_spec, ?Z.lor_spec;
    by destruct (Z.testbit a i), (Z.testbit b i).
Qed.

Lemma reassoc_bxor_ok : fn_ok IR_BXOR (op IR_BXOR) any reassoc_bxor.
Proof.
  fold_intro. destruct (ctx_bin_left J w _ _ T D Ho eq_refl Hl eq_refl) as (O1 & O2 & P1 & P2).
  unfold reassoc_bxor. apply end_phi. rewrite EL.
  assert (∀ ρ, models ρ J → ins_sem ρ (fins J) = SVal (Z.lxor (Z.lxor
    (ρ (op1 (IR J (op1 (fins J))))) (ρ (op2 (IR J (op1 (fins J)))))) (ρ (op2 (fins J))))) as Hs.
  { intros ρ M. apply (sem_arith _ _ w); [apply D|]. rewrite Ho.
    by rewrite (inst_binval J ρ w (op1 (fins J)) _ _ T M O1 Hl eq_refl eq_refl). }
  destruct (Z.eqb_spec (op2 (fins J)) (op1 (IR J (op1 (fins J))))) as [E|_].
  { apply end_ref; [done|by rewrite Ho|by left|]. intros ρ M. rewrite Hs, E by done.
    by rewrite (Z.lxor_comm (ρ _)), Z.lxor_assoc, Z.lxor_nilpotent, Z.lxor_0_r. }
  destruct (Z.eqb_spec (op2 (fins J)) (op2 (IR J (op1 (fins J))))) as [E|_]; [|done].
  apply end_ref; [done|by rewrite Ho|by left|]. intros ρ M. rewrite Hs, E by done.
  by rewrite Z.lxor_assoc, Z.lxor_nilpotent, Z.lxor_0_r.
Qed.

(** (b o1 a) o2 b ==> b *)
Lemma reassoc_minmax_left_ok o o' :
  (o, o') ∈ [(IR_MIN, IR_MAX); (IR_MAX, IR_MIN)] → fn_ok o (op o') any reassoc_minmax_left.
Proof.
  intros Hin. assert (op_shape o = ShBin ∧ op_shape o' = ShBin ∧ is_guard o = false ∧
    isk_op o' = false) as (Hs & Hs' & Hg & Hk).
  { apply elem_of_cons in Hin as [[= -> ->]|Hin]; [done|].
    apply list_elem_of_singleton in Hin as [= -> ->]. done. }
  fold_intro. destruct (ctx_bin_left J w o o' T D Ho Hs Hl Hs') as (O1 & O2 & P1 & P2).
  unfold reassoc_minmax_left. rewrite EL.
  destruct ((_ =? _) || _) eqn:E; [|done]. apply orb_true_iff in E.
  apply end_ref; [done|by rewrite Ho|by left|]. intros ρ M.
  apply (sem_arith _ _ w); [apply D|]. rewrite Ho.
  pose proof (λ v, inst_binval J ρ w (op1 (fins J)) o' v T M O1 Hl Hk) as Hv.
  assert (ρ (op2 (fins J)) = ρ (op1 (IR J (op1 (fins J)))) ∨
          ρ (op2 (fins J)) = ρ (op2 (IR J (op1 (fins J))))) as Hab.
  { destruct E as [E%Z.eqb_eq|E%Z.eqb_eq]; rewrite E; auto. }
  clear -Hin Hv Hab. apply elem_of_cons in Hin as [[= -> ->]|Hin];
    [|apply list_elem_of_singleton in Hin as [= -> ->]]; simpl in *;
    rewrite (Hv _ eq_refl); f_equal; lia.
Qed.

(** a o2 (a o1 b) ==> a *)
Lemma reassoc_minmax_right_ok o o' :
  (o, o') ∈ [(IR_MIN, IR_MAX); (IR_MAX, IR_MIN)] → fn_ok o any (op o') reassoc_minmax_right.
Proof.
  intros Hin. assert (op_shape o = ShBin ∧ op_shape o' = ShBin ∧ is_guard o = false ∧
    isk_op o' = false) as (Hs & Hs' & Hg & Hk).
  { apply elem_of_cons in Hin as [[= -> ->]|Hin]; [done|].
    apply list_elem_of_singleton in Hin as [= -> ->]. done. }
  fold_intro. destruct (fdom_bin _ _ _ D) as (O1 & O2); [by rewrite Ho|].
  destruct (ctx_right J L (proj1 O2)) as (ER & _). apply pat_right in Hr; [|done|apply O2].
  unfold reassoc_minmax_right. rewrite ER.
  destruct ((_ =? _) || _) eqn:E; [|done]. apply orb_true_iff in E.
  apply end_ref; [done|by rewrite Ho|by left|]. intros ρ M.
  apply (sem_arith _ _ w); [apply D|]. rewrite Ho.
  pose proof (λ v, inst_binval J ρ w (op2 (fins J)) o' v T M O2 Hr Hk) as Hv.
  assert (ρ (op1 (fins J)) = ρ (op1 (IR J (op2 (fins J)))) ∨
          ρ (op1 (fins J)) = ρ (op2 (IR J (op2 (fins J))))) as Hab.
  { destruct E as [E%Z.eqb_eq|E%Z.eqb_eq]; rewrite E; auto. }
  clear -Hin Hv Hab. apply elem_of_cons in Hin as [[= -> ->]|Hin];
    [|apply list_elem_of_singleton in Hin as [= -> ->]]; simpl in *;
    rewrite (Hv _ eq_refl); f_equal; lia.
Qed.

Lemma reassoc_minmax_k_ok o :
  o ∈ [IR_MIN; IR_MAX] → fn_ok o (op o) (op IR_KINT) reassoc_minmax_k.
Proof.
  intros Hin. assert (op_shape o = ShBin ∧ is_guard o = false ∧ isk_op o = false ∧ o ≠ IR_BNOT ∧
    o ≠ IR_BSWAP) as (Hs & Hg & Hk & Hn1 & Hn2) by (each Hin; done).
  fold_intro. destruct (ctx_bin_left J w o o T D Ho Hs Hl Hs) as (O1 & O2 & P1 & P2).
  destruct (ctx_right J L (proj1 O2)) as (ER & _). apply pat_right in Hr; [|done|apply O2].
  assert (w = 32) as -> by exact (kint_width _ _ _ T O2 Hr).
  destruct (inst_bin J 32 _ T O1) as (_ & _ & M1 & M2); [by rewrite Hl|].
  unfold reassoc_minmax_k. rewrite EL, ER, Ho.
  destruct (opeq (io (IR J (op2 (IR J (op1 (fins J)))))) IR_KINT) eqn:Ek; [|done].
  apply opeq_true in Ek. destruct (kint_rng _ _ T (proj1 P2) Ek) as (K1 & _ & _).
  destruct (kint_rng _ _ T (proj1 O2) Hr) as (K2 & _ & C2).
  set (k1 := ii (IR J (op2 (IR J (op1 (fins J)))))) in *. set (k2 := ii (IR J (op2 (fins J)))) in *.
  unfold i32. rewrite wraps_id by done.
  set (i := op1 (IR J (op1 (fins J)))) in *. set (y := kfold_intop k1 k2 o).
  assert (in_s 32 y) as Hy by (unfold y; clear -Hin K1 K2; each Hin; simpl; case_test; done).
  assert (∀ a, ∃ v, ir_arith 32 o a y = Some v ∧
    ∀ u, ir_arith 32 o a k1 = Some u → ir_arith 32 o u k2 = Some v) as Hass.
  { intros a. unfold y. clear -Hin. each Hin; simpl; eexists; (split; [done|]);
      intros u [= <-]; f_equal; case_test; lia. }
  assert (∀ ρ, models ρ J → ∃ v, ins_sem ρ (fins J) = SVal v ∧ ir_arith 32 o (ρ i) y = Some v) as Hsem.
  { intros ρ M. destruct (Hass (ρ i)) as (v & Hv & Hu). exists v. split; [|done].
    apply (sem_arith _ _ 32); [apply D|]. rewrite Ho, (kint_val _ _ _ T M (proj1 O2) Hr). apply Hu.
    assert (∃ u, ir_arith 32 o (ρ i) k1 = Some u) as [u Eu] by (clear -Hin; each Hin; simpl; eauto).
    rewrite Eu. f_equal. symmetry. apply (inst_binval J ρ 32 _ o u T M O1 Hl Hk).
    by rewrite (kint_val _ _ _ T M (proj1 P2) Ek). }
  destruct (Z.eqb_spec k1 y) as [E|_].
  - apply (end_ref J 32); [done|by rewrite Ho|by left|]. intros ρ M.
    destruct (Hsem ρ M) as (v & -> & Hv). f_equal. symmetry.
    apply (inst_binval J ρ 32 _ o v T M O1 Hl Hk).
    rewrite (kint_val _ _ _ T M (proj1 P2) Ek). fold k1 i. by rewrite E.
  - apply end_phi. apply (end_op2_kint J 32 (fins J) (set_op1 i (fins J))); [done|done|].
    intros J' r C. split_and!.
    + apply mk_bin; simpl; rewrite ?Ho; [done|clear -Hin; each Hin; done..|apply D|by eapply kcell_opnd|apply C].
    + done.
    + intros ρ M' M. destruct (Hsem ρ M) as (v & -> & Hv). apply (sem_arith _ _ 32); [apply D|].
      simpl. by rewrite (kc_val _ _ _ _ _ C ρ M'), Ho.
    + apply meas_refs; simpl; [done|]. rewrite (mref_const r) by apply C. lia.
Qed.

(** ** Shifts of shifts *)

Lemma shift_shift w o a n m :
  width w → in_s w a → o ∈ shifts → 0 ≤ n < w → 0 ≤ m < w →
  ir_shift w o (ir_shift w o a n) m =
    if (w - 1 <? n + m) && (opeq o IR_BSHL || opeq o IR_BSHR) then 0
    else ir_shift w o a (if w - 1 <? n + m then
                           if opeq o IR_BSAR then w - 1 else Z.land (n + m) (w - 1)
                         else n + m).
Proof.
  intros Hww Ha Hin Hn Hm. pose proof (width_pos _ Hww) as Hw.
  assert (w - 1 < n + m → Z.land (n + m) (w - 1) = n + m - w) as Hmask.
  { intros. rewrite land_mask by done. symmetry. apply (Z.mod_unique _ _ 1); lia. }
  destruct (Z.ltb_spec (w - 1) (n + m)) as [Hwide|Hns]; simpl; unfold shifts in Hin.
  - rewrite ?Hmask by lia. each Hin; simpl.
    + rewrite shl_shl by lia. apply shl_wide; lia.
    + rewrite shr_shr by lia. apply shr_wide; lia.
    + rewrite Z.shiftr_shiftr by lia. apply sar_wide; [done|done|lia].
    + rewrite rotl_rotl by lia. f_equal. symmetry. apply (Z.mod_unique _ _ 1); lia.
    + pose proof (Z.mod_pos_bound (w - n) w Hw). pose proof (Z.mod_pos_bound (w - m) w Hw).
      rewrite rotl_rotl by lia. f_equal.
      rewrite <-Z.add_mod by lia. f_equal; lia.
  - each Hin; simpl.
    + by rewrite shl_shl by lia.
    + by rewrite shr_shr by lia.
    + by rewrite Z.shiftr_shiftr by lia.
    + rewrite rotl_rotl by lia. f_equal. apply Z.mod_small. lia.
    + pose proof (Z.mod_pos_bound (w - n) w Hw). pose proof (Z.mod_pos_bound (w - m) w Hw).
      rewrite rotl_rotl by lia. f_equal.
      rewrite <-Z.add_mod, <-(Z_mod_plus_full (w - (n + m)) 1 w) by lia. f_equal; lia.
Qed.

Lemma reassoc_shift_ok o : o ∈ shifts → fn_ok o (op o) (op IR_KINT) reassoc_shift.
Proof.
  intros Hin. destruct (shift_facts o Hin) as (Sh & Sg & Sk). fold_intro.
  destruct (ctx_shift_k J w o T D L Ho Hin Hr) as (O1 & RR & Kr & ER & C2 & Hs).
  destruct (inst_shift J w _ T O1 ltac:(by rewrite Hl)) as (P1 & P2 & M1 & M2).
  pose proof (fdom_wpos _ _ _ D) as Hw. pose proof (fdom_pos _ _ _ D) as Hww.
  unfold reassoc_shift. apply end_phi. rewrite (shift_mask _ _ (fd_w _ _ _ D)), EL, ER, Ho.
  destruct (opeq (io (IR J (op2 (IR J (op1 (fins J)))))) IR_KINT) eqn:Ek; [|done].
  apply opeq_true in Ek. cbv zeta.
  set (i := op1 (IR J (op1 (fins J)))) in *.
  pose proof (count_range w (ii (IR J (op2 (IR J (op1 (fins J)))))) Hww) as Hn1.
  set (n1 := Z.land (ii (IR J (op2 (IR J (op1 (fins J)))))) (w - 1)) in *.
  pose proof (count_range w (ii (IR J (op2 (fins J)))) Hww) as Hn2.
  set (n2 := Z.land (ii (IR J (op2 (fins J)))) (w - 1)) in *.
  assert (∀ ρ, models ρ J → ins_sem ρ (fins J) =
    SVal (ir_shift w o (ir_shift w o (ρ i) n1) n2)) as Hs'.
  { intros ρ M. rewrite (Hs ρ M). do 2 f_equal.
    apply (inst_binval J ρ w _ o _ T M O1 Hl Sk). rewrite (kint_val _ _ _ T M (proj1 P2) Ek).
    by apply ir_arith_shift. }
  destruct ((w - 1 <? n1 + n2) && (opeq o IR_BSHL || opeq o IR_BSHR)) eqn:Ewide.
  - assert (∀ ρ, models ρ J → ins_sem ρ (fins J) = SVal 0) as Hz.
    { intros ρ M. rewrite Hs', shift_shift, Ewide by (done || by eapply opnd_rng). done. }
    destruct (Z.eqb_spec (w - 1) 31) as [E|E].
    + apply end_kint; [done|by rewrite Ho|left; lia|by apply in_s_zero|done].
    + apply end_int64; [done|by rewrite Ho|destruct Hww; lia|done|done].
  - match goal with |- context [fins_op2_kint ?x _] => set (k := x) end.
    assert (0 ≤ k < w) as Hk.
    { subst k. clear -Hn1 Hn2 Hww. destruct (Z.ltb_spec (w - 1) (n1 + n2)); [|lia].
      case_test; [lia|]. by apply count_range. }
    apply (end_op2_kint J w (fins J) (set_op1 i (fins J))); [done|unfold in_s; simpl; destruct Hww; lia|].
    intros J' r C. split_and!.
    + apply mk_shift; simpl; [by rewrite Ho|apply D|by eapply kcell_opnd|apply C].
    + done.
    + intros ρ M' M. rewrite Hs', shift_shift, Ewide by (done || by eapply opnd_rng).
      rewrite (sem_shift ρ (set_op2 r (set_op1 i (fins J))) w (fd_w _ _ _ D)) by (simpl; by rewrite Ho).
      simpl. rewrite (kc_val _ _ _ _ _ C ρ M'), mask_small, Ho by done. done.
    + apply meas_refs; simpl; [done|]. rewrite (mref_const r) by apply C. lia.
Qed.

(** ** Commutativity *)

Definition swap_ops (x : IRIns) : IRIns := set_op2 (op1 x) (set_op1 (op2 x) x).

Definition comms : list IROp :=
  [IR_ADD; IR_MUL; IR_ADDOV; IR_MULOV; IR_EQ; IR_NE; IR_BAND; IR_BOR; IR_MIN; IR_MAX; IR_BXOR].

Lemma sem_swap ρ x : io x ∈ comms → ins_sem ρ (swap_ops x) = ins_sem ρ x.
Proof.
  intros H. unfold ins_sem, swap_ops. simpl. destruct (tyw (it x)); [|done].
  revert H. generalize (io x). unfold comms. intros o H. each H; simpl.
  - by rewrite Z.add_comm.
  - by rewrite Z.mul_comm.
  - by rewrite Z.add_comm.
  - by rewrite Z.mul_comm.
  - by rewrite Z.eqb_sym.
  - by rewrite Z.eqb_sym.
  - by rewrite Z.land_comm.
  - by rewrite Z.lor_comm.
  - by rewrite Z.min_comm.
  - by rewrite Z.max_comm.
  - by rewrite Z.lxor_comm.
Qed.

(** Swapping puts the younger operand first. *)
Lemma swap_meas J x o' :
  op1 x < op2 x → op_class o' = op_class (io x) → shift_op (io x) = false → shift_op o' = false →
  io x ≠ IR_SUB → o' ≠ IR_SUB → meas_lt J (set_io o' (swap_ops x)) J x.
Proof.
  intros Hlt Hc S1 S2 N1 N2. right. split; [done|]. unfold meas, minor, unreduced. simpl.
  rewrite S1, S2. destruct (opeq_spec (io x) IR_SUB), (opeq_spec o' IR_SUB); try done. simpl.
  rewrite (proj2 (Z.ltb_lt (op1 x) (op2 x))), (proj2 (Z.ltb_ge (op2 x) (op1 x))) by lia. lia.
Qed.

Lemma comm_swap_rule J w o :
  ir_typed J → fdom J w (fins J) → io (fins J) = o → o ∈ comms →
  rule_ok J w (fins J) (comm_swap J).
Proof.
  intros T D Ho Hin. unfold comm_swap.
  destruct (Z.ltb_spec (op1 (fins J)) (op2 (fins J))) as [Hlt|]; [|done].
  assert (shift_op o = false ∧ o ≠ IR_SUB ∧ fold_op o = true ∧ o ≠ IR_MOD ∧
    (o ≠ IR_ADD → op_shape o = ShBin)) as (S & N & F & Nm & Sb)
    by (clear -Hin; unfold comms in Hin; each Hin; split_and!; done || by intros []).
  apply (end_retry J w (fins J) (swap_ops (fins J))).
  - done.
  - destruct (decide (o = IR_ADD)) as [->|Hna].
    + destruct (fdom_zbin _ _ _ D) as (Z1 & Z2 & _); [by rewrite Ho|].
      apply mk_zbin; simpl; [rewrite Ho; set_solver|apply D|done|done|done].
    + destruct (fdom_bin _ _ _ D) as (O1 & O2); [rewrite Ho; by apply Sb|].
      apply mk_bin; simpl; rewrite ?Ho; try done; [by apply Sb|rewrite <-Ho; apply D|apply D].
  - done.
  - intros ρ M. apply sem_swap. by rewrite Ho.
  - apply (swap_meas J (fins J) (io (fins J))); by rewrite ?Ho.
Qed.

Lemma comm_swap_ok o : o ∈ comms → fn_ok o any any comm_swap.
Proof. intros Hin. fold_intro. by eapply comm_swap_rule. Qed.

Lemma comm_dup_ok o :
  o ∈ [IR_BAND; IR_BOR; IR_MIN; IR_MAX] → fn_ok o any any comm_dup.
Proof.
  intros Hin. fold_intro. unfold comm_dup.
  destruct (Z.eqb_spec (op1 (fins J)) (op2 (fins J))) as [E|_].
  - destruct (fdom_bin _ _ _ D) as (O1 & _); [rewrite Ho; clear -Hin; each Hin; done|].
    apply end_ref; [done|rewrite Ho; clear -Hin; each Hin; done|by left|]. intros ρ M.
    apply (sem_arith _ _ w); [apply D|]. rewrite Ho, <-E. clear -Hin. each Hin; simpl; f_equal.
    + apply Z.land_diag.
    + apply Z.lor_diag.
    + lia.
    + lia.
  - eapply comm_swap_rule; [done..|]. unfold comms. set_solver.
Qed.

Lemma comm_bxor_ok : fn_ok IR_BXOR any any comm_bxor.
Proof.
  fold_intro. unfold comm_bxor. rewrite (tyw_is64 _ _ (fd_w _ _ _ D)).
  destruct (Z.eqb_spec (op1 (fins J)) (op2 (fins J))) as [E|_].
  - assert (∀ ρ, models ρ J → ins_sem ρ (fins J) = SVal 0) as Hs.
    { intros ρ M. apply (sem_arith _ _ w); [apply D|]. rewrite Ho, E. simpl. by rewrite Z.lxor_nilpotent. }
    destruct (Z.eqb_spec w 64) as [->|].
    + by apply end_int64; [|rewrite Ho|..].
    + apply end_kint; [done|by rewrite Ho|left|by apply in_s_zero|done].
      by destruct (fdom_pos _ _ _ D).
  - eapply comm_swap_rule; [done..|]. unfold comms. set_solver.
Qed.

Lemma comm_equal_ok o : o ∈ [IR_EQ; IR_NE] → fn_ok o any any comm_equal.
Proof.
  intros Hin. fold_intro. unfold comm_equal. rewrite (tyw_isnum _ _ (fd_w _ _ _ D)), andb_true_r.
  destruct (Z.eqb_spec (op1 (fins J)) (op2 (fins J))) as [E|_].
  - apply end_cond; [done|rewrite Ho; clear -Hin; each Hin; done|]. intros ρ M.
    unfold ins_sem. rewrite (fd_w _ _ _ D), Ho, E. clear -Hin. each Hin; simpl; by rewrite Z.eqb_refl.
  - eapply comm_swap_rule; [done..|]. unfold comms. set_solver.
Qed.

Definition comps : list IROp := [IR_LT; IR_GE; IR_LE; IR_GT; IR_ULT; IR_UGE; IR_ULE; IR_UGT].

(** The comparison with its operands swapped. *)
Lemma comp_swap o : o ∈ comps →
  let o' := irop_of (Z.lxor (irop_num o) 3) in
  op_class o' = op_class o ∧ shift_op o = false ∧ shift_op o' = false ∧ o ≠ IR_SUB ∧
  o' ≠ IR_SUB ∧ op_shape o' = ShBin ∧ fold_op o' = true ∧ o' ≠ IR_MOD ∧
  o' ∉ [IR_ADDOV; IR_SUBOV; IR_MULOV] ∧ is_guard o' = true ∧
  ∀ w a b, ir_cond w o' b a = ir_cond w o a b.
Proof.
  intros H. unfold comps in H. each H; vm_compute irop_of; cbv zeta; split_and!; try done; set_solver.
Qed.

Lemma sem_guard ρ x w :
  tyw (it x) = Some w → is_guard (io x) = true →
  ins_sem ρ x = match ir_cond w (io x) (ρ (op1 x)) (ρ (op2 x)) with
                | Some true => SPass | _ => SFail end.
Proof. intros Hw Hg. unfold ins_sem. rewrite Hw. by destruct (io x). Qed.

Lemma comm_comp_ok o : o ∈ comps → fn_ok o any any comm_comp.
Proof.
  intros Hin. assert (op_shape o = ShBin ∧ is_guard o = true) as [Hs Hg]
    by (clear -Hin; unfold comps in Hin; each Hin; done).
  fold_intro. unfold comm_comp. rewrite (tyw_isnum _ _ (fd_w _ _ _ D)), andb_true_r, Ho.
  destruct (fdom_bin _ _ _ D) as (O1 & O2); [by rewrite Ho|].
  destruct (Z.eqb_spec (op1 (fins J)) (op2 (fins J))) as [E|_].
  - apply end_cond; [done|by rewrite Ho|]. intros ρ M.
    unfold ins_sem. rewrite (fd_w _ _ _ D), Ho, E. clear -Hin. unfold comps in Hin.
    each Hin; simpl; rewrite ?Z.ltb_irrefl, ?Z.leb_refl; done.
  - destruct (Z.ltb_spec (op1 (fins J)) (op2 (fins J))) as [Hlt|]; [|done].
    destruct (comp_swap o Hin) as (Hc & S1 & S2 & N1 & N2 & Sb & Hf & Nm & Nov & Hg' & Hsem).
    set (o' := irop_of (Z.lxor (irop_num o) 3)) in *.
    apply (end_retry J w (fins J) (set_io o' (swap_ops (fins J)))).
    + done.
    + apply mk_bin; simpl; try done. apply D.
    + simpl. by rewrite Ho, Hg, Hg'.
    + intros ρ M. rewrite (sem_guard ρ (fins J) w (fd_w _ _ _ D)) by (by rewrite Ho).
      rewrite (sem_guard ρ (set_io o' (swap_ops (fins J))) w (fd_w _ _ _ D) Hg').
      by rewrite Ho, <-Hsem.
    + apply swap_meas; rewrite ?Ho; done.
Qed.

End FoldReassoc.
