(* ===== verification/FoldConv.v ===== *)
(** * Conversions

    The fold functions for conversions to 32 bits keep their promise. *)

From stdpp Require Import base decidable list numbers option sets.
From Stdlib Require Import ZArith Lia.
From S2P Require Import Prelude Obj Ir IrWf IntOps IntFacts Fold IrSem FoldSpec FoldEngine.
From S2P Require Import FoldLemmas FoldKfold FoldAlg FoldBits.

Local Open Scope Z_scope.
Import Ir IrWf IntOps IntFacts Fold IrSem FoldSpec FoldEngine FoldLemmas FoldKfold FoldAlg
  FoldMono FoldBits.

Module FoldConv.

(** ** The mode *)

Lemma conv_low m n :
  Z.land 0x3ff n = 0x3ff →
  conv_src (Z.land m n) = conv_src m ∧ conv_dst (Z.land m n) = conv_dst m.
Proof.
  intros E. unfold conv_src, conv_dst, IRCONV_SRCMASK, IRCONV_DSTMASK.
  rewrite <-!Z.land_assoc. replace (Z.land n 31) with 31; [replace (Z.land n 992) with 992; [done|]|].
  - change 992 with (Z.land 992 1023). rewrite Z.land_assoc, (Z.land_comm n), <-Z.land_assoc.
    by rewrite (Z.land_comm n), E.
  - change 31 with (Z.land 31 1023). rewrite Z.land_assoc, (Z.land_comm n), <-Z.land_assoc.
    by rewrite (Z.land_comm n), E.
Qed.

(** A conversion to 32 bits. *)
Lemma ctx_conv J w :
  ir_typed J → fdom J w (fins J) → io (fins J) = IR_CONV →
  w = 32 ∧ conv_int (op2 (fins J)) = true ∧ zopnd J (conv_srcw (op2 (fins J))) (op1 (fins J)) ∧
  0 ≤ op2 (fins J) < KLIM ∧ is32 (conv_dst (op2 (fins J))) = true ∧
  key_right J = Z.land (op2 (fins J)) 0x3ff.
Proof.
  intros T D Ho. destruct (fd_conv _ _ _ D Ho) as [Hc ->]. pose proof (fd_ok _ _ _ D) as Hok.
  unfold ins_ok in Hok. rewrite (fd_w _ _ _ D), Ho in Hok. simpl in Hok. destruct Hok as [Hd Hok].
  destruct (Hok Hc) as (Hb & Hw & Hz). split_and!; try done; try lia.
  - unfold conv_dstw in Hw. destruct (is64 (conv_dst (op2 (fins J)))); [done|].
    by rewrite orb_false_r in Hd.
  - unfold key_right. pose proof (iw_klim _ (ty_wf _ T)). by rewrite (proj2 (Z.leb_gt _ _)) by lia.
Qed.

Lemma sem_conv ρ x v w :
  tyw (it x) = Some w → io x = IR_CONV → conv_sem (op2 x) (ρ (op1 x)) = Some v →
  ins_sem ρ x = SVal v.
Proof. intros Hw Ho E. unfold ins_sem. by rewrite Hw, Ho, E. Qed.

(** The literal of a rule is the mode of the instruction. *)
Lemma lit_mode J w d s :
  ir_typed J → fdom J w (fins J) → io (fins J) = IR_CONV →
  pat_ok (lit (IRCONV d s)) (key_right J) →
  conv_src (IRCONV d s) = s → conv_dst (IRCONV d s) = d →
  conv_src (op2 (fins J)) = s ∧ conv_dst (op2 (fins J)) = d.
Proof.
  intros T D Ho Hp Es Ed. destruct (ctx_conv _ _ T D Ho) as (_ & _ & _ & _ & _ & K).
  rewrite K in Hp. simpl in Hp. rewrite Hp in Es, Ed.
  destruct (conv_low (op2 (fins J)) 0x3ff) as [E1 E2]; [done|].
  by rewrite <-E1, <-E2.
Qed.

Lemma in_small n a v :
  n ∈ [8; 16] → v = wraps n a ∨ v = wrapu n a → in_s 32 v.
Proof.
  intros Hn Hv. assert (0 < n < 32) as Hb by (each Hn; lia).
  pose proof (wraps_range n a ltac:(lia)) as H1. pose proof (wrapu_range n a ltac:(lia)) as H2.
  assert (2 ^ n ≤ 2 ^ 16) by (apply Z.pow_le_mono_r; each Hn; lia).
  assert (2 ^ (n - 1) ≤ 2 ^ 16) by (apply Z.pow_le_mono_r; each Hn; lia).
  change (2 ^ 16) with 65536 in *. unfold in_s, in_u in *. simpl.
  destruct Hv as [->| ->]; lia.
Qed.

Lemma kfold_conv_kint_ext_ok s :
  s ∈ [IRT_I8; IRT_U8; IRT_I16; IRT_U16] →
  fn_ok IR_CONV (op IR_KINT) (lit (IRCONV IRT_INT s)) kfold_conv_kint_ext.
Proof.
  intros Hin. fold_intro. destruct (ctx_conv _ _ T D Ho) as (-> & Hc & Hz & _).
  destruct (lit_mode J 32 IRT_INT s T D Ho Hr) as [Es Ed];
    [clear -Hin; each Hin; done|clear -Hin; each Hin; done|].
  destruct (kint_rng _ _ T RL Hl) as (K1 & _ & _).
  unfold kfold_conv_kint_ext. rewrite EL, Es. unfold i32. rewrite (wraps_id 32) by done.
  apply end_kint; [done|by rewrite Ho|by left| |].
  - clear -Hin. each Hin; simpl; first
      [eapply (in_small 8); [set_solver|by left]|eapply (in_small 8); [set_solver|by right]
      |eapply (in_small 16); [set_solver|by left]|eapply (in_small 16); [set_solver|by right]].
  - intros ρ M. apply (sem_conv ρ _ _ 32); [apply D|done|].
    rewrite (kint_val _ _ _ T M RL Hl). unfold conv_sem. rewrite Es, Ed. clear -Hin. each Hin; done.
Qed.

Lemma wraps_32_64 a : wraps 32 (wraps 64 a) = wraps 32 a.
Proof.
  apply wraps_cong. transitivity ((wraps 64 a `mod` 2 ^ 64) `mod` 2 ^ 32).
  - symmetry. change (2 ^ 64) with (2 ^ 32 * 2 ^ 32).
    rewrite Z.rem_mul_r by lia. rewrite Z.mul_comm, Z.mod_add by lia. by rewrite Z.mod_mod by lia.
  - rewrite wraps_mod by lia. change (2 ^ 64) with (2 ^ 32 * 2 ^ 32).
    rewrite Z.rem_mul_r by lia. rewrite Z.mul_comm, Z.mod_add by lia. by rewrite Z.mod_mod by lia.
Qed.

Lemma kfold_conv_kint64_int_i64_ok d :
  d ∈ [IRT_INT; IRT_U32] →
  fn_ok IR_CONV (op IR_KINT64) (lit (IRCONV d IRT_I64)) kfold_conv_kint64_int_i64.
Proof.
  intros Hin. fold_intro. destruct (ctx_conv _ _ T D Ho) as (-> & Hc & Hz & _).
  destruct (lit_mode J 32 d IRT_I64 T D Ho Hr) as [Es Ed];
    [clear -Hin; each Hin; done|clear -Hin; each Hin; done|].
  unfold kfold_conv_kint64_int_i64. rewrite EL.
  apply end_kint; [done|by rewrite Ho|by left|by apply wraps_range|].
  intros ρ M. apply (sem_conv ρ _ _ 32); [apply D|done|].
  rewrite (kint64_val _ _ _ T M RL Hl). unfold conv_sem. rewrite Es, Ed.
  unfold i64. rewrite wraps_32_64. clear -Hin. each Hin; done.
Qed.

(** Conversions to 64 bits are not treated. *)
Lemma conv_wide J w d s :
  ir_typed J → fdom J w (fins J) → io (fins J) = IR_CONV →
  pat_ok (lit (IRCONV d s)) (key_right J) → d ∈ [IRT_I64; IRT_U64] → s ∈ [IRT_INT; IRT_U32] → False.
Proof.
  intros T D Ho Hr Hd Hs. destruct (ctx_conv _ _ T D Ho) as (-> & _ & _ & _ & H32 & _).
  destruct (lit_mode J 32 d s T D Ho Hr) as [Es Ed];
    [clear -Hd Hs; each Hd; each Hs; done|clear -Hd Hs; each Hd; each Hs; done|].
  rewrite Ed in H32. clear -Hd H32. each Hd; done.
Qed.

(** ** Conversions of conversions *)

Lemma is32_not64 t : is32 t = true → is64 t = false.
Proof. unfold is32, is64, IRT_INT, IRT_U32, IRT_I64, IRT_U64. intros H. bprop. lia. Qed.

(** Narrowing to 32 bits. *)
Lemma conv_narrow m v :
  is32 (conv_dst m) = true → is32 (conv_src m) || is64 (conv_src m) = true →
  conv_sem m v = Some (wraps 32 v).
Proof.
  intros Hd Hs. unfold conv_sem. rewrite Hd, Hs.
  unfold is32, is64, IRT_INT, IRT_U32, IRT_I64, IRT_U64 in Hs.
  unfold IRT_I8, IRT_U8, IRT_I16, IRT_U16. repeat case_test; bprop; done || lia.
Qed.

(** Widening from 32 bits does not change the low 32 bits. *)
Lemma conv_widen m v :
  is32 (conv_dst m) || is64 (conv_dst m) = true → is32 (conv_src m) = true →
  ∃ u, conv_sem m v = Some u ∧ wraps 32 u = wraps 32 v.
Proof.
  intros Hd Hs. destruct (is32 (conv_dst m)) eqn:E.
  - exists (wraps 32 v). split; [|by rewrite wraps_idem]. apply conv_narrow; [done|by rewrite Hs].
  - simpl in Hd. unfold conv_sem. rewrite E, Hd, Hs. eexists; split; [done|].
    case_test; [|done]. by apply wraps_wrapu.
Qed.

Lemma conv_dst_mask m :
  Z.land (Z.land m IRCONV_DSTMASK) IRCONV_DSTMASK = Z.land m IRCONV_DSTMASK ∧
  Z.land (Z.land m IRCONV_DSTMASK) IRCONV_SRCMASK = 0.
Proof.
  unfold IRCONV_DSTMASK, IRCONV_SRCMASK. rewrite <-!Z.land_assoc. split; [done|].
  apply Z.land_0_r.
Qed.

(** The mode built by [simplify_conv_int_i64]. *)
Lemma conv_mode m s :
  is32 s = true →
  conv_src (Z.lor (Z.land m IRCONV_DSTMASK) s) = s ∧
  conv_dst (Z.lor (Z.land m IRCONV_DSTMASK) s) = conv_dst m ∧
  0 ≤ Z.lor (Z.land m IRCONV_DSTMASK) s < KLIM.
Proof.
  intros Hs. destruct (conv_dst_mask m) as [E1 E2].
  assert (Z.land s IRCONV_SRCMASK = s ∧ Z.land s IRCONV_DSTMASK = 0 ∧ 0 ≤ s < 32) as (F1 & F2 & F3).
  { unfold is32, IRT_INT, IRT_U32 in Hs. apply orb_true_iff in Hs as [->%Z.eqb_eq| ->%Z.eqb_eq]; done. }
  unfold conv_src, conv_dst. rewrite !(Z.land_lor_distr_l). rewrite E1, E2, F1, F2.
  rewrite Z.lor_0_l, Z.lor_0_r. split_and!; try done.
  - apply Z.lor_nonneg. split; [|lia]. apply Z.land_nonneg. right. done.
  - assert (Z.land m IRCONV_DSTMASK ≤ IRCONV_DSTMASK ∧ 0 ≤ Z.land m IRCONV_DSTMASK) as [? ?].
    { split; [|by apply Z.land_nonneg; right]. destruct (land_mask_range m IRCONV_DSTMASK); done. }
    unfold IRCONV_DSTMASK, KLIM in *.
    pose proof (Z.land_nonneg (Z.land m 992) s).
    assert (Z.lor (Z.land m 992) s ≤ Z.land m 992 + s); [|lia].
    pose proof (Z.add_lor_land (Z.land m 992) s). lia.
Qed.

(** A 64-bit conversion at a reference, from 32 bits. *)
Lemma inst_conv J r :
  ir_typed J → zopnd J 64 r → io (IR J r) = IR_CONV → is32 (conv_src (op2 (IR J r))) = true →
  opnd J 32 (op1 (IR J r)) ∧ (mref (op1 (IR J r)) < mref r)%nat ∧
  ∀ ρ, models ρ J → wraps 32 (ρ r) = ρ (op1 (IR J r)).
Proof.
  intros T Hz Ho Hs. assert (opnd J 64 r) as O by (apply zopnd_inst; [done|by rewrite Ho]).
  destruct (inst_ssa J r T (proj1 O)) as (? & ? & _); [by rewrite Ho..|].
  pose proof (inst_ok J r T (proj1 O) ltac:(by rewrite Ho)) as Hok. unfold ins_ok in Hok.
  rewrite (proj2 O), Ho in Hok. simpl in Hok. destruct Hok as [Hd Hok].
  assert (conv_int (op2 (IR J r)) = true) as Hc.
  { destruct (conv_widen (op2 (IR J r)) 0 Hd Hs) as (u & E & _).
    unfold conv_int. by rewrite E. }
  destruct (Hok Hc) as (_ & _ & Hz1). unfold conv_srcw in Hz1. rewrite is32_not64 in Hz1 by done.
  assert (opnd J 32 (op1 (IR J r))) as O1 by (apply zopnd_32; [apply T|done]).
  split_and!; [done|by apply mref_lt|]. intros ρ M.
  destruct (conv_widen (op2 (IR J r)) (ρ (op1 (IR J r))) Hd Hs) as (u & E & Eu).
  pose proof (mo_ins _ _ M r (inst_range _ _ T (proj1 O) ltac:(by rewrite Ho))) as Hh.
  unfold holds in Hh. rewrite (sem_conv ρ _ u 64 (proj2 O) Ho E) in Hh. rewrite Hh, Eu.
  apply wraps_id; [done|]. by eapply opnd_rng.
Qed.

Lemma simplify_conv_int_i64_ok d s :
  d ∈ [IRT_INT; IRT_U32] → s ∈ [IRT_I64; IRT_U64] →
  fn_ok IR_CONV (op IR_CONV) (lit (IRCONV d s)) simplify_conv_int_i64.
Proof.
  intros Hd Hs. fold_intro. destruct (ctx_conv _ _ T D Ho) as (-> & Hc & Hz & _ & H32 & _).
  destruct (lit_mode J 32 d s T D Ho Hr) as [Es Ed];
    [clear -Hd Hs; each Hd; each Hs; done|clear -Hd Hs; each Hd; each Hs; done|].
  assert (is64 (conv_src (op2 (fins J))) = true) as H64 by (rewrite Es; clear -Hs; each Hs; done).
  unfold conv_srcw in Hz. rewrite H64 in Hz.
  unfold simplify_conv_int_i64. apply end_phi. rewrite EL.
  set (src := conv_src (op2 (IR J (op1 (fins J))))).
  destruct ((src =? IRT_INT) || (src =? IRT_U32)) eqn:Esrc; [|done].
  destruct (inst_conv J _ T Hz Hl Esrc) as (O1 & M1 & Hv).
  assert (∀ ρ, models ρ J → ins_sem ρ (fins J) = SVal (ρ (op1 (IR J (op1 (fins J)))))) as Hsem.
  { intros ρ M. apply (sem_conv ρ _ _ 32); [apply D|done|]. rewrite <-(Hv ρ M).
    apply conv_narrow; [done|]. by rewrite H64, orb_true_r. }
  destruct (Z.eqb_spec src (conv_dst (op2 (fins J)))) as [E|_].
  { apply end_ref; [done|by rewrite Ho|by left|done]. }
  destruct (conv_mode (op2 (fins J)) src Esrc) as (C1 & C2 & C3).
  set (m := Z.lor (Z.land (op2 (fins J)) IRCONV_DSTMASK) src) in *.
  assert (∀ v, conv_sem m v = Some (wraps 32 v)) as Hm.
  { intros v. apply conv_narrow; rewrite ?C1, ?C2; [done|].
    apply orb_true_iff. left. exact Esrc. }
  assert (conv_int m = true) as Hcm by (unfold conv_int; by rewrite Hm).
  cbv zeta. change (fleft (fins_op2 m J)) with (fleft J). rewrite EL.
  apply (end_retry J 32 (fins J) (set_op1 (op1 (IR J (op1 (fins J)))) (set_op2 m (fins J)))).
  - done.
  - left. constructor; simpl; rewrite ?Ho; try done; [apply D|].
    unfold ins_ok. simpl. rewrite (fd_w _ _ _ D), Ho. simpl.
    rewrite C2, H32. split; [done|]. intros _. unfold conv_dstw, conv_srcw.
    rewrite C1, C2, !is32_not64 by done. split_and!; [lia|lia|done|by left].
  - done.
  - intros ρ M. rewrite Hsem by done. apply (sem_conv ρ _ _ 32); [apply D|done|].
    simpl. rewrite Hm. f_equal. apply wraps_id; [done|]. by eapply opnd_rng.
  - apply meas_refs; simpl; [done|]. rewrite (mref_const m) by (unfold KLIM, REF_BIAS in *; lia). lia.
Qed.

(** Narrowing of 64 bits. *)
Lemma narrow_fdom J m x :
  io x = IR_CONV → tyw (it x) = Some 32 → op2 x = m → is32 (conv_dst m) = true →
  is64 (conv_src m) = true → 0 ≤ m < KLIM → zopnd J 64 (op1 x) →
  fdom J 32 x ∧ ∀ ρ, ins_sem ρ x = SVal (wraps 32 (ρ (op1 x))).
Proof.
  intros Ho Hw <- Hd Hs Hm Hz.
  assert (∀ v, conv_sem (op2 x) v = Some (wraps 32 v)) as Hc.
  { intros v. apply conv_narrow; [done|]. by rewrite Hs, orb_true_r. }
  split.
  - constructor; rewrite ?Ho; try done.
    + unfold ins_ok. rewrite Hw, Ho. simpl. rewrite Hd. split; [done|]. intros _.
      unfold conv_dstw, conv_srcw. rewrite Hs, is32_not64 by done. done.
    + intros _. unfold conv_int. by rewrite Hc.
  - intros ρ. by apply (sem_conv ρ _ _ 32).
Qed.

Lemma narrow_arith o a b u v :
  o ∈ [IR_ADD; IR_SUB; IR_MUL] → ir_arith 64 o a b = Some u →
  ir_arith 32 o (wraps 32 a) (wraps 32 b) = Some v → v = wraps 32 u.
Proof.
  intros H. each H; simpl; intros [= <-] [= <-]; rewrite wraps_32_64;
    first [by apply wraps_add|by apply wraps_sub|by apply wraps_mul].
Qed.

(** Operands of a 64-bit sum, difference or product at a reference. *)
Lemma inst_arith64 J r o :
  ir_typed J → zopnd J 64 r → io (IR J r) = o → o ∈ [IR_ADD; IR_SUB; IR_MUL] →
  zopnd J 64 (op1 (IR J r)) ∧ zopnd J 64 (op2 (IR J r)) ∧
  (mref (op1 (IR J r)) < mref r)%nat ∧ (mref (op2 (IR J r)) < mref r)%nat ∧
  ∀ ρ, models ρ J → ir_arith 64 o (ρ (op1 (IR J r))) (ρ (op2 (IR J r))) = Some (ρ r).
Proof.
  intros T Hz Ho Hin.
  assert (opnd J 64 r) as O by (apply zopnd_inst; [done|rewrite Ho; clear -Hin; each Hin; done]).
  assert (isk_op o = false ∧ ∀ a b, ∃ v, ir_arith 64 o a b = Some v) as [Hk Hex]
    by (clear -Hin; each Hin; simpl; eauto).
  assert (∀ ρ, models ρ J → ir_arith 64 o (ρ (op1 (IR J r))) (ρ (op2 (IR J r))) = Some (ρ r)) as Hv.
  { intros ρ M. destruct (Hex (ρ (op1 (IR J r))) (ρ (op2 (IR J r)))) as [v Ev].
    by rewrite (inst_binval J ρ 64 r o v T M O Ho Hk Ev). }
  destruct (decide (o = IR_MUL)) as [->|Hm].
  - destruct (inst_bin J 64 r T O) as (? & ? & ? & ?); [by rewrite Ho|]. split_and!; try done; by left.
  - destruct (inst_zbin J 64 r T Hz) as (? & ? & ? & ?); [rewrite Ho; set_solver|].
    split_and!; try done. by left.
Qed.

(** What a nested call of the engine gives for a narrowing. *)
Lemma narrow_call J1 J2 ref m x :
  fins J1 = x → io x = IR_CONV → (∀ ρ, ins_sem ρ x = SVal (wraps 32 (ρ (op1 x)))) → op2 x = m →
  wstep J1 J2 → res_ok J1 32 (fins J1) J2 ref →
  opnd J2 32 ref ∧ ∀ ρ, models ρ J2 → ρ ref = wraps 32 (ρ (op1 x)).
Proof.
  intros Hf Ho Hs Hm S R. rewrite Hf in R. split.
  - apply zopnd_32; [apply S|]. apply R. by rewrite Ho.
  - intros ρ M. pose proof (ro_sem _ _ _ _ _ R ρ M) as Hh. unfold holds in Hh.
    by rewrite Hs in Hh.
Qed.

Lemma simplify_conv_narrow_ok o d s :
  o ∈ [IR_ADD; IR_SUB; IR_MUL] → d ∈ [IRT_INT; IRT_U32] → s ∈ [IRT_I64; IRT_U64] →
  fn_ok IR_CONV (op o) (lit (IRCONV d s)) simplify_conv_narrow.
Proof.
  intros Hin Hd Hs. fold_intro. destruct (ctx_conv _ _ T D Ho) as (-> & Hc & Hz & Hm & H32 & _).
  destruct (lit_mode J 32 d s T D Ho Hr) as [Es Ed];
    [clear -Hd Hs; each Hd; each Hs; done|clear -Hd Hs; each Hd; each Hs; done|].
  assert (is64 (conv_src (op2 (fins J))) = true) as H64 by (rewrite Es; clear -Hs; each Hs; done).
  unfold conv_srcw in Hz. rewrite H64 in Hz.
  destruct (inst_arith64 J _ o T Hz Hl Hin) as (Z1 & Z2 & M1 & M2 & Hv).
  destruct (narrow_fdom J _ _ Ho (fd_w _ _ _ D) eq_refl H32 H64 Hm Hz) as [_ Hsem].
  unfold simplify_conv_narrow. apply end_phi. rewrite EL, Hl.
  set (mode := op2 (fins J)) in *. set (o1 := op1 (IR J (op1 (fins J)))) in *.
  set (o2 := op2 (IR J (op1 (fins J)))) in *.
  set (J1 := lj_ir_set_ J IR_CONV IRT_INT o1 mode).
  destruct (narrow_fdom J1 mode (fins J1)) as [D1 Hs1]; try done.
  assert (wstep J J1) as S1 by (by apply wstep_set_fins).
  split; [intros _; split_and!|].
  - done.
  - done.
  - apply meas_refs; simpl; [by rewrite Ho|]. fold mode. lia.
  - done.
  - intros ρ _. by rewrite Hs1.
  - intros J2 r1 Hk2 H2. set (J3 := lj_ir_set_ J2 IR_CONV IRT_INT o2 mode).
    assert (KLIM < nk J2 → wstep J J2 ∧ wstep J2 J3 ∧ wstep J J3 ∧ zopnd J3 64 o2) as H3.
    { intros Hlim. destruct (H2 Hlim) as [S2 _].
      assert (wstep J2 J3) by (apply wstep_set_fins, S2).
      assert (wstep J J2) by (by eapply wstep_trans).
      assert (wstep J J3) as S3 by (by eapply wstep_trans).
      split_and!; try done. apply (zopnd_ext J); [apply T|apply S3|done]. }
    split.
    + intros Hlim. destruct (H3 Hlim) as (S2 & S23 & S3 & Z3).
      destruct (narrow_fdom J3 mode (fins J3)) as [D3 Hs3]; try done.
      split_and!; try done.
      * apply meas_refs; simpl; [by rewrite Ho|]. fold mode. lia.
      * intros ρ _. by rewrite Hs3.
    + intros J4 r2 Hk4 H4. simpl. intros Hlim.
      assert (KLIM < nk J2) as Hlim2 by (simpl in Hk4; lia).
      destruct (H3 Hlim2) as (S2 & S23 & S3 & Z3). destruct (H2 Hlim2) as [S12 R2].
      destruct (H4 Hlim) as [S34 R4]. clear H2 H3 H4.
      destruct (narrow_fdom J3 mode (fins J3)) as [D3 Hs3]; try done.
      destruct (narrow_call J1 J2 r1 mode (fins J1)) as [P1 V1]; try done.
      destruct (narrow_call J3 J4 r2 mode (fins J3)) as [P2 V2]; try done.
      assert (wstep J J4) as S4 by (by eapply wstep_trans).
      assert (wstep J2 J4) as S24 by (by eapply wstep_trans).
      apply (end_retry_at J 32 (fins J) J4); [done|done|].
      assert (opnd J4 32 r1) as P1' by (eapply opnd_ext; [apply S24|done]).
      assert (tyw (irt_type (it (fins J))) = Some 32) as Ht.
      { unfold tyw. rewrite irt_type_idem. apply (fd_w _ _ _ D). }
      set (y := set_op2 r2 _).
      assert (∀ ρ, models ρ J4 → models ρ J → ins_sem ρ y = ins_sem ρ (fins J)) as Hy.
      { intros ρ M4 M. rewrite Hsem.
        assert (∃ v, ir_arith 32 o (wraps 32 (ρ o1)) (wraps 32 (ρ o2)) = Some v) as [v Ev]
          by (clear -Hin; each Hin; simpl; eauto).
        rewrite <-(narrow_arith o _ _ _ _ Hin (Hv ρ M) Ev).
        apply (sem_arith _ _ 32); [done|]. simpl.
        rewrite (V1 ρ), (V2 ρ); [exact Ev|done|]. apply (models_ext ρ J2 J4); [apply S2|apply S24|done]. }
      split_and!.
      * clear -Hin P1' P2 Ht S4. destruct (decide (o = IR_MUL)) as [->|].
        { by apply mk_bin; simpl. }
        apply mk_zbin; simpl; [set_solver|done|by left|by left|apply S4].
      * simpl. rewrite Ho. clear -Hin. each Hin; done.
      * done.
      * apply meas_class. simpl. rewrite Ho. clear -Hin. each Hin; simpl; lia.
Qed.

(** ** CSE of conversions *)

(** A result of folding an instruction that is not a guard. *)
Lemma res_ret J w x J' r :
  is_guard (io x) = false → (∀ ρ, ∃ v, ins_sem ρ x = SVal v) →
  res_ok J w x J' r → ret_ok J w x J' (REFFOLD r).
Proof.
  intros Hg Hv [T X Z S C]. split_and!; [constructor|done|by apply Z|].
  - done.
  - done.
  - intros ρ M. apply C; [done|]. by destruct (Hv ρ) as [v ->].
  - intros ρ M. pose proof (S ρ M) as Hh. unfold holds in Hh. destruct (Hv ρ) as [v E].
    rewrite E in *. by rewrite Hh.
Qed.

Lemma conv_mask m n :
  Z.land m IRCONV_MODEMASK = Z.land n IRCONV_MODEMASK →
  conv_src m = conv_src n ∧ conv_dst m = conv_dst n ∧ ∀ v, conv_sem m v = conv_sem n v.
Proof.
  intros E. destruct (conv_low m IRCONV_MODEMASK eq_refl) as [S1 D1].
  destruct (conv_low n IRCONV_MODEMASK eq_refl) as [S2 D2].
  assert (conv_src m = conv_src n) as Es by (by rewrite <-S1, E, S2).
  assert (conv_dst m = conv_dst n) as Ed by (by rewrite <-D1, E, D2).
  assert (Z.land m IRCONV_SEXT = Z.land n IRCONV_SEXT) as Ex.
  { assert (∀ a, Z.land a IRCONV_SEXT = Z.land (Z.land a IRCONV_MODEMASK) IRCONV_SEXT) as Ha
      by (intros; by rewrite <-Z.land_assoc).
    by rewrite Ha, E, <-Ha. }
  split_and!; try done. intros v. unfold conv_sem. by rewrite Es, Ed, Ex.
Qed.

Lemma cse_conv_ok : fn_ok IR_CONV any any cse_conv.
Proof.
  fold_intro. destruct (ctx_conv _ _ T D Ho) as (-> & Hc & Hz & Hm & H32 & _).
  pose proof (ty_wf _ T) as W. pose proof (iw_klim _ W). pose proof (bo_nk _ (iw_buf _ W)).
  assert (∀ ρ, ∃ v, ins_sem ρ (fins J) = SVal v) as Hv.
  { intros ρ. pose proof (conv_int_spec (op2 (fins J)) (ρ (op1 (fins J)))) as Hi. rewrite Hc in Hi.
    destruct (conv_sem (op2 (fins J)) (ρ (op1 (fins J)))) as [v|] eqn:E; [|done].
    exists v. apply (sem_conv ρ _ _ 32); [apply D|done|done]. }
  unfold cse_conv.
  match goal with |- context [if negb (?f =? 0) then _ else _] => set (found := f) end.
  assert (found = 0 ∨ REF_BIAS ≤ found < nins J ∧ io (IR J found) = IR_CONV ∧
    op1 (IR J found) = op1 (fins J) ∧
    Z.land (op2 (IR J found)) IRCONV_MODEMASK = Z.land (op2 (fins J)) IRCONV_MODEMASK) as Hf.
  { subst found. case_test; [|by left].
    match goal with |- context [chain_search J IR_CONV ?p ?lim] =>
      destruct (chain_search_sound J IR_CONV p lim W eq_refl) as [E|(Hr' & Hio & Hp)] end.
    - destruct RL. unfold KLIM in *. lia.
    - by left.
    - right. simpl in Hp. bprop. done. }
  destruct Hf as [->|(Hfr & Hio & E1 & E2)].
  - change (negb (0 =? 0)) with false. cbv iota. unfold EMITFOLD.
    destruct (lj_ir_emit J) as [J' r] eqn:E. intros _. apply res_ret; [by rewrite Ho|done|].
    apply emit_res; [done|done|]. apply lj_ir_emit_spec; [done|by rewrite Ho|done].
  - rewrite (proj2 (Z.eqb_neq _ 0)) by (unfold REF_BIAS in *; lia). simpl.
    destruct (conv_mask _ _ E2) as (Es & Ed & Esem).
    pose proof (ty_ins _ T found Hfr) as Hok. unfold ins_ok in Hok. rewrite Hio in Hok.
    assert (conv_int (op2 (IR J found)) = true) as Hc'.
    { unfold conv_int in *. by rewrite Esem. }
    assert (opnd J 32 found) as O.
    { split; [unfold refs, REF_TRUE, KLIM in *; lia|].
      destruct (tyw (it (IR J found))) as [w'|].
      - destruct Hok as [_ Hok]. destruct (Hok Hc') as (_ & -> & _). unfold conv_dstw.
        by rewrite Ed, is32_not64.
      - destruct Hok as [?|[[_ ?]|[_ Hn]]]; [done|congruence|]. rewrite E1 in Hn.
        by destruct (Hn _ Hz). }
    apply end_ref; [done|by rewrite Ho|by left|]. intros ρ M.
    destruct (Hv ρ) as [v E]. rewrite E. f_equal.
    pose proof (mo_ins _ _ M found Hfr) as Hh. unfold holds in Hh.
    assert (ins_sem ρ (IR J found) = SVal v) as E'.
    { destruct (conv_sem (op2 (fins J)) (ρ (op1 (fins J)))) as [v'|] eqn:Ev.
      - rewrite (sem_conv ρ _ v' 32 (fd_w _ _ _ D) Ho Ev) in E. rewrite <-E.
        apply (sem_conv ρ _ _ 32); [apply O|done|]. by rewrite E1, Esem.
      - pose proof (conv_int_spec (op2 (fins J)) (ρ (op1 (fins J)))) as Hi. by rewrite Ev, Hc in Hi. }
    by rewrite E' in Hh.
Qed.

End FoldConv.
