(* ===== verification/FoldRules.v ===== *)
(** * The table of fold rules

    Every rule keeps the promise of [fn_ok], and the rules that can match an
    addition or subtraction of the 32-bit 0 at 64 bits keep it there too. *)

From stdpp Require Import base decidable list numbers option sets.
From Stdlib Require Import ZArith Lia.
From S2P Require Import Prelude Obj Ir IrWf IntOps IntFacts Fold IrSem FoldSpec FoldEngine.
From S2P Require Import FoldLemmas FoldKfold FoldAlg FoldBits FoldReassoc FoldConv.

Local Open Scope Z_scope.
Import Ir IrWf IntOps IntFacts Fold IrSem FoldSpec FoldEngine FoldLemmas FoldKfold FoldAlg
  FoldMono FoldBits FoldReassoc FoldConv.

Module FoldRules.

(** ** Rules that cannot match a treated instruction *)

Lemma fn_untreated o l r f : fold_op o = false → fn_ok o l r f.
Proof. intros Hf J w T D L Ho _ _. pose proof (fd_op _ _ _ D). rewrite Ho in *. congruence. Qed.

(** Lua's modulo has 32-bit operands. *)
Lemma fn_mod64 r f : fn_ok IR_MOD (op IR_KINT64) r f.
Proof.
  fold_intro. exfalso. destruct (fd_mod _ _ _ D Ho) as [-> _].
  destruct (fdom_bin _ _ _ D) as [O1 _]; [by rewrite Ho|]. by apply kint64_width in O1.
Qed.

Lemma fn_wide l d s f :
  d ∈ [IRT_I64; IRT_U64] → s ∈ [IRT_INT; IRT_U32] → fn_ok IR_CONV l (lit (IRCONV d s)) f.
Proof. intros Hd Hs J w T D L Ho Hl Hr. exfalso. by eapply conv_wide. Qed.

Create HintDb foldok.
#[local] Hint Extern 1 (_ ∈ _) =>
  unfold shifts, assocs, comms, comps; repeat first [left; reflexivity | right] : foldok.
#[local] Hint Resolve kfold_intarith_ok kfold_intovarith_ok kfold_bnot_ok kfold_bswap_ok
  kfold_intcomp_ok kfold_int64comp_ok kfold_intcomp0_ok kfold_int64comp0_ok kfold_kref_ok
  fold_kfold_int64arith_ok kfold_int64shift_ok kfold_bnot64_ok kfold_bswap64_ok : foldok.
#[local] Hint Resolve simplify_numadd_negx_ok simplify_numadd_xneg_ok
  simplify_numsub_xneg_ok simplify_nummuldiv_negneg_ok simplify_intadd_k_ok
  fold_simplify_intmul_k_ok simplify_intsub_k_ok simplify_intadd_k64_ok simplify_intsub_k64_ok
  simplify_intsub_kleft_ok simplify_intmul_k32_ok simplify_intmul_k64_ok simplify_intmod_k_ok
  simplify_intmod_kleft_ok simplify_intsub_ok simplify_intsubadd_leftcancel_ok
  simplify_intsubsub_leftcancel_ok simplify_intsubsub_rightcancel_ok
  simplify_intsubadd_rightcancel_ok simplify_intsubaddadd_cancel_ok : foldok.
#[local] Hint Resolve simplify_band_k_ok simplify_bor_k_ok simplify_bxor_k_ok
  simplify_shift_ik_ok simplify_shift_andk_ok simplify_shift1_ki_ok simplify_shift2_ki_ok
  simplify_shiftk_andk_ok simplify_andk_shiftk_ok : foldok.
#[local] Hint Resolve reassoc_intarith_k_ok reassoc_intarith_k64_ok reassoc_dup_ok reassoc_bxor_ok
  reassoc_minmax_left_ok reassoc_minmax_right_ok reassoc_minmax_k_ok reassoc_shift_ok
  comm_swap_ok comm_dup_ok comm_bxor_ok comm_equal_ok comm_comp_ok : foldok.
#[local] Hint Resolve kfold_conv_kint_ext_ok kfold_conv_kint64_int_i64_ok
  simplify_conv_int_i64_ok simplify_conv_narrow_ok cse_conv_ok : foldok.

Lemma keys_ok (P : rule → Prop) f keys :
  Forall (λ k, P (MkRule k.1.1 k.1.2 k.2 f)) keys → Forall P (LJFOLDF f keys).
Proof. intros H. unfold LJFOLDF. by apply Forall_map. Qed.

Definition rule_sound (r : rule) : Prop := fn_ok (rl_op r) (rl_left r) (rl_right r) (rl_fn r).

Ltac rule_entry :=
  cbn [rule_sound rl_op rl_left rl_right rl_fn fst snd];
  first [by apply fn_untreated
        |apply shortcut_leftleft_ok; tauto
        |apply fn_mod64
        |apply fn_wide; solve [auto with foldok nocore]
        |solve [eauto with foldok nocore]].

Lemma rules_sound : Forall rule_sound fold_rules.
Proof.
  unfold fold_rules. repeat (apply Forall_app; split); apply keys_ok;
    repeat (apply Forall_cons; split); try (by apply Forall_nil).
  all: unfold rule_sound; rule_entry.
Qed.

(** ** Adding or subtracting the 32-bit 0 at 64 bits *)

Lemma zr_sem J w x ρ : zr J w x → models ρ J → ins_sem ρ x = SVal (ρ (op1 x)).
Proof.
  intros (Ho & -> & Hw & Hz & Hk) M. pose proof (zopnd_rng _ ρ 64 _ M ltac:(lia) Hz) as Hr.
  apply (sem_arith _ _ 64); [done|]. rewrite (kzero_val _ _ _ M Hk).
  revert Ho. generalize (io x). intros o Ho. each Ho; simpl;
    rewrite ?Z.add_0_r, ?Z.sub_0_r, wraps_id by done; done.
Qed.

Lemma zr_guard J w x : zr J w x → is_guard (io x) = false.
Proof. intros (Ho & _). revert Ho. generalize (io x). intros o Ho. each Ho; done. Qed.

(** The result of the rules for a constant on the right. *)
Lemma zr_left J w :
  ir_typed J → zr J w (fins J) → rule_ok J w (fins J) (Ret J (LEFTFOLD J)).
Proof.
  intros T Z. apply end_ref; [done|by eapply zr_guard|apply Z|]. intros ρ M. by eapply zr_sem.
Qed.

Lemma zr_right J w :
  ir_typed J → loaded J → zr J w (fins J) →
  fright J = IR J (op2 (fins J)) ∧ io (fright J) = IR_KINT ∧ ii (fright J) = 0.
Proof.
  intros T L (_ & _ & _ & _ & (Hr & Ho & Hi)). rewrite (lo_right _ L) by lia. done.
Qed.

Definition zrule_sound (r : rule) : Prop :=
  rl_op r ∈ [IR_ADD; IR_SUB] → rl_right r = op IR_KINT →
  ∀ J w, ir_typed J → loaded J → zr J w (fins J) → io (fins J) = rl_op r →
    pat_ok (rl_left r) (key_left J) → rule_ok J w (fins J) (rl_fn r J).

Lemma zr_kfold o :
  o ∈ [IR_ADD; IR_SUB] → zrule_sound (MkRule o (op IR_KINT) (op IR_KINT) kfold_intarith).
Proof.
  intros Hin _ _ J w T L Z Ho Hl. cbn [rl_op rl_fn] in *.
  change (irop_num IR_KINT = key_left J) in Hl. destruct (zr_right _ _ T L Z) as (ER & _ & E0).
  pose proof Z as (_ & -> & _ & Hz & _).
  assert (refs J (op1 (fins J))) as [R1 _] by (by eapply zopnd_refs; [apply T|]).
  unfold key_left in Hl. rewrite (proj2 (Z.leb_le _ _)) in Hl by lia. apply irop_num_inj in Hl.
  destruct (zopnd_kint _ _ _ T Hz) as [?|E1]; [done|done|].
  unfold kfold_intarith. rewrite Ho, E0, (lo_left _ L), E1 by lia.
  assert (kfold_intop 0 0 o = 0) as -> by (clear -Hin; each Hin; done).
  apply end_kint; [done|by eapply zr_guard|by right|by apply in_s_zero|]. intros ρ M.
  rewrite (zr_sem _ _ _ _ Z M). f_equal. rewrite (mo_kint _ _ M); [done| |done].
  apply const_range; [done|by eapply zopnd_refs; [apply T|]|by rewrite <-Hl].
Qed.

Lemma zr_reassoc : zrule_sound (MkRule IR_ADD (op IR_ADD) (op IR_KINT) reassoc_intarith_k).
Proof.
  intros _ _ J w T L Z Ho Hl. cbn [rl_op rl_fn] in *.
  change (irop_num IR_ADD = key_left J) in Hl. pose proof Z as (_ & -> & _ & Hz & _).
  assert (refs J (op1 (fins J))) as [R1 _] by (by eapply zopnd_refs; [apply T|]).
  unfold key_left in Hl. rewrite (proj2 (Z.leb_le _ _)) in Hl by lia. apply irop_num_inj in Hl.
  destruct (inst_zbin J 64 _ T Hz) as (_ & O & _); [rewrite <-Hl; set_solver|].
  unfold reassoc_intarith_k. rewrite (lo_left _ L) by lia.
  destruct (opeq_spec (io (IR J (op2 (IR J (op1 (fins J)))))) IR_KINT) as [E|_]; [|done].
  by apply kint_width in O.
Qed.

Lemma zr_add_k : zrule_sound (MkRule IR_ADD any (op IR_KINT) simplify_intadd_k).
Proof.
  intros _ _ J w T L Z Ho _. destruct (zr_right _ _ T L Z) as (_ & _ & E0). simpl.
  unfold simplify_intadd_k. rewrite E0. by apply zr_left.
Qed.
Lemma zr_sub_k : zrule_sound (MkRule IR_SUB any (op IR_KINT) simplify_intsub_k).
Proof.
  intros _ _ J w T L Z Ho _. destruct (zr_right _ _ T L Z) as (_ & _ & E0). simpl.
  unfold simplify_intsub_k. rewrite E0. by apply zr_left.
Qed.

Lemma zrules_sound : Forall zrule_sound fold_rules.
Proof.
  unfold fold_rules. repeat (apply Forall_app; split); apply keys_ok;
    repeat (apply Forall_cons; split); try (by apply Forall_nil); cbn [fst snd].
  all: first [apply zr_kfold; solve [auto with foldok nocore]|apply zr_reassoc|apply zr_add_k
             |apply zr_sub_k|intros Hin Hr; simpl in *; exfalso].
  all: first [discriminate Hr
             |repeat (apply elem_of_cons in Hin as [Hin|Hin]; [discriminate Hin|]);
              by apply elem_of_nil in Hin].
Qed.

End FoldRules.
