(* ===== verification/FoldSound.v ===== *)
(** * The fold engine keeps the meaning of an instruction, and ends

    The engine composes rules that keep their promise: its result has the
    meaning of the instruction it was given, whatever the fuel; and the measure
    of [FoldSpec] bounds the fuel it needs. *)

From stdpp Require Import base decidable list numbers option sets.
From Stdlib Require Import ZArith Lia Wellfounded.
From S2P Require Import Prelude Obj Ir IrWf IntOps IntFacts Fold IrSem FoldSpec FoldEngine.
From S2P Require Import FoldLemmas FoldKfold FoldAlg FoldBits FoldRules.

Local Open Scope Z_scope.
Import Ir IrWf IntOps IntFacts Fold IrSem FoldSpec FoldEngine FoldLemmas FoldKfold FoldAlg
  FoldMono FoldRules.

Module FoldSound.

Arguments fold_rules : simpl never.
Arguments find_rule : simpl never.
Arguments lj_opt_cse : simpl never.
Arguments lj_ir_kint : simpl never.

(** ** Composition of results *)

Lemma sem_agree_z J w x ρ ρ' :
  ir_wf J → fdomz J w x → agree J ρ ρ' → ins_sem ρ' x = ins_sem ρ x.
Proof.
  intros W [D|(Ho & _ & Hw & Hz & Hk)] A; [apply (sem_agree J); [done|apply D|done]|].
  unfold ins_sem. rewrite (A (op1 x)), (A (op2 x)); [done|by apply kzero_refs|by eapply zopnd_refs].
Qed.

(** A result in a later state is a result. *)
Lemma res_trans J w x J1 y J' r :
  ir_typed J → fdomz J w x → wstep J J1 → is_guard (io y) = is_guard (io x) →
  (∀ ρ, models ρ J1 → ins_sem ρ y = ins_sem ρ x) → res_ok J1 w y J' r → res_ok J w x J' r.
Proof.
  intros T D [T1 X1 C1] Hg Hs [T' X' Z S C]. constructor.
  - done.
  - by etransitivity.
  - intros E. apply Z. by rewrite Hg.
  - intros ρ M. pose proof (S ρ M) as Hh. unfold holds in *.
    rewrite <-Hs; [done|]. apply (models_ext ρ J1 J'); [apply T1|done|done].
  - intros ρ M Hnf. destruct (C1 ρ M) as (ρ1 & A1 & M1).
    destruct (C ρ1 M1) as (ρ2 & A2 & M2).
    { rewrite Hs by done. by rewrite (sem_agree_z J w x ρ ρ1 (ty_wf _ T) D A1). }
    exists ρ2. split; [|done]. intros r' Hr. rewrite A2 by (by eapply refs_ext). by apply A1.
Qed.

(** What the special results of a fold function stand for. *)
Lemma ret_ref J w x J' ref :
  ret_ok J w x J' (REFFOLD ref) → res_ok J w x J' ref.
Proof.
  intros ([T X C] & Hg & Hz & Hs). constructor; try done.
  - intros ρ M. unfold holds. by rewrite Hs.
  - intros ρ M _. by apply C.
Qed.

Lemma ret_drop J w x J' : ret_ok J w x J' DROPFOLD → res_ok J w x J' REF_DROP.
Proof.
  intros ([T X C] & Hg & Hs). constructor; try done.
  - by rewrite Hg.
  - intros ρ M. unfold holds. by rewrite Hs.
  - intros ρ M _. by apply C.
Qed.

Lemma ret_kint J w x J1 k J' ref :
  ir_typed J → fdomz J w x → ret_ok J w x J1 (KINTFOLD k) →
  lj_ir_kint J1 (i32 k) = (J', ref) → KLIM < nk J' → res_ok J w x J' ref.
Proof.
  intros T D (S & Hw & Hg & Hs) E Hl. apply ret_ref.
  destruct (kint_cell J1 (fins J1) (i32 k) J' ref (ws_ty _ _ S)) as (C & _); [by apply wraps_range| |done|].
  { rewrite <-E. by destruct J1. }
  assert (wstep J J') as S' by (eapply wstep_trans; [done|apply C]).
  split_and!; try done.
  - destruct Hw as [->|E0]; [left; apply C|right]. destruct C as [_ _ Hr Ho Hi _].
    split_and!; [lia|lia|done|]. rewrite Hi by done. done.
  - intros ρ M. rewrite (kc_val _ _ _ _ _ C ρ M). apply Hs.
    apply (models_ext ρ J1 J'); [apply S|apply C|done].
Qed.

(** ** Running one fold function *)

Definition out_ok (J : jit_State) (w : Z) (x : IRIns) (o : outcome Z) : Prop :=
  match o with
  | Done J' ref => KLIM < nk J' → res_ok J w x J' ref
  | TraceErr J' => KLIM < nk J' → ∀ ρ, models ρ J → ins_sem ρ x = SFail
  | NoFuel _ => True
  end.

Definition run_ok (J : jit_State) (w : Z) (x : IRIns) (o : outcome foldres) : Prop :=
  match o with
  | Done J' r => KLIM < nk J' → ret_ok J w x J' r
  | TraceErr J' => KLIM < nk J' → ∀ ρ, models ρ J → ins_sem ρ x = SFail
  | NoFuel _ => True
  end.

Lemma try_cons fold o l r keys J :
  try_rules fold o ((l, r) :: keys) J =
  match find_rule fold_rules o l r with
  | None => try_rules fold o keys J
  | Some f => match run_prog fold (f J) with
              | Done J NEXTFOLD => try_rules fold o keys J
              | res => res
              end
  end.
Proof. done. Qed.

Section run.
  Context (fold : jit_State → outcome Z).
  Context (Hmono : ∀ J, nk (out_state (fold J)) ≤ nk J).
  Context (Hfold : ∀ J, ir_typed J → fdom J 32 (fins J) → out_ok J 32 (fins J) (fold J)).

Lemma run_prog_ok J w x p : rule_ok J w x p → run_ok J w x (run_prog fold p).
  Proof.
    induction p as [J' r|J1 k IH]; simpl; [done|]. intros [H1 Hk].
    pose proof (Hmono J1) as Hm.
    assert (KLIM < nk J1 → out_ok J1 32 (fins J1) (fold J1)) as Ho.
    { intros Hl. destruct (H1 Hl) as (S & D & _). apply Hfold; [apply S|done]. }
    destruct (fold J1) as [J2 ref|J2|J2]; simpl in *; [|intros Hl|done].
    - apply IH, Hk; [done|]. intros Hl.
      destruct (H1 ltac:(lia)) as (S & D & _ & _ & Hnf). pose proof (Ho ltac:(lia) Hl) as R.
      split; [|done]. constructor; [apply R|apply R|]. intros ρ M. apply R; [done|by apply Hnf].
    - intros ρ M. destruct (H1 ltac:(lia)) as (S & _ & _ & _ & Hnf).
      destruct (ws_cons _ _ S ρ M) as (ρ' & _ & M'). exfalso. apply (Hnf ρ' M').
      by apply Ho; [lia|lia|].
  Qed.

Lemma find_rule_ok o l r f :
    find_rule fold_rules o l r = Some f → fn_ok o l r f.
  Proof.
    intros (x & Hx & <- & <- & <- & <-)%find_rule_in.
    revert x Hx. apply Forall_forall, rules_sound.
  Qed.

Lemma try_rules_ok J w o keys :
    ir_typed J → fdom J w (fins J) → loaded J → io (fins J) = o →
    Forall (λ k, pat_ok k.1 (key_left J) ∧ pat_ok k.2 (key_right J)) keys →
    run_ok J w (fins J) (try_rules fold o keys J).
  Proof.
    intros T D L Ho Hk. induction Hk as [|[l r] keys [Hl Hr] Hk IH]; [done|].
    rewrite try_cons. destruct (find_rule fold_rules o l r) as [f|] eqn:E; [|done].
    pose proof (run_prog_ok J w (fins J) (f J)) as Hrun.
    specialize (Hrun (find_rule_ok _ _ _ _ E J w T D L Ho Hl Hr)).
    destruct (run_prog fold (f J)) as [J' []|J'|J'] eqn:Er; try done.
    destruct (decide (KLIM < nk J')) as [Hlim|Hlim]; [rewrite (Hrun Hlim); apply IH|].
    pose proof (try_rules_mono fold o keys J' Hmono) as Hm.
    destruct (try_rules fold o keys J'); simpl in *; try done; intros; lia.
  Qed.

  (** At 64 bits with the 32-bit 0, a rule for a constant on the right ends it. *)
Lemma try_rules_zr J w rest :
    ir_typed J → zr J w (fins J) → loaded J →
    let res := try_rules fold (io (fins J))
      ((Some (key_left J), Some (key_right J)) :: (None, Some (key_right J)) :: rest) J in
    run_ok J w (fins J) res ∧ ∀ J', res = Done J' NEXTFOLD → nk J' ≤ KLIM.
  Proof.
    intros T Z L. destruct (zr_right _ _ T L Z) as (ER & Kr & E0).
    pose proof Z as (Hin & _ & _ & _ & Hk).
    assert (key_right J = irop_num IR_KINT) as EK.
    { unfold key_right. destruct Hk as (? & -> & _). by rewrite (proj2 (Z.leb_le _ _)) by lia. }
    rewrite EK.
    assert (∃ f, find_rule fold_rules (io (fins J)) None (Some (irop_num IR_KINT)) = Some f ∧
      f J = Ret J (LEFTFOLD J)) as (f & Ef & Hf).
    { revert Hin. generalize (io (fins J)). intros o Hin. each Hin.
      - exists simplify_intadd_k. split; [done|]. unfold simplify_intadd_k. by rewrite E0.
      - exists simplify_intsub_k. split; [done|]. unfold simplify_intsub_k. by rewrite E0. }
    assert (∀ keys, let res := try_rules fold (io (fins J)) ((None, Some (irop_num IR_KINT)) :: keys) J in
      run_ok J w (fins J) res ∧ ∀ J', res = Done J' NEXTFOLD → nk J' ≤ KLIM) as Hend.
    { intros keys. cbn zeta. rewrite try_cons, Ef, Hf. simpl. split; [|done].
      by apply (zr_left J w). }
    cbn zeta. rewrite try_cons.
    destruct (find_rule fold_rules (io (fins J)) (Some (key_left J)) (Some (irop_num IR_KINT)))
      as [g|] eqn:Eg; [|apply Hend].
    assert (rule_ok J w (fins J) (g J)) as Hg.
    { apply find_rule_in in Eg as (y & Hy & Eo & El & Er' & <-).
      pose proof (proj1 (Forall_forall _ _) zrules_sound y Hy) as Hs.
      apply Hs; try done; [by rewrite Eo|by rewrite El]. }
    pose proof (run_prog_ok J w (fins J) (g J) Hg) as Hrun.
    destruct (run_prog fold (g J)) as [J' []|J'|J'] eqn:Er; try done.
    destruct (decide (KLIM < nk J')) as [Hlim|Hlim].
    { assert (J' = J) as -> by exact (Hrun Hlim). apply Hend. }
    match goal with |- run_ok _ _ _ (try_rules _ ?o ?keys _) ∧ _ =>
      pose proof (try_rules_mono fold o keys J' Hmono) as Hm; destruct (try_rules fold o keys J') end;
      (split; [simpl in *; done || intros; lia|]); intros Jn E; try done.
    injection E as <- _. simpl in Hm. lia.
  Qed.

Lemma try_spec J w :
    ir_typed J → fdomz J w (fins J) → loaded J →
    let res := try_rules fold (io (fins J)) (fold_keys (key_left J) (key_right J)) J in
    run_ok J w (fins J) res ∧
    ∀ J', res = Done J' NEXTFOLD → KLIM < nk J' → fdom J w (fins J).
  Proof.
    intros T [D|Z] L.
    - split; [|done]. apply try_rules_ok; try done.
      unfold fold_keys. repeat (apply Forall_cons; split; [done|]). by apply Forall_nil.
    - destruct (try_rules_zr J w [(Some (key_left J), None); (None, None)] T Z L) as [H1 H2]. split; [done|].
      intros J' E Hl. specialize (H2 J' E). lia.
  Qed.
End run.

(** ** The engine *)

(** Loading the operands changes nothing else. *)
Lemma load_spec J J1 l r :
  ir_typed J → fold_load J = (J1, l, r) →
  ir_typed J1 ∧ fins J1 = fins J ∧ loaded J1 ∧ l = key_left J1 ∧ r = key_right J1 ∧
  wstep J J1 ∧ (∀ w x, fdomz J w x → fdomz J1 w x) ∧ (∀ x, meas J1 x = meas J x) ∧
  ∀ ρ, models ρ J1 ↔ models ρ J.
Proof.
  intros T E. unfold fold_load in E.
  assert (∃ a b, J1 = set_fright b (set_fleft a J) ∧
    (nk J ≤ op1 (fins J) → a = IR J (op1 (fins J))) ∧
    (nk J ≤ op2 (fins J) → b = IR J (op2 (fins J))) ∧
    l = (if nk J <=? op1 (fins J) then irop_num (io (IR J (op1 (fins J)))) else 0) ∧
    r = (if nk J <=? op2 (fins J) then irop_num (io (IR J (op2 (fins J))))
         else Z.land (op2 (fins J)) 0x3ff)) as (a & b & -> & Ha & Hb & El & Er).
  { destruct (Z.leb_spec (nk J) (op1 (fins J))); simpl in E;
      destruct (Z.leb_spec (nk J) (op2 (fins J))); simpl in E; injection E as <- <- <-.
    - by exists (IR J (op1 (fins J))), (IR J (op2 (fins J))).
    - exists (IR J (op1 (fins J))), (fright J). split_and!; try done; lia.
    - exists (fleft J), (IR J (op2 (fins J))). split_and!; try done; lia.
    - exists (fleft J), (fright J). split_and!; try done; try lia. by destruct J. }
  assert (ir_typed (set_fright b (set_fleft a J))) as T1
    by (by apply typed_set_fright, typed_set_fleft).
  assert (∀ ρ, models ρ (set_fright b (set_fleft a J)) ↔ models ρ J) as HM
    by (intros ρ; split; intros []; by constructor).
  split_and!; try done.
  - constructor; [done|by constructor|]. intros ρ M. exists ρ. split; [done|by apply HM].
  - intros w x [[]|?]; [left; by constructor|by right].
Qed.

(** The result of the engine for an instruction that no rule changed. *)
Lemma bypass_ok J w J' ref :
  ir_typed J → fdom J w (fins J) → fold_bypass J = Some (J', ref) → res_ok J w (fins J) J' ref.
Proof.
  intros T D E. assert (lj_opt_cse J = (J', ref) ∨ lj_ir_emit J = (J', ref)) as [Ec|Ee].
  { unfold fold_bypass in E. destruct (lj_opt_cse J) as [J1 r1], (lj_ir_emit J) as [J2 r2].
    repeat case_test_in E; try done; injection E as -> ->; auto. }
  - by apply cse_res.
  - apply emit_res; [done|done|]. apply lj_ir_emit_spec; [apply T| |done].
    apply fold_op_notk, D.
Qed.

(** A call of the engine. *)
Definition entry (n : nat) (J : jit_State) : outcome Z :=
  match fold_bypass J with
  | Some (J, ref) => Done J ref
  | None => fold_retry n J
  end.

Lemma entry_mono n J : nk (out_state (entry n J)) ≤ nk J.
Proof.
  unfold entry. destruct (fold_bypass J) as [[J2 ref]|] eqn:Eb; [|apply retry_mono].
  simpl. apply bypass_nk in Eb. lia.
Qed.

Lemma retry_ok_sound fuel J w :
  ir_typed J → fdomz J w (fins J) → out_ok J w (fins J) (fold_retry fuel J).
Proof.
  revert J w. induction fuel as [|fuel IH]; intros J w T D; [done|]. cbn [fold_retry].
  destruct (fold_load J) as [[J1 l] r] eqn:El.
  destruct (load_spec _ _ _ _ T El) as (T1 & Ef & L1 & -> & -> & S1 & HD & _ & HM).
  change (λ J : jit_State, match fold_bypass J with Some (J0, ref) => Done J0 ref | None => fold_retry fuel J end)
    with (entry fuel).
  assert (∀ J, ir_typed J → fdom J 32 (fins J) → out_ok J 32 (fins J) (entry fuel J)) as He.
  { intros J0 T0 D0. unfold entry. destruct (fold_bypass J0) as [[J2 ref]|] eqn:Eb; [|apply IH; [done|by left]].
    simpl. intros _. by apply bypass_ok. }
  apply HD in D as D1. rewrite <-Ef in D1.
  set (res := try_rules (entry fuel) (io (fins J1)) (fold_keys (key_left J1) (key_right J1)) J1).
  assert (run_ok J1 w (fins J1) res ∧ (∀ J', res = Done J' NEXTFOLD → KLIM < nk J' → fdom J1 w (fins J1))) as [Hr Hnext].
  { by apply (try_spec (entry fuel) (entry_mono fuel) He). }
  assert (∀ J' ref, res_ok J1 w (fins J1) J' ref → res_ok J w (fins J) J' ref) as Hback.
  { intros J' ref R. rewrite Ef in R. by apply (res_trans J w (fins J) J1 (fins J)). }
  assert ((∀ ρ, models ρ J1 → ins_sem ρ (fins J1) = SFail) → ∀ ρ, models ρ J → ins_sem ρ (fins J) = SFail) as Hfail.
  { intros H ρ M. rewrite <-Ef. apply H. by apply HM. }
  destruct res as [J2 []|J2|J2] eqn:Eres; unfold run_ok in Hr.
  - destruct (lj_opt_cse J2) as [J3 ref] eqn:Ec. intros Hl. apply Hback.
    pose proof (cse_nk J2) as Hn. rewrite Ec in Hn. simpl in Hn.
    assert (J2 = J1) as -> by (apply Hr; lia). apply cse_res; [done| |done].
    apply (Hnext J1); [done|lia].
  - destruct (decide (KLIM < nk J2)) as [Hl|Hl].
    + destruct (Hr Hl) as (S2 & D2 & Hg & Hs & _). pose proof (IH J2 w (ws_ty _ _ S2) D2) as Ho.
      destruct (fold_retry fuel J2) as [J3 ref|J3|J3]; simpl in *; [| |done].
      * intros Hl3. apply Hback. apply (res_trans J1 w (fins J1) J2 (fins J2)); try done. by apply Ho.
      * intros Hl3. apply Hfail. intros ρ M. destruct (ws_cons _ _ S2 ρ M) as (ρ' & A & M').
        rewrite <-(sem_agree_z J1 w (fins J1) ρ ρ' (ty_wf _ T1) D1 A).
        rewrite <-Hs by done. by apply Ho.
    + pose proof (retry_mono fuel J2) as Hn.
      destruct (fold_retry fuel J2); simpl in *; try done; intros; lia.
  - destruct (lj_ir_kint J2 (i32 k)) as [J3 ref] eqn:Ek. intros Hl. apply Hback.
    pose proof (kint_nk J2 (i32 k)) as Hn. rewrite Ek in Hn. simpl in Hn.
    eapply ret_kint; [done|done|apply Hr; lia|done|done].
  - intros Hl. apply Hfail. by apply Hr.
  - intros Hl. apply Hback, ret_drop. by apply Hr.
  - intros Hl. apply Hback, ret_ref. by apply Hr.
  - intros Hl. apply Hfail. by apply Hr.
  - done.
Qed.

Lemma entry_ok n J w :
  ir_typed J → fdom J w (fins J) → out_ok J w (fins J) (entry n J).
Proof.
  intros T D. unfold entry. destruct (fold_bypass J) as [[J2 ref]|] eqn:Eb.
  - simpl. intros _. by apply bypass_ok.
  - apply retry_ok_sound; [done|by left].
Qed.

(** ** Termination *)

(** The outcome is a result, or the constants have reached the literals. *)
Definition ends {A} (o : outcome A) : Prop :=
  match o with NoFuel J => nk J ≤ KLIM | _ => True end.

Lemma low_ends {A} (o : outcome A) : nk (out_state o) ≤ KLIM → ends o.
Proof. by destruct o. Qed.
Lemma refine_ends {A} (o1 o2 : outcome A) : refine o1 o2 → ends o1 → ends o2.
Proof.
  unfold refine. destruct o1; [by intros ->|by intros ->|]. simpl. intros. apply low_ends. lia.
Qed.

Lemma entry_refine n m J : (n ≤ m)%nat → refine (entry n J) (entry m J).
Proof. intros. unfold entry. destruct (fold_bypass J) as [[]|]; [done|by apply retry_refine]. Qed.

Section ends.
  Context (J : jit_State) (w : Z) (x : IRIns).
  Context (IHm : ∀ J1, ir_typed J1 → fdom J1 32 (fins J1) → meas_lt J1 (fins J1) J x →
                       ∃ n, ends (entry n J1)).

Lemma run_ends k p : prog_mono k p → rule_ok J w x p → ∃ n, ends (run_prog (entry n) p).
  Proof.
    revert k. induction p as [J' r|J1 f IH]; intros k Hp Hr; [by exists 0%nat|].
    destruct Hp as [_ Hp]. destruct Hr as [H1 Hk].
    destruct (decide (KLIM < nk J1)) as [Hl|Hl].
    - destruct (H1 Hl) as (S & D & Hm & _ & Hnf).
      destruct (IHm J1 (ws_ty _ _ S) D Hm) as [n Hn].
      pose proof (entry_mono n J1) as Hmono. pose proof (entry_ok n J1 32 (ws_ty _ _ S) D) as Hok.
      pose proof (λ m, entry_refine n m J1) as Href.
      destruct (entry n J1) as [J2 ref|J2|J2] eqn:E; simpl in Hmono, Hok, Href; last first.
      { exists n. simpl. by rewrite E. }
      { exists n. simpl. by rewrite E. }
      destruct (IH J2 ref (nk J2) (Hp J2 ref)) as [n2 Hn2].
      { apply Hk; [done|]. intros Hl2. pose proof (Hok Hl2) as R. split; [|done].
        constructor; [apply R|apply R|]. intros ρ M. apply R; [done|by apply Hnf]. }
      exists (n `max` n2)%nat. simpl. rewrite (Href _ (Nat.le_max_l n n2)).
      eapply refine_ends; [|exact Hn2].
      eapply run_prog_refine; [|apply entry_mono|apply Hp].
      intros J0. apply entry_refine. lia.
    - exists 0%nat. apply low_ends. transitivity (nk J1); [|lia].
      apply run_prog_mono; [apply entry_mono|]. simpl. split; [lia|done].
  Qed.

Lemma try_ends o keys :
    (∀ l r f, (l, r) ∈ keys → find_rule fold_rules o l r = Some f → rule_ok J w x (f J)) →
    ∃ n, ends (try_rules (entry n) o keys J).
  Proof.
    induction keys as [|[l r] keys IH]; intros Hr; [by exists 0%nat|].
    destruct IH as [n2 Hn2]. { intros l' r' f Hin. apply Hr. by right. }
    destruct (find_rule fold_rules o l r) as [f|] eqn:E.
    - pose proof (find_rule_mono _ _ _ _ E J) as Hp.
      pose proof (Hr l r f ltac:(by left) E) as Hf. destruct (run_ends _ _ Hp Hf) as [n Hn].
      pose proof (λ m (Hm : (n ≤ m)%nat),
        run_prog_refine (entry n) (entry m) (λ J0, entry_refine n m J0 Hm) (entry_mono m) _ _ Hp) as Href.
      destruct (run_prog (entry n) (f J)) as [J' res|J'|J'] eqn:Erun.
      + exists (n `max` n2)%nat. rewrite try_cons, E.
        pose proof (Href _ (Nat.le_max_l n n2)) as Hm. simpl in Hm. rewrite Hm.
        destruct res; try done. destruct (decide (KLIM < nk J')) as [Hl|Hl].
        * assert (J' = J) as ->.
          { pose proof (run_prog_ok (entry n) (entry_mono n) (λ J0, entry_ok n J0 32) J w x _ Hf) as Hok.
            rewrite Erun in Hok. by apply Hok. }
          eapply refine_ends; [|exact Hn2]. apply try_rules_refine; [|apply entry_mono].
          intros J0. apply entry_refine. lia.
        * apply low_ends. etransitivity; [apply try_rules_mono, entry_mono|lia].
      + exists n. rewrite try_cons, E, Erun. done.
      + exists n. rewrite try_cons, E, Erun. done.
    - exists n2. by rewrite try_cons, E.
  Qed.
End ends.

Lemma try_app fold o k1 k2 J :
  try_rules fold o (k1 ++ k2) J =
  match try_rules fold o k1 J with
  | Done J' NEXTFOLD => try_rules fold o k2 J'
  | res => res
  end.
Proof.
  revert J. induction k1 as [|[l r] k1 IH]; intros J; [done|]. simpl app. rewrite !try_cons.
  destruct (find_rule fold_rules o l r) as [f|]; [|done].
  by destruct (run_prog fold (f J)) as [J' []|J'|J'].
Qed.

Lemma zr_rules J w l r f :
  ir_typed J → zr J w (fins J) → loaded J →
  (l, r) ∈ [(Some (key_left J), Some (key_right J)); (None, Some (key_right J))] →
  find_rule fold_rules (io (fins J)) l r = Some f → rule_ok J w (fins J) (f J).
Proof.
  intros T Z L Hin (y & Hy & Eo & El & Er & <-)%find_rule_in.
  pose proof (proj1 (Forall_forall _ _) zrules_sound y Hy) as Hs.
  pose proof Z as (Ho & _ & _ & _ & (Hr & Hk & _)).
  assert (key_right J = irop_num IR_KINT) as EK.
  { unfold key_right. rewrite Hk. by rewrite (proj2 (Z.leb_le _ _)) by lia. }
  rewrite EK in Hin. apply Hs; try done; [by rewrite Eo|..].
  - apply elem_of_cons in Hin as [[= -> ->]|Hin]; [done|].
    by apply list_elem_of_singleton in Hin as [= -> ->].
  - apply elem_of_cons in Hin as [[= -> ->]|Hin]; [by rewrite El|].
    apply list_elem_of_singleton in Hin as [= -> ->]. by rewrite El.
Qed.

Lemma keys_end J w :
  ir_typed J → fdomz J w (fins J) → loaded J →
  (∀ J1, ir_typed J1 → fdom J1 32 (fins J1) → meas_lt J1 (fins J1) J (fins J) →
         ∃ n, ends (entry n J1)) →
  ∃ n, ends (try_rules (entry n) (io (fins J)) (fold_keys (key_left J) (key_right J)) J).
Proof.
  intros T [D|Z] L IHm.
  - apply (try_ends J w (fins J) IHm). intros l r f Hin E.
    apply (find_rule_ok _ _ _ _ E J w T D L eq_refl); unfold fold_keys in Hin;
      repeat (apply elem_of_cons in Hin as [[= -> ->]|Hin]; [done|]); by apply elem_of_nil in Hin.
  - destruct (try_ends J w (fins J) IHm (io (fins J))
      [(Some (key_left J), Some (key_right J)); (None, Some (key_right J))]) as [n Hn].
    { intros l r f Hin E. by apply (zr_rules J w l r). }
    exists n. unfold fold_keys.
    match goal with |- context [try_rules _ _ (?a :: ?b :: ?c) _] =>
      change (a :: b :: c) with ([a; b] ++ c) end.
    rewrite try_app.
    destruct (try_rules_zr (entry n) (entry_mono n) (λ J0, entry_ok n J0 32) J w [] T Z L) as [_ H].
    cbn zeta in H. revert Hn H. generalize (try_rules (entry n) (io (fins J))
      [(Some (key_left J), Some (key_right J)); (None, Some (key_right J))] J).
    intros [J' []|J'|J'] Hn H; try done.
    apply low_ends. etransitivity; [apply try_rules_mono, entry_mono|]. by apply H.
Qed.

Lemma retry_ends_step J w :
  ir_typed J → fdomz J w (fins J) →
  (∀ J1 w1, ir_typed J1 → fdomz J1 w1 (fins J1) → meas_lt J1 (fins J1) J (fins J) →
            ∃ n, ends (fold_retry n J1)) →
  ∃ n, ends (fold_retry n J).
Proof.
  intros T D IH.
  destruct (fold_load J) as [[J1 l] r] eqn:El.
  destruct (load_spec _ _ _ _ T El) as (T1 & Ef & L1 & -> & -> & S1 & HD & Hmeas & _).
  apply HD in D as D1. rewrite <-Ef in D1.
  assert (∀ J2, meas_lt J2 (fins J2) J1 (fins J1) → meas_lt J2 (fins J2) J (fins J)) as Hm.
  { intros J2. unfold meas_lt. by rewrite Ef, Hmeas. }
  destruct (keys_end J1 w T1 D1 L1) as [n Hn].
  { intros J2 T2 D2 M2. destruct (IH J2 32 T2 (or_introl D2) (Hm J2 M2)) as [n Hn]. exists n.
    unfold entry. by destruct (fold_bypass J2) as [[]|]. }
  destruct (try_spec (entry n) (entry_mono n) (λ J0, entry_ok n J0 32) J1 w T1 D1 L1) as [Hrun _].
  pose proof (λ m (H : (n ≤ m)%nat), try_rules_refine (entry n) (entry m)
    (λ J0, entry_refine n m J0 H) (entry_mono m) (io (fins J1))
    (fold_keys (key_left J1) (key_right J1)) J1) as Href.
  assert (∀ m, fold_retry (S m) J =
    match try_rules (entry m) (io (fins J1)) (fold_keys (key_left J1) (key_right J1)) J1 with
    | Done J NEXTFOLD => let (J, ref) := lj_opt_cse J in Done J ref
    | Done J (REFFOLD ref) => Done J ref
    | Done J RETRYFOLD => fold_retry m J
    | Done J (KINTFOLD k) => let (J, ref) := lj_ir_kint J (i32 k) in Done J ref
    | Done J FAILFOLD => TraceErr J
    | Done J DROPFOLD => Done J REF_DROP
    | TraceErr J => TraceErr J
    | NoFuel J => NoFuel J
    end) as Hstep by (intros m; cbn [fold_retry]; by rewrite El).
  cbn zeta in Hrun.
  destruct (try_rules (entry n) _ _ J1) as [J2 []|J2|J2] eqn:Et.
  - exists (S n). rewrite Hstep, Et. by destruct (lj_opt_cse J2).
  - destruct (decide (KLIM < nk J2)) as [Hl|Hl].
    + destruct (Hrun Hl) as (S2 & D2 & _ & _ & M2).
      destruct (IH J2 w (ws_ty _ _ S2) D2 (Hm J2 M2)) as [n2 Hn2].
      exists (S (n `max` n2)). rewrite Hstep.
      pose proof (Href _ (Nat.le_max_l n n2)) as He. unfold refine in He. rewrite He.
      eapply refine_ends; [|exact Hn2]. apply retry_refine. lia.
    + exists (S n). rewrite Hstep, Et. apply low_ends. etransitivity; [apply retry_mono|lia].
  - exists (S n). rewrite Hstep, Et. by destruct (lj_ir_kint J2 (i32 k)).
  - exists (S n). by rewrite Hstep, Et.
  - exists (S n). by rewrite Hstep, Et.
  - exists (S n). by rewrite Hstep, Et.
  - exists (S n). by rewrite Hstep, Et.
  - exists (S n). by rewrite Hstep, Et.
Qed.

(** The class of the opcode decreases, or stays and the operands get smaller. *)
Lemma retry_ends J w :
  ir_typed J → fdomz J w (fins J) → ∃ n, ends (fold_retry n J).
Proof.
  remember (op_class (io (fins J))) as c eqn:Hc. revert J w Hc.
  induction c as [c IHc] using (well_founded_ind lt_wf). intros J w Hc.
  remember (meas J (fins J)) as m eqn:Hm. revert J w Hc Hm.
  induction m as [m IHm] using (well_founded_ind lt_wf). intros J w Hc Hm T D.
  apply (retry_ends_step J w T D). intros J1 w1 T1 D1 [Hlt|[He Hlt]].
  - apply (IHc (op_class (io (fins J1)))) with w1; [by rewrite Hc|done..].
  - apply (IHm (meas J1 (fins J1))) with w1; [by rewrite Hm|by rewrite He|done..].
Qed.

End FoldSound.
