(* ===== verification/IrTrace.v ===== *)
(** * Building the IR of a trace

    The IR of a new trace (jit/lj_trace.c [trace_start], jit/lj_record.c
    [lj_record_setup]), and the states that recording reaches from it by
    interning constants, emitting loads and folding integer instructions.  The
    buffer, the chains, the constants and the typing of the operands stay
    consistent throughout. *)

From stdpp Require Import base decidable list numbers option sets.
From Stdlib Require Import ZArith Lia.
From S2P Require Import Prelude Obj Ir IrWf IntOps IntFacts Fold IrSem FoldSpec FoldEngine.
From S2P Require Import FoldLemmas FoldSound.

Local Open Scope Z_scope.
Import Ir IrWf IntOps IntFacts Fold IrSem FoldSpec FoldEngine FoldLemmas FoldSound.

Module IrTrace.

(** ** A new trace *)

Definition trace_start (J : jit_State) : jit_State :=
  set_guardemit 0 (set_nins REF_BASE (set_nk REF_BASE J)).

Definition clear_chain (J : jit_State) : jit_State :=
  MkJ (flags J) (guardemit J) (fins J) (fleft J) (fright J) (k64 J) (irbuf J) (irtoplim J)
    (irbotlim J) (nk J) (nins J) (λ _, 0)
    (MkScev REF_NIL (scev_start (scev J)) (scev_stop (scev J)) (scev_dir (scev J))).

(** Cell [REF_NIL - i] holds the primitive constant of type [IRT_NIL + i]. *)
Definition set_kpri (i : Z) (J : jit_State) : jit_State :=
  set_ir (REF_NIL - i) (MkIns IR_KPRI (IRT_NIL + i) 0 0 0 (hints (IR J (REF_NIL - i))) 0) J.

Definition lj_record_setup (J : jit_State) (parent exitno : Z) : jit_State :=
  let J := clear_chain J in
  let (J, _) := lj_ir_emit (lj_ir_set_ J IR_BASE IRT_P32 parent exitno) in
  set_nk REF_TRUE (set_kpri 2 (set_kpri 1 (set_kpri 0 J))).

(** A compiler state between traces: the buffer is not allocated yet or was
    used before, the 64-bit constants are in order. *)
Record idle (J : jit_State) : Prop := {
  id_buf : irbuf J = [] ∧ irtoplim J = 0 ∧ irbotlim J = 0 ∨
    irtoplim J - irbotlim J = Z.of_nat (length (irbuf J)) ∧
    irbotlim J ≤ REF_TRUE ∧ REF_FIRST ≤ irtoplim J;
  id_k64 : k64_ok (k64 J);
  id_rng a u : k64_at (k64 J) a u → in_u 64 u }.

Lemma IR_guard g J r : IR (set_guardemit g J) r = IR J r.
Proof. done. Qed.
Lemma IR_chain o c J r : IR (set_chain o c J) r = IR J r.
Proof. done. Qed.

(** A buffer with room for the first instruction. *)
Definition room (J : jit_State) : Prop :=
  irtoplim J - irbotlim J = Z.of_nat (length (irbuf J)) ∧
  irbotlim J ≤ REF_TRUE ∧ REF_FIRST ≤ irtoplim J.

Lemma room_get J : room J → ∀ r x r', REF_TRUE ≤ r < REF_FIRST → REF_TRUE ≤ r' →
  IR (set_ir r x J) r' = if r' =? r then x else IR J r'.
Proof. intros (H1 & H2 & H3) r x r' Hr Hr'. apply IR_set_ir; [done|lia|lia]. Qed.
Lemma room_set J r x : room J → room (set_ir r x J).
Proof. intros (H1 & H2 & H3). unfold room. simpl. by rewrite length_insert. Qed.

(** The first instruction allocates the buffer. *)
Lemma setup_room J :
  idle J → irtoplim J <= REF_BASE → room (lj_ir_growtop J).
Proof.
  intros [[(E1 & E2 & E3)|(E1 & E2 & E3)] _ _] Hb; [|unfold REF_FIRST, REF_BASE in *; lia].
  unfold lj_ir_growtop. rewrite E2, E3. by vm_compute.
Qed.

Lemma setup_next J J1 r :
  idle J → nins J = REF_BASE → lj_ir_nextins J = (J1, r) →
  room J1 ∧ r = REF_BASE ∧ nins J1 = REF_FIRST ∧ fins J1 = fins J ∧ chain J1 = chain J ∧
  k64 J1 = k64 J ∧ guardemit J1 = guardemit J.
Proof.
  unfold lj_ir_nextins. intros Hi Hn [= <- <-]. rewrite Hn.
  destruct (Z.leb_spec (irtoplim J) REF_BASE) as [Hle|Hgt].
  - destruct (setup_room J Hi Hle) as (H1 & H2 & H3).
    unfold lj_ir_growtop in *. destruct (negb _); done.
  - destruct Hi as [[(E1 & E2 & E3)|(E1 & E2 & E3)] _ _]; [rewrite E2 in Hgt; by vm_compute in Hgt|].
    split_and!; done.
Qed.

Lemma setup_cells J parent exitno J' :
  idle J → lj_record_setup (trace_start J) parent exitno = J' →
  room J' ∧ nk J' = REF_TRUE ∧ nins J' = REF_FIRST ∧ k64 J' = k64 J ∧
  (∀ o, chain J' o = if opeq o IR_BASE then REF_BASE else 0) ∧
  (∀ r, REF_TRUE ≤ r < REF_BASE → io (IR J' r) = IR_KPRI) ∧
  io (IR J' REF_BASE) = IR_BASE ∧ it (IR J' REF_BASE) = IRT_P32 ∧ prev (IR J' REF_BASE) = 0.
Proof.
  intros Hi <-. unfold lj_record_setup, lj_ir_emit.
  set (J0 := lj_ir_set_ (clear_chain (trace_start J)) IR_BASE IRT_P32 parent exitno).
  destruct (lj_ir_nextins J0) as [J1 r] eqn:E.
  assert (idle J0) as Hi0 by (destruct Hi; by constructor).
  destruct (setup_next J0 J1 r Hi0 eq_refl E) as (R1 & -> & Hn & Hf & Hc & Hk & _).
  rewrite Hf. change (io (fins J0)) with IR_BASE. cbn beta iota zeta.
  set (x := MkIns _ _ _ _ _ _ _).
  assert (io x = IR_BASE ∧ it x = IRT_P32 ∧ prev x = 0) as (X1 & X2 & X3).
  { split_and!; [done..|]. unfold x. simpl. by rewrite Hc. }
  clearbody x. set (Jb := set_ir REF_BASE x J1).
  assert (room Jb) as Rb by (by apply room_set).
  set (Je := set_guardemit _ (set_chain IR_BASE REF_BASE Jb)).
  assert (room Je) as Re by exact Rb.
  assert (∀ i J, 0 ≤ i ≤ 2 → room J → room (set_kpri i J) ∧ ∀ r, REF_TRUE ≤ r →
    IR (set_kpri i J) r = if r =? REF_NIL - i then
      MkIns IR_KPRI (IRT_NIL + i) 0 0 0 (hints (IR J (REF_NIL - i))) 0 else IR J r) as Hkp.
  { intros i J2 Hi2 R. split; [by apply room_set|]. intros r Hr. apply room_get; [done| |done].
    unfold REF_TRUE, REF_FIRST, REF_NIL in *. lia. }
  destruct (Hkp 0 Je ltac:(lia) Re) as (Ra & Ha).
  destruct (Hkp 1 (set_kpri 0 Je) ltac:(lia) Ra) as (Rb1 & Hb1).
  destruct (Hkp 2 (set_kpri 1 (set_kpri 0 Je)) ltac:(lia) Rb1) as (Rc & Hc1).
  set (Jf := set_kpri 2 (set_kpri 1 (set_kpri 0 Je))) in *.
  assert (IR Jf REF_BASE = x) as EB.
  { rewrite (Hc1 REF_BASE), (Hb1 REF_BASE), (Ha REF_BASE) by (unfold REF_TRUE, REF_BASE; lia).
    change (REF_BASE =? REF_NIL - 2) with false. change (REF_BASE =? REF_NIL - 1) with false.
    change (REF_BASE =? REF_NIL - 0) with false. cbv iota.
    change (IR Je REF_BASE) with (IR Jb REF_BASE). unfold Jb.
    rewrite room_get; [by rewrite Z.eqb_refl|done|by unfold REF_TRUE, REF_BASE, REF_FIRST; lia..]. }
  split_and!; [exact Rc|done|exact Hn|exact Hk| | | | |].
  - intros o. change (chain (set_nk REF_TRUE Jf) o) with (if opeq o IR_BASE then REF_BASE else chain J1 o).
    by rewrite Hc.
  - intros r Hr. change (IR (set_nk REF_TRUE Jf) r) with (IR Jf r).
    rewrite (Hc1 r), (Hb1 r), (Ha r) by lia.
    destruct (Z.eqb_spec r (REF_NIL - 2)); [done|]. destruct (Z.eqb_spec r (REF_NIL - 1)); [done|].
    destruct (Z.eqb_spec r (REF_NIL - 0)); [done|]. unfold REF_NIL, REF_TRUE, REF_BASE in *. lia.
  - change (IR (set_nk REF_TRUE Jf) REF_BASE) with (IR Jf REF_BASE). by rewrite EB.
  - change (IR (set_nk REF_TRUE Jf) REF_BASE) with (IR Jf REF_BASE). by rewrite EB.
  - change (IR (set_nk REF_TRUE Jf) REF_BASE) with (IR Jf REF_BASE). by rewrite EB.
Qed.

Lemma setup_typed J parent exitno :
  idle J → ir_typed (lj_record_setup (trace_start J) parent exitno).
Proof.
  intros Hi. set (J' := lj_record_setup _ _ _).
  destruct (setup_cells J parent exitno J' Hi eq_refl)
    as ((R1 & R2 & R3) & Hk & Hn & Hk64 & Hc & Hp & B1 & B2 & B3).
  clearbody J'. unfold REF_FIRST, REF_TRUE, REF_BASE in *.
  assert (∀ r, REF_BIAS ≤ r < nins J' → r = REF_BIAS) as HB by (intros; lia).
  constructor; [constructor| |].
  - constructor; unfold REF_TRUE, REF_FIRST; lia.
  - rewrite Hk. done.
  - intros r Hr. rewrite Hp by lia. done.
  - intros r Hr. rewrite (HB r Hr), B1. done.
  - intros o Ho. exists []. assert (chain J' o = 0) as ->.
    { rewrite Hc. unfold keyed in Ho. clear -Ho.
      repeat (apply elem_of_cons in Ho as [->|Ho]; [done|]). by apply elem_of_nil in Ho. }
    split; [constructor|]. intros r Hr. rewrite Hp by lia. split; [|by intros ?%elem_of_nil].
    intros <-. exfalso. clear -Ho. unfold keyed in Ho. set_solver.
  - intros o Ho. rewrite Hc. destruct (opeq_spec o IR_BASE) as [->|]; [right|by left].
    split; [lia|done].
  - intros r Hr. rewrite (HB r Hr), B3. by left.
  - intros r1 r2 H1 H2 Hkey. rewrite Hp in Hkey by lia. exfalso. clear -Hkey. unfold keyed in Hkey. set_solver.
  - intros r Hr Ho. by rewrite Hp in Ho by lia.
  - intros r Hr Ho. by rewrite Hp in Ho by lia.
  - rewrite Hk64. apply Hi.
  - rewrite Hk64. apply Hi.
  - intros r Hr. rewrite (HB r Hr). unfold ins_ok. rewrite B2. left. by rewrite B1.
  - intros r Hr Hs. rewrite (HB r Hr), B1 in Hs. done.
Qed.

(** ** Recording *)

(** A load or another instruction that is not an integer operation. *)
Lemma emit_other J J' r :
  ir_typed J → isk_op (io (fins J)) = false → op_shape (io (fins J)) = ShOther →
  lj_ir_emit J = (J', r) → ir_typed J'.
Proof.
  intros T Hk Hs E. apply lj_ir_emit_spec in E; [|apply T|done].
  destruct E as (W' & X & -> & Hn & Hk' & Hio & Hit & _).
  pose proof (bo_nk _ (iw_buf _ (ty_wf _ T))). unfold REF_TRUE in *. constructor; [done|..].
  - intros r Hr. destruct (decide (r = nins J)) as [->|].
    + unfold ins_ok. rewrite Hio, Hs. destruct (tyw _); [done|]. left. clear -Hs. by destruct (io (fins J)).
    + rewrite (ex_ir _ _ X) by (unfold refs; lia). apply (ins_ok_ext J); [apply T|done|apply T; lia].
  - intros r Hr Hr'. destruct (decide (r = nins J)) as [->|]; [by rewrite Hio in Hr'|].
    rewrite (ex_ir _ _ X) in * by (unfold refs; lia). apply T; [lia|done].
Qed.

(** What recording does to the IR, one constant or instruction at a time. *)
Inductive ir_step : jit_State → jit_State → Prop :=
  | step_kint J k J' r :
      in_s 32 k → lj_ir_kint J k = (J', r) → KLIM < nk J' → ir_step J J'
  | step_kint64 J u J' r :
      in_u 64 u → lj_ir_kint64 J u = (J', r) → KLIM < nk J' → ir_step J J'
  | step_load J x J' r :
      isk_op (io x) = false → op_shape (io x) = ShOther →
      lj_ir_emit (set_fins x J) = (J', r) → ir_step J J'
  | step_fold J w x fuel J' r :
      fdom J w x → lj_opt_fold fuel (set_fins x J) = Done J' r → KLIM < nk J' → ir_step J J'.

Lemma fdom_set_fins J w x y : fdom J w x → fdom (set_fins y J) w x.
Proof. intros []. by constructor. Qed.

Lemma fold_res J w fuel J' r :
  ir_typed J → fdom J w (fins J) → lj_opt_fold fuel J = Done J' r → KLIM < nk J' →
  res_ok J w (fins J) J' r.
Proof.
  intros T D E Hl. pose proof (entry_ok fuel J w T D) as Ho.
  change (entry fuel J) with (lj_opt_fold fuel J) in Ho. rewrite E in Ho. by apply Ho.
Qed.

Lemma step_typed J J' : ir_typed J → ir_step J J' → ir_typed J'.
Proof.
  intros T S. destruct S as [J k J' r Hk E Hl|J u J' r Hu E Hl|J x J' r Hk Hs E|J w x fuel J' r D E Hl].
  - destruct (kint_cell J (fins J) k J' r T Hk) as (C & _); [|done|by eapply kcell_typed].
    rewrite <-E. by destruct J.
  - destruct (kint64_cell J (fins J) u J' r T Hu) as (C & _); [|done|by eapply kcell_typed].
    rewrite <-E. by destruct J.
  - eapply (emit_other (set_fins x J)); [by apply typed_set_fins|done|done|done].
  - apply (fold_res (set_fins x J) w fuel) in E; [apply E|by apply typed_set_fins| |done].
    by apply fdom_set_fins.
Qed.

End IrTrace.
