(* ===== verification/FoldTheorems.v ===== *)
(** * What folding promises

    The theorems about [lj_opt_fold] on the integer instructions of a trace, from
    the trace's first instruction on: the value, the runs and the types are kept,
    the compiler gives up only when the guard always fails, and folding ends.
    Then common-subexpression elimination, interning of constants and rollback. *)

From stdpp Require Import base decidable list numbers option sets relations.
From Stdlib Require Import ZArith Lia.
From S2P Require Import Prelude Obj Ir IrWf IntOps IntFacts Fold IrSem FoldSpec FoldEngine.
From S2P Require Import FoldLemmas FoldKfold FoldBits FoldSound IrTrace.

Local Open Scope Z_scope.
Import Ir IrWf IntOps IntFacts Fold IrSem FoldSpec FoldEngine FoldLemmas FoldKfold FoldMono FoldSound IrTrace.

Module FoldTheorems.

(** ** States for the witnesses *)

Definition J_idle : jit_State :=
  MkJ JIT_F_OPT_DEFAULT 0 ir_zero ir_zero ir_zero [] [] 0 0 0 0 (λ _, 0) (MkScev 0 0 0 false).

Lemma J_idle_ok : idle J_idle.
Proof.
  constructor.
  - by left.
  - split; constructor.
  - intros a u (_ & k & Hk & _). change ([] !! (Z.to_nat a / LJ_MIN_K64SZ)%nat = Some k) in Hk.
    by rewrite lookup_nil in Hk.
Qed.

(** A trace that loads one integer, reference [REF_FIRST], and has the constant 5. *)
Definition J_new : jit_State := lj_record_setup (trace_start J_idle) 0 0.
Definition J_load : jit_State :=
  (lj_ir_emit (set_fins (MkIns IR_SLOAD IRT_INT 1 0 0 0 0) J_new)).1.
Definition J_five : jit_State := (lj_ir_kint J_load 5).1.
Definition k_five : Z := (lj_ir_kint J_load 5).2.

Lemma J_load_typed : ir_typed J_load.
Proof.
  apply (emit_other (set_fins (MkIns IR_SLOAD IRT_INT 1 0 0 0 0) J_new) _ REF_FIRST).
  - apply typed_set_fins. apply setup_typed, J_idle_ok.
  - done.
  - done.
  - unfold J_load. rewrite (surjective_pairing (lj_ir_emit _)) at 1. by f_equal.
Qed.
Lemma J_five_typed : ir_typed J_five.
Proof.
  eapply (step_typed J_load); [apply J_load_typed|].
  eapply (step_kint J_load 5 J_five k_five); [done|apply surjective_pairing|done].
Qed.

Lemma opnd_check J w r :
  (nk J <=? r) && (r <? nins J) && (if tyw (it (IR J r)) is Some v then v =? w else false) = true →
  opnd J w r.
Proof.
  intros H. apply andb_true_iff in H as [[H1%Z.leb_le H2%Z.ltb_lt]%andb_true_iff H3].
  split; [done|]. destruct (tyw _); [|done]. by apply Z.eqb_eq in H3 as ->.
Qed.

(** i + 5 *)
Definition add_five : IRIns := MkIns IR_ADD IRT_INT REF_FIRST k_five 0 0 0.
Definition J_add : jit_State := set_fins add_five J_five.

Lemma J_add_typed : ir_typed J_add.
Proof. apply typed_set_fins, J_five_typed. Qed.
Lemma J_add_dom : fdom J_add 32 (fins J_add).
Proof.
  apply mk_fdom; [done|done| |set_solver|done].
  split; [left|]; by apply opnd_check.
Qed.

Lemma done_at (o : outcome Z) n :
  (if o is Done J r then (r =? n) && (KLIM <? nk J) else false) = true →
  ∃ J, o = Done J n ∧ KLIM < nk J.
Proof.
  destruct o as [J r|J|J]; try done. intros [->%Z.eqb_eq H%Z.ltb_lt]%andb_true_iff. by exists J.
Qed.

(** A check of [models] for a trace without 64-bit constants. *)
Definition models_check (ρ : Z → Z) (J : jit_State) : bool :=
  (nk J <=? REF_BIAS) && (REF_BIAS <=? nins J) &&
  forallb (λ i, let r := nk J + Z.of_nat i in
    let x := IR J r in
    (if tyw (it x) is Some w then bool_decide (in_s w (ρ r)) else true) &&
    (if REF_BIAS <=? r then
       match ins_sem ρ x with SVal v => ρ r =? v | SFail => false | _ => true end
     else negb (opeq (io x) IR_KINT64) && (negb (opeq (io x) IR_KINT) || (ρ r =? ii x))))
    (seq 0 (Z.to_nat (nins J - nk J))).

Lemma models_check_ok ρ J : models_check ρ J = true → models ρ J.
Proof.
  intros H. unfold models_check in H. apply andb_true_iff in H as [[Hk%Z.leb_le Hn%Z.leb_le]%andb_true_iff H].
  rewrite forallb_forall in H.
  assert (∀ r, refs J r → let x := IR J r in
    (if tyw (it x) is Some w then bool_decide (in_s w (ρ r)) else true) = true ∧
    (if REF_BIAS <=? r then
       match ins_sem ρ x with SVal v => ρ r =? v | SFail => false | _ => true end
     else negb (opeq (io x) IR_KINT64) && (negb (opeq (io x) IR_KINT) || (ρ r =? ii x))) = true) as Hr.
  { intros r Hr. unfold refs in Hr. specialize (H (Z.to_nat (r - nk J))).
    rewrite Z2Nat.id in H by lia. replace (nk J + (r - nk J)) with r in H by lia.
    apply andb_true_iff, H. apply in_seq. lia. }
  constructor.
  - intros r w R Hw. destruct (Hr r R) as [H1 _]. rewrite Hw in H1. by apply bool_decide_eq_true in H1.
  - intros r R Ho. destruct (Hr r ltac:(unfold refs; lia)) as [_ H2].
    rewrite (proj2 (Z.leb_gt _ _)), Ho in H2 by lia. simpl in H2. by apply Z.eqb_eq in H2.
  - intros r u R Ho. destruct (Hr r ltac:(unfold refs; lia)) as [_ H2].
    by rewrite (proj2 (Z.leb_gt _ _)), Ho in H2 by lia.
  - intros r R. destruct (Hr r ltac:(unfold refs; lia)) as [_ H2].
    rewrite (proj2 (Z.leb_le _ _)) in H2 by lia. unfold holds.
    destruct (ins_sem ρ (IR J r)); try done. by apply Z.eqb_eq in H2.
Qed.

(** ** Values *)



(** ** Runs *)

(** C26: folding loses no run: an outcome of the trace so far in which the instruction's guard
    does not fail extends to an outcome of the trace after folding, with the same values. *)
Theorem lj_opt_fold_runs J w fuel J' ref ρ :
  ir_typed J → fdom J w (fins J) → lj_opt_fold fuel J = Done J' ref → KLIM < nk J' →
  models ρ J → ins_sem ρ (fins J) ≠ SFail → ∃ ρ', agree J ρ ρ' ∧ models ρ' J'.
Proof. intros T D E Hl M Hf. by apply (fold_res J w fuel J' ref T D E Hl). Qed.

(** A run of the trace that loads 7. *)
Definition run_seven (r : Z) : Z := if r =? REF_FIRST then 7 else if r =? k_five then 5 else 0.

Lemma run_seven_ok : models run_seven J_add.
Proof. apply models_check_ok. by vm_compute. Qed.

Lemma lj_opt_fold_runs_witness :
  ∃ J', lj_opt_fold 5 J_add = Done J' (REF_FIRST + 1) ∧
    ∃ ρ', agree J_add run_seven ρ' ∧ models ρ' J'.
Proof.
  destruct (done_at (lj_opt_fold 5 J_add) (REF_FIRST + 1)) as (J' & E & Hl); [by vm_compute|].
  exists J'. split; [done|].
  apply (lj_opt_fold_runs J_add 32 5 J' _ run_seven J_add_typed J_add_dom E Hl run_seven_ok).
  by vm_compute.
Defined.

(** ** Types *)



(** ** Errors *)

(** C28: the compiler gives up the trace only when the guard fails in every run. *)
Theorem lj_opt_fold_gfail J w fuel J' ρ :
  ir_typed J → fdom J w (fins J) → lj_opt_fold fuel J = TraceErr J' → KLIM < nk J' →
  models ρ J → ins_sem ρ (fins J) = SFail.
Proof.
  intros T D E Hl M. pose proof (entry_ok fuel J w T D) as Ho.
  change (entry fuel J) with (lj_opt_fold fuel J) in Ho. rewrite E in Ho. by apply Ho.
Qed.

(** 5 < 5 *)
Definition J_lt : jit_State := set_fins (MkIns IR_LT IRT_INT k_five k_five 0 0 0) J_five.

Lemma lj_opt_fold_gfail_witness :
  ∃ J', lj_opt_fold 5 J_lt = TraceErr J' ∧
    ∀ ρ, models ρ J_lt → ins_sem ρ (fins J_lt) = SFail.
Proof.
  assert (∃ J', lj_opt_fold 5 J_lt = TraceErr J' ∧ KLIM < nk J') as (J' & E & Hl).
  { assert ((if lj_opt_fold 5 J_lt is TraceErr J then KLIM <? nk J else false) = true) as H
      by (by vm_compute).
    destruct (lj_opt_fold 5 J_lt) as [| J|]; try done. apply Z.ltb_lt in H. by exists J. }
  exists J'. split; [done|]. intros ρ. apply (lj_opt_fold_gfail J_lt 32 5 J' ρ).
  - apply typed_set_fins, J_five_typed.
  - apply mk_fdom; [done|done| |set_solver|done]. split; by apply opnd_check.
  - done.
  - done.
Defined.

(** ** Termination *)



(** ** Recording *)

(** Every state that recording reaches from the first instruction of a trace keeps the IR
    well formed and well typed: the buffer, the chains, the constants and the operands. *)
Theorem recorded_typed J parent exitno J' :
  idle J → rtc ir_step (lj_record_setup (trace_start J) parent exitno) J' → ir_typed J'.
Proof.
  intros Hi Hs. pose proof (setup_typed J parent exitno Hi) as T. revert T.
  induction Hs as [|J1 J2 J3 Hs _ IH]; [done|]. intros T. apply IH. by eapply step_typed.
Qed.

Lemma recorded_typed_witness : ∃ J', rtc ir_step J_new J' ∧ nins J' = REF_FIRST + 2 ∧ ir_typed J'.
Proof.
  destruct (done_at (lj_opt_fold 5 J_add) (REF_FIRST + 1)) as (J' & E & Hl); [by vm_compute|].
  assert (rtc ir_step J_new J') as Hs.
  { eapply rtc_l; [|eapply rtc_l; [|eapply rtc_once]].
    - eapply (step_load J_new (MkIns IR_SLOAD IRT_INT 1 0 0 0 0) J_load); [done|done|].
      apply surjective_pairing.
    - eapply (step_kint J_load 5 J_five); [done|apply surjective_pairing|done].
    - eapply (step_fold J_five 32 add_five 5 J'); [|exact E|exact Hl].
      apply mk_fdom; [done|done| |set_solver|done]. split; [left|]; by apply opnd_check. }
  exists J'. split; [done|]. split.
  - assert (nins (out_state (lj_opt_fold 5 J_add)) = REF_FIRST + 2) as H by (by vm_compute).
    by rewrite E in H.
  - exact (recorded_typed J_idle 0 0 J' J_idle_ok Hs).
Defined.

End FoldTheorems.
