(* ===== verification/IrTheorems.v ===== *)
(** * Emitting, commoning, interning and rolling back

    The theorems about the IR emitter: common-subexpression elimination finds
    what it emitted, equal constants share one reference, and rollback undoes
    emission.  Then the integer arithmetic that constant folding calls. *)

From stdpp Require Import base decidable list numbers option sets.
From Stdlib Require Import ZArith Lia Zpow_facts.
From S2P Require Import Prelude Obj Ir IrWf IntOps IntFacts Fold IrSem FoldSpec FoldEngine.
From S2P Require Import FoldLemmas FoldBits FoldSound IrTrace FoldTheorems.

Local Open Scope Z_scope.
Import Ir IrWf IntOps IntFacts Fold IrSem FoldSpec FoldEngine FoldLemmas FoldMono FoldSound IrTrace FoldTheorems.

Module IrTheorems.

(** ** Interning *)

(** Two integer constants are the same reference exactly when they are equal, and the
    reference reads back as the constant. *)
Theorem lj_ir_kint_intern J k1 k2 J1 r1 J2 r2 :
  ir_wf J → in_s 32 k1 → in_s 32 k2 →
  lj_ir_kint J k1 = (J1, r1) → lj_ir_kint J1 k2 = (J2, r2) → KLIM < nk J2 →
  (r1 = r2 ↔ k1 = k2) ∧ ii (IR J2 r1) = k1 ∧ ii (IR J2 r2) = k2.
Proof.
  intros W H1 H2 E1 E2 Hl.
  assert (KLIM < nk J1) as Hl1.
  { pose proof (kint_nk J1 k2) as Hn. rewrite E2 in Hn. simpl in Hn. lia. }
  destruct (kint_spec _ _ _ _ W H1 E1 Hl1) as [W1 X1 N1 _ R1 O1 V1].
  destruct (kint_spec _ _ _ _ W1 H2 E2 Hl) as [W2 X2 N2 _ R2 O2 V2].
  pose proof (bo_nins _ (iw_buf _ W1)). pose proof (ex_nk _ _ X2). unfold REF_FIRST in *.
  assert (IR J2 r1 = IR J1 r1) as E by (apply X2; unfold refs; lia).
  rewrite E. split; [|done]. split.
  - intros ->. congruence.
  - intros ->. apply (iw_kuniq _ W2); [lia|lia| | |]; rewrite ?E.
    + rewrite O1. unfold keyed. set_solver.
    + by rewrite O1, O2.
    + by rewrite V1, V2.
Qed.

Lemma lj_ir_kint_intern_witness :
  let '(J1, r1) := lj_ir_kint J_load 5 in
  let '(J2, r2) := lj_ir_kint J1 (-6) in
  r1 ≠ r2 ∧ ii (IR J2 r1) = 5.
Proof.
  destruct (lj_ir_kint J_load 5) as [J1 r1] eqn:E1. destruct (lj_ir_kint J1 (-6)) as [J2 r2] eqn:E2.
  destruct (lj_ir_kint_intern J_load 5 (-6) J1 r1 J2 r2) as (H & H1 & _); try done.
  - apply J_load_typed.
  - assert ((KLIM <? nk (lj_ir_kint (lj_ir_kint J_load 5).1 (-6)).1) = true) as Hl by (by vm_compute).
    rewrite E1 in Hl. cbn [fst] in Hl. rewrite E2 in Hl. by apply Z.ltb_lt in Hl.
  - split; [|done]. intros E. by apply H in E.
Defined.

(** ** Common subexpressions *)

Lemma cse_find_hit J p lim ref n :
  (0 < n)%nat → lim < ref → p (IR J ref) = true → cse_find n J p lim ref = ref.
Proof.
  intros Hn Hl Hp. destruct n; [lia|]. simpl. by rewrite (proj2 (Z.ltb_lt _ _)), Hp by done.
Qed.

(** An instruction that was emitted is found again: common-subexpression elimination of the
    same instruction right after returns the same reference and leaves the trace alone. *)
Theorem lj_opt_cse_again J w J' r :
  ir_typed J → fdom J w (fins J) → optflag J JIT_F_OPT_CSE = true →
  lj_opt_cse J = (J', r) → lj_opt_cse J' = (J', r).
Proof.
  intros T D Hf E. pose proof (ty_wf _ T) as W.
  destruct (fdom_refs _ _ _ W D) as [R1 R2]. pose proof (iw_klim _ W). pose proof (bo_nins _ (iw_buf _ W)).
  unfold lj_opt_cse in E |- *. rewrite Hf in E.
  set (found := chain_search J _ _ _) in E.
  destruct (Z.eqb_spec found 0) as [E0|Hne]; cbn [negb] in E.
  - destruct (lj_ir_nextins J) as [J1 r1] eqn:En.
    pose proof (nextins_spec _ _ _ (iw_buf _ W) En) as (-> & Hb & Hi & Hk & Hfr).
    pose proof Hfr as (Hfl & _ & Hfins & _ & _ & _ & Hch & _ & _).
    rewrite Hfins in E. set (x := MkIns _ _ _ _ _ _ _) in E. injection E as <- <-.
    set (J2 := set_guardemit _ _). change (flags J2) with (flags J1).
    assert (optflag J2 JIT_F_OPT_CSE = true) as ->.
    { unfold optflag in *. change (flags J2) with (flags J1). by rewrite Hfl. }
    change (fins J2) with (fins J1). rewrite Hfins.
    assert (chain_search J2 (io (fins J)) (same_op12 (fins J)) (op1 (fins J) `max` op2 (fins J)) = nins J) as ->.
    { unfold chain_search. assert (chain J2 (io (fins J)) = nins J) as ->.
      { simpl. by destruct (opeq_spec (io (fins J)) (io (fins J))). }
      apply cse_find_hit.
      - change (nins J2) with (nins J1). rewrite Hi. unfold REF_FIRST, REF_BIAS in *. lia.
      - unfold refs, KLIM, REF_FIRST, REF_BIAS in *. lia.
      - change (IR J2 (nins J)) with (IR (set_ir (nins J) x J1) (nins J)). destruct Hb.
        unfold REF_TRUE, REF_FIRST, REF_BIAS in *. rewrite IR_set_ir by lia. rewrite Z.eqb_refl. unfold same_op12, x. simpl. by rewrite !Z.eqb_refl. }
    rewrite (proj2 (Z.eqb_neq (nins J) 0)) by (unfold REF_FIRST, REF_BIAS in *; lia). done.
  - injection E as <- <-.
    rewrite Hf. fold found. by rewrite (proj2 (Z.eqb_neq found 0)) by done.
Qed.

Lemma lj_opt_cse_again_witness :
  ∃ J', lj_opt_cse J_add = (J', REF_FIRST + 1) ∧ lj_opt_cse J' = (J', REF_FIRST + 1).
Proof.
  destruct (lj_opt_cse J_add) as [J' r] eqn:E.
  assert ((lj_opt_cse J_add).2 = REF_FIRST + 1) as Hr by (by vm_compute). rewrite E in Hr. simpl in Hr.
  subst r. exists J'. split; [done|].
  exact (lj_opt_cse_again J_add 32 J' _ J_add_typed J_add_dom eq_refl E).
Defined.

(** ** Rollback *)

(** Emit a list of instructions. *)
Fixpoint emit_all (xs : list IRIns) (J : jit_State) : jit_State :=
  match xs with
  | [] => J
  | x :: xs => emit_all xs (lj_ir_emit (set_fins x J)).1
  end.

Lemma emit_all_app xs ys J : emit_all (xs ++ ys) J = emit_all ys (emit_all xs J).
Proof. revert J. induction xs as [|x xs IH]; intros J; [done|]. apply IH. Qed.

Lemma emit_chain J J' r :
  ir_wf J → isk_op (io (fins J)) = false → lj_ir_emit J = (J', r) →
  ir_wf J' ∧ ext J J' ∧ r = nins J ∧ nins J' = nins J + 1 ∧ io (IR J' r) = io (fins J) ∧
  prev (IR J' r) = chain J (io (fins J)) ∧
  (∀ o, chain J' o = if opeq o (io (fins J)) then r else chain J o).
Proof.
  intros W Hk E. pose proof (lj_ir_emit_spec _ _ _ W Hk E) as (W' & X & Hr & Hn & _ & Hio & _).
  split_and!; try done.
  - unfold lj_ir_emit in E. destruct (lj_ir_nextins J) as [J1 r1] eqn:En.
    pose proof (nextins_spec _ _ _ (iw_buf _ W) En) as (-> & Hb & Hi & _ & Hf).
    pose proof Hf as (_ & _ & Hfins & _ & _ & _ & Hch & _ & _).
    rewrite Hfins in E. injection E as <- <-.
    pose proof (bo_nins _ (iw_buf _ W)). pose proof (bo_nk _ (iw_buf _ W)). destruct Hb.
    rewrite IR_guard, IR_chain. unfold REF_FIRST, REF_TRUE, REF_BIAS in *.
    rewrite IR_set_ir by lia. rewrite Z.eqb_refl. simpl. by rewrite Hch.
  - unfold lj_ir_emit in E. destruct (lj_ir_nextins J) as [J1 r1] eqn:En.
    pose proof (nextins_spec _ _ _ (iw_buf _ W) En) as (-> & _ & _ & _ & Hf).
    destruct Hf as (_ & _ & Hfins & _ & _ & _ & Hch & _ & _).
    rewrite Hfins in E. injection E as <- <-. intros o. simpl. by rewrite Hch.
Qed.

Lemma emit_all_spec xs J :
  ir_wf J → Forall (λ x, isk_op (io x) = false) xs →
  ir_wf (emit_all xs J) ∧ ext J (emit_all xs J) ∧
  nins (emit_all xs J) = nins J + Z.of_nat (length xs).
Proof.
  intros W H. revert J W. induction H as [|x xs Hx H IH]; intros J W.
  { simpl. split_and!; [done|reflexivity|lia]. }
  cbn [emit_all]. destruct (lj_ir_emit (set_fins x J)) as [J1 r] eqn:E.
  destruct (emit_chain (set_fins x J) J1 r (wf_set_fins _ _ W) Hx E) as (W1 & X1 & _ & Hn & _).
  destruct (IH J1 W1) as (W2 & X2 & Hn2). cbn [fst length] in *.
  change (nins (set_fins x J)) with (nins J) in *. split_and!; [done| |lia].
  etransitivity; [|exact X2]. etransitivity; [apply (ext_set_fins J x)|done].
Qed.

(** The loop only reads the instructions it removes. *)
Lemma rollback_loop_spec xs J J' :
  ir_wf J → Forall (λ x, isk_op (io x) = false) xs →
  let J2 := emit_all xs J in
  (∀ r, nins J ≤ r < nins J2 → IR J' r = IR J2 r) → (∀ o, chain J' o = chain J2 o) →
  let '(Jr, n) := ir_rollback_loop (length xs) J' (nins J2) (nins J) in
  n = nins J ∧ (∀ o, chain Jr o = chain J o) ∧ (∀ r, IR Jr r = IR J' r) ∧ nk Jr = nk J'.
Proof.
  intros W. revert J'. induction xs as [|x xs IH] using rev_ind; intros J' H J2 HIR HC.
  { by split_and!. }
  apply Forall_app in H as [H Hx]. rewrite Forall_singleton in Hx.
  destruct (emit_all_spec xs J W H) as (W1 & X1 & Hn1).
  unfold J2 in *. rewrite emit_all_app in *. cbn [emit_all] in *.
  destruct (lj_ir_emit (set_fins x (emit_all xs J))) as [J3 r] eqn:E.
  destruct (emit_chain _ J3 r (wf_set_fins _ _ W1) Hx E) as (W3 & X3 & Hr & Hn3 & Hio & Hprev & Hch).
  change (nins (set_fins x (emit_all xs J))) with (nins (emit_all xs J)) in *.
  change (fins (set_fins x (emit_all xs J))) with x in *.
  change (chain (set_fins x (emit_all xs J))) with (chain (emit_all xs J)) in *.
  cbn [fst] in *. rewrite length_app, Nat.add_comm. cbn [length Nat.add].
  cbn [ir_rollback_loop]. rewrite (proj2 (Z.ltb_lt _ _)) by lia. cbv zeta.
  replace (nins J3 - 1) with (nins (emit_all xs J)) by lia.
  rewrite (HIR (nins (emit_all xs J))) by lia. subst r. rewrite Hio, Hprev.
  set (J4 := set_chain (io x) (chain (emit_all xs J) (io x)) J').
  pose proof (IH J4 H) as HI. cbv zeta in HI.
  destruct (ir_rollback_loop (length xs) J4 _ _) as [Jr n].
  apply HI.
  - intros r Hr. change (IR J4 r) with (IR J' r). rewrite HIR by lia.
    pose proof (bo_nins _ (iw_buf _ W)). pose proof (bo_nk _ (iw_buf _ W1)).
    rewrite (ex_ir _ _ X3); [done|]. unfold refs, REF_FIRST, REF_TRUE in *. simpl. lia.
  - intros o. simpl. rewrite HC, Hch. by destruct (opeq_spec o (io x)) as [->|].
Qed.

(** Rollback undoes emission: after any instructions are emitted, rolling back to the first
    of them restores the chains and the next instruction, and leaves the older cells as they were. *)
Theorem lj_ir_rollback_emit J xs J' :
  ir_wf J → Forall (λ x, isk_op (io x) = false) xs →
  J' = lj_ir_rollback (emit_all xs J) (nins J) →
  nins J' = nins J ∧ nk J' = nk J ∧ (∀ o, chain J' o = chain J o) ∧
  ∀ r, refs J r → IR J' r = IR J r.
Proof.
  intros W H ->. destruct (emit_all_spec xs J W H) as (W1 & X1 & Hn).
  unfold lj_ir_rollback. replace (Z.to_nat (nins (emit_all xs J) - nins J)) with (length xs) by lia.
  pose proof (rollback_loop_spec xs J (emit_all xs J) W H ltac:(done) ltac:(done)) as HR.
  destruct (ir_rollback_loop _ _ _ _) as [Jr n]. destruct HR as (-> & HC & HI & HK).
  split_and!; [done| |done|].
  - simpl. rewrite HK. clear -H. revert J. induction H as [|x xs Hx H IH]; intros J; [done|]. simpl.
    rewrite IH. exact (emit_nk (set_fins x J)).
  - intros r Hr. change (IR (set_nins (nins J) Jr) r) with (IR Jr r). rewrite HI. by apply X1.
Qed.

Lemma lj_ir_rollback_emit_witness :
  let xs := [MkIns IR_ADD IRT_INT REF_FIRST k_five 0 0 0; MkIns IR_MUL IRT_INT REF_FIRST REF_FIRST 0 0 0;
             MkIns IR_ADD IRT_INT REF_FIRST (REF_FIRST + 1) 0 0 0] in
  let J' := lj_ir_rollback (emit_all xs J_five) (nins J_five) in
  chain (emit_all xs J_five) IR_ADD = REF_FIRST + 3 ∧ chain J' IR_ADD = chain J_five IR_ADD.
Proof.
  cbv zeta. split; [by vm_compute|].
  apply (lj_ir_rollback_emit J_five
    [MkIns IR_ADD IRT_INT REF_FIRST k_five 0 0 0; MkIns IR_MUL IRT_INT REF_FIRST REF_FIRST 0 0 0;
     MkIns IR_ADD IRT_INT REF_FIRST (REF_FIRST + 1) 0 0 0]); [apply J_five_typed| |done].
  repeat constructor.
Defined.

(** ** Arithmetic of constant folding *)

(** [uj_math_modi] is Lua's modulo on 32-bit integers, the remainder of the division rounded
    towards minus infinity, for every pair of operands with a divisor that is not 0. *)
Theorem uj_math_modi_mod a b :
  in_s 32 a → in_s 32 b → b ≠ 0 → uj_math_modi a b = a `mod` b.
Proof. apply uj_math_modi_floor. Qed.

Lemma uj_math_modi_mod_witness : uj_math_modi (- 2 ^ 31) 3 = 1.
Proof.
  rewrite (uj_math_modi_mod (- 2 ^ 31) 3); [by vm_compute|..]; unfold in_s; simpl; lia.
Defined.

Lemma u64_mul_l a b : u64 (u64 a * b) = u64 (a * b).
Proof. unfold u64, wrapu. by rewrite Z.mul_mod_idemp_l by lia. Qed.
Lemma u64_mul_r a b : u64 (a * u64 b) = u64 (a * b).
Proof. unfold u64, wrapu. by rewrite Z.mul_mod_idemp_r by lia. Qed.
Lemma u64_pow a k : u64 (u64 a ^ k) = u64 (a ^ k).
Proof. unfold u64, wrapu. symmetry. by apply Zpower_mod. Qed.

Lemma land_1 k : Z.land k 1 = k `mod` 2.
Proof. change 1 with (Z.ones 1). by rewrite Z.land_ones by lia. Qed.

Lemma powu64_zeros_spec n x k :
  0 < k < 2 ^ Z.of_nat n →
  let '(x', k') := powu64_zeros n x k in
  0 < k' ≤ k ∧ k' `mod` 2 = 1 ∧ u64 (x' ^ k') = u64 (x ^ k).
Proof.
  revert x k. induction n as [|n IH]; intros x k Hk; [simpl in Hk; lia|]. cbn [powu64_zeros].
  rewrite land_1. rewrite Nat2Z.inj_succ, Z.pow_succ_r in Hk by lia.
  pose proof (Z.div_mod k 2 ltac:(lia)) as Hd. pose proof (Z.mod_pos_bound k 2 ltac:(lia)).
  destruct (Z.eqb_spec (k `mod` 2) 0) as [E|E]; [|lia].
  rewrite Z.shiftr_div_pow2 by lia. change (2 ^ 1) with 2.
  specialize (IH (u64 (x * x)) (k `div` 2) ltac:(lia)).
  destruct (powu64_zeros n (u64 (x * x)) (k / 2)) as [x' k']. destruct IH as (H1 & H2 & H3).
  split_and!; [lia|lia|done|]. rewrite H3, u64_pow. f_equal.
  replace (x * x) with (x ^ 2) by lia. rewrite <-Z.pow_mul_r by lia. f_equal. lia.
Qed.

Lemma powu64_bits_spec n x y k :
  0 < k < 2 ^ Z.of_nat n →
  let '(x', y') := powu64_bits n x y k in u64 (y' * x') = u64 (y * x ^ (2 * k)).
Proof.
  revert x y k. induction n as [|n IH]; intros x y k Hk; [simpl in Hk; lia|]. cbn [powu64_bits].
  cbv zeta. destruct (Z.eqb_spec k 1) as [->|Hk1].
  { rewrite u64_mul_r. do 2 f_equal. lia. }
  rewrite land_1. rewrite Nat2Z.inj_succ, Z.pow_succ_r in Hk by lia.
  pose proof (Z.div_mod k 2 ltac:(lia)) as Hd. pose proof (Z.mod_pos_bound k 2 ltac:(lia)).
  rewrite Z.shiftr_div_pow2 by lia. change (2 ^ 1) with 2.
  set (y1 := if negb (k `mod` 2 =? 0) then _ else y).
  specialize (IH (u64 (x * x)) y1 (k `div` 2) ltac:(lia)).
  destruct (powu64_bits n _ _ _) as [x' y']. rewrite IH. rewrite <-u64_mul_r, u64_pow, u64_mul_r.
  replace ((x * x) ^ (2 * (k `div` 2))) with (x ^ (4 * (k `div` 2)))
    by (replace (x * x) with (x ^ 2) by lia; rewrite <-Z.pow_mul_r by lia; f_equal; lia).
  unfold y1. destruct (Z.eqb_spec (k `mod` 2) 0) as [E|E]; simpl.
  - do 2 f_equal. f_equal. lia.
  - rewrite u64_mul_l.
    rewrite (Z.mul_comm y (u64 (x * x))), <-Z.mul_assoc, u64_mul_l. f_equal.
    replace (2 * k) with (2 + 4 * (k `div` 2)) by lia. rewrite Z.pow_add_r by lia.
    replace (x ^ 2) with (x * x) by lia. lia.
Qed.

(** The 64-bit power of constant folding is the power modulo 2^64, for every base and
    every exponent. *)
Theorem lj_carith_powu64_pow x k :
  in_u 64 x → in_u 64 k → lj_carith_powu64 x k = u64 (x ^ k).
Proof.
  unfold in_u. intros Hx Hk. unfold lj_carith_powu64.
  destruct (Z.eqb_spec k 0) as [->|Hk0]; [done|].
  pose proof (powu64_zeros_spec 64 x k ltac:(simpl Z.of_nat; lia)) as Hz.
  assert (∀ n a b, in_u 64 a → in_u 64 (powu64_zeros n a b).1) as Hrng.
  { clear. induction n as [|n IH]; intros a b Ha; [done|]. cbn [powu64_zeros].
    case_test; [|done]. apply IH. by apply wrapu_range. }
  specialize (Hrng 64%nat x k ltac:(unfold in_u; lia)).
  destruct (powu64_zeros 64 x k) as [x1 k1]. destruct Hz as (H1 & H2 & <-). cbn [fst] in Hrng.
  rewrite Z.shiftr_div_pow2 by lia. change (2 ^ 1) with 2.
  pose proof (Z.div_mod k1 2 ltac:(lia)) as Hd.
  destruct (Z.eqb_spec (k1 `div` 2) 0) as [E|E]; simpl negb; cbv iota.
  - replace k1 with 1 by lia. rewrite Z.pow_1_r. symmetry. by apply wrapu_id.
  - pose proof (powu64_bits_spec 64 x1 x1 (k1 `div` 2) ltac:(simpl Z.of_nat; lia)) as Hb.
    destruct (powu64_bits 64 x1 x1 (k1 / 2)) as [x2 y2]. rewrite Hb. f_equal.
    rewrite <-(Z.pow_succ_r x1) by lia. f_equal. lia.
Qed.

Lemma lj_carith_powu64_pow_witness : lj_carith_powu64 3 41 = u64 (3 ^ 41).
Proof. apply (lj_carith_powu64_pow 3 41); unfold in_u; lia. Defined.

(** ** Division *)

(** A trace with two 64-bit loads and their negations, at the references 0 to 3 after the base. *)
Definition J_neg : jit_State :=
  emit_all [MkIns IR_XLOAD IRT_U64 0 0 0 0 0; MkIns IR_XLOAD IRT_U64 0 0 0 0 0;
            MkIns IR_NEG IRT_U64 REF_FIRST REF_FIRST 0 0 0;
            MkIns IR_NEG IRT_U64 (REF_FIRST + 1) (REF_FIRST + 1) 0 0 0] J_new.

(** -6 / -3 at 64 bits, unsigned: the loads are 6 and 3. *)
Definition J_div : jit_State :=
  set_fins (MkIns IR_DIV IRT_U64 (REF_FIRST + 2) (REF_FIRST + 3) 0 0 0) J_neg.
Definition run_div (r : Z) : Z :=
  if r =? REF_FIRST then 6 else if r =? REF_FIRST + 1 then 3
  else if r =? REF_FIRST + 2 then -6 else if r =? REF_FIRST + 3 then -3
  else if r =? REF_FIRST + 4 then 2 else 0.

(** Dropping the negations of both operands is wrong for 64-bit division: there is a run in
    which the unsigned quotient of the negations is 0 and the instruction that folding emits
    for it gives 2. *)
Theorem div_negneg_wrong :
  match lj_opt_fold 5 J_div with
  | Done J' ref => models_check run_div J' = true ∧ run_div ref = 2
  | _ => False
  end ∧ ins_sem run_div (fins J_div) = SVal 0.
Proof. by vm_compute. Qed.

(** -6 / 3 at 64 bits, signed, and then unsigned. *)
Definition J_divs : jit_State :=
  (lj_opt_cse (set_fins (MkIns IR_DIV IRT_I64 (REF_FIRST + 2) (REF_FIRST + 1) 0 0 0) J_neg)).1.
Definition J_divu : jit_State :=
  set_fins (MkIns IR_DIV IRT_U64 (REF_FIRST + 2) (REF_FIRST + 1) 0 0 0) J_divs.
Definition run_divs (r : Z) : Z := if r =? REF_FIRST + 4 then -2 else run_div r.

(** Common-subexpression elimination compares opcode and operands but not the type: the
    unsigned 64-bit quotient is replaced by the signed one of the same operands, which differs. *)
Theorem cse_ignores_type :
  let '(J', ref) := lj_opt_cse J_divu in
  models_check run_divs J' = true ∧ run_divs ref = -2 ∧
  ins_sem run_divs (fins J_divu) = SVal 6148914691236517203.
Proof. by vm_compute. Qed.

End IrTheorems.
