(* ===== verification/Dce.v ===== *)
(** * Dead code elimination (jit/opt/dce.c)

    Snapshots say which references the interpreter needs when a guard fails.  An
    instruction is live if a snapshot refers to it, if it has a side effect, or
    if a live instruction has it as an operand; the others are replaced by NOPs.
    [pchain] of the code is, per opcode, a pointer to the head of the chain of
    the opcode ([None]) or to the [prev] field of an instruction. *)

From stdpp Require Import base decidable list numbers option sets.
From Stdlib Require Import ZArith Lia.
From S2P Require Import Prelude Obj Ir IrWf IntOps IntFacts Fold IrSem.

Local Open Scope Z_scope.
Import Ir IrWf IrSem.

Module Dce.

Definition JIT_F_OPT_DCE : Z := 0x4000.

(** ** The code *)

(** The fields of a snapshot that are used here. *)
Record SnapShot := MkSnap { mapofs : Z; nent : Z }.
Definition snap_ref (sn : Z) : Z := Z.land sn 0xffff.

(** [if (ref >= REF_FIRST) irt_setmark(IR(ref)->t)] *)
Definition mark_ref (ref : Z) (J : jit_State) : jit_State :=
  if REF_FIRST <=? ref then set_ir ref (set_it (irt_setmark (it (IR J ref))) (IR J ref)) J else J.

Definition snap_entries (snapmap : list Z) (s : SnapShot) : list Z :=
  take (Z.to_nat (nent s)) (drop (Z.to_nat (mapofs s)) snapmap).

(** Scan through all snapshots and mark all referenced instructions. *)
Definition dce_marksnap (snap : list SnapShot) (snapmap : list Z) (J : jit_State) : jit_State :=
  foldl (λ J s, foldl (λ J sn, mark_ref (snap_ref sn) J) J (snap_entries snapmap s)) J snap.

(** [*pchain[o] = v] *)
Definition pchain_store (p : option Z) (o : IROp) (v : Z) (J : jit_State) : jit_State :=
  match p with
  | None => set_chain o v J
  | Some r => set_ir r (set_prev v (IR J r)) J
  end.

(** Backwards propagate marks, from the instruction [REF_FIRST + n - 1] on. *)
Fixpoint dce_loop (n : nat) (pchain : IROp → option Z) (J : jit_State) : jit_State :=
  match n with
  | O => J
  | S n =>
      let ins := REF_FIRST + Z.of_nat n in
      let ir := IR J ins in
      if irt_ismarked (it ir) then
        let J := set_ir ins (set_it (irt_clearmark (it ir)) ir) J in
        let pchain o := if opeq o (io ir) then Some ins else pchain o in
        dce_loop n pchain (mark_ref (op2 ir) (mark_ref (op1 ir) J))
      else if negb (ir_sideeff ir) then
        let J := pchain_store (pchain (io ir)) (io ir) (prev ir) J in
        dce_loop n pchain (set_ir ins (ir_tonop (IR J ins)) J)
      else dce_loop n pchain (mark_ref (op2 ir) (mark_ref (op1 ir) J))
  end.
Definition dce_propagate (J : jit_State) : jit_State :=
  dce_loop (Z.to_nat (nins J - REF_FIRST)) (λ _, None) J.

(** The cache of the narrowing pass, which is cleared, is not part of the state here. *)
Definition lj_opt_dce (snap : list SnapShot) (snapmap : list Z) (J : jit_State) : jit_State :=
  if negb (Z.land (flags J) JIT_F_OPT_DCE =? 0) then dce_propagate (dce_marksnap snap snapmap J) else J.

(** ** Live instructions *)

Definition snap_refs (snap : list SnapShot) (snapmap : list Z) : list Z :=
  snap_ref <$> concat (snap_entries snapmap <$> snap).

Section Live.
Context (refs0 : list Z) (J : jit_State).

Inductive live : Z → Prop :=
  | live_snap r : r ∈ refs0 → REF_FIRST ≤ r → live r
  | live_eff r : REF_FIRST ≤ r < nins J → ir_sideeff (IR J r) = true → live r
  | live_op r r' : live r' → op1 (IR J r') = r ∨ op2 (IR J r') = r → REF_FIRST ≤ r → live r.

(** Snapshots refer to instructions, operands come before their users, nothing is marked. *)
Record dce_ok : Prop := {
  do_buf : buf_ok J;
  do_snap r : r ∈ refs0 → r < nins J;
  do_ssa r : REF_FIRST ≤ r < nins J → op1 (IR J r) < r ∧ op2 (IR J r) < r;
  do_mark r : REF_FIRST ≤ r < nins J → irt_ismarked (it (IR J r)) = false
}.

Lemma live_range r : dce_ok → live r → REF_FIRST ≤ r < nins J.
Proof.
  intros O. induction 1 as [r Hr Hf|r Hr _|r r' _ IH Ho Hf]; [by split; [|apply O]|done|].
  destruct (do_ssa O r' IH). lia.
Qed.

End Live.

(** ** Marks *)

Lemma mark_spec n : Z.testbit IRT_MARK n = (n =? 5).
Proof. change IRT_MARK with (2 ^ 5). by rewrite Z.pow2_bits_eqb, Z.eqb_sym by lia. Qed.

Lemma ismarked_bit t : irt_ismarked t = Z.testbit t 5.
Proof.
  unfold irt_ismarked. destruct (Z.testbit t 5) eqn:E.
  - rewrite (proj2 (Z.eqb_neq _ 0)); [done|]. intros E0.
    apply (f_equal (λ x, Z.testbit x 5)) in E0. by rewrite Z.land_spec, mark_spec, E in E0.
  - rewrite (proj2 (Z.eqb_eq _ 0)); [done|]. apply Z.bits_inj'. intros n Hn.
    rewrite Z.land_spec, mark_spec, Z.bits_0. destruct (n =? 5) eqn:En; [|by rewrite andb_false_r].
    apply Z.eqb_eq in En as ->. by rewrite E.
Qed.

Lemma setmark_marked t : irt_ismarked (irt_setmark t) = true.
Proof. rewrite ismarked_bit. unfold irt_setmark. rewrite Z.lor_spec, mark_spec. apply orb_true_r. Qed.

Lemma clear_setmark t : irt_clearmark (irt_setmark t) = irt_clearmark t.
Proof.
  unfold irt_clearmark, irt_setmark. apply Z.bits_inj'. intros n Hn.
  rewrite !Z.ldiff_spec, Z.lor_spec. by destruct (Z.testbit t n), (Z.testbit IRT_MARK n).
Qed.

Lemma clear_unmarked t : irt_ismarked t = false → irt_clearmark t = t.
Proof.
  rewrite ismarked_bit. intros Ht. unfold irt_clearmark. apply Z.bits_inj'. intros n Hn.
  rewrite Z.ldiff_spec, mark_spec. destruct (n =? 5) eqn:E; [|by rewrite andb_true_r].
  apply Z.eqb_eq in E as ->. by rewrite Ht.
Qed.

(** [y] is [x], perhaps marked. *)
Definition maybe_marked (x y : IRIns) : Prop :=
  irt_clearmark (it y) = it x ∧ y = set_it (it y) x.

Lemma maybe_refl x : irt_ismarked (it x) = false → maybe_marked x x.
Proof. intros Hx. split; [by apply clear_unmarked|by destruct x]. Qed.

Lemma maybe_mark x y : maybe_marked x y → maybe_marked x (set_it (irt_setmark (it y)) y).
Proof. intros [E ->]. split; simpl; [by rewrite clear_setmark|done]. Qed.

Lemma maybe_unmarked x y : maybe_marked x y → irt_ismarked (it y) = false → y = x.
Proof. intros [E Ey] Hy. rewrite clear_unmarked in E by done. rewrite Ey, E. by destruct x. Qed.

Lemma maybe_clear x y : maybe_marked x y → set_it (irt_clearmark (it y)) y = x.
Proof. intros [E Ey]. rewrite E, Ey. by destruct x. Qed.

(** ** The loop *)

(** What leaves the rest of the state alone. *)
Definition same_frame (J J' : jit_State) : Prop :=
  flags J' = flags J ∧ nk J' = nk J ∧ nins J' = nins J ∧ k64 J' = k64 J ∧ scev J' = scev J ∧
  irtoplim J' = irtoplim J ∧ irbotlim J' = irbotlim J ∧ length (irbuf J') = length (irbuf J).

Lemma same_frame_buf J J' : same_frame J J' → buf_ok J → buf_ok J'.
Proof. intros (_ & Hk & Hn & _ & _ & Ht & Hb & Hl) [? ? ? ? ?]. split; lia. Qed.

Lemma set_ir_frame r x J : same_frame J (set_ir r x J).
Proof. unfold same_frame. simpl. rewrite length_insert. done. Qed.

Lemma frame_trans J1 J2 J3 : same_frame J1 J2 → same_frame J2 J3 → same_frame J1 J3.
Proof. intros (?&?&?&?&?&?&?&?) (?&?&?&?&?&?&?&?). unfold same_frame. split_and!; congruence. Qed.

Lemma mark_ref_frame r J : same_frame J (mark_ref r J) ∧ chain (mark_ref r J) = chain J.
Proof. unfold mark_ref. destruct (REF_FIRST <=? r); [split; [apply set_ir_frame|done]|done]. Qed.

(** A store to an instruction. *)
Lemma IR_store J r x r' :
  buf_ok J → REF_FIRST ≤ r < nins J → nk J ≤ r' → IR (set_ir r x J) r' = if r' =? r then x else IR J r'.
Proof.
  intros [Hl Hb Hk Hi Ht] Hr Hr'. unfold REF_TRUE, REF_FIRST in *. apply IR_set_ir; lia.
Qed.

Lemma IR_mark J r r' :
  buf_ok J → r < nins J → nk J ≤ r' →
  IR (mark_ref r J) r' =
    if (r' =? r) && (REF_FIRST <=? r) then set_it (irt_setmark (it (IR J r))) (IR J r) else IR J r'.
Proof.
  intros B Hr Hr'. unfold mark_ref. destruct (REF_FIRST <=? r) eqn:E; bprop.
  - rewrite IR_store by (done || lia). by destruct (r' =? r).
  - by rewrite andb_false_r.
Qed.

Lemma mark_maybe J a x r :
  buf_ok J → a < nins J → nk J ≤ r → maybe_marked x (IR J r) →
  maybe_marked x (IR (mark_ref a J) r) ∧
  (irt_ismarked (it (IR (mark_ref a J) r)) = true ↔
     irt_ismarked (it (IR J r)) = true ∨ r = a ∧ REF_FIRST ≤ a).
Proof.
  intros B Ha Hr Hx. rewrite IR_mark by done. destruct (r =? a) eqn:E; bprop; cbn [andb].
  - subst a. destruct (REF_FIRST <=? r) eqn:Ef; bprop.
    + split; [by apply maybe_mark|]. simpl. rewrite setmark_marked. tauto.
    + split; [done|]. split; [by left|]. intros [?|[_ ?]]; [done|lia].
  - split; [done|]. split; [by left|]. by intros [?|[? _]].
Qed.

Lemma mark_other J a r :
  buf_ok J → a < nins J → nk J ≤ r → r ≠ a ∨ a < REF_FIRST → IR (mark_ref a J) r = IR J r.
Proof.
  intros B Ha Hr Hn. rewrite IR_mark by done. destruct (r =? a) eqn:E; bprop; [|done].
  destruct Hn as [?|?]; [done|]. by rewrite (proj2 (Z.leb_gt _ _)) by lia.
Qed.

Section Loop.
Context (refs0 : list Z) (J0 : jit_State) (O : dce_ok refs0 J0).
Notation live := (live refs0 J0).

(** Used by a snapshot or by a live instruction from [REF_FIRST + n] on. *)
Definition used (n : nat) (r : Z) : Prop :=
  r ∈ refs0 ∨ ∃ r', REF_FIRST + Z.of_nat n ≤ r' ∧ live r' ∧ (op1 (IR J0 r') = r ∨ op2 (IR J0 r') = r).

Record inv (n : nat) (pchain : IROp → option Z) (J : jit_State) : Prop := {
  iv_frame : same_frame J0 J;
  iv_old r : nk J0 ≤ r < REF_FIRST → IR J r = IR J0 r;
  iv_todo r : REF_FIRST ≤ r < REF_FIRST + Z.of_nat n →
    maybe_marked (IR J0 r) (IR J r) ∧ (irt_ismarked (it (IR J r)) = true ↔ used n r);
  iv_live r : REF_FIRST + Z.of_nat n ≤ r < nins J0 → live r → ∃ p, IR J r = set_prev p (IR J0 r);
  iv_dead r : REF_FIRST + Z.of_nat n ≤ r < nins J0 → ¬ live r → IR J r = ir_tonop (IR J0 r);
  iv_dec r : REF_FIRST + Z.of_nat n ≤ r < nins J0 → live r ∨ ¬ live r;
  iv_pchain o r : pchain o = Some r → REF_FIRST + Z.of_nat n ≤ r < nins J0 ∧ live r
}.

Lemma inv_buf n pc J : inv n pc J → buf_ok J ∧ nk J = nk J0 ∧ nins J = nins J0.
Proof.
  intros V. pose proof (iv_frame _ _ _ V) as F. split; [by apply (same_frame_buf _ _ F), O|]. by destruct F as (_&?&?&_).
Qed.

Lemma nk_first : nk J0 < REF_FIRST.
Proof. pose proof (bo_nk _ (do_buf _ _ O)). unfold REF_TRUE, REF_FIRST in *. lia. Qed.

(** An instruction is live if it is used above or has a side effect. *)
Lemma live_now n :
  let r := REF_FIRST + Z.of_nat n in
  r < nins J0 → (live r ↔ used (S n) r ∨ ir_sideeff (IR J0 r) = true).
Proof.
  intros r Hr. split.
  - intros L. inversion L as [x Hx Hf E|x Hx He E|x r' Hl Ho Hf E]; subst; [by left; left|by right|].
    left. right. exists r'. split_and!; [|done|done].
    destruct (do_ssa _ _ O r' (live_range _ _ _ O Hl)). unfold r in *. lia.
  - intros [[Hs|(r' & _ & Hl & Ho)]|He].
    + apply live_snap; [done|unfold r; lia].
    + eapply live_op; [done|done|unfold r; lia].
    + apply live_eff; [unfold r in *; lia|done].
Qed.

Lemma used_step n r :
  let ins := REF_FIRST + Z.of_nat n in
  used n r ↔ used (S n) r ∨ live ins ∧ (op1 (IR J0 ins) = r ∨ op2 (IR J0 ins) = r).
Proof.
  intros ins. unfold used. split.
  - intros [?|(r' & Hr' & Hl & Ho)]; [by left; left|].
    destruct (decide (r' = ins)) as [->|Hne]; [by right|]. left. right. exists r'.
    split_and!; [unfold ins in *; lia|done|done].
  - intros [[?|(r' & Hr' & Hl & Ho)]|[Hl Ho]]; [by left| |].
    + right. exists r'. split_and!; [lia|done|done].
    + right. exists ins. split_and!; [unfold ins; lia|done|done].
Qed.

(** A live instruction: its operands are marked. *)
Lemma inv_keep n pc pc' J J1 :
  let ins := REF_FIRST + Z.of_nat n in
  inv (S n) pc J → ins < nins J0 → live ins →
  same_frame J J1 → (∀ r, nk J0 ≤ r → r ≠ ins → IR J1 r = IR J r) → IR J1 ins = IR J0 ins →
  (∀ o r, pc' o = Some r → pc o = Some r ∨ r = ins) →
  inv n pc' (mark_ref (op2 (IR J0 ins)) (mark_ref (op1 (IR J0 ins)) J1)).
Proof.
  intros ins V Hins Hl F1 Hother Hme Hpc.
  destruct (inv_buf _ _ _ V) as (B & Ek & En).
  pose proof (same_frame_buf _ _ F1 B) as B1.
  assert (nk J1 = nk J0 ∧ nins J1 = nins J0) as [Ek1 En1] by (destruct F1 as (_&?&?&_); split; congruence).
  destruct (do_ssa _ _ O ins ltac:(unfold ins in *; lia)) as [S1 S2].
  set (a := op1 (IR J0 ins)) in *. set (b := op2 (IR J0 ins)) in *.
  destruct (mark_ref_frame a J1) as [F2 _]. pose proof (same_frame_buf _ _ F2 B1) as B2.
  destruct (mark_ref_frame b (mark_ref a J1)) as [F3 _].
  assert (nk (mark_ref a J1) = nk J0 ∧ nins (mark_ref a J1) = nins J0) as [Ek2 En2]
    by (destruct F2 as (_&?&?&_); split; congruence).
  pose proof nk_first as Hk0.
  set (J' := mark_ref b (mark_ref a J1)).
  assert (∀ r, nk J0 ≤ r → r < REF_FIRST ∨ ins ≤ r → IR J' r = IR J1 r) as Hskip.
  { intros r Hr Hor. unfold J'.
    rewrite mark_other by (done || lia || (destruct (decide (r = b)); [right; lia|by left])).
    apply mark_other; [done|lia|lia|]. destruct (decide (r = a)); [right; lia|by left]. }
  split.
  - eapply frame_trans; [apply (iv_frame _ _ _ V)|]. eapply frame_trans; [done|]. by eapply frame_trans.
  - intros r Hr. rewrite Hskip, Hother by (unfold ins; lia). by apply (iv_old _ _ _ V).
  - intros r Hr. destruct (iv_todo _ _ _ V r ltac:(lia)) as [M U].
    rewrite <-(Hother r) in M, U by (unfold ins; lia).
    destruct (mark_maybe J1 a _ r B1 ltac:(lia) ltac:(lia) M) as [M1 U1].
    destruct (mark_maybe _ b _ r B2 ltac:(lia) ltac:(lia) M1) as [M2 U2].
    split; [done|]. fold J' in U2. rewrite U2, U1, U, (used_step n). fold ins a b. split.
    + intros [[?|[-> _]]|[-> _]]; [by left|right..]; (split; [done|]); [by left|by right].
    + intros [?|[_ [E|E]]]; [by left; left|left; right|right]; split; congruence || lia.
  - intros r Hr Hlr. destruct (decide (r = ins)) as [->|Hne].
    + exists (prev (IR J0 ins)). rewrite Hskip, Hme by (unfold ins in *; lia). by destruct (IR J0 ins).
    + rewrite Hskip, Hother by (unfold ins in *; lia). apply (iv_live _ _ _ V); [unfold ins in *; lia|done].
  - intros r Hr Hlr. destruct (decide (r = ins)) as [->|Hne]; [done|].
    rewrite Hskip, Hother by (unfold ins in *; lia). apply (iv_dead _ _ _ V); [unfold ins in *; lia|done].
  - intros r Hr. destruct (decide (r = ins)) as [->|]; [by left|]. apply (iv_dec _ _ _ V). unfold ins in *. lia.
  - intros o r [?%(iv_pchain _ _ _ V)| ->]%Hpc; [|by unfold ins in *; split; [lia|]]. split; [lia|tauto].
Qed.

(** A dead instruction becomes a NOP. *)
Lemma inv_drop n pc J J1 :
  let ins := REF_FIRST + Z.of_nat n in
  inv (S n) pc J → ins < nins J0 → ¬ live ins →
  same_frame J J1 →
  (∀ r, nk J0 ≤ r → IR J1 r = IR J r ∨ ins < r ∧ live r ∧ ∃ p, IR J1 r = set_prev p (IR J r)) →
  IR J1 ins = IR J0 ins →
  inv n pc (set_ir ins (ir_tonop (IR J1 ins)) J1).
Proof.
  intros ins V Hins Hd F1 Hother Hme.
  destruct (inv_buf _ _ _ V) as (B & Ek & En).
  pose proof (same_frame_buf _ _ F1 B) as B1. pose proof nk_first as Hk0.
  assert (nk J1 = nk J0 ∧ nins J1 = nins J0) as [Ek1 En1] by (destruct F1 as (_&?&?&_); split; congruence).
  assert (∀ r, nk J0 ≤ r → r ≠ ins → IR (set_ir ins (ir_tonop (IR J1 ins)) J1) r = IR J1 r) as Hset.
  { intros r Hr Hne. rewrite IR_store by (done || unfold ins in *; lia). by rewrite (proj2 (Z.eqb_neq _ _)). }
  split.
  - eapply frame_trans; [apply (iv_frame _ _ _ V)|]. eapply frame_trans; [done|apply set_ir_frame].
  - intros r Hr. rewrite Hset by (unfold ins; lia).
    destruct (Hother r) as [->|[? _]]; [lia|by apply (iv_old _ _ _ V)|unfold ins in *; lia].
  - intros r Hr. rewrite Hset by (unfold ins; lia).
    destruct (Hother r) as [->|[? _]]; [lia| |unfold ins in *; lia].
    destruct (iv_todo _ _ _ V r ltac:(lia)) as [M U]. split; [done|].
    rewrite U, (used_step n). fold ins. tauto.
  - intros r Hr Hl. assert (r ≠ ins) by (by intros ->). rewrite Hset by (lia || done).
    destruct (iv_live _ _ _ V r ltac:(unfold ins in *; lia) Hl) as [p Ep].
    destruct (Hother r) as [->|(_ & _ & q & ->)]; [lia|by exists p|]. exists q. by rewrite Ep.
  - intros r Hr Hl. destruct (decide (r = ins)) as [->|Hne].
    + rewrite IR_store by (done || unfold ins in *; lia). by rewrite Z.eqb_refl, Hme.
    + rewrite Hset by (lia || done).
      destruct (Hother r) as [->|(_ & ? & _)]; [lia|apply (iv_dead _ _ _ V); [unfold ins in *; lia|done]|done].
  - intros r Hr. destruct (decide (r = ins)) as [->|]; [by right|]. apply (iv_dec _ _ _ V). unfold ins in *. lia.
  - intros o r Hpc. destruct (iv_pchain _ _ _ V o r Hpc). split; [lia|done].
Qed.

(** The two ways to store to [pchain]. *)
Lemma pchain_store_spec n pc J o v :
  let ins := REF_FIRST + Z.of_nat n in
  inv (S n) pc J → ins < nins J0 →
  let J1 := pchain_store (pc o) o v J in
  same_frame J J1 ∧
  (∀ r, nk J0 ≤ r → IR J1 r = IR J r ∨ ins < r ∧ live r ∧ ∃ p, IR J1 r = set_prev p (IR J r)) ∧
  IR J1 ins = IR J ins.
Proof.
  intros ins V Hins J1. unfold J1, pchain_store. pose proof nk_first.
  destruct (inv_buf _ _ _ V) as (B & Ek & En).
  destruct (pc o) as [q|] eqn:Hq; [|split_and!; [done|intros r _; by left|done]].
  destruct (iv_pchain _ _ _ V o q Hq) as [Hqr Hql].
  split_and!; [apply set_ir_frame| |].
  - intros r Hr. rewrite IR_store by (done || lia). destruct (r =? q) eqn:E; bprop; [|by left].
    subst r. right. split_and!; [unfold ins; lia|done|by eexists].
  - rewrite IR_store by (done || unfold ins; lia). rewrite (proj2 (Z.eqb_neq _ _)) by (unfold ins; lia). done.
Qed.

Lemma loop_inv n pc J :
  REF_FIRST + Z.of_nat n ≤ nins J0 → inv n pc J → ∃ pc', inv 0 pc' (dce_loop n pc J).
Proof.
  revert pc J. induction n as [|n IH]; intros pc J Hn V; [by exists pc|].
  cbn [dce_loop]. set (ins := REF_FIRST + Z.of_nat n).
  assert (ins < nins J0) as Hins by (unfold ins; lia).
  destruct (inv_buf _ _ _ V) as (B & Ek & En). pose proof nk_first.
  destruct (iv_todo _ _ _ V ins ltac:(unfold ins; lia)) as [M U].
  pose proof (live_now n Hins) as L. fold ins in L.
  assert (io (IR J ins) = io (IR J0 ins) ∧ op1 (IR J ins) = op1 (IR J0 ins) ∧
          op2 (IR J ins) = op2 (IR J0 ins)) as (Eo & E1 & E2) by (by destruct M as [_ ->]).
  rewrite E1, E2. destruct (irt_ismarked (it (IR J ins))) eqn:Em.
  - apply IH; [lia|]. apply (inv_keep n pc _ J); [done..|by apply L; left; apply U| | | |].
    + apply set_ir_frame.
    + intros r Hr Hne. rewrite IR_store by (done || unfold ins in *; lia). by rewrite (proj2 (Z.eqb_neq _ _)).
    + rewrite IR_store by (done || unfold ins in *; lia). rewrite Z.eqb_refl. by apply maybe_clear.
    + intros o r. case_match; [intros [= <-]; by right|by left].
  - pose proof (maybe_unmarked _ _ M Em) as Ei. rewrite Ei.
    destruct (ir_sideeff (IR J0 ins)) eqn:Es; cbn [negb]; (apply IH; [lia|]).
    + apply (inv_keep n pc pc J J); [done..|by apply L; right|done|done|done|by left].
    + destruct (pchain_store_spec n pc J (io (IR J0 ins)) (prev (IR J0 ins)) V Hins) as (F & Ho & Hi).
      apply (inv_drop n pc J); [done..| |done|done|by rewrite Hi].
      intros [HU|?]%L; [apply U in HU|]; congruence.
Qed.

(** Before the loop every reference of a snapshot is marked. *)
Lemma marks_inv l J :
  (∀ r, r ∈ l → r < nins J0) → same_frame J0 J →
  (∀ r, nk J0 ≤ r < REF_FIRST → IR J r = IR J0 r) →
  (∀ r, REF_FIRST ≤ r < nins J0 → maybe_marked (IR J0 r) (IR J r)) →
  let J' := foldl (λ J r, mark_ref r J) J l in
  same_frame J0 J' ∧ (∀ r, nk J0 ≤ r < REF_FIRST → IR J' r = IR J0 r) ∧
  ∀ r, REF_FIRST ≤ r < nins J0 → maybe_marked (IR J0 r) (IR J' r) ∧
    (irt_ismarked (it (IR J' r)) = true ↔ irt_ismarked (it (IR J r)) = true ∨ r ∈ l).
Proof.
  pose proof nk_first. revert J. induction l as [|a l IH]; intros J Hl F Hold M; cbn [foldl].
  - split_and!; [done|done|]. intros r Hr. split; [by apply M|]. set_solver.
  - pose proof (same_frame_buf _ _ F (do_buf _ _ O)) as B.
    assert (nk J = nk J0 ∧ nins J = nins J0) as [Ek En] by (destruct F as (_&?&?&_); done).
    pose proof (Hl a ltac:(set_solver)) as Ha.
    destruct (IH (mark_ref a J)) as (F' & Hold' & M').
    + set_solver.
    + eapply frame_trans; [done|apply mark_ref_frame].
    + intros r Hr. rewrite mark_other; [by apply Hold|done|lia|lia|].
      destruct (decide (r = a)); [right; lia|by left].
    + intros r Hr. apply mark_maybe; [done|lia|lia|by apply M].
    + split_and!; [done|done|]. intros r Hr. destruct (M' r Hr) as [? HM]. split; [done|].
      rewrite HM, (proj2 (mark_maybe J a (IR J0 r) r B ltac:(lia) ltac:(lia) (M r Hr))).
      rewrite elem_of_cons. split; [tauto|]. intros [?|[<-|?]]; [tauto| |tauto]. left. right. split; [done|lia].
Qed.

End Loop.

Lemma marksnap_foldl snap snapmap J :
  dce_marksnap snap snapmap J = foldl (λ J r, mark_ref r J) J (snap_refs snap snapmap).
Proof.
  unfold dce_marksnap, snap_refs. revert J. induction snap as [|s snap IH]; intros J; [done|].
  cbn [foldl fmap list_fmap concat]. rewrite fmap_app, foldl_app, <-IH. f_equal.
  revert J. induction (snap_entries snapmap s) as [|e l IHl]; intros J; [done|]. apply IHl.
Qed.

Lemma dce_inv snap snapmap J :
  let refs0 := snap_refs snap snapmap in
  dce_ok refs0 J → ∃ pc, inv refs0 J 0 pc (dce_propagate (dce_marksnap snap snapmap J)).
Proof.
  intros refs0 O. rewrite marksnap_foldl. fold refs0. pose proof (bo_nins _ (do_buf _ _ O)).
  destruct (marks_inv refs0 J O refs0 J) as (F & Hold & M); [apply O|done|done| |].
  { intros r Hr. apply maybe_refl. by apply (do_mark _ _ O). }
  unfold dce_propagate. destruct F as (? & ? & En & F). rewrite En.
  set (n := Z.to_nat (nins J - REF_FIRST)). apply (loop_inv refs0 J O); [unfold n; lia|]. split.
  - unfold same_frame. tauto.
  - done.
  - intros r Hr. destruct (M r ltac:(unfold n in *; lia)) as [M1 M2]. split; [done|].
    rewrite M2, (do_mark _ _ O r) by (unfold n in *; lia). unfold used. split.
    + intros [?|?]; [done|by left].
    + intros [?|(r' & Hr' & Hl & _)]; [by right|]. pose proof (live_range _ _ _ O Hl). unfold n in *. lia.
  - intros r Hr. unfold n in *. lia.
  - intros r Hr. unfold n in *. lia.
  - intros r Hr. unfold n in *. lia.
  - done.
Qed.

End Dce.
