(* ===== verification/DceTheorems.v ===== *)
(** * Correctness of dead code elimination

    The pass keeps exactly the live instructions, and the trace that is left leaves
    through the same guards with the same values in what a snapshot needs. *)

From stdpp Require Import base decidable list numbers option sets.
From Stdlib Require Import ZArith Lia.
From S2P Require Import Prelude Obj Ir IrWf IntOps IntFacts Fold IrSem FoldSpec FoldEngine Dce.
From S2P Require Import FoldLemmas FoldBits IrTrace FoldTheorems.

Local Open Scope Z_scope.
Import Ir IrWf IntOps IntFacts Fold IrSem FoldSpec FoldEngine Dce FoldLemmas FoldMono.
Import IrTrace FoldTheorems.

Module DceTheorems.

Lemma dce_cells snap snapmap J :
  let refs0 := snap_refs snap snapmap in
  let J' := lj_opt_dce snap snapmap J in
  dce_ok refs0 J → Z.land (flags J) JIT_F_OPT_DCE ≠ 0 →
  nk J' = nk J ∧ nins J' = nins J ∧ k64 J' = k64 J ∧
  (∀ r, nk J ≤ r < REF_FIRST → IR J' r = IR J r) ∧
  (∀ r, REF_FIRST ≤ r < nins J →
     live refs0 J r ∧ (∃ p, IR J' r = set_prev p (IR J r)) ∨
     ¬ live refs0 J r ∧ IR J' r = ir_tonop (IR J r)).
Proof.
  intros refs0 J' O Hf. unfold J', lj_opt_dce. rewrite (proj2 (Z.eqb_neq _ 0)) by done. cbn [negb].
  destruct (dce_inv snap snapmap J O) as [pc V]. fold refs0 in V.
  destruct (inv_buf _ _ O _ _ _ V) as (_ & -> & ->).
  split_and!; [done|done|apply (iv_frame _ _ _ _ _ V)|apply (iv_old _ _ _ _ _ V)|]. intros r Hr.
  destruct (iv_dec _ _ _ _ _ V r) as [L|L]; [lia| |].
  - left. split; [done|]. apply (iv_live _ _ _ _ _ V); [lia|done].
  - right. split; [done|]. apply (iv_dead _ _ _ _ _ V); [lia|done].
Qed.

Ltac reflia := unfold REF_FIRST, REF_BIAS in *; lia.

(** ** Values of dead instructions *)

Lemma sem_ops ρ ρ' x :
  ρ' (op1 x) = ρ (op1 x) → ρ' (op2 x) = ρ (op2 x) → ins_sem ρ' x = ins_sem ρ x.
Proof. intros E1 E2. unfold ins_sem. by rewrite E1, E2. Qed.

Lemma set_prev_sem ρ p x : ins_sem ρ (set_prev p x) = ins_sem ρ x.
Proof. done. Qed.

Lemma quot_range a b : in_s 64 a → in_s 64 b → ¬ (a = - 2 ^ 63 ∧ b = -1) → in_s 64 (Z.quot a b).
Proof.
  unfold in_s. simpl. intros Ha Hb Hn. destruct (decide (b = 0)) as [->|H0]; [rewrite Z.quot_0_r_ext by done; lia|].
  assert (Z.abs (Z.quot a b) ≤ Z.abs a ∧ (a = Z.quot a b * b + Z.rem a b)) as [H1 H2].
  { split; [|rewrite Z.mul_comm; by apply Z.quot_rem]. rewrite <-Z.quot_abs by done.
    apply Z.quot_le_upper_bound; nia. }
  destruct (decide (Z.quot a b = 2 ^ 63)); [|lia]. exfalso. apply Hn.
  pose proof (Z.rem_bound_abs a b H0). nia.
Qed.

Lemma rem_range a b : in_s 64 a → in_s 64 b → b ≠ 0 → in_s 64 (Z.rem a b).
Proof. unfold in_s. simpl. intros Ha Hb H0. pose proof (Z.rem_bound_abs a b H0). lia. Qed.

Lemma divmod_range t w o a b v :
  w = 32 ∨ w = 64 → in_s w a → in_s w b → ir_divmod t w o a b = Some v → in_s w v.
Proof.
  intros Hw Ha Hb. unfold ir_divmod.
  assert (∀ u, in_s 64 (i64 u)) as R by (intros u; by apply (wraps_range 64)).
  assert (in_s 64 (- 2 ^ 63) ∧ in_s 64 (2 ^ 63 - 1) ∧ in_s 64 0 ∧ in_s 64 1 ∧ in_s 64 (-1))
    as (? & ? & ? & ? & ?) by (unfold in_s; simpl; lia).
  destruct Hw as [->| ->]; cbn [Z.eqb Pos.eqb]; destruct o; try done;
    [intros [= <-]; by apply mod_range|destruct (irt_isi64 t)..]; intros [= <-]; try apply R.
  - unfold lj_carith_divi64. case_test; bprop; [done|]. apply quot_range; [done..|]. naive_solver.
  - unfold lj_carith_modi64. repeat case_test; bprop; solve [done|by apply rem_range].
  - unfold lj_carith_powi64. repeat case_test; try done; apply R.
Qed.

#[export] Instance shape_eq_dec : EqDecision shape.
Proof. solve_decision. Defined.

(** A value is in the range of its type. *)
Lemma val_range J w x ρ v :
  (∀ r w, r = op1 x ∨ r = op2 x → opnd J w r → in_s w (ρ r)) →
  (∀ r, r = op1 x ∨ r = op2 x → kzero J r → ρ r = 0) →
  tyw (it x) = Some w → ins_ok J x → ins_sem ρ x = SVal v → in_s w v.
Proof.
  intros HR HK Ht Hok. assert (w = 32 ∨ w = 64) as Hw by by eapply tyw_cases. assert (0 < w) by lia.
  pose proof (HR (op1 x)) as R1. pose proof (HR (op2 x)) as R2.
  unfold ins_sem, ins_ok in *. rewrite Ht in *.
  destruct (io x) eqn:Eo; try done; cbn [op_shape] in Hok;
    try match goal with
    | |- context [ir_divmod (it x) w ?o ?a ?b] =>
        first [change (ir_divmod (it x) w o a b) with (@None Z)|destruct (ir_divmod (it x) w o a b) eqn:Ed]
    end; cbn [ir_arith ir_ov ir_cond].
  all: try (case_bool_decide; intros [= <-]; done).
  all: try (intros [= <-]; by (apply wraps_range || apply rotl_range)).
  all: try (case_test; done).
  all: try discriminate.
  all: try (destruct Hok as [O1%R1 O2%R2]; [|by auto..]; intros [= <-];
            first [exact (divmod_range _ _ _ _ _ _ Hw O1 O2 Ed)|by apply in_s_land|by apply in_s_lor|by apply in_s_lxor
              |unfold in_s in *; lia]).
  all: try (destruct Hok as [O1%R1 _]; [|by auto..]; intros [= <-];
            first [by apply in_s_lnot
                  |apply in_s_shiftr; [done|apply Z.land_nonneg; lia|done]]).
  destruct (conv_sem (op2 x) (ρ (op1 x))) eqn:Ec; [|done]. intros [= <-].
  destruct (proj2 Hok) as (_ & -> & Hz); [by rewrite (conv_int_spec _ (ρ (op1 x))), Ec|].
  eapply conv_range; [done|]. destruct Hz as [O1%R1|O1%HK]; [done|by left|..|by left].
  rewrite O1. apply in_s_zero. unfold conv_srcw. case_test; lia.
Qed.

(** A guard of the trace has a side effect. *)
Lemma land_bit7 a m : 0 ≤ m → Z.testbit a 7 = true → Z.testbit m 7 = true → 128 ≤ Z.land a m.
Proof.
  intros Hm Ha Hb. destruct (Z.leb_spec 128 (Z.land a m)) as [|Hlt]; [done|exfalso].
  assert (0 ≤ Z.land a m) by (apply Z.land_nonneg; lia).
  assert (Z.testbit (Z.land a m) 7 = true) as E by by rewrite Z.land_spec, Ha, Hb.
  destruct (decide (Z.land a m = 0)) as [E0|]; [by rewrite E0 in E|].
  rewrite Z.bits_above_log2 in E; [done|lia|]. apply Z.log2_lt_pow2; [lia|done].
Qed.

(** Conditions are guards; overflow checks are weak guards, which may be dropped
    when nothing uses the value. *)
Definition is_ov (o : IROp) : bool := if ir_ov o 0 0 is Some _ then true else false.

Lemma guard_sideeff x :
  is_guard (io x) = true → irt_isguard (it x) = true → ir_sideeff x = true.
Proof.
  unfold ir_sideeff, irt_isguard. intros Hc Hg. apply Z.leb_le.
  assert (Z.testbit (it x) 7 = true) as Hb.
  { destruct (Z.testbit (it x) 7) eqn:E; [done|]. exfalso. apply negb_true_iff, Z.eqb_neq in Hg. apply Hg.
    apply Z.bits_inj'. intros n Hn. change IRT_GUARD with (2 ^ 7).
    rewrite Z.land_spec, Z.pow2_bits_eqb, Z.bits_0 by lia. destruct (7 =? n) eqn:En; bprop.
    - subst n. by rewrite E.
    - apply andb_false_r. }
  etrans; [|apply land_bit7]; [done|by destruct (io x)|by rewrite Z.lor_spec, Hb|by destruct (io x)].
Qed.

Lemma sem_fail ρ x : ins_sem ρ x = SFail → is_guard (io x) = true ∨ is_ov (io x) = true.
Proof.
  unfold ins_sem. destruct (tyw (it x)); [|done].
  destruct (io x); try (by auto); cbn [ir_arith ir_ov ir_cond ir_divmod]; repeat case_match; done.
Qed.

(** ** The two traces *)

(** [ρ] runs past the guards of [J], dead overflow checks apart. *)
Record runs_live (refs0 : list Z) (ρ : Z → Z) (J : jit_State) : Prop := {
  rl_rng r w : refs J r → tyw (it (IR J r)) = Some w → in_s w (ρ r);
  rl_kint r : nk J ≤ r < REF_BIAS → io (IR J r) = IR_KINT → ρ r = ii (IR J r);
  rl_kint64 r u : nk J ≤ r < REF_BIAS → io (IR J r) = IR_KINT64 →
    k64_at (k64 J) (ii (IR J r)) u → ρ r = i64 u;
  rl_ins r : REF_BIAS ≤ r < nins J →
    holds ρ (IR J r) (ρ r) ∨ ¬ live refs0 J r ∧ is_ov (io (IR J r)) = true }.

Lemma models_live refs0 ρ J : models ρ J → runs_live refs0 ρ J.
Proof. intros []. split; auto. Qed.

Section Back.
Context (snap : list SnapShot) (snapmap : list Z) (J : jit_State) (ρ : Z → Z).
Notation refs0 := (snap_refs snap snapmap).
Notation J' := (lj_opt_dce snap snapmap J).
Context (O : dce_ok refs0 J) (T : ir_typed J) (Hf : Z.land (flags J) JIT_F_OPT_DCE ≠ 0).
Context (G : ∀ r, REF_FIRST ≤ r < nins J → is_guard (io (IR J r)) = true → irt_isguard (it (IR J r)) = true).
Context (M : models ρ J').

(** What the first [n] instructions have. *)
Record upto (n : Z) (ρ' : Z → Z) : Prop := {
  ut_live r : live refs0 J r ∨ r < REF_FIRST → ρ' r = ρ r;
  ut_rng r w : nk J ≤ r < n → tyw (it (IR J r)) = Some w → in_s w (ρ' r);
  ut_ins r : REF_BIAS ≤ r < n → holds ρ' (IR J r) (ρ' r) ∨ ¬ live refs0 J r ∧ is_ov (io (IR J r)) = true }.

Lemma upto_start : upto REF_FIRST ρ.
Proof.
  destruct (dce_cells snap snapmap J O Hf) as (Ek & En & _ & Hold & _).
  pose proof (bo_nins _ (do_buf _ _ O)). pose proof (nk_first _ _ O).
  split; [done| |].
  - intros r w Hr Hw. apply (mo_rng _ _ M); [unfold refs; lia|]. by rewrite Hold.
  - intros r Hr. left. rewrite <-Hold by reflia.
    apply (mo_ins _ _ M). reflia.
Qed.

Lemma upto_keep r ρ' : REF_FIRST ≤ r < nins J → live refs0 J r → upto r ρ' → upto (r + 1) ρ'.
Proof.
  intros Hr L U. destruct (dce_cells snap snapmap J O Hf) as (Ek & En & _ & Hold & Hnew).
  pose proof (nk_first _ _ O).
  destruct (Hnew r Hr) as [[_ [p Ep]]|[? _]]; [|done].
  split; [apply U| |].
  - intros r' w Hr' Hw. destruct (decide (r' = r)) as [->|]; [|apply U; [lia|done]].
    rewrite (ut_live _ _ U) by auto. apply (mo_rng _ _ M); [unfold refs; lia|]. by rewrite Ep.
  - intros r' Hr'. destruct (decide (r' = r)) as [->|]; [|apply U; lia]. left.
    pose proof (mo_ins _ _ M r ltac:(reflia)) as H1.
    unfold holds in *. rewrite Ep, set_prev_sem in H1. rewrite (ut_live _ _ U r) by auto.
    rewrite (sem_ops ρ); [done|apply U..].
    + destruct (decide (REF_FIRST ≤ op1 (IR J r))); [left; by eapply live_op; eauto|right; lia].
    + destruct (decide (REF_FIRST ≤ op2 (IR J r))); [left; by eapply live_op; eauto|right; lia].
Qed.

(** The value a dead instruction would have had. *)
Definition dead_val (ρ' : Z → Z) (x : IRIns) : Z := if ins_sem ρ' x is SVal v then v else 0.

Lemma upto_drop r ρ' :
  REF_FIRST ≤ r < nins J → ¬ live refs0 J r → upto r ρ' → upto (r + 1) (upd ρ' r (dead_val ρ' (IR J r))).
Proof.
  intros Hr L U. destruct (dce_cells snap snapmap J O Hf) as (Ek & En & _ & Hold & Hnew).
  pose proof (nk_first _ _ O). destruct (do_ssa _ _ O r Hr) as [S1 S2].
  assert (∀ r', r' ≠ r → upd ρ' r (dead_val ρ' (IR J r)) r' = ρ' r') as Hne.
  { intros r' ?. unfold upd. by rewrite (proj2 (Z.eqb_neq _ _)). }
  assert (upd ρ' r (dead_val ρ' (IR J r)) r = dead_val ρ' (IR J r)) as He by (unfold upd; by rewrite Z.eqb_refl).
  split.
  - intros r' Hr'. rewrite Hne; [by apply U|]. intros ->. destruct Hr'; [done|lia].
  - intros r' w Hr' Hw. destruct (decide (r' = r)) as [->|]; [|rewrite Hne by done; apply U; [lia|done]].
    rewrite He. unfold dead_val. destruct (ins_sem ρ' (IR J r)) eqn:Es;
      [|apply in_s_zero; destruct (tyw_cases _ _ Hw); lia..].
    eapply (val_range J w _ ρ'); [| |done|apply T; reflia|done].
    + intros a w' Ha [Ra Hwa]. apply U; [unfold refs in Ra; destruct Ha; subst; lia|done].
    + intros a Ha (Hk & Ho & Hi). rewrite (ut_live _ _ U) by (right; reflia).
      rewrite <-Hold in Ho, Hi by reflia.
      by rewrite (mo_kint _ _ M a ltac:(lia) Ho).
  - intros r' Hr'. destruct (decide (op_shape (io (IR J r')) = ShOther)) as [Hs|Hs].
    { left. unfold holds. by rewrite sem_other. }
    destruct (ty_ssa _ T r' ltac:(reflia) Hs) as [S1' S2'].
    unfold holds. rewrite (sem_ops ρ') by (apply Hne; lia).
    destruct (decide (r' = r)) as [->|]; [|rewrite Hne by done; apply U; lia].
    rewrite He. unfold dead_val. destruct (ins_sem ρ' (IR J r)) eqn:Es; [by left..| |by left].
    right. split; [done|]. destruct (sem_fail _ _ Es) as [Hg|]; [|done].
    destruct L. apply live_eff; [done|]. apply guard_sideeff; [done|]. by apply G.
Qed.

Lemma upto_all n :
  REF_FIRST + Z.of_nat n ≤ nins J → ∃ ρ', upto (REF_FIRST + Z.of_nat n) ρ'.
Proof.
  induction n as [|n IH]; intros Hn; [exists ρ; rewrite Z.add_0_r; apply upto_start|].
  destruct IH as [ρ' U]; [lia|]. replace (REF_FIRST + Z.of_nat (S n)) with (REF_FIRST + Z.of_nat n + 1) by lia.
  destruct (dce_cells snap snapmap J O Hf) as (_ & _ & _ & _ & Hnew).
  destruct (Hnew (REF_FIRST + Z.of_nat n)) as [[L _]|[L _]]; [lia| |].
  - exists ρ'. apply upto_keep; [lia|done|done].
  - eexists. apply upto_drop; [lia|done|done].
Qed.

End Back.

(** ** A trace for the witnesses *)

Definition dce_check (refs0 : list Z) (J : jit_State) : bool :=
  (irtoplim J - irbotlim J =? Z.of_nat (length (irbuf J))) && (irbotlim J <=? nk J) &&
  (nk J <=? REF_TRUE) && (REF_FIRST <=? nins J) && (nins J <=? irtoplim J) &&
  forallb (λ r, r <? nins J) refs0 &&
  forallb (λ i, let r := REF_FIRST + Z.of_nat i in let x := IR J r in
    (op1 x <? r) && (op2 x <? r) && negb (irt_ismarked (it x)) &&
    (negb (is_guard (io x)) || irt_isguard (it x))) (seq 0 (Z.to_nat (nins J - REF_FIRST))).

Lemma dce_check_ok refs0 J :
  dce_check refs0 J = true →
  dce_ok refs0 J ∧
  ∀ r, REF_FIRST ≤ r < nins J → is_guard (io (IR J r)) = true → irt_isguard (it (IR J r)) = true.
Proof.
  unfold dce_check. rewrite !andb_true_iff, !forallb_forall, !Z.leb_le, Z.eqb_eq.
  intros ((((((? & ?) & ?) & ?) & ?) & Hs) & Hr).
  assert (∀ r, REF_FIRST ≤ r < nins J → op1 (IR J r) < r ∧ op2 (IR J r) < r ∧
    irt_ismarked (it (IR J r)) = false ∧
    (is_guard (io (IR J r)) = true → irt_isguard (it (IR J r)) = true)) as H'.
  { intros r R. specialize (Hr (Z.to_nat (r - REF_FIRST)) ltac:(apply in_seq; lia)).
    rewrite Z2Nat.id in Hr by lia. replace (REF_FIRST + (r - REF_FIRST)) with r in Hr by lia.
    cbv zeta in Hr. rewrite !andb_true_iff, !Z.ltb_lt, negb_true_iff, orb_true_iff, negb_true_iff in Hr.
    destruct Hr as (((? & ?) & ?) & [?|?]); split_and!; congruence || done. }
  split; [split|]; try (intros r R; split_and?; by apply H').
  - by split.
  - intros r R. apply Z.ltb_lt, Hs. by apply list_elem_of_In.
Qed.

(** The load of [i], [i + 5], and the loads of two more slots, the last with a type check.
    The snapshot has the sum. *)
Definition J_sum : jit_State := out_state (lj_opt_fold 5 J_add).
Definition sload (t slot : Z) : IRIns := MkIns IR_SLOAD t slot 0 0 0 0.
Definition J_two : jit_State := (lj_ir_emit (set_fins (sload IRT_INT 2) J_sum)).1.
Definition J_loads : jit_State :=
  (lj_ir_emit (set_fins (sload (Z.lor IRT_INT IRT_GUARD) 3) J_two)).1.
Definition snap_sum : list SnapShot := [MkSnap 0 1].
Definition map_sum : list Z := [Z.lor (Z.shiftl 1 24) (REF_FIRST + 1)].

Lemma sload_typed J t slot : ir_typed J → ir_typed (lj_ir_emit (set_fins (sload t slot) J)).1.
Proof.
  intros T. destruct (lj_ir_emit _) as [J' r] eqn:E.
  by apply (emit_other (set_fins (sload t slot) J) J' r); [apply typed_set_fins|..].
Qed.

Lemma J_loads_typed : ir_typed J_loads.
Proof.
  do 2 apply sload_typed. unfold J_sum.
  destruct (done_at (lj_opt_fold 5 J_add) (REF_FIRST + 1)) as (J' & E & Hl); [by vm_compute|]. rewrite E.
  apply (step_typed J_five); [apply J_five_typed|].
  apply (step_fold J_five 32 add_five 5 J' (REF_FIRST + 1)); [|done|done].
  apply mk_fdom; [done|done| |set_solver|done]. split; [left|]; by apply opnd_check.
Qed.

Lemma J_loads_ok : dce_check (snap_refs snap_sum map_sum) J_loads = true.
Proof. by vm_compute. Qed.

(** The run that loads 7, 1 and 2. *)
Definition run_loads (r : Z) : Z :=
  if r =? REF_FIRST + 1 then 12 else if r =? REF_FIRST + 2 then 1
  else if r =? REF_FIRST + 3 then 2 else run_seven r.


(** C30: dead code elimination keeps every live instruction (one that a snapshot
    refers to, that has a side effect, or that is an operand of a live one) as it
    was but for its chain link, turns every other instruction into a NOP, leaves
    the constants alone and leaves no mark behind. *)
Theorem lj_opt_dce_live snap snapmap J r :
  let refs0 := snap_refs snap snapmap in
  let J' := lj_opt_dce snap snapmap J in
  dce_ok refs0 J → Z.land (flags J) JIT_F_OPT_DCE ≠ 0 → nk J ≤ r < nins J →
  nk J' = nk J ∧ nins J' = nins J ∧
  (r < REF_FIRST → IR J' r = IR J r) ∧
  (REF_FIRST ≤ r →
     (live refs0 J r ∧ (∃ p, IR J' r = set_prev p (IR J r)) ∨
      ¬ live refs0 J r ∧ IR J' r = ir_tonop (IR J r)) ∧
     irt_ismarked (it (IR J' r)) = false).
Proof.
  intros refs0 J' O Hf Hr. destruct (dce_cells snap snapmap J O Hf) as (Ek & En & _ & Hold & Hnew).
  split_and!; [done|done|intros; apply Hold; lia|]. intros Hf0.
  destruct (Hnew r ltac:(lia)) as [[L [p Ep]]|[L Ep]]; unfold J'; (split; [naive_solver|]); rewrite Ep; [|done].
  apply (do_mark _ _ O). lia.
Qed.

Lemma lj_opt_dce_live_witness :
  let J' := lj_opt_dce snap_sum map_sum J_loads in
  io (IR J' (REF_FIRST + 2)) = IR_NOP ∧ irt_ismarked (it (IR J' (REF_FIRST + 1))) = false.
Proof.
  split; [by vm_compute|].
  apply (lj_opt_dce_live snap_sum map_sum J_loads (REF_FIRST + 1)); [apply dce_check_ok, J_loads_ok|..];
    by vm_compute.
Defined.



(** C31: what runs past the guards of the trace after dead code elimination runs past
    those of the original trace, with the same values for every constant and every
    live instruction, so with the same values for every snapshot; only overflow
    checks of values nothing needs may have been dropped. *)
Theorem lj_opt_dce_back snap snapmap J ρ :
  let refs0 := snap_refs snap snapmap in
  dce_ok refs0 J → ir_typed J →
  (∀ r, REF_FIRST ≤ r < nins J → is_guard (io (IR J r)) = true → irt_isguard (it (IR J r)) = true) →
  models ρ (lj_opt_dce snap snapmap J) →
  ∃ ρ', runs_live refs0 ρ' J ∧ ∀ r, live refs0 J r ∨ r < REF_FIRST → ρ' r = ρ r.
Proof.
  intros refs0 O T G M. destruct (decide (Z.land (flags J) JIT_F_OPT_DCE = 0)) as [Hf|Hf].
  { unfold lj_opt_dce in M. rewrite Hf in M. exists ρ. split; [by apply models_live|done]. }
  pose proof (bo_nins _ (do_buf _ _ O)).
  destruct (upto_all snap snapmap J ρ O T Hf G M (Z.to_nat (nins J - REF_FIRST))) as [ρ' U]; [lia|].
  replace (REF_FIRST + Z.of_nat (Z.to_nat (nins J - REF_FIRST))) with (nins J) in U by lia.
  destruct (dce_cells snap snapmap J O Hf) as (Ek & En & Ek64 & Hold & _).
  exists ρ'. split; [|apply U]. split.
  - apply U.
  - intros r Hr Ho. rewrite (ut_live _ _ _ _ _ _ U) by (right; reflia).
    rewrite <-Hold in Ho |- * by reflia. apply M; [lia|done].
  - intros r u Hr Ho Hu. rewrite (ut_live _ _ _ _ _ _ U) by (right; reflia).
    rewrite <-Hold in Ho, Hu by reflia. rewrite <-Ek64 in Hu.
    eapply M; [|done..]. lia.
  - apply U.
Qed.

Lemma lj_opt_dce_back_witness :
  ∃ ρ', runs_live (snap_refs snap_sum map_sum) ρ' J_loads ∧ ρ' (REF_FIRST + 1) = 12.
Proof.
  destruct (lj_opt_dce_back snap_sum map_sum J_loads run_loads) as (ρ' & R & H).
  - apply dce_check_ok, J_loads_ok.
  - apply J_loads_typed.
  - apply (dce_check_ok (snap_refs snap_sum map_sum)), J_loads_ok.
  - apply models_check_ok. by vm_compute.
  - exists ρ'. split; [exact R|]. rewrite H; [done|]. left. apply live_snap; [|done].
    by apply list_elem_of_In; left.
Defined.

(** Rerouting the chain of an opcode may drop an instruction that is kept: the link is
    stored to the last marked instruction or the head of the chain, although an instruction
    with a side effect that is not marked stays in between.  Here the load with a type
    check is kept and is no longer in the chain of its opcode. *)
Theorem dce_chain_drops_kept :
  let J' := lj_opt_dce snap_sum map_sum J_loads in
  io (IR J' (REF_FIRST + 3)) = IR_SLOAD ∧ chain J_loads IR_SLOAD = REF_FIRST + 3 ∧
  chain J' IR_SLOAD = REF_FIRST ∧ prev (IR J' REF_FIRST) = 0.
Proof. by vm_compute. Qed.

End DceTheorems.
