(* ===== verification/GcObj.v ===== *)
(** * Objects of the garbage collector

    - lj_obj.h, lj_gc.h, uj_obj_marks.h, lj_frame.h and jit/lj_jit.h: the collectable objects
      with their marks, the collector's state and the parts of the global state that it uses.

    The heap maps addresses to objects; 0 is [NULL].  The lists that are threaded through the
    objects are lists of addresses: [nextgc] makes [root] (all objects but strings and open
    upvalues; the userdata come after the main thread), the chains of the string tables, the open
    upvalues of a thread and [mmudata]; [gclist] makes [gray], [grayagain] and [weak].  An object has
    one [gclist] link; that it is on one of these lists at most is part of the invariant.  The ring
    [mmudata] is the list from [gcnext(mmudata)] to [mmudata].

    A stack slot is a tagged value, a frame (function and link) or the continuation below a frame.
    The link of a frame of a Lua function is the return address; what is used of it is the
    instruction before it.  Struct sizes are those of x86-64. *)

From stdpp Require Import base decidable list numbers option sets gmap.
From Stdlib Require Import ZArith Lia.
From S2P Require Import Prelude Obj Tab Ir.

Local Open Scope Z_scope.

Module GcObj.
Import Obj.

(** ** Marks *)

Definition LJ_GC_WHITE0 : Z := 0x01.
Definition LJ_GC_WHITE1 : Z := 0x02.
Definition LJ_GC_BLACK : Z := 0x04.
Definition LJ_GC_FINALIZED : Z := 0x08.
Definition LJ_GC_WEAKKEY : Z := 0x08.
Definition LJ_GC_WEAKVAL : Z := 0x10.
Definition LJ_GC_CDATA_FIN : Z := 0x10.
Definition LJ_GC_FIXED : Z := 0x20.
Definition UJ_GCO_TMPMARK : Z := 0x20.
Definition UJ_GCO_SEALED : Z := 0x80.
Definition LJ_GC_WHITES : Z := Z.lor LJ_GC_WHITE0 LJ_GC_WHITE1.
Definition LJ_GC_COLORS : Z := Z.lor LJ_GC_WHITES LJ_GC_BLACK.
Definition LJ_GC_WEAK : Z := Z.lor LJ_GC_WEAKKEY LJ_GC_WEAKVAL.

(** [m & b] as a condition, [m & (uint8_t)~b]. *)
Definition has (m b : Z) : bool := negb (Z.land m b =? 0).
Definition clr (m b : Z) : Z := Z.land m (u8 (Z.lnot b)).

(** ** Objects *)

Inductive ftp := PCR (ins : Z) | FTSZ (ftsz : Z).
Inductive slot := SV (tv : TValue) | SF (func : Z) (tp : ftp) | SC (cont : Z).

Inductive uvloc := UvOpen (th : Z) (i : nat) | UvClosed (tv : TValue).

Record lua_State := MkTh {
  stack : list slot; base : Z; top : Z; maxstack : Z;   (* pointers as indices *)
  openupval : list Z; th_env : Z }.

Record GCproto := MkPt { chunkname : Z; kgc : list Z; pt_trace : Z; framesize : Z; sizept : Z }.

Inductive GCfunc :=
  | FnL (fn_env fn_pt : Z) (uvptr : list Z)
  | FnC (fn_env : Z) (upvalue : list TValue).

(** [kcells] are the cells from [nk] up to [REF_TRUE]. *)
Record GCtrace := MkTrace {
  traceno : Z; kcells : list Ir.IRIns; link : Z; nextroot : Z; nextside : Z; startpt : Z;
  t_nins : Z; nsnap : Z; nsnapmap : Z }.

Record GCudata := MkUd { ud_metatable : option Z; ud_env : Z; ud_len : Z }.

(** A cdata object has the number of octets that freeing it releases. *)
Inductive GCobj :=
  | OStr (m : Z) (data : list Z)
  | OUpval (m : Z) (uv : uvloc)
  | OThread (m : Z) (L : lua_State)
  | OProto (m : Z) (pt : GCproto)
  | OFunc (m : Z) (fn : GCfunc)
  | OTrace (m : Z) (T : GCtrace)
  | OCdata (m : Z) (size : Z)
  | OTab (t : Tab.GCtab)
  | OUdata (m : Z) (ud : GCudata).

Definition marked (o : GCobj) : Z :=
  match o with
  | OStr m _ | OUpval m _ | OThread m _ | OProto m _ | OFunc m _ | OTrace m _ | OCdata m _ | OUdata m _ => m
  | OTab t => Tab.marked t
  end.
Definition set_marked (m : Z) (o : GCobj) : GCobj :=
  match o with
  | OStr _ x => OStr m x
  | OUpval _ x => OUpval m x
  | OThread _ x => OThread m x
  | OProto _ x => OProto m x
  | OFunc _ x => OFunc m x
  | OTrace _ x => OTrace m x
  | OCdata _ x => OCdata m x
  | OTab t => OTab (Tab.set_marked m t)
  | OUdata _ x => OUdata m x
  end.

Definition gct (o : GCobj) : gctype :=
  match o with
  | OStr _ _ => GT_STR | OUpval _ _ => GT_UPVAL | OThread _ _ => GT_THREAD | OProto _ _ => GT_PROTO
  | OFunc _ _ => GT_FUNC | OTrace _ _ => GT_TRACE | OCdata _ _ => GT_CDATA | OTab _ => GT_TAB
  | OUdata _ _ => GT_UDATA
  end.

Definition iswhite (o : GCobj) : bool := has (marked o) LJ_GC_WHITES.
Definition isblack (o : GCobj) : bool := has (marked o) LJ_GC_BLACK.
Definition isgray (o : GCobj) : bool := negb (has (marked o) (Z.lor LJ_GC_BLACK LJ_GC_WHITES)).
Definition isfinalized (o : GCobj) : bool := has (marked o) LJ_GC_FINALIZED.

Definition white2gray (o : GCobj) : GCobj := set_marked (clr (marked o) LJ_GC_WHITES) o.
Definition gray2black (o : GCobj) : GCobj := set_marked (Z.lor (marked o) LJ_GC_BLACK) o.
Definition black2gray (o : GCobj) : GCobj := set_marked (clr (marked o) LJ_GC_BLACK) o.
Definition flipwhite (o : GCobj) : GCobj := set_marked (Z.lxor (marked o) LJ_GC_WHITES) o.
Definition markfinalized (o : GCobj) : GCobj := set_marked (Z.lor (marked o) LJ_GC_FINALIZED) o.

(** The mark of variable-sized cdata is the same bit. *)
Definition uj_obj_is_sealed (o : GCobj) : bool :=
  match o with OCdata _ _ => false | _ => has (marked o) UJ_GCO_SEALED end.

(** ** Sizes *)

Definition sizeof_TValue : Z := 16.
Definition sizeof_lua_State : Z := 136.
Definition sizeof_GCupval : Z := 40.

Definition uj_str_sizeof (data : list Z) : Z := 24 + Z.of_nat (length data) + 1.
Definition lj_tab_sizeof (t : Tab.GCtab) : Z :=
  72 + sizeof_TValue * Tab.asize t + (if Tab.hmask t =? 0 then 0 else 40 * (Tab.hmask t + 1)).
Definition uj_func_sizeof (fn : GCfunc) : Z :=
  match fn with
  | FnL _ _ uvptr => 40 + 8 * Z.of_nat (length uvptr)
  | FnC _ upvalue => 48 + sizeof_TValue * Z.of_nat (length upvalue)
  end.
Definition uj_proto_sizeof (pt : GCproto) : Z := sizept pt.
Definition uj_udata_sizeof (ud : GCudata) : Z := 32 + ud_len ud.
Definition lj_trace_sizeof (T : GCtrace) : Z :=
  136 + (t_nins T - (Ir.REF_TRUE - Z.of_nat (length (kcells T)))) * 16 + nsnap T * 12 + nsnapmap T * 4.

(** ** State *)

Inductive gcphase := GCSpause | GCSpropagate | GCSatomic | GCSsweepstring | GCSsweep | GCSfinalize.

#[export] Instance gcphase_eq_dec : EqDecision gcphase.
Proof. solve_decision. Defined.

Definition phase_num (s : gcphase) : nat :=
  match s with
  | GCSpause => 0 | GCSpropagate => 1 | GCSatomic => 2 | GCSsweepstring => 3 | GCSsweep => 4 | GCSfinalize => 5
  end.

(** [gc.sweep]: the link at the anchor, the link of an object, or [&g->nullobj]. *)
Inductive swpos := SwRoot | SwNext (a : Z) | SwNull.

Record strtab := MkST { hash : list (list Z); mask : Z; count : Z }.

Record gstate := MkG {
  heap : gmap Z GCobj;
  sealed : Z;
  threshold : Z;
  currentwhite : Z;
  state : gcphase;
  nocdatafin : Z;
  state_count : list Z;
  sweepstr : Z;
  root : list Z;
  sweep : swpos;
  gray : list Z;
  grayagain : list Z;
  weak : list Z;
  mmudata : list Z;
  stepmul : Z;
  debt : Z;
  estimate : Z;
  pause : Z;
  tabnum : Z;
  udatanum : Z;
  total : Z; (* uj_mem_total *)
  strhash : strtab;
  strhash_sealed : strtab;
  sweep_sealed : bool; (* strhash_sweep is the sealed table *)
  strempty_own : Z;
  mainthref : Z;
  registrytv : TValue;
  gcroot : list Z;
  uvhead : list Z; (* open upvalues, from uvhead.next on *)
  jit_L : Z;
  datastate : Z;
  finalizer : Z; (* of the C type state, 0 without it *)
  trace : list Z; (* J->trace *)
  freetrace : Z;
  cur : GCtrace (* J->cur *) }.

Definition set_heap (v : gmap Z GCobj) (g : gstate) : gstate :=
  MkG
    v (sealed g) (threshold g) (currentwhite g) (state g) (nocdatafin g) (state_count g)
    (sweepstr g) (root g) (sweep g) (gray g) (grayagain g) (weak g) (mmudata g) (stepmul g)
    (debt g) (estimate g) (pause g) (tabnum g) (udatanum g) (total g) (strhash g)
    (strhash_sealed g) (sweep_sealed g) (strempty_own g) (mainthref g) (registrytv g) (gcroot g)
    (uvhead g) (jit_L g) (datastate g) (finalizer g) (trace g) (freetrace g) (cur g).
Definition set_sealed (v : Z) (g : gstate) : gstate :=
  MkG
    (heap g) v (threshold g) (currentwhite g) (state g) (nocdatafin g) (state_count g)
    (sweepstr g) (root g) (sweep g) (gray g) (grayagain g) (weak g) (mmudata g) (stepmul g)
    (debt g) (estimate g) (pause g) (tabnum g) (udatanum g) (total g) (strhash g)
    (strhash_sealed g) (sweep_sealed g) (strempty_own g) (mainthref g) (registrytv g) (gcroot g)
    (uvhead g) (jit_L g) (datastate g) (finalizer g) (trace g) (freetrace g) (cur g).
Definition set_threshold (v : Z) (g : gstate) : gstate :=
  MkG
    (heap g) (sealed g) v (currentwhite g) (state g) (nocdatafin g) (state_count g) (sweepstr g)
    (root g) (sweep g) (gray g) (grayagain g) (weak g) (mmudata g) (stepmul g) (debt g)
    (estimate g) (pause g) (tabnum g) (udatanum g) (total g) (strhash g) (strhash_sealed g)
    (sweep_sealed g) (strempty_own g) (mainthref g) (registrytv g) (gcroot g) (uvhead g)
    (jit_L g) (datastate g) (finalizer g) (trace g) (freetrace g) (cur g).
Definition set_currentwhite (v : Z) (g : gstate) : gstate :=
  MkG
    (heap g) (sealed g) (threshold g) v (state g) (nocdatafin g) (state_count g) (sweepstr g)
    (root g) (sweep g) (gray g) (grayagain g) (weak g) (mmudata g) (stepmul g) (debt g)
    (estimate g) (pause g) (tabnum g) (udatanum g) (total g) (strhash g) (strhash_sealed g)
    (sweep_sealed g) (strempty_own g) (mainthref g) (registrytv g) (gcroot g) (uvhead g)
    (jit_L g) (datastate g) (finalizer g) (trace g) (freetrace g) (cur g).
Definition set_state (v : gcphase) (g : gstate) : gstate :=
  MkG
    (heap g) (sealed g) (threshold g) (currentwhite g) v (nocdatafin g) (state_count g)
    (sweepstr g) (root g) (sweep g) (gray g) (grayagain g) (weak g) (mmudata g) (stepmul g)
    (debt g) (estimate g) (pause g) (tabnum g) (udatanum g) (total g) (strhash g)
    (strhash_sealed g) (sweep_sealed g) (strempty_own g) (mainthref g) (registrytv g) (gcroot g)
    (uvhead g) (jit_L g) (datastate g) (finalizer g) (trace g) (freetrace g) (cur g).
Definition set_nocdatafin (v : Z) (g : gstate) : gstate :=
  MkG
    (heap g) (sealed g) (threshold g) (currentwhite g) (state g) v (state_count g) (sweepstr g)
    (root g) (sweep g) (gray g) (grayagain g) (weak g) (mmudata g) (stepmul g) (debt g)
    (estimate g) (pause g) (tabnum g) (udatanum g) (total g) (strhash g) (strhash_sealed g)
    (sweep_sealed g) (strempty_own g) (mainthref g) (registrytv g) (gcroot g) (uvhead g)
    (jit_L g) (datastate g) (finalizer g) (trace g) (freetrace g) (cur g).
Definition set_state_count (v : list Z) (g : gstate) : gstate :=
  MkG
    (heap g) (sealed g) (threshold g) (currentwhite g) (state g) (nocdatafin g) v (sweepstr g)
    (root g) (sweep g) (gray g) (grayagain g) (weak g) (mmudata g) (stepmul g) (debt g)
    (estimate g) (pause g) (tabnum g) (udatanum g) (total g) (strhash g) (strhash_sealed g)
    (sweep_sealed g) (strempty_own g) (mainthref g) (registrytv g) (gcroot g) (uvhead g)
    (jit_L g) (datastate g) (finalizer g) (trace g) (freetrace g) (cur g).
Definition set_sweepstr (v : Z) (g : gstate) : gstate :=
  MkG
    (heap g) (sealed g) (threshold g) (currentwhite g) (state g) (nocdatafin g) (state_count g)
    v (root g) (sweep g) (gray g) (grayagain g) (weak g) (mmudata g) (stepmul g) (debt g)
    (estimate g) (pause g) (tabnum g) (udatanum g) (total g) (strhash g) (strhash_sealed g)
    (sweep_sealed g) (strempty_own g) (mainthref g) (registrytv g) (gcroot g) (uvhead g)
    (jit_L g) (datastate g) (finalizer g) (trace g) (freetrace g) (cur g).
Definition set_root (v : list Z) (g : gstate) : gstate :=
  MkG
    (heap g) (sealed g) (threshold g) (currentwhite g) (state g) (nocdatafin g) (state_count g)
    (sweepstr g) v (sweep g) (gray g) (grayagain g) (weak g) (mmudata g) (stepmul g) (debt g)
    (estimate g) (pause g) (tabnum g) (udatanum g) (total g) (strhash g) (strhash_sealed g)
    (sweep_sealed g) (strempty_own g) (mainthref g) (registrytv g) (gcroot g) (uvhead g)
    (jit_L g) (datastate g) (finalizer g) (trace g) (freetrace g) (cur g).
Definition set_sweep (v : swpos) (g : gstate) : gstate :=
  MkG
    (heap g) (sealed g) (threshold g) (currentwhite g) (state g) (nocdatafin g) (state_count g)
    (sweepstr g) (root g) v (gray g) (grayagain g) (weak g) (mmudata g) (stepmul g) (debt g)
    (estimate g) (pause g) (tabnum g) (udatanum g) (total g) (strhash g) (strhash_sealed g)
    (sweep_sealed g) (strempty_own g) (mainthref g) (registrytv g) (gcroot g) (uvhead g)
    (jit_L g) (datastate g) (finalizer g) (trace g) (freetrace g) (cur g).
Definition set_gray (v : list Z) (g : gstate) : gstate :=
  MkG
    (heap g) (sealed g) (threshold g) (currentwhite g) (state g) (nocdatafin g) (state_count g)
    (sweepstr g) (root g) (sweep g) v (grayagain g) (weak g) (mmudata g) (stepmul g) (debt g)
    (estimate g) (pause g) (tabnum g) (udatanum g) (total g) (strhash g) (strhash_sealed g)
    (sweep_sealed g) (strempty_own g) (mainthref g) (registrytv g) (gcroot g) (uvhead g)
    (jit_L g) (datastate g) (finalizer g) (trace g) (freetrace g) (cur g).
Definition set_grayagain (v : list Z) (g : gstate) : gstate :=
  MkG
    (heap g) (sealed g) (threshold g) (currentwhite g) (state g) (nocdatafin g) (state_count g)
    (sweepstr g) (root g) (sweep g) (gray g) v (weak g) (mmudata g) (stepmul g) (debt g)
    (estimate g) (pause g) (tabnum g) (udatanum g) (total g) (strhash g) (strhash_sealed g)
    (sweep_sealed g) (strempty_own g) (mainthref g) (registrytv g) (gcroot g) (uvhead g)
    (jit_L g) (datastate g) (finalizer g) (trace g) (freetrace g) (cur g).
Definition set_weak (v : list Z) (g : gstate) : gstate :=
  MkG
    (heap g) (sealed g) (threshold g) (currentwhite g) (state g) (nocdatafin g) (state_count g)
    (sweepstr g) (root g) (sweep g) (gray g) (grayagain g) v (mmudata g) (stepmul g) (debt g)
    (estimate g) (pause g) (tabnum g) (udatanum g) (total g) (strhash g) (strhash_sealed g)
    (sweep_sealed g) (strempty_own g) (mainthref g) (registrytv g) (gcroot g) (uvhead g)
    (jit_L g) (datastate g) (finalizer g) (trace g) (freetrace g) (cur g).
Definition set_mmudata (v : list Z) (g : gstate) : gstate :=
  MkG
    (heap g) (sealed g) (threshold g) (currentwhite g) (state g) (nocdatafin g) (state_count g)
    (sweepstr g) (root g) (sweep g) (gray g) (grayagain g) (weak g) v (stepmul g) (debt g)
    (estimate g) (pause g) (tabnum g) (udatanum g) (total g) (strhash g) (strhash_sealed g)
    (sweep_sealed g) (strempty_own g) (mainthref g) (registrytv g) (gcroot g) (uvhead g)
    (jit_L g) (datastate g) (finalizer g) (trace g) (freetrace g) (cur g).
Definition set_stepmul (v : Z) (g : gstate) : gstate :=
  MkG
    (heap g) (sealed g) (threshold g) (currentwhite g) (state g) (nocdatafin g) (state_count g)
    (sweepstr g) (root g) (sweep g) (gray g) (grayagain g) (weak g) (mmudata g) v (debt g)
    (estimate g) (pause g) (tabnum g) (udatanum g) (total g) (strhash g) (strhash_sealed g)
    (sweep_sealed g) (strempty_own g) (mainthref g) (registrytv g) (gcroot g) (uvhead g)
    (jit_L g) (datastate g) (finalizer g) (trace g) (freetrace g) (cur g).
Definition set_debt (v : Z) (g : gstate) : gstate :=
  MkG
    (heap g) (sealed g) (threshold g) (currentwhite g) (state g) (nocdatafin g) (state_count g)
    (sweepstr g) (root g) (sweep g) (gray g) (grayagain g) (weak g) (mmudata g) (stepmul g) v
    (estimate g) (pause g) (tabnum g) (udatanum g) (total g) (strhash g) (strhash_sealed g)
    (sweep_sealed g) (strempty_own g) (mainthref g) (registrytv g) (gcroot g) (uvhead g)
    (jit_L g) (datastate g) (finalizer g) (trace g) (freetrace g) (cur g).
Definition set_estimate (v : Z) (g : gstate) : gstate :=
  MkG
    (heap g) (sealed g) (threshold g) (currentwhite g) (state g) (nocdatafin g) (state_count g)
    (sweepstr g) (root g) (sweep g) (gray g) (grayagain g) (weak g) (mmudata g) (stepmul g)
    (debt g) v (pause g) (tabnum g) (udatanum g) (total g) (strhash g) (strhash_sealed g)
    (sweep_sealed g) (strempty_own g) (mainthref g) (registrytv g) (gcroot g) (uvhead g)
    (jit_L g) (datastate g) (finalizer g) (trace g) (freetrace g) (cur g).
Definition set_pause (v : Z) (g : gstate) : gstate :=
  MkG
    (heap g) (sealed g) (threshold g) (currentwhite g) (state g) (nocdatafin g) (state_count g)
    (sweepstr g) (root g) (sweep g) (gray g) (grayagain g) (weak g) (mmudata g) (stepmul g)
    (debt g) (estimate g) v (tabnum g) (udatanum g) (total g) (strhash g) (strhash_sealed g)
    (sweep_sealed g) (strempty_own g) (mainthref g) (registrytv g) (gcroot g) (uvhead g)
    (jit_L g) (datastate g) (finalizer g) (trace g) (freetrace g) (cur g).
Definition set_tabnum (v : Z) (g : gstate) : gstate :=
  MkG
    (heap g) (sealed g) (threshold g) (currentwhite g) (state g) (nocdatafin g) (state_count g)
    (sweepstr g) (root g) (sweep g) (gray g) (grayagain g) (weak g) (mmudata g) (stepmul g)
    (debt g) (estimate g) (pause g) v (udatanum g) (total g) (strhash g) (strhash_sealed g)
    (sweep_sealed g) (strempty_own g) (mainthref g) (registrytv g) (gcroot g) (uvhead g)
    (jit_L g) (datastate g) (finalizer g) (trace g) (freetrace g) (cur g).
Definition set_udatanum (v : Z) (g : gstate) : gstate :=
  MkG
    (heap g) (sealed g) (threshold g) (currentwhite g) (state g) (nocdatafin g) (state_count g)
    (sweepstr g) (root g) (sweep g) (gray g) (grayagain g) (weak g) (mmudata g) (stepmul g)
    (debt g) (estimate g) (pause g) (tabnum g) v (total g) (strhash g) (strhash_sealed g)
    (sweep_sealed g) (strempty_own g) (mainthref g) (registrytv g) (gcroot g) (uvhead g)
    (jit_L g) (datastate g) (finalizer g) (trace g) (freetrace g) (cur g).
Definition set_total (v : Z) (g : gstate) : gstate :=
  MkG
    (heap g) (sealed g) (threshold g) (currentwhite g) (state g) (nocdatafin g) (state_count g)
    (sweepstr g) (root g) (sweep g) (gray g) (grayagain g) (weak g) (mmudata g) (stepmul g)
    (debt g) (estimate g) (pause g) (tabnum g) (udatanum g) v (strhash g) (strhash_sealed g)
    (sweep_sealed g) (strempty_own g) (mainthref g) (registrytv g) (gcroot g) (uvhead g)
    (jit_L g) (datastate g) (finalizer g) (trace g) (freetrace g) (cur g).
Definition set_strhash (v : strtab) (g : gstate) : gstate :=
  MkG
    (heap g) (sealed g) (threshold g) (currentwhite g) (state g) (nocdatafin g) (state_count g)
    (sweepstr g) (root g) (sweep g) (gray g) (grayagain g) (weak g) (mmudata g) (stepmul g)
    (debt g) (estimate g) (pause g) (tabnum g) (udatanum g) (total g) v (strhash_sealed g)
    (sweep_sealed g) (strempty_own g) (mainthref g) (registrytv g) (gcroot g) (uvhead g)
    (jit_L g) (datastate g) (finalizer g) (trace g) (freetrace g) (cur g).
Definition set_strhash_sealed (v : strtab) (g : gstate) : gstate :=
  MkG
    (heap g) (sealed g) (threshold g) (currentwhite g) (state g) (nocdatafin g) (state_count g)
    (sweepstr g) (root g) (sweep g) (gray g) (grayagain g) (weak g) (mmudata g) (stepmul g)
    (debt g) (estimate g) (pause g) (tabnum g) (udatanum g) (total g) (strhash g) v
    (sweep_sealed g) (strempty_own g) (mainthref g) (registrytv g) (gcroot g) (uvhead g)
    (jit_L g) (datastate g) (finalizer g) (trace g) (freetrace g) (cur g).
Definition set_sweep_sealed (v : bool) (g : gstate) : gstate :=
  MkG
    (heap g) (sealed g) (threshold g) (currentwhite g) (state g) (nocdatafin g) (state_count g)
    (sweepstr g) (root g) (sweep g) (gray g) (grayagain g) (weak g) (mmudata g) (stepmul g)
    (debt g) (estimate g) (pause g) (tabnum g) (udatanum g) (total g) (strhash g)
    (strhash_sealed g) v (strempty_own g) (mainthref g) (registrytv g) (gcroot g) (uvhead g)
    (jit_L g) (datastate g) (finalizer g) (trace g) (freetrace g) (cur g).
Definition set_gcroot (v : list Z) (g : gstate) : gstate :=
  MkG
    (heap g) (sealed g) (threshold g) (currentwhite g) (state g) (nocdatafin g) (state_count g)
    (sweepstr g) (root g) (sweep g) (gray g) (grayagain g) (weak g) (mmudata g) (stepmul g)
    (debt g) (estimate g) (pause g) (tabnum g) (udatanum g) (total g) (strhash g)
    (strhash_sealed g) (sweep_sealed g) (strempty_own g) (mainthref g) (registrytv g) v
    (uvhead g) (jit_L g) (datastate g) (finalizer g) (trace g) (freetrace g) (cur g).
Definition set_uvhead (v : list Z) (g : gstate) : gstate :=
  MkG
    (heap g) (sealed g) (threshold g) (currentwhite g) (state g) (nocdatafin g) (state_count g)
    (sweepstr g) (root g) (sweep g) (gray g) (grayagain g) (weak g) (mmudata g) (stepmul g)
    (debt g) (estimate g) (pause g) (tabnum g) (udatanum g) (total g) (strhash g)
    (strhash_sealed g) (sweep_sealed g) (strempty_own g) (mainthref g) (registrytv g) (gcroot g)
    v (jit_L g) (datastate g) (finalizer g) (trace g) (freetrace g) (cur g).
Definition set_trace (v : list Z) (g : gstate) : gstate :=
  MkG
    (heap g) (sealed g) (threshold g) (currentwhite g) (state g) (nocdatafin g) (state_count g)
    (sweepstr g) (root g) (sweep g) (gray g) (grayagain g) (weak g) (mmudata g) (stepmul g)
    (debt g) (estimate g) (pause g) (tabnum g) (udatanum g) (total g) (strhash g)
    (strhash_sealed g) (sweep_sealed g) (strempty_own g) (mainthref g) (registrytv g) (gcroot g)
    (uvhead g) (jit_L g) (datastate g) (finalizer g) v (freetrace g) (cur g).
Definition set_freetrace (v : Z) (g : gstate) : gstate :=
  MkG
    (heap g) (sealed g) (threshold g) (currentwhite g) (state g) (nocdatafin g) (state_count g)
    (sweepstr g) (root g) (sweep g) (gray g) (grayagain g) (weak g) (mmudata g) (stepmul g)
    (debt g) (estimate g) (pause g) (tabnum g) (udatanum g) (total g) (strhash g)
    (strhash_sealed g) (sweep_sealed g) (strempty_own g) (mainthref g) (registrytv g) (gcroot g)
    (uvhead g) (jit_L g) (datastate g) (finalizer g) (trace g) v (cur g).

(** In-place update of an object. *)
Definition upd (a : Z) (f : GCobj → GCobj) (g : gstate) : gstate := set_heap (alter f a (heap g)) g.

Definition otherwhite (g : gstate) : Z := Z.lxor (currentwhite g) LJ_GC_WHITES.
Definition curwhite (g : gstate) : Z := Z.land (currentwhite g) LJ_GC_WHITES.
Definition isdead (g : gstate) (o : GCobj) : bool := has (Z.land (marked o) (otherwhite g)) LJ_GC_WHITES.
Definition makewhite (g : gstate) (o : GCobj) : GCobj :=
  set_marked (Z.lor (clr (marked o) LJ_GC_COLORS) (curwhite g)) o.

(** Tests of the object at an address. *)
Definition at_ (P : GCobj → bool) (g : gstate) (a : Z) : bool :=
  match heap g !! a with Some o => P o | None => false end.

(** [uvval(uv)] *)
Definition uvval (g : gstate) (uv : uvloc) : TValue :=
  match uv with
  | UvClosed tv => tv
  | UvOpen th i =>
      match heap g !! th with
      | Some (OThread _ L) => match stack L !! i with Some (SV tv) => tv | _ => TNil end
      | _ => TNil
      end
  end.

Definition uv_closed (uv : uvloc) : bool := match uv with UvClosed _ => true | UvOpen _ _ => false end.

(** ** Memory *)

Definition uj_mem_free (size : Z) (g : gstate) : gstate := set_total (u64 (total g - size)) g.
Definition uj_mem_alloc (size : Z) (g : gstate) : gstate := set_total (u64 (total g + size)) g.

End GcObj.
