(* ===== verification/Gc.v ===== *)
(** * The garbage collector: marking (lj_gc.c)

    Roots, the recursive [gc_mark], the traversal of each type of object, propagation of one gray
    object and of all of them.  Every function takes the state and returns the new one; a function of
    the code that returns a value returns a pair.  [GcSweep.v] continues with the sweep phase, the
    atomic phase, the state machine and the barriers. *)

From stdpp Require Import base decidable list numbers option sets gmap.
From Stdlib Require Import ZArith Lia.
From S2P Require Import Prelude Obj Tab Bc Ir GcObj.

Local Open Scope Z_scope.
Import Obj GcObj.

Module Gc.

Section Gc.
Context `{OH : ObjHeap}.

(** ** Mark phase *)

(** Upvalue, userdata in it, metatable or environment of the userdata: [gc_mark] is never deeper. *)
Definition MARK_DEPTH : nat := 3.

Fixpoint gc_mark_n (n : nat) (a : Z) (g : gstate) : gstate :=
  match n with
  | O => g
  | S n =>
      let gc_markobj a g := if at_ iswhite g a then gc_mark_n n a g else g in
      match heap g !! a with
      | None => g
      | Some o =>
          if uj_obj_is_sealed o then g
          else
            let g := upd a white2gray g in
            match o with
            | OUdata _ ud =>
                let g := upd a gray2black g in           (* Userdata are never gray. *)
                let g := match ud_metatable ud with Some mt => gc_markobj mt g | None => g end in
                gc_markobj (ud_env ud) g
            | OUpval _ uv =>
                let g := match uvval g uv with TGCV _ v => gc_markobj v g | _ => g end in
                if uv_closed uv then upd a gray2black g else g
            | OStr _ _ | OCdata _ _ => g
            | _ => set_gray (a :: gray g) g
            end
      end
  end.
Definition gc_mark : Z → gstate → gstate := gc_mark_n MARK_DEPTH.

Definition gc_markobj (a : Z) (g : gstate) : gstate := if at_ iswhite g a then gc_mark a g else g.
Definition gc_marktv (tv : TValue) (g : gstate) : gstate :=
  match tv with TGCV _ a => gc_markobj a g | _ => g end.
Definition gc_mark_str (a : Z) (g : gstate) : gstate := upd a white2gray g.

Definition gc_marks (l : list Z) (g : gstate) : gstate := foldl (λ g a, gc_markobj a g) g l.
Definition gc_marktvs (l : list TValue) (g : gstate) : gstate := foldl (λ g tv, gc_marktv tv g) g l.

Definition gc_mark_gcroot (g : gstate) : gstate :=
  foldl (λ g a, if a =? 0 then g else gc_markobj a g) g (gcroot g).

(** The environment of the main thread is read from the thread. *)
Definition thread_env (g : gstate) (a : Z) : Z :=
  match heap g !! a with Some (OThread _ L) => th_env L | _ => 0 end.

Definition gc_mark_start (g : gstate) : gstate :=
  let g := set_weak [] (set_grayagain [] (set_gray [] g)) in
  let g := gc_markobj (mainthref g) g in
  let g := gc_markobj (thread_env g (mainthref g)) g in
  let g := gc_marktv (registrytv g) g in
  let g := gc_mark_gcroot g in
  set_state GCSpropagate g.

(** Mark open upvalues. *)
Definition gc_mark_uv (g : gstate) : gstate :=
  foldl (λ g a,
    match heap g !! a with
    | Some (OUpval _ uv as o) => if isgray o then gc_marktv (uvval g uv) g else g
    | _ => g
    end) g (uvhead g).

(** Mark userdata in mmudata list. *)
Definition gc_mark_mmudata (g : gstate) : gstate :=
  foldl (λ g u, gc_mark u (upd u (makewhite g) g)) g (mmudata g).

(** ** Metamethods of the collector (uj_meta.c) *)

Definition MM_gc : nat := 2.
Definition MM_mode : nat := 3.

Definition uj_meta_name (g : gstate) (mm : nat) : Z := default 0 (gcroot g !! mm).

Definition set_nomm (mm : nat) (o : GCobj) : GCobj :=
  match o with
  | OTab t => OTab (Tab.set_nomm (Z.lor (Tab.nomm t) (2 ^ Z.of_nat mm)) t)
  | _ => o
  end.

Definition uj_meta_lookup_mt (mt : option Z) (mm : nat) (g : gstate) : option TValue * gstate :=
  match mt with
  | None => (None, g)
  | Some a =>
      match heap g !! a with
      | Some (OTab t) =>
          if has (Tab.nomm t) (2 ^ Z.of_nat mm) then (None, g)
          else
            match Tab.deref t (Tab.lj_tab_getstr t (uj_meta_name g mm)) with
            | Some mtv => if tvisnil mtv then (None, upd a (set_nomm mm) g) else (Some mtv, g)
            | None => (None, g)
            end
      | _ => (None, g)
      end
  end.

(** ** Propagation phase *)

(** [while ((c = *modestr++))] *)
Fixpoint mode_bits (modestr : list Z) (weak : Z) : Z :=
  match modestr with
  | [] => weak
  | c :: s =>
      if c =? 0 then weak
      else if c =? 107 then mode_bits s (Z.lor weak LJ_GC_WEAKKEY)      (* 'k' *)
      else if c =? 118 then mode_bits s (Z.lor weak LJ_GC_WEAKVAL)      (* 'v' *)
      else mode_bits s weak
  end.

Definition strdata (g : gstate) (a : Z) : list Z :=
  match heap g !! a with Some (OStr _ d) => d | _ => [] end.

Definition set_weak_marks (w : Z) (o : GCobj) : GCobj :=
  set_marked (Z.lor (clr (marked o) LJ_GC_WEAK) w) o.

Definition gc_mark_node (w : Z) (g : gstate) (n : Tab.Node) : gstate :=
  if tvisnil (Tab.val n) then g
  else
    let g := if has w LJ_GC_WEAKKEY then g else gc_marktv (Tab.key n) g in
    if has w LJ_GC_WEAKVAL then g else gc_marktv (Tab.val n) g.

Definition mark_mt (mt : option Z) (g : gstate) : gstate :=
  match mt with Some m => gc_markobj m g | None => g end.

Definition gc_traverse_tab (a : Z) (t : Tab.GCtab) (g : gstate) : gstate * Z :=
  let mt := Tab.metatable t in
  let g := mark_mt mt g in
  let (mode, g) := uj_meta_lookup_mt mt MM_mode g in
  let w := match mode with Some (TGCV GT_STR s) => mode_bits (strdata g s) 0 | _ => 0 end in
  let '(g, w) :=
    if w =? 0 then (g, w)
    else if negb (finalizer g =? 0) && (finalizer g =? a) then (g, Z.lnot LJ_GC_WEAKVAL)
    else (set_weak (a :: weak g) (upd a (set_weak_marks w) g), w) in
  if w =? LJ_GC_WEAK then (g, 1)
  else
    let g := if has w LJ_GC_WEAKVAL then g else gc_marktvs (Tab.array t) g in
    let g := if 0 <? Tab.hmask t then foldl (gc_mark_node w) g (Tab.node t) else g in
    (g, w).

Definition gc_traverse_func (fn : GCfunc) (g : gstate) : gstate :=
  match fn with
  | FnL env pt uvptr => gc_marks uvptr (gc_markobj pt (gc_markobj env g))
  | FnC env upvalue => gc_marktvs upvalue (gc_markobj env g)
  end.

Definition traceref (g : gstate) (no : Z) : Z := default 0 (trace g !! Z.to_nat no).

Definition gc_marktrace (no : Z) (g : gstate) : gstate :=
  let a := traceref g no in
  if at_ iswhite g a then let g := upd a white2gray g in set_gray (a :: gray g) g else g.

(** [if (no) { gc_marktrace(g, no); }] *)
Definition gc_marktrace_if (no : Z) (g : gstate) : gstate := if no =? 0 then g else gc_marktrace no g.

Definition gc_traverse_trace (T : GCtrace) (g : gstate) : gstate :=
  if traceno T =? 0 then g
  else
    let g := foldl (λ g ir, if Ir.opeq (Ir.io ir) Ir.IR_KGC then gc_markobj (Ir.ii ir) g else g) g (kcells T) in
    let g := gc_marktrace_if (link T) g in
    let g := gc_marktrace_if (nextroot T) g in
    let g := gc_marktrace_if (nextside T) g in
    gc_markobj (startpt T) g.

Definition gc_traverse_proto (pt : GCproto) (g : gstate) : gstate :=
  let g := gc_mark_str (chunkname pt) g in
  let g := gc_marks (kgc pt) g in
  gc_marktrace_if (pt_trace pt) g.

(** ** Stacks *)

Definition FRAME_CONT : Z := 2.
Definition FRAME_TYPEP : Z := 7.

Definition frame_iscont (tp : ftp) : bool :=
  match tp with PCR _ => false | FTSZ z => Z.land z FRAME_TYPEP =? FRAME_CONT end.
Definition frame_prev (frame : Z) (tp : ftp) : Z :=
  match tp with
  | PCR ins => frame - (1 + Bc.bc_a ins)
  | FTSZ z => frame - Z.ldiff z FRAME_TYPEP / sizeof_TValue
  end.

Definition max_declared_frame_slot (g : gstate) (frame func : Z) : Z :=
  match heap g !! func with
  | Some (OFunc _ (FnL _ pt _)) =>
      match heap g !! pt with Some (OProto _ p) => frame + framesize p | _ => frame end
  | _ => frame
  end.

Definition slots (L : lua_State) (frame top : Z) : list slot :=
  take (Z.to_nat (top - frame - 1)) (drop (Z.to_nat (frame + 1)) (stack L)).

(** Marks a single stack frame, i.e. slots in the range [frame; top - 1]. *)
Definition gc_mark_stack_frame (th : Z) (L : lua_State) (frame top : Z) (g : gstate) : gstate :=
  let g := match stack L !! Z.to_nat frame with
           | Some (SF func _) => if func =? th then g else gc_markobj func g
           | _ => g
           end in
  foldl (λ g s, match s with SV tv => gc_marktv tv g | _ => g end) g (slots L frame top).

(** The links lead down to the bottom frame, so as many steps as there are slots are enough. *)
Fixpoint stack_loop (n : nat) (th : Z) (L : lua_State) (frame top max_slot : Z) (g : gstate) : gstate * Z :=
  match n with
  | O => (g, max_slot)
  | S n =>
      let g := gc_mark_stack_frame th L frame top g in
      if frame <=? 0 then (g, max_slot)
      else
        match stack L !! Z.to_nat frame with
        | Some (SF func tp) =>
            let slot := max_declared_frame_slot g frame func in
            let max_slot := if max_slot <? slot then slot else max_slot in
            let top := if frame_iscont tp then frame - 1 else frame in
            stack_loop n th L (frame_prev frame tp) top max_slot g
        | _ => (g, max_slot)
        end
  end.

Definition gc_traverse_stack (th : Z) (L : lua_State) (g : gstate) : gstate * Z :=
  let (g, max_slot) := stack_loop (length (stack L)) th L (base L - 1) (top L) (top L - 1) g in
  let max_slot := max_slot + 1 in
  (g, if maxstack L <? max_slot then maxstack L else max_slot).

Definition set_stack (st : list slot) (ms : Z) (o : GCobj) : GCobj :=
  match o with
  | OThread m L => OThread m (MkTh st (base L) (top L) ms (openupval L) (th_env L))
  | _ => o
  end.

Definition gc_clear_upper_stack_slots (th : Z) (g : gstate) : gstate :=
  match heap g !! th with
  | Some (OThread _ L) =>
      let n := Z.to_nat (top L) in
      upd th (set_stack (take n (stack L) ++ replicate (length (stack L) - n) (SV TNil)) (maxstack L)) g
  | _ => g
  end.

Definition LJ_STACK_EXTRA : Z := 5.
Definition LUA_MINSTACK : Z := 20.
Definition LJ_STACK_MAX : Z := 65500.
Definition LJ_STACK_START : Z := 2 * LUA_MINSTACK.
Definition LJ_STACK_MAXEX : Z := LJ_STACK_MAX + 1 + LJ_STACK_EXTRA.

(** Resize stack slots; [base], [top] and open upvalues are indices and stay. *)
Definition state_resizestack (th n : Z) (g : gstate) : gstate :=
  match heap g !! th with
  | Some (OThread _ L) =>
      let oldsize := Z.of_nat (length (stack L)) in
      let realsize := n + 1 + LJ_STACK_EXTRA in
      let g := set_total (u64 (total g - oldsize * sizeof_TValue + realsize * sizeof_TValue)) g in
      let st := take (Z.to_nat realsize) (stack L ++ replicate (Z.to_nat (realsize - oldsize)) (SV TNil)) in
      upd th (set_stack st n) g
  | _ => g
  end.

Definition uj_state_stack_shrink (th used : Z) (g : gstate) : gstate :=
  match heap g !! th with
  | Some (OThread _ L) =>
      let stacksize := Z.of_nat (length (stack L)) in
      if LJ_STACK_MAXEX <? stacksize then g
      else if (4 * used <? stacksize) && (2 * (LJ_STACK_START + LJ_STACK_EXTRA) <? stacksize) &&
              negb (th =? jit_L g)
      then state_resizestack th (Z.shiftr stacksize 1) g
      else g
  | _ => g
  end.

Definition gc_traverse_thread (th : Z) (L : lua_State) (g : gstate) : gstate :=
  let (g, used) := gc_traverse_stack th L g in
  let g := if decide (state g = GCSatomic) then gc_clear_upper_stack_slots th g else g in
  let g := gc_markobj (th_env L) g in
  uj_state_stack_shrink th used g.

Definition stacksize (g : gstate) (th : Z) : Z :=
  match heap g !! th with Some (OThread _ L) => Z.of_nat (length (stack L)) | _ => 0 end.

(** Propagate one gray object.  Traverse it and turn it black. *)
Definition propagatemark (g : gstate) : gstate * Z :=
  match gray g with
  | [] => (g, 0)
  | a :: rest =>
      let g := set_gray rest (upd a gray2black g) in
      match heap g !! a with
      | Some (OTab t) =>
          let (g, w) := gc_traverse_tab a t g in
          (if 0 <? w then upd a black2gray g else g, lj_tab_sizeof t)   (* Keep weak tables gray. *)
      | Some (OFunc _ fn) => (gc_traverse_func fn g, uj_func_sizeof fn)
      | Some (OProto _ pt) => (gc_traverse_proto pt g, uj_proto_sizeof pt)
      | Some (OThread _ L) =>
          let g := set_grayagain (a :: grayagain g) g in
          let g := upd a black2gray g in                               (* Threads are never black. *)
          let g := gc_traverse_thread a L g in
          (g, sizeof_lua_State + sizeof_TValue * stacksize g a)
      | Some (OTrace _ T) => (gc_traverse_trace T g, lj_trace_sizeof T)
      | _ => (g, 0)
      end
  end.

(** Every object is put on the gray list once at most. *)
Fixpoint propagate_loop (n : nat) (m : Z) (g : gstate) : gstate * Z :=
  match n, gray g with
  | S n, _ :: _ => let (g, c) := propagatemark g in propagate_loop n (m + c) g
  | _, _ => (g, m)
  end.
Definition gc_propagate_gray (g : gstate) : gstate * Z :=
  propagate_loop (length (gray g) + size (heap g)) 0 g.

End Gc.

End Gc.
