(* ===== verification/GcSweep.v ===== *)
(** * The garbage collector: sweeping, the state machine and barriers (lj_gc.c)

    The sweep of the lists of objects with the functions that free them, separation and
    finalization of userdata, the clearing of weak tables, the atomic phase, the incremental
    steps, full collection, and the write barriers; uj_upval.c with the open upvalues.

    [vm_pcall] stands for the protected call of a finalizer: it gets the function, the object and
    the state and returns the new state and the error code.  Hooks, the profiler's VM state and the
    shrinking of the temporary buffer are not part of this state. *)

From stdpp Require Import base decidable list numbers option sets gmap.
From Stdlib Require Import ZArith Lia.
From S2P Require Import Prelude Obj Tab Str GcObj Gc.

Local Open Scope Z_scope.
Import Obj GcObj Gc.

Module GcSweep.

Definition LJ_MAX_MEM : Z := 0x7fffff00.

Section Sweep.
Context `{OH : ObjHeap}.

(** ** Write barriers *)

Definition marking (g : gstate) : bool :=
  match state g with GCSpropagate | GCSatomic => true | _ => false end.

(** Move the GC propagation frontier forward. *)
Definition lj_gc_barrierf (o v : Z) (g : gstate) : gstate :=
  if marking g then gc_mark v g else upd o (makewhite g) g.

(** Move the GC propagation frontier back for tables (make it gray again). *)
Definition lj_gc_barrierback (t : Z) (g : gstate) : gstate :=
  let g := upd t black2gray g in set_grayagain (t :: grayagain g) g.

Definition lj_gc_anybarriert (t : Z) (g : gstate) : gstate :=
  if at_ isblack g t then lj_gc_barrierback t g else g.
Definition tviswhite (g : gstate) (tv : TValue) : bool :=
  match tv with TGCV _ a => at_ iswhite g a | _ => false end.
Definition lj_gc_barriert (t : Z) (tv : TValue) (g : gstate) : gstate :=
  if tviswhite g tv && at_ isblack g t then lj_gc_barrierback t g else g.
Definition lj_gc_objbarriert (t o : Z) (g : gstate) : gstate :=
  if at_ iswhite g o && at_ isblack g t then lj_gc_barrierback t g else g.
Definition lj_gc_barrier (p : Z) (tv : TValue) (g : gstate) : gstate :=
  match tv with
  | TGCV _ v => if at_ iswhite g v && at_ isblack g p then lj_gc_barrierf p v g else g
  | _ => g
  end.
Definition lj_gc_objbarrier (p o : Z) (g : gstate) : gstate :=
  if at_ iswhite g o && at_ isblack g p then lj_gc_barrierf p o g else g.

(** Specialized barrier for the closed upvalue [uv] that has got the value [tv]. *)
Definition lj_gc_barrieruv (uv : Z) (tv : TValue) (g : gstate) : gstate :=
  match tv with
  | TGCV _ v => if marking g then gc_mark v g else upd uv (makewhite g) g
  | _ => g
  end.

Definition lj_gc_barriertrace (no : Z) (g : gstate) : gstate :=
  if marking g then gc_marktrace no g else g.

(** ** Upvalues (uj_upval.c) *)

Definition set_uv (v : uvloc) (o : GCobj) : GCobj :=
  match o with OUpval m _ => OUpval m v | _ => o end.
Definition set_openupval (l : list Z) (o : GCobj) : GCobj :=
  match o with
  | OThread m L => OThread m (MkTh (stack L) (base L) (top L) (maxstack L) l (th_env L))
  | _ => o
  end.

Definition unlink (a : Z) (l : list Z) : list Z := filter (λ x, x ≠ a) l.
Definition upval_unlink (a : Z) (g : gstate) : gstate := set_uvhead (unlink a (uvhead g)) g.

(** Close upvalue.  Also needs a write barrier. *)
Definition lj_gc_closeuv (a : Z) (g : gstate) : gstate :=
  match heap g !! a with
  | Some (OUpval _ uv as o) =>
      let tv := uvval g uv in
      let g := upd a (set_uv (UvClosed tv)) g in
      let g := set_root (a :: root g) g in
      if isgray o then
        if marking g then
          let g := upd a gray2black g in
          match tv with
          | TGCV _ v => if at_ iswhite g v then lj_gc_barrierf a v g else g
          | _ => g
          end
        else upd a (makewhite g) g
      else g
  | _ => g
  end.

Definition free_obj (a size : Z) (g : gstate) : gstate :=
  uj_mem_free size (set_heap (delete a (heap g)) g).

Definition uj_upval_free (a : Z) (uv : uvloc) (g : gstate) : gstate :=
  let g := if uv_closed uv then g else upval_unlink a g in
  free_obj a sizeof_GCupval g.

(** The open upvalues are sorted by their slots, the highest first. *)
Fixpoint upval_close_loop (uvs : list Z) (th level : Z) (g : gstate) : gstate :=
  match uvs with
  | [] => g
  | a :: rest =>
      match heap g !! a with
      | Some (OUpval _ (UvOpen _ i as uv) as o) =>
          if level <=? Z.of_nat i then
            let g := upd th (set_openupval rest) g in      (* No longer in open list. *)
            let g := if isdead g o then uj_upval_free a uv g
                     else lj_gc_closeuv a (upval_unlink a g) in
            upval_close_loop rest th level g
          else g
      | _ => g
      end
  end.
Definition uj_upval_close (th level : Z) (g : gstate) : gstate :=
  match heap g !! th with
  | Some (OThread _ L) => upval_close_loop (openupval L) th level g
  | _ => g
  end.

(** ** Freeing *)

Definition strhash_dec (t : strtab) : strtab := MkST (hash t) (mask t) (count t - 1).

Definition uj_str_free (a : Z) (d : list Z) (g : gstate) : gstate :=
  let g := if sweep_sealed g then set_strhash_sealed (strhash_dec (strhash_sealed g)) g
           else set_strhash (strhash_dec (strhash g)) g in
  free_obj a (uj_str_sizeof d) g.

(** The main thread is not freed, as it is part of the global state. *)
Definition uj_state_free (a : Z) (g : gstate) : gstate :=
  let g := uj_upval_close a 0 g in
  let g := uj_mem_free (stacksize g a * sizeof_TValue) g in
  if a =? mainthref g then g else free_obj a sizeof_lua_State g.

Definition lj_tab_free (a : Z) (t : Tab.GCtab) (g : gstate) : gstate :=
  let g := if 0 <? Tab.hmask t then uj_mem_free ((Tab.hmask t + 1) * 40) g else g in
  let g := if (0 <? Tab.asize t) && (Tab.colo t <=? 0) then uj_mem_free (Tab.asize t * sizeof_TValue) g else g in
  let sz := if Tab.colo t =? 0 then 72 else Z.land (u32 (Tab.colo t)) 0x7f * sizeof_TValue + 72 in
  set_tabnum (tabnum g - 1) (free_obj a sz g).

Definition lj_trace_free (a : Z) (T : GCtrace) (g : gstate) : gstate :=
  let g := if traceno T =? 0 then g
           else
             let g := if traceno T <? freetrace g then set_freetrace (traceno T) g else g in
             set_trace (<[Z.to_nat (traceno T) := 0]> (trace g)) g in
  free_obj a (lj_trace_sizeof T) g.

Definition lj_cdata_free (a m size : Z) (g : gstate) : gstate :=
  if has m LJ_GC_CDATA_FIN then
    let g := upd a (λ o, markfinalized (makewhite g o)) g in
    set_mmudata (mmudata g ++ [a]) g
  else free_obj a size g.

Definition uj_udata_free (a : Z) (ud : GCudata) (g : gstate) : gstate :=
  free_obj a (uj_udata_sizeof ud) (set_udatanum (udatanum g - 1) g).

(** [gc_freefunc] *)
Definition gc_freefunc (a : Z) (g : gstate) : gstate :=
  match heap g !! a with
  | Some (OStr _ d) => uj_str_free a d g
  | Some (OUpval _ uv) => uj_upval_free a uv g
  | Some (OThread _ _) => uj_state_free a g
  | Some (OProto _ pt) => free_obj a (uj_proto_sizeof pt) g
  | Some (OFunc _ fn) => free_obj a (uj_func_sizeof fn) g
  | Some (OTrace _ T) => lj_trace_free a T g
  | Some (OCdata m size) => lj_cdata_free a m size g
  | Some (OTab t) => lj_tab_free a t g
  | Some (OUdata _ ud) => uj_udata_free a ud g
  | None => g
  end.

(** ** Sweep phase *)

(** The lists that are swept. *)
Inductive chain := CRoot | CStr (sealed : bool) (i : nat) | CUv (th : Z).

Definition get_chain (g : gstate) (c : chain) : list Z :=
  match c with
  | CRoot => root g
  | CStr sealed i => default [] (hash (if sealed then strhash_sealed g else strhash g) !! i)
  | CUv th => match heap g !! th with Some (OThread _ L) => openupval L | _ => [] end
  end.
Definition set_hash (i : nat) (l : list Z) (t : strtab) : strtab := MkST (<[i := l]> (hash t)) (mask t) (count t).
Definition set_chain (c : chain) (l : list Z) (g : gstate) : gstate :=
  match c with
  | CRoot => set_root l g
  | CStr true i => set_strhash_sealed (set_hash i l (strhash_sealed g)) g
  | CStr false i => set_strhash (set_hash i l (strhash g)) g
  | CUv th => upd th (set_openupval l) g
  end.

(** What comes after an object; what a link leads to. *)
Fixpoint after (a : Z) (l : list Z) : list Z :=
  match l with [] => [] | x :: l => if x =? a then l else after a l end.
Definition rest (g : gstate) (c : chain) (p : swpos) : list Z :=
  match p with
  | SwRoot => get_chain g c
  | SwNext a => after a (get_chain g c)
  | SwNull => []
  end.

(** Partial sweep of a GC list.  The sweep of the open upvalues of a thread is the only
    nested call. *)
Fixpoint gc_sweep (n : nat) (c : chain) (p : swpos) (lim : Z) (g : gstate) : swpos * gstate :=
  match n with
  | O => (p, g)
  | S n =>
      match rest g c p with
      | [] => (p, g)
      | a :: _ =>
          if lim <=? 0 then (p, g)
          else
            match heap g !! a with
            | None => (p, g)
            | Some o =>
                if uj_obj_is_sealed o then (SwNull, g)
                else
                  let g := match o with
                           | OThread _ _ => (gc_sweep n (CUv a) SwRoot LJ_MAX_MEM g).2
                           | _ => g
                           end in
                  if has (Z.lxor (marked o) LJ_GC_WHITES) (otherwhite g) then
                    gc_sweep n c (SwNext a) (lim - 1) (upd a (makewhite g) g)
                  else
                    let g := set_chain c (unlink a (get_chain g c)) g in
                    gc_sweep n c p (lim - 1) (gc_freefunc a g)
            end
      end
  end.

(** Every object is swept once at most. *)
Definition sweep_fuel (g : gstate) : nat := S (2 * size (heap g)).
Definition gc_fullsweep (c : chain) (g : gstate) : gstate :=
  (gc_sweep (sweep_fuel g) c SwRoot LJ_MAX_MEM g).2.

(** Try to shrink some common data structures. *)
Definition view_str (a : Z) : Str.GCstr := Str.MkGCstr a 0 (str_hash a) [].
Definition uj_strhash_shrink (g : gstate) : gstate :=
  let t := strhash g in
  let '(_, t') := Str.uj_strhash_shrink (bool_decide (state g = GCSsweepstring))
                    (Str.MkSH (map (map view_str) (hash t)) (mask t) (count t)) in
  set_strhash (MkST (map (map Str.saddr) (Str.hash t')) (Str.mask t') (Str.count t')) g.
Definition gc_shrink (g : gstate) : gstate := uj_strhash_shrink g.

(** ** Weak tables *)

Definition gc_mayclear (o : TValue) (val : bool) (g : gstate) : bool * gstate :=
  match o with
  | TGCV GT_STR a => (false, gc_mark_str a g)
  | TGCV gt a =>
      match heap g !! a with
      | Some x =>
          (if uj_obj_is_sealed x then false
           else if iswhite x then true
           else bool_decide (gt = GT_UDATA) && val && isfinalized x, g)
      | None => (false, g)
      end
  | _ => (false, g)
  end.

Fixpoint clear_array (vs : list TValue) (g : gstate) : list TValue * gstate :=
  match vs with
  | [] => ([], g)
  | tv :: vs =>
      let (c, g) := gc_mayclear tv true g in
      let (vs, g) := clear_array vs g in
      ((if c then TNil else tv) :: vs, g)
  end.

Definition clear_node (n : Tab.Node) (g : gstate) : Tab.Node * gstate :=
  if tvisnil (Tab.val n) then (n, g)
  else
    let (ck, g) := gc_mayclear (Tab.key n) false g in
    if ck then (Tab.set_val TNil n, g)
    else
      let (cv, g) := gc_mayclear (Tab.val n) true g in
      (if cv then Tab.set_val TNil n else n, g).

Fixpoint clear_nodes (ns : list Tab.Node) (g : gstate) : list Tab.Node * gstate :=
  match ns with
  | [] => ([], g)
  | n :: ns =>
      let (n, g) := clear_node n g in
      let (ns, g) := clear_nodes ns g in
      (n :: ns, g)
  end.

Definition set_array (vs : list TValue) (o : GCobj) : GCobj :=
  match o with OTab t => OTab (Tab.set_array (Tab.colo t) vs t) | _ => o end.
Definition set_node (ns : list Tab.Node) (o : GCobj) : GCobj :=
  match o with OTab t => OTab (Tab.set_node ns t) | _ => o end.

Definition clear_table (g : gstate) (a : Z) : gstate :=
  match heap g !! a with
  | Some (OTab t) =>
      let g := if has (Tab.marked t) LJ_GC_WEAKVAL
               then let (vs, g) := clear_array (Tab.array t) g in upd a (set_array vs) g
               else g in
      if 0 <? Tab.hmask t
      then let (ns, g) := clear_nodes (Tab.node t) g in upd a (set_node ns) g
      else g
  | _ => g
  end.

(** Clear collected entries from weak tables. *)
Definition gc_clearweak (l : list Z) (g : gstate) : gstate := foldl clear_table g l.

(** ** Userdata with finalizers *)

(** Separate userdata objects to be finalized to mmudata list, from the list [l]. *)
Fixpoint separate_loop (l : list Z) (all : bool) (m : Z) (g : gstate) : gstate * Z :=
  match l with
  | [] => (g, m)
  | a :: l =>
      match heap g !! a with
      | Some (OUdata _ ud as o) =>
          if uj_obj_is_sealed o then (g, m)
          else if negb (iswhite o || all) || isfinalized o then separate_loop l all m g
          else
            let (mo, g) := uj_meta_lookup_mt (ud_metatable ud) MM_gc g in
            let g := upd a markfinalized g in
            match mo with
            | None => separate_loop l all m g          (* Done, as there's no __gc metamethod. *)
            | Some _ =>
                let g := set_root (unlink a (root g)) g in
                let g := set_mmudata (mmudata g ++ [a]) g in
                separate_loop l all (m + uj_udata_sizeof ud) g
            end
      | Some o => if uj_obj_is_sealed o then (g, m) else separate_loop l all m g
      | None => (g, m)
      end
  end.
Definition lj_gc_separateudata (all : bool) (g : gstate) : gstate * Z :=
  separate_loop (after (mainthref g) (root g)) all 0 g.

(** ** The atomic phase *)

Definition atomic (L : Z) (g : gstate) : gstate :=
  let g := gc_mark_uv g in                      (* Need to remark open upvalues. *)
  let '(g, _) := gc_propagate_gray g in         (* Propagate any left-overs. *)
  let g := set_weak [] (set_gray (weak g) g) in (* Empty the list of weak tables. *)
  let g := gc_markobj L g in                    (* Mark running thread. *)
  let g := gc_traverse_trace (cur g) g in       (* Traverse current trace. *)
  let g := gc_mark_gcroot g in                  (* Mark GC roots (again). *)
  let '(g, _) := gc_propagate_gray g in         (* Propagate all of the above. *)
  let g := set_grayagain [] (set_gray (grayagain g) g) in
  let '(g, _) := gc_propagate_gray g in         (* Propagate the 2nd chance list. *)
  let '(g, udsize) := lj_gc_separateudata false g in
  let g := gc_mark_mmudata g in                 (* Mark them. *)
  let '(g, m) := gc_propagate_gray g in         (* And propagate the marks. *)
  let g := gc_clearweak (weak g) g in           (* All marking done, clear weak tables. *)
  let g := set_currentwhite (otherwhite g) g in (* Flip current white. *)
  let g := upd (strempty_own g) flipwhite g in
  let g := set_sweep SwRoot g in
  set_estimate (u64 (total g - (udsize + m))) g.

(** ** Finalizers *)

Context (vm_pcall : TValue → Z → gstate → gstate * Z).

Definition gc_call_finalizer (mo : TValue) (a : Z) (g : gstate) : gstate * Z :=
  let oldt := threshold g in
  let g := set_threshold LJ_MAX_MEM g in        (* Prevent GC steps. *)
  let (g, errcode) := vm_pcall mo a g in
  (set_threshold oldt g, errcode).

(** Put the object behind the main thread. *)
Fixpoint insert_after (x a : Z) (l : list Z) : list Z :=
  match l with
  | [] => []
  | y :: l => if y =? x then y :: a :: l else y :: insert_after x a l
  end.

Definition clear_slot (s : Tab.slot) (o : GCobj) : GCobj :=
  match o with OTab t => OTab (Tab.slot_write TNil s t) | _ => o end.

(** Finalize one userdata or cdata object from the mmudata list; the error code of the call. *)
Definition gc_finalize (g : gstate) : gstate * Z :=
  match mmudata g with
  | [] => (g, 0)
  | a :: l =>
      let g := set_mmudata l g in
      match heap g !! a with
      | Some (OCdata _ _) =>
          let g := set_root (a :: root g) g in
          let g := upd a (makewhite g) g in
          let g := upd a (λ o, set_marked (clr (marked o) LJ_GC_CDATA_FIN) o) g in
          match heap g !! finalizer g with
          | Some (OTab t) =>
              match Tab.tab_set (TGCV GT_CDATA a) t with
              | Tab.Ret s t =>
                  let g := upd (finalizer g) (λ _, OTab t) g in
                  let tv := Tab.slot_read t s in
                  if tvisnil tv then (g, 0)
                  else
                    let g := set_nocdatafin 0 g in
                    let g := upd (finalizer g) (clear_slot s) g in
                    gc_call_finalizer tv a g
              | _ => (g, 0)
              end
          | _ => (g, 0)
          end
      | Some (OUdata _ ud) =>
          let g := set_root (insert_after (mainthref g) a (root g)) g in
          let g := upd a (makewhite g) g in
          let (mo, g) := uj_meta_lookup_mt (ud_metatable ud) MM_gc g in
          match mo with
          | Some mo => gc_call_finalizer mo a g
          | None => (g, 0)
          end
      | _ => (g, 0)
      end
  end.

(** Finalize all userdata objects from mmudata list. *)
Fixpoint lj_gc_finalize_udata (n : nat) (g : gstate) : gstate * Z :=
  match n, mmudata g with
  | S n, _ :: _ =>
      let (g, e) := gc_finalize g in
      if negb (e =? 0) then (g, e) else lj_gc_finalize_udata n g
  | _, _ => (g, 0)
  end.

Definition no_metatable (o : GCobj) : GCobj :=
  match o with
  | OTab t => OTab (Tab.MkTab (Tab.marked t) (Tab.nomm t) (Tab.colo t) None (Tab.array t) (Tab.node t) (Tab.hmask t) (Tab.freetop t))
  | _ => o
  end.

(** The nodes of the finalizer table from the index [i - 1] down; each is read when its turn comes. *)
Fixpoint finalize_nodes (i : nat) (g : gstate) : gstate * Z :=
  match i with
  | O => (g, 0)
  | S i =>
      match heap g !! finalizer g with
      | Some (OTab t) =>
          match Tab.node t !! i with
          | Some n =>
              match Tab.key n with
              | TGCV GT_CDATA a =>
                  if tvisnil (Tab.val n) then finalize_nodes i g
                  else
                    let g := upd a (makewhite g) g in
                    let g := upd a (λ o, set_marked (clr (marked o) LJ_GC_CDATA_FIN) o) g in
                    let g := upd (finalizer g) (clear_slot (Tab.HSlot i)) g in
                    let (g, e) := gc_call_finalizer (Tab.val n) a g in
                    if negb (e =? 0) then (g, e) else finalize_nodes i g
              | _ => finalize_nodes i g
              end
          | None => finalize_nodes i g
          end
      | _ => (g, 0)
      end
  end.

(** Finalize all cdata objects from finalizer table. *)
Definition lj_gc_finalize_cdata (g : gstate) : gstate * Z :=
  match heap g !! finalizer g with
  | Some (OTab t) =>
      let g := upd (finalizer g) no_metatable g in     (* Mark finalizer table as disabled. *)
      finalize_nodes (Z.to_nat (Tab.hmask t + 1)) g
  | _ => (g, 0)
  end.

(** ** The state machine *)

Definition GCSTEPSIZE : Z := 1024.
Definition GCSWEEPMAX : Z := 40.
Definition GCSWEEPCOST : Z := 10.
Definition GCFINALIZECOST : Z := 100.

(** The new state, the cost, and the error code of a finalizer. *)
Definition gc_onestep (L : Z) (g : gstate) : gstate * Z * Z :=
  let g := set_state_count (alter (λ n, u64 (n + 1)) (phase_num (state g)) (state_count g)) g in
  match state g with
  | GCSpause => (gc_mark_start g, 0, 0)
  | GCSpropagate =>
      match gray g with
      | _ :: _ => let (g, c) := propagatemark g in (g, c, 0)
      | [] => (set_state GCSatomic g, 0, 0)
      end
  | GCSatomic =>
      if negb (jit_L g =? 0) then (g, LJ_MAX_MEM, 0)      (* Don't run atomic phase on trace. *)
      else
        let g := atomic L g in
        (set_sweepstr 0 (set_state GCSsweepstring g), 0, 0)
  | GCSsweepstring =>
      let old := total g in
      let i := sweepstr g in
      let g := gc_fullsweep (CStr false (Z.to_nat i)) (set_sweepstr (i + 1) g) in
      let g := if mask (strhash g) <? sweepstr g then set_state GCSsweep g else g in
      (set_estimate (u64 (estimate g - (old - total g))) g, GCSWEEPCOST, 0)
  | GCSsweep =>
      let old := total g in
      let (p, g) := gc_sweep (sweep_fuel g) CRoot (sweep g) GCSWEEPMAX g in
      let g := set_sweep p g in
      let g := set_estimate (u64 (estimate g - (old - total g))) g in
      let g := match rest g CRoot p with
               | [] =>
                   let g := gc_shrink g in
                   match mmudata g with
                   | _ :: _ => set_nocdatafin 1 (set_state GCSfinalize g)
                   | [] => set_debt 0 (set_state GCSpause g)
                   end
               | _ => g
               end in
      (g, GCSWEEPMAX * GCSWEEPCOST, 0)
  | GCSfinalize =>
      match mmudata g with
      | _ :: _ =>
          if negb (jit_L g =? 0) then (g, LJ_MAX_MEM, 0)  (* Don't call finalizers on trace. *)
          else
            let (g, e) := gc_finalize g in
            if negb (e =? 0) then (g, 0, e)
            else
              let g := if GCFINALIZECOST <? estimate g then set_estimate (estimate g - GCFINALIZECOST) g else g in
              (g, GCFINALIZECOST, 0)
      | [] =>
          let g := if negb (nocdatafin g =? 0) then g
                   else match heap g !! finalizer g with
                        | Some (OTab t) =>
                            match Tab.lj_tab_rehash t with
                            | Tab.Ret _ t => upd (finalizer g) (λ _, OTab t) g
                            | _ => g
                            end
                        | _ => g
                        end in
          (set_debt 0 (set_state GCSpause g), 0, 0)
      end
  end.

(** The result of the steps: [RDone] with the returned value, an error, or no more fuel. *)
Inductive gcres := RDone (g : gstate) (r : Z) | RErr (g : gstate) (e : Z) | RFuel (g : gstate).

(** [do { ... } while ((int32_t)lim > 0)] *)
Fixpoint step_loop (n : nat) (L lim : Z) (g : gstate) : gcres :=
  match n with
  | O => RFuel g
  | S n =>
      let '(g, c, e) := gc_onestep L g in
      if negb (e =? 0) then RErr g e
      else
        let lim := u64 (lim - c) in
        if decide (state g = GCSpause) then
          RDone (set_threshold (u64 (estimate g / 100 * pause g)) g) 1     (* Finished a GC cycle. *)
        else if 0 <? i32 lim then step_loop n L lim g
        else if debt g <? GCSTEPSIZE then
          RDone (set_threshold (u64 (total g + GCSTEPSIZE)) g) (-1)
        else RDone (set_threshold (total g) (set_debt (debt g - GCSTEPSIZE) g)) 0
  end.

(** Perform a limited amount of incremental GC steps. *)
Definition lj_gc_step (n : nat) (L : Z) (g : gstate) : gcres :=
  let lim := u64 (GCSTEPSIZE / 100 * stepmul g) in
  let lim := if lim =? 0 then LJ_MAX_MEM else lim in
  let g := if threshold g <? total g then set_debt (u64 (debt g + (total g - threshold g))) g else g in
  step_loop n L lim g.

Definition lj_gc_check (n : nat) (L : Z) (g : gstate) : gcres :=
  if threshold g <=? total g then lj_gc_step n L g else RDone g 0.

(** Perform multiple GC steps; 1 to force a trace exit. *)
Fixpoint lj_gc_step_jit (n : nat) (steps : nat) (L : Z) (g : gstate) : gcres :=
  let exit g := RDone g (if decide (state g = GCSatomic ∨ state g = GCSfinalize) then 1 else 0) in
  match steps with
  | O => exit g
  | S steps =>
      match lj_gc_step n L g with
      | RDone g r => if r =? 0 then lj_gc_step_jit n steps L g else exit g
      | r => r
      end
  end.

(** [while (P(state)) gc_onestep(L)] *)
Fixpoint step_while (n : nat) (P : gcphase → bool) (L : Z) (g : gstate) : gcres :=
  if P (state g) then
    match n with
    | O => RFuel g
    | S n =>
        let '(g, _, e) := gc_onestep L g in
        if negb (e =? 0) then RErr g e else step_while n P L g
    end
  else RDone g 0.

Definition sweeping (s : gcphase) : bool := match s with GCSsweepstring | GCSsweep => true | _ => false end.
Definition not_paused (s : gcphase) : bool := match s with GCSpause => false | _ => true end.

(** Perform a full GC cycle. *)
Definition lj_gc_fullgc (n : nat) (L : Z) (g : gstate) : gcres :=
  let g := match state g with
           | GCSpause | GCSpropagate | GCSatomic =>             (* Caught somewhere in the middle. *)
               let g := set_sweep SwRoot g in                   (* Sweep everything (preserving it). *)
               let g := set_weak [] (set_grayagain [] (set_gray [] g)) in
               set_sweepstr 0 (set_state GCSsweepstring g)      (* Fast forward to the sweep phase. *)
           | _ => g
           end in
  match step_while n sweeping L g with
  | RDone g _ =>
      let '(g, _, e) := gc_onestep L (set_state GCSpause g) in
      if negb (e =? 0) then RErr g e
      else
        match step_while n not_paused L g with
        | RDone g _ => RDone (set_threshold (u64 (estimate g / 100 * pause g)) g) 0
        | r => r
        end
  | r => r
  end.

(** ** Objects are made and changed *)

(** [uj_obj_new], with the object in place. *)
Definition uj_obj_new (a size : Z) (o : GCobj) (g : gstate) : gstate :=
  let g := uj_mem_alloc size g in
  let g := set_root (a :: root g) g in
  set_heap (<[a := set_marked (curwhite g) o]> (heap g)) g.

Definition UJ_GCO_IMMUTABLE : Z := 0x40.
Definition uj_udata_new (a len env : Z) (g : gstate) : gstate :=
  let g := uj_mem_alloc (32 + len) g in
  let o := OUdata (Z.lor (curwhite g) UJ_GCO_IMMUTABLE) (MkUd None env len) in
  let g := set_heap (<[a := o]> (heap g)) g in
  let g := set_root (insert_after (mainthref g) a (root g)) g in
  set_udatanum (udatanum g + 1) g.

Definition uj_upval_new_closed_empty (a : Z) (g : gstate) : gstate :=
  uj_obj_new a sizeof_GCupval (OUpval 0 (UvClosed TNil)) g.

(** The position of the open upvalue of a slot in the sorted list, or where it is inserted. *)
Fixpoint upval_search (g : gstate) (slot : nat) (before l : list Z) : list Z * option Z * list Z :=
  match l with
  | [] => (before, None, [])
  | a :: l' =>
      match heap g !! a with
      | Some (OUpval _ (UvOpen _ i)) =>
          if (slot <=? i)%nat then
            if (i =? slot)%nat then (before, Some a, l') else upval_search g slot (before ++ [a]) l'
          else (before, None, l)
      | _ => (before, None, l)
      end
  end.

(** The open upvalue of a slot, resurrected if it is dead; a new one is made at the address [fresh]. *)
Definition uj_upval_find (th : Z) (slot : nat) (fresh : Z) (g : gstate) : gstate * Z :=
  match heap g !! th with
  | Some (OThread _ L) =>
      match upval_search g slot [] (openupval L) with
      | (_, Some a, _) => (if at_ (isdead g) g a then upd a flipwhite g else g, a)
      | (before, None, l) =>
          let g := uj_mem_alloc sizeof_GCupval g in
          let g := set_heap (<[fresh := OUpval (curwhite g) (UvOpen th slot)]> (heap g)) g in
          let g := upd th (set_openupval (before ++ fresh :: l)) g in
          (set_uvhead (fresh :: uvhead g) g, fresh)
      end
  | _ => (g, 0)
  end.

End Sweep.

End GcSweep.
