(* ===== verification/GcApi.v ===== *)
(** * Stores into objects, with their barriers

    The setters of uj_capi.c that change references of objects, with the objects in place of the
    stack indices, and the store into an upvalue of the interpreter (BC_USETV). *)

From stdpp Require Import base decidable list numbers option sets gmap.
From Stdlib Require Import ZArith Lia.
From S2P Require Import Prelude Obj Tab GcObj Gc GcSweep.

Local Open Scope Z_scope.
Import Obj GcObj Gc GcSweep.

Module GcApi.

Definition uj_obj_is_immutable (o : GCobj) : bool := has (marked o) UJ_GCO_IMMUTABLE.

Definition set_metatable (mt : option Z) (o : GCobj) : GCobj :=
  match o with
  | OTab t => OTab (Tab.MkTab (Tab.marked t) (Tab.nomm t) (Tab.colo t) mt (Tab.array t) (Tab.node t) (Tab.hmask t) (Tab.freetop t))
  | OUdata m ud => OUdata m (MkUd mt (ud_env ud) (ud_len ud))
  | _ => o
  end.

(** [lua_setmetatable] of a table or userdata; [None] is the error of an immutable table. *)
Definition lua_setmetatable (a : Z) (mt : option Z) (g : gstate) : option gstate :=
  match heap g !! a with
  | Some (OTab _ as o) =>
      if uj_obj_is_immutable o then None
      else
        let g := upd a (set_metatable mt) g in
        Some (match mt with Some m => lj_gc_objbarriert a m g | None => g end)
  | Some (OUdata _ _) =>
      let g := upd a (set_metatable mt) g in
      Some (match mt with Some m => lj_gc_objbarrier a m g | None => g end)
  | _ => Some g
  end.

Definition set_env (t : Z) (o : GCobj) : GCobj :=
  match o with
  | OFunc m (FnL _ pt uvptr) => OFunc m (FnL t pt uvptr)
  | OFunc m (FnC _ upvalue) => OFunc m (FnC t upvalue)
  | OUdata m ud => OUdata m (MkUd (ud_metatable ud) t (ud_len ud))
  | OThread m L => OThread m (MkTh (stack L) (base L) (top L) (maxstack L) (openupval L) t)
  | _ => o
  end.

(** The environment [t] of a function, userdata or thread; the result of the call. *)
Definition lua_setfenv (a t : Z) (g : gstate) : gstate * Z :=
  match heap g !! a with
  | Some (OFunc _ _) | Some (OUdata _ _) | Some (OThread _ _) =>
      (lj_gc_objbarrier a t (upd a (set_env t) g), 1)
  | _ => (g, 0)
  end.

Definition set_uvptr (n : nat) (uv : Z) (o : GCobj) : GCobj :=
  match o with
  | OFunc m (FnL env pt uvptr) => OFunc m (FnL env pt (<[n := uv]> uvptr))
  | _ => o
  end.

Definition func_uv (g : gstate) (fn : Z) (n : nat) : option Z :=
  match heap g !! fn with Some (OFunc _ (FnL _ _ uvptr)) => uvptr !! n | _ => None end.

(** Indices of upvalues start with 1. *)
Definition lua_upvaluejoin (fn1 n1 fn2 n2 : Z) (g : gstate) : gstate :=
  match func_uv g fn1 (Z.to_nat (n1 - 1)), func_uv g fn2 (Z.to_nat (n2 - 1)) with
  | Some _, Some uv => lj_gc_objbarrier fn1 uv (upd fn1 (set_uvptr (Z.to_nat (n1 - 1)) uv) g)
  | _, _ => g
  end.

(** Where an upvalue of a function is: an upvalue object or a slot of a C function. *)
Inductive uvaddr := UvObj (uv : Z) | UvC (fn : Z) (n : nat).

Definition capi_uv (fn n : Z) (g : gstate) : option uvaddr :=
  let uv := u32 (n - 1) in
  match heap g !! fn with
  | Some (OFunc _ (FnL _ _ uvptr)) =>
      if uv <? Z.of_nat (length uvptr) then UvObj <$> uvptr !! Z.to_nat uv else None
  | Some (OFunc _ (FnC _ upvalue)) =>
      if uv <? Z.of_nat (length upvalue) then Some (UvC fn (Z.to_nat uv)) else None
  | _ => None
  end.

Definition set_upvalue (n : nat) (tv : TValue) (o : GCobj) : GCobj :=
  match o with
  | OFunc m (FnC env upvalue) => OFunc m (FnC env (<[n := tv]> upvalue))
  | _ => o
  end.
Definition set_slot (i : nat) (tv : TValue) (o : GCobj) : GCobj :=
  match o with
  | OThread m L => OThread m (MkTh (<[i := SV tv]> (stack L)) (base L) (top L) (maxstack L) (openupval L) (th_env L))
  | _ => o
  end.

(** [copyTV(L, uvval(uv), tv)] *)
Definition uv_store (a : Z) (tv : TValue) (g : gstate) : gstate :=
  match heap g !! a with
  | Some (OUpval _ (UvClosed _)) => upd a (set_uv (UvClosed tv)) g
  | Some (OUpval _ (UvOpen th i)) => upd th (set_slot i tv) g
  | _ => g
  end.

Definition lua_setupvalue (fn n : Z) (tv : TValue) (g : gstate) : gstate :=
  match capi_uv fn n g with
  | Some (UvObj uv) => lj_gc_barrier fn tv (uv_store uv tv g)
  | Some (UvC fn i) => lj_gc_barrier fn tv (upd fn (set_upvalue i tv) g)
  | None => g
  end.

(** [BC_USETV]: a closed upvalue that is black, and a white value. *)
Definition bc_usetv (uv : Z) (tv : TValue) (g : gstate) : gstate :=
  let g := uv_store uv tv g in
  match heap g !! uv with
  | Some (OUpval _ (UvClosed _) as o) =>
      if isblack o && tviswhite g tv then lj_gc_barrieruv uv tv g else g
  | _ => g
  end.

End GcApi.
