(* ===== verification/GcInv.v ===== *)
(** * What the collector keeps: edges of the heap and the invariant of marking

    [kids] are the objects that the traversal of an object marks.  [hle g g'] says that marking led
    from [g] to [g']: objects keep type and contents, up to marks, the cache of absent metamethods
    and stack slots that are given up, and none becomes white.  [settled] is what a traversed object
    has, [closed] says that every object that is not white is settled, but for the gray list and the
    exceptions [X]. *)

From stdpp Require Import base decidable list numbers option sets gmap.
From Stdlib Require Import ZArith Lia.
From S2P Require Import Prelude Obj Tab Bc Ir GcObj Gc.

Local Open Scope Z_scope.
Import Obj GcObj Gc.

Module GcInv.

(** ** Marks *)

Lemma has_lor m c b : has (Z.lor m c) b = has m b || has c b.
Proof.
  unfold has. rewrite Z.land_lor_distr_l.
  destruct (Z.eqb_spec (Z.lor (Z.land m b) (Z.land c b)) 0) as [E|E].
  - apply Z.lor_eq_0_iff in E as [-> ->]. done.
  - destruct (Z.eqb_spec (Z.land m b) 0) as [E1|], (Z.eqb_spec (Z.land c b) 0) as [E2|]; try done.
    by rewrite E1, E2 in E.
Qed.

Lemma has_clr m c b : has (clr m c) b = has m (Z.land (u8 (Z.lnot c)) b).
Proof. unfold has, clr. by rewrite Z.land_assoc. Qed.

Lemma has_0 m : has m 0 = false.
Proof. unfold has. by rewrite Z.land_0_r. Qed.

Lemma has_land m c b : has (Z.land m c) b = has m (Z.land c b).
Proof. unfold has. by rewrite Z.land_assoc. Qed.

Lemma marked_set m o : marked (set_marked m o) = m.
Proof. by destruct o. Qed.
Lemma set_marked_2 m m' o : set_marked m (set_marked m' o) = set_marked m o.
Proof. by destruct o. Qed.
Lemma gct_set m o : gct (set_marked m o) = gct o.
Proof. by destruct o. Qed.

(** What the bits of a mark are after the operations on colours. *)
Ltac bits :=
  unfold iswhite, isblack, isgray, white2gray, gray2black, black2gray, makewhite, markfinalized, flipwhite in *;
  rewrite ?marked_set, ?has_lor, ?has_clr in *.

Lemma white_w2g o : iswhite (white2gray o) = false.
Proof. bits. apply has_0. Qed.
Lemma white_g2b o : iswhite (gray2black o) = iswhite o.
Proof. bits. apply orb_false_r. Qed.
Lemma white_b2g o : iswhite (black2gray o) = iswhite o.
Proof. by bits. Qed.
Lemma black_w2g o : isblack (white2gray o) = isblack o.
Proof. by bits. Qed.
Lemma black_g2b o : isblack (gray2black o) = true.
Proof. bits. apply orb_true_r. Qed.
Lemma black_b2g o : isblack (black2gray o) = false.
Proof. bits. apply has_0. Qed.

Lemma gray_iff o : isgray o = negb (isblack o) && negb (iswhite o).
Proof.
  unfold isgray, isblack, iswhite, has. rewrite Z.land_lor_distr_r.
  destruct (Z.eqb_spec (Z.lor (Z.land (marked o) LJ_GC_BLACK) (Z.land (marked o) LJ_GC_WHITES)) 0) as [E|E].
  - apply Z.lor_eq_0_iff in E as [-> ->]. done.
  - destruct (Z.eqb_spec (Z.land (marked o) LJ_GC_BLACK) 0) as [E1|],
      (Z.eqb_spec (Z.land (marked o) LJ_GC_WHITES) 0) as [E2|]; try done. by rewrite E1, E2 in E.
Qed.

Lemma land_white m c : Z.land c LJ_GC_WHITES = 0 → Z.land (Z.lor m c) LJ_GC_WHITES = Z.land m LJ_GC_WHITES.
Proof. intros Hc. by rewrite Z.land_lor_distr_l, Hc, Z.lor_0_r. Qed.
Lemma clr_white m c : Z.land (u8 (Z.lnot c)) LJ_GC_WHITES = LJ_GC_WHITES → Z.land (clr m c) LJ_GC_WHITES = Z.land m LJ_GC_WHITES.
Proof. intros Hc. unfold clr. by rewrite <-Z.land_assoc, Hc. Qed.

(** ** Edges *)

Lemma elem_of_concat {A} (f : A → list Z) l b : b ∈ concat (f <$> l) ↔ ∃ x, x ∈ l ∧ b ∈ f x.
Proof.
  induction l as [|x l IH]; simpl.
  - split; [intros []%elem_of_nil|intros (? & []%elem_of_nil & _)].
  - rewrite elem_of_app, IH. split.
    + intros [?|(y & ? & ?)]; [exists x|exists y]; (split; [|done]); [by left|by right].
    + intros (y & [->|?]%elem_of_cons & ?); [by left|right; eauto].
Qed.

Definition tvaddr (tv : TValue) : list Z := match tv with TGCV _ a => [a] | _ => [] end.
Definition tvaddrs (l : list TValue) : list Z := concat (tvaddr <$> l).

Definition node_kids (w : Z) (n : Tab.Node) : list Z :=
  if tvisnil (Tab.val n) then []
  else (if has w LJ_GC_WEAKKEY then [] else tvaddr (Tab.key n)) ++
       (if has w LJ_GC_WEAKVAL then [] else tvaddr (Tab.val n)).

(** What the traversal of a table with the mode [w] marks. *)
Definition tab_kids (w : Z) (t : Tab.GCtab) : list Z :=
  option_list (Tab.metatable t) ++
  (if has w LJ_GC_WEAKVAL then [] else tvaddrs (Tab.array t)) ++
  (if 0 <? Tab.hmask t then concat (node_kids w <$> Tab.node t) else []).

Definition slot_addr (s : slot) : list Z := match s with SV tv => tvaddr tv | _ => [] end.

Definition frame_kids (th : Z) (L : lua_State) (frame top : Z) : list Z :=
  match stack L !! Z.to_nat frame with
  | Some (SF func _) => if func =? th then [] else [func]
  | _ => []
  end ++ concat (slot_addr <$> slots L frame top).

Fixpoint stack_kids (n : nat) (th : Z) (L : lua_State) (frame top : Z) : list Z :=
  match n with
  | O => []
  | S n =>
      frame_kids th L frame top ++
      (if frame <=? 0 then []
       else match stack L !! Z.to_nat frame with
            | Some (SF _ tp) => stack_kids n th L (frame_prev frame tp) (if frame_iscont tp then frame - 1 else frame)
            | _ => []
            end)
  end.

Definition thread_kids (th : Z) (L : lua_State) : list Z :=
  stack_kids (length (stack L)) th L (base L - 1) (top L) ++ [th_env L].

Definition trace_if (g : gstate) (no : Z) : list Z := if no =? 0 then [] else [traceref g no].

Definition kgc_addr (ir : Ir.IRIns) : list Z := if Ir.opeq (Ir.io ir) Ir.IR_KGC then [Ir.ii ir] else [].

Definition trace_kids (g : gstate) (T : GCtrace) : list Z :=
  if traceno T =? 0 then []
  else concat (kgc_addr <$> kcells T) ++
       trace_if g (link T) ++ trace_if g (nextroot T) ++ trace_if g (nextside T) ++ [startpt T].

Definition func_kids (fn : GCfunc) : list Z :=
  match fn with
  | FnL env pt uvptr => env :: pt :: uvptr
  | FnC env upvalue => env :: tvaddrs upvalue
  end.

Definition proto_kids (g : gstate) (pt : GCproto) : list Z :=
  chunkname pt :: kgc pt ++ trace_if g (pt_trace pt).

(** The objects that [o] refers to; a table with the mode [w]. *)
Definition kids_w (g : gstate) (w a : Z) (o : GCobj) : list Z :=
  match o with
  | OStr _ _ | OCdata _ _ => []
  | OUpval _ uv => tvaddr (uvval g uv)
  | OThread _ L => thread_kids a L
  | OProto _ pt => proto_kids g pt
  | OFunc _ fn => func_kids fn
  | OTrace _ T => trace_kids g T
  | OTab t => tab_kids w t
  | OUdata _ ud => option_list (ud_metatable ud) ++ [ud_env ud]
  end.

Section Inv.
Context `{OH : ObjHeap}.

(** The mode of a table, as [gc_traverse_tab] finds it. *)
Definition mode_entry (g : gstate) (t : Tab.GCtab) : option TValue :=
  Tab.deref t (Tab.lj_tab_getstr t (uj_meta_name g MM_mode)).

Definition tab_mode (g : gstate) (a : Z) (t : Tab.GCtab) : Z :=
  match (uj_meta_lookup_mt (Tab.metatable t) MM_mode g).1 with
  | Some (TGCV GT_STR s) =>
      let w := mode_bits (strdata g s) 0 in
      if w =? 0 then 0
      else if negb (finalizer g =? 0) && (finalizer g =? a) then Z.lnot LJ_GC_WEAKVAL
      else w
  | _ => 0
  end.

(** Strong references. *)
Definition kids (g : gstate) (a : Z) (o : GCobj) : list Z :=
  kids_w g (match o with OTab t => tab_mode g a t | _ => 0 end) a o.

Definition edge (g : gstate) (a b : Z) : Prop := ∃ o, heap g !! a = Some o ∧ b ∈ kids g a o.

(** ** Progress of marking *)

Definition th_like (L L' : lua_State) : Prop :=
  base L' = base L ∧ top L' = top L ∧ openupval L' = openupval L ∧ th_env L' = th_env L ∧
  (length (stack L') ≤ length (stack L))%nat ∧
  ∀ i s, stack L' !! i = Some s → s = SV TNil ∨ stack L !! i = Some s.

Definition tab_like (g : gstate) (t t' : Tab.GCtab) : Prop :=
  t' = Tab.set_nomm (Tab.nomm t') (Tab.set_marked (Tab.marked t') t) ∧
  (has (Tab.nomm t) 8 = true → has (Tab.nomm t') 8 = true) ∧
  (has (Tab.nomm t') 8 = true → has (Tab.nomm t) 8 = true ∨ mode_entry g t = Some TNil).

Definition olike (g : gstate) (o o' : GCobj) : Prop :=
  match o, o' with
  | OStr _ x, OStr _ x' => x' = x
  | OUpval _ x, OUpval _ x' => x' = x
  | OThread _ x, OThread _ x' => th_like x x'
  | OProto _ x, OProto _ x' => x' = x
  | OFunc _ x, OFunc _ x' => x' = x
  | OTrace _ x, OTrace _ x' => x' = x
  | OCdata _ x, OCdata _ x' => x' = x
  | OTab t, OTab t' => tab_like g t t'
  | OUdata _ x, OUdata _ x' => x' = x
  | _, _ => False
  end.

(** The objects that are put on the gray list. *)
Definition listed (o : GCobj) : bool :=
  match o with OTab _ | OFunc _ _ | OProto _ _ | OThread _ _ | OTrace _ _ => true | _ => false end.

(** The objects whose black mark is set by their own traversal only; open upvalues are never black. *)
Definition uv_open (o : GCobj) : bool := match o with OUpval _ uv => negb (uv_closed uv) | _ => false end.
Definition isthread (o : GCobj) : bool := match o with OThread _ _ => true | _ => false end.
Definition keeps (o : GCobj) : bool := listed o || uv_open o.

(** Open upvalues and threads are never black. *)
Definition never (o : GCobj) : bool := uv_open o || isthread o.

(** Userdata and closed upvalues are never gray. *)
Definition sat (o : GCobj) : bool := match o with OUdata _ _ => true | OUpval _ uv => uv_closed uv | _ => false end.
Definition wb (o : GCobj) : bool := iswhite o || isblack o.

Record orel (g : gstate) (o o' : GCobj) : Prop := {
  or_like : olike g o o';
  or_seal : uj_obj_is_sealed o' = uj_obj_is_sealed o;
  or_white : iswhite o' = true → iswhite o = true;
  or_bits : iswhite o' = true → Z.land (marked o') LJ_GC_WHITES = Z.land (marked o) LJ_GC_WHITES }.

(** All but the heap, the lists and the memory in use. *)
Definition env_eq (g g' : gstate) : Prop :=
  g' = set_heap (heap g') (set_gray (gray g') (set_grayagain (grayagain g') (set_weak (weak g') (set_total (total g') g)))).

Record hle (g g' : gstate) : Prop := {
  h_env : env_eq g g';
  h_obj a : option_Forall2 (orel g) (heap g !! a) (heap g' !! a) }.

Lemma env_refl g : env_eq g g.
Proof. by destruct g. Qed.
Lemma env_trans g1 g2 g3 : env_eq g1 g2 → env_eq g2 g3 → env_eq g1 g3.
Proof. unfold env_eq. intros E1 ->. rewrite E1. done. Qed.

Lemma mode_entry_env g g' t : env_eq g g' → mode_entry g' t = mode_entry g t.
Proof. unfold env_eq. by intros ->. Qed.

Lemma mode_entry_like g t t' : tab_like g t t' → mode_entry g t' = mode_entry g t.
Proof. intros [-> _]. done. Qed.

Lemma th_like_refl L : th_like L L.
Proof. unfold th_like. split_and!; auto. Qed.
Lemma th_like_trans L1 L2 L3 : th_like L1 L2 → th_like L2 L3 → th_like L1 L3.
Proof.
  intros (? & ? & ? & ? & ? & HL1) (? & ? & ? & ? & ? & HL2). unfold th_like. split_and!; try congruence; [lia|].
  intros i s Hi. destruct (HL2 i s Hi) as [?|Hi2]; [by left|]. by apply HL1.
Qed.

Lemma tab_like_refl g t : tab_like g t t.
Proof. split; [by destruct t|auto]. Qed.
Lemma tab_like_trans g t1 t2 t3 : tab_like g t1 t2 → tab_like g t2 t3 → tab_like g t1 t3.
Proof.
  intros T1 [E2 [N2 N2']]. pose proof (mode_entry_like _ _ _ T1) as Em. destruct T1 as [E1 [N1 N1']]. split.
  - rewrite E2, E1. done.
  - split; [auto|]. intros Hn. destruct (N2' Hn) as [?|?]; [auto|right; congruence].
Qed.

Lemma olike_refl g o : olike g o o.
Proof. destruct o; simpl; auto using th_like_refl, tab_like_refl. Qed.
Lemma olike_trans g o1 o2 o3 : olike g o1 o2 → olike g o2 o3 → olike g o1 o3.
Proof.
  destruct o1, o2; try done; destruct o3; try done; simpl;
    eauto using th_like_trans, tab_like_trans; congruence.
Qed.
Lemma olike_env g g' o o' : env_eq g g' → olike g' o o' → olike g o o'.
Proof.
  intros E. destruct o, o'; try done. simpl. unfold tab_like. by rewrite (mode_entry_env _ _ _ E).
Qed.

Lemma orel_refl g o : orel g o o.
Proof. split; auto using olike_refl. Qed.
Lemma orel_trans g o1 o2 o3 : orel g o1 o2 → orel g o2 o3 → orel g o1 o3.
Proof.
  intros [? ? ? B1] [? ? ? B2]. split; [by eapply olike_trans|congruence|auto|]. intros Hw. rewrite B2, B1; auto.
Qed.
Lemma orel_env g g' o o' : env_eq g g' → orel g' o o' → orel g o o'.
Proof. intros E []. split; [by eapply olike_env|done..]. Qed.

Lemma hle_refl g : hle g g.
Proof. split; [apply env_refl|]. intros a. destruct (heap g !! a); constructor. apply orel_refl. Qed.
Lemma hle_trans g1 g2 g3 : hle g1 g2 → hle g2 g3 → hle g1 g3.
Proof.
  intros [E1 O1] [E2 O2]. split; [by eapply env_trans|]. intros a.
  specialize (O1 a). specialize (O2 a). inversion O1 as [x y Hxy E3 E4|E3 E4]; rewrite <-E4 in O2.
  - inversion O2 as [x' y' Hxy' E5 E6|]; subst. constructor.
    eapply orel_trans; [done|by eapply orel_env].
  - inversion O2; subst. constructor.
Qed.

#[export] Instance hle_preorder : PreOrder hle.
Proof. split; [exact hle_refl|exact hle_trans]. Qed.

Lemma hle_Some g g' a o : hle g g' → heap g !! a = Some o → ∃ o', heap g' !! a = Some o' ∧ orel g o o'.
Proof. intros [_ O] E. specialize (O a). rewrite E in O. inversion O; subst. eauto. Qed.
Lemma hle_Some_r g g' a o' : hle g g' → heap g' !! a = Some o' → ∃ o, heap g !! a = Some o ∧ orel g o o'.
Proof. intros [_ O] E. specialize (O a). rewrite E in O. inversion O; subst. eauto. Qed.

(** ** Edges do not grow *)

Lemma slots_sub L L' frame top : th_like L L' →
  ∀ s, s ∈ slots L' frame top → s = SV TNil ∨ s ∈ slots L frame top.
Proof.
  intros (_ & _ & _ & _ & _ & HL) s (i & Hi)%list_elem_of_lookup.
  unfold slots in *. rewrite lookup_take_Some, lookup_drop in Hi. destruct Hi as [Hi Hlt].
  destruct (HL _ _ Hi) as [?|Hi']; [by left|right]. apply list_elem_of_lookup. exists i.
  rewrite lookup_take_Some, lookup_drop. done.
Qed.

Lemma frame_kids_sub th L L' frame top : th_like L L' → frame_kids th L' frame top ⊆ frame_kids th L frame top.
Proof.
  intros T b Hb. unfold frame_kids in *. apply elem_of_app in Hb as [Hb|Hb]; apply elem_of_app.
  - left. destruct (stack L' !! Z.to_nat frame) as [s|] eqn:E; [|by apply elem_of_nil in Hb].
    destruct T as (_ & _ & _ & _ & _ & HL). destruct (HL _ _ E) as [->|E']; [by apply elem_of_nil in Hb|by rewrite E'].
  - right. apply elem_of_concat in Hb as (s & Hs & Hb). apply elem_of_concat.
    destruct (slots_sub _ _ _ _ T s Hs) as [->|Hs']; [by apply elem_of_nil in Hb|eauto].
Qed.

Lemma stack_kids_sub n n' th L L' frame top :
  th_like L L' → (n' ≤ n)%nat → stack_kids n' th L' frame top ⊆ stack_kids n th L frame top.
Proof.
  intros T. revert n frame top. induction n' as [|n' IH]; intros n frame top Hn; [intros ? []%elem_of_nil|].
  destruct n as [|n]; [lia|]. simpl. apply list_subseteq_app_iff_l. split.
  - apply list_subseteq_app_l. by apply frame_kids_sub.
  - apply list_subseteq_app_r. destruct (frame <=? 0); [done|].
    destruct (stack L' !! Z.to_nat frame) as [s|] eqn:E; [|apply list_subseteq_nil].
    destruct T as (? & ? & ? & ? & ? & HL). destruct (HL _ _ E) as [->|E']; [apply list_subseteq_nil|].
    rewrite E'. destruct s; [apply list_subseteq_nil| |apply list_subseteq_nil]. apply IH. lia.
Qed.

Lemma thread_kids_sub th L L' : th_like L L' → thread_kids th L' ⊆ thread_kids th L.
Proof.
  intros T. unfold thread_kids. pose proof T as (-> & -> & _ & -> & Hl & _).
  apply list_subseteq_app_iff_l. split; [apply list_subseteq_app_l; by apply stack_kids_sub|by apply list_subseteq_app_r].
Qed.

Lemma uvval_sub g g' uv : hle g g' → uvval g' uv = TNil ∨ uvval g' uv = uvval g uv.
Proof.
  intros L. destruct uv as [th i|tv]; [|by right]. simpl.
  destruct (heap g' !! th) as [o'|] eqn:E; [|by left].
  destruct (hle_Some_r _ _ _ _ L E) as (o & -> & [Ho _ _]).
  destruct o', o; try done; try (by left). simpl in Ho. destruct Ho as (_ & _ & _ & _ & _ & HL).
  destruct (stack L0 !! i) as [s|] eqn:Es; [|by left].
  destruct (HL _ _ Es) as [->| ->]; [by left|by right].
Qed.

Lemma env_trace g g' : env_eq g g' → trace g' = trace g.
Proof. unfold env_eq. by intros ->. Qed.

Lemma kids_w_sub g g' w a o o' : hle g g' → olike g o o' → kids_w g' w a o' ⊆ kids_w g w a o.
Proof.
  intros L Ho. pose proof (env_trace _ _ (h_env _ _ L)) as Et.
  destruct o, o'; try done; simpl in *; subst; try done.
  - destruct (uvval_sub g g' uv L) as [->| ->]; [apply list_subseteq_nil|done].
  - by apply thread_kids_sub.
  - unfold proto_kids, trace_if, traceref. by rewrite Et.
  - unfold trace_kids, trace_if, traceref. by rewrite Et.
  - destruct Ho as [-> _]. done.
Qed.

Lemma strdata_like g g' s : hle g g' → strdata g' s = strdata g s.
Proof.
  intros L. unfold strdata. destruct (heap g !! s) as [o|] eqn:E.
  - destruct (hle_Some _ _ _ _ L E) as (o' & -> & [Ho _ _]). by destruct o, o'.
  - destruct (heap g' !! s) as [o'|] eqn:E'; [|done].
    destruct (hle_Some_r _ _ _ _ L E') as (? & ? & _). congruence.
Qed.

Lemma lookup_mode_like g g' mt : hle g g' →
  (uj_meta_lookup_mt mt MM_mode g').1 = (uj_meta_lookup_mt mt MM_mode g).1.
Proof.
  intros L. destruct mt as [a|]; [|done]. unfold uj_meta_lookup_mt.
  destruct (heap g !! a) as [o|] eqn:E.
  2:{ destruct (heap g' !! a) as [o'|] eqn:E'; [|done].
      destruct (hle_Some_r _ _ _ _ L E') as (? & ? & _). congruence. }
  destruct (hle_Some _ _ _ _ L E) as (o' & -> & [Ho _ _]). destruct o, o'; try done.
  simpl in Ho. fold (mode_entry g' t0) (mode_entry g t).
  rewrite (mode_entry_env g g' t0 (h_env _ _ L)), (mode_entry_like _ _ _ Ho).
  change (2 ^ Z.of_nat MM_mode) with 8. destruct Ho as (_ & N1 & N2).
  destruct (has (Tab.nomm t0) 8) eqn:E1, (has (Tab.nomm t) 8) eqn:E2; try done.
  - destruct (N2 eq_refl) as [?| ->]; done.
  - by specialize (N1 eq_refl).
  - destruct (mode_entry g t) as [v|]; [|done]. by destruct (tvisnil v).
Qed.

Lemma env_fin g g' : env_eq g g' → finalizer g' = finalizer g.
Proof. unfold env_eq. by intros ->. Qed.

Lemma tab_mode_like g g' a t t' : hle g g' → tab_like g t t' → tab_mode g' a t' = tab_mode g a t.
Proof.
  intros L [-> _]. unfold tab_mode. cbn [Tab.metatable Tab.set_nomm Tab.set_marked].
  rewrite (lookup_mode_like g g' _ L), (env_fin _ _ (h_env _ _ L)).
  destruct (uj_meta_lookup_mt _ _ g).1 as [[| | |[] s|]|]; try done. by rewrite (strdata_like g g').
Qed.

Lemma kids_sub g g' a o o' : hle g g' → olike g o o' → kids g' a o' ⊆ kids g a o.
Proof.
  intros L Ho. unfold kids. destruct o, o'; try done; try (by apply kids_w_sub).
  rewrite (tab_mode_like g g' a t t0 L Ho). by apply kids_w_sub.
Qed.

Lemma edge_sub g g' a b : hle g g' → edge g' a b → edge g a b.
Proof.
  intros L (o' & E & Hb). destruct (hle_Some_r _ _ _ _ L E) as (o & E1 & [Ho _ _]).
  exists o. split; [done|]. by apply (kids_sub g g' a o o').
Qed.

(** ** Closed sets *)

(** White, and not sealed: what a sweep may free. *)
Definition wh (g : gstate) (a : Z) : bool := at_ (λ o, iswhite o && negb (uj_obj_is_sealed o)) g a.

Lemma wh_mono g g' a : hle g g' → wh g a = false → wh g' a = false.
Proof.
  intros L. unfold wh, at_. destruct (heap g' !! a) as [o'|] eqn:E'; [|done].
  destruct (hle_Some_r _ _ _ _ L E') as (o & -> & [_ Hs Hw]). rewrite Hs.
  destruct (iswhite o'); [|done]. by rewrite Hw.
Qed.

(** The mode with which a table was traversed. *)
Definition mode_ok (g : gstate) (a w : Z) (o : GCobj) : Prop :=
  match o with
  | OTab t =>
      w = 0 ∨ (finalizer g = a ∧ w = Z.lnot LJ_GC_WEAKVAL) ∨
      (a ∈ weak g ∧ (has w LJ_GC_WEAKVAL = true → has (Tab.marked t) LJ_GC_WEAKVAL = true))
  | _ => w = 0
  end.

Definition settled (g : gstate) (a : Z) (o : GCobj) : Prop :=
  ∃ w, mode_ok g a w o ∧ ∀ b, b ∈ kids_w g w a o → wh g b = false.

Definition closed (g : gstate) (X : Z → Prop) : Prop :=
  ∀ a o, heap g !! a = Some o → iswhite o = false → uj_obj_is_sealed o = false → a ∉ gray g → ¬ X a →
    settled g a o.

(** The mark of a table whose values are weak stays. *)
Definition wbit (g g' : gstate) (a : Z) : Prop :=
  ∀ t t', heap g !! a = Some (OTab t) → heap g' !! a = Some (OTab t') →
    has (Tab.marked t) LJ_GC_WEAKVAL = true → has (Tab.marked t') LJ_GC_WEAKVAL = true.

Lemma settled_mono g g' a o o' :
  hle g g' → (a ∈ weak g → a ∈ weak g') → wbit g g' a →
  heap g !! a = Some o → heap g' !! a = Some o' → settled g a o → settled g' a o'.
Proof.
  intros L Hw Hb E E' (w & Hm & Hk).
  assert (olike g o o') as Ho.
  { destruct (hle_Some _ _ _ _ L E) as (? & E2 & [? _ _]). congruence. }
  exists w. split.
  - unfold mode_ok in *. destruct o, o'; try done. rewrite (env_fin _ _ (h_env _ _ L)).
    destruct Hm as [?|[?|[? Hv]]]; [by left|by right; left|right; right]. split; [auto|].
    intros Hwv. by eapply Hb; [..|apply Hv].
  - intros b Hb'. apply (wh_mono g g'); [done|]. apply Hk. by apply (kids_w_sub g g' w a o o').
Qed.

Lemma closed_step g g' X X' :
  hle g g' → closed g X → weak g ⊆ weak g' →
  (∀ a o o', heap g !! a = Some o → heap g' !! a = Some o' →
     iswhite o' = false → uj_obj_is_sealed o' = false → a ∉ gray g' → ¬ X' a →
     (iswhite o = false ∧ a ∉ gray g ∧ ¬ X a ∧ wbit g g' a) ∨ settled g' a o') →
  closed g' X'.
Proof.
  intros L C Hw HS a o' E' Ho Hs Hg Hx.
  destruct (hle_Some_r _ _ _ _ L E') as (o & E & [Hl Hse _]).
  destruct (HS a o o' E E' Ho Hs Hg Hx) as [(? & ? & ? & ?)|?]; [|done].
  eapply settled_mono; [done|apply Hw|done..|]. apply C; auto. congruence.
Qed.

End Inv.

End GcInv.
