(* ===== verification/GcMark.v ===== *)
(** * Marking: what [gc_mark] and the loops over it do

    [mle g g'] is [hle] for functions that only mark: nothing is taken from the gray list, and what
    is put there was white.  [marks_spec] is about marking a list of objects; the traversals of
    [Gc.v] are such lists ([GcTraverse.v]). *)

From stdpp Require Import base decidable list numbers option sets gmap.
From Stdlib Require Import ZArith Lia.
From S2P Require Import Prelude Obj Tab Bc Ir GcObj Gc GcInv.

Local Open Scope Z_scope.
Import Obj GcObj Gc GcInv.

Module GcMark.

Section Mark.
Context `{OH : ObjHeap}.

(** ** Typing *)

(** [n] nested calls of [gc_mark] are enough. *)
Fixpoint fits (n : nat) (g : gstate) (a : Z) : Prop :=
  match n with
  | O => heap g !! a = None
  | S n =>
      match heap g !! a with
      | Some (OUdata _ ud) => ∀ b, b ∈ option_list (ud_metatable ud) ++ [ud_env ud] → fits n g b
      | Some (OUpval _ uv) => ∀ b, b ∈ tvaddr (uvval g uv) → fits n g b
      | _ => True
      end
  end.

(** Metatables and environments of userdata are tables and values are no upvalues; traces are
    found under their numbers and chunk names are strings. *)
Record gtyped (g : gstate) : Prop := {
  gt_fits a : fits MARK_DEPTH g a;
  gt_trace no o : no ≠ 0 → heap g !! traceref g no = Some o → gct o = GT_TRACE ∧ uj_obj_is_sealed o = false;
  gt_name a m pt o : heap g !! a = Some (OProto m pt) → heap g !! chunkname pt = Some o → gct o = GT_STR }.

Lemma olike_gct g o o' : olike g o o' → gct o' = gct o.
Proof. by destruct o, o'. Qed.
Lemma olike_listed g o o' : olike g o o' → listed o' = listed o.
Proof. by destruct o, o'. Qed.
Lemma olike_keeps g o o' : olike g o o' → keeps o' = keeps o.
Proof. destruct o, o'; try done. simpl. by intros ->. Qed.

Lemma olike_sat g o o' : olike g o o' → sat o' = sat o.
Proof. destruct o, o'; try done. simpl. by intros ->. Qed.

Lemma hle_None g g' a : hle g g' → heap g !! a = None → heap g' !! a = None.
Proof.
  intros L E. destruct (heap g' !! a) eqn:E'; [|done]. destruct (hle_Some_r _ _ _ _ L E') as (? & ? & _). congruence.
Qed.

Lemma depth_mono n g g' a : hle g g' → fits n g a → fits n g' a.
Proof.
  intros L. revert a. induction n as [|n IH]; intros a; simpl; [by apply hle_None|].
  destruct (heap g !! a) as [o|] eqn:E; [|by rewrite (hle_None _ _ _ L E)].
  destruct (hle_Some _ _ _ _ L E) as (o' & -> & [Ho _ _]).
  destruct o, o'; try done; simpl in Ho; subst; intros Hk b Hb; apply IH; apply Hk; [|done].
  destruct (uvval_sub g g' uv L) as [Hu|Hu]; rewrite Hu in Hb; [by apply elem_of_nil in Hb|done].
Qed.

Lemma traceref_env g g' no : env_eq g g' → traceref g' no = traceref g no.
Proof. intros E. unfold traceref. by rewrite (env_trace _ _ E). Qed.

Lemma gtyped_mono g g' : hle g g' → gtyped g → gtyped g'.
Proof.
  intros L [F T N]. split.
  - intros a. by eapply depth_mono.
  - intros no o' Hn E'. rewrite (traceref_env _ _ _ (h_env _ _ L)) in E'.
    destruct (hle_Some_r _ _ _ _ L E') as (o & E & [Ho -> _]). rewrite (olike_gct _ _ _ Ho). by apply (T no).
  - intros a m pt o' E' En'. destruct (hle_Some_r _ _ _ _ L E') as (o & E & [Ho _ _]).
    destruct o; try done. simpl in Ho. subst.
    destruct (hle_Some_r _ _ _ _ L En') as (on & En & [Ho' _ _]). rewrite (olike_gct _ _ _ Ho'). by eapply N.
Qed.

(** ** Functions that only mark *)

(** The objects that were put on the gray list. *)
Definition new_gray (g g' : gstate) (new : list Z) : Prop :=
  NoDup new ∧
  ∀ x, x ∈ new ↔ ∃ o o', heap g !! x = Some o ∧ heap g' !! x = Some o' ∧ listed o = true ∧
    iswhite o = true ∧ iswhite o' = false.

Lemma new_app g1 g2 g3 n1 n2 :
  hle g1 g2 → hle g2 g3 → new_gray g1 g2 n1 → new_gray g2 g3 n2 → new_gray g1 g3 (n2 ++ n1).
Proof.
  intros L1 L2 [D1 H1] [D2 H2]. split.
  - apply NoDup_app. split_and!; [done| |done]. intros x (o2 & o3 & E2 & E3 & _ & W2 & W3)%H2
      (o1 & o2' & E1 & E2' & _ & W1 & W2')%H1. congruence.
  - intros x. rewrite elem_of_app, H1, H2. split.
    + intros [(o2 & o3 & E2 & E3 & Hl & W2 & W3)|(o1 & o2 & E1 & E2 & Hl & W1 & W2)].
      * destruct (hle_Some_r _ _ _ _ L1 E2) as (o1 & E1 & [Ho _ Hw]). exists o1, o3. split_and!; auto.
        by rewrite <-(olike_listed _ _ _ Ho).
      * destruct (hle_Some _ _ _ _ L2 E2) as (o3 & E3 & [Ho _ Hw]). exists o1, o3. split_and!; auto.
        destruct (iswhite o3); [|done]. by rewrite Hw in W2.
    + intros (o1 & o3 & E1 & E3 & Hl & W1 & W3). destruct (hle_Some _ _ _ _ L1 E1) as (o2 & E2 & [Ho _ Hw]).
      destruct (iswhite o2) eqn:W2; [left; exists o2, o3|right; exists o1, o2]; split_and!; auto.
      by rewrite (olike_listed _ _ _ Ho).
Qed.

Lemma new_nil g g' :
  (∀ x o o', heap g !! x = Some o → heap g' !! x = Some o' → listed o = true → iswhite o' = iswhite o) →
  new_gray g g' [].
Proof.
  intros Hw. split; [apply NoDup_nil_2|]. intros x. split; [intros []%elem_of_nil|].
  intros (o & o' & E & E' & Hl & ? & ?). specialize (Hw x o o' E E' Hl). congruence.
Qed.

Record mle (g g' : gstate) : Prop := {
  ml_hle : hle g g';
  ml_lists : grayagain g' = grayagain g ∧ weak g' = weak g ∧ total g' = total g;
  ml_wbit a : wbit g g' a;
  ml_black a o o' : heap g !! a = Some o → heap g' !! a = Some o' → keeps o = true → isblack o' = isblack o;
  ml_gray : ∃ new, gray g' = new ++ gray g ∧ new_gray g g' new }.

Lemma mle_refl g : mle g g.
Proof.
  split; [reflexivity|done| | |].
  - intros a t t' E E'. congruence.
  - intros a o o' E E'. congruence.
  - exists []. split; [done|]. apply new_nil. congruence.
Qed.

Lemma mle_trans g1 g2 g3 : mle g1 g2 → mle g2 g3 → mle g1 g3.
Proof.
  intros M1 M2. pose proof (ml_hle _ _ M1) as L1. pose proof (ml_hle _ _ M2) as L2. split.
  - by transitivity g2.
  - destruct (ml_lists _ _ M1) as (? & ? & ?), (ml_lists _ _ M2) as (? & ? & ?). split_and!; congruence.
  - intros a t t' E E' Hw. destruct (hle_Some _ _ _ _ L1 E) as (o2 & E2 & [Ho _ _]). destruct o2; try done.
    eapply (ml_wbit _ _ M2); [done..|]. by eapply (ml_wbit _ _ M1).
  - intros a o o' E E' Hl. destruct (hle_Some _ _ _ _ L1 E) as (o2 & E2 & [Ho _ _]).
    rewrite (ml_black _ _ M2 a o2 o'); [by apply (ml_black _ _ M1 a)|done..|].
    by rewrite (olike_keeps _ _ _ Ho).
  - destruct (ml_gray _ _ M1) as (n1 & G1 & N1), (ml_gray _ _ M2) as (n2 & G2 & N2).
    exists (n2 ++ n1). rewrite G2, G1, app_assoc. split; [done|]. by eapply new_app.
Qed.

#[export] Instance mle_preorder : PreOrder mle.
Proof. split; [exact mle_refl|exact mle_trans]. Qed.

(** ** Updates of one object *)

Lemma heap_upd a f g b : heap (upd a f g) !! b = if decide (b = a) then f <$> heap g !! a else heap g !! b.
Proof. simpl. destruct (decide (b = a)) as [->|]; [by rewrite lookup_alter_eq|by rewrite lookup_alter_ne]. Qed.

Lemma env_upd a f g : env_eq g (upd a f g).
Proof. by destruct g. Qed.

Lemma hle_upd a f g : (∀ o, heap g !! a = Some o → orel g o (f o)) → hle g (upd a f g).
Proof.
  intros Hf. split; [apply env_upd|]. intros b. rewrite heap_upd. destruct (decide (b = a)) as [->|].
  - destruct (heap g !! a) as [o|]; constructor. by apply Hf.
  - destruct (heap g !! b); constructor. apply orel_refl.
Qed.

Lemma like_marked g m o : olike g o (set_marked m o).
Proof. destruct o; simpl; try done; [apply th_like_refl|]. split; [by destruct t|auto]. Qed.

(** Colours and the other marks are different bits. *)
Lemma sealed_bits m o : has m UJ_GCO_SEALED = has (marked o) UJ_GCO_SEALED → uj_obj_is_sealed (set_marked m o) = uj_obj_is_sealed o.
Proof. by destruct o. Qed.

(** An object that is never on the gray list. *)
Definition loose (f : GCobj → GCobj) (o : GCobj) : Prop :=
  listed o = false ∧ (uv_open o = true → isblack (f o) = isblack o).

Lemma orel_w2g g o : orel g o (white2gray o).
Proof.
  split; [apply like_marked| |by rewrite white_w2g|by rewrite white_w2g]. apply sealed_bits. by rewrite has_clr.
Qed.
Lemma loose_w2g o : listed o = false → loose white2gray o.
Proof. intros Hl. split; [done|]. intros _. apply black_w2g. Qed.
Lemma orel_g2b g o : orel g o (gray2black o).
Proof.
  split; [apply like_marked| |by rewrite white_g2b|].
  - apply sealed_bits. rewrite has_lor. apply orb_false_r.
  - intros _. unfold gray2black. rewrite marked_set. by apply land_white.
Qed.
Lemma orel_b2g g o : orel g o (black2gray o).
Proof.
  split; [apply like_marked| |by rewrite white_b2g|].
  - apply sealed_bits. by rewrite has_clr.
  - intros _. unfold black2gray. rewrite marked_set. by apply clr_white.
Qed.

Lemma mle_upd a f g :
  (∀ o, heap g !! a = Some o → orel g o (f o) ∧ loose f o) → mle g (upd a f g).
Proof.
  intros Hf. split.
  - apply hle_upd. intros o E. by apply Hf.
  - done.
  - intros b t t' E E'. rewrite heap_upd in E'. destruct (decide (b = a)) as [->|]; [|congruence].
    destruct (Hf _ E) as [_ [? _]]. done.
  - intros b o o' E E' Hl. rewrite heap_upd in E'. destruct (decide (b = a)) as [->|]; [|congruence].
    destruct (Hf _ E) as [_ [Hn Hb]]. rewrite E in E'. injection E' as <-. unfold keeps in Hl. rewrite Hn in Hl. auto.
  - exists []. split; [done|]. apply new_nil. intros x o o' E E' Hl. rewrite heap_upd in E'.
    destruct (decide (x = a)) as [->|]; [|congruence]. destruct (Hf _ E) as [_ [? _]]. congruence.
Qed.

Lemma mle_push a o g :
  heap g !! a = Some o → listed o = true → iswhite o = true →
  mle g (set_gray (a :: gray g) (upd a white2gray g)).
Proof.
  intros E Hl Hw. set (g' := set_gray _ _).
  assert (∀ b, heap g' !! b = if decide (b = a) then Some (white2gray o) else heap g !! b) as Hh.
  { intros b. change (heap g' !! b) with (heap (upd a white2gray g) !! b). by rewrite heap_upd, E. }
  split.
  - split; [by destruct g|]. intros b. rewrite Hh. destruct (decide (b = a)) as [->|].
    + rewrite E. constructor. apply orel_w2g.
    + destruct (heap g !! b); constructor. apply orel_refl.
  - done.
  - intros b t t' Eb E' Hv. rewrite Hh in E'. destruct (decide (b = a)) as [->|]; [|congruence].
    assert (o = OTab t) as -> by congruence. injection E' as <-. cbn [Tab.marked Tab.set_marked marked]. by rewrite has_clr.
  - intros b ob o' Eb E' _. rewrite Hh in E'. destruct (decide (b = a)) as [->|]; [|congruence].
    assert (ob = o) as -> by congruence. injection E' as <-. apply black_w2g.
  - exists [a]. split; [done|]. split; [apply NoDup_singleton|]. intros x. rewrite list_elem_of_singleton. split.
    + intros ->. exists o, (white2gray o). rewrite Hh, decide_True by done. split_and!; auto. apply white_w2g.
    + intros (ob & o' & Eb & E' & _ & W & W'). rewrite Hh in E'. destruct (decide (x = a)); [done|congruence].
Qed.

(** ** [closed] with one more exception *)

Lemma closed_mle g g' X : mle g g' → closed g X →
  closed g' (λ a, X a ∨ ∃ o o', heap g !! a = Some o ∧ heap g' !! a = Some o' ∧ iswhite o = true ∧ iswhite o' = false).
Proof.
  intros M C. eapply (closed_step g); [apply M|done|by destruct (ml_lists _ _ M) as (_ & -> & _)|].
  intros a o o' E E' Ho Hs Hg Hx. left. destruct (ml_gray _ _ M) as (new & G & _). rewrite G in Hg.
  split_and!; [|set_solver|naive_solver|apply M].
  destruct (iswhite o) eqn:W; [|done]. destruct Hx. right. eauto 10.
Qed.

Lemma closed_sub g X X' : (∀ a, X a → X' a) → closed g X → closed g X'.
Proof. intros HX C a o E Hw Hs Hg Hx. apply C; auto. Qed.

Lemma closed_drop g X a :
  closed g (λ x, X x ∨ x = a) → (∀ o, heap g !! a = Some o → settled g a o) → closed g X.
Proof.
  intros C Ha b o E Hw Hs Hg Hx. destruct (decide (b = a)) as [->|]; [by apply Ha|]. apply C; auto. by intros [?|?].
Qed.

(** ** The mark function *)

(** A set that contains what its members refer to. *)
Definition closed_set (g : gstate) (R : Z → Prop) : Prop := ∀ a b, R a → edge g a b → R b.

Lemma closed_set_mono g g' R : hle g g' → closed_set g R → closed_set g' R.
Proof. intros L HR a b Ha Hb. eapply HR; [done|]. by eapply edge_sub. Qed.

(** Everything that is marked on the way is in such a set if [l] is. *)
Definition only (g g' : gstate) (l : list Z) : Prop :=
  ∀ R, closed_set g R → (∀ b, b ∈ l → R b) →
  ∀ x o o', heap g !! x = Some o → heap g' !! x = Some o' → iswhite o = true → iswhite o' = false → R x.

Lemma only_trans g1 g2 g3 l1 l2 :
  hle g1 g2 → hle g2 g3 → only g1 g2 l1 → only g2 g3 l2 → only g1 g3 (l1 ++ l2).
Proof.
  intros L1 L2 O1 O2 R HR Hl x o1 o3 E1 E3 W1 W3. destruct (hle_Some _ _ _ _ L1 E1) as (o2 & E2 & _).
  destruct (iswhite o2) eqn:W2.
  - eapply (O2 R); eauto; [by eapply closed_set_mono|]. intros. apply Hl. set_solver.
  - eapply (O1 R); eauto. intros. apply Hl. set_solver.
Qed.

Lemma only_refl g l : only g g l.
Proof. intros R _ _ x o o' E E' W W'. congruence. Qed.

Definition sat_step (g g' : gstate) : Prop :=
  ∀ a o o', heap g !! a = Some o → heap g' !! a = Some o' → sat o = true → wb o = true → wb o' = true.

Lemma sat_refl g : sat_step g g.
Proof. intros a o o' E E'. congruence. Qed.
Lemma sat_trans g1 g2 g3 : hle g1 g2 → sat_step g1 g2 → sat_step g2 g3 → sat_step g1 g3.
Proof.
  intros L S1 S2 a o o' E E' Hs Hw. destruct (hle_Some _ _ _ _ L E) as (o2 & E2 & [Ho _ _]).
  apply (S2 a o2 o'); [done|done|by rewrite (olike_sat _ _ _ Ho)|]. by apply (S1 a o o2).
Qed.
Lemma sat_other a g g' : (∀ x, x ≠ a → heap g' !! x = heap g !! x) →
  (∀ o o', heap g !! a = Some o → heap g' !! a = Some o' → sat o = true → wb o = true → wb o' = true) → sat_step g g'.
Proof.
  intros Hx Ha x o o' E E'. destruct (decide (x = a)) as [->|]; [by apply Ha|]. rewrite Hx in E' by done. congruence.
Qed.

Record mark_ok (g g' : gstate) (l : list Z) : Prop := {
  mk_mle : mle g g';
  mk_sat : sat_step g g';
  mk_closed X : closed g X → closed g' X;
  mk_done b : b ∈ l → wh g' b = false;
  mk_only : only g g' l }.

Lemma mark_ok_nil g : mark_ok g g [].
Proof. split; [reflexivity|apply sat_refl|done|intros ? []%elem_of_nil|apply only_refl]. Qed.

Lemma mark_ok_app g1 g2 g3 l1 l2 : mark_ok g1 g2 l1 → mark_ok g2 g3 l2 → mark_ok g1 g3 (l1 ++ l2).
Proof.
  intros M1 M2. pose proof (ml_hle _ _ (mk_mle _ _ _ M1)). pose proof (ml_hle _ _ (mk_mle _ _ _ M2)). split.
  - transitivity g2; [apply M1|apply M2].
  - eapply sat_trans; [done|apply M1|apply M2].
  - intros X C. by apply M2, M1.
  - intros b [Hb|Hb]%elem_of_app; [|by apply M2]. eapply wh_mono; [done|]. by apply M1.
  - eapply only_trans; [..|apply M1|apply M2]; done.
Qed.

Lemma only_kids g g' a l : only g g' (a :: l) → (∀ b, b ∈ l → edge g a b) → only g g' [a].
Proof.
  intros HO He R HR Ha. apply HO; [done|]. intros b [->|Hb]%elem_of_cons; [apply Ha; by left|].
  eapply HR; [apply Ha; by left|auto].
Qed.

(** The colour of one object that is never gray on a list. *)
Lemma mark_ok_upd a f g :
  (∀ o, heap g !! a = Some o → orel g o (f o) ∧ loose f o) →
  mle g (upd a f g) ∧ only g (upd a f g) [a] ∧
  ∀ X, closed g X → closed (upd a f g) (λ x, X x ∨ x = a).
Proof.
  intros Hf. pose proof (mle_upd a f g Hf) as M.
  assert (∀ x o o', heap g !! x = Some o → heap (upd a f g) !! x = Some o' → iswhite o = true → iswhite o' = false → x = a)
    as Hx.
  { intros x o o' E E' W W'. rewrite heap_upd in E'. destruct (decide (x = a)); [done|congruence]. }
  split_and!; [done| |].
  - intros R _ Ha x o o' E E' W W'. rewrite (Hx x o o') by done. apply Ha. by left.
  - intros X C. eapply closed_sub; [|by apply (closed_mle g)]. intros x [?|(o & o' & ? & ? & ? & ?)]; eauto.
Qed.

Lemma settled_unlisted g a o : listed o = false → (∀ b, b ∈ kids_w g 0 a o → wh g b = false) → settled g a o.
Proof. intros Hl Hk. exists 0. split; [|done]. by destruct o. Qed.

Lemma not_white_wh g a : at_ iswhite g a = false → wh g a = false.
Proof. unfold wh, at_. destruct (heap g !! a); [|done]. by intros ->. Qed.

Lemma upd_w2g_wh a g : wh (upd a white2gray g) a = false.
Proof.
  apply not_white_wh. unfold at_. rewrite heap_upd, decide_True by done.
  destruct (heap g !! a); [|done]. apply white_w2g.
Qed.

(** The object itself and then what it refers to. *)
Lemma mark_ok_obj g g1 g2 a o l :
  heap g !! a = Some o → listed o = false →
  hle g g1 → only g g1 [a] → mle g g1 → (∀ X, closed g X → closed g1 (λ x, X x ∨ x = a)) → wh g1 a = false →
  (∀ x, x ≠ a → heap g1 !! x = heap g !! x) →
  (∀ o', heap g2 !! a = Some o' → sat o = true → wb o' = true) →
  mark_ok g1 g2 l → kids g a o = l →
  mark_ok g g2 [a].
Proof.
  intros E Hl L1 O1 M1 C1 W1 Hx Ha M2 Hk. pose proof (ml_hle _ _ (mk_mle _ _ _ M2)) as L2. split.
  - transitivity g1; [done|apply M2].
  - intros x ox o' Ex E' Hs Hw. destruct (decide (x = a)) as [->|Hxa].
    + assert (ox = o) as -> by congruence. by apply Ha.
    + apply (mk_sat _ _ _ M2 x ox o'); [by rewrite Hx|done..].
  - intros X C. apply (closed_drop _ _ a); [by apply M2, C1|]. intros o' E'.
    assert (hle g g2) as L by by transitivity g1.
    destruct (hle_Some _ _ _ _ L E) as (o2 & E2 & [Ho _ _]). assert (o2 = o') as -> by congruence.
    apply settled_unlisted; [by rewrite (olike_listed _ _ _ Ho)|]. intros b Hb. apply M2. rewrite <-Hk.
    unfold kids. apply (kids_w_sub g g2 _ a o o' L Ho) in Hb. by destruct o.
  - intros b ->%list_elem_of_singleton. by eapply wh_mono.
  - apply (only_kids _ _ _ l).
    + change (a :: l) with ([a] ++ l). eapply only_trans; [done|done|done|apply M2].
    + intros b Hb. exists o. split; [done|]. by rewrite Hk.
Qed.

Lemma mark_ok_color a f g :
  (∀ o, heap g !! a = Some o → orel g o (f o) ∧ loose f o ∧ iswhite (f o) = iswhite o ∧ (isblack o = true → isblack (f o) = true)) →
  mark_ok g (upd a f g) [].
Proof.
  intros Hf. pose proof (mle_upd a f g (λ o E, conj (proj1 (Hf o E)) (proj1 (proj2 (Hf o E))))) as M.
  assert (∀ x o o', heap g !! x = Some o → heap (upd a f g) !! x = Some o' → iswhite o' = iswhite o) as Hw.
  { intros x o o' E E'. rewrite heap_upd in E'. destruct (decide (x = a)) as [->|]; [|congruence].
    rewrite E in E'. injection E' as <-. by apply Hf. }
  split; [done| | |by intros ? []%elem_of_nil|].
  - apply (sat_other a); [intros x Hx; by rewrite heap_upd, decide_False|]. intros o o' E E' _.
    rewrite heap_upd, decide_True, E in E' by done. injection E' as <-. unfold wb.
    destruct (Hf o E) as (_ & _ & -> & Hb). destruct (iswhite o); [done|]. simpl. auto.
  - intros X C. eapply closed_sub; [|by apply (closed_mle g)]. intros x [?|(o & o' & E & E' & ? & ?)]; [done|].
    specialize (Hw x o o' E E'). congruence.
  - intros R _ _ x o o' E E' W W'. specialize (Hw x o o' E E'). congruence.
Qed.

Lemma upd_twice a f1 f2 g : upd a f2 (upd a f1 g) = upd a (λ o, f2 (f1 o)) g.
Proof. unfold upd. simpl. rewrite alter_alter_eq. by destruct g. Qed.

Lemma uvval_upd g a m uv f :
  heap g !! a = Some (OUpval m uv) → (∀ o, gct (f o) = gct o) → ∀ u, uvval (upd a f g) u = uvval g u.
Proof.
  intros E Hf u. destruct u as [th i|]; [|done]. unfold uvval. rewrite heap_upd.
  destruct (decide (th = a)) as [->|]; [|done]. rewrite E. simpl.
  pose proof (Hf (OUpval m uv)) as Hg. by destruct (f (OUpval m uv)).
Qed.

Lemma mark_n_listed n a g o :
  heap g !! a = Some o → uj_obj_is_sealed o = false → listed o = true →
  gc_mark_n (S n) a g = set_gray (a :: gray g) (upd a white2gray g).
Proof. intros E Hs Hl. cbn [gc_mark_n]. rewrite E, Hs. by destruct o. Qed.

Lemma mark_n_spec n a g : fits n g a → at_ iswhite g a = true → mark_ok g (gc_mark_n n a g) [a].
Proof.
  revert a g. induction n as [|n IH]; intros a g HF HW.
  { simpl in HF. unfold at_ in HW. by rewrite HF in HW. }
  assert (∀ b g, fits n g b → mark_ok g (if at_ iswhite g b then gc_mark_n n b g else g) [b]) as Hif.
  { intros b g' Hb. destruct (at_ iswhite g' b) eqn:Eb; [by apply IH|].
    split; [reflexivity|apply sat_refl|done| |apply only_refl]. intros x ->%list_elem_of_singleton. by apply not_white_wh. }
  cbn [gc_mark_n fits] in *. unfold at_ in HW. destruct (heap g !! a) as [o|] eqn:E; [|done].
  destruct (uj_obj_is_sealed o) eqn:Hs.
  { split; [reflexivity|apply sat_refl|done| |apply only_refl]. intros x ->%list_elem_of_singleton. unfold wh, at_.
    by rewrite E, Hs, andb_false_r. }
  assert (listed o = true → mark_ok g (set_gray (a :: gray g) (upd a white2gray g)) [a]) as Hpush.
  { intros Hl. pose proof (mle_push a o g E Hl HW) as M.
    assert (∀ x ox ox', heap g !! x = Some ox → heap (upd a white2gray g) !! x = Some ox' →
      iswhite ox = true → iswhite ox' = false → x = a) as Hx.
    { intros x ox ox' Ex Ex' W W'. rewrite heap_upd in Ex'. destruct (decide (x = a)); [done|congruence]. }
    split; [done| | | |].
    - apply (sat_other a); [intros x Hne; change (heap (upd a white2gray g) !! x = heap g !! x); by rewrite heap_upd, decide_False|].
      intros o1 o2 E1 _ Hsat. assert (o1 = o) as -> by congruence. by destruct o.
    - intros X C. pose proof (closed_mle _ _ _ M C) as C'. intros x ox Ex Wx Sx Gx Xx. apply C'; auto.
      intros [?|(o1 & o2 & E1 & E2 & W1 & W2)]; [done|]. apply Gx. rewrite (Hx x o1 o2) by done. by left.
    - intros x ->%list_elem_of_singleton. apply upd_w2g_wh.
    - intros R _ Ha x ox ox' Ex Ex' W W'. rewrite (Hx x ox ox') by done. apply Ha. by left. }
  assert (listed o = false →
    mle g (upd a white2gray g) ∧ only g (upd a white2gray g) [a] ∧
    ∀ X, closed g X → closed (upd a white2gray g) (λ x, X x ∨ x = a)) as Hupd.
  { intros Hl. apply mark_ok_upd. intros o1 E1. split; [apply orel_w2g|]. apply loose_w2g. congruence. }
  assert (∀ f x, x ≠ a → heap (upd a f g) !! x = heap g !! x) as Hne.
  { intros f x Hx. by rewrite heap_upd, decide_False. }
  destruct o; try (by apply Hpush); destruct (Hupd eq_refl) as (M1 & O1 & C1).
  - by apply (mark_ok_obj g _ _ a _ [] E eq_refl (ml_hle _ _ M1) O1 M1 C1 (upd_w2g_wh a g) (Hne _) (λ _ _, ltac:(done)) (mark_ok_nil _)).
  - rewrite (uvval_upd g a m uv) by (done || (intros; apply gct_set)).
    set (g1 := upd a white2gray g) in *.
    set (g2 := match uvval g uv with TGCV _ v => if at_ iswhite g1 v then gc_mark_n n v g1 else g1 | _ => g1 end).
    assert (mark_ok g1 g2 (tvaddr (uvval g uv))) as M2.
    { unfold g2. destruct (uvval g uv) as [| | |gt v|]; try apply mark_ok_nil. apply Hif.
      eapply depth_mono; [apply M1|]. apply HF. by left. }
    assert (mark_ok g1 (if uv_closed uv then upd a gray2black g2 else g2) (tvaddr (uvval g uv))) as M3.
    { destruct (uv_closed uv) eqn:Ec; [|done]. rewrite <-(app_nil_r (tvaddr _)). eapply mark_ok_app; [done|].
      apply mark_ok_color. intros o' E'. split_and!; [apply orel_g2b| |apply white_g2b|intros _; apply black_g2b].
      assert (hle g g2) as L by (transitivity g1; [apply M1|apply M2]).
      destruct (hle_Some _ _ _ _ L E) as (o2 & E2 & [Ho _ _]). assert (o2 = o') as -> by congruence.
      destruct o'; try done. simpl in Ho. subst. split; [done|]. simpl. by rewrite Ec. }
    apply (mark_ok_obj g g1 _ a _ _ E eq_refl (ml_hle _ _ M1) O1 M1 C1 (upd_w2g_wh a g) (Hne _)) with (2 := M3); [|done].
    intros o' E' Hsat. simpl in Hsat. rewrite Hsat in E'. rewrite heap_upd, decide_True in E' by done.
    destruct (heap g2 !! a); [|done]. injection E' as <-. unfold wb. by rewrite black_g2b, orb_true_r.
  - by apply (mark_ok_obj g _ _ a _ [] E eq_refl (ml_hle _ _ M1) O1 M1 C1 (upd_w2g_wh a g) (Hne _) (λ _ _, ltac:(done)) (mark_ok_nil _)).
  - clear M1 O1 C1 Hupd. rewrite upd_twice.
    destruct (mark_ok_upd a (λ o, gray2black (white2gray o)) g) as (M1 & O1 & C1).
    { intros o' E'. split; [|by assert (o' = OUdata m ud) as -> by congruence; split].
      eapply orel_trans; [apply orel_w2g|apply orel_g2b]. }
    set (g1 := upd a (λ o, gray2black (white2gray o)) g) in *.
    assert (wh g1 a = false) as W1.
    { apply not_white_wh. unfold at_, g1. rewrite heap_upd, decide_True, E by done. change (iswhite (gray2black (white2gray (OUdata m ud))) = false). rewrite white_g2b. apply white_w2g. }
    set (g2 := match ud_metatable ud with Some mt => if at_ iswhite g1 mt then gc_mark_n n mt g1 else g1 | None => g1 end).
    assert (mark_ok g1 g2 (option_list (ud_metatable ud))) as M2.
    { unfold g2. destruct (ud_metatable ud) as [mt|] eqn:Em; [|apply mark_ok_nil]. apply Hif.
      eapply depth_mono; [apply M1|]. apply HF. set_solver. }
    assert (mark_ok g1 (if at_ iswhite g2 (ud_env ud) then gc_mark_n n (ud_env ud) g2 else g2)
              (option_list (ud_metatable ud) ++ [ud_env ud])) as M3.
    { eapply mark_ok_app; [done|]. apply Hif. eapply depth_mono; [|apply HF; set_solver]. transitivity g1; [apply M1|apply M2]. }
    refine (mark_ok_obj g g1 _ a _ _ E eq_refl (ml_hle _ _ M1) O1 M1 C1 W1 (Hne _) _ M3 eq_refl).
    intros o' E' _. apply (mk_sat _ _ _ M3 a (gray2black (white2gray (OUdata m ud))) o'); [|done..|].
    + unfold g1. by rewrite heap_upd, decide_True, E.
    + unfold wb. by rewrite black_g2b, orb_true_r.
Qed.

End Mark.

End GcMark.
