(* ===== verification/GcTraverse.v ===== *)
(** * Traversals and propagation

    Every traversal marks the list of the [kids] of its object.  [work a p q g g' l] is the work on the
    gray object [a] until it is done: [p] and [q] are what is put on [grayagain] and [weak], [l] is
    what was marked. *)

From stdpp Require Import base decidable list numbers option sets gmap.
From Stdlib Require Import ZArith Lia.
From S2P Require Import Prelude Obj Tab Bc Ir GcObj Gc GcInv GcMark.

Local Open Scope Z_scope.
Import Obj GcObj Gc GcInv GcMark.

Module GcTraverse.

Section Traverse.
Context `{OH : ObjHeap}.

(** ** Lists of objects *)

Lemma markobj_spec a g : gtyped g → mark_ok g (gc_markobj a g) [a].
Proof.
  intros T. unfold gc_markobj, gc_mark. destruct (at_ iswhite g a) eqn:E.
  - apply mark_n_spec; [apply T|done].
  - split; [reflexivity|apply sat_refl|done| |apply only_refl]. intros x ->%list_elem_of_singleton. by apply not_white_wh.
Qed.

Lemma mark_ok_typed g g' l : mark_ok g g' l → gtyped g → gtyped g'.
Proof. intros M. apply gtyped_mono, M. Qed.

Lemma marks_spec l g : gtyped g → mark_ok g (gc_marks l g) l.
Proof.
  revert g. induction l as [|a l IH]; intros g T; [apply mark_ok_nil|].
  pose proof (markobj_spec a g T) as M. apply (mark_ok_app g (gc_markobj a g) _ [a] l); [done|]. apply IH. by eapply mark_ok_typed.
Qed.

Lemma marks_app l1 l2 g : gc_marks (l1 ++ l2) g = gc_marks l2 (gc_marks l1 g).
Proof. apply foldl_app. Qed.

Lemma marks_concat {A} (f : A → list Z) (h : gstate → A → gstate) l g :
  (∀ g x, h g x = gc_marks (f x) g) → foldl h g l = gc_marks (concat (f <$> l)) g.
Proof.
  intros Hf. revert g. induction l as [|x l IH]; intros g; [done|]. simpl. by rewrite marks_app, Hf, IH.
Qed.

Lemma marktv_marks tv g : gc_marktv tv g = gc_marks (tvaddr tv) g.
Proof. by destruct tv. Qed.
Lemma marktvs_marks l g : gc_marktvs l g = gc_marks (tvaddrs l) g.
Proof. apply marks_concat. intros. apply marktv_marks. Qed.
Lemma mark_node_marks w g n : gc_mark_node w g n = gc_marks (node_kids w n) g.
Proof.
  unfold gc_mark_node, node_kids. destruct (tvisnil (Tab.val n)); [done|].
  rewrite marks_app. destruct (has w LJ_GC_WEAKKEY), (has w LJ_GC_WEAKVAL); by rewrite ?marktv_marks.
Qed.
Lemma mark_mt_marks mt g : mark_mt mt g = gc_marks (option_list mt) g.
Proof. by destruct mt. Qed.

Lemma stack_loop_marks n th L frame top ms g :
  (stack_loop n th L frame top ms g).1 = gc_marks (stack_kids n th L frame top) g.
Proof.
  revert frame top ms g. induction n as [|n IH]; intros frame top ms g; [done|]. cbn [stack_loop stack_kids].
  assert (gc_mark_stack_frame th L frame top g = gc_marks (frame_kids th L frame top) g) as ->.
  { unfold gc_mark_stack_frame, frame_kids. rewrite marks_app.
    rewrite <-(marks_concat slot_addr (λ g s, match s with SV tv => gc_marktv tv g | _ => g end)).
    - f_equal. destruct (stack L !! Z.to_nat frame) as [[]|]; [done| |done..]. by destruct (func =? th).
    - intros g' []; try done. apply marktv_marks. }
  rewrite marks_app. destruct (frame <=? 0); [done|].
  by destruct (stack L !! Z.to_nat frame) as [[]|].
Qed.

Lemma traverse_stack_marks th L g :
  (gc_traverse_stack th L g).1 = gc_marks (stack_kids (length (stack L)) th L (base L - 1) (top L)) g.
Proof. rewrite <-stack_loop_marks with (ms := top L - 1). unfold gc_traverse_stack. by destruct (stack_loop _ _ _ _ _ _ _). Qed.

(** Traces and strings. *)
Lemma marktrace_spec no g : gtyped g → mark_ok g (gc_marktrace_if no g) (trace_if g no).
Proof.
  intros T. unfold gc_marktrace_if, trace_if. destruct (Z.eqb_spec no 0) as [->|Hn]; [apply mark_ok_nil|].
  assert (gc_marktrace no g = gc_markobj (traceref g no) g) as ->; [|by apply markobj_spec].
  unfold gc_marktrace, gc_markobj, at_. destruct (heap g !! traceref g no) as [o|] eqn:E; [|done].
  destruct (gt_trace _ T no o Hn E) as [Ho Hs]. destruct (iswhite o); [|done].
  unfold gc_mark, MARK_DEPTH. rewrite (mark_n_listed 2 _ g o); [done..|by destruct o].
Qed.

Lemma mark_str_spec a g : (∀ o, heap g !! a = Some o → gct o = GT_STR) → mark_ok g (gc_mark_str a g) [a].
Proof.
  intros HT. unfold gc_mark_str. destruct (heap g !! a) as [o|] eqn:E.
  - assert (listed o = false ∧ kids g a o = [] ∧ sat o = false) as (Hl & Hk & Hsat).
    { specialize (HT o eq_refl). by destruct o. }
    destruct (mark_ok_upd a white2gray g) as (M & O & C).
    { intros o' E'. split; [apply orel_w2g|]. apply loose_w2g. congruence. }
    apply (mark_ok_obj g _ _ a o [] E Hl (ml_hle _ _ M) O M C (upd_w2g_wh a g)); [| |apply mark_ok_nil|done].
    + intros x Hx. by rewrite heap_upd, decide_False.
    + congruence.
  - destruct (mark_ok_upd a white2gray g) as (M & O & C); [by rewrite E|]. split; [done| | | |done].
    + apply (sat_other a); [intros x Hx; by rewrite heap_upd, decide_False|]. congruence.
    + intros X HX. eapply closed_drop; [by apply C|]. intros o Eo. by rewrite (hle_None _ _ a (ml_hle _ _ M)) in Eo.
    + intros b ->%list_elem_of_singleton. apply upd_w2g_wh.
Qed.

Lemma trace_if_env g g' no : hle g g' → trace_if g' no = trace_if g no.
Proof. intros L. unfold trace_if. by rewrite (traceref_env _ _ _ (h_env _ _ L)). Qed.

(** ** Functions, prototypes, traces *)

Lemma traverse_func_spec fn g : gtyped g → mark_ok g (gc_traverse_func fn g) (func_kids fn).
Proof.
  intros T. destruct fn as [env pt uvs|env vs]; simpl.
  - apply (marks_spec (env :: pt :: uvs) g T).
  - rewrite marktvs_marks. apply (marks_spec (env :: tvaddrs vs) g T).
Qed.

Lemma traverse_trace_spec T0 g : gtyped g → mark_ok g (gc_traverse_trace T0 g) (trace_kids g T0).
Proof.
  intros T. unfold gc_traverse_trace, trace_kids. destruct (traceno T0 =? 0); [apply mark_ok_nil|].
  rewrite (marks_concat kgc_addr) by (intros; unfold kgc_addr; by destruct (Ir.opeq _ _)).
  pose proof (marks_spec (concat (kgc_addr <$> kcells T0)) g T) as M1. set (g1 := gc_marks _ g) in *.
  pose proof (mark_ok_typed _ _ _ M1 T) as T1. pose proof (ml_hle _ _ (mk_mle _ _ _ M1)) as L1.
  pose proof (marktrace_spec (link T0) g1 T1) as M2. set (g2 := gc_marktrace_if _ g1) in *.
  pose proof (mark_ok_typed _ _ _ M2 T1) as T2. pose proof (ml_hle _ _ (mk_mle _ _ _ M2)) as L2.
  pose proof (marktrace_spec (nextroot T0) g2 T2) as M3. set (g3 := gc_marktrace_if _ g2) in *.
  pose proof (mark_ok_typed _ _ _ M3 T2) as T3. pose proof (ml_hle _ _ (mk_mle _ _ _ M3)) as L3.
  pose proof (marktrace_spec (nextside T0) g3 T3) as M4. set (g4 := gc_marktrace_if _ g3) in *.
  pose proof (mark_ok_typed _ _ _ M4 T3) as T4.
  rewrite (trace_if_env g g1) in M2 by done.
  rewrite (trace_if_env g g2) in M3 by (by transitivity g1).
  rewrite (trace_if_env g g3) in M4 by (transitivity g1; [done|by transitivity g2]).
  repeat (eapply mark_ok_app; [done|]). by apply markobj_spec.
Qed.

Lemma traverse_proto_spec pt g :
  gtyped g → (∀ o, heap g !! chunkname pt = Some o → gct o = GT_STR) →
  mark_ok g (gc_traverse_proto pt g) (proto_kids g pt).
Proof.
  intros T HN. unfold gc_traverse_proto, proto_kids.
  pose proof (mark_str_spec _ _ HN) as M1. set (g1 := gc_mark_str _ g) in *.
  pose proof (mark_ok_typed _ _ _ M1 T) as T1. pose proof (ml_hle _ _ (mk_mle _ _ _ M1)) as L1.
  pose proof (marks_spec (kgc pt) g1 T1) as M2. set (g2 := gc_marks _ g1) in *.
  pose proof (mark_ok_typed _ _ _ M2 T1) as T2. pose proof (ml_hle _ _ (mk_mle _ _ _ M2)) as L2.
  pose proof (marktrace_spec (pt_trace pt) g2 T2) as M3.
  rewrite (trace_if_env g g2) in M3 by (by transitivity g1).
  change (chunkname pt :: ?l) with ([chunkname pt] ++ l).
  repeat (eapply mark_ok_app; [done|]). done.
Qed.

(** ** Work on one object *)

Record work (a : Z) (p q : list Z) (g g' : gstate) (l : list Z) : Prop := {
  wk_hle : hle g g';
  wk_again : grayagain g' = p ++ grayagain g;
  wk_weak : weak g' = q ++ weak g;
  wk_wbit x : x ≠ a → wbit g g' x;
  wk_black x o o' : heap g !! x = Some o → heap g' !! x = Some o' → keeps o = true → isblack o' = true → isblack o = true;
  wk_stay x o o' : x ≠ a → heap g !! x = Some o → heap g' !! x = Some o' → keeps o = true → isblack o = true → isblack o' = true;
  wk_sat : sat_step g g';
  wk_gray : ∃ new, gray g' = new ++ gray g ∧ new_gray g g' new;
  wk_closed X : closed g (λ x, X x ∨ x = a) → closed g' (λ x, X x ∨ x = a);
  wk_done b : b ∈ l → wh g' b = false;
  wk_only : only g g' l }.

Lemma mark_ok_work a g g' l : mark_ok g g' l → work a [] [] g g' l.
Proof.
  intros M. pose proof (mk_mle _ _ _ M) as ML. destruct (ml_lists _ _ ML) as (? & ? & ?).
  split; [apply ML|done|done| | | |apply M|apply ML|intros X; apply M|apply M|apply M].
  - intros x _. apply ML.
  - intros x o o' E E' Hk Hb. by rewrite <-(ml_black _ _ ML x o o').
  - intros x o o' _ E E' Hk Hb. by rewrite (ml_black _ _ ML x o o').
Qed.

Lemma work_trans a p1 q1 p2 q2 g1 g2 g3 l1 l2 :
  work a p1 q1 g1 g2 l1 → work a p2 q2 g2 g3 l2 → work a (p2 ++ p1) (q2 ++ q1) g1 g3 (l1 ++ l2).
Proof.
  intros M1 M2. pose proof (wk_hle _ _ _ _ _ _ M1) as L1. pose proof (wk_hle _ _ _ _ _ _ M2) as L2. split.
  - by transitivity g2.
  - rewrite (wk_again _ _ _ _ _ _ M2), (wk_again _ _ _ _ _ _ M1). apply app_assoc.
  - rewrite (wk_weak _ _ _ _ _ _ M2), (wk_weak _ _ _ _ _ _ M1). apply app_assoc.
  - intros x Hx t t' E E' Hw. destruct (hle_Some _ _ _ _ L1 E) as (o2 & E2 & [Ho _ _]). destruct o2; try done.
    eapply (wk_wbit _ _ _ _ _ _ M2); [done..|]. by eapply (wk_wbit _ _ _ _ _ _ M1).
  - intros x o o' E E' Hl Hb. destruct (hle_Some _ _ _ _ L1 E) as (o2 & E2 & [Ho _ _]).
    apply (wk_black _ _ _ _ _ _ M1 x o o2); [done..|]. apply (wk_black _ _ _ _ _ _ M2 x o2 o'); [done..| |done].
    by rewrite (olike_keeps _ _ _ Ho).
  - intros x o o' Hx E E' Hl Hb. destruct (hle_Some _ _ _ _ L1 E) as (o2 & E2 & [Ho _ _]).
    apply (wk_stay _ _ _ _ _ _ M2 x o2 o'); [done..|by rewrite (olike_keeps _ _ _ Ho)|].
    by apply (wk_stay _ _ _ _ _ _ M1 x o o2).
  - eapply sat_trans; [done|apply M1|apply M2].
  - destruct (wk_gray _ _ _ _ _ _ M1) as (n1 & G1 & N1), (wk_gray _ _ _ _ _ _ M2) as (n2 & G2 & N2).
    exists (n2 ++ n1). rewrite G2, G1, app_assoc. split; [done|]. by eapply new_app.
  - intros X C. by apply M2, M1.
  - intros b [Hb|Hb]%elem_of_app; [|by apply M2]. eapply wh_mono; [done|]. by apply M1.
  - eapply only_trans; [..|apply M1|apply M2]; done.
Qed.

(** Changes of the object itself. *)
Definition recolor (o o' : GCobj) : Prop := iswhite o' = iswhite o ∧ (isblack o' = true → isblack o = true) ∧ sat o = false.

Lemma work_local a p q g g' :
  hle g g' → grayagain g' = p ++ grayagain g → weak g' = q ++ weak g → gray g' = gray g →
  (∀ x, x ≠ a → heap g' !! x = heap g !! x) →
  (∀ o o', heap g !! a = Some o → heap g' !! a = Some o' → recolor o o') →
  work a p q g g' [].
Proof.
  intros L Hp Hq Hg Ho Ha.
  assert (∀ x o o', heap g !! x = Some o → heap g' !! x = Some o' → iswhite o' = iswhite o) as Hw.
  { intros x o o' E E'. destruct (decide (x = a)) as [->|]; [by apply Ha|]. rewrite Ho in E' by done. congruence. }
  split; try done.
  - intros x Hx tt t' E E'. rewrite Ho in E' by done. congruence.
  - intros x o o' E E' Hk. destruct (decide (x = a)) as [->|]; [by apply Ha|]. rewrite Ho in E' by done. congruence.
  - intros x o o' Hx E E'. rewrite Ho in E' by done. congruence.
  - apply (sat_other a); [done|]. intros o o' E E' Hs. destruct (Ha o o' E E') as (_ & _ & ?). congruence.
  - exists []. split; [done|]. apply new_nil. intros x o o' E E' _. by apply (Hw x).
  - intros X C. eapply (closed_step g); [done|done|rewrite Hq; set_solver|].
    intros x o o' E E' W S G HX. left. rewrite Hg in G. rewrite <-(Hw x o o') by done. split_and!; try done.
    intros t1 t2 E1 E2. rewrite Ho in E2 by naive_solver. congruence.
  - intros b []%elem_of_nil.
  - intros R _ _ x o o' E E' W W'. specialize (Hw x o o' E E'). congruence.
Qed.

Lemma work_upd a f g :
  (∀ o, heap g !! a = Some o → orel g o (f o) ∧ recolor o (f o)) → work a [] [] g (upd a f g) [].
Proof.
  intros Hf. apply work_local; try done.
  - apply hle_upd. intros o E. by apply Hf.
  - intros x Hx. by rewrite heap_upd, decide_False.
  - intros o o' E E'. rewrite heap_upd, decide_True, E in E' by done. injection E' as <-. by apply Hf.
Qed.

Lemma work_mark a p q g1 g2 g3 l1 l2 : work a p q g1 g2 l1 → mark_ok g2 g3 l2 → work a p q g1 g3 (l1 ++ l2).
Proof. intros W M. apply (work_trans a p q [] [] g1 g2 g3); [done|by apply mark_ok_work]. Qed.

Lemma recolor_b2g o : sat o = false → recolor o (black2gray o).
Proof. split; [apply white_b2g|by rewrite black_b2g]. Qed.

(** ** Metamethods *)

Lemma mark_ok_keep a f g :
  (∀ o, heap g !! a = Some o → orel g o (f o) ∧ marked (f o) = marked o) → mark_ok g (upd a f g) [].
Proof.
  intros Hf.
  assert (∀ x o o', heap g !! x = Some o → heap (upd a f g) !! x = Some o' → marked o' = marked o) as Hm.
  { intros x o o' E E'. rewrite heap_upd in E'. destruct (decide (x = a)) as [->|]; [|congruence].
    rewrite E in E'. injection E' as <-. by apply Hf. }
  assert (hle g (upd a f g)) as L by (apply hle_upd; naive_solver).
  split.
  - split; [done|done| | |].
    + intros x t1 t2 E1 E2. specialize (Hm x _ _ E1 E2). simpl in Hm. by rewrite Hm.
    + intros x o o' E E' _. unfold isblack. by rewrite (Hm x o o').
    + exists []. split; [done|]. apply new_nil. intros x o o' E E' _. unfold iswhite. by rewrite (Hm x o o').
  - intros x o o' E E' _. unfold wb, iswhite, isblack. by rewrite (Hm x o o').
  - intros X C. eapply (closed_step g); [done|done|done|]. intros x o o' E E' W S G HX. left.
    unfold iswhite in *. rewrite <-(Hm x o o') by done. split_and!; try done.
    intros t1 t2 E1 E2. specialize (Hm x _ _ E1 E2). simpl in Hm. by rewrite Hm.
  - intros b []%elem_of_nil.
  - intros R _ _ x o o' E E' W W'. unfold iswhite in *. rewrite (Hm x o o') in W' by done. congruence.
Qed.

Lemma lookup_mt_spec mt mm g : mm = MM_gc ∨ mm = MM_mode → mark_ok g (uj_meta_lookup_mt mt mm g).2 [].
Proof.
  intros Hmm. unfold uj_meta_lookup_mt. destruct mt as [a|]; [|apply mark_ok_nil].
  destruct (heap g !! a) as [o|] eqn:E; [|apply mark_ok_nil]. destruct o; try apply mark_ok_nil.
  destruct (has _ _) eqn:Hn; [apply mark_ok_nil|].
  destruct (Tab.deref t _) as [v|] eqn:Ed; [|apply mark_ok_nil].
  destruct (tvisnil v) eqn:Ev; [|apply mark_ok_nil]. simpl. apply mark_ok_keep. intros o E'.
  assert (o = OTab t) as -> by congruence. split; [|done]. split; [|done..]. simpl.
  split; [by destruct t|]. cbn [Tab.nomm Tab.set_nomm]. rewrite has_lor.
  split; [by intros ->|]. destruct Hmm as [->| ->].
  - change (has (2 ^ Z.of_nat MM_gc) 8) with false. rewrite orb_false_r. by left.
  - intros _. right. unfold mode_entry. rewrite Ed. by destruct v.
Qed.

(** ** Tables *)

Definition weak_mode (w : Z) : Prop := w ∈ [0; 8; 16; 24].

Lemma mode_bits_mode s w : weak_mode w → weak_mode (mode_bits s w).
Proof.
  revert w. induction s as [|c s IH]; intros w Hw; [done|]. simpl.
  assert (weak_mode (Z.lor w LJ_GC_WEAKKEY) ∧ weak_mode (Z.lor w LJ_GC_WEAKVAL)) as [? ?].
  { unfold weak_mode in *. rewrite !elem_of_cons, elem_of_nil in *. destruct Hw as [->|[->|[->|[->|[]]]]]; simpl; auto 10. }
  repeat case_match; auto.
Qed.

Lemma node_kids_weak ns : concat (node_kids LJ_GC_WEAK <$> ns) = [].
Proof. induction ns as [|n ns IH]; [done|]. rewrite fmap_cons. cbn [concat]. rewrite IH. unfold node_kids. by destruct (tvisnil _). Qed.

Lemma tab_kids_marks w t g :
  gtyped g → w ≠ LJ_GC_WEAK →
  let g1 := if has w LJ_GC_WEAKVAL then g else gc_marktvs (Tab.array t) g in
  let g2 := if 0 <? Tab.hmask t then foldl (gc_mark_node w) g1 (Tab.node t) else g1 in
  mark_ok g g2 ((if has w LJ_GC_WEAKVAL then [] else tvaddrs (Tab.array t)) ++
                (if 0 <? Tab.hmask t then concat (node_kids w <$> Tab.node t) else [])).
Proof.
  intros T Hw g1 g2.
  assert (mark_ok g g1 (if has w LJ_GC_WEAKVAL then [] else tvaddrs (Tab.array t))) as M1.
  { unfold g1. destruct (has w LJ_GC_WEAKVAL); [apply mark_ok_nil|]. rewrite marktvs_marks. by apply marks_spec. }
  eapply mark_ok_app; [done|]. unfold g2. destruct (0 <? Tab.hmask t); [|apply mark_ok_nil].
  rewrite (marks_concat (node_kids w)) by (intros; apply mark_node_marks).
  apply marks_spec. by eapply mark_ok_typed.
Qed.

Lemma weak_marks_orel g o w : weak_mode w → sat o = false → orel g o (set_weak_marks w o) ∧ recolor o (set_weak_marks w o).
Proof.
  intros Hw Hsat. unfold set_weak_marks.
  assert (has w LJ_GC_WHITES = false ∧ has w UJ_GCO_SEALED = false ∧ has w LJ_GC_BLACK = false) as (H1 & H2 & H3).
  { unfold weak_mode in Hw. rewrite !elem_of_cons, elem_of_nil in Hw. by destruct Hw as [->|[->|[->|[->|[]]]]]. }
  assert (iswhite (set_marked (Z.lor (clr (marked o) LJ_GC_WEAK) w) o) = iswhite o) as Hi.
  { unfold iswhite. rewrite marked_set, has_lor, has_clr, H1. apply orb_false_r. }
  split; [split|].
  - apply like_marked.
  - apply sealed_bits. rewrite has_lor, has_clr, H2. apply orb_false_r.
  - by rewrite Hi.
  - intros _. rewrite marked_set, land_white; [by apply clr_white|]. unfold weak_mode in Hw.
    rewrite !elem_of_cons, elem_of_nil in Hw. by destruct Hw as [->|[->|[->|[->|[]]]]].
  - split_and!; [done| |done]. unfold isblack. by rewrite marked_set, has_lor, has_clr, H3, orb_false_r.
Qed.

Lemma has_weak_marks o w : weak_mode w → has (marked (set_weak_marks w o)) LJ_GC_WEAKVAL = has w LJ_GC_WEAKVAL.
Proof.
  intros Hw. unfold set_weak_marks. rewrite marked_set, has_lor, has_clr.
  change (Z.land (u8 (Z.lnot LJ_GC_WEAK)) LJ_GC_WEAKVAL) with 0. by rewrite has_0.
Qed.

(** The part before the loops: the metatable, the mode, the weak list. *)
Lemma traverse_mode_spec a t g g2 mode :
  gtyped g → heap g !! a = Some (OTab t) →
  uj_meta_lookup_mt (Tab.metatable t) MM_mode (mark_mt (Tab.metatable t) g) = (mode, g2) →
  mark_ok g g2 (option_list (Tab.metatable t)) ∧
  let w := match mode with Some (TGCV GT_STR s) => mode_bits (strdata g2 s) 0 | _ => 0 end in
  weak_mode w ∧
  tab_mode g a t = if w =? 0 then 0
                   else if negb (finalizer g2 =? 0) && (finalizer g2 =? a) then Z.lnot LJ_GC_WEAKVAL else w.
Proof.
  intros T E EL.
  assert (mark_ok g (mark_mt (Tab.metatable t) g) (option_list (Tab.metatable t))) as M1.
  { rewrite mark_mt_marks. by apply marks_spec. }
  pose proof (lookup_mt_spec (Tab.metatable t) MM_mode (mark_mt (Tab.metatable t) g) (or_intror eq_refl)) as M2.
  pose proof (lookup_mode_like g (mark_mt (Tab.metatable t) g) (Tab.metatable t) (ml_hle _ _ (mk_mle _ _ _ M1))) as Hm.
  rewrite EL in M2, Hm. simpl in M2, Hm.
  assert (mark_ok g g2 (option_list (Tab.metatable t))) as M.
  { rewrite <-(app_nil_r (option_list _)). by eapply mark_ok_app. }
  split; [done|]. pose proof (ml_hle _ _ (mk_mle _ _ _ M)) as L.
  assert (∀ s, weak_mode (mode_bits (strdata g2 s) 0)) as Hb.
  { intros s. apply mode_bits_mode. unfold weak_mode. set_solver. }
  assert (weak_mode 0) as H0 by (unfold weak_mode; set_solver).
  unfold tab_mode. rewrite <-Hm, (env_fin _ _ (h_env _ _ L)).
  destruct mode as [[| | |[] s|]|]; (split; [by auto|]); try done. by rewrite (strdata_like _ _ _ L).
Qed.

Lemma work_typed a p q g g' l : work a p q g g' l → gtyped g → gtyped g'.
Proof. intros W. apply gtyped_mono, W. Qed.

Lemma work_tab g g' a p q l t :
  work a p q g g' l → heap g !! a = Some (OTab t) →
  ∃ t', heap g' !! a = Some (OTab t') ∧ tab_like g t t'.
Proof.
  intros W E. destruct (hle_Some _ _ _ _ (wk_hle _ _ _ _ _ _ W) E) as (o' & E' & [Ho _ _]).
  destruct o'; try done. eauto.
Qed.

(** Marks of the object itself that a later marking leaves alone. *)
Lemma mark_ok_wbit g g' l a t t' :
  mark_ok g g' l → heap g !! a = Some (OTab t) → heap g' !! a = Some (OTab t') →
  has (Tab.marked t) LJ_GC_WEAKVAL = true → has (Tab.marked t') LJ_GC_WEAKVAL = true.
Proof. intros M. apply (ml_wbit _ _ (mk_mle _ _ _ M)). Qed.

Lemma traverse_tab_spec a t g g' w :
  gtyped g → heap g !! a = Some (OTab t) → gc_traverse_tab a t g = (g', w) →
  (0 <? w = false → mark_ok g g' (kids g a (OTab t))) ∧
  work a [] (if 0 <? w then [a] else []) g g' (kids g a (OTab t)) ∧
  ∀ t', heap g' !! a = Some (OTab t') → mode_ok g' a (tab_mode g a t) (OTab t').
Proof.
  intros T E ET. unfold gc_traverse_tab in ET.
  destruct (uj_meta_lookup_mt _ _ _) as [mode g2] eqn:EL.
  destruct (traverse_mode_spec a t g g2 mode T E EL) as (M2 & Hw & Hm). cbv zeta in Hw, Hm.
  set (w0 := match mode with Some (TGCV GT_STR s) => mode_bits (strdata g2 s) 0 | _ => 0 end) in *.
  pose proof (mark_ok_typed _ _ _ M2 T) as T2.
  unfold kids. cbn [kids_w]. rewrite Hm. unfold tab_kids.
  destruct (Z.eqb_spec w0 0) as [H0|Hn0].
  { rewrite H0 in ET. change (0 =? LJ_GC_WEAK) with false in ET. cbv iota in ET. apply pair_equal_spec in ET as [<- <-].
    assert (mark_ok g (if 0 <? Tab.hmask t then foldl (gc_mark_node 0) (gc_marktvs (Tab.array t) g2) (Tab.node t) else gc_marktvs (Tab.array t) g2)
      (option_list (Tab.metatable t) ++ tvaddrs (Tab.array t) ++ (if 0 <? Tab.hmask t then concat (node_kids 0 <$> Tab.node t) else []))) as M.
    { eapply mark_ok_app; [done|]. by apply (tab_kids_marks 0 t g2). }
    split_and!; [done|by apply mark_ok_work|intros t' E'; by left]. }
  destruct (negb (finalizer g2 =? 0) && (finalizer g2 =? a)) eqn:Ef.
  { change (Z.lnot LJ_GC_WEAKVAL =? LJ_GC_WEAK) with false in ET. cbv iota in ET. apply pair_equal_spec in ET as [<- <-].
    pose proof (tab_kids_marks (Z.lnot LJ_GC_WEAKVAL) t g2 T2 ltac:(done)) as M3. cbv zeta in M3.
    pose proof (mark_ok_app _ _ _ _ _ M2 M3) as M.
    split_and!; [done|by apply mark_ok_work|]. intros t' E'. right; left. split; [|done].
    rewrite (env_fin _ _ (h_env _ _ (ml_hle _ _ (mk_mle _ _ _ M3)))). lia. }
  destruct (hle_Some _ _ _ _ (ml_hle _ _ (mk_mle _ _ _ M2)) E) as (o2 & E2 & [Ho2 _ _]). destruct o2 as [| | | | | | |t2|]; try done.
  set (g3 := set_weak (a :: weak g2) (upd a (set_weak_marks w0) g2)) in *.
  assert (work a [] [a] g g3 (option_list (Tab.metatable t))) as W3.
  { rewrite <-(app_nil_r (option_list _)).
    apply (work_trans a [] [] [] [a] g g2); [by apply mark_ok_work|].
    apply work_local; try done.
    - assert (∀ o, heap g2 !! a = Some o → orel g2 o (set_weak_marks w0 o)) as Ho.
      { intros o Eo. apply weak_marks_orel; [done|]. by assert (o = OTab t2) as -> by congruence. }
      pose proof (hle_upd a (set_weak_marks w0) g2 Ho) as [He Hh].
      split; [|exact Hh]. revert He. unfold env_eq. by destruct g2.
    - intros x Hx. change (heap g3 !! x) with (heap (upd a (set_weak_marks w0) g2) !! x). by rewrite heap_upd, decide_False.
    - intros o o' Eo Eo'. change (heap g3 !! a) with (heap (upd a (set_weak_marks w0) g2) !! a) in Eo'.
      rewrite heap_upd, decide_True, Eo in Eo' by done. injection Eo' as <-. apply (weak_marks_orel g2); [done|]. by assert (o = OTab t2) as -> by congruence. }
  assert (0 <? w0 = true) as Hpos.
  { unfold weak_mode in Hw. rewrite !elem_of_cons, elem_of_nil in Hw. lia. }
  assert (∃ t3, heap g3 !! a = Some (OTab t3) ∧ has (Tab.marked t3) LJ_GC_WEAKVAL = has w0 LJ_GC_WEAKVAL) as (t3 & E3 & H3).
  { pose proof (has_weak_marks (OTab t2) w0 Hw) as Hb.
    exists (Tab.set_marked (Z.lor (clr (Tab.marked t2) LJ_GC_WEAK) w0) t2). split; [|exact Hb].
    change (heap g3 !! a) with (heap (upd a (set_weak_marks w0) g2) !! a). by rewrite heap_upd, decide_True, E2. }
  destruct (Z.eqb_spec w0 LJ_GC_WEAK) as [H24|Hn24].
  { apply pair_equal_spec in ET as [<- <-]. rewrite H24 in *. change (has LJ_GC_WEAK LJ_GC_WEAKVAL) with true in *. cbv iota.
    rewrite node_kids_weak, app_nil_l.
    assert ((if 0 <? Tab.hmask t then [] else []) = @nil Z) as -> by (by destruct (0 <? Tab.hmask t)).
    rewrite app_nil_r. split_and!; [done..|]. intros t' E'. right; right. split; [by left|]. intros _. congruence. }
  apply pair_equal_spec in ET as [<- <-]. rewrite Hpos.
  pose proof (tab_kids_marks w0 t g3 (work_typed _ _ _ _ _ _ W3 T) Hn24) as M4. cbv zeta in M4.
  split_and!; [done|by eapply work_mark|]. intros t' E'. right; right.
  destruct (ml_lists _ _ (mk_mle _ _ _ M4)) as (_ & Hwk & _). rewrite Hwk. split; [by left|].
  intros Hv. eapply (mark_ok_wbit _ _ _ a t3 t' M4); [done..|congruence].
Qed.

(** ** Threads *)

Lemma set_stack_orel g st ms o L :
  (∀ m, o ≠ OThread m L) ∨
  ((length st ≤ length (stack L))%nat ∧ ∀ i s, st !! i = Some s → s = SV TNil ∨ stack L !! i = Some s) →
  (∀ m L', o = OThread m L' → L' = L) → sat o = false → orel g o (set_stack st ms o) ∧ recolor o (set_stack st ms o).
Proof.
  intros HL Hu Hsat. destruct o as [| |m L'| | | | | |]; try (split; [apply orel_refl|done]).
  rewrite (Hu m L' eq_refl) in *. destruct HL as [HL|[Hlen Hs]]; [by destruct (HL m)|].
  split; [|done]. split; [|done..]. simpl. unfold th_like. simpl. split_and!; auto.
Qed.

Lemma clear_stack_work th g : work th [] [] g (gc_clear_upper_stack_slots th g) [].
Proof.
  unfold gc_clear_upper_stack_slots. destruct (heap g !! th) as [[]|] eqn:E; try apply mark_ok_work, mark_ok_nil.
  apply work_upd. intros o Eo. assert (o = OThread m L) as -> by congruence.
  apply (set_stack_orel g _ _ _ L); [right|by intros ? ? [= -> ->]|done]. split.
  - rewrite length_app, length_take, length_replicate. lia.
  - intros i s [Hi|[_ Hi]]%lookup_app_Some.
    + right. by apply lookup_take_Some in Hi as [? _].
    + left. by apply lookup_replicate in Hi as [-> _].
Qed.

Lemma resize_stack_work th n g :
  (∀ m L, heap g !! th = Some (OThread m L) → n + 1 + LJ_STACK_EXTRA ≤ Z.of_nat (length (stack L))) →
  work th [] [] g (state_resizestack th n g) [].
Proof.
  intros Hn. unfold state_resizestack. destruct (heap g !! th) as [[]|] eqn:E; try apply mark_ok_work, mark_ok_nil.
  specialize (Hn m L eq_refl). set (st := take _ _). set (tot := u64 _).
  assert (∀ o, heap g !! th = Some o → orel g o (set_stack st n o) ∧ recolor o (set_stack st n o)) as Ho.
  { intros o Eo. assert (o = OThread m L) as -> by congruence.
    apply (set_stack_orel g _ _ _ L); [right|by intros ? ? [= -> ->]|done].
    assert (st = take (Z.to_nat (n + 1 + LJ_STACK_EXTRA)) (stack L)) as ->.
    { unfold st. replace (Z.to_nat (n + 1 + LJ_STACK_EXTRA - _)) with O by lia. by rewrite app_nil_r. }
    split; [rewrite length_take; lia|]. intros i s Hi. right. by apply lookup_take_Some in Hi as [? _]. }
  pose proof (hle_upd th (set_stack st n) g (λ o Eo, proj1 (Ho o Eo))) as [He Hh].
  apply work_local; [|done|done|done| |].
  - split; [|exact Hh]. revert He. unfold env_eq. by destruct g.
  - intros x Hx. change (heap (upd th (set_stack st n) g) !! x = heap g !! x). by rewrite heap_upd, decide_False.
  - intros o o' Eo Eo'. change (heap (upd th (set_stack st n) g) !! th = Some o') in Eo'.
    rewrite heap_upd, decide_True, Eo in Eo' by done. injection Eo' as <-. by apply Ho.
Qed.

Lemma stack_shrink_work th used g : work th [] [] g (uj_state_stack_shrink th used g) [].
Proof.
  unfold uj_state_stack_shrink. destruct (heap g !! th) as [[]|] eqn:E; try apply mark_ok_work, mark_ok_nil.
  destruct (_ <? _); [apply mark_ok_work, mark_ok_nil|].
  destruct (_ && _) eqn:Hc; [|apply mark_ok_work, mark_ok_nil].
  apply resize_stack_work. intros m' L' E'. assert (L' = L) as -> by congruence.
  unfold LJ_STACK_EXTRA, LJ_STACK_START, LUA_MINSTACK in *. rewrite Z.shiftr_div_pow2 by lia.
  change (2 ^ 1) with 2. pose proof (Z.mul_div_le (Z.of_nat (length (stack L))) 2 ltac:(lia)). lia.
Qed.

Lemma traverse_thread_spec th L g :
  gtyped g → work th [] [] g (gc_traverse_thread th L g) (thread_kids th L).
Proof.
  intros T. unfold gc_traverse_thread, thread_kids.
  pose proof (traverse_stack_marks th L g) as H1. destruct (gc_traverse_stack th L g) as [g1 used]. simpl in H1.
  assert (work th [] [] g g1 (stack_kids (length (stack L)) th L (base L - 1) (top L))) as W1.
  { rewrite H1. apply mark_ok_work. by apply marks_spec. }
  set (g2 := if decide _ then _ else _).
  assert (work th [] [] g g2 (stack_kids (length (stack L)) th L (base L - 1) (top L))) as W2.
  { unfold g2. case_decide; [|done]. rewrite <-(app_nil_r (stack_kids _ _ _ _ _)).
    apply (work_trans th [] [] [] [] g g1); [done|]. apply clear_stack_work. }
  rewrite <-(app_nil_r (stack_kids _ _ _ _ _ ++ [_])). apply (work_trans th [] [] [] [] g (gc_markobj (th_env L) g2)).
  - eapply work_mark; [done|]. apply markobj_spec. by eapply work_typed.
  - apply stack_shrink_work.
Qed.

End Traverse.

End GcTraverse.
