(* ===== verification/GcPropagate.v ===== *)
(** * Propagation

    [propagatemark] traverses one gray object; [gc_propagate_gray] empties the gray list. *)

From stdpp Require Import base decidable list numbers option sets gmap.
From Stdlib Require Import ZArith Lia.
From S2P Require Import Prelude Obj Tab Bc Ir GcObj Gc GcInv GcMark GcTraverse.

Local Open Scope Z_scope.
Import Obj GcObj Gc GcInv GcMark GcTraverse.

Module GcPropagate.

Section Propagate.
Context `{OH : ObjHeap}.

(** ** One object *)

Lemma olike_open g o o' : olike g o o' → uv_open o' = uv_open o.
Proof. destruct o, o'; try done. simpl. by intros ->. Qed.
Lemma olike_never g o o' : olike g o o' → never o' = never o.
Proof. intros Ho. unfold never. rewrite (olike_open _ _ _ Ho). by destruct o, o'. Qed.

Record prop_ok (a : Z) (rest p q : list Z) (g g' : gstate) : Prop := {
  pr_hle : hle g g';
  pr_again : grayagain g' = p ++ grayagain g;
  pr_weak : weak g' = q ++ weak g;
  pr_own : p ++ q = [] ∧ (∀ o', heap g' !! a = Some o' → isblack o' = true ∧ never o' = false) ∨
           p ++ q = [a] ∧ ∀ o', heap g' !! a = Some o' → isblack o' = false;
  pr_black x o o' : x ≠ a → heap g !! x = Some o → heap g' !! x = Some o' → keeps o = true → isblack o' = true → isblack o = true;
  pr_stay x o o' : x ≠ a → heap g !! x = Some o → heap g' !! x = Some o' → keeps o = true → isblack o = true → isblack o' = true;
  pr_sat : sat_step g g';
  pr_gray : ∃ new, gray g' = new ++ rest ∧ new_gray g g' new;
  pr_closed X : closed g X → closed g' X;
  pr_settled o' : heap g' !! a = Some o' → settled g' a o';
  pr_only : only g g' [a] }.

(** The object is taken from the list and turned black. *)
Definition popped (a : Z) (rest : list Z) (g : gstate) : gstate := set_gray rest (upd a gray2black g).

Lemma heap_popped a rest g x :
  heap (popped a rest g) !! x = if decide (x = a) then gray2black <$> heap g !! a else heap g !! x.
Proof. apply heap_upd. Qed.

Lemma popped_hle a rest g : hle g (popped a rest g).
Proof.
  pose proof (hle_upd a gray2black g (λ o _, orel_g2b g o)) as [He Hh]. split; [|exact Hh].
  revert He. unfold env_eq. by destruct g.
Qed.

Lemma popped_white a rest g x o o' :
  heap g !! x = Some o → heap (popped a rest g) !! x = Some o' → iswhite o' = iswhite o.
Proof.
  intros E E'. rewrite heap_popped in E'. destruct (decide (x = a)) as [->|]; [|congruence].
  rewrite E in E'. injection E' as <-. apply white_g2b.
Qed.

Lemma popped_sat a rest g : sat_step g (popped a rest g).
Proof.
  apply (sat_other a); [intros x Hx; by rewrite heap_popped, decide_False|]. intros o o' E E' _ _.
  rewrite heap_popped, decide_True, E in E' by done. injection E' as <-. unfold wb. by rewrite black_g2b, orb_true_r.
Qed.

Lemma popped_closed a rest g X : gray g = a :: rest → closed g X → closed (popped a rest g) (λ x, X x ∨ x = a).
Proof.
  intros G C. eapply (closed_step g); [apply popped_hle|done|done|].
  intros x o o' E E' W S Hg Hx. left. rewrite <-(popped_white a rest g x o o') by done.
  split_and!; [done|rewrite G; change (gray (popped a rest g)) with rest in Hg; set_solver|naive_solver|].
  intros t t' E1 E2. rewrite heap_popped, decide_False in E2 by naive_solver. congruence.
Qed.

Lemma new_pop g g1 g2 new :
  hle g g1 → (∀ x o o', heap g !! x = Some o → heap g1 !! x = Some o' → iswhite o' = iswhite o) →
  new_gray g1 g2 new → hle g1 g2 → new_gray g g2 new.
Proof.
  intros L1 Hw N L2. rewrite <-(app_nil_r new). eapply new_app; [done|done| |done].
  apply new_nil. intros x o o' E E' _. by apply (Hw x).
Qed.

Lemma only_pop g g1 g2 a l o1 :
  hle g g1 → hle g1 g2 → (∀ x o o', heap g !! x = Some o → heap g1 !! x = Some o' → iswhite o' = iswhite o) →
  only g1 g2 l → heap g1 !! a = Some o1 → l ⊆ kids g1 a o1 → only g g2 [a].
Proof.
  intros L1 L2 Hw O E1 Hl. apply (only_kids _ _ _ l).
  - change (a :: l) with ([a] ++ l). apply (only_trans g g1 g2); [done|done| |done].
    intros R _ _ x o o' E E' W W'. specialize (Hw x o o' E E'). congruence.
  - intros b Hb. apply (edge_sub g g1); [done|]. exists o1. split; [done|]. by apply Hl.
Qed.

(** What the work on the object amounts to. *)
Lemma work_prop a rest p q g g' o1 :
  gray g = a :: rest → heap (popped a rest g) !! a = Some o1 → listed o1 = true →
  work a p q (popped a rest g) g' (kids (popped a rest g) a o1) →
  (∀ o', heap g' !! a = Some o' → mode_ok g' a (match o1 with OTab t => tab_mode (popped a rest g) a t | _ => 0 end) o') →
  (p ++ q = [] ∧ (∀ o', heap g' !! a = Some o' → isblack o' = true ∧ never o' = false) ∨
   p ++ q = [a] ∧ ∀ o', heap g' !! a = Some o' → isblack o' = false) →
  prop_ok a rest p q g g'.
Proof.
  intros G E1 Hl W Hm Hpq. pose proof (popped_hle a rest g) as L1. pose proof (wk_hle _ _ _ _ _ _ W) as L2.
  assert (∀ o', heap g' !! a = Some o' → settled g' a o') as HS.
  { intros o' E'. eexists. split; [by apply Hm|]. intros b Hb. apply (wk_done _ _ _ _ _ _ W). unfold kids.
    destruct (hle_Some _ _ _ _ L2 E1) as (o2 & E2 & [Ho _ _]). assert (o2 = o') as -> by congruence.
    by apply (kids_w_sub _ _ _ a o1 o' L2 Ho). }
  split.
  - by transitivity (popped a rest g).
  - apply (wk_again _ _ _ _ _ _ W).
  - apply (wk_weak _ _ _ _ _ _ W).
  - done.
  - intros x o o' Hx E. apply (wk_black _ _ _ _ _ _ W x). by rewrite heap_popped, decide_False.
  - intros x o o' Hx E. apply (wk_stay _ _ _ _ _ _ W x); [done|]. by rewrite heap_popped, decide_False.
  - eapply sat_trans; [done|apply popped_sat|apply W].
  - destruct (wk_gray _ _ _ _ _ _ W) as (new & HG & HN). exists new. split; [done|].
    eapply new_pop; [done|apply popped_white|done|done].
  - intros X C. eapply closed_drop; [|done]. by apply W, popped_closed.
  - done.
  - eapply only_pop; [done|done|apply popped_white|apply W|done|done].
Qed.

(** Weak tables and threads stay gray. *)
Lemma work_gray a g o : heap g !! a = Some o → sat o = false → work a [] [] g (upd a black2gray g) [].
Proof.
  intros E Hs. apply work_upd. intros o' E'. assert (o' = o) as -> by congruence.
  split; [apply orel_b2g|by apply recolor_b2g].
Qed.

Lemma settled_gray a g t w :
  heap g !! a = Some (OTab t) → mode_ok g a w (OTab t) →
  ∀ o', heap (upd a black2gray g) !! a = Some o' → mode_ok (upd a black2gray g) a w o'.
Proof.
  intros E Hm o' E'. rewrite heap_upd, decide_True, E in E' by done. injection E' as <-.
  destruct Hm as [?|[?|[? Hv]]]; [by left|by right; left|right; right]. split; [done|].
  intros Hw. specialize (Hv Hw). by change (has (clr (Tab.marked t) LJ_GC_BLACK) LJ_GC_WEAKVAL = true); rewrite has_clr.
Qed.

Lemma black_gray a g o : heap (upd a black2gray g) !! a = Some o → isblack o = false.
Proof.
  rewrite heap_upd, decide_True by done. destruct (heap g !! a); [|done]. intros [= <-]. apply black_b2g.
Qed.

Lemma mark_ok_mode g g' l a o1 :
  mark_ok g g' l → heap g !! a = Some o1 → (∀ t, o1 ≠ OTab t) →
  ∀ o', heap g' !! a = Some o' → mode_ok g' a (match o1 with OTab t => tab_mode g a t | _ => 0 end) o'.
Proof.
  intros M E Ht o' E'. destruct (hle_Some _ _ _ _ (ml_hle _ _ (mk_mle _ _ _ M)) E) as (o2 & E2 & [Ho _ _]).
  assert (o2 = o') as -> by congruence. destruct o1, o'; try done. by destruct (Ht t).
Qed.

Lemma popped_black a rest g : ∀ o, heap (popped a rest g) !! a = Some o → isblack o = true.
Proof.
  intros o. rewrite heap_popped, decide_True by done. destruct (heap g !! a); [|done]. intros [= <-]. apply black_g2b.
Qed.
Lemma mark_ok_black g g' l a o1 :
  mark_ok g g' l → heap g !! a = Some o1 → listed o1 = true → never o1 = false → (∀ o, heap g !! a = Some o → isblack o = true) →
  ∀ o', heap g' !! a = Some o' → isblack o' = true ∧ never o' = false.
Proof.
  intros M E Hl Hn Hb o' E'. destruct (hle_Some _ _ _ _ (ml_hle _ _ (mk_mle _ _ _ M)) E) as (o2 & E2 & [Ho _ _]).
  assert (o2 = o') as -> by congruence. rewrite (olike_never _ _ _ Ho). split; [|done]. rewrite (ml_black _ _ (mk_mle _ _ _ M) a o1 o'); [auto|done..|]. unfold keeps. by rewrite Hl.
Qed.

Lemma propagate_tab a rest g t :
  gray g = a :: rest → heap (popped a rest g) !! a = Some (OTab t) → gtyped (popped a rest g) →
  let '(g', w) := gc_traverse_tab a t (popped a rest g) in
  prop_ok a rest [] (if 0 <? w then [a] else []) g (if 0 <? w then upd a black2gray g' else g').
Proof.
  intros G E1 T1. destruct (gc_traverse_tab _ _ _) as [g' w] eqn:ET. set (g1 := popped a rest g) in *.
  destruct (traverse_tab_spec a t g1 g' w T1 E1 ET) as (HM & W & Hm).
  destruct (work_tab _ _ _ _ _ _ _ W E1) as (t' & E' & Ht). specialize (Hm t' E').
  assert (isblack (OTab t) = true) as Hbt.
  { unfold g1 in E1. rewrite heap_popped, decide_True in E1 by done. destruct (heap g !! a) as [o|]; [|done].
    injection E1 as Eo. rewrite <-Eo. apply black_g2b. }
  destruct (0 <? w).
  - apply (work_prop a rest [] [a] g _ _ G E1 eq_refl).
    + rewrite <-(app_nil_r (kids _ _ _)). apply (work_trans a [] [a] [] [] g1 g' _ _ []); [done|]. by eapply work_gray.
    + by apply (settled_gray a g' t').
    + right. split; [done|]. intros o' Eo. by eapply black_gray.
  - apply (work_prop a rest [] [] g _ _ G E1 eq_refl); [done| |left; split; [done|]].
    + intros o' Eo. by assert (o' = OTab t') as -> by congruence.
    + intros o' Eo. split; [|by assert (o' = OTab t') as -> by congruence]. rewrite <-Hbt. by apply (ml_black _ _ (mk_mle _ _ _ (HM eq_refl)) a (OTab t) o').
Qed.

Lemma propagatemark_spec a rest g o :
  gray g = a :: rest → heap g !! a = Some o → listed o = true → gtyped g →
  ∃ p q, prop_ok a rest p q g (propagatemark g).1.
Proof.
  intros G E Hl T. unfold propagatemark. rewrite G. fold (popped a rest g).
  pose proof (gtyped_mono _ _ (popped_hle a rest g) T) as T1.
  assert (heap (popped a rest g) !! a = Some (gray2black o)) as E1 by (by rewrite heap_popped, decide_True, E).
  rewrite E1. destruct o; try done; cbn [gray2black set_marked marked] in *.
  - (* thread *)
    set (m1 := Z.lor m _) in *. set (g1 := popped a rest g) in *. cbn [fst].
    set (g2 := upd a black2gray (set_grayagain (a :: grayagain g1) g1)).
    assert (work a [a] [] g1 g2 []) as W1.
    { apply (work_trans a [a] [] [] [] g1 (set_grayagain (a :: grayagain g1) g1) _ [] []); [|by eapply work_gray].
      apply work_local; try done. 2:{ intros o o' Eo Eo'. change (heap g1 !! a = Some o') in Eo'. assert (o' = o) as -> by congruence. split_and!; [done|done|].
        by assert (o = OThread m1 L) as -> by congruence. }
      split; [by destruct g1|]. exact (h_obj _ _ (hle_refl g1)). }
    assert (gtyped g2) as T2 by (by eapply work_typed).
    pose proof (traverse_thread_spec a L g2 T2) as W2.
    exists [a], []. eapply (work_prop a rest [a] [] g _ _ G E1 eq_refl).
    + by apply (work_trans a [a] [] [] [] g1 g2 _ []).
    + intros o' E'. destruct (hle_Some _ _ _ _ (wk_hle _ _ _ _ _ _ (work_trans _ _ _ _ _ _ _ _ _ _ W1 W2)) E1) as (o2 & E2 & [Ho _ _]).
      assert (o2 = o') as -> by congruence. by destruct o'.
    + right. split; [done|]. intros o' E'. destruct (isblack o') eqn:Hb; [|done].
      assert (heap g2 !! a = Some (black2gray (OThread m1 L))) as E2.
      { change (heap g2 !! a) with (heap (upd a black2gray g1) !! a). by rewrite heap_upd, decide_True, E1. }
      pose proof (wk_black _ _ _ _ _ _ W2 a _ _ E2 E' eq_refl Hb) as Hx. by rewrite black_b2g in Hx.
  - (* prototype *)
    exists [], []. pose proof (traverse_proto_spec pt _ T1 (λ o Eo, gt_name _ T1 a _ pt o E1 Eo)) as M. cbn [fst].
    apply (work_prop a rest [] [] g _ _ G E1 eq_refl); [by apply mark_ok_work| |left; split; [done|]].
    + by apply (mark_ok_mode _ _ _ _ _ M E1).
    + eapply mark_ok_black; [done..|]. apply (popped_black a rest g).
  - (* function *)
    exists [], []. pose proof (traverse_func_spec fn _ T1) as M. cbn [fst].
    apply (work_prop a rest [] [] g _ _ G E1 eq_refl); [by apply mark_ok_work| |left; split; [done|]].
    + by apply (mark_ok_mode _ _ _ _ _ M E1).
    + eapply mark_ok_black; [done..|]. apply (popped_black a rest g).
  - (* trace *)
    exists [], []. pose proof (traverse_trace_spec T0 _ T1) as M. cbn [fst].
    apply (work_prop a rest [] [] g _ _ G E1 eq_refl); [by apply mark_ok_work| |left; split; [done|]].
    + by apply (mark_ok_mode _ _ _ _ _ M E1).
    + eapply mark_ok_black; [done..|]. apply (popped_black a rest g).
  - (* table *)
    pose proof (propagate_tab a rest g _ G E1 T1) as HP.
    destruct (gc_traverse_tab _ _ _) as [g' w]. cbn [fst]. eauto.
Qed.

(** ** The gray lists *)

Definition lists (g : gstate) : list Z := gray g ++ grayagain g ++ weak g.

(** An object is on one list at most, once, and it is gray; an object whose black mark is set by its
    own traversal is not white and black, and open upvalues and threads are never black. *)
Definition gray_at (g : gstate) (x : Z) : Prop :=
  ∃ o, heap g !! x = Some o ∧ listed o = true ∧ iswhite o = false ∧ isblack o = false.
Record gray_ok (g : gstate) : Prop := {
  go_nodup : NoDup (lists g);
  go_gray x : x ∈ lists g → gray_at g x;
  go_all x o : heap g !! x = Some o → listed o = true → uj_obj_is_sealed o = false → iswhite o = false → isblack o = false →
    x ∈ lists g;
  go_white x o : heap g !! x = Some o → keeps o = true → iswhite o || never o = true → isblack o = false }.

Lemma hle_notwhite g g' x o o' :
  hle g g' → heap g !! x = Some o → heap g' !! x = Some o' → iswhite o = false → iswhite o' = false.
Proof.
  intros L E E' W. destruct (hle_Some _ _ _ _ L E) as (o2 & E2 & [_ _ Hw]).
  assert (o2 = o') as -> by congruence. destruct (iswhite o'); [|done]. by rewrite Hw in W.
Qed.

Lemma listed_keeps o : listed o = true → keeps o = true.
Proof. unfold keeps. by intros ->. Qed.

Lemma gray_ok_step g g' new own rest :
  hle g g' → gray_ok g → new_gray g g' new →
  lists g' ≡ₚ new ++ own ++ rest → NoDup (own ++ rest) → (∀ x, x ∈ own ++ rest → x ∈ lists g) →
  (∀ x o o', x ∉ own → heap g !! x = Some o → heap g' !! x = Some o' → keeps o = true → isblack o' = true →
     isblack o = true ∨ x ∉ lists g' ∧ iswhite o = false ∧ never o = false) →
  (∀ x o', x ∈ own → heap g' !! x = Some o' → isblack o' = false) →
  (∀ x o o', heap g !! x = Some o → heap g' !! x = Some o' → listed o = true → iswhite o = false → isblack o' = false →
     x ∈ own ∨ isblack o = false ∧ (x ∈ lists g → x ∈ rest)) →
  gray_ok g'.
Proof.
  intros L [D G A W] [DN N] HP DO HO HB HOB HA.
  assert (∀ x, x ∈ lists g → ∃ o o', heap g !! x = Some o ∧ heap g' !! x = Some o' ∧ listed o = true ∧ listed o' = true ∧
    iswhite o' = false ∧ isblack o = false) as HG.
  { intros x (o & E & Hl & Hw & Hb)%G. destruct (hle_Some _ _ _ _ L E) as (o' & E' & [Ho _ _]).
    exists o, o'. split_and!; try done; [by rewrite (olike_listed _ _ _ Ho)|by eapply (hle_notwhite g g')]. }
  split.
  - rewrite HP. apply NoDup_app. split_and!; [done| |done].
    intros x (o & o' & E & E' & _ & Hw & Hw')%N Hx. destruct (G x (HO x Hx)) as (? & ? & _ & ? & _). congruence.
  - intros x Hx. pose proof Hx as Hx'. rewrite HP in Hx. apply elem_of_app in Hx as [Hx|Hx].
    + apply N in Hx as (o & o' & E & E' & Hl & Hw & Hw').
      destruct (hle_Some _ _ _ _ L E) as (o2 & E2 & [Ho _ _]). assert (o2 = o') as -> by congruence.
      exists o'. split_and!; try done; [by rewrite (olike_listed _ _ _ Ho)|].
      destruct (isblack o') eqn:Hb; [|done]. assert (isblack o = false) as Hnb.
      { apply (W x); [done|by apply listed_keeps|by rewrite Hw]. }
      destruct (decide (x ∈ own)) as [Hxo|Hxo]; [rewrite (HOB x o') in Hb; done|].
      destruct (HB x o o' Hxo E E' (listed_keeps _ Hl) Hb) as [?|[? _]]; [congruence|done].
    + destruct (HG x (HO x Hx)) as (o & o' & E & E' & Hl & Hl' & Hw & Hnb). exists o'. split_and!; try done.
      destruct (isblack o') eqn:Hb; [|done].
      destruct (decide (x ∈ own)) as [Hxo|Hxo]; [rewrite (HOB x o') in Hb; done|].
      destruct (HB x o o' Hxo E E' (listed_keeps _ Hl) Hb) as [?|[? _]]; [congruence|done].
  - intros x o' E' Hl' Hs' Hw' Hb'. destruct (hle_Some_r _ _ _ _ L E') as (o & E & [Ho Hse _]).
    rewrite (olike_listed _ _ _ Ho) in Hl'. rewrite Hse in Hs'. rewrite HP. destruct (iswhite o) eqn:HWo.
    + apply elem_of_app. left. apply N. exists o, o'. done.
    + apply elem_of_app. right. apply elem_of_app.
      destruct (HA x o o' E E' Hl' HWo Hb') as [?|[Hb Hr]]; [by left|right]. apply Hr. by apply (A x o).
  - intros x o' E' Hk Hw. destruct (hle_Some_r _ _ _ _ L E') as (o & E & [Ho _ HW]).
    rewrite (olike_keeps _ _ _ Ho) in Hk. rewrite (olike_never _ _ _ Ho) in Hw.
    assert (isblack o = false) as Hnb.
    { apply (W x); [done|done|]. destruct (never o); [apply orb_true_r|]. rewrite orb_false_r in *. auto. }
    destruct (isblack o') eqn:Hb; [|done].
    destruct (decide (x ∈ own)) as [Hxo|Hxo]; [rewrite (HOB x o') in Hb; done|].
    destruct (HB x o o' Hxo E E' Hk Hb) as [?|(_ & HW1 & HW2)]; [congruence|].
    rewrite HW2, orb_false_r in Hw. rewrite HW in HW1; done.
Qed.

Lemma mle_gray_ok g g' : mle g g' → gray_ok g → gray_ok g'.
Proof.
  intros M G. destruct (ml_gray _ _ M) as (new & EG & N). destruct (ml_lists _ _ M) as (E1 & E2 & _).
  apply (gray_ok_step g g' new [] (lists g)); [apply M|done|done| |apply G|done| | |].
  - unfold lists. by rewrite EG, E1, E2, <-app_assoc.
  - intros x o o' _ E E' Hk Hb. left. by rewrite <-(ml_black _ _ M x o o').
  - intros x o' []%elem_of_nil.
  - intros x o o' E E' Hl _ Hb. right. split; [|done]. rewrite <-(ml_black _ _ M x o o'); [done..|]. by apply listed_keeps.
Qed.

Lemma prop_gray_ok a rest p q g g' :
  gray g = a :: rest → prop_ok a rest p q g g' → gray_ok g → gray_ok g'.
Proof.
  intros EG P G. destruct (pr_gray _ _ _ _ _ _ P) as (new & EG' & N).
  assert (lists g = a :: rest ++ grayagain g ++ weak g) as EL by (unfold lists; by rewrite EG).
  pose proof (go_nodup _ G) as D. rewrite EL in D. apply NoDup_cons in D as [Da D].
  assert (lists g' ≡ₚ new ++ (p ++ q) ++ rest ++ grayagain g ++ weak g) as EL'.
  { unfold lists. rewrite EG', (pr_again _ _ _ _ _ _ P), (pr_weak _ _ _ _ _ _ P). solve_Permutation. }
  destruct (go_gray _ G a) as (oa & Ea & Hla & Hwa & Hba); [rewrite EL; by left|].
  assert (a ∉ new) as Hna.
  { intros (o & ? & E & _ & _ & ? & _)%(proj2 N). congruence. }
  apply (gray_ok_step g g' new (p ++ q) (rest ++ grayagain g ++ weak g)); [apply P|done|done|done| | | | |].
  - destruct (pr_own _ _ _ _ _ _ P) as [[-> _]|[-> _]]; [done|]. by apply NoDup_cons.
  - intros x. rewrite EL. destruct (pr_own _ _ _ _ _ _ P) as [[-> _]|[-> _]]; [by right|done].
  - intros x o o' Hx E E' Hk Hb. destruct (decide (x = a)) as [->|Hxa].
    + right. destruct (pr_own _ _ _ _ _ _ P) as [[H0 HN0]|[H1 _]]; [|rewrite H1 in Hx; set_solver].
      assert (o = oa) as -> by congruence. split_and!; [rewrite EL', H0; set_solver|done|].
      destruct (hle_Some _ _ _ _ (pr_hle _ _ _ _ _ _ P) E) as (o2 & E2 & [Ho _ _]). assert (o2 = o') as -> by congruence.
      rewrite <-(olike_never _ _ _ Ho). by apply HN0.
    + left. by apply (pr_black _ _ _ _ _ _ P x o o').
  - intros x o' Hx E'. destruct (pr_own _ _ _ _ _ _ P) as [[H0 _]|[H1 Hb]]; [rewrite H0 in Hx; by apply elem_of_nil in Hx|].
    rewrite H1 in Hx. apply list_elem_of_singleton in Hx as ->. by apply Hb.
  - intros x o o' E E' Hl _ Hb. destruct (decide (x = a)) as [->|Hxa].
    + left. destruct (pr_own _ _ _ _ _ _ P) as [[_ Hbl]|[-> _]]; [rewrite (proj1 (Hbl o' E')) in Hb; done|by left].
    + right. split; [|rewrite EL; set_solver]. destruct (isblack o) eqn:Hbo; [|done].
      rewrite (pr_stay _ _ _ _ _ _ P x o o') in Hb; [done..|by apply listed_keeps|done].
Qed.

(** ** All gray objects *)

(** Any sequence of marking and propagation; [l] are the objects it starts from. *)
Record progress (g g' : gstate) (l : list Z) : Prop := {
  pg_hle : hle g g';
  pg_ok : gray_ok g → gray_ok g';
  pg_again : grayagain g ⊆ grayagain g';
  pg_weak : weak g ⊆ weak g';
  pg_sat : sat_step g g';
  pg_closed X : closed g X → closed g' X;
  pg_only : only g g' l }.

Lemma progress_nil g : progress g g [].
Proof. split; [reflexivity|done|done|done|apply sat_refl|done|apply only_refl]. Qed.
Lemma progress_trans g1 g2 g3 l1 l2 : progress g1 g2 l1 → progress g2 g3 l2 → progress g1 g3 (l1 ++ l2).
Proof.
  intros [L1 K1 A1 W1 S1 C1 O1] [L2 K2 A2 W2 S2 C2 O2].
  split; [by transitivity g2|auto|set_solver|set_solver|by eapply sat_trans|auto|by eapply only_trans].
Qed.
Lemma progress_sub g g' l l' : l ⊆ l' → progress g g' l → progress g g' l'.
Proof. intros S [L K A W ST C O]. split; try done. intros R HR Hl. apply O; [done|]. intros b Hb. by apply Hl, S. Qed.
Lemma mark_ok_progress g g' l : mark_ok g g' l → progress g g' l.
Proof.
  intros M. split; [apply M|by apply mle_gray_ok, M| | |apply M|apply M|apply M].
  - by destruct (ml_lists _ _ (mk_mle _ _ _ M)) as (-> & _).
  - by destruct (ml_lists _ _ (mk_mle _ _ _ M)) as (_ & -> & _).
Qed.
Lemma progress_typed g g' l : progress g g' l → gtyped g → gtyped g'.
Proof. intros P. apply gtyped_mono, P. Qed.

Definition whites (g : gstate) : gset Z := dom (filter (λ p : Z * GCobj, iswhite p.2 = true) (heap g)).

Lemma elem_of_whites g x : x ∈ whites g ↔ ∃ o, heap g !! x = Some o ∧ iswhite o = true.
Proof.
  unfold whites. rewrite elem_of_dom. split.
  - intros [o Ho]. apply map_lookup_filter_Some in Ho. eauto.
  - intros (o & E & Hw). exists o. by apply map_lookup_filter_Some.
Qed.

Lemma whites_size g : (size (whites g) ≤ size (heap g))%nat.
Proof.
  rewrite <-(size_dom (D := gset Z) (heap g)). apply subseteq_size. intros x (o & E & _)%elem_of_whites.
  by apply elem_of_dom_2 in E.
Qed.

Lemma new_whites g g' new : hle g g' → new_gray g g' new → (length new + size (whites g') ≤ size (whites g))%nat.
Proof.
  intros L [D N]. assert (length new = size (list_to_set new : gset Z)) as -> by (by rewrite size_list_to_set).
  rewrite <-size_union.
  - apply subseteq_size. intros x [Hx|Hx]%elem_of_union; apply elem_of_whites.
    + apply elem_of_list_to_set, N in Hx as (o & _ & E & _ & _ & W & _). eauto.
    + apply elem_of_whites in Hx as (o' & E' & W'). destruct (hle_Some_r _ _ _ _ L E') as (o & E & [_ _ Hw]). eauto.
  - intros x Hx (o' & E' & W')%elem_of_whites.
    apply elem_of_list_to_set, N in Hx as (_ & o2 & _ & E2 & _ & _ & W2). congruence.
Qed.

Lemma propagatemark_progress a rest g :
  gray g = a :: rest → gtyped g → gray_ok g →
  progress g (propagatemark g).1 [a] ∧
  ∃ new, gray (propagatemark g).1 = new ++ rest ∧ new_gray g (propagatemark g).1 new.
Proof.
  intros EG T G. destruct (go_gray _ G a) as (o & E & Hl & _); [unfold lists; rewrite EG; by left|].
  destruct (propagatemark_spec a rest g o EG E Hl T) as (p & q & P). split; [|apply P].
  split; [apply P|intros; by eapply prop_gray_ok| | |apply P|apply P|apply P].
  - rewrite (pr_again _ _ _ _ _ _ P). set_solver.
  - rewrite (pr_weak _ _ _ _ _ _ P). set_solver.
Qed.

Lemma propagate_loop_progress n m g :
  gtyped g → gray_ok g → (length (gray g) + size (whites g) ≤ n)%nat →
  progress g (propagate_loop n m g).1 (gray g) ∧ gray (propagate_loop n m g).1 = [].
Proof.
  revert m g. induction n as [|n IH]; intros m g T G Hn.
  { destruct (gray g) eqn:EG; simpl in Hn; [|lia]. simpl. split; [apply progress_nil|done]. }
  cbn [propagate_loop]. destruct (gray g) as [|a rest] eqn:EG; [split; [apply progress_nil|done]|].
  destruct (propagatemark_progress a rest g EG T G) as [P (new & EN & N)].
  destruct (propagatemark g) as [g1 c]. cbn [fst] in *.
  pose proof (new_whites _ _ _ (pg_hle _ _ _ P) N) as HN.
  destruct (IH (m + c) g1) as [P2 HE]; [by eapply progress_typed|by apply P|rewrite EN, length_app; simpl in Hn; lia|].
  split; [|done]. destruct (progress_trans _ _ _ _ _ P P2) as [L K A WK ST C O]. split; try done.
  intros R HR Hl. apply O; [done|]. intros b [Hb|Hb]%elem_of_app; [apply Hl; set_solver|].
  rewrite EN in Hb. apply elem_of_app in Hb as [Hb|Hb]; [|apply Hl; set_solver].
  apply N in Hb as (o & o' & E & E' & _ & HW & HW'). eapply (pg_only _ _ _ P R HR); [|done..].
  intros b' ->%list_elem_of_singleton. apply Hl. by left.
Qed.

Lemma propagate_gray_spec g :
  gtyped g → gray_ok g →
  progress g (gc_propagate_gray g).1 (gray g) ∧ gray (gc_propagate_gray g).1 = [].
Proof.
  intros T G. apply propagate_loop_progress; [done|done|]. pose proof (whites_size g). lia.
Qed.

End Propagate.

End GcPropagate.
