(* ===== verification/GcSweepSpec.v ===== *)
(** * What a sweep keeps and what it frees *)

From stdpp Require Import base decidable list numbers option sets gmap.
From Stdlib Require Import ZArith Lia.
From S2P Require Import Prelude Obj Tab Str GcObj Gc GcSweep GcInv.

Local Open Scope Z_scope.
Import Obj GcObj Gc GcSweep GcInv.

Module GcSweepSpec.

(** The current white comes with [LJ_GC_FIXED]. *)
Definition white_ok (g : gstate) : Prop :=
  currentwhite g = Z.lor LJ_GC_WHITE0 LJ_GC_FIXED ∨ currentwhite g = Z.lor LJ_GC_WHITE1 LJ_GC_FIXED.

(** ** Marks *)

Definition fixed (o : GCobj) : bool := has (marked o) LJ_GC_FIXED.

(** What the sweep frees. *)
Definition doomed (g : gstate) (o : GCobj) : bool := isdead g o && negb (fixed o).

Definition otherbit (g : gstate) : Z := if currentwhite g =? Z.lor LJ_GC_WHITE0 LJ_GC_FIXED then 1 else 0.

Lemma other_white g : white_ok g → otherwhite g = Z.lor (2 ^ otherbit g) (2 ^ 5) ∧ 0 ≤ otherbit g < 2.
Proof. unfold otherwhite, otherbit. by intros [->| ->]. Qed.

Lemma curwhite_white g : white_ok g → has (curwhite g) LJ_GC_WHITES = true.
Proof. unfold curwhite. by intros [->| ->]. Qed.

Lemma has_pow2 m k : 0 ≤ k → has m (2 ^ k) = Z.testbit m k.
Proof.
  intros Hk. unfold has. pose proof (land_pow2_zero m k Hk) as H. rewrite <-Z.testbit_false in H by done.
  destruct (Z.eqb_spec (Z.land m (2 ^ k)) 0) as [E|E], (Z.testbit m k); try done; [by apply H in E|by destruct E; apply H].
Qed.
Lemma has_lor_r m b c : has m (Z.lor b c) = has m b || has m c.
Proof. unfold has. rewrite Z.land_comm. rewrite (Z.land_comm m b), (Z.land_comm m c). apply has_lor. Qed.

Lemma isdead_bit g o : white_ok g → isdead g o = Z.testbit (marked o) (otherbit g).
Proof.
  intros W. unfold isdead. rewrite has_land. destruct (other_white g W) as [-> Hb].
  assert (Z.land (Z.lor (2 ^ otherbit g) (2 ^ 5)) LJ_GC_WHITES = 2 ^ otherbit g) as ->.
  { assert (otherbit g = 0 ∨ otherbit g = 1) as [->| ->] by lia; done. }
  apply has_pow2. lia.
Qed.

Lemma makewhite_bit g o : white_ok g → Z.testbit (marked (makewhite g o)) (otherbit g) = false.
Proof.
  intros W. unfold makewhite. rewrite marked_set. unfold clr, curwhite, otherbit.
  rewrite Z.lor_spec, !Z.land_spec. destruct W as [->| ->]; by rewrite andb_false_r.
Qed.
Lemma makewhite_live g o : white_ok g → isdead g (makewhite g o) = false.
Proof. intros W. rewrite isdead_bit by done. by apply makewhite_bit. Qed.

(** The test of the sweep: what is not dead or is fixed is kept. *)
Lemma sweep_test g o : white_ok g → has (Z.lxor (marked o) LJ_GC_WHITES) (otherwhite g) = negb (doomed g o).
Proof.
  intros W. unfold doomed, fixed. rewrite isdead_bit by done. destruct (other_white g W) as [-> Hb].
  change LJ_GC_FIXED with (2 ^ 5). rewrite has_lor_r, !has_pow2, !Z.lxor_spec by lia.
  assert (Z.testbit LJ_GC_WHITES 5 = false) as -> by done.
  assert (Z.testbit LJ_GC_WHITES (otherbit g) = true) as ->.
  { assert (otherbit g = 0 ∨ otherbit g = 1) as [->| ->] by lia; done. }
  by destruct (Z.testbit _ (otherbit g)), (Z.testbit _ 5).
Qed.

(** ** What is kept *)

(** The same object, up to its marks; a thread may lose open upvalues and an upvalue may be closed. *)
Definition same_data (o o' : GCobj) : Prop :=
  match o, o' with
  | OStr _ x, OStr _ x' => x' = x
  | OUpval _ u, OUpval _ u' => u' = u ∨ uv_closed u = false ∧ uv_closed u' = true
  | OThread _ L, OThread _ L' => stack L' = stack L ∧ base L' = base L ∧ top L' = top L ∧ th_env L' = th_env L
  | OProto _ x, OProto _ x' => x' = x
  | OFunc _ x, OFunc _ x' => x' = x
  | OTrace _ x, OTrace _ x' => x' = x
  | OCdata _ x, OCdata _ x' => x' = x
  | OTab t, OTab t' => t' = Tab.set_marked (Tab.marked t') t
  | OUdata _ x, OUdata _ x' => x' = x
  | _, _ => False
  end.

Lemma same_data_refl o : same_data o o.
Proof. destruct o; simpl; auto. by destruct t. Qed.
Lemma same_data_trans o1 o2 o3 : same_data o1 o2 → same_data o2 o3 → same_data o1 o3.
Proof.
  destruct o1, o2; try done; destruct o3; try done; simpl; try congruence.
  - intros [->|[? ?]] [->|[? ?]]; auto.
  - intros (? & ? & ? & ?) (? & ? & ? & ?). split_and!; congruence.
  - intros -> ->. done.
Qed.
Lemma same_data_marked m o : same_data o (set_marked m o).
Proof. destruct o; simpl; auto. Qed.

(** Objects that are not dead, but for [D], are kept and are not dead. *)
Record kept (D : Z → Prop) (g g' : gstate) : Prop := {
  kp_white : currentwhite g' = currentwhite g;
  kp_live x o : ¬ D x → heap g !! x = Some o → isdead g o = false →
    ∃ o', heap g' !! x = Some o' ∧ isdead g o' = false ∧ same_data o o' }.

Lemma isdead_cw g g' o : currentwhite g' = currentwhite g → isdead g' o = isdead g o.
Proof. intros H. unfold isdead, otherwhite. by rewrite H. Qed.

Lemma doomed_cw g g' o : currentwhite g' = currentwhite g → doomed g' o = doomed g o.
Proof. intros H. unfold doomed. by rewrite (isdead_cw g g'). Qed.

Lemma kept_refl D g : kept D g g.
Proof. split; [done|]. intros x o _ E Hd. exists o. auto using same_data_refl. Qed.
Lemma kept_trans D g1 g2 g3 : kept D g1 g2 → kept D g2 g3 → kept D g1 g3.
Proof.
  intros [W1 L1] [W2 L2]. split; [congruence|]. intros x o Hx E Hd. destruct (L1 x o Hx E Hd) as (o2 & E2 & Hd2 & S2).
  rewrite <-(isdead_cw g1 g2) in Hd2 by done. destruct (L2 x o2 Hx E2 Hd2) as (o3 & E3 & Hd3 & S3).
  exists o3. rewrite (isdead_cw g1 g2) in Hd3 by done. split_and!; [done|done|by eapply same_data_trans].
Qed.
Lemma kept_sub (D D' : Z → Prop) g g' : (∀ x, D x → D' x) → kept D g g' → kept D' g g'.
Proof. intros H [W L]. split; [done|]. intros x o Hx. apply L. auto. Qed.

#[local] Instance kept_preorder D : PreOrder (kept D).
Proof. split; [intros g; apply kept_refl|intros g1 g2 g3; apply kept_trans]. Qed.

(** Changes of other fields. *)
Lemma kept_ext D g g' : currentwhite g' = currentwhite g → heap g' = heap g → kept D g g'.
Proof. intros W H. split; [done|]. intros x o _ E Hd. exists o. rewrite H. auto using same_data_refl. Qed.

Lemma kept_upd D a f g :
  (∀ o, heap g !! a = Some o → isdead g o = false → isdead g (f o) = false ∧ same_data o (f o)) → kept D g (upd a f g).
Proof.
  intros Hf. split; [done|]. intros x o _ E Hd. unfold upd. simpl. destruct (decide (x = a)) as [->|].
  - rewrite lookup_alter_eq, E. exists (f o). split; [done|by apply Hf].
  - rewrite lookup_alter_ne by done. exists o. auto using same_data_refl.
Qed.

Lemma kept_makewhite D a g : white_ok g → kept D g (upd a (makewhite g) g).
Proof.
  intros W. apply kept_upd. intros o _ _. split; [by apply makewhite_live|apply same_data_marked].
Qed.

Lemma kept_free (D : Z → Prop) a size g : (∀ o, heap g !! a = Some o → isdead g o = true) ∨ D a → kept D g (free_obj a size g).
Proof.
  intros Ha. split; [done|]. intros x o Hx E Hd. exists o. split_and!; [|done|apply same_data_refl]. simpl.
  rewrite lookup_delete_ne; [done|]. intros ->. destruct Ha as [Ha|?]; [|done]. by rewrite Ha in Hd.
Qed.

Lemma kept_tabnum D g g1 n : kept D g g1 → kept D g (set_tabnum n g1).
Proof. intros K. etransitivity; [exact K|]. by apply kept_ext. Qed.

Lemma kept_white D g g' : kept D g g' → white_ok g → white_ok g'.
Proof. intros [W _]. unfold white_ok. by rewrite W. Qed.

(** ** Upvalues *)

Lemma set_openupval_kept D th l g : kept D g (upd th (set_openupval l) g).
Proof.
  apply kept_upd. intros o _ Hd. split; [by destruct o|]. destruct o; simpl; auto. by destruct t.
Qed.

(** Outside of the mark phase. *)
Lemma closeuv_kept D a g : white_ok g → marking g = false → kept D g (lj_gc_closeuv a g).
Proof.
  intros W Hm. unfold lj_gc_closeuv. destruct (heap g !! a) as [o|] eqn:E; [|done].
  destruct o as [|m uv| | | | | | |]; try done.
  set (g1 := upd a (set_uv (UvClosed (uvval g uv))) g).
  assert (kept D g (set_root (a :: root g1) g1)) as K1.
  { transitivity g1; [|by apply kept_ext]. apply kept_upd. intros o Eo Hd. assert (o = OUpval m uv) as -> by congruence.
    split; [done|]. simpl. destruct uv; [by right|]. by left. }
  destruct (isgray _); [|done]. assert (marking (set_root (a :: root g1) g1) = false) as -> by exact Hm.
  etransitivity; [done|]. apply kept_makewhite. by eapply kept_white.
Qed.

Lemma upval_unlink_kept D a g : kept D g (upval_unlink a g).
Proof. by apply kept_ext. Qed.
Lemma upval_free_kept (D : Z → Prop) a uv g : (∀ o, heap g !! a = Some o → isdead g o = true) ∨ D a → kept D g (uj_upval_free a uv g).
Proof.
  intros Ha. unfold uj_upval_free. destruct (uv_closed uv); [by apply kept_free|].
  etransitivity; [apply upval_unlink_kept|]. by apply kept_free.
Qed.

Lemma closeuv_marking a g : marking g = false → marking (lj_gc_closeuv a g) = false.
Proof.
  intros Hm. unfold lj_gc_closeuv. destruct (heap g !! a) as [[]|]; try done. destruct (isgray _); [|done].
  destruct (marking _) eqn:H; [|done]. assert (marking g = true) by exact H. congruence.
Qed.

Lemma upval_close_loop_kept D uvs th level g :
  white_ok g → marking g = false →
  kept D g (upval_close_loop uvs th level g) ∧ marking (upval_close_loop uvs th level g) = false.
Proof.
  revert g. induction uvs as [|a uvs IH]; intros g W Hm; [done|]. cbn [upval_close_loop].
  destruct (heap g !! a) as [o|] eqn:E; [|done]. destruct o as [|m uv| | | | | | |]; try done. destruct uv as [th' i|]; [|done].
  destruct (level <=? Z.of_nat i); [|done]. set (g1 := upd th (set_openupval uvs) g).
  assert (kept D g g1) as K1 by apply set_openupval_kept. assert (marking g1 = false) as Hm1 by exact Hm.
  pose proof (kept_white _ _ _ K1 W) as W1.
  set (g2 := if isdead g1 _ then _ else _).
  assert (kept D g1 g2 ∧ marking g2 = false) as [K2 Hm2].
  { unfold g2. destruct (isdead g1 _) eqn:Hd.
    - split; [|exact Hm]. apply upval_free_kept. left. intros o Eo. unfold g1, upd in Eo. simpl in Eo.
      destruct (decide (a = th)) as [->|]; [rewrite lookup_alter_eq, E in Eo|rewrite lookup_alter_ne, E in Eo by done]; by injection Eo as <-.
    - split; [|by apply closeuv_marking]. etransitivity; [apply (upval_unlink_kept D a)|]. apply closeuv_kept; [by eapply kept_white; [apply (upval_unlink_kept D)|]|done]. }
  destruct (IH g2) as [K3 Hm3]; [by eapply kept_white|done|]. split; [|done]. by etransitivity; [|etransitivity].
Qed.

Lemma upval_close_kept D th level g : white_ok g → marking g = false →
  kept D g (uj_upval_close th level g) ∧ marking (uj_upval_close th level g) = false.
Proof.
  intros W Hm. unfold uj_upval_close. destruct (heap g !! th) as [[]|]; try done. by apply upval_close_loop_kept.
Qed.

(** ** Freeing one object *)

Lemma freefunc_kept a g : white_ok g → marking g = false →
  kept (λ x, x = a) g (gc_freefunc a g) ∧ marking (gc_freefunc a g) = false.
Proof.
  intros W Hm. unfold gc_freefunc. destruct (heap g !! a) as [o|] eqn:E; [|done].
  destruct o as [m d|m uv|m L|m pt|m fn|m T|m sz|t|m ud].
  - split; [|unfold uj_str_free; by destruct (sweep_sealed g)]. unfold uj_str_free. etransitivity; [|apply kept_free; by right].
    destruct (sweep_sealed g); by apply kept_ext.
  - split; [apply upval_free_kept; by right|]. unfold uj_upval_free. by destruct (uv_closed uv).
  - unfold uj_state_free. destruct (upval_close_kept (λ x, x = a) a 0 g W Hm) as [K Hm1].
    set (g1 := uj_upval_close a 0 g) in *. clearbody g1.
    assert (kept (λ x, x = a) g (uj_mem_free (stacksize g1 a * sizeof_TValue) g1)) as K2 by (etransitivity; [done|by apply kept_ext]).
    destruct (a =? _); [done|]. split; [|done]. etransitivity; [done|]. apply kept_free. by right.
  - split; [apply kept_free; by right|done].
  - split; [apply kept_free; by right|done].
  - unfold lj_trace_free. split; [|destruct (traceno T =? 0), (traceno T <? freetrace g); done].
    etransitivity; [|apply kept_free; by right]. destruct (traceno T =? 0), (traceno T <? freetrace g); by apply kept_ext.
  - unfold lj_cdata_free. destruct (has m LJ_GC_CDATA_FIN); [|split; [apply kept_free; by right|done]]. split; [|done].
    transitivity (upd a (λ o, markfinalized (makewhite g o)) g); [|by apply kept_ext]. apply kept_upd. intros o _ _.
    split; [|unfold markfinalized, makewhite; rewrite set_marked_2; apply same_data_marked].
    rewrite isdead_bit by done. unfold markfinalized. rewrite marked_set, Z.lor_spec, makewhite_bit by done.
    destruct (other_white g W) as [_ Hb]. assert (otherbit g = 0 ∨ otherbit g = 1) as [->| ->] by lia; done.
  - unfold lj_tab_free. split; [|by repeat case_match]. set (g2 := if (0 <? Tab.asize t) && _ then _ else _).
    transitivity g2; [unfold g2; repeat case_match; by apply kept_ext|]. clearbody g2.
    apply kept_tabnum, kept_free. by right.
  - split; [|done]. etransitivity; [|apply kept_free; by right]. by apply kept_ext.
Qed.

Lemma set_chain_kept D c l g : kept D g (set_chain c l g) ∧ marking (set_chain c l g) = marking g.
Proof.
  split; [|by destruct c as [|[] i|th]]. destruct c as [|[] i|th]; simpl; [by apply kept_ext..|]. apply set_openupval_kept.
Qed.

(** ** The sweep *)

Lemma sweep_kept n c p lim g : white_ok g → marking g = false →
  kept (λ _, False) g (gc_sweep n c p lim g).2 ∧ marking (gc_sweep n c p lim g).2 = false.
Proof.
  revert c p lim g. induction n as [|n IH]; intros c p lim g W Hm; [done|]. cbn [gc_sweep].
  destruct (rest g c p) as [|a l]; [done|]. destruct (lim <=? 0); [done|].
  destruct (heap g !! a) as [o|] eqn:E; [|done]. destruct (uj_obj_is_sealed o); [done|].
  set (g1 := match o with OThread _ _ => _ | _ => g end).
  assert (kept (λ _, False) g g1 ∧ marking g1 = false) as [K1 Hm1].
  { unfold g1. destruct o; try done. by apply IH. }
  pose proof (kept_white _ _ _ K1 W) as W1. rewrite sweep_test by done. clearbody g1.
  destruct (doomed g1 o) eqn:Hd; cbn [negb].
  - destruct (set_chain_kept (λ x, x = a) c (unlink a (get_chain g1 c)) g1) as [K2 Hm2].
    set (g2 := set_chain c _ g1) in *. clearbody g2. rewrite Hm1 in Hm2. pose proof (kept_white _ _ _ K2 W1) as W2.
    destruct (freefunc_kept a g2 W2 Hm2) as [K3 Hm3]. set (g3 := gc_freefunc a g2) in *. clearbody g3.
    pose proof (kept_white _ _ _ K3 W2) as W3. destruct (IH c p (lim - 1) g3 W3 Hm3) as [K4 Hm4]. split; [|done].
    assert (isdead g o = true) as Hdg.
    { apply andb_true_iff in Hd as [Hd _]. rewrite <-(isdead_cw g g1); [done|apply K1]. }
    assert (kept (λ x, x = a) g (gc_sweep n c p (lim - 1) g3).2) as K.
    { etransitivity; [eapply kept_sub; [|apply K1]; done|]. etransitivity; [done|]. etransitivity; [done|].
      eapply kept_sub; [|apply K4]; done. }
    split; [apply K|]. intros x ox _ Ex Hdx. apply (kp_live _ _ _ K); [|done|done]. intros ->. congruence.
  - set (g2 := upd a (makewhite g1) g1). assert (kept (λ _, False) g1 g2) as K2 by (by apply kept_makewhite).
    pose proof (kept_white _ _ _ K2 W1) as W2. assert (marking g2 = false) as Hm2 by exact Hm1. clearbody g2.
    destruct (IH c (SwNext a) (lim - 1) g2 W2 Hm2) as [K3 Hm3]. split; [|done]. by etransitivity; [|etransitivity].
Qed.

(** ** What is freed *)

(** A thread without open upvalues, cdata without a finalizer. *)
Definition plain (o : GCobj) : Prop :=
  match o with
  | OThread _ L => openupval L = []
  | OCdata m _ => has m LJ_GC_CDATA_FIN = false
  | _ => True
  end.

(** All objects but the open upvalues and the strings, or a chain of strings. *)
Definition whole (c : chain) : Prop := match c with CUv _ => False | _ => True end.

Lemma chain_ext g g' c :
  whole c → root g' = root g → hash (strhash g') = hash (strhash g) → hash (strhash_sealed g') = hash (strhash_sealed g) →
  get_chain g' c = get_chain g c.
Proof. intros Hc Hr H1 H2. destruct c as [|[] i|]; simpl; by rewrite ?Hr, ?H1, ?H2. Qed.

Lemma freefunc_plain a o g c :
  whole c → heap g !! a = Some o → plain o → a ≠ mainthref g →
  heap (gc_freefunc a g) = delete a (heap g) ∧ currentwhite (gc_freefunc a g) = currentwhite g ∧
  mainthref (gc_freefunc a g) = mainthref g ∧ get_chain (gc_freefunc a g) c = get_chain g c.
Proof.
  intros Hc E Hp Ha. unfold gc_freefunc. rewrite E. destruct o as [m d|m uv|m L|m pt|m fn|m T|m sz|t|m ud]; simpl in Hp.
  - unfold uj_str_free. destruct (sweep_sealed g); split_and!; try done; by apply chain_ext.
  - unfold uj_upval_free. destruct (uv_closed uv); split_and!; try done; by apply chain_ext.
  - unfold uj_state_free, uj_upval_close. rewrite E, Hp. cbn [upval_close_loop].
    change (mainthref (uj_mem_free _ g)) with (mainthref g). destruct (Z.eqb_spec a (mainthref g)); [done|].
    split_and!; try done. by apply chain_ext.
  - split_and!; try done. by apply chain_ext.
  - split_and!; try done. by apply chain_ext.
  - unfold lj_trace_free. destruct (traceno T =? 0), (traceno T <? freetrace g); split_and!; try done; by apply chain_ext.
  - unfold lj_cdata_free. rewrite Hp. split_and!; try done. by apply chain_ext.
  - unfold lj_tab_free. destruct (0 <? Tab.hmask t), ((0 <? Tab.asize t) && (Tab.colo t <=? 0)); split_and!; try done; by apply chain_ext.
  - split_and!; try done. by apply chain_ext.
Qed.

Lemma get_set_chain c l g : whole c → get_chain g c ≠ [] → get_chain (set_chain c l g) c = l.
Proof.
  intros Hc Hn. destruct c as [|[] i|]; simpl in *; try done.
  - destruct (hash (strhash_sealed g) !! i) eqn:Hi; [|done]. rewrite list_lookup_insert_eq; [done|]. by eapply lookup_lt_Some.
  - destruct (hash (strhash g) !! i) eqn:Hi; [|done]. rewrite list_lookup_insert_eq; [done|]. by eapply lookup_lt_Some.
Qed.
Lemma set_chain_env c l g : whole c → heap (set_chain c l g) = heap g ∧ currentwhite (set_chain c l g) = currentwhite g ∧
  mainthref (set_chain c l g) = mainthref g.
Proof. by destruct c as [|[] i|]. Qed.

(** The position of the sweep: behind the objects [pre] that it has kept. *)
Definition at_pos (p : swpos) (pre : list Z) : Prop := p = SwRoot ∧ pre = [] ∨ ∃ pre' a, p = SwNext a ∧ pre = pre' ++ [a].

Lemma after_app pre a l : a ∉ pre → after a (pre ++ a :: l) = l.
Proof.
  induction pre as [|x pre IH]; simpl.
  - by rewrite Z.eqb_refl.
  - intros Hn. destruct (Z.eqb_spec x a) as [->|]; [set_solver|]. apply IH. set_solver.
Qed.

Lemma rest_at g c p pre l : at_pos p pre → get_chain g c = pre ++ l → NoDup (pre ++ l) → rest g c p = l.
Proof.
  intros [[-> ->]|(pre' & a & -> & ->)] Hc Hd; [done|]. simpl. rewrite Hc, <-app_assoc. apply after_app.
  rewrite <-app_assoc in Hd. apply NoDup_app in Hd as (_ & Hd & _). intros Ha. apply (Hd a Ha). set_solver.
Qed.

Lemma unlink_notin a l : a ∉ l → unlink a l = l.
Proof.
  induction l as [|x l IH]; intros Ha; [done|]. unfold unlink in *. rewrite filter_cons, decide_True by set_solver.
  f_equal. apply IH. set_solver.
Qed.
Lemma unlink_mid a pre l : NoDup (pre ++ a :: l) → unlink a (pre ++ a :: l) = pre ++ l.
Proof.
  intros (_ & Hd2 & [Ha _]%NoDup_cons)%NoDup_app. assert (a ∉ pre) as Hp by (intros H; apply (Hd2 a H); by left).
  unfold unlink. rewrite filter_app, filter_cons, decide_False by auto. fold (unlink a pre) (unlink a l). by rewrite !unlink_notin.
Qed.

Lemma list_filter_iff' {A} (P Q : A → Prop) `{∀ x, Decision (P x), ∀ x, Decision (Q x)} (l : list A) :
  (∀ x, x ∈ l → P x ↔ Q x) → filter P l = filter Q l.
Proof.
  induction l as [|x l IH]; intros H1; [done|]. rewrite !filter_cons.
  rewrite (decide_ext (P x) (Q x)) by (apply H1; by left). rewrite IH; [done|]. intros y Hy. apply H1. by right.
Qed.

(** The object after the sweep of the list [l]. *)
Definition swept (g : gstate) (l : list Z) (x : Z) : option GCobj :=
  if decide (x ∈ l) then heap g !! x ≫= λ o, if doomed g o then None else Some (makewhite g o) else heap g !! x.

Definition live (g : gstate) (x : Z) : Prop := at_ (doomed g) g x = false.
#[export] Instance live_dec g x : Decision (live g x).
Proof. unfold live. tc_solve. Defined.

Record sweepable (g : gstate) (a : Z) : Prop := {
  sw_obj : ∃ o, heap g !! a = Some o ∧ uj_obj_is_sealed o = false ∧ plain o ∧ (doomed g o = true → a ≠ mainthref g) }.

Lemma swept_cons_dead g g' a o l x :
  a ∉ l → heap g !! a = Some o → doomed g o = true → heap g' = delete a (heap g) → currentwhite g' = currentwhite g →
  swept g' l x = swept g (a :: l) x.
Proof.
  intros Ha E Hd Hh Hc. unfold swept. rewrite Hh. destruct (decide (x = a)) as [->|Hx].
  - rewrite lookup_delete_eq, decide_False by done. rewrite decide_True by (by left). rewrite E. simpl. by rewrite Hd.
  - rewrite lookup_delete_ne by done. destruct (decide (x ∈ l)) as [Hl|Hl].
    + rewrite decide_True by (by right). destruct (heap g !! x) as [ox|]; [|done]. simpl.
      rewrite (doomed_cw g g') by done. unfold makewhite, curwhite. by rewrite Hc.
    + rewrite decide_False; [done|]. set_solver.
Qed.

Lemma swept_cons_live g a o l x :
  a ∉ l → heap g !! a = Some o → doomed g o = false →
  swept (upd a (makewhite g) g) l x = swept g (a :: l) x.
Proof.
  intros Ha E Hd. unfold swept. change (heap (upd a (makewhite g) g)) with (alter (makewhite g) a (heap g)).
  destruct (decide (x = a)) as [->|Hx].
  - rewrite lookup_alter_eq, (decide_False (P := a ∈ l)) by done. rewrite decide_True by (by left). rewrite E. simpl. by rewrite Hd.
  - rewrite lookup_alter_ne by done. destruct (decide (x ∈ l)) as [Hl|Hl].
    + by rewrite decide_True by (by right).
    + rewrite decide_False; [done|]. set_solver.
Qed.

Lemma sweep_exact l n c p lim g pre :
  whole c → white_ok g → at_pos p pre → get_chain g c = pre ++ l → NoDup (pre ++ l) →
  (∀ a, a ∈ l → sweepable g a) → (length l < n)%nat → Z.of_nat (length l) ≤ lim →
  ∃ p' g', gc_sweep n c p lim g = (p', g') ∧ rest g' c p' = [] ∧
    get_chain g' c = pre ++ filter (live g) l ∧ ∀ x, heap g' !! x = swept g l x.
Proof.
  revert n p lim g pre. induction l as [|a l IH]; intros n p lim g pre Hc W Hp HC Hd HS Hn Hlim.
  - exists p, g. pose proof (rest_at _ _ _ _ _ Hp HC Hd) as Hr. split_and!; [|done|done|].
    + destruct n; [done|]. cbn [gc_sweep]. by rewrite Hr.
    + intros x. unfold swept. by rewrite decide_False by apply not_elem_of_nil.
  - destruct n as [|n]; [simpl in Hn; lia|]. cbn [gc_sweep]. rewrite (rest_at _ _ _ _ _ Hp HC Hd).
    assert (lim <=? 0 = false) as -> by (simpl in Hlim; lia).
    destruct (HS a) as [(o & E & Hs & Hpl & Hmt)]; [by left|]. rewrite E, Hs.
    assert (match o with OThread _ _ => (gc_sweep n (CUv a) SwRoot LJ_MAX_MEM g).2 | _ => g end = g) as ->.
    { destruct o; try done. destruct n; [done|]. cbn [gc_sweep rest get_chain]. rewrite E. simpl in Hpl. by rewrite Hpl. }
    rewrite sweep_test by done.
    pose proof Hd as (Hd1 & Hd2 & [Hal Hd3]%NoDup_cons)%NoDup_app.
    assert (∀ x, x ∈ l → x ≠ a) as Hne by (by intros x Hx ->).
    destruct (doomed g o) eqn:Hdead; cbn [negb].
    + rewrite HC, unlink_mid by done. destruct (set_chain_env c (pre ++ l) g Hc) as (Hh & Hcw & Hmr).
      set (g1 := set_chain c (pre ++ l) g) in *.
      assert (get_chain g1 c = pre ++ l) as HC1.
      { apply get_set_chain; [done|]. rewrite HC. by destruct pre. }
      destruct (freefunc_plain a o g1 c) as (Hh2 & Hcw2 & Hmr2 & HC2); [done|by rewrite Hh|done|rewrite Hmr; auto|].
      set (g2 := gc_freefunc a g1) in *. clearbody g2. clearbody g1. rewrite Hh in Hh2. rewrite Hcw in Hcw2. rewrite Hmr in Hmr2. rewrite HC1 in HC2.
      destruct (IH n p (lim - 1) g2 pre) as (p' & g' & EG & HR & HF & HX); try done.
      * unfold white_ok in *. by rewrite Hcw2.
      * apply NoDup_app. split_and!; [done| |done]. intros x Hx Hxl. apply (Hd2 x Hx). by right.
      * intros x Hx. destruct (HS x) as [(ox & Ex & ?)]; [by right|]. split. exists ox. rewrite Hh2, lookup_delete_ne by (symmetry; by apply Hne).
        rewrite (doomed_cw g g2), Hmr2 by done. done.
      * simpl in Hn. lia.
      * simpl in Hlim. lia.
      * exists p', g'. split_and!; [done|done| |].
        -- rewrite HF. f_equal. rewrite filter_cons, decide_False by (unfold live, at_; rewrite E; congruence).
           apply list_filter_iff'. intros x Hx. unfold live, at_. rewrite Hh2, lookup_delete_ne by (symmetry; by apply Hne).
           destruct (heap g !! x); [|done]. by rewrite (doomed_cw g g2).
        -- intros x. rewrite HX. by apply (swept_cons_dead g g2 a o).
    + set (g2 := upd a (makewhite g) g).
      assert (∀ x, x ≠ a → heap g2 !! x = heap g !! x) as Hx2 by (intros x Hx; unfold g2, upd; simpl; by rewrite lookup_alter_ne).
      destruct (IH n (SwNext a) (lim - 1) g2 (pre ++ [a])) as (p' & g' & EG & HR & HF & HX); try done.
      * right. eauto.
      * rewrite <-app_assoc, (chain_ext g g2) by done. exact HC.
      * by rewrite <-app_assoc.
      * intros x Hx. destruct (HS x) as [(ox & Ex & ?)]; [by right|]. split. exists ox. rewrite Hx2 by (by apply Hne). done.
      * simpl in Hn. lia.
      * simpl in Hlim. lia.
      * exists p', g'. split_and!; [done|done| |].
        -- rewrite HF, <-app_assoc. f_equal. rewrite filter_cons, decide_True by (unfold live, at_; by rewrite E). simpl. f_equal.
           apply list_filter_iff'. intros x Hx. unfold live, at_. by rewrite Hx2 by (by apply Hne).
        -- intros x. rewrite HX. by apply (swept_cons_live g a o).
Qed.

End GcSweepSpec.
