(* ===== verification/GcAtomic.v ===== *)
(** * The atomic phase

    [GcAtomic]: [mark_inv] is what holds while the collector marks; [atomic] then leaves no object that is
    kept with a reference to one that is freed.  [GcClear]: [gc_clearweak] removes what refers to objects
    that were not marked, and marks the strings that stay in weak tables. *)

From stdpp Require Import base decidable list numbers option sets gmap.
From Stdlib Require Import ZArith Lia.
From S2P Require Import Prelude Obj Tab Bc Ir GcObj Gc GcSweep GcInv GcMark GcTraverse.
From S2P Require Import GcPropagate.

Local Open Scope Z_scope.
Import Obj GcObj Gc GcSweep GcInv GcMark GcTraverse GcPropagate.

Module GcAtomic.

Section Atomic.
Context `{OH : ObjHeap}.

(** Exceptions that are white or settled are none. *)
Lemma closed_less g (X Q : Z → Prop) `{∀ a, Decision (Q a)} :
  closed g (λ a, X a ∨ Q a) → (∀ a o, heap g !! a = Some o → iswhite o = false → Q a → settled g a o) → closed g X.
Proof.
  intros C HQ a o E Hw Hs Hg Hx. destruct (decide (Q a)); [by apply HQ|]. apply C; auto. by intros [?|?].
Qed.

Lemma mark_ok_only_edge g g' a l : only g g' l → (∀ b, b ∈ l → edge g a b) → only g g' [a].
Proof.
  intros HO He R HR Ha. apply HO; [done|]. intros b Hb. eapply HR; [apply Ha; by left|auto].
Qed.

(** ** Open upvalues *)

Definition gray_uv (g : gstate) (a : Z) : bool := at_ (λ o, uv_open o && negb (iswhite o)) g a.
Definition notwhite (g : gstate) (l : list Z) : list Z := filter (λ a, at_ iswhite g a = false) l.

Lemma gray_uv_mono g g' a : hle g g' → gray_uv g a = true → gray_uv g' a = true.
Proof.
  intros L. unfold gray_uv, at_. destruct (heap g !! a) as [o|] eqn:E; [|done].
  destruct (hle_Some _ _ _ _ L E) as (o' & -> & [Ho _ Hw]). rewrite (olike_open _ _ _ Ho).
  destruct (iswhite o'); [rewrite Hw by done; by rewrite andb_false_r|]. by destruct (uv_open o).
Qed.

(** A list of objects that are marked one after the other. *)
Lemma only_notwhite g g1 g2 a l :
  hle g g1 → hle g1 g2 → only g g1 (notwhite g [a]) → only g1 g2 (notwhite g1 l) → only g g2 (notwhite g (a :: l)).
Proof.
  intros L1 L2 O1 O2 R HR Hl.
  assert (∀ b, b ∈ notwhite g [a] → R b) as Ha.
  { intros b [Hb ->%list_elem_of_singleton]%list_elem_of_filter. apply Hl, list_elem_of_filter. split; [done|by left]. }
  apply (only_trans _ _ _ _ _ L1 L2 O1 O2 R HR). intros b [Hb|Hb]%elem_of_app; [auto|].
  unfold notwhite in Hb. apply list_elem_of_filter in Hb as [Hw Hb].
  destruct (at_ iswhite g b) eqn:Eb.
  - unfold at_ in Eb, Hw. destruct (heap g !! b) as [o|] eqn:E; [|done].
    destruct (hle_Some _ _ _ _ L1 E) as (o' & E' & _). rewrite E' in Hw. by apply (O1 R HR Ha b o o').
  - apply Hl, list_elem_of_filter. split; [done|by right].
Qed.

Definition mark_uv1 (g : gstate) (a : Z) : gstate :=
  match heap g !! a with
  | Some (OUpval _ uv as o) => if isgray o then gc_marktv (uvval g uv) g else g
  | _ => g
  end.

Lemma mark_uv1_spec a g : gtyped g →
  progress g (mark_uv1 g a) (notwhite g [a]) ∧
  (gray_ok g → gray_uv g a = true → ∀ o, heap (mark_uv1 g a) !! a = Some o → settled (mark_uv1 g a) a o).
Proof.
  intros T. unfold mark_uv1.
  assert (progress g g (notwhite g [a])) as P0.
  { eapply progress_sub; [|apply progress_nil]. apply list_subseteq_nil. }
  destruct (heap g !! a) as [o|] eqn:E; [|split; [done|]; intros _ Hu; unfold gray_uv, at_ in Hu; by rewrite E in Hu].
  assert (gray_ok g → gray_uv g a = true → isgray o = true ∧ uv_open o = true) as Hg.
  { intros G Hu. unfold gray_uv, at_ in Hu. rewrite E in Hu. apply andb_true_iff in Hu as [Hu Hw].
    rewrite gray_iff, Hw. rewrite (go_white _ G a o E); [done|by unfold keeps; rewrite Hu, orb_true_r|by unfold never; rewrite Hu, orb_true_r]. }
  destruct o; try (split; [done|]; intros G Hu; by destruct (Hg G Hu)).
  destruct (isgray (OUpval m uv)) eqn:Eg; [|split; [done|]; intros G Hu; destruct (Hg G Hu); congruence].
  rewrite marktv_marks. pose proof (marks_spec (tvaddr (uvval g uv)) g T) as M.
  assert (notwhite g [a] = [a]) as Hn.
  { unfold notwhite, at_. cbn [filter list_filter]. rewrite E, decide_True; [done|].
    rewrite gray_iff in Eg. by destruct (iswhite _), (isblack _). }
  split.
  - rewrite Hn. destruct (mark_ok_progress _ _ _ M) as [L K A WK ST C O]. split; try done.
    eapply mark_ok_only_edge; [done|]. intros b Hb. exists (OUpval m uv). done.
  - intros G Hu o E'. destruct (hle_Some _ _ _ _ (ml_hle _ _ (mk_mle _ _ _ M)) E) as (o2 & E2 & [Ho _ _]).
    assert (o2 = o) as -> by congruence. destruct o; try done. simpl in Ho. subst.
    apply settled_unlisted; [done|]. intros b Hb. apply M.
    by apply (kids_w_sub g _ 0 a (OUpval m uv) (OUpval m0 uv) (ml_hle _ _ (mk_mle _ _ _ M))) in Hb.
Qed.

Lemma mark_uv_loop l g X (P : Z → bool) :
  gtyped g → gray_ok g → (∀ a, P a = true → gray_uv g a = true) →
  closed g (λ a, X a ∨ (a ∈ l ∧ P a = true)) →
  progress g (foldl mark_uv1 g l) (notwhite g l) ∧ closed (foldl mark_uv1 g l) X.
Proof.
  revert g. induction l as [|a l IH]; intros g T G HP C.
  - split; [apply progress_nil|]. apply (closed_less _ _ (λ a, a ∈ [] ∧ P a = true)); [done|]. intros b o _ _ [[]%elem_of_nil _].
  - destruct (mark_uv1_spec a g T) as [P1 S1]. simpl foldl.
    destruct (IH (mark_uv1 g a)) as [P2 C2].
    + by eapply progress_typed.
    + by apply P1.
    + intros b Hb. eapply gray_uv_mono; [apply P1|auto].
    + apply (closed_less _ _ (λ b, b = a ∧ P b = true)).
      { eapply closed_sub; [|apply P1, C]. intros b. simpl. rewrite elem_of_cons. tauto. }
      intros b o E _ [-> Hp]. by apply S1; [..|done]; auto.
    + split; [|done]. destruct (progress_trans _ _ _ _ _ P1 P2) as [L K A WK ST CC _]. split; try done.
      apply (only_notwhite g (mark_uv1 g a)); [apply P1|apply P2|apply P1|apply P2].
Qed.

Lemma mark_uv_spec g X :
  gtyped g → gray_ok g → (∀ a o, heap g !! a = Some o → uv_open o = true → a ∈ uvhead g) →
  closed g (λ a, X a ∨ at_ uv_open g a = true) →
  progress g (gc_mark_uv g) (notwhite g (uvhead g)) ∧ closed (gc_mark_uv g) X.
Proof.
  intros T G HU C. apply (mark_uv_loop (uvhead g) g X (gray_uv g)); [done|done|done|].
  intros a o E Hw Hs Hg Hx. apply C; try done. intros [?|Hu]; [tauto|]. apply Hx. right.
  unfold at_ in Hu. rewrite E in Hu. split; [by eapply HU|]. unfold gray_uv, at_. by rewrite E, Hu, Hw.
Qed.

(** ** Lists that become the gray list *)

Definition reload_weak (g : gstate) : gstate := set_weak [] (set_gray (weak g) g).
Definition reload_again (g : gstate) : gstate := set_grayagain [] (set_gray (grayagain g) g).

Lemma env_lists g l1 l2 l3 : hle g (set_gray l1 (set_grayagain l2 (set_weak l3 g))).
Proof. split; [by destruct g|]. exact (h_obj _ _ (hle_refl g)). Qed.

Lemma gray_ok_lists g g' : heap g' = heap g → lists g' ≡ₚ lists g → gray_ok g → gray_ok g'.
Proof.
  intros Hh Hl [D G A W]. unfold gray_at in *. split.
  - by rewrite Hl.
  - intros x Hx. rewrite Hl in Hx. unfold gray_at. rewrite Hh. by apply G.
  - intros x o. rewrite Hh, Hl. apply A.
  - rewrite Hh. apply W.
Qed.

Lemma reload_weak_closed g X : gray g = [] → closed g (λ a, X a ∨ a ∈ weak g) → closed (reload_weak g) X.
Proof.
  intros G C a o E Hw Hs Hg Hx. destruct (C a o E Hw Hs) as (w & Hm & Hk); [rewrite G; set_solver|by intros [?|?]|].
  exists w. split; [|done]. destruct o; try done. destruct Hm as [?|[?|[Ha _]]]; [by left|by right; left|done].
Qed.
Lemma reload_weak_ok g : gray g = [] → gray_ok g → gray_ok (reload_weak g).
Proof.
  intros G. apply gray_ok_lists; [done|]. unfold lists. rewrite G. simpl. rewrite app_nil_r. apply Permutation_app_comm.
Qed.

Lemma reload_again_closed g X :
  gray g = [] → closed g (λ a, X a ∨ a ∈ grayagain g) → closed (reload_again g) X.
Proof.
  intros G C a o E Hw Hs Hg Hx. apply C; [done..|rewrite G; set_solver|]. by intros [?|?].
Qed.
Lemma reload_again_ok g : gray g = [] → gray_ok g → gray_ok (reload_again g).
Proof. intros G. apply gray_ok_lists; [done|]. unfold lists. by rewrite G. Qed.

(** ** Roots *)

Definition nonzero (l : list Z) : list Z := filter (λ a, a ≠ 0) l.

Lemma mark_gcroot_spec g : gtyped g → mark_ok g (gc_mark_gcroot g) (nonzero (gcroot g)).
Proof.
  intros T. unfold gc_mark_gcroot.
  assert (∀ l g, foldl (λ g a, if a =? 0 then g else gc_markobj a g) g l = gc_marks (nonzero l) g) as H.
  { clear g T. intros l. induction l as [|a l IH]; intros g; [done|]. simpl.
    unfold nonzero. rewrite filter_cons. destruct (Z.eqb_spec a 0) as [->|Ha].
    - rewrite decide_False by auto. apply IH.
    - rewrite decide_True by done. apply IH. }
  rewrite H. by apply marks_spec.
Qed.

(** ** Userdata with finalizers *)

(** The lists of all objects and of userdata to be finalized are not used for marking. *)
Definition frame (r m : list Z) (g : gstate) : gstate := set_root r (set_mmudata m g).

Lemma fits_ext n g g' a : heap g' = heap g → fits n g a → fits n g' a.
Proof.
  intros Hh. revert a. induction n as [|n IH]; intros a; simpl; rewrite Hh; [done|].
  destruct (heap g !! a) as [[]|]; auto. assert (uvval g' uv = uvval g uv) as -> by (destruct uv; simpl; by rewrite ?Hh). auto.
Qed.
Lemma gtyped_ext g g' : heap g' = heap g → trace g' = trace g → gtyped g → gtyped g'.
Proof.
  intros Hh Ht [F T N]. split.
  - intros a. by apply (fits_ext _ g).
  - intros no o. unfold traceref. rewrite Hh, Ht. apply T.
  - intros a m pt o. rewrite Hh. apply N.
Qed.

Lemma lookup_frame r m g mt mm : (uj_meta_lookup_mt mt mm (frame r m g)).1 = (uj_meta_lookup_mt mt mm g).1.
Proof.
  destruct mt as [a|]; [|done]. unfold uj_meta_lookup_mt. change (heap (frame r m g)) with (heap g).
  destruct (heap g !! a) as [[]|]; try done. destruct (has _ _); [done|].
  change (uj_meta_name (frame r m g) mm) with (uj_meta_name g mm).
  destruct (Tab.deref _ _) as [v|]; [|done]. by destruct (tvisnil v).
Qed.
Lemma kids_frame r m g a o : kids (frame r m g) a o = kids g a o.
Proof. unfold kids. destruct o; try done. unfold tab_mode. by rewrite lookup_frame. Qed.

Lemma progress_frame r m g g' l : progress g g' l → progress (frame r m g) (frame r m g') l.
Proof.
  intros [[He Hh] K A WK ST C O]. split.
  - split; [by unfold env_eq in *; rewrite He at 1|]. intros a. specialize (Hh a).
    change (heap (frame r m g)) with (heap g). change (heap (frame r m g')) with (heap g').
    inversion Hh as [x y [Hl Hs Hw Hb]|]; constructor. split; [|done..]. by destruct x, y.
  - intros G. apply (gray_ok_lists g'); [done..|]. apply K. by apply (gray_ok_lists (frame r m g)).
  - exact A.
  - exact WK.
  - exact ST.
  - exact C.
  - intros R HR. apply O. intros a b Ha (o & E & Hb). apply (HR a b Ha). exists o. by rewrite kids_frame.
Qed.

Definition is_ud (g : gstate) (u : Z) : Prop :=
  ∃ o, heap g !! u = Some o ∧ uj_obj_is_sealed o = false ∧ (gct o = GT_UDATA ∨ gct o = GT_CDATA).

Lemma is_ud_mono g g' u : hle g g' → is_ud g u → is_ud g' u.
Proof.
  intros L (o & E & Hs & Ht). destruct (hle_Some _ _ _ _ L E) as (o' & E' & [Ho Hse _]).
  exists o'. rewrite Hse, (olike_gct _ _ _ Ho). done.
Qed.

Record sep_ok (g g' : gstate) : Prop := {
  sp_progress : ∃ r m, progress (frame r m g) g' [];
  sp_more : mmudata g ⊆ mmudata g';
  sp_ud : (∀ u, u ∈ mmudata g → is_ud g u) → ∀ u, u ∈ mmudata g' → is_ud g' u;
  sp_root : root g' ⊆ root g }.

Lemma frame_id g : frame (root g) (mmudata g) g = g.
Proof. by destruct g. Qed.

Lemma sep_refl g : sep_ok g g.
Proof. split; [|done..]. exists (root g), (mmudata g). rewrite frame_id. apply progress_nil. Qed.

Lemma sep_trans g1 g2 g3 : sep_ok g1 g2 → sep_ok g2 g3 → sep_ok g1 g3.
Proof.
  intros [(r1 & m1 & P1) S1 U1 R1] [(r2 & m2 & P2) S2 U2 R2]. split; [|set_solver|auto|set_solver].
  exists r2, m2. apply (progress_trans _ (frame r2 m2 g2) _ [] []); [|done].
  change (frame r2 m2 g1) with (frame r2 m2 (frame r1 m1 g1)). by apply progress_frame.
Qed.

Lemma env_root_ud g g' : env_eq g g' → root g' = root g ∧ mmudata g' = mmudata g.
Proof. unfold env_eq. by intros ->. Qed.

Lemma sep_progress g g' : progress g g' [] → sep_ok g g'.
Proof.
  intros P. destruct (env_root_ud _ _ (h_env _ _ (pg_hle _ _ _ P))) as [Hr Hm]. split.
  - exists (root g), (mmudata g). by rewrite frame_id.
  - by rewrite Hm.
  - intros HU u. rewrite Hm. intros Hu. eapply is_ud_mono; [apply P|auto].
  - by rewrite Hr.
Qed.

Lemma progress_markfin a g : (∀ o, heap g !! a = Some o → gct o = GT_UDATA) → progress g (upd a markfinalized g) [].
Proof.
  intros Ht. apply mark_ok_progress, mark_ok_color. intros o E. specialize (Ht o E).
  assert (iswhite (markfinalized o) = iswhite o) as Hw.
  { unfold iswhite, markfinalized. rewrite marked_set, has_lor. apply orb_false_r. }
  split_and!; [|by destruct o|done|]. 2:{ unfold isblack, markfinalized. rewrite marked_set, has_lor. by intros ->. }
  split; [apply like_marked| |by rewrite Hw|].
  2:{ intros _. unfold markfinalized. rewrite marked_set. by apply land_white. }
  apply sealed_bits. rewrite has_lor. apply orb_false_r.
Qed.

Lemma sep_move g u : is_ud g u → sep_ok g (set_mmudata (mmudata g ++ [u]) (set_root (unlink u (root g)) g)).
Proof.
  intros Hu. split.
  - exists (unlink u (root g)), (mmudata g ++ [u]). apply progress_nil.
  - simpl. set_solver.
  - intros HU v [Hv| ->%list_elem_of_singleton]%elem_of_app; [by apply HU|done].
  - simpl. unfold unlink. intros x [_ ?]%list_elem_of_filter. done.
Qed.

Lemma separate_loop_spec l all m g : sep_ok g (separate_loop l all m g).1.
Proof.
  revert m g. induction l as [|a l IH]; intros m g; [apply sep_refl|]. cbn [separate_loop].
  destruct (heap g !! a) as [o|] eqn:E; [|apply sep_refl].
  destruct (uj_obj_is_sealed o) eqn:Hs; [destruct o; rewrite ?Hs; apply sep_refl|].
  destruct o; rewrite ?Hs; try apply IH.
  destruct (_ || isfinalized _); [apply IH|].
  pose proof (lookup_mt_spec (ud_metatable ud) MM_gc g (or_introl eq_refl)) as M1.
  destruct (uj_meta_lookup_mt _ _ g) as [mo g1]. cbn [snd] in M1. apply mark_ok_progress in M1.
  destruct (hle_Some _ _ _ _ (pg_hle _ _ _ M1) E) as (o1 & E1 & [Ho1 Hs1 _]).
  pose proof (progress_markfin a g1) as P2. set (g2 := upd a markfinalized g1) in *.
  assert (progress g1 g2 []) as P3.
  { apply P2. intros o Eo. assert (o = o1) as -> by congruence. by apply olike_gct in Ho1. }
  assert (sep_ok g g2) as S1.
  { apply (sep_trans g g1); by apply sep_progress. }
  destruct mo as [v|]; [|eapply sep_trans; [done|apply IH]].
  eapply sep_trans; [done|]. eapply sep_trans; [apply (sep_move g2 a)|apply IH].
  eapply (is_ud_mono g1 g2); [apply P3|]. exists o1. rewrite (olike_gct _ _ _ Ho1), Hs1. auto.
Qed.

(** ** Marking userdata that are to be finalized *)

Lemma mark_n_udata n a g m ud :
  heap g !! a = Some (OUdata m ud) → uj_obj_is_sealed (OUdata m ud) = false →
  gc_mark_n (S n) a g =
    let g1 := upd a (λ o, gray2black (white2gray o)) g in
    let g2 := match ud_metatable ud with Some mt => if at_ iswhite g1 mt then gc_mark_n n mt g1 else g1 | None => g1 end in
    if at_ iswhite g2 (ud_env ud) then gc_mark_n n (ud_env ud) g2 else g2.
Proof. intros E Hs. cbn [gc_mark_n]. rewrite E, Hs, upd_twice. done. Qed.

Lemma mark_n_cdata n a g m sz : heap g !! a = Some (OCdata m sz) → gc_mark_n (S n) a g = upd a white2gray g.
Proof. intros E. cbn [gc_mark_n]. by rewrite E. Qed.

Lemma mark_n_if n b g : fits n g b → mark_ok g (if at_ iswhite g b then gc_mark_n n b g else g) [b].
Proof.
  intros Hb. destruct (at_ iswhite g b) eqn:Eb; [by apply mark_n_spec|].
  split; [reflexivity|apply sat_refl|done| |apply only_refl]. intros x ->%list_elem_of_singleton. by apply not_white_wh.
Qed.

(** The object is not white at the end, whatever it was. *)
Lemma mark_ud_ok g f a o l g2 :
  heap g !! a = Some o → orel g o (f o) → loose f o → iswhite (f o) = false → (sat o = true → isblack (f o) = true) → kids g a o = l →
  mark_ok (upd a f g) g2 l →
  mark_ok g g2 [a] ∧ ∀ X, closed g (λ x, X x ∨ x = a) → closed g2 X.
Proof.
  intros E Hr Hl Hw Hbk Hk M2.
  destruct (mark_ok_upd a f g) as (M1 & O1 & C1). { intros o' E'. assert (o' = o) as -> by congruence. done. }
  assert (wh (upd a f g) a = false) as W1.
  { apply not_white_wh. unfold at_. by rewrite heap_upd, decide_True, E. }
  assert (mark_ok g g2 [a]) as M.
  { apply (mark_ok_obj g _ g2 a o l E (proj1 Hl) (ml_hle _ _ M1) O1 M1 C1 W1); [| |done|done].
    - intros x Hx. by rewrite heap_upd, decide_False.
    - intros o' E' Hs. apply (mk_sat _ _ _ M2 a (f o) o'); [by rewrite heap_upd, decide_True, E|done| |].
      + by rewrite (olike_sat _ _ _ (or_like _ _ _ Hr)).
      + unfold wb. rewrite Hbk by done. apply orb_true_r. }
  split; [done|].
  intros X C. apply (closed_drop _ _ a).
  - apply M2. eapply closed_sub; [|by apply C1]. simpl. tauto.
  - intros o' E'. pose proof (ml_hle _ _ (mk_mle _ _ _ M)) as L.
    destruct (hle_Some _ _ _ _ L E) as (o2 & E2 & [Ho _ _]). assert (o2 = o') as -> by congruence.
    apply settled_unlisted; [by rewrite (olike_listed _ _ _ Ho); apply Hl|]. intros b Hb. apply M2. rewrite <-Hk.
    unfold kids. apply (kids_w_sub g g2 _ a o o' L Ho) in Hb. destruct Hl as [Hl _]. by destruct o.
Qed.

Lemma sealed_makewhite g o : uj_obj_is_sealed (makewhite g o) = uj_obj_is_sealed o.
Proof.
  apply sealed_bits. rewrite has_lor, has_clr. unfold curwhite. rewrite has_land.
  change (Z.land LJ_GC_WHITES UJ_GCO_SEALED) with 0. rewrite has_0. apply orb_false_r.
Qed.

Lemma orel_makewhite g o f :
  (∀ o, iswhite (f o) = false) → (∀ o, uj_obj_is_sealed (f o) = uj_obj_is_sealed o) →
  (∀ o, ∃ m, f o = set_marked m o) →
  orel g o (f (makewhite g o)).
Proof.
  intros Hw Hs Hm. split; [|by rewrite Hs, sealed_makewhite|by rewrite Hw|by rewrite Hw].
  destruct (Hm (makewhite g o)) as [m ->]. unfold makewhite. rewrite set_marked_2. apply like_marked.
Qed.

Definition mark_ud1 (g : gstate) (u : Z) : gstate := gc_mark u (upd u (makewhite g) g).

Lemma mark_ud1_spec u g : gtyped g → is_ud g u →
  mark_ok g (mark_ud1 g u) [u] ∧ ∀ X, closed g (λ x, X x ∨ x = u) → closed (mark_ud1 g u) X.
Proof.
  intros T (o & E & Hs & Ht). unfold mark_ud1, gc_mark, MARK_DEPTH.
  assert (uj_obj_is_sealed (makewhite g o) = false ∧ heap (upd u (makewhite g) g) !! u = Some (makewhite g o)) as [Hs0 E0].
  { rewrite sealed_makewhite. split; [done|]. by rewrite heap_upd, decide_True, E. }
  destruct o as [| | | | | |m sz| |m ud]; try (by destruct Ht).
  - (* cdata *)
    rewrite (mark_n_cdata 2 u _ _ sz E0), upd_twice. set (f := λ o, white2gray (makewhite g o)).
    apply (mark_ud_ok g f u (OCdata m sz) [] _ E); [|done|exact (white_w2g (makewhite g (OCdata m sz)))|done|done|apply mark_ok_nil].
    apply (orel_makewhite g _ white2gray white_w2g (λ o, or_seal _ _ _ (orel_w2g g o))). intros. by eexists.
  - (* userdata *)
    rewrite (mark_n_udata 2 u _ _ ud E0 Hs0), upd_twice. cbv zeta.
    set (f := λ o, gray2black (white2gray (makewhite g o))). set (g1 := upd u f g).
    assert (orel g (OUdata m ud) (f (OUdata m ud))) as Hr.
    { apply (orel_makewhite g _ (λ o, gray2black (white2gray o))).
      - intros o. rewrite white_g2b. apply white_w2g.
      - intros o. by rewrite (or_seal _ _ _ (orel_g2b g _)), (or_seal _ _ _ (orel_w2g g _)).
      - intros o. eexists. unfold gray2black, white2gray. by rewrite set_marked_2. }
    assert (hle g g1) as L1.
    { apply hle_upd. intros o' E'. by assert (o' = OUdata m ud) as -> by congruence. }
    pose proof (gt_fits _ T u) as HF. unfold MARK_DEPTH in HF. cbn [fits] in HF. rewrite E in HF.
    set (g2 := match ud_metatable ud with Some mt => _ | None => g1 end).
    assert (mark_ok g1 g2 (option_list (ud_metatable ud))) as M2.
    { unfold g2. destruct (ud_metatable ud) as [mt|] eqn:Em; [|apply mark_ok_nil].
      apply mark_n_if. eapply (depth_mono 2); [done|]. apply HF. set_solver. }
    apply (mark_ud_ok g f u (OUdata m ud) (option_list (ud_metatable ud) ++ [ud_env ud]) _ E Hr); [done| | |reflexivity|].
    + unfold f. rewrite white_g2b. apply white_w2g.
    + intros _. unfold f. apply black_g2b.
    + eapply mark_ok_app; [done|]. apply mark_n_if. eapply (depth_mono 2); [|apply HF; set_solver].
      transitivity g1; [done|apply M2].
Qed.

Lemma mark_mmudata_loop l g X :
  gtyped g → (∀ u, u ∈ l → is_ud g u) → closed g (λ x, X x ∨ x ∈ l) →
  mark_ok g (foldl mark_ud1 g l) l ∧ closed (foldl mark_ud1 g l) X.
Proof.
  revert g. induction l as [|u l IH]; intros g T HU C.
  - split; [apply mark_ok_nil|]. apply (closed_less _ _ (λ x, x ∈ [])); [done|]. intros a o _ _ []%elem_of_nil.
  - destruct (mark_ud1_spec u g T) as [M1 C1]; [apply HU; by left|]. simpl foldl.
    destruct (IH (mark_ud1 g u)) as [M2 C2].
    + by eapply mark_ok_typed.
    + intros v Hv. eapply is_ud_mono; [apply M1|]. apply HU. by right.
    + apply C1. eapply closed_sub; [|done]. intros x. simpl. rewrite elem_of_cons. tauto.
    + split; [|done]. change (u :: l) with ([u] ++ l). by eapply mark_ok_app.
Qed.

End Atomic.

End GcAtomic.

Import Obj GcObj Gc GcSweep GcInv GcMark GcTraverse GcPropagate GcAtomic.

Module GcClear.

Section Clear.
Context `{OH : ObjHeap}.

(** The tags of the values that a table holds. *)
Definition tv_ok (g : gstate) (tv : TValue) : Prop :=
  match tv with TGCV gt a => ∀ o, heap g !! a = Some o → gct o = gt | _ => True end.
Definition node_ok (g : gstate) (n : Tab.Node) : Prop :=
  tvisnil (Tab.val n) = false → tv_ok g (Tab.key n) ∧ tv_ok g (Tab.val n).
Definition tags_ok (g : gstate) : Prop :=
  ∀ a t, heap g !! a = Some (OTab t) → Forall (tv_ok g) (Tab.array t) ∧ Forall (node_ok g) (Tab.node t).

(** Only strings change their colour. *)
Record strs (g g' : gstate) : Prop := {
  st_env : g' = set_heap (heap g') g;
  st_obj x : heap g' !! x = heap g !! x ∨
    ∃ o o', heap g !! x = Some o ∧ heap g' !! x = Some o' ∧ gct o = GT_STR ∧ orel g o o' }.

Lemma strs_refl g : strs g g.
Proof. split; [by destruct g|auto]. Qed.
Lemma strs_hle g g' : strs g g' → hle g g'.
Proof.
  intros [E O]. split; [rewrite E; by destruct g|]. intros a.
  destruct (O a) as [->|(o & o' & -> & -> & _ & Hr)]; [|by constructor].
  destruct (heap g !! a); constructor. apply orel_refl.
Qed.
Lemma strs_trans g1 g2 g3 : strs g1 g2 → strs g2 g3 → strs g1 g3.
Proof.
  intros S1 S2. pose proof (strs_hle _ _ S1) as L1. destruct S1 as [E1 O1], S2 as [E2 O2].
  split; [rewrite E2; by rewrite E1|]. intros x. destruct (O2 x) as [->|(o & o' & H2 & H3 & Ht & Hr)]; [apply O1|].
  right. destruct (O1 x) as [H1|(o1 & o2 & H1 & H1' & Ht1 & Hr1)].
  - exists o, o'. rewrite <-H1. split_and!; try done. by eapply orel_env; [apply L1|].
  - assert (o2 = o) as -> by congruence. exists o1, o'. split_and!; try done.
    eapply orel_trans; [done|]. by eapply orel_env; [apply L1|].
Qed.

Lemma strs_gct g g' x : strs g g' → (gct <$> heap g' !! x) = (gct <$> heap g !! x).
Proof.
  intros [_ O]. destruct (O x) as [->|(o & o' & -> & -> & _ & [Ho _ _])]; [done|]. simpl. by rewrite (olike_gct _ _ _ Ho).
Qed.
Lemma tv_ok_ext g g' tv : (∀ x, (gct <$> heap g' !! x) = (gct <$> heap g !! x)) → tv_ok g tv → tv_ok g' tv.
Proof.
  intros H. destruct tv as [| | |gt a|]; try done. simpl. intros Hg o' E'. specialize (H a). rewrite E' in H.
  destruct (heap g !! a) as [o|]; [|done]. injection H as ->. by apply Hg.
Qed.
Lemma node_ok_ext g g' n : (∀ x, (gct <$> heap g' !! x) = (gct <$> heap g !! x)) → node_ok g n → node_ok g' n.
Proof. intros H Hn Hv. destruct (Hn Hv). eauto using tv_ok_ext. Qed.

Lemma strs_tab g g' a t : strs g g' → heap g' !! a = Some (OTab t) ↔ heap g !! a = Some (OTab t).
Proof.
  intros [_ O]. destruct (O a) as [->|(o & o' & -> & -> & Ht & [Ho _ _])]; [done|].
  apply olike_gct in Ho. split; intros [= ->]; by rewrite ?Ht in Ho.
Qed.

Lemma strs_closed l g g' X : strs g g' → closed (set_weak l g) X → closed (set_weak l g') X.
Proof.
  intros S C. pose proof (strs_hle _ _ S) as L.
  assert (hle (set_weak l g) (set_weak l g')) as L'.
  { destruct L as [He Hh]. split; [unfold env_eq in *; rewrite He at 1; done|]. intros x. specialize (Hh x). simpl.
    inversion Hh as [o o' [Hl Hs Hw Hb]|]; constructor. split; [by destruct o, o'|done..]. }
  eapply (closed_step (set_weak l g)); [done|done|done|]. intros a o o' E E' Hw Hs Hg Hx. simpl in *.
  assert (gray g' = gray g) as HG by (destruct S as [-> _]; done). rewrite HG in Hg.
  destruct (st_obj _ _ S a) as [Heq|(o1 & o2 & E1 & E2 & Ht & Hr)].
  - left. assert (o' = o) as -> by congruence. split_and!; try done. intros t t' Et Et'. simpl in *. congruence.
  - right. assert (gct o' = GT_STR) as Ht'.
    { assert (o2 = o') as -> by congruence. destruct Hr as [Ho _ _]. by rewrite (olike_gct _ _ _ Ho). }
    destruct o'; try done. exists 0. split; [done|]. intros b []%elem_of_nil.
Qed.

(** ** Entries *)

Lemma mayclear_spec tv val g c g' :
  tv_ok g tv → gc_mayclear tv val g = (c, g') →
  strs g g' ∧ (c = false → ∀ b, b ∈ tvaddr tv → wh g' b = false).
Proof.
  intros Ht HC. destruct tv as [| | |gt a|]; simpl in HC;
    try (injection HC as <- <-; split; [apply strs_refl|]; by intros _ x []%elem_of_nil).
  assert (gt = GT_STR ∨ (c, g') =
    (match heap g !! a with
     | Some x => if uj_obj_is_sealed x then false else if iswhite x then true
                 else bool_decide (gt = GT_UDATA) && val && isfinalized x
     | None => false end, g)) as [->|HC'].
  { destruct gt; [by left|..]; right; rewrite <-HC; by destruct (heap g !! a). }
  - injection HC as <- <-. split.
    + split; [by destruct g|]. intros x. unfold gc_mark_str. rewrite heap_upd. destruct (decide (x = a)) as [->|]; [|by left].
      destruct (heap g !! a) as [o|] eqn:E; [|by left]. right. exists o, (white2gray o).
      split_and!; [done|done|by apply Ht|apply orel_w2g].
    + intros _ b ->%list_elem_of_singleton. apply upd_w2g_wh.
  - injection HC' as -> ->. split; [apply strs_refl|]. intros Hc b ->%list_elem_of_singleton. unfold wh, at_.
    destruct (heap g !! a) as [x|]; [|done]. destruct (uj_obj_is_sealed x); [by rewrite andb_false_r|].
    by destruct (iswhite x).
Qed.

Lemma clear_array_spec vs g vs' g' :
  Forall (tv_ok g) vs → clear_array vs g = (vs', g') → strs g g' ∧ ∀ b, b ∈ tvaddrs vs' → wh g' b = false.
Proof.
  revert g vs' g'. induction vs as [|tv vs IH]; intros g vs' g' HT HC; simpl in HC.
  { injection HC as <- <-. split; [apply strs_refl|]. intros b []%elem_of_nil. }
  apply Forall_cons in HT as [Ht HT]. destruct (gc_mayclear tv true g) as [c g1] eqn:E1.
  destruct (mayclear_spec _ _ _ _ _ Ht E1) as [S1 W1]. destruct (clear_array vs g1) as [vs2 g2] eqn:E2.
  injection HC as <- <-. destruct (IH g1 vs2 g2) as [S2 W2]; [|done|].
  { eapply Forall_impl; [done|]. intros tv'. apply tv_ok_ext. intros x. by apply strs_gct. }
  split; [by eapply strs_trans|]. intros b Hb. change (b ∈ tvaddr (if c then TNil else tv) ++ tvaddrs vs2) in Hb.
  apply elem_of_app in Hb as [Hb|Hb]; [|by apply W2]. destruct c; [by apply elem_of_nil in Hb|].
  eapply wh_mono; [by apply strs_hle|]. by apply W1.
Qed.

Lemma clear_node_spec n g n' g' :
  node_ok g n → clear_node n g = (n', g') → strs g g' ∧ ∀ b, b ∈ node_kids 0 n' → wh g' b = false.
Proof.
  intros Hn. unfold clear_node. destruct (tvisnil (Tab.val n)) eqn:Ev.
  { intros [= <- <-]. split; [apply strs_refl|]. unfold node_kids. rewrite Ev. intros b []%elem_of_nil. }
  destruct (Hn Ev) as [Hk Hv]. destruct (gc_mayclear (Tab.key n) false g) as [ck g1] eqn:E1.
  destruct (mayclear_spec _ _ _ _ _ Hk E1) as [S1 W1]. destruct ck.
  { intros [= <- <-]. split; [done|]. intros b []%elem_of_nil. }
  destruct (gc_mayclear (Tab.val n) true g1) as [cv g2] eqn:E2. intros [= <- <-].
  destruct (mayclear_spec _ _ _ _ _ (tv_ok_ext _ _ _ (λ x, strs_gct _ _ x S1) Hv) E2) as [S2 W2].
  split; [by eapply strs_trans|]. destruct cv; [intros b []%elem_of_nil|]. unfold node_kids. rewrite Ev.
  intros b [Hb|Hb]%elem_of_app; [|by apply W2]. eapply wh_mono; [by apply strs_hle|]. by apply W1.
Qed.

Lemma clear_nodes_spec ns g ns' g' :
  Forall (node_ok g) ns → clear_nodes ns g = (ns', g') →
  strs g g' ∧ ∀ b, b ∈ concat (node_kids 0 <$> ns') → wh g' b = false.
Proof.
  revert g ns' g'. induction ns as [|n ns IH]; intros g ns' g' HT HC; simpl in HC.
  { injection HC as <- <-. split; [apply strs_refl|]. intros b []%elem_of_nil. }
  apply Forall_cons in HT as [Ht HT]. destruct (clear_node n g) as [n1 g1] eqn:E1.
  destruct (clear_node_spec _ _ _ _ Ht E1) as [S1 W1]. destruct (clear_nodes ns g1) as [ns2 g2] eqn:E2.
  injection HC as <- <-. destruct (IH g1 ns2 g2) as [S2 W2]; [|done|].
  { eapply Forall_impl; [done|]. intros n'. apply node_ok_ext. intros x. by apply strs_gct. }
  split; [by eapply strs_trans|]. intros b. rewrite fmap_cons. cbn [concat].
  intros [Hb|Hb]%elem_of_app; [|by apply W2]. eapply wh_mono; [by apply strs_hle|]. by apply W1.
Qed.

(** ** Tables *)

Record orel' (o o' : GCobj) : Prop := {
  cr_gct : gct o' = gct o;
  cr_seal : uj_obj_is_sealed o' = uj_obj_is_sealed o;
  cr_white : iswhite o' = true → iswhite o = true;
  cr_same : gct o ≠ GT_STR → iswhite o' = iswhite o;
  cr_bits : iswhite o' = true → Z.land (marked o') LJ_GC_WHITES = Z.land (marked o) LJ_GC_WHITES }.
Record cle (g g' : gstate) : Prop := {
  c_env : g' = set_heap (heap g') g;
  c_obj a : option_Forall2 orel' (heap g !! a) (heap g' !! a) }.

Lemma cle_refl g : cle g g.
Proof. split; [by destruct g|]. intros a. by destruct (heap g !! a); constructor. Qed.
Lemma cle_trans g1 g2 g3 : cle g1 g2 → cle g2 g3 → cle g1 g3.
Proof.
  intros [E1 O1] [E2 O2]. split; [rewrite E2; by rewrite E1|]. intros a. specialize (O1 a). specialize (O2 a).
  inversion O1 as [x y [? ? ? S1 B1] H1 H2|H1 H2]; rewrite <-H2 in O2; inversion O2 as [x' y' [? ? ? S2 B2]|]; subst; constructor.
  split; [congruence|congruence|auto|intros Ht; rewrite S2, S1; congruence|]. intros Hw. rewrite B2, B1; auto.
Qed.
Lemma strs_cle g g' : strs g g' → cle g g'.
Proof.
  intros S. split; [apply S|]. intros a. destruct (st_obj _ _ S a) as [->|(o & o' & -> & -> & Ht & [Ho ? ?])].
  - by destruct (heap g !! a); constructor.
  - constructor. split; [by apply olike_gct in Ho|done..].
Qed.
Lemma cle_gct g g' x : cle g g' → (gct <$> heap g' !! x) = (gct <$> heap g !! x).
Proof. intros [_ O]. specialize (O x). inversion O as [? ? [? ? ? ?]|]; simpl; congruence. Qed.
Lemma cle_wh g g' b : cle g g' → wh g b = false → wh g' b = false.
Proof.
  intros [_ O]. unfold wh, at_. specialize (O b). inversion O as [o o' [? Hs Hw _]|]; [|done].
  rewrite Hs. destruct (iswhite o'); [|done]. by rewrite Hw.
Qed.

(** Another table with the same marks in place of a table. *)
Definition putt (a : Z) (t' : Tab.GCtab) (g : gstate) : gstate := upd a (λ _, OTab t') g.

Lemma put_cle a t t' g : heap g !! a = Some (OTab t) → Tab.marked t' = Tab.marked t → cle g (putt a t' g).
Proof.
  intros E Hm. split; [by destruct g|]. intros x. unfold putt. rewrite heap_upd. destruct (decide (x = a)) as [->|].
  - rewrite E. constructor. split; [done|..]; unfold iswhite; simpl; by rewrite Hm.
  - by destruct (heap g !! x); constructor.
Qed.
Lemma put_wh a t t' g b : heap g !! a = Some (OTab t) → Tab.marked t' = Tab.marked t → wh (putt a t' g) b = wh g b.
Proof.
  intros E Hm. unfold wh, at_, putt. rewrite heap_upd. destruct (decide (b = a)) as [->|]; [|done].
  rewrite E. unfold iswhite. simpl. by rewrite Hm.
Qed.

Lemma put_kids a t t' g w x o : heap g !! a = Some (OTab t) → kids_w (putt a t' g) w x o = kids_w g w x o.
Proof.
  intros E. destruct o; try done. destruct uv as [th i|]; [|done]. simpl. destruct (decide (th = a)) as [->|].
  - by rewrite lookup_alter_eq, E.
  - by rewrite lookup_alter_ne.
Qed.

Lemma clear_put_closed l a t t' g X :
  heap g !! a = Some (OTab t) → Tab.marked t' = Tab.marked t →
  closed (set_weak l g) (λ x, X x ∨ x = a) → closed (set_weak l (putt a t' g)) (λ x, X x ∨ x = a).
Proof.
  intros E Hm C x o Ex Hw Hs Hg Hx. change (heap (putt a t' g) !! x = Some o) in Ex. unfold putt in Ex.
  rewrite heap_upd, decide_False in Ex by tauto.
  destruct (C x o Ex Hw Hs Hg Hx) as (w & Hmo & Hk). exists w. split; [by destruct o|].
  intros b Hb. change (b ∈ kids_w (putt a t' g) w x o) in Hb. rewrite (put_kids a t) in Hb by done.
  change (wh (putt a t' g) b = false). rewrite (put_wh a t) by done. by apply Hk.
Qed.

Lemma put_tags a t t' g :
  heap g !! a = Some (OTab t) → Tab.marked t' = Tab.marked t → tags_ok g →
  Forall (tv_ok g) (Tab.array t') → Forall (node_ok g) (Tab.node t') → tags_ok (putt a t' g).
Proof.
  intros E Hm T HA HN x tx Ex. pose proof (put_cle a t t' g E Hm) as C.
  assert (Forall (tv_ok g) (Tab.array tx) ∧ Forall (node_ok g) (Tab.node tx)) as [H1 H2].
  { unfold putt in Ex. rewrite heap_upd in Ex. destruct (decide (x = a)) as [->|]; [|by apply (T x)].
    rewrite E in Ex. by injection Ex as <-. }
  split; (eapply Forall_impl; [done|]); intros ?; [apply tv_ok_ext|apply node_ok_ext]; intros; by apply cle_gct.
Qed.

Lemma strs_tags g g' : strs g g' → tags_ok g → tags_ok g'.
Proof.
  intros S T a t E. apply (strs_tab g g' a t S) in E. destruct (T a t E) as [H1 H2].
  split; (eapply Forall_impl; [done|]); intros ?; [apply tv_ok_ext|apply node_ok_ext]; intros; by apply strs_gct.
Qed.

Lemma clear_array_sub vs g vs' g' (P : TValue → Prop) :
  P TNil → Forall P vs → clear_array vs g = (vs', g') → Forall P vs'.
Proof.
  intros H0. revert g vs' g'. induction vs as [|tv vs IH]; intros g vs' g' HT HC; simpl in HC; [by injection HC as <- <-|].
  apply Forall_cons in HT as [Ht HT]. destruct (gc_mayclear tv true g) as [c g1].
  destruct (clear_array vs g1) as [vs2 g2] eqn:E2. injection HC as <- <-.
  constructor; [by destruct c|by eapply IH].
Qed.
Lemma clear_nodes_sub ns g ns' g' (P : Tab.Node → Prop) :
  (∀ n, P (Tab.set_val TNil n)) → Forall P ns → clear_nodes ns g = (ns', g') → Forall P ns'.
Proof.
  intros H0. revert g ns' g'. induction ns as [|n ns IH]; intros g ns' g' HT HC; simpl in HC; [by injection HC as <- <-|].
  apply Forall_cons in HT as [Ht HT]. destruct (clear_node n g) as [n1 g1] eqn:E1.
  destruct (clear_nodes ns g1) as [ns2 g2] eqn:E2. injection HC as <- <-.
  constructor; [|by eapply IH]. unfold clear_node in E1. repeat case_match; by simplify_eq.
Qed.

Lemma upd_put a f t g : heap g !! a = Some (OTab t) → ∀ t', f (OTab t) = OTab t' → upd a f g = putt a t' g.
Proof.
  intros E t' Hf. unfold upd, putt, upd. f_equal. apply map_eq. intros x.
  destruct (decide (x = a)) as [->|]; [by rewrite !lookup_alter_eq, E; simpl; rewrite Hf|by rewrite !lookup_alter_ne].
Qed.

(** The array part, then the hash part: what is left in each is not white. *)
Lemma clear_table_array l a t g X :
  heap g !! a = Some (OTab t) → tags_ok g → closed (set_weak l g) (λ x, X x ∨ x = a) →
  let g1 := if has (Tab.marked t) LJ_GC_WEAKVAL
            then let (vs, g) := clear_array (Tab.array t) g in upd a (set_array vs) g else g in
  ∃ vs, heap g1 !! a = Some (OTab (Tab.set_array (Tab.colo t) vs t)) ∧ tags_ok g1 ∧ cle g g1 ∧
    closed (set_weak l g1) (λ x, X x ∨ x = a) ∧
    (has (Tab.marked t) LJ_GC_WEAKVAL = true ∨ (∀ b, b ∈ tvaddrs (Tab.array t) → wh g b = false) →
     ∀ b, b ∈ tvaddrs vs → wh g1 b = false).
Proof.
  intros E T C g1. destruct (T a t E) as [HT _]. subst g1. destruct (has (Tab.marked t) LJ_GC_WEAKVAL).
  - destruct (clear_array (Tab.array t) g) as [vs g'] eqn:EC. destruct (clear_array_spec _ _ _ _ HT EC) as [S W].
    pose proof (proj2 (strs_tab g g' a t S) E) as E'.
    rewrite (upd_put a _ t g' E' (Tab.set_array (Tab.colo t) vs t)) by done. exists vs. split_and!.
    + unfold putt. by rewrite heap_upd, decide_True, E'.
    + eapply put_tags; [done|done|by eapply strs_tags| |].
      * eapply clear_array_sub; [done| |done]. eapply Forall_impl; [done|]. intros v. apply tv_ok_ext. intros. by apply strs_gct.
      * exact (proj2 (strs_tags g g' S T a t E')).
    + eapply cle_trans; [by apply strs_cle|]. by eapply put_cle.
    + eapply clear_put_closed; [done|done|]. by eapply strs_closed.
    + intros _ b Hb. rewrite (put_wh a t) by done. by apply W.
  - exists (Tab.array t). split_and!; [by rewrite E; destruct t|done|apply cle_refl|done|]. by intros [?|HA].
Qed.

Lemma clear_table_nodes l a t g X :
  heap g !! a = Some (OTab t) → tags_ok g → closed (set_weak l g) (λ x, X x ∨ x = a) →
  let g1 := if 0 <? Tab.hmask t then let (ns, g) := clear_nodes (Tab.node t) g in upd a (set_node ns) g else g in
  ∃ ns, heap g1 !! a = Some (OTab (Tab.set_node ns t)) ∧ tags_ok g1 ∧ cle g g1 ∧
    closed (set_weak l g1) (λ x, X x ∨ x = a) ∧
    ∀ b, b ∈ (if 0 <? Tab.hmask t then concat (node_kids 0 <$> ns) else []) → wh g1 b = false.
Proof.
  intros E T C g1. destruct (T a t E) as [_ HT]. subst g1. destruct (0 <? Tab.hmask t).
  - destruct (clear_nodes (Tab.node t) g) as [ns g'] eqn:EC. destruct (clear_nodes_spec _ _ _ _ HT EC) as [S W].
    pose proof (proj2 (strs_tab g g' a t S) E) as E'.
    rewrite (upd_put a _ t g' E' (Tab.set_node ns t)) by done. exists ns. split_and!.
    + unfold putt. by rewrite heap_upd, decide_True, E'.
    + eapply put_tags; [done|done|by eapply strs_tags| |].
      * exact (proj1 (strs_tags g g' S T a t E')).
      * eapply clear_nodes_sub; [by intros n ?| |done]. eapply Forall_impl; [done|]. intros v. apply node_ok_ext. intros. by apply strs_gct.
    + eapply cle_trans; [by apply strs_cle|]. by eapply put_cle.
    + eapply clear_put_closed; [done|done|]. by eapply strs_closed.
    + intros b Hb. rewrite (put_wh a t) by done. by apply W.
  - exists (Tab.node t). split_and!; [by rewrite E; destruct t|done|apply cle_refl|done|]. intros b []%elem_of_nil.
Qed.

Lemma clear_table_spec l a g X :
  tags_ok g → closed (set_weak (a :: l) g) X →
  tags_ok (clear_table g a) ∧ cle g (clear_table g a) ∧ closed (set_weak l (clear_table g a)) X.
Proof.
  intros T C.
  assert (closed (set_weak l g) (λ x, X x ∨ x = a)) as C1.
  { intros x o E Hw Hs Hg Hx. destruct (C x o E Hw Hs Hg ltac:(tauto)) as (w & Hm & Hk). exists w. split; [|done].
    destruct o; try done. destruct Hm as [?|[?|[[?|?]%elem_of_cons ?]]]; [by left|by right; left|tauto|by right; right]. }
  unfold clear_table. destruct (heap g !! a) as [o|] eqn:E.
  2:{ split_and!; [done|apply cle_refl|]. apply (closed_drop _ _ a); [done|]. simpl. congruence. }
  assert ((∀ t, o ≠ OTab t) → closed (set_weak l g) X) as Hno.
  { intros Ht x ox Ex Hw Hs Hg Hx. destruct (C x ox Ex Hw Hs Hg Hx) as (w & Hm & Hk). exists w. split; [|done].
    destruct ox; try done. simpl in Ex. destruct Hm as [?|[?|[[->|?]%elem_of_cons ?]]]; [by left|by right; left| |by right; right].
    by destruct (Ht t); congruence. }
  destruct o as [| | | | | | |t|]; try (split_and!; [done|apply cle_refl|]; by apply Hno). clear Hno.
  destruct (clear_table_array l a t g X E T C1) as (vs & E1 & T1 & L1 & CC1 & W1).
  set (g1 := if has (Tab.marked t) LJ_GC_WEAKVAL then _ else g) in *.
  set (t1 := Tab.set_array (Tab.colo t) vs t) in *.
  destruct (clear_table_nodes l a t1 g1 X E1 T1 CC1) as (ns & E2 & T2 & L2 & CC2 & W2).
  change (Tab.hmask t1) with (Tab.hmask t) in *. change (Tab.node t1) with (Tab.node t) in *.
  set (g2 := if 0 <? Tab.hmask t then _ else g1) in *.
  split_and!; [done|by eapply cle_trans|].
  intros x o Ex Hw Hs Hg Hx. destruct (decide (x = a)) as [->|Hxa]; [|apply CC2; try done; by intros [?|?]].
  change (heap g2 !! a = Some o) in Ex. assert (o = OTab (Tab.set_node ns t1)) as -> by congruence.
  assert (gray g2 = gray g) as HG by (rewrite (c_env _ _ L2), (c_env _ _ L1); done).
  destruct (C a (OTab t) E Hw Hs) as (w & Hm & Hk); [by change (a ∉ gray g); rewrite <-HG|done|].
  exists 0. split; [by left|]. intros b Hb. change (b ∈ tab_kids 0 (Tab.set_node ns t1)) in Hb.
  change (wh g2 b = false). unfold tab_kids in Hb. apply elem_of_app in Hb as [Hb|[Hb|Hb]%elem_of_app].
  - apply (cle_wh g); [by apply (cle_trans g g1)|]. apply Hk. simpl. unfold tab_kids. apply elem_of_app. by left.
  - apply (cle_wh g1); [done|]. apply W1; [|done].
    destruct (has w LJ_GC_WEAKVAL) eqn:HV.
    + left. destruct Hm as [->|[[_ ->]|[_ Hm]]]; [done|done|auto].
    + right. intros b' Hb'. apply Hk. simpl. unfold tab_kids. rewrite HV. set_solver.
  - by apply W2.
Qed.

Lemma clearweak_spec l g X :
  tags_ok g → closed (set_weak l g) X →
  tags_ok (gc_clearweak l g) ∧ cle g (gc_clearweak l g) ∧ closed (set_weak [] (gc_clearweak l g)) X.
Proof.
  revert g. induction l as [|a l IH]; intros g T C; [split_and!; [done|apply cle_refl|done]|].
  destruct (clear_table_spec l a g X T C) as (T1 & L1 & C1). destruct (IH _ T1 C1) as (T2 & L2 & C2).
  split_and!; [done|by eapply cle_trans|done].
Qed.

End Clear.

End GcClear.
