(* ===== verification/GcSafe.v ===== *)
(** * The collector keeps what can be reached, and only that

    [GcSafe]: the stages of [atomic], what marking leaves ([atomic_inv]), and what may be freed after
    it.  [GcCycle]: the start of a cycle, and the mutator while the collector marks. *)

From stdpp Require Import base decidable list numbers option sets gmap relations.
From Stdlib Require Import ZArith Lia.
From S2P Require Import Prelude Obj Tab Bc Ir GcObj Gc GcSweep GcInv GcMark GcTraverse.
From S2P Require Import GcPropagate GcSweepSpec GcAtomic.

Local Open Scope Z_scope.
Import Obj GcObj Gc GcSweep GcInv GcMark GcTraverse GcPropagate GcSweepSpec GcAtomic GcClear.

Module GcSafe.

Section Safe.
Context `{OH : ObjHeap}.

(** ** Stages *)

(** What is marked is reached from what was marked before and from [l]. *)
Definition from (g g' : gstate) (l : list Z) : Prop :=
  ∀ R, closed_set g R → (∀ x, at_ iswhite g x = false → R x) → (∀ b, b ∈ l → R b) →
  ∀ x, at_ iswhite g' x = false → R x.

Record stage (g g' : gstate) (l : list Z) : Prop := {
  sg_hle : hle g g';
  sg_ok : gray_ok g';
  sg_again : grayagain g ⊆ grayagain g';
  sg_from : from g g' l }.

Lemma from_only g g' l : hle g g' → only g g' l → from g g' l.
Proof.
  intros L O R HR Hw Hl x Hx. destruct (at_ iswhite g x) eqn:W; [|auto]. unfold at_ in *.
  destruct (heap g !! x) as [o|] eqn:E; [|done]. destruct (hle_Some _ _ _ _ L E) as (o' & E' & _).
  rewrite E' in Hx. by apply (O R HR Hl x o o').
Qed.

Lemma from_sub g g' l l' : (∀ b, b ∈ l → at_ iswhite g b = false ∨ b ∈ l') → from g g' l → from g g' l'.
Proof. intros S F R HR Hw Hl. apply F; [done|done|]. intros b Hb. destruct (S b Hb); auto. Qed.

Lemma from_trans g1 g2 g3 l1 l2 : hle g1 g2 → from g1 g2 l1 → from g2 g3 l2 → from g1 g3 (l1 ++ l2).
Proof.
  intros L F1 F2 R HR Hw Hl. apply F2; [by eapply closed_set_mono| |].
  - apply F1; [done|done|]. intros b Hb. apply Hl. set_solver.
  - intros b Hb. apply Hl. set_solver.
Qed.

Lemma stage_trans g1 g2 g3 l1 l2 : stage g1 g2 l1 → stage g2 g3 l2 → stage g1 g3 (l1 ++ l2).
Proof.
  intros [L1 _ A1 F1] [L2 K2 A2 F2]. split; [by transitivity g2|done|set_solver|by eapply from_trans].
Qed.

Lemma progress_stage g g' l l' :
  gray_ok g → progress g g' l → (∀ b, b ∈ l → at_ iswhite g b = false ∨ b ∈ l') → stage g g' l'.
Proof.
  intros G P S. split; [apply P|by apply P|apply P|]. eapply from_sub; [done|]. apply from_only; apply P.
Qed.

Lemma mark_stage g g' l : gray_ok g → mark_ok g g' l → stage g g' l.
Proof. intros G M. eapply progress_stage; [done|by apply mark_ok_progress|auto]. Qed.

Lemma gray_notwhite g b : gray_ok g → b ∈ gray g → at_ iswhite g b = false.
Proof.
  intros G Hb. destruct (go_gray _ G b) as (o & E & _ & Hw & _); [unfold lists; set_solver|]. unfold at_. by rewrite E.
Qed.

Lemma propagate_stage g : gtyped g → gray_ok g →
  stage g (gc_propagate_gray g).1 [] ∧ gray (gc_propagate_gray g).1 = [] ∧
  (∀ X, closed g X → closed (gc_propagate_gray g).1 X) ∧ weak g ⊆ weak (gc_propagate_gray g).1.
Proof.
  intros T G. destruct (propagate_gray_spec g T G) as [P E]. split_and!; [|done|apply P|apply P].
  eapply progress_stage; [done|done|]. intros b Hb. left. by apply gray_notwhite.
Qed.

Lemma stage_typed g g' l : stage g g' l → gtyped g → gtyped g'.
Proof. intros S. apply gtyped_mono, S. Qed.

(** ** The parts of [atomic] *)

Definition at1 (g : gstate) : gstate := (gc_propagate_gray (gc_mark_uv g)).1.
Definition at2 (L : Z) (g : gstate) : gstate :=
  let g := gc_markobj L (reload_weak g) in
  (gc_propagate_gray (gc_mark_gcroot (gc_traverse_trace (cur g) g))).1.
Definition at3 (g : gstate) : gstate := (gc_propagate_gray (reload_again g)).1.
Definition at4 (g : gstate) : gstate := (lj_gc_separateudata false g).1.
Definition at5 (g : gstate) : gstate := (gc_propagate_gray (gc_mark_mmudata g)).1.
Definition at6 (g : gstate) : gstate := gc_clearweak (weak g) g.

Lemma at1_spec g X :
  gtyped g → gray_ok g → (∀ a o, heap g !! a = Some o → uv_open o = true → a ∈ uvhead g) →
  closed g (λ a, X a ∨ at_ uv_open g a = true) →
  stage g (at1 g) [] ∧ gray (at1 g) = [] ∧ closed (at1 g) X ∧ weak g ⊆ weak (at1 g).
Proof.
  intros T G HU C. destruct (mark_uv_spec g X T G HU C) as [P C1].
  assert (stage g (gc_mark_uv g) []) as S1.
  { eapply progress_stage; [done|done|]. intros b [Hb _]%list_elem_of_filter. by left. }
  destruct (propagate_stage (gc_mark_uv g)) as (S2 & E & C2 & W2); [by eapply stage_typed|apply S1|].
  split_and!; [by apply (stage_trans _ _ _ [] [] S1)|done|by apply C2|]. etransitivity; [apply P|done].
Qed.

Lemma env_refs g g' : env_eq g g' → gcroot g' = gcroot g ∧ cur g' = cur g.
Proof. unfold env_eq. by intros ->. Qed.

Definition roots2 (L : Z) (g : gstate) : list Z := [L] ++ trace_kids g (cur g) ++ nonzero (gcroot g).

Lemma trace_kids_env g g' T : env_eq g g' → trace_kids g' T = trace_kids g T.
Proof. intros E. unfold trace_kids, trace_if. by rewrite !(traceref_env _ _ _ E). Qed.

Lemma roots2_env L g g' : env_eq g g' → roots2 L g' = roots2 L g.
Proof. intros E. unfold roots2. destruct (env_refs _ _ E) as [-> ->]. by rewrite (trace_kids_env g g'). Qed.

Lemma reload_weak_stage g : gray g = [] → gray_ok g → stage g (reload_weak g) [].
Proof.
  intros E G. split; [apply (env_lists g _ (grayagain g))|by apply reload_weak_ok|done|]. intros R _ Hw _ x Hx. by apply Hw.
Qed.

Lemma at2_spec L g X :
  gtyped g → gray_ok g → gray g = [] → closed g (λ a, X a ∨ a ∈ weak g) →
  stage g (at2 L g) (roots2 L g) ∧ gray (at2 L g) = [] ∧ closed (at2 L g) X ∧
  ∀ b, b ∈ roots2 L g → wh (at2 L g) b = false.
Proof.
  intros T G E C. unfold at2. pose proof (reload_weak_stage g E G) as S0. set (g0 := reload_weak g) in *.
  pose proof (reload_weak_closed g X E C) as C0.
  pose proof (stage_typed _ _ _ S0 T) as T0. pose proof (markobj_spec L g0 T0) as M1.
  set (g1 := gc_markobj L g0) in *. pose proof (mark_ok_typed _ _ _ M1 T0) as T1.
  pose proof (traverse_trace_spec (cur g1) g1 T1) as M2. set (g2 := gc_traverse_trace _ g1) in *.
  pose proof (mark_ok_typed _ _ _ M2 T1) as T2. pose proof (mark_gcroot_spec g2 T2) as M3.
  set (g3 := gc_mark_gcroot g2) in *. pose proof (mark_ok_typed _ _ _ M3 T2) as T3.
  assert (mark_ok g0 g3 (roots2 L g)) as M.
  { pose proof (ml_hle _ _ (mk_mle _ _ _ M1)) as L1. pose proof (ml_hle _ _ (mk_mle _ _ _ M2)) as L2.
    destruct (env_refs _ _ (h_env _ _ L1)) as [R1 K1], (env_refs _ _ (h_env _ _ L2)) as [R2 K2].
    rewrite K1, (trace_kids_env g0 g1) in M2 by apply L1. rewrite R2, R1 in M3.
    unfold roots2. eapply mark_ok_app; [done|]. eapply mark_ok_app; done. }
  pose proof (mark_stage g0 g3 _ (sg_ok _ _ _ S0) M) as S3.
  destruct (propagate_stage g3 T3 (sg_ok _ _ _ S3)) as (S4 & E4 & C4 & _).
  pose proof (stage_trans _ _ _ _ _ (stage_trans _ _ _ _ _ S0 S3) S4) as S. rewrite app_nil_r in S.
  split_and!; [done|done|by apply C4, M|]. intros b Hb. eapply wh_mono; [apply S4|]. by apply M.
Qed.

Lemma at3_spec g X :
  gtyped g → gray_ok g → gray g = [] → closed g (λ a, X a ∨ a ∈ grayagain g) →
  hle g (at3 g) ∧ gray_ok (at3 g) ∧ from g (at3 g) [] ∧ gray (at3 g) = [] ∧ closed (at3 g) X.
Proof.
  intros T G E C. unfold at3. pose proof (reload_again_ok g E G) as G0. pose proof (reload_again_closed g X E C) as C0.
  assert (hle g (reload_again g)) as L0 by apply (env_lists g (grayagain g) [] (weak g)).
  destruct (propagate_stage (reload_again g)) as (S & E1 & C1 & _); [by eapply gtyped_mono|done|].
  split_and!; [by transitivity (reload_again g); [|apply S]|apply S| |done|by apply C1].
  apply (from_trans _ (reload_again g) _ [] []); [done| |apply S]. intros R _ Hw _ x Hx. by apply Hw.
Qed.

Lemma frame_hle r m g g' : hle g g' → hle (frame r m g) (frame r m g').
Proof.
  intros [He Hh]. split; [unfold env_eq in *; rewrite He at 1; done|]. intros x. specialize (Hh x). simpl.
  inversion Hh as [o o' [Ho Hs Hw Hb]|]; constructor. split; [by destruct o, o'|done..].
Qed.

Lemma tags_frame r m g : tags_ok g → tags_ok (frame r m g).
Proof. done. Qed.
Lemma heap_frame r m g : heap (frame r m g) = heap g.
Proof. done. Qed.
Lemma closed_set_frame r m g R : closed_set g R → closed_set (frame r m g) R.
Proof. intros H a b Ha (o & E & Hb). apply (H a b Ha). exists o. by rewrite kids_frame in Hb. Qed.
Lemma wh_frame r m g b : wh (frame r m g) b = wh g b.
Proof. done. Qed.
Lemma from_frame r m g g' l : from g g' l → from (frame r m g) (frame r m g') l.
Proof.
  intros F R HR. apply F. intros a b Ha (o & E & Hb). apply (HR a b Ha). exists o. by rewrite kids_frame.
Qed.

Lemma mmudata_loop g : foldl mark_ud1 g (mmudata g) = gc_mark_mmudata g.
Proof. reflexivity. Qed.

Lemma at45_spec g :
  gtyped g → gray_ok g → (∀ u, u ∈ mmudata g → is_ud g u) → closed g (λ a, a ∈ mmudata g) →
  let g' := at5 (at4 g) in
  (∃ r m, stage (frame r m g) g' (mmudata g')) ∧ gray g' = [] ∧ closed g' (λ _, False) ∧
  (∀ b, b ∈ mmudata g' → wh g' b = false) ∧ mmudata g ⊆ mmudata g'.
Proof.
  intros T G HU C g'. unfold g', at5, at4, lj_gc_separateudata.
  destruct (separate_loop_spec (after (mainthref g) (root g)) false 0 g) as [(r & m & P) HM HU1 _].
  set (g1 := (separate_loop _ _ _ g).1) in *. specialize (HU1 HU).
  assert (gray_ok (frame r m g)) as G0 by (by apply (gray_ok_lists g)).
  assert (gtyped (frame r m g)) as T0 by (by apply (gtyped_ext g)).
  pose proof (progress_stage _ _ _ [] G0 P ltac:(intros ? []%elem_of_nil)) as S1.
  pose proof (stage_typed _ _ _ S1 T0) as T1.
  destruct (mark_mmudata_loop (mmudata g1) g1 (λ _, False) T1 HU1) as [M2 C2].
  { eapply closed_sub; [|by apply P, C]. simpl. intros a Ha. right. by apply HM. }
  rewrite mmudata_loop in M2, C2.
  pose proof (mark_stage _ _ _ (sg_ok _ _ _ S1) M2) as S2.
  destruct (propagate_stage (gc_mark_mmudata g1)) as (S3 & E3 & C3 & _); [by eapply stage_typed|apply S2|].
  set (g3 := (gc_propagate_gray _).1) in *.
  assert (mmudata g3 = mmudata g1) as Em.
  { rewrite (proj2 (env_root_ud _ _ (h_env _ _ (sg_hle _ _ _ S3)))). by apply (env_root_ud _ _ (h_env _ _ (sg_hle _ _ _ S2))). }
  rewrite Em. split_and!; [|done|by apply C3| |done].
  - exists r, m. pose proof (stage_trans _ _ _ _ _ (stage_trans _ _ _ _ _ S1 S2) S3) as S. by rewrite app_nil_r in S.
  - intros b Hb. eapply wh_mono; [apply S3|]. by apply M2.
Qed.

(** ** Before and after *)

(** Objects whose references may still change or were not marked in this cycle. *)
Definition pending (g : gstate) (a : Z) : Prop :=
  a ∈ grayagain g ∨ a ∈ weak g ∨ a ∈ mmudata g ∨ at_ uv_open g a = true.

Record mark_base (g : gstate) : Prop := {
  mi_typed : gtyped g;
  mi_tags : tags_ok g;
  mi_gray : gray_ok g;
  mi_sat a o : heap g !! a = Some o → uj_obj_is_sealed o = false → sat o = true → wb o = true ∨ a ∈ mmudata g;
  mi_uv a o : heap g !! a = Some o → uv_open o = true → a ∈ uvhead g;
  mi_ud u : u ∈ mmudata g → is_ud g u;
  mi_empty o : heap g !! strempty_own g = Some o → gct o = GT_STR;
  mi_root b : b ∈ mainthref g :: tvaddr (registrytv g) → wh g b = false;
  mi_cw : white_ok g }.

Record mark_inv (g : gstate) : Prop := {
  mi_base : mark_base g;
  mi_closed : closed g (pending g) }.

(** All references, weak ones too, but for the keys of the table of finalizers. *)
Definition refs (g : gstate) (a : Z) (o : GCobj) : list Z :=
  kids_w g (if finalizer g =? a then Z.lnot LJ_GC_WEAKVAL else 0) a o.

(** What can be reached; the references of sealed objects are left to the sealing of objects. *)
Inductive reach (g : gstate) (roots : list Z) : Z → Prop :=
  | reach_root b : b ∈ roots → reach g roots b
  | reach_ref a o b :
      reach g roots a → heap g !! a = Some o → uj_obj_is_sealed o = false → b ∈ refs g a o → reach g roots b.

Lemma node_kids_strong n : node_kids (Z.lnot LJ_GC_WEAKVAL) n ⊆ node_kids 0 n.
Proof.
  unfold node_kids. destruct (tvisnil (Tab.val n)); [done|].
  change (has (Z.lnot LJ_GC_WEAKVAL) LJ_GC_WEAKKEY) with true. change (has (Z.lnot LJ_GC_WEAKVAL) LJ_GC_WEAKVAL) with false.
  change (has 0 LJ_GC_WEAKKEY) with false. change (has 0 LJ_GC_WEAKVAL) with false. cbv iota. set_solver.
Qed.

Lemma refs_settled g a o :
  settled (set_weak [] g) a o → ∀ b, b ∈ refs g a o → wh g b = false.
Proof.
  intros (w & Hm & Hk) b Hb. apply Hk. unfold refs in Hb. destruct o; try (simpl in Hm; subst w; exact Hb).
  destruct Hm as [->|[[Hf ->]|[[]%elem_of_nil _]]].
  - destruct (finalizer g =? a); [|done]. simpl in *. unfold tab_kids in *. rewrite !elem_of_app in *.
    destruct Hb as [?|[?|Hb]]; [by left|by right; left|right; right]. destruct (0 <? Tab.hmask t); [|done].
    apply elem_of_concat in Hb as (n & ? & ?). apply elem_of_concat. exists n. split; [done|]. by apply node_kids_strong.
  - simpl in Hf. rewrite Hf, Z.eqb_refl in Hb. done.
Qed.

Lemma tags_mono g g' : hle g g' → tags_ok g → tags_ok g'.
Proof.
  intros L T a t' E'. destruct (hle_Some_r _ _ _ _ L E') as (o & E & [Ho _ _]). destruct o; try done.
  destruct (T a t E) as [H1 H2]. destruct Ho as [-> _].
  assert (∀ x, (gct <$> heap g' !! x) = (gct <$> heap g !! x)) as Hg.
  { intros x. pose proof (h_obj _ _ L x) as H. inversion H as [? ? [Hx _ _]|]; [|done]. simpl. by rewrite (olike_gct _ _ _ Hx). }
  split; (eapply Forall_impl; [done|]); intros ?; [by apply tv_ok_ext|by apply node_ok_ext].
Qed.

(** ** The state after all marking *)

Definition marked_all (L : Z) (g : gstate) : gstate := at5 (at4 (at3 (at2 L (at1 g)))).

Definition all_roots (L : Z) (g : gstate) : list Z :=
  (mainthref g :: tvaddr (registrytv g)) ++ roots2 L g.

Lemma marked_all_spec L g :
  mark_inv g →
  let g' := marked_all L g in
  (∃ r m, hle (frame r m g) g' ∧ from (frame r m g) g' (roots2 L g ++ mmudata g')) ∧
  gray g' = [] ∧ closed g' (λ _, False) ∧ (∀ b, b ∈ all_roots L g ++ mmudata g' → wh g' b = false).
Proof.
  intros [[T TG G HSat HU HD HE HR _] C] g'. unfold g', marked_all.
  destruct (at1_spec g (λ a, (a ∈ grayagain g ∨ a ∈ mmudata g) ∨ a ∈ weak g) T G HU) as (S1 & E1 & C1 & HW1).
  { eapply closed_sub; [|done]. unfold pending. tauto. }
  set (g1 := at1 g) in *. clearbody g1. pose proof (stage_typed _ _ _ S1 T) as T1.
  destruct (at2_spec L g1 (λ a, a ∈ grayagain g ∨ a ∈ mmudata g) T1 (sg_ok _ _ _ S1) E1) as (S2 & E2 & C2 & W2).
  { eapply closed_sub; [|done]. simpl. intros a [?|?]; [by left|right; by apply HW1]. }
  set (g2 := at2 L g1) in *. clearbody g2. pose proof (stage_typed _ _ _ S2 T1) as T2.
  pose proof (stage_trans _ _ _ _ _ S1 S2) as S12. rewrite app_nil_l in S12.
  destruct (at3_spec g2 (λ a, a ∈ mmudata g) T2 (sg_ok _ _ _ S2) E2) as (L3 & G3 & F3 & E3 & C3).
  { eapply closed_sub; [|done]. simpl. intros a [?|?]; [right; by apply S12|by left]. }
  set (g3 := at3 g2) in *. clearbody g3. pose proof (gtyped_mono _ _ L3 T2) as T3.
  assert (hle g g3) as L13 by (transitivity g2; [apply S12|done]).
  destruct (env_root_ud _ _ (h_env _ _ L13)) as [Hr3 Hm3].
  destruct (at45_spec g3 T3 G3) as ((r & m & S4) & E4 & C4 & W4 & HM).
  { rewrite Hm3. intros u Hu. eapply is_ud_mono; [done|auto]. }
  { by rewrite Hm3. }
  set (g5 := at5 (at4 g3)) in *. clearbody g5.
  assert (roots2 L g1 = roots2 L g) as HR2.
  { apply roots2_env, S1. }
  rewrite HR2 in *.
  pose proof (frame_hle r m _ _ L13) as LF.
  assert (from (frame r m g) (frame r m g3) (roots2 L g)) as FF.
  { apply from_frame. rewrite <-(app_nil_r (roots2 L g)). by apply (from_trans g g2 g3); [apply S12|apply S12|]. }
  split_and!; [|done|done|].
  - exists r, m. split; [by transitivity (frame r m g3); [|apply S4]|]. eapply from_trans; [done|done|apply S4].
  - assert (∀ b, wh g3 b = false → wh g5 b = false) as H35.
    { intros b Hb. apply (wh_mono (frame r m g3)); [apply S4|by rewrite wh_frame]. }
    intros b [[Hb|Hb]%elem_of_app|Hb]%elem_of_app; [| |by apply W4]; apply H35.
    + eapply wh_mono; [done|by apply HR].
    + eapply (wh_mono g2); [done|by apply W2].
Qed.

(** ** The end of [atomic] *)

Definition flipped (g : gstate) : gstate :=
  upd (strempty_own g) flipwhite (set_currentwhite (otherwhite g) g).

(** The last assignments change neither the heap nor what refers to it. *)
Definition swept_from_root (e : Z) (g : gstate) : gstate := set_estimate e (set_sweep SwRoot g).

Lemma atomic_eq L g : ∃ e, atomic L g = swept_from_root e (flipped (at6 (marked_all L g))).
Proof.
  unfold atomic, marked_all, at1, at2, at3, at4, at5.
  destruct (gc_propagate_gray (gc_mark_uv g)) as [g1 c1]. cbn [fst].
  fold (reload_weak g1). destruct (gc_propagate_gray (gc_mark_gcroot _)) as [g2 c2]. cbn [fst].
  fold (reload_again g2). destruct (gc_propagate_gray (reload_again g2)) as [g3 c3]. cbn [fst].
  destruct (lj_gc_separateudata false g3) as [g4 c4]. cbn [fst].
  destruct (gc_propagate_gray (gc_mark_mmudata g4)) as [g5 c5]. cbn [fst]. eexists. reflexivity.
Qed.

Lemma flip_heap g x :
  heap (flipped g) !! x = if decide (x = strempty_own g) then flipwhite <$> heap g !! strempty_own g else heap g !! x.
Proof. unfold flipped. by rewrite heap_upd. Qed.

Lemma flip_kids g w a o :
  (∀ o, heap g !! strempty_own g = Some o → gct o = GT_STR) → kids_w (flipped g) w a o = kids_w g w a o.
Proof.
  intros HE. destruct o; try done. destruct uv as [th i|]; [|done]. cbn [kids_w uvval]. rewrite flip_heap.
  destruct (decide (th = strempty_own g)) as [->|]; [|done].
  destruct (heap g !! strempty_own g) as [o|] eqn:E; [|done]. specialize (HE o eq_refl). by destruct o.
Qed.

Lemma flip_wh g x : x ≠ strempty_own g → wh (flipped g) x = wh g x.
Proof. intros Hx. unfold wh, at_. by rewrite flip_heap, decide_False. Qed.

(** An object that is kept refers to no object that may be freed. *)
Definition no_dangling (g : gstate) : Prop :=
  ∀ a o b, heap g !! a = Some o → wh g a = false → uj_obj_is_sealed o = false → b ∈ refs g a o →
    b ≠ strempty_own g → wh g b = false.

Lemma flip_dangling g :
  (∀ o, heap g !! strempty_own g = Some o → gct o = GT_STR) → closed (set_weak [] g) (λ _, False) → gray g = [] →
  no_dangling (flipped g).
Proof.
  intros HE C G a o b E Hw Hs Hb Hne. change (strempty_own (flipped g)) with (strempty_own g) in Hne.
  rewrite flip_wh by done. unfold refs in Hb. rewrite flip_kids in Hb by done.
  change (finalizer (flipped g)) with (finalizer g) in Hb. fold (refs g a o) in Hb.
  rewrite flip_heap in E. destruct (decide (a = strempty_own g)) as [->|Ha].
  - destruct (heap g !! strempty_own g) as [o'|] eqn:E'; [|done]. specialize (HE o' eq_refl). injection E as <-.
    destruct o'; try done. by apply elem_of_nil in Hb.
  - apply (refs_settled g a o); [|done]. apply C; [done| |done|change (a ∉ gray g); rewrite G; apply not_elem_of_nil|tauto].
    rewrite flip_wh in Hw by done. unfold wh, at_ in Hw. rewrite E, Hs in Hw. by destruct (iswhite o).
Qed.

Lemma reach_kept g roots x :
  no_dangling g → (∀ o, heap g !! strempty_own g = Some o → gct o = GT_STR) →
  (∀ b, b ∈ roots → b ≠ strempty_own g → wh g b = false) →
  reach g roots x → x ≠ strempty_own g → wh g x = false.
Proof.
  intros HD HE HR. induction 1 as [b Hb|a o b Ha IH E Hs Hb]; intros Hne; [by apply HR|].
  destruct (decide (a = strempty_own g)) as [->|Hae].
  - specialize (HE o E). destruct o; try done. by apply elem_of_nil in Hb.
  - eapply HD; eauto.
Qed.

Lemma end_kids e g w a o : kids_w (swept_from_root e g) w a o = kids_w g w a o.
Proof. by destruct o. Qed.
Lemma end_wh e g b : wh (swept_from_root e g) b = wh g b.
Proof. done. Qed.
Lemma end_heap e g : heap (swept_from_root e g) = heap g.
Proof. done. Qed.
Lemma end_env e g : strempty_own (swept_from_root e g) = strempty_own g ∧ mmudata (swept_from_root e g) = mmudata g ∧
  finalizer (swept_from_root e g) = finalizer g.
Proof. done. Qed.
Lemma end_dangling e g : no_dangling g → no_dangling (swept_from_root e g).
Proof.
  intros D a o b. unfold refs. rewrite end_heap, !end_wh, end_kids. destruct (end_env e g) as (-> & _ & ->). apply D.
Qed.
Lemma flip_env g : strempty_own (flipped g) = strempty_own g ∧ mmudata (flipped g) = mmudata g.
Proof. done. Qed.

Lemma cle_env g g' : cle g g' → strempty_own g' = strempty_own g ∧ mmudata g' = mmudata g ∧ gray g' = gray g.
Proof. intros [-> _]. done. Qed.
Lemma hle_empty g g' : hle g g' → strempty_own g' = strempty_own g.
Proof. intros [E _]. unfold env_eq in E. by rewrite E. Qed.

(** The state after marking, and after clearing. *)
Lemma atomic_parts L g :
  mark_inv g → ∃ r m g5 g6 e,
    atomic L g = swept_from_root e (flipped g6) ∧ hle (frame r m g) g5 ∧ cle g5 g6 ∧ gray g5 = [] ∧
    closed (set_weak [] g6) (λ _, False) ∧ (∀ b, b ∈ all_roots L g ++ mmudata g5 → wh g5 b = false) ∧
    from (frame r m g) g5 (roots2 L g ++ mmudata g5).
Proof.
  intros I. destruct (marked_all_spec L g I) as ((r & m & LE & F) & G & C & R).
  destruct (atomic_eq L g) as [e Ea]. set (g5 := marked_all L g) in *. clearbody g5.
  assert (tags_ok g5) as T5.
  { eapply (tags_mono (frame r m g)); [done|]. apply tags_frame, (mi_tags _ (mi_base _ I)). }
  assert (set_weak (weak g5) g5 = g5) as Hw by (by destruct g5).
  destruct (clearweak_spec (weak g5) g5 (λ _, False) T5) as (T6 & L6 & C6); [by rewrite Hw|].
  exists r, m, g5, (at6 g5), e. done.
Qed.

Lemma atomic_env L g :
  mark_inv g → strempty_own (atomic L g) = strempty_own g ∧
  (∀ o, heap (atomic L g) !! strempty_own g = Some o → gct o = GT_STR) ∧
  no_dangling (atomic L g) ∧
  (∀ b, b ∈ all_roots L g ++ mmudata (atomic L g) → b ≠ strempty_own g → wh (atomic L g) b = false) ∧
  (∀ R, closed_set g R → (∀ x, at_ iswhite g x = false → R x) →
     (∀ b, b ∈ roots2 L g ++ mmudata (atomic L g) → R b) →
     ∀ x o, heap (atomic L g) !! x = Some o → gct o ≠ GT_STR → iswhite o = false → R x).
Proof.
  intros I. destruct (atomic_parts L g I) as (r & m & g5 & g6 & e & -> & LE & L6 & G & C6 & R & F).
  assert (strempty_own g6 = strempty_own g) as He.
  { destruct (cle_env _ _ L6) as (-> & _). by rewrite (hle_empty _ _ LE). }
  destruct (cle_env _ _ L6) as (_ & Hm & HG). rewrite G in HG.
  assert (∀ x, (gct <$> heap g6 !! x) = (gct <$> heap g !! x)) as Ht.
  { intros x. rewrite (cle_gct g5 g6) by done. pose proof (h_obj _ _ LE x) as H. rewrite heap_frame in H.
    inversion H as [? ? [Hx _ _]|]; [|done]. simpl. by rewrite (olike_gct _ _ _ Hx). }
  assert (∀ o, heap g6 !! strempty_own g6 = Some o → gct o = GT_STR) as HE.
  { intros o Eo. specialize (Ht (strempty_own g6)). rewrite Eo, He in Ht. pose proof (mi_empty _ (mi_base _ I)) as HE.
    destruct (heap g !! strempty_own g) as [o'|]; [|done]. injection Ht as ->. by apply HE. }
  destruct (end_env e (flipped g6)) as (-> & -> & _). destruct (flip_env g6) as (-> & ->). rewrite end_heap.
  split_and!.
  - exact He.
  - intros o Eo. rewrite flip_heap, He, decide_True in Eo by done.
    rewrite <-He in Eo. destruct (heap g6 !! strempty_own g6) as [o'|] eqn:E6; [|done]. injection Eo as <-.
    rewrite <-(HE o' eq_refl). apply gct_set.
  - by apply end_dangling, flip_dangling.
  - intros b Hb Hne. rewrite end_wh, flip_wh by congruence. eapply cle_wh; [done|].
    apply R. by rewrite Hm in Hb.
  - intros S HS HW HR x o Eo Hst Hwo. rewrite flip_heap in Eo. destruct (decide (x = strempty_own g6)) as [->|Hx].
    { destruct (heap g6 !! strempty_own g6) as [o'|] eqn:E6; [|done]. injection Eo as <-.
      specialize (HE o' eq_refl). destruct Hst. rewrite <-HE. apply gct_set. }
    apply (F S).
    + by apply closed_set_frame.
    + intros b. unfold at_. rewrite heap_frame. apply HW.
    + intros b Hb. apply HR. by rewrite Hm.
    + unfold at_. pose proof (c_obj _ _ L6 x) as HO. rewrite Eo in HO.
      inversion HO as [o5 o6 [Hgc _ _ Hsame] E5|]; subst. rewrite <-Hsame; [done|congruence].
Qed.

(** An object that is still white has the white it had. *)
Record still (o o' : GCobj) : Prop := {
  stl_gct : gct o' = gct o;
  stl_seal : uj_obj_is_sealed o' = uj_obj_is_sealed o;
  stl_bits : iswhite o' = true → Z.land (marked o') LJ_GC_WHITES = Z.land (marked o) LJ_GC_WHITES }.

Lemma atomic_obj L g x :
  mark_inv g → x ≠ strempty_own g →
  option_Forall2 still (heap g !! x) (heap (atomic L g) !! x) ∧ currentwhite (atomic L g) = otherwhite g.
Proof.
  intros I Hx. destruct (atomic_parts L g I) as (r & m & g5 & g6 & e & -> & LE & L6 & _).
  assert (strempty_own g6 = strempty_own g) as He.
  { destruct (cle_env _ _ L6) as (-> & _). by rewrite (hle_empty _ _ LE). }
  split.
  - rewrite end_heap, flip_heap, decide_False by congruence. pose proof (h_obj _ _ LE x) as H1. rewrite heap_frame in H1.
    pose proof (c_obj _ _ L6 x) as H2. inversion H1 as [o o5 [Ho Hs1 Hw1 Hb1] E1 E5|E1 E5]; rewrite <-E5 in H2.
    + inversion H2 as [o5' o6 [Hg Hs2 Hw2 _ Hb2]|]; subst. constructor. split; [by rewrite Hg, (olike_gct _ _ _ Ho)|congruence|].
      intros Hw. rewrite Hb2, Hb1; auto.
    + inversion H2. constructor.
  - assert (currentwhite g6 = currentwhite g) as Hc.
    { rewrite (c_env _ _ L6). simpl. pose proof (h_env _ _ LE) as Hv. unfold env_eq in Hv. by rewrite Hv. }
    change (otherwhite g6 = otherwhite g). unfold otherwhite. by rewrite Hc.
Qed.

End Safe.

End GcSafe.

Import Obj GcObj Gc GcSweep GcInv GcMark GcTraverse GcPropagate GcSweepSpec GcAtomic GcClear GcSafe.

Module GcCycle.

Section Cycle.
Context `{OH : ObjHeap}.

(** ** Between two cycles *)

(** Every object is white, but for what is never swept: objects without references and the
    userdata that wait for their finalizers. *)
Record pause_inv (g : gstate) : Prop := {
  pi_typed : gtyped g;
  pi_tags : tags_ok g;
  pi_white a o : heap g !! a = Some o → iswhite o = false → uj_obj_is_sealed o = false →
    a ∈ mmudata g ∨ gct o = GT_STR ∨ gct o = GT_CDATA;
  pi_color a o : heap g !! a = Some o → keeps o = true → iswhite o || never o = true → isblack o = false;
  pi_uv a o : heap g !! a = Some o → uv_open o = true → a ∈ uvhead g;
  pi_ud u : u ∈ mmudata g → is_ud g u;
  pi_empty o : heap g !! strempty_own g = Some o → gct o = GT_STR;
  pi_cw : white_ok g }.

Definition no_gray (g : gstate) : gstate := set_weak [] (set_grayagain [] (set_gray [] g)).

Lemma no_gray_hle g : hle g (no_gray g).
Proof. split; [by destruct g|]. exact (h_obj _ _ (hle_refl g)). Qed.
Lemma no_gray_env g : heap (no_gray g) = heap g ∧ lists (no_gray g) = [] ∧ mmudata (no_gray g) = mmudata g.
Proof. done. Qed.
Lemma no_gray_kids g w a o : kids_w (no_gray g) w a o = kids_w g w a o.
Proof. by destruct o. Qed.

Lemma no_gray_ok g : pause_inv g → gray_ok (no_gray g).
Proof.
  intros I. destruct (no_gray_env g) as (Hh & Hl & _). split.
  - rewrite Hl. constructor.
  - rewrite Hl. intros x []%elem_of_nil.
  - rewrite Hh. intros x o E Hls Hs Hw _. destruct (pi_white _ I x o E Hw Hs) as [Hu|Ht]; [|by destruct o, Ht].
    destruct (pi_ud _ I x Hu) as (o' & E' & _ & Ht). assert (o' = o) as -> by congruence. by destruct o, Ht.
  - rewrite Hh. apply I.
Qed.

Lemma no_gray_closed g : pause_inv g → closed (no_gray g) (λ a, a ∈ mmudata g).
Proof.
  intros I a o E Hw Hs _ Hx. destruct (no_gray_env g) as (Hh & _ & _). rewrite Hh in E.
  destruct (pi_white _ I a o E Hw Hs) as [?|Ht]; [done|].
  apply settled_unlisted; [by destruct o, Ht|]. intros b. rewrite no_gray_kids.
  assert (kids_w g 0 a o = []) as -> by (by destruct o, Ht). intros []%elem_of_nil.
Qed.

Definition start_roots (g : gstate) : list Z :=
  [mainthref g] ++ [thread_env g (mainthref g)] ++ tvaddr (registrytv g) ++ nonzero (gcroot g).

Definition start_marks (g : gstate) : gstate :=
  let g := no_gray g in
  let g := gc_markobj (mainthref g) g in
  let g := gc_markobj (thread_env g (mainthref g)) g in
  let g := gc_marktv (registrytv g) g in
  gc_mark_gcroot g.

Lemma mark_start_eq g : gc_mark_start g = set_state GCSpropagate (start_marks g).
Proof. reflexivity. Qed.

Lemma env_start g g' : env_eq g g' → mainthref g' = mainthref g ∧ registrytv g' = registrytv g ∧ gcroot g' = gcroot g ∧
  uvhead g' = uvhead g ∧ mmudata g' = mmudata g ∧ strempty_own g' = strempty_own g ∧ currentwhite g' = currentwhite g.
Proof. unfold env_eq. by intros ->. Qed.

Lemma thread_env_like g g' a : hle g g' → thread_env g' a = thread_env g a.
Proof.
  intros L. unfold thread_env. pose proof (h_obj _ _ L a) as H. inversion H as [o o' [Ho _ _]|]; [|done].
  destruct o, o'; try done. by destruct Ho as (_ & _ & _ & -> & _).
Qed.

Lemma start_marks_ok g : gtyped g → mark_ok (no_gray g) (start_marks g) (start_roots g).
Proof.
  intros T. unfold start_marks. pose proof (no_gray_hle g) as L0. set (g0 := no_gray g) in *. clearbody g0.
  pose proof (gtyped_mono _ _ L0 T) as T0. destruct (env_start _ _ (h_env _ _ L0)) as (-> & _).
  pose proof (markobj_spec (mainthref g) g0 T0) as M1. set (g1 := gc_markobj (mainthref g) g0) in *. clearbody g1.
  pose proof (mark_ok_typed _ _ _ M1 T0) as T1. pose proof (ml_hle _ _ (mk_mle _ _ _ M1)) as L1.
  assert (hle g g1) as L01 by by transitivity g0.
  destruct (env_start _ _ (h_env _ _ L01)) as (-> & Hv & Hr & _). rewrite (thread_env_like g g1) by done.
  pose proof (markobj_spec (thread_env g (mainthref g)) g1 T1) as M2. set (g2 := gc_markobj _ g1) in *. clearbody g2.
  pose proof (mark_ok_typed _ _ _ M2 T1) as T2. pose proof (ml_hle _ _ (mk_mle _ _ _ M2)) as L2.
  rewrite marktv_marks. destruct (env_start _ _ (h_env _ _ L2)) as (_ & -> & _). rewrite Hv. pose proof (marks_spec (tvaddr (registrytv g)) g2 T2) as M3. set (g3 := gc_marks _ g2) in *. clearbody g3.
  pose proof (mark_ok_typed _ _ _ M3 T2) as T3. pose proof (ml_hle _ _ (mk_mle _ _ _ M3)) as L3.
  pose proof (mark_gcroot_spec g3 T3) as M4.
  destruct (env_start _ _ (h_env _ _ L2)) as (_ & _ & Hr2 & _), (env_start _ _ (h_env _ _ L3)) as (_ & _ & Hr3 & _).
  rewrite Hr3, Hr2, Hr in M4. unfold start_roots. repeat (eapply mark_ok_app; [done|]). done.
Qed.

Lemma uv_sub g g' : hle g g' → (∀ a o, heap g !! a = Some o → uv_open o = true → a ∈ uvhead g) →
  ∀ a o, heap g' !! a = Some o → uv_open o = true → a ∈ uvhead g'.
Proof.
  intros L HU a o' E' Ho. destruct (hle_Some_r _ _ _ _ L E') as (o & E & [Hl _ _]). rewrite (olike_open _ _ _ Hl) in Ho.
  destruct (env_start _ _ (h_env _ _ L)) as (_ & _ & _ & -> & _). by eapply HU.
Qed.

Lemma empty_sub g g' : hle g g' → (∀ o, heap g !! strempty_own g = Some o → gct o = GT_STR) →
  ∀ o, heap g' !! strempty_own g' = Some o → gct o = GT_STR.
Proof.
  intros L HE o'. destruct (env_start _ _ (h_env _ _ L)) as (_ & _ & _ & _ & _ & -> & _). intros E'.
  destruct (hle_Some_r _ _ _ _ L E') as (o & E & [Hl _ _]). rewrite (olike_gct _ _ _ Hl). by apply HE.
Qed.

(** ** Marking keeps the invariant *)

Lemma pending_sub g g' a : hle g g' → grayagain g ⊆ grayagain g' → weak g ⊆ weak g' → pending g a → pending g' a.
Proof.
  intros L HA HW [?|[?|[?|Hu]]]; [left; by apply HA|right; left; by apply HW|right; right; left|right; right; right].
  - by destruct (env_start _ _ (h_env _ _ L)) as (_ & _ & _ & _ & -> & _).
  - unfold at_ in *. destruct (heap g !! a) as [o|] eqn:E; [|done].
    destruct (hle_Some _ _ _ _ L E) as (o' & -> & [Ho _ _]). by rewrite (olike_open _ _ _ Ho).
Qed.

Lemma mark_base_progress g g' l : mark_base g → progress g g' l → mark_base g'.
Proof.
  intros [T TG G HSat HU HD HE HR HC] P. pose proof (pg_hle _ _ _ P) as L.
  destruct (env_start _ _ (h_env _ _ L)) as (Em & Er & _ & _ & Eu & _ & Ec). split.
  - by eapply gtyped_mono.
  - by eapply tags_mono.
  - by apply P.
  - intros a o' E' Hs' Ht'. destruct (hle_Some_r _ _ _ _ L E') as (o & E & [Ho Hse _]).
    rewrite Hse in Hs'. rewrite (olike_sat _ _ _ Ho) in Ht'. rewrite Eu. destruct (HSat a o E Hs' Ht') as [Hw|?]; [left|by right].
    by apply (pg_sat _ _ _ P a o o').
  - by eapply uv_sub.
  - rewrite Eu. intros u Hu. eapply is_ud_mono; [done|auto].
  - by eapply empty_sub.
  - rewrite Em, Er. intros b Hb. eapply wh_mono; [done|auto].
  - unfold white_ok. by rewrite Ec.
Qed.

Lemma progress_pending g g' l a : progress g g' l → pending g a → pending g' a.
Proof. intros P. apply pending_sub; apply P. Qed.

Lemma mark_inv_progress g g' l : mark_inv g → progress g g' l → mark_inv g'.
Proof.
  intros [B C] P. split; [by eapply mark_base_progress|].
  eapply closed_sub; [|by apply P]. intros a. by eapply progress_pending.
Qed.

Lemma set_state_inv s g : mark_inv g → mark_inv (set_state s g).
Proof.
  intros [[T TG G HSat HU HD HE HR HC] C]. split; [|exact C].
  split; [by apply (gtyped_ext g)|done|by apply (gray_ok_lists g)|done..].
Qed.

Lemma mark_start_inv g : pause_inv g → mark_inv (gc_mark_start g).
Proof.
  intros I. rewrite mark_start_eq. apply set_state_inv. pose proof (start_marks_ok g (pi_typed _ I)) as M.
  pose proof (no_gray_hle g) as L0. pose proof (no_gray_ok g I) as G0. pose proof (no_gray_closed g I) as C0.
  pose proof (proj1 (no_gray_env g)) as H0. set (g0 := no_gray g) in *. clearbody g0.
  set (g1 := start_marks g) in *. clearbody g1.
  pose proof (ml_hle _ _ (mk_mle _ _ _ M)) as L1. assert (hle g g1) as L by by transitivity g0.
  destruct (env_start _ _ (h_env _ _ L)) as (Em & Er & _ & _ & Eu & _ & Ec). destruct I as [T TG W CO HU HD HE HC]. split.
  2:{ eapply closed_sub; [|by apply M, C0]. intros a Ha. right; right; left. by rewrite Eu. }
  split.
  - by eapply gtyped_mono.
  - by eapply tags_mono.
  - by eapply mle_gray_ok; [apply M|].
  - intros a o' E' Hs' Ht'. destruct (hle_Some_r _ _ _ _ L1 E') as (o & E & [Ho Hse _]).
    rewrite Hse in Hs'. rewrite (olike_sat _ _ _ Ho) in Ht'. rewrite Eu, H0 in *. destruct (iswhite o) eqn:Hwo.
    + left. apply (mk_sat _ _ _ M a o o'); [by rewrite H0|done|done|]. unfold wb. by rewrite Hwo.
    + right. destruct (W a o E Hwo Hs') as [?|Ht]; [done|]. by destruct o, Ht.
  - by eapply (uv_sub g).
  - rewrite Eu. intros u Hu. eapply is_ud_mono; [done|auto].
  - by eapply (empty_sub g).
  - rewrite Em, Er. intros b Hb. apply M. unfold start_roots. set_solver.
  - unfold white_ok. by rewrite Ec.
Qed.

End Cycle.

End GcCycle.
