(* ===== verification/GcMutator.v ===== *)
(** * The mutator while the collector marks

    Stores with their barriers keep the invariant of marking. *)

From stdpp Require Import base decidable list numbers option sets gmap relations.
From Stdlib Require Import ZArith Lia.
From S2P Require Import Prelude Obj Tab Bc Ir GcObj Gc GcSweep GcApi GcInv GcMark GcTraverse GcPropagate.
From S2P Require Import GcSweepSpec GcAtomic GcSafe.

Local Open Scope Z_scope.
Import Obj GcObj Gc GcSweep GcApi GcInv GcMark GcTraverse GcPropagate GcSweepSpec GcAtomic GcClear GcSafe GcCycle.

Module GcMutator.

Section Mutator.
Context `{OH : ObjHeap}.

(** ** Another object of the same kind, with the same marks *)

Record same (o o' : GCobj) : Prop := {
  sm_gct : gct o' = gct o;
  sm_marked : marked o' = marked o;
  sm_open : uv_open o' = uv_open o;
  sm_sat : sat o' = sat o }.

Lemma same_refl o : same o o.
Proof. done. Qed.

Lemma same_facts o o' : same o o' →
  iswhite o' = iswhite o ∧ isblack o' = isblack o ∧ uj_obj_is_sealed o' = uj_obj_is_sealed o ∧
  listed o' = listed o ∧ keeps o' = keeps o ∧ never o' = never o ∧ wb o' = wb o.
Proof.
  intros [Hg Hm Ho Hs]. unfold wb, never, keeps, iswhite, isblack. rewrite Hm, Ho.
  destruct o, o'; simpl in Hg; try done; split_and!; try done; simpl in *; by rewrite Hm.
Qed.

(** The two heaps are alike but for the contents of objects. *)
Record alike (g g' : gstate) : Prop := {
  al_env : g' = set_heap (heap g') g;
  al_obj x : option_Forall2 same (heap g !! x) (heap g' !! x) }.

Lemma alike_l g g' x o : alike g g' → heap g !! x = Some o → ∃ o', heap g' !! x = Some o' ∧ same o o'.
Proof. intros [_ H] E. specialize (H x). rewrite E in H. inversion H; subst. eauto. Qed.
Lemma alike_r g g' x o' : alike g g' → heap g' !! x = Some o' → ∃ o, heap g !! x = Some o ∧ same o o'.
Proof. intros [_ H] E. specialize (H x). rewrite E in H. inversion H; subst. eauto. Qed.

Lemma alike_at g g' (P : GCobj → bool) x : alike g g' → (∀ o o', same o o' → P o' = P o) → at_ P g' x = at_ P g x.
Proof.
  intros [_ H] HP. unfold at_. specialize (H x). inversion H; subst; [by apply HP|done].
Qed.
Lemma alike_wh g g' b : alike g g' → wh g' b = wh g b.
Proof.
  intros A. apply (alike_at g g'); [done|]. intros o o' S. destruct (same_facts o o' S) as (-> & _ & -> & _). done.
Qed.
Lemma alike_white g g' b : alike g g' → at_ iswhite g' b = at_ iswhite g b.
Proof. intros A. apply (alike_at g g'); [done|]. intros o o' S. by destruct (same_facts o o' S) as (-> & _). Qed.
Lemma alike_black g g' b : alike g g' → at_ isblack g' b = at_ isblack g b.
Proof. intros A. apply (alike_at g g'); [done|]. intros o o' S. by destruct (same_facts o o' S) as (_ & -> & _). Qed.

Lemma alike_fields g g' : alike g g' → lists g' = lists g ∧ gray g' = gray g ∧ grayagain g' = grayagain g ∧ weak g' = weak g ∧
  mmudata g' = mmudata g ∧ finalizer g' = finalizer g ∧ state g' = state g.
Proof. intros [-> _]. done. Qed.
Lemma alike_roots g g' : alike g g' → uvhead g' = uvhead g ∧ mainthref g' = mainthref g ∧ registrytv g' = registrytv g ∧
  strempty_own g' = strempty_own g ∧ currentwhite g' = currentwhite g ∧ trace g' = trace g.
Proof. intros [-> _]. done. Qed.

Lemma alike_pending g g' x : alike g g' → pending g' x ↔ pending g x.
Proof.
  intros A. unfold pending. destruct (alike_fields _ _ A) as (_ & _ & -> & -> & -> & _).
  rewrite (alike_at g g'); [done|done|]. intros o o' S. apply S.
Qed.

Definition typed (g : gstate) : Prop := gtyped g ∧ tags_ok g.

Lemma alike_base g g' : alike g g' → typed g' → mark_base g → mark_base g'.
Proof.
  intros A [T TG] [_ _ [D G GA W] HSat HU HD HE HR HC].
  destruct (alike_fields _ _ A) as (Hl & _ & _ & _ & Hm & _). destruct (alike_roots _ _ A) as (Huv & Hmt & Hrt & Hse & Hcw & _).
  split; [done|done|split|..].
  - by rewrite Hl.
  - rewrite Hl. intros x (o & E & ? & ? & ?)%G. destruct (alike_l _ _ _ _ A E) as (o' & E' & S).
    exists o'. destruct (same_facts _ _ S) as (-> & -> & _ & -> & _). done.
  - intros x o' E'. rewrite Hl. destruct (alike_r _ _ _ _ A E') as (o & E & S).
    destruct (same_facts _ _ S) as (-> & -> & -> & -> & _). by apply GA.
  - intros x o' E'. destruct (alike_r _ _ _ _ A E') as (o & E & S).
    destruct (same_facts _ _ S) as (-> & -> & _ & _ & -> & -> & _). by apply (W x).
  - intros x o' E'. rewrite Hm. destruct (alike_r _ _ _ _ A E') as (o & E & S).
    destruct (same_facts _ _ S) as (_ & _ & -> & _ & _ & _ & ->). rewrite (sm_sat _ _ S). by apply HSat.
  - intros x o' E'. rewrite Huv. destruct (alike_r _ _ _ _ A E') as (o & E & S). rewrite (sm_open _ _ S). by apply (HU x).
  - rewrite Hm. intros u (o & E & ? & ?)%HD. destruct (alike_l _ _ _ _ A E) as (o' & E' & S).
    exists o'. destruct (same_facts _ _ S) as (_ & _ & -> & _). by rewrite (sm_gct _ _ S).
  - rewrite Hse. intros o' E'. destruct (alike_r _ _ _ _ A E') as (o & E & S). rewrite (sm_gct _ _ S). by apply HE.
  - rewrite Hmt, Hrt. intros b Hb. rewrite (alike_wh _ _ _ A). by apply HR.
  - unfold white_ok. by rewrite Hcw.
Qed.

(** ** One store *)

Definition put (a : Z) (o' : GCobj) (g : gstate) : gstate := upd a (λ _, o') g.

Lemma put_heap a o' g x : heap (put a o' g) !! x = if decide (x = a) then (λ _, o') <$> heap g !! a else heap g !! x.
Proof. apply heap_upd. Qed.

Lemma put_eq a f g o : heap g !! a = Some o → upd a f g = put a (f o) g.
Proof.
  intros E. unfold put, upd. f_equal. apply map_eq. intros x.
  destruct (decide (x = a)) as [->|]; [by rewrite !lookup_alter_eq, E|by rewrite !lookup_alter_ne].
Qed.

Lemma put_alike a o o' g : heap g !! a = Some o → same o o' → alike g (put a o' g).
Proof.
  intros E S. split; [by destruct g|]. intros x. rewrite put_heap. destruct (decide (x = a)) as [->|].
  - rewrite E. by constructor.
  - by destruct (heap g !! x); constructor.
Qed.

(** Open upvalues are pending, so the references of the others stay. *)
Lemma put_closed a o o' g :
  heap g !! a = Some o → same o o' → closed g (pending g) →
  closed (put a o' g) (λ x, pending (put a o' g) x ∨ x = a).
Proof.
  intros E S C x ox Ex Hw Hs Hg Hx. pose proof (put_alike a o o' g E S) as A.
  destruct (alike_fields _ _ A) as (_ & Hgr & _ & Hwk & _ & Hf & _).
  assert (x ≠ a) as Hxa by tauto. assert (¬ pending g x) as Hp by (rewrite <-(alike_pending g _ x A); tauto).
  rewrite put_heap, decide_False in Ex by done. rewrite Hgr in Hg.
  destruct (C x ox Ex Hw Hs Hg Hp) as (w & Hm & Hk). exists w. split.
  - unfold mode_ok in *. by rewrite Hf, Hwk.
  - intros b Hb. rewrite (alike_wh _ _ _ A). apply Hk. destruct ox; try done. destruct uv as [th i|]; [|done].
    destruct Hp. right; right; right. unfold at_. by rewrite Ex.
Qed.

(** A store adds the references [l]. *)
Definition adds (g g' : gstate) (a : Z) (o o' : GCobj) (l : list Z) : Prop :=
  ∀ w b, b ∈ kids_w g' w a o' → b ∈ kids_w g w a o ∨ b ∈ l.

(** After the store and before its barrier. *)
Record stored (a : Z) (o o' : GCobj) (l : list Z) (g g' : gstate) : Prop := {
  so_at : heap g !! a = Some o;
  so_same : same o o';
  so_put : g' = put a o' g;
  so_typed : typed g';
  so_adds : adds g g' a o o' l }.

Lemma stored_settled a o o' l g g' :
  stored a o o' l g g' → closed g (pending g) →
  iswhite o' = false → uj_obj_is_sealed o' = false → a ∉ gray g' → ¬ pending g' a →
  ∀ g2, hle g' g2 → weak g' ⊆ weak g2 → wbit g' g2 a → (∀ b, b ∈ l → wh g2 b = false) →
  ∀ o2, heap g2 !! a = Some o2 → settled g2 a o2.
Proof.
  intros [E S -> T Ad] C Hw Hs Hg Hp g2 L HW HB Hl o2 E2. pose proof (put_alike a o o' g E S) as A.
  destruct (same_facts _ _ S) as (Hsw & _ & Hss & _). destruct (alike_fields _ _ A) as (_ & Hgr & _ & Hwk & _ & Hf & _).
  rewrite Hsw in Hw. rewrite Hss in Hs. rewrite Hgr in Hg. rewrite (alike_pending g _ a A) in Hp.
  destruct (C a o E Hw Hs Hg Hp) as (w & Hm & Hk).
  assert (heap (put a o' g) !! a = Some o') as E' by (by rewrite put_heap, decide_True, E).
  destruct (hle_Some _ _ _ _ L E') as (o3 & E3 & [Ho _ _]). assert (o3 = o2) as -> by congruence.
  exists w. split.
  - assert (gct o2 = gct o) as Hg2 by (rewrite (olike_gct _ _ _ Ho); apply S). unfold mode_ok in *.
    destruct o, o2; try done. destruct o'; try done. rewrite (env_fin _ _ (h_env _ _ L)), Hf.
    destruct Hm as [?|[?|[Hwe Hv]]]; [by left|by right; left|right; right].
    split; [apply HW; by rewrite Hwk|]. intros HV. eapply HB; [done..|]. destruct S as [_ Hmk _ _]. simpl in Hmk. rewrite Hmk. auto.
  - intros b Hb. apply (kids_w_sub _ _ w a o' o2 L Ho) in Hb. destruct (Ad w b Hb) as [?|?]; [|by apply Hl].
    eapply wh_mono; [done|]. rewrite (alike_wh _ _ _ A). by apply Hk.
Qed.

(** An object that is not black: white, on a list, or without references of its own. *)
Lemma stored_notblack a o o' l g g' :
  stored a o o' l g g' → mark_inv g → isblack o = false → listed o = true ∨ sat o = true → mark_inv g'.
Proof.
  intros ST [B C] Hb Hk. pose proof ST as [E S -> T Ad]. pose proof (put_alike a o o' g E S) as A. split; [by eapply alike_base|].
  pose proof (put_closed a o o' g E S C) as C'. intros x ox Ex Hw Hs Hg Hx.
  destruct (decide (x = a)) as [->|]; [|apply C'; try done; by intros [?|?]].
  rewrite put_heap, decide_True, E in Ex by done. injection Ex as <-. destruct (same_facts _ _ S) as (Hsw & _ & Hss & _).
  rewrite Hsw in Hw. rewrite Hss in Hs. exfalso. rewrite (alike_pending g _ a A) in Hx.
  destruct (alike_fields _ _ A) as (_ & Hgr & _). rewrite Hgr in Hg. destruct Hk as [Hl|Hsat].
  - pose proof (go_all _ (mi_gray _ B) a o E Hl Hs Hw Hb) as Hin. unfold lists in Hin. unfold pending in Hx.
    rewrite !elem_of_app in Hin. tauto.
  - destruct (mi_sat _ B a o E Hs Hsat) as [Hwb|?]; [|unfold pending in Hx; tauto]. unfold wb in Hwb. by rewrite Hw, Hb in Hwb.
Qed.

(** What is stored is not white. *)
Lemma stored_notwhite a o o' l g g' :
  stored a o o' l g g' → mark_inv g → (∀ b, b ∈ l → wh g' b = false) → mark_inv g'.
Proof.
  intros ST [B C] Hl. pose proof ST as [E S -> T Ad]. pose proof (put_alike a o o' g E S) as A. split; [by eapply alike_base|].
  pose proof (put_closed a o o' g E S C) as C'. intros x ox Ex Hw Hs Hg Hx.
  destruct (decide (x = a)) as [->|]; [|apply C'; try done; by intros [?|?]].
  assert (ox = o') as ->. { rewrite put_heap, decide_True, E in Ex by done. by injection Ex. }
  eapply (stored_settled a o o' l g); try done. by intros t t' H1 H2; assert (t = t') as -> by congruence.
Qed.

(** The barriers. *)
Lemma stored_forward a o o' v g g' :
  stored a o o' [v] g g' → mark_inv g → at_ iswhite g' v = true → mark_inv (gc_mark v g').
Proof.
  intros ST [B C] Hv. pose proof ST as [E S Hp T Ad]. pose proof (put_alike a o o' g E S) as A. rewrite <-Hp in A.
  assert (mark_ok g' (gc_mark v g') [v]) as M by (apply mark_n_spec; [apply T|done]).
  pose proof (ml_hle _ _ (mk_mle _ _ _ M)) as L. destruct (ml_lists _ _ (mk_mle _ _ _ M)) as (Hga & Hwk & _).
  pose proof (put_closed a o o' g E S C) as C'. rewrite <-Hp in C'.
  pose proof (mark_base_progress _ _ _ (alike_base _ _ A T B) (mark_ok_progress _ _ _ M)) as B'.
  assert (∀ x, pending g' x → pending (gc_mark v g') x) as Hps.
  { intros x. by eapply progress_pending, mark_ok_progress. }
  split; [done|]. destruct (iswhite o') eqn:Hwo.
  { eapply closed_sub; [done|]. apply M. apply (closed_less _ _ (λ x, x = a)); [done|]. intros x ox Ex Hw ->.
    rewrite Hp, put_heap, decide_True, E in Ex by done. injection Ex as <-. congruence. }
  apply (mk_closed _ _ _ M) in C'. intros x ox Ex Hw Hs Hg Hx.
  destruct (decide (x = a)) as [->|]; [|apply C'; try done; by intros [?|?]; [apply Hx, Hps|]].
  assert (heap g' !! a = Some o') as E' by (rewrite Hp, put_heap, decide_True, E; done).
  destruct (hle_Some _ _ _ _ L E') as (o3 & E3 & [Ho3 Hs3 Hw3]). assert (o3 = ox) as -> by congruence.
  destruct (ml_gray _ _ (mk_mle _ _ _ M)) as (new & HG & HN).
  eapply (stored_settled a o o' [v] g g'); try done.
  - by rewrite <-Hs3.
  - rewrite HG in Hg. set_solver.
  - by intros ?%Hps.
  - by rewrite Hwk.
  - apply M.
  - apply M.
Qed.

Lemma back_heap a g x :
  heap (lj_gc_barrierback a g) !! x = if decide (x = a) then black2gray <$> heap g !! a else heap g !! x.
Proof. apply heap_upd. Qed.
Lemma back_lists a g : lists (lj_gc_barrierback a g) = gray g ++ (a :: grayagain g) ++ weak g.
Proof. done. Qed.
Lemma back_hle a g : hle g (lj_gc_barrierback a g).
Proof.
  pose proof (hle_upd a black2gray g (λ o _, orel_b2g g o)) as [He Hh]. split; [|exact Hh].
  revert He. unfold env_eq. by destruct g.
Qed.

Lemma back_gray_ok a t g : heap g !! a = Some (OTab t) → isblack (OTab t) = true → gray_ok g → gray_ok (lj_gc_barrierback a g).
Proof.
  intros E Hb [D G A W].
  assert (iswhite (OTab t) = false) as Hw.
  { destruct (iswhite (OTab t)) eqn:Hw; [|done]. rewrite (W a (OTab t)) in Hb; try done. by rewrite Hw. }
  assert (a ∉ lists g) as Ha.
  { intros (o & Eo & _ & _ & Hnb)%G. assert (o = OTab t) as -> by congruence. congruence. }
  assert (lists (lj_gc_barrierback a g) ≡ₚ a :: lists g) as HP.
  { rewrite back_lists. unfold lists. solve_Permutation. }
  assert (heap (lj_gc_barrierback a g) !! a = Some (black2gray (OTab t))) as E' by (by rewrite back_heap, decide_True, E).
  assert (∀ x, x ≠ a → heap (lj_gc_barrierback a g) !! x = heap g !! x) as Hx.
  { intros x Hx. by rewrite back_heap, decide_False. }
  split.
  - rewrite HP. by apply NoDup_cons.
  - intros x. rewrite HP. intros [->|Hin]%elem_of_cons.
    + exists (black2gray (OTab t)). split_and!; [done|done|by rewrite white_b2g|apply black_b2g].
    + destruct (G x Hin) as (o & Eo & ?). exists o. rewrite Hx; [done|]. intros ->. done.
  - intros x o Eo. rewrite HP, elem_of_cons. destruct (decide (x = a)) as [->|Hxa]; [by left|right].
    rewrite Hx in Eo by done. by apply (A x o).
  - intros x o Eo. destruct (decide (x = a)) as [->|Hxa].
    + assert (o = black2gray (OTab t)) as -> by congruence. intros _ _. apply black_b2g.
    + rewrite Hx in Eo by done. by apply (W x).
Qed.

Lemma back_inv a t g :
  mark_base g → closed g (λ x, pending g x ∨ x = a) → heap g !! a = Some (OTab t) → isblack (OTab t) = true →
  mark_inv (lj_gc_barrierback a g).
Proof.
  intros [T TG G HSat HU HD HE HR HC] C E Hb. pose proof (back_hle a g) as L.
  pose proof (back_gray_ok a t g E Hb G) as G'. pose proof (back_heap a g) as Hh.
  assert (grayagain (lj_gc_barrierback a g) = a :: grayagain g ∧ weak (lj_gc_barrierback a g) = weak g ∧
    gray (lj_gc_barrierback a g) = gray g) as (Ha & Hwk & Hgr) by done.
  destruct (env_start _ _ (h_env _ _ L)) as (Em & Er & _ & _ & Eu & _ & Ec).
  set (g' := lj_gc_barrierback a g) in *. clearbody g'. split; [split|].
  - by eapply gtyped_mono.
  - by eapply tags_mono.
  - done.
  - intros x o Ex. rewrite Hh in Ex. rewrite Eu. destruct (decide (x = a)) as [->|]; [|by apply HSat].
    rewrite E in Ex. by injection Ex as <-.
  - by eapply uv_sub.
  - rewrite Eu. intros u Hu. eapply is_ud_mono; [done|auto].
  - by eapply empty_sub.
  - rewrite Em, Er. intros b Hb'. eapply wh_mono; [done|auto].
  - unfold white_ok. by rewrite Ec.
  - eapply (closed_step g); [done|done|by rewrite Hwk|]. intros x o o' Ex Ex' Hw Hs Hg Hx.
    assert (x ≠ a) as Hxa. { intros ->. apply Hx. left. rewrite Ha. by left. }
    rewrite Hh, decide_False in Ex' by done. left. assert (o' = o) as -> by congruence. rewrite Hgr in Hg. split_and!; [done|done| |].
    + intros [Hp|?]; [|done]. apply Hx. eapply pending_sub; [done|rewrite Ha; set_solver|by rewrite Hwk|done].
    + intros t1 t2 E1 E2. rewrite Hh, decide_False in E2 by done. congruence.
Qed.

(** ** Stores into tables *)

Lemma stored_closed a o o' l g g' : stored a o o' l g g' → mark_inv g →
  mark_base g' ∧ closed g' (λ x, pending g' x ∨ x = a) ∧ heap g' !! a = Some o' ∧ isblack o' = isblack o ∧ state g' = state g.
Proof.
  intros [E S -> T Ad] [B C]. pose proof (put_alike a o o' g E S) as A. split_and!.
  - by eapply alike_base.
  - by eapply put_closed.
  - by rewrite put_heap, decide_True, E.
  - by apply same_facts.
  - done.
Qed.

Lemma anybarriert_inv a t t' l g g' :
  stored a (OTab t) (OTab t') l g g' → mark_inv g → mark_inv (lj_gc_anybarriert a g').
Proof.
  intros ST I. destruct (stored_closed _ _ _ _ _ _ ST I) as (B & C & E' & Hb & _). unfold lj_gc_anybarriert, at_. rewrite E'.
  destruct (isblack (OTab t')) eqn:Hbb; [by eapply back_inv|]. eapply stored_notblack; [done..| |by left]. congruence.
Qed.

Lemma objbarriert_inv a t t' v g g' :
  stored a (OTab t) (OTab t') [v] g g' → mark_inv g → mark_inv (lj_gc_objbarriert a v g').
Proof.
  intros ST I. destruct (stored_closed _ _ _ _ _ _ ST I) as (B & C & E' & Hb & _). unfold lj_gc_objbarriert.
  destruct (at_ iswhite g' v) eqn:Hv.
  - unfold at_. rewrite E'. destruct (isblack (OTab t')) eqn:Hbb; [by eapply back_inv|].
    eapply stored_notblack; [done..| |by left]. congruence.
  - eapply stored_notwhite; [done..|]. intros b ->%list_elem_of_singleton. by apply not_white_wh.
Qed.

Lemma barriert_inv a t t' tv g g' :
  stored a (OTab t) (OTab t') (tvaddr tv) g g' → mark_inv g → mark_inv (lj_gc_barriert a tv g').
Proof.
  intros ST I. destruct tv as [| | |gt v|]; try (eapply stored_notwhite; [done..|]; by intros x []%elem_of_nil).
  by eapply (objbarriert_inv a t t' v g).
Qed.

(** ** Stores with a forward barrier *)

Lemma objbarrier_inv a o o' v g g' :
  stored a o o' [v] g g' → mark_inv g → marking g = true → listed o = true ∨ sat o = true →
  mark_inv (lj_gc_objbarrier a v g').
Proof.
  intros ST I Hst Hk. destruct (stored_closed _ _ _ _ _ _ ST I) as (B & C & E' & Hb & Hs).
  unfold lj_gc_objbarrier, lj_gc_barrierf. destruct (at_ iswhite g' v) eqn:Hv.
  - unfold at_. rewrite E'. assert (marking g' = true) as -> by (unfold marking in *; by rewrite Hs).
    destruct (isblack o') eqn:Hbb; [by eapply stored_forward|]. eapply stored_notblack; [done..| |done]. congruence.
  - eapply stored_notwhite; [done..|]. intros b ->%list_elem_of_singleton. by apply not_white_wh.
Qed.

Lemma barrier_inv a o o' tv g g' :
  stored a o o' (tvaddr tv) g g' → mark_inv g → marking g = true → listed o = true ∨ sat o = true →
  mark_inv (lj_gc_barrier a tv g').
Proof.
  intros ST I Hst Hk. destruct tv as [| | |gt v|]; try (eapply stored_notwhite; [done..|]; by intros x []%elem_of_nil).
  by eapply (objbarrier_inv a o o' v g).
Qed.

(** ** The setters *)

Lemma stored_intro a o f l g :
  heap g !! a = Some o → same o (f o) → typed (upd a f g) → adds g (upd a f g) a o (f o) l →
  stored a o (f o) l g (upd a f g).
Proof. intros E S T Ad. split; try done. by apply put_eq. Qed.

Lemma upd_same a f g : (∀ o, heap g !! a = Some o → f o = o) → upd a f g = g.
Proof.
  intros Hf. unfold upd. assert (alter f a (heap g) = heap g) as ->; [|by destruct g]. apply map_eq. intros x.
  destruct (decide (x = a)) as [->|]; [|by rewrite lookup_alter_ne]. rewrite lookup_alter_eq.
  destruct (heap g !! a) as [o|]; [|done]. simpl. by rewrite Hf.
Qed.

Lemma setmetatable_inv a mt g g' :
  mark_inv g → marking g = true → typed (upd a (set_metatable mt) g) → lua_setmetatable a mt g = Some g' → mark_inv g'.
Proof.
  intros I Hst T. unfold lua_setmetatable. destruct (heap g !! a) as [o|] eqn:E; [|by intros [= <-]].
  assert (same o (set_metatable mt o)) as S by by destruct o.
  destruct o as [| | | | | | |t|m ud]; try (by intros [= <-]).
  - destruct (uj_obj_is_immutable _); [done|]. intros [= <-].
    assert (stored a (OTab t) (set_metatable mt (OTab t)) (option_list mt) g (upd a (set_metatable mt) g)) as ST.
    { apply stored_intro; [done..|]. intros w b. simpl. unfold tab_kids. simpl. rewrite !elem_of_app. tauto. }
    destruct mt as [m|]; [by eapply objbarriert_inv|]. eapply stored_notwhite; [done..|]. by intros b []%elem_of_nil.
  - intros [= <-].
    assert (stored a (OUdata m ud) (set_metatable mt (OUdata m ud)) (option_list mt) g (upd a (set_metatable mt) g)) as ST.
    { apply stored_intro; [done..|]. intros w b. simpl. rewrite !elem_of_app. tauto. }
    destruct mt as [mt|]; [by apply (objbarrier_inv a _ _ mt g _ ST); [..|right]|]. eapply stored_notwhite; [done..|]. by intros b []%elem_of_nil.
Qed.

Lemma stack_kids_stack n th L L' f tp : stack L' = stack L → stack_kids n th L' f tp = stack_kids n th L f tp.
Proof.
  intros Hs. revert f tp. induction n as [|n IH]; intros f tp; [done|]. cbn [stack_kids]. unfold frame_kids, slots. rewrite Hs.
  f_equal. destruct (f <=? 0); [done|]. destruct (stack L !! Z.to_nat f) as [[]|]; try done.
Qed.

Lemma setfenv_inv a t g :
  mark_inv g → marking g = true → typed (upd a (set_env t) g) → mark_inv (lua_setfenv a t g).1.
Proof.
  intros I Hst T. unfold lua_setfenv. destruct (heap g !! a) as [o|] eqn:E; [|done].
  assert (same o (set_env t o)) as S by (destruct o; try done; by destruct fn).
  assert (listed o = true ∨ sat o = true → adds g (upd a (set_env t) g) a o (set_env t o) [t] →
    mark_inv (lj_gc_objbarrier a t (upd a (set_env t) g))) as HI.
  { intros Hk Ad. apply (objbarrier_inv a o (set_env t o) t g); [|done..]. by apply stored_intro. }
  destruct o as [| |m L| |m fn| | | |m ud]; try done; simpl; apply HI; try (by left); try (by right); intros w b.
  - simpl. unfold thread_kids. rewrite !elem_of_app. intros [Hb|Hb]; [left; left|by right]. by rewrite (stack_kids_stack _ _ L) in Hb.
  - destruct fn; simpl; rewrite !elem_of_cons; set_solver.
  - simpl. rewrite !elem_of_app. tauto.
Qed.

Lemma elem_insert {A} (l : list A) i (x y : A) : y ∈ <[i := x]> l → y = x ∨ y ∈ l.
Proof.
  intros (j & Hj)%list_elem_of_lookup. destruct (decide (i = j)) as [->|].
  - apply list_lookup_insert_Some in Hj as [(_ & -> & _)|[? _]]; [by left|done].
  - rewrite list_lookup_insert_ne in Hj by done. right. by eapply list_elem_of_lookup_2.
Qed.

Lemma upvaluejoin_inv fn1 n1 fn2 n2 g :
  mark_inv g → marking g = true →
  (∀ uv, func_uv g fn2 (Z.to_nat (n2 - 1)) = Some uv → typed (upd fn1 (set_uvptr (Z.to_nat (n1 - 1)) uv) g)) →
  mark_inv (lua_upvaluejoin fn1 n1 fn2 n2 g).
Proof.
  intros I Hst T. unfold lua_upvaluejoin. destruct (func_uv g fn1 _) as [u1|] eqn:E1; [|done].
  destruct (func_uv g fn2 _) as [uv|]; [|done]. unfold func_uv in E1.
  destruct (heap g !! fn1) as [o|] eqn:E; [|done]. destruct o; try done. destruct fn as [env pt uvs|]; [|done].
  apply (objbarrier_inv fn1 (OFunc m (FnL env pt uvs)) (set_uvptr (Z.to_nat (n1 - 1)) uv (OFunc m (FnL env pt uvs))) uv g);
    [|done|done|by left].
  apply stored_intro; [done|done|by apply T|].
  intros w b. simpl. rewrite !elem_of_cons. intros [?|[?|Hb]]; [tauto..|]. apply elem_insert in Hb as [->|?]; [right; by left|tauto].
Qed.

Lemma cupvalue_inv fn i tv m env vs g :
  mark_inv g → marking g = true → heap g !! fn = Some (OFunc m (FnC env vs)) → typed (upd fn (set_upvalue i tv) g) →
  mark_inv (lj_gc_barrier fn tv (upd fn (set_upvalue i tv) g)).
Proof.
  intros I Hst E T. apply (barrier_inv fn (OFunc m (FnC env vs)) (set_upvalue i tv (OFunc m (FnC env vs))) tv g); [|done|done|by left].
  apply stored_intro; [done|done|done|].
  intros w b. simpl. rewrite !elem_of_cons. unfold tvaddrs. rewrite !elem_of_concat.
  intros [?|(x & Hx & Hb)]; [tauto|]. apply elem_insert in Hx as [->|?]; [by right|left; right; eauto].
Qed.

Lemma thread_inv th m L L' g :
  mark_inv g → heap g !! th = Some (OThread m L) → typed (put th (OThread m L') g) → mark_inv (put th (OThread m L') g).
Proof.
  intros I E T. eapply (stored_notblack th (OThread m L) (OThread m L') (thread_kids th L')); [|done| |by left].
  - split; try done. intros w b Hb. by right.
  - apply (go_white _ (mi_gray _ (mi_base _ I)) th); [done|done|apply orb_true_r].
Qed.

Lemma usetv_inv uv tv g :
  mark_inv g → marking g = true → typed (uv_store uv tv g) → mark_inv (bc_usetv uv tv g).
Proof.
  intros I Hst. unfold bc_usetv, uv_store. destruct (heap g !! uv) as [o|] eqn:E; [|intros _; by rewrite E].
  destruct o as [|m u| | | | | | |]; try (intros _; by rewrite E). destruct u as [th i|tv0]; intros T.
  - (* open: the slot of a thread *)
    assert (mark_inv (upd th (set_slot i tv) g)) as I'.
    { assert ((∃ m L, heap g !! th = Some (OThread m L)) ∨ upd th (set_slot i tv) g = g) as [(m' & L & Et)|Eq];
        [|rewrite (put_eq th _ g _ Et) in T |- *|by rewrite Eq].
      { destruct (heap g !! th) as [[]|] eqn:Et; [..|right; apply upd_same; congruence]; try (right; apply upd_same; intros o Eo;
          rewrite Et in Eo; by injection Eo as <-). left. eauto. }
      by eapply thread_inv. }
    destruct (heap (upd th (set_slot i tv) g) !! uv) as [o|] eqn:E'; [|done].
    rewrite heap_upd in E'. destruct (decide (uv = th)) as [->|].
    + rewrite E in E'. by injection E' as <-.
    + rewrite E in E'. by injection E' as <-.
  - (* closed *)
    assert (stored uv (OUpval m (UvClosed tv0)) (OUpval m (UvClosed tv)) (tvaddr tv) g (upd uv (set_uv (UvClosed tv)) g)) as ST.
    { apply (stored_intro uv (OUpval m (UvClosed tv0)) (set_uv (UvClosed tv)) (tvaddr tv) g); [done|done|done|]. intros w b Hb. by right. }
    pose proof (barrier_inv _ _ _ _ _ _ ST I Hst (or_intror eq_refl)) as HI. unfold lj_gc_barrier in HI.
    assert (heap (upd uv (set_uv (UvClosed tv)) g) !! uv = Some (OUpval m (UvClosed tv))) as E'.
    { by rewrite heap_upd, decide_True, E. }
    rewrite E'. unfold lj_gc_barrieruv, lj_gc_barrierf, tviswhite, at_ in *. rewrite E' in HI.
    change (marking (upd uv (set_uv (UvClosed tv)) g)) with (marking g) in *. rewrite Hst in *.
    destruct tv as [| | |gt v|]; try (by rewrite andb_false_r). rewrite andb_comm. exact HI.
Qed.

(** ** New objects *)

Record fresh (g : gstate) (a : Z) : Prop := {
  fr_none : heap g !! a = None;
  fr_refs x o w : heap g !! x = Some o → a ∉ kids_w g w x o;
  fr_roots : a ∉ strempty_own g :: mainthref g :: tvaddr (registrytv g) }.

Definition alloc (a : Z) (o : GCobj) (g : gstate) : gstate := set_heap (<[a := o]> (heap g)) g.

Lemma alloc_heap a o g x : heap (alloc a o g) !! x = if decide (x = a) then Some o else heap g !! x.
Proof. simpl. destruct (decide (x = a)) as [->|]; [apply lookup_insert_eq|by rewrite lookup_insert_ne]. Qed.

Lemma alloc_wh a o g b : b ≠ a → wh (alloc a o g) b = wh g b.
Proof. intros Hb. unfold wh, at_. by rewrite alloc_heap, decide_False. Qed.

Lemma alloc_inv a o g :
  mark_inv g → fresh g a → iswhite o = true → isblack o = false → (uv_open o = true → a ∈ uvhead g) → typed (alloc a o g) →
  mark_inv (alloc a o g).
Proof.
  intros [[T TG [D G GA W] HSat HU HD HE HR HC] C] [F1 F2 F3] Hw Hb Ho [T' TG']. pose proof (alloc_heap a o g) as Hh.
  pose proof (λ b Hb, alloc_wh a o g b Hb) as Hwh.
  assert (lists (alloc a o g) = lists g ∧ gray (alloc a o g) = gray g ∧ mmudata (alloc a o g) = mmudata g ∧
    uvhead (alloc a o g) = uvhead g ∧ strempty_own (alloc a o g) = strempty_own g ∧ mainthref (alloc a o g) = mainthref g ∧
    registrytv (alloc a o g) = registrytv g ∧ currentwhite (alloc a o g) = currentwhite g) as (El & Eg & Em & Eu & Ee & Et & Er & Ec) by done.
  assert (∀ x ox, heap (alloc a o g) !! x = Some ox → x = a ∧ ox = o ∨ x ≠ a ∧ heap g !! x = Some ox) as Hc.
  { intros x ox. rewrite Hh. destruct (decide (x = a)) as [->|]; [intros [= <-]; by left|by right]. }
  assert (∀ x ox, heap g !! x = Some ox → heap (alloc a o g) !! x = Some ox) as Hk.
  { intros x ox E. rewrite Hh, decide_False; [done|]. intros ->. congruence. }
  split; [split; [done|done|split|..]|].
  - by rewrite El.
  - rewrite El. intros x (ox & E & ?)%G. exists ox. split; [by apply Hk|done].
  - rewrite El. intros x ox [[-> ->]|[_ E]]%Hc; [congruence|by apply GA].
  - intros x ox [[-> ->]|[_ E]]%Hc; [done|by apply (W x)].
  - rewrite Em. intros x ox [[-> ->]|[_ E]]%Hc; [|by apply HSat]. intros _ _. left. unfold wb. by rewrite Hw.
  - rewrite Eu. intros x ox [[-> ->]|[_ E]]%Hc; [done|by apply (HU x)].
  - rewrite Em. intros u (ox & E & ?)%HD. exists ox. split; [by apply Hk|done].
  - rewrite Ee. intros ox [[Hx _]|[_ E]]%Hc; [|by apply HE]. destruct F3. rewrite <-Hx. by left.
  - rewrite Et, Er. intros b Hin. rewrite Hwh; [by apply HR|]. intros ->. apply F3. by right.
  - unfold white_ok. by rewrite Ec.
  - intros x ox [[-> ->]|[Hxa E]]%Hc Hwx Hs Hgx Hp; [congruence|]. rewrite Eg in Hgx.
    assert (¬ pending g x) as Hpg.
    { intros [?|[?|[?|Hu]]]; apply Hp; [by left|by right; left|by right; right; left|right; right; right].
      unfold at_ in *. rewrite Hh, decide_False by done. exact Hu. }
    destruct (C x ox E Hwx Hs Hgx Hpg) as (w & Hm & Hki). exists w. split; [by destruct ox|]. intros b Hin.
    assert (kids_w (alloc a o g) w x ox = kids_w g w x ox) as Hkeq.
    { destruct ox; try done. destruct uv as [th i|]; [|done]. destruct Hpg. right; right; right. unfold at_. by rewrite E. }
    rewrite Hkeq in Hin. rewrite Hwh; [by apply Hki|]. intros ->. by apply (F2 x ox w E).
Qed.

Lemma set_root_inv r g : mark_inv g → mark_inv (set_root r g).
Proof.
  intros [[T TG G HSat HU HD HE HR HC] C]. split; [|exact C].
  split; [by apply (gtyped_ext g)|done|by apply (gray_ok_lists g)|done..].
Qed.
Lemma set_total_inv n g : mark_inv g → mark_inv (set_total n g).
Proof.
  intros [[T TG G HSat HU HD HE HR HC] C]. split; [|exact C].
  split; [by apply (gtyped_ext g)|done|by apply (gray_ok_lists g)|done..].
Qed.

Lemma curwhite_bits g : has (curwhite g) LJ_GC_BLACK = false.
Proof. unfold curwhite. rewrite has_land. change (Z.land LJ_GC_WHITES LJ_GC_BLACK) with 0. apply has_0. Qed.

Lemma obj_new_eq a size o g :
  uj_obj_new a size o g = alloc a (set_marked (curwhite g) o) (set_root (a :: root g) (set_total (u64 (total g + size)) g)).
Proof. reflexivity. Qed.

Lemma fresh_ext g g' a :
  fresh g a → heap g' = heap g → (∀ w x o, kids_w g' w x o = kids_w g w x o) →
  strempty_own g' = strempty_own g → mainthref g' = mainthref g → registrytv g' = registrytv g → fresh g' a.
Proof.
  intros [F1 F2 F3] Hh Hk H1 H2 H3. split; [by rewrite Hh| |by rewrite H1, H2, H3].
  intros x o w. rewrite Hh, Hk. apply F2.
Qed.

Lemma obj_new_inv a size o g :
  mark_inv g → fresh g a → uv_open o = false → typed (uj_obj_new a size o g) → mark_inv (uj_obj_new a size o g).
Proof.
  intros I F Ho. rewrite obj_new_eq. intros T. apply alloc_inv; [|..|done].
  - by apply set_root_inv, set_total_inv.
  - eapply (fresh_ext g); [done|done| |done..]. intros w x ox. by destruct ox.
  - unfold iswhite. rewrite marked_set. apply curwhite_white, I.
  - unfold isblack. rewrite marked_set. apply curwhite_bits.
  - destruct o; try done. simpl in *. congruence.
Qed.

(** ** Upvalues of stack slots *)

Lemma set_uvhead_inv l g : uvhead g ⊆ l → mark_inv g → mark_inv (set_uvhead l g).
Proof.
  intros Hl [[T TG G HSat HU HD HE HR HC] C]. split; [|exact C].
  split; [by apply (gtyped_ext g)|done|by apply (gray_ok_lists g)|done| |done..].
  intros x o E Hu. apply Hl. by apply (HU x o).
Qed.

(** A dead upvalue becomes white, so that it is not freed. *)
Lemma flip_inv a g :
  mark_inv g → (∀ o, heap g !! a = Some o → uv_open o = true ∧ isdead g o = true) → typed (upd a flipwhite g) →
  mark_inv (upd a flipwhite g).
Proof.
  intros I Ha [T' TG']. destruct (heap g !! a) as [o|] eqn:E; [|by rewrite upd_same by congruence].
  destruct I as [[T TG [D G GA W] HSat HU HD HE HR HC] C].
  destruct (Ha o eq_refl) as [Ho Hdead]. destruct o as [|m uv| | | | | | |]; try done.
  assert (iswhite (OUpval m uv) = true) as Hw.
  { unfold isdead in Hdead. rewrite has_land in Hdead. unfold iswhite. rewrite Z.land_comm in Hdead.
    unfold has in *. rewrite Z.land_assoc in Hdead. destruct (Z.eqb_spec (Z.land (marked (OUpval m uv)) LJ_GC_WHITES) 0) as [Hz|]; [|done].
    rewrite Hz in Hdead. done. }
  assert (∀ x ox, heap (upd a flipwhite g) !! x = Some ox → x = a ∧ ox = flipwhite (OUpval m uv) ∨ x ≠ a ∧ heap g !! x = Some ox) as Hc.
  { intros x ox. rewrite heap_upd. destruct (decide (x = a)) as [->|]; [rewrite E; intros [= <-]; by left|by right]. }
  assert (∀ x ox, heap g !! x = Some ox → uv_open ox = false → heap (upd a flipwhite g) !! x = Some ox) as Hk.
  { intros x ox Ex Hu. rewrite heap_upd, decide_False; [done|]. intros ->. congruence. }
  assert (∀ b, wh g b = false → wh (upd a flipwhite g) b = false) as Hwh.
  { intros b. unfold wh, at_. rewrite heap_upd. destruct (decide (b = a)) as [->|]; [|done]. rewrite E, Hw. simpl.
    intros Hs. assert (has (Z.lxor m LJ_GC_WHITES) UJ_GCO_SEALED = has m UJ_GCO_SEALED) as ->.
    { change UJ_GCO_SEALED with (2 ^ 7). rewrite !has_pow2, Z.lxor_spec by lia. change (Z.testbit LJ_GC_WHITES 7) with false. apply xorb_false_r. }
    rewrite Hs. apply andb_false_r. }
  assert (isblack (flipwhite (OUpval m uv)) = isblack (OUpval m uv)) as Hb.
  { unfold isblack, flipwhite. rewrite marked_set. change LJ_GC_BLACK with (2 ^ 2). rewrite !has_pow2, Z.lxor_spec by lia.
    change (Z.testbit LJ_GC_WHITES 2) with false. apply xorb_false_r. }
  split; [split; [done|done|split|..]|].
  - done.
  - intros x Hx. destruct (G x Hx) as (ox & Ex & Hl & ?). exists ox. split; [apply Hk; [done|by destruct ox]|done].
  - intros x ox [[-> ->]|[_ Ex]]%Hc; [done|by apply GA].
  - intros x ox [[-> ->]|[_ Ex]]%Hc; [|by apply (W x)]. intros _ _. rewrite Hb. apply (W a); [done| |by rewrite Hw].
    unfold keeps. by rewrite Ho, orb_true_r.
  - intros x ox [[-> ->]|[_ Ex]]%Hc; [|by apply HSat]. intros _ Hs. simpl in Hs, Ho. by rewrite Hs in Ho.
  - intros x ox [[-> ->]|[_ Ex]]%Hc; [|by apply (HU x)]. intros _. by apply (HU a (OUpval m uv)).
  - intros u (ox & Ex & Hs & Ht)%HD. exists ox. split; [apply Hk; [done|by destruct ox, Ht]|done].
  - intros ox [[Hx ->]|[_ Ex]]%Hc; [|by apply HE]. change (strempty_own g = a) in Hx. rewrite Hx in HE. by specialize (HE _ E).
  - intros b Hin. by apply Hwh, HR.
  - done.
  - intros x ox [[-> ->]|[Hxa Ex]]%Hc Hwx Hs Hgx Hp.
    { destruct Hp. right; right; right. unfold at_. by rewrite heap_upd, decide_True, E. }
    assert (¬ pending g x) as Hpg.
    { intros [?|[?|[?|Hu]]]; apply Hp; [by left|by right; left|by right; right; left|right; right; right].
      unfold at_ in *. by rewrite heap_upd, decide_False. }
    destruct (C x ox Ex Hwx Hs Hgx Hpg) as (w & Hm & Hki). exists w. split; [by destruct ox|]. intros b Hin. apply Hwh, Hki.
    destruct ox; try done. destruct uv0 as [th i|]; [|done]. destruct Hpg. right; right; right. unfold at_. by rewrite Ex.
Qed.

Lemma upval_search_found g slot pre l b a l' :
  upval_search g slot pre l = (b, Some a, l') → ∃ m th, heap g !! a = Some (OUpval m (UvOpen th slot)).
Proof.
  revert pre. induction l as [|x l IH]; intros pre; [done|]. simpl.
  destruct (heap g !! x) as [o|] eqn:E; [|done]. destruct o as [|m uv| | | | | | |]; try done. destruct uv as [th i|]; [|done].
  destruct (slot <=? i)%nat; [|done]. destruct (Nat.eqb_spec i slot) as [->|]; [|by apply IH]. intros [= _ <- _]. eauto.
Qed.

(** The list of open upvalues of a thread is no reference. *)
Lemma openupval_uvval th l g u : uvval (upd th (set_openupval l) g) u = uvval g u.
Proof.
  destruct u as [t i|]; [|done]. unfold uvval. rewrite heap_upd. destruct (decide (t = th)) as [->|]; [|done].
  by destruct (heap g !! th) as [[]|].
Qed.
Lemma openupval_fits th l g n a : fits n (upd th (set_openupval l) g) a → fits n g a.
Proof.
  revert a. induction n as [|n IH]; intros a; cbn [fits]; rewrite heap_upd; destruct (decide (a = th)) as [->|]; try done.
  - by destruct (heap g !! th).
  - destruct (heap g !! th) as [[]|]; simpl; try done; [rewrite openupval_uvval|]; auto.
  - destruct (heap g !! a) as [[]|]; try done; [rewrite openupval_uvval|]; auto.
Qed.
Lemma openupval_gct th l g x : (gct <$> heap (upd th (set_openupval l) g) !! x) = (gct <$> heap g !! x).
Proof.
  rewrite heap_upd. destruct (decide (x = th)) as [->|]; [|done]. by destruct (heap g !! th) as [[]|].
Qed.
Lemma openupval_Some th l g x o :
  heap g !! x = Some o → ∃ o', heap (upd th (set_openupval l) g) !! x = Some o' ∧ gct o' = gct o ∧
    uj_obj_is_sealed o' = uj_obj_is_sealed o ∧ (isthread o = false → o' = o).
Proof.
  intros E. rewrite heap_upd. destruct (decide (x = th)) as [->|]; [|eauto 10]. rewrite E. exists (set_openupval l o). by destruct o.
Qed.
Lemma typed_openupval th l g : typed (upd th (set_openupval l) g) → typed g.
Proof.
  intros [[F T N] TG]. split; [split|].
  - intros a. by apply (openupval_fits th l).
  - intros no o Hn E. destruct (openupval_Some th l g _ o E) as (o' & E' & <- & <- & _). by apply (T no).
  - intros a m pt o E En. destruct (openupval_Some th l g _ _ E) as (o1 & E1 & _ & _ & H1). rewrite H1 in E1 by done.
    destruct (openupval_Some th l g _ o En) as (o2 & E2 & <- & _). by apply (N a m pt).
  - intros a t E. destruct (openupval_Some th l g _ _ E) as (o1 & E1 & _ & _ & H1). rewrite H1 in E1 by done.
    destruct (TG a t E1) as [HA HN]. split; (eapply Forall_impl; [done|]); intros v; [apply tv_ok_ext|apply node_ok_ext];
      intros x'; by rewrite openupval_gct.
Qed.

Lemma upval_find_inv th slot a g :
  mark_inv g → fresh g a → typed (uj_upval_find th slot a g).1 → mark_inv (uj_upval_find th slot a g).1.
Proof.
  intros I F. unfold uj_upval_find. destruct (heap g !! th) as [o|] eqn:E; [|done]. destruct o; try done.
  destruct (upval_search g slot [] (openupval L)) as [[b [u|]] l] eqn:ES.
  - cbn [fst]. destruct (at_ (isdead g) g u) eqn:Hd; [|done]. intros T. apply flip_inv; [done| |done]. intros o Eo.
    destruct (upval_search_found _ _ _ _ _ _ _ ES) as (m' & th' & Eu). assert (o = OUpval m' (UvOpen th' slot)) as -> by congruence.
    split; [done|]. unfold at_ in Hd. by rewrite Eu in Hd.
  - cbn [fst]. intros T. set (g1 := set_uvhead (a :: uvhead g) (uj_mem_alloc sizeof_GCupval g)).
    set (o := OUpval (curwhite g) (UvOpen th slot)). set (f := set_openupval (b ++ a :: l)).
    assert (set_uvhead (a :: uvhead g) (upd th f (set_heap (<[a := o]> (heap g)) (uj_mem_alloc sizeof_GCupval g))) = upd th f (alloc a o g1)) as Hg by done.
    change (mark_inv (set_uvhead (a :: uvhead g) (upd th f (set_heap (<[a := o]> (heap g)) (uj_mem_alloc sizeof_GCupval g))))).
    change (typed (set_uvhead (a :: uvhead g) (upd th f (set_heap (<[a := o]> (heap g)) (uj_mem_alloc sizeof_GCupval g))))) in T.
    rewrite Hg in *. assert (th ≠ a) as Hne by (intros ->; by rewrite (fr_none _ _ F) in E).
    assert (heap (alloc a o g1) !! th = Some (OThread m L)) as E1 by (by rewrite alloc_heap, decide_False).
    pose proof (typed_openupval th _ _ T) as T1. rewrite (put_eq th f _ _ E1) in *. apply (thread_inv th m L); [|done|done].
    apply alloc_inv; [|..|done].
    + apply set_uvhead_inv; [by intros x Hx; right|]. by apply set_total_inv.
    + eapply (fresh_ext g); [done|done| |done..]. intros w x ox. by destruct ox.
    + apply curwhite_white, I.
    + apply curwhite_bits.
    + intros _. by left.
Qed.

(** ** Closing an upvalue *)

Definition closing (a : Z) (r : list Z) (o1 : GCobj) (g : gstate) : gstate :=
  set_root r (set_uvhead (unlink a (uvhead g)) (put a o1 g)).

Record closes (a : Z) (o o1 : GCobj) (g : gstate) : Prop := {
  cl_at : heap g !! a = Some o;
  cl_open : uv_open o = true;
  cl_sat : sat o1 = true;
  cl_white : iswhite o1 = iswhite o;
  cl_seal : uj_obj_is_sealed o1 = uj_obj_is_sealed o;
  cl_wb : wb o1 = true }.

Lemma closing_env a r o1 g :
  lists (closing a r o1 g) = lists g ∧ gray (closing a r o1 g) = gray g ∧ grayagain (closing a r o1 g) = grayagain g ∧
  weak (closing a r o1 g) = weak g ∧ mmudata (closing a r o1 g) = mmudata g ∧ uvhead (closing a r o1 g) = unlink a (uvhead g) ∧
  strempty_own (closing a r o1 g) = strempty_own g ∧ mainthref (closing a r o1 g) = mainthref g ∧
  registrytv (closing a r o1 g) = registrytv g ∧ currentwhite (closing a r o1 g) = currentwhite g ∧ finalizer (closing a r o1 g) = finalizer g.
Proof. done. Qed.

Lemma closing_heap a r o1 g x :
  heap (closing a r o1 g) !! x = if decide (x = a) then (λ _, o1) <$> heap g !! a else heap g !! x.
Proof. apply put_heap. Qed.

Lemma closing_wh a r o o1 g b : closes a o o1 g → wh (closing a r o1 g) b = wh g b.
Proof.
  intros [E _ _ Hw Hs _]. unfold wh, at_. rewrite closing_heap. destruct (decide (b = a)) as [->|]; [|done].
  rewrite E. simpl. by rewrite Hw, Hs.
Qed.

Lemma closing_base a r o o1 g : closes a o o1 g → typed (closing a r o1 g) → mark_base g → mark_base (closing a r o1 g).
Proof.
  intros CL [T' TG'] [_ _ [D G GA W] HSat HU HD HE HR HC]. pose proof (λ b, closing_wh a r o o1 g b CL) as Hwh.
  destruct (closing_env a r o1 g) as (El & _ & _ & _ & Em & Eu & Ee & Et & Er & Ec & _). pose proof (closing_heap a r o1 g) as Hh.
  destruct CL as [E Ho Hsat Hw Hs Hwb].
  assert (∀ x ox, heap (closing a r o1 g) !! x = Some ox → x = a ∧ ox = o1 ∨ x ≠ a ∧ heap g !! x = Some ox) as Hc.
  { intros x ox. rewrite Hh. destruct (decide (x = a)) as [->|]; [rewrite E; intros [= <-]; by left|by right]. }
  assert (∀ x ox, heap g !! x = Some ox → uv_open ox = false → heap (closing a r o1 g) !! x = Some ox) as Hk.
  { intros x ox Ex Hu. rewrite Hh, decide_False; [done|]. intros ->. congruence. }
  assert (keeps o1 = false ∧ listed o1 = false ∧ uv_open o1 = false) as (K1 & K2 & K3).
  { destruct o1; try done. simpl in Hsat. unfold keeps. simpl. by rewrite Hsat. }
  split; [done|done|split|..].
  - by rewrite El.
  - rewrite El. intros x (ox & Ex & Hl & ?)%G. exists ox. split; [apply Hk; [done|by destruct ox]|done].
  - rewrite El. intros x ox [[-> ->]|[_ Ex]]%Hc; [congruence|by apply GA].
  - intros x ox [[-> ->]|[_ Ex]]%Hc; [congruence|by apply (W x)].
  - rewrite Em. intros x ox [[-> ->]|[_ Ex]]%Hc; [by left|by apply HSat].
  - rewrite Eu. intros x ox [[-> ->]|[Hx Ex]]%Hc Hu; [congruence|]. apply list_elem_of_filter. split; [done|by apply (HU x ox)].
  - rewrite Em. intros u (ox & Ex & Hs' & Ht)%HD. exists ox. split; [apply Hk; [done|by destruct ox, Ht]|done].
  - rewrite Ee. intros ox [[Hx ->]|[_ Ex]]%Hc; [|by apply HE]. rewrite <-Hx in E. rewrite Hx in E. specialize (HE o).
    rewrite Hx in HE. specialize (HE E). by destruct o.
  - rewrite Et, Er. intros b Hin. rewrite Hwh. by apply HR.
  - unfold white_ok. by rewrite Ec.
Qed.

Lemma closing_closed a r o o1 g :
  closes a o o1 g → closed g (pending g) →
  closed (closing a r o1 g) (λ x, pending (closing a r o1 g) x ∨ x = a).
Proof.
  intros CL C x ox Ex Hw Hs Hg Hx. pose proof (λ b, closing_wh a r o o1 g b CL) as Hwh.
  destruct (closing_env a r o1 g) as (_ & Eg & Ea & Ewk & Em & _ & _ & _ & _ & _ & Ef).
  assert (x ≠ a) as Hxa by tauto. rewrite Eg in Hg.
  assert (¬ pending g x) as Hp.
  { intros Hp. apply Hx. left. unfold pending in *. rewrite Ea, Ewk, Em. destruct Hp as [?|[?|[?|Hu]]]; [tauto..|].
    right; right; right. unfold at_ in *. by rewrite closing_heap, decide_False. }
  rewrite closing_heap, decide_False in Ex by done. destruct (C x ox Ex Hw Hs Hg Hp) as (w & Hm & Hk). exists w. split.
  - unfold mode_ok in *. by rewrite Ef, Ewk.
  - intros b Hb. rewrite Hwh. apply Hk. destruct ox; try done. destruct uv as [th i|]; [|done].
    destruct Hp. right; right; right. unfold at_. by rewrite Ex.
Qed.

(** The value is not white, or is marked. *)
Lemma closing_done a r o o1 g X :
  closes a o o1 g → typed (closing a r o1 g) → mark_inv g →
  (∀ b, b ∈ kids_w (closing a r o1 g) 0 a o1 → wh (closing a r o1 g) b = false) ∨ iswhite o1 = true → X = closing a r o1 g →
  mark_inv X.
Proof.
  intros CL T [B C] Hk ->. split; [by eapply closing_base|].
  pose proof (closing_closed a r o o1 g CL C) as C'. apply (closed_less _ _ (λ x, x = a)); [done|].
  intros x ox Ex Hw ->. rewrite closing_heap, decide_True, (cl_at _ _ _ _ CL) in Ex by done. injection Ex as <-.
  destruct Hk as [Hk|?]; [|congruence]. apply settled_unlisted; [|done]. pose proof (cl_sat _ _ _ _ CL). by destruct o1.
Qed.

Lemma closing_mark a r o m tv v g :
  closes a o (OUpval m (UvClosed tv)) g → typed (closing a r (OUpval m (UvClosed tv)) g) → mark_inv g → tvaddr tv = [v] →
  at_ iswhite (closing a r (OUpval m (UvClosed tv)) g) v = true → mark_inv (gc_mark v (closing a r (OUpval m (UvClosed tv)) g)).
Proof.
  intros CL T [B C] Hv Hw. pose proof (closing_base a r o _ g CL T B) as B1. pose proof (closing_closed a r o _ g CL C) as C1.
  assert (heap (closing a r (OUpval m (UvClosed tv)) g) !! a = Some (OUpval m (UvClosed tv))) as E1.
  { by rewrite closing_heap, decide_True, (cl_at _ _ _ _ CL). }
  set (g1 := closing a r _ g) in *. clearbody g1.
  assert (mark_ok g1 (gc_mark v g1) [v]) as M by (apply mark_n_spec; [apply T|done]).
  pose proof (mark_ok_progress _ _ _ M) as P. pose proof (pg_hle _ _ _ P) as L. split; [by eapply mark_base_progress|].
  apply (closed_less _ _ (λ x, x = a)).
  - eapply closed_sub; [|apply M, C1]. intros x [?|?]; [left; by eapply progress_pending|by right].
  - intros x ox Ex _ ->. destruct (hle_Some _ _ _ _ L E1) as (o2 & E2 & [Ho _ _]). assert (o2 = ox) as -> by congruence.
    destruct ox; try done. simpl in Ho. subst uv. apply settled_unlisted; [done|]. simpl. rewrite Hv. apply M.
Qed.

Lemma closeuv_inv a m th i g :
  mark_inv g → marking g = true → heap g !! a = Some (OUpval m (UvOpen th i)) →
  (∀ m', typed (closing a (a :: root g) (OUpval m' (UvClosed (uvval g (UvOpen th i)))) g)) →
  mark_inv (lj_gc_closeuv a (upval_unlink a g)).
Proof.
  intros I Hst E T. unfold lj_gc_closeuv. change (heap (upval_unlink a g)) with (heap g). rewrite E.
  change (uvval (upval_unlink a g) (UvOpen th i)) with (uvval g (UvOpen th i)). set (tv := uvval g (UvOpen th i)) in *.
  change (root (upd a _ _)) with (root g). set (o := OUpval m (UvOpen th i)) in *.
  assert (isblack o = false) as Hb by (by apply (go_white _ (mi_gray _ (mi_base _ I)) a); [..|apply orb_true_r]).
  assert (∀ h, marking (set_root (a :: root g) (upd a h (upval_unlink a g))) = true) as Hmk by (intros h; exact Hst).
  assert (∀ h m', h o = OUpval m' (UvClosed tv) →
    set_root (a :: root g) (upd a h (upval_unlink a g)) = closing a (a :: root g) (OUpval m' (UvClosed tv)) g) as Hcl.
  { intros h m' Hh. rewrite (put_eq a h _ o) by done. by rewrite Hh. }
  destruct (isgray o) eqn:Hg.
  - rewrite Hmk. rewrite gray_iff, Hb in Hg. simpl in Hg.
    assert (upd a gray2black (set_root (a :: root g) (upd a (set_uv (UvClosed tv)) (upval_unlink a g))) =
      set_root (a :: root g) (upd a (λ o, gray2black (set_uv (UvClosed tv) o)) (upval_unlink a g))) as ->.
    { by rewrite <-(upd_twice a (set_uv (UvClosed tv)) gray2black). }
    rewrite (Hcl _ (Z.lor m LJ_GC_BLACK)) by done.
    set (o1 := OUpval (Z.lor m LJ_GC_BLACK) (UvClosed tv)).
    assert (closes a o o1 g) as CL.
    { split; try done.
      - exact (white_g2b (OUpval m (UvClosed tv))).
      - exact (or_seal _ _ _ (orel_g2b g (OUpval m (UvClosed tv)))).
      - unfold wb. apply orb_true_iff. right. exact (black_g2b (OUpval m (UvClosed tv))). }
    assert (mark_inv (closing a (a :: root g) o1 g) ∨
      ∃ gt v, tv = TGCV gt v ∧ at_ iswhite (closing a (a :: root g) o1 g) v = true) as HI.
    { destruct tv as [| | |gt v|] eqn:Etv; try (left; eapply closing_done; [done|by apply T|done|left; by intros x []%elem_of_nil|done]).
      destruct (at_ iswhite (closing a (a :: root g) o1 g) v) eqn:Hv; [right; eauto|left].
      eapply closing_done; [done|by apply T|done|left|done]. intros x ->%list_elem_of_singleton. by apply not_white_wh. }
    destruct tv as [| | |gt v|] eqn:Etv; try (destruct HI as [?|(? & ? & ? & _)]; done).
    destruct (at_ iswhite _ v) eqn:Hv; [|destruct HI as [?|(gt' & v' & [= <- <-] & Hv')]; [done|congruence]].
    unfold lj_gc_barrierf. assert (marking (closing a (a :: root g) o1 g) = true) as -> by exact Hst.
    by eapply closing_mark.
  - rewrite (Hcl _ m) by done. eapply (closing_done a _ o); [|by apply T|done|right|done].
    + rewrite gray_iff, Hb in Hg. simpl in Hg. split; try done. unfold wb.
      assert (iswhite (OUpval m (UvClosed tv)) = true) as ->; [|done]. change (iswhite o = true). by destruct (iswhite o).
    + rewrite gray_iff, Hb in Hg. change (iswhite o = true). by destruct (iswhite o).
Qed.

End Mutator.

End GcMutator.
