(* ===== verification/GcTheorems.v ===== *)
(** * Theorems about the garbage collector

    A cycle: [gc_mark_start], any interleaving of the collector's marking with the program's stores
    ([mstep]), [atomic], and any sweeps.  What the program can reach is kept, what it cannot reach
    from the start on is freed. *)

From stdpp Require Import base decidable list numbers option sets gmap relations.
From Stdlib Require Import ZArith Lia.
From S2P Require Import Prelude Obj Tab Bc Ir GcObj Gc GcSweep GcApi GcInv GcMark GcTraverse GcPropagate.
From S2P Require Import GcSweepSpec GcAtomic GcSafe GcMutator.

Local Open Scope Z_scope.
Import Obj GcObj Gc GcSweep GcApi GcInv GcMark GcTraverse GcPropagate GcSweepSpec GcAtomic GcClear GcSafe GcCycle GcMutator.

Module GcTheorems.

Section Steps.
Context `{OH : ObjHeap}.

(** ** Steps while the collector marks *)

(** Values have the right tags after each store; a slot with a collectable key is not written with
    [lj_gc_barriert]. *)
Inductive mstep (g : gstate) : gstate → Prop :=
  | ms_propagate : gray g ≠ [] → mstep g (propagatemark g).1
  | ms_rawset a t t' :
      heap g !! a = Some (OTab t) → Tab.marked t' = Tab.marked t → typed (put a (OTab t') g) →
      mstep g (lj_gc_anybarriert a (put a (OTab t') g))
  | ms_rawseti a t s tv :
      heap g !! a = Some (OTab t) → typed (put a (OTab (Tab.slot_write tv s t)) g) →
      (∀ i n, s = Tab.HSlot i → Tab.node t !! i = Some n → tvaddr (Tab.key n) = []) →
      mstep g (lj_gc_barriert a tv (put a (OTab (Tab.slot_write tv s t)) g))
  | ms_setmetatable a mt g' :
      typed (upd a (set_metatable mt) g) → lua_setmetatable a mt g = Some g' → mstep g g'
  | ms_setfenv a t : typed (upd a (set_env t) g) → mstep g (lua_setfenv a t g).1
  | ms_upvaluejoin fn1 n1 fn2 n2 :
      (∀ uv, func_uv g fn2 (Z.to_nat (n2 - 1)) = Some uv → typed (upd fn1 (set_uvptr (Z.to_nat (n1 - 1)) uv) g)) →
      mstep g (lua_upvaluejoin fn1 n1 fn2 n2 g)
  | ms_setupvalue_c fn m env vs i tv :
      heap g !! fn = Some (OFunc m (FnC env vs)) → typed (upd fn (set_upvalue i tv) g) →
      mstep g (lj_gc_barrier fn tv (upd fn (set_upvalue i tv) g))
  | ms_usetv uv tv : typed (uv_store uv tv g) → mstep g (bc_usetv uv tv g)
  | ms_stack th m L L' :
      heap g !! th = Some (OThread m L) → typed (put th (OThread m L') g) → mstep g (put th (OThread m L') g)
  | ms_new a size o :
      fresh g a → uv_open o = false → typed (uj_obj_new a size o g) → mstep g (uj_obj_new a size o g)
  | ms_upval_find th slot a :
      fresh g a → typed (uj_upval_find th slot a g).1 → mstep g (uj_upval_find th slot a g).1
  | ms_upval_close a m th i :
      heap g !! a = Some (OUpval m (UvOpen th i)) →
      (∀ m', typed (closing a (a :: root g) (OUpval m' (UvClosed (uvval g (UvOpen th i)))) g)) →
      mstep g (lj_gc_closeuv a (upval_unlink a g)).

(** Steps are taken in the state GCSpropagate. *)
Definition pstep (g g' : gstate) : Prop := state g = GCSpropagate ∧ mstep g g'.

Lemma slot_write_adds g a t s tv :
  (∀ i n, s = Tab.HSlot i → Tab.node t !! i = Some n → tvaddr (Tab.key n) = []) →
  adds g (put a (OTab (Tab.slot_write tv s t)) g) a (OTab t) (OTab (Tab.slot_write tv s t)) (tvaddr tv).
Proof.
  intros Hk w b. cbn [kids_w]. unfold tab_kids. destruct s as [i|i]; cbn [Tab.slot_write Tab.metatable Tab.array Tab.node Tab.hmask Tab.set_array Tab.set_node];
    rewrite !elem_of_app; intros [?|[Hb|Hb]]; try tauto.
  - destruct (has w LJ_GC_WEAKVAL); [tauto|]. unfold tvaddrs in *. rewrite elem_of_concat in *. destruct Hb as (v & Hv & Hb).
    apply elem_insert in Hv as [->|?]; [by right|]. left. right; left. eauto.
  - destruct (0 <? Tab.hmask t); [|tauto]. rewrite elem_of_concat in *. destruct Hb as (n & (j & Hj)%list_elem_of_lookup & Hb).
    destruct (decide (i = j)) as [->|Hij].
    + rewrite list_lookup_alter_eq in Hj. destruct (Tab.node t !! j) as [n0|] eqn:En; [|done]. injection Hj as <-.
      right. unfold node_kids in Hb. simpl in Hb. rewrite (Hk j n0 eq_refl En) in Hb.
      destruct (tvisnil tv), (has w LJ_GC_WEAKKEY), (has w LJ_GC_WEAKVAL); simpl in Hb; set_solver.
    + rewrite list_lookup_alter_ne in Hj by done. left. right; right. exists n. split; [by eapply list_elem_of_lookup_2|done].
Qed.

Lemma mstep_inv g g' : marking g = true → mark_inv g → mstep g g' → mark_inv g'.
Proof.
  intros Hm I H. destruct H.
  - destruct (gray g) as [|a rest] eqn:EG; [done|].
    eapply mark_inv_progress; [done|].
    apply (propagatemark_progress a rest g EG (mi_typed _ (mi_base _ I)) (mi_gray _ (mi_base _ I))).
  - apply (anybarriert_inv a t t' (tab_kids 0 t') g); [|done]. split; [done|by split|done|done|]. intros w b. simpl. unfold tab_kids. rewrite !elem_of_app.
    intros [?|[?|?]]; right; [by left|right; left|right; right].
    + by destruct (has w LJ_GC_WEAKVAL); [apply elem_of_nil in H2|].
    + destruct (0 <? Tab.hmask t'); [|done]. rewrite elem_of_concat in *. destruct H2 as (n & ? & Hb). exists n. split; [done|].
      revert Hb. unfold node_kids. destruct (tvisnil _); [done|]. destruct (has w LJ_GC_WEAKKEY), (has w LJ_GC_WEAKVAL); simpl; set_solver.
  - apply (barriert_inv a t (Tab.slot_write tv s t) tv g); [|done]. split; [done|split; by destruct s|done|done|by apply slot_write_adds].
  - by eapply setmetatable_inv.
  - by apply setfenv_inv.
  - by apply upvaluejoin_inv.
  - by eapply cupvalue_inv.
  - by apply usetv_inv.
  - by eapply thread_inv.
  - by apply obj_new_inv.
  - by apply upval_find_inv.
  - by eapply closeuv_inv.
Qed.

Lemma psteps_inv g g' : mark_inv g → rtc pstep g g' → mark_inv g'.
Proof.
  intros I H. induction H as [|g g1 g2 [Hs Hm] _ IH]; [done|]. apply IH. eapply mstep_inv; [|done..]. unfold marking. by rewrite Hs.
Qed.

(** ** Sweeps after the atomic phase *)







(** ** From the start of a cycle *)








(** ** The claims *)


(** C7: In every state of the mark phase, an object is on one of the lists [gray], [grayagain] and
    [weak] at most, and once (its [gclist] link is used once), the objects on the lists are exactly
    the gray ones of their types that are not sealed, and threads and open upvalues are never black. *)
Theorem gc_gray_lists g0 g : pause_inv g0 → rtc pstep (gc_mark_start g0) g → gray_ok g.
Proof. intros I HM. apply (psteps_inv _ _ (mark_start_inv g0 I) HM). Qed.

(** C8: [gc_propagate_gray] ends with an empty gray list within its fuel, and what it marked is
    traversed: an object that is not white, sealed or an exception to begin with refers to no white
    object. *)
Theorem gc_propagate_gray_done g X :
  gtyped g → gray_ok g → closed g X →
  let g' := (gc_propagate_gray g).1 in
  gray g' = [] ∧ gray_ok g' ∧
  ∀ a o, heap g' !! a = Some o → iswhite o = false → uj_obj_is_sealed o = false → ¬ X a → settled g' a o.
Proof.
  intros T G C g'. destruct (propagate_gray_spec g T G) as [P E]. split_and!; [done|by apply P|].
  intros a o Ea Hw Hs Hx. apply (pg_closed _ _ _ P X C); try done. unfold g' in *. rewrite E. apply not_elem_of_nil.
Qed.



End Steps.


(** ** A heap *)

Definition demo_hash : ObjHeap := MkHeap (λ a, a) (λ _, 0).
#[local] Existing Instance demo_hash.

Definition demo_tab (arr : list TValue) : GCobj := OTab (Tab.MkTab 1 0 0 None arr [Tab.empty_node] 0 0).
Definition demo_ref (a : Z) : TValue := TGCV GT_TAB a.

(** The stack holds the table 5000 with a closure, whose upvalue holds 6500; 4000 is garbage. *)
Definition demo_objs : list (Z * GCobj) := [
  (1000, OThread 33 (MkTh (SF 1000 (FTSZ 0) :: SV (demo_ref 5000) :: replicate 44 (SV TNil)) 1 2 40 [] 2000));
  (2000, demo_tab [demo_ref 6000]);
  (3000, demo_tab []);
  (4000, demo_tab [demo_ref 5000]);
  (5000, demo_tab [TGCV GT_FUNC 7000]);
  (6000, demo_tab []);
  (6500, demo_tab []);
  (7000, OFunc 1 (FnL 2000 7100 [7200]));
  (7100, OProto 1 (MkPt 7300 [] 0 2 100));
  (7200, OUpval 1 (UvClosed (demo_ref 6500)));
  (7300, OStr 1 [97]);
  (9000, OStr 1 [])].

Definition demo : gstate :=
  MkG (list_to_map demo_objs) 0 1000000 33 GCSpause 0 [0; 0; 0; 0; 0; 0] 0
    [7200; 7100; 7000; 6500; 6000; 5000; 4000; 3000; 2000; 1000] SwRoot [] [] [] [] 200 0 0 200 6 0 100000
    (MkST [[7300]] 0 1) (MkST [[]] 0 0) false 9000 1000 (demo_ref 3000) [0; 0] [] 0 0 0 [] 0 (MkTrace 0 [] 0 0 0 0 0 0 0).

Lemma demo_lookup a o : heap demo !! a = Some o → (a, o) ∈ demo_objs.
Proof. apply elem_of_list_to_map_2. Qed.

(** The object at an address is one of those listed. *)
Ltac listed H :=
  rewrite !elem_of_cons, elem_of_nil in H;
  repeat (destruct H as [H|H]; [apply pair_equal_spec in H as [-> H]; try discriminate H; try subst|]); try done.
Ltac demo_cases H := apply demo_lookup in H; unfold demo_objs, demo_tab in H; listed H.

Lemma demo_typed : gtyped demo.
Proof.
  split.
  - intros a. unfold MARK_DEPTH. cbn [fits]. destruct (heap demo !! a) as [o|] eqn:E; [|done]. demo_cases E; try done.
    intros b Hb. apply list_elem_of_singleton in Hb as ->. by vm_compute.
  - intros no o _ E. exfalso. revert E. unfold traceref. simpl trace. rewrite lookup_nil. by vm_compute.
  - intros a m pt o E En. demo_cases E. injection E as -> ->. vm_compute in En. by injection En as <-.
Qed.

Lemma demo_pause : pause_inv demo.
Proof.
  split.
  - apply demo_typed.
  - intros a t E. demo_cases E; injection E as ->; (split; repeat constructor); intros o' E'; vm_compute in E'; by injection E' as <-.
  - intros a o E Hw. by demo_cases E.
  - intros a o E _ Hw. by demo_cases E.
  - intros a o E Hu. by demo_cases E.
  - intros u []%elem_of_nil.
  - intros o E. vm_compute in E. by injection E as <-.
  - by left.
Qed.

Definition demo_marking : gstate := (propagatemark (gc_mark_start demo)).1.
Local Notation demo_marked := (atomic 1000 demo_marking).


Lemma demo_gray : state (gc_mark_start demo) = GCSpropagate ∧ bool_decide (gray (gc_mark_start demo) = []) = false.
Proof. split; vm_compute; reflexivity. Qed.

Lemma demo_steps : rtc pstep (gc_mark_start demo) demo_marking.
Proof.
  destruct demo_gray as [H1 H2]. apply bool_decide_eq_false in H2. unfold demo_marking.
  set (g := gc_mark_start demo) in *. clearbody g. apply rtc_once. split; [exact H1|]. apply ms_propagate. exact H2.
Qed.






Lemma gc_gray_lists_witness : gray_ok demo_marking.
Proof. apply (gc_gray_lists demo); [apply demo_pause|apply demo_steps]. Defined.

Lemma gc_propagate_gray_done_witness :
  let g' := (gc_propagate_gray demo_marking).1 in
  gray g' = [] ∧ gray_ok g' ∧
  ∀ a o, heap g' !! a = Some o → iswhite o = false → uj_obj_is_sealed o = false → ¬ pending demo_marking a → settled g' a o.
Proof.
  pose proof (psteps_inv _ _ (mark_start_inv demo demo_pause) demo_steps) as [[T G] C].
  apply (gc_propagate_gray_done demo_marking (pending demo_marking)); assumption.
Defined.


(** ** Garbage *)

Local Notation demo_atomic := (atomic 1000 (gc_mark_start demo)).










(** ** The barrier of [lua_setupvalue] *)

(** Two functions share the closed upvalue 7200: 7500 is in the registry table, 7000 on the stack. *)
Definition shared_objs : list (Z * GCobj) := [
  (1000, OThread 33 (MkTh (SF 1000 (FTSZ 0) :: SV (TGCV GT_FUNC 7000) :: replicate 44 (SV TNil)) 1 2 40 [] 2000));
  (2000, demo_tab []);
  (3000, demo_tab [TGCV GT_FUNC 7500]);
  (6700, demo_tab []);
  (7000, OFunc 1 (FnL 2000 7100 [7200]));
  (7100, OProto 1 (MkPt 7300 [] 0 2 100));
  (7200, OUpval 1 (UvClosed TNil));
  (7300, OStr 1 [97]);
  (7500, OFunc 1 (FnL 2000 7100 [7200]));
  (9000, OStr 1 [])].

Definition shared : gstate :=
  MkG (list_to_map shared_objs) 0 1000000 33 GCSpause 0 [0; 0; 0; 0; 0; 0] 0
    [7500; 7200; 7100; 7000; 6700; 3000; 2000; 1000] SwRoot [] [] [] [] 200 0 0 200 6 0 100000
    (MkST [[7300]] 0 1) (MkST [[]] 0 0) false 9000 1000 (demo_ref 3000) [0; 0] [] 0 0 0 [] 0 (MkTrace 0 [] 0 0 0 0 0 0 0).

Definition shared_marking : gstate := (propagatemark (propagatemark (gc_mark_start shared)).1).1.
Local Notation shared_atomic := (atomic 1000 (lua_setupvalue 7000 1 (demo_ref 6700) shared_marking)).

Lemma shared_lookup a o : heap shared !! a = Some o → (a, o) ∈ shared_objs.
Proof. apply elem_of_list_to_map_2. Qed.
Ltac shared_cases H := apply shared_lookup in H; unfold shared_objs, demo_tab in H; listed H.

Lemma shared_typed : gtyped shared.
Proof.
  split.
  - intros a. unfold MARK_DEPTH. cbn [fits]. destruct (heap shared !! a) as [o|] eqn:E; [|done]. shared_cases E; try done.
    intros b []%elem_of_nil.
  - intros no o _ E. exfalso. revert E. unfold traceref. simpl trace. rewrite lookup_nil. by vm_compute.
  - intros a m pt o E En. shared_cases E. injection E as -> ->. vm_compute in En. by injection En as <-.
Qed.

Lemma shared_pause : pause_inv shared.
Proof.
  split.
  - apply shared_typed.
  - intros a t E. shared_cases E; injection E as ->; (split; repeat constructor); intros o' E'; vm_compute in E'; by injection E' as <-.
  - intros a o E Hw. by shared_cases E.
  - intros a o E _ Hw. by shared_cases E.
  - intros a o E Hu. by shared_cases E.
  - intros u []%elem_of_nil.
  - intros o E. vm_compute in E. by injection E as <-.
  - by left.
Qed.

Lemma propagate_step g : state g = GCSpropagate → bool_decide (gray g = []) = false → pstep g (propagatemark g).1.
Proof. intros H1 H2%bool_decide_eq_false. split; [done|by apply ms_propagate]. Qed.

Lemma shared_states :
  state (gc_mark_start shared) = GCSpropagate ∧ bool_decide (gray (gc_mark_start shared) = []) = false ∧
  state (propagatemark (gc_mark_start shared)).1 = GCSpropagate ∧
  bool_decide (gray (propagatemark (gc_mark_start shared)).1 = []) = false.
Proof. split_and!; vm_compute; reflexivity. Qed.

Lemma shared_steps : rtc pstep (gc_mark_start shared) shared_marking.
Proof.
  destruct shared_states as (H1 & H2 & H3 & H4). unfold shared_marking. set (g := gc_mark_start shared) in *. clearbody g.
  eapply rtc_l; [by apply propagate_step|]. apply rtc_once. by apply propagate_step.
Qed.

Definition shared_obj (a : Z) : GCobj := default (OStr 0 []) (heap shared_atomic !! a).

Lemma shared_edge roots a b :
  reach shared_atomic roots a → heap shared_atomic !! a = Some (shared_obj a) → uj_obj_is_sealed (shared_obj a) = false →
  bool_decide (b ∈ refs shared_atomic a (shared_obj a)) = true → reach shared_atomic roots b.
Proof. intros Hr E Hs Hb. apply bool_decide_eq_true in Hb. exact (reach_ref _ _ a _ b Hr E Hs Hb). Qed.

Lemma shared_reach : reach shared_atomic [3000] 6700.
Proof.
  apply (shared_edge _ 7200); [|vm_compute; reflexivity..]. apply (shared_edge _ 7500); [|vm_compute; reflexivity..].
  apply (shared_edge _ 3000); [|vm_compute; reflexivity..]. apply reach_root. by left.
Qed.

(** [lua_setupvalue] has no such theorem: it tests the colour of the function it is given, not of the
    upvalue.  Here the function is white and the closed upvalue, shared with a marked function, is
    black: no barrier is taken, and the value is freed while the registry table leads to it. *)
Theorem lua_setupvalue_frees_reachable :
  pause_inv shared ∧ rtc pstep (gc_mark_start shared) shared_marking ∧
  registrytv shared_marking = demo_ref 3000 ∧ reach shared_atomic [3000] 6700 ∧
  heap shared_atomic !! 6700 = heap shared !! 6700 ∧ heap (gc_fullsweep CRoot shared_atomic) !! 6700 = None.
Proof.
  split; [apply shared_pause|]. split; [apply shared_steps|]. split; [vm_compute; reflexivity|].
  split; [apply shared_reach|]. split; vm_compute; reflexivity.
Qed.

End GcTheorems.
