(* ===== verification/GcSeal.v ===== *)
(** * Immutable and sealed object graphs (uj_obj_immutable.c, uj_obj_seal.c)

    [ujit.immutable] and [ujit.seal] change a whole graph of objects, or nothing: a first pass marks
    what can be reached and throws at an object that does not qualify, in which case a second pass
    takes the marks away; otherwise a pass commits the change.  The passes are recursive functions
    that call each other through callbacks, [gco_mark_flipper] and [gco_traverser]; here they take
    fuel, which bounds the depth of the recursion.  The comparison of a callback with the marking
    function is the flag [mark].

    Sealed objects are left alone by the collector.  Then the lists of objects are relinked so that
    sealed objects come last, and sealed strings move to a table of their own.  [lua_gc] of uj_capi.c and
    [luaE_seal] of uj_capi_ext.c drive the collector around it; [lj_gc_freeall] ends everything.

    The bytecode of a prototype is not part of this heap; sealing also switches its hot-counting off
    (uj_proto_disable_jit, see ProtoOps.v). *)

From stdpp Require Import base decidable list numbers option sets gmap.
From Stdlib Require Import ZArith Lia.
From S2P Require Import Prelude Obj Tab TabIter Str GcObj Gc GcSweep GcApi.

Local Open Scope Z_scope.
Import Obj GcObj Gc GcSweep GcApi.

Module GcSeal.

Inductive err_msg := UJ_ERR_IMMUT_BADTYPE | UJ_ERR_SEAL_BADTYPE | UJ_ERR_SEAL_FNUPVAL.

#[export] Instance err_msg_eq_dec : EqDecision err_msg.
Proof. solve_decision. Defined.

(** Done, the error with the object it is about, or no more fuel. *)
Inductive mres := MOk (g : gstate) | MErr (e : err_msg) (a : Z) (g : gstate) | MFuel.

Definition gco_mark_flipper : Type := Z → gstate → mres.
Definition gco_traverser : Type := Z → gco_mark_flipper → gstate → mres.

Definition lj_obj_has_mark (o : GCobj) : bool := has (marked o) UJ_GCO_TMPMARK.
Definition lj_obj_set_mark (o : GCobj) : GCobj := set_marked (Z.lor (marked o) UJ_GCO_TMPMARK) o.
Definition lj_obj_clear_mark (o : GCobj) : GCobj := set_marked (clr (marked o) UJ_GCO_TMPMARK) o.
Definition uj_obj_immutable_set_mark (o : GCobj) : GCobj := set_marked (Z.lor (marked o) UJ_GCO_IMMUTABLE) o.
Definition seal_set_mark (o : GCobj) : GCobj := set_marked (Z.lor (marked o) UJ_GCO_SEALED) o.
Definition seal_clear_mark (o : GCobj) : GCobj := set_marked (clr (marked o) UJ_GCO_SEALED) o.

(** The callback on each object of a list; an error ends it. *)
Fixpoint mark_all (marker : gco_mark_flipper) (l : list Z) (g : gstate) : mres :=
  match l with
  | [] => MOk g
  | a :: l => match marker a g with MOk g => mark_all marker l g | r => r end
  end.

Definition gcV (tv : TValue) : option Z := match tv with TGCV _ a => Some a | _ => None end.
Definition tab_refs (t : Tab.GCtab) : list Z := omap gcV (TabIter.lj_tab_traverse t).
Definition lj_tab_traverse (t : Tab.GCtab) (marker : gco_mark_flipper) : gstate → mres :=
  mark_all marker (tab_refs t).

(** ** Marking (uj_obj.c) *)

Definition uj_obj_propagate_set (a : Z) (traverser : gco_traverser) (marker : gco_mark_flipper) (g : gstate) : mres :=
  if at_ lj_obj_has_mark g a then MOk g else traverser a marker (upd a lj_obj_set_mark g).

Definition uj_obj_propagate_clear (a : Z) (traverser : gco_traverser) (rubber : gco_mark_flipper) (g : gstate) : mres :=
  if at_ lj_obj_has_mark g a then traverser a rubber (upd a lj_obj_clear_mark g) else MOk g.

(** Marking in a protected mode. *)
Definition uj_obj_pmark (a : Z) (marker rubber : gco_mark_flipper) (g : gstate) : mres :=
  match marker a g with
  | MErr e x g => match rubber a g with MOk g => MErr e x g | r => r end
  | r => r
  end.

(** The recursion marks an object each time it gets deeper. *)
Definition mark_fuel (g : gstate) : nat := S (size (heap g)).

(** ** Immutability (uj_obj_immutable.c) *)

Definition immutable_traverse (mark : bool) : gco_traverser := λ a marker g,
  match heap g !! a with
  | Some (OTab t) => lj_tab_traverse t marker g
  | Some (OProto _ _) | Some (OFunc _ _) | Some (OStr _ _) | Some (OUdata _ _) => MOk g
  | Some _ => if mark then MErr UJ_ERR_IMMUT_BADTYPE a g else MOk g
  | None => MOk g
  end.

Fixpoint immutable_mark (n : nat) (a : Z) (g : gstate) : mres :=
  match n with
  | O => MFuel
  | S n =>
      if at_ uj_obj_is_immutable g a then MOk g
      else uj_obj_propagate_set a (immutable_traverse true) (immutable_mark n) g
  end.

Fixpoint immutable_unmark (n : nat) (a : Z) (g : gstate) : mres :=
  match n with
  | O => MFuel
  | S n =>
      if at_ uj_obj_is_immutable g a then MOk g
      else uj_obj_propagate_clear a (immutable_traverse false) (immutable_unmark n) g
  end.

Fixpoint immutable_commit (n : nat) (a : Z) (g : gstate) : mres :=
  match n with
  | O => MFuel
  | S n =>
      if at_ uj_obj_is_immutable g a then MOk g
      else
        let g := upd a lj_obj_clear_mark g in
        let g := upd a uj_obj_immutable_set_mark g in
        immutable_traverse false a (immutable_commit n) g
  end.

Definition uj_obj_immutable (a : Z) (g : gstate) : mres :=
  if at_ uj_obj_is_immutable g a then MOk g
  else
    let n := mark_fuel g in
    match uj_obj_pmark a (immutable_mark n) (immutable_unmark n) g with
    | MOk g => immutable_commit n a g
    | r => r
    end.

(** ** Sealing (uj_obj_seal.c) *)

Definition seal_sizeof (o : GCobj) : Z :=
  match o with
  | OTab t => lj_tab_sizeof t
  | OProto _ pt => uj_proto_sizeof pt
  | OFunc _ fn => uj_func_sizeof fn
  | _ => 0
  end.

Definition uj_func_has_upvalues (fn : GCfunc) : bool :=
  match fn with FnL _ _ (_ :: _) => true | _ => false end.

Definition uj_proto_seal_traverse (pt : GCproto) (marker : gco_mark_flipper) : gstate → mres :=
  mark_all marker (chunkname pt :: kgc pt).

Definition uj_func_seal_traverse (fn : GCfunc) (marker : gco_mark_flipper) (g : gstate) : mres :=
  match fn with FnL _ pt _ => marker pt g | FnC _ _ => MOk g end.

Definition seal_traverse (mark : bool) : gco_traverser := λ a marker g,
  match heap g !! a with
  | Some (OTab t) => lj_tab_traverse t marker g
  | Some (OProto _ pt) => uj_proto_seal_traverse pt marker g
  | Some (OFunc _ fn) =>
      if uj_func_has_upvalues fn then if mark then MErr UJ_ERR_SEAL_FNUPVAL a g else MOk g
      else uj_func_seal_traverse fn marker g
  | Some (OStr _ _) => MOk g
  | Some _ => if mark then MErr UJ_ERR_SEAL_BADTYPE a g else MOk g
  | None => MOk g
  end.

Definition is_str (o : GCobj) : bool := match o with OStr _ _ => true | _ => false end.

Fixpoint seal_mark (n : nat) (a : Z) (g : gstate) : mres :=
  match n with
  | O => MFuel
  | S n =>
      if at_ uj_obj_is_sealed g a then MOk g
      else if at_ is_str g a then MOk g
      else uj_obj_propagate_set a (seal_traverse true) (seal_mark n) g
  end.

Fixpoint seal_unmark (n : nat) (a : Z) (g : gstate) : mres :=
  match n with
  | O => MFuel
  | S n =>
      if at_ uj_obj_is_sealed g a then MOk g
      else if at_ is_str g a then MOk g
      else uj_obj_propagate_clear a (seal_traverse false) (seal_unmark n) g
  end.

Fixpoint seal_commit (n : nat) (a : Z) (g : gstate) : mres :=
  match n, heap g !! a with
  | O, _ => MFuel
  | _, None => MOk g
  | S n, Some o =>
      if uj_obj_is_sealed o then MOk g
      else
        let g := upd a seal_set_mark g in
        if is_str o then MOk g
        else
          let g := upd a lj_obj_clear_mark g in
          let size := seal_sizeof o in
          let g := set_total (u64 (total g - size)) g in
          let g := set_sealed (u64 (sealed g + size)) g in
          seal_traverse false a (seal_commit n) g
  end.

Definition seal_immutable_fixup (o : GCobj) : GCobj :=
  match o with OTab _ => uj_obj_immutable_set_mark o | _ => o end.

(** What is left of the chain, with the sealed objects behind it in reverse order. *)
Fixpoint seal_relink_chain (l sealed_anchor : list Z) (g : gstate) : list Z * gstate :=
  match l with
  | [] => (sealed_anchor, g)
  | a :: l =>
      if at_ uj_obj_is_sealed g a then seal_relink_chain l (a :: sealed_anchor) (upd a seal_immutable_fixup g)
      else let (r, g) := seal_relink_chain l sealed_anchor g in (a :: r, g)
  end.

Definition seal_relink_root (g : gstate) : gstate :=
  let (l, g) := seal_relink_chain (root g) [] g in set_root l g.

Section Strings.
Context `{OH : ObjHeap}.

Definition view_marked (g : gstate) (a : Z) : Str.GCstr :=
  Str.MkGCstr a (match heap g !! a with Some o => marked o | None => 0 end) (str_hash a) [].
Definition view_table (g : gstate) (t : strtab) : Str.uj_strhash_t :=
  Str.MkSH (map (map (view_marked g)) (hash t)) (mask t) (count t).
Definition unview (t : Str.uj_strhash_t) : strtab :=
  MkST (map (map Str.saddr) (Str.hash t)) (Str.mask t) (Str.count t).

Definition uj_strhash_relink (g : gstate) : gstate :=
  let '(own, sealed) :=
    Str.uj_strhash_relink (bool_decide (state g = GCSsweepstring))
      (view_table g (strhash g)) (view_table g (strhash_sealed g)) in
  set_strhash_sealed (unview sealed) (set_strhash (unview own) g).

Definition seal_relink (g : gstate) : gstate :=
  let g := seal_relink_root g in
  if datastate g =? 0 then uj_strhash_relink g else g.

Definition uj_obj_seal (a : Z) (g : gstate) : mres :=
  if at_ uj_obj_is_sealed g a then MOk g
  else
    let n := mark_fuel g in
    match uj_obj_pmark a (seal_mark n) (seal_unmark n) g with
    | MOk g => match seal_commit n a g with MOk g => MOk (seal_relink g) | r => r end
    | r => r
    end.

(** ** Unsealing *)

Definition unseal_obj (g : gstate) (a : Z) : gstate :=
  match heap g !! a with
  | Some o =>
      if uj_obj_is_sealed o then
        let size := seal_sizeof o in
        let g := upd a seal_clear_mark g in
        let g := set_total (u64 (total g + size)) g in
        set_sealed (u64 (sealed g - size)) g
      else g
  | None => g
  end.
Definition unseal_chain (l : list Z) (g : gstate) : gstate := foldl unseal_obj g l.
Definition unseal_root (g : gstate) : gstate := unseal_chain (root g) g.
Definition unseal_strhash (g : gstate) : gstate :=
  if datastate g =? 0 then foldl (λ g l, unseal_chain l g) g (hash (strhash_sealed g)) else g.
Definition uj_obj_unseal_all (g : gstate) : gstate := unseal_strhash (unseal_root g).

(** ** Control of the collector *)

Context (vm_pcall : TValue → Z → gstate → gstate * Z).

Inductive gcopt :=
  | LUA_GCSTOP | LUA_GCRESTART | LUA_GCCOLLECT | LUA_GCCOUNT | LUA_GCCOUNTB | LUA_GCSTEP | LUA_GCSETPAUSE
  | LUA_GCSETSTEPMUL | LUA_GCother.

(** [while (total >= g->gc.threshold) if (lj_gc_step(L) > 0) { res = 1; break; }] *)
Fixpoint gcstep_loop (m n : nat) (L total : Z) (g : gstate) : gcres :=
  if threshold g <=? total then
    match m with
    | O => RFuel g
    | S m =>
        match lj_gc_step vm_pcall n L g with
        | RDone g r => if 0 <? r then RDone g 1 else gcstep_loop m n L total g
        | r => r
        end
    end
  else RDone g 0.

Definition lua_gc (n : nat) (L : Z) (what : gcopt) (data : Z) (g : gstate) : gcres :=
  match what with
  | LUA_GCSTOP => RDone (set_threshold LJ_MAX_MEM g) 0
  | LUA_GCRESTART =>
      RDone (set_threshold (if data =? -1 then u64 (total g / 100 * pause g) else total g) g) 0
  | LUA_GCCOLLECT => lj_gc_fullgc vm_pcall n L g
  | LUA_GCCOUNT => RDone g (i32 (Z.shiftr (total g) 10))
  | LUA_GCCOUNTB => RDone g (Z.land (total g) 0x3ff)
  | LUA_GCSTEP =>
      let a := u64 (Z.shiftl data 10) in
      let g := set_threshold (if a <=? total g then total g - a else 0) g in
      gcstep_loop n n L (total g) g
  | LUA_GCSETPAUSE => RDone (set_pause (u64 data) g) (i32 (pause g))
  | LUA_GCSETSTEPMUL => RDone (set_stepmul (u64 data) g) (i32 (stepmul g))
  | LUA_GCother => RDone g (-1)
  end.

(** A full cycle, and sealing while the collector is stopped; the object has been looked up.
    An error of a finalizer or of sealing ends it. *)
Inductive sealres := SDone (g : gstate) | SFin (g : gstate) (e : Z) | SErr (e : err_msg) (a : Z) (g : gstate) | SFuel.

Definition luaE_seal (n : nat) (L a : Z) (g : gstate) : sealres :=
  match lua_gc n L LUA_GCCOLLECT 0 g with
  | RDone g _ =>
      match lua_gc n L LUA_GCSTOP 0 g with
      | RDone g _ =>
          match uj_obj_seal a g with
          | MOk g =>
              match lua_gc n L LUA_GCRESTART (-1) g with RDone g _ => SDone g | RErr g e => SFin g e | RFuel _ => SFuel end
          | MErr e x g => SErr e x g
          | MFuel => SFuel
          end
      | RErr g e => SFin g e
      | RFuel _ => SFuel
      end
  | RErr g e => SFin g e
  | RFuel _ => SFuel
  end.

(** Free all remaining GC objects. *)
Definition lj_gc_freeall (g : gstate) : gstate :=
  let g := set_currentwhite LJ_GC_WHITES g in
  let g := uj_obj_unseal_all g in
  let g := gc_fullsweep CRoot g in
  let g := foldl (λ g i, gc_fullsweep (CStr false i) g) g (seq 0 (Z.to_nat (mask (strhash g) + 1))) in
  if datastate g =? 0 then
    let g := set_sweep_sealed true g in
    foldl (λ g i, gc_fullsweep (CStr true i) g) g (seq 0 (Z.to_nat (mask (strhash_sealed g) + 1)))
  else g.

End Strings.

End GcSeal.
