(* ===== verification/GcSealPass.v ===== *)
(** * The passes of sealing and immutability

    [GcSealSpec]: the depth-first search for any traversal and what it reaches.  [GcSealPass]: the
    marking and unmarking passes are such searches.  [GcSealCommit]: committing, and the relinking of the
    list of objects. *)

From stdpp Require Import base decidable list numbers option sets gmap fin_maps.
From Stdlib Require Import ZArith Lia.
From S2P Require Import Prelude Obj Tab TabIter GcObj Gc GcSweep GcApi GcSeal GcInv.

Local Open Scope Z_scope.
Import Obj GcObj Gc GcSweep GcApi GcSeal.

Module GcSealSpec.

(** ** The search *)

Section Dfs.
Context (todo : GCobj → bool) (f : GCobj → GCobj) (next : GCobj → err_msg + list Z).
Context (visit : Z → gstate → gstate).
Hypothesis visit_heap : ∀ a g, heap (visit a g) = alter f a (heap g).
Hypothesis todo_done : ∀ o, todo o = true → todo (f o) = false.
Hypothesis next_same : ∀ o, next (f o) = next o.

Fixpoint dfs (n : nat) (a : Z) (g : gstate) : mres :=
  match n with
  | O => MFuel
  | S n =>
      match heap g !! a with
      | Some o =>
          if todo o then
            match next o with
            | inl e => MErr e a (visit a g)
            | inr l => mark_all (dfs n) l (visit a g)
            end
          else MOk g
      | None => MOk g
      end
  end.

Definition visits (V : list Z) (g : gstate) : gstate := foldl (λ g a, visit a g) g V.
Definition todos (g : gstate) : gset Z := dom (filter (λ p, todo p.2 = true) (heap g)).

(** Reached within [V] from the list [l]. *)
Inductive path (g : gstate) (V l : list Z) : Z → Prop :=
  | path_root x : x ∈ l → x ∈ V → path g V l x
  | path_next y o k x :
      path g V l y → heap g !! y = Some o → next o = inr k → x ∈ k → x ∈ V → path g V l x.

(** Nothing that is left to do is referred to. *)
Definition covered (g : gstate) (V l : list Z) : Prop := ∀ y, y ∈ l → y ∈ V ∨ at_ todo g y = false.

Record entered (g : gstate) (V l : list Z) : Prop := {
  en_nodup : NoDup V;
  en_todo x : x ∈ V → at_ todo g x = true;
  en_path x : x ∈ V → path g V l x }.

Definition outcome (g : gstate) (l : list Z) (r : mres) : Prop :=
  match r with
  | MOk g' => ∃ V, g' = visits V g ∧ entered g V l ∧ covered g V l ∧
      ∀ x o, x ∈ V → heap g !! x = Some o → ∃ k, next o = inr k ∧ covered g V k
  | MErr e x g' => ∃ V o, g' = visits V g ∧ entered g V l ∧ x ∈ V ∧ heap g !! x = Some o ∧ next o = inl e
  | MFuel => False
  end.

Lemma visits_app V1 V2 g : visits (V1 ++ V2) g = visits V2 (visits V1 g).
Proof. unfold visits. by rewrite foldl_app. Qed.

Lemma visits_heap V g x : NoDup V →
  heap (visits V g) !! x = if decide (x ∈ V) then f <$> heap g !! x else heap g !! x.
Proof using visit_heap.
  clear todo_done next_same todo next. revert g. induction V as [|a V IH]; intros g ND; [done|]. apply NoDup_cons in ND as [Ha ND]. simpl. rewrite IH by done.
  rewrite visit_heap. destruct (decide (x = a)) as [->|Hx].
  - rewrite decide_False by done. rewrite decide_True by set_solver. by rewrite lookup_alter_eq.
  - rewrite lookup_alter_ne by done. destruct (decide (x ∈ V)); [rewrite decide_True by set_solver|rewrite decide_False by set_solver]; done.
Qed.

Lemma visits_todo V g x : NoDup V → (∀ y, y ∈ V → at_ todo g y = true) →
  at_ todo (visits V g) x = at_ todo g x && bool_decide (x ∉ V).
Proof.
  intros ND HV. unfold at_ at 1. rewrite visits_heap by done. case_decide as Hx.
  - rewrite bool_decide_false, andb_false_r by (intros ?; done). pose proof (HV x Hx) as Ht. unfold at_ in Ht.
    destruct (heap g !! x) as [o|]; [|done]. simpl. by apply todo_done.
  - rewrite bool_decide_true, andb_true_r by done. done.
Qed.

Lemma visits_next V g x : NoDup V → next <$> heap (visits V g) !! x = next <$> heap g !! x.
Proof.
  intros ND. rewrite visits_heap by done. case_decide; [|done]. destruct (heap g !! x); [|done]. simpl. by rewrite next_same.
Qed.

Lemma path_mono g V V' l l' x : V ⊆ V' → l ⊆ l' → path g V l x → path g V' l' x.
Proof. intros HV Hl. induction 1; [apply path_root|eapply path_next]; eauto. Qed.

Lemma path_visited g V l x : path g V l x → x ∈ V.
Proof. by destruct 1. Qed.

(** A path after [W] was visited is one before. *)
Lemma path_back g W V l x : NoDup W → path (visits W g) V l x → path g V l x.
Proof.
  intros ND. induction 1 as [|y o k x _ IH Ey Hk]; [by apply path_root|].
  pose proof (visits_next W g y ND) as Hn. rewrite Ey in Hn. destruct (heap g !! y) as [oy|] eqn:E; [|done].
  simpl in Hn. injection Hn as Hn. apply (path_next g V l y oy k x); [done|done|by rewrite <-Hn|done|done].
Qed.

Lemma entered_nil g l : entered g [] l.
Proof. split; [constructor|by intros x []%elem_of_nil..]. Qed.

Lemma entered_app g V1 V2 l1 l2 : entered g V1 l1 → entered (visits V1 g) V2 l2 → entered g (V1 ++ V2) (l1 ++ l2).
Proof.
  intros [N1 T1 P1] [N2 T2 P2].
  assert (∀ x, x ∈ V2 → at_ todo g x = true ∧ x ∉ V1) as H2.
  { intros x Hx. specialize (T2 x Hx). rewrite visits_todo in T2 by done. apply andb_true_iff in T2 as [? H%bool_decide_eq_true]. done. }
  split.
  - apply NoDup_app. split_and!; [done| |done]. intros x H1 H3. by apply H2 in H3 as [].
  - intros x [Hx|Hx]%elem_of_app; [by apply T1|by apply H2].
  - intros x [Hx|Hx]%elem_of_app.
    + eapply path_mono; [..|by apply P1]; set_solver.
    + apply (path_mono g V2 (V1 ++ V2) l2 (l1 ++ l2)); [set_solver|set_solver|]. by apply (path_back g V1), P2.
Qed.

Lemma covered_app g V1 V2 l : (∀ y, y ∈ V1 → at_ todo g y = true) → NoDup V1 →
  covered (visits V1 g) V2 l → covered g (V1 ++ V2) l.
Proof.
  intros T N H y Hy. destruct (H y Hy) as [?|Ht]; [left; set_solver|]. rewrite visits_todo in Ht by done.
  apply andb_false_iff in Ht as [?|Hv]; [by right|]. apply bool_decide_eq_false in Hv. left. apply elem_of_app. left.
  by destruct (decide (y ∈ V1)).
Qed.

Lemma covered_mono g V V' l : V ⊆ V' → covered g V l → covered g V' l.
Proof. intros HV H y Hy. destruct (H y Hy); [left; by apply HV|by right]. Qed.

(** One list after another. *)
Lemma outcome_app g l1 l2 g1 r :
  outcome g l1 (MOk g1) → outcome g1 l2 r → outcome g (l1 ++ l2) r.
Proof.
  intros (V1 & -> & E1 & C1 & D1). pose proof (en_nodup _ _ _ E1) as N1. pose proof (en_todo _ _ _ E1) as T1.
  destruct r as [g2|e x g2|]; [| |done]; simpl.
  - intros (V2 & -> & E2 & C2 & D2). exists (V1 ++ V2). split_and!; [by rewrite visits_app|by apply entered_app| |].
    + intros y [Hy|Hy]%elem_of_app; [|by apply (covered_app g V1 V2 l2)].
      by apply (covered_mono g V1 (V1 ++ V2) l1); [set_solver|..].
    + intros x o [Hx|Hx]%elem_of_app E.
      * destruct (D1 x o Hx E) as (k & ? & ?). exists k. split; [done|]. eapply covered_mono; [|done]. set_solver.
      * pose proof (visits_next V1 g x N1) as Hn. rewrite E in Hn. destruct (heap (visits V1 g) !! x) as [o'|] eqn:E'; [|done].
        injection Hn as Hn. destruct (D2 x o' Hx E') as (k & Hk & ?). exists k. split; [by rewrite <-Hn|]. by apply covered_app.
  - intros (V2 & o & -> & E2 & Hx & Eo & Hn). pose proof (visits_next V1 g x N1) as Hs. rewrite Eo in Hs.
    destruct (heap g !! x) as [o'|] eqn:E'; [|done]. injection Hs as Hs. exists (V1 ++ V2), o'.
    split_and!; [by rewrite visits_app|by apply entered_app|set_solver|done|by rewrite <-Hs].
Qed.

Lemma outcome_err g l1 l2 e x g1 : outcome g l1 (MErr e x g1) → outcome g (l1 ++ l2) (MErr e x g1).
Proof.
  intros (V & o & -> & [N T P] & Hx & E & Hn). exists V, o. split_and!; try done. split; [done..|].
  intros y Hy. eapply path_mono; [..|by apply P]; set_solver.
Qed.

Lemma todos_visits V g : NoDup V → (∀ y, y ∈ V → at_ todo g y = true) → todos (visits V g) ⊆ todos g.
Proof.
  intros N T x. unfold todos. rewrite !elem_of_dom. intros [o Ho]. apply map_lookup_filter_Some in Ho as [E Ht]. simpl in Ht.
  assert (at_ todo (visits V g) x = true) as H by (unfold at_; by rewrite E). rewrite visits_todo in H by done.
  apply andb_true_iff in H as [H _]. unfold at_ in H. destruct (heap g !! x) as [o'|] eqn:E'; [|done]. exists o'.
  by apply map_lookup_filter_Some.
Qed.

Lemma todos_visit a g o : heap g !! a = Some o → todo o = true → (size (todos (visit a g)) < size (todos g))%nat.
Proof.
  intros E Ht. apply subset_size. split.
  - apply (todos_visits [a]); [apply NoDup_singleton|]. intros y ->%list_elem_of_singleton. unfold at_. by rewrite E.
  - intros H. assert (a ∈ todos g) as Ha by (apply elem_of_dom; exists o; by apply map_lookup_filter_Some).
    apply H in Ha. unfold todos in Ha. apply elem_of_dom in Ha as [o' Ho']. apply map_lookup_filter_Some in Ho' as [Eo Ht']. rewrite visit_heap, lookup_alter_eq, E in Eo.
    injection Eo as <-. simpl in Ht'. by rewrite todo_done in Ht'.
Qed.

Lemma mark_all_outcome n l g :
  (∀ a g, (size (todos g) < n)%nat → outcome g [a] (dfs n a g)) →
  (size (todos g) < n)%nat → outcome g l (mark_all (dfs n) l g).
Proof.
  intros IH. revert g. induction l as [|a l IHl]; intros g Hn.
  - exists []. split_and!; [done|apply entered_nil|by intros y []%elem_of_nil|by intros x o []%elem_of_nil].
  - simpl. pose proof (IH a g Hn) as H. destruct (dfs n a g) as [g1|e x g1|] eqn:Ed; [|by apply (outcome_err g [a] l)|done].
    apply (outcome_app g [a] l g1); [done|]. destruct H as (V & -> & [N T _] & _). apply IHl.
    eapply Nat.le_lt_trans; [|done]. apply subseteq_size. by apply todos_visits.
Qed.

Lemma dfs_outcome n a g : (size (todos g) < n)%nat → outcome g [a] (dfs n a g).
Proof.
  revert a g. induction n as [|n IH]; intros a g Hn; [lia|]. simpl.
  assert (at_ todo g a = false → outcome g [a] (MOk g)) as Hskip.
  { intros Ht. exists []. split_and!; [done|apply entered_nil| |by intros x o []%elem_of_nil]. intros y ->%list_elem_of_singleton. by right. }
  destruct (heap g !! a) as [o|] eqn:E; [|apply Hskip; unfold at_; by rewrite E].
  destruct (todo o) eqn:Ht; [|apply Hskip; unfold at_; by rewrite E].
  assert (entered g [a] [a]) as Ha.
  { split; [apply NoDup_singleton| |]; intros x ->%list_elem_of_singleton; [unfold at_; by rewrite E|apply path_root; set_solver]. }
  destruct (next o) as [e|k] eqn:Hk.
  - exists [a], o. split_and!; try done. set_solver.
  - pose proof (mark_all_outcome n k (visit a g) IH) as H. specialize (H ltac:(pose proof (todos_visit a g o E Ht); lia)).
    change (visit a g) with (visits [a] g) in *. pose proof (en_nodup _ _ _ Ha) as N. pose proof (en_todo _ _ _ Ha) as T.
    assert (∀ V, entered (visits [a] g) V k → entered g (a :: V) [a]) as Hen.
    { intros V HV. destruct (entered_app g [a] V [a] k Ha HV) as [N' T' P']. split; [done..|]. intros x Hx.
      apply elem_of_cons in Hx as [->|Hx]; [apply path_root; set_solver|].
      destruct HV as [_ _ P]. specialize (P x Hx). apply (path_back g [a]) in P; [|done]. clear Hx.
      induction P as [x Hl Hx|y oy ky x _ IHy Ey Hky Hxk Hx].
      - apply (path_next g (a :: V) [a] a o k x); [apply path_root; left|done|done|done|by right].
      - apply (path_next g (a :: V) [a] y oy ky x); [done..|by right]. }
    destruct (mark_all (dfs n) k (visits [a] g)) as [g'|e x g'|]; [| |done]; unfold outcome in H.
    + destruct H as (V & -> & HV & C & D). exists (a :: V). split_and!; [done|by apply Hen|intros y ->%list_elem_of_singleton; left; set_solver|].
      intros x ox Hx Ex. apply elem_of_cons in Hx as [->|Hx].
      * rewrite E in Ex. injection Ex as <-. exists k. split; [done|]. by apply (covered_app g [a] V k).
      * pose proof (visits_next [a] g x N) as Hs. rewrite Ex in Hs. destruct (heap (visits [a] g) !! x) as [o'|] eqn:E'; [|done].
        injection Hs as Hs. destruct (D x o' Hx E') as (k' & Hk' & ?). exists k'. split; [by rewrite <-Hs|]. by apply (covered_app g [a] V).
    + destruct H as (V & ox & -> & HV & Hx & Ex & Hn'). pose proof (visits_next [a] g x N) as Hs. rewrite Ex in Hs.
      destruct (heap g !! x) as [o'|] eqn:E'; [|done]. injection Hs as Hs. exists (a :: V), o'.
      split_and!; [done|by apply Hen|set_solver|done|by rewrite <-Hs].
Qed.

End Dfs.

End GcSealSpec.

Import Obj GcObj Gc GcSweep GcApi GcInv GcSeal GcSealSpec.

Module GcSealPass.

(** ** Marks *)

Lemma lookup_upd a f g x : heap (upd a f g) !! x = if decide (x = a) then f <$> heap g !! x else heap g !! x.
Proof.
  unfold upd. simpl. case_decide as Hx; [subst; by rewrite lookup_alter_eq|by rewrite lookup_alter_ne].
Qed.

Lemma upd_absent a f g : heap g !! a = None → upd a f g = g.
Proof.
  intros E. unfold upd. replace (alter f a (heap g)) with (heap g); [by destruct g|].
  apply map_eq. intros x. destruct (decide (x = a)) as [->|Hx]; [by rewrite lookup_alter_eq, E|by rewrite lookup_alter_ne].
Qed.

Lemma mark_all_ext F G l g : (∀ a g, F a g = G a g) → mark_all F l g = mark_all G l g.
Proof. intros H. revert g. induction l as [|a l IH]; intros g; [done|]. simpl. rewrite H. by destruct (G a g). Qed.

(** The marks in use are octets. *)
Definition octet (o : GCobj) : Prop := 0 ≤ marked o < 256.

Ltac mbits :=
  unfold lj_obj_has_mark, lj_obj_set_mark, lj_obj_clear_mark, uj_obj_is_immutable, uj_obj_immutable_set_mark, seal_set_mark in *;
  rewrite ?marked_set, ?has_lor, ?has_clr in *.

Lemma mark_set o : lj_obj_has_mark (lj_obj_set_mark o) = true.
Proof. mbits. apply orb_true_r. Qed.
Lemma mark_clear o : lj_obj_has_mark (lj_obj_clear_mark o) = false.
Proof. mbits. apply has_0. Qed.
Lemma imm_set o : uj_obj_is_immutable (lj_obj_set_mark o) = uj_obj_is_immutable o.
Proof. mbits. apply orb_false_r. Qed.
Lemma imm_clear o : uj_obj_is_immutable (lj_obj_clear_mark o) = uj_obj_is_immutable o.
Proof. by mbits. Qed.
Lemma sealed_marked o m : uj_obj_is_sealed (set_marked m o) = match o with OCdata _ _ => false | _ => has m UJ_GCO_SEALED end.
Proof. by destruct o. Qed.
Lemma sealed_set o : uj_obj_is_sealed (lj_obj_set_mark o) = uj_obj_is_sealed o.
Proof. unfold lj_obj_set_mark. rewrite sealed_marked, has_lor. change (has UJ_GCO_TMPMARK UJ_GCO_SEALED) with false. rewrite orb_false_r. by destruct o. Qed.
Lemma sealed_clear o : uj_obj_is_sealed (lj_obj_clear_mark o) = uj_obj_is_sealed o.
Proof. unfold lj_obj_clear_mark. rewrite sealed_marked, has_clr. by destruct o. Qed.

Lemma set_marked_id o : set_marked (marked o) o = o.
Proof. destruct o as [| | | | | | |t|]; try done. by destruct t. Qed.

Lemma clear_set o : octet o → lj_obj_has_mark o = false → lj_obj_clear_mark (lj_obj_set_mark o) = o.
Proof.
  unfold octet, lj_obj_has_mark, lj_obj_clear_mark, lj_obj_set_mark, has, clr. intros Ho H%negb_false_iff%Z.eqb_eq.
  rewrite marked_set, set_marked_2. transitivity (set_marked (marked o) o); [|apply set_marked_id]. f_equal.
  rewrite Z.land_lor_distr_l. change (Z.land UJ_GCO_TMPMARK (u8 (Z.lnot UJ_GCO_TMPMARK))) with 0. rewrite Z.lor_0_r.
  apply Z.bits_inj'. intros n Hn. rewrite Z.land_spec.
  destruct (decide (n < 8)) as [H8|H8].
  - destruct (decide (n = 5)) as [->|H5].
    + assert (Z.testbit (Z.land (marked o) UJ_GCO_TMPMARK) 5 = false) as Hb by by rewrite H.
      rewrite Z.land_spec in Hb. change (Z.testbit UJ_GCO_TMPMARK 5) with true in Hb. rewrite andb_true_r in Hb. by rewrite Hb.
    + replace (Z.testbit (u8 (Z.lnot UJ_GCO_TMPMARK)) n) with true; [by rewrite andb_true_r|].
      assert (n = 0 ∨ n = 1 ∨ n = 2 ∨ n = 3 ∨ n = 4 ∨ n = 6 ∨ n = 7) as Hc by lia. by repeat (destruct Hc as [->|Hc]; [done|]); subst.
  - rewrite Z.bits_above_log2; [done|lia|]. destruct (decide (marked o = 0)) as [->|]; [simpl; lia|].
    apply Z.log2_lt_pow2; [lia|]. pose proof (Z.pow_le_mono_r 2 8 n). lia.
Qed.

(** ** The passes are searches *)

Definition imm_next (o : GCobj) : err_msg + list Z :=
  match o with
  | OTab t => inr (tab_refs t)
  | OProto _ _ | OFunc _ _ | OStr _ _ | OUdata _ _ => inr []
  | _ => inl UJ_ERR_IMMUT_BADTYPE
  end.
Definition seal_next (o : GCobj) : err_msg + list Z :=
  match o with
  | OTab t => inr (tab_refs t)
  | OProto _ pt => inr (chunkname pt :: kgc pt)
  | OFunc _ (FnL _ pt []) => inr [pt]
  | OFunc _ (FnL _ _ _) => inl UJ_ERR_SEAL_FNUPVAL
  | OFunc _ (FnC _ _) => inr []
  | OStr _ _ => inr []
  | _ => inl UJ_ERR_SEAL_BADTYPE
  end.

(** Without errors. *)
Definition quiet (next : GCobj → err_msg + list Z) (o : GCobj) : err_msg + list Z :=
  match next o with inl _ => inr [] | r => r end.

Definition seal_skip (o : GCobj) : bool := uj_obj_is_sealed o || is_str o.

Definition todo_set (skip : GCobj → bool) (o : GCobj) : bool := negb (skip o) && negb (lj_obj_has_mark o).
Definition todo_clear (skip : GCobj → bool) (o : GCobj) : bool := negb (skip o) && lj_obj_has_mark o.

Definition put_mark (a : Z) (g : gstate) : gstate := upd a lj_obj_set_mark g.
Definition drop_mark (a : Z) (g : gstate) : gstate := upd a lj_obj_clear_mark g.

Lemma at_Some P g a o : heap g !! a = Some o → at_ P g a = P o.
Proof. unfold at_. by intros ->. Qed.
Lemma at_None P g a : heap g !! a = None → at_ P g a = false.
Proof. unfold at_. by intros ->. Qed.

Lemma imm_next_marked m o : imm_next (set_marked m o) = imm_next o.
Proof. by destruct o. Qed.
Lemma seal_next_marked m o : seal_next (set_marked m o) = seal_next o.
Proof. by destruct o. Qed.

Lemma imm_traverse b a marker g o : heap g !! a = Some o →
  immutable_traverse b a marker g =
    match (if b then imm_next o else quiet imm_next o) with inl e => MErr e a g | inr l => mark_all marker l g end.
Proof. unfold immutable_traverse. intros ->. by destruct b, o. Qed.

Lemma seal_traverse_eq b a marker g o : heap g !! a = Some o →
  seal_traverse b a marker g =
    match (if b then seal_next o else quiet seal_next o) with inl e => MErr e a g | inr l => mark_all marker l g end.
Proof.
  unfold seal_traverse. intros ->. destruct o as [| | | |m fn| | | |]; try by destruct b.
  destruct fn as [env pt [|]|]; destruct b; try done; simpl; by destruct (marker pt g).
Qed.

Lemma imm_mark_dfs n a g :
  immutable_mark n a g = dfs (todo_set uj_obj_is_immutable) imm_next put_mark n a g.
Proof.
  revert a g. induction n as [|n IH]; intros a g; [done|]. simpl. unfold uj_obj_propagate_set. destruct (heap g !! a) as [o|] eqn:E.
  - rewrite !(at_Some _ _ _ _ E). unfold todo_set. destruct (uj_obj_is_immutable o), (lj_obj_has_mark o); try done. simpl.
    rewrite (imm_traverse _ _ _ _ (lj_obj_set_mark o)) by (rewrite lookup_upd, decide_True, E by done; done).
    unfold lj_obj_set_mark at 1. rewrite imm_next_marked. destruct (imm_next o); [done|]. by apply mark_all_ext.
  - rewrite !(at_None _ _ _ E). rewrite upd_absent by done. unfold immutable_traverse. by rewrite E.
Qed.

Lemma imm_unmark_dfs n a g :
  immutable_unmark n a g = dfs (todo_clear uj_obj_is_immutable) (quiet imm_next) drop_mark n a g.
Proof.
  revert a g. induction n as [|n IH]; intros a g; [done|]. simpl. unfold uj_obj_propagate_clear. destruct (heap g !! a) as [o|] eqn:E.
  - rewrite !(at_Some _ _ _ _ E). unfold todo_clear. destruct (uj_obj_is_immutable o), (lj_obj_has_mark o); try done. simpl.
    rewrite (imm_traverse _ _ _ _ (lj_obj_clear_mark o)) by (rewrite lookup_upd, decide_True, E by done; done).
    unfold lj_obj_clear_mark at 1, quiet. rewrite imm_next_marked. destruct (imm_next o); [done|]. by apply mark_all_ext.
  - by rewrite !(at_None _ _ _ E).
Qed.

Definition make_immutable (o : GCobj) : GCobj := uj_obj_immutable_set_mark (lj_obj_clear_mark o).
Definition commit_immutable (a : Z) (g : gstate) : gstate := upd a uj_obj_immutable_set_mark (upd a lj_obj_clear_mark g).

Lemma make_immutable_next o : imm_next (make_immutable o) = imm_next o.
Proof. unfold make_immutable, uj_obj_immutable_set_mark, lj_obj_clear_mark. by rewrite !imm_next_marked. Qed.

Lemma imm_commit_dfs n a g :
  immutable_commit n a g = dfs (λ o, negb (uj_obj_is_immutable o)) (quiet imm_next) commit_immutable n a g.
Proof.
  revert a g. induction n as [|n IH]; intros a g; [done|]. simpl. destruct (heap g !! a) as [o|] eqn:E.
  - rewrite !(at_Some _ _ _ _ E). destruct (uj_obj_is_immutable o); [done|]. simpl.
    rewrite (imm_traverse _ _ _ _ (make_immutable o)) by (rewrite lookup_upd, decide_True, lookup_upd, decide_True, E by done; done).
    unfold quiet. rewrite make_immutable_next. destruct (imm_next o); [done|]. by apply mark_all_ext.
  - rewrite (at_None _ _ _ E). rewrite (upd_absent a lj_obj_clear_mark) by done. rewrite upd_absent by done.
    unfold immutable_traverse. by rewrite E.
Qed.

Lemma seal_mark_dfs n a g : seal_mark n a g = dfs (todo_set seal_skip) seal_next put_mark n a g.
Proof.
  revert a g. induction n as [|n IH]; intros a g; [done|]. simpl. unfold uj_obj_propagate_set. destruct (heap g !! a) as [o|] eqn:E.
  - rewrite !(at_Some _ _ _ _ E). unfold todo_set, seal_skip. destruct (uj_obj_is_sealed o), (is_str o), (lj_obj_has_mark o); try done. simpl.
    rewrite (seal_traverse_eq _ _ _ _ (lj_obj_set_mark o)) by (rewrite lookup_upd, decide_True, E by done; done).
    unfold lj_obj_set_mark at 1. rewrite seal_next_marked. destruct (seal_next o); [done|]. by apply mark_all_ext.
  - rewrite !(at_None _ _ _ E). rewrite upd_absent by done. unfold seal_traverse. by rewrite E.
Qed.

Lemma seal_unmark_dfs n a g : seal_unmark n a g = dfs (todo_clear seal_skip) (quiet seal_next) drop_mark n a g.
Proof.
  revert a g. induction n as [|n IH]; intros a g; [done|]. simpl. unfold uj_obj_propagate_clear. destruct (heap g !! a) as [o|] eqn:E.
  - rewrite !(at_Some _ _ _ _ E). unfold todo_clear, seal_skip. destruct (uj_obj_is_sealed o), (is_str o), (lj_obj_has_mark o); try done. simpl.
    rewrite (seal_traverse_eq _ _ _ _ (lj_obj_clear_mark o)) by (rewrite lookup_upd, decide_True, E by done; done).
    unfold lj_obj_clear_mark at 1, quiet. rewrite seal_next_marked. destruct (seal_next o); [done|]. by apply mark_all_ext.
  - by rewrite !(at_None _ _ _ E).
Qed.

(** ** Marking in a protected mode *)

Lemma quiet_inl next o e : quiet next o ≠ inl e.
Proof. unfold quiet. by destruct (next o). Qed.
Lemma quiet_inr next o k : next o = inr k → quiet next o = inr k.
Proof. unfold quiet. by intros ->. Qed.

Lemma heap_set_visits (h : Z → GCobj → GCobj) V g :
  visits (λ a, upd a (h a)) V g = set_heap (heap (visits (λ a, upd a (h a)) V g)) g.
Proof.
  revert g. induction V as [|a V IH]; intros g; [by destruct g|]. simpl. rewrite IH at 1. done.
Qed.

Section Pmark.
Context (skip : GCobj → bool) (next : GCobj → err_msg + list Z).
Hypothesis skip_set : ∀ o, skip (lj_obj_set_mark o) = skip o.
Hypothesis skip_clear : ∀ o, skip (lj_obj_clear_mark o) = skip o.
Hypothesis next_marked : ∀ m o, next (set_marked m o) = next o.

(** What can be reached through objects that are not skipped. *)
Inductive deep (g : gstate) (a : Z) : Z → Prop :=
  | deep_root : deep g a a
  | deep_next y o k x :
      deep g a y → heap g !! y = Some o → skip o = false → next o = inr k → x ∈ k → deep g a x.

(** The objects to be changed. *)
Definition target (g : gstate) (a x : Z) : Prop := deep g a x ∧ ∃ o, heap g !! x = Some o ∧ skip o = false.

(** No marks are left from before. *)
Definition unmarked (g : gstate) (a : Z) : Prop :=
  ∀ x o, deep g a x → heap g !! x = Some o → skip o = false → octet o ∧ lj_obj_has_mark o = false.

Lemma todo_set_done o : todo_set skip o = true → todo_set skip (lj_obj_set_mark o) = false.
Proof. intros _. unfold todo_set. by rewrite mark_set, andb_false_r. Qed.
Lemma todo_clear_done o : todo_clear skip o = true → todo_clear skip (lj_obj_clear_mark o) = false.
Proof. intros _. unfold todo_clear. by rewrite mark_clear, andb_false_r. Qed.
Lemma next_set o : next (lj_obj_set_mark o) = next o.
Proof. apply next_marked. Qed.
Lemma quiet_clear o : quiet next (lj_obj_clear_mark o) = quiet next o.
Proof. unfold quiet, lj_obj_clear_mark. by rewrite next_marked. Qed.

Lemma set_outcome n a g : (size (heap g) < n)%nat →
  outcome (todo_set skip) next put_mark g [a] (dfs (todo_set skip) next put_mark n a g).
Proof.
  intros Hn. apply (dfs_outcome _ lj_obj_set_mark _ put_mark (λ _ _, eq_refl) todo_set_done next_set).
  eapply Nat.le_lt_trans; [|done]. rewrite <-(size_dom (D := gset Z) (heap g)). apply subseteq_size, dom_filter_subseteq.
Qed.
Lemma clear_outcome n a g : (size (heap g) < n)%nat →
  outcome (todo_clear skip) (quiet next) drop_mark g [a] (dfs (todo_clear skip) (quiet next) drop_mark n a g).
Proof.
  intros Hn. apply (dfs_outcome _ lj_obj_clear_mark _ drop_mark (λ _ _, eq_refl) todo_clear_done quiet_clear).
  eapply Nat.le_lt_trans; [|done]. rewrite <-(size_dom (D := gset Z) (heap g)). apply subseteq_size, dom_filter_subseteq.
Qed.

Lemma todo_set_skip g x : at_ (todo_set skip) g x = true → ∃ o, heap g !! x = Some o ∧ skip o = false.
Proof.
  unfold at_, todo_set. destruct (heap g !! x) as [o|]; [|done]. intros [H _]%andb_true_iff. exists o. by apply negb_true_iff in H.
Qed.

Lemma entered_deep g V a x : entered (todo_set skip) next g V [a] → x ∈ V → target g a x.
Proof.
  intros [_ T P] Hx. split; [|by apply todo_set_skip, T]. specialize (P x Hx). clear Hx.
  induction P as [x ->%list_elem_of_singleton _|y o k x Py IH Ey Hk Hxk _]; [constructor|].
  destruct (todo_set_skip g y) as (o' & E' & Hs); [eapply T, path_visited; eauto|]. rewrite Ey in E'. injection E' as <-.
  by eapply deep_next.
Qed.

Lemma covered_target g V a x : unmarked g a →
  covered (todo_set skip) g V [a] →
  (∀ x o, x ∈ V → heap g !! x = Some o → ∃ k, next o = inr k ∧ covered (todo_set skip) g V k) →
  target g a x → x ∈ V.
Proof.
  intros F C D [Hd (o & E & Hs)].
  assert (∀ y o, deep g a y → heap g !! y = Some o → skip o = false → at_ (todo_set skip) g y = true) as Ht.
  { intros y oy Hy Ey Hsy. rewrite (at_Some _ _ _ _ Ey). unfold todo_set. rewrite Hsy. destruct (F y oy Hy Ey Hsy) as [_ ->]. done. }
  revert o E Hs. induction Hd as [|y oy k x Hy IH Ey Hsy Hk Hxk]; intros o E Hs.
  - destruct (C a) as [?|Hf]; [set_solver|done|]. rewrite (Ht a o) in Hf; [done|constructor|done|done].
  - destruct (D y oy) as (k' & Hk' & Ck); [by eapply IH|done|]. rewrite Hk in Hk'. injection Hk' as <-.
    destruct (Ck x Hxk) as [?|Hf]; [done|]. rewrite (Ht x o) in Hf; [done|by eapply deep_next|done|done].
Qed.

Lemma put_mark_heap V g x : NoDup V →
  heap (visits put_mark V g) !! x = if decide (x ∈ V) then lj_obj_set_mark <$> heap g !! x else heap g !! x.
Proof. apply (visits_heap lj_obj_set_mark put_mark (λ _ _, eq_refl)). Qed.

Lemma put_dom V g : size (heap (visits put_mark V g)) = size (heap g).
Proof.
  revert g. induction V as [|a V IH]; intros g; [done|]. simpl. rewrite IH. unfold put_mark, upd. simpl. rewrite <-!(size_dom (D := gset Z)). by rewrite dom_alter_L.
Qed.

(** The marks are taken away again. *)
Lemma unmark_spec a g V V' :
  unmarked g a → entered (todo_set skip) next g V [a] →
  let g1 := visits put_mark V g in
  entered (todo_clear skip) (quiet next) g1 V' [a] → covered (todo_clear skip) g1 V' [a] →
  (∀ x o, x ∈ V' → heap g1 !! x = Some o → ∃ k, quiet next o = inr k ∧ covered (todo_clear skip) g1 V' k) →
  visits drop_mark V' g1 = g.
Proof.
  intros F EV g1 EV' C D. pose proof (en_nodup _ _ _ _ _ EV) as N. pose proof (en_nodup _ _ _ _ _ EV') as N'.
  assert (∀ x, x ∈ V → ∃ o, heap g !! x = Some o ∧ skip o = false ∧ octet o ∧ lj_obj_has_mark o = false ∧ heap g1 !! x = Some (lj_obj_set_mark o)) as HV.
  { intros x Hx. destruct (entered_deep g V a x EV Hx) as [Hd (o & E & Hs)]. exists o. destruct (F x o Hd E Hs). split_and!; try done.
    unfold g1. by rewrite put_mark_heap, decide_True, E by done. }
  assert (∀ x, x ∈ V → at_ (todo_clear skip) g1 x = true) as HT.
  { intros x (o & _ & Hs & _ & _ & E1)%HV. rewrite (at_Some _ _ _ _ E1). unfold todo_clear. by rewrite skip_set, Hs, mark_set. }
  assert (V ⊆ V') as H1.
  { intros x Hx. apply (en_path _ _ _ _ _ EV) in Hx. induction Hx as [x Hl Hx|y o k x Hy IH Ey Hk Hxk Hx].
    - destruct (C x Hl) as [?|Hf]; [done|]. by rewrite HT in Hf.
    - destruct (HV y (path_visited _ _ _ _ _ Hy)) as (o' & E' & _ & _ & _ & E1). rewrite Ey in E'. injection E' as <-.
      destruct (D y _ IH E1) as (k' & Hk' & Ck). rewrite (quiet_inr _ _ k) in Hk' by by rewrite next_set. injection Hk' as <-.
      destruct (Ck x Hxk) as [?|Hf]; [done|]. by rewrite HT in Hf. }
  assert (V' ⊆ V) as H2.
  { assert (∀ x o, heap g1 !! x = Some o → ∃ o0, heap g !! x = Some o0 ∧ skip o0 = skip o ∧ next o0 = next o ∧ (x ∈ V ∨ o0 = o)) as Hb.
    { intros x o E. unfold g1 in E. rewrite put_mark_heap in E by done. case_decide.
      - destruct (heap g !! x) as [o0|]; [|done]. injection E as <-. exists o0. by rewrite skip_set, next_set; auto.
      - exists o. auto. }
    assert (∀ x, x ∈ V' → deep g a x) as Hd.
    { intros x Hx. apply (en_path _ _ _ _ _ EV') in Hx. induction Hx as [x ->%list_elem_of_singleton _|y o k x Hy IH Ey Hk Hxk _]; [constructor|].
      destruct (Hb y o Ey) as (o0 & E0 & Hs & Hn & _).
      pose proof (en_todo _ _ _ _ _ EV' y (path_visited _ _ _ _ _ Hy)) as Ht. rewrite (at_Some _ _ _ _ Ey) in Ht.
      unfold todo_clear in Ht. apply andb_true_iff in Ht as [Ht _]. apply negb_true_iff in Ht.
      unfold quiet in Hk. destruct (next o) as [e|k'] eqn:En; injection Hk as <-; [by apply elem_of_nil in Hxk|].
      eapply deep_next; [done|done| | |done]; congruence. }
    intros x Hx. pose proof (en_todo _ _ _ _ _ EV' x Hx) as Ht. unfold at_ in Ht. destruct (heap g1 !! x) as [o|] eqn:E; [|done].
    destruct (Hb x o E) as (o0 & E0 & Hs & _ & [?| ->]); [done|]. unfold todo_clear in Ht. apply andb_true_iff in Ht as [Ht Hm].
    apply negb_true_iff in Ht. destruct (F x o (Hd x Hx) E0 Ht). congruence. }
  assert (heap (visits drop_mark V' g1) = heap g) as Hh.
  { apply map_eq. intros x. rewrite (visits_heap lj_obj_clear_mark drop_mark (λ _ _, eq_refl)) by done. case_decide as Hx.
    - destruct (HV x (H2 x Hx)) as (o & E & _ & Ho & Hm & E1). rewrite E1, E. simpl. by rewrite clear_set.
    - unfold g1. rewrite put_mark_heap, decide_False; [done|set_solver|done]. }
  transitivity (set_heap (heap (visits drop_mark V' g1)) g1); [apply (heap_set_visits (λ _, lj_obj_clear_mark))|].
  rewrite Hh. transitivity (set_heap (heap g) (set_heap (heap g1) g)); [|by destruct g].
  f_equal. apply (heap_set_visits (λ _, lj_obj_set_mark)).
Qed.

Lemma pmark_spec n a g :
  (size (heap g) < n)%nat → unmarked g a →
  match uj_obj_pmark a (dfs (todo_set skip) next put_mark n) (dfs (todo_clear skip) (quiet next) drop_mark n) g with
  | MOk g1 => ∃ V, g1 = visits put_mark V g ∧ NoDup V ∧ (∀ x, x ∈ V ↔ target g a x) ∧
      ∀ x o, target g a x → heap g !! x = Some o → ∃ k, next o = inr k
  | MErr e x g1 => g1 = g ∧ target g a x ∧ ∃ o, heap g !! x = Some o ∧ next o = inl e
  | MFuel => False
  end.
Proof.
  intros Hn F. unfold uj_obj_pmark. pose proof (set_outcome n a g Hn) as H.
  destruct (dfs (todo_set skip) next put_mark n a g) as [g1|e x g1|]; [| |done]; simpl in H.
  - destruct H as (V & -> & EV & C & D). exists V. split_and!; [done|apply EV| |].
    + intros x. split; [by apply entered_deep|by apply covered_target].
    + intros x o Ht E. destruct (D x o) as (k & ? & _); [by apply (covered_target g V a x)|done|]. by exists k.
  - destruct H as (V & o & -> & EV & Hx & E & He). pose proof (clear_outcome n a (visits put_mark V g)) as H.
    rewrite put_dom in H. specialize (H Hn).
    destruct (dfs (todo_clear skip) (quiet next) drop_mark n a (visits put_mark V g)) as [g2|e2 x2 g2|]; [| |done]; simpl in H.
    + destruct H as (V' & -> & EV' & C & D). split_and!; [by eapply unmark_spec|by eapply entered_deep|by exists o].
    + destruct H as (_ & o2 & _ & _ & _ & _ & []%quiet_inl).
Qed.

End Pmark.

End GcSealPass.

Import Obj GcObj Gc GcSweep GcApi GcInv GcSeal GcSealSpec GcSealPass.

Module GcSealCommit.

Section Commit.
Context (skip skipc : GCobj → bool) (next : GCobj → err_msg + list Z).
Hypothesis skip_imp : ∀ o, skip o = false → skipc o = false.
Hypothesis skip_leaf : ∀ o, skip o = true → skipc o = false → next o = inr [].
Hypothesis next_marked : ∀ m o, next (set_marked m o) = next o.
Context (todo : GCobj → bool).

(** The objects to be changed are those that marking has marked, and leaves. *)
Definition ctarget (g : gstate) (a x : Z) : Prop := deep skip next g a x ∧ ∃ o, heap g !! x = Some o ∧ skipc o = false.

Record ready (g g1 : gstate) (a : Z) : Prop := {
  rd_heap x : option_Forall2 (λ o o1, next o1 = next o ∧ (deep skip next g a x → todo o1 = negb (skipc o))) (heap g !! x) (heap g1 !! x);
  rd_next x o : target skip next g a x → heap g !! x = Some o → ∃ k, next o = inr k }.

Lemma commit_entered g g1 a V x :
  ready g g1 a → entered todo (quiet next) g1 V [a] → x ∈ V → ctarget g a x.
Proof.
  intros [RH RN] [_ T P] Hx.
  assert (∀ y, y ∈ V → deep skip next g a y → ∃ o, heap g !! y = Some o ∧ skipc o = false) as Hc.
  { intros y Hy Hd. specialize (T y Hy). unfold at_ in T. destruct (heap g1 !! y) as [o1|] eqn:E1; [|done].
    specialize (RH y). rewrite E1 in RH. inversion RH as [o ? [? Ht] Eo|]; subst. exists o. split; [done|].
    rewrite (Ht Hd) in T. by apply negb_true_iff in T. }
  assert (deep skip next g a x) as Hd; [|by split; [|apply Hc]].
  specialize (P x Hx). clear Hx. induction P as [x ->%list_elem_of_singleton _|y o1 k x Py IH Ey Hk Hxk _]; [constructor|].
  destruct (Hc y (path_visited _ _ _ _ _ Py) IH) as (o & E & Hs). specialize (RH y). rewrite E, Ey in RH.
  inversion RH as [? ? [Hn ?]|]; subst. unfold quiet in Hk. rewrite Hn in Hk. destruct (next o) as [e|k'] eqn:En; injection Hk as <-.
  { by apply elem_of_nil in Hxk. }
  destruct (skip o) eqn:Hsk; [|by eapply deep_next].
  rewrite (skip_leaf o Hsk Hs) in En. injection En as <-. by apply elem_of_nil in Hxk.
Qed.

Lemma commit_covered g g1 a V x :
  ready g g1 a → covered todo g1 V [a] →
  (∀ x o, x ∈ V → heap g1 !! x = Some o → ∃ k, quiet next o = inr k ∧ covered todo g1 V k) →
  ctarget g a x → x ∈ V.
Proof.
  intros [RH RN] C D [Hd (o & E & Hs)].
  assert (∀ y o, deep skip next g a y → heap g !! y = Some o → skipc o = false → at_ todo g1 y = true) as Ht.
  { intros y oy Hy Ey Hsy. specialize (RH y). rewrite Ey in RH. inversion RH as [? o1 [? Ht] E0 E1|]; subst. unfold at_.
    rewrite <-E1. rewrite Ht by done. by rewrite Hsy. }
  revert o E Hs. induction Hd as [|y oy k x Hy IH Ey Hsy Hk Hxk]; intros o E Hs.
  - destruct (C a) as [?|Hf]; [set_solver|done|]. rewrite (Ht a o) in Hf; [done|constructor|done|done].
  - pose proof (RH y) as Ry. rewrite Ey in Ry. inversion Ry as [? o1 [Hn ?] E0 E1|]; subst.
    destruct (D y o1) as (k' & Hk' & Ck); [by eapply IH, skip_imp|done|]. rewrite (quiet_inr _ _ k) in Hk' by congruence.
    injection Hk' as <-. destruct (Ck x Hxk) as [?|Hf]; [done|]. rewrite (Ht x o) in Hf; [done|by eapply deep_next|done|done].
Qed.

End Commit.

(** ** Immutability *)

Lemma commit_immutable_heap a g : heap (commit_immutable a g) = alter make_immutable a (heap g).
Proof. unfold commit_immutable, upd, make_immutable. simpl. by rewrite alter_alter_eq. Qed.

Lemma imm_make o : uj_obj_is_immutable (make_immutable o) = true.
Proof. unfold make_immutable. mbits. apply orb_true_r. Qed.

Lemma imm_commit_outcome n a g : (size (heap g) < n)%nat →
  outcome (λ o, negb (uj_obj_is_immutable o)) (quiet imm_next) commit_immutable g [a] (immutable_commit n a g).
Proof.
  intros Hn. rewrite imm_commit_dfs. apply (dfs_outcome _ make_immutable _ commit_immutable commit_immutable_heap).
  - intros o _. by rewrite imm_make.
  - intros o. unfold quiet. by rewrite make_immutable_next.
  - eapply Nat.le_lt_trans; [|done]. rewrite <-(size_dom (D := gset Z) (heap g)). apply subseteq_size, dom_filter_subseteq.
Qed.

Lemma commit_immutable_state V g : visits commit_immutable V g = set_heap (heap (visits commit_immutable V g)) g.
Proof. revert g. induction V as [|a V IH]; intros g; [by destruct g|]. simpl. rewrite IH at 1. done. Qed.

Lemma imm_ready g a V : NoDup V →
  (∀ x o, target uj_obj_is_immutable imm_next g a x → heap g !! x = Some o → ∃ k, imm_next o = inr k) →
  ready uj_obj_is_immutable uj_obj_is_immutable imm_next (λ o, negb (uj_obj_is_immutable o)) g (visits put_mark V g) a.
Proof.
  intros N HN. split; [|done]. intros x. rewrite put_mark_heap by done. case_decide; destruct (heap g !! x) as [o|]; constructor.
  - unfold lj_obj_set_mark at 1. by rewrite imm_next_marked, imm_set.
  - done.
Qed.

(** ** Sealing *)

Definition is_cd (o : GCobj) : bool := match o with OCdata _ _ => true | _ => false end.
Definition todo_seal (o : GCobj) : bool := negb (uj_obj_is_sealed o) && negb (is_cd o).
Definition seal_obj (o : GCobj) : GCobj := if is_str o then seal_set_mark o else lj_obj_clear_mark (seal_set_mark o).
Definition commit_seal (a : Z) (g : gstate) : gstate :=
  match heap g !! a with
  | Some o =>
      if is_str o then upd a seal_set_mark g
      else
        let g := upd a lj_obj_clear_mark (upd a seal_set_mark g) in
        set_sealed (u64 (sealed g + seal_sizeof o)) (set_total (u64 (total g - seal_sizeof o)) g)
  | None => g
  end.

Lemma commit_seal_heap a g : heap (commit_seal a g) = alter seal_obj a (heap g).
Proof.
  apply map_eq. intros x. unfold commit_seal. destruct (decide (x = a)) as [->|Hx].
  - rewrite lookup_alter_eq. destruct (heap g !! a) as [o|] eqn:E; [|by rewrite E]. unfold seal_obj. simpl.
    destruct (is_str o) eqn:Hs; simpl; rewrite !lookup_alter_eq, E; done.
  - rewrite lookup_alter_ne by done. destruct (heap g !! a) as [o|]; [|done].
    destruct (is_str o); simpl; rewrite !lookup_alter_ne by done; done.
Qed.

Lemma seal_obj_marked o : ∃ m, seal_obj o = set_marked m o ∧ has m UJ_GCO_SEALED = true.
Proof.
  unfold seal_obj, seal_set_mark, lj_obj_clear_mark. destruct (is_str o); eexists; (split; [rewrite ?set_marked_2; done|]).
  - rewrite has_lor. apply orb_true_r.
  - rewrite marked_set, has_clr, has_lor. apply orb_true_r.
Qed.

Lemma seal_obj_done o : todo_seal o = true → todo_seal (seal_obj o) = false.
Proof.
  intros [_ Hc]%andb_true_iff. destruct (seal_obj_marked o) as (m & -> & Hm). unfold todo_seal. rewrite sealed_marked. destruct o; try done; by rewrite Hm.
Qed.
Lemma seal_obj_next o : quiet seal_next (seal_obj o) = quiet seal_next o.
Proof. destruct (seal_obj_marked o) as (m & -> & _). unfold quiet. by rewrite seal_next_marked. Qed.

(** No cdata is met. *)
Definition no_cd (P : Z → Prop) (g : gstate) : Prop :=
  ∀ x o, P x → heap g !! x = Some o →
    is_cd o = false ∧ (uj_obj_is_sealed o = false → ∀ k y, quiet seal_next o = inr k → y ∈ k → P y).

Lemma no_cd_visit P a g : no_cd P g → no_cd P (commit_seal a g).
Proof.
  intros H x o HP E. rewrite commit_seal_heap in E. destruct (decide (x = a)) as [->|]; [|rewrite lookup_alter_ne in E by done; by apply (H x)].
  rewrite lookup_alter_eq in E. destruct (heap g !! a) as [o0|] eqn:E0; [|done]. injection E as <-. destruct (H a o0 HP E0) as [Hc _].
  destruct (seal_obj_marked o0) as (m & -> & Hm). rewrite sealed_marked. by destruct o0; try done; rewrite Hm.
Qed.

Lemma dfs_inv todo next visit (J : gstate → Prop) n a g :
  (∀ a g, J g → J (visit a g)) → J g →
  match dfs todo next visit n a g with MOk g' | MErr _ _ g' => J g' | MFuel => True end.
Proof.
  intros Hv. revert a g. induction n as [|n IH]; intros a g Hg; [done|]. simpl. destruct (heap g !! a) as [o|]; [|done].
  destruct (todo o); [|done]. destruct (next o) as [e|k]; [by apply Hv|]. assert (J (visit a g)) as H by by apply Hv. revert H.
  generalize (visit a g). clear g Hg. induction k as [|y k IHk]; intros g Hg; [done|]. simpl. specialize (IH y g Hg).
  destruct (dfs todo next visit n y g); [by apply IHk|done|done].
Qed.

Lemma seal_commit_dfs P n a g : no_cd P g → P a → seal_commit n a g = dfs todo_seal (quiet seal_next) commit_seal n a g.
Proof.
  revert a g. induction n as [|n IH]; intros a g HN Ha; [done|]. cbn [seal_commit dfs]. destruct (heap g !! a) as [o|] eqn:E; [|done].
  unfold todo_seal. destruct (HN a o Ha E) as [-> Hk]. destruct (uj_obj_is_sealed o); [done|]. specialize (Hk eq_refl). simpl.
  destruct (is_str o) eqn:Hs.
  { destruct o; try done. unfold quiet. simpl. unfold commit_seal. by rewrite E. }
  assert (commit_seal a g = set_sealed (u64 (sealed g + seal_sizeof o)) (set_total (u64 (total g - seal_sizeof o)) (upd a lj_obj_clear_mark (upd a seal_set_mark g)))) as Hc.
  { unfold commit_seal. by rewrite E, Hs. }
  change (seal_traverse false a (seal_commit n) (set_sealed (u64 (sealed g + seal_sizeof o)) (set_total (u64 (total g - seal_sizeof o)) (upd a lj_obj_clear_mark (upd a seal_set_mark g)))) =
    match quiet seal_next o with inl e => MErr e a (commit_seal a g) | inr l => mark_all (dfs todo_seal (quiet seal_next) commit_seal n) l (commit_seal a g) end).
  rewrite <-Hc. assert (no_cd P (commit_seal a g)) as HN' by by apply no_cd_visit.
  rewrite (seal_traverse_eq _ _ _ _ (seal_obj o)) by (rewrite commit_seal_heap, lookup_alter_eq, E; done).
  rewrite seal_obj_next. destruct (quiet seal_next o) as [e|k] eqn:Hq; [done|]. revert HN'. generalize (commit_seal a g). clear E Hc.
  assert (∀ y, y ∈ k → P y) as HP by (intros; by eapply Hk). clear Hk Hq. induction k as [|y k IHk]; intros g' HN'; [done|]. simpl.
  rewrite IH by (try done; apply HP; left). pose proof (dfs_inv todo_seal (quiet seal_next) commit_seal (no_cd P) n y g' (no_cd_visit P) HN') as HD.
  destruct (dfs _ _ _ n y g'); [|done|done]. apply IHk; [intros z Hz; apply HP; by right|done].
Qed.

Lemma seal_skip_set o : seal_skip (lj_obj_set_mark o) = seal_skip o.
Proof. unfold seal_skip. rewrite sealed_set. by destruct o. Qed.
Lemma seal_skip_clear o : seal_skip (lj_obj_clear_mark o) = seal_skip o.
Proof. unfold seal_skip. rewrite sealed_clear. by destruct o. Qed.
Lemma seal_skip_imp o : seal_skip o = false → uj_obj_is_sealed o = false.
Proof. by intros [? _]%orb_false_iff. Qed.
Lemma seal_skip_leaf o : seal_skip o = true → uj_obj_is_sealed o = false → seal_next o = inr [].
Proof. unfold seal_skip. intros [?|H]%orb_true_iff ?; [congruence|]. by destruct o. Qed.

Notation seal_deep := (deep seal_skip seal_next).
Notation seal_target := (target seal_skip seal_next).
Notation seal_unmarked := (unmarked seal_skip seal_next).
(** The objects that get sealed: those that are marked, and strings. *)
Notation seal_ctarget := (ctarget seal_skip uj_obj_is_sealed seal_next).

Lemma deep_cd g a x o :
  (∀ x o, seal_target g a x → heap g !! x = Some o → ∃ k, seal_next o = inr k) →
  seal_deep g a x → heap g !! x = Some o → is_cd o = false.
Proof.
  intros HN Hd E. destruct (is_cd o) eqn:Hc; [|done]. destruct o; try done.
  destruct (HN x _ ltac:(split; [done|by eexists]) E) as (k & Hk). done.
Qed.

Lemma seal_ready g a V : NoDup V →
  (∀ x o, seal_target g a x → heap g !! x = Some o → ∃ k, seal_next o = inr k) →
  ready seal_skip uj_obj_is_sealed seal_next todo_seal g (visits put_mark V g) a.
Proof.
  intros N HN. split; [|done]. intros x. rewrite put_mark_heap by done.
  assert (∀ o, heap g !! x = Some o → seal_deep g a x → todo_seal o = negb (uj_obj_is_sealed o)) as Hc.
  { intros o E Hd. unfold todo_seal. by rewrite (deep_cd g a x o HN Hd E), andb_true_r. }
  case_decide; destruct (heap g !! x) as [o|]; simpl; constructor.
  - split; [apply seal_next_marked|]. intros Hd. rewrite <-(Hc o) by done. unfold todo_seal. rewrite sealed_set. by destruct o.
  - split; [done|by apply Hc].
Qed.

Lemma no_cd_ready g a V : NoDup V →
  (∀ x o, seal_target g a x → heap g !! x = Some o → ∃ k, seal_next o = inr k) →
  no_cd (seal_deep g a) (visits put_mark V g).
Proof.
  intros N HN x o Hd E. rewrite put_mark_heap in E by done.
  assert (∃ o0, heap g !! x = Some o0 ∧ is_cd o = is_cd o0 ∧ uj_obj_is_sealed o = uj_obj_is_sealed o0 ∧ seal_next o = seal_next o0) as (o0 & E0 & -> & -> & Hn).
  { destruct (heap g !! x) as [o0|]; [|by case_decide]. exists o0. case_decide; injection E as <-; [|done].
    split_and!; [done|by destruct o0|apply sealed_set|by unfold lj_obj_set_mark; rewrite seal_next_marked]. }
  split; [by eapply deep_cd|]. intros Hs k y Hk Hy. unfold quiet in Hk. rewrite Hn in Hk.
  destruct (seal_skip o0) eqn:Hsk.
  - rewrite (seal_skip_leaf o0 Hsk Hs) in Hk. injection Hk as <-. by apply elem_of_nil in Hy.
  - destruct (seal_next o0) as [e|k'] eqn:En; injection Hk as <-; [by apply elem_of_nil in Hy|]. by eapply deep_next.
Qed.

Lemma seal_commit_outcome P n a g : (size (heap g) < n)%nat → no_cd P g → P a →
  outcome todo_seal (quiet seal_next) commit_seal g [a] (seal_commit n a g).
Proof.
  intros Hn HP Ha. rewrite (seal_commit_dfs P) by done.
  apply (dfs_outcome _ seal_obj _ commit_seal commit_seal_heap seal_obj_done seal_obj_next).
  eapply Nat.le_lt_trans; [|done]. rewrite <-(size_dom (D := gset Z) (heap g)). apply subseteq_size, dom_filter_subseteq.
Qed.

(** The sizes that are accounted for. *)
Definition size_of (g : gstate) (a : Z) : Z := match heap g !! a with Some o => seal_sizeof o | None => 0 end.
Definition sizes (g : gstate) (V : list Z) : Z := foldr (λ a s, size_of g a + s) 0 V.

Lemma sizeof_marked m o : seal_sizeof (set_marked m o) = seal_sizeof o.
Proof. by destruct o. Qed.

Lemma size_of_commit a g x : size_of (commit_seal a g) x = size_of g x.
Proof.
  unfold size_of. rewrite commit_seal_heap. destruct (decide (x = a)) as [->|]; [|by rewrite lookup_alter_ne].
  rewrite lookup_alter_eq. destruct (heap g !! a) as [o|]; [|done]. simpl. destruct (seal_obj_marked o) as (m & -> & _). apply sizeof_marked.
Qed.

Lemma sizes_commit a g V : sizes (commit_seal a g) V = sizes g V.
Proof. induction V as [|x V IH]; [done|]. simpl. by rewrite IH, size_of_commit. Qed.

Lemma u64_add x y : u64 (u64 x + y) = u64 (x + y).
Proof. unfold u64, wrapu. apply Zplus_mod_idemp_l. Qed.
Lemma u64_twice x : u64 (u64 x) = u64 x.
Proof. unfold u64, wrapu. apply Zmod_mod. Qed.

Lemma commit_total a g :
  u64 (total (commit_seal a g)) = u64 (total g - size_of g a) ∧ u64 (sealed (commit_seal a g)) = u64 (sealed g + size_of g a).
Proof.
  unfold commit_seal, size_of. destruct (heap g !! a) as [o|]; [|by rewrite Z.sub_0_r, Z.add_0_r].
  destruct (is_str o) eqn:Hs; simpl; [|by rewrite !u64_twice]. destruct o; try done. simpl. by rewrite Z.sub_0_r, Z.add_0_r.
Qed.

Lemma commit_totals V g :
  u64 (total (visits commit_seal V g)) = u64 (total g - sizes g V) ∧ u64 (sealed (visits commit_seal V g)) = u64 (sealed g + sizes g V).
Proof.
  revert g. induction V as [|a V IH]; intros g; simpl; [by rewrite Z.sub_0_r, Z.add_0_r|].
  destruct (IH (commit_seal a g)) as [-> ->]. destruct (commit_total a g) as [H1 H2]. rewrite sizes_commit. split.
  - rewrite <-Z.add_opp_r, <-u64_add, H1, u64_add. f_equal. lia.
  - rewrite <-u64_add, H2, u64_add. f_equal. lia.
Qed.

(** All but the heap and the two sums. *)
Definition outer (g : gstate) : gstate := set_heap ∅ (set_total 0 (set_sealed 0 g)).

Lemma commit_outer V g : outer (visits commit_seal V g) = outer g.
Proof.
  revert g. induction V as [|a V IH]; intros g; [done|]. simpl. rewrite IH. unfold commit_seal.
  destruct (heap g !! a) as [o|]; [|done]. by destruct (is_str o).
Qed.

Lemma seal_set_commute o : seal_set_mark (lj_obj_set_mark o) = lj_obj_set_mark (seal_set_mark o).
Proof.
  unfold seal_set_mark, lj_obj_set_mark. rewrite !marked_set, !set_marked_2. f_equal.
  by rewrite <-!Z.lor_assoc, (Z.lor_comm UJ_GCO_SEALED).
Qed.

Lemma seal_marked o : octet o → lj_obj_has_mark o = false → lj_obj_clear_mark (seal_set_mark (lj_obj_set_mark o)) = seal_set_mark o.
Proof.
  intros Ho Hm. rewrite seal_set_commute. apply clear_set.
  - unfold octet, seal_set_mark in *. rewrite marked_set. split; [apply Z.lor_nonneg; split; [lia|done]|].
    destruct (decide (marked o = 0)) as [->|]; [done|]. apply Z.log2_lt_cancel. rewrite Z.log2_lor by (try lia; done).
    assert (Z.log2 (marked o) < 8) by (apply Z.log2_lt_pow2; lia). change (Z.log2 UJ_GCO_SEALED) with 7. change (Z.log2 256) with 8. lia.
  - mbits. by rewrite Hm.
Qed.

(** After marking and committing. *)
Record committed (g : gstate) (V : list Z) (g' : gstate) : Prop := {
  cm_outer : outer g' = outer g;
  cm_total : u64 (total g') = u64 (total g - sizes g V);
  cm_sealed : u64 (sealed g') = u64 (sealed g + sizes g V);
  cm_heap x : heap g' !! x = if decide (x ∈ V) then seal_set_mark <$> heap g !! x else heap g !! x }.

Lemma sizes_put g W V : NoDup W → sizes (visits put_mark W g) V = sizes g V.
Proof.
  intros N. induction V as [|x V IH]; [done|]. simpl. rewrite IH. f_equal. unfold size_of. rewrite put_mark_heap by done.
  case_decide; [|done]. destruct (heap g !! x) as [o|]; [|done]. apply sizeof_marked.
Qed.

Lemma seal_commit_spec n a g W :
  (size (heap g) < n)%nat → seal_unmarked g a → NoDup W → (∀ x, x ∈ W ↔ seal_target g a x) →
  (∀ x o, seal_target g a x → heap g !! x = Some o → ∃ k, seal_next o = inr k) →
  ∃ g' V, seal_commit n a (visits put_mark W g) = MOk g' ∧ NoDup V ∧ (∀ x, x ∈ V ↔ seal_ctarget g a x) ∧ committed g V g'.
Proof.
  intros Hn F N HW HN. pose proof (seal_ready g a W N HN) as R.
  pose proof (seal_commit_outcome (seal_deep g a) n a (visits put_mark W g)) as H. rewrite put_dom in H.
  specialize (H Hn (no_cd_ready g a W N HN) (deep_root _ _ _ _)).
  destruct (seal_commit n a (visits put_mark W g)) as [g'|e x g'|]; [|by destruct H as (_ & o & _ & _ & _ & _ & []%quiet_inl)|done].
  destruct H as (V & -> & E2 & C2 & D2). exists (visits commit_seal V (visits put_mark W g)), V.
  pose proof (en_nodup _ _ _ _ _ E2) as N2.
  assert (∀ x, x ∈ V ↔ seal_ctarget g a x) as HV.
  { intros x. split; intros Hx.
    - eapply (commit_entered seal_skip uj_obj_is_sealed seal_next); [apply seal_skip_leaf|done..].
    - eapply (commit_covered seal_skip uj_obj_is_sealed seal_next); [apply seal_skip_imp|apply seal_skip_leaf|apply seal_next_marked|done..]. }
  assert (visits put_mark W g = set_heap (heap (visits put_mark W g)) g) as Hput by apply (heap_set_visits (λ _, lj_obj_set_mark)).
  split_and!; [done|done|done|]. destruct (commit_totals V (visits put_mark W g)) as [T1 T2]. rewrite sizes_put in T1, T2 by done.
  split.
  - rewrite commit_outer. by rewrite Hput.
  - rewrite T1. by rewrite Hput.
  - rewrite T2. by rewrite Hput.
  - intros x. rewrite (visits_heap seal_obj _ commit_seal_heap) by done. rewrite put_mark_heap by done.
    destruct (decide (x ∈ V)) as [Hx|Hx].
    + apply HV in Hx as [Hd (o & E & Hs)]. rewrite E. unfold seal_obj. destruct (is_str o) eqn:Hstr.
      * rewrite decide_False; [simpl; by rewrite Hstr|]. rewrite HW. intros [_ (o' & E' & Hs')]. rewrite E in E'. injection E' as <-.
        unfold seal_skip in Hs'. by rewrite Hstr, orb_true_r in Hs'.
      * assert (seal_skip o = false) as Hsk by (unfold seal_skip; by rewrite Hs, Hstr). destruct (F x o Hd E Hsk) as [Ho Hm].
        rewrite decide_True by (apply HW; split; [done|by exists o]). simpl.
        replace (is_str (lj_obj_set_mark o)) with false by by destruct o. by rewrite seal_marked.
    + rewrite decide_False; [done|]. rewrite HW. intros [Hd (o & E & Hs)]. apply Hx, HV. split; [done|]. exists o. split; [done|by apply seal_skip_imp].
Qed.

End GcSealCommit.
