(* ===== verification/GcSealTheorems.v ===== *)
(** * Theorems about immutable and sealed object graphs *)

From stdpp Require Import base decidable list numbers option sets gmap fin_maps relations.
From Stdlib Require Import ZArith Lia.
From S2P Require Import Prelude Obj Tab TabIter Str GcObj Gc GcSweep GcApi GcInv GcSeal GcSealPass.

Local Open Scope Z_scope.
Import Obj GcObj Gc GcSweep GcApi GcInv GcSeal GcSealSpec GcSealPass GcSealCommit.

Module GcSealTheorems.

(** ** Immutability *)

Notation imm_deep := (deep uj_obj_is_immutable imm_next).
Notation imm_target := (target uj_obj_is_immutable imm_next).
Notation imm_unmarked := (unmarked uj_obj_is_immutable imm_next).

(** Immutable tables refer to immutable objects only. *)
Definition imm_closed (g : gstate) : Prop :=
  ∀ x t y o, heap g !! x = Some (OTab t) → uj_obj_is_immutable (OTab t) = true → y ∈ tab_refs t →
  heap g !! y = Some o → uj_obj_is_immutable o = true.

Lemma imm_set_mark o : uj_obj_is_immutable (uj_obj_immutable_set_mark o) = true.
Proof. mbits. apply orb_true_r. Qed.

(** Exactly the objects of the list [V] get the mark, nothing else changes. *)
Record made_immutable (g : gstate) (V : list Z) (g' : gstate) : Prop := {
  mi_frame : g' = set_heap (heap g') g;
  mi_heap x : heap g' !! x = if decide (x ∈ V) then uj_obj_immutable_set_mark <$> heap g !! x else heap g !! x }.

Lemma imm_commit_spec n a g V :
  (size (heap g) < n)%nat → imm_unmarked g a → NoDup V → (∀ x, x ∈ V ↔ imm_target g a x) →
  (∀ x o, imm_target g a x → heap g !! x = Some o → ∃ k, imm_next o = inr k) →
  ∃ g', immutable_commit n a (visits put_mark V g) = MOk g' ∧ made_immutable g V g'.
Proof.
  intros Hn F N HV HN. pose proof (imm_ready g a V N HN) as R.
  pose proof (imm_commit_outcome n a (visits put_mark V g)) as H. rewrite put_dom in H. specialize (H Hn).
  destruct (immutable_commit n a (visits put_mark V g)) as [g'|e x g'|]; [|by destruct H as (_ & o & _ & _ & _ & _ & []%quiet_inl)|done].
  destruct H as (V2 & -> & E2 & C2 & D2). eexists. split; [done|]. pose proof (en_nodup _ _ _ _ _ E2) as N2.
  assert (∀ x, x ∈ V2 ↔ x ∈ V) as HV2.
  { intros x. rewrite HV. split; intros Hx.
    - eapply (commit_entered uj_obj_is_immutable uj_obj_is_immutable imm_next); [congruence|done..].
    - eapply (commit_covered uj_obj_is_immutable uj_obj_is_immutable imm_next); [done|congruence|apply imm_next_marked|done..]. }
  split.
  - rewrite commit_immutable_state at 1.
    transitivity (set_heap (heap (visits commit_immutable V2 (visits put_mark V g))) (set_heap (heap (visits put_mark V g)) g)); [|done].
    f_equal. apply (heap_set_visits (λ _, lj_obj_set_mark)).
  - intros x. rewrite (visits_heap make_immutable _ commit_immutable_heap) by done. rewrite put_mark_heap by done.
    destruct (decide (x ∈ V)) as [Hx|Hx]; [rewrite decide_True by by apply HV2|by rewrite decide_False by by rewrite HV2].
    apply HV in Hx as [Hd (o & E & Hs)]. rewrite E. simpl. f_equal. unfold make_immutable. destruct (F x o Hd E Hs). by rewrite clear_set.
Qed.

Lemma made_immutable_closed g a V g' :
  imm_closed g → (∀ x, x ∈ V ↔ imm_target g a x) → made_immutable g V g' → imm_closed g'.
Proof.
  intros HC HV [_ M] x t y o Ex Hx Hy Ey. rewrite M in Ex, Ey.
  assert (∀ o0, heap g !! y = Some o0 → uj_obj_is_immutable o0 = true → uj_obj_is_immutable o = true) as Hold.
  { intros o0 E0 Hi. rewrite E0 in Ey. destruct (decide (y ∈ V)); injection Ey as <-; [apply imm_set_mark|done]. }
  destruct (heap g !! y) as [o0|] eqn:E0; [|by destruct (decide (y ∈ V))].
  destruct (decide (x ∈ V)) as [HxV|HxV]; [|by eapply Hold, HC].
  destruct (uj_obj_is_immutable o0) eqn:Hi; [by eapply Hold|].
  apply HV in HxV as [Hd (ox & E & Hs)]. rewrite E in Ex. injection Ex as Ex.
  assert (y ∈ V) as HyV; [|by rewrite decide_True in Ey; [injection Ey as <-; apply imm_set_mark|]].
  apply HV. split; [|by exists o0]. apply (deep_next _ _ g a x ox (tab_refs t)); [done..| |done].
  transitivity (imm_next (uj_obj_immutable_set_mark ox)); [symmetry; apply imm_next_marked|by rewrite Ex].
Qed.

(** C10: Making an object immutable changes a whole graph or nothing.  If all objects that can be
    reached from it through tables that are not immutable yet have types that can be, these objects
    and no others get the mark of immutability, and immutable tables refer to immutable objects only if
    they did so before.  Otherwise the error names one of the objects with a bad type and the state is
    as it was.  The recursion stays within its fuel. *)
Theorem uj_obj_immutable_correct g a :
  imm_unmarked g a →
  match uj_obj_immutable a g with
  | MOk g' => (∀ x o, imm_target g a x → heap g !! x = Some o → ∃ k, imm_next o = inr k) ∧ (imm_closed g → imm_closed g') ∧
      ∃ V, (∀ x, x ∈ V ↔ imm_target g a x) ∧ made_immutable g V g'
  | MErr e x g' => g' = g ∧ imm_target g a x ∧ ∃ o, heap g !! x = Some o ∧ imm_next o = inl e
  | MFuel => False
  end.
Proof.
  intros F. unfold uj_obj_immutable. destruct (at_ uj_obj_is_immutable g a) eqn:Ha.
  - assert (∀ x, ¬ imm_target g a x) as HT.
    { assert (∀ x, imm_deep g a x → x = a) as Hd.
      { induction 1 as [|y o k x _ -> E Hs]; [done|]. by rewrite (at_Some _ _ _ _ E), Hs in Ha. }
      intros x [->%Hd (o & E & Hs)]. by rewrite (at_Some _ _ _ _ E), Hs in Ha. }
    split_and!; [by intros x o []%HT|done|]. exists []. split; [|split; [by destruct g|done]].
    intros x. split; [by intros []%elem_of_nil|by intros []%HT].
  - pose proof (pmark_spec _ _ imm_set imm_clear imm_next_marked (mark_fuel g) a g) as H.
    specialize (H ltac:(unfold mark_fuel; lia) F). unfold uj_obj_pmark in *.
    rewrite imm_mark_dfs. destruct (dfs (todo_set uj_obj_is_immutable) imm_next put_mark (mark_fuel g) a g) as [g1|e x g1|]; [| |done].
    + destruct H as (V & -> & N & HV & HN).
      destruct (imm_commit_spec (mark_fuel g) a g V) as (g' & -> & M); [unfold mark_fuel; lia|done..|].
      split_and!; [done|by intros HC; eapply made_immutable_closed|by exists V].
    + rewrite imm_unmark_dfs. destruct (dfs (todo_clear _) _ drop_mark _ a g1); done.
Qed.

(** ** Sealing *)





Section Sealing.
Context `{OH : ObjHeap}.










(** ** Sealed objects and the collector *)

Definition same_sealed (g g' : gstate) : Prop :=
  ∀ x o, uj_obj_is_sealed o = true → heap g' !! x = Some o ↔ heap g !! x = Some o.

#[local] Instance same_sealed_preorder : PreOrder same_sealed.
Proof. split; [by intros g x o|intros g1 g2 g3 H1 H2 x o Ho; by rewrite (H2 x o Ho), (H1 x o Ho)]. Qed.















End Sealing.

(** ** A failed call of [luaE_seal] *)

Lemma pmark_threshold skip next n a g :
  match uj_obj_pmark a (dfs (todo_set skip) next put_mark n) (dfs (todo_clear skip) (quiet next) drop_mark n) g with
  | MOk g' | MErr _ _ g' => threshold g' = threshold g
  | MFuel => True
  end.
Proof.
  unfold uj_obj_pmark. pose proof (dfs_inv (todo_set skip) next put_mark (λ g', threshold g' = threshold g) n a g (λ _ _ H, H) eq_refl) as H1.
  destruct (dfs _ next put_mark n a g) as [g1|e x g1|]; try done.
  pose proof (dfs_inv (todo_clear skip) (quiet next) drop_mark (λ g', threshold g' = threshold g) n a g1 (λ _ _ H, H) H1) as H2.
  by destruct (dfs _ _ drop_mark n a g1).
Qed.

Lemma commit_no_error n a g e x g' : seal_commit n a g ≠ MErr e x g'.
Proof.
  revert a g. induction n as [|n IH]; intros a g; cbn [seal_commit]; [done|]. destruct (heap g !! a) as [o|] eqn:E; [|done].
  destruct (uj_obj_is_sealed o); [done|]. destruct (is_str o); [done|].
  set (g1 := set_sealed _ _). destruct (heap g1 !! a) as [o1|] eqn:E1; [|unfold seal_traverse; by rewrite E1].
  rewrite (seal_traverse_eq _ _ _ _ o1 E1). destruct (quiet seal_next o1) as [e1|k] eqn:Hq; [by apply quiet_inl in Hq|]. clear E1 Hq. clearbody g1.
  revert g1. induction k as [|y k IHk]; intros g1; [done|]. simpl. specialize (IH y g1). destruct (seal_commit n y g1); done.
Qed.

(** [luaE_seal] stops the collector, seals, and starts the collector again.  An error of sealing skips
    the last step: the threshold stays at 2 GB, which is how the collector is stopped. *)
Theorem failed_seal_stops_collector `{OH : ObjHeap} vm_pcall n L a g e x g' :
  luaE_seal vm_pcall n L a g = SErr e x g' → threshold g' = LJ_MAX_MEM.
Proof.
  unfold luaE_seal, lua_gc. destruct (lj_gc_fullgc vm_pcall n L g) as [g1 r| |]; try done. set (g2 := set_threshold LJ_MAX_MEM g1).
  assert (threshold g2 = LJ_MAX_MEM) as Hg by done. clearbody g2. unfold uj_obj_seal. destruct (at_ uj_obj_is_sealed g2 a); [done|].
  pose proof (pmark_threshold seal_skip seal_next (mark_fuel g2) a g2) as H. unfold uj_obj_pmark in *. rewrite seal_mark_dfs.
  destruct (dfs (todo_set seal_skip) seal_next put_mark (mark_fuel g2) a g2) as [g3|e3 x3 g3|]; [| |done].
  - destruct (seal_commit (mark_fuel g2) a g3) as [g4|e4 x4 g4|] eqn:Ec; try done. by apply commit_no_error in Ec.
  - rewrite seal_unmark_dfs. destruct (dfs (todo_clear seal_skip) _ drop_mark _ a g3); try done; intros [= <- <- <-]; congruence.
Qed.

(** ** A heap *)

#[local] Instance seal_hash : ObjHeap := MkHeap (λ a, a) (λ _, 0).

Definition tab_of (arr : list TValue) : GCobj := OTab (Tab.MkTab 1 0 0 None arr [Tab.empty_node] 0 0).
Definition seal_heap : list (Z * GCobj) := [
  (1000, OThread 33 (MkTh (SF 1000 (FTSZ 0) :: SV (TGCV GT_TAB 5000) :: replicate 44 (SV TNil)) 1 2 40 [] 2000));
  (2000, tab_of []);
  (3000, tab_of []);
  (4000, tab_of [TGCV GT_TAB 5000; TGCV GT_THREAD 1000]);
  (5000, tab_of [TGCV GT_STR 7300; TGCV GT_FUNC 7000; TGCV GT_TAB 5100]);
  (5100, tab_of [TGCV GT_TAB 5000]);
  (6000, tab_of []);
  (7000, OFunc 65 (FnL 6000 7100 []));
  (7100, OProto 65 (MkPt 7300 [] 0 2 100));
  (7300, OStr 65 [97]);
  (9000, OStr 65 [])].

(** The table 5000 refers to a function whose environment is the table 6000. *)
Definition seal_demo : gstate :=
  MkG (list_to_map seal_heap) 0 1000000 33 GCSpause 0 [0; 0; 0; 0; 0; 0] 0
    [7100; 7000; 6000; 5100; 5000; 4000; 3000; 2000; 1000] SwRoot [] [] [] [] 200 0 0 200 6 0 100000
    (MkST [[7300]] 0 1) (MkST [[]] 0 0) false 9000 1000 (TGCV GT_TAB 3000) [0; 0] [] 0 0 0 [] 0 (MkTrace 0 [] 0 0 0 0 0 0 0).

Lemma seal_lookup a o : heap seal_demo !! a = Some o → (a, o) ∈ seal_heap.
Proof. apply elem_of_list_to_map_2. Qed.

(** Neither the main thread nor the table 4000 can be reached from 5000. *)
Definition outside (x : Z) : bool := (x =? 1000) || (x =? 4000).
Definition refs_inside (next : GCobj → err_msg + list Z) (p : Z * GCobj) : bool :=
  outside p.1 || match next p.2 with inr k => forallb (λ y, negb (outside y)) k | inl _ => true end.
Definition clean (p : Z * GCobj) : bool :=
  outside p.1 || ((0 <=? marked p.2) && (marked p.2 <? 256) && negb (lj_obj_has_mark p.2)).

Lemma demo_unmarked skip next : forallb (refs_inside next) seal_heap = true → unmarked skip next seal_demo 5000.
Proof.
  intros Hr. assert (forallb clean seal_heap = true) as Hc by (vm_compute; reflexivity).
  assert (∀ x, deep skip next seal_demo 5000 x → outside x = false) as Hd.
  { induction 1 as [|y o k x _ IH E _ Hk Hx]; [done|]. apply seal_lookup, list_elem_of_In, (proj1 (forallb_forall _ _) Hr) in E.
    unfold refs_inside in E. cbn [fst snd] in E. rewrite IH, Hk in E. apply negb_true_iff, (proj1 (forallb_forall _ _) E). by apply list_elem_of_In. }
  intros x o Hx%Hd E _. apply seal_lookup, list_elem_of_In, (proj1 (forallb_forall _ _) Hc) in E. unfold clean in E. cbn [fst snd] in E.
  rewrite Hx in E. apply andb_true_iff in E as [[? ?]%andb_true_iff ?%negb_true_iff]. unfold octet. split; [lia|done].
Qed.

Lemma uj_obj_immutable_correct_witness :
  match uj_obj_immutable 5000 seal_demo with
  | MOk g' => (∀ x o, imm_target seal_demo 5000 x → heap seal_demo !! x = Some o → ∃ k, imm_next o = inr k) ∧
      (imm_closed seal_demo → imm_closed g') ∧
      ∃ V, (∀ x, x ∈ V ↔ imm_target seal_demo 5000 x) ∧ made_immutable seal_demo V g'
  | MErr e x g' => g' = seal_demo ∧ imm_target seal_demo 5000 x ∧ ∃ o, heap seal_demo !! x = Some o ∧ imm_next o = inl e
  | MFuel => False
  end.
Proof. apply (uj_obj_immutable_correct seal_demo 5000). apply demo_unmarked. vm_compute; reflexivity. Defined.



Definition seal_done : gstate := match uj_obj_seal 5000 seal_demo with MOk g => g | _ => seal_demo end.







(** ** Where sealing and immutability do not do what they mean to *)

(** The environment of a sealed function is not sealed, and the collector does not mark it either: the
    next cycle frees the environment 6000 of the sealed function 7000. *)
Theorem sealed_function_loses_environment :
  let g := gc_fullsweep CRoot (atomic 1000 (gc_mark_start seal_done)) in
  heap g !! 7000 = Some (OFunc 193 (FnL 6000 7100 [])) ∧ is_Some (heap seal_done !! 6000) ∧ heap g !! 6000 = None.
Proof. cbv zeta. split; [vm_compute; reflexivity|]. split; [vm_compute; by eexists|vm_compute; reflexivity]. Qed.

(** The mark of the passes is the mark of fixed objects: the main thread, which is fixed, looks visited.  A
    table that refers to it is made immutable without the error for threads, and the thread is no longer fixed. *)
Theorem immutable_main_thread :
  match uj_obj_immutable 4000 seal_demo with
  | MOk g => at_ (λ o, has (marked o) LJ_GC_FIXED) seal_demo 1000 = true ∧ at_ (λ o, has (marked o) LJ_GC_FIXED) g 1000 = false ∧
      at_ uj_obj_is_immutable g 1000 = true
  | _ => False
  end.
Proof. vm_compute. split_and!; reflexivity. Qed.

End GcSealTheorems.
