(* ===== verification/StrPat.v ===== *)
(** * Pattern matching (lib/string.c, utils/lj_char.c)

    The backtracking matcher behind string.find, string.match, string.gmatch and string.gsub.

    - A pointer into the pattern is the list of octets from there on, the terminating zero included;
      pointers into one pattern are compared by these lengths.  Reading or stepping behind the
      terminator is [Undef].
    - A pointer into the source is an offset; reading behind its terminator is [Undef].
    - [MatchState] is mutated: every function returns it with its result, also when it fails, because
      the code undoes captures by hand.  Errors leave the matcher: they are [Err].
    - The gotos to [init] and the recursive calls all step forward in the pattern, so the length of
      the pattern is fuel. *)

From Stdlib Require Import ZArith Ascii String.
From stdpp Require Import base list numbers.
From S2P Require Import Prelude Cstr.

Local Open Scope Z_scope.

(** ** Character classes *)

Module Char.

Definition LJ_CHAR_CNTRL : Z := 0x01.
Definition LJ_CHAR_SPACE : Z := 0x02.
Definition LJ_CHAR_PUNCT : Z := 0x04.
Definition LJ_CHAR_DIGIT : Z := 0x08.
Definition LJ_CHAR_XDIGIT : Z := 0x10.
Definition LJ_CHAR_UPPER : Z := 0x20.
Definition LJ_CHAR_LOWER : Z := 0x40.
Definition LJ_CHAR_IDENT : Z := 0x80.
Definition LJ_CHAR_ALPHA : Z := Z.lor LJ_CHAR_LOWER LJ_CHAR_UPPER.
Definition LJ_CHAR_ALNUM : Z := Z.lor LJ_CHAR_ALPHA LJ_CHAR_DIGIT.
Definition LJ_CHAR_GRAPH : Z := Z.lor LJ_CHAR_ALNUM LJ_CHAR_PUNCT.

Definition lj_char_bits : list Z := [
    0;
    1;  1;  1;  1;  1;  1;  1;  1;  1;  3;  3;  3;  3;  3;  1;  1;
    1;  1;  1;  1;  1;  1;  1;  1;  1;  1;  1;  1;  1;  1;  1;  1;
    2;  4;  4;  4;  4;  4;  4;  4;  4;  4;  4;  4;  4;  4;  4;  4;
  152;152;152;152;152;152;152;152;152;152;  4;  4;  4;  4;  4;  4;
    4;176;176;176;176;176;176;160;160;160;160;160;160;160;160;160;
  160;160;160;160;160;160;160;160;160;160;160;  4;  4;  4;  4;132;
    4;208;208;208;208;208;208;192;192;192;192;192;192;192;192;192;
  192;192;192;192;192;192;192;192;192;192;192;  4;  4;  4;  4;  1;
  128;128;128;128;128;128;128;128;128;128;128;128;128;128;128;128;
  128;128;128;128;128;128;128;128;128;128;128;128;128;128;128;128;
  128;128;128;128;128;128;128;128;128;128;128;128;128;128;128;128;
  128;128;128;128;128;128;128;128;128;128;128;128;128;128;128;128;
  128;128;128;128;128;128;128;128;128;128;128;128;128;128;128;128;
  128;128;128;128;128;128;128;128;128;128;128;128;128;128;128;128;
  128;128;128;128;128;128;128;128;128;128;128;128;128;128;128;128;
  128;128;128;128;128;128;128;128;128;128;128;128;128;128;128;128 ].

(** The callers pass octets, so that the index is inside of the table. *)
Definition lj_char_isa (c t : Z) : bool :=
  negb (Z.land (nth (Z.to_nat (c + 1)) lj_char_bits 0) t =? 0).
Definition lj_char_isdigit (c : Z) : bool := lj_char_isa c LJ_CHAR_DIGIT.
Definition lj_char_ispunct (c : Z) : bool := lj_char_isa c LJ_CHAR_PUNCT.

End Char.

(** ** The matcher *)

Module StrPat.
Import Char.

(** The messages of uj_err.h that the matcher raises. *)
Inductive errmsg :=
  | STRCAPI   (* invalid capture index *)
  | STRPATC   (* invalid pattern capture *)
  | STRPATE   (* malformed pattern (ends with '%') *)
  | STRPATM   (* malformed pattern (missing ']') *)
  | STRPATU   (* unbalanced pattern *)
  | STRPATB   (* missing '[' after '%f' *)
  | STRCAPN   (* too many captures *)
  | STRPATX   (* pattern too complex *)
  | STRCAPU   (* unfinished capture *)
  | STRGSRV   (* invalid replacement value *)
  | NOSFT     (* string, function or table expected *)
  | ERRUSER.  (* raised by a called Lua function *)
#[global] Instance errmsg_eq_dec : EqDecision errmsg.
Proof. solve_decision. Defined.

Inductive res (A : Type) := Ok (a : A) | Err (e : errmsg) | Undef.
Arguments Ok {A} _.
Arguments Err {A} _.
Arguments Undef {A}.
Definition rbind {A B} (r : res A) (f : A → res B) : res B :=
  match r with Ok a => f a | Err e => Err e | Undef => Undef end.
Declare Scope res_scope.
Notation "x ← y ; z" := (rbind y (λ x, z))
  (at level 20, y at level 100, z at level 200, only parsing) : res_scope.
Notation "' x ← y ; z" := (rbind y (λ x, z))
  (at level 20, x pattern, y at level 100, z at level 200, only parsing) : res_scope.
#[local] Open Scope res_scope.

(** ** Pointers into the pattern *)

Abbreviation ptr := (list Z).
Definition rd (p : ptr) : res Z := match p with c :: _ => Ok c | [] => Undef end.
Definition inc (p : ptr) : res ptr := match p with _ :: r => Ok r | [] => Undef end.
(** [p < q] for pointers into one pattern. *)
Definition ptr_lt (p q : ptr) : bool := (length q <? length p)%nat.

(** Characters of the syntax. *)
Notation L_ESC := 37 (only parsing).
Notation cOpen := 40 (only parsing).
Notation cClose := 41 (only parsing).
Notation cStar := 42 (only parsing).
Notation cPlus := 43 (only parsing).
Notation cMinus := 45 (only parsing).
Notation cDot := 46 (only parsing).
Notation cQuest := 63 (only parsing).
Notation cLBr := 91 (only parsing).
Notation cRBr := 93 (only parsing).
Notation cCaret := 94 (only parsing).
Notation cDollar := 36 (only parsing).

Definition CAP_UNFINISHED : Z := -1.
Definition CAP_POSITION : Z := -2.
Definition LUA_MAXCAPTURES : nat := 32.
Definition LJ_MAX_XLEVEL : Z := 200.

Record MatchState := mkMS {
  src : list Z;                 (* from [src_init] to [src_end] *)
  level : nat;
  depth : Z;
  capture : list (nat * Z)      (* [init] as an offset, [len] *)
}.
Definition with_level (l : nat) (ms : MatchState) : MatchState :=
  mkMS (src ms) l (depth ms) (capture ms).
Definition with_depth (d : Z) (ms : MatchState) : MatchState :=
  mkMS (src ms) (level ms) d (capture ms).
Definition with_capture (k : list (nat * Z)) (ms : MatchState) : MatchState :=
  mkMS (src ms) (level ms) (depth ms) k.

Definition src_end (ms : MatchState) : nat := length (src ms).
(** [*s], the terminator included. *)
Definition rds (ms : MatchState) (s : nat) : res Z :=
  match (src ms ++ [0]) !! s with Some c => Ok c | None => Undef end.
Definition cap (ms : MatchState) (l : nat) : res (nat * Z) :=
  match capture ms !! l with Some x => Ok x | None => Undef end.

Definition check_capture (ms : MatchState) (l : Z) : res nat :=
  let l := l - 49 in
  if (l <? 0) || (Z.of_nat (level ms) <=? l) then Err STRCAPI
  else '(_, len) ← cap ms (Z.to_nat l);
       if len =? CAP_UNFINISHED then Err STRCAPI else Ok (Z.to_nat l).

(** The loop, with [level] captures left to look at. *)
Fixpoint capture_to_close_loop (ms : MatchState) (level : nat) : res nat :=
  match level with
  | O => Err STRPATC
  | S level =>
      '(_, len) ← cap ms level;
      if len =? CAP_UNFINISHED then Ok level else capture_to_close_loop ms level
  end.
Definition capture_to_close (ms : MatchState) : res nat := capture_to_close_loop ms (level ms).

(** The do loop of [classend], which looks for the closing bracket. *)
Fixpoint classend_loop (fuel : nat) (p : ptr) : res ptr :=
  match fuel with
  | O => Undef
  | S fuel =>
      c ← rd p;
      if c =? 0 then Err STRPATM
      else
        p ← inc p;
        d ← rd p;
        p ← (if (c =? L_ESC) && negb (d =? 0) then inc p else Ok p);
        e ← rd p;
        if e =? cRBr then inc p else classend_loop fuel p
  end.

Definition classend (p : ptr) : res ptr :=
  c ← rd p;
  p ← inc p;
  if c =? L_ESC then
    d ← rd p;
    if d =? 0 then Err STRPATE else inc p
  else if c =? cLBr then
    d ← rd p;
    p ← (if d =? cCaret then inc p else Ok p);
    classend_loop (length p) p
  else Ok p.

Definition match_class_map : list Z := [
  0;LJ_CHAR_ALPHA;0;LJ_CHAR_CNTRL;LJ_CHAR_DIGIT;0;0;LJ_CHAR_GRAPH;0;0;0;0;
  LJ_CHAR_LOWER;0;0;0;LJ_CHAR_PUNCT;0;0;LJ_CHAR_SPACE;0;
  LJ_CHAR_UPPER;0;LJ_CHAR_ALNUM;LJ_CHAR_XDIGIT;0;0;0;0;0;0;0 ].

Definition match_class (c cl : Z) : bool :=
  if Z.land cl 0xc0 =? 0x40 then
    let t := nth (Z.to_nat (Z.land cl 0x1f)) match_class_map 0 in
    if negb (t =? 0) then
      let t := lj_char_isa c t in
      if negb (Z.land cl 0x20 =? 0) then t else negb t
    else if cl =? 122 then c =? 0
    else if cl =? 90 then negb (c =? 0)
    else cl =? c
  else cl =? c.

(** The loop of [matchbracketclass], from before the increment. *)
Fixpoint bracket_loop (fuel : nat) (c : Z) (sig : bool) (p ec : ptr) : res bool :=
  match fuel with
  | O => Undef
  | S fuel =>
      p ← inc p;
      if negb (ptr_lt p ec) then Ok (negb sig)
      else
        x ← rd p;
        q ← inc p;
        if x =? L_ESC then
          y ← rd q;
          if match_class c y then Ok sig else bracket_loop fuel c sig q ec
        else
          y ← rd q;
          if y =? cMinus then
            r ← inc q;
            if ptr_lt r ec then
              z ← rd r;
              if (x <=? c) && (c <=? z) then Ok sig else bracket_loop fuel c sig r ec
            else if x =? c then Ok sig else bracket_loop fuel c sig p ec
          else if x =? c then Ok sig else bracket_loop fuel c sig p ec
  end.

Definition matchbracketclass (c : Z) (p ec : ptr) : res bool :=
  q ← inc p;
  x ← rd q;
  if x =? cCaret then bracket_loop (length q) c false q ec
  else bracket_loop (length p) c true p ec.

(** [ep - 1] for a pointer [ep] behind [p]. *)
Definition dec_ptr (p ep : ptr) : ptr := drop (length p - S (length ep)) p.

Definition singlematch (c : Z) (p ep : ptr) : res bool :=
  x ← rd p;
  if x =? cDot then Ok true
  else if x =? L_ESC then q ← inc p; y ← rd q; Ok (match_class c y)
  else if x =? cLBr then matchbracketclass c p (dec_ptr p ep)
  else Ok (x =? c).

(** The loop of [matchbalance] from before the increment of [s]; [n] octets are left. *)
Fixpoint balance_loop (n : nat) (ms : MatchState) (s : nat) (b e : Z) (cont : Z) : res (option nat) :=
  match n with
  | O => Ok None
  | S n =>
      let s := S s in
      if negb (s <? src_end ms)%nat then Ok None
      else
        c ← rds ms s;
        if c =? e then
          if cont - 1 =? 0 then Ok (Some (S s)) else balance_loop n ms s b e (cont - 1)
        else balance_loop n ms s b e (if c =? b then cont + 1 else cont)
  end.

Definition matchbalance (ms : MatchState) (s : nat) (p : ptr) : res (option nat) :=
  b ← rd p;
  if b =? 0 then Err STRPATU
  else
    q ← inc p;
    e ← rd q;
    if e =? 0 then Err STRPATU
    else
      c ← rds ms s;
      if negb (c =? b) then Ok None
      else balance_loop (S (src_end ms - s)) ms s b e 1.

(** ** The functions that call [match]

    [rec] is the recursive call. *)

Abbreviation mres := (res (option nat * MatchState)).

Fixpoint expand_count (n : nat) (ms : MatchState) (s i : nat) (p ep : ptr) : res nat :=
  match n with
  | O => Ok i
  | S n =>
      c ← rds ms (s + i);
      m ← singlematch c p ep;
      if m then expand_count n ms s (S i) p ep else Ok i
  end.

Section Rec.
Variable rec : MatchState → nat → ptr → mres.

Fixpoint max_try (i : nat) (ms : MatchState) (s : nat) (q : ptr) : mres :=
  '(r, ms) ← rec ms (s + i) q;
  match r, i with
  | Some e, _ => Ok (Some e, ms)
  | None, O => Ok (None, ms)
  | None, S i => max_try i ms s q
  end.

Definition max_expand (ms : MatchState) (s : nat) (p ep : ptr) : mres :=
  i ← expand_count (src_end ms - s) ms s 0 p ep;
  q ← inc ep;
  max_try i ms s q.

(** The loop; [n] octets are left of the source. *)
Fixpoint min_loop (n : nat) (ms : MatchState) (s : nat) (p ep q : ptr) : mres :=
  '(r, ms) ← rec ms s q;
  match r, n with
  | Some e, _ => Ok (Some e, ms)
  | None, O => Ok (None, ms)
  | None, S n =>
      c ← rds ms s;
      m ← singlematch c p ep;
      if m then min_loop n ms (S s) p ep q else Ok (None, ms)
  end.
Definition min_expand (ms : MatchState) (s : nat) (p ep : ptr) : mres :=
  q ← inc ep;
  min_loop (src_end ms - s) ms s p ep q.

Definition start_capture (ms : MatchState) (s : nat) (p : ptr) (what : Z) : mres :=
  let l := level ms in
  if (LUA_MAXCAPTURES <=? l)%nat then Err STRCAPN
  else
    let ms := with_level (S l) (with_capture (<[l := (s, what)]> (capture ms)) ms) in
    '(r, ms) ← rec ms s p;
    match r with
    | None => Ok (None, with_level (level ms - 1) ms)
    | Some e => Ok (Some e, ms)
    end.

Definition set_len (ms : MatchState) (l : nat) (len : Z) : MatchState :=
  with_capture (alter (λ x, (x.1, len)) l (capture ms)) ms.

Definition end_capture (ms : MatchState) (s : nat) (p : ptr) : mres :=
  l ← capture_to_close ms;
  '(init, _) ← cap ms l;
  '(r, ms) ← rec (set_len ms l (Z.of_nat s - Z.of_nat init)) s p;
  match r with
  | None => Ok (None, set_len ms l CAP_UNFINISHED)
  | Some e => Ok (Some e, ms)
  end.

End Rec.

(** [memcmp] of two parts of the source is equality of the octets read. *)
Definition memcmp_eq (ms : MatchState) (a b len : nat) : res bool :=
  if (src_end ms <? a + len)%nat || (src_end ms <? b + len)%nat then Undef
  else Ok (bool_decide (take len (drop a (src ms)) = take len (drop b (src ms)))).

Definition match_capture (ms : MatchState) (s : nat) (l : Z) : res (option nat) :=
  l ← check_capture ms l;
  '(init, len) ← cap ms l;
  let len := u64 len in
  if len <=? u64 (Z.of_nat (src_end ms) - Z.of_nat s) then
    b ← memcmp_eq ms init s (Z.to_nat len);
    Ok (if b : bool then Some (s + Z.to_nat len)%nat else None)
  else Ok None.

(** [match] from the entry to the exit, around the code from [init] on. *)
Definition match_enter (init : MatchState → nat → ptr → mres) (ms : MatchState) (s : nat) (p : ptr) :
    mres :=
  if LJ_MAX_XLEVEL <? depth ms + 1 then Err STRPATX
  else
    '(r, ms) ← init (with_depth (depth ms + 1) ms) s p;
    Ok (r, with_depth (depth ms - 1) ms).

(** A pattern item: the code at [dflt]. *)
Definition match_default (init : MatchState → nat → ptr → mres) (ms : MatchState) (s : nat) (p : ptr) :
    mres :=
  ep ← classend p;
  m ← (if (s <? src_end ms)%nat then c ← rds ms s; singlematch c p ep else Ok false);
  e ← rd ep;
  if e =? cQuest then
    q ← inc ep;
    '(r, ms) ← (if m : bool then match_enter init ms (S s) q else Ok (None, ms));
    match r with
    | Some e => Ok (Some e, ms)
    | None => init ms s q
    end
  else if e =? cStar then max_expand (match_enter init) ms s p ep
  else if e =? cPlus then
    if m : bool then max_expand (match_enter init) ms (S s) p ep else Ok (None, ms)
  else if e =? cMinus then min_expand (match_enter init) ms s p ep
  else if m : bool then init ms (S s) ep else Ok (None, ms).

(** The frontier; [p] is behind the [%f]. *)
Definition match_frontier (init : MatchState → nat → ptr → mres) (ms : MatchState) (s : nat) (p : ptr) :
    mres :=
  c ← rd p;
  if negb (c =? cLBr) then Err STRPATB
  else
    ep ← classend p;
    previous ← (if (s =? 0)%nat then Ok 0 else rds ms (s - 1));
    b ← matchbracketclass previous p (dec_ptr p ep);
    if b : bool then Ok (None, ms)
    else
      c ← rds ms s;
      b ← matchbracketclass c p (dec_ptr p ep);
      if negb b then Ok (None, ms) else init ms s ep.

(** The code from [init] on: the switch over [*p]. *)
Fixpoint match_init (fuel : nat) (ms : MatchState) (s : nat) (p : ptr) : mres :=
  match fuel with
  | O => Undef
  | S fuel =>
      let init := match_init fuel in
      c ← rd p;
      if c =? cOpen then
        q ← inc p;
        d ← rd q;
        if d =? cClose then
          q ← inc q;
          start_capture (match_enter init) ms s q CAP_POSITION
        else start_capture (match_enter init) ms s q CAP_UNFINISHED
      else if c =? cClose then
        q ← inc p;
        end_capture (match_enter init) ms s q
      else if c =? L_ESC then
        q ← inc p;
        d ← rd q;
        if d =? 98 then
          q ← inc q;
          r ← matchbalance ms s q;
          match r with
          | None => Ok (None, ms)
          | Some s => q ← inc q; q ← inc q; init ms s q
          end
        else if d =? 102 then
          q ← inc q;
          match_frontier init ms s q
        else if lj_char_isdigit d then
          r ← match_capture ms s d;
          match r with
          | None => Ok (None, ms)
          | Some s => q ← inc q; init ms s q
          end
        else match_default init ms s p
      else if c =? 0 then Ok (Some s, ms)
      else if c =? cDollar then
        q ← inc p;
        d ← rd q;
        if negb (d =? 0) then match_default init ms s p
        else Ok (if (s =? src_end ms)%nat then Some s else None, ms)
      else match_default init ms s p
  end.

Definition match_ (ms : MatchState) (s : nat) (p : ptr) : mres :=
  match_enter (match_init (length p)) ms s p.

(** ** Captures as results *)

Inductive capval := CStr (s : list Z) | CInt (n : Z).
#[global] Instance capval_eq_dec : EqDecision capval.
Proof. solve_decision. Defined.

(** The octets of the source between two offsets. *)
Definition sub_src (l : list Z) (s e : nat) : list Z := take (e - s) (drop s l).

Definition push_onecapture (ms : MatchState) (i : Z) (s e : nat) : res capval :=
  if Z.of_nat (level ms) <=? i then
    if i =? 0 then Ok (CStr (sub_src (src ms) s e)) else Err STRCAPI
  else
    '(init, l) ← cap ms (Z.to_nat i);
    if l =? CAP_UNFINISHED then Err STRCAPU
    else if l =? CAP_POSITION then Ok (CInt (Z.of_nat init + 1))
    else Ok (CStr (sub_src (src ms) init (init + Z.to_nat l))).

(** [n] captures from [i] on. *)
Fixpoint push_loop (n : nat) (ms : MatchState) (i : nat) (s e : nat) : res (list capval) :=
  match n with
  | O => Ok []
  | S n => v ← push_onecapture ms (Z.of_nat i) s e; vs ← push_loop n ms (S i) s e; Ok (v :: vs)
  end.

(** [None] is the null pointer that string.find passes. *)
Definition push_captures (ms : MatchState) (se : option (nat * nat)) : res (list capval) :=
  match se with
  | Some (s, e) => push_loop (if (level ms =? 0)%nat then 1%nat else level ms) ms 0 s e
  | None => push_loop (level ms) ms 0 0 0
  end.

(** ** string.find and string.match *)

Definition specials : list Z := [94; 36; 42; 43; 63; 46; 40; 91; 37; 45].

(** [strchr] also finds the terminator, but zero is no punctuation. *)
Definition uj_str_has_pattern_specials (p : list Z) : bool :=
  existsb (λ c, lj_char_ispunct c && existsb (Z.eqb c) (specials ++ [0])) p.

Inductive findres :=
  | FNil
  | FRange (i j : Z) (caps : list capval)    (* string.find *)
  | FCaps (caps : list capval).              (* string.match *)

(** Prepare for a match: [ms.level = ms.depth = 0]. *)
Definition ms_reset (ms : MatchState) : MatchState := with_level 0 (with_depth 0 ms).

(** The loop over the source; [n] octets are left of it. *)
Fixpoint find_pattern (n : nat) (ms : MatchState) (h : nat) (needle : ptr) (anchor find : bool) :
    res findres :=
  '(q, ms) ← match_ (ms_reset ms) h needle;
  match q with
  | Some q =>
      if find then
        caps ← push_captures ms None;
        Ok (FRange (i32 (Z.of_nat h + 1)) (i32 (Z.of_nat q)) caps)
      else caps ← push_captures ms (Some (h, q)); Ok (FCaps caps)
  | None =>
      match n with
      | O => Ok FNil
      | S n => if anchor then Ok FNil else find_pattern n ms (S h) needle anchor find
      end
  end.

(** The offset at which the search begins. *)
Definition find_init (len : Z) (init : Z) : Z :=
  let init := if init <? 0 then i32 (init + len) else i32 (init - 1) in
  let init := if init <? 0 then 0 else init in
  if len <? init then len else init.

(** [k0] is the array of captures of the fresh [MatchState], which is not initialised. *)
Definition str_find_aux (k0 : list (nat * Z)) (s p : list Z) (init : Z) (plain find : bool) :
    res findres :=
  let len := Z.of_nat (length s) in
  let h := Z.to_nat (find_init len init) in
  if find && (plain || negb (uj_str_has_pattern_specials p)) then
    match Cstr.uj_cstr_find (drop h s) p with
    | Cstr.FFound q =>
        let q := Z.of_nat (h + q) in
        Ok (FRange (i32 (i32 q + 1)) (i32 (i32 q + i32 (Z.of_nat (length p)))) [])
    | Cstr.FNull => Ok FNil
    | Cstr.FUndef => Undef
    end
  else
    let needle := p ++ [0] in
    c ← rd needle;
    let anchor := c =? cCaret in
    needle ← (if anchor then inc needle else Ok needle);
    find_pattern (length s - h) (mkMS s 0 0 k0) h needle anchor find.

Definition string_find k0 s p init plain := str_find_aux k0 s p init plain true.
Definition string_match k0 s p init := str_find_aux k0 s p init false false.

(** ** string.gmatch *)

(** The loop of the iterator; [n] octets are left.  The result has the new position. *)
Fixpoint gmatch_loop (n : nat) (ms : MatchState) (s : nat) (p : ptr) : res (option (Z * list capval)) :=
  '(e, ms) ← match_ (ms_reset ms) s p;
  match e with
  | Some e =>
      let pos := i32 (Z.of_nat e) in
      let pos := if (e =? s)%nat then i32 (pos + 1) else pos in
      caps ← push_captures ms (Some (s, e));
      Ok (Some (u32 pos, caps))
  | None => match n with O => Ok None | S n => gmatch_loop n ms (S s) p end
  end.

(** A call of the iterator at position [pos], the third upvalue: the values, and the position
    after it. *)
Definition string_gmatch_aux (k0 : list (nat * Z)) (s p : list Z) (pos : Z) :
    res (option (Z * list capval)) :=
  let h := Z.to_nat pos in
  if (length s <? h)%nat then Ok None
  else gmatch_loop (length s - h) (mkMS s 0 0 k0) h (p ++ [0]).

(** ** string.gsub *)

(** What a called function or an index operation gives; [VStr] is the text of a string or number. *)
Inductive rvalue := VFalsy | VStr (s : list Z) | VOther.

(** The third argument.  Functions and index operations may run Lua code: they work on the state
    [St] of the program and may raise errors. *)
Inductive repl (St : Type) :=
  | RString (news : list Z)
  | RFunction (f : St → list capval → res (St * rvalue))
  | RTable (index : St → capval → res (St * rvalue))
  | ROther.
Arguments RString {St} _.
Arguments RFunction {St} _.
Arguments RTable {St} _.
Arguments ROther {St}.

(** [luaL_addvalue] of a capture: positions are printed as decimal numbers. *)
Definition capval_text (v : capval) : list Z :=
  match v with CStr s => s | CInt n => Cstr.uj_cstr_fromint n end.

(** The text that replaces a match from [s] to [e]; the terminator follows [news]. *)
Fixpoint add_s (ms : MatchState) (news : list Z) (s e : nat) : res (list Z) :=
  match news with
  | [] => Ok []
  | x :: news =>
      if negb (x =? L_ESC) then r ← add_s ms news s e; Ok (x :: r)
      else
        match news with
        | [] => Ok [0]
        | y :: news =>
            if negb (lj_char_isdigit y) then r ← add_s ms news s e; Ok (y :: r)
            else if y =? 48 then r ← add_s ms news s e; Ok (sub_src (src ms) s e ++ r)
            else
              v ← push_onecapture ms (y - 49) s e;
              r ← add_s ms news s e;
              Ok (capval_text v ++ r)
        end
  end.

Definition rvalue_text (ms : MatchState) (s e : nat) (v : rvalue) : res (list Z) :=
  match v with
  | VFalsy => Ok (sub_src (src ms) s e)
  | VStr t => Ok t
  | VOther => Err STRGSRV
  end.

Definition add_value {St} (r : repl St) (st : St) (ms : MatchState) (s e : nat) : res (St * list Z) :=
  match r with
  | RString news => t ← add_s ms news s e; Ok (st, t)
  | RFunction f =>
      caps ← push_captures ms (Some (s, e));
      '(st, v) ← f st caps;
      t ← rvalue_text ms s e v; Ok (st, t)
  | RTable index =>
      c ← push_onecapture ms 0 s e;
      '(st, v) ← index st c;
      t ← rvalue_text ms s e v; Ok (st, t)
  | ROther => Undef
  end.

(** The loop of string.gsub: at offset [s], with the buffer [b] and [n] substitutions done. *)
Fixpoint gsub_loop {St} (fuel : nat) (r : repl St) (st : St) (ms : MatchState) (s : nat) (p : ptr)
    (anchor : bool) (max_s n : Z) (b : list Z) : res (St * (list Z * Z)) :=
  match fuel with
  | O => Undef
  | S fuel =>
      let finish st s n b := Ok (st, (b ++ drop s (src ms), n)) in
      if negb (n <? max_s) then finish st s n b
      else
        '(e, ms) ← match_ (ms_reset ms) s p;
        '(st, (n, b)) ← match e with
          | Some e => '(st, t) ← add_value r st ms s e; Ok (st, (n + 1, b ++ t))
          | None => Ok (st, (n, b))
          end;
        let again s b :=
          if anchor then finish st s n b else gsub_loop fuel r st ms s p anchor max_s n b in
        let nonempty := match e with Some e => (s <? e)%nat | None => false end in
        if nonempty then again (default s e) b
        else if (s <? src_end ms)%nat then c ← rds ms s; again (S s) (b ++ [c])
        else finish st s n b
  end.

(** [max_s] is the optional fourth argument. *)
Definition string_gsub {St} (k0 : list (nat * Z)) (s p : list Z) (r : repl St) (st : St)
    (max_s : option Z) : res (St * (list Z * Z)) :=
  let needle := p ++ [0] in
  let max_s := default (i32 (Z.of_nat (length s) + 1)) max_s in
  c ← rd needle;
  let anchor := c =? cCaret in
  needle ← (if anchor then inc needle else Ok needle);
  match r with
  | ROther => Err NOSFT
  | _ => gsub_loop (S (S (length s))) r st (mkMS s 0 0 k0) 0 needle anchor max_s 0 []
  end.

(** Octets of a text, for examples. *)
Definition octets (s : string) : list Z :=
  (λ a, Z.of_N (N_of_ascii a)) <$> list_ascii_of_string s.

End StrPat.
