(* ===== verification/StrPatSpec.v ===== *)
(** * Reference semantics of patterns

    A pattern is read as a list of items once, and its matches are enumerated, best first, as a list.
    No state is kept and nothing is undone: captures are a value that each alternative has for itself.
    [StrPatRefine.v] shows that the matcher of [StrPat.v] returns the head of this list. *)

From Stdlib Require Import ZArith.
From stdpp Require Import base list numbers.
From S2P Require Import Prelude StrPat.
Import Char StrPat.

Local Open Scope Z_scope.

(** ** Syntax *)

(** Elements of a set in brackets. *)
Inductive sitem := SClass (cl : Z) | SRange (a b : Z) | SChar (c : Z).

(** What stands for one character. *)
Inductive cclass := CAny | CEsc (cl : Z) | CSet (neg : bool) (set : list sitem) | CChar (c : Z).

Inductive item :=
  | IOpen | IPos | IClose                                   (* captures *)
  | IBal (b e : Z) | IFront (neg : bool) (set : list sitem) | IBack (d : Z)
  | IOne (k : cclass) | IOpt (k : cclass) | IStar (k : cclass) | IPlus (k : cclass) | IMinus (k : cclass)
  | IEnd                                                    (* the anchor at the end *)
  | IErr (e : errmsg).                                      (* malformed from here on *)

(** The text of a set up to its closing bracket, and what follows.  The first character is part of
    the set even if it is a bracket. *)
Fixpoint bracket (first : bool) (p : ptr) : option (list Z * ptr) :=
  match p with
  | [] => None
  | c :: q =>
      if c =? 0 then None
      else if (c =? cRBr) && negb first then Some ([], q)
      else if c =? L_ESC then
        match q with
        | [] => None
        | d :: r =>
            if d =? 0 then None else '(b, rest) ← bracket false r; Some (c :: d :: b, rest)
        end
      else '(b, rest) ← bracket false q; Some (c :: b, rest)
  end.

(** The elements.  A range may end with an escape character, which is then no escape; an escape
    that this leaves at the end takes the closing bracket. *)
Fixpoint parse_set (fuel : nat) (b : list Z) : list sitem :=
  match fuel, b with
  | S fuel, x :: q =>
      if x =? L_ESC then
        match q with
        | [] => [SClass cRBr]
        | y :: r => SClass y :: parse_set fuel r
        end
      else
        match q with
        | y :: z :: r => if y =? cMinus then SRange x z :: parse_set fuel r else SChar x :: parse_set fuel q
        | _ => SChar x :: parse_set fuel q
        end
  | _, _ => []
  end.

(** The caret behind the opening bracket. *)
Definition parse_neg (p : ptr) : bool * ptr :=
  match p with c :: q => if c =? cCaret then (true, q) else (false, p) | [] => (false, p) end.

Definition parse_brackets (p : ptr) : errmsg + (bool * list sitem * ptr) :=
  let '(neg, q) := parse_neg p in
  match bracket true q with
  | None => inl STRPATM
  | Some (b, rest) => inr (neg, parse_set (length b) b, rest)
  end.

Definition parse_class (p : ptr) : errmsg + (cclass * ptr) :=
  match p with
  | [] => inl STRPATM
  | c :: q =>
      if c =? L_ESC then
        match q with
        | [] => inl STRPATE
        | d :: r => if d =? 0 then inl STRPATE else inr (CEsc d, r)
        end
      else if c =? cLBr then
        match parse_brackets q with
        | inl e => inl e
        | inr (neg, set, rest) => inr (CSet neg set, rest)
        end
      else if c =? cDot then inr (CAny, q)
      else inr (CChar c, q)
  end.

Definition hd0 (p : ptr) : Z := hd 0 p.

Section Parse.
Variable parse : ptr → list item.

Definition parse_item (p : ptr) : list item :=
  match parse_class p with
  | inl e => [IErr e]
  | inr (k, ep) =>
      let e := hd0 ep in
      if e =? cQuest then IOpt k :: parse (tl ep)
      else if e =? cStar then IStar k :: parse (tl ep)
      else if e =? cPlus then IPlus k :: parse (tl ep)
      else if e =? cMinus then IMinus k :: parse (tl ep)
      else IOne k :: parse ep
  end.

Definition parse_balance (p : ptr) : list item :=
  match p with
  | b :: e :: r => if (b =? 0) || (e =? 0) then [IErr STRPATU] else IBal b e :: parse r
  | _ => [IErr STRPATU]
  end.

Definition parse_frontier (p : ptr) : list item :=
  if hd0 p =? cLBr then
    match parse_brackets (tl p) with
    | inl e => [IErr e]
    | inr (neg, set, rest) => IFront neg set :: parse rest
    end
  else [IErr STRPATB].

Definition parse_step (p : ptr) : list item :=
  let c := hd0 p in let q := tl p in let d := hd0 q in
  if c =? cOpen then if d =? cClose then IPos :: parse (tl q) else IOpen :: parse q
  else if c =? cClose then IClose :: parse q
  else if c =? L_ESC then
    if d =? 98 then parse_balance (tl q)
    else if d =? 102 then parse_frontier (tl q)
    else if lj_char_isdigit d then IBack d :: parse (tl q)
    else parse_item p
  else if c =? 0 then []
  else if (c =? cDollar) && (d =? 0) then [IEnd]
  else parse_item p.
End Parse.

Fixpoint parse_fuel (fuel : nat) (p : ptr) : list item :=
  match fuel with O => [] | S fuel => parse_step (parse_fuel fuel) p end.

(** The items of a pattern, given without its terminator. *)
Definition parse (p : list Z) : list item := parse_fuel (S (length p)) (p ++ [0]).

(** ** Matches *)

Definition sitem_match (c : Z) (i : sitem) : bool :=
  match i with
  | SClass cl => match_class c cl
  | SRange a b => (a <=? c) && (c <=? b)
  | SChar x => x =? c
  end.
Definition set_match (c : Z) (neg : bool) (set : list sitem) : bool :=
  xorb neg (existsb (sitem_match c) set).
Definition cls_match (k : cclass) (c : Z) : bool :=
  match k with
  | CAny => true
  | CEsc cl => match_class c cl
  | CSet neg set => set_match c neg set
  | CChar x => x =? c
  end.

Abbreviation caps := (list (nat * Z)).

(** A match that ends at an offset with captures, or an error on the way. *)
Inductive outcome := Sol (e : nat) (k : caps) | Bad (e : errmsg).

(** How many octets at the front satisfy [f]. *)
Fixpoint run (f : Z → bool) (l : list Z) : nat :=
  match l with x :: l => if f x then S (run f l) else O | [] => O end.

(** The innermost open capture. *)
Fixpoint open_cap (k : caps) : option nat :=
  match k with
  | [] => None
  | x :: k =>
      match open_cap k with
      | Some i => Some (S i)
      | None => if x.2 =? CAP_UNFINISHED then Some O else None
      end
  end.

(** Where a balanced text ends: [l] is what follows, from offset [s] on, with [cont] open. *)
Fixpoint balanced (b e : Z) (l : list Z) (s : nat) (cont : Z) : option nat :=
  match l with
  | [] => None
  | c :: l =>
      if c =? e then if cont =? 1 then Some (S s) else balanced b e l (S s) (cont - 1)
      else balanced b e l (S s) (if c =? b then cont + 1 else cont)
  end.

Section Sols.
Variable l : list Z.   (* the source *)

(** The octet at an offset, zero at the end, and the one before it. *)
Definition at_src (s : nat) : Z := nth s l 0.
Definition before (s : nat) : Z := match s with O => 0 | S s => at_src s end.

(** The length of the text that a back reference stands for, or nothing for a position. *)
Definition back_ref (k : caps) (d : Z) : errmsg + option (nat * nat) :=
  let i := d - 49 in
  if i <? 0 then inl STRCAPI
  else match k !! Z.to_nat i with
  | None => inl STRCAPI
  | Some (init, len) =>
      if len =? CAP_UNFINISHED then inl STRCAPI
      else if len =? CAP_POSITION then inr None
      else inr (Some (init, Z.to_nat len))
  end.

(** The matches of a list of items from [s] on, in the order in which they are tried.  [d] is the
    number of active calls of [match]. *)
Fixpoint sols (d : Z) (its : list item) (s : nat) (k : caps) : list outcome :=
  match its with
  | [] => [Sol s k]
  | it :: its =>
      let enter s k := if LJ_MAX_XLEVEL <? d + 1 then [Bad STRPATX] else sols (d + 1) its s k in
      let n c := run (cls_match c) (drop s l) in
      match it with
      | IOpen | IPos =>
          if (LUA_MAXCAPTURES <=? length k)%nat then [Bad STRCAPN]
          else enter s (k ++ [(s, match it with IPos => CAP_POSITION | _ => CAP_UNFINISHED end)])
      | IClose =>
          match open_cap k with
          | None => [Bad STRPATC]
          | Some i => enter s (alter (λ x, (x.1, Z.of_nat s - Z.of_nat x.1)) i k)
          end
      | IBal b e =>
          if at_src s =? b then
            match balanced b e (drop (S s) l) (S s) 1 with Some s' => sols d its s' k | None => [] end
          else []
      | IFront neg set =>
          if negb (set_match (before s) neg set) && set_match (at_src s) neg set then sols d its s k else []
      | IBack c =>
          match back_ref k c with
          | inl e => [Bad e]
          | inr None => []
          | inr (Some (init, len)) =>
              if bool_decide (s + len ≤ length l)%nat &&
                 bool_decide (take len (drop init l) = take len (drop s l))
              then sols d its (s + len) k else []
          end
      | IOne c => if (0 <? n c)%nat then sols d its (S s) k else []
      | IOpt c => (if (0 <? n c)%nat then enter (S s) k else []) ++ sols d its s k
      | IStar c => rev (seq 0 (S (n c))) ≫= λ i, enter (s + i)%nat k
      | IPlus c => rev (seq 1 (n c)) ≫= λ i, enter (s + i)%nat k
      | IMinus c => seq 0 (S (n c)) ≫= λ i, enter (s + i)%nat k
      | IEnd => if (s =? length l)%nat then [Sol s k] else []
      | IErr e => [Bad e]
      end
  end.

Definition enter (d : Z) (its : list item) (s : nat) (k : caps) : list outcome :=
  if LJ_MAX_XLEVEL <? d + 1 then [Bad STRPATX] else sols (d + 1) its s k.
End Sols.
