(* ===== verification/StrPatRefine.v ===== *)
(** * The matcher returns the first match of the reference semantics

    Lemmas on character classes, then the relation [impl] between a function on the mutable
    [MatchState] and a list of outcomes, its rules for alternatives and recursive calls, and the
    matcher by induction on its fuel. *)

From Stdlib Require Import ZArith Lia.
From stdpp Require Import base numbers list.
From S2P Require Import Prelude StrPat StrPatSpec.
Import Char StrPat.

Local Open Scope Z_scope.

(** ** Terminated patterns *)

Definition zterm (p : ptr) : Prop := list.last p = Some 0.

Lemma zterm_app p : zterm (p ++ [0]).
Proof. apply last_snoc. Qed.

Lemma zterm_cons c p : zterm (c :: p) → c ≠ 0 → zterm p.
Proof. unfold zterm. rewrite last_cons. destruct (list.last p); naive_solver. Qed.

Lemma zterm_app_inv p q : zterm (p ++ q) → Forall (.≠ 0) p → zterm q.
Proof. induction p as [|c p IH]; [done|]. intros Hz Hp. apply Forall_cons in Hp as [? ?]. eauto using zterm_cons. Qed.

Lemma zterm_nonnil p : zterm p → ∃ c q, p = c :: q.
Proof. destruct p; [done|eauto]. Qed.

(** Destruct a terminated pattern. *)
Tactic Notation "zdestruct" ident(p) "as" ident(c) ident(q) :=
  match goal with Hz : zterm p |- _ => destruct p as [|c q]; [discriminate Hz|] end.

#[global] Hint Resolve zterm_app zterm_cons : vela.

(** ** Classes *)

Lemma bracket_true c q : c ≠ cRBr → bracket true (c :: q) = bracket false (c :: q).
Proof. intros Hc. cbn. by rewrite (proj2 (Z.eqb_neq _ _) Hc). Qed.

Lemma bracket_app first p b rest :
  bracket first p = Some (b, rest) → p = b ++ cRBr :: rest ∧ Forall (.≠ 0) b.
Proof.
  revert first b. remember (length p) as n eqn:En. revert p En. induction n as [n IH] using lt_wf_ind. intros p -> first b.
  destruct p as [|c q]; [done|]. cbn [bracket].
  destruct (c =? 0) eqn:?; [done|].
  destruct ((c =? cRBr) && negb first) eqn:?; bprop.
  { intros [= <- <-]. subst. split; [done|constructor]. }
  destruct (c =? L_ESC) eqn:?.
  - destruct q as [|d r]; [done|]. destruct (d =? 0) eqn:?; [done|]. bprop.
    destruct (bracket false r) as [[b' rest']|] eqn:E; [|done]. intros [= <- <-].
    eapply (IH (length r)) in E as [-> ?]; [|simpl; lia|done]. split; [done|]. repeat constructor; done.
  - destruct (bracket false q) as [[b' rest']|] eqn:E; [|done]. intros [= <- <-].
    eapply (IH (length q)) in E as [-> ?]; [|simpl; lia|done]. split; [done|]. constructor; done.
Qed.

Lemma classend_loop_spec fuel p :
  zterm p → (length p ≤ fuel)%nat →
  classend_loop fuel p =
    match bracket true p with None => Err STRPATM | Some (_, rest) => Ok rest end.
Proof.
  revert p. induction fuel as [|fuel IH]; intros p Hz Hf; zdestruct p as z l; cbn in Hf; [lia|].
  cbn [classend_loop rd rbind inc]. destruct (z =? 0) eqn:E0; [cbn; by rewrite E0|]. bprop.
  assert (zterm l) as Hl by eauto using zterm_cons.
  assert (∀ r, zterm r → (length r ≤ fuel)%nat →
    rbind (rd r) (λ e, if e =? cRBr then inc r else classend_loop fuel r) =
    match bracket false r with None => Err STRPATM | Some (_, rest) => Ok rest end) as Hcont.
  { intros r Hr Hlen. zdestruct r as z0 r. cbn [rd rbind].
    destruct (z0 =? cRBr) eqn:E; bprop.
    - subst. done.
    - rewrite <-bracket_true by done. by apply IH. }
  cbn [bracket]. rewrite (proj2 (Z.eqb_neq z 0)) by done. rewrite andb_false_r.
  destruct (z =? L_ESC) eqn:EE; cbn [andb].
  - zdestruct l as z0 l. cbn [rd rbind]. destruct (z0 =? 0) eqn:E00; cbn [negb rbind inc]; bprop.
    + rewrite Hcont by (cbn in *; done || lia). cbn [bracket].
      by rewrite (proj2 (Z.eqb_eq z0 0)).
    + rewrite Hcont by (cbn in *; eauto using zterm_cons || lia).
      by destruct (bracket false l) as [[??]|].
  - destruct (zterm_nonnil l Hl) as (d & r & El). rewrite El at 1. cbn [rd rbind].
    rewrite Hcont by (cbn in *; done || lia). by destruct (bracket false l) as [[??]|].
Qed.

Lemma classend_spec p :
  zterm p → classend p = match parse_class p with inl e => Err e | inr (_, ep) => Ok ep end.
Proof.
  intros Hz. zdestruct p as z l. unfold classend, parse_class. cbn [rd rbind inc].
  destruct (z =? L_ESC) eqn:EE; bprop.
  { subst. assert (zterm l) by eauto using zterm_cons. zdestruct l as d l. cbn. by destruct (d =? 0). }
  destruct (z =? cLBr) eqn:EB; bprop; [|by destruct (z =? cDot)].
  subst. assert (zterm l) by eauto using zterm_cons. unfold parse_brackets, parse_neg.
  zdestruct l as z l. cbn [rd rbind inc]. destruct (z =? cCaret) eqn:EC; bprop; cbn [rbind].
  - subst. rewrite classend_loop_spec by eauto using zterm_cons.
    by destruct (bracket true l) as [[??]|].
  - rewrite classend_loop_spec by done. by destruct (bracket true (z :: l)) as [[??]|].
Qed.

Lemma ptr_lt_true p q : (length q < length p)%nat → ptr_lt p q = true.
Proof. apply Nat.ltb_lt. Qed.
Lemma ptr_lt_false p q : (length p ≤ length q)%nat → ptr_lt p q = false.
Proof. apply Nat.ltb_ge. Qed.

(** The loop over a set of brackets: [b] is left, [rest] follows the closing bracket. *)
Lemma bracket_loop_spec n fuel c sig x b rest :
  (length b ≤ n)%nat → (S (length b) < fuel)%nat →
  bracket_loop fuel c sig (x :: b ++ cRBr :: rest) (cRBr :: rest) =
    Ok (xorb (negb sig) (existsb (sitem_match c) (parse_set n b))).
Proof.
  revert fuel x b. induction n as [n IH] using lt_wf_ind. intros fuel x b Hn Hf.
  destruct fuel as [|fuel]; [lia|]. cbn [bracket_loop inc rbind].
  destruct b as [|y b].
  { cbn [app]. rewrite ptr_lt_false by done. cbn. destruct n; cbn; by rewrite xorb_false_r. }
  rewrite ptr_lt_true by (cbn; rewrite length_app; cbn; lia). cbn in Hn, Hf.
  destruct n as [|n]; [lia|]. cbn [negb app rd rbind inc parse_set].
  destruct (y =? L_ESC) eqn:EE; bprop.
  - destruct b as [|z b]; cbn [app rd rbind].
    + cbn. rewrite orb_false_r. destruct (match_class c cRBr); [by destruct sig|].
      destruct fuel as [|fuel]; [lia|]. cbn [bracket_loop inc rbind app]. rewrite ptr_lt_false by (cbn; lia). by destruct sig.
    + cbn [existsb sitem_match]. destruct (match_class c z); [by destruct sig|].
      cbn [orb]. apply IH; cbn in *; lia.
  - assert (existsb (sitem_match c) (SChar y :: parse_set n b) =
      (y =? c) || existsb (sitem_match c) (parse_set n b)) as Ec by done.
    assert ((if y =? c then Ok sig
             else bracket_loop fuel c sig (y :: b ++ cRBr :: rest) (cRBr :: rest)) =
            Ok (xorb (negb sig) (existsb (sitem_match c) (SChar y :: parse_set n b)))) as Hchar.
    { rewrite Ec. destruct (y =? c); [by destruct sig|]. apply IH; lia. }
    destruct b as [|z b]; cbn [app rd rbind inc]; [done|].
    destruct b as [|w b]; cbn [app rd rbind inc].
    + destruct (z =? cMinus); [|done]. rewrite ptr_lt_false by done. done.
    + destruct (z =? cMinus); [|done]. rewrite ptr_lt_true by (cbn; rewrite length_app; cbn; lia).
      cbn [existsb sitem_match]. destruct ((y <=? c) && (c <=? w)); [by destruct sig|].
      apply IH; cbn in *; lia.
Qed.

Lemma dec_ptr_spec q ep : dec_ptr (q ++ cRBr :: ep) ep = cRBr :: ep.
Proof.
  unfold dec_ptr. rewrite length_app. cbn.
  replace (length q + S (length ep) - S (length ep))%nat with (length q) by lia. apply drop_app_length.
Qed.

Lemma matchbracketclass_spec c q neg set ep :
  parse_brackets q = inr (neg, set, ep) →
  matchbracketclass c (cLBr :: q) (dec_ptr (cLBr :: q) ep) = Ok (set_match c neg set).
Proof.
  unfold parse_brackets, parse_neg, matchbracketclass. intros E.
  destruct q as [|x q]; [done|]. cbn [inc rd rbind].
  destruct (x =? cCaret) eqn:EC; destruct (bracket _ _) as [[b rest]|] eqn:EB; try done;
    injection E as <- <- <-; apply bracket_app in EB as [Eq ?].
  - pose proof (dec_ptr_spec (cLBr :: x :: b) rest) as Hd. cbn [app] in Hd.
    rewrite Eq, Hd, (bracket_loop_spec (length b)) by (cbn; rewrite ?length_app; cbn; lia). done.
  - pose proof (dec_ptr_spec (cLBr :: b) rest) as Hd. cbn [app] in Hd.
    rewrite Eq, Hd, (bracket_loop_spec (length b)) by (cbn; rewrite ?length_app; cbn; lia). done.
Qed.

Lemma singlematch_spec c p k ep :
  zterm p → parse_class p = inr (k, ep) → singlematch c p ep = Ok (cls_match k c).
Proof.
  intros Hz E. zdestruct p as z l. unfold parse_class in E. unfold singlematch. cbn [rd rbind].
  destruct (z =? L_ESC) eqn:EE; bprop.
  { subst. destruct l as [|d r]; [done|]. destruct (d =? 0); [done|]. by injection E as <- <-. }
  destruct (z =? cLBr) eqn:EB; bprop.
  { subst. destruct (parse_brackets l) as [e|[[neg set] rest]] eqn:EP; [done|].
    injection E as <- <-. cbn. by apply matchbracketclass_spec. }
  destruct (z =? cDot) eqn:ED; injection E as <- <-; done.
Qed.

(** A class takes at least one octet and leaves a terminated pattern. *)
Lemma parse_class_rest p k ep :
  zterm p → hd0 p ≠ 0 → parse_class p = inr (k, ep) → zterm ep ∧ (length ep < length p)%nat.
Proof.
  intros Hz H0 E. zdestruct p as z l. cbn in H0. assert (zterm l) as Hl by eauto using zterm_cons.
  unfold parse_class in E. destruct (z =? L_ESC).
  { destruct l as [|d r]; [done|]. destruct (d =? 0) eqn:?; [done|]. injection E as <- <-. bprop.
    split; [eauto using zterm_cons|cbn; lia]. }
  destruct (z =? cLBr).
  { unfold parse_brackets, parse_neg in E.
    destruct l as [|x l]; [done|]. destruct (x =? cCaret) eqn:EC; bprop;
    destruct (bracket true _) as [[b rest]|] eqn:EB; try done; injection E as <- <-;
    apply bracket_app in EB as [Eq Hb]; rewrite Eq in *.
    - split; [|cbn; rewrite length_app; cbn; lia]. subst x.
      apply zterm_cons in Hl; [|done]. apply zterm_app_inv in Hl; [|done]. eauto using zterm_cons.
    - split; [|cbn; rewrite length_app; cbn; lia].
      apply zterm_app_inv in Hl; [|done]. eauto using zterm_cons. }
  destruct (z =? cDot); injection E as <- <-; (split; [done|cbn; lia]).
Qed.

(** ** The state and its captures *)

(** A state with the source, the depth and the captures given; what the array holds above the level
    is not fixed. *)
Definition st (l : list Z) (d : Z) (k : caps) (ms : MatchState) : Prop :=
  src ms = l ∧ depth ms = d ∧ level ms = length k ∧ take (length k) (capture ms) = k ∧
  length (capture ms) = LUA_MAXCAPTURES.

(** The result [r] of a match is the outcome [o]; after a failure the state is as before. *)
Definition agree (l : list Z) (d : Z) (k : caps) (r : mres) (o : option outcome) : Prop :=
  match o with
  | None => ∃ ms, r = Ok (None, ms) ∧ st l d k ms
  | Some (Sol e k') => ∃ ms, r = Ok (Some e, ms) ∧ st l d k' ms
  | Some (Bad e) => r = Err e
  end.

(** [f] returns the first of the outcomes [L]. *)
Definition impl (l : list Z) (d : Z) (k : caps) (f : MatchState → mres) (L : list outcome) : Prop :=
  ∀ ms, st l d k ms → agree l d k (f ms) (head L).

Definition orelse (f g : MatchState → mres) (ms : MatchState) : mres :=
  rbind (f ms) (λ '(r, ms), match r with Some e => Ok (Some e, ms) | None => g ms end).

Section Rules.
Context (l : list Z).

Lemma impl_ext d k f g L : (∀ ms, st l d k ms → f ms = g ms) → impl l d k g L → impl l d k f L.
Proof. intros E H ms Hs. rewrite E by done. by apply H. Qed.

Lemma impl_fail d k : impl l d k (λ ms, Ok (None, ms)) [].
Proof. intros ms Hs. cbn. eauto. Qed.

Lemma impl_done d k s : impl l d k (λ ms, Ok (Some s, ms)) [Sol s k].
Proof. intros ms Hs. cbn. eauto. Qed.

Lemma impl_err d k e : impl l d k (λ _, Err e) [Bad e].
Proof. by intros ms Hs. Qed.

Lemma impl_if d k (b : bool) f L :
  (b = true → impl l d k f L) →
  impl l d k (λ ms, if b then f ms else Ok (None, ms)) (if b then L else []).
Proof. destruct b; [by intros H; apply H|]. intros _. apply impl_fail. Qed.

Lemma impl_orelse d k f g L1 L2 :
  impl l d k f L1 → impl l d k g L2 → impl l d k (orelse f g) (L1 ++ L2).
Proof.
  intros H1 H2 ms Hs. specialize (H1 ms Hs). unfold orelse. destruct L1 as [|[e k'|e] L1]; cbn in *.
  - destruct H1 as (ms' & -> & Hs'). cbn. by apply H2.
  - destruct H1 as (ms' & -> & Hs'). cbn. eauto.
  - by rewrite H1.
Qed.

Lemma st_depth d d' k ms : st l d k ms → st l d' k (with_depth d' ms).
Proof. unfold st. cbn. tauto. Qed.

Lemma impl_enter init its d s k p :
  impl l (d + 1) k (λ ms, init ms s p) (sols l (d + 1) its s k) →
  impl l d k (λ ms, match_enter init ms s p) (enter l d its s k).
Proof.
  intros H ms Hs. unfold match_enter, enter. pose proof Hs as (_ & -> & _).
  destruct (LJ_MAX_XLEVEL <? d + 1); [done|].
  apply (st_depth _ (d + 1)) in Hs.
  specialize (H _ Hs). destruct (head (sols l (d + 1) its s k)) as [[e k'|e]|]; cbn in *.
  - destruct H as (ms' & -> & Hs'). cbn. eexists. split; [done|]. pose proof Hs' as (_ & -> & _).
    replace (d + 1 - 1) with d by lia. by eapply st_depth.
  - by rewrite H.
  - destruct H as (ms' & -> & Hs'). cbn. eexists. split; [done|]. pose proof Hs' as (_ & -> & _).
    replace (d + 1 - 1) with d by lia. by eapply st_depth.
Qed.

(** *** Repetitions *)

Lemma impl_max_try rec d k s q i (F : nat → list outcome) :
  (∀ j, (j ≤ i)%nat → impl l d k (λ ms, rec ms (s + j)%nat q) (F j)) →
  impl l d k (λ ms, max_try rec i ms s q) (rev (seq 0 (S i)) ≫= F).
Proof.
  induction i as [|i IH]; intros H.
  - cbn [seq rev app mbind list_bind]. apply (impl_orelse _ _ (λ ms, rec ms (s + 0)%nat q)); [by apply H|].
    apply impl_fail.
  - rewrite seq_S, rev_app_distr, Nat.add_0_l. cbn [rev app mbind list_bind].
    apply (impl_orelse _ _ (λ ms, rec ms (s + S i)%nat q)); [by apply H|].
    apply IH. intros j ?. apply H. lia.
Qed.

Lemma rds_spec d k ms s c : st l d k ms → l !! s = Some c → rds ms s = Ok c.
Proof. intros (<- & _) E. unfold rds. by rewrite (lookup_app_l_Some _ _ _ _ E). Qed.

Lemma rds_at d k ms s : st l d k ms → (s ≤ length l)%nat → rds ms s = Ok (at_src l s).
Proof.
  intros (<- & _) Hs. unfold rds, at_src. destruct (decide (s = length (src ms))) as [->|].
  - rewrite list_lookup_middle by done. by rewrite nth_overflow.
  - destruct (lookup_lt_is_Some_2 (src ms) s) as [c E]; [lia|].
    rewrite (lookup_app_l_Some _ _ _ _ E). by rewrite (nth_lookup_Some _ _ _ _ E).
Qed.

Context (p ep : ptr) (c : cclass).
Hypothesis Hsingle : ∀ x, singlematch x p ep = Ok (cls_match c x).

Lemma impl_min_loop rec d k s q n (F : nat → list outcome) :
  n = (length l - s)%nat → (s ≤ length l)%nat →
  (∀ j, (s ≤ j ≤ length l)%nat → impl l d k (λ ms, rec ms j q) (F j)) →
  impl l d k (λ ms, min_loop rec n ms s p ep q)
    (seq 0 (S (run (cls_match c) (drop s l))) ≫= λ i, F (s + i)%nat).
Proof.
  revert s. induction n as [|n IH]; intros s Hn Hs H.
  - rewrite drop_ge by lia. cbn [run seq mbind list_bind].
    apply (impl_orelse _ _ (λ ms, rec ms s q)); [|apply impl_fail].
    rewrite Nat.add_0_r. apply H. lia.
  - destruct (lookup_lt_is_Some_2 l s) as [x E]; [lia|].
    rewrite (drop_S _ _ _ E). cbn [run seq mbind list_bind]. rewrite Nat.add_0_r.
    apply (impl_orelse _ _ (λ ms, rec ms s q)); [apply H; lia|].
    eapply (impl_ext _ _ _ (λ ms, if cls_match c x then min_loop rec n ms (S s) p ep q else Ok (None, ms))).
    { intros ms Hst. rewrite (rds_spec _ _ _ _ _ Hst E). cbn. by rewrite Hsingle. }
    destruct (cls_match c x); [|apply impl_fail].
    rewrite <-(fmap_S_seq 0 (S _)), list_fmap_bind.
    eapply impl_ext; [done|].
    replace (seq 0 (S (run (cls_match c) (drop (S s) l))) ≫= (λ i, F (s + i)%nat) ∘ S)
      with (seq 0 (S (run (cls_match c) (drop (S s) l))) ≫= λ i, F (S s + i)%nat).
    + apply IH; [lia..|]. intros j ?. apply H. lia.
    + apply list_bind_ext; [|done]. intros i. cbn. by rewrite Nat.add_succ_r.
Qed.

Lemma expand_count_spec d k ms n s i :
  st l d k ms → n = (length l - (s + i))%nat →
  expand_count n ms s i p ep = Ok (i + run (cls_match c) (drop (s + i) l))%nat.
Proof.
  intros Hst. revert i. induction n as [|n IH]; intros i Hn; cbn [expand_count].
  - rewrite drop_ge by lia. cbn. by rewrite Nat.add_0_r.
  - destruct (lookup_lt_is_Some_2 l (s + i)) as [x E]; [lia|].
    rewrite (rds_spec _ _ _ _ _ Hst E), (drop_S _ _ _ E). cbn [rbind run]. rewrite Hsingle. cbn [rbind].
    destruct (cls_match c x); [|by rewrite Nat.add_0_r].
    rewrite IH by lia. f_equal. rewrite !Nat.add_succ_r. done.
Qed.

Lemma run_le f (x : list Z) : (run f x ≤ length x)%nat.
Proof. induction x as [|y x IH]; cbn; [done|]. destruct (f y); lia. Qed.

Lemma impl_max_expand rec d k s q (F : nat → list outcome) :
  inc ep = Ok q → (s ≤ length l)%nat →
  (∀ j, (s ≤ j ≤ length l)%nat → impl l d k (λ ms, rec ms j q) (F j)) →
  impl l d k (λ ms, max_expand rec ms s p ep)
    (rev (seq 0 (S (run (cls_match c) (drop s l)))) ≫= λ i, F (s + i)%nat).
Proof.
  intros Eq Hs H. set (n := run (cls_match c) (drop s l)).
  eapply (impl_ext _ _ _ (λ ms, max_try rec n ms s q)).
  { intros ms Hst. unfold max_expand. rewrite (expand_count_spec d k).
    - cbn [rbind]. rewrite Eq, Nat.add_0_r. done.
    - done.
    - unfold src_end. pose proof Hst as (-> & _). lia. }
  apply impl_max_try. intros j Hj. apply H.
  pose proof (run_le (cls_match c) (drop s l)) as Hr. rewrite length_drop in Hr. lia.
Qed.

Lemma impl_min_expand rec d k s q (F : nat → list outcome) :
  inc ep = Ok q → (s ≤ length l)%nat →
  (∀ j, (s ≤ j ≤ length l)%nat → impl l d k (λ ms, rec ms j q) (F j)) →
  impl l d k (λ ms, min_expand rec ms s p ep)
    (seq 0 (S (run (cls_match c) (drop s l))) ≫= λ i, F (s + i)%nat).
Proof.
  intros Eq Hs H.
  eapply (impl_ext _ _ _ (λ ms, min_loop rec (length l - s) ms s p ep q)).
  { intros ms Hst. unfold min_expand. rewrite Eq. cbn. unfold src_end. by pose proof Hst as (-> & _). }
  by apply impl_min_loop.
Qed.

End Rules.

(** *** Captures *)

(** Where the match is at [s], captures lie before [s]. *)
Definition cap_ok (s : nat) (x : nat * Z) : Prop :=
  (x.1 ≤ s)%nat ∧ (x.2 = CAP_UNFINISHED ∨ x.2 = CAP_POSITION ∨ 0 ≤ x.2 ∧ Z.of_nat x.1 + x.2 ≤ Z.of_nat s).
Definition caps_ok (k : caps) (s : nat) : Prop := Forall (cap_ok s) k.

Lemma caps_ok_mono k s s' : (s ≤ s')%nat → caps_ok k s → caps_ok k s'.
Proof. intros Hs Hk. eapply Forall_impl; [exact Hk|]. intros x [? ?]. unfold cap_ok. lia. Qed.

Lemma caps_ok_snoc k s w :
  w = CAP_UNFINISHED ∨ w = CAP_POSITION → caps_ok k s → caps_ok (k ++ [(s, w)]) s.
Proof.
  intros Hw Hk. apply Forall_app. split; [done|]. apply Forall_singleton. unfold cap_ok. cbn.
  split; [lia|]. tauto.
Qed.

Lemma caps_ok_close k s i :
  caps_ok k s → caps_ok (alter (λ x, (x.1, Z.of_nat s - Z.of_nat x.1)) i k) s.
Proof.
  intros Hk. apply Forall_alter; [done|]. intros x ? [? _]. unfold cap_ok. cbn. split; [done|].
  right; right. lia.
Qed.

#[global] Hint Resolve caps_ok_mono caps_ok_snoc caps_ok_close : vela.

Lemma open_cap_snoc k x :
  open_cap (k ++ [x]) = if x.2 =? CAP_UNFINISHED then Some (length k) else open_cap k.
Proof.
  induction k as [|y k IH]; cbn; [by destruct (x.2 =? _)|]. rewrite IH.
  by destruct (x.2 =? CAP_UNFINISHED).
Qed.

Lemma open_cap_Some k i : open_cap k = Some i → ∃ a, k !! i = Some (a, CAP_UNFINISHED).
Proof.
  revert i. induction k as [|[a w] k IH]; intros i; cbn; [done|].
  destruct (open_cap k) as [j|]; [intros [= <-]; by apply IH|].
  destruct (w =? CAP_UNFINISHED) eqn:E; [|done]. intros [= <-]. bprop. subst. cbn. eauto.
Qed.

Lemma capture_to_close_loop_spec ms n :
  (n ≤ length (capture ms))%nat →
  capture_to_close_loop ms n =
    match open_cap (take n (capture ms)) with Some i => Ok i | None => Err STRPATC end.
Proof.
  induction n as [|n IH]; intros Hn; [done|]. cbn [capture_to_close_loop]. unfold cap.
  destruct (lookup_lt_is_Some_2 (capture ms) n) as [[a w] E]; [lia|].
  rewrite E, (take_S_r _ _ _ E), open_cap_snoc. cbn [rbind snd].
  destruct (w =? CAP_UNFINISHED); [|apply IH; lia]. by rewrite length_take_le by lia.
Qed.

Section Captures.
Context (l : list Z).

Lemma st_len d k ms : st l d k ms → (length k ≤ LUA_MAXCAPTURES)%nat.
Proof.
  intros (_ & _ & _ & E & <-). apply (f_equal length) in E. rewrite length_take in E. lia.
Qed.

Lemma st_cap d k ms i : st l d k ms → (i < length k)%nat → capture ms !! i = k !! i.
Proof. intros (_ & _ & _ & E & _) Hi. transitivity (take (length k) (capture ms) !! i); [|by rewrite E]. by rewrite lookup_take_lt. Qed.

Lemma impl_start_capture rec d k s p w L :
  (length k < LUA_MAXCAPTURES)%nat →
  impl l d (k ++ [(s, w)]) (λ ms, rec ms s p) L →
  impl l d k (λ ms, start_capture rec ms s p w) L.
Proof.
  intros Hk H ms Hst. unfold start_capture. pose proof Hst as (? & ? & Hl & Ht & Hc). rewrite Hl.
  rewrite (proj2 (Nat.leb_gt _ _)) by done.
  set (ms1 := with_level _ _). assert (st l d (k ++ [(s, w)]) ms1) as Hst1.
  { unfold ms1, st. cbn. rewrite length_app, length_insert. cbn. split_and!; try done; [lia|].
    rewrite Nat.add_1_r. erewrite take_S_r; [|apply list_lookup_insert_eq; lia].
    by rewrite take_insert_ge, Ht. }
  specialize (H _ Hst1). destruct (head L) as [[e k'|e]|]; cbn in *.
  - destruct H as (ms' & -> & ?). cbn. eauto.
  - by rewrite H.
  - destruct H as (ms' & -> & Hs). cbn. eexists. split; [done|].
    destruct Hs as (? & ? & Hl' & Ht' & Hc'). unfold st. cbn. rewrite length_app in Hl', Ht'. cbn in *.
    split_and!; try done; [lia|].
    apply (f_equal (take (length k))) in Ht'. rewrite take_take, take_app_length in Ht'.
    by rewrite Nat.min_l in Ht' by lia.
Qed.

Lemma take_alter {A} (f : A → A) n i (x : list A) : take n (alter f i x) = alter f i (take n x).
Proof.
  apply list_eq. intros j. destruct (decide (j < n)%nat).
  - rewrite lookup_take_lt by done. destruct (decide (i = j)) as [->|].
    + by rewrite !list_lookup_alter_eq, lookup_take_lt.
    + by rewrite !list_lookup_alter_ne, lookup_take_lt.
  - rewrite lookup_take_ge by lia. symmetry. apply lookup_ge_None. rewrite length_alter, length_take. lia.
Qed.

Lemma st_set_len d k ms i len :
  st l d k ms → st l d (alter (λ x, (x.1, len)) i k) (set_len ms i len).
Proof.
  intros (? & ? & Hl & Ht & Hc). unfold st, set_len. cbn. rewrite !length_alter, take_alter, Ht. done.
Qed.

Lemma impl_end_capture rec d k s p i a L :
  open_cap k = Some i → k !! i = Some (a, CAP_UNFINISHED) →
  impl l d (alter (λ x, (x.1, Z.of_nat s - Z.of_nat x.1)) i k) (λ ms, rec ms s p) L →
  impl l d k (λ ms, end_capture rec ms s p) L.
Proof.
  intros Ho Ha H ms Hst. pose proof (st_len _ _ _ Hst) as Hlen.
  pose proof Hst as (_ & _ & Hl & Ht & Hc). pose proof (lookup_lt_Some _ _ _ Ha) as Hi.
  unfold end_capture, capture_to_close. rewrite Hl, capture_to_close_loop_spec, Ht, Ho by lia.
  cbn [rbind]. unfold cap. rewrite (st_cap _ _ _ _ Hst Hi), Ha. cbn [rbind].
  assert (alter (λ x, (x.1, Z.of_nat s - Z.of_nat x.1)) i k =
          alter (λ x : nat * Z, (x.1, Z.of_nat s - Z.of_nat a)) i k) as E.
  { apply list_eq. intros j. destruct (decide (i = j)) as [<-|].
    - by rewrite !list_lookup_alter_eq, Ha.
    - by rewrite !list_lookup_alter_ne. }
  rewrite E in H. specialize (H _ (st_set_len _ _ _ _ _ Hst)).
  destruct (head L) as [[e k'|e]|]; cbn in *.
  - destruct H as (ms' & -> & ?). cbn. eauto.
  - by rewrite H.
  - destruct H as (ms' & -> & Hs). cbn. eexists. split; [done|].
    apply (st_set_len _ _ _ i CAP_UNFINISHED) in Hs.
    replace k with (alter (λ x : nat * Z, (x.1, CAP_UNFINISHED)) i
      (alter (λ x : nat * Z, (x.1, Z.of_nat s - Z.of_nat a)) i k)) at 1; [done|].
    apply list_eq. intros j. destruct (decide (i = j)) as [<-|].
    + by rewrite !list_lookup_alter_eq, Ha.
    + by rewrite !list_lookup_alter_ne.
Qed.

Lemma end_capture_none rec d k s p :
  open_cap k = None → impl l d k (λ ms, end_capture rec ms s p) [Bad STRPATC].
Proof.
  intros Ho ms Hst. pose proof (st_len _ _ _ Hst) as Hlen. pose proof Hst as (_ & _ & Hl & Ht & Hc).
  unfold end_capture, capture_to_close. by rewrite Hl, capture_to_close_loop_spec, Ht, Ho by lia.
Qed.

Lemma check_capture_spec d k ms c :
  st l d k ms →
  check_capture ms c =
    match back_ref k c with inl e => Err e | inr _ => Ok (Z.to_nat (c - 49)) end.
Proof.
  intros Hst. pose proof Hst as (_ & _ & Hl & _). unfold check_capture, back_ref.
  destruct (c - 49 <? 0) eqn:E0; [done|]. rewrite Hl. cbn [orb]. bprop.
  destruct (Z.of_nat (length k) <=? c - 49) eqn:E1; bprop.
  - by rewrite lookup_ge_None_2 by lia.
  - unfold cap. rewrite (st_cap _ _ _ _ Hst) by lia.
    destruct (lookup_lt_is_Some_2 k (Z.to_nat (c - 49))) as [[a w] ->]; [lia|]. cbn.
    destruct (w =? CAP_UNFINISHED); [done|]. by destruct (w =? CAP_POSITION).
Qed.

Definition back_match (k : caps) (s : nat) (c : Z) : res (option nat) :=
  match back_ref k c with
  | inl e => Err e
  | inr None => Ok None
  | inr (Some (init, len)) =>
      Ok (if bool_decide (s + len ≤ length l)%nat &&
             bool_decide (take len (drop init l) = take len (drop s l))
          then Some (s + len)%nat else None)
  end.

Lemma match_capture_spec d k ms s c :
  st l d k ms → caps_ok k s → (s ≤ length l)%nat → Z.of_nat (length l) < 2 ^ 63 →
  match_capture ms s c = back_match k s c.
Proof.
  intros Hst Hk Hs Hl. unfold match_capture, back_match. rewrite (check_capture_spec d k) by done.
  destruct (back_ref k c) as [e|o] eqn:E; [done|]. cbn [rbind]. unfold cap.
  unfold back_ref in E. destruct (c - 49 <? 0); [done|].
  destruct (k !! Z.to_nat (c - 49)) as [[a w]|] eqn:Ek; [|done].
  rewrite (st_cap _ _ _ _ Hst), Ek by eauto using lookup_lt_Some. cbn [rbind].
  pose proof (Forall_lookup_1 _ _ _ _ Hk Ek) as [Ha Hw]. cbn in Ha, Hw.
  unfold src_end. pose proof Hst as (-> & _).
  assert (u64 (Z.of_nat (length l) - Z.of_nat s) = Z.of_nat (length l) - Z.of_nat s) as ->
    by (apply wrapu_id; unfold in_u; lia).
  destruct (w =? CAP_UNFINISHED) eqn:Eu; [done|]. bprop.
  destruct (w =? CAP_POSITION) eqn:Ep; bprop.
  { injection E as <-. subst w. replace (u64 CAP_POSITION) with (2 ^ 64 - 2) by done.
    destruct (_ <=? _) eqn:?; bprop; [lia|done]. }
  injection E as <-. destruct Hw as [?|[?|[Hw0 Hw1]]]; [done..|].
  assert (u64 w = w) as -> by (apply wrapu_id; unfold in_u; lia).
  destruct (w <=? _) eqn:Ele; bprop.
  - unfold memcmp_eq, src_end. pose proof Hst as (-> & _).
    rewrite (proj2 (Nat.ltb_ge _ _)), (proj2 (Nat.ltb_ge _ _)) by lia. cbn [orb rbind].
    rewrite (bool_decide_true (s + _ ≤ _)%nat) by lia. done.
  - rewrite bool_decide_false by lia. done.
Qed.

End Captures.

(** ** The matcher *)

Lemma balanced_range b e x s cont s' :
  balanced b e x s cont = Some s' → (s < s' ≤ s + length x)%nat.
Proof.
  revert s cont. induction x as [|c x IH]; intros s cont; cbn; [done|].
  repeat case_match; intros E; try apply IH in E; simplify_eq; lia.
Qed.

Section Step.
Context (l : list Z) (init : MatchState → nat → ptr → mres) (prs : ptr → list item) (n : nat).
Hypothesis Hl : Z.of_nat (length l) < 2 ^ 63.
Hypothesis Hinit : ∀ p s d k, zterm p → (length p ≤ n)%nat → (s ≤ length l)%nat → caps_ok k s →
  impl l d k (λ ms, init ms s p) (sols l d (prs p) s k).

Lemma rec_impl p s d k :
  zterm p → (length p ≤ n)%nat → (s ≤ length l)%nat → caps_ok k s →
  impl l d k (λ ms, match_enter init ms s p) (enter l d (prs p) s k).
Proof. intros. by apply impl_enter, Hinit. Qed.

Lemma run_first p ep c s d k ms :
  (∀ x, singlematch x p ep = Ok (cls_match c x)) → st l d k ms →
  (if (s <? src_end ms)%nat then rbind (rds ms s) (λ x, singlematch x p ep) else Ok false) =
  Ok (0 <? run (cls_match c) (drop s l))%nat.
Proof.
  intros H Hst. unfold src_end. pose proof Hst as (-> & _).
  destruct (s <? length l)%nat eqn:E.
  - apply Nat.ltb_lt in E. destruct (lookup_lt_is_Some_2 l s E) as [x Ex].
    rewrite (rds_spec _ _ _ _ _ _ Hst Ex), (drop_S _ _ _ Ex). cbn. rewrite H. by destruct (cls_match c x).
  - apply Nat.ltb_ge in E. by rewrite drop_ge.
Qed.

Lemma run_pos f s : (0 <? run f (drop s l))%nat = true →
  (S s ≤ length l)%nat ∧ run f (drop s l) = S (run f (drop (S s) l)).
Proof.
  destruct (decide (s < length l)%nat) as [Hs|].
  - destruct (lookup_lt_is_Some_2 l s Hs) as [x Ex]. rewrite (drop_S _ _ _ Ex). cbn.
    destruct (f x); done.
  - by rewrite drop_ge by lia.
Qed.

(** The repetitions of an item that needs one, from the second on. *)
Lemma plus_shift (F : nat → list outcome) s m :
  rev (seq 1 (S m)) ≫= (λ i, F (s + i)%nat) = rev (seq 0 (S m)) ≫= λ i, F (S s + i)%nat.
Proof.
  rewrite <-fmap_S_seq. induction (seq 0 (S m)) as [|i L IH]; [done|].
  rewrite fmap_cons. cbn [rev]. rewrite !bind_app, IH. f_equal. cbn. by rewrite Nat.add_succ_r.
Qed.

Lemma match_default_impl p s d k :
  zterm p → hd0 p ≠ 0 → (length p ≤ S n)%nat → (s ≤ length l)%nat → caps_ok k s →
  impl l d k (λ ms, match_default init ms s p) (sols l d (parse_item prs p) s k).
Proof.
  intros Hz H0 Hn Hs Hk. unfold match_default, parse_item. rewrite classend_spec by done.
  destruct (parse_class p) as [e|[c ep]] eqn:Ec; [apply impl_err|]. cbn [rbind].
  destruct (parse_class_rest _ _ _ Hz H0 Ec) as [Hze Hlen].
  assert (∀ x, singlematch x p ep = Ok (cls_match c x)) as Hsm by eauto using singlematch_spec.
  eapply impl_ext; [intros ms Hst; rewrite (run_first _ _ c _ _ _ _ Hsm Hst); cbn [rbind]; reflexivity|].
  set (m := (0 <? run (cls_match c) (drop s l))%nat).
  assert (m = true → (S s ≤ length l)%nat ∧ caps_ok k (S s)) as Hm.
  { intros ?%run_pos. split; [tauto|]. eapply caps_ok_mono, Hk. lia. }
  assert (∀ q j, zterm q → (length q ≤ n)%nat → (s ≤ j ≤ length l)%nat →
    impl l d k (λ ms, match_enter init ms j q) (enter l d (prs q) j k)) as Hrec.
  { intros. apply rec_impl; try done; [lia|]. eapply caps_ok_mono; [|done]. lia. }
  zdestruct ep as e q. cbn [rd rbind inc hd0 hd tl] in *. cbn in Hlen.
  assert (e ≠ 0 → zterm q) as Hq by eauto using zterm_cons.
  destruct (e =? cQuest) eqn:E1; bprop.
  { cbn [sols]. subst e.
    apply (impl_orelse _ _ _ (λ ms, if m then match_enter init ms (S s) q else Ok (None, ms))).
    - apply impl_if. intros Em. apply Hrec; [auto|lia|]. apply Hm in Em. lia.
    - apply Hinit; auto. lia. }
  destruct (e =? cStar) eqn:E2; bprop.
  { cbn [sols]. subst e. eapply (impl_max_expand l p _ c Hsm _ _ _ _ q (λ j, enter l d (prs q) j k));
    [done..|]. intros j ?. apply Hrec; [auto|lia..]. }
  destruct (e =? cPlus) eqn:E3; bprop.
  { cbn [sols]. subst e. destruct m eqn:Em; unfold m in Em.
    - apply run_pos in Em as [Hs1 ->].
      change (impl l d k (λ ms, max_expand (match_enter init) ms (S s) p (cPlus :: q))
        (rev (seq 1 (S (run (cls_match c) (drop (S s) l)))) ≫= λ i, enter l d (prs q) (s + i)%nat k)).
      rewrite (plus_shift (λ j, enter l d (prs q) j k)).
      eapply (impl_max_expand l p _ c Hsm _ _ _ _ q (λ j, enter l d (prs q) j k)); [done..|].
      intros j ?. apply Hrec; [auto|lia..].
    - apply Nat.ltb_ge in Em. replace (run (cls_match c) (drop s l)) with 0%nat by lia. apply impl_fail. }
  destruct (e =? cMinus) eqn:E4; bprop.
  { cbn [sols]. subst e. eapply (impl_min_expand l p _ c Hsm _ _ _ _ q (λ j, enter l d (prs q) j k));
    [done..|]. intros j ?. apply Hrec; [auto|lia..]. }
  cbn [sols]. apply impl_if. intros Em. apply Hm in Em as [? ?]. apply Hinit; [done|cbn; lia|done..].
Qed.

Lemma match_frontier_impl p s d k :
  zterm p → (length p ≤ n)%nat → (s ≤ length l)%nat → caps_ok k s →
  impl l d k (λ ms, match_frontier init ms s p) (sols l d (parse_frontier prs p) s k).
Proof.
  intros Hz Hn Hs Hk. unfold match_frontier, parse_frontier. zdestruct p as c q.
  cbn [rd rbind hd0 hd tl]. destruct (c =? cLBr) eqn:E; bprop; cbn [negb]; [|apply impl_err].
  subst c. rewrite classend_spec by done. cbn [parse_class]. cbn -[parse_brackets classend sols matchbracketclass].
  destruct (parse_brackets q) as [e|[[neg set] ep]] eqn:Eb; [apply impl_err|]. cbn [rbind].
  assert (parse_class (cLBr :: q) = inr (CSet neg set, ep)) as Ec by (cbn; by rewrite Eb).
  destruct (parse_class_rest _ _ _ Hz ltac:(done) Ec) as [Hze Hlen].
  eapply (impl_ext _ _ _ _ (λ ms, if negb (set_match (before l s) neg set) && set_match (at_src l s) neg set
    then init ms s ep else Ok (None, ms))).
  { intros ms Hst. assert ((if (s =? 0)%nat then Ok 0 else rds ms (s - 1)) = Ok (before l s)) as ->.
    { destruct s as [|s']; [done|]. cbn. rewrite Nat.sub_0_r. apply (rds_at _ d k); [done|lia]. }
    cbn [rbind]. rewrite (matchbracketclass_spec _ _ _ _ _ Eb). cbn [rbind].
    destruct (set_match (before l s) neg set); [done|]. rewrite (rds_at _ d k _ _ Hst Hs). cbn [rbind].
    rewrite (matchbracketclass_spec _ _ _ _ _ Eb). cbn. by destruct (set_match _ neg set). }
  cbn [sols]. apply impl_if. intros _. apply Hinit; try done. cbn in *. lia.
Qed.

Lemma balance_loop_spec ms m s b e cont :
  src ms = l → (length l - s ≤ m)%nat →
  balance_loop m ms s b e cont = Ok (balanced b e (drop (S s) l) (S s) cont).
Proof.
  intros Hsrc. revert s cont. induction m as [|m IH]; intros s cont Hm; cbn [balance_loop].
  - by rewrite drop_ge by lia.
  - unfold src_end. rewrite Hsrc. destruct (S s <? length l)%nat eqn:E; cbn [negb].
    + apply Nat.ltb_lt in E. destruct (lookup_lt_is_Some_2 l (S s) E) as [x Ex].
      unfold rds. rewrite Hsrc, (lookup_app_l_Some _ _ _ _ Ex), (drop_S _ _ _ Ex). cbn [rbind balanced].
      destruct (x =? e); [|by rewrite IH by lia].
      replace (cont - 1 =? 0) with (cont =? 1) by (destruct (cont =? 1) eqn:?; destruct (cont - 1 =? 0) eqn:?; bprop; lia).
      destruct (cont =? 1); [done|]. by rewrite IH by lia.
    + apply Nat.ltb_ge in E. by rewrite drop_ge.
Qed.

Lemma matchbalance_spec d k ms s b e r :
  st l d k ms → (s ≤ length l)%nat → b ≠ 0 → e ≠ 0 →
  matchbalance ms s (b :: e :: r) =
    Ok (if at_src l s =? b then balanced b e (drop (S s) l) (S s) 1 else None).
Proof.
  intros Hst Hs Hb He. unfold matchbalance. cbn [rd rbind inc].
  rewrite (proj2 (Z.eqb_neq _ _) Hb), (proj2 (Z.eqb_neq _ _) He). cbn [rbind].
  rewrite (rds_at _ _ _ _ _ Hst Hs). cbn [rbind]. destruct (at_src l s =? b); [|done]. cbn [negb].
  apply balance_loop_spec; [apply Hst|]. unfold src_end. pose proof Hst as (-> & _). lia.
Qed.

Lemma match_balance_impl q s d k :
  zterm q → (length q ≤ n)%nat → (s ≤ length l)%nat → caps_ok k s →
  impl l d k (λ ms, rbind (matchbalance ms s q) (λ r,
      match r with
      | None => Ok (None, ms)
      | Some s => rbind (inc q) (λ q, rbind (inc q) (λ q, init ms s q))
      end)) (sols l d (parse_balance prs q) s k).
Proof.
  intros Hz Hn Hs Hk. zdestruct q as b q. unfold parse_balance.
  destruct (b =? 0) eqn:Eb; bprop.
  { subst. destruct q; apply impl_err. }
  assert (zterm q) as Hq by eauto using zterm_cons. zdestruct q as e q. cbn [orb].
  destruct (e =? 0) eqn:Ee; bprop.
  { subst. eapply impl_ext; [|apply impl_err]. intros ms Hst. unfold matchbalance. cbn.
    by rewrite (proj2 (Z.eqb_neq b 0)). }
  cbn [sols]. eapply impl_ext.
  { intros ms Hst. rewrite (matchbalance_spec d k _ _ _ _ _ Hst Hs) by done. cbn [rbind inc]. reflexivity. }
  destruct (at_src l s =? b); [|apply impl_fail].
  destruct (balanced b e (drop (S s) l) (S s) 1) as [s'|] eqn:E; [|apply impl_fail].
  apply balanced_range in E. rewrite length_drop in E. cbn in Hn.
  apply Hinit; [eauto using zterm_cons|lia| |eapply caps_ok_mono; [|done]; lia].
  destruct (decide (s < length l)%nat); lia.
Qed.

End Step.

Lemma match_back_impl l init prs n q s d k c :
  Z.of_nat (length l) < 2 ^ 63 →
  (∀ p s d k, zterm p → (length p ≤ n)%nat → (s ≤ length l)%nat → caps_ok k s →
    impl l d k (λ ms, init ms s p) (sols l d (prs p) s k)) →
  zterm q → (length q ≤ n)%nat → (s ≤ length l)%nat → caps_ok k s →
  impl l d k (λ ms, rbind (match_capture ms s c) (λ r,
      match r with None => Ok (None, ms) | Some s => init ms s q end))
    (sols l d (IBack c :: prs q) s k).
Proof.
  intros Hl Hinit Hz Hn Hs Hk. eapply impl_ext.
  { intros ms Hst. rewrite (match_capture_spec l d k) by done. reflexivity. }
  unfold back_match. cbn [sols]. destruct (back_ref k c) as [e|[[a len]|]]; [apply impl_err| |apply impl_fail].
  cbn [rbind]. destruct (bool_decide (s + len ≤ length l)%nat) eqn:E; cbn [andb]; [|apply impl_fail].
  apply bool_decide_eq_true in E. destruct (bool_decide (_ = _)); [|apply impl_fail].
  apply Hinit; try done. eapply caps_ok_mono, Hk. lia.
Qed.

(** The code from [init] on returns the first match of the items of the pattern. *)
Lemma match_init_impl l fuel p s d k :
  Z.of_nat (length l) < 2 ^ 63 → zterm p → (length p ≤ fuel)%nat → (s ≤ length l)%nat → caps_ok k s →
  impl l d k (λ ms, match_init fuel ms s p) (sols l d (parse_fuel fuel p) s k).
Proof.
  intros Hl. revert p s d k. induction fuel as [|fuel IH]; intros p s d k Hz Hn Hs Hk.
  { zdestruct p as c q. cbn in Hn. lia. }
  cbn [match_init parse_fuel]. unfold parse_step. pose proof Hz as Hz'. zdestruct p as c q.
  cbn [rd rbind inc hd0 hd tl]. cbn in Hn.
  pose proof (match_default_impl l _ _ fuel IH (c :: q) s d k Hz') as Hdef. cbn in Hdef.
  destruct (c =? 0) eqn:E0; bprop.
  { subst. cbn. apply impl_done. }
  assert (zterm q) as Hq by eauto using zterm_cons.
  assert (∀ q s k, zterm q → (length q ≤ fuel)%nat → (s ≤ length l)%nat → caps_ok k s →
    impl l d k (λ ms, match_enter (match_init fuel) ms s q) (enter l d (parse_fuel fuel q) s k)) as Hrec
    by (intros; by eapply rec_impl).
  assert (∀ q w, zterm q → (length q ≤ fuel)%nat → w = CAP_UNFINISHED ∨ w = CAP_POSITION →
    impl l d k (λ ms, start_capture (match_enter (match_init fuel)) ms s q w)
      (if (LUA_MAXCAPTURES <=? length k)%nat then [Bad STRCAPN]
       else enter l d (parse_fuel fuel q) s (k ++ [(s, w)]))) as Hopen.
  { intros q' w ? ? Hw. destruct (LUA_MAXCAPTURES <=? length k)%nat eqn:E.
    - intros ms Hst. unfold start_capture. pose proof Hst as (_ & _ & -> & _). by rewrite E.
    - apply Nat.leb_gt in E. apply impl_start_capture; [done|]. apply Hrec; try done. by apply caps_ok_snoc. }
  destruct (zterm_nonnil q Hq) as (x & r & Eqr). assert (x ≠ 0 → zterm r) as Hr by (subst; eauto using zterm_cons).
  assert (length q = S (length r)) as Hqr by (by subst).
  assert (rd q = Ok x) as -> by (by subst). assert (inc q = Ok r) as -> by (by subst).
  assert (tl q = r) as -> by (by subst). assert (hd0 q = x) as -> by (by subst). cbn [rbind].
  destruct (c =? cOpen) eqn:E1; bprop.
  { destruct (x =? cClose) eqn:Ex; bprop.
    - apply (Hopen r CAP_POSITION); [apply Hr; lia|lia|tauto].
    - apply (Hopen q CAP_UNFINISHED); [done|lia|tauto]. }
  destruct (c =? cClose) eqn:E2.
  { cbn [sols]. destruct (open_cap k) as [i|] eqn:Eo; [|by apply end_capture_none].
    destruct (open_cap_Some _ _ Eo) as [a Ha]. eapply impl_end_capture; [done..|].
    apply Hrec; [done|lia|done|]. by apply caps_ok_close. }
  destruct (c =? L_ESC) eqn:E3.
  { destruct (x =? 98) eqn:Ex; bprop.
    { apply (match_balance_impl l (match_init fuel) _ fuel IH); [apply Hr; lia|lia|done..]. }
    destruct (x =? 102) eqn:Ex2; bprop.
    { apply (match_frontier_impl l (match_init fuel) _ fuel IH); [apply Hr; lia|lia|done..]. }
    destruct (lj_char_isdigit x) eqn:Ed.
    - apply (match_back_impl l (match_init fuel) _ fuel); try done; [|lia]. apply Hr.
      intros ->. by vm_compute in Ed.
    - apply Hdef; [done|lia|done..]. }
  destruct (c =? cDollar) eqn:E4; bprop; cbn [andb].
  - destruct (x =? 0) eqn:Ex; cbn [negb].
    + cbn [sols]. eapply impl_ext; [|apply (impl_if _ _ _ (s =? length l)%nat), (λ _, impl_done l d k s)].
      intros ms Hst. unfold src_end. pose proof Hst as (-> & _). by destruct (s =? length l)%nat.
    + apply Hdef; [done|lia|done..].
  - apply Hdef; [done|lia|done..].
Qed.

Lemma match_impl l p s d k :
  Z.of_nat (length l) < 2 ^ 63 → (s ≤ length l)%nat → caps_ok k s →
  impl l d k (λ ms, match_ ms s (p ++ [0])) (enter l d (parse p) s k).
Proof.
  intros Hl Hs Hk. unfold match_, parse. rewrite length_app, Nat.add_1_r.
  apply impl_enter, match_init_impl; try done; [apply zterm_app|].
  rewrite length_app. cbn. lia.
Qed.

(** ** A fresh match *)

Lemma st_reset l d k ms : st l d k ms → st l 0 [] (ms_reset ms).
Proof. unfold st. cbn. tauto. Qed.

Lemma caps_ok_nil s : caps_ok [] s.
Proof. constructor. Qed.
#[global] Hint Resolve caps_ok_nil st_reset : vela.

(** The first match of a pattern at [s]. *)
Definition match_at (l : list Z) (p : list Z) (s : nat) : option outcome := head (enter l 0 (parse p) s []).

Lemma match_fresh l p s d k ms :
  Z.of_nat (length l) < 2 ^ 63 → (s ≤ length l)%nat → st l d k ms →
  agree l 0 [] (match_ (ms_reset ms) s (p ++ [0])) (match_at l p s).
Proof. intros. eapply match_impl; eauto with vela. Qed.
