(* ===== verification/StrPatFind.v ===== *)
(** * Searching and substituting with patterns

    What a match is, as a relation without an order of trial, and that the enumeration of
    [StrPatSpec.v] finds all its instances and nothing else; references for string.find, string.match,
    string.gmatch and string.gsub on top of [match_at], and the lemmas that the loops compute them. *)

From Stdlib Require Import ZArith Lia.
From stdpp Require Import base numbers list.
From S2P Require Import Prelude StrPat StrPatSpec StrPatRefine Cstr.

Import Char StrPat.

Local Open Scope Z_scope.

(** How often an item takes a character of its class. *)
Definition reps (it : item) : option (cclass * nat * option nat) :=
  match it with
  | IOne c => Some (c, 1%nat, Some 1%nat)
  | IOpt c => Some (c, 0%nat, Some 1%nat)
  | IStar c | IMinus c => Some (c, 0%nat, None)
  | IPlus c => Some (c, 1%nat, None)
  | _ => None
  end.

(** The octets of the source from [s] to [e] are in the class [c]. *)
Definition all_in (l : list Z) (c : cclass) (s e : nat) : Prop :=
  (e ≤ length l)%nat ∧ ∀ j, (s ≤ j < e)%nat → cls_match c (at_src l j) = true.

Section Matches.
Context (l : list Z).

Inductive Matches : list item → nat → caps → nat → caps → Prop :=
  | M_nil s k : Matches [] s k s k
  | M_open its s k e k' :
      (length k < LUA_MAXCAPTURES)%nat → Matches its s (k ++ [(s, CAP_UNFINISHED)]) e k' →
      Matches (IOpen :: its) s k e k'
  | M_pos its s k e k' :
      (length k < LUA_MAXCAPTURES)%nat → Matches its s (k ++ [(s, CAP_POSITION)]) e k' →
      Matches (IPos :: its) s k e k'
  | M_close its s k i e k' :
      open_cap k = Some i →
      Matches its s (alter (λ x, (x.1, Z.of_nat s - Z.of_nat x.1)) i k) e k' →
      Matches (IClose :: its) s k e k'
  | M_bal its b c s k s' e k' :
      at_src l s = b → balanced b c (drop (S s) l) (S s) 1 = Some s' → Matches its s' k e k' →
      Matches (IBal b c :: its) s k e k'
  | M_front its neg set s k e k' :
      set_match (before l s) neg set = false → set_match (at_src l s) neg set = true →
      Matches its s k e k' → Matches (IFront neg set :: its) s k e k'
  | M_back its c s k a len e k' :
      back_ref k c = inr (Some (a, len)) → (s + len ≤ length l)%nat →
      take len (drop a l) = take len (drop s l) → Matches its (s + len) k e k' →
      Matches (IBack c :: its) s k e k'
  | M_rep it its c lo hi i s k e k' :
      reps it = Some (c, lo, hi) → (lo ≤ i)%nat → (∀ h, hi = Some h → (i ≤ h)%nat) →
      all_in l c s (s + i) → Matches its (s + i) k e k' → Matches (it :: its) s k e k'
  | M_end its s k : s = length l → Matches (IEnd :: its) s k s k.

(** ** The enumeration *)

Lemma run_all_in c s i :
  (s ≤ length l)%nat → (i ≤ run (cls_match c) (drop s l))%nat ↔ all_in l c s (s + i).
Proof.
  unfold all_in. revert s. induction i as [|i IH]; intros s Hs.
  { split; [|lia]. intros _. split; [lia|]. intros j ?. lia. }
  destruct (decide (s < length l)%nat) as [Hlt|].
  2:{ rewrite drop_ge by lia. cbn. split; [lia|]. intros [? _]. lia. }
  destruct (lookup_lt_is_Some_2 l s Hlt) as [x Ex]. rewrite (drop_S _ _ _ Ex). cbn [run].
  assert (at_src l s = x) as Ea by (unfold at_src; by rewrite (nth_lookup_Some _ _ _ _ Ex)).
  destruct (cls_match c x) eqn:Ec.
  - rewrite <-Nat.succ_le_mono, IH by lia. replace (s + S i)%nat with (S s + i)%nat by lia.
    split; intros [? H]; (split; [done|]).
    + intros j ?. destruct (decide (j = s)) as [->|]; [by rewrite Ea|]. apply H. lia.
    + intros j ?. apply H. lia.
  - split; [lia|]. intros [? H]. specialize (H s ltac:(lia)). congruence.
Qed.

Lemma elem_enter d its s k o :
  o ∈ enter l d its s k → o = Bad STRPATX ∨ o ∈ sols l (d + 1) its s k.
Proof. unfold enter. destruct (_ <? _); [|tauto]. rewrite list_elem_of_singleton. tauto. Qed.

Lemma enter_elem d its s k e k' :
  Sol e k' ∈ sols l (d + 1) its s k ∨ (∃ x, Bad x ∈ sols l (d + 1) its s k) →
  Sol e k' ∈ enter l d its s k ∨ ∃ x, Bad x ∈ enter l d its s k.
Proof. unfold enter. destruct (_ <? _); [|done]. intros _. right. eexists. by left. Qed.

Lemma elem_reps (L : list nat) (F : nat → list outcome) e k' :
  Sol e k' ∈ L ≫= F ↔ ∃ i, i ∈ L ∧ Sol e k' ∈ F i.
Proof. rewrite list_elem_of_bind. naive_solver. Qed.

(** The repetitions that the enumeration tries. *)
Definition tries (it : item) (n : nat) : list nat :=
  match it with
  | IOne _ => if (0 <? n)%nat then [1%nat] else []
  | IOpt _ => if (0 <? n)%nat then [1; 0]%nat else [0%nat]
  | IStar _ => rev (seq 0 (S n))
  | IPlus _ => rev (seq 1 n)
  | IMinus _ => seq 0 (S n)
  | _ => []
  end.

Lemma elem_tries it c lo hi n i :
  reps it = Some (c, lo, hi) →
  i ∈ tries it n ↔ (lo ≤ i ≤ n)%nat ∧ ∀ h, hi = Some h → (i ≤ h)%nat.
Proof.
  intros E.
  assert (∀ a m, i ∈ rev (seq a m) ↔ (a ≤ i < a + m)%nat) as Hrev
    by (intros; by rewrite list_elem_of_In, <-in_rev, in_seq).
  assert (∀ a, a = Some 1%nat → (∀ h, a = Some h → (i ≤ h)%nat) ↔ (i ≤ 1)%nat) as H1
    by (intros ? ->; split; [by intros H; apply H|by intros ? ? [= <-]]).
  destruct it; try done; injection E as <- <- <-; cbn [tries].
  - rewrite H1 by done. destruct (Nat.ltb_spec 0 n); rewrite ?list_elem_of_singleton, ?elem_of_nil; lia.
  - rewrite H1 by done. destruct (Nat.ltb_spec 0 n); rewrite ?elem_of_cons, ?elem_of_nil; lia.
  - rewrite Hrev. intuition (done || lia).
  - rewrite Hrev. intuition (done || lia).
  - rewrite elem_of_seq. intuition (done || lia).
Qed.

(** After [i] repetitions the code goes on by a jump or by a call. *)
Definition after_rep (d : Z) (it : item) (its : list item) (i s : nat) (k : caps) : list outcome :=
  match it, i with
  | IOne _, _ | IOpt _, O => sols l d its s k
  | _, _ => enter l d its s k
  end.

Lemma sols_rep d it its s k c lo hi :
  reps it = Some (c, lo, hi) →
  sols l d (it :: its) s k =
    tries it (run (cls_match c) (drop s l)) ≫= λ i, after_rep d it its i (s + i)%nat k.
Proof.
  destruct it; intros E; try done; injection E as <- <- <-; cbn [tries sols after_rep].
  - destruct (0 <? _)%nat; [|done]. cbn. by rewrite app_nil_r, Nat.add_1_r.
  - destruct (0 <? _)%nat; cbn; by rewrite ?app_nil_r, ?Nat.add_1_r, ?Nat.add_0_r.
  - by apply list_bind_ext.
  - by apply list_bind_ext.
  - by apply list_bind_ext.
Qed.

Lemma after_sols d it its i s k o :
  o ∈ after_rep d it its i s k → o = Bad STRPATX ∨ ∃ d', o ∈ sols l d' its s k.
Proof.
  unfold after_rep. intros H.
  assert (o ∈ sols l d its s k ∨ o ∈ enter l d its s k) as [?|[?|?]%elem_enter]
    by (destruct it; try tauto; destruct i; tauto); eauto.
Qed.

(** What the enumeration finds is a match. *)
Lemma sols_sound d its s k e k' :
  (s ≤ length l)%nat → Sol e k' ∈ sols l d its s k → Matches its s k e k'.
Proof.
  revert d s k. induction its as [|it its IH]; intros d s k Hs H.
  { cbn in H. apply list_elem_of_singleton in H as [= -> ->]. constructor. }
  assert (∀ d s k, (s ≤ length l)%nat → Sol e k' ∈ enter l d its s k → Matches its s k e k') as IHe
    by (intros ? ? ? ? [?|?]%elem_enter; [done|eauto]).
  destruct (reps it) as [[[c lo] hi]|] eqn:Er.
  - rewrite (sols_rep _ _ _ _ _ _ _ _ Er), elem_reps in H. destruct H as (i & Hi & H).
    apply (elem_tries _ _ _ _ _ _ Er) in Hi as [Hi Hhi].
    assert (all_in l c s (s + i)) as Ha by (apply run_all_in; [done|lia]).
    apply after_sols in H as [?|[d' H]]; [done|].
    eapply (M_rep it its c lo hi i); [done|lia|done|done|]. eapply IH, H. apply Ha.
  - destruct it as [| | |b c|neg set|c| | | | | | |x]; try done; cbn [sols] in H.
    + destruct (Nat.leb_spec LUA_MAXCAPTURES (length k)); [by apply list_elem_of_singleton in H|].
      apply M_open; [done|]. by eapply IHe.
    + destruct (Nat.leb_spec LUA_MAXCAPTURES (length k)); [by apply list_elem_of_singleton in H|].
      apply M_pos; [done|]. by eapply IHe.
    + destruct (open_cap k) as [i|] eqn:Eo; [|by apply list_elem_of_singleton in H].
      eapply M_close; [done|]. by eapply IHe.
    + destruct (at_src l s =? b) eqn:Eb; [|by apply elem_of_nil in H]. bprop.
      destruct (balanced b c _ _ _) as [s'|] eqn:Es; [|by apply elem_of_nil in H].
      eapply M_bal; [done..|]. eapply IH, H. apply balanced_range in Es. rewrite length_drop in Es.
      destruct (decide (s < length l)%nat); lia.
    + destruct (set_match (before l s) neg set) eqn:E1, (set_match (at_src l s) neg set) eqn:E2;
        cbn in H; try by apply elem_of_nil in H. apply M_front; [done..|]. by eapply IH.
    + destruct (back_ref k c) as [x|[[a len]|]] eqn:Eb; [by apply list_elem_of_singleton in H| |by apply elem_of_nil in H].
      destruct (bool_decide _ && bool_decide _) eqn:E; [|by apply elem_of_nil in H].
      apply andb_prop in E as [E1%bool_decide_eq_true E2%bool_decide_eq_true].
      eapply M_back; [done..|]. by eapply IH.
    + destruct (Nat.eqb_spec s (length l)); [|by apply elem_of_nil in H].
      apply list_elem_of_singleton in H as [= -> ->]. by apply M_end.
    + by apply list_elem_of_singleton in H.
Qed.

(** Every match is found, unless the search can run into an error. *)
Lemma sols_complete d its s k e k' :
  (s ≤ length l)%nat → Matches its s k e k' →
  Sol e k' ∈ sols l d its s k ∨ ∃ x, Bad x ∈ sols l d its s k.
Proof.
  intros Hs H. revert d Hs.
  induction H as [s k|its s k e k' ? H IH|its s k e k' ? H IH|its s k i e k' Eo H IH
    |its b c s k s' e k' ? Eb H IH|its neg set s k e k' E1 E2 H IH|its c s k a len e k' Eb Hl Et H IH
    |it its c lo hi i s k e k' Er Hlo Hhi Ha H IH|its s k ->]; intros d Hs.
  - left. by left.
  - cbn [sols]. rewrite (proj2 (Nat.leb_gt _ _)) by done. apply enter_elem. by apply IH.
  - cbn [sols]. rewrite (proj2 (Nat.leb_gt _ _)) by done. apply enter_elem. by apply IH.
  - cbn [sols]. rewrite Eo. apply enter_elem. by apply IH.
  - cbn [sols]. rewrite (proj2 (Z.eqb_eq _ _)), Eb by done. apply IH.
    apply balanced_range in Eb. rewrite length_drop in Eb. destruct (decide (s < length l)%nat); lia.
  - cbn [sols]. rewrite E1, E2. by apply IH.
  - cbn [sols]. rewrite Eb, !bool_decide_true by done. by apply IH.
  - rewrite (sols_rep _ _ _ _ _ _ _ _ Er).
    assert (i ∈ tries it (run (cls_match c) (drop s l))) as Hi.
    { apply (elem_tries _ _ _ _ _ _ Er). split; [|done]. split; [done|]. by apply run_all_in. }
    assert (Sol e k' ∈ after_rep d it its i (s + i) k ∨ ∃ x, Bad x ∈ after_rep d it its i (s + i) k) as [?|[x ?]].
    { pose proof (enter_elem d its (s + i) k e k' (IH _ ltac:(apply Ha))) as He.
      pose proof (IH d ltac:(apply Ha)) as Hg. unfold after_rep. destruct it; try tauto; destruct i; tauto. }
    + left. rewrite list_elem_of_bind. eauto.
    + right. exists x. rewrite list_elem_of_bind. eauto.
  - cbn [sols]. rewrite Nat.eqb_refl. left. by left.
Qed.

(** A match lies in the source, and so do its captures. *)
Lemma Matches_range its s k e k' :
  (s ≤ length l)%nat → caps_ok k s → Matches its s k e k' → (s ≤ e ≤ length l)%nat ∧ caps_ok k' e.
Proof.
  intros Hs Hk H. revert Hs Hk.
  induction H as [s k|its s k e k' ? H IH|its s k e k' ? H IH|its s k i e k' Eo H IH
    |its b c s k s' e k' ? Eb H IH|its neg set s k e k' E1 E2 H IH|its c s k a len e k' Eb Hl Et H IH
    |it its c lo hi i s k e k' Er Hlo Hhi Ha H IH|its s k ->]; intros Hs Hk.
  - done.
  - apply IH; eauto with vela.
  - apply IH; eauto with vela.
  - apply IH; eauto with vela.
  - apply balanced_range in Eb. rewrite length_drop in Eb.
    destruct IH as [? ?]; [destruct (decide (s < length l)%nat); lia|eapply caps_ok_mono; [|done]; lia|].
    split; [lia|done].
  - by apply IH.
  - destruct IH as [? ?]; [lia|eapply caps_ok_mono; [|done]; lia|]. split; [lia|done].
  - destruct IH as [? ?]; [apply Ha|eapply caps_ok_mono; [|done]; lia|]. split; [lia|done].
  - done.
Qed.

End Matches.

Import Char StrPat.


(** ** A match at one offset *)

Lemma match_at_Sol l p s e k :
  (s ≤ length l)%nat → match_at l p s = Some (Sol e k) →
  (s ≤ e ≤ length l)%nat ∧ caps_ok k e ∧ Matches l (parse p) s [] e k.
Proof.
  intros Hs H. assert (Matches l (parse p) s [] e k) as HM.
  { unfold match_at in H. destruct (enter l 0 (parse p) s []) as [|o L] eqn:E; [done|]. injection H as ->.
    assert (Sol e k ∈ enter l 0 (parse p) s []) as [?|?]%elem_enter by (rewrite E; by left); [done|].
    by eapply sols_sound. }
  destruct (Matches_range _ _ _ _ _ _ Hs (caps_ok_nil s) HM). done.
Qed.

Lemma match_at_None l p s e k :
  (s ≤ length l)%nat → match_at l p s = None → ¬ Matches l (parse p) s [] e k.
Proof.
  intros Hs H HM. unfold match_at in H. apply (sols_complete _ (0 + 1)) in HM; [|done].
  destruct (enter_elem l 0 (parse p) s [] e k HM) as [Hin|[x Hin]];
    destruct (enter l 0 (parse p) s []); by try apply elem_of_nil in Hin.
Qed.

(** The first of some offsets with an outcome. *)
Fixpoint first_match (l p : list Z) (hs : list nat) : option (nat * outcome) :=
  match hs with
  | [] => None
  | h :: hs => match match_at l p h with Some o => Some (h, o) | None => first_match l p hs end
  end.

Lemma first_match_Some l p a m h o :
  first_match l p (seq a m) = Some (h, o) →
  (a ≤ h < a + m)%nat ∧ match_at l p h = Some o ∧ ∀ j, (a ≤ j < h)%nat → match_at l p j = None.
Proof.
  revert a. induction m as [|m IH]; intros a; cbn; [done|].
  destruct (match_at l p a) as [o'|] eqn:E.
  - intros [= <- <-]. split; [lia|]. split; [done|]. intros j ?. lia.
  - intros (? & ? & Hj)%IH. split; [lia|]. split; [done|]. intros j ?.
    destruct (decide (j = a)) as [->|]; [done|]. apply Hj. lia.
Qed.

(** ** Captures *)

Definition cap_val (l : list Z) (x : nat * Z) : res capval :=
  if x.2 =? CAP_UNFINISHED then Err STRCAPU
  else if x.2 =? CAP_POSITION then Ok (CInt (Z.of_nat x.1 + 1))
  else Ok (CStr (sub_src l x.1 (x.1 + Z.to_nat x.2))).

Fixpoint cap_vals (l : list Z) (k : caps) : res (list capval) :=
  match k with
  | [] => Ok []
  | x :: k => rbind (cap_val l x) (λ v, rbind (cap_vals l k) (λ vs, Ok (v :: vs)))
  end.

(** The values of a match: its captures, or the match itself if there are none. *)
Definition captures (l : list Z) (k : caps) (se : option (nat * nat)) : res (list capval) :=
  match k, se with
  | [], Some (s, e) => Ok [CStr (sub_src l s e)]
  | _, _ => cap_vals l k
  end.

Definition one_capture (l : list Z) (k : caps) (i s e : nat) : res capval :=
  match k !! i with
  | Some x => cap_val l x
  | None => if (i =? 0)%nat then Ok (CStr (sub_src l s e)) else Err STRCAPI
  end.

Lemma push_onecapture_spec l d k ms i s e :
  st l d k ms → push_onecapture ms (Z.of_nat i) s e = one_capture l k i s e.
Proof.
  intros Hst. pose proof Hst as (Hsrc & _ & Hl & _). unfold push_onecapture, one_capture.
  rewrite Hl, Hsrc. destruct (_ <=? _) eqn:E; bprop.
  - rewrite lookup_ge_None_2 by lia. by destruct i.
  - unfold cap. rewrite Nat2Z.id, (st_cap _ _ _ _ _ Hst) by lia.
    destruct (lookup_lt_is_Some_2 k i) as [[a w] ->]; [lia|]. done.
Qed.

Lemma push_loop_spec l d k ms n i s e :
  st l d k ms → (i + n = length k)%nat → push_loop n ms i s e = cap_vals l (drop i k).
Proof.
  intros Hst. revert i. induction n as [|n IH]; intros i Hn; cbn [push_loop].
  - by rewrite drop_ge by lia.
  - rewrite (push_onecapture_spec l d k) by done. unfold one_capture.
    destruct (lookup_lt_is_Some_2 k i) as [x E]; [lia|]. rewrite E, (drop_S _ _ _ E). cbn.
    by rewrite IH by lia.
Qed.

Lemma push_captures_spec l d k ms se : st l d k ms → push_captures ms se = captures l k se.
Proof.
  intros Hst. pose proof Hst as (_ & _ & Hl & _). unfold push_captures, captures. rewrite Hl.
  destruct se as [[s e]|].
  - destruct k as [|x k'] eqn:Ek.
    + cbn. rewrite (push_onecapture_spec l d [] ms 0) by done. done.
    + rewrite <-Ek in *. replace (length k =? 0)%nat with false by (by subst).
      rewrite (push_loop_spec l d k) by done. done.
  - rewrite (push_loop_spec l d k) by done. by destruct k.
Qed.

(** A failed match leaves a state for the next, a successful one the captures. *)
Ltac match_step Hst :=
  let H := fresh "Hag" in
  let T := type of Hst in
  match goal with
  | |- context [match_ (ms_reset ?ms) ?s (?p ++ [0])] =>
      match T with st ?l ?d ?k _ =>
        pose proof (match_fresh l p s d k ms ltac:(assumption) ltac:(assumption || lia) Hst) as H
      end
  end;
  unfold agree in H;
  match type of H with
  | context [match_at ?l ?p ?s] => destruct (match_at l p s) as [[?e ?k|?e]|] eqn:?
  end;
  [destruct H as (? & -> & ?)|rewrite H|destruct H as (? & -> & ?)]; cbn [rbind].

(** ** string.find and string.match *)

Definition find_result (l : list Z) (find : bool) (h : nat) (o : outcome) : res findres :=
  match o with
  | Bad e => Err e
  | Sol e k =>
      rbind (captures l k (if find then None else Some (h, e))) (λ vs,
      Ok (if find then FRange (Z.of_nat h + 1) (Z.of_nat e) vs else FCaps vs))
  end.

Definition find_spec (l p : list Z) (hs : list nat) (find : bool) : res findres :=
  match first_match l p hs with
  | None => Ok FNil
  | Some (h, o) => find_result l find h o
  end.

Lemma i32_small x : 0 ≤ x < 2 ^ 31 → i32 x = x.
Proof. intros ?. apply wraps_id; [done|]. unfold in_s. lia. Qed.

Lemma find_pattern_spec l p n h anchor find d k ms :
  Z.of_nat (length l) < 2 ^ 31 - 1 → st l d k ms → n = (length l - h)%nat → (h ≤ length l)%nat →
  find_pattern n ms h (p ++ [0]) anchor find =
    find_spec l p (if anchor then [h] else seq h (S n)) find.
Proof.
  intros Hl. assert (Z.of_nat (length l) < 2 ^ 63) by lia.
  assert (∀ h hs o, match_at l p h = Some o → find_spec l p (h :: hs) find = find_result l find h o)
    as Hfs by (intros ? ? ? E; unfold find_spec; cbn; by rewrite E).
  assert (∀ h hs, match_at l p h = None → find_spec l p (h :: hs) find = find_spec l p hs find)
    as Hfn by (intros ? ? E; unfold find_spec; cbn; by rewrite E).
  assert (∀ h m, (if anchor then [h] else seq h (S m)) = h :: if anchor then [] else seq (S h) m) as Hcons
    by (by destruct anchor).
  revert h d k ms. induction n as [|n IH]; intros h d k ms Hst Hn Hh; cbn [find_pattern];
    rewrite Hcons; match_step Hst; try (by rewrite (Hfs _ _ _ Heqo)).
  - rewrite (Hfs _ _ _ Heqo). apply match_at_Sol in Heqo as [? _]; [|done].
    rewrite !(push_captures_spec l 0 k0) by done. rewrite !i32_small by lia. cbn. by destruct find.
  - rewrite Hfn by done. by destruct anchor.
  - rewrite (Hfs _ _ _ Heqo). apply match_at_Sol in Heqo as [? _]; [|done].
    rewrite !(push_captures_spec l 0 k0) by done. rewrite !i32_small by lia. cbn. by destruct find.
  - rewrite Hfn by done. destruct anchor; [done|]. eapply IH; [done|lia..].
Qed.

(** The offset at which a search begins. *)
Definition find_start (len : nat) (init : Z) : nat :=
  Z.to_nat (Z.min (Z.of_nat len) (Z.max 0 (if init <? 0 then Z.of_nat len + init else init - 1))).

Lemma find_init_spec len init :
  Z.of_nat len < 2 ^ 31 → in_s 32 init → Z.to_nat (find_init (Z.of_nat len) init) = find_start len init.
Proof.
  intros Hlen Hi. unfold find_init, find_start. unfold in_s in Hi. f_equal.
  replace (if init <? 0 then i32 (init + Z.of_nat len) else i32 (init - 1))
    with (if init <? 0 then Z.of_nat len + init else init - 1).
  - repeat case_match; bprop; lia.
  - destruct (init <? 0) eqn:E; bprop; symmetry; unfold i32; rewrite wraps_id; unfold in_s; lia.
Qed.

(** The anchor at the beginning of a pattern, and the rest of it. *)
Definition anchored (p : list Z) : bool * list Z :=
  match p with c :: q => if c =? cCaret then (true, q) else (false, p) | [] => (false, p) end.

Lemma anchor_step {B} (p : list Z) (f : bool → ptr → res B) :
  rbind (rd (p ++ [0])) (λ c, rbind (if c =? cCaret then inc (p ++ [0]) else Ok (p ++ [0])) (f (c =? cCaret))) =
  f (anchored p).1 ((anchored p).2 ++ [0]).
Proof. destruct p as [|c p]; cbn; [done|]. by destruct (c =? cCaret). Qed.

Lemma st_fresh l k0 : length k0 = LUA_MAXCAPTURES → st l 0 [] (mkMS l 0 0 k0).
Proof. done. Qed.

(** ** string.gmatch *)

Definition gmatch_result (l : list Z) (h : nat) (o : outcome) : res (option (Z * list capval)) :=
  match o with
  | Bad e => Err e
  | Sol e k =>
      rbind (captures l k (Some (h, e))) (λ vs, Ok (Some (Z.of_nat (if (e =? h)%nat then S e else e), vs)))
  end.

Definition gmatch_spec (l p : list Z) (hs : list nat) : res (option (Z * list capval)) :=
  match first_match l p hs with
  | None => Ok None
  | Some (h, o) => gmatch_result l h o
  end.

Lemma gmatch_loop_spec l p n h d k ms :
  Z.of_nat (length l) < 2 ^ 31 - 1 → st l d k ms → n = (length l - h)%nat → (h ≤ length l)%nat →
  gmatch_loop n ms h (p ++ [0]) = gmatch_spec l p (seq h (S n)).
Proof.
  intros Hl. assert (Z.of_nat (length l) < 2 ^ 63) by lia. unfold gmatch_spec.
  assert (∀ h e k ms, (h ≤ e ≤ length l)%nat → st l 0 k ms →
    rbind (push_captures ms (Some (h, e))) (λ vs, Ok (Some (u32 (if (e =? h)%nat
      then i32 (i32 (Z.of_nat e) + 1) else i32 (Z.of_nat e)), vs))) =
    gmatch_result l h (Sol e k)) as Hr.
  { intros h0 e k' ms' He Hst. rewrite (push_captures_spec l 0 k') by done. cbn.
    replace (u32 _) with (Z.of_nat (if (e =? h0)%nat then S e else e)); [done|].
    rewrite (i32_small (Z.of_nat e)) by lia. symmetry.
    destruct (e =? h0)%nat; rewrite ?i32_small by lia; unfold u32; rewrite wrapu_id; unfold in_u; lia. }
  revert h d k ms. induction n as [|n IH]; intros h d k ms Hst Hn Hh; cbn [gmatch_loop];
    rewrite <-cons_seq; cbn [first_match]; match_step Hst; try done.
  - apply match_at_Sol in Heqo as [? _]; [|done]. by apply Hr.
  - apply match_at_Sol in Heqo as [? _]; [|done]. by apply Hr.
  - eapply IH; [done|lia..].
Qed.

Import Char StrPat.


(** ** Replacement texts *)

Inductive titem := TLit (c : Z) | TWhole | TCap (i : nat).

(** An escape at the end takes the terminator, a zero. *)
Fixpoint parse_repl (news : list Z) : list titem :=
  match news with
  | [] => []
  | x :: news =>
      if x =? L_ESC then
        match news with
        | [] => [TLit 0]
        | y :: news =>
            (if negb (lj_char_isdigit y) then TLit y
             else if y =? 48 then TWhole else TCap (Z.to_nat (y - 49))) :: parse_repl news
        end
      else TLit x :: parse_repl news
  end.

Definition titem_text (l : list Z) (k : caps) (s e : nat) (t : titem) : res (list Z) :=
  match t with
  | TLit c => Ok [c]
  | TWhole => Ok (sub_src l s e)
  | TCap i => rbind (one_capture l k i s e) (λ v, Ok (capval_text v))
  end.

Fixpoint fill_template (l : list Z) (k : caps) (s e : nat) (ts : list titem) : res (list Z) :=
  match ts with
  | [] => Ok []
  | t :: ts => rbind (titem_text l k s e t) (λ x, rbind (fill_template l k s e ts) (λ r, Ok (x ++ r)))
  end.

Lemma isdigit_range y : lj_char_isdigit y = true → 48 ≤ y ≤ 57.
Proof.
  unfold lj_char_isdigit, lj_char_isa. intros H.
  destruct (decide (y < -1)). { by replace (Z.to_nat (y + 1)) with O in H by lia. }
  destruct (decide (256 ≤ y)). { by rewrite nth_overflow in H by (cbn; lia). }
  assert (Forall (λ z, negb (Z.land (nth (Z.to_nat (z + 1)) lj_char_bits 0) LJ_CHAR_DIGIT =? 0) = true →
    48 ≤ z ≤ 57) (seqZ (-1) 257)) as Hall.
  { apply (bool_decide_unpack _). by vm_compute. }
  rewrite Forall_forall in Hall. apply Hall; [|done]. apply elem_of_seqZ. lia.
Qed.

Lemma add_s_spec l d k ms news s e :
  st l d k ms → add_s ms news s e = fill_template l k s e (parse_repl news).
Proof.
  intros Hst. remember (length news) as n eqn:En. revert news En.
  induction n as [n IH] using lt_wf_ind. intros [|x news] ->; [done|]. cbn [add_s parse_repl].
  destruct (x =? L_ESC); cbn [negb].
  2:{ cbn [fill_template titem_text rbind]. by rewrite <-(IH (length news)) by (cbn; lia || done). }
  destruct news as [|y news]; [done|]. cbn [fill_template]. rewrite <-(IH (length news)) by (cbn; lia || done).
  destruct (lj_char_isdigit y) eqn:Ed; cbn [negb titem_text rbind]; [|done].
  destruct (y =? 48) eqn:E0; cbn [titem_text rbind].
  { pose proof Hst as (-> & _). done. }
  apply isdigit_range in Ed. bprop. replace (y - 49) with (Z.of_nat (Z.to_nat (y - 49))) at 1 by lia.
  rewrite (push_onecapture_spec l d k) by done. by destruct (one_capture _ _ _ _ _).
Qed.

(** The text that replaces a match, and the state after the code that was run for it. *)
Definition value_text (l : list Z) (s e : nat) (v : rvalue) : res (list Z) :=
  match v with VFalsy => Ok (sub_src l s e) | VStr t => Ok t | VOther => Err STRGSRV end.

Definition replacement {St} (r : repl St) (σ : St) (l : list Z) (k : caps) (s e : nat) : res (St * list Z) :=
  match r with
  | RString news => rbind (fill_template l k s e (parse_repl news)) (λ t, Ok (σ, t))
  | RFunction f =>
      rbind (captures l k (Some (s, e))) (λ vs,
      rbind (f σ vs) (λ '(σ, v), rbind (value_text l s e v) (λ t, Ok (σ, t))))
  | RTable index =>
      rbind (one_capture l k 0 s e) (λ c,
      rbind (index σ c) (λ '(σ, v), rbind (value_text l s e v) (λ t, Ok (σ, t))))
  | ROther => Undef
  end.

Lemma add_value_spec {St} (r : repl St) σ l d k ms s e :
  st l d k ms → add_value r σ ms s e = replacement r σ l k s e.
Proof.
  intros Hst. pose proof Hst as (Hsrc & _). unfold add_value, replacement, rvalue_text, value_text.
  destruct r as [news|f|g|]; [| | |done].
  - by rewrite (add_s_spec l d k).
  - rewrite (push_captures_spec l d k), Hsrc by done. done.
  - rewrite (push_onecapture_spec l d k _ 0), Hsrc by done. done.
Qed.

(** Called code has a defined result. *)
Definition calls_ok {St} (r : repl St) : Prop :=
  match r with
  | RString _ => True
  | RFunction f => ∀ σ vs, f σ vs ≠ Undef
  | RTable index => ∀ σ c, index σ c ≠ Undef
  | ROther => False
  end.

Lemma cap_val_defined l x : cap_val l x ≠ Undef.
Proof. unfold cap_val. by repeat case_match. Qed.

Lemma cap_vals_defined l k : cap_vals l k ≠ Undef.
Proof.
  induction k as [|x k IH]; [done|]. cbn. pose proof (cap_val_defined l x).
  destruct (cap_val l x); [|done..]. cbn. by destruct (cap_vals l k).
Qed.

Lemma captures_defined l k se : captures l k se ≠ Undef.
Proof. pose proof (cap_vals_defined l k). unfold captures. by repeat case_match. Qed.

Lemma one_capture_defined l k i s e : one_capture l k i s e ≠ Undef.
Proof. unfold one_capture. repeat case_match; try done. apply cap_val_defined. Qed.

Lemma fill_defined l k s e ts : fill_template l k s e ts ≠ Undef.
Proof.
  induction ts as [|t ts IH]; [done|]. cbn.
  assert (titem_text l k s e t ≠ Undef).
  { destruct t; try done. cbn. pose proof (one_capture_defined l k i s e). by destruct (one_capture _ _ _ _ _). }
  destruct (titem_text _ _ _ _ _); [|done..]. cbn. by destruct (fill_template _ _ _ _ _).
Qed.

Lemma replacement_defined {St} (r : repl St) σ l k s e : calls_ok r → replacement r σ l k s e ≠ Undef.
Proof.
  assert (∀ v, value_text l s e v ≠ Undef) as Hv by (by intros []).
  destruct r as [news|f|g|]; cbn; intros Hr; [| | |done].
  - pose proof (fill_defined l k s e (parse_repl news)). by destruct (fill_template _ _ _ _ _).
  - pose proof (captures_defined l k (Some (s, e))). destruct (captures _ _ _) as [vs| |]; [|done..]. cbn.
    specialize (Hr σ vs). destruct (f σ vs) as [[σ' v]| |]; [|done..]. cbn. specialize (Hv v).
    by destruct (value_text _ _ _ _).
  - pose proof (one_capture_defined l k 0 s e). destruct (one_capture _ _ _ _ _) as [c| |]; [|done..]. cbn.
    specialize (Hr σ c). destruct (g σ c) as [[σ' v]| |]; [|done..]. cbn. specialize (Hv v).
    by destruct (value_text _ _ _ _).
Qed.

(** ** Sequences of matches *)

Section Subst.
Context {St : Type} (r : repl St) (l p : list Z) (anchor : bool).

(** The offsets that are tried from [pos] on, and where to go on after a match. *)
Definition tried (pos : nat) : list nat :=
  if anchor then (if (pos =? 0)%nat then [0%nat] else []) else seq pos (S (length l) - pos).
Definition next (a e : nat) : nat := if (e =? a)%nat then S a else e.

(** From [σ] at [pos], the matches with their replacements lead to [σ'] at [pos']. *)
Inductive Subst : St → nat → list (nat * nat * list Z) → St → nat → Prop :=
  | Subst_nil σ pos : Subst σ pos [] σ pos
  | Subst_cons σ pos a e k σ1 t segs σ' pos' :
      first_match l p (tried pos) = Some (a, Sol e k) →
      replacement r σ l k a e = Ok (σ1, t) →
      Subst σ1 (next a e) segs σ' pos' →
      Subst σ pos ((a, e, t) :: segs) σ' pos'.

(** The source from [pos] on with the matches replaced. *)
Fixpoint rebuild (pos : nat) (segs : list (nat * nat * list Z)) : list Z :=
  match segs with
  | [] => drop pos l
  | (a, e, t) :: segs => sub_src l pos a ++ t ++ rebuild e segs
  end.

(** What a run of the loop from [σ] at [pos] may end in, with [m] substitutions at most. *)
Definition gsub_post (σ : St) (pos : nat) (m : Z) (b : list Z) (n : Z)
    (o : res (St * (list Z * Z))) : Prop :=
  match o with
  | Ok (σ', (out, n')) => ∃ segs pos',
      Subst σ pos segs σ' pos' ∧ out = b ++ rebuild pos segs ∧ n' = n + Z.of_nat (length segs) ∧
      (n' = Z.max n m ∨ n' < m ∧ first_match l p (tried pos') = None)
  | Err x => ∃ segs σ1 pos1,
      Subst σ pos segs σ1 pos1 ∧ n + Z.of_nat (length segs) < m ∧
      ((∃ a, first_match l p (tried pos1) = Some (a, Bad x)) ∨
       ∃ a e k, first_match l p (tried pos1) = Some (a, Sol e k) ∧ replacement r σ1 l k a e = Err x)
  | Undef => False
  end.

(** ** The loop *)

Lemma first_match_here pos o :
  (pos ≤ length l)%nat → (anchor = true → pos = 0%nat) → match_at l p pos = Some o →
  first_match l p (tried pos) = Some (pos, o).
Proof.
  intros Hp Ha E. unfold tried. destruct anchor.
  - rewrite Ha in * by done. cbn. by rewrite E.
  - replace (S (length l) - pos)%nat with (S (length l - pos)) by lia. cbn. by rewrite E.
Qed.

Lemma first_match_skip pos :
  (pos ≤ length l)%nat → match_at l p pos = None → (anchor = true → pos = 0%nat) →
  first_match l p (tried pos) = first_match l p (tried (S pos)).
Proof.
  intros Hp E Ha. unfold tried. destruct anchor.
  - rewrite Ha in * by done. cbn. by rewrite E.
  - replace (S (length l) - pos)%nat with (S (length l - pos)) by lia. cbn [seq first_match].
    rewrite E. by replace (S (length l) - S pos)%nat with (length l - pos)%nat by lia.
Qed.

Lemma rebuild_skip σ pos c segs σ' pos' :
  l !! pos = Some c → Subst σ (S pos) segs σ' pos' → rebuild pos segs = c :: rebuild (S pos) segs.
Proof.
  intros Hc H. inversion H as [|? ? a e k σ1 t segs' ? ? Hf _ _]; subst; cbn.
  - by apply drop_S.
  - assert (S pos ≤ a)%nat as Ha.
    { unfold tried in Hf. destruct anchor; [done|]. apply first_match_Some in Hf. lia. }
    unfold sub_src. rewrite (drop_S _ _ _ Hc).
    replace (a - pos)%nat with (S (a - S pos)) by lia. done.
Qed.

(** An octet that no match begins at is copied. *)
Lemma post_skip σ pos m b n c o :
  l !! pos = Some c → match_at l p pos = None → (anchor = true → pos = 0%nat) →
  gsub_post σ (S pos) m (b ++ [c]) n o → gsub_post σ pos m b n o.
Proof.
  intros Hc E Ha. pose proof (lookup_lt_Some _ _ _ Hc) as Hlt.
  pose proof (first_match_skip pos ltac:(lia) E Ha) as Hskip.
  assert (∀ segs σ' pos', Subst σ (S pos) segs σ' pos' →
    ∃ pos'', Subst σ pos segs σ' pos'' ∧ first_match l p (tried pos'') = first_match l p (tried pos')) as Hs.
  { intros segs σ' pos' H. inversion H; subst; [exists pos; split; [constructor|done]|].
    exists pos'. split; [|done]. econstructor; [|done..]. by rewrite Hskip. }
  destruct o as [[σ' [out n']]|x|]; cbn; [| |done].
  - intros (segs & pos' & H & -> & ? & Hend). destruct (Hs _ _ _ H) as (pos'' & H' & Ef).
    exists segs, pos''. split; [done|]. rewrite Ef. split_and!; [|done..].
    by rewrite (rebuild_skip _ _ _ _ _ _ Hc H), <-app_assoc.
  - intros (segs & σ1 & pos1 & H & ? & Hend). destruct (Hs _ _ _ H) as (pos'' & H' & Ef).
    exists segs, σ1, pos''. by rewrite Ef.
Qed.

(** A match at the current offset, with what follows it. *)
Lemma post_match σ pos m b n e k σ1 t b1 o :
  (pos ≤ length l)%nat → (anchor = true → pos = 0%nat) → n < m →
  match_at l p pos = Some (Sol e k) → replacement r σ l k pos e = Ok (σ1, t) →
  (∀ segs σ' pos', Subst σ1 (next pos e) segs σ' pos' →
    b1 ++ rebuild (next pos e) segs = b ++ t ++ rebuild e segs) →
  gsub_post σ1 (next pos e) m b1 (n + 1) o → gsub_post σ pos m b n o.
Proof.
  intros Hp Ha Hn E Er Hb. pose proof (first_match_here _ _ Hp Ha E) as Hf.
  destruct o as [[σ' [out n']]|x|]; cbn; [| |done].
  - intros (segs & pos' & H & -> & ? & Hend). exists ((pos, e, t) :: segs), pos'.
    split; [by econstructor|]. cbn. unfold sub_src. rewrite Nat.sub_diag. split_and!.
    + by apply (Hb _ _ _ H).
    + lia.
    + destruct Hend; [left; lia|by right].
  - intros (segs & σ2 & pos2 & H & ? & Hend). exists ((pos, e, t) :: segs), σ2, pos2.
    split; [by econstructor|]. cbn. split; [lia|done].
Qed.

Lemma post_finish σ pos m b n :
  (n < m → first_match l p (tried pos) = None) →
  gsub_post σ pos m b n (Ok (σ, (b ++ drop pos l, n))).
Proof.
  intros H. cbn. exists [], pos. split; [constructor|]. cbn. split; [done|]. split; [lia|].
  destruct (decide (n < m)); [right; split; [done|auto]|left; lia].
Qed.

Lemma tried_end pos : (length l < pos)%nat ∨ (anchor = true ∧ pos ≠ 0%nat) → first_match l p (tried pos) = None.
Proof.
  unfold tried. destruct anchor; intros [?|[? ?]]; try done.
  - by rewrite (proj2 (Nat.eqb_neq pos 0)) by lia.
  - by rewrite (proj2 (Nat.eqb_neq pos 0)) by lia.
  - by replace (S (length l) - pos)%nat with 0%nat by lia.
Qed.

Lemma Subst_end σ pos segs σ' pos' :
  (length l < pos)%nat → Subst σ pos segs σ' pos' → segs = [].
Proof. intros Hp H. inversion H as [|? ? ? ? ? ? ? ? ? ? Hf]; subst; [done|]. by rewrite tried_end in Hf by tauto. Qed.

Lemma gsub_loop_spec fuel σ ms d k s m n b :
  Z.of_nat (length l) < 2 ^ 63 → calls_ok r → (S (length l) - s < fuel)%nat → (s ≤ length l)%nat →
  (anchor = true → s = 0%nat) → st l d k ms →
  gsub_post σ s m b n (gsub_loop fuel r σ ms s (p ++ [0]) anchor m n b).
Proof.
  intros Hl Hr. revert σ ms d k s n b.
  induction fuel as [|fuel IH]; intros σ ms d k s n b Hf Hs Ha Hst; [lia|]. cbn [gsub_loop].
  pose proof Hst as (-> & _).
  destruct (n <? m) eqn:Hnm; cbn [negb]; bprop; [|apply post_finish; lia].
  assert (∀ σ' ms' d' k' s' n' b', st l d' k' ms' → (s < s' ≤ length l)%nat →
    gsub_post σ' s' m b' n' (if anchor then Ok (σ', (b' ++ drop s' l, n'))
      else gsub_loop fuel r σ' ms' s' (p ++ [0]) anchor m n' b')) as Hagain.
  { intros σ' ms' d' k' s' n' b' Hst' ?.
    assert (∀ (P : bool → Prop), (anchor = true → P true) → (anchor = false → P false) → P anchor) as Hcase
      by (destruct anchor; auto).
    apply (Hcase (λ x, gsub_post σ' s' m b' n' (if x then Ok (σ', (b' ++ drop s' l, n'))
      else gsub_loop fuel r σ' ms' s' (p ++ [0]) anchor m n' b'))); intros Ean.
    - apply post_finish. intros _. apply tried_end. right. split; [done|lia].
    - eapply IH; [lia..| |done]. congruence. }
  match_step Hst.
  - (* a match *)
    pose proof (match_at_Sol _ _ _ _ _ Hs Heqo) as (He & _ & _).
    rewrite (add_value_spec r σ l 0 k0) by done. pose proof (replacement_defined r σ l k0 s e Hr) as Hdef.
    destruct (replacement r σ l k0 s e) as [[σ1 t]|err|] eqn:Er; [|exists [], σ, s|done].
    2:{ split; [constructor|]. cbn. split; [lia|]. right. exists s, e, k0. split; [|done].
        by apply first_match_here. }
    cbn [rbind default]. unfold src_end. pose proof H as (-> & _).
    destruct (s <? e)%nat eqn:Ese.
    + apply Nat.ltb_lt in Ese. assert (next s e = e) as En by (unfold next; by rewrite (proj2 (Nat.eqb_neq e s)) by lia).
      eapply (post_match _ _ _ _ _ _ _ _ _ (b ++ t)); [done..| |]; rewrite En.
      * intros. by rewrite <-app_assoc.
      * eapply Hagain; [done|cbn; lia].
    + apply Nat.ltb_ge in Ese. assert (e = s) as -> by lia.
      assert (next s s = S s) as En by (unfold next; by rewrite Nat.eqb_refl).
      destruct (s <? length l)%nat eqn:Esl.
      * apply Nat.ltb_lt in Esl. destruct (lookup_lt_is_Some_2 l s Esl) as [c Ec].
        rewrite (rds_spec _ _ _ _ _ _ H Ec). cbn [rbind].
        eapply (post_match _ _ _ _ _ _ _ _ _ ((b ++ t) ++ [c])); [done..| |]; rewrite En.
        -- intros segs ? ? HS. rewrite (rebuild_skip _ _ _ _ _ _ Ec HS), <-!app_assoc. done.
        -- eapply Hagain; [done|lia].
      * apply Nat.ltb_ge in Esl. rewrite (drop_ge l s) by lia.
        eapply (post_match _ _ _ _ _ _ _ _ _ (b ++ t)); [done..| |]; rewrite En.
        -- intros segs ? ? HS. apply Subst_end in HS; [|lia]. subst. cbn. rewrite !drop_ge by lia.
           by rewrite app_assoc.
        -- replace ((b ++ t) ++ []) with ((b ++ t) ++ drop (S s) l) by (by rewrite drop_ge by lia).
           apply post_finish. intros _. apply tried_end. left. lia.
  - (* an error *)
    exists [], σ, s. split; [constructor|]. cbn. split; [lia|]. left. exists s. by apply first_match_here.
  - (* no match *)
    cbn [rbind default]. unfold src_end. pose proof H as (-> & _).
    destruct (s <? length l)%nat eqn:Esl.
    + apply Nat.ltb_lt in Esl. destruct (lookup_lt_is_Some_2 l s Esl) as [c Ec].
      rewrite (rds_spec _ _ _ _ _ _ H Ec). cbn [rbind]. eapply post_skip; [done..|]. eapply Hagain; [done|lia].
    + apply Nat.ltb_ge in Esl. apply post_finish. intros _. rewrite first_match_skip by done.
      apply tried_end. left. lia.
Qed.

End Subst.
