(* ===== verification/StrPatTheorems.v ===== *)
(** * Theorems on patterns *)

From Stdlib Require Import ZArith Lia String.
From stdpp Require Import base numbers list.
From S2P Require Import Prelude Cstr StrPat StrPatSpec StrPatRefine StrPatFind.
Import Char StrPat.

Local Open Scope Z_scope.

(** An array of captures as the stack may hold it before the first match. *)
Local Notation junk := (replicate 32 (7%nat, 7)).

(** ** The size of a pattern bounds the nesting *)

(** [prs] gives fewer items than a pattern shorter than [n] has octets. *)
Definition short (n : nat) (prs : ptr → list item) : Prop :=
  ∀ q, zterm q → (length q < n)%nat → (length (prs q) < length q)%nat.

Lemma zterm_two c q : zterm (c :: q) → c ≠ 0 → (1 < length (c :: q))%nat.
Proof. intros Hz H0. assert (zterm q) by eauto using zterm_cons. zdestruct q as d r. cbn. lia. Qed.

Lemma parse_item_length prs p :
  zterm p → hd0 p ≠ 0 → short (length p) prs → (length (parse_item prs p) < length p)%nat.
Proof.
  intros Hz H0 H. unfold parse_item. destruct (parse_class p) as [x|[c ep]] eqn:Ec.
  { zdestruct p as a b. by apply zterm_two. }
  destruct (parse_class_rest _ _ _ Hz H0 Ec) as [Hze Hlen].
  zdestruct ep as e q. cbn [hd0 hd tl].
  assert (e ≠ 0 → (length (prs q) < length q)%nat) as Hq
    by (intros; apply H; [eauto using zterm_cons|cbn in *; lia]).
  specialize (H (e :: q) Hze Hlen). cbn [length] in *.
  repeat (case_match; bprop; [cbn [length]; lia|]). cbn [length]. lia.
Qed.

Lemma parse_balance_length prs p :
  zterm p → short (length p) prs → (length (parse_balance prs p) ≤ length p)%nat.
Proof.
  intros Hz H. unfold parse_balance. zdestruct p as b q. destruct q as [|e r]; [cbn; lia|].
  destruct ((b =? 0) || (e =? 0)) eqn:E; [cbn; lia|]. bprop.
  assert (zterm r) as Hr by eauto using zterm_cons. specialize (H r Hr). cbn [length] in *. lia.
Qed.

Lemma parse_frontier_length prs p :
  zterm p → short (length p) prs → (length (parse_frontier prs p) ≤ length p)%nat.
Proof.
  intros Hz H. unfold parse_frontier. zdestruct p as c q. cbn [hd0 hd tl].
  destruct (c =? cLBr) eqn:E; [|cbn; lia]. bprop. subst.
  destruct (parse_brackets q) as [x|[[neg set] ep]] eqn:Eb; [cbn; lia|].
  assert (parse_class (cLBr :: q) = inr (CSet neg set, ep)) as Ec by (cbn; by rewrite Eb).
  destruct (parse_class_rest _ _ _ Hz ltac:(done) Ec) as [Hze Hlen].
  specialize (H ep Hze Hlen). cbn [length] in *. lia.
Qed.

Lemma parse_fuel_length fuel : short (S fuel) (parse_fuel fuel).
Proof.
  induction fuel as [|fuel IH]; intros p Hz Hf; zdestruct p as c q; cbn in Hf; [lia|].
  cbn [parse_fuel]. unfold parse_step. cbn [hd0 hd tl].
  destruct (decide (c = 0)) as [->|H0]; [cbn; lia|].
  assert (∀ n, (n ≤ S fuel)%nat → short n (parse_fuel fuel)) as Hsh
    by (intros n ? x ? ?; apply IH; [done|lia]).
  pose proof (parse_item_length (parse_fuel fuel) (c :: q) Hz H0 (Hsh (length (c :: q)) ltac:(cbn; lia))) as Hitem.
  assert (zterm q) as Hq by eauto using zterm_cons.
  pose proof (IH q Hq ltac:(lia)) as HIq.
  pose proof (zterm_two c q Hz H0).
  zdestruct q as d r. cbn [hd0 hd tl].
  assert (d ≠ 0 → zterm r) as Hr by eauto using zterm_cons.
  assert (d ≠ 0 → (length (parse_fuel fuel r) < length r)%nat) as HIr
    by (intros; apply IH; [auto|cbn in *; lia]).
  assert (d ≠ 0 → (length (parse_balance (parse_fuel fuel) r) ≤ length r)%nat) as Hbal
    by (intros; apply parse_balance_length; [auto|apply Hsh; cbn in *; lia]).
  assert (d ≠ 0 → (length (parse_frontier (parse_fuel fuel) r) ≤ length r)%nat) as Hfr
    by (intros; apply parse_frontier_length; [auto|apply Hsh; cbn in *; lia]).
  clear IH Hsh Hf. destruct (lj_char_isdigit d) eqn:Ed; [apply isdigit_range in Ed|];
    cbn [length] in *; repeat (case_match; bprop); cbn [length] in *; try lia.
Qed.

Lemma parse_length p : (length (parse p) ≤ length p)%nat.
Proof.
  unfold parse. pose proof (parse_fuel_length (S (length p)) (p ++ [0]) (zterm_app p)) as H.
  rewrite length_app in H. cbn [length] in H. lia.
Qed.

(** No item raises the error of too deep nesting itself. *)
Definition plain_item (it : item) : Prop := it ≠ IErr STRPATX.

Lemma sols_depth l d its s k :
  Forall plain_item its → Bad STRPATX ∈ sols l d its s k → LJ_MAX_XLEVEL < d + Z.of_nat (length its).
Proof.
  revert d s k. induction its as [|it its IH]; intros d s k Hits H.
  { by apply list_elem_of_singleton in H. }
  apply Forall_cons in Hits as [Hit Hits].
  assert (∀ s k, Bad STRPATX ∈ enter l d its s k → LJ_MAX_XLEVEL < d + Z.of_nat (length (it :: its))) as He.
  { intros s' k'. unfold enter. destruct (_ <? _) eqn:E; bprop; [cbn; lia|]. intros H'%IH; [|done]. cbn. lia. }
  assert (∀ s k, Bad STRPATX ∈ sols l d its s k → LJ_MAX_XLEVEL < d + Z.of_nat (length (it :: its))) as Hg.
  { intros s' k' H'%IH; [|done]. cbn. lia. }
  destruct (reps it) as [[[c lo] hi]|] eqn:Er.
  { rewrite (sols_rep _ _ _ _ _ _ _ _ _ Er) in H. apply list_elem_of_bind in H as (i & H & _).
    unfold after_rep in H. destruct it; eauto; destruct i; eauto. }
  destruct it as [| | |b c|neg set|c| | | | | | |x]; try done; cbn [sols] in H;
    repeat match type of H with
    | context [if ?b then _ else _] =>
        match b with LJ_MAX_XLEVEL <? _ => fail 1 | _ => destruct b end
    | context [match back_ref ?k ?c with _ => _ end] => destruct (back_ref k c) as [?|[[??]|]] eqn:?
    | context [match ?x with Some _ => _ | None => _ end] => destruct x
    end; try (by apply elem_of_nil in H); try (by apply list_elem_of_singleton in H); eauto.
  - apply list_elem_of_singleton in H as [= <-]. unfold back_ref in *. by repeat case_match.
  - apply list_elem_of_singleton in H as [= <-]. by destruct Hit.
Qed.

Lemma parse_brackets_err q x : parse_brackets q = inl x → x = STRPATM.
Proof. unfold parse_brackets. destruct (parse_neg q). destruct (bracket _ _) as [[??]|]; [done|]. by intros [= <-]. Qed.

Lemma parse_class_err p x : parse_class p = inl x → x ≠ STRPATX.
Proof.
  destruct p as [|c q]; [by intros [= <-]|]. unfold parse_class.
  destruct (c =? L_ESC). { destruct q as [|d r]; [by intros [= <-]|]. destruct (d =? 0); [by intros [= <-]|done]. }
  destruct (c =? cLBr); [|by destruct (c =? cDot)].
  destruct (parse_brackets q) as [y|[[??]?]] eqn:E; [|done]. intros [= <-].
  apply parse_brackets_err in E as ->. done.
Qed.

Lemma parse_plain fuel p : Forall plain_item (parse_fuel fuel p).
Proof.
  revert p. induction fuel as [|fuel IH]; intros p; [constructor|]. cbn [parse_fuel].
  assert (∀ it q, plain_item it → Forall plain_item (it :: parse_fuel fuel q)) as Hc by (by constructor).
  assert (∀ x, x ≠ STRPATX → Forall plain_item [IErr x]) as He
    by (intros x Hx; repeat constructor; unfold plain_item; congruence).
  assert (Forall plain_item (parse_item (parse_fuel fuel) p)) as Hitem.
  { unfold parse_item. destruct (parse_class p) as [x|[c ep]] eqn:E; [eauto using parse_class_err|].
    repeat case_match; by apply Hc. }
  unfold parse_step, parse_balance, parse_frontier.
  repeat (case_match; try done; try by (apply Hc || apply He)); try by constructor.
  all: match goal with H : parse_brackets _ = inl _ |- _ => apply parse_brackets_err in H as -> end; by apply He.
Qed.

(** ** Patterns without special characters *)





#[local] Instance occurs_dec h needle i : Decision (Cstr.occurs h needle i).
Proof. unfold Cstr.occurs. apply _. Defined.




(** ** The matcher *)

(** C17: [match] returns the first match of the reference semantics.  For any pattern, source and state
    of the matcher, nested calls included: if the enumeration of matches begins with a match, its end is
    returned and the captures are those of this match; if it begins with an error, this error is raised;
    if it is empty, [match] fails and has undone all captures.  So backtracking over the mutable state
    is the same as trying alternatives with captures of their own; the matcher ends, and it never reads
    outside of the pattern and the source. *)
Theorem match_first_solution (l p : list Z) (s : nat) (k : caps) (ms : MatchState) :
  Z.of_nat (length l) < 2 ^ 63 → (s ≤ length l)%nat → caps_ok k s → st l (depth ms) k ms →
  match head (enter l (depth ms) (parse p) s k) with
  | None => ∃ ms', match_ ms s (p ++ [0]) = Ok (None, ms') ∧ st l (depth ms) k ms'
  | Some (Sol e k') => ∃ ms', match_ ms s (p ++ [0]) = Ok (Some e, ms') ∧ st l (depth ms) k' ms'
  | Some (Bad x) => match_ ms s (p ++ [0]) = Err x
  end.
Proof. intros Hl Hs Hk Hst. exact (match_impl l p s (depth ms) k Hl Hs Hk ms Hst). Qed.

Local Notation src1 := (octets "aaab").
Local Abbreviation pat1 := (octets "(a*)(.)%1b").

Lemma match_first_solution_witness :
  ∃ ms', match_ (mkMS src1 0 0 junk) 0 (pat1 ++ [0]) = Ok (Some 4%nat, ms') ∧
         st src1 0 [(0%nat, 1); (1%nat, 1)] ms'.
Proof.
  pose proof (match_first_solution src1 pat1 0 [] (mkMS src1 0 0 junk) ltac:(by vm_compute) ltac:(lia)
    (caps_ok_nil 0) (st_fresh src1 junk eq_refl)) as H.
  replace (head _) with (Some (Sol 4 [(0%nat, 1); (1%nat, 1)])) in H by (by vm_compute). exact H.
Defined.

(** C18: What [match] returns is a match, and it fails only if there is none.  On a fresh state: an end
    that is returned is the end of a match in the sense of [Matches], lies in the source, and so do
    all captures, which are those of this match; a failure means that the items match no part of the
    source from [s] on; the error of too complex patterns is raised only for patterns of 200 characters
    or more. *)
Theorem match_sound_complete (l p : list Z) (s : nat) (k0 : caps) :
  Z.of_nat (length l) < 2 ^ 63 → (s ≤ length l)%nat → length k0 = LUA_MAXCAPTURES →
  let r := match_ (mkMS l 0 0 k0) s (p ++ [0]) in
  (∀ e ms, r = Ok (Some e, ms) → (s ≤ e ≤ length l)%nat ∧
     ∃ k, Matches l (parse p) s [] e k ∧ caps_ok k e ∧
          level ms = length k ∧ take (level ms) (capture ms) = k) ∧
  (∀ ms, r = Ok (None, ms) → ∀ e k, ¬ Matches l (parse p) s [] e k) ∧
  (r = Err STRPATX → LJ_MAX_XLEVEL ≤ Z.of_nat (length p)) ∧
  r ≠ Undef.
Proof.
  intros Hl Hs Hk r. pose proof (match_impl l p s 0 [] Hl Hs (caps_ok_nil s) _ (st_fresh l k0 Hk)) as H.
  subst r. fold (match_at l p s) in H. unfold agree in H.
  destruct (match_at l p s) as [[e k|x]|] eqn:E.
  - destruct H as (ms' & -> & Hst). split_and!; try done. intros ? ? [= <- <-].
    destruct (match_at_Sol _ _ _ _ _ Hs E) as (? & ? & ?). split; [done|]. exists k.
    destruct Hst as (_ & _ & Hlev & Ht & _). rewrite Hlev. done.
  - rewrite H. split_and!; try done. intros [= ->]. unfold match_at in E.
    destruct (enter l 0 (parse p) s []) as [|o L] eqn:Ee; [done|]. injection E as ->.
    unfold enter in Ee. destruct (LJ_MAX_XLEVEL <? 0 + 1) eqn:Elt; [done|].
    assert (Bad STRPATX ∈ sols l (0 + 1) (parse p) s []) as Hin by (rewrite Ee; by left).
    apply sols_depth in Hin; [|apply parse_plain]. pose proof (parse_length p). lia.
  - destruct H as (ms' & -> & _). split_and!; try done. intros ? _ e k. by apply match_at_None.
Qed.

Lemma match_sound_complete_witness :
  ∃ k, Matches src1 (parse pat1) 0 [] 4 k ∧ caps_ok k 4.
Proof.
  destruct (match_sound_complete src1 pat1 0 junk) as (H & _); [by vm_compute|lia|done|].
  assert (∃ ms, match_ (mkMS src1 0 0 junk) 0 (pat1 ++ [0]) = Ok (Some 4%nat, ms)) as [ms E]
    by (eexists; vm_compute; reflexivity).
  destruct (H 4%nat ms E) as (_ & k & HM & Hc & _). exact (ex_intro _ k (conj HM Hc)).
Defined.

(** ** Searching *)





(** The check for special characters does not know the closing parenthesis: string.find takes it
    for itself where the other functions raise an error. *)
Lemma find_accepts_malformed :
  str_find_aux junk (octets "f(x)") (octets ")") 1 false true = Ok (FRange 4 4 []) ∧
  str_find_aux junk (octets "f(x)") (octets ")") 1 false false = Err STRPATC.
Proof. by vm_compute. Qed.

(** ** Iteration *)

(** The values of all calls of the iterator that string.gmatch returns, from position [pos] on. *)
Fixpoint gmatch_iter (fuel : nat) (k0 : caps) (s p : list Z) (pos : Z) : res (list (list capval)) :=
  match fuel with
  | O => Undef
  | S fuel =>
      rbind (string_gmatch_aux k0 s p pos) (λ r,
      match r with
      | None => Ok []
      | Some (pos, vs) => rbind (gmatch_iter fuel k0 s p pos) (λ vss, Ok (vs :: vss))
      end)
  end.

Lemma gmatch_aux_spec k0 s p pos :
  length k0 = LUA_MAXCAPTURES → Z.of_nat (length s) < 2 ^ 31 - 1 → 0 ≤ pos →
  string_gmatch_aux k0 s p pos = gmatch_spec s p (seq (Z.to_nat pos) (S (length s) - Z.to_nat pos)).
Proof.
  intros Hk Hl Hp. unfold string_gmatch_aux. destruct (_ <? _)%nat eqn:E.
  - apply Nat.ltb_lt in E. by replace (S (length s) - Z.to_nat pos)%nat with 0%nat by lia.
  - apply Nat.ltb_ge in E. rewrite (gmatch_loop_spec s p _ _ 0 []) by done.
    by replace (S (length s) - Z.to_nat pos)%nat with (S (length s - Z.to_nat pos)) by lia.
Qed.

Lemma gmatch_spec_pos s p pos pos' vs :
  0 ≤ pos → gmatch_spec s p (seq (Z.to_nat pos) (S (length s) - Z.to_nat pos)) = Ok (Some (pos', vs)) →
  pos < pos' ≤ Z.of_nat (length s) + 1.
Proof.
  intros Hp. unfold gmatch_spec.
  destruct (first_match _ _ _) as [[h [e k|x]]|] eqn:E; [|done..]. apply first_match_Some in E as (Hh & Em & _).
  apply match_at_Sol in Em as (He & _); [|lia]. cbn.
  destruct (captures s k (Some (h, e))); [|done..]. cbn. intros [= <- _].
  destruct (Nat.eqb_spec e h); lia.
Qed.

(** Iteration with string.gmatch ends.  A call of the iterator gives the leftmost match at or
    behind the position that it keeps; the position grows with every call, also after an empty match, and
    stays at most one behind the string; so a loop over all matches makes at most as many calls as the
    string has octets, plus two. *)
Theorem gmatch_ends (k0 : caps) (s p : list Z) (pos : Z) :
  length k0 = LUA_MAXCAPTURES → Z.of_nat (length s) < 2 ^ 31 - 1 → 0 ≤ pos →
  string_gmatch_aux k0 s p pos = gmatch_spec s p (seq (Z.to_nat pos) (S (length s) - Z.to_nat pos)) ∧
  (∀ pos' vs, string_gmatch_aux k0 s p pos = Ok (Some (pos', vs)) →
     pos < pos' ≤ Z.of_nat (length s) + 1) ∧
  gmatch_iter (S (S (length s))) k0 s p pos ≠ Undef.
Proof.
  intros Hk Hl Hp. split; [by apply gmatch_aux_spec|]. split.
  { intros pos' vs. rewrite gmatch_aux_spec by done. by apply gmatch_spec_pos. }
  assert (∀ fuel pos, 0 ≤ pos → (S (length s) - Z.to_nat pos < fuel)%nat →
    gmatch_iter fuel k0 s p pos ≠ Undef) as H; [|apply H; lia]. clear pos Hp.
  induction fuel as [|fuel IH]; intros pos Hp Hf; [lia|]. cbn [gmatch_iter].
  rewrite gmatch_aux_spec by done.
  destruct (gmatch_spec s p _) as [[[pos' vs]|]|x|] eqn:E; cbn [rbind]; try done.
  - apply gmatch_spec_pos in E; [|done]. specialize (IH pos' ltac:(lia) ltac:(lia)).
    by destruct (gmatch_iter fuel k0 s p pos').
  - unfold gmatch_spec in E. destruct (first_match _ _ _) as [[h [e k|x]]|]; [|done..]. cbn in E.
    pose proof (captures_defined s k (Some (h, e))). by destruct (captures _ _ _).
Qed.

Lemma gmatch_ends_witness : gmatch_iter 7 junk (octets "a, bc") (octets "%a*") 0 ≠ Undef.
Proof. apply (gmatch_ends junk (octets "a, bc") (octets "%a*") 0); [done|by vm_compute|done]. Defined.

Example gmatch_iter_example :
  gmatch_iter 7 junk (octets "a, bc") (octets "%a*") 0 =
  Ok [[CStr (octets "a")]; [CStr []]; [CStr []]; [CStr (octets "bc")]; [CStr []]].
Proof. by vm_compute. Qed.

(** ** Substitution *)

Lemma string_gsub_post {St} k0 s p (r : repl St) σ max_s :
  length k0 = LUA_MAXCAPTURES → Z.of_nat (length s) < 2 ^ 31 - 1 → calls_ok r →
  gsub_post r s (anchored p).2 (anchored p).1 σ 0 (default (Z.of_nat (length s) + 1) max_s) [] 0
    (string_gsub k0 s p r σ max_s).
Proof.
  intros Hk Hl Hr. unfold string_gsub. rewrite i32_small by lia. set (m := default _ max_s).
  rewrite (anchor_step p (λ a q, match r with ROther => Err NOSFT
    | _ => gsub_loop (S (S (length s))) r σ (mkMS s 0 0 k0) 0 q a m 0 [] end)).
  replace (match r with ROther => _ | _ => _ end) with
    (gsub_loop (S (S (length s))) r σ (mkMS s 0 0 k0) 0 ((anchored p).2 ++ [0]) (anchored p).1 m 0 [])
    by (by destruct r).
  apply (gsub_loop_spec r s _ _ _ σ _ 0 []); try done; lia.
Qed.

(** C21: string.gsub replaces the matches one after another.  The result is the source rebuilt from a
    sequence of matches: each is the first one at or behind the end of its predecessor, one octet
    further after an empty match, with an anchor only at the beginning; what lies between them is kept,
    each match is replaced by its text, and the code called for the texts is run in this order.
    The sequence is as long as the count that is returned, and ends at the limit or where no match is left.
    An error is that of the search or of a replacement in such a sequence.  The loop always ends. *)
Theorem gsub_correct {St} (k0 : caps) (s p : list Z) (r : repl St) (σ : St) (max_s : option Z) :
  length k0 = LUA_MAXCAPTURES → Z.of_nat (length s) < 2 ^ 31 - 1 → calls_ok r →
  gsub_post r s (anchored p).2 (anchored p).1 σ 0 (default (Z.of_nat (length s) + 1) max_s) [] 0
    (string_gsub k0 s p r σ max_s).
Proof. apply string_gsub_post. Qed.

Lemma gsub_correct_witness :
  string_gsub junk (octets "hello world") (octets "(o)(%s?)") (RString (octets "%2<%1>")) tt (Some 1) =
    Ok (tt, (octets "hell <o>world", 1)) ∧
  ∃ segs pos', Subst (RString (octets "%2<%1>")) (octets "hello world") (octets "(o)(%s?)") false tt 0 segs tt pos' ∧
    octets "hell <o>world" = rebuild (octets "hello world") 0 segs.
Proof.
  pose proof (gsub_correct junk (octets "hello world") (octets "(o)(%s?)") (RString (octets "%2<%1>")) tt (Some 1)
    eq_refl ltac:(by vm_compute) I) as H.
  assert (string_gsub junk (octets "hello world") (octets "(o)(%s?)") (RString (octets "%2<%1>")) tt (Some 1) =
    Ok (tt, (octets "hell <o>world", 1))) as E by (by vm_compute).
  rewrite E in H. destruct H as (segs & pos' & HS & Hout & _).
  exact (conj E (ex_intro _ segs (ex_intro _ pos' (conj HS Hout)))).
Defined.

(** Replacements that stand for the match itself: the text %0, or code that gives nil or false. *)
Definition keeps_match {St} (r : repl St) : Prop :=
  match r with
  | RString news => news = octets "%0"
  | RFunction f => ∀ σ vs σ' v, f σ vs = Ok (σ', v) → v = VFalsy
  | RTable index => ∀ σ c σ' v, index σ c = Ok (σ', v) → v = VFalsy
  | ROther => False
  end.

Lemma keeps_replacement {St} (r : repl St) σ l k a e σ1 t :
  keeps_match r → replacement r σ l k a e = Ok (σ1, t) → t = sub_src l a e.
Proof.
  destruct r as [news|f|g|]; cbn [keeps_match replacement]; intros Hk; [| | |done].
  - subst news. cbn. intros [= _ <-]. by rewrite app_nil_r.
  - destruct (captures _ _ _) as [vs| |]; [|done..]. cbn.
    destruct (f σ vs) as [[σ' v]| |] eqn:E; [|done..]. apply Hk in E as ->. cbn. by intros [= _ <-].
  - destruct (one_capture _ _ _ _ _) as [c| |]; [|done..]. cbn.
    destruct (g σ c) as [[σ' v]| |] eqn:E; [|done..]. apply Hk in E as ->. cbn. by intros [= _ <-].
Qed.

Lemma sub_src_app l a b c : (a ≤ b ≤ c)%nat → sub_src l a b ++ drop b l = drop a l.
Proof.
  intros ?. unfold sub_src. rewrite <-(take_drop (b - a) (drop a l)) at 2. rewrite drop_drop.
  by replace (a + (b - a))%nat with b by lia.
Qed.

Lemma rebuild_keeps {St} (r : repl St) l p anchor σ pos segs σ' pos' c :
  keeps_match r → Subst r l p anchor σ pos segs σ' pos' → (c ≤ pos)%nat → rebuild l c segs = drop c l.
Proof.
  intros Hk H. revert c. induction H as [|σ pos a e k σ1 t segs σ' pos' Hf Er H IH]; intros c Hc; [done|].
  cbn. apply (keeps_replacement _ _ _ _ _ _ _ _ Hk) in Er as ->.
  assert (pos ≤ a ≤ length l ∧ a ≤ e)%nat as [Ha He].
  { unfold tried in Hf. destruct anchor.
    - destruct (Nat.eqb_spec pos 0); [|done]. cbn in Hf. destruct (match_at l p 0) as [o|] eqn:Em; [|done].
      injection Hf as <- ->. apply match_at_Sol in Em as (? & _); lia.
    - apply first_match_Some in Hf as (? & Em & _). apply match_at_Sol in Em as (? & _); lia. }
  rewrite IH by (unfold next; destruct (Nat.eqb_spec e a); lia).
  rewrite (sub_src_app l a e e), (sub_src_app l c a a) by lia. done.
Qed.

(** Substituting each match by itself gives the source back: for the replacement text %0, and for
    functions and tables that give nil or false, string.gsub returns the source unless it raises an
    error. *)
Theorem gsub_keeps {St} (k0 : caps) (s p : list Z) (r : repl St) (σ σ' : St) (max_s : option Z) (out : list Z) (n : Z) :
  length k0 = LUA_MAXCAPTURES → Z.of_nat (length s) < 2 ^ 31 - 1 → keeps_match r → calls_ok r →
  string_gsub k0 s p r σ max_s = Ok (σ', (out, n)) → out = s.
Proof.
  intros Hk Hl Hkeep Hr E. pose proof (string_gsub_post k0 s p r σ max_s Hk Hl Hr) as H.
  rewrite E in H. destruct H as (segs & pos' & HS & -> & _). cbn [app].
  by rewrite (rebuild_keeps _ _ _ _ _ _ _ _ _ _ Hkeep HS).
Qed.

Lemma gsub_keeps_witness :
  ∃ n, string_gsub junk (octets "a = b") (octets "%s*=?") (RString (octets "%0")) tt None =
    Ok (tt, (octets "a = b", n)).
Proof.
  assert (∃ out n, string_gsub junk (octets "a = b") (octets "%s*=?") (RString (octets "%0")) tt None =
    Ok (tt, (out, n))) as (out & n & E) by (eexists _, _; vm_compute; reflexivity).
  rewrite (gsub_keeps junk (octets "a = b") (octets "%s*=?") (RString (octets "%0")) tt tt None out n
    eq_refl ltac:(by vm_compute) eq_refl I E) in E. exact (ex_intro _ n E).
Defined.

(** ** Corners *)

(** A replacement text that ends with an escape adds a zero, which is in none of the texts. *)
Lemma gsub_trailing_escape :
  string_gsub junk (octets "abc") (octets "b") (RString (octets "x%")) tt None =
    Ok (tt, ([97; 120; 0; 99], 1)).
Proof. by vm_compute. Qed.

(** A range that ends with an escape character hides the escape: this set contains the bracket that
    closes it. *)
Lemma bracket_range_escape :
  parse (octets "[a-%%]") = [IOne (CSet false [SRange 97 37; SClass cRBr])] ∧
  str_find_aux junk (octets "x]") (octets "[a-%%]") 1 false true = Ok (FRange 2 2 []).
Proof. by vm_compute. Qed.

(** A pattern ends at a zero: the rest of it is not looked at. *)
Lemma pattern_zero_cuts :
  str_find_aux junk (octets "a") ([97; 0] ++ octets "(b") 1 false false = Ok (FCaps [CStr (octets "a")]).
Proof. by vm_compute. Qed.

(** ** Character classes *)

(** The table of character types: each class of a pattern is the set of octets of the ASCII
    character type, and its upper-case letter is the complement. *)
Definition class_ranges : list (string * list (Z * Z)) := [
  ("a", [(65, 90); (97, 122)]); ("c", [(0, 31); (127, 127)]); ("d", [(48, 57)]);
  ("g", [(33, 126)]); ("l", [(97, 122)]); ("p", [(33, 47); (58, 64); (91, 96); (123, 126)]);
  ("s", [(9, 13); (32, 32)]); ("u", [(65, 90)]); ("w", [(48, 57); (65, 90); (97, 122)]);
  ("x", [(48, 57); (65, 70); (97, 102)]); ("z", [(0, 0)])]%string.

Lemma match_class_ascii :
  Forall (λ x, Forall (λ cl, Forall (λ c,
    match_class c cl = existsb (λ r, (r.1 <=? c) && (c <=? r.2)) x.2 ∧
    match_class c (cl - 32) = negb (match_class c cl)) (seqZ 0 256)) (octets x.1)) class_ranges.
Proof. apply (bool_decide_unpack _). by vm_compute. Qed.
