(* ===== verification/Sort.v ===== *)
(** * Sorting of tables (lib/table.c)

    [auxsort] is a quicksort with the median of three as pivot that recurses into the smaller part and
    iterates over the larger.  It works on a table through the raw accesses of the C API and calls a
    comparison, which may be a Lua function: it can raise errors, change the state and even the table.  The class
    [World] is what the code uses: values of [W] are states of the program as the sort sees them.
    The values that the code keeps on the stack of the state are variables here.

    A second fuel of [auxsort] bounds the depth of its recursion. *)

From Stdlib Require Import ZArith Lia.
From stdpp Require Import base numbers list.
From S2P Require Import Prelude.

Local Open Scope Z_scope.

Module Sort.

(** [TABSORT]: invalid order function for sorting.  [EOther]: errors of accesses and comparisons. *)
Inductive sorterr := TABSORT | EOther (code : Z).

Inductive res (A : Type) := Ok (a : A) | Err (e : sorterr) | Undef.
Arguments Ok {A} _.
Arguments Err {A} _.
Arguments Undef {A}.

Definition rbind {A B} (r : res A) (f : A → res B) : res B :=
  match r with Ok a => f a | Err e => Err e | Undef => Undef end.
Declare Scope sort_scope.
Notation "x ← y ; z" := (rbind y (λ x, z))
  (at level 20, y at level 100, z at level 200, only parsing) : sort_scope.
Notation "' x ← y ; z" := (rbind y (λ x, z))
  (at level 20, x pattern, y at level 100, z at level 200, only parsing) : sort_scope.
#[local] Open Scope sort_scope.

Class World (W V : Type) := {
  rawgeti : W → Z → res V;                   (* lua_rawgeti(L, 1, i) *)
  rawseti : W → Z → V → res W;               (* lua_rawseti(L, 1, i) *)
  sort_comp : W → V → V → res (W * bool)     (* is the first value less? *)
}.

Section Ops.
Context {W V : Type} `{World W V}.

(** [set2(L, i, j)] with [x] on top of the stack and [y] below it. *)
Definition set2 (w : W) (i : Z) (x : V) (j : Z) (y : V) : res W :=
  w ← rawseti w i x; rawseti w j y.

(** [while (lua_rawgeti(L, 1, ++i), sort_comp(L, -1, -2))]; the value at [i] stays on the stack. *)
Fixpoint scan_up (fuel : nat) (w : W) (P : V) (u i : Z) : res (W * Z * V) :=
  match fuel with
  | O => Undef
  | S fuel =>
      let i := i + 1 in
      a ← rawgeti w i;
      '(w, c) ← sort_comp w a P;
      if c : bool then if u <=? i then Err TABSORT else scan_up fuel w P u i
      else Ok (w, i, a)
  end.

(** [while (lua_rawgeti(L, 1, --j), sort_comp(L, -3, -1))] *)
Fixpoint scan_down (fuel : nat) (w : W) (P : V) (l j : Z) : res (W * Z * V) :=
  match fuel with
  | O => Undef
  | S fuel =>
      let j := j - 1 in
      a ← rawgeti w j;
      '(w, c) ← sort_comp w P a;
      if c : bool then if j <=? l then Err TABSORT else scan_down fuel w P l j
      else Ok (w, j, a)
  end.

(** The loop that partitions; the result has the position for the pivot. *)
Fixpoint part_loop (fuel : nat) (w : W) (P : V) (l u i j : Z) : res (W * Z) :=
  match fuel with
  | O => Undef
  | S fuel =>
      '(w, i, ai) ← scan_up (Z.to_nat (u - i)) w P u i;
      '(w, j, aj) ← scan_down (Z.to_nat (j - l)) w P l j;
      if j <? i then Ok (w, i)
      else w ← set2 w i aj j ai; part_loop fuel w P l u i j
  end.

(** Sort a[l] and a[u]. *)
Definition sort_ends (w : W) (l u : Z) : res W :=
  al ← rawgeti w l;
  au ← rawgeti w u;
  '(w, c) ← sort_comp w au al;
  if c : bool then set2 w l au u al else Ok w.

(** Put a[i] in order with them. *)
Definition sort_middle (w : W) (l i u : Z) : res W :=
  ai ← rawgeti w i;
  al ← rawgeti w l;
  '(w, c) ← sort_comp w ai al;
  if c : bool then set2 w i al l ai
  else
    au ← rawgeti w u;
    '(w, c) ← sort_comp w au ai;
    if c : bool then set2 w i au u ai else Ok w.

(** The pivot is kept at [u - 1], while the elements from [l + 1] to [u - 2] are partitioned, and
    then swapped with the element at the position that is returned. *)
Definition partition (w : W) (l i u : Z) : res (W * Z) :=
  P ← rawgeti w i;
  x ← rawgeti w (u - 1);
  w ← set2 w i x (u - 1) P;
  '(w, i) ← part_loop (Z.to_nat (u - l)) w P l u l (u - 1);
  y ← rawgeti w (u - 1);
  x ← rawgeti w i;
  w ← set2 w (u - 1) x i y;
  Ok (w, i).

(** [depth] counts recursive calls, [n] the turns of the while loop. *)
Fixpoint auxsort (depth : nat) : nat → W → Z → Z → res W :=
  fix loop (n : nat) (w : W) (l u : Z) {struct n} : res W :=
    match depth, n with
    | S depth, S n =>
        if negb (l <? u) then Ok w
        else
          w ← sort_ends w l u;
          if u - l =? 1 then Ok w
          else
            let i := Z.quot (i32 (l + u)) 2 in
            w ← sort_middle w l i u;
            if u - l =? 2 then Ok w
            else
              '(w, i) ← partition w l i u;
              if i - l <? u - i then
                w ← auxsort depth (S (Z.to_nat (i - l))) w l (i - 1); loop n w (i + 1) u
              else
                w ← auxsort depth (S (Z.to_nat (u - i))) w (i + 1) u; loop n w l (i - 1)
    | _, _ => Undef
    end.

(** [n] is the length of the table. *)
Definition table_sort (w : W) (n : Z) : res W :=
  auxsort (S (S (Z.to_nat (Z.log2 n)))) (S (Z.to_nat n)) w 1 n.

End Ops.

(** ** Termination

    Whatever the comparison answers and does, the sort ends, and it stays inside of the range. *)

(** The result satisfies [Q], if there is one; errors are allowed. *)
Definition safe {A} (r : res A) (Q : A → Prop) : Prop :=
  match r with Ok a => Q a | Err _ => True | Undef => False end.

Lemma safe_bind {A B} (r : res A) (f : A → res B) (P : A → Prop) (Q : B → Prop) :
  safe r P → (∀ a, P a → safe (f a) Q) → safe (rbind r f) Q.
Proof. destruct r; cbn; auto. Qed.

Lemma safe_impl {A} (r : res A) (P Q : A → Prop) : safe r P → (∀ a, P a → Q a) → safe r Q.
Proof. destruct r; cbn; auto. Qed.

Section Ends.
Context {W V : Type} `{World W V} (Inv : W → Prop) (lo hi : Z).
Hypothesis Hget : ∀ w i, Inv w → lo ≤ i ≤ hi → safe (rawgeti w i) (λ _, True).
Hypothesis Hset : ∀ w i v, Inv w → lo ≤ i ≤ hi → safe (rawseti w i v) Inv.
Hypothesis Hcomp : ∀ w a b, Inv w → safe (sort_comp w a b) (λ x, Inv x.1).

Lemma set2_safe w i x j y : Inv w → lo ≤ i ≤ hi → lo ≤ j ≤ hi → safe (set2 w i x j y) Inv.
Proof. intros. eapply safe_bind; [by apply Hset|]. intros w' ?. by apply Hset. Qed.

Lemma scan_up_safe fuel w P u i :
  Inv w → fuel = Z.to_nat (u - i) → lo ≤ i + 1 → i < u ≤ hi →
  safe (scan_up fuel w P u i) (λ x, Inv x.1.1 ∧ i < x.1.2 ≤ u).
Proof.
  revert w i. induction fuel as [|fuel IH]; intros w i Hw Hf Hlo Hu; [lia|]. cbn [scan_up].
  eapply safe_bind; [apply Hget; [done|lia]|]. intros a _.
  eapply safe_bind; [by apply Hcomp|]. intros [w' c] Hw'. cbn in Hw'.
  destruct c; [|cbn; split; [done|lia]]. destruct (u <=? i + 1) eqn:E; bprop; [done|].
  eapply safe_impl; [apply IH; [done|lia..]|]. intros x [? ?]. split; [done|lia].
Qed.

Lemma scan_down_safe fuel w P l j :
  Inv w → fuel = Z.to_nat (j - l) → j - 1 ≤ hi → lo ≤ l < j →
  safe (scan_down fuel w P l j) (λ x, Inv x.1.1 ∧ l ≤ x.1.2 < j).
Proof.
  revert w j. induction fuel as [|fuel IH]; intros w j Hw Hf Hhi Hl; [lia|]. cbn [scan_down].
  eapply safe_bind; [apply Hget; [done|lia]|]. intros a _.
  eapply safe_bind; [by apply Hcomp|]. intros [w' c] Hw'. cbn in Hw'.
  destruct c; [|cbn; split; [done|lia]]. destruct (j - 1 <=? l) eqn:E; bprop; [done|].
  eapply safe_impl; [apply IH; [done|lia..]|]. intros x [? ?]. split; [done|lia].
Qed.

Lemma part_loop_safe fuel w P l u i j :
  Inv w → lo ≤ l → u ≤ hi → l ≤ i ≤ j → j < u → l < j → j - i < Z.of_nat fuel →
  safe (part_loop fuel w P l u i j) (λ x, Inv x.1 ∧ l < x.2 ≤ u).
Proof.
  revert w i j. induction fuel as [|fuel IH]; intros w i j Hw Hlo Hhi Hij Hj Hlj Hf; [lia|]. cbn [part_loop].
  eapply safe_bind; [apply scan_up_safe; [done|done|lia..]|]. intros [[w1 i1] ai] [Hw1 Hi1]. cbn in Hw1, Hi1.
  eapply safe_bind; [apply scan_down_safe; [done|done|lia..]|]. intros [[w2 j1] aj] [Hw2 Hj1]. cbn in Hw2, Hj1.
  destruct (j1 <? i1) eqn:E; bprop; [cbn; split; [done|lia]|].
  eapply safe_bind; [apply set2_safe; [done|lia..]|]. intros w3 Hw3.
  eapply safe_impl; [apply IH; [done|lia..]|]. intros x [? ?]. split; [done|lia].
Qed.

Lemma sort_ends_safe w l u : Inv w → lo ≤ l ≤ hi → lo ≤ u ≤ hi → safe (sort_ends w l u) Inv.
Proof.
  intros. unfold sort_ends. eapply safe_bind; [by apply Hget|]. intros al _.
  eapply safe_bind; [by apply Hget|]. intros au _.
  eapply safe_bind; [by apply Hcomp|]. intros [w' []] ?; [|done]. by apply set2_safe.
Qed.

Lemma sort_middle_safe w l i u :
  Inv w → lo ≤ l ≤ hi → lo ≤ i ≤ hi → lo ≤ u ≤ hi → safe (sort_middle w l i u) Inv.
Proof.
  intros. unfold sort_middle. eapply safe_bind; [by apply Hget|]. intros ai _.
  eapply safe_bind; [by apply Hget|]. intros al _.
  eapply safe_bind; [by apply Hcomp|]. intros [w' []] Hw'; [by apply set2_safe|].
  eapply safe_bind; [by apply Hget|]. intros au _.
  eapply safe_bind; [by apply Hcomp|]. intros [w'' []] ?; [|done]. by apply set2_safe.
Qed.

Lemma partition_safe w l i u :
  Inv w → lo ≤ l → u ≤ hi → l < i < u → l + 2 < u →
  safe (partition w l i u) (λ x, Inv x.1 ∧ l < x.2 ≤ u).
Proof.
  intros Hw Hlo Hhi Hi Hu. unfold partition.
  eapply safe_bind; [apply Hget; [done|lia]|]. intros P _.
  eapply safe_bind; [apply Hget; [done|lia]|]. intros x _.
  eapply safe_bind; [apply set2_safe; [done|lia..]|]. intros w1 Hw1.
  eapply safe_bind; [apply part_loop_safe; [done|lia..]|]. intros [w2 i1] [Hw2 Hi1]. cbn in Hw2, Hi1.
  eapply safe_bind; [apply Hget; [done|lia]|]. intros y _.
  eapply safe_bind; [apply Hget; [done|lia]|]. intros z _.
  eapply safe_bind; [apply set2_safe; [done|lia..]|]. intros w3 Hw3. done.
Qed.

(** The middle of a range. *)
Lemma middle_range l u : 1 ≤ l → l + 1 < u → u < 2 ^ 30 → l < Z.quot (i32 (l + u)) 2 < u.
Proof.
  intros. unfold i32. rewrite wraps_id by (unfold in_s; lia). rewrite Z.quot_div_nonneg by lia. dlia.
Qed.

Lemma auxsort_eq depth n w l u :
  auxsort (S depth) (S n) w l u =
    if negb (l <? u) then Ok w
    else rbind (sort_ends w l u) (λ w,
      if u - l =? 1 then Ok w
      else rbind (sort_middle w l (Z.quot (i32 (l + u)) 2) u) (λ w,
        if u - l =? 2 then Ok w
        else rbind (partition w l (Z.quot (i32 (l + u)) 2) u) (λ '(w, i),
          if i - l <? u - i then
            rbind (auxsort depth (S (Z.to_nat (i - l))) w l (i - 1)) (λ w, auxsort (S depth) n w (i + 1) u)
          else
            rbind (auxsort depth (S (Z.to_nat (u - i))) w (i + 1) u) (λ w, auxsort (S depth) n w l (i - 1))))).
Proof. done. Qed.

Lemma auxsort_safe depth n w l u :
  Inv w → 1 ≤ l → lo ≤ l → u ≤ hi → u < 2 ^ 30 → (0 < depth)%nat → (0 < n)%nat →
  u - l + 1 < 2 ^ Z.of_nat depth → u - l < Z.of_nat n →
  safe (auxsort depth n w l u) Inv.
Proof.
  intros Hw H1. revert n w l u Hw H1. induction depth as [|depth IHd]; [lia|].
  induction n as [|n IHn]; [lia|]. intros w l u Hw H1 Hlo Hhi Hu _ _ Hd Hn. rewrite auxsort_eq.
  destruct (l <? u) eqn:Elu; bprop; cbn [negb]; [|done].
  rewrite Nat2Z.inj_succ, Z.pow_succ_r in Hd by lia.
  eapply safe_bind; [apply sort_ends_safe; [done|lia..]|]. intros w1 Hw1.
  destruct (u - l =? 1) eqn:E1; bprop; [done|].
  pose proof (middle_range l u H1 ltac:(lia) Hu) as Hm.
  eapply safe_bind; [apply sort_middle_safe; [done|lia..]|]. intros w2 Hw2.
  destruct (u - l =? 2) eqn:E2; bprop; [done|].
  eapply safe_bind; [apply partition_safe; [done|lia..]|]. intros [w3 i] [Hw3 Hi]. cbn in Hw3, Hi.
  assert (0 < depth)%nat as Hdep.
  { destruct depth; [|lia]. change (2 ^ Z.of_nat 0) with 1 in Hd. lia. }
  destruct (i - l <? u - i) eqn:E; bprop.
  - eapply safe_bind; [apply IHd; [done|lia..]|]. intros w4 Hw4.
    apply IHn; [done|lia..| |lia]. rewrite Nat2Z.inj_succ, Z.pow_succ_r; lia.
  - eapply safe_bind; [apply IHd; [done|lia..]|]. intros w4 Hw4.
    apply IHn; [done|lia..| |lia]. rewrite Nat2Z.inj_succ, Z.pow_succ_r; lia.
Qed.

End Ends.

(** ** Rearrangement of a range *)

(** [g] has the elements of [f] from [l] to [u] in another order, and the others as they are. *)
Definition perm_on {V} (l u : Z) (f g : Z → V) : Prop :=
  ∃ π : Z → Z, (∀ x y, π x = π y → x = y) ∧ (∀ x, l ≤ x ≤ u → l ≤ π x ≤ u) ∧
    (∀ x, ¬ (l ≤ x ≤ u) → π x = x) ∧ ∀ x, g x = f (π x).

Definition swap {V} (i j : Z) (f : Z → V) (x : Z) : V :=
  if x =? j then f i else if x =? i then f j else f x.

Section Perm.
Context {V : Type}.
Implicit Types f g h : Z → V.

Lemma perm_on_eq l u f g : (∀ x, g x = f x) → perm_on l u f g.
Proof. intros E. exists (λ x, x). split_and!; auto. Qed.

Lemma perm_on_trans l u f g h : perm_on l u f g → perm_on l u g h → perm_on l u f h.
Proof.
  intros (π & Hi & Hr & Ho & E) (ρ & Hi' & Hr' & Ho' & E'). exists (λ x, π (ρ x)). split_and!; auto.
  - intros x Hx. rewrite (Ho' x Hx). auto.
  - intros x. by rewrite E', E.
Qed.

Lemma perm_on_mono l u l' u' f g : l' ≤ l → u ≤ u' → perm_on l u f g → perm_on l' u' f g.
Proof.
  intros Hl Hu (π & Hi & Hr & Ho & E). exists π. split_and!; auto.
  - intros x Hx. destruct (decide (l ≤ x ≤ u)) as [Hin|Hout]; [apply Hr in Hin; lia|]. by rewrite Ho.
  - intros x Hx. apply Ho. lia.
Qed.

Lemma perm_on_swap l u i j f g :
  l ≤ i ≤ u → l ≤ j ≤ u → (∀ x, g x = swap i j f x) → perm_on l u f g.
Proof.
  intros Hi Hj E. exists (λ x, if x =? j then i else if x =? i then j else x).
  split_and!.
  - intros x y. repeat case_match; bprop; lia.
  - intros x ?. repeat case_match; bprop; lia.
  - intros x ?. repeat case_match; bprop; lia.
  - intros x. rewrite E. unfold swap. by repeat case_match.
Qed.

Lemma perm_on_out l u f g x : perm_on l u f g → ¬ (l ≤ x ≤ u) → g x = f x.
Proof. intros (π & _ & _ & Ho & E) Hx. by rewrite E, Ho. Qed.

Lemma perm_on_forall l u f g (Q : V → Prop) :
  perm_on l u f g → (∀ x, l ≤ x ≤ u → Q (f x)) → ∀ x, l ≤ x ≤ u → Q (g x).
Proof. intros (π & _ & Hr & _ & E) HQ x Hx. rewrite E. auto. Qed.

(** The elements of a range as a list. *)
Definition elems (l u : Z) (f : Z → V) : list V := f <$> seqZ l (u - l + 1).

Lemma perm_on_elems l u f g : perm_on l u f g → elems l u f ≡ₚ elems l u g.
Proof.
  intros (π & Hi & Hr & _ & E). unfold elems.
  assert (g <$> seqZ l (u - l + 1) = f <$> (π <$> seqZ l (u - l + 1))) as ->.
  { rewrite <-list_fmap_compose. by apply list_fmap_ext. }
  apply fmap_Permutation. symmetry. apply submseteq_length_Permutation; [|by rewrite length_fmap].
  apply NoDup_submseteq.
  - apply NoDup_fmap_2; [exact Hi|apply NoDup_seqZ].
  - intros x (y & -> & Hy)%list_elem_of_fmap. apply elem_of_seqZ in Hy. apply elem_of_seqZ.
    specialize (Hr y ltac:(lia)). lia.
Qed.

End Perm.

(** ** Order *)

(** The comparison is a strict weak order [lt] on the values [D] that occur, and neither it nor an
    access changes what the table holds otherwise; the errors that they raise are in [Errs]. *)
Class Orderly {W V : Type} `{World W V} (Inv : W → Prop) (view : W → Z → V) (D : V → Prop)
    (lt : V → V → bool) (Errs : sorterr → Prop) (lo hi : Z) := {
  o_get w i : Inv w → lo ≤ i ≤ hi → rawgeti w i = Ok (view w i);
  o_set w i v : Inv w → lo ≤ i ≤ hi → D v →
    match rawseti w i v with
    | Ok w' => Inv w' ∧ ∀ x, view w' x = if x =? i then v else view w x
    | Err e => Errs e
    | Undef => False
    end;
  o_comp w a b : Inv w → D a → D b →
    match sort_comp w a b with
    | Ok (w', c) => Inv w' ∧ (∀ x, view w' x = view w x) ∧ c = lt a b
    | Err e => Errs e
    | Undef => False
    end;
  o_asym a b : D a → D b → lt a b = true → lt b a = false;
  o_trans a b c : D a → D b → D c → lt b a = false → lt c b = false → lt c a = false
}.

Section Order.
Context {W V : Type} `{World W V} (Inv : W → Prop) (view : W → Z → V) (D : V → Prop)
  (lt : V → V → bool) (Errs : sorterr → Prop) (lo hi : Z) `{!Orderly Inv view D lt Errs lo hi}.

Definition le (a b : V) : Prop := lt b a = false.

(** The result satisfies [Q]; errors are those of accesses and comparisons, [Errs]. *)
Definition post {A} (r : res A) (Q : A → Prop) : Prop :=
  match r with Ok a => Q a | Err e => Errs e | Undef => False end.

Lemma post_bind {A B} (r : res A) (f : A → res B) (P : A → Prop) (Q : B → Prop) :
  post r P → (∀ a, P a → post (f a) Q) → post (rbind r f) Q.
Proof. destruct r; cbn; auto. Qed.

Lemma post_impl {A} (r : res A) (P Q : A → Prop) : post r P → (∀ a, P a → Q a) → post r Q.
Proof. destruct r; cbn; auto. Qed.

(** A state in which the range holds [f]. *)
Definition holds (f : Z → V) (w : W) : Prop := Inv w ∧ (∀ x, view w x = f x) ∧ ∀ x, lo ≤ x ≤ hi → D (f x).

Lemma le_refl a : D a → le a a.
Proof. intros Ha. unfold le. destruct (lt a a) eqn:E; [|done]. rewrite <-E. by apply o_asym. Qed.
Lemma le_trans a b c : D a → D b → D c → le a b → le b c → le a c.
Proof. intros Ha Hb Hc H1 H2. by apply (o_trans a b c). Qed.
Lemma lt_le a b : D a → D b → lt a b = true → le a b.
Proof. intros. by apply o_asym. Qed.

Lemma post_get {B} f w i (g : V → res B) Q :
  holds f w → lo ≤ i ≤ hi → post (g (f i)) Q → post (rbind (rawgeti w i) g) Q.
Proof. intros (Hi & Hv & _) ? Hg. rewrite (o_get w i) by done. cbn. by rewrite Hv. Qed.

Lemma post_comp {B} f w a b (g : W * bool → res B) Q :
  holds f w → D a → D b → (∀ w', holds f w' → post (g (w', lt a b)) Q) → post (rbind (sort_comp w a b) g) Q.
Proof.
  intros (Hi & Hv & Hd) Ha Hb Hg. pose proof (o_comp w a b Hi Ha Hb) as Hc.
  destruct (sort_comp w a b) as [[w' c]| |]; [|done..]. destruct Hc as (? & Hv' & ->). cbn.
  apply Hg. split_and!; [done| |done]. intros x. by rewrite Hv'.
Qed.

Lemma holds_swap f i j x : (∀ x, lo ≤ x ≤ hi → D (f x)) → lo ≤ i ≤ hi → lo ≤ j ≤ hi →
  lo ≤ x ≤ hi → D (swap i j f x).
Proof. intros Hd ? ? ?. unfold swap. repeat case_match; auto. Qed.

Lemma post_set2 f w i j :
  holds f w → lo ≤ i ≤ hi → lo ≤ j ≤ hi → post (set2 w i (f j) j (f i)) (holds (swap i j f)).
Proof.
  intros (Hi & Hv & Hd) Hli Hlj. unfold set2. pose proof (o_set w i (f j) Hi Hli (Hd j Hlj)) as H1.
  destruct (rawseti w i (f j)) as [w1| |]; [|done..]. destruct H1 as [Hi1 Hv1]. cbn.
  pose proof (o_set w1 j (f i) Hi1 Hlj (Hd i Hli)) as H2.
  destruct (rawseti w1 j (f i)) as [w2| |]; [|done..]. destruct H2 as [Hi2 Hv2]. cbn.
  split_and!; [done| |intros; by apply holds_swap]. intros x. rewrite Hv2, Hv1, Hv. done.
Qed.

Lemma scan_up_spec fuel f w P u i s :
  holds f w → D P → lo ≤ i + 1 → u ≤ hi → i < s ≤ u → le P (f s) → u - i ≤ Z.of_nat fuel →
  post (scan_up fuel w P u i) (λ '(w', i', a), holds f w' ∧ i < i' ≤ s ∧ a = f i' ∧ le P (f i') ∧
    ∀ x, i < x < i' → le (f x) P).
Proof.
  intros Hw HP Hlo Hu. revert w i Hw Hlo. induction fuel as [|fuel IH]; intros w i Hw Hlo Hs Hle Hf; [lia|].
  cbn [scan_up]. apply (post_get f); [done|lia|]. assert (D (f (i + 1))) as HD by (apply Hw; lia).
  apply (post_comp f); [done..|]. intros w' Hw'. destruct (lt (f (i + 1)) P) eqn:E.
  - destruct (decide (s = i + 1)) as [->|]; [unfold le in Hle; congruence|].
    rewrite (proj2 (Z.leb_gt u (i + 1))) by lia.
    eapply post_impl; [apply IH; [done|lia..|done|lia]|].
    intros [[w2 i2] a] (? & ? & -> & ? & Hx). split_and!; try done; [lia..|].
    intros x ?. destruct (decide (x = i + 1)) as [->|]; [by apply lt_le|]. apply Hx. lia.
  - cbn. split_and!; try done; [lia..|]. intros x ?. lia.
Qed.

Lemma scan_down_spec fuel f w P l j s :
  holds f w → D P → j - 1 ≤ hi → lo ≤ l → l ≤ s < j → le (f s) P → j - l ≤ Z.of_nat fuel →
  post (scan_down fuel w P l j) (λ '(w', j', a), holds f w' ∧ s ≤ j' < j ∧ a = f j' ∧ le (f j') P ∧
    ∀ x, j' < x < j → le P (f x)).
Proof.
  intros Hw HP Hhi Hl. revert w j Hw Hhi. induction fuel as [|fuel IH]; intros w j Hw Hhi Hs Hle Hf; [lia|].
  cbn [scan_down]. apply (post_get f); [done|lia|]. assert (D (f (j - 1))) as HD by (apply Hw; lia).
  apply (post_comp f); [done..|]. intros w' Hw'. destruct (lt P (f (j - 1))) eqn:E.
  - destruct (decide (s = j - 1)) as [->|]; [unfold le in Hle; congruence|].
    rewrite (proj2 (Z.leb_gt (j - 1) l)) by lia.
    eapply post_impl; [apply IH; [done|lia..|done|lia]|].
    intros [[w2 j2] a] (? & ? & -> & ? & Hx). split_and!; try done; [lia..|].
    intros x ?. destruct (decide (x = j - 1)) as [->|]; [by apply lt_le|]. apply Hx. lia.
  - cbn. split_and!; try done; [lia..|]. intros x ?. lia.
Qed.

Lemma part_loop_spec fuel f w P l u i j :
  holds f w → D P → lo ≤ l → u ≤ hi → l ≤ i ≤ j → j < u → l < j → i + 1 < u → j - i < Z.of_nat fuel →
  (∀ x, l ≤ x ≤ i → le (f x) P) → (∀ x, j ≤ x ≤ u → le P (f x)) →
  post (part_loop fuel w P l u i j) (λ '(w', r), ∃ g, holds g w' ∧ perm_on (l + 1) (u - 2) f g ∧
    l < r < u ∧ (∀ x, l ≤ x < r → le (g x) P) ∧ (∀ x, r ≤ x ≤ u → le P (g x))).
Proof.
  intros Hw HP Hlo Hhi. revert f w i j Hw.
  induction fuel as [|fuel IH]; intros f w i j Hw Hij Hju Hlj Hiu Hf Hlow Hhigh; [lia|]. cbn [part_loop].
  eapply post_bind.
  { apply (scan_up_spec _ f _ _ _ _ (Z.max j (i + 1))); [done..|lia|lia|lia| |lia].
    apply Hhigh. lia. }
  intros [[w1 i1] ai] (Hw1 & Hi1 & -> & Hle1 & Hup). eapply post_bind.
  { apply (scan_down_spec _ f _ _ _ _ (Z.min i (j - 1))); [done..|lia|lia|lia| |lia].
    apply Hlow. lia. }
  intros [[w2 j1] aj] (Hw2 & Hj1 & -> & Hle2 & Hdn).
  assert (∀ x, l ≤ x < i1 → le (f x) P) as Hlow1.
  { intros x ?. destruct (decide (x ≤ i)); [apply Hlow; lia|apply Hup; lia]. }
  assert (∀ x, j1 < x ≤ u → le P (f x)) as Hhigh1.
  { intros x ?. destruct (decide (j ≤ x)); [apply Hhigh; lia|apply Hdn; lia]. }
  destruct (j1 <? i1) eqn:E; bprop.
  - cbn. exists f. split_and!; try done; [by apply perm_on_eq|lia..|].
    intros x ?. destruct (decide (x = i1)) as [->|]; [done|]. apply Hhigh1. lia.
  - eapply post_bind; [apply (post_set2 f w2 i1 j1); [done|lia..]|]. intros w3 Hw3.
    assert (perm_on (l + 1) (u - 2) f (swap i1 j1 f)) as Hperm by (apply (perm_on_swap _ _ i1 j1); [lia..|done]).
    eapply post_impl.
    { apply (IH (swap i1 j1 f) w3 i1 j1); [done|lia..| |].
      - intros x ?. unfold swap. destruct (x =? j1) eqn:E1; bprop.
        + subst x. by replace i1 with j1 by lia.
        + destruct (x =? i1) eqn:E2; bprop; [done|]. apply Hlow1. lia.
      - intros x ?. unfold swap. destruct (x =? j1) eqn:E1; bprop; [done|].
        destruct (x =? i1) eqn:E2; bprop; [lia|]. apply Hhigh1. lia. }
    intros [w' r] (g & ? & Hp & ?). exists g. split; [done|]. split; [by eapply perm_on_trans|done].
Qed.

(** The range is split at [r]. *)
Definition split_at (l u r : Z) (g : Z → V) : Prop :=
  (∀ x, l ≤ x < r → le (g x) (g r)) ∧ (∀ x, r < x ≤ u → le (g r) (g x)).

Lemma partition_spec f w l i u :
  holds f w → lo ≤ l → u ≤ hi → l < i < u → l + 2 < u → le (f l) (f i) → le (f i) (f u) →
  post (partition w l i u) (λ '(w', r), ∃ g, holds g w' ∧ perm_on l u f g ∧ l < r < u ∧ split_at l u r g).
Proof.
  intros Hw Hlo Hhi Hi Hu Hli Hiu. unfold partition.
  assert (∀ x, l ≤ x ≤ u → D (f x)) as HD by (intros; apply Hw; lia).
  apply (post_get f); [done|lia|]. apply (post_get f); [done|lia|].
  eapply post_bind; [apply (post_set2 f w i (u - 1)); [done|lia..]|]. intros w1 Hw1.
  set (P := f i) in *. set (f1 := swap i (u - 1) f) in *.
  assert (f1 (u - 1) = P) as Hpiv by (unfold f1, swap; by rewrite Z.eqb_refl).
  assert (f1 l = f l ∧ f1 u = f u) as [El Eu].
  { unfold f1, swap. split; repeat case_match; bprop; lia || done. }
  eapply post_bind.
  { apply (part_loop_spec _ f1 w1 P l u l (u - 1)); [done|apply HD; lia|lia..| |].
    - intros x ?. replace x with l by lia. by rewrite El.
    - intros x ?. destruct (decide (x = u - 1)) as [->|].
      + rewrite Hpiv. apply le_refl, HD. lia.
      + replace x with u by lia. by rewrite Eu. }
  intros [w2 r] (g & Hg & Hp & Hr & Hlow & Hhigh).
  assert (g (u - 1) = P) as Hgp by (rewrite (perm_on_out _ _ _ _ (u - 1) Hp) by lia; done).
  apply (post_get g); [done|lia|]. apply (post_get g); [done|lia|].
  eapply post_bind; [apply (post_set2 g w2 (u - 1) r); [done|lia..]|]. intros w3 Hw3.
  exists (swap (u - 1) r g). split; [done|]. split.
  - eapply perm_on_trans; [apply (perm_on_swap l u i (u - 1)); [lia..|done]|]. fold f1.
    eapply perm_on_trans; [eapply (perm_on_mono (l + 1) (u - 2)); [lia..|done]|].
    apply (perm_on_swap l u (u - 1) r); [lia..|done].
  - split; [lia|]. unfold split_at. assert (swap (u - 1) r g r = P) as -> by (unfold swap; by rewrite Z.eqb_refl).
    split; intros x ?; unfold swap; repeat case_match; bprop; try lia; try done.
    + by apply Hlow.
    + apply Hhigh. lia.
    + apply Hhigh. lia.
Qed.

Lemma sort_ends_spec f w l u :
  holds f w → lo ≤ l → u ≤ hi → l < u →
  post (sort_ends w l u) (λ w', ∃ g, holds g w' ∧ perm_on l u f g ∧ le (g l) (g u) ∧
    ∀ x, l < x < u → g x = f x).
Proof.
  intros Hw Hlo Hhi Hlu. unfold sort_ends.
  assert (∀ x, l ≤ x ≤ u → D (f x)) as HD by (intros; apply Hw; lia).
  apply (post_get f); [done|lia|]. apply (post_get f); [done|lia|].
  apply (post_comp f); [done|apply HD; lia..|]. intros w1 Hw1. destruct (lt (f u) (f l)) eqn:E.
  - eapply post_impl; [apply (post_set2 f w1 l u); [done|lia..]|]. intros w2 Hw2. exists (swap l u f).
    split_and!; [done|by apply (perm_on_swap l u l u); [lia..|done]| |].
    + unfold swap. rewrite Z.eqb_refl. destruct (l =? u) eqn:?; bprop; [lia|]. rewrite Z.eqb_refl.
      apply lt_le; [apply HD; lia..|done].
    + intros x ?. unfold swap. repeat case_match; bprop; lia || done.
  - cbn. exists f. split_and!; [done|by apply perm_on_eq|done|done].
Qed.

Lemma sort_middle_spec f w l i u :
  holds f w → lo ≤ l → u ≤ hi → l < i < u → le (f l) (f u) →
  post (sort_middle w l i u) (λ w', ∃ g, holds g w' ∧ perm_on l u f g ∧ le (g l) (g i) ∧ le (g i) (g u)).
Proof.
  intros Hw Hlo Hhi Hi Hlu. unfold sort_middle.
  assert (∀ x, l ≤ x ≤ u → D (f x)) as HD by (intros; apply Hw; lia).
  apply (post_get f); [done|lia|]. apply (post_get f); [done|lia|].
  apply (post_comp f); [done|apply HD; lia..|]. intros w1 Hw1. destruct (lt (f i) (f l)) eqn:E.
  { eapply post_impl; [apply (post_set2 f w1 i l); [done|lia..]|]. intros w2 Hw2. exists (swap i l f).
    split_and!; [done|by apply (perm_on_swap l u i l); [lia..|done]| |];
      unfold swap; repeat case_match; bprop; try lia; try done.
    apply lt_le; [apply HD; lia..|done]. }
  apply (post_get f); [done|lia|]. apply (post_comp f); [done|apply HD; lia..|].
  intros w2 Hw2. destruct (lt (f u) (f i)) eqn:E2.
  - eapply post_impl; [apply (post_set2 f w2 i u); [done|lia..]|]. intros w3 Hw3. exists (swap i u f).
    split_and!; [done|by apply (perm_on_swap l u i u); [lia..|done]| |];
      unfold swap; repeat case_match; bprop; try lia; try done.
    apply lt_le; [apply HD; lia..|done].
  - cbn. exists f. split_and!; [done|by apply perm_on_eq|done|done].
Qed.

Definition sorted (l u : Z) (g : Z → V) : Prop := ∀ x y, l ≤ x ≤ y → y ≤ u → le (g x) (g y).

(** Sorting both parts of a split range sorts it. *)
Lemma sorted_join l u r f g h :
  (∀ x, l ≤ x ≤ u → D (f x)) → l ≤ r ≤ u → split_at l u r f →
  (perm_on l (r - 1) f g ∧ sorted l (r - 1) g ∧ perm_on (r + 1) u g h ∧ sorted (r + 1) u h ∨
   perm_on (r + 1) u f g ∧ sorted (r + 1) u g ∧ perm_on l (r - 1) g h ∧ sorted l (r - 1) h) →
  perm_on l u f h ∧ sorted l u h.
Proof.
  intros HD Hr [Hlow Hhigh] Hparts.
  assert (perm_on l u f h) as Hp.
  { destruct Hparts as [(P1 & _ & P2 & _)|(P1 & _ & P2 & _)];
      (eapply perm_on_trans; [eapply perm_on_mono; [| |exact P1]|eapply perm_on_mono; [| |exact P2]]); lia. }
  split; [done|].
  assert (∀ x, l ≤ x ≤ u → D (h x)) as HDh by (by apply (perm_on_forall _ _ f)).
  assert (h r = f r ∧ (∀ x, l ≤ x ≤ r - 1 → le (h x) (f r)) ∧ (∀ x, r + 1 ≤ x ≤ u → le (f r) (h x)) ∧
    sorted l (r - 1) h ∧ sorted (r + 1) u h) as (Er & Hl & Hh & Sl & Sh).
  { destruct Hparts as [(P1 & S1 & P2 & S2)|(P1 & S1 & P2 & S2)].
    - assert (∀ x, x ≤ r → h x = g x) as E by (intros; apply (perm_on_out _ _ _ _ _ P2); lia).
      split_and!; [|..|done].
      + rewrite E by lia. apply (perm_on_out _ _ _ _ _ P1). lia.
      + intros x ?. rewrite E by lia. apply (perm_on_forall _ _ f g (λ a, le a (f r)) P1); [|lia]. intros; apply Hlow; lia.
      + apply (perm_on_forall _ _ g h (λ a, le (f r) a) P2). intros x ?.
        rewrite (perm_on_out _ _ _ _ _ P1) by lia. apply Hhigh. lia.
      + intros x y ? ?. rewrite !E by lia. apply S1; lia.
    - assert (∀ x, r ≤ x → h x = g x) as E by (intros; apply (perm_on_out _ _ _ _ _ P2); lia).
      split_and!; [| | |done|].
      + rewrite E by lia. apply (perm_on_out _ _ _ _ _ P1). lia.
      + apply (perm_on_forall _ _ g h (λ a, le a (f r)) P2). intros x ?.
        rewrite (perm_on_out _ _ _ _ _ P1) by lia. apply Hlow. lia.
      + intros x ?. rewrite E by lia. apply (perm_on_forall _ _ f g (λ a, le (f r) a) P1); [|lia]. intros; apply Hhigh; lia.
      + intros x y ? ?. rewrite !E by lia. apply S1; lia. }
  intros x y Hx Hy. destruct (decide (y < r)); [apply Sl; lia|]. destruct (decide (r < x)); [apply Sh; lia|].
  apply (le_trans _ (f r)); [apply HDh; lia|apply HD; lia|apply HDh; lia| |].
  - destruct (decide (x = r)) as [->|]; [rewrite Er; apply le_refl, HD; lia|apply Hl; lia].
  - destruct (decide (y = r)) as [->|]; [rewrite Er; apply le_refl, HD; lia|apply Hh; lia].
Qed.

Lemma sorted_two f w l u : holds f w → lo ≤ l → u ≤ hi → u = l + 1 → le (f l) (f u) → sorted l u f.
Proof.
  intros Hw Hlo Hhi -> L x y ? ?. destruct (decide (x = y)) as [->|]; [apply le_refl, Hw; lia|].
  replace x with l by lia. by replace y with (l + 1) by lia.
Qed.

Lemma sorted_three f w l i u :
  holds f w → lo ≤ l → u ≤ hi → l < i < u → u - l = 2 → le (f l) (f i) → le (f i) (f u) → sorted l u f.
Proof.
  intros Hw Hlo Hhi Hi Hu L1 L2 x y ? ?.
  assert (le (f l) (f u)) as L3 by (eapply le_trans; [..|exact L1|exact L2]; apply Hw; lia).
  destruct (decide (x = y)) as [->|]; [apply le_refl, Hw; lia|].
  destruct (decide (x = l)) as [->|].
  - destruct (decide (y = u)) as [->|]; [done|]. by replace y with i by lia.
  - replace x with i by lia. by replace y with u by lia.
Qed.

Lemma auxsort_spec depth n f w l u :
  holds f w → 1 ≤ l → lo ≤ l → u ≤ hi → u < 2 ^ 30 → (0 < depth)%nat → (0 < n)%nat →
  u - l + 1 < 2 ^ Z.of_nat depth → u - l < Z.of_nat n →
  post (auxsort depth n w l u) (λ w', ∃ g, holds g w' ∧ perm_on l u f g ∧ sorted l u g).
Proof.
  intros Hw H1. revert n f w l u Hw H1. induction depth as [|depth IHd]; [lia|].
  induction n as [|n IHn]; [lia|]. intros f w l u Hw H1 Hlo Hhi Hu _ _ Hd Hn. rewrite auxsort_eq.
  destruct (l <? u) eqn:Elu; bprop; cbn [negb].
  2:{ cbn. exists f. split_and!; [done|by apply perm_on_eq|]. intros x y ? ?. replace y with x by lia.
      apply le_refl, Hw. lia. }
  rewrite Nat2Z.inj_succ, Z.pow_succ_r in Hd by lia.
  eapply post_bind; [by apply (sort_ends_spec f)|]. intros w1 (g1 & Hw1 & P1 & L1 & _).
  destruct (u - l =? 1) eqn:E1; bprop.
  { cbn. exists g1. split_and!; [done..|]. by apply (sorted_two g1 w1); [..|lia|]. }
  pose proof (middle_range l u H1 ltac:(lia) Hu) as Hm. set (i := Z.quot (i32 (l + u)) 2) in *.
  eapply post_bind; [by apply (sort_middle_spec g1)|]. intros w2 (g2 & Hw2 & P2 & L2 & L3).
  pose proof (perm_on_trans _ _ _ _ _ P1 P2) as P12.
  destruct (u - l =? 2) eqn:E2; bprop.
  { cbn. exists g2. split_and!; [done..|]. by apply (sorted_three g2 w2 l i u). }
  eapply post_bind; [apply (partition_spec g2); [done|lia..|done|done]|].
  intros [w3 r] (g3 & Hw3 & P3 & Hr & Hsp).
  pose proof (perm_on_trans _ _ _ _ _ P12 P3) as P123.
  assert (0 < depth)%nat as Hdep.
  { destruct depth; [|lia]. change (2 ^ Z.of_nat 0) with 1 in Hd. lia. }
  assert (∀ h w', holds h w' →
    (∃ g, perm_on l (r - 1) g3 g ∧ sorted l (r - 1) g ∧ perm_on (r + 1) u g h ∧ sorted (r + 1) u h ∨
          perm_on (r + 1) u g3 g ∧ sorted (r + 1) u g ∧ perm_on l (r - 1) g h ∧ sorted l (r - 1) h) →
    ∃ g, holds g w' ∧ perm_on l u f g ∧ sorted l u g) as Hjoin.
  { intros h w' Hh (g & Hparts). exists h. split; [done|].
    destruct (sorted_join l u r g3 g h) as [? ?]; [intros; apply Hw3; lia|lia|done|done|].
    split; [by eapply perm_on_trans|done]. }
  destruct (r - l <? u - r) eqn:E; bprop.
  - eapply post_bind; [apply (IHd _ g3); [done|lia..]|]. intros w4 (g4 & Hw4 & P4 & S4).
    eapply post_impl.
    { apply (IHn g4 w4 (r + 1) u); [done|lia..| |lia]. rewrite Nat2Z.inj_succ, Z.pow_succ_r; lia. }
    intros w5 (g5 & Hw5 & P5 & S5). apply (Hjoin g5 w5 Hw5). exists g4. by left.
  - eapply post_bind; [apply (IHd _ g3); [done|lia..]|]. intros w4 (g4 & Hw4 & P4 & S4).
    eapply post_impl.
    { apply (IHn g4 w4 l (r - 1)); [done|lia..| |lia]. rewrite Nat2Z.inj_succ, Z.pow_succ_r; lia. }
    intros w5 (g5 & Hw5 & P5 & S5). apply (Hjoin g5 w5 Hw5). exists g4. by right.
Qed.

End Order.
End Sort.
