(* ===== verification/TabLib.v ===== *)
(** * The table library (lib/table.c) and raw access (uj_capi.c)

    Insertion, removal and sorting work on tables through raw integer access.  The argument checks are
    left out; the length is that of [TabIter.v].  A pointer that the code keeps over another
    operation is a slot: after a rehash it is dangling, and reading it is undefined. *)

From stdpp Require Import base decidable list numbers option.
From Stdlib Require Import ZArith Lia.
From S2P Require Import Prelude Obj Tab TabIter Sort.

Local Open Scope Z_scope.

Module TabLib.
Import Obj Tab TabIter.
#[local] Open Scope vela_scope.

Section Ops.
Context `{ObjHeap}.

(** [lua_rawgeti(L, idx, n)] on a table: the value that is pushed. *)
Definition lua_rawgeti (n : Z) : M TValue := λ t,
  match deref t (lj_tab_getint t n) with Some v => Ret v t | None => Undef end.

(** [lua_rawseti(L, idx, n)] with [v] on top of the stack.  Barriers do not change the contents. *)
Definition lua_rawseti (n : Z) (v : TValue) : M () := let! dst := tab_setint n in store dst v.

(** ** table.insert *)

(** [k] turns of [for (...; i > n; i--)]: the slot is made first, then the neighbour is read. *)
Fixpoint shift_up (k : nat) (i : Z) : M () :=
  match k with
  | O => M_ret ()
  | S k =>
      let! dst := tab_setint i in
      let! v := lua_rawgeti (i - 1) in
      store dst v >>> shift_up k (i - 1)
  end.

(** [pos] is the position if there are three arguments. *)
Definition table_insert (pos : option Z) (v : TValue) : M () :=
  let! t := get in
  let i := i32 (lj_tab_len t) + 1 in
  match pos with
  | None => lua_rawseti i v
  | Some n => shift_up (Z.to_nat (i - n)) i >>> lua_rawseti n v
  end.

(** ** table.remove *)

(** Does [lj_tab_setint] on this key rehash the table?  It does if the key is in no slot, its main
    node is taken, and there is no free node. *)
Definition setint_rehashes (t : GCtab) (k : Z) : bool :=
  if inarray t k then false
  else
    match lj_tab_getinth t k with
    | LNull =>
        match node t !! hashkey (hmask t) (TNum (int2num k)) with
        | Some nn =>
            (negb (tvisnil (val nn)) || (hmask t =? 0)) &&
            match find_free (node t) (freetop t) with None => true | Some _ => false end
        | None => false
        end
    | _ => false
    end.

(** Read through a pointer that was taken before the set. *)
Definition read_kept (src : lookup) (rehashed : bool) : M TValue := λ t,
  match src with
  | LNull => Ret TNil t
  | LSlot s => if rehashed then Undef else Ret (slot_read t s) t
  | LUndef => Undef
  end.

(** [k] turns of [for (; pos < e; pos++)]: the neighbour is looked up first, but read after the slot
    is made. *)
Fixpoint shift_down (k : nat) (pos : Z) : M () :=
  match k with
  | O => M_ret ()
  | S k =>
      let! t := get in
      let src := lj_tab_getint t (pos + 1) in
      let! dst := tab_setint pos in
      let! v := read_kept src (setint_rehashes t pos) in
      store dst v >>> shift_down k (pos + 1)
  end.

(** The removed value, or nothing. *)
Definition table_remove (pos : option Z) : M (option TValue) :=
  let! t := get in
  let e := i32 (lj_tab_len t) in
  let pos := default e pos in
  if negb ((1 <=? pos) && (pos <=? e)) then M_ret None
  else
    let! v := lua_rawgeti pos in
    shift_down (Z.to_nat (e - pos)) pos >>>
    (let! dst := tab_setint e in store dst TNil) >>>
    M_ret (Some v).

(** ** table.sort *)

(** The sort sees a table and a comparison of values that may use and change it. *)
Definition tab_world (cmp : GCtab → TValue → TValue → Sort.res (GCtab * bool)) : Sort.World GCtab TValue := {|
  Sort.rawgeti t i := match lua_rawgeti i t with Ret v _ => Sort.Ok v | _ => Sort.Undef end;
  Sort.rawseti t i v :=
    match lua_rawseti i v t with
    | Ret _ t => Sort.Ok t
    | Throw UJ_ERR_TABOV _ => Sort.Err (Sort.EOther 0)
    | Throw _ _ => Sort.Err (Sort.EOther 1)
    | Undef => Sort.Undef
    end;
  Sort.sort_comp := cmp |}.

Definition sort_table (cmp : GCtab → TValue → TValue → Sort.res (GCtab * bool)) (t : GCtab) : Sort.res GCtab :=
  @Sort.table_sort _ _ (tab_world cmp) t (i32 (lj_tab_len t)).

End Ops.
End TabLib.
