(* ===== verification/TabLibTheorems.v ===== *)
(** * Theorems on the table library *)

From stdpp Require Import base decidable list numbers option sets.
From Stdlib Require Import ZArith Lia.
From S2P Require Import Prelude Obj Tab TabChain TabWf TabPut TabResize TabRehash TabSpec.
From S2P Require Import TabTheorems TabIter TabIterSpec Sort TabLib.

Local Open Scope Z_scope.

Module TabLibTheorems.
Import Obj Tab TabChain TabWf TabPut TabResize TabRehash TabSpec TabTheorems TabIter TabIterSpec TabLib.
#[local] Open Scope vela_scope.

Section Lib.
Context `{ObjHeap}.
Implicit Types t : GCtab.

(** The value at an integer. *)
Definition iview (t : GCtab) (x : Z) : TValue := ref_get t (num x).

(** The table [t'] has [g] at the integers and differs from [t] only at integers from [lo] to [hi]. *)
Record changed (t t' : GCtab) (lo hi : Z) (g : Z → TValue) : Prop := {
  ch_wf : twf t';
  ch_mut : mutable t';
  ch_int : ∀ x, in_s 32 x → iview t' x = g x;
  ch_other : ∀ k, tv_ok k → (∀ x, lo ≤ x ≤ hi → uj_obj_equal k (num x) = false) → ref_get t' k = ref_get t k
}.

(** A run that changes the table like this, or the overflow error of a huge table. *)
Definition changes {A} (t : GCtab) (lo hi : Z) (g : Z → TValue) (a : A) (r : outcome A) : Prop :=
  (∃ t', r = Ret a t' ∧ changed t t' lo hi g) ∨ ∃ t', r = Throw UJ_ERR_TABOV t'.

Lemma num_equal x i : in_s 32 x → in_s 32 i → uj_obj_equal (num x) (num i) = (x =? i).
Proof.
  intros Hx Hi. destruct (x =? i) eqn:E; bprop.
  - subst. cbn. by apply num_eq_refl, int2num_notnan.
  - apply not_true_iff_false. intros Ht. apply obj_equal_norm in Ht; [|by apply int2num_key_ok..].
    unfold num in Ht. rewrite !norm_int in Ht by done. injection Ht as Ht. by apply int2num_inj in Ht.
Qed.

Lemma changed_refl t lo hi g : twf t → mutable t → (∀ x, in_s 32 x → iview t x = g x) → changed t t lo hi g.
Proof. by split. Qed.

Lemma changed_trans t1 t2 t3 lo hi lo' hi' g h :
  lo ≤ lo' → hi' ≤ hi → changed t1 t2 lo hi g → changed t2 t3 lo' hi' h → changed t1 t3 lo hi h.
Proof.
  intros Hlo Hhi [_ _ _ O1] [W M I O2]. split; try done. intros k Hk Hne. rewrite O2, O1; auto.
  intros x ?. apply Hne. lia.
Qed.

Lemma changed_mono t t' lo hi lo' hi' g :
  lo' ≤ lo → hi ≤ hi' → changed t t' lo hi g → changed t t' lo' hi' g.
Proof. intros ? ? [? ? ? O]. split; try done. intros k Hk Hne. apply O; [done|]. intros x ?. apply Hne. lia. Qed.

Lemma stores_changed t i v r :
  twf t → in_s 32 i → stores t (num i) v r →
  changes t i i (λ x, if x =? i then v else iview t x) () r.
Proof.
  intros W Hi [(t' & E & W' & M' & G)|(t' & E & _)]; [left|right; eauto]. exists t'. split; [done|].
  assert (∀ k, tv_ok k → ref_get t' k = map_put (ref_get t) (num i) v k) as Hg.
  { intros k Hk. specialize (G k Hk). rewrite get_is_ref in G by done. by injection G. }
  split; try done.
  - intros x Hx. unfold iview. rewrite Hg by (by apply int2num_num). unfold map_put. by rewrite num_equal.
  - intros k Hk Hne. rewrite Hg by done. unfold map_put. by rewrite Hne by lia.
Qed.

Lemma rawgeti_spec t i : twf t → in_s 32 i → lua_rawgeti i t = Ret (iview t i) t.
Proof. intros W Hi. unfold lua_rawgeti. by rewrite (getint_ref t W). Qed.

Lemma setint_sets t i : twf t → mutable t → in_s 32 i → sets t (num i) (tab_setint i t).
Proof. intros. by apply lj_tab_setint_sets. Qed.

Lemma rawseti_changes t i v :
  twf t → mutable t → in_s 32 i →
  changes t i i (λ x, if x =? i then v else iview t x) () (lua_rawseti i v t).
Proof.
  intros W M Hi. apply stores_changed; [done..|]. apply sets_stores; [done|by apply int2num_key_ok|].
  by apply setint_sets.
Qed.

Lemma changes_bind {A B} t lo hi g (a : A) (m : M A) (f : A → M B) (Q : outcome B → Prop) :
  changes t lo hi g a (m t) →
  (∀ t', changed t t' lo hi g → Q (f a t')) → (∀ t', Q (Throw UJ_ERR_TABOV t')) → Q ((let! x := m in f x) t).
Proof. intros [(t' & E & Hc)|(t' & E)] Hf Ht; unfold M_bind; rewrite E; auto. Qed.

(** ** Insertion *)

(** One turn of the loop. *)
Lemma shift_step t i v' (k : M ()) :
  twf t → mutable t → in_s 32 i → in_s 32 (i - 1) → v' = iview t (i - 1) →
  (let! dst := tab_setint i in let! v := lua_rawgeti (i - 1) in store dst v >>> k) t =
  ((let! dst := tab_setint i in store dst v') >>> k) t.
Proof.
  intros W M Hi Hi1 ->. unfold M_bind.
  destruct (setint_sets t i W M Hi) as [(s & t1 & E & L)|(t1 & E & _)]; rewrite E; [|done].
  rewrite rawgeti_spec by (done || apply L).
  assert (iview t1 (i - 1) = iview t (i - 1)) as ->; [|done].
  apply same_map_get; [done|apply L|apply L|by apply int2num_num].
Qed.

Lemma shift_up_spec k i t :
  twf t → mutable t → in_s 32 i → in_s 32 (i - Z.of_nat k) →
  changes t (i - Z.of_nat k + 1) i
    (λ x, if (i - Z.of_nat k <? x) && (x <=? i) then iview t (x - 1) else iview t x) () (shift_up k i t).
Proof.
  revert i t. induction k as [|k IH]; intros i t W M Hi Hk.
  { left. exists t. split; [done|]. apply changed_refl; [done..|]. intros x Hx.
    destruct ((i - Z.of_nat 0 <? x) && (x <=? i)) eqn:E; bprop; [lia|done]. }
  assert (in_s 32 (i - 1)) as Hi1 by (unfold in_s in *; lia).
  cbn [shift_up]. rewrite (shift_step t i (iview t (i - 1))) by done.
  eapply (changes_bind t i i); [by apply rawseti_changes| |right; eauto].
  intros t1 Hc1. destruct (IH (i - 1) t1) as [(t2 & E & Hc2)|]; [apply Hc1|apply Hc1|done| | |by right].
  { unfold in_s in *. lia. }
  left. exists t2. split; [done|].
  apply (changed_mono _ _ i i (i - Z.of_nat (S k) + 1) i) in Hc1; [|lia..].
  destruct (changed_trans t t1 t2 (i - Z.of_nat (S k) + 1) i (i - 1 - Z.of_nat k + 1) (i - 1) _ _
    ltac:(lia) ltac:(lia) Hc1 Hc2) as [W2 M2 I2 O2].
  split; try done. intros x Hx. rewrite I2 by done.
  assert (∀ y, in_s 32 y → iview t1 y = if y =? i then iview t (i - 1) else iview t y) as E1 by apply Hc1.
  destruct ((i - Z.of_nat (S k) <? x) && (x <=? i)) eqn:Ex; bprop.
  - destruct ((i - 1 - Z.of_nat k <? x) && (x <=? i - 1)) eqn:Ey; bprop.
    + rewrite E1 by (unfold in_s in *; lia). by rewrite (proj2 (Z.eqb_neq (x - 1) i)) by lia.
    + rewrite E1 by done. destruct (x =? i) eqn:?; bprop; [by subst|lia].
  - destruct ((i - 1 - Z.of_nat k <? x) && (x <=? i - 1)) eqn:Ey; bprop; [lia|].
    rewrite E1 by done. by rewrite (proj2 (Z.eqb_neq x i)) by lia.
Qed.

(** ** Removal *)

(** The slot of a key that is present is found, and nothing changes. *)
Lemma setint_present t i :
  twf t → mutable t → in_s 32 i → iview t i ≠ TNil →
  setint_rehashes t i = false ∧ ∃ s, tab_setint i t = Ret s t.
Proof.
  intros W M Hi Hn. unfold setint_rehashes, tab_setint, lj_tab_setint, check_mutable. rewrite M.
  destruct (inarray t i) eqn:Ea; [eauto|]. unfold lj_tab_setinth, check_mutable. rewrite M.
  destruct (getinth_found t i W Hi) as [(j & n & _ & _ & ->)|[Hf E]]; [cbn; eauto|].
  exfalso. apply Hn. pose proof (getint_ref t W i Hi) as Hd. unfold lj_tab_getint in Hd. rewrite Ea, E in Hd.
  cbn in Hd. by injection Hd.
Qed.

Lemma shift_down_step t pos (k : M ()) :
  twf t → mutable t → in_s 32 pos → in_s 32 (pos + 1) → iview t pos ≠ TNil →
  (let! t := get in
   let src := lj_tab_getint t (pos + 1) in
   let! dst := tab_setint pos in
   let! v := read_kept src (setint_rehashes t pos) in store dst v >>> k) t =
  ((let! dst := tab_setint pos in store dst (iview t (pos + 1))) >>> k) t.
Proof.
  intros W M Hp Hp1 Hn. destruct (setint_present t pos W M Hp Hn) as [Er (s & E)].
  unfold M_bind, get. rewrite E, Er. pose proof (getint_ref t W (pos + 1) Hp1) as Hd.
  fold (iview t (pos + 1)) in Hd.
  unfold read_kept. destruct (lj_tab_getint t (pos + 1)) as [s'| |]; cbn [deref] in Hd; [| |done];
    injection Hd as Hd; by rewrite <-?Hd.
Qed.

(** Present keys are set without an error. *)
Lemma rawseti_present t i v :
  twf t → mutable t → in_s 32 i → iview t i ≠ TNil →
  ∃ t', lua_rawseti i v t = Ret () t' ∧ changed t t' i i (λ x, if x =? i then v else iview t x).
Proof.
  intros W M Hi Hn. destruct (rawseti_changes t i v W M Hi) as [?|(t' & E)]; [done|].
  destruct (setint_present t i W M Hi Hn) as [_ (s & Es)]. unfold lua_rawseti, M_bind in E. by rewrite Es in E.
Qed.

Lemma shift_down_spec k pos t :
  twf t → mutable t → in_s 32 pos → in_s 32 (pos + Z.of_nat k) →
  (∀ x, pos ≤ x < pos + Z.of_nat k → iview t x ≠ TNil) →
  ∃ t', shift_down k pos t = Ret () t' ∧ changed t t' pos (pos + Z.of_nat k)
    (λ x, if (pos <=? x) && (x <? pos + Z.of_nat k) then iview t (x + 1) else iview t x).
Proof.
  revert pos t. induction k as [|k IH]; intros pos t W M Hp Hk Hn.
  { exists t. split; [done|]. apply changed_refl; [done..|]. intros x Hx.
    destruct ((pos <=? x) && (x <? pos + Z.of_nat 0)) eqn:E; bprop; [lia|done]. }
  assert (in_s 32 (pos + 1)) as Hp1 by (unfold in_s in *; lia).
  cbn [shift_down]. rewrite shift_down_step by (done || apply Hn; lia).
  destruct (rawseti_present t pos (iview t (pos + 1)) W M Hp) as (t1 & E1 & Hc1); [apply Hn; lia|].
  unfold lua_rawseti in E1. unfold M_bind at 1. rewrite E1.
  assert (∀ y, in_s 32 y → iview t1 y = if y =? pos then iview t (pos + 1) else iview t y) as V1 by apply Hc1.
  destruct (IH (pos + 1) t1) as (t2 & E2 & Hc2); [apply Hc1|apply Hc1|done|unfold in_s in *; lia| |].
  { intros x ?. rewrite V1 by (unfold in_s in *; lia). rewrite (proj2 (Z.eqb_neq x pos)) by lia. apply Hn. lia. }
  exists t2. split; [done|].
  apply (changed_mono _ _ pos pos pos (pos + Z.of_nat (S k))) in Hc1; [|lia..].
  destruct (changed_trans t t1 t2 pos (pos + Z.of_nat (S k)) (pos + 1) (pos + 1 + Z.of_nat k) _ _
    ltac:(lia) ltac:(lia) Hc1 Hc2) as [W2 M2 I2 O2].
  split; try done. intros x Hx. rewrite I2 by done.
  destruct ((pos <=? x) && (x <? pos + Z.of_nat (S k))) eqn:Ex; bprop.
  - destruct ((pos + 1 <=? x) && (x <? pos + 1 + Z.of_nat k)) eqn:Ey; bprop.
    + rewrite V1 by (unfold in_s in *; lia). by rewrite (proj2 (Z.eqb_neq (x + 1) pos)) by lia.
    + rewrite V1 by done. destruct (x =? pos) eqn:?; bprop; [by subst|lia].
  - destruct ((pos + 1 <=? x) && (x <? pos + 1 + Z.of_nat k)) eqn:Ey; bprop; [lia|].
    rewrite V1 by done. by rewrite (proj2 (Z.eqb_neq x pos)) by lia.
Qed.

Lemma len_range t : twf t → 0 ≤ lj_tab_len t ≤ INT_MAX - 2 ∧ i32 (lj_tab_len t) = lj_tab_len t.
Proof.
  intros W. destruct (lj_tab_len_border t W) as (Hr & _). split; [lia|]. unfold i32, INT_MAX in *.
  apply wraps_id; [done|]. unfold in_s. lia.
Qed.

(** ** Sorting *)

(** The values at all integers, nil where the keys are no integers of the machine. *)
Definition sview (t : GCtab) (x : Z) : TValue := if bool_decide (in_s 32 x) then iview t x else TNil.

(** What the sort keeps: the rest of the table, and that there are no holes. *)
Definition sort_inv (t0 : GCtab) (n : Z) (t : GCtab) : Prop :=
  twf t ∧ mutable t ∧ (∀ x, 1 ≤ x ≤ n → iview t x ≠ TNil) ∧
  ∀ k, tv_ok k → (∀ x, 1 ≤ x ≤ n → uj_obj_equal k (num x) = false) → ref_get t k = ref_get t0 k.

Section TabSort.
Context (t0 : GCtab) (n : Z) (cmp : GCtab → TValue → TValue → Sort.res (GCtab * bool)).
Context (lt : TValue → TValue → bool) (D : TValue → Prop).
Hypothesis Hn : n < 2 ^ 30.
Hypothesis Hnil : ∀ v, D v → v ≠ TNil.
Hypothesis Hcmp : ∀ t a b, D a → D b → cmp t a b = Sort.Ok (t, lt a b).
Hypothesis Hasym : ∀ a b, D a → D b → lt a b = true → lt b a = false.
Hypothesis Htrans : ∀ a b c, D a → D b → D c → lt b a = false → lt c b = false → lt c a = false.

#[local] Instance tab_world_inst : Sort.World GCtab TValue := tab_world cmp.

Lemma sort_in_s x : 1 ≤ x ≤ n → in_s 32 x.
Proof. intros. unfold in_s. lia. Qed.

(** Tables give the sort what it needs. *)
#[local] Instance tab_orderly : Sort.Orderly (sort_inv t0 n) sview D lt (λ _, False) 1 n.
Proof.
  split; auto.
  - intros t i (W & _) Hi. cbn. rewrite rawgeti_spec by (done || by apply sort_in_s). unfold sview.
    by rewrite bool_decide_true by (by apply sort_in_s).
  - intros t i v (W & M & Hh & Ho) Hi Hv. cbn.
    destruct (rawseti_present t i v W M (sort_in_s i Hi) (Hh i Hi)) as (t' & E & [W' M' I' O']). rewrite E.
    split; [split_and!; [done..| |]|].
    + intros x Hx. rewrite I' by (by apply sort_in_s). destruct (x =? i); auto.
    + intros k Hk Hne. rewrite O'; auto. intros x ?. apply Hne. lia.
    + intros x. unfold sview. case_bool_decide as Hx.
      * by apply I'.
      * destruct (x =? i) eqn:E'; bprop; [|done]. subst. destruct Hx. by apply sort_in_s.
  - intros t a b Ht Ha Hb. cbn. by rewrite Hcmp.
Qed.

Lemma sort_table_spec f :
  i32 (lj_tab_len t0) = n → 1 ≤ n → Sort.holds (sort_inv t0 n) sview D 1 n f t0 →
  ∃ t', sort_table cmp t0 = Sort.Ok t' ∧ ∃ g, Sort.holds (sort_inv t0 n) sview D 1 n g t' ∧
    Sort.perm_on 1 n f g ∧ Sort.sorted lt 1 n g.
Proof.
  intros Hlen H1 Hf. unfold sort_table. rewrite Hlen. unfold Sort.table_sort.
  pose proof (Z.log2_spec n ltac:(lia)) as Hlog. pose proof (Z.log2_nonneg n).
  pose proof (Sort.auxsort_spec (sort_inv t0 n) sview D lt (λ _, False) 1 n
    (S (S (Z.to_nat (Z.log2 n)))) (S (Z.to_nat n)) f t0 1 n) as Hs.
  destruct (Sort.auxsort _ _ t0 1 n) as [t'| |] eqn:E.
  1: { exists t'. split; [done|]. apply Hs; try done; try lia.
       rewrite !Nat2Z.inj_succ, Z2Nat.id by done. rewrite Z.pow_succ_r by lia. lia. }
  all: exfalso; apply Hs; try done; try lia;
    rewrite !Nat2Z.inj_succ, Z2Nat.id by done; rewrite Z.pow_succ_r by lia; lia.
Qed.

End TabSort.

(** table.insert: unless the table overflows, the values from the position on move up by one, up to
    the length, and the new value is at the position; without a position it is appended.  All other
    keys keep their values. *)
Theorem table_insert_correct t pos v :
  twf t → mutable t → (∀ n, pos = Some n → in_s 32 n) →
  let e := lj_tab_len t + 1 in
  let n := default e pos in
  changes t n (Z.max n e)
    (λ x, if x =? n then v else if (n <? x) && (x <=? e) then iview t (x - 1) else iview t x) ()
    (table_insert pos v t).
Proof.
  intros W M Hpos e n. destruct (len_range t W) as [Hlen Hi32]. unfold INT_MAX in Hlen.
  unfold table_insert. unfold M_bind at 1, get. rewrite Hi32. fold e.
  assert (in_s 32 e) as He by (unfold in_s; subst e; lia).
  destruct pos as [p|]; cbn in n; subst n.
  - specialize (Hpos p eq_refl).
    assert (changes t p (Z.max p e)
      (λ x, if (p <? x) && (x <=? e) then iview t (x - 1) else iview t x) ()
      (shift_up (Z.to_nat (e - p)) e t)) as Hsh.
    { destruct (decide (p ≤ e)).
      - destruct (shift_up_spec (Z.to_nat (e - p)) e t W M He) as [(t1 & E & Hc)|]; [unfold in_s in *; lia| |by right].
        left. exists t1. split; [done|]. replace (e - Z.of_nat (Z.to_nat (e - p))) with p in Hc by lia.
        eapply changed_mono; [..|exact Hc]; lia.
      - replace (Z.to_nat (e - p)) with O by lia. left. exists t. split; [done|]. apply changed_refl; [done..|].
        intros x _. destruct ((p <? x) && (x <=? e)) eqn:E; bprop; [lia|done]. }
    eapply (changes_bind t _ _ _ ()); [exact Hsh| |right; eauto]. intros t1 Hc1.
    destruct (rawseti_changes t1 p v) as [(t2 & E2 & Hc2)|]; [apply Hc1|apply Hc1|done| |by right].
    left. exists t2. split; [done|].
    destruct (changed_trans t t1 t2 p (Z.max p e) p p _ _ ltac:(lia) ltac:(lia) Hc1 Hc2) as [W2 M2 I2 O2].
    split; try done. intros x Hx. rewrite I2 by done. cbv beta. destruct (x =? p) eqn:E; [done|]. by apply (ch_int _ _ _ _ _ Hc1).
  - destruct (rawseti_changes t e v W M He) as [(t2 & E2 & Hc2)|]; [|by right].
    left. exists t2. split; [done|]. destruct Hc2 as [W2 M2 I2 O2]. split; try done.
    + intros x Hx. rewrite I2 by done. destruct (x =? e) eqn:Ex; [done|].
      destruct ((e <? x) && (x <=? e)) eqn:E; bprop; [lia|done].
    + intros k Hk Hne. apply O2; [done|]. intros x ?. apply Hne. lia.
Qed.

(** C24: table.remove on a sequence: if the values from the position up to the length are not nil, the
    removed value is returned, the values behind it move down by one, the last place becomes nil, and all
    other keys keep their values; no error is possible.  A position that is not between 1 and the
    length removes nothing. *)
Theorem table_remove_correct t pos :
  twf t → mutable t → (∀ n, pos = Some n → in_s 32 n) →
  let e := lj_tab_len t in
  let p := default e pos in
  (∀ x, p ≤ x ≤ e → iview t x ≠ TNil) →
  if bool_decide (1 ≤ p ≤ e)
  then ∃ t', table_remove pos t = Ret (Some (iview t p)) t' ∧
         changed t t' p e (λ x, if x =? e then TNil
           else if (p <=? x) && (x <? e) then iview t (x + 1) else iview t x)
  else table_remove pos t = Ret None t.
Proof.
  intros W M Hpos e p Hn. destruct (len_range t W) as [Hlen Hi32]. unfold INT_MAX in Hlen.
  unfold table_remove, get, M_bind. cbv beta iota zeta. rewrite Hi32. fold e. fold p.
  case_bool_decide as Hp.
  2:{ destruct ((1 <=? p) && (p <=? e)) eqn:E; bprop; [lia|done]. }
  replace ((1 <=? p) && (p <=? e)) with true
    by (symmetry; apply andb_true_iff; rewrite !Z.leb_le; lia). cbn [negb].
  assert (in_s 32 p ∧ in_s 32 e) as [Hp32 He32] by (unfold in_s; lia).
  rewrite rawgeti_spec by done.
  destruct (shift_down_spec (Z.to_nat (e - p)) p t W M Hp32) as (t1 & E1 & Hc1).
  { by replace (p + Z.of_nat (Z.to_nat (e - p))) with e by lia. }
  { intros x ?. apply Hn. lia. }
  replace (p + Z.of_nat (Z.to_nat (e - p))) with e in Hc1 by lia. rewrite E1.
  assert (iview t1 e ≠ TNil) as Hne.
  { rewrite (ch_int _ _ _ _ _ Hc1) by done. rewrite (proj2 (Z.ltb_ge e e)), andb_false_r by lia. apply Hn. lia. }
  destruct (rawseti_present t1 e TNil) as (t2 & E2 & Hc2); [apply Hc1|apply Hc1|done|done|].
  unfold lua_rawseti, M_bind in E2. rewrite E2. exists t2. split; [done|].
  destruct (changed_trans t t1 t2 p e e e _ _ ltac:(lia) ltac:(lia) Hc1 Hc2) as [W2 M2 I2 O2].
  split; try done. intros x Hx. rewrite I2 by done. cbv beta. destruct (x =? e); [done|].
  by apply (ch_int _ _ _ _ _ Hc1).
Qed.

(** C22: table.sort sorts.  For a table without holes up to its length and a comparison that is a strict
    weak order on its values, the sort ends without an error; it keeps the values from 1 to the length in
    another order, in which no value is less than one before it, and leaves all other keys as they are. *)
Theorem sort_table_correct t cmp lt (D : TValue → Prop) :
  let n := lj_tab_len t in
  twf t → mutable t → 1 ≤ n < 2 ^ 30 →
  (∀ x, 1 ≤ x ≤ n → D (iview t x)) → (∀ v, D v → v ≠ TNil) →
  (∀ t a b, D a → D b → cmp t a b = Sort.Ok (t, lt a b)) →
  (∀ a b, D a → D b → lt a b = true → lt b a = false) →
  (∀ a b c, D a → D b → D c → lt b a = false → lt c b = false → lt c a = false) →
  ∃ t', sort_table cmp t = Sort.Ok t' ∧ twf t' ∧ mutable t' ∧
    Sort.elems 1 n (iview t) ≡ₚ Sort.elems 1 n (iview t') ∧
    (∀ x y, 1 ≤ x ≤ y → y ≤ n → lt (iview t' y) (iview t' x) = false) ∧
    ∀ k, tv_ok k → (∀ x, 1 ≤ x ≤ n → uj_obj_equal k (num x) = false) → ref_get t' k = ref_get t k.
Proof.
  intros n W M Hn HD Hnil Hcmp Hasym Htrans. destruct (len_range t W) as [_ Hi32].
  assert (∀ x, 1 ≤ x ≤ n → in_s 32 x) as Hin by (unfold in_s; lia).
  assert (∀ t' x, 1 ≤ x ≤ n → sview t' x = iview t' x) as Hv
    by (intros; unfold sview; by rewrite bool_decide_true by auto).
  destruct (sort_table_spec t n cmp lt D ltac:(lia) Hnil Hcmp Hasym Htrans (sview t) Hi32 ltac:(lia))
    as (t' & E & g & ((W' & M' & _ & Ho) & Hg & _) & Hp & Hs).
  { split_and!; [|done|]; [split_and!; [done..| |done]|].
    - intros x Hx. by apply Hnil, HD.
    - intros x Hx. rewrite Hv by done. by apply HD. }
  exists t'. split_and!; try done.
  - assert (∀ t1, Sort.elems 1 n (iview t1) = Sort.elems 1 n (sview t1)) as Ee.
    { intros t1. apply list_fmap_ext. intros i x Hx%list_elem_of_lookup_2%elem_of_seqZ. symmetry. apply Hv. lia. }
    rewrite !Ee. replace (Sort.elems 1 n (sview t')) with (Sort.elems 1 n g); [by apply Sort.perm_on_elems|].
    by apply list_fmap_ext.
  - intros x y Hx Hy. rewrite <-!Hv by lia. rewrite !Hg. by apply Hs.
Qed.


End Lib.

(** ** Examples *)

#[local] Existing Instance demo_heap.

Lemma puts_wf l t : (∀ k v, (k, v) ∈ l → key_ok k) → twf t → mutable t →
  (∃ t', run_puts l t = Ret () t') → twf (ret_tab (run_puts l t)) ∧ mutable (ret_tab (run_puts l t)).
Proof. intros Hl W M (t' & E). rewrite E. cbn. by eapply run_puts_wf. Qed.

Definition seq_puts : list (TValue * TValue) :=
  [(num 1, num 30); (num 2, num 10); (num 3, num 40); (num 4, num 20); (num 5, num 10)].
Definition seq_tab : GCtab := ret_tab (run_puts seq_puts demo_new).

Lemma seq_tab_wf : twf seq_tab ∧ mutable seq_tab.
Proof.
  destruct demo_new_wf as [W M]. apply puts_wf; try done.
  - assert (Forall (λ kv : TValue * TValue, key_ok kv.1) seq_puts) as Hall
      by (repeat constructor; vm_compute; intuition congruence).
    intros k v Hin. apply (proj1 (Forall_forall _ _) Hall (k, v) Hin).
  - eexists. vm_compute. reflexivity.
Qed.

(** Numbers that are not negative are ordered like their patterns. *)
Definition num_lt (a b : TValue) : bool := match a, b with TNum x, TNum y => x <? y | _, _ => false end.

Local Notation num_cmp := (λ (t : GCtab) (a b : TValue), Sort.Ok (t, num_lt a b)).

Lemma sort_table_correct_witness :
  ∃ t', sort_table num_cmp seq_tab = Sort.Ok t' ∧
    Sort.elems 1 5 (iview seq_tab) ≡ₚ Sort.elems 1 5 (iview t') ∧
    (∀ x y, 1 ≤ x ≤ y → y ≤ 5 → num_lt (iview t' y) (iview t' x) = false).
Proof.
  destruct seq_tab_wf as [W M].
  assert (lj_tab_len seq_tab = 5) as El by (vm_compute; reflexivity).
  assert (∀ x, 1 ≤ x ≤ 5 → ∃ z, iview seq_tab x = TNum z) as Hnum.
  { intros x Hx. assert (x = 1 ∨ x = 2 ∨ x = 3 ∨ x = 4 ∨ x = 5) as [->|[->|[->|[->| ->]]]] by lia;
      eexists; vm_compute; reflexivity. }
  destruct (sort_table_correct seq_tab num_cmp num_lt (λ v, ∃ z, v = TNum z)) as (t' & E & _ & _ & Hp & Hs & _);
    [exact W|exact M|rewrite El; lia|rewrite El; exact Hnum|by intros v [z ->]|reflexivity| | |].
  - intros a b [x ->] [y ->]. cbn. rewrite Z.ltb_lt, Z.ltb_ge. lia.
  - intros a b c [x ->] [y ->] [z ->]. cbn. rewrite !Z.ltb_ge. lia.
  - rewrite El in Hp, Hs. exists t'. exact (conj E (conj Hp Hs)).
Defined.


Lemma table_remove_correct_witness :
  ∃ t', table_remove (Some 2) seq_tab = Ret (Some (num 10)) t' ∧ iview t' 2 = num 40 ∧ iview t' 5 = TNil.
Proof.
  destruct seq_tab_wf as [W M].
  assert (lj_tab_len seq_tab = 5) as El by (vm_compute; reflexivity).
  pose proof (table_remove_correct seq_tab (Some 2) W M) as H. rewrite El in H.
  destruct H as (t' & E & Hc).
  - intros n [= <-]. unfold in_s. lia.
  - intros x Hx. assert (x = 2 ∨ x = 3 ∨ x = 4 ∨ x = 5) as [->|[->|[->| ->]]] by (cbn in Hx; lia); vm_compute; discriminate.
  - exists t'. split; [exact E|]. split.
    + rewrite (ch_int _ _ _ _ _ Hc) by (unfold in_s; lia). vm_compute. reflexivity.
    + rewrite (ch_int _ _ _ _ _ Hc) by (unfold in_s; lia). vm_compute. reflexivity.
Defined.

(** table.remove keeps the pointer to the neighbour while it makes the slot to write: if this slot is
    new, the neighbour may have been moved to another node.  On a table with a hole, which has a
    length all the same, the value at 4 is lost. *)
Definition hole_tab : GCtab :=
  ret_tab (run_puts [(num 1, num 10); (num 4, num 40); (num 2, num 20)] (ret_tab (lj_tab_new 0 2))).

Lemma table_remove_stale_pointer :
  lj_tab_len hole_tab = 4 ∧ iview hole_tab 4 = num 40 ∧
  ∃ t', table_remove (Some 1) hole_tab = Ret (Some (num 10)) t' ∧
    (iview t' <$> [1; 2; 3; 4]) = [num 20; TNil; TNil; TNil].
Proof.
  split; [vm_compute; reflexivity|]. split; [vm_compute; reflexivity|].
  eexists. split; vm_compute; reflexivity.
Qed.

End TabLibTheorems.
