(* ===== verification/Lex.v ===== *)
(** * The lexer (frontend/lj_lex.c, lj_lex.h)

    The input is what the reader callback returns, one block per call; [p] is what is left of the current
    block, [n] the counter of octets that the code keeps beside the pointer.  The counter is a [size_t]
    which wraps around at the end of the stream, and reading behind a block is undefined.  An error is
    the message, the line and the text of the token; the message itself is not formatted.

    The class [LexEnv] is what the lexer calls: the conversion of number literals (utils/strscan.c), the
    creation of anchored strings and cdata by the parser, and the reserved word that a string object is.
    The second part is the instance for the string table of [Str.v] and the table of constants of the
    function that is compiled, with [lj_lex_init]; the last part is the quoting of strings by
    string.format (lib/string.c), which is read back by the lexer. *)

From Stdlib Require Import ZArith Lia String Ascii.
From stdpp Require Import base decidable gmap numbers option list.
From S2P Require Import Prelude Leb128 Obj Tab StrHash Str Cstr Sbuf StrPat.

Local Open Scope Z_scope.

Module Lex.
Import Leb128 Obj Sbuf StrPat.Char.

(** ** Tokens *)

Definition octs (s : string) : list Z :=
  map (λ a, Z.of_N (N_of_ascii a)) (list_ascii_of_string s).

Definition tokennames : list (list Z) := map octs [
  "and"; "break"; "do"; "else"; "elseif"; "end"; "false";
  "for"; "function"; "goto"; "if"; "in"; "local"; "nil"; "not"; "or";
  "repeat"; "return"; "then"; "true"; "until"; "while";
  ".."; "..."; "=="; ">="; "<="; "~=";
  "::"; "<number>"; "<name>"; "<string>"; "<eof>" ]%string.

Definition TK_OFS : Z := 256.
Definition TK_while : Z := 278.
Definition TK_concat : Z := 279.
Definition TK_dots : Z := 280.
Definition TK_eq : Z := 281.
Definition TK_ge : Z := 282.
Definition TK_le : Z := 283.
Definition TK_ne : Z := 284.
Definition TK_label : Z := 285.
Definition TK_number : Z := 286.
Definition TK_name : Z := 287.
Definition TK_string : Z := 288.
Definition TK_eof : Z := 289.
Definition TK_RESERVED : Z := TK_while - TK_OFS.

Definition END_OF_STREAM : Z := -1.
Definition LJ_MAX_STR : Z := Str.LJ_MAX_STR.
Definition LJ_MAX_LINE : Z := 0x7fffff00.

(** ** What the lexer calls *)

Inductive StrScanFmt :=
  | STRSCAN_ERROR | STRSCAN_NUM | STRSCAN_IMAG | STRSCAN_INT | STRSCAN_U32 | STRSCAN_I64 | STRSCAN_U64.

(** [strscan_tonumber] gets the text with its terminating zero and returns the format and the pattern
    of 64 bits; [lj_parse_keepstr] and [keepcdata] return the address of the object or throw. *)
Class LexEnv (S : Type) := {
  strscan_tonumber : list Z → StrScanFmt * Z;
  lj_parse_keepstr : list Z → S → option (Z * S);
  keepcdata : StrScanFmt → Z → S → option (Z * S);
  reserved : S → Z → Z
}.

Inductive errmsg :=
  | UJ_ERR_XELEM | UJ_ERR_XLINES | UJ_ERR_XNUMBER | UJ_ERR_XLSTR | UJ_ERR_XLCOM | UJ_ERR_XSTR
  | UJ_ERR_XESC | UJ_ERR_XLDELIM | UJ_ERR_BCBAD.

(** A syntax error with its line and the text of the token, the refusal of a dump, an error of the
    buffer, an error while an object is made. *)
Inductive lexerr :=
  | ESyntax (em : errmsg) (line : Z) (tok_str : option (list Z))
  | EBad
  | EBuffer
  | EKeep.

(** ** The state *)

Record LexState (S : Type) := MkLex {
  current : Z;
  n : Z;
  p : list Z;
  rdata : list (list Z);     (** what [rfunc] returns, call by call; no block: [NULL] *)
  sb : sbuf;
  linenumber : Z;
  lastline : Z;
  token : Z;
  tokenval : TValue;
  lookahead : Z;
  lookaheadval : TValue;
  env : S
}.
Arguments MkLex {S}.
Arguments current {S}.
Arguments n {S}.
Arguments p {S}.
Arguments rdata {S}.
Arguments sb {S}.
Arguments linenumber {S}.
Arguments lastline {S}.
Arguments token {S}.
Arguments tokenval {S}.
Arguments lookahead {S}.
Arguments lookaheadval {S}.
Arguments env {S}.

Inductive outcome (S A : Type) :=
  | LOk (a : A) (ls : LexState S)
  | LErr (e : lexerr)
  | LUndef.
Arguments LOk {S A}.
Arguments LErr {S A}.
Arguments LUndef {S A}.

Section Lexer.
Context {S : Type} `{LexEnv S}.

Definition L (A : Type) : Type := LexState S → outcome S A.

Definition ret {A} (a : A) : L A := LOk a.
Definition lbind {A B} (m : L A) (f : A → L B) : L B := λ ls,
  match m ls with LOk a ls => f a ls | LErr e => LErr e | LUndef => LUndef end.

Notation "'let%' x := m 'in' k" := (lbind m (λ x, k)) (at level 10, x binder, k at level 200).
Notation "m ;% k" := (lbind m (λ _, k)) (at level 60, right associativity).

Definition set_input (c n : Z) (p : list Z) (r : list (list Z)) (ls : LexState S) : LexState S :=
  MkLex c n p r (sb ls) (linenumber ls) (lastline ls) (token ls) (tokenval ls) (lookahead ls)
    (lookaheadval ls) (env ls).
Definition set_sb (b : sbuf) (ls : LexState S) : LexState S :=
  MkLex (current ls) (n ls) (p ls) (rdata ls) b (linenumber ls) (lastline ls) (token ls) (tokenval ls)
    (lookahead ls) (lookaheadval ls) (env ls).
Definition set_linenumber (l : Z) (ls : LexState S) : LexState S :=
  MkLex (current ls) (n ls) (p ls) (rdata ls) (sb ls) l (lastline ls) (token ls) (tokenval ls)
    (lookahead ls) (lookaheadval ls) (env ls).
Definition set_lastline (l : Z) (ls : LexState S) : LexState S :=
  MkLex (current ls) (n ls) (p ls) (rdata ls) (sb ls) (linenumber ls) l (token ls) (tokenval ls)
    (lookahead ls) (lookaheadval ls) (env ls).
Definition set_token (t : Z) (v : TValue) (ls : LexState S) : LexState S :=
  MkLex (current ls) (n ls) (p ls) (rdata ls) (sb ls) (linenumber ls) (lastline ls) t v
    (lookahead ls) (lookaheadval ls) (env ls).
Definition set_lookahead (t : Z) (v : TValue) (ls : LexState S) : LexState S :=
  MkLex (current ls) (n ls) (p ls) (rdata ls) (sb ls) (linenumber ls) (lastline ls) (token ls)
    (tokenval ls) t v (env ls).
Definition set_env (s : S) (ls : LexState S) : LexState S :=
  MkLex (current ls) (n ls) (p ls) (rdata ls) (sb ls) (linenumber ls) (lastline ls) (token ls)
    (tokenval ls) (lookahead ls) (lookaheadval ls) s.

Definition cur : L Z := λ ls, LOk (current ls) ls.
Definition front : L (list Z) := λ ls, LOk (data (sb ls)) ls.
Definition lex_env : L S := λ ls, LOk (env ls) ls.

(** ** Buffer handling *)

(** The state [ls] is that after [n--]. *)
Definition fillbuf : L () := λ ls,
  match rdata ls with
  | [] => LOk () (set_input END_OF_STREAM (n ls) (p ls) [] ls)
  | [] :: r => LOk () (set_input END_OF_STREAM (n ls) (p ls) r ls)
  | (c :: b) :: r => LOk () (set_input c (len b) b r ls)
  end.

Definition next : L () := λ ls,
  let n' := u64 (n ls - 1) in
  if 0 <? n ls then
    match p ls with
    | c :: p' => LOk () (set_input c n' p' (rdata ls) ls)
    | [] => LUndef
    end
  else fillbuf (set_input (current ls) n' (p ls) (rdata ls) ls).

(** [next(ls)] as an expression. *)
Definition next_char : L Z := next ;% cur.

(** [currIsNewline(ls)] of the current character. *)
Definition isNewline (c : Z) : bool := (c =? 10) || (c =? 13).

(** ** Errors *)

(** The text as [%s] prints it. *)
Fixpoint cstr (l : list Z) : list Z :=
  match l with [] => [] | c :: l => if c =? 0 then [] else c :: cstr l end.

Definition lj_lex_token2str (token : Z) : list Z :=
  if TK_OFS <? token then nth (Z.to_nat (token - TK_OFS - 1)) tokennames []
  else if negb (lj_char_isa token LJ_CHAR_CNTRL) then [token]
  else octs "char(" ++ Cstr.uj_cstr_fromint token ++ octs ")".

(** [save] with [lj_lex_error(ls, 0, UJ_ERR_XELEM)] written out: token 0 has no text. *)
Definition save (c : Z) : L () := λ ls,
  match uj_sbuf_push_char c (sb ls) with
  | SOk b =>
      if LJ_MAX_STR <=? uj_sbuf_size b then LErr (ESyntax UJ_ERR_XELEM (linenumber ls) None)
      else LOk () (set_sb b ls)
  | SThrow => LErr EBuffer
  | SUndef => LUndef
  end.

Definition lex_error_tok_str (token : Z) : L (option (list Z)) :=
  if token =? 0 then ret None
  else if (token =? TK_name) || (token =? TK_string) || (token =? TK_number) then
    save 0 ;% λ ls, LOk (Some (cstr (data (sb ls)))) ls
  else ret (Some (lj_lex_token2str token)).

Definition lj_lex_error {A} (token : Z) (em : errmsg) : L A :=
  let% tok_str := lex_error_tok_str token in
  λ ls, LErr (ESyntax em (linenumber ls) tok_str).

Definition save_and_next : L () := (λ ls, save (current ls) ls) ;% next.

Definition reset : L () := λ ls, LOk () (set_sb (uj_sbuf_reset (sb ls)) ls).

(** ** Loops

    Each turn of a loop reads on, so that the octets that are left bound the turns: [input_left] counts
    them, the current one and the end of the stream. *)

Definition input_left (ls : LexState S) : nat :=
  (length (p ls) + length (concat (rdata ls)) + 2)%nat.

(** Turns of [body] until it returns [inr]. *)
Fixpoint iter {A B} (fuel : nat) (body : A → L (A + B)) (a : A) : L B :=
  match fuel with
  | O => λ _, LUndef
  | Datatypes.S fuel =>
      let% r := body a in
      match r with inl a => iter fuel body a | inr b => ret b end
  end.
Definition loop {A B} (body : A → L (A + B)) (a : A) : L B := λ ls, iter (input_left ls) body a ls.

(** [while (cond) body], where the condition is on the current character. *)
Definition while_turn (cond : Z → bool) (body : L ()) (_ : ()) : L (() + ()) :=
  let% c := cur in if cond c then body ;% ret (inl ()) else ret (inr ()).
Definition while (cond : Z → bool) (body : L ()) : L () := loop (while_turn cond body) ().

Definition inclinenumber : L () :=
  let% old := cur in
  let% c := next_char in
  (if isNewline c && negb (c =? old) then next else ret ()) ;% λ ls,
  let ls := set_linenumber (i32 (linenumber ls + 1)) ls in
  if LJ_MAX_LINE <=? linenumber ls then lj_lex_error (token ls) UJ_ERR_XLINES ls else LOk () ls.

(** ** Scanner for terminals *)

Definition lj_char_isident (c : Z) : bool := lj_char_isa c LJ_CHAR_IDENT.
Definition lj_char_isxdigit (c : Z) : bool := lj_char_isa c LJ_CHAR_XDIGIT.
Definition lj_char_isspace (c : Z) : bool := lj_char_isa c LJ_CHAR_SPACE.

(** The arguments are converted to [char]. *)
Definition lj_char_tolower (c : Z) : Z := if (65 <=? c) && (c <=? 90) then c + 32 else c.
Definition lj_char_casecmp (c sample : Z) : bool := lj_char_tolower (wraps 8 c) =? sample.

(** The characters of the literal; [c] is the one before, [xp] the letter of the exponent. *)
Definition number_char (c xp cu : Z) : bool :=
  lj_char_isident cu || (cu =? 46) || (((cu =? 45) || (cu =? 43)) && lj_char_casecmp c xp).
Definition number_turn (xp c : Z) : L (Z + ()) :=
  let% cu := cur in
  if number_char c xp cu then save_and_next ;% ret (inl cu) else ret (inr ()).

Definition lex_number : L TValue :=
  let% c := cur in
  let% xp :=
    (if c =? 48 then
       save_and_next ;%
       let% x := cur in ret (if lj_char_casecmp x 120 then 112 else 101)
     else ret 101) in
  loop (number_turn xp) c ;%
  save 0 ;% λ ls,
  let (fmt, d) := strscan_tonumber (data (sb ls)) in
  match fmt with
  | STRSCAN_ERROR => lj_lex_error TK_number UJ_ERR_XNUMBER ls
  | STRSCAN_NUM => LOk (TNum d) ls
  | _ =>
      match keepcdata fmt d (env ls) with
      | Some (cd, s) => LOk (TGCV GT_CDATA cd) (set_env s ls)
      | None => LErr EKeep
      end
  end.

(** [lj_parse_keepstr(ls, str, len)] with [setstrV]. *)
Definition keepstr (str : list Z) : L Z := λ ls,
  match lj_parse_keepstr str (env ls) with
  | Some (s, e) => LOk s (set_env e ls)
  | None => LErr EKeep
  end.

Definition sep_turn (s count : Z) : L (Z + Z) :=
  let% c := cur in
  if c =? 61 then save_and_next ;% ret (inl (i32 (count + 1)))
  else ret (inr (if c =? s then count else - count - 1)).
Definition skip_sep : L Z :=
  let% s := cur in
  save_and_next ;%
  loop (sep_turn s) 0.

(** [uj_sbuf_front(sb) + from, uj_sbuf_size(sb) - 2 * from]: the buffer without its delimiters. *)
Definition keep_inner (from : Z) : L Z := λ ls,
  let sz := u64 (uj_sbuf_size (sb ls) - 2 * from) in
  if from + sz <=? uj_sbuf_size (sb ls)
  then keepstr (take (Z.to_nat sz) (drop (Z.to_nat from) (data (sb ls)))) ls
  else LUndef.

(** [str]: is there a [tv]?  Else this is a comment. *)
Definition long_turn (str : bool) (sep : Z) (_ : ()) : L (() + ()) :=
  let% c := cur in
  if c =? END_OF_STREAM then lj_lex_error TK_eof (if str then UJ_ERR_XLSTR else UJ_ERR_XLCOM)
  else if c =? 93 then
    let% k := skip_sep in
    if k =? sep then save_and_next ;% ret (inr ()) else ret (inl ())
  else if isNewline c then
    save 10 ;% inclinenumber ;% (if str then ret () else reset) ;% ret (inl ())
  else (if str then save_and_next else next) ;% ret (inl ()).

Definition read_long_string (str : bool) (sep : Z) : L (option Z) :=
  save_and_next ;%
  (let% c := cur in if isNewline c then inclinenumber else ret ()) ;%
  loop (long_turn str sep) () ;%
  if str then let% s := keep_inner (2 + sep) in ret (Some s) else ret None.

(** One digit of a hexadecimal escape: [next(ls) & 15u], and 9 more for a letter. *)
Definition hex_digit : L Z :=
  let% c := next_char in
  let d := Z.land c 15 in
  if lj_char_isdigit c then ret d
  else if negb (lj_char_isxdigit c) then lj_lex_error TK_string UJ_ERR_XESC
  else ret (d + 9).

(** A decimal escape from its first digit [c] on. *)
Definition decimal_escape (c : Z) : L Z :=
  let c := c - 48 in
  let% d := next_char in
  if lj_char_isdigit d then
    let c := c * 10 + (d - 48) in
    let% d := next_char in
    if lj_char_isdigit d then
      let c := c * 10 + (d - 48) in
      if 255 <? c then lj_lex_error TK_string UJ_ERR_XESC
      else next ;% ret c
    else ret c
  else ret c.

(** An escape sequence; the current character is the backslash. *)
Definition read_escape : L () :=
  let% c := next_char in
  let simple x := save x ;% next in
  if c =? 97 then simple 7          (* a *)
  else if c =? 98 then simple 8     (* b *)
  else if c =? 102 then simple 12   (* f *)
  else if c =? 110 then simple 10   (* n *)
  else if c =? 114 then simple 13   (* r *)
  else if c =? 116 then simple 9    (* t *)
  else if c =? 118 then simple 11   (* v *)
  else if c =? 120 then             (* x *)
    let% h := hex_digit in let% l := hex_digit in simple (h * 16 + l)
  else if c =? 122 then             (* z *)
    next ;% while lj_char_isspace (let% c := cur in if isNewline c then inclinenumber else next)
  else if isNewline c then save 10 ;% inclinenumber
  else if (c =? 92) || (c =? 34) || (c =? 39) then simple c
  else if c =? END_OF_STREAM then ret ()
  else if negb (lj_char_isdigit c) then lj_lex_error TK_string UJ_ERR_XESC
  else let% x := decimal_escape c in save x.

(** A character inside of a string. *)
Definition string_char : L () :=
  let% c := cur in
  if c =? END_OF_STREAM then lj_lex_error TK_eof UJ_ERR_XSTR
  else if isNewline c then lj_lex_error TK_string UJ_ERR_XSTR
  else if c =? 92 then read_escape
  else save_and_next.

Definition read_string (delim : Z) : L Z :=
  save_and_next ;%
  while (λ c, negb (c =? delim)) string_char ;%
  save_and_next ;%
  keep_inner 1.

(** ** Main lexical scanner *)

(** Tokens of one character [c] or, if [second] follows, of two. *)
Definition one_or_two (c second two : Z) : L Z :=
  let% d := next_char in if negb (d =? second) then ret c else next ;% ret two.

(** Identifier or reserved word. *)
Definition lex_name : L (Z * TValue) :=
  save_and_next ;%
  while lj_char_isident save_and_next ;%
  let% str := front in
  let% s := keepstr str in
  let% e := lex_env in
  let r := reserved e s in
  ret (if 0 <? r then TK_OFS + r else TK_name, TGCV GT_STR s).

(** The rest of a comment behind its second dash. *)
Definition lex_comment : L () :=
  let short := while (λ c, negb (isNewline c) && negb (c =? END_OF_STREAM)) next in
  let% c := cur in
  if c =? 91 then
    let% sep := skip_sep in
    reset ;%
    if 0 <=? sep then read_long_string false sep ;% reset else short
  else short.

(** Dots or a number. *)
Definition lex_dot (tv : TValue) : L (Z * TValue) :=
  save_and_next ;%
  let% c := cur in
  if c =? 46 then
    let% d := next_char in
    if d =? 46 then next ;% ret (TK_dots, tv) else ret (TK_concat, tv)
  else if negb (lj_char_isdigit c) then ret (46, tv)
  else let% v := lex_number in ret (TK_number, v).

(** One turn of the loop: [inl] goes on.  [tv] is the value that is there, for tokens without one. *)
Definition llex_turn (tv : TValue) : L (() + Z * TValue) :=
  let% c := cur in
  let tok t := ret (inr (t, tv)) in
  let again := ret (inl ()) in
  if lj_char_isident c then
    if lj_char_isdigit c then let% v := lex_number in ret (inr (TK_number, v))
    else let% r := lex_name in ret (inr r)
  else if isNewline c then inclinenumber ;% again
  else if (c =? 32) || (c =? 9) || (c =? 11) || (c =? 12) then next ;% again
  else if c =? 45 then
    let% d := next_char in
    if negb (d =? 45) then tok 45 else next ;% lex_comment ;% again
  else if c =? 91 then
    let% sep := skip_sep in
    if 0 <=? sep then
      let% s := read_long_string true sep in
      ret (inr (TK_string, match s with Some s => TGCV GT_STR s | None => tv end))
    else if sep =? -1 then tok 91
    else lj_lex_error TK_string UJ_ERR_XLDELIM
  else if c =? 61 then let% t := one_or_two 61 61 TK_eq in tok t
  else if c =? 60 then let% t := one_or_two 60 61 TK_le in tok t
  else if c =? 62 then let% t := one_or_two 62 61 TK_ge in tok t
  else if c =? 126 then let% t := one_or_two 126 61 TK_ne in tok t
  else if c =? 58 then let% t := one_or_two 58 58 TK_label in tok t
  else if (c =? 34) || (c =? 39) then
    let% s := read_string c in ret (inr (TK_string, TGCV GT_STR s))
  else if c =? 46 then let% r := lex_dot tv in ret (inr r)
  else if c =? END_OF_STREAM then tok TK_eof
  else next ;% tok c.

Definition llex (tv : TValue) : L (Z * TValue) := reset ;% loop (λ _, llex_turn tv) ().

(** ** Lexer API *)

Definition LUA_SIGNATURE0 : Z := 27.

(** The fields that [lj_lex_setup] sets; [rdata] and [env] are there. *)
Definition lex_start (r : list (list Z)) (s : S) : LexState S :=
  MkLex 0 0 [] r uj_sbuf_init 1 1 0 TNil TK_eof TNil s.

(** Skip a byte order mark if all of it is in the block. *)
Definition skip_bom : L bool := λ ls,
  if (current ls =? 0xef) && (2 <=? n ls) then
    match p ls with
    | b0 :: b1 :: p' =>
        if (b0 =? 0xbb) && (b1 =? 0xbf) then
          (next ;% ret true) (set_input (current ls) (n ls - 2) p' (rdata ls) ls)
        else LOk false ls
    | _ => LUndef
    end
  else LOk false ls.

(** Skip a first line that starts with a hash sign: [Some header], or [None] at the end of the stream. *)
Definition hash_turn (_ : ()) : L (() + option bool) :=
  let% c := next_char in
  if c =? END_OF_STREAM then ret (inr None)
  else if negb (isNewline c) then ret (inl ())
  else inclinenumber ;% ret (inr (Some true)).
Definition skip_hash (header : bool) : L (option bool) :=
  let% c := cur in if c =? 35 then loop hash_turn () else ret (Some header).

(** Is this a dump? *)
Definition lj_lex_setup : L bool :=
  next ;%
  let% header := skip_bom in
  let% h := skip_hash header in
  match h with
  | None => ret false
  | Some header =>
      let% c := cur in
      if c =? LUA_SIGNATURE0 then if header then λ _, LErr EBad else ret true
      else ret false
  end.

Definition lj_lex_next : L () := λ ls,
  let ls := set_lastline (linenumber ls) ls in
  if lookahead ls =? TK_eof then
    (let% r := llex (tokenval ls) in λ ls, LOk () (set_token r.1 r.2 ls)) ls
  else LOk () (set_lookahead TK_eof (lookaheadval ls) (set_token (lookahead ls) (lookaheadval ls) ls)).

Definition lj_lex_lookahead : L Z := λ ls,
  (let% r := llex (lookaheadval ls) in λ ls, LOk r.1 (set_lookahead r.1 r.2 ls)) ls.

End Lexer.

(** ** Strings of the parser (frontend/lj_parse.c) and reserved words *)

(** The string table, the [reserved] fields that are not zero, the table of constants [ls->fs->kt], and the
    cdata objects of literals. *)
Record pstate := MkP {
  pg : Str.gstate;
  preserved : gmap Z Z;
  kt : Tab.GCtab;
  cdatas : gmap Z (StrScanFmt * Z)
}.

Section Parser.
Context `{Str.HashF} `{ObjHeap} (str_alloc cd_alloc : pstate → Z) (scan_number : list Z → StrScanFmt * Z).

(** [lj_parse_keepstr] without [lj_gc_check]: a new string has no reserved word. *)
Definition parse_keepstr (str : list Z) (ps : pstate) : option (Z * pstate) :=
  match Str.uj_str_new (str_alloc ps) str (pg ps) with
  | Str.SThrow => None
  | Str.SRet s g =>
      match Tab.tab_setstr (Str.saddr s) (kt ps) with
      | Tab.Ret tv t =>
          let t := if tvisnil (Tab.slot_read t tv) then Tab.slot_write (TBool true) tv t else t in
          Some (Str.saddr s, MkP g (preserved ps) t (cdatas ps))
      | _ => None
      end
  end.

(** The object of a literal with a suffix, and [lj_parse_keepcdata]: the literal 1i has the parts 0 and 1. *)
Definition parse_keepcdata (fmt : StrScanFmt) (d : Z) (ps : pstate) : option (Z * pstate) :=
  let cd := cd_alloc ps in
  match Tab.tab_set (TGCV GT_CDATA cd) (kt ps) with
  | Tab.Ret tv t =>
      Some (cd, MkP (pg ps) (preserved ps) (Tab.slot_write (TBool true) tv t) (<[cd := (fmt, d)]> (cdatas ps)))
  | _ => None
  end.

#[export] Instance parser_env : LexEnv pstate := {|
  strscan_tonumber := scan_number;
  lj_parse_keepstr := parse_keepstr;
  keepcdata := parse_keepcdata;
  reserved ps s := default 0 (preserved ps !! s)
|}.

(** [fixstring(s)] *)
Definition LJ_GC_FIXED : Z := 0x20.
Definition fixstring (a : Z) (g : Str.gstate) : Str.gstate :=
  let fix_ s := Str.MkGCstr (Str.saddr s) (Z.lor (Str.smarked s) LJ_GC_FIXED) (Str.shash s) (Str.sdata s) in
  Str.MkG (Str.update_str a fix_ (Str.strhash g)) (Str.update_str a fix_ (Str.strhash_sealed g))
    (Str.strhash_hit g) (Str.strhash_miss g) (Str.currentwhite g) (Str.sweepstring g) (Str.strempty g).

(** One turn of [lj_lex_init]; [None] if the string cannot be made. *)
Definition init_word (i : nat) (ps : pstate) : option pstate :=
  match Str.uj_str_new (str_alloc ps) (nth i tokennames []) (pg ps) with
  | Str.SThrow => None
  | Str.SRet s g =>
      Some (MkP (fixstring (Str.saddr s) g) (<[Str.saddr s := u8 (Z.of_nat i + 1)]> (preserved ps)) (kt ps) (cdatas ps))
  end.
Fixpoint init_words (n i : nat) (ps : pstate) : option pstate :=
  match n with
  | O => Some ps
  | Datatypes.S n => match init_word i ps with Some ps => init_words n (Datatypes.S i) ps | None => None end
  end.
Definition lj_lex_init (ps : pstate) : option pstate := init_words (Z.to_nat TK_RESERVED) 0 ps.

End Parser.

(** ** Quoting (lib/string.c) *)

(** The label [tens] and what follows: two digits of [c]. *)
Definition quote_tens (c : Z) (b : sbuf) : Sbuf.result :=
  let d := Z.shiftr (c * 205) 11 in
  bind (uj_sbuf_push_char (48 + d) b) (uj_sbuf_push_char (c - d * 10 + 48)).

(** One turn of the loop; [next] is [s[1]]. *)
Definition quote_char (c next : Z) (b : sbuf) : Sbuf.result :=
  if (c =? 34) || (c =? 92) || (c =? 10) then
    bind (uj_sbuf_push_char 92 b) (uj_sbuf_push_char c)
  else if lj_char_isa c LJ_CHAR_CNTRL then
    bind (uj_sbuf_push_char 92 b) (λ b,
      if (100 <=? c) || lj_char_isdigit next then
        bind (uj_sbuf_push_char (48 + (if 100 <=? c then 1 else 0)) b)
          (quote_tens (if 100 <=? c then c - 100 else c))
      else if 10 <=? c then quote_tens c b
      else uj_sbuf_push_char (c + 48) b)
  else uj_sbuf_push_char c b.

(** The loop; a zero follows the string. *)
Fixpoint quote_chars (s : list Z) (b : sbuf) : Sbuf.result :=
  match s with
  | [] => SOk b
  | c :: s => bind (quote_char c (hd 0 s) b) (quote_chars s)
  end.

(** The argument is a number or a string. *)
Definition addquoted (number2str : Z → list Z) (arg : Z + list Z) (b : sbuf) : Sbuf.result :=
  bind (uj_sbuf_push_char 34 b) (λ b,
    bind (match arg with inl x => uj_sbuf_push_number number2str x b | inr s => quote_chars s b end)
      (uj_sbuf_push_char 34)).

End Lex.
