(* ===== verification/LexSpec.v ===== *)
(** * What the lexer reads: a reference on the text

    The reference works on the text as one list of octets, without blocks, buffer and current character:
    [scan] gives the next lexeme, the text behind it and its line, or the error.  [text] is the text that
    a state of the lexer has yet to read; the lemmas show that each function of [Lex.v] does what the
    reference says, and [llex_scan] puts them together. *)

From Stdlib Require Import ZArith Lia.
From stdpp Require Import base decidable numbers option list.
From S2P Require Import Prelude Leb128 Obj StrHash Str StrTheorems Sbuf StrPat Lex.

Local Open Scope Z_scope.

Module LexSpec.
Import Leb128 Obj Sbuf StrPat.Char Lex.
#[local] Abbreviation bytes := StrHash.bytes.

(** ** The reference *)

(** The text behind a newline, which may be a pair of different characters. *)
Definition eol (t : list Z) : list Z :=
  match t with
  | c :: d :: r => if isNewline d && negb (d =? c) then r else d :: r
  | _ => []
  end.

Fixpoint span (f : Z → bool) (t : list Z) : list Z * list Z :=
  match t with
  | c :: r => if f c then let (a, b) := span f r in (c :: a, b) else ([], t)
  | [] => ([], [])
  end.

(** *** Literals of strings *)

(** The content, the text behind the literal and its line, or the error. *)
Inductive lit := Lit (s rest : list Z) (line : Z) | BadLit (em : errmsg) (line : Z).

Definition put (c : Z) (r : lit) : lit :=
  match r with Lit s rest l => Lit (c :: s) rest l | BadLit em l => BadLit em l end.

(** Escape sequences of one letter. *)
Definition simple_escape (c : Z) : option Z :=
  if c =? 97 then Some 7 else if c =? 98 then Some 8 else if c =? 102 then Some 12
  else if c =? 110 then Some 10 else if c =? 114 then Some 13 else if c =? 116 then Some 9
  else if c =? 118 then Some 11
  else if (c =? 92) || (c =? 34) || (c =? 39) then Some c else None.

Definition digit (c : Z) : Z := c - 48.
Definition xdigit (c : Z) : option Z :=
  if (48 <=? c) && (c <=? 57) then Some (c - 48)
  else if (97 <=? c) && (c <=? 102) then Some (c - 87)
  else if (65 <=? c) && (c <=? 70) then Some (c - 55) else None.
Definition isdigit (c : Z) : bool := (48 <=? c) && (c <=? 57).
Definition isspace (c : Z) : bool := (c =? 32) || ((9 <=? c) && (c <=? 13)).

(** The text behind the opening delimiter; [z]: white space is skipped. *)
Fixpoint str_body (delim : Z) (z : bool) (l : Z) (t : list Z) : lit :=
  match t with
  | [] => BadLit UJ_ERR_XSTR l
  | c :: t1 =>
      if z && isspace c then
        if isNewline c then
          match t1 with
          | d :: t2 => if isNewline d && negb (d =? c) then str_body delim true (l + 1) t2
                       else str_body delim true (l + 1) t1
          | [] => BadLit UJ_ERR_XSTR (l + 1)
          end
        else str_body delim true l t1
      else if c =? delim then Lit [] t1 l
      else if isNewline c then BadLit UJ_ERR_XSTR l
      else if c =? 92 then
        match t1 with
        | [] => BadLit UJ_ERR_XSTR l
        | e :: t2 =>
            match simple_escape e with
            | Some x => put x (str_body delim false l t2)
            | None =>
                if e =? 120 then
                  match t2 with
                  | h :: h' :: t3 =>
                      match xdigit h, xdigit h' with
                      | Some a, Some b => put (16 * a + b) (str_body delim false l t3)
                      | _, _ => BadLit UJ_ERR_XESC l
                      end
                  | _ => BadLit UJ_ERR_XESC l
                  end
                else if e =? 122 then str_body delim true l t2
                else if isNewline e then
                  match t2 with
                  | d :: t3 => if isNewline d && negb (d =? e) then put 10 (str_body delim false (l + 1) t3)
                               else put 10 (str_body delim false (l + 1) t2)
                  | [] => BadLit UJ_ERR_XSTR (l + 1)
                  end
                else if isdigit e then
                  match t2 with
                  | d1 :: t3 =>
                      if isdigit d1 then
                        match t3 with
                        | d2 :: t4 =>
                            if isdigit d2 then
                              let x := 100 * digit e + 10 * digit d1 + digit d2 in
                              if 255 <? x then BadLit UJ_ERR_XESC l
                              else put x (str_body delim false l t4)
                            else put (10 * digit e + digit d1) (str_body delim false l t3)
                        | [] => put (10 * digit e + digit d1) (str_body delim false l t3)
                        end
                      else put (digit e) (str_body delim false l t2)
                  | [] => put (digit e) (str_body delim false l t2)
                  end
                else BadLit UJ_ERR_XESC l
            end
        end
      else put c (str_body delim false l t1)
  end.

(** *** Long brackets *)

Definition long_close (sep : nat) : list Z := 93 :: replicate sep 61 ++ [93].

Fixpoint strip (pre t : list Z) : option (list Z) :=
  match pre, t with
  | [], _ => Some t
  | c :: pre, d :: t => if c =? d then strip pre t else None
  | _, [] => None
  end.

(** The text up to the closing bracket, where each newline is a line feed. *)
Fixpoint long_body (em : errmsg) (sep : nat) (l : Z) (t : list Z) : lit :=
  match strip (long_close sep) t with
  | Some r => Lit [] r l
  | None =>
      match t with
      | [] => BadLit em l
      | c :: t1 =>
          if isNewline c then
            match t1 with
            | d :: t2 => if isNewline d && negb (d =? c) then put 10 (long_body em sep (l + 1) t2)
                         else put 10 (long_body em sep (l + 1) t1)
            | [] => BadLit em (l + 1)
            end
          else put c (long_body em sep l t1)
      end
  end.

(** Behind the opening bracket: a first newline is skipped. *)
Definition long_string (em : errmsg) (sep : nat) (l : Z) (t : list Z) : lit :=
  match t with
  | c :: _ => if isNewline c then long_body em sep (l + 1) (eol t) else long_body em sep l t
  | [] => long_body em sep l t
  end.

(** The opening bracket behind its first character: the level, the text behind the equals signs, and
    whether the second bracket is there. *)
Definition long_open (t : list Z) : nat * list Z :=
  let (e, r) := span (Z.eqb 61) t in (length e, r).

(** *** Numbers and names *)

Fixpoint num_chars (c xp : Z) (t : list Z) : list Z * list Z :=
  match t with
  | d :: r =>
      if number_char c xp d then let (a, b) := num_chars d xp r in (d :: a, b) else ([], t)
  | [] => ([], [])
  end.

(** A literal that starts with a digit. *)
Definition num_lit (t : list Z) : list Z * list Z :=
  match t with
  | c :: r =>
      if c =? 48 then
        let xp := match r with x :: _ => if lj_char_casecmp x 120 then 112 else 101 | [] => 101 end in
        let (a, b) := num_chars 48 xp r in (48 :: a, b)
      else num_chars c 101 t
  | [] => ([], [])
  end.

(** *** Lexemes *)

Inductive lexeme := XTok (t : Z) | XName (s : list Z) | XNum (s : list Z) | XStr (s : list Z).
Inductive scanned := Scanned (x : lexeme) (rest : list Z) (line : Z) | Failed (em : errmsg) (line : Z).

(** White space, comments: the text behind and its line. *)
Inductive blank := Blank (rest : list Z) (line : Z) | NoBlank | BadBlank (em : errmsg) (line : Z).

Definition short_comment (t : list Z) : list Z := (span (λ c, negb (isNewline c)) t).2.

(** A comment from behind its dashes. *)
Definition comment (l : Z) (t : list Z) : blank :=
  match strip [91] t with
  | Some t1 =>
      let (k, t2) := long_open t1 in
      match strip [91] t2 with
      | Some t3 =>
          match long_string UJ_ERR_XLCOM k l t3 with
          | Lit _ r l => Blank r l
          | BadLit em l => BadBlank em l
          end
      | None => Blank (short_comment t2) l
      end
  | None => Blank (short_comment t) l
  end.

Definition blank1 (l : Z) (t : list Z) : blank :=
  match t with
  | c :: t1 =>
      if isNewline c then Blank (eol t) (l + 1)
      else if isspace c then Blank t1 l
      else if c =? 45 then
        match strip [45] t1 with Some t2 => comment l t2 | None => NoBlank end
      else NoBlank
  | [] => NoBlank
  end.

Definition of_lit (r : lit) : scanned :=
  match r with Lit s rest l => Scanned (XStr s) rest l | BadLit em l => Failed em l end.

Definition two (c second two : Z) (l : Z) (t : list Z) : scanned :=
  match t with
  | d :: r => if d =? second then Scanned (XTok two) r l else Scanned (XTok c) t l
  | [] => Scanned (XTok c) [] l
  end.

(** A lexeme that starts here. *)
Definition scan1 (l : Z) (t : list Z) : scanned :=
  match t with
  | [] => Scanned (XTok TK_eof) [] l
  | c :: t1 =>
      if isdigit c then let (a, b) := num_lit t in Scanned (XNum a) b l
      else if lj_char_isident c then let (a, b) := span lj_char_isident t in Scanned (XName a) b l
      else if (c =? 34) || (c =? 39) then of_lit (str_body c false l t1)
      else if c =? 91 then
        let (k, t2) := long_open t1 in
        match strip [91] t2, k with
        | Some t3, _ => of_lit (long_string UJ_ERR_XLSTR k l t3)
        | None, O => Scanned (XTok 91) t2 l
        | None, S _ => Failed UJ_ERR_XLDELIM l
        end
      else if c =? 61 then two 61 61 TK_eq l t1
      else if c =? 60 then two 60 61 TK_le l t1
      else if c =? 62 then two 62 61 TK_ge l t1
      else if c =? 126 then two 126 61 TK_ne l t1
      else if c =? 58 then two 58 58 TK_label l t1
      else if c =? 46 then
        match t1 with
        | d :: r =>
            if d =? 46 then
              match strip [46] r with
              | Some r => Scanned (XTok TK_dots) r l
              | None => Scanned (XTok TK_concat) r l
              end
            else if isdigit d then let (a, b) := num_lit t1 in Scanned (XNum (46 :: a)) b l
            else Scanned (XTok 46) t1 l
        | [] => Scanned (XTok 46) [] l
        end
      else Scanned (XTok c) t1 l
  end.

(** Skip what is blank; each turn shortens the text. *)
Fixpoint scan_fuel (fuel : nat) (l : Z) (t : list Z) : option scanned :=
  match fuel with
  | O => None
  | S fuel =>
      match blank1 l t with
      | Blank t l => scan_fuel fuel l t
      | NoBlank => Some (scan1 l t)
      | BadBlank em l => Some (Failed em l)
      end
  end.
Definition scan (l : Z) (t : list Z) : option scanned := scan_fuel (S (length t)) l t.

(** ** States of the lexer as texts *)

(** An empty block is the end of the stream. *)
Fixpoint flat (r : list (list Z)) : list Z :=
  match r with [] | [] :: _ => [] | b :: r => b ++ flat r end.

(** What is between the state and what it has yet to read: the text, the buffer, the line, the objects,
    and the fields that scanning leaves alone. *)
Record view (S : Type) := View {
  vtext : list Z;
  vbuf : list Z;
  vline : Z;
  venv : S;
  vkept : Z * Z * TValue * Z * TValue
}.
Arguments View {S}.
Arguments vtext {S}.
Arguments vbuf {S}.
Arguments vline {S}.
Arguments venv {S}.
Arguments vkept {S}.

(** Texts, tokens and line numbers stay below the limits. *)
Definition room (t b : list Z) (l : Z) : Prop :=
  len b + len t + 4 < LJ_MAX_STR ∧ 0 ≤ l ∧ l + len t + 4 < LJ_MAX_LINE.

Ltac fits :=
  unfold room, len, LJ_MAX_STR, Str.LJ_MAX_STR, LJ_MAX_LINE in *;
  repeat (progress (cbn [length app tail] in *; rewrite ?length_app in *)); lia.

Section Refine.
Context {S : Type} `{LexEnv S}.
Implicit Types (ls : LexState S) (v : view S).

Definition text ls : list Z :=
  if current ls =? END_OF_STREAM then [] else current ls :: p ls ++ flat (rdata ls).

Definition kept ls : Z * Z * TValue * Z * TValue :=
  (lastline ls, token ls, tokenval ls, lookahead ls, lookaheadval ls).

Definition view_of ls : view S := View (text ls) (data (sb ls)) (linenumber ls) (env ls) (kept ls).

(** The counter is right while there is text, the input consists of octets, the buffer is well-formed. *)
Record lwf ls : Prop := {
  lw_n : current ls ≠ END_OF_STREAM → n ls = len (p ls);
  lw_bytes : bytes (text ls);
  lw_sb : sb_wf (sb ls)
}.

Definition at_ ls v : Prop := lwf ls ∧ view_of ls = v.

(** ** What a function does on a view *)

Inductive effect (A : Type) := Gives (a : A) (v : view S) | Fails (em : errmsg) (line : Z) | NoKeep.
Arguments Gives {A}.
Arguments Fails {A}.
Arguments NoKeep {A}.

Definition does {A} (m : L A) (v : view S) (r : effect A) : Prop :=
  ∀ ls, at_ ls v → match r with
  | Gives a v' => ∃ ls', m ls = LOk a ls' ∧ at_ ls' v'
  | Fails em l => ∃ ts, m ls = LErr (ESyntax em l ts)
  | NoKeep => m ls = LErr EKeep
  end.

Lemma does_bind {A B} (m : L A) (f : A → L B) v a v' r :
  does m v (Gives a v') → does (f a) v' r → does (lbind m f) v r.
Proof. intros Hm Hf ls Hls. unfold lbind. destruct (Hm ls Hls) as (ls' & -> & Hls'). by apply Hf. Qed.

Lemma does_bind_fails {A B} (m : L A) (f : A → L B) v em l :
  does m v (Fails em l) → does (lbind m f) v (Fails em l).
Proof. intros Hm ls Hls. unfold lbind. destruct (Hm ls Hls) as (ts & ->). by exists ts. Qed.

Lemma does_bind_nokeep {A B} (m : L A) (f : A → L B) v : does m v NoKeep → does (lbind m f) v NoKeep.
Proof. intros Hm ls Hls. unfold lbind. by rewrite (Hm ls Hls). Qed.

Lemma does_ret {A} (a : A) v : does (ret a) v (Gives a v).
Proof. intros ls Hls. by exists ls. Qed.

Lemma does_ok {A} (a : A) v : does (LOk a) v (Gives a v).
Proof. intros ls Hls. by exists ls. Qed.

Lemma at_cur ls v : at_ ls v → current ls = hd END_OF_STREAM (vtext v).
Proof.
  intros [W <-]. simpl. unfold text. destruct (current ls =? END_OF_STREAM) eqn:E; bprop; [done|done].
Qed.

Lemma does_get {A} (f : Z → L A) v r :
  does (f (hd END_OF_STREAM (vtext v))) v r → does (lbind cur f) v r.
Proof. intros Hf ls Hls. unfold lbind, cur. rewrite (at_cur ls v Hls). by apply Hf. Qed.

(** ** Reading *)

Lemma does_next c t b l e k :
  len t < 2 ^ 63 → does next (View (c :: t) b l e k) (Gives () (View t b l e k)).
Proof.
  intros Hlen ls [[Hn Hb Hs] Hv]. injection Hv as Ht <- <- <- <-.
  unfold text in Ht, Hb. destruct (current ls =? END_OF_STREAM) eqn:Ec; [done|]. bprop.
  specialize (Hn Ec). injection Ht as Ec' Ht.
  assert (Forall (in_u 8) t) as Ht' by (rewrite <-Ht; by inversion Hb).
  unfold next. destruct (0 <? n ls) eqn:E0; bprop.
  - destruct (p ls) as [|d p'] eqn:Ep; [unfold len in Hn; simpl in Hn; lia|].
    eexists. split; [done|]. simpl in Ht. rewrite <-Ht in Ht'. inversion Ht' as [|? ? Hd Hp]; subst.
    split; [split|]; simpl.
    + intros _. rewrite Hn. unfold u64. unfold len in *. cbn [length] in *. rewrite length_app in Hlen. rewrite wrapu_id; unfold in_u; lia.
    + unfold text. simpl. case_test; [constructor|done].
    + done.
    + unfold view_of, text, kept. simpl. rewrite (proj2 (Z.eqb_neq d END_OF_STREAM)); [done|].
      unfold END_OF_STREAM, in_u in *. lia.
  - assert (p ls = []) as Ep by (destruct (p ls); [done|unfold len in Hn; simpl in Hn; lia]).
    rewrite Ep in Ht. simpl in Ht. unfold fillbuf. simpl.
    destruct (rdata ls) as [|[|d b'] r]; simpl in Ht; subst t; eexists; (split; [done|]).
    1,2: split; [split; [done|by apply Forall_nil_2|done]|done].
    inversion Ht' as [|? ? Hd Hp]; subst.
    split; [split; simpl; [done| |done]|]; unfold view_of, text, kept; simpl;
      rewrite (proj2 (Z.eqb_neq d END_OF_STREAM)) by (unfold END_OF_STREAM, in_u in *; lia); done.
Qed.

Lemma does_next_char c t b l e k {A} (f : Z → L A) r :
  len t < 2 ^ 63 → does (f (hd END_OF_STREAM t)) (View t b l e k) r →
  does (lbind next_char f) (View (c :: t) b l e k) r.
Proof.
  intros Ht Hf. eapply does_bind; [|exact Hf]. unfold next_char.
  eapply does_bind; [by apply does_next|]. intros ls Hls. exists ls. unfold cur.
  by rewrite (at_cur ls _ Hls).
Qed.

(** ** Saving *)

Lemma view_sb ls b : lwf ls → sb_wf b →
  lwf (set_sb b ls) ∧ view_of (set_sb b ls) = View (text ls) (data b) (linenumber ls) (env ls) (kept ls).
Proof. by intros [] ?. Qed.

Lemma does_save c t b l e k :
  in_u 8 c → len b + 1 < LJ_MAX_STR →
  does (save c) (View t b l e k) (Gives () (View t (b ++ [c]) l e k)).
Proof.
  intros Hc Hb ls [W Hv]. injection Hv as <- <- <- <- <-. unfold save.
  destruct (push_appends 1 [u8 c] (sb ls) (lw_sb _ W)) as [(cp & E & Wb & _)|(_ & Hmax & _)].
  - unfold len. simpl. lia.
  - unfold uj_sbuf_push_char. rewrite E. unfold u8 in *. rewrite wrapu_id in * by done.
    rewrite size_app. change (uj_sbuf_size (MkSbuf (data (sb ls)) cp)) with (len (data (sb ls))).
    rewrite (proj2 (Z.leb_gt _ _)) by (unfold len in *; simpl; lia).
    eexists. split; [done|]. by apply view_sb.
  - unfold uj_sbuf_size, len, LJ_MAX_SBUF, LJ_MAX_STR, Str.LJ_MAX_STR in *. lia.
Qed.

Lemma does_reset t b l e k : does reset (View t b l e k) (Gives () (View t [] l e k)).
Proof.
  intros ls [W Hv]. injection Hv as <- <- <- <- <-. eexists. split; [done|]. apply view_sb; [done|].
  destruct (lw_sb _ W) as [Hf Hc]. split; [|done]. unfold uj_sbuf_size in *. simpl in *. lia.
Qed.

(** An error is a syntax error of that line, whatever text goes with it. *)
Lemma does_error {A} tk em t b l e k :
  len b + 1 < LJ_MAX_STR → does (lj_lex_error (A:=A) tk em) (View t b l e k) (Fails em l).
Proof.
  intros Hb ls Hls. unfold lj_lex_error, lbind, lex_error_tok_str.
  destruct (tk =? 0); [destruct Hls as [_ Hv]; injection Hv as <- <- <- <- <-; by eexists|].
  destruct ((tk =? TK_name) || (tk =? TK_string) || (tk =? TK_number)).
  - destruct (does_save 0 t b l e k ltac:(unfold in_u; lia) Hb ls Hls) as (ls' & E & Hls').
    unfold lbind. rewrite E. destruct Hls' as [_ Hv]. injection Hv as _ _ <- _ _. by eexists.
  - destruct Hls as [_ Hv]; injection Hv as <- <- <- <- <-; by eexists.
Qed.

Lemma does_save_next c t b l e k :
  in_u 8 c → len b + 1 < LJ_MAX_STR → len t < 2 ^ 63 →
  does save_and_next (View (c :: t) b l e k) (Gives () (View t (b ++ [c]) l e k)).
Proof.
  intros Hc Hb Ht. unfold save_and_next.
  eapply does_bind; [|by apply does_next].
  intros ls Hls. rewrite (at_cur ls _ Hls). by apply does_save.
Qed.

(** ** Loops *)

Lemma flat_length r : (length (flat r) ≤ length (concat r))%nat.
Proof.
  induction r as [|[|c b] r IH]; simpl; [lia|lia|]. rewrite !length_app. lia.
Qed.

Lemma iter_enough {A B} fuel fuel' (body : A → L (A + B)) a v r :
  (fuel ≤ fuel')%nat → does (iter fuel body a) v r → does (iter fuel' body a) v r.
Proof.
  intros Hle Hd ls Hls. specialize (Hd ls Hls).
  assert (∀ a ls, iter fuel body a ls ≠ LUndef → iter fuel' body a ls = iter fuel body a ls) as Hm.
  { clear -Hle. revert fuel' Hle. induction fuel as [|fuel IH]; intros [|fuel'] Hle a ls Hne; try done; [lia|].
    simpl in *. unfold lbind in *. destruct (body a ls) as [[a'|b] ls'| |]; try done.
    apply IH; [lia|done]. }
  rewrite (Hm a ls); [done|]. intros E. rewrite E in Hd. destruct r; [by destruct Hd as (? & ? & _)|by destruct Hd|done].
Qed.

(** The text bounds the turns. *)
Lemma does_loop {A B} (body : A → L (A + B)) a v r :
  does (iter (Datatypes.S (length (vtext v))) body a) v r → does (loop body a) v r.
Proof.
  intros Hi ls Hls. unfold loop. eapply iter_enough; [|exact Hi|done].
  destruct Hls as [_ <-]. simpl. unfold text, input_left.
  case_test; simpl; [lia|]. rewrite length_app. pose proof (flat_length (rdata ls)). lia.
Qed.

Lemma does_loop_any {A B} (body : A → L (A + B)) a v r :
  (∀ fuel, (length (vtext v) < fuel)%nat → does (iter fuel body a) v r) → does (loop body a) v r.
Proof. intros Hi. apply does_loop, Hi. lia. Qed.

Lemma iter_more {A B} fuel (body : A → L (A + B)) a v a' v' r :
  does (body a) v (Gives (inl a') v') → does (iter fuel body a') v' r →
  does (iter (Datatypes.S fuel) body a) v r.
Proof. intros Hb Hi. simpl. by eapply does_bind. Qed.

Lemma iter_done {A B} fuel (body : A → L (A + B)) a v b v' :
  does (body a) v (Gives (inr b) v') → does (iter (Datatypes.S fuel) body a) v (Gives b v').
Proof. intros Hb. simpl. eapply does_bind; [done|]. apply does_ret. Qed.

Lemma iter_fails {A B} fuel (body : A → L (A + B)) a v em l :
  does (body a) v (Fails em l) → does (iter (Datatypes.S fuel) body a) v (Fails em l).
Proof. intros Hb. simpl. by apply does_bind_fails. Qed.

Lemma iter_nokeep {A B} fuel (body : A → L (A + B)) a v :
  does (body a) v NoKeep → does (iter (Datatypes.S fuel) body a) v NoKeep.
Proof. intros Hb. simpl. by apply does_bind_nokeep. Qed.

(** ** Newlines *)

Lemma does_inclinenumber c t b l e k :
  isNewline c = true → len t < 2 ^ 62 → 0 ≤ l → l + 1 < LJ_MAX_LINE →
  does inclinenumber (View (c :: t) b l e k) (Gives () (View (eol (c :: t)) b (l + 1) e k)).
Proof.
  intros Hc Ht Hl0 Hl. unfold inclinenumber. apply does_get. simpl hd.
  assert (∀ t', len t' ≤ len t → does (λ ls,
    let ls := set_linenumber (i32 (linenumber ls + 1)) ls in
    if LJ_MAX_LINE <=? linenumber ls then lj_lex_error (token ls) UJ_ERR_XLINES ls else LOk () ls)
    (View t' b l e k) (Gives () (View t' b (l + 1) e k))) as Hinc.
  { intros t' Ht' ls [W Hv]. injection Hv as <- <- <- <- <-.
    simpl. unfold i32. rewrite wraps_id
      by (unfold in_s, LJ_MAX_LINE, len in *; simpl in *; lia).
    rewrite (proj2 (Z.leb_gt _ _)) by (unfold len, LJ_MAX_LINE in *; simpl in *; lia).
    eexists. split; [done|]. by destruct W. }
  apply does_next_char; [lia|]. destruct t as [|d r]; simpl hd; simpl eol.
  - eapply does_bind; [apply does_ret|by apply Hinc].
  - destruct (isNewline d && negb (d =? c)).
    + eapply does_bind; [apply does_next|apply Hinc]; unfold len in *; simpl in *; lia.
    + eapply does_bind; [apply does_ret|by apply Hinc].
Qed.

(** ** Runs of characters *)

Lemma does_bytes {A} (m : L A) v r : (bytes (vtext v) → does m v r) → does m v r.
Proof. intros Hm ls Hls. apply Hm; [|done]. destruct Hls as [W <-]. apply W. Qed.

Lemma while_done fuel g body v :
  g (hd END_OF_STREAM (vtext v)) = false → does (iter (Datatypes.S fuel) (while_turn g body) ()) v (Gives () v).
Proof. intros Hg. apply iter_done, does_get. rewrite Hg. apply does_ret. Qed.

Lemma while_more fuel g body v v' r :
  g (hd END_OF_STREAM (vtext v)) = true → does body v (Gives () v') →
  does (iter fuel (while_turn g body) ()) v' r → does (iter (Datatypes.S fuel) (while_turn g body) ()) v r.
Proof.
  intros Hg Hb Hi. eapply (iter_more _ _ _ _ ()); [|done]. apply does_get. rewrite Hg.
  eapply does_bind; [done|]. apply does_ret.
Qed.

Lemma while_fails fuel g body v em l :
  g (hd END_OF_STREAM (vtext v)) = true → does body v (Fails em l) →
  does (iter (Datatypes.S fuel) (while_turn g body) ()) v (Fails em l).
Proof. intros Hg Hb. apply iter_fails, does_get. rewrite Hg. by apply does_bind_fails. Qed.

Lemma does_span g t b l e k :
  g END_OF_STREAM = false → room t b l →
  does (while g save_and_next) (View t b l e k)
    (Gives () (View (span g t).2 (b ++ (span g t).1) l e k)).
Proof.
  intros Hg Hr. apply does_loop_any. simpl vtext. intros fuel. revert t b Hr.
  induction fuel as [|fuel IH]; intros t b Hr Hf; [lia|]. destruct t as [|c t]; simpl span.
  { rewrite app_nil_r. by apply while_done. }
  destruct (g c) eqn:Ec; [|rewrite app_nil_r; by apply while_done].
  apply does_bytes. intros [Hc Ht]%Forall_cons. specialize (IH t (b ++ [c])).
  destruct (span g t) as [a r]. rewrite <-app_assoc in IH. simpl in *.
  eapply while_more; [done|apply does_save_next; [done|fits|fits]|]. apply IH; [fits|lia].
Qed.

Lemma does_skip g t b l e k :
  g END_OF_STREAM = false → len t < 2 ^ 62 →
  does (while g next) (View t b l e k) (Gives () (View (span g t).2 b l e k)).
Proof.
  intros Hg Hr. apply does_loop_any. simpl vtext. intros fuel. revert t Hr.
  induction fuel as [|fuel IH]; intros t Hr Hf; [lia|]. destruct t as [|c t]; simpl span.
  { by apply while_done. }
  destruct (g c) eqn:Ec; [|by apply while_done].
  specialize (IH t). destruct (span g t) as [a r]. simpl in *.
  eapply while_more; [done|apply does_next; fits|]. apply IH; [fits|lia].
Qed.

Lemma does_num_chars c xp t b l e k :
  room t b l →
  does (loop (number_turn xp) c) (View t b l e k)
    (Gives () (View (num_chars c xp t).2 (b ++ (num_chars c xp t).1) l e k)).
Proof.
  intros Hr. apply does_loop_any. simpl vtext. intros fuel. revert c t b Hr.
  induction fuel as [|fuel IH]; intros c t b Hr Hf; [lia|]. destruct t as [|d t]; simpl num_chars.
  { rewrite app_nil_r. by apply iter_done, does_get, does_ret. }
  destruct (number_char c xp d) eqn:Ed; [|rewrite app_nil_r; apply iter_done, does_get; simpl;
    rewrite Ed; apply does_ret].
  apply does_bytes. intros [Hc Ht]%Forall_cons. specialize (IH d t (b ++ [d])).
  destruct (num_chars d xp t) as [a r]. rewrite <-app_assoc in IH. simpl in *.
  eapply (iter_more _ _ _ _ d); [|apply IH; [fits|lia]].
  apply does_get. simpl. rewrite Ed. eapply does_bind; [by apply does_save_next; [|fits..]|apply does_ret].
Qed.

(** The equals signs of a long bracket. *)
Lemma does_seps s t b l e k m :
  room t b l → 0 ≤ m → m + len t < 2 ^ 31 →
  let (es, r) := span (Z.eqb 61) t in
  does (loop (sep_turn s) m) (View t b l e k)
    (Gives (if hd END_OF_STREAM r =? s then m + len es else - (m + len es) - 1) (View r (b ++ es) l e k)).
Proof.
  intros Hr Hm Hmax. destruct (span (Z.eqb 61) t) as [es r] eqn:Es.
  apply does_loop_any. simpl vtext. intros fuel. revert t b m es r Es Hr Hm Hmax.
  induction fuel as [|fuel IH]; intros t b m es r Es Hr Hm Hmax Hf; [lia|].
  destruct t as [|d t]; cbn [span] in Es.
  { injection Es as <- <-. rewrite app_nil_r. change (len []) with 0. rewrite Z.add_0_r.
    by apply iter_done, does_get, does_ret. }
  rewrite Z.eqb_sym in Es. destruct (d =? 61) eqn:Ed.
  - destruct (span (Z.eqb 61) t) as [es' r'] eqn:Es'. injection Es as <- <-.
    apply does_bytes. intros [Hc Ht]%Forall_cons.
    specialize (IH t (b ++ [d]) (m + 1) es' r' Es'). rewrite <-app_assoc in IH.
    replace (m + 1 + len es') with (m + len (d :: es')) in IH by fits.
    eapply (iter_more _ _ _ _ (m + 1)); [|apply IH; [fits|lia|fits|simpl in Hf; lia]].
    apply does_get. simpl. rewrite Ed.
    eapply does_bind; [by apply does_save_next; [|fits..]|].
    unfold i32. rewrite wraps_id by (unfold in_s; fits). apply does_ret.
  - injection Es as <- <-. rewrite app_nil_r. change (len []) with 0. rewrite Z.add_0_r.
    apply iter_done, does_get. simpl. rewrite Ed. apply does_ret.
Qed.

Lemma does_skip_sep s t b l e k :
  room (s :: t) b l →
  let (es, r) := span (Z.eqb 61) t in
  does skip_sep (View (s :: t) b l e k)
    (Gives (if hd END_OF_STREAM r =? s then len es else - len es - 1) (View r (b ++ s :: es) l e k)).
Proof.
  intros Hr. pose proof (does_seps s t (b ++ [s]) l e k 0 ltac:(fits) ltac:(lia) ltac:(fits)) as Hs.
  destruct (span (Z.eqb 61) t) as [es r]. rewrite <-app_assoc in Hs. simpl in Hs.
  apply does_bytes. intros [Hc Ht]%Forall_cons. unfold skip_sep. apply does_get.
  eapply does_bind; [by apply does_save_next; [|fits..]|exact Hs].
Qed.

(** ** Character classes *)

Lemma isdigit_eq c : in_u 8 c → lj_char_isdigit c = isdigit c.
Proof. intros Hc. apply eqb_prop, (StrTheorems.octet_forall (λ c, Bool.eqb (lj_char_isdigit c) (isdigit c))); [by vm_compute|done]. Qed.

Lemma isspace_eq c : in_u 8 c → lj_char_isspace c = isspace c.
Proof. intros Hc. apply eqb_prop, (StrTheorems.octet_forall (λ c, Bool.eqb (lj_char_isspace c) (isspace c))); [by vm_compute|done]. Qed.

Lemma xdigit_eq c :
  in_u 8 c → (if lj_char_isdigit c then Some (Z.land c 15) else
              if negb (lj_char_isxdigit c) then None else Some (Z.land c 15 + 9)) = xdigit c.
Proof.
  intros Hc. pose (f c := if lj_char_isdigit c then Some (Z.land c 15) else
    if negb (lj_char_isxdigit c) then None else Some (Z.land c 15 + 9)).
  pose proof (StrTheorems.octet_forall (λ c, bool_decide (f c = xdigit c)) ltac:(by vm_compute) c Hc) as E.
  by apply bool_decide_eq_true_1 in E.
Qed.

(** ** Strings *)

Lemma does_hex c t b l e k :
  room (c :: t) b l →
  does hex_digit (View (c :: t) b l e k)
    match t with
    | d :: _ => match xdigit d with Some x => Gives x (View t b l e k) | None => Fails UJ_ERR_XESC l end
    | [] => Fails UJ_ERR_XESC l
    end.
Proof.
  intros Hr. unfold hex_digit. apply does_next_char; [fits|]. destruct t as [|d t]; simpl hd.
  { apply does_error. fits. }
  apply does_bytes. intros [Hd _]%Forall_cons. rewrite <-(xdigit_eq d Hd).
  destruct (lj_char_isdigit d); [apply does_ret|].
  destruct (negb (lj_char_isxdigit d)); [apply does_error; fits|apply does_ret].
Qed.

(** A decimal escape from its first digit on. *)
Definition dec_escape (c : Z) (t : list Z) : option (Z * list Z) :=
  match t with
  | d1 :: t1 =>
      if isdigit d1 then
        match t1 with
        | d2 :: t2 =>
            if isdigit d2 then
              let x := 100 * digit c + 10 * digit d1 + digit d2 in
              if 255 <? x then None else Some (x, t2)
            else Some (10 * digit c + digit d1, t1)
        | [] => Some (10 * digit c + digit d1, t1)
        end
      else Some (digit c, t)
  | [] => Some (digit c, t)
  end.

Lemma does_decimal c t b l e k :
  room (c :: t) b l →
  does (decimal_escape c) (View (c :: t) b l e k)
    match dec_escape c t with Some (x, r) => Gives x (View r b l e k) | None => Fails UJ_ERR_XESC l end.
Proof.
  intros Hr. unfold decimal_escape, dec_escape. apply does_next_char; [fits|].
  apply does_bytes. simpl vtext. intros Hb. destruct t as [|d1 t1]; simpl hd; [apply does_ret|].
  apply Forall_cons in Hb as [Hd1 Hb]. rewrite (isdigit_eq d1 Hd1).
  destruct (isdigit d1); [|apply does_ret]. apply does_next_char; [fits|].
  replace ((c - 48) * 10 + (d1 - 48)) with (10 * digit c + digit d1) by (unfold digit; lia).
  destruct t1 as [|d2 t2]; simpl hd; [apply does_ret|].
  apply Forall_cons in Hb as [Hd2 Hb]. rewrite (isdigit_eq d2 Hd2).
  destruct (isdigit d2); [|apply does_ret].
  replace ((10 * digit c + digit d1) * 10 + (d2 - 48)) with (100 * digit c + 10 * digit d1 + digit d2)
    by (unfold digit; lia).
  cbv zeta. destruct (255 <? _); [apply does_error; fits|].
  eapply does_bind; [apply does_next; fits|apply does_ret].
Qed.

Lemma dec_escape_range c t x r :
  isdigit c = true → dec_escape c t = Some (x, r) → in_u 8 x ∧ (length r ≤ length t)%nat.
Proof.
  unfold dec_escape, isdigit, digit, in_u. intros Hc Hd. bprop.
  repeat case_match; simplify_eq/=; unfold isdigit in *; bprop; lia.
Qed.

(** White space behind an escape [z]. *)
Fixpoint skip_ws (l : Z) (t : list Z) : list Z * Z :=
  match t with
  | c :: t1 =>
      if isspace c then
        if isNewline c then
          match t1 with
          | d :: t2 => if isNewline d && negb (d =? c) then skip_ws (l + 1) t2 else skip_ws (l + 1) t1
          | [] => ([], l + 1)
          end
        else skip_ws l t1
      else (t, l)
  | [] => ([], l)
  end.

Lemma isNewline_space c : isNewline c = true → isspace c = true.
Proof. unfold isNewline, isspace. intros [?%Z.eqb_eq|?%Z.eqb_eq]%orb_true_iff; by subst. Qed.

Lemma eol_length c t : (length (eol (c :: t)) ≤ length t)%nat.
Proof. destruct t as [|d t]; simpl; [lia|]. case_test; simpl; lia. Qed.

Lemma skip_ws_newline l c t : isNewline c = true → skip_ws l (c :: t) = skip_ws (l + 1) (eol (c :: t)).
Proof.
  intros Hc. simpl. rewrite (isNewline_space c Hc), Hc. destruct t as [|d t]; [done|].
  by destruct (isNewline d && negb (d =? c)).
Qed.

(** Induction on texts by their length. *)
Lemma text_ind (P : list Z → Prop) :
  (∀ t, (∀ t', (length t' < length t)%nat → P t') → P t) → ∀ t, P t.
Proof. intros HP t. induction t as [t IH] using (well_founded_ind (well_founded_ltof _ length)). by apply HP. Qed.

Lemma skip_ws_body delim t : delim = 34 ∨ delim = 39 →
  ∀ l, str_body delim true l t = let (r, l') := skip_ws l t in str_body delim false l' r.
Proof.
  intros Hd. induction t as [[|c t] IH] using text_ind; intros l; [done|]. simpl.
  destruct (isspace c) eqn:Es; simpl.
  - destruct (isNewline c); [|apply IH; simpl; lia].
    destruct t as [|d t]; [done|]. destruct (isNewline d && negb (d =? c)); apply IH; simpl; lia.
  - done.
Qed.

Lemma skip_ws_range l t r l' :
  skip_ws l t = (r, l') → (length r ≤ length t)%nat ∧ l ≤ l' ∧ l' + len r ≤ l + len t.
Proof.
  revert l. induction t as [[|c t] IH] using text_ind; intros l Hs; simpl in Hs; [simplify_eq; fits|].
  destruct (isspace c); [|simplify_eq; fits].
  destruct (isNewline c); [|apply IH in Hs; fits].
  destruct t as [|d t]; [simplify_eq; fits|].
  destruct (isNewline d && negb (d =? c)); apply IH in Hs; fits.
Qed.

Lemma does_skip_ws t b l e k :
  room t b l →
  does (while lj_char_isspace (lbind cur (λ c, if isNewline c then inclinenumber else next))) (View t b l e k)
    (let (r, l') := skip_ws l t in Gives () (View r b l' e k)).
Proof.
  intros Hr. apply does_loop_any. simpl vtext. intros fuel. revert t l Hr.
  induction fuel as [|fuel IH]; intros t l Hr Hf; [lia|]. destruct t as [|c t].
  { by apply while_done. }
  apply does_bytes. intros [Hc _]%Forall_cons. destruct (isspace c) eqn:Es.
  2:{ simpl. rewrite Es. apply while_done. simpl. by rewrite isspace_eq. }
  destruct (isNewline c) eqn:En.
  - rewrite (skip_ws_newline l c t En). pose proof (eol_length c t) as He.
    eapply while_more; [simpl; by rewrite isspace_eq| |apply IH; [|simpl in Hf; lia]].
    + apply does_get. simpl hd. rewrite En. apply does_inclinenumber; [done|fits..].
    + fits.
  - simpl skip_ws. rewrite Es, En.
    eapply while_more; [simpl; by rewrite isspace_eq| |apply IH; [fits|simpl in Hf; lia]].
    apply does_get. simpl hd. rewrite En. apply does_next. fits.
Qed.

Ltac one_char E := apply Z.eqb_eq in E; subst;
  eapply does_bind; [apply does_save; [unfold in_u; lia|fits]|apply does_next; fits].

Lemma does_simple_escape c x t b l e k :
  simple_escape c = Some x → room (92 :: c :: t) b l →
  does read_escape (View (92 :: c :: t) b l e k) (Gives () (View t (b ++ [x]) l e k)) ∧ in_u 8 x.
Proof.
  unfold simple_escape. intros Hs Hr. unfold read_escape. split.
  - apply does_next_char; [fits|]. cbn [hd].
    repeat match type of Hs with
    | (if ?g then _ else _) = _ => let E := fresh "E" in destruct g eqn:E; [simplify_eq; try by one_char E|]
    end; [|done].
    apply orb_true_iff in E6 as [[E6|E6]%orb_true_iff|E6]; simplify_eq; one_char E6.
  - repeat case_match; simplify_eq; unfold in_u; lia.
Qed.

Lemma simple_escape_none c :
  simple_escape c = None →
  c ≠ 97 ∧ c ≠ 98 ∧ c ≠ 102 ∧ c ≠ 110 ∧ c ≠ 114 ∧ c ≠ 116 ∧ c ≠ 118 ∧ c ≠ 92 ∧ c ≠ 34 ∧ c ≠ 39.
Proof.
  unfold simple_escape. intros Hs. repeat case_match; simplify_eq; bprop. destruct_or?; bprop; split_and!; congruence.
Qed.

(** The other escapes: the tests for single letters fail. *)
Lemma escape_other c t b l e k r :
  simple_escape c = None → room (92 :: c :: t) b l →
  does (if c =? 120 then lbind hex_digit (λ h, lbind hex_digit (λ x, lbind (save (h * 16 + x)) (λ _, next)))
        else if c =? 122 then lbind next (λ _, while lj_char_isspace
               (lbind cur (λ c, if isNewline c then inclinenumber else next)))
        else if isNewline c then lbind (save 10) (λ _, inclinenumber)
        else if c =? END_OF_STREAM then ret ()
        else if negb (lj_char_isdigit c) then lj_lex_error TK_string UJ_ERR_XESC
        else lbind (decimal_escape c) save) (View (c :: t) b l e k) r →
  does read_escape (View (92 :: c :: t) b l e k) r.
Proof.
  intros Hs%simple_escape_none Hr Hd. unfold read_escape. apply does_next_char; [fits|]. cbn [hd].
  cbv zeta. destruct_and! Hs.
  repeat match goal with Hc : c ≠ ?x |- _ => rewrite (proj2 (Z.eqb_neq c x) Hc); clear Hc end.
  exact Hd.
Qed.

(** One escape, from behind the backslash: what it stands for, the text behind and its line. *)
Inductive esc := Esc (out rest : list Z) (line : Z) | BadEsc (em : errmsg) (line : Z).

Definition escape1 (l : Z) (t : list Z) : esc :=
  match t with
  | [] => Esc [] [] l
  | c :: t1 =>
      match simple_escape c with
      | Some x => Esc [x] t1 l
      | None =>
          if c =? 120 then
            match t1 with
            | h :: h' :: t2 =>
                match xdigit h, xdigit h' with
                | Some x, Some y => Esc [16 * x + y] t2 l
                | _, _ => BadEsc UJ_ERR_XESC l
                end
            | _ => BadEsc UJ_ERR_XESC l
            end
          else if c =? 122 then let (r, l') := skip_ws l t1 in Esc [] r l'
          else if isNewline c then Esc [10] (eol t) (l + 1)
          else if isdigit c then
            match dec_escape c t1 with Some (x, r) => Esc [x] r l | None => BadEsc UJ_ERR_XESC l end
          else BadEsc UJ_ERR_XESC l
      end
  end.

Definition puts (out : list Z) (r : lit) : lit := foldr put r out.

Lemma str_body_escape delim l t : delim = 34 ∨ delim = 39 →
  str_body delim false l (92 :: t) =
  match escape1 l t with
  | Esc out r l' => puts out (str_body delim false l' r)
  | BadEsc em l' => BadLit em l'
  end.
Proof.
  intros Hd. cbn [str_body]. assert (92 =? delim = false) as -> by (destruct Hd; by subst).
  cbn [andb isNewline Z.eqb Pos.eqb orb]. unfold escape1. destruct t as [|c t]; [done|].
  destruct (simple_escape c); [done|]. destruct (c =? 120).
  { destruct t as [|h [|h' t]]; [done|done|]. by destruct (xdigit h), (xdigit h'). }
  destruct (c =? 122); [rewrite skip_ws_body by done; by destruct (skip_ws l t)|].
  destruct (isNewline c).
  { destruct t as [|d t]; simpl; [done|]. by destruct (isNewline d && negb (d =? c)). }
  destruct (isdigit c); [|done]. unfold dec_escape.
  destruct t as [|d1 t]; [done|]. destruct (isdigit d1); [|done].
  destruct t as [|d2 t]; [done|]. destruct (isdigit d2); [|done]. cbv zeta. by destruct (255 <? _).
Qed.

Lemma escape1_range l t out r l' :
  escape1 l t = Esc out r l' →
  (length r ≤ length t)%nat ∧ l ≤ l' ∧ l' + len r ≤ l + len t ∧ len out + len r ≤ len t.
Proof.
  destruct t as [|c t]; simpl; [intros; simplify_eq; fits|]. destruct (simple_escape c); [intros; simplify_eq; fits|].
  destruct (c =? 120).
  { destruct t as [|h [|h' t]]; [done|done|]. destruct (xdigit h), (xdigit h'); try done. intros; simplify_eq; fits. }
  destruct (c =? 122).
  { destruct (skip_ws l t) eqn:E. apply skip_ws_range in E. intros; simplify_eq; fits. }
  destruct (isNewline c) eqn:En.
  { intros; simplify_eq. pose proof (eol_length c t). simpl in *. fits. }
  destruct (isdigit c) eqn:Ed; [|done]. destruct (dec_escape c t) as [[x r']|] eqn:E; [|done].
  apply dec_escape_range in E; [|done]. intros; simplify_eq. fits.
Qed.

Lemma xdigit_range c x : xdigit c = Some x → 0 ≤ x < 16.
Proof. unfold xdigit. intros Hx. repeat case_match; simplify_eq; bprop; lia. Qed.

Lemma does_escape t b l e k :
  room (92 :: t) b l →
  does read_escape (View (92 :: t) b l e k)
    match escape1 l t with
    | Esc out r l' => Gives () (View r (b ++ out) l' e k)
    | BadEsc em l' => Fails em l'
    end.
Proof.
  intros Hr. apply does_bytes. intros [_ Hb]%Forall_cons. destruct t as [|c t].
  { simpl. rewrite app_nil_r. unfold read_escape. apply does_next_char; [fits|]. apply does_ret. }
  apply Forall_cons in Hb as [Hc Hb]. simpl escape1.
  destruct (simple_escape c) as [x|] eqn:Es; [by apply does_simple_escape|].
  apply escape_other; [done|done|].
  assert (c =? END_OF_STREAM = false) as -> by (unfold END_OF_STREAM, in_u in *; lia).
  rewrite isdigit_eq by done. destruct (c =? 120).
  { pose proof (does_hex c t b l e k ltac:(fits)) as Hh.
    destruct t as [|h t]; [by apply does_bind_fails|].
    pose proof (does_hex h t b l e k ltac:(fits)) as Hh'.
    destruct (xdigit h) as [x|] eqn:Ex; [|destruct t; by apply does_bind_fails].
    destruct t as [|h' t]; [eapply does_bind; [exact Hh|by apply does_bind_fails]|].
    destruct (xdigit h') as [y|] eqn:Ey; [|eapply does_bind; [exact Hh|by apply does_bind_fails]].
    apply xdigit_range in Ex, Ey.
    eapply does_bind; [exact Hh|]. eapply does_bind; [exact Hh'|]. rewrite (Z.mul_comm x 16).
    eapply does_bind; [apply does_save; [unfold in_u; lia|fits]|apply does_next; fits]. }
  destruct (c =? 122).
  { eapply does_bind; [apply does_next; fits|]. pose proof (does_skip_ws t b l e k ltac:(fits)) as Hw.
    destruct (skip_ws l t). by rewrite app_nil_r. }
  destruct (isNewline c) eqn:En.
  { eapply does_bind; [apply does_save; [unfold in_u; lia|fits]|]. apply does_inclinenumber; [done|fits..]. }
  destruct (isdigit c) eqn:Ed; simpl; [|apply does_error; fits].
  pose proof (does_decimal c t b l e k ltac:(fits)) as Hdec.
  destruct (dec_escape c t) as [[x r]|] eqn:E; [|by apply does_bind_fails].
  apply dec_escape_range in E; [|done]. eapply does_bind; [exact Hdec|]. apply does_save; [apply E|fits].
Qed.

(** The effect that belongs to a literal. *)
Definition lit_effect (delim : Z) (b : list Z) (e : S) k (r : lit) : effect () :=
  match r with
  | Lit s rest l => Gives () (View (delim :: rest) (b ++ s) l e k)
  | BadLit em l => Fails em l
  end.

Lemma lit_effect_puts delim b e k out r :
  lit_effect delim b e k (puts out r) = lit_effect delim (b ++ out) e k r.
Proof.
  revert b. induction out as [|c out IH]; intros b; simpl; [by rewrite app_nil_r|].
  replace (b ++ c :: out) with ((b ++ [c]) ++ out) by (by rewrite <-app_assoc). rewrite <-IH.
  destruct (puts out r); simpl; [|done]. by rewrite <-app_assoc.
Qed.

(** Octets before the delimiter are saved as the reference says. *)
Lemma does_string_chars delim t b l e k :
  delim = 34 ∨ delim = 39 → room t b l →
  does (while (λ c, negb (c =? delim)) string_char) (View t b l e k)
    (lit_effect delim b e k (str_body delim false l t)).
Proof.
  intros Hdelim Hr. apply does_loop_any. simpl vtext. intros fuel. revert t b l Hr.
  induction fuel as [|fuel IH]; intros t b l Hr Hf; [lia|].
  destruct t as [|c t].
  { apply while_fails; [simpl; destruct Hdelim; by subst|]. apply does_get, does_error. fits. }
  apply does_bytes. intros [Hc _]%Forall_cons.
  assert (c =? END_OF_STREAM = false) as Ee by (unfold END_OF_STREAM, in_u in *; lia).
  destruct (c =? 92) eqn:E92.
  { apply Z.eqb_eq in E92 as ->. rewrite str_body_escape by done.
    assert (92 =? delim = false) as Ed by (destruct Hdelim; by subst).
    pose proof (does_escape t b l e k Hr) as He.
    destruct (escape1 l t) as [out r l'|em l'] eqn:E.
    - apply escape1_range in E. rewrite lit_effect_puts.
      eapply while_more; [cbn [vtext hd]; by rewrite Ed|by apply does_get|]. apply IH; [fits|simpl in Hf; lia].
    - apply while_fails; [cbn [vtext hd]; by rewrite Ed|by apply does_get]. }
  simpl str_body. rewrite E92. destruct (c =? delim) eqn:Ed.
  { apply Z.eqb_eq in Ed as ->. simpl. rewrite app_nil_r. apply while_done. simpl. by rewrite Z.eqb_refl. }
  destruct (isNewline c) eqn:En.
  { apply while_fails; [cbn [vtext hd]; by rewrite Ed|]. apply does_get. cbn [vtext hd]. rewrite Ee, En.
    apply does_error. fits. }
  change (put c ?r) with (puts [c] r). rewrite lit_effect_puts.
  eapply while_more; [cbn [vtext hd]; by rewrite Ed| |apply IH; [fits|simpl in Hf; lia]].
  apply does_get. cbn [vtext hd]. rewrite Ee, En, E92. by apply does_save_next; [|fits..].
Qed.

Lemma text_len_nonneg (t : list Z) : 0 ≤ len t.
Proof. unfold len. lia. Qed.

Lemma puts_lit out r s rest l :
  puts out r = Lit s rest l → ∃ s', r = Lit s' rest l ∧ s = out ++ s'.
Proof.
  revert s. induction out as [|c out IH]; intros s; simpl; [by exists s|].
  destruct (puts out r) as [s1 r1 l1|]; [|done]. simpl. intros [= <- -> ->].
  destruct (IH s1 eq_refl) as (s' & -> & ->). by exists s'.
Qed.

Lemma str_body_range delim t : delim = 34 ∨ delim = 39 → ∀ l s r l',
  str_body delim false l t = Lit s r l' → len s + len r < len t ∧ l ≤ l' ∧ l' + len r ≤ l + len t.
Proof.
  intros Hdelim. induction t as [[|c t] IH] using text_ind; intros l s r l'; [done|].
  destruct (c =? 92) eqn:E92.
  { apply Z.eqb_eq in E92 as ->. rewrite str_body_escape by done.
    destruct (escape1 l t) as [out r1 l1|] eqn:E; [|done]. apply escape1_range in E.
    intros (s' & Hs & ->)%puts_lit. apply IH in Hs; fits. }
  simpl str_body. rewrite E92. destruct (c =? delim); [intros; simplify_eq; fits|].
  destruct (isNewline c); [done|]. change (put c ?r) with (puts [c] r).
  intros (s' & Hs & ->)%puts_lit. apply IH in Hs; fits.
Qed.

(** Keep the string without its delimiters. *)
Definition keep_effect (s t b : list Z) (l : Z) (e : S) k : effect Z :=
  match lj_parse_keepstr s e with Some (a, e') => Gives a (View t b l e' k) | None => NoKeep end.

Lemma does_keepstr s t b l e k : does (keepstr s) (View t b l e k) (keep_effect s t b l e k).
Proof.
  intros ls [W Hv]. injection Hv as <- <- <- <- <-. unfold keep_effect, keepstr.
  destruct (lj_parse_keepstr s (env ls)) as [[a e']|]; [|done]. eexists. split; [done|]. by destruct W.
Qed.

Lemma does_keep_inner o s c t l e k :
  len o = len c → len (o ++ s ++ c) < LJ_MAX_STR →
  does (keep_inner (len o)) (View t (o ++ s ++ c) l e k) (keep_effect s t (o ++ s ++ c) l e k).
Proof.
  intros Hoc Hmax ls Hls. unfold keep_inner.
  assert (data (sb ls) = o ++ s ++ c) as Eb by (destruct Hls as [_ Hv]; by injection Hv).
  unfold uj_sbuf_size. rewrite Eb. change (Z.of_nat (length (o ++ s ++ c))) with (len (o ++ s ++ c)).
  replace (u64 (len (o ++ s ++ c) - 2 * len o)) with (len s)
    by (unfold u64; rewrite wrapu_id; [|unfold in_u]; fits).
  rewrite (proj2 (Z.leb_le _ _)) by fits. unfold len. rewrite !Nat2Z.id, drop_app_length, take_app_length.
  by apply does_keepstr.
Qed.

Lemma does_read_string c t l e k :
  c = 34 ∨ c = 39 → room (c :: t) [] l →
  does (read_string c) (View (c :: t) [] l e k)
    match str_body c false l t with
    | Lit s r l' => keep_effect s r (c :: s ++ [c]) l' e k
    | BadLit em l' => Fails em l'
    end.
Proof.
  intros Hc Hr. assert (in_u 8 c) by (unfold in_u; lia). unfold read_string.
  eapply does_bind; [by apply does_save_next; [|fits..]|].
  pose proof (does_string_chars c t [c] l e k Hc ltac:(fits)) as Hs.
  destruct (str_body c false l t) as [s r l'|em l'] eqn:E; [|by apply does_bind_fails].
  apply str_body_range in E; [|done].
  eapply does_bind; [exact Hs|]. eapply does_bind; [by apply does_save_next; [|fits..]|].
  rewrite <-app_assoc. apply (does_keep_inner [c] s [c]); [done|fits].
Qed.

(** ** Long brackets *)

Lemma span_spec g t a r :
  span g t = (a, r) → t = a ++ r ∧ Forall (λ c, g c = true) a ∧ match r with c :: _ => g c = false | [] => True end.
Proof.
  revert a r. induction t as [|c t IH]; intros a r Hs; simpl in Hs; [by simplify_eq|].
  destruct (g c) eqn:Ec; [|by simplify_eq]. destruct (span g t) as [a' r']. simplify_eq.
  destruct (IH a' r eq_refl) as (-> & Ha & Hr). by repeat constructor.
Qed.

Lemma strip_seps sep t es r :
  span (Z.eqb 61) t = (es, r) →
  strip (replicate sep 61 ++ [93]) t =
  if (hd END_OF_STREAM r =? 93) && (length es =? sep)%nat then Some (tail r) else None.
Proof.
  revert t es. induction sep as [|sep IH]; intros t es Hs; destruct t as [|d t]; cbn [span] in Hs.
  - by simplify_eq.
  - rewrite Z.eqb_sym in Hs. destruct (d =? 61) eqn:Ed.
    + destruct (span (Z.eqb 61) t). simplify_eq. apply Z.eqb_eq in Ed as ->. by rewrite andb_false_r.
    + simplify_eq. rewrite andb_true_r. cbn [strip replicate app hd tail]. by rewrite Z.eqb_sym.
  - simplify_eq. done.
  - rewrite Z.eqb_sym in Hs. cbn [strip replicate app]. rewrite Z.eqb_sym. destruct (d =? 61) eqn:Ed.
    + destruct (span (Z.eqb 61) t) as [es' r'] eqn:Es'. simplify_eq. by apply IH.
    + simplify_eq. by rewrite andb_false_r.
Qed.

Lemma long_body_seps em sep l es r :
  Forall (λ c, (61 =? c) = true) es → long_body em sep l (es ++ r) = puts es (long_body em sep l r).
Proof.
  induction 1 as [|c es Hc _ IH]; [done|]. apply Z.eqb_eq in Hc as <-. simpl. by rewrite IH.
Qed.

Lemma long_body_char em sep l c t :
  c ≠ 93 → isNewline c = false → long_body em sep l (c :: t) = put c (long_body em sep l t).
Proof.
  intros Hc Hn. cbn [long_body]. rewrite Hn. unfold long_close. cbn [strip].
  by rewrite (proj2 (Z.eqb_neq _ _)) by congruence.
Qed.

Lemma long_body_newline em sep l c t :
  isNewline c = true → long_body em sep l (c :: t) = put 10 (long_body em sep (l + 1) (eol (c :: t))).
Proof.
  intros Hn. cbn [long_body]. rewrite Hn. unfold long_close. cbn [strip].
  rewrite (proj2 (Z.eqb_neq 93 c)).
  2:{ intros <-. done. }
  destruct t as [|d t]; [done|]. cbn [eol]. by destruct (isNewline d && negb (d =? c)).
Qed.

Lemma long_body_bracket em sep l t es r :
  span (Z.eqb 61) t = (es, r) →
  long_body em sep l (93 :: t) =
  if (hd END_OF_STREAM r =? 93) && (length es =? sep)%nat then Lit [] (tail r) l
  else puts (93 :: es) (long_body em sep l r).
Proof.
  intros Hs. pose proof (strip_seps sep t es r Hs) as Hst. apply span_spec in Hs as (-> & Hes & _).
  cbn [long_body]. change (strip (long_close sep) (93 :: es ++ r)) with (strip (replicate sep 61 ++ [93]) (es ++ r)).
  rewrite Hst. destruct (_ && _); [done|]. by rewrite (long_body_seps em sep l es r Hes).
Qed.

(** What is saved of a long bracket: all of a string; of a comment it does not matter. *)
Definition long_does (str : bool) (sep : nat) (m : L ()) (t b : list Z) (l : Z) (e : S) k (r : lit) : Prop :=
  match r with
  | Lit s r l' =>
      ∃ b', does m (View t b l e k) (Gives () (View r b' l' e k)) ∧
        len b' + len r ≤ len b + len t ∧ (length r < length t)%nat ∧ l ≤ l' ∧ l' + len r ≤ l + len t ∧
        (str = true → b' = b ++ s ++ long_close sep)
  | BadLit em l' => does m (View t b l e k) (Fails em l')
  end.

(** A turn that reads on to the text [t'] with the buffer [b']. *)
Lemma long_does_more str sep fuel body t b l t' b' l' out e k r :
  does (body ()) (View t b l e k) (Gives (inl ()) (View t' b' l' e k)) →
  len b' + len t' ≤ len b + len t → (length t' < length t)%nat → l ≤ l' → l' + len t' ≤ l + len t →
  (str = true → b' = b ++ out) →
  long_does str sep (iter fuel body ()) t' b' l' e k r →
  long_does str sep (iter (Datatypes.S fuel) body ()) t b l e k (puts out r).
Proof.
  intros Hb Hlen Ht Hl Hl' Hs. destruct r as [s rest l1|em l1]; simpl.
  - intros (b1 & Hd & H1 & H2 & H3 & H4 & H5).
    assert (puts out (Lit s rest l1) = Lit (out ++ s) rest l1) as ->.
    { clear. induction out as [|c out IH]; [done|]. simpl. by rewrite IH. }
    exists b1. split; [by eapply (iter_more fuel body () _ ())|]. split_and!; [lia..|].
    intros ->. rewrite H5, Hs by done. by rewrite <-!app_assoc.
  - intros Hd. assert (puts out (BadLit em l1) = BadLit em l1) as ->.
    { clear. induction out as [|c out IH]; [done|]. simpl. by rewrite IH. }
    by eapply (iter_more fuel body () _ ()).
Qed.

Lemma seps_replicate es : Forall (λ c, (61 =? c) = true) es → es = replicate (length es) 61.
Proof. induction 1 as [|c es Hc _ IH]; [done|]. apply Z.eqb_eq in Hc as <-. simpl. by rewrite <-IH. Qed.

Lemma eol_bytes t : bytes t → bytes (eol t).
Proof.
  intros Hb. destruct t as [|c [|d t]]; simpl; [done|constructor|].
  apply Forall_cons in Hb as [_ Hb]. case_test; [by apply Forall_cons in Hb as [_ Hb]|done].
Qed.

(** A closing bracket, or what looks like the start of one. *)
Lemma does_long_bracket str sep fuel t b l e k es r :
  span (Z.eqb 61) t = (es, r) → room (93 :: t) b l →
  (hd END_OF_STREAM r = 93 → length es = sep →
   long_does str sep (iter (Datatypes.S fuel) (long_turn str (Z.of_nat sep)) ()) (93 :: t) b l e k (Lit [] (tail r) l)) ∧
  (¬ (hd END_OF_STREAM r = 93 ∧ length es = sep) →
   does (long_turn str (Z.of_nat sep) ()) (View (93 :: t) b l e k) (Gives (inl ()) (View r (b ++ 93 :: es) l e k))).
Proof.
  intros Es Hr. pose proof (does_skip_sep 93 t b l e k Hr) as Hsep. rewrite Es in Hsep.
  apply span_spec in Es as (-> & Hes & _). split.
  - intros Er <-. destruct r as [|x r]; [done|]. simpl in Er. subst x. rewrite Z.eqb_refl in Hsep.
    exists (b ++ 93 :: es ++ [93]). split.
    + apply iter_done, does_get. cbn [vtext hd]. eapply does_bind; [exact Hsep|].
      rewrite (proj2 (Z.eqb_eq _ _)) by done.
      eapply does_bind; [by apply does_save_next; [unfold in_u; lia|fits..]|].
      rewrite <-app_assoc. apply does_ret.
    + split_and!; [fits..|]. intros _. unfold long_close. by rewrite <-(seps_replicate es Hes).
  - intros Hn. apply does_get. cbn [vtext hd]. eapply does_bind; [exact Hsep|].
    rewrite (proj2 (Z.eqb_neq _ _)); [apply does_ret|].
    destruct (Z.eqb_spec (hd END_OF_STREAM r) 93) as [E|E]; [|unfold len; lia].
    intros El. apply Hn. split; [done|]. unfold len in El. lia.
Qed.

Lemma does_long_turns str sep fuel t b l e k :
  bytes t → room t b l → (length t < fuel)%nat →
  long_does str sep (iter fuel (long_turn str (Z.of_nat sep)) ()) t b l e k
    (long_body (if str then UJ_ERR_XLSTR else UJ_ERR_XLCOM) sep l t).
Proof.
  set (em := if str then UJ_ERR_XLSTR else UJ_ERR_XLCOM).
  revert t b l. induction fuel as [|fuel IH]; intros t b l Hb Hr Hf; [lia|].
  destruct t as [|c t].
  { apply iter_fails, does_get. simpl hd. apply does_error. fits. }
  assert (∀ t' b' l' out,
    does (long_turn str (Z.of_nat sep) ()) (View (c :: t) b l e k) (Gives (inl ()) (View t' b' l' e k)) →
    bytes t' → len b' + len t' ≤ len b + len (c :: t) → (length t' ≤ length t)%nat → l ≤ l' →
    l' + len t' ≤ l + len (c :: t) → (str = true → b' = b ++ out) →
    long_does str sep (iter (Datatypes.S fuel) (long_turn str (Z.of_nat sep)) ()) (c :: t) b l e k
      (puts out (long_body em sep l' t'))) as Hmore.
  { intros t' b' l' out Hd Hb' H1 H2 H3 H4 H5.
    eapply long_does_more; [exact Hd|done|simpl; lia|done|done|done|]. apply IH; [done|fits|simpl in Hf; lia]. }
  pose proof Hb as [Hc Hb0]%Forall_cons.
  assert (c =? END_OF_STREAM = false) as Ee by (unfold END_OF_STREAM, in_u in *; lia).
  destruct (c =? 93) eqn:E93.
  - apply Z.eqb_eq in E93 as ->. destruct (span (Z.eqb 61) t) as [es r] eqn:Es.
    rewrite (long_body_bracket em sep l t es r Es).
    destruct (does_long_bracket str sep fuel t b l e k es r Es Hr) as [Hy Hn].
    destruct ((hd END_OF_STREAM r =? 93) && (length es =? sep)%nat) eqn:E.
    + apply andb_true_iff in E as [E1%Z.eqb_eq E2%Nat.eqb_eq]. by apply Hy.
    + apply span_spec in Es as (-> & Hes & _). apply Forall_app in Hb0 as [_ Hb0].
      apply (Hmore r (b ++ 93 :: es) l (93 :: es)); [apply Hn|done|fits|rewrite length_app; lia|lia|fits|done].
      intros [E1 E2]. rewrite E1, E2, Nat.eqb_refl in E. done.
  - destruct (isNewline c) eqn:En.
    + rewrite long_body_newline by done. change (put 10 ?r) with (puts [10] r).
      pose proof (eol_length c t) as He.
      apply (Hmore _ (if str then b ++ [10] else [])); [|by apply eol_bytes|destruct str; fits|done|lia|fits|by intros ->].
      apply does_get. cbn [vtext hd]. rewrite Ee, E93, En.
      eapply does_bind; [apply does_save; [unfold in_u; lia|fits]|].
      eapply does_bind; [apply does_inclinenumber; [done|fits..]|].
      destruct str; [eapply does_bind; [apply does_ret|]|eapply does_bind; [apply does_reset|]]; apply does_ret.
    + rewrite long_body_char by (bprop; done). change (put c ?r) with (puts [c] r).
      apply (Hmore _ (if str then b ++ [c] else b)); [|done|destruct str; fits|lia|lia|fits|by intros ->].
      apply does_get. cbn [vtext hd]. rewrite Ee, E93, En.
      destruct str; (eapply does_bind; [|apply does_ret]);
        [by apply does_save_next; [|fits..]|apply does_next; fits].
Qed.

(** What a long bracket gives, from its second opening character on. *)
Lemma does_read_long (str : bool) es t b l e k :
  let em := if str then UJ_ERR_XLSTR else UJ_ERR_XLCOM in
  let sep := length es in
  bytes t → Forall (λ c, (61 =? c) = true) es → room (91 :: t) b l → (str = true → b = 91 :: es) →
  match long_string em sep l t with
  | Lit s r l' => ∃ b', len b' + len r ≤ len b + len (91 :: t) ∧ (length r < length t)%nat ∧ l ≤ l' ∧
      l' + len r ≤ l + len t ∧ does (read_long_string str (Z.of_nat sep)) (View (91 :: t) b l e k)
        (if str then
           match lj_parse_keepstr s e with
           | Some (a, e') => Gives (Some a) (View r b' l' e' k) | None => NoKeep end
         else Gives None (View r b' l' e k))
  | BadLit em l' => does (read_long_string str (Z.of_nat sep)) (View (91 :: t) b l e k) (Fails em l')
  end.
Proof.
  intros em sep Hb Hes Hr Hstr.
  set (t1 := match t with c :: _ => if isNewline c then eol t else t | [] => t end).
  set (l1 := match t with c :: _ => if isNewline c then l + 1 else l | [] => l end).
  assert (long_string em sep l t = long_body em sep l1 t1) as ->.
  { unfold long_string, t1, l1. destruct t as [|c t0]; [done|]. by destruct (isNewline c). }
  assert ((length t1 ≤ length t)%nat ∧ bytes t1 ∧ l ≤ l1 ∧ l1 + len t1 ≤ l + len t) as (Ht1 & Hb1 & Hl1 & Hl2).
  { unfold t1, l1. destruct t as [|c t]; [split_and!; [done..|lia]|].
    destruct (isNewline c); [|split_and!; [done..|lia]].
    pose proof (eol_length c t). split_and!; [simpl in *; lia|by apply eol_bytes|lia|fits]. }
  pose proof (does_long_turns str sep (Datatypes.S (length t1)) t1 (b ++ [91]) l1 e k Hb1 ltac:(fits) ltac:(lia)) as Hd.
  fold em in Hd.
  assert (∀ r, does (lbind (loop (long_turn str (Z.of_nat sep)) ()) (λ _,
      if str then lbind (keep_inner (2 + Z.of_nat sep)) (λ s, ret (Some s)) else ret None)) (View t1 (b ++ [91]) l1 e k) r →
    does (read_long_string str (Z.of_nat sep)) (View (91 :: t) b l e k) r) as Hpre.
  { intros r Hk. unfold read_long_string.
    eapply does_bind; [by apply does_save_next; [unfold in_u; lia|fits..]|]. eapply does_bind; [|exact Hk].
    apply does_get. unfold t1, l1. destruct t as [|c t]; cbn [vtext hd]; [apply does_ret|].
    destruct (isNewline c) eqn:En; [apply does_inclinenumber; [done|fits..]|apply does_ret]. }
  destruct (long_body em sep l1 t1) as [s r l'|em' l']; simpl in Hd.
  2:{ apply Hpre. by apply does_bind_fails, does_loop. }
  destruct Hd as (b' & Hd & H1 & H2 & H3 & H4 & H5).
  exists b'. split_and!; [fits|lia|lia|lia|].
  apply Hpre. eapply does_bind; [by apply does_loop|]. destruct str; [|apply does_ret].
  rewrite H5, Hstr by done.
  replace (((91 :: es) ++ [91]) ++ s ++ long_close sep) with (91 :: es ++ 91 :: s ++ long_close sep)
    by (cbn [app]; by rewrite <-!app_assoc).
  pose proof (does_keep_inner (91 :: es ++ [91]) s (long_close sep) r l' e k) as Hk.
  replace (2 + Z.of_nat sep) with (len (91 :: es ++ [91])) by (unfold sep; fits).
  unfold keep_effect in Hk. cbn [app] in Hk |- *. rewrite <-!app_assoc in Hk. cbn [app] in Hk.
  assert (len (91 :: es ++ [91]) = len (long_close sep)) as E1.
  { unfold long_close, len, sep. simpl. rewrite !length_app, length_replicate. done. }
  assert (len (91 :: es ++ 91 :: s ++ long_close sep) < LJ_MAX_STR) as E2.
  { rewrite H5 in H1 by done. rewrite Hstr in H1, Hr by done. fits. }
  specialize (Hk E1 E2). destruct (lj_parse_keepstr s e) as [[a e']|]; [|by apply does_bind_nokeep].
  eapply does_bind; [exact Hk|apply does_ret].
Qed.

(** ** Numbers and names *)

Definition emap {A B} (f : A → B) (r : effect A) : effect B :=
  match r with Gives a v => Gives (f a) v | Fails em l => Fails em l | NoKeep => NoKeep end.

Lemma does_map {A B} (f : A → B) (m : L A) v r : does m v r → does (lbind m (λ a, ret (f a))) v (emap f r).
Proof.
  intros Hm. destruct r; simpl; [eapply does_bind; [done|apply does_ret]|by apply does_bind_fails|
    by apply does_bind_nokeep].
Qed.

(** The value of a literal and the state behind it. *)
Definition num_effect (s t b : list Z) (l : Z) (e : S) k : effect TValue :=
  let (fmt, d) := strscan_tonumber (s ++ [0]) in
  match fmt with
  | STRSCAN_ERROR => Fails UJ_ERR_XNUMBER l
  | STRSCAN_NUM => Gives (TNum d) (View t b l e k)
  | _ => match keepcdata fmt d e with
         | Some (cd, e') => Gives (TGCV GT_CDATA cd) (View t b l e' k) | None => NoKeep end
  end.

Lemma num_chars_length c xp t : let (a, r) := num_chars c xp t in len a + len r = len t.
Proof.
  revert c. induction t as [|d t IH]; intros c; simpl; [done|]. destruct (number_char c xp d); [|done].
  specialize (IH d). destruct (num_chars d xp t). fits.
Qed.

(** The end of [lex_number], with the literal in the buffer. *)
Lemma does_convert s t l e k :
  len s + 4 < LJ_MAX_STR →
  does (lbind (save 0) (λ _ ls,
    let (fmt, d) := strscan_tonumber (data (sb ls)) in
    match fmt with
    | STRSCAN_ERROR => lj_lex_error TK_number UJ_ERR_XNUMBER ls
    | STRSCAN_NUM => LOk (TNum d) ls
    | _ => match keepcdata fmt d (env ls) with
           | Some (cd, s) => LOk (TGCV GT_CDATA cd) (set_env s ls) | None => LErr EKeep end
    end)) (View t s l e k) (num_effect s t (s ++ [0]) l e k).
Proof.
  intros Hs. eapply does_bind; [apply does_save; [unfold in_u; lia|fits]|]. intros ls Hls.
  pose proof Hls as [W Hv]. injection Hv as <- Eb <- <- <-. rewrite Eb. unfold num_effect.
  destruct (strscan_tonumber (s ++ [0])) as [fmt d].
  destruct fmt.
  { by apply (does_error (A:=TValue) TK_number UJ_ERR_XNUMBER (text ls) (s ++ [0]) (linenumber ls) (env ls) (kept ls));
      [fits|]. }
  { by exists ls. }
  all: destruct (keepcdata _ d _) as [[cd e']|]; [|done]; eexists; split; [done|].
  all: split; [by destruct W|by rewrite <-Eb].
Qed.

Lemma does_lex_number c t b l e k :
  room (c :: t) b l →
  let (a, r) := num_lit (c :: t) in
  does lex_number (View (c :: t) b l e k) (num_effect (b ++ a) r ((b ++ a) ++ [0]) l e k) ∧ len a + len r = len (c :: t).
Proof.
  intros Hr. unfold num_lit, lex_number. destruct (c =? 48) eqn:E48.
  - apply Z.eqb_eq in E48 as ->.
    set (xp := match t with x :: _ => if lj_char_casecmp x 120 then 112 else 101 | [] => 101 end).
    pose proof (does_num_chars 48 xp t (b ++ [48]) l e k ltac:(fits)) as Hn.
    pose proof (num_chars_length 48 xp t) as Hlen.
    destruct (num_chars 48 xp t) as [a r]. rewrite <-app_assoc in Hn. cbn [app fst snd] in Hn. split; [|fits].
    apply does_get. cbn [vtext hd Z.eqb Pos.eqb]. eapply does_bind; [|eapply does_bind; [exact Hn|apply does_convert; fits]].
    eapply does_bind; [by apply does_save_next; [unfold in_u; lia|fits..]|].
    apply does_get. cbn [vtext]. replace xp with (if lj_char_casecmp (hd END_OF_STREAM t) 120 then 112 else 101)
      by (unfold xp; by destruct t). apply does_ret.
  - pose proof (does_num_chars c 101 (c :: t) b l e k ltac:(fits)) as Hn.
    pose proof (num_chars_length c 101 (c :: t)) as Hlen.
    destruct (num_chars c 101 (c :: t)) as [a r]. cbn [fst snd] in Hn. split; [|done].
    apply does_get. cbn [vtext hd]. rewrite E48.
    eapply does_bind; [apply does_ret|]. eapply does_bind; [exact Hn|apply does_convert; fits].
Qed.

Definition name_effect (s t b : list Z) (l : Z) (e : S) k : effect (Z * TValue) :=
  match lj_parse_keepstr s e with
  | Some (a, e') =>
      Gives (if 0 <? reserved e' a then TK_OFS + reserved e' a else TK_name, TGCV GT_STR a) (View t b l e' k)
  | None => NoKeep
  end.

Lemma does_lex_name c t l e k :
  lj_char_isident c = true → room (c :: t) [] l →
  let (a, r) := span lj_char_isident (c :: t) in
  does lex_name (View (c :: t) [] l e k) (name_effect a r a l e k).
Proof.
  intros Hc Hr. simpl span. rewrite Hc. pose proof (does_span lj_char_isident t [c] l e k eq_refl ltac:(fits)) as Hs.
  destruct (span lj_char_isident t) as [a r]. cbn [fst snd app] in Hs. unfold lex_name.
  apply does_bytes. intros [Hb _]%Forall_cons.
  eapply does_bind; [by apply does_save_next; [|fits..]|]. eapply does_bind; [exact Hs|].
  eapply does_bind; [intros ls Hls; exists ls; split; [|exact Hls];
    destruct Hls as [_ Hv]; injection Hv as _ Eb _ _ _; unfold front; by rewrite Eb|].
  pose proof (does_keepstr (c :: a) r (c :: a) l e k) as Hk. unfold keep_effect, name_effect in *.
  destruct (lj_parse_keepstr (c :: a) e) as [[x e']|]; [|by apply does_bind_nokeep].
  eapply does_bind; [exact Hk|].
  eapply does_bind; [intros ls Hls; exists ls; split; [|exact Hls];
    destruct Hls as [_ Hv]; injection Hv as _ _ _ Ee _; unfold lex_env; by rewrite Ee|apply does_ret].
Qed.

(** ** Comments *)

Lemma span_ext g g' t : Forall (λ c, g c = g' c) t → span g t = span g' t.
Proof. induction 1 as [|c t Hc _ IH]; [done|]. simpl. by rewrite Hc, IH. Qed.

Lemma does_short_comment t b l e k :
  bytes t → len t < 2 ^ 62 →
  does (while (λ c, negb (isNewline c) && negb (c =? END_OF_STREAM)) next) (View t b l e k)
    (Gives () (View (short_comment t) b l e k)).
Proof.
  intros Hb Ht. unfold short_comment.
  rewrite (span_ext _ (λ c, negb (isNewline c) && negb (c =? END_OF_STREAM)) t); [by apply does_skip|].
  eapply Forall_impl; [exact Hb|]. intros c Hc. unfold in_u in Hc.
  rewrite (proj2 (Z.eqb_neq c END_OF_STREAM)) by (unfold END_OF_STREAM; lia). by rewrite andb_true_r.
Qed.

Lemma eol_suffix t : eol t `suffix_of` t.
Proof.
  destruct t as [|c [|d t]]; simpl; [apply suffix_nil..|].
  case_test; [by do 2 apply suffix_cons_r|by apply suffix_cons_r].
Qed.

Lemma long_body_suffix em sep t : ∀ l s r l', long_body em sep l t = Lit s r l' → r `suffix_of` t.
Proof.
  induction t as [[|c t] IH] using text_ind; intros l s r l'; [done|].
  destruct (decide (c = 93)) as [->|H93].
  - destruct (span (Z.eqb 61) t) as [es q] eqn:Es. rewrite (long_body_bracket em sep l t es q Es).
    apply span_spec in Es as (-> & _ & _). change (93 :: es ++ q) with ((93 :: es) ++ q).
    case_test; [intros; simplify_eq|intros (s' & Hs & ->)%puts_lit]; apply suffix_app_r.
    + destruct q; [apply suffix_nil|]. by apply suffix_cons_r.
    + eapply IH; [|exact Hs]. simpl. rewrite length_app. lia.
  - destruct (isNewline c) eqn:En.
    + rewrite long_body_newline by done. change (put 10 ?r) with (puts [10] r). intros (s' & Hs & _)%puts_lit.
      pose proof (eol_length c t). apply IH in Hs; [|simpl in *; lia].
      etrans; [exact Hs|apply eol_suffix].
    + rewrite long_body_char by done. change (put c ?r) with (puts [c] r). intros (s' & Hs & _)%puts_lit.
      apply suffix_cons_r. eapply IH; [|exact Hs]. simpl. lia.
Qed.

Lemma long_string_suffix em sep l t s r l' : long_string em sep l t = Lit s r l' → r `suffix_of` t.
Proof.
  unfold long_string. destruct t as [|c t]; [done|]. destruct (isNewline c); intros Hs%long_body_suffix; [|done].
  etrans; [exact Hs|apply eol_suffix].
Qed.

Lemma suffix_bytes r t : r `suffix_of` t → bytes t → bytes r.
Proof. intros [a ->] [_ Hr]%Forall_app. done. Qed.

Lemma short_comment_suffix t : short_comment t `suffix_of` t.
Proof.
  unfold short_comment. destruct (span _ t) as [a r] eqn:E. apply span_spec in E as (-> & _). by apply suffix_app_r.
Qed.

Lemma suffix_room r t b l : r `suffix_of` t → room t b l → room r b l.
Proof. intros [a ->] Hr. fits. Qed.

Lemma strip1 c t : strip [c] t = match t with d :: r => if c =? d then Some r else None | [] => None end.
Proof. by destruct t. Qed.

(** What is left behind something blank: shorter, and the line is as far on as there were newlines. *)
Definition blank_does (m : L ()) (t b : list Z) (l : Z) (e : S) k (r : blank) : Prop :=
  match r with
  | Blank t' l' => does m (View t b l e k) (Gives () (View t' [] l' e k)) ∧
      t' `suffix_of` t ∧ l ≤ l' ∧ l' + len t' ≤ l + len t
  | BadBlank em l' => does m (View t b l e k) (Fails em l')
  | NoBlank => False
  end.

Lemma does_comment t l e k :
  bytes t → room t [] l → blank_does lex_comment t [] l e k (comment l t).
Proof.
  intros Hb Hr. unfold comment. rewrite strip1.
  assert (∀ t' b, t' `suffix_of` t → does (while (λ c, negb (isNewline c) && negb (c =? END_OF_STREAM)) next)
    (View t' b l e k) (Gives () (View (short_comment t') b l e k)) ∧ short_comment t' `suffix_of` t ∧
    l ≤ l ∧ l + len (short_comment t') ≤ l + len t) as Hshort.
  { intros t' b Ht. pose proof (suffix_room _ _ _ _ Ht Hr).
    assert (short_comment t' `suffix_of` t) as Hs by (etrans; [apply short_comment_suffix|done]).
    split_and!; [|done|lia|apply suffix_length in Hs; fits].
    apply does_short_comment; [by eapply suffix_bytes|fits]. }
  destruct t as [|c t].
  { destruct (Hshort [] [] ltac:(done)) as (Hd & Hs). split; [|exact Hs]. by apply does_get. }
  destruct (91 =? c) eqn:Ec; rewrite Z.eqb_sym in Ec.
  2:{ destruct (Hshort (c :: t) [] ltac:(done)) as (Hd & Hs). split; [|exact Hs]. apply does_get.
      cbn [vtext hd]. by rewrite Ec. }
  apply Z.eqb_eq in Ec as ->. unfold long_open.
  pose proof (does_skip_sep 91 t [] l e k Hr) as Hsep. destruct (span (Z.eqb 61) t) as [es r] eqn:Es.
  apply span_spec in Es as (-> & Hes & _). rewrite strip1. destruct (91 =? hd END_OF_STREAM r) eqn:E91.
  - destruct r as [|x r]; [done|]. simpl hd in *. rewrite E91. rewrite Z.eqb_sym in E91. rewrite E91 in Hsep.
    apply Z.eqb_eq in E91 as ->. apply Forall_cons in Hb as [_ Hb]. apply Forall_app in Hb as [_ Hb].
    apply Forall_cons in Hb as [_ Hb].
    pose proof (does_read_long false es r [] l e k Hb Hes ltac:(fits) ltac:(done)) as Hl. cbv zeta in Hl.
    pose proof (long_string_suffix UJ_ERR_XLCOM (length es) l r) as Hsuf.
    assert (∀ q, does (lbind (read_long_string false (len es)) (λ _, reset)) (View (91 :: r) [] l e k) q →
      does lex_comment (View (91 :: es ++ 91 :: r) [] l e k) q) as Hpre.
    { intros q Hq. apply does_get. cbn [vtext hd Z.eqb Pos.eqb].
      eapply does_bind; [exact Hsep|]. eapply does_bind; [apply does_reset|].
      rewrite (proj2 (Z.leb_le 0 (len es))) by apply text_len_nonneg. exact Hq. }
    destruct (long_string UJ_ERR_XLCOM (length es) l r) as [s q l'|em l'].
    + destruct Hl as (b' & H1 & H2 & H3 & H4 & Hd). split.
      * apply Hpre. eapply does_bind; [exact Hd|apply does_reset].
      * split_and!; [|lia|fits]. etrans; [by eapply Hsuf|].
        change (91 :: es ++ 91 :: r) with ((91 :: es) ++ [91] ++ r). by repeat apply suffix_app_r.
    + apply Hpre. by apply does_bind_fails.
  - assert (match r with d :: r0 => if 91 =? d then Some r0 else None | [] => None end = None) as ->.
    { destruct r; [done|]. simpl hd in E91. by rewrite E91. }
    destruct (Hshort r []) as (Hd & Hs).
    { change (91 :: es ++ r) with ((91 :: es) ++ r). by apply suffix_app_r. }
    split; [|exact Hs]. apply does_get. cbn [vtext hd Z.eqb Pos.eqb]. rewrite Z.eqb_sym, E91 in Hsep.
    eapply does_bind; [exact Hsep|]. eapply does_bind; [apply does_reset|].
    rewrite (proj2 (Z.leb_gt 0 _)) by (pose proof (text_len_nonneg es); lia). exact Hd.
Qed.

(** ** One turn of the scanner *)

(** The token and the value of a lexeme. *)
Definition tok_effect (x : lexeme) (tv : TValue) (t b : list Z) (l : Z) (e : S) k : effect (Z * TValue) :=
  match x with
  | XTok tk => Gives (tk, tv) (View t b l e k)
  | XName s => name_effect s t b l e k
  | XNum s => emap (λ x, (TK_number, x)) (num_effect s t b l e k)
  | XStr s => emap (λ a, (TK_string, TGCV GT_STR a)) (keep_effect s t b l e k)
  end.

Definition scan_does (m : L (() + Z * TValue)) (tv : TValue) (t : list Z) (l : Z) (e : S) k (r : scanned) : Prop :=
  match r with
  | Scanned x t' l' => ∃ b, does m (View t [] l e k) (emap inr (tok_effect x tv t' b l' e k))
  | Failed em l' => does m (View t [] l e k) (Fails em l')
  end.

Lemma ident_not_blank c :
  in_u 8 c → lj_char_isident c = true → isNewline c = false ∧ isspace c = false ∧ (c =? 45) = false.
Proof.
  intros Hc Hi. pose proof (StrTheorems.octet_forall (λ c, implb (lj_char_isident c)
    (negb (isNewline c) && negb (isspace c) && negb (c =? 45))) ltac:(by vm_compute) c Hc) as E.
  cbv beta in E. rewrite Hi in E. simpl in E.
  by apply andb_prop in E as [[E1%negb_true_iff E2%negb_true_iff]%andb_prop E3%negb_true_iff].
Qed.

Lemma digit_ident c : isdigit c = true → lj_char_isident c = true.
Proof.
  intros Hd. assert (in_u 8 c) as Hc by (unfold isdigit, in_u in *; bprop; lia).
  pose proof (StrTheorems.octet_forall (λ c, implb (isdigit c) (lj_char_isident c)) ltac:(by vm_compute) c Hc) as E.
  cbv beta in E. by rewrite Hd in E.
Qed.

(** Numbers, names and reserved words. *)
Lemma does_turn_ident tv c t l e k :
  lj_char_isident c = true → in_u 8 c → room (c :: t) [] l →
  scan_does (llex_turn tv) tv (c :: t) l e k (scan1 l (c :: t)).
Proof.
  intros Hi Hc Hr. unfold scan1. destruct (isdigit c) eqn:Ed.
  - pose proof (does_lex_number c t [] l e k Hr) as Hn. destruct (num_lit (c :: t)) as [a r].
    destruct Hn as [Hn _]. exists (([] ++ a) ++ [0]). apply does_get. cbn [vtext hd].
    rewrite Hi, isdigit_eq, Ed by done.
    apply (does_map (λ x, inr (TK_number, x) : () + Z * TValue)) in Hn. cbn [app] in *. unfold tok_effect.
    by destruct (num_effect a r (a ++ [0]) l e k).
  - rewrite Hi. pose proof (does_lex_name c t l e k Hi Hr) as Hn.
    destruct (span lj_char_isident (c :: t)) as [a r]. exists a. apply does_get. cbn [vtext hd].
    rewrite Hi, isdigit_eq, Ed by done. by apply does_map.
Qed.

Lemma does_one_or_two tv c d x t l e k :
  0 ≤ d → room (c :: t) [] l →
  scan_does (lbind (one_or_two c d x) (λ t, ret (inr (t, tv)))) tv (c :: t) l e k (two c d x l t).
Proof.
  intros Hd Hr. assert (∀ tk r, does (one_or_two c d x) (View (c :: t) [] l e k) (Gives tk (View r [] l e k)) →
    scan_does (lbind (one_or_two c d x) (λ t, ret (inr (t, tv)))) tv (c :: t) l e k (Scanned (XTok tk) r l)) as Hk.
  { intros tk r Hone. exists []. simpl. eapply does_bind; [exact Hone|apply does_ret]. }
  unfold two. destruct t as [|y t].
  - apply Hk. unfold one_or_two. apply does_next_char; [fits|]. cbn [hd].
    rewrite (proj2 (Z.eqb_neq _ _)) by (unfold END_OF_STREAM; lia). apply does_ret.
  - destruct (y =? d) eqn:Ey; apply Hk; unfold one_or_two; (apply does_next_char; [fits|]); cbn [hd];
      rewrite Ey; [|apply does_ret]. eapply does_bind; [apply does_next; fits|apply does_ret].
Qed.

Lemma does_dot tv t l e k :
  bytes t → room (46 :: t) [] l →
  scan_does (lbind (lex_dot tv) (λ r, ret (inr r))) tv (46 :: t) l e k (scan1 l (46 :: t)).
Proof.
  intros Hb Hr. change (scan1 l (46 :: t)) with
    match t with
    | d :: r =>
        if d =? 46 then
          match strip [46] r with Some r => Scanned (XTok TK_dots) r l | None => Scanned (XTok TK_concat) r l end
        else if isdigit d then let (a, b) := num_lit t in Scanned (XNum (46 :: a)) b l
        else Scanned (XTok 46) t l
    | [] => Scanned (XTok 46) [] l
    end.
  assert (does save_and_next (View (46 :: t) [] l e k) (Gives () (View t [46] l e k))) as Hs
    by (apply does_save_next; [unfold in_u; lia|fits..]).
  assert (∀ tk r, does (lex_dot tv) (View (46 :: t) [] l e k) (Gives (tk, tv) (View r [46] l e k)) →
    scan_does (lbind (lex_dot tv) (λ r, ret (inr r))) tv (46 :: t) l e k (Scanned (XTok tk) r l)) as Hk.
  { intros tk r Hone. exists [46]. simpl. eapply does_bind; [exact Hone|apply does_ret]. }
  destruct t as [|d t]; [apply Hk; eapply does_bind; [exact Hs|]; apply does_get, does_ret|].
  apply Forall_cons in Hb as [Hd Hb]. destruct (d =? 46) eqn:E46.
  - rewrite strip1. destruct t as [|x t].
    + apply Hk. eapply does_bind; [exact Hs|]. apply does_get. cbn [vtext hd]. rewrite E46.
      apply does_next_char; [fits|]. apply does_ret.
    + destruct (46 =? x) eqn:Ex; rewrite Z.eqb_sym in Ex; apply Hk; (eapply does_bind; [exact Hs|]); apply does_get;
        cbn [vtext hd]; rewrite E46; (apply does_next_char; [fits|]); cbn [hd]; rewrite Ex; [|apply does_ret].
      eapply does_bind; [apply does_next; fits|apply does_ret].
  - rewrite <-isdigit_eq by done. destruct (lj_char_isdigit d) eqn:Ed.
    + pose proof (does_lex_number d t [46] l e k ltac:(fits)) as Hn. destruct (num_lit (d :: t)) as [a r].
      destruct Hn as [Hn _]. exists (([46] ++ a) ++ [0]). unfold scan_does. cbn [tok_effect].
      assert (does (lex_dot tv) (View (46 :: d :: t) [] l e k)
        (emap (λ x, (TK_number, x)) (num_effect ([46] ++ a) r (([46] ++ a) ++ [0]) l e k))) as Hdot.
      { eapply does_bind; [exact Hs|]. apply does_get. cbn [vtext hd]. rewrite E46, Ed. by apply does_map. }
      by apply does_map.
    + apply Hk. eapply does_bind; [exact Hs|]. apply does_get. cbn [vtext hd]. rewrite E46, Ed. apply does_ret.
Qed.

(** Strings between long brackets, or a single bracket. *)
Lemma does_turn_bracket tv t l e k :
  bytes t → room (91 :: t) [] l →
  scan_does (llex_turn tv) tv (91 :: t) l e k (scan1 l (91 :: t)).
Proof.
  intros Hb Hr. change (scan1 l (91 :: t)) with
    (let (k, t2) := long_open t in
     match strip [91] t2, k with
     | Some t3, _ => of_lit (long_string UJ_ERR_XLSTR k l t3)
     | None, O => Scanned (XTok 91) t2 l
     | None, Datatypes.S _ => Failed UJ_ERR_XLDELIM l
     end).
  unfold long_open. pose proof (does_skip_sep 91 t [] l e k Hr) as Hsep.
  destruct (span (Z.eqb 61) t) as [es r] eqn:Es. apply span_spec in Es as (-> & Hes & _).
  assert (∀ q, does (let sep := if hd END_OF_STREAM r =? 91 then len es else - len es - 1 in
      if 0 <=? sep then lbind (read_long_string true sep) (λ s, ret (inr (TK_string, match s with Some s => TGCV GT_STR s | None => tv end)))
      else if sep =? -1 then ret (inr (91, tv)) else lj_lex_error TK_string UJ_ERR_XLDELIM)
      (View r (91 :: es) l e k) q → does (llex_turn tv) (View (91 :: es ++ r) [] l e k) q) as Hpre.
  { intros q Hq. apply does_get. eapply (does_bind skip_sep); [exact Hsep|exact Hq]. }
  rewrite strip1. destruct (hd END_OF_STREAM r =? 91) eqn:E91; cbv zeta in Hpre.
  - destruct r as [|x r]; [done|]. cbn [hd] in E91. apply Z.eqb_eq in E91 as ->.
    rewrite Z.eqb_refl. apply Forall_app in Hb as [_ [_ Hb]%Forall_cons].
    rewrite (proj2 (Z.leb_le 0 (len es))) in Hpre by apply text_len_nonneg.
    pose proof (does_read_long true es r (91 :: es) l e k Hb Hes ltac:(fits) ltac:(done)) as Hl. cbv zeta in Hl.
    destruct (long_string UJ_ERR_XLSTR (length es) l r) as [s q l'|em l']; simpl of_lit.
    + destruct Hl as (b' & _ & _ & _ & _ & Hd). exists b'. apply Hpre. unfold tok_effect, keep_effect.
      destruct (lj_parse_keepstr s e) as [[a e']|]; [|by apply does_bind_nokeep].
      eapply does_bind; [exact Hd|apply does_ret].
    + apply Hpre. by apply does_bind_fails.
  - assert (match r with d :: r0 => if 91 =? d then Some r0 else None | [] => None end = None) as ->.
    { destruct r; [done|]. cbn [hd] in E91. by rewrite Z.eqb_sym, E91. }
    rewrite (proj2 (Z.leb_gt 0 _)) in Hpre by (pose proof (text_len_nonneg es); lia).
    destruct es as [|x es]; cbn [length].
    + exists [91]. apply Hpre. apply does_ret.
    + apply Hpre. rewrite (proj2 (Z.eqb_neq _ _)) by (unfold len; simpl; lia). apply does_error. fits.
Qed.

Lemma does_turn_quote tv c t l e k :
  c = 34 ∨ c = 39 → room (c :: t) [] l → scan_does (llex_turn tv) tv (c :: t) l e k (scan1 l (c :: t)).
Proof.
  intros Hc Hr. assert (scan1 l (c :: t) = of_lit (str_body c false l t)) as -> by (destruct Hc; by subst).
  assert (∀ q, does (lbind (read_string c) (λ s, ret (inr (TK_string, TGCV GT_STR s)))) (View (c :: t) [] l e k) q →
    does (llex_turn tv) (View (c :: t) [] l e k) q) as Hpre.
  { intros q Hq. apply does_get. destruct Hc; by subst. }
  pose proof (does_read_string c t l e k Hc Hr) as Hs.
  destruct (str_body c false l t) as [s r l'|em l']; simpl of_lit.
  - exists (c :: s ++ [c]). apply Hpre. unfold tok_effect.
    apply (does_map (λ a, inr (TK_string, TGCV GT_STR a) : () + Z * TValue)) in Hs.
    by destruct (keep_effect s r (c :: s ++ [c]) l' e k).
  - apply Hpre. by apply does_bind_fails.
Qed.

Lemma space_eq c :
  isNewline c = false → ((c =? 32) || (c =? 9) || (c =? 11) || (c =? 12)) = isspace c.
Proof.
  unfold isNewline, isspace. intros [E1 E2]%orb_false_iff. apply Z.eqb_neq in E1, E2.
  apply eq_iff_eq_true. rewrite !orb_true_iff, andb_true_iff, !Z.eqb_eq, !Z.leb_le. lia.
Qed.

(** What one turn does, for every text. *)
Definition turn_does (tv : TValue) (t : list Z) (l : Z) (e : S) k : Prop :=
  match blank1 l t with
  | Blank t' l' => does (llex_turn tv) (View t [] l e k) (Gives (inl ()) (View t' [] l' e k)) ∧
      t' `suffix_of` t ∧ (length t' < length t)%nat ∧ l ≤ l' ∧ l' + len t' ≤ l + len t
  | BadBlank em l' => does (llex_turn tv) (View t [] l e k) (Fails em l')
  | NoBlank => scan_does (llex_turn tv) tv t l e k (scan1 l t)
  end.

Lemma does_turn_dash tv t l e k :
  bytes t → room (45 :: t) [] l → turn_does tv (45 :: t) l e k.
Proof.
  intros Hb Hr. unfold turn_does. change (blank1 l (45 :: t)) with
    (match strip [45] t with Some t2 => comment l t2 | None => NoBlank end).
  assert (∀ q, does (if negb (hd END_OF_STREAM t =? 45) then ret (inr (45, tv))
      else lbind next (λ _, lbind lex_comment (λ _, ret (inl ())))) (View t [] l e k) q →
    does (llex_turn tv) (View (45 :: t) [] l e k) q) as Hpre.
  { intros q Hq. apply does_get. eapply (does_next_char 45); [fits|exact Hq]. }
  rewrite strip1. destruct t as [|c t]; [exists []; by apply Hpre, does_ret|]. cbn [hd] in Hpre.
  apply Forall_cons in Hb as [_ Hb]. rewrite (Z.eqb_sym 45 c). destruct (c =? 45) eqn:Ec.
  - pose proof (does_comment t l e k Hb ltac:(fits)) as Hc. unfold blank_does in Hc. cbn [negb] in Hpre.
    destruct (comment l t) as [t' l'| |em l'].
    + destruct Hc as (Hd & Hs & Hl & Hl'). pose proof (suffix_length _ _ Hs). split_and!; [|by do 2 apply suffix_cons_r|simpl; lia|lia|fits].
      apply Hpre. eapply does_bind; [apply does_next; fits|]. eapply does_bind; [exact Hd|apply does_ret].
    + done.
    + apply Hpre. eapply does_bind; [apply does_next; fits|by apply does_bind_fails].
  - exists []. change (scan1 l (45 :: c :: t)) with (Scanned (XTok 45) (c :: t) l). apply Hpre, does_ret.
Qed.

Ltac operator Hm E lem :=
  apply Z.eqb_eq in E as ->; eapply Hm; [|by apply lem];
  let q := fresh in let Hq := fresh in intros q Hq; by apply does_get.

Lemma does_turn tv t l e k : bytes t → room t [] l → turn_does tv t l e k.
Proof.
  intros Hb Hr. destruct t as [|c t]; [exists []; apply does_get, does_ret|].
  apply Forall_cons in Hb as [Hc Hb]. destruct (lj_char_isident c) eqn:Ei.
  { unfold turn_does. cbn [blank1]. destruct (ident_not_blank c Hc Ei) as (-> & -> & ->). by apply does_turn_ident. }
  destruct (c =? 45) eqn:E45; [apply Z.eqb_eq in E45 as ->; by apply does_turn_dash|].
  assert (isdigit c = false) as Ed.
  { destruct (isdigit c) eqn:E; [|done]. apply digit_ident in E. congruence. }
  unfold turn_does. cbn [blank1]. rewrite E45. destruct (isNewline c) eqn:En.
  { pose proof (eol_length c t). split_and!; [|apply eol_suffix|simpl in *; lia|lia|fits].
    apply does_get. cbn [vtext hd]. rewrite Ei, En. eapply does_bind; [|apply does_ret].
    apply does_inclinenumber; [done|fits..]. }
  destruct (isspace c) eqn:Es.
  { split_and!; [|by apply suffix_cons_r|simpl; lia|lia|fits].
    apply does_get. cbn [vtext hd]. rewrite Ei, En, space_eq, Es by done.
    eapply does_bind; [apply does_next; fits|apply does_ret]. }
  destruct (c =? 91) eqn:E91; [apply Z.eqb_eq in E91 as ->; by apply does_turn_bracket|].
  destruct ((c =? 34) || (c =? 39)) eqn:Eq.
  { apply does_turn_quote; [|done]. apply orb_true_iff in Eq as [?%Z.eqb_eq|?%Z.eqb_eq]; auto. }
  assert (∀ r m, (∀ q, does m (View (c :: t) [] l e k) q → does (llex_turn tv) (View (c :: t) [] l e k) q) →
    scan_does m tv (c :: t) l e k r → scan_does (llex_turn tv) tv (c :: t) l e k r) as Hmono.
  { intros r m Hm. unfold scan_does. destruct r; [|apply Hm]. intros [b' Hd]. exists b'. by apply Hm. }
  unfold scan1. rewrite Ed, Ei, Eq, E91.
  destruct (c =? 61) eqn:E61; [operator Hmono E61 (does_one_or_two tv 61)|].
  destruct (c =? 60) eqn:E60; [operator Hmono E60 (does_one_or_two tv 60)|].
  destruct (c =? 62) eqn:E62; [operator Hmono E62 (does_one_or_two tv 62)|].
  destruct (c =? 126) eqn:E126; [operator Hmono E126 (does_one_or_two tv 126)|].
  destruct (c =? 58) eqn:E58; [operator Hmono E58 (does_one_or_two tv 58)|].
  destruct (c =? 46) eqn:E46; [operator Hmono E46 (does_dot tv t)|].
  exists []. apply does_get. cbn [vtext hd]. rewrite Ei, En, space_eq, Es, E45, E91, E61, E60, E62, E126, E58, Eq, E46 by done.
  rewrite (proj2 (Z.eqb_neq c END_OF_STREAM)) by (unfold END_OF_STREAM, in_u in *; lia).
  eapply does_bind; [apply does_next; fits|apply does_ret].
Qed.

(** ** The scanner *)

Lemma does_llex_turns tv fuel t l e k :
  bytes t → room t [] l → (length t < fuel)%nat →
  match scan_fuel fuel l t with
  | Some (Scanned x r l') => ∃ b, does (iter fuel (λ _, llex_turn tv) ()) (View t [] l e k) (tok_effect x tv r b l' e k)
  | Some (Failed em l') => does (iter fuel (λ _, llex_turn tv) ()) (View t [] l e k) (Fails em l')
  | None => False
  end.
Proof.
  revert t l. induction fuel as [|fuel IH]; intros t l Hb Hr Hf; [lia|]. cbn [scan_fuel].
  pose proof (does_turn tv t l e k Hb Hr) as Ht. unfold turn_does in Ht.
  destruct (blank1 l t) as [t' l'| |em l'].
  - destruct Ht as (Hd & Hs & Hlt & Hl & Hl').
    specialize (IH t' l' (suffix_bytes _ _ Hs Hb) ltac:(apply suffix_length in Hs; fits) ltac:(lia)).
    destruct (scan_fuel fuel l' t') as [[x r l1|em l1]|]; [|by eapply iter_more|done].
    destruct IH as [b Hi]. exists b. by eapply iter_more.
  - unfold scan_does in Ht. destruct (scan1 l t) as [x r l'|em l'].
    + destruct Ht as [b Hd]. exists b. destruct (tok_effect x tv r b l' e k); simpl in Hd;
        [by apply iter_done|by apply iter_fails|by apply iter_nokeep].
    + by apply iter_fails.
  - by apply iter_fails.
Qed.

Lemma does_llex tv t b l e k :
  bytes t → room t [] l →
  match scan l t with
  | Some (Scanned x r l') => ∃ b', does (llex tv) (View t b l e k) (tok_effect x tv r b' l' e k)
  | Some (Failed em l') => does (llex tv) (View t b l e k) (Fails em l')
  | None => False
  end.
Proof.
  intros Hb Hr. pose proof (does_llex_turns tv (Datatypes.S (length t)) t l e k Hb Hr ltac:(lia)) as Ht.
  fold (scan l t) in Ht. destruct (scan l t) as [[x r l'|em l']|]; [| |done].
  - destruct Ht as [b' Hd]. exists b'. eapply does_bind; [apply does_reset|]. by apply does_loop.
  - eapply does_bind; [apply does_reset|]. by apply does_loop.
Qed.

End Refine.
Arguments Gives {S A}.
Arguments Fails {S A}.
Arguments NoKeep {S A}.

End LexSpec.
