(* ===== verification/LexTheorems.v ===== *)
(** * The lexer: theorems

    What [llex] returns is what the reference of [LexSpec.v] says, for every way to cut the text into
    blocks, and it never reads outside of a block; lines are counted right; what is printed is read
    back, in particular strings that string.format quotes; looking ahead does not change the tokens.
    [LexLaws] is what the lexer relies on for its strings, and the state of the parser provides it. *)

From Stdlib Require Import ZArith Lia String Ascii.
From stdpp Require Import base decidable gmap numbers option list.
From S2P Require Import Prelude Leb128 Obj Tab TabChain TabWf TabSpec TabTheorems StrHash Str StrTheorems Sbuf StrPat Lex LexSpec.

Local Open Scope Z_scope.

Module LexTheorems.
Import Leb128 Obj Sbuf StrPat.Char Lex LexSpec.
#[local] Abbreviation bytes := StrHash.bytes.

(** ** Lines *)

(** The newlines of a text, pairs of different characters counted once. *)
Fixpoint lines (t : list Z) : Z :=
  match t with
  | c :: r =>
      if isNewline c then
        match r with
        | d :: r' => if isNewline d && negb (d =? c) then 1 + lines r' else 1 + lines r
        | [] => 1
        end
      else lines r
  | [] => 0
  end.

Lemma lines_newline c t : isNewline c = true → lines (c :: t) = 1 + lines (eol (c :: t)).
Proof.
  intros Hc. simpl. rewrite Hc. destruct t as [|d t]; [done|]. by destruct (isNewline d && negb (d =? c)).
Qed.

Lemma lines_char c t : isNewline c = false → lines (c :: t) = lines t.
Proof. intros Hc. simpl. by rewrite Hc. Qed.

Lemma lines_app a t : Forall (λ c, isNewline c = false) a → lines (a ++ t) = lines t.
Proof. induction 1 as [|c a Hc _ IH]; [done|]. rewrite <-app_comm_cons, lines_char by done. done. Qed.

Lemma lines_bound t : 0 ≤ lines t ≤ len t.
Proof.
  induction t as [[|c t] IH] using text_ind; [done|]. destruct (isNewline c) eqn:E.
  - rewrite lines_newline by done. pose proof (eol_length c t) as He.
    specialize (IH (eol (c :: t)) ltac:(cbn [length] in *; lia)). unfold len in *. cbn [length]. lia.
  - rewrite lines_char by done. specialize (IH t ltac:(simpl; lia)). unfold len in *. cbn [length]. lia.
Qed.

Lemma skip_ws_lines t : ∀ l r l', skip_ws l t = (r, l') → l' + lines r = l + lines t.
Proof.
  induction t as [[|c t] IH] using text_ind; intros l r l' Hs; [by simplify_eq/=|].
  destruct (isNewline c) eqn:En.
  - rewrite skip_ws_newline in Hs by done. pose proof (eol_length c t).
    apply IH in Hs; [|simpl in *; lia]. rewrite lines_newline by done. lia.
  - simpl in Hs. rewrite En in Hs. destruct (isspace c); [|by simplify_eq].
    apply IH in Hs; [|simpl; lia]. by rewrite lines_char.
Qed.

Lemma xdigit_not_newline c x : xdigit c = Some x → isNewline c = false.
Proof.
  unfold xdigit, isNewline. intros Hx. apply orb_false_iff. rewrite !Z.eqb_neq.
  repeat case_match; simplify_eq; bprop; lia.
Qed.

Lemma digit_not_newline c : isdigit c = true → isNewline c = false.
Proof. unfold isdigit, isNewline. intros Hx. apply orb_false_iff. rewrite !Z.eqb_neq. bprop. lia. Qed.

Lemma escape1_lines l t out r l' : escape1 l t = Esc out r l' → l' + lines r = l + lines t.
Proof.
  destruct t as [|c t]; cbn [escape1]; [intros; by simplify_eq|].
  destruct (simple_escape c) eqn:Es.
  { intros; simplify_eq. rewrite lines_char; [done|]. unfold simple_escape, isNewline in *.
    apply orb_false_iff. rewrite !Z.eqb_neq. split; intros ->; by simplify_eq/=. }
  destruct (c =? 120) eqn:E120.
  { destruct t as [|h [|h' t]]; [done|done|]. destruct (xdigit h) eqn:Eh, (xdigit h') eqn:Eh'; try done.
    intros; simplify_eq. bprop. subst c. rewrite !lines_char; [done|by eapply xdigit_not_newline..|done]. }
  destruct (c =? 122) eqn:E122.
  { destruct (skip_ws l t) eqn:E. apply skip_ws_lines in E. intros; simplify_eq. bprop. by subst c. }
  destruct (isNewline c) eqn:En.
  { intros; simplify_eq. rewrite lines_newline by done. cbn [eol]. lia. }
  rewrite lines_char by done. destruct (isdigit c); [|done].
  destruct (dec_escape c t) as [[x r']|] eqn:E; [|done]. intros; simplify_eq. revert E. unfold dec_escape.
  destruct t as [|d1 t]; [intros; by simplify_eq|]. destruct (isdigit d1) eqn:E1; [|intros; by simplify_eq].
  apply digit_not_newline in E1. rewrite lines_char by done.
  destruct t as [|d2 t]; [intros; by simplify_eq|]. destruct (isdigit d2) eqn:E2; [|intros; by simplify_eq].
  apply digit_not_newline in E2. rewrite lines_char by done. cbv zeta.
  case_test; intros; by simplify_eq.
Qed.

Lemma str_body_lines delim t : delim = 34 ∨ delim = 39 → ∀ l s r l',
  str_body delim false l t = Lit s r l' → l' + lines r = l + lines t.
Proof.
  intros Hdelim. induction t as [[|c t] IH] using text_ind; intros l s r l'; [done|].
  destruct (c =? 92) eqn:E92.
  { apply Z.eqb_eq in E92 as ->. rewrite str_body_escape by done.
    destruct (escape1 l t) as [out r1 l1|] eqn:E; [|done]. pose proof (escape1_range _ _ _ _ _ E).
    apply escape1_lines in E. intros (s' & Hs & ->)%puts_lit. apply IH in Hs; [|simpl; lia].
    rewrite lines_char by done. lia. }
  simpl str_body. rewrite E92. destruct (c =? delim) eqn:Ed.
  { intros; simplify_eq. apply Z.eqb_eq in Ed as ->. rewrite lines_char; [done|]. destruct Hdelim; by subst. }
  destruct (isNewline c) eqn:En; [done|]. change (put c ?r) with (puts [c] r).
  intros (s' & Hs & ->)%puts_lit. apply IH in Hs; [|simpl; lia]. by rewrite lines_char.
Qed.

Lemma seps_lines es t : Forall (λ c, (61 =? c) = true) es → lines (es ++ t) = lines t.
Proof. intros Hes. apply lines_app. eapply Forall_impl; [exact Hes|]. by intros c <-%Z.eqb_eq. Qed.

Lemma long_body_lines em sep t : ∀ l s r l', long_body em sep l t = Lit s r l' → l' + lines r = l + lines t.
Proof.
  induction t as [[|c t] IH] using text_ind; intros l s r l'; [done|].
  destruct (decide (c = 93)) as [->|H93].
  - destruct (span (Z.eqb 61) t) as [es q] eqn:Es. rewrite (long_body_bracket em sep l t es q Es).
    apply span_spec in Es as (-> & Hes & _). rewrite lines_char, seps_lines by done.
    destruct ((hd END_OF_STREAM q =? 93) && (length es =? sep)%nat) eqn:E.
    + apply andb_true_iff in E as [E _]. intros; simplify_eq. destruct q as [|x q]; [done|].
      cbn [hd] in E. apply Z.eqb_eq in E as ->. by rewrite lines_char.
    + intros (s' & Hs & ->)%puts_lit. eapply IH; [|exact Hs]. simpl. rewrite length_app. lia.
  - destruct (isNewline c) eqn:En.
    + rewrite long_body_newline by done. change (put 10 ?r) with (puts [10] r). intros (s' & Hs & _)%puts_lit.
      pose proof (eol_length c t). apply IH in Hs; [|simpl in *; lia]. rewrite lines_newline by done. lia.
    + rewrite long_body_char by done. change (put c ?r) with (puts [c] r). intros (s' & Hs & _)%puts_lit.
      apply IH in Hs; [|simpl; lia]. by rewrite lines_char.
Qed.

Lemma long_string_lines em sep l t s r l' : long_string em sep l t = Lit s r l' → l' + lines r = l + lines t.
Proof.
  unfold long_string. destruct t as [|c t]; [apply long_body_lines|].
  destruct (isNewline c) eqn:En; intros Hs%long_body_lines; [|done]. rewrite lines_newline by done. lia.
Qed.

Lemma span_lines g t : (∀ c, g c = true → isNewline c = false) → lines (span g t).2 = lines t.
Proof.
  intros Hg. destruct (span g t) as [a r] eqn:E. apply span_spec in E as (-> & Ha & _). simpl.
  rewrite lines_app; [done|]. eapply Forall_impl; [exact Ha|]. done.
Qed.

Lemma not_newline c : c ≠ 10 → c ≠ 13 → isNewline c = false.
Proof. intros ? ?. unfold isNewline. apply orb_false_iff. by rewrite !Z.eqb_neq. Qed.

Lemma ident_not_newline c : lj_char_isident c = true → isNewline c = false.
Proof. intros Hc. apply not_newline; by intros ->. Qed.

Lemma number_not_newline c xp d : number_char c xp d = true → isNewline d = false.
Proof. intros Hd. apply not_newline; by intros ->. Qed.

Lemma num_chars_lines c xp t : lines (num_chars c xp t).2 = lines t.
Proof.
  revert c. induction t as [|d t IH]; intros c; cbn [num_chars]; [done|].
  destruct (number_char c xp d) eqn:Ed; [|done]. specialize (IH d). destruct (num_chars d xp t) as [a r].
  cbn [snd] in *. rewrite IH. symmetry. apply lines_char. by eapply number_not_newline.
Qed.

Lemma num_lit_lines t : lines (num_lit t).2 = lines t.
Proof.
  destruct t as [|c t]; [done|]. unfold num_lit. destruct (c =? 48) eqn:E; [|apply num_chars_lines].
  pose proof (num_chars_lines 48 (match t with x :: _ => if lj_char_casecmp x 120 then 112 else 101 | [] => 101 end) t) as Hn.
  destruct (num_chars 48 _ t) as [a r]. cbn [snd] in *. rewrite Hn. apply Z.eqb_eq in E as ->. by rewrite lines_char.
Qed.

Lemma strip1_some c t r : strip [c] t = Some r → t = c :: r.
Proof. rewrite strip1. destruct t as [|d t]; [done|]. destruct (c =? d) eqn:E; [|done]. intros [= ->]. by apply Z.eqb_eq in E as ->. Qed.

Lemma short_comment_lines t : lines (short_comment t) = lines t.
Proof. apply span_lines. by intros c Hc%negb_true_iff. Qed.

Lemma long_open_lines t k r : long_open t = (k, r) → lines r = lines t.
Proof.
  unfold long_open. destruct (span (Z.eqb 61) t) as [es q] eqn:E. intros; simplify_eq.
  apply span_spec in E as (-> & Hes & _). by rewrite seps_lines.
Qed.

Lemma comment_lines l t r l' : comment l t = Blank r l' → l' + lines r = l + lines t.
Proof.
  unfold comment. destruct (strip [91] t) as [t1|] eqn:E1; [|intros; simplify_eq; by rewrite short_comment_lines].
  apply strip1_some in E1 as ->. rewrite lines_char by done.
  destruct (long_open t1) as [k t2] eqn:E2. apply long_open_lines in E2. rewrite <-E2.
  destruct (strip [91] t2) as [t3|] eqn:E3; [|intros; simplify_eq; by rewrite short_comment_lines].
  apply strip1_some in E3 as ->. rewrite lines_char by done.
  destruct (long_string UJ_ERR_XLCOM k l t3) eqn:E4; [|done]. intros; simplify_eq. by eapply long_string_lines.
Qed.

Lemma blank1_lines l t r l' : blank1 l t = Blank r l' → l' + lines r = l + lines t.
Proof.
  destruct t as [|c t]; [done|]. cbn [blank1]. destruct (isNewline c) eqn:En.
  { intros; simplify_eq. rewrite lines_newline by done. cbn [eol]. lia. }
  rewrite lines_char by done. destruct (isspace c); [intros; by simplify_eq|]. destruct (c =? 45); [|done].
  destruct (strip [45] t) as [t2|] eqn:E; [|done]. apply strip1_some in E as ->. rewrite lines_char by done.
  apply comment_lines.
Qed.

Lemma of_lit_scanned r x t l : of_lit r = Scanned x t l → ∃ s, r = Lit s t l ∧ x = XStr s.
Proof. destruct r; simpl; intros; simplify_eq. eauto. Qed.

Lemma two_lines c d x l t y r l' : isNewline d = false → two c d x l t = Scanned y r l' → l' + lines r = l + lines t.
Proof.
  intros Hd. unfold two. destruct t as [|e t]; [intros; by simplify_eq|].
  destruct (e =? d) eqn:E; intros; simplify_eq; [|done]. apply Z.eqb_eq in E as ->. by rewrite lines_char.
Qed.

Lemma scan1_lines l t x r l' :
  blank1 l t = NoBlank → scan1 l t = Scanned x r l' → l' + lines r = l + lines t.
Proof.
  destruct t as [|c t]; [intros; by simplify_eq/=|]. intros Hb. assert (isNewline c = false) as En.
  { cbn [blank1] in Hb. by destruct (isNewline c). }
  clear Hb. unfold scan1. destruct (isdigit c).
  { pose proof (num_lit_lines (c :: t)) as Hn. destruct (num_lit (c :: t)). intros; simplify_eq. simpl in *; lia. }
  destruct (lj_char_isident c) eqn:Ei.
  { pose proof (span_lines lj_char_isident (c :: t) ident_not_newline) as Hn.
    destruct (span lj_char_isident (c :: t)). intros; simplify_eq. cbn [snd] in Hn. by rewrite Hn. }
  rewrite lines_char by done.
  destruct ((c =? 34) || (c =? 39)) eqn:Eq.
  { intros (s & Hs & ->)%of_lit_scanned. eapply str_body_lines; [|exact Hs].
    apply orb_true_iff in Eq as [?%Z.eqb_eq|?%Z.eqb_eq]; auto. }
  destruct (c =? 91).
  { destruct (long_open t) as [k t2] eqn:E2. apply long_open_lines in E2. rewrite <-E2.
    destruct (strip [91] t2) as [t3|] eqn:E3.
    - apply strip1_some in E3 as ->. rewrite lines_char by done.
      intros (s & Hs & ->)%of_lit_scanned. by eapply long_string_lines.
    - destruct k; intros; by simplify_eq. }
  do 5 (case_test; [by apply two_lines|]).
  destruct (c =? 46); [|intros; by simplify_eq].
  destruct t as [|d t]; [intros; by simplify_eq|]. destruct (d =? 46) eqn:Ed.
  { apply Z.eqb_eq in Ed as ->. rewrite lines_char by done. destruct (strip [46] t) as [t2|] eqn:E; [|intros; by simplify_eq].
    apply strip1_some in E as ->. rewrite lines_char by done. intros; by simplify_eq. }
  destruct (isdigit d); [|intros; by simplify_eq].
  pose proof (num_lit_lines (d :: t)) as Hn. destruct (num_lit (d :: t)). intros; simplify_eq. cbn [snd] in Hn. by rewrite Hn.
Qed.

Lemma scan_lines l t x r l' : scan l t = Some (Scanned x r l') → l' + lines r = l + lines t.
Proof.
  unfold scan. generalize (S (length t)) as fuel. intros fuel. revert l t.
  induction fuel as [|fuel IH]; intros l t; [done|]. cbn [scan_fuel].
  destruct (blank1 l t) as [t' l1| |] eqn:E; [|intros [= E1]; by eapply scan1_lines|done].
  apply blank1_lines in E. intros Hs%IH. lia.
Qed.

(** ** What is made of a lexeme *)

Section Theorems.
Context {S : Type} `{LexEnv S}.

(** The token, its value and the new environment, or the error. *)
Inductive made := Made (tok : Z) (v : TValue) (e : S) | BadNumber | Unkept.

Definition keep (s : list Z) (f : Z → S → made) (e : S) : made :=
  match lj_parse_keepstr s e with Some (a, e') => f a e' | None => Unkept end.

Definition make (x : lexeme) (tv : TValue) (e : S) : made :=
  match x with
  | XTok t => Made t tv e
  | XName s => keep s (λ a e,
      Made (if 0 <? reserved e a then TK_OFS + reserved e a else TK_name) (TGCV GT_STR a) e) e
  | XStr s => keep s (λ a e, Made TK_string (TGCV GT_STR a) e) e
  | XNum s =>
      let (fmt, d) := strscan_tonumber (s ++ [0]) in
      match fmt with
      | STRSCAN_ERROR => BadNumber
      | STRSCAN_NUM => Made TK_number (TNum d) e
      | _ => match keepcdata fmt d e with
             | Some (a, e') => Made TK_number (TGCV GT_CDATA a) e' | None => Unkept end
      end
  end.

Lemma tok_effect_make x tv t b l e k :
  tok_effect x tv t b l e k =
  match make x tv e with
  | Made tok v e' => Gives (tok, v) (View t b l e' k)
  | BadNumber => Fails UJ_ERR_XNUMBER l
  | Unkept => NoKeep
  end.
Proof.
  destruct x as [tk|s|s|s]; simpl; [done|..]; unfold name_effect, keep_effect, num_effect, keep.
  - by destruct (lj_parse_keepstr s e) as [[]|].
  - destruct (strscan_tonumber (s ++ [0])) as [[] d]; [done|done|..]; by destruct (keepcdata _ d e) as [[]|].
  - by destruct (lj_parse_keepstr s e) as [[]|].
Qed.

End Theorems.

Definition llex_post {S} `{LexEnv S} (ls : LexState S) (tv : TValue) : Prop :=
  match scan (linenumber ls) (text ls) with
  | Some (Scanned x r l) =>
      match make x tv (env ls) with
      | Made tok v e => ∃ ls', llex tv ls = LOk (tok, v) ls' ∧ lwf ls' ∧
          text ls' = r ∧ linenumber ls' = l ∧ env ls' = e ∧ kept ls' = kept ls
      | BadNumber => ∃ ts, llex tv ls = LErr (ESyntax UJ_ERR_XNUMBER l ts)
      | Unkept => llex tv ls = LErr EKeep
      end
  | Some (Failed em l) => ∃ ts, llex tv ls = LErr (ESyntax em l ts)
  | None => False
  end.

Lemma llex_spec {S} `{LexEnv S} (ls : LexState S) tv :
  lwf ls → room (text ls) [] (linenumber ls) → llex_post ls tv.
Proof.
  intros W Hr. unfold llex_post.
  pose proof (does_llex tv (text ls) (data (sb ls)) (linenumber ls) (env ls) (kept ls) (lw_bytes _ W) Hr) as Hd.
  assert (at_ ls (View (text ls) (data (sb ls)) (linenumber ls) (env ls) (kept ls))) as Hat by done.
  destruct (scan (linenumber ls) (text ls)) as [[x r l|em l]|]; [|by apply Hd|done].
  destruct Hd as [b Hd]. rewrite tok_effect_make in Hd. specialize (Hd ls Hat).
  destruct (make x tv (env ls)) as [tok v e| |]; [|done|done].
  destruct Hd as (ls' & E & W' & Hv). exists ls'. split; [exact E|]. split; [exact W'|].
  exact (conj (f_equal vtext Hv) (conj (f_equal vline Hv) (conj (f_equal venv Hv) (f_equal vkept Hv)))).
Qed.

(** C13: The scanner gives what the reference on the text gives.  For every state whose counter and blocks
    fit, [llex] ends, never reads outside of a block, and returns the token that [scan] finds in the text
    that is left, with the value that is made of it; the text behind the token and its line are those of
    the reference.  Otherwise it throws the error of the reference with its line.  So the tokens do not
    depend on how the text is cut into blocks. *)
Theorem llex_reference {S} `{LexEnv S} (ls : LexState S) (tv : TValue) :
  lwf ls → room (text ls) [] (linenumber ls) →
  match scan (linenumber ls) (text ls) with
  | Some (Scanned x r l) =>
      match make x tv (env ls) with
      | Made tok v e => ∃ ls', llex tv ls = LOk (tok, v) ls' ∧ lwf ls' ∧
          text ls' = r ∧ linenumber ls' = l ∧ env ls' = e ∧ kept ls' = kept ls
      | BadNumber => ∃ ts, llex tv ls = LErr (ESyntax UJ_ERR_XNUMBER l ts)
      | Unkept => llex tv ls = LErr EKeep
      end
  | Some (Failed em l) => ∃ ts, llex tv ls = LErr (ESyntax em l ts)
  | None => False
  end.
Proof. exact (llex_spec ls tv). Qed.

(** ** Quoting *)

(** The two digits of the tens and the ones. *)
Definition two_digits (c : Z) : list Z := [48 + c / 10; 48 + c `mod` 10].

Definition quoted_char (c next : Z) : list Z :=
  if (c =? 34) || (c =? 92) || (c =? 10) then [92; c]
  else if (c <? 32) || (c =? 127) then
    92 :: (if (100 <=? c) then 49 :: two_digits (c - 100)
           else if isdigit next then 48 :: two_digits c
           else if 10 <=? c then two_digits c else [48 + c])
  else [c].

Fixpoint quoted_chars (s : list Z) : list Z :=
  match s with [] => [] | c :: s => quoted_char c (hd 0 s) ++ quoted_chars s end.

Definition quoted (s : list Z) : list Z := 34 :: quoted_chars s ++ [34].

Lemma cntrl_eq c : in_u 8 c → lj_char_isa c LJ_CHAR_CNTRL = (c <? 32) || (c =? 127).
Proof.
  intros Hc. apply eqb_prop, (StrTheorems.octet_forall (λ c, Bool.eqb (lj_char_isa c LJ_CHAR_CNTRL) ((c <? 32) || (c =? 127))));
    [by vm_compute|done].
Qed.

(** The multiplication is a division by ten. *)
Lemma tens_eq c : 0 ≤ c < 32 → Z.shiftr (c * 205) 11 = c / 10.
Proof.
  intros Hc. apply Z.eqb_eq. assert (in_u 8 c) as Hc8 by (unfold in_u; lia).
  pose proof (StrTheorems.octet_forall (λ c, implb (c <? 32) (Z.shiftr (c * 205) 11 =? c / 10)) ltac:(by vm_compute) c Hc8) as E.
  cbv beta in E. by rewrite (proj2 (Z.ltb_lt c 32)) in E by lia.
Qed.

(** Octets are appended while the buffer stays below its limit. *)
Definition adds (f : sbuf → Sbuf.result) (os : list Z) : Prop :=
  ∀ b, sb_wf b → uj_sbuf_size b + len os ≤ LJ_MAX_SBUF →
    ∃ c, f b = SOk (MkSbuf (data b ++ os) c) ∧ sb_wf (MkSbuf (data b ++ os) c).

Lemma adds_char c : in_u 8 c → adds (uj_sbuf_push_char c) [c].
Proof.
  intros Hc b W Hs. destruct (push_appends 1 [u8 c] b W) as [(cp & E & Wb & _)|(_ & Hmax & _)].
  - unfold len. simpl. lia.
  - unfold uj_sbuf_push_char. rewrite E. unfold u8 in *. rewrite wrapu_id in * by done. eauto.
  - unfold len in Hs. simpl in Hs. lia.
Qed.

Lemma adds_bind f g os os' : adds f os → adds g os' → adds (λ b, bind (f b) g) (os ++ os').
Proof.
  intros Hf Hg b W Hs. unfold len in Hs. rewrite length_app in Hs.
  destruct (Hf b W) as (c & E & Wc); [unfold len; lia|]. rewrite E. simpl.
  destruct (Hg _ Wc) as (c' & E' & Wc'); [rewrite size_app; unfold len; unfold uj_sbuf_size in *; simpl; lia|].
  exists c'. simpl in *. by rewrite app_assoc.
Qed.

Lemma adds_tens c : 0 ≤ c < 32 → adds (quote_tens c) (two_digits c).
Proof.
  intros Hc. unfold quote_tens, two_digits. rewrite tens_eq by done.
  assert (0 ≤ c / 10 < 10) by (split; [apply Z.div_pos|apply Z.div_lt_upper_bound]; lia).
  pose proof (Z.mod_pos_bound c 10). pose proof (Z_div_mod_eq_full c 10).
  replace (c - c / 10 * 10 + 48) with (48 + c `mod` 10) by lia.
  apply (adds_bind _ _ [_] [_]); apply adds_char; unfold in_u; lia.
Qed.

Lemma adds_quote_char c next : in_u 8 c → in_u 8 next → adds (quote_char c next) (quoted_char c next).
Proof.
  intros Hc Hn. unfold quote_char, quoted_char. rewrite (cntrl_eq c), (isdigit_eq next) by done.
  assert (adds (uj_sbuf_push_char 92) [92]) as H92 by (apply adds_char; unfold in_u; lia).
  destruct ((c =? 34) || (c =? 92) || (c =? 10)); [by apply (adds_bind _ _ [92] [c]); [|apply adds_char]|].
  destruct ((c <? 32) || (c =? 127)) eqn:E; [|by apply adds_char].
  assert (c < 32 ∨ c = 127) as Hr by (apply orb_true_iff in E as [?%Z.ltb_lt|?%Z.eqb_eq]; lia). unfold in_u in Hc.
  apply (adds_bind _ _ [92]); [done|]. destruct (100 <=? c) eqn:E100; bprop; simpl orb; cbv iota.
  - apply (adds_bind _ _ [_]); [apply adds_char; unfold in_u; lia|apply adds_tens; lia].
  - destruct (isdigit next).
    + apply (adds_bind _ _ [_]); [apply adds_char; unfold in_u; lia|apply adds_tens; lia].
    + destruct (10 <=? c); [apply adds_tens; lia|]. rewrite Z.add_comm. apply adds_char. unfold in_u; lia.
Qed.

Lemma adds_quote_chars s : bytes s → adds (quote_chars s) (quoted_chars s).
Proof.
  induction 1 as [|c s Hc Hs IH].
  - intros b W _. exists (cap b). simpl. rewrite app_nil_r. by destruct b.
  - apply (adds_bind (quote_char c (hd 0 s))); [apply adds_quote_char; [done|]|done].
    destruct Hs; simpl; [unfold in_u; lia|done].
Qed.

Lemma adds_addquoted f s : bytes s → adds (addquoted f (inr s)) (quoted s).
Proof.
  intros Hs. assert (adds (uj_sbuf_push_char 34) [34]) as H34 by (apply adds_char; unfold in_u; lia).
  apply (adds_bind _ _ [34]); [done|]. apply (adds_bind (quote_chars s)); [by apply adds_quote_chars|done].
Qed.

(** ** Reading back what is quoted *)

Lemma isdigit_dig d : 0 ≤ d < 10 → isdigit (48 + d) = true ∧ digit (48 + d) = d.
Proof. intros Hd. unfold isdigit, digit. rewrite andb_true_iff, !Z.leb_le. lia. Qed.

(** A decimal escape of [c] stands for [c] if no digit follows, or if it has three. *)
Lemma decimal_reads ds c t l :
  Forall (λ d, 0 ≤ d < 10) ds → ds ≠ [] → (length ds ≤ 3)%nat → foldl (λ x d, 10 * x + d) 0 ds = c → c ≤ 255 →
  (length ds = 3%nat ∨ isdigit (hd 0 t) = false) →
  str_body 34 false l (92 :: map (Z.add 48) ds ++ t) = put c (str_body 34 false l t).
Proof.
  intros Hds Hne Hlen Hc Hmax Ht. rewrite str_body_escape by auto.
  assert (∀ d r, 0 ≤ d < 10 → escape1 l (48 + d :: r) =
    match dec_escape (48 + d) r with Some (x, r) => Esc [x] r l | None => BadEsc UJ_ERR_XESC l end) as He.
  { intros d r Hd. unfold escape1. assert (simple_escape (48 + d) = None) as ->.
    { unfold simple_escape. repeat (rewrite (proj2 (Z.eqb_neq (48 + d) _)) by lia). done. }
    rewrite (proj2 (Z.eqb_neq (48 + d) 120)), (proj2 (Z.eqb_neq (48 + d) 122)) by lia.
    rewrite not_newline by lia. by rewrite (proj1 (isdigit_dig d Hd)). }
  destruct ds as [|d0 ds]; [done|]. apply Forall_cons in Hds as [H0 Hds]. cbn [map app]. rewrite He by done.
  unfold dec_escape. destruct (isdigit_dig d0 H0) as [_ Ed0]. rewrite Ed0. cbn [foldl] in Hc.
  destruct ds as [|d1 ds]; cbn [map app].
  { destruct Ht as [Ht|Ht]; [simpl in Ht; lia|]. destruct t as [|x t]; [simpl; do 2 f_equal; simpl in Hc; lia|].
    cbn [hd] in Ht. rewrite Ht. cbn [puts foldr]. f_equal. simpl in Hc. lia. }
  apply Forall_cons in Hds as [H1 Hds]. destruct (isdigit_dig d1 H1) as [-> Ed1]. rewrite Ed1. cbn [foldl] in Hc.
  destruct ds as [|d2 ds]; cbn [map app].
  { destruct Ht as [Ht|Ht]; [simpl in Ht; lia|]. destruct t as [|x t]; [simpl; do 2 f_equal; simpl in Hc; lia|].
    cbn [hd] in Ht. rewrite Ht. cbn [puts foldr]. f_equal. simpl in Hc. lia. }
  apply Forall_cons in Hds as [H2 Hds]. destruct (isdigit_dig d2 H2) as [-> Ed2]. rewrite Ed2. cbn [foldl] in Hc.
  destruct ds; [|simpl in Hlen; lia]. cbn [foldl] in Hc. cbv zeta.
  replace (100 * d0 + 10 * d1 + d2) with c by lia. rewrite (proj2 (Z.ltb_ge 255 c)) by lia. done.
Qed.

Lemma two_digits_eq c : two_digits c = map (Z.add 48) [c / 10; c `mod` 10].
Proof. done. Qed.

Lemma quoted_char_reads c next t l :
  in_u 8 c → (isdigit next = false → isdigit (hd 0 t) = false) → hd 0 t ≠ 13 →
  str_body 34 false l (quoted_char c next ++ t) = put c (str_body 34 false (if c =? 10 then l + 1 else l) t).
Proof.
  intros Hc Hd Ht. unfold quoted_char. unfold in_u in Hc.
  destruct ((c =? 34) || (c =? 92) || (c =? 10)) eqn:E1.
  { cbn [app]. rewrite str_body_escape by auto.
    apply orb_true_iff in E1 as [[E1%Z.eqb_eq|E1%Z.eqb_eq]%orb_true_iff|E1%Z.eqb_eq]; subst c; [done|done|].
    cbn [escape1]. change (simple_escape 10) with (@None Z). cbn [Z.eqb Pos.eqb isNewline orb].
    destruct t as [|d t]; [done|]. cbn [eol hd] in *.
    assert (isNewline d && negb (d =? 10) = false) as ->; [|done].
    unfold isNewline. destruct (d =? 10); [done|]. simpl. rewrite andb_true_r. by apply Z.eqb_neq. }
  assert (c ≠ 34 ∧ c ≠ 92 ∧ c ≠ 10) as (H34 & H92 & H10).
  { apply orb_false_iff in E1 as [[?%Z.eqb_neq ?%Z.eqb_neq]%orb_false_iff ?%Z.eqb_neq]. done. }
  rewrite (proj2 (Z.eqb_neq c 10)) by done.
  destruct ((c <? 32) || (c =? 127)) eqn:E2.
  - assert (c < 32 ∨ c = 127) as Hr by (apply orb_true_iff in E2 as [?%Z.ltb_lt|?%Z.eqb_eq]; lia).
    assert (∀ x, 0 ≤ x < 100 → 0 ≤ x / 10 < 10 ∧ 0 ≤ x `mod` 10 < 10 ∧ x = 10 * (x / 10) + x `mod` 10) as Hdiv.
    { intros x Hx. pose proof (Z.mod_pos_bound x 10). pose proof (Z_div_mod_eq_full x 10).
      split_and!; [apply Z.div_pos; lia|apply Z.div_lt_upper_bound; lia|lia..]. }
    destruct (100 <=? c) eqn:E100; bprop.
    { change (49 :: two_digits (c - 100)) with (map (Z.add 48) [1; (c - 100) / 10; (c - 100) `mod` 10]).
      destruct (Hdiv (c - 100)) as (? & ? & ?); [lia|].
      apply decimal_reads; [repeat constructor; lia|done|done|simpl; lia|lia|by left]. }
    destruct (isdigit next).
    { change (48 :: two_digits c) with (map (Z.add 48) [0; c / 10; c `mod` 10]).
      destruct (Hdiv c) as (? & ? & ?); [lia|].
      apply decimal_reads; [repeat constructor; lia|done|done|simpl; lia|lia|by left]. }
    destruct (10 <=? c) eqn:E10; bprop.
    { rewrite two_digits_eq. destruct (Hdiv c) as (? & ? & ?); [lia|].
      apply decimal_reads; [repeat constructor; lia|done|simpl; lia|simpl; lia|lia|by right; apply Hd]. }
    change [48 + c] with (map (Z.add 48) [c]).
    apply decimal_reads; [repeat constructor; lia|done|simpl; lia|done|lia|by right; apply Hd].
  - apply orb_false_iff in E2 as [E2%Z.ltb_ge _]. cbn [app str_body andb].
    rewrite (proj2 (Z.eqb_neq c 34)), (proj2 (Z.eqb_neq c 92)), not_newline by lia. done.
Qed.

Lemma quoted_chars_hd s t : hd 0 (quoted_chars s ++ 34 :: t) ≠ 13 ∧
  (isdigit (hd 0 s) = false → isdigit (hd 0 (quoted_chars s ++ 34 :: t)) = false).
Proof.
  destruct s as [|c s]; [done|]. cbn [quoted_chars hd]. unfold quoted_char.
  destruct ((c =? 34) || (c =? 92) || (c =? 10)); [done|].
  destruct ((c <? 32) || (c =? 127)) eqn:E; [done|]. cbn [app hd]. split; [|done].
  apply orb_false_iff in E as [E%Z.ltb_ge _]. lia.
Qed.

Lemma quoted_chars_read s t l :
  bytes s → ∃ l', str_body 34 false l (quoted_chars s ++ 34 :: t) = Lit s t l' ∧ l ≤ l' ≤ l + len s.
Proof.
  intros Hs. revert l. induction Hs as [|c s Hc Hs IH]; intros l.
  { exists l. split; [done|]. unfold len. simpl. lia. }
  cbn [quoted_chars]. rewrite <-app_assoc. destruct (quoted_chars_hd s t) as [H13 Hd].
  rewrite quoted_char_reads by done. destruct (IH (if c =? 10 then l + 1 else l)) as (l' & E & Hl).
  exists l'. rewrite E. split; [done|]. unfold len in *. simpl length. destruct (c =? 10); lia.
Qed.

Lemma quoted_char_length c next : (length (quoted_char c next) ≤ 4)%nat.
Proof. unfold quoted_char, two_digits. repeat case_match; simpl; lia. Qed.

Lemma quoted_length s : len (quoted s) ≤ 4 * len s + 2.
Proof.
  unfold quoted, len. simpl. rewrite length_app. simpl.
  assert (length (quoted_chars s) ≤ 4 * length s)%nat; [|lia].
  induction s as [|c s IH]; simpl; [lia|]. rewrite length_app. pose proof (quoted_char_length c (hd 0 s)). lia.
Qed.

(** C15: What string.format quotes is read back as the same string.  For every string of octets, [addquoted]
    appends a text such that the scanner, on any state whose text starts with it, returns a string token
    made of exactly these octets and has the text behind it left: quotes, backslashes, newlines and
    control characters are escaped as the scanner expects, with three digits where a digit follows. *)
Theorem addquoted_roundtrip {S} `{LexEnv S} f (s : list Z) (ls : LexState S) (tv : TValue) (rest : list Z) :
  bytes s → 4 * len s + 2 ≤ LJ_MAX_SBUF →
  ∃ c, addquoted f (inr s) uj_sbuf_init = SOk (MkSbuf (quoted s) c) ∧
  (lwf ls → room (text ls) [] (linenumber ls) → text ls = quoted s ++ rest →
   match lj_parse_keepstr s (env ls) with
   | Some (a, e) => ∃ ls', llex tv ls = LOk (TK_string, TGCV GT_STR a) ls' ∧ text ls' = rest ∧ env ls' = e
   | None => llex tv ls = LErr EKeep
   end).
Proof.
  intros Hs Hmax. destruct (adds_addquoted f s Hs uj_sbuf_init) as (c & E & _).
  { split; [done|by left]. }
  { pose proof (quoted_length s). change (uj_sbuf_size uj_sbuf_init) with 0. lia. }
  exists c. split; [exact E|]. intros W Hr Ht. pose proof (llex_spec ls tv W Hr) as Hl. unfold llex_post in Hl.
  destruct (quoted_chars_read s rest (linenumber ls) Hs) as (l' & Eq & _).
  assert (scan (linenumber ls) (text ls) = Some (Scanned (XStr s) rest l')) as Es.
  { rewrite Ht. unfold quoted. rewrite <-app_comm_cons, <-app_assoc. unfold scan. cbn [scan_fuel blank1].
    change (isNewline 34) with false. change (isspace 34) with false. cbn [Z.eqb Pos.eqb].
    unfold scan1. change (isdigit 34) with false. change (lj_char_isident 34) with false.
    cbn [Z.eqb Pos.eqb orb]. cbn [app]. by rewrite Eq. }
  rewrite Es in Hl. unfold make, keep in Hl. destruct (lj_parse_keepstr s (env ls)) as [[a e]|]; [|done].
  destruct Hl as (ls' & ? & _ & ? & _ & ? & _). by exists ls'.
Qed.

(** ** The strings of the lexer *)

Definition words : list (list Z) := take (Z.to_nat TK_RESERVED) tokennames.

(** The number of a reserved word, counted from 1. *)
Definition word (s : list Z) : Z :=
  match list_find (eq s) words with Some (i, _) => Z.of_nat i + 1 | None => 0 end.

(** [le_str e a s]: the object at [a] is the string [s]; [le_kept e a]: it is anchored.  A string that is
    kept is the one asked for, knows its reserved word and is anchored; strings stay what they are. *)
Class LexLaws (S : Type) `{LexEnv S} := {
  le_ok : S → Prop;
  le_str : S → Z → list Z → Prop;
  le_kept : S → Z → Prop;
  le_fun e a s s' : le_ok e → le_str e a s → le_str e a s' → s = s';
  le_keepstr e s a e' :
    le_ok e → lj_parse_keepstr s e = Some (a, e') →
    le_ok e' ∧ le_str e' a s ∧ le_kept e' a ∧ reserved e' a = word s ∧
    ∀ b, (∀ x, le_str e b x → le_str e' b x) ∧ (le_kept e b → le_kept e' b);
  le_keepcdata e fmt d a e' :
    le_ok e → keepcdata fmt d e = Some (a, e') →
    le_ok e' ∧ ∀ b, (∀ x, le_str e b x → le_str e' b x) ∧ (le_kept e b → le_kept e' b)
}.

Lemma word_spec s : if word s =? 0 then s ∉ words else words !! Z.to_nat (word s - 1) = Some s.
Proof.
  unfold word. destruct (list_find (eq s) words) as [[i x]|] eqn:E.
  - apply list_find_Some in E as (Hi & <- & _). rewrite (proj2 (Z.eqb_neq _ _)) by lia.
    by replace (Z.to_nat (Z.of_nat i + 1 - 1)) with i by lia.
  - apply list_find_None in E. simpl. intros Hin. rewrite Forall_forall in E. by apply (E s).
Qed.

Lemma word_range s : 0 ≤ word s ≤ TK_RESERVED.
Proof.
  pose proof (word_spec s) as Hw. destruct (word s =? 0) eqn:E; bprop; [rewrite E; by vm_compute|].
  assert (0 ≤ word s) by (unfold word; destruct (list_find _ _) as [[]|]; lia).
  apply lookup_lt_Some in Hw. change (length words) with 22%nat in Hw. unfold TK_RESERVED, TK_while, TK_OFS. lia.
Qed.

Lemma word_nth i : (i < Z.to_nat TK_RESERVED)%nat → word (nth i tokennames []) = Z.of_nat i + 1.
Proof.
  intros Hi. assert (forallb (λ i, word (nth i tokennames []) =? Z.of_nat i + 1) (seq 0 22) = true) as Hall by (by vm_compute).
  rewrite forallb_forall in Hall. apply Z.eqb_eq, Hall, in_seq. change (Z.to_nat TK_RESERVED) with 22%nat in Hi. lia.
Qed.

Lemma word_at i s : (i < Z.to_nat TK_RESERVED)%nat → word s = Z.of_nat i + 1 → s = nth i tokennames [].
Proof.
  intros Hi Hw. pose proof (word_spec s) as Hs. rewrite (proj2 (Z.eqb_neq _ _)) in Hs by lia.
  rewrite Hw in Hs. replace (Z.to_nat (Z.of_nat i + 1 - 1)) with i in Hs by lia.
  unfold words in Hs. rewrite lookup_take in Hs. rewrite decide_True in Hs by done.
  symmetry. by apply nth_lookup_Some.
Qed.

Section ParserLaws.
Context `{Str.HashF} `{ObjHeap} (str_alloc cd_alloc : pstate → Z) (scan_number : list Z → StrScanFmt * Z).
Import StrHash Str.

(** Fresh addresses; no object is at the address 2^63. *)
Context (alloc_fresh : ∀ ps, g_wf (pg ps) → str_alloc ps ∉ saddr <$> strempty (pg ps) :: all_strings (pg ps)).
Context (alloc_addr : ∀ ps, str_alloc ps ≠ 2 ^ 63 ∧ cd_alloc ps ≠ 2 ^ 63).

(** The first [i] reserved words are there and marked. *)
Record words_ok (i : Z) (ps : pstate) : Prop := {
  wo_g : g_wf (pg ps);
  wo_word d a : interned (pg ps) d a → default 0 (preserved ps !! a) = (if word d <=? i then word d else 0) ∧ a ≠ 2 ^ 63;
  wo_dom a r : preserved ps !! a = Some r → ∃ d, interned (pg ps) d a;
  wo_all d : 0 < word d ≤ i → ∃ a, interned (pg ps) d a;
  wo_kt : TabWf.twf (kt ps);
  wo_mut : TabWf.mutable (kt ps)
}.

Definition ps_ok (ps : pstate) : Prop := words_ok TK_RESERVED ps.

(** A new string: at the address where it is already, or at the fresh one. *)
Lemma new_str_addr g a d s g' :
  g_wf g → a ∉ saddr <$> strempty g :: all_strings g → uj_str_new a d g = SRet s g' →
  slen d < LJ_MAX_STR ∧ g_wf g' ∧ interned g' d (saddr s) ∧ (saddr s = a ∨ interned g d (saddr s)) ∧
  (∀ e x, interned g' e x ↔ (e = d ∧ x = saddr s) ∨ interned g e x).
Proof.
  intros W Ha E. assert (slen d < LJ_MAX_STR) as Hl.
  { unfold uj_str_new in E. destruct (LJ_MAX_STR <=? slen d) eqn:El; [done|]. by bprop. }
  destruct (StrTheorems.uj_str_new_spec g a d W Ha Hl) as (s1 & g1 & E1 & Ed & W1 & Hx & Hi).
  rewrite E in E1. injection E1 as <- <-. split_and!; [done|done|apply Hi; by left| |done].
  destruct (decide (d = [] ∨ Exists (λ s, sdata s = d) (all_strings g))) as [Hin|Hn].
  - right. assert (∃ x, interned g d x) as [x Hd]; [|by rewrite (Hx x Hd)].
    destruct Hin as [->|(s0 & Hs0 & Ed0)%Exists_exists].
    + exists (saddr (strempty g)), (strempty g). split; [by left|]. by rewrite (gw_empty _ W).
    + exists (saddr s0), s0. split; [by right|done].
  - left. destruct (uj_str_new_fresh g a d W) as (g2 & E2 & _); [|done|done|..].
    + intros s0 Hs0 Ed0. apply Hn. right. apply Exists_exists. by exists s0.
    + intros El. apply Hn. left. unfold slen in El. destruct d; [done|]. simpl in El. lia.
    + rewrite E in E2. by injection E2 as -> _.
Qed.

Lemma fixstring_ok a g :
  g_wf g → g_wf (fixstring a g) ∧ ∀ d x, interned (fixstring a g) d x ↔ interned g d x.
Proof.
  intros W. set (f := λ s, MkGCstr (saddr s) (Z.lor (smarked s) LJ_GC_FIXED) (shash s) (sdata s)).
  set (u := λ s0, if decide (saddr s0 = a) then f s0 else s0).
  assert (all_strings (fixstring a g) = u <$> all_strings g) as Eall.
  { unfold all_strings, fixstring. simpl. by rewrite !update_strings, fmap_app. }
  assert (∀ s0, saddr (u s0) = saddr s0 ∧ sdata (u s0) = sdata s0) as Hu by (intros s0; unfold u; by case_decide).
  split.
  - apply (g_wf_same g); [by apply update_wf; [|apply W]..|done| | |done];
      apply Permutation_eq; rewrite Eall, <-list_fmap_compose; apply list_fmap_ext; intros i s0 _; apply Hu.
  - intros d x. unfold interned. rewrite Eall. change (strempty (fixstring a g)) with (strempty g).
    setoid_rewrite elem_of_cons. split.
    + intros (s0 & [->|(s1 & -> & Hs1)%list_elem_of_fmap] & <- & <-); [by exists (strempty g); auto|].
      exists s1. destruct (Hu s1) as [-> ->]. auto.
    + intros (s0 & [->|Hs1] & <- & <-); [by exists (strempty g); auto|].
      exists (u s0). destruct (Hu s0) as [-> ->]. split; [|done]. right. by apply list_elem_of_fmap_2.
Qed.

(** [lj_lex_init] makes and marks the words one by one. *)
Lemma init_word_ok i ps ps' :
  (i < Z.to_nat TK_RESERVED)%nat → words_ok (Z.of_nat i) ps → init_word str_alloc i ps = Some ps' →
  words_ok (Z.of_nat i + 1) ps'.
Proof.
  intros Hi [Wg Hw Hdom Hall Wt Hm]. unfold init_word. set (d := nth i tokennames []).
  pose proof (word_nth i Hi) as Ewd. fold d in Ewd.
  destruct (uj_str_new (str_alloc ps) d (pg ps)) as [s g|] eqn:E; [|done]. intros; simplify_eq.
  destruct (new_str_addr _ _ _ _ _ Wg (alloc_fresh ps Wg) E) as (_ & W' & Hd & Ha & Hint).
  destruct (fixstring_ok (saddr s) g W') as [W'' Hf].
  assert (u8 (Z.of_nat i + 1) = Z.of_nat i + 1) as Eu.
  { unfold u8. apply wrapu_id. unfold in_u. change (Z.to_nat TK_RESERVED) with 22%nat in Hi. lia. }
  split; simpl; [done|..]; [| | |done|done].
  - intros e a Hea%Hf. destruct (decide (a = saddr s)) as [->|Hne].
    + assert (e = d) as -> by (by apply (interned_eq g e d (saddr s) (saddr s))).
      rewrite lookup_insert_eq. simpl. rewrite Eu, Ewd, (proj2 (Z.leb_le _ _)) by lia. split; [done|].
      destruct Ha as [->|Ha]; [apply alloc_addr|by eapply Hw].
    + rewrite lookup_insert_ne by done. apply Hint in Hea as [[_ ?]|Hea]; [done|]. destruct (Hw e a Hea) as [-> ?].
      split; [|done]. destruct (decide (word e = Z.of_nat i + 1)) as [Ew|Ew].
      * apply word_at in Ew as ->; [|done]. destruct Hne. apply (interned_eq g d d a (saddr s) W'); [apply Hint; by right|done|done].
      * destruct (Z.leb_spec (word e) (Z.of_nat i)), (Z.leb_spec (word e) (Z.of_nat i + 1)); lia.
  - intros a r. destruct (decide (a = saddr s)) as [->|Hne]; [intros _; exists d; by apply Hf|].
    rewrite lookup_insert_ne by done. intros (e & He)%Hdom. exists e. apply Hf, Hint. by right.
  - intros e He. setoid_rewrite Hf. destruct (decide (word e = Z.of_nat i + 1)) as [Ew|Ew].
    + apply word_at in Ew as ->; [|done]. by exists (saddr s).
    + destruct (Hall e) as [a He']; [lia|]. exists a. apply Hint. by right.
Qed.

Lemma init_words_ok n i ps ps' :
  (i + n ≤ Z.to_nat TK_RESERVED)%nat → words_ok (Z.of_nat i) ps → init_words str_alloc n i ps = Some ps' →
  words_ok (Z.of_nat (i + n)) ps'.
Proof.
  revert i ps. induction n as [|n IH]; intros i ps Hi Hw; simpl; [intros; simplify_eq; by rewrite Nat.add_0_r|].
  destruct (init_word str_alloc i ps) as [ps1|] eqn:E; [|done].
  apply init_word_ok in E; [|lia|done]. intros Hn. replace (i + S n)%nat with (S i + n)%nat by lia.
  eapply IH; [lia| |exact Hn]. by replace (Z.of_nat (S i)) with (Z.of_nat i + 1) by lia.
Qed.

(** [lj_lex_init] marks exactly the reserved words. *)
Lemma lj_lex_init_ok ps ps' :
  g_wf (pg ps) → preserved ps = ∅ → (∀ d a, interned (pg ps) d a → a ≠ 2 ^ 63) →
  TabWf.twf (kt ps) → TabWf.mutable (kt ps) → lj_lex_init str_alloc ps = Some ps' → ps_ok ps'.
Proof.
  intros Wg He Ha Wt Hm Hi. apply (init_words_ok _ 0 ps) in Hi; [exact Hi|done|].
  split; [done|..]; [| | |done|done].
  - intros d a Hd. split; [|by eapply Ha]. rewrite He, lookup_empty. simpl. pose proof (word_range d).
    destruct (Z.leb_spec (word d) (Z.of_nat 0)); lia.
  - intros a r. by rewrite He, lookup_empty.
  - intros d Hd. simpl in Hd. lia.
Qed.

(** Anchored: a key of the table of constants with a value. *)
Definition anchored (ps : pstate) (a : Z) : Prop :=
  ∃ v, Tab.lj_tab_get (kt ps) (TGCV GT_STR a) = Some v ∧ v ≠ TNil.

Lemma slot_write_same t sl : Tab.slot_write (Tab.slot_read t sl) sl t = t.
Proof.
  destruct t as [m nm c mt ar nd hm ft], sl as [i|i]; simpl; unfold Tab.set_array, Tab.set_node; simpl; f_equal.
  - destruct (ar !! i) as [v|] eqn:E; simpl; [by apply list_insert_id|].
    apply list_insert_ge. by apply lookup_ge_None_1.
  - etrans; [|by apply (list_alter_id (λ n, n))]. apply list_alter_ext; [|done].
    intros n Hn. rewrite Hn. by destruct n.
Qed.

(** A key that is set with a value is anchored, and the other keys stay. *)
Lemma anchor_set t k (m : Tab.M Tab.slot) sl t1 v :
  TabWf.twf t → TabChain.key_ok k → TabSpec.sets t k (m t) → m t = Tab.Ret sl t1 → v ≠ TNil →
  let t' := Tab.slot_write v sl t1 in
  TabWf.twf t' ∧ TabWf.mutable t' ∧
  ∀ k0, TabWf.tv_ok k0 → (uj_obj_equal k0 k = true ∨ ∃ v0, Tab.lj_tab_get t k0 = Some v0 ∧ v0 ≠ TNil) →
    ∃ v0, Tab.lj_tab_get t' k0 = Some v0 ∧ v0 ≠ TNil.
Proof.
  intros W Hk Hs E Hv. pose proof (TabSpec.sets_stores t k v m W Hk Hs) as Hst.
  unfold Tab.M_bind in Hst. rewrite E in Hst.
  destruct Hst as [(t' & Et & W' & Hm' & G)|(t' & Et & _)]; [|done]. injection Et as <-.
  split_and!; [done|done|]. intros k0 Hk0 Ho. rewrite (G k0 Hk0). eexists. split; [done|].
  unfold TabSpec.map_put. destruct (uj_obj_equal k0 k); [done|].
  destruct Ho as [?|(v0 & Hg & Hn)]; [done|]. rewrite TabWf.get_is_ref in Hg by done. congruence.
Qed.

#[export, refine] Instance parser_laws : LexLaws pstate (H:=parser_env str_alloc cd_alloc scan_number) := {|
  le_ok := ps_ok; le_str ps a d := interned (pg ps) d a; le_kept := anchored
|}.
Proof.
  - intros e a s s' Hok Hs Hs'. by apply (interned_eq (pg e) s s' a a (wo_g _ _ Hok)).
  - intros ps d a ps' [Wg Hw Hdom Hall Wt Hm]. simpl. unfold parse_keepstr.
    destruct (uj_str_new (str_alloc ps) d (pg ps)) as [s g|] eqn:E; [|done].
    destruct (new_str_addr _ _ _ _ _ Wg (alloc_fresh ps Wg) E) as (_ & W' & Hd & Ha & Hint).
    assert (saddr s ≠ 2 ^ 63) as Hne by (destruct Ha as [->|Ha]; [apply alloc_addr|by eapply Hw]).
    assert (TabChain.key_ok (TGCV GT_STR (saddr s))) as Hk by done.
    pose proof (TabSpec.lj_tab_setstr_sets 1 (kt ps) Wt Hm (saddr s) Hk) as Hset.
    destruct (Tab.tab_setstr (saddr s) (kt ps)) as [sl t1| |] eqn:Et; [|done|done].
    set (v := if tvisnil (Tab.slot_read t1 sl) then TBool true else Tab.slot_read t1 sl).
    assert (v ≠ TNil) as Hv by (unfold v; by destruct (Tab.slot_read t1 sl)).
    destruct (anchor_set (kt ps) _ _ sl t1 v Wt Hk Hset Et Hv) as (Wt' & Hm' & Hanch).
    assert ((if tvisnil (Tab.slot_read t1 sl) then Tab.slot_write (TBool true) sl t1 else t1) = Tab.slot_write v sl t1) as ->.
    { unfold v. destruct (tvisnil _); [done|]. by rewrite slot_write_same. }
    intros [= <- <-]. simpl.
    assert (∀ e x, interned g e x → default 0 (preserved ps !! x) = (if word e <=? TK_RESERVED then word e else 0) ∧ x ≠ 2 ^ 63)
      as Hw'.
    { intros e x [[-> ->]|Hex]%Hint; [|by apply Hw]. split; [|done].
      destruct (preserved ps !! saddr s) as [r|] eqn:Er.
      - destruct (Hdom _ _ Er) as (e & He). assert (e = d) as <-; [|rewrite <-Er; by apply (Hw e)].
        apply (interned_eq g e d (saddr s) (saddr s) W'); [apply Hint; by right|done|done].
      - pose proof (word_range d). rewrite (proj2 (Z.leb_le _ _)) by lia. simpl.
        destruct (decide (word d = 0)) as [|Hnz]; [done|]. destruct (Hall d) as [x Hx]; [lia|].
        assert (x = saddr s) as -> by (apply (interned_eq g d d x (saddr s) W'); [apply Hint; by right|done|done]).
        destruct (Hw d _ Hx) as [Hwd _]. rewrite Er, (proj2 (Z.leb_le _ _)) in Hwd by lia. done. }
    split; [|split_and!].
    + split; simpl; [done|done| | |done|done].
      * intros x r (e & He)%Hdom. exists e. apply Hint. by right.
      * intros e (x & Hx)%Hall. exists x. apply Hint. by right.
    + done.
    + apply Hanch; [done|left]. simpl. by rewrite Z.eqb_refl.
    + destruct (Hw' d _ Hd) as [-> _]. pose proof (word_range d). by rewrite (proj2 (Z.leb_le _ _)) by lia.
    + intros b. split; [intros x Hx; apply Hint; by right|]. intros Hb. apply Hanch; [done|by right].
  - intros ps fmt x a ps' [Wg Hw Hdom Hall Wt Hm]. simpl. unfold parse_keepcdata.
    assert (TabChain.key_ok (TGCV GT_CDATA (cd_alloc ps))) as Hk by (split; [done|apply alloc_addr]).
    pose proof (TabSpec.lj_tab_set_sets 1 (kt ps) _ Wt Hm Hk) as Hset.
    destruct (Tab.tab_set (TGCV GT_CDATA (cd_alloc ps)) (kt ps)) as [sl t1| |] eqn:Et; [|done|done].
    destruct (anchor_set (kt ps) _ _ sl t1 (TBool true) Wt Hk Hset Et ltac:(done)) as (Wt' & Hm' & Hanch).
    intros [= <- <-]. split; [by split|]. intros b. split; [done|]. intros Hb. apply Hanch; [done|by right].
Defined.

End ParserLaws.

(** ** Reading back what is printed *)

Definition spell (x : lexeme) : list Z :=
  match x with
  | XTok t => if TK_OFS <? t then nth (Z.to_nat (t - TK_OFS - 1)) tokennames [] else [t]
  | XName s => s
  | XNum s => s
  | XStr s => quoted s
  end.

(** The lexemes, each with a space behind it. *)
Definition print (xs : list lexeme) : list Z := concat (map (λ x, spell x ++ [32]) xs).

Section Print.
Context {S : Type} `{LexEnv S}.

(** A literal of a number that starts with a digit, or with a dot before it. *)
Definition num_text (s : list Z) : Prop :=
  (isdigit (hd 0 s) = true ∧ num_lit s = (s, [])) ∨
  ∃ s', s = 46 :: s' ∧ isdigit (hd 0 s') = true ∧ num_lit s' = (s', []).

(** Single characters that are not blank and do not start a name, a number or a string; operators; names
    and reserved words; numbers that convert to doubles; any strings. *)
Definition printable (x : lexeme) : Prop :=
  match x with
  | XTok t => (in_u 8 t ∧ lj_char_isident t = false ∧ isNewline t = false ∧ isspace t = false ∧ t ≠ 34 ∧ t ≠ 39) ∨
      TK_concat ≤ t ≤ TK_label
  | XName s => s ≠ [] ∧ Forall (λ c, lj_char_isident c = true) s ∧ isdigit (hd 0 s) = false
  | XNum s => num_text s ∧ (strscan_tonumber (s ++ [0])).1 = STRSCAN_NUM
  | XStr s => bytes s
  end.

Lemma span_all g a r :
  Forall (λ c, g c = true) a → match r with c :: _ => g c = false | [] => True end → span g (a ++ r) = (a, r).
Proof.
  intros Ha Hr. induction Ha as [|c a Hc _ IH]; cbn [app span]; [|by rewrite Hc, IH].
  destruct r as [|c r]; [done|]. cbn [span]. by rewrite Hr.
Qed.

(** A space ends a number. *)
Lemma num_chars_space c xp s t : num_chars c xp s = (s, []) → num_chars c xp (s ++ 32 :: t) = (s, 32 :: t).
Proof.
  revert c. induction s as [|d s IH]; intros c; cbn [num_chars app].
  - intros _. change (number_char c xp 32) with (((32 =? 45) || (32 =? 43)) && lj_char_casecmp c xp). done.
  - destruct (number_char c xp d); [|done]. destruct (num_chars d xp s) as [a r] eqn:E. intros; simplify_eq.
    by rewrite (IH d E).
Qed.

Lemma num_lit_space s t : num_lit s = (s, []) → s ≠ [] → num_lit (s ++ 32 :: t) = (s, 32 :: t).
Proof.
  destruct s as [|c s]; [done|]. intros Hn _. cbn [app]. unfold num_lit in *. destruct (c =? 48) eqn:E.
  - apply Z.eqb_eq in E as ->.
    assert ((match s with x :: _ => if lj_char_casecmp x 120 then 112 else 101 | [] => 101 end) =
      (match s ++ 32 :: t with x :: _ => if lj_char_casecmp x 120 then 112 else 101 | [] => 101 end)) as Ex by (by destruct s).
    rewrite <-Ex. destruct (num_chars 48 _ s) as [a r] eqn:En. injection Hn as <- ->.
    by rewrite (num_chars_space _ _ _ t En).
  - rewrite app_comm_cons. by apply num_chars_space.
Qed.

(** Not blank: the scanner starts here. *)
Lemma scan_here l c t :
  isNewline c = false → isspace c = false → (c = 45 → strip [45] t = None) →
  scan l (c :: t) = Some (scan1 l (c :: t)).
Proof.
  intros Hn Hs Hd. unfold scan. cbn [scan_fuel blank1]. rewrite Hn, Hs.
  destruct (Z.eqb_spec c 45) as [->|]; [by rewrite Hd|done].
Qed.

Lemma scan_space l t : scan l (32 :: t) = scan l t.
Proof. done. Qed.

Lemma digit_not_blank c : isdigit c = true → isNewline c = false ∧ isspace c = false ∧ c ≠ 45 ∧ c ≠ 46.
Proof.
  unfold isdigit, isNewline, isspace. intros Hc. bprop.
  rewrite !orb_false_iff, andb_false_iff, !Z.eqb_neq, !Z.leb_gt. lia.
Qed.

Lemma ident_facts c : lj_char_isident c = true → isNewline c = false ∧ isspace c = false ∧ c ≠ 45.
Proof.
  intros Hc. assert (∀ x, lj_char_isident x = false → c ≠ x) as Hne by (intros x Hx ->; congruence).
  split_and!; [by apply ident_not_newline| |by apply Hne]. unfold isspace.
  rewrite orb_false_iff, andb_false_iff, Z.eqb_neq, !Z.leb_gt.
  pose proof (Hne 9 eq_refl). pose proof (Hne 10 eq_refl). pose proof (Hne 11 eq_refl). pose proof (Hne 12 eq_refl).
  pose proof (Hne 13 eq_refl). pose proof (Hne 32 eq_refl). lia.
Qed.

(** A single character, with a space behind it. *)
Lemma scan1_char l c t :
  in_u 8 c → lj_char_isident c = false → c ≠ 34 → c ≠ 39 → scan1 l (c :: 32 :: t) = Scanned (XTok c) (32 :: t) l.
Proof.
  intros Hc Hi H34 H39. unfold scan1. assert (isdigit c = false) as ->.
  { destruct (isdigit c) eqn:E; [|done]. apply digit_ident in E. congruence. }
  rewrite Hi, (proj2 (Z.eqb_neq c 34)), (proj2 (Z.eqb_neq c 39)) by done. cbn [orb].
  do 7 (case_test; [match goal with E : (c =? _) = true |- _ => by apply Z.eqb_eq in E as -> end|]). done.
Qed.

Lemma scan_operator l t r :
  TK_concat ≤ t ≤ TK_label → scan l (spell (XTok t) ++ 32 :: r) = Some (Scanned (XTok t) (32 :: r) l).
Proof.
  unfold TK_concat, TK_label. intros Ht.
  assert (t = 279 ∨ t = 280 ∨ t = 281 ∨ t = 282 ∨ t = 283 ∨ t = 284 ∨ t = 285) as Hc by lia.
  destruct Hc as [->|[->|[->|[->|[->|[->| ->]]]]]]; reflexivity.
Qed.

Lemma scan_spell l x r :
  printable x → ∃ l', scan l (spell x ++ 32 :: r) = Some (Scanned x (32 :: r) l') ∧ l ≤ l' ≤ l + len (spell x).
Proof.
  assert (∀ s, 0 ≤ len s) as Hnn by (intros; unfold len; lia).
  destruct x as [t|s|s|s]; cbn [printable].
  - intros [(Hc & Hi & Hn & Hs & H34 & H39)|Ht]; exists l; (split; [|specialize (Hnn (spell (XTok t))); lia]).
    + assert (spell (XTok t) = [t]) as ->.
      { cbn [spell]. rewrite (proj2 (Z.ltb_ge TK_OFS t)); [done|]. unfold TK_OFS, in_u in *. lia. }
      cbn [app]. rewrite scan_here by done. by rewrite scan1_char.
    + by apply scan_operator.
  - intros (Hne & Hall & Hd). exists l. split; [|specialize (Hnn s); simpl; lia]. cbn [spell].
    destruct s as [|c s]; [done|]. pose proof Hall as [Hc _]%Forall_cons. cbn [app hd] in *.
    destruct (ident_facts c Hc) as (Hn & Hsp & H45). rewrite scan_here by done.
    unfold scan1. rewrite Hd, Hc. rewrite app_comm_cons, (span_all _ (c :: s) (32 :: r)) by done. done.
  - intros [[[Hd Hn]|(s' & -> & Hd & Hn)] _]; exists l; (split; [|match goal with |- _ ≤ _ ≤ _ + len ?z => specialize (Hnn z) end; lia]); cbn [spell].
    + destruct s as [|c s]; [done|]. cbn [app hd] in *. destruct (digit_not_blank c Hd) as (Hnl & Hsp & H45 & _).
      rewrite scan_here by done. unfold scan1. by rewrite Hd, app_comm_cons, num_lit_space.
    + destruct s' as [|c s']; [done|]. cbn [app hd] in *. destruct (digit_not_blank c Hd) as (_ & _ & _ & H46).
      rewrite scan_here by done. unfold scan1. change (isdigit 46) with false. change (lj_char_isident 46) with false.
      cbn [Z.eqb Pos.eqb orb]. rewrite (proj2 (Z.eqb_neq c 46)), Hd by done.
      by rewrite app_comm_cons, num_lit_space.
  - intros Hb. destruct (quoted_chars_read s (32 :: r) l Hb) as (l' & E & Hl). exists l'.
    cbn [spell]. unfold quoted. split.
    + rewrite <-app_comm_cons, <-app_assoc. cbn [app]. rewrite scan_here by done.
      unfold scan1. change (isdigit 34) with false. change (lj_char_isident 34) with false. cbn [Z.eqb Pos.eqb orb].
      by rewrite E.
    + assert (len s ≤ len (quoted_chars s)); [|unfold len in *; simpl; rewrite length_app; lia].
      unfold len. apply Nat2Z.inj_le. clear. induction s as [|c s IH]; cbn [quoted_chars length]; [lia|].
      rewrite length_app. assert (1 ≤ length (quoted_char c (hd 0%Z s)))%nat; [|lia].
      unfold quoted_char, two_digits. repeat case_match; simpl; lia.
Qed.

End Print.

(** ** Tokens one after the other *)

(** The fields that are set around [llex]. *)
Lemma lwf_fields {S} (ls ls' : LexState S) :
  current ls' = current ls → n ls' = n ls → p ls' = p ls → rdata ls' = rdata ls → sb ls' = sb ls →
  lwf ls → lwf ls' ∧ text ls' = text ls.
Proof.
  intros E1 E2 E3 E4 E5 [Hn Hb Hs]. assert (text ls' = text ls) as Et by (unfold text; by rewrite E1, E3, E4).
  split; [|done]. split; [by rewrite E1, E2, E3|by rewrite Et|by rewrite E5].
Qed.

Lemma lj_lex_next_spec {S} `{LexEnv S} (ls : LexState S) :
  lwf ls → room (text ls) [] (linenumber ls) → lookahead ls = TK_eof →
  match scan (linenumber ls) (text ls) with
  | Some (Scanned x r l) =>
      match make x (tokenval ls) (env ls) with
      | Made tok v e => ∃ ls', lj_lex_next ls = LOk () ls' ∧ lwf ls' ∧ text ls' = r ∧ linenumber ls' = l ∧
          env ls' = e ∧ token ls' = tok ∧ tokenval ls' = v ∧ lookahead ls' = TK_eof ∧ lastline ls' = linenumber ls
      | BadNumber => ∃ ts, lj_lex_next ls = LErr (ESyntax UJ_ERR_XNUMBER l ts)
      | Unkept => lj_lex_next ls = LErr EKeep
      end
  | Some (Failed em l) => ∃ ts, lj_lex_next ls = LErr (ESyntax em l ts)
  | None => False
  end.
Proof.
  intros W Hr Hla. set (ls0 := set_lastline (linenumber ls) ls).
  destruct (lwf_fields ls ls0 eq_refl eq_refl eq_refl eq_refl eq_refl W) as [W0 Et].
  pose proof (llex_spec ls0 (tokenval ls0) W0 ltac:(by rewrite Et)) as Hl. unfold llex_post in Hl. rewrite Et in Hl.
  change (linenumber ls0) with (linenumber ls) in Hl. change (tokenval ls0) with (tokenval ls) in Hl.
  change (env ls0) with (env ls) in Hl.
  assert (lj_lex_next ls = lbind (llex (tokenval ls)) (λ r ls, LOk () (set_token r.1 r.2 ls)) ls0) as ->.
  { unfold lj_lex_next. fold ls0. change (lookahead ls0) with (lookahead ls). by rewrite Hla. }
  unfold lbind. destruct (scan (linenumber ls) (text ls)) as [[x r l|em l]|]; [|by destruct Hl as [ts ->]; exists ts|done].
  destruct (make x (tokenval ls) (env ls)) as [tok v e| |]; [|by destruct Hl as [ts ->]; exists ts|by rewrite Hl].
  destruct Hl as (ls' & -> & W' & Et' & El & Ee & Ek). eexists. split; [done|].
  destruct (lwf_fields ls' (set_token tok v ls') eq_refl eq_refl eq_refl eq_refl eq_refl W') as [W'' Et''].
  split; [exact W''|]. cbn [fst snd]. rewrite Et''. unfold kept in Ek. injection Ek as E1 _ _ E2 _.
  split_and!; try done. simpl. by rewrite E2.
Qed.

(** [n] calls of [lj_lex_next] with what they give. *)
Fixpoint lex_tokens {S} `{LexEnv S} (n : nat) : L (S:=S) (list (Z * TValue)) :=
  match n with
  | O => ret []
  | Datatypes.S n =>
      lbind lj_lex_next (λ _ ls,
        lbind (lex_tokens n) (λ r, ret ((token ls, tokenval ls) :: r)) ls)
  end.

Lemma lex_tokens_next {S} `{LexEnv S} n (ls ls1 : LexState S) :
  lj_lex_next ls = LOk () ls1 →
  lex_tokens (Datatypes.S n) ls =
  match lex_tokens n ls1 with
  | LOk r ls' => LOk ((token ls1, tokenval ls1) :: r) ls' | LErr e => LErr e | LUndef => LUndef
  end.
Proof. intros E. simpl. unfold lbind at 1. by rewrite E. Qed.

Lemma lex_tokens_error {S} `{LexEnv S} n (ls : LexState S) e :
  lj_lex_next ls = LErr e → lex_tokens (Datatypes.S n) ls = LErr e.
Proof. intros E. simpl. unfold lbind at 1. by rewrite E. Qed.

(** What a token says of its lexeme: reserved words are tokens of their own, strings have their content. *)
Definition denotes {S} `{LexLaws S} (e : S) (x : lexeme) (tk : Z * TValue) : Prop :=
  match x with
  | XTok t => tk.1 = t
  | XName s => tk.1 = (if 0 <? word s then TK_OFS + word s else TK_name) ∧
      ∃ a, tk.2 = TGCV GT_STR a ∧ le_str e a s ∧ le_kept e a
  | XNum s => tk.1 = TK_number ∧ tk.2 = TNum (strscan_tonumber (s ++ [0])).2
  | XStr s => tk.1 = TK_string ∧ ∃ a, tk.2 = TGCV GT_STR a ∧ le_str e a s ∧ le_kept e a
  end.

(** Later environments know all that earlier ones know. *)
Definition extends {S} `{LexLaws S} (e e' : S) : Prop :=
  ∀ b, (∀ x, le_str e b x → le_str e' b x) ∧ (le_kept e b → le_kept e' b).

Lemma denotes_extends {S} `{LexLaws S} e e' x tk : extends e e' → denotes e x tk → denotes e' x tk.
Proof.
  intros He. destruct x; simpl; [done| |done|]; intros [? (a & ? & ? & ?)]; (split; [done|]); exists a;
    (split; [done|]); split; by apply He.
Qed.

Lemma make_denotes {S} `{LexLaws S} x tv (e : S) :
  printable x ∨ x = XTok TK_eof → le_ok e →
  match make x tv e with
  | Made tok v e' => le_ok e' ∧ extends e e' ∧ denotes e' x (tok, v)
  | BadNumber => False
  | Unkept => True
  end.
Proof.
  intros Hp Hok. assert (extends e e) as Hrefl by (intros b; done).
  destruct x as [t|s|s|s]; cbn [make]; [by split_and!|..]; destruct Hp as [Hp|?]; try done.
  - unfold keep. destruct (lj_parse_keepstr s e) as [[a e']|] eqn:E; [|done].
    destruct (le_keepstr e s a e' Hok E) as (Hok' & Hs & Hk & Hres & Hext). split_and!; [done|done|].
    cbn [denotes fst snd]. rewrite Hres. split; [done|]. by exists a.
  - destruct Hp as [_ Hn]. cbn [denotes]. destruct (strscan_tonumber (s ++ [0])) as [fmt d]. simpl in Hn. subst fmt. done.
  - unfold keep. destruct (lj_parse_keepstr s e) as [[a e']|] eqn:E; [|done].
    destruct (le_keepstr e s a e' Hok E) as (Hok' & Hs & Hk & _ & Hext). split_and!; [done|done|].
    split; [done|]. by exists a.
Qed.

Lemma lex_print {S} `{LexLaws S} xs (ls : LexState S) :
  Forall printable xs → lwf ls → room (text ls) [] (linenumber ls) → lookahead ls = TK_eof → le_ok (env ls) →
  text ls = print xs ∨ text ls = 32 :: print xs →
  lex_tokens (length xs + 1) ls = LErr EKeep ∨
  ∃ toks ls', lex_tokens (length xs + 1) ls = LOk toks ls' ∧ text ls' = [] ∧ extends (env ls) (env ls') ∧
    Forall2 (denotes (env ls')) (xs ++ [XTok TK_eof]) toks.
Proof.
  intros Hxs. revert ls. induction Hxs as [|x xs Hx Hxs IH]; intros ls W Hr Hla Hok Ht.
  - assert (scan (linenumber ls) (text ls) = Some (Scanned (XTok TK_eof) [] (linenumber ls))) as Es
      by (destruct Ht as [->| ->]; done).
    pose proof (lj_lex_next_spec ls W Hr Hla) as Hn. rewrite Es in Hn. cbn [make] in Hn.
    destruct Hn as (ls' & E & _ & Et & _ & Ee & Etok & _). right. exists [(token ls', tokenval ls')], ls'.
    cbn [length Nat.add]. rewrite (lex_tokens_next 0 ls ls' E). split; [done|]. split; [done|]. rewrite Ee. split; [by intros b|].
    by repeat constructor.
  - destruct (scan_spell (linenumber ls) x (print xs) Hx) as (l' & Es & Hl).
    assert (scan (linenumber ls) (text ls) = Some (Scanned x (32 :: print xs) l')) as Es'.
    { rewrite <-Es. replace (spell x ++ 32 :: print xs) with (print (x :: xs)).
      - by destruct Ht as [->| ->].
      - unfold print. simpl. by rewrite <-app_assoc. }
    assert (room (32 :: print xs) [] l') as Hr'.
    { assert (len (spell x) + len (32 :: print xs) ≤ len (text ls)) as Hlen.
      { destruct Ht as [->| ->]; unfold print, len; simpl; rewrite !length_app; simpl; lia. }
      unfold room in *. lia. }
    pose proof (lj_lex_next_spec ls W Hr Hla) as Hn. rewrite Es' in Hn.
    pose proof (make_denotes x (tokenval ls) (env ls) (or_introl Hx) Hok) as Hm.
    cbn [length Nat.add].
    destruct (make x (tokenval ls) (env ls)) as [tok v e| |]; [|done|left; by apply lex_tokens_error].
    destruct Hn as (ls1 & E & W1 & Et1 & El1 & Ee1 & Etok & Ev & Hla1 & _), Hm as (Hok1 & Hext & Hd). subst.
    rewrite (lex_tokens_next _ ls ls1 E). destruct (IH ls1 W1) as [E2|(toks & ls' & E2 & Et' & Hext' & HF)];
      [by rewrite Et1|done|done|by right|left; by rewrite E2|right].
    exists ((token ls1, tokenval ls1) :: toks), ls'. rewrite E2. split; [done|]. split; [done|].
    split; [intros b; destruct (Hext b), (Hext' b); split; auto|].
    constructor; [by eapply denotes_extends|done].
Qed.

(** C14: The lexer reads back what is printed.  Any sequence of names, reserved words, numbers, operators,
    single characters and arbitrary strings, printed with spaces in between and read through blocks of any
    sizes by calls of [lj_lex_next], gives exactly these tokens, then the end of the stream and nothing
    is left: reserved words are recognised by the string object that [lj_lex_init] has marked, strings
    and names are the interned objects with their content, anchored in the table of constants, and
    numbers have the values of the conversion; or a string cannot be made. *)
Theorem lex_print_roundtrip {S} `{LexLaws S} (xs : list lexeme) (ls : LexState S) :
  Forall printable xs → lwf ls → room (text ls) [] (linenumber ls) → lookahead ls = TK_eof → le_ok (env ls) →
  text ls = print xs →
  lex_tokens (length xs + 1) ls = LErr EKeep ∨
  ∃ toks ls', lex_tokens (length xs + 1) ls = LOk toks ls' ∧ text ls' = [] ∧
    Forall2 (denotes (env ls')) (xs ++ [XTok TK_eof]) toks.
Proof.
  intros Hxs W Hr Hla Hok Ht.
  destruct (lex_print xs ls Hxs W Hr Hla Hok (or_introl Ht)) as [E|(toks & ls' & E & Et & _ & HF)]; [by left|right; eauto].
Qed.

(** C16: Lines are counted right.  A call of [lj_lex_next] that succeeds moves the line by exactly the
    newlines that it reads, whether they are in white space, comments, long strings or escapes: the line
    and the newlines of the text that is left have a constant sum, where a pair of a carriage return and a
    line feed, in any order, is one newline. *)
Theorem lj_lex_next_lines {S} `{LexEnv S} (ls ls' : LexState S) :
  lwf ls → room (text ls) [] (linenumber ls) → lookahead ls = TK_eof → lj_lex_next ls = LOk () ls' →
  linenumber ls' + lines (text ls') = linenumber ls + lines (text ls) ∧ lastline ls' = linenumber ls ∧ lwf ls'.
Proof.
  intros W Hr Hla E. pose proof (lj_lex_next_spec ls W Hr Hla) as Hn. rewrite E in Hn.
  destruct (scan (linenumber ls) (text ls)) as [[x r l|em l]|] eqn:Es; [|by destruct Hn|done].
  destruct (make x (tokenval ls) (env ls)) as [tok v e| |]; [|by destruct Hn|done].
  destruct Hn as (ls1 & [= <-] & W' & <- & <- & _ & _ & _ & _ & Hlast). split; [by eapply scan_lines|done].
Qed.

(** ** Looking ahead *)

Lemma long_open_suffix t k r : long_open t = (k, r) → r `suffix_of` t.
Proof.
  unfold long_open. destruct (span (Z.eqb 61) t) as [es q] eqn:E. intros; simplify_eq.
  apply span_spec in E as (-> & _). by apply suffix_app_r.
Qed.

Lemma blank1_suffix l t r l' : blank1 l t = Blank r l' → r `suffix_of` t.
Proof.
  destruct t as [|c t]; [done|]. cbn [blank1]. destruct (isNewline c); [intros; simplify_eq; apply eol_suffix|].
  destruct (isspace c); [intros; simplify_eq; by apply suffix_cons_r|]. destruct (c =? 45); [|done].
  destruct (strip [45] t) as [t1|] eqn:E1; [|done]. apply strip1_some in E1 as ->. intros Hc.
  do 2 apply suffix_cons_r. revert Hc. unfold comment.
  destruct (strip [91] t1) as [t2|] eqn:E2; [|intros; simplify_eq; apply short_comment_suffix].
  apply strip1_some in E2 as ->. destruct (long_open t2) as [k t3] eqn:E3. apply long_open_suffix in E3.
  intros Hc. apply suffix_cons_r. etrans; [|exact E3]. revert Hc.
  destruct (strip [91] t3) as [t4|] eqn:E4; [|intros; simplify_eq; apply short_comment_suffix].
  apply strip1_some in E4 as ->. destruct (long_string UJ_ERR_XLCOM k l t4) eqn:E5; [|done]. intros; simplify_eq.
  apply suffix_cons_r. by eapply long_string_suffix.
Qed.

(** Tokens without a value: characters, operators, and the end of the stream where nothing is left. *)
Lemma scan_tok l t k r l' :
  bytes t → scan l t = Some (Scanned (XTok k) r l') → k < TK_OFS ∨ TK_concat ≤ k ≤ TK_label ∨ k = TK_eof ∧ r = [].
Proof.
  unfold scan. generalize (S (length t)) as fuel. intros fuel. revert l t.
  induction fuel as [|fuel IH]; intros l t Hb; [done|]. cbn [scan_fuel].
  destruct (blank1 l t) as [t' l1| |] eqn:E; [|clear E IH|done].
  { apply IH. eapply suffix_bytes; [by eapply blank1_suffix|done]. }
  intros [= Hs]. revert Hs. destruct t as [|c t]; [intros; simplify_eq/=; auto|].
  apply Forall_cons in Hb as [Hc _].
  assert (c < TK_OFS) as Hc' by (unfold in_u, TK_OFS in *; lia).
  assert (∀ c d x t, c < TK_OFS → TK_concat ≤ x ≤ TK_label → two c d x l t = Scanned (XTok k) r l' →
    k < TK_OFS ∨ TK_concat ≤ k ≤ TK_label ∨ k = TK_eof ∧ r = []) as Htwo by
    (intros c0 d x t0 Hc0 Hx; unfold two; destruct t0; [|case_test]; intros; simplify_eq; auto).
  unfold scan1. destruct (isdigit c); [by destruct (num_lit (c :: t))|].
  destruct (lj_char_isident c); [by destruct (span lj_char_isident (c :: t))|].
  destruct ((c =? 34) || (c =? 39)); [by destruct (str_body c false l t)|].
  destruct (c =? 91).
  { destruct (long_open t) as [m t2]. destruct (strip [91] t2) as [t3|]; [by destruct (long_string UJ_ERR_XLSTR m l t3)|].
    destruct m; intros; simplify_eq; left; by vm_compute. }
  do 5 (case_test; [by apply Htwo; [by vm_compute|by vm_compute]|]).
  destruct (c =? 46); [|intros; simplify_eq; by left].
  destruct t as [|d t]; [intros; simplify_eq; left; by vm_compute|]. destruct (d =? 46).
  { destruct (strip [46] t); intros; simplify_eq; right; left; by vm_compute. }
  destruct (isdigit d); [by destruct (num_lit (d :: t))|]. intros; simplify_eq; left; by vm_compute.
Qed.

(** Looking ahead does not change what is read: after [lj_lex_lookahead], [lj_lex_next] gives the token that
    it would have given at once, with the same text, line and objects behind it, also when the token ahead
    is the end of the stream, which is the mark for no token ahead.  Only reserved words are reserved. *)
Theorem lj_lex_lookahead_next {S} `{LexEnv S} (ls ls1 : LexState S) (tok : Z) :
  lwf ls → room (text ls) [] (linenumber ls) → lookahead ls = TK_eof →
  (∀ s e a e', lj_parse_keepstr s e = Some (a, e') → 0 ≤ reserved e' a ≤ TK_RESERVED) →
  lj_lex_lookahead ls = LOk tok ls1 →
  ∃ ls2 ls3, lj_lex_next ls1 = LOk () ls2 ∧ lj_lex_next ls = LOk () ls3 ∧ token ls2 = tok ∧ token ls3 = tok ∧
    text ls2 = text ls3 ∧ linenumber ls2 = linenumber ls3 ∧ env ls2 = env ls3 ∧
    lookahead ls2 = TK_eof ∧ lookahead ls3 = TK_eof ∧
    (tok = TK_name ∨ tok = TK_string ∨ tok = TK_number → tokenval ls2 = tokenval ls3).
Proof.
  intros W Hr Hla Hres E. unfold lj_lex_lookahead, lbind in E.
  pose proof (llex_spec ls (lookaheadval ls) W Hr) as Hl. unfold llex_post in Hl.
  pose proof (lj_lex_next_spec ls W Hr Hla) as Hn.
  destruct (scan (linenumber ls) (text ls)) as [[x r l|em l]|] eqn:Es; [|by destruct Hl as [? El]; rewrite El in E|done].
  assert (∀ tk v e, make x (lookaheadval ls) (env ls) = Made tk v e →
    ∃ v', make x (tokenval ls) (env ls) = Made tk v' e ∧ (tk = TK_name ∨ tk = TK_string ∨ tk = TK_number → v' = v) ∧
      (tk = TK_eof → r = [])) as Hmake.
  { pose proof (λ k E, scan_tok _ _ k r l (lw_bytes _ W) (eq_trans Es E)) as Htok.
    unfold TK_name, TK_string, TK_number, TK_eof, TK_OFS, TK_concat, TK_label in *.
    intros tk v e. destruct x as [t|s|s|s]; cbn [make]; unfold keep.
    - intros; simplify_eq. specialize (Htok tk eq_refl). eexists. split; [done|].
      split; [intros; exfalso; lia|]. intros. destruct Htok as [?|[?|[_ ?]]]; [exfalso; lia|exfalso; lia|done].
    - destruct (lj_parse_keepstr s (env ls)) as [[a e']|] eqn:Ek; [|done]. specialize (Hres _ _ _ _ Ek).
      intros; simplify_eq. eexists. split; [done|]. split; [done|]. unfold TK_RESERVED, TK_while, TK_OFS, TK_name in *.
      destruct (0 <? reserved e a); intros; exfalso; lia.
    - intros Hm. exists v. split; [done|]. split; [done|]. intros ->. revert Hm.
      destruct (strscan_tonumber (s ++ [0])) as [[] d]; try done; by destruct (keepcdata _ d (env ls)) as [[]|].
    - intros Hm. exists v. split; [done|]. split; [done|]. intros ->. revert Hm.
      by destruct (lj_parse_keepstr s (env ls)) as [[]|]. }
  destruct (make x (lookaheadval ls) (env ls)) as [tk v e| |] eqn:Em; [|by destruct Hl as [? El]; rewrite El in E|by rewrite Hl in E].
  destruct (Hmake tk v e eq_refl) as (v' & Em' & Hv & Heof). rewrite Em' in Hn.
  destruct Hn as (ls3 & E3 & W3 & Et3 & El3 & Ee3 & Etk3 & Ev3 & Hla3 & _).
  destruct Hl as (lsa & Ea & Wa & Eta & Ela & Eea & Eka). rewrite Ea in E. cbn [fst snd] in E. injection E as <- <-.
  destruct (decide (tk = TK_eof)) as [->|Hne].
  - set (ls1 := set_lookahead TK_eof v lsa).
    destruct (lwf_fields lsa ls1 eq_refl eq_refl eq_refl eq_refl eq_refl Wa) as [W1 Et1].
    assert (text ls1 = []) as Hnil by (by rewrite Et1, Eta, Heof).
    assert (room (text ls1) [] (linenumber ls1)) as Hr1.
    { rewrite Hnil. change (linenumber ls1) with (linenumber lsa). pose proof (scan_lines _ _ _ _ _ Es) as Hlines.
      rewrite (Heof eq_refl) in Hlines. rewrite Ela. simpl in Hlines.
      pose proof (lines_bound (text ls)). unfold room, len in *. simpl in *. lia. }
    pose proof (lj_lex_next_spec ls1 W1 Hr1 eq_refl) as Hn. rewrite Hnil in Hn.
    change (scan (linenumber ls1) []) with (Some (Scanned (XTok TK_eof) [] (linenumber ls1))) in Hn. cbn [make] in Hn.
    destruct Hn as (ls2 & E2 & _ & Et2 & El2 & Ee2 & Etk2 & _ & Hla2 & _).
    exists ls2, ls3. rewrite E2, E3, Et2, Et3, El2, El3, Ee2, Ee3, Heof by done.
    split_and!; try done. unfold TK_eof, TK_name, TK_string, TK_number. lia.
  - exists (set_lookahead TK_eof v (set_token tk v (set_lastline (linenumber lsa) (set_lookahead tk v lsa)))), ls3.
    split; [unfold lj_lex_next; simpl; by rewrite (proj2 (Z.eqb_neq tk TK_eof))|].
    destruct (lwf_fields lsa (set_lookahead TK_eof v (set_token tk v (set_lastline (linenumber lsa) (set_lookahead tk v lsa))))
      eq_refl eq_refl eq_refl eq_refl eq_refl Wa) as [_ ->]. simpl.
    rewrite Eta, Et3, Ela, El3, Eea, Ee3. split_and!; try done. intros Hval. rewrite Ev3. symmetry. by apply Hv.
Qed.

(** ** The start of a text *)

(** What [lj_lex_setup] finds: a dump, a dump behind a header, or a text from some line on. *)
Inductive start := Dump | Refused | Text (t : list Z) (line : Z).

Definition start_at (header : bool) (t : list Z) (l : Z) : start :=
  if hd END_OF_STREAM t =? LUA_SIGNATURE0 then if header then Refused else Dump else Text t l.

(** A first line that starts with a hash sign is skipped. *)
Definition start_of (header : bool) (t : list Z) : start :=
  match t with
  | c :: t1 =>
      if c =? 35 then match short_comment t1 with [] => Text [] 1 | r => start_at true (eol r) 2 end
      else start_at header t 1
  | [] => start_at header t 1
  end.

(** A byte order mark is recognised in the first block only. *)
Definition bom : list Z := [0xef; 0xbb; 0xbf].
Definition start_ref (bs : list (list Z)) : start :=
  match strip bom (hd [] bs) with Some _ => start_of true (drop 3 (flat bs)) | None => start_of false (flat bs) end.

Section Setup.
Context {S : Type} `{LexEnv S}.

Lemma does_hash t e k :
  bytes (35 :: t) → room (35 :: t) [] 1 →
  does (S:=S) (loop hash_turn ()) (View (35 :: t) [] 1 e k)
    match short_comment t with
    | [] => Gives None (View [] [] 1 e k)
    | r => Gives (Some true) (View (eol r) [] 2 e k)
    end.
Proof.
  generalize 35 as c. intros c Hb Hr. apply does_loop_any. simpl vtext. intros fuel. revert c t Hb Hr.
  induction fuel as [|fuel IH]; intros c t Hb Hr Hf; [lia|]. apply Forall_cons in Hb as [_ Hb].
  unfold short_comment. destruct t as [|d t].
  { apply iter_done. apply does_next_char; [fits|]. apply does_ret. }
  pose proof Hb as [Hd _]%Forall_cons. cbn [span].
  assert (d =? END_OF_STREAM = false) as Ee by (unfold END_OF_STREAM, in_u in *; lia).
  destruct (isNewline d) eqn:En; cbn [negb].
  - apply iter_done. apply does_next_char; [fits|]. cbn [hd]. rewrite Ee, En. cbn [negb].
    eapply does_bind; [apply does_inclinenumber; [done|fits..]|]. apply does_ret.
  - specialize (IH d t Hb ltac:(fits) ltac:(simpl in *; lia)). unfold short_comment in IH.
    destruct (span (λ c, negb (isNewline c)) t) as [a r]. cbn [snd] in *.
    eapply (iter_more _ _ _ _ ()); [|exact IH].
    apply does_next_char; [fits|]. cbn [hd]. rewrite Ee, En. apply does_ret.
Qed.

(** From the first character on. *)
Lemma does_start header t e k (m := lbind (skip_hash header) (λ h,
    match h with
    | None => ret false
    | Some header => lbind cur (λ c,
        if c =? LUA_SIGNATURE0 then if header then λ _, LErr EBad else ret true else ret false)
    end)) :
  bytes t → room t [] 1 →
  match start_of header t with
  | Text t' l => does m (View t [] 1 e k) (Gives false (View t' [] l e k))
  | Dump => ∃ v, does m (View t [] 1 e k) (Gives true v)
  | Refused => ∀ ls : LexState S, at_ ls (View t [] 1 e k) → m ls = LErr EBad
  end.
Proof.
  intros Hb Hr.
  assert (∀ h t' l, does (skip_hash header) (View t [] 1 e k) (Gives (Some h) (View t' [] l e k)) →
    match start_at h t' l with
    | Text t' l => does m (View t [] 1 e k) (Gives false (View t' [] l e k))
    | Dump => ∃ v, does m (View t [] 1 e k) (Gives true v)
    | Refused => ∀ ls : LexState S, at_ ls (View t [] 1 e k) → m ls = LErr EBad
    end) as Hat.
  { intros h t' l Hd. unfold start_at. destruct (hd END_OF_STREAM t' =? LUA_SIGNATURE0) eqn:E; [destruct h|].
    - intros ls Hls. destruct (Hd ls Hls) as (ls1 & E1 & Hls1). unfold m, lbind. rewrite E1.
      unfold cur. rewrite (at_cur ls1 _ Hls1). cbn [vtext]. by rewrite E.
    - eexists. eapply does_bind; [exact Hd|]. apply does_get. cbn [vtext]. rewrite E. apply does_ret.
    - eapply does_bind; [exact Hd|]. apply does_get. cbn [vtext]. rewrite E. apply does_ret. }
  unfold start_of. destruct t as [|c t]; [apply Hat; by apply does_get, does_ret|].
  destruct (c =? 35) eqn:Ec; [|apply Hat; apply does_get; cbn [vtext hd]; rewrite Ec; apply does_ret].
  apply Z.eqb_eq in Ec as ->. pose proof (does_hash t e k Hb Hr) as Hh.
  assert (∀ q, does (loop hash_turn ()) (View (35 :: t) [] 1 e k) q → does (skip_hash header) (View (35 :: t) [] 1 e k) q) as Hs.
  { intros q Hq. by apply does_get. }
  destruct (short_comment t) as [|d r]; [|apply Hat, Hs, Hh].
  eapply does_bind; [apply Hs, Hh|apply does_ret].
Qed.

Lemma lex_start_first bs (s : S) :
  bytes (flat bs) → len (flat bs) < 2 ^ 62 →
  ∃ ls, next (lex_start bs s) = LOk () ls ∧ at_ ls (View (flat bs) [] 1 s (1, 0, TNil, TK_eof, TNil)) ∧
    p ls = tail (hd [] bs) ∧ n ls = (if hd [] bs then 2 ^ 64 - 1 else len (tail (hd [] bs))) ∧ rdata ls = tail bs.
Proof.
  intros Hb Hl. assert (len (flat bs) < 2 ^ 63) as Hl' by lia.
  destruct (does_next 0 (flat bs) [] 1 s (1, 0, TNil, TK_eof, TNil) Hl' (lex_start bs s)) as (ls & E & Hat).
  { split; [split; [done| |split; [done|by left]]|done]. constructor; [simpl; unfold in_u; lia|done]. }
  exists ls. split; [done|]. split; [done|]. unfold next in E. simpl in E.
  destruct bs as [|[|c b] bs]; simpl in E; injection E as <-; done.
Qed.

End Setup.

(** The lexer starts at the text: a byte order mark in the first block and a first line that starts with a
    hash sign are skipped, and the line is counted; a dump is told apart, and refused behind any of them. *)
Theorem lj_lex_setup_correct {S} `{LexEnv S} (bs : list (list Z)) (s : S) :
  bytes (flat bs) → len (flat bs) + 8 < LJ_MAX_STR →
  match start_ref bs with
  | Dump => ∃ ls, lj_lex_setup (lex_start bs s) = LOk true ls
  | Refused => lj_lex_setup (lex_start bs s) = LErr EBad
  | Text t l => ∃ ls, lj_lex_setup (lex_start bs s) = LOk false ls ∧ lwf ls ∧ text ls = t ∧ linenumber ls = l ∧
      env ls = s ∧ lookahead ls = TK_eof
  end.
Proof.
  intros Hb Hl. destruct (lex_start_first bs s Hb ltac:(fits)) as (ls & E & Hat & Ep & En & Er).
  assert (∀ header ls' t, skip_bom ls = LOk header ls' → at_ ls' (View t [] 1 s (1, 0, TNil, TK_eof, TNil)) →
    bytes t → len t ≤ len (flat bs) →
    match start_of header t with
    | Dump => ∃ ls, lj_lex_setup (lex_start bs s) = LOk true ls
    | Refused => lj_lex_setup (lex_start bs s) = LErr EBad
    | Text t l => ∃ ls, lj_lex_setup (lex_start bs s) = LOk false ls ∧ lwf ls ∧ text ls = t ∧ linenumber ls = l ∧
        env ls = s ∧ lookahead ls = TK_eof
    end) as Hrest.
  { intros header ls' t Eb Hat' Hbt Hlt. pose proof (does_start header t s (1, 0, TNil, TK_eof, TNil) Hbt ltac:(fits)) as Hd.
    assert (lj_lex_setup (lex_start bs s) = lbind (skip_hash header) (λ h,
      match h with
      | None => ret false
      | Some header => lbind cur (λ c,
          if c =? LUA_SIGNATURE0 then if header then λ _, LErr EBad else ret true else ret false)
      end) ls') as ->.
    { unfold lj_lex_setup. unfold lbind at 1. rewrite E. unfold lbind at 1. by rewrite Eb. }
    destruct (start_of header t) as [| |t' l].
    - destruct Hd as [v Hd]. destruct (Hd ls' Hat') as (ls1 & E1 & _). exists ls1. exact E1.
    - exact (Hd ls' Hat').
    - destruct (Hd ls' Hat') as (ls1 & E1 & W1 & Hv). exists ls1. split; [exact E1|]. split; [exact W1|].
      split_and!; [exact (f_equal vtext Hv)|exact (f_equal vline Hv)|exact (f_equal venv Hv)|].
      pose proof (f_equal vkept Hv) as Hk. simpl in Hk. unfold kept in Hk. by injection Hk. }
  assert (current ls = hd END_OF_STREAM (flat bs)) as Ec by exact (at_cur ls _ Hat).
  unfold start_ref. destruct bs as [|[|c b] bs].
  1,2: apply (Hrest false ls []); [unfold skip_bom; by rewrite Ec|exact Hat|done|done].
  cbn [hd tail flat] in *. assert (∀ t : list Z, 0 ≤ len t) as Hnn by (intros; unfold len; lia).
  destruct (strip bom (c :: b)) as [b'|] eqn:Es.
  - assert (c :: b = bom ++ b') as Eb.
    { unfold bom in Es. cbn [strip] in Es. repeat case_match; simplify_eq; bprop; by subst. }
    unfold bom in Eb. cbn [app] in Eb. injection Eb as -> ->. cbn [app drop].
    assert (bytes (b' ++ flat bs)) as Hb' by (by do 3 apply Forall_cons in Hb as [_ Hb]).
    set (ls0 := set_input (current ls) (n ls - 2) b' (rdata ls) ls).
    assert (at_ ls0 (View (0xef :: b' ++ flat bs) [] 1 s (1, 0, TNil, TK_eof, TNil))) as Hat0.
    { destruct Hat as [[W1 W2 W3] Hv]. split.
      - split; [|unfold text, ls0; simpl; rewrite Ec; cbn [hd app]; constructor; [unfold in_u; lia|by rewrite Er]|done].
        intros _. simpl. rewrite En. unfold len. simpl. lia.
      - unfold view_of, text. simpl. rewrite Ec, Er. cbn [hd app Z.eqb].
        pose proof (f_equal vbuf Hv) as H1. pose proof (f_equal vline Hv) as H2. pose proof (f_equal venv Hv) as H3.
        pose proof (f_equal vkept Hv) as H4. simpl in H1, H2, H3, H4. unfold kept in *. simpl. rewrite H1, H2, H3.
        f_equal. exact H4. }
    assert (len (b' ++ flat bs) < 2 ^ 63) as Hl2 by (clear - Hl; fits).
    destruct (does_next _ _ _ _ _ _ Hl2 ls0 Hat0) as (ls' & E' & Hat').
    apply (Hrest true ls'); [|exact Hat'|rewrite drop_0; exact Hb'|idtac]. 2:{ clear - Hl. rewrite drop_0. fits. }
    unfold skip_bom. assert ((current ls =? 0xef) && (2 <=? n ls) = true) as ->.
    { rewrite Ec, En. apply andb_true_iff. split; [done|]. apply Z.leb_le. unfold len. simpl. lia. }
    rewrite Ep. cbn [Z.eqb Pos.eqb andb]. unfold lbind. fold ls0. by rewrite E'.
  - apply (Hrest false ls (c :: b ++ flat bs)); [|exact Hat|exact Hb|done].
    unfold skip_bom. rewrite Ec, En, Ep. cbn [hd app]. destruct (c =? 0xef) eqn:E1; [|done]. cbn [andb].
    destruct (2 <=? len b) eqn:E2; [|done]. destruct b as [|b0 [|b1 b]]; [done|done|].
    destruct ((b0 =? 0xbb) && (b1 =? 0xbf)) eqn:E3; [|done]. exfalso.
    apply andb_true_iff in E3 as [E3 E4]. apply Z.eqb_eq in E1, E3, E4. subst. by cbn in Es.
Qed.

(** ** A concrete lexer *)

(** Addresses behind all others. *)
Definition demo_alloc (ps : pstate) : Z :=
  let m := 1 + foldr Z.max 0 (Str.saddr <$> Str.strempty (pg ps) :: Str.all_strings (pg ps)) in
  if m =? 2 ^ 63 then m + 1 else m.

Lemma foldr_max_le (l : list Z) x : x ∈ l → x ≤ foldr Z.max 0 l.
Proof. induction l as [|y l IH]; [by intros ?%not_elem_of_nil|]. intros [->|Hx]%elem_of_cons; simpl; [lia|]. specialize (IH Hx). lia. Qed.

Lemma demo_alloc_fresh ps :
  demo_alloc ps ∉ Str.saddr <$> Str.strempty (pg ps) :: Str.all_strings (pg ps).
Proof.
  intros Hin%foldr_max_le. unfold demo_alloc in Hin. case_test_in Hin; bprop; lia.
Qed.

Definition demo_cd (ps : pstate) : Z := 0x1000.

Lemma demo_addr ps : demo_alloc ps ≠ 2 ^ 63 ∧ demo_cd ps ≠ 2 ^ 63.
Proof. split; [|done]. unfold demo_alloc. case_test; bprop; lia. Qed.

(** Decimal integers. *)
Definition demo_scan (s : list Z) : StrScanFmt * Z :=
  let ds := removelast s in
  if forallb isdigit ds then (STRSCAN_NUM, int2num (foldl (λ x d, 10 * x + (d - 48)) 0 ds)) else (STRSCAN_ERROR, 0).

#[local] Existing Instance StrTheorems.luajit2_hashf.
#[local] Existing Instance TabTheorems.demo_heap.
#[local] Instance demo_env : LexEnv pstate := parser_env demo_alloc demo_cd demo_scan.
#[local] Instance demo_laws : LexLaws pstate :=
  parser_laws demo_alloc demo_cd demo_scan (λ ps _, demo_alloc_fresh ps) demo_addr.

Definition demo_ps0 : pstate := MkP StrTheorems.demo_g ∅ TabTheorems.demo_new ∅.
Definition demo_ps : pstate := default demo_ps0 (lj_lex_init demo_alloc demo_ps0).

Lemma demo_ps_ok : le_ok demo_ps.
Proof.
  assert (match lj_lex_init demo_alloc demo_ps0 with Some _ => true | None => false end = true) as Hs by (by vm_compute).
  unfold demo_ps. destruct (lj_lex_init demo_alloc demo_ps0) as [ps|] eqn:E; [|done].
  destruct TabTheorems.demo_new_wf as [Wt Hm].
  change (ps_ok ps).
  refine (lj_lex_init_ok demo_alloc demo_cd (λ ps _, demo_alloc_fresh ps) demo_addr demo_ps0 ps
    StrTheorems.demo_g_wf eq_refl _ Wt Hm E).
  intros d a (x & Hx & _ & <-). change (pg demo_ps0) with StrTheorems.demo_g in Hx.
  assert (Str.all_strings StrTheorems.demo_g = []) as En by (by vm_compute). rewrite En in Hx.
  apply list_elem_of_singleton in Hx as ->. by vm_compute.
Qed.

(** The state at the first character of a sequence of blocks. *)
Lemma first_state {S} `{LexEnv S} (bs : list (list Z)) (s : S) :
  bool_decide (bytes (flat bs)) && (len (flat bs) <? 1000) = true →
  ∃ ls, next (lex_start bs s) = LOk () ls ∧ lwf ls ∧ room (text ls) [] (linenumber ls) ∧ text ls = flat bs ∧
    linenumber ls = 1 ∧ env ls = s ∧ lookahead ls = TK_eof.
Proof.
  intros [Hb%bool_decide_eq_true_1 Hl%Z.ltb_lt]%andb_true_iff.
  destruct (lex_start_first bs s Hb ltac:(lia)) as (ls & E & [W Hv] & _).
  pose proof (f_equal vtext Hv) as H1. pose proof (f_equal vline Hv) as H2. pose proof (f_equal venv Hv) as H3.
  pose proof (f_equal vkept Hv) as H4. simpl in H1, H2, H3, H4. unfold kept in H4. injection H4 as _ _ _ H4 _.
  exists ls. split; [exact E|]. split; [exact W|]. split; [|done]. rewrite H1, H2. fits.
Qed.

(** A long comment with two newlines and an operator, cut in the middle. *)
Definition demo_comment : list (list Z) :=
  [octs "--[=[ "; octs "]]"; 13 :: 10 :: octs "]=]"; [10]; octs " ~"; octs "=x"].

Lemma llex_reference_witness :
  ∃ ls ls', next (lex_start demo_comment demo_ps) = LOk () ls ∧ llex TNil ls = LOk (TK_ne, TNil) ls' ∧
    text ls' = octs "x" ∧ linenumber ls' = 3.
Proof.
  destruct (first_state demo_comment demo_ps) as (ls & E & W & Hr & Ht & Hl & _); [vm_compute; reflexivity|].
  pose proof (llex_reference ls TNil W Hr) as Hs. rewrite Ht, Hl in Hs.
  change (scan 1 (flat demo_comment)) with (Some (Scanned (XTok TK_ne) (octs "x") 3)) in Hs. cbn [make] in Hs.
  destruct Hs as (ls' & E' & _ & Ht' & Hl' & _). exists ls, ls'. split_and!; [exact E|exact E'|exact Ht'|exact Hl'].
Defined.

Lemma lj_lex_next_lines_witness :
  ∃ ls ls', next (lex_start demo_comment demo_ps) = LOk () ls ∧ lj_lex_next ls = LOk () ls' ∧
    linenumber ls' + lines (text ls') = 3.
Proof.
  destruct (first_state demo_comment demo_ps) as (ls & E & W & Hr & Ht & Hl & _ & Hla); [vm_compute; reflexivity|].
  pose proof (lj_lex_next_spec ls W Hr Hla) as Hs. rewrite Ht, Hl in Hs.
  change (scan 1 (flat demo_comment)) with (Some (Scanned (XTok TK_ne) (octs "x") 3)) in Hs. cbn [make] in Hs.
  destruct Hs as (ls' & E' & _).
  exists ls, ls'. split; [exact E|]. split; [exact E'|].
  destruct (lj_lex_next_lines ls ls' W Hr Hla E') as [Hn _]. rewrite Hn, Ht, Hl. reflexivity.
Defined.

(** A newline, a zero before a digit, a quote, a backslash, other control characters. *)
Definition demo_str : list Z := [10; 0; 49; 34; 92; 13; 127; 200].

Lemma addquoted_roundtrip_witness :
  ∃ c ls, addquoted (λ _, []) (inr demo_str) uj_sbuf_init = SOk (MkSbuf (quoted demo_str) c) ∧
    next (lex_start [take 5 (quoted demo_str); drop 5 (quoted demo_str) ++ octs "; x"] demo_ps) = LOk () ls ∧
    match lj_parse_keepstr demo_str demo_ps with
    | Some (a, e) => ∃ ls', llex TNil ls = LOk (TK_string, TGCV GT_STR a) ls' ∧ text ls' = octs "; x" ∧ env ls' = e
    | None => llex TNil ls = LErr EKeep
    end.
Proof.
  destruct (first_state [take 5 (quoted demo_str); drop 5 (quoted demo_str) ++ octs "; x"] demo_ps)
    as (ls & E & W & Hr & Ht & Hl & He & _); [vm_compute; reflexivity|].
  destruct (addquoted_roundtrip (λ _, []) demo_str ls TNil (octs "; x")) as (c & Ec & Hq).
  - apply (bool_decide_eq_true_1 _). vm_compute. reflexivity.
  - vm_compute. discriminate.
  - exists c, ls. split; [exact Ec|]. split; [exact E|]. rewrite <-He. apply Hq; [exact W|exact Hr|].
    rewrite Ht. vm_compute. reflexivity.
Defined.

(** The lexemes of: while x <= 12 with a string and a semicolon. *)
Definition demo_xs : list lexeme :=
  [XName (octs "while"); XName (octs "x"); XTok TK_le; XNum (octs "12"); XStr demo_str; XTok 59].
Definition demo_print : list (list Z) := [take 3 (print demo_xs); drop 3 (print demo_xs)].

Lemma demo_xs_printable : Forall printable demo_xs.
Proof.
  constructor; [|constructor; [|constructor; [|constructor; [|constructor; [|constructor; [|constructor]]]]]].
  - split; [done|]. split; [|done]. apply (bool_decide_eq_true_1 _). by vm_compute.
  - split; [done|]. split; [|done]. apply (bool_decide_eq_true_1 _). by vm_compute.
  - right. by vm_compute.
  - split; [|by vm_compute]. left. by vm_compute.
  - apply (bool_decide_eq_true_1 _). by vm_compute.
  - left. by vm_compute.
Qed.

Lemma lex_print_roundtrip_witness :
  ∃ ls toks ls', next (lex_start demo_print demo_ps) = LOk () ls ∧ lex_tokens 7 ls = LOk toks ls' ∧
    text ls' = [] ∧ Forall2 (denotes (env ls')) (demo_xs ++ [XTok TK_eof]) toks.
Proof.
  destruct (first_state demo_print demo_ps) as (ls & E & W & Hr & Ht & Hl & He & Hla); [vm_compute; reflexivity|].
  assert (match next (lex_start demo_print demo_ps) with
    | LOk _ ls => match lex_tokens 7 ls with LOk _ _ => true | _ => false end | _ => false end = true) as Hrun
    by (vm_compute; reflexivity).
  rewrite E in Hrun. destruct (lex_print_roundtrip demo_xs ls demo_xs_printable W Hr Hla) as [Hk|(toks & ls' & H1 & H2 & H3)].
  - rewrite He. exact demo_ps_ok.
  - rewrite Ht. vm_compute. reflexivity.
  - exfalso. change (length demo_xs + 1)%nat with 7%nat in Hk. rewrite Hk in Hrun. discriminate.
  - exists ls, toks, ls'. split; [exact E|]. split; [exact H1|]. split; [exact H2|exact H3].
Defined.

End LexTheorems.
